(* ===== verification/_CoqProject ===== *)
-Q . S2P
Prelude.v
Dialect.v
SqlLexer.v
SqlSafety.v
Placeholders.v
Relexing.v
Templates.v
JsonPath.v
MinHeap.v
CacheStore.v
JsonLoss.v
Filters.v
LikePattern.v
QueryStructure.v
Consolidation.v
Clauses.v
Fragments.v
BulkWrites.v
Chunking.v
Toggle.v
CacheKey.v
FullText.v
Decimals.v
BulkArithmetic.v
ExactArithmetic.v
ColumnValues.v
SqliteJson.v
JsonNumbers.v
JsonConditions.v
JsonContainment.v
BatchUpdate.v
BulkUpdates.v
Validation.v
QueryCache.v
PreparedStatements.v
Topology.v
FlushOrder.v
EntityManager.v
EntityContext.v
Utf8.v
PgBinary.v
PgValues.v
RowDecoding.v
SqliteOutputs.v
SqliteDocuments.v
TableTags.v
Relations.v
EagerRows.v
Base64.v
Tokenization.v
Migrator.v
Transactions.v
Atomicity.v
BatchInsert.v
DirtyTracking.v
Seeding.v
