(* ===== verification/Prelude.v ===== *)
(** * TideORM: a verification library

    TideORM is an ORM for Rust over PostgreSQL, MySQL, MariaDB and SQLite. This
    library models its own core logic, from src/src/, and proves what makes it
    correct. What the crate gets from elsewhere (the query engine and drivers, the
    AEAD cipher, argon2, serde_json, the hasher, the database servers) is a
    parameter of the definitions that use it, with what is relied on as a class or
    a named hypothesis, each of which a witness instantiates.

    ** The parts and how they meet

    - SQL text. A query builder renders SQL for a [DatabaseType]; names are quoted
      and values escaped by sql_safety.rs, which also decides which raw fragments
      of the user may be spliced in. sql_lexer.rs finds token boundaries for
      everything that inspects SQL; sql_safety/fulltext.rs rewrites what is typed
      into a search; query/db_sql/placeholders.rs renders a fragment with [?] markers and
      renumbers it when it is spliced behind others. [Dialect], [SqlLexer], [SqlSafety],
      [FullText], [Placeholders], with what splicing does to tokens in [Relexing] and
      [Templates].
    - The query cache (cache/query_cache.rs, store.rs, config.rs, control.rs,
      toggle.rs, internal/json_loss.rs): results keyed by query and tagged with
      their tables, evicted by one of three strategies, dropped by writes, filled
      by reads only if nothing they read was written meanwhile. [MinHeap],
      [CacheStore], [Toggle], [JsonLoss], [QueryCache]; keys built by hand
      (cache/builders.rs), [CacheKey].
    - Transactions (database/transaction.rs, cache/query_cache/pending.rs,
      internal/executor.rs): scopes and savepoints over one connection, with a
      record each of what to repeat in the cache after the commit, what to undo in
      memory after a rollback, and why no statement may run any more.
      [Transactions], [Atomicity].
    - Migrations (migration/migrator.rs, ledger.rs, sqlite_foreign_keys.rs,
      api.rs): migrations run in version order, each in a transaction with its row
      of the ledger where DDL is transactional. [Migrator]. Seeds (seeding.rs) run
      likewise, after what they depend on. [Seeding].
    - Queries (query/): the state a builder gathers, its conditions and their
      meaning, what is refused, fragments merged into queries, joins, unions,
      windows and CTEs as text, bulk writes, and the regrouping of joined rows.
      [JsonPath], [Filters], [LikePattern], [QueryStructure], [Clauses],
      [Fragments], [BulkWrites], [Consolidation]. The reads that wait for more than one
      answer (chunk, find, first, paginate in query/sql/execution.rs and
      shaped_reads.rs) are [Chunking]; the tables a cached read is tagged with,
      [TableTags].
    - JSON columns on SQLite (query/db_sql/sqlite_json.rs): containment and equality of
      documents as SQL over the rows of [json_each]. [SqliteJson], the text; [JsonNumbers],
      [JsonConditions], [JsonContainment], what it decides.
    - Models (internal/batch_insert.rs, internal/key_sequence.rs,
      model/dirty_tracking.rs): batches split and their rows put back in order, and
      the snapshots that tell what changed. [BatchInsert], [DirtyTracking]. What a bulk
      update writes for its arithmetic and binds for a column (model/batch/sql_execution.rs,
      internal/column_values.rs): [BulkArithmetic], [ExactArithmetic], [ColumnValues]; the
      bulk update itself (model/batch.rs and batch/, model/encryption.rs), from its setters to
      the statement it sends: [BatchUpdate], [BulkUpdates]. Their fields checked by rules (validation.rs, validation/values.rs). [Decimals],
      [Validation]. Their relations read for many parents at once (relations/eager.rs):
      [Relations], [EagerRows].
    - Row decoding (database/json_rows.rs and below it): rows of a driver to JSON
      objects, the values PostgreSQL sends in its binary format (arrays, ranges,
      numerics, intervals, moments), and the columns of a SQLite result that hold
      JSON documents, found in the statement's own text. [PgBinary], [PgValues],
      [RowDecoding], [SqliteOutputs], [SqliteDocuments].
    - The entity manager (entity_manager/): identity map, managed entries, saves and
      flushes in one unit of work, and what a rollback gives back. [FlushOrder],
      [EntityManager], [EntityContext].
    - Tokens (tokenization.rs): primary keys sealed for a table and spelled in
      base64url. [Utf8], [Base64], [Tokenization].
    - The prepared-statement statistics (cache/prepared_statements.rs),
      [PreparedStatements], and the dependency order of internal/topology.rs,
      [Topology].

    [Prelude] (this file) has the shared vocabulary: [result], characters and
    strings with Rust's byte positions, the hint databases, the tactics [bools] and
    [lengths], and the generic lemmas.

    ** How code is modelled

    A [String] is a list of Unicode scalar values ([str]); a byte position in it
    is a [nat], and a slice at no character boundary, an index out of range or a
    subtraction below zero is [None], the panic. What Unicode calls alphabetic or
    numeric beyond ASCII is the class [Unicode]. [u64] counters that the source
    wraps are taken modulo 2^64, saturating ones saturate; instants and durations
    are nanoseconds as [N], the clock an argument. Hash maps are [gmap]s; where the
    iteration order of a map matters it is a parameter that only lists the map's
    content. Errors are values of [result]. Text is built with the source's
    literals.

    State shared under a lock is passed explicitly, one transition per critical
    section; [qc_get] takes its lock up to three times and is three
    transitions, so that the theorems range over every interleaving. What a
    database server answers is an oracle: a list of replies, of which each request
    takes the next, and an exhausted list answers well. A failed request may have
    taken effect ([Migrator.Answer], [Transactions.Reply]).

    Loops that are not structural take fuel, with the bound that makes it enough:
    the lexer and [str::replace] the characters left (each step takes one), the
    eviction loops the entries or the heap's length (each round removes one),
    [take_ready] the nodes (each is popped once), the base64 inner loop the bits
    held, decimal printing the binary logarithm, the run splitting of a flush the
    entries left, the common divisor of two 64-bit integers two rounds for each bit, the passes over the tokens of a statement the tokens and one more, the rounds of
    [chunk] the rows left and one more, the splitting of keys into queries the keys
    themselves. A flush itself gives up after [MAX_FLUSH_PASSES]. The theorems state results, not
    what follows if there is one, so that fuel running out would falsify them.

    ** What the theorems show

    - [SqlSafety]: what an accepted raw fragment shows a server outside its quotes
      (no separator, comment or open quote, balanced parentheses in HAVING); any
      name quoted is one identifier token that reads back as the name; a column
      reference renders as identifiers and dots only; an escaped literal reads back
      as the value. The validator's backtick is no quote for PostgreSQL.
    - [SqlLexer]: the lexer never panics and its tokens tile the text.
    - [CacheStore], [QueryCache]: exact byte count, bounded indexes, eviction of
      exactly the least entry; a fill point is stale exactly when something it read
      was invalidated; under any interleaving stale rows never enter, bounds hold,
      an invalidation makes its readers misses, a replaced payload survives; a
      stored value reads back until its TTL is over.
    - [CacheKey], [FullText]: different calls build different keys; whatever is typed
      into a search, the query made of it has quoted terms and its own operators
      only, and the terms are those typed.
    - [Decimals], [Validation]: decimal texts compare as the numbers they spell;
      integers and decimals fail exactly the bounds they lie outside of; every
      failing rule is reported, in order.
    - [Atomicity]: a transaction commits nothing, or an execution of its code in
      which what was reported done took effect and what was reported failed did
      not; invalidations are repeated after the commit; undo steps follow the
      outcome. Two orders of dropping scopes get around it, and are shown.
    - [Migrator]: a run applies a prefix of the pending migrations, each with its
      row; a second run applies nothing; rollback, reset and SQL migrations; no
      dangling foreign key after a rebuild.
    - [Tokenization], [Base64]: canonical encoding, round trips, tokens stay with
      their table, blank secrets, the key cache is transparent.
    - [Filters], [LikePattern], [JsonPath]: the WHERE clause of a query means its
      conditions, none left out; a fluent OR means its branches; a value that JSON
      loses is refused; LIKE patterns decoded for SQLite match alike; JSON paths
      survive the trip to the database.
    - [JsonContainment]: the SQL that tests a JSON column of SQLite decides containment and
      equality of the documents, numbers by value whatever their spelling, and its values are
      bound where their markers stand. SQLite's [json_each] and three-valued logic are
      definitions of [JsonConditions].
    - [ExactArithmetic]: bulk arithmetic on a SQLite integer column is exact in 64 bits, or
      stops the statement.
    - [BulkUpdates]: a bulk update binds each value at a marker of its own, stores only sealed
      text or null in an encrypted field, changes exactly the rows of its scope and filters,
      or the first of them under a limit, and is refused when no filter can exclude a row.
    - [Templates], [TableTags], [Chunking]: every marker of a template is one
      placeholder of one of its values wherever it is spliced; every table a cached
      read goes to is among its tags; chunks hand out every row once, whatever the
      callback does to those it was given.
    - [EagerRows]: eager loading gives each parent what a query of its own would read,
      under any collation; through a pivot, what its links lead to; nested rows come
      back in their groups.
    - [Fragments], [BulkWrites], [Consolidation]: applying a fragment is making its
      calls; pages do not overflow; a bulk write changes exactly its rows and is
      refused without a filter that excludes some row; joined rows regroup by first
      appearance.
    - [PgValues], [RowDecoding], [SqliteDocuments]: what the server writes in binary
      for an array, a range, a numeric or an interval is read back as it was; a row
      keeps the value of every column it can decode, null only for null; a
      statement's output columns are classified whatever its text.
    - [BatchInsert], [DirtyTracking], [Seeding]: a batch returns its models in order
      whatever the strategy, or nothing of it is stored; snapshots come back with a
      rollback and changes are exact; seeds run whole and in order.
    - [FlushOrder], [EntityContext]: a flush writes each entry once, parents before
      children; a failed one leaves the identity map and its entries as they were;
      merges are three-way; handles are found under the keys they record.
    - [PreparedStatements], [Topology], [JsonLoss]: collision-safe registration and
      bounds; a sound, complete and deterministic order; exactness of the loss
      probe.

    ** What is not modelled

    Assembly of the query engine's syntax trees and the rendering of SELECTs,
    DDL rendering, schema introspection and sync, the calls on a single model and the
    relation wrappers (generic code over macro-generated types), the derive macros,
    configuration, profiling and reporting, attachments and translations. The keys of
    cached queries are a hash of the builder's state, and a hash is a parameter.
    Waiting (the gate and the savepoint slot of a connection, the migration locks) is
    modelled as done: statements of one connection run one at a time, and taking a
    lock is a request that may fail. *)

From stdpp Require Export base list gmap strings numbers option.
From Stdlib Require Export Lia ZifyBool ZifyN ZifyNat.

#[global] Set Default Goal Selector "!".

(** ** Notations, hint databases and tactics *)

Declare Scope tide_scope.
Delimit Scope tide_scope with tide.

(** [tide]: lemmas that close side conditions; [tide_len]: lengths of lists and
    byte lengths of strings. *)
Create HintDb tide.
Create Rewrite HintDb tide_len.

(** Goals about lengths. *)
Ltac lengths := autorewrite with tide_len in *; cbn in *; lia.

(** Turn the boolean tests of the context into propositions. *)
Ltac bools :=
  repeat match goal with
  | H : (_ && _)%bool = true |- _ => apply andb_true_iff in H as [? ?]
  | H : (_ || _)%bool = false |- _ => apply orb_false_iff in H as [? ?]
  | H : negb _ = true |- _ => apply negb_true_iff in H
  | H : negb _ = false |- _ => apply negb_false_iff in H
  | H : (_ =? _)%N = true |- _ => apply N.eqb_eq in H
  | H : (_ =? _)%N = false |- _ => apply N.eqb_neq in H
  | H : (_ =? _)%nat = true |- _ => apply Nat.eqb_eq in H
  | H : (_ =? _)%nat = false |- _ => apply Nat.eqb_neq in H
  end.

(** ** [Result]

    [std::result::Result], with the [?] operator as a bind. *)

Inductive result (A E : Type) := Ok (a : A) | Err (e : E).
Arguments Ok {A E} _.
Arguments Err {A E} _.

#[export] Instance result_eq_dec `{EqDecision A, EqDecision E} : EqDecision (result A E).
Proof. solve_decision. Defined.

Definition rbind {A B E} (r : result A E) (k : A → result B E) : result B E :=
  match r with Ok a => k a | Err e => Err e end.

Definition is_ok {A E} (r : result A E) : bool :=
  match r with Ok _ => true | Err _ => false end.

Notation "x <-? e ;; k" := (rbind e (λ x, k))
  (at level 100, e at next level, right associativity) : tide_scope.
Notation "e ;;? k" := (rbind e (λ _, k))
  (at level 100, right associativity) : tide_scope.

Lemma rbind_Ok {A B E} (r : result A E) (k : A → result B E) b :
  rbind r k = Ok b ↔ ∃ a, r = Ok a ∧ k a = Ok b.
Proof. destruct r; simpl; naive_solver. Qed.

(** ** Characters and strings of the Rust standard library

    A [char] is a Unicode scalar value, kept as its code point; a [str] is the
    sequence of its characters. Byte positions, which [str::find], slicing and
    [str::len] speak of, come from [len_utf8]. *)

Abbreviation char := N (only parsing).
Abbreviation str := (list N) (only parsing).

(** The non-ASCII halves of the tables behind [char::is_alphabetic] and
    [char::is_numeric] ([core::unicode::Alphabetic] and [core::unicode::N]):
    no result depends on what they hold. *)
Class Unicode := {
  uni_alphabetic : N → bool;
  uni_numeric : N → bool;
}.

(** The tables of a build with no character beyond ASCII, to evaluate the
    model on concrete text. *)
Definition ascii_only : Unicode :=
  {| uni_alphabetic := λ _, false; uni_numeric := λ _, false |}.

(** The characters of a string literal. *)
Definition lit (s : string) : str :=
  Ascii.N_of_ascii <$> String.list_ascii_of_string s.

Section chars.
Local Open Scope N_scope.

Definition is_ascii_digit (c : char) : bool := (48 <=? c) && (c <=? 57).

Definition is_ascii_alphabetic (c : char) : bool :=
  ((65 <=? c) && (c <=? 90)) || ((97 <=? c) && (c <=? 122)).

Definition is_ascii_alphanumeric (c : char) : bool :=
  is_ascii_alphabetic c || is_ascii_digit c.

(** [char::is_ascii]. *)
Definition is_ascii (c : char) : bool := c <? 128.

(** [u8::is_ascii_whitespace]: space, tab, line feed, form feed, return. *)
Definition is_ascii_whitespace (c : char) : bool :=
  (c =? 32) || (c =? 9) || (c =? 10) || (c =? 12) || (c =? 13).

Definition is_alphabetic `{Unicode} (c : char) : bool :=
  is_ascii_alphabetic c || ((127 <? c) && uni_alphabetic c).

Definition is_numeric `{Unicode} (c : char) : bool :=
  is_ascii_digit c || ((127 <? c) && uni_numeric c).

Definition is_alphanumeric `{Unicode} (c : char) : bool :=
  is_alphabetic c || is_numeric c.

(** [char::is_whitespace]: the White_Space property. *)
Definition is_whitespace (c : char) : bool :=
  (c =? 32) || ((9 <=? c) && (c <=? 13)) || (c =? 133) || (c =? 160)
  || (c =? 5760) || ((8192 <=? c) && (c <=? 8202)) || (c =? 8232)
  || (c =? 8233) || (c =? 8239) || (c =? 8287) || (c =? 12288).

(** [char::is_control]: the general category Cc. *)
Definition is_control (c : char) : bool :=
  (c <=? 31) || ((127 <=? c) && (c <=? 159)).

Definition to_ascii_lowercase_char (c : char) : char :=
  if (65 <=? c) && (c <=? 90) then c + 32 else c.

(** [char::len_utf8]: the bytes a character takes in UTF-8. *)
Definition len_utf8 (c : char) : nat :=
  if c <? 128 then 1 else if c <? 2048 then 2 else if c <? 65536 then 3 else 4.

End chars.

(** Comparison of texts. *)
Definition str_eqb (a b : str) : bool := bool_decide (a = b).

Lemma str_eqb_true a b : str_eqb a b = true ↔ a = b.
Proof. apply bool_decide_eq_true. Qed.

(** [str::to_ascii_lowercase]. *)
Definition to_ascii_lowercase (s : str) : str := to_ascii_lowercase_char <$> s.

(** [str::eq_ignore_ascii_case]. *)
Definition eq_ignore_ascii_case (a b : str) : bool :=
  str_eqb (to_ascii_lowercase a) (to_ascii_lowercase b).

(** [str::len], in bytes. *)
Fixpoint slen (s : str) : nat :=
  match s with
  | [] => 0
  | c :: s' => len_utf8 c + slen s'
  end.

(** [str::split_at] at a byte position; [None] is the panic of a position
    past the end or inside a character. *)
Fixpoint split_at (n : nat) (s : str) : option (str * str) :=
  match n, s with
  | 0, _ => Some ([], s)
  | S _, [] => None
  | S _, c :: s' =>
      if len_utf8 c <=? n
      then '(a, b) ← split_at (n - len_utf8 c) s'; Some (c :: a, b)
      else None
  end.

(** The slice [&s[n..]]. *)
Definition slice_from (n : nat) (s : str) : option str := snd <$> split_at n s.

(** [str::find] of a character test: the byte position of the first match. *)
Fixpoint find_byte (p : char → bool) (s : str) : option nat :=
  match s with
  | [] => None
  | c :: s' => if p c then Some 0 else (Nat.add (len_utf8 c)) <$> find_byte p s'
  end.

(** [str::starts_with] of a text. *)
Fixpoint starts_with (p s : str) : bool :=
  match p, s with
  | [], _ => true
  | c :: p', d :: s' => (c =? d)%N && starts_with p' s'
  | _ :: _, [] => false
  end.

(** [str::strip_prefix]. *)
Fixpoint strip_prefix (p s : str) : option str :=
  match p, s with
  | [], _ => Some s
  | c :: p', d :: s' => if (c =? d)%N then strip_prefix p' s' else None
  | _ :: _, [] => None
  end.

(** [str::ends_with] of a text. *)
Definition ends_with (p s : str) : bool := starts_with (rev p) (rev s).

(** [str::strip_suffix] of one character. *)
Definition strip_suffix_char (c : char) (s : str) : option str :=
  match rev s with
  | d :: r => if (d =? c)%N then Some (rev r) else None
  | [] => None
  end.

(** [Iterator::take_while] and what it leaves. *)
Fixpoint take_while {A} (p : A → bool) (l : list A) : list A :=
  match l with
  | [] => []
  | x :: l' => if p x then x :: take_while p l' else []
  end.

Fixpoint drop_while {A} (p : A → bool) (l : list A) : list A :=
  match l with
  | [] => []
  | x :: l' => if p x then drop_while p l' else l
  end.

(** [str::trim]. *)
Definition trim (s : str) : str :=
  rev (drop_while is_whitespace (rev (drop_while is_whitespace s))).

(** [str::split] by a character test: always at least one piece. *)
Fixpoint split_by (p : char → bool) (s : str) : list str :=
  match s with
  | [] => [[]]
  | c :: s' =>
      if p c then [] :: split_by p s'
      else match split_by p s' with
           | [] => [[c]]
           | w :: ws => (c :: w) :: ws
           end
  end.

(** [str::replace] of one character by a text. *)
Definition replace_char (c : char) (by_ : str) (s : str) : str :=
  s ≫= λ d, if (d =? c)%N then by_ else [d].

(** [str::replace] of a non-empty text: the leftmost matches, not overlapping.
    [fuel] bounds the characters read. *)
Fixpoint replace_fuel (fuel : nat) (pat by_ s : str) : str :=
  match fuel with
  | 0 => s
  | S fuel' =>
      match s with
      | [] => []
      | c :: s' =>
          match strip_prefix pat s with
          | Some rest => by_ ++ replace_fuel fuel' pat by_ rest
          | None => c :: replace_fuel fuel' pat by_ s'
          end
      end
  end.

Definition replace (pat by_ s : str) : str := replace_fuel (length s) pat by_ s.

(** [[str]::join]. *)
Fixpoint join (sep : str) (parts : list str) : str :=
  match parts with
  | [] => []
  | [p] => p
  | p :: rest => p ++ sep ++ join sep rest
  end.

(** [str::char_indices], counted from [off]. *)
Fixpoint char_indices (off : nat) (s : str) : list (nat * char) :=
  match s with
  | [] => []
  | c :: s' => (off, c) :: char_indices (off + len_utf8 c) s'
  end.

(** [Iterator::enumerate], counted from [off]. *)
Fixpoint enumerate {A} (off : nat) (l : list A) : list (nat * A) :=
  match l with
  | [] => []
  | x :: l' => (off, x) :: enumerate (S off) l'
  end.

(** [&l[from..to]]. *)
Definition slice {A} (from to : nat) (l : list A) : option (list A) :=
  if (from <=? to)%nat && (to <=? length l)%nat then Some (take (to - from) (drop from l)) else None.

(** [&text[from..to]], of byte positions. *)
Definition slice_text (from to : nat) (s : str) : option str :=
  rest ← slice_from from s;
  if (from <=? to)%nat then fst <$> split_at (to - from) rest else None.

(** ** Lemmas on characters and strings *)

Lemma len_utf8_pos c : 1 ≤ len_utf8 c.
Proof. unfold len_utf8. repeat case_match; lia. Qed.

Lemma len_utf8_ascii c : (c < 128)%N → len_utf8 c = 1.
Proof. intros H. unfold len_utf8. replace (c <? 128)%N with true by lia. done. Qed.

Lemma slen_app a b : slen (a ++ b) = slen a + slen b.
Proof. induction a; simpl; lia. Qed.

Lemma slen_length s : length s ≤ slen s.
Proof. induction s as [|c s IH]; simpl; [lia|]. pose proof (len_utf8_pos c). lia. Qed.

Lemma slen_nil_iff s : slen s = 0 ↔ s = [].
Proof.
  split; [|by intros ->]. destruct s as [|c s]; [done|]. simpl.
  pose proof (len_utf8_pos c). lia.
Qed.

(** Splitting after a prefix finds the prefix. *)
Lemma split_at_app a b : split_at (slen a) (a ++ b) = Some (a, b).
Proof.
  induction a as [|c a IH]; [by destruct b|].
  simpl slen. pose proof (len_utf8_pos c) as Hc. cbn [app].
  destruct (len_utf8 c + slen a) as [|n] eqn:E; [lia|].
  cbn [split_at]. rewrite (proj2 (Nat.leb_le _ _)) by lia.
  replace (S n - len_utf8 c) with (slen a) by lia. by rewrite IH.
Qed.

(** What a successful split says. *)
Lemma split_at_Some n s a b :
  split_at n s = Some (a, b) → s = a ++ b ∧ n = slen a.
Proof.
  revert n a b. induction s as [|c s IH]; intros n a b; destruct n as [|n]; simpl.
  - intros [= <- <-]. done.
  - done.
  - intros [= <- <-]. done.
  - destruct (len_utf8 c <=? S n) eqn:E; [|done].
    destruct (split_at (S n - len_utf8 c) s) as [[a' b']|] eqn:E'; [|done].
    intros [= <- <-]. apply IH in E' as [-> Hn]. split; [done|].
    simpl. apply Nat.leb_le in E. lia.
Qed.

Lemma find_byte_Some p s n :
  find_byte p s = Some n →
  ∃ a c b, s = a ++ c :: b ∧ n = slen a ∧ p c = true ∧ Forall (λ x, p x = false) a.
Proof.
  revert n. induction s as [|c s IH]; intros n; simpl; [done|].
  destruct (p c) eqn:E.
  - intros [= <-]. exists [], c, s. auto.
  - destruct (find_byte p s) as [m|] eqn:Ef; [|done]. intros [= <-].
    destruct (IH m eq_refl) as (a & d & b & -> & -> & Hd & Ha).
    exists (c :: a), d, b. repeat split; auto.
Qed.

Lemma find_byte_None p s : find_byte p s = None → Forall (λ x, p x = false) s.
Proof.
  induction s as [|c s IH]; simpl; [constructor|].
  destruct (p c) eqn:E; [done|].
  destruct (find_byte p s) eqn:Ef; [done|]. auto.
Qed.

Lemma strip_prefix_Some p s r : strip_prefix p s = Some r ↔ s = p ++ r.
Proof.
  revert s. induction p as [|c p IH]; intros s; simpl.
  - split; [by intros [= ->]|by intros ->].
  - destruct s as [|d s]; [done|]. destruct (c =? d)%N eqn:E.
    + apply N.eqb_eq in E as ->. rewrite IH. naive_solver.
    + apply N.eqb_neq in E. naive_solver.
Qed.

Lemma starts_with_spec p s : starts_with p s = true ↔ ∃ r, s = p ++ r.
Proof.
  revert s. induction p as [|c p IH]; intros s; simpl.
  - split; [by exists s|done].
  - destruct s as [|d s]; [split; [done|by intros (? & ?)]|].
    rewrite andb_true_iff, N.eqb_eq, IH. naive_solver.
Qed.

Lemma take_drop_while {A} (p : A → bool) l : take_while p l ++ drop_while p l = l.
Proof. induction l as [|x l IH]; simpl; [done|]. destruct (p x); simpl; congruence. Qed.

Lemma drop_while_head {A} (p : A → bool) l z rest : drop_while p l = z :: rest → p z = false.
Proof.
  induction l as [|x l IH]; simpl; [done|]. destruct (p x) eqn:E; [done|]. by intros [= -> _].
Qed.

Lemma take_while_all {A} (p : A → bool) l : Forall (λ x, p x = true) (take_while p l).
Proof. induction l as [|x l IH]; simpl; [constructor|]. destruct (p x) eqn:?; auto. Qed.

Lemma take_while_stop {A} (p : A → bool) l s :
  Forall (λ x, p x = true) l → match s with [] => True | x :: _ => p x = false end →
  take_while p (l ++ s) = l ∧ drop_while p (l ++ s) = s.
Proof.
  intros Hl Hs. induction Hl as [|x l Hx _ [IH1 IH2]].
  - destruct s as [|x s]; [done|]. cbn. by rewrite Hs.
  - cbn. by rewrite Hx, IH1, IH2.
Qed.

Lemma omap_step {A B} (f : A → option B) x l :
  omap f (x :: l) = match f x with Some y => y :: omap f l | None => omap f l end.
Proof. done. Qed.

Lemma length_enumerate {A} off (l : list A) : length (enumerate off l) = length l.
Proof. revert off. induction l; intros off; simpl; auto. Qed.

Lemma enumerate_app {A} off (l l' : list A) :
  enumerate off (l ++ l') = enumerate off l ++ enumerate (off + length l) l'.
Proof.
  revert off. induction l as [|x l IH]; intros off; cbn; [by rewrite Nat.add_0_r|].
  by rewrite IH, <- Nat.add_succ_comm.
Qed.

Lemma lookup_enumerate {A} off (l : list A) i : enumerate off l !! i = (λ x, (off + i, x)) <$> l !! i.
Proof.
  revert off i. induction l as [|x l IH]; intros off [|i]; cbn; [done..|by rewrite Nat.add_0_r|].
  rewrite IH. by replace (S off + i) with (off + S i) by lia.
Qed.

(** *** Positions by name

    [.iter().enumerate().map(|(i, x)| (name(x), i)).collect::<HashMap<_, _>>()]. *)

Definition positions {A} (name : A → str) (l : list A) : gmap str nat :=
  foldl (λ m ix, <[name ix.2 := ix.1]> m) ∅ (enumerate 0 l).

Lemma foldl_positions {A} (name : A → str) (l : list A) (m : gmap str nat) off k :
  NoDup (name <$> l) →
  foldl (λ m ix, <[name ix.2 := ix.1]> m) m (enumerate off l) !! k
  = match list_find (λ x, name x = k) l with
    | Some (i, _) => Some (off + i)
    | None => m !! k
    end.
Proof.
  revert m off. induction l as [|x l IH]; intros m off; [done|].
  cbn [fmap list_fmap]. intros [Hk Hnd]%list.NoDup_cons. cbn [enumerate foldl list_find]. rewrite IH by done.
  case_decide as Hd.
  - assert (list_find (λ x, name x = k) l = None) as ->.
    { apply list_find_None, list.Forall_forall. intros y Hy Hyk. apply Hk. rewrite Hd, <- Hyk.
      apply list_elem_of_fmap. eauto. }
    cbn. rewrite Hd, lookup_insert_eq, Nat.add_0_r. done.
  - destruct (list_find _ l) as [[i y]|]; cbn; [f_equal; lia|]. by rewrite lookup_insert_ne.
Qed.

Lemma positions_lookup {A} (name : A → str) (l : list A) k i :
  NoDup (name <$> l) → positions name l !! k = Some i ↔ ∃ x, l !! i = Some x ∧ name x = k.
Proof.
  intros Hnd. unfold positions. rewrite foldl_positions by done. rewrite lookup_empty.
  destruct (list_find _ l) as [[j y]|] eqn:E.
  - apply list_find_Some in E as (Hj & Hy & _). split.
    + intros [= <-]. eauto.
    + intros (x & Hi & Hk). f_equal. cbn. eapply (NoDup_lookup (name <$> l)); [done|..];
        rewrite list_lookup_fmap; [by rewrite Hj|]. rewrite Hi. cbn. by rewrite Hk, Hy.
  - split; [done|]. intros (x & Hi & Hk). apply list_find_None in E. rewrite list.Forall_forall in E.
    destruct (E x); [by eapply list_elem_of_lookup_2|done].
Qed.

Arguments split_at : simpl never.
Arguments len_utf8 : simpl never.
Arguments lit : simpl never.

#[export] Hint Rewrite @length_app @length_fmap @length_cons slen_app : tide_len.
#[export] Hint Resolve len_utf8_pos slen_length : tide.

(** Filters that agree on a list's elements. *)
Lemma filter_ext_elem {A} (P Q : A → Prop) `{!∀ x, Decision (P x), !∀ x, Decision (Q x)} (l : list A) :
  (∀ x, x ∈ l → P x ↔ Q x) → filter P l = filter Q l.
Proof.
  induction l as [|x l IH]; intros Hl; [done|]. rewrite !list.filter_cons.
  rewrite IH by (intros y Hy; apply Hl; by right).
  destruct (decide (P x)), (decide (Q x)); try done; exfalso; destruct (Hl x); [by left|tauto|by left|tauto].
Qed.

Lemma to_ascii_lowercase_idemp s : to_ascii_lowercase (to_ascii_lowercase s) = to_ascii_lowercase s.
Proof.
  unfold to_ascii_lowercase. rewrite <- list_fmap_compose. apply list_fmap_ext. intros _ c _. cbn.
  unfold to_ascii_lowercase_char.
  destruct ((65 <=? c)%N && (c <=? 90)%N) eqn:E; [|by rewrite E].
  destruct ((65 <=? c + 32)%N && (c + 32 <=? 90)%N) eqn:E'; [lia|done].
Qed.
