(* ===== verification/Dialect.v ===== *)
(** * The configured database backend

    [DatabaseType] and the capability questions asked of it
    (src/src/config/database.rs), the runtime [Backend] (src/src/internal/backend.rs)
    and the bound-parameter markers (src/src/internal/mod.rs). *)

From S2P Require Import Prelude.

Inductive DatabaseType := Postgres | MySQL | MariaDB | SQLite.

#[export] Instance DatabaseType_eq_dec : EqDecision DatabaseType.
Proof. solve_decision. Defined.

Definition supports_arrays (db : DatabaseType) : bool :=
  match db with Postgres => true | _ => false end.

Definition supports_returning (db : DatabaseType) : bool :=
  match db with
  | Postgres => true
  | MySQL => false
  | MariaDB => false
  | SQLite => true
  end.

Definition optimal_batch_size (db : DatabaseType) : nat :=
  match db with
  | Postgres => 1000
  | MySQL | MariaDB => 500
  | SQLite => 100
  end.

(** A double quote on PostgreSQL and SQLite, a backtick on the MySQL family. *)
Definition quote_char (db : DatabaseType) : char :=
  match db with
  | Postgres | SQLite => 34
  | MySQL | MariaDB => 96
  end%N.

(** The runtime backend, which does not tell MariaDB from MySQL. *)
Inductive Backend := BPostgres | BMySql | BSqlite.

#[export] Instance Backend_eq_dec : EqDecision Backend.
Proof. solve_decision. Defined.

Definition as_database_type (b : Backend) : DatabaseType :=
  match b with
  | BPostgres => Postgres
  | BMySql => MySQL
  | BSqlite => SQLite
  end.

(** Decimal digits of an unsigned integer, as [Display] writes them. *)
Fixpoint digits_fuel (fuel : nat) (n : N) (acc : str) : str :=
  match fuel with
  | 0 => acc
  | S fuel' =>
      let acc' := (48 + n mod 10)%N :: acc in
      if (n <? 10)%N then acc' else digits_fuel fuel' (n / 10)%N acc'
  end.

(** [u64]/[usize] [Display]: twenty digits are enough for a 64-bit number, and
    the fuel grows with the number beyond that. *)
Definition show_N (n : N) : str := digits_fuel (S (N.to_nat (N.log2 n))) n [].

Definition u64_max : N := 18446744073709551615.

(** The digits of [str::parse::<u64>] and of [usize], which is as wide: checked
    multiplication and addition, so a number past 64 bits is an error. *)
Fixpoint parse_digits (acc : N) (s : str) : option N :=
  match s with
  | [] => Some acc
  | c :: s' =>
      if is_ascii_digit c
      then let acc' := (acc * 10 + (c - 48))%N in
           if (acc' <=? u64_max)%N then parse_digits acc' s' else None
      else None
  end.

(** [str::parse::<u64>]: a leading [+] is allowed, an empty text is not. *)
Definition parse_u64 (s : str) : option N :=
  match s with
  | [] => None
  | c :: s' =>
      if (c =? 43)%N then match s' with [] => None | _ => parse_digits 0 s' end
      else parse_digits 0 s
  end.

(** [$index] on PostgreSQL, a positional [?] everywhere else. *)
Definition placeholder (db : DatabaseType) (index : N) : str :=
  match db with
  | Postgres => 36%N :: show_N index
  | MySQL | MariaDB | SQLite => lit "?"
  end.

(** [push_param]: bind [value] and return the placeholder that refers to it. *)
Definition push_param {V} (db : DatabaseType) (params : list V) (value : V)
  : list V * str :=
  let params' := params ++ [value] in
  (params', placeholder db (N.of_nat (length params'))).

(** ** Printing and reading numbers *)

(** The number a run of digits denotes, read after [acc]. *)
Definition digits_value (acc : N) (ds : str) : N :=
  foldl (λ a c, a * 10 + (c - 48))%N acc ds.

Lemma digits_value_ge acc ds : (acc ≤ digits_value acc ds)%N.
Proof.
  revert acc. induction ds as [|c ds IH]; intros acc; cbn; [lia|].
  etrans; [|apply IH]. lia.
Qed.

Lemma parse_digits_value acc ds :
  Forall (λ c, is_ascii_digit c = true) ds → (digits_value acc ds ≤ u64_max)%N →
  parse_digits acc ds = Some (digits_value acc ds).
Proof.
  intros Hd. revert acc. induction Hd as [|c ds Hc _ IH]; intros acc Hv; [done|].
  cbn [parse_digits digits_value foldl] in *. rewrite Hc.
  pose proof (digits_value_ge (acc * 10 + (c - 48)) ds).
  rewrite (proj2 (N.leb_le _ _)) by (unfold digits_value in *; lia). by apply IH.
Qed.

Lemma digits_fuel_spec fuel n acc :
  (n < 2 ^ N.of_nat fuel)%N → 0 < fuel →
  ∃ ds, digits_fuel fuel n acc = ds ++ acc ∧ ds ≠ []
        ∧ Forall (λ c, is_ascii_digit c = true) ds ∧ digits_value 0 ds = n.
Proof.
  revert n acc. induction fuel as [|fuel IH]; intros n acc Hn Hf; [lia|]. cbn [digits_fuel].
  assert (n mod 10 < 10)%N as Hm by (apply N.mod_lt; lia).
  assert (is_ascii_digit (48 + n mod 10) = true) as Hd.
  { unfold is_ascii_digit. apply andb_true_iff. split; apply N.leb_le; lia. }
  destruct (n <? 10)%N eqn:E.
  { exists [(48 + n mod 10)%N]. split_and!; [done|done|by repeat constructor|].
    cbn. rewrite N.mod_small by lia. lia. }
  assert (10 ≤ n)%N by lia. destruct fuel as [|fuel]; [cbn in Hn; lia|].
  destruct (IH (n / 10)%N ((48 + n mod 10)%N :: acc)) as (ds & -> & _ & Hds & Hv); [|lia|].
  { apply N.Div0.div_lt_upper_bound. rewrite Nat2N.inj_succ, N.pow_succ_r' in Hn. lia. }
  exists (ds ++ [(48 + n mod 10)%N]). split_and!.
  - by rewrite <- app_assoc.
  - by destruct ds.
  - apply Forall_app. split; [done|by repeat constructor].
  - unfold digits_value in *. rewrite foldl_app. cbn [foldl]. rewrite Hv.
    rewrite N.add_comm, (N.add_comm 48), N.add_sub, N.add_comm, N.mul_comm.
    symmetry. apply N.div_mod'.
Qed.

(** A printed number is a run of digits, and denotes the number. *)
Lemma show_N_spec n :
  show_N n ≠ [] ∧ Forall (λ c, is_ascii_digit c = true) (show_N n)
  ∧ digits_value 0 (show_N n) = n.
Proof.
  destruct (digits_fuel_spec (S (N.to_nat (N.log2 n))) n []) as (ds & E & ? & ? & ?); [|lia|].
  { rewrite Nat2N.inj_succ, N2Nat.id. destruct (decide (n = 0%N)) as [->|]; [done|].
    apply N.log2_spec. lia. }
  unfold show_N. rewrite E, app_nil_r. done.
Qed.

(** [parse] reads back what [Display] wrote. *)
Lemma parse_u64_show n : (n ≤ u64_max)%N → parse_u64 (show_N n) = Some n.
Proof.
  intros Hn. destruct (show_N_spec n) as (Hne & Hd & Hv).
  destruct (show_N n) as [|c ds] eqn:E; [done|]. unfold parse_u64.
  destruct (c =? 43)%N eqn:Ec.
  - apply N.eqb_eq in Ec as ->. by apply list.Forall_cons in Hd as [? _].
  - rewrite parse_digits_value; [by rewrite Hv|done|by rewrite Hv].
Qed.
