(* ===== verification/SqlLexer.v ===== *)
(** * The SQL lexer (src/src/internal/sql_lexer.rs)

    Token boundaries of SQL text, shared by every component that inspects SQL.
    Positions are byte positions into the UTF-8 text, as in the source; a slice
    at a position that is no character boundary is the source's panic and is
    [None] here. *)

From S2P Require Import Prelude Dialect.

(** [Kind], with [Kind::Parameter] spelled [Param], a reserved word here. *)
Inductive Kind := Word | Identifier | Literal | Comment | Space | Symbol | Param.

#[export] Instance Kind_eq_dec : EqDecision Kind.
Proof. solve_decision. Defined.

Record Token := mkToken {
  text : str;
  start : nat;
  kind : Kind;
}.

#[export] Instance Token_eq_dec : EqDecision Token.
Proof. solve_decision. Defined.

Inductive EscapeMode := Doubled | Backslash | RejectAmbiguous.
Inductive QuotedRun := Closed | Unterminated | AmbiguousEscape.

#[export] Instance EscapeMode_eq_dec : EqDecision EscapeMode.
Proof. solve_decision. Defined.
#[export] Instance QuotedRun_eq_dec : EqDecision QuotedRun.
Proof. solve_decision. Defined.

(** The characters the lexer names. *)
Abbreviation c_nl := 10%N (only parsing).
Abbreviation c_dquote := 34%N (only parsing).
Abbreviation c_hash := 35%N (only parsing).
Abbreviation c_dollar := 36%N (only parsing).
Abbreviation c_quote := 39%N (only parsing).
Abbreviation c_lparen := 40%N (only parsing).
Abbreviation c_rparen := 41%N (only parsing).
Abbreviation c_star := 42%N (only parsing).
Abbreviation c_dash := 45%N (only parsing).
Abbreviation c_slash := 47%N (only parsing).
Abbreviation c_colon := 58%N (only parsing).
Abbreviation c_semi := 59%N (only parsing).
Abbreviation c_at := 64%N (only parsing).
Abbreviation c_lbracket := 91%N (only parsing).
Abbreviation c_backslash := 92%N (only parsing).
Abbreviation c_rbracket := 93%N (only parsing).
Abbreviation c_underscore := 95%N (only parsing).
Abbreviation c_backtick := 96%N (only parsing).

Section lexer.
Context `{Unicode}.

(** Whether [c] can continue an unquoted identifier. *)
Definition identifier_char (c : char) : bool :=
  (c =? c_underscore)%N || (c =? c_dollar)%N || is_alphanumeric c.

Definition is_word (t : Token) (words : list str) : bool :=
  bool_decide (kind t = Word) && existsb (eq_ignore_ascii_case (text t)) words.

Definition is_symbol (t : Token) (symbols : list str) : bool :=
  bool_decide (kind t = Symbol) && existsb (str_eqb (text t)) symbols.

(** The name a quoted identifier or single-quoted string spells. *)
Definition unquoted (t : Token) : option str :=
  if negb (bool_decide (kind t = Identifier))
     && negb (bool_decide (kind t = Literal) && starts_with [c_quote] (text t))
  then Some (text t)
  else
    close ← (if starts_with [c_lbracket] (text t) then Some c_rbracket else head (text t));
    stripped ← strip_suffix_char close (text t);
    inner ← slice_from 1 stripped;
    Some (replace [close; close] [close] inner).

(** Scan after an opening delimiter: [chars] are positions and characters,
    [end_] the position past the last one. *)
Fixpoint quoted_end (chars : list (nat * char)) (close : char) (mode : EscapeMode)
    (end_ : nat) (width : char → nat) : nat * QuotedRun :=
  match chars with
  | [] => (end_, Unterminated)
  | (index, ch) :: rest =>
      if (ch =? c_backslash)%N && negb (bool_decide (mode = Doubled)) then
        match rest with
        | [] => (end_, Unterminated)
        | (_, next) :: rest' =>
            if bool_decide (mode = RejectAmbiguous) then
              if (next =? close)%N then (index, AmbiguousEscape)
              else if (next =? c_backslash)%N then quoted_end rest' close mode end_ width
              else quoted_end rest close mode end_ width
            else quoted_end rest' close mode end_ width
        end
      else if (ch =? close)%N then
        match rest with
        | [] => (index + width ch, Closed)
        | (_, next) :: rest' =>
            if (next =? close)%N then quoted_end rest' close mode end_ width
            else (index + width ch, Closed)
        end
      else quoted_end rest close mode end_ width
  end.

Definition quoted_len (sql : str) (delimiter : char) (backslash : bool) : nat :=
  let close := if (delimiter =? c_lbracket)%N then c_rbracket else delimiter in
  let mode := if backslash then Backslash else Doubled in
  fst (quoted_end (drop 1 (char_indices 0 sql)) close mode (slen sql) len_utf8).

(** The loop of [block_comment_len]: [rest] is [sql[pos..]]. *)
Fixpoint block_comment_loop (nested : bool) (depth pos : nat) (rest : str) : nat :=
  match rest with
  | [] => pos
  | c1 :: r1 =>
      match r1 with
      | c2 :: r2 =>
          if nested && (c1 =? c_slash)%N && (c2 =? c_star)%N
          then block_comment_loop nested (depth + 1) (pos + 2) r2
          else if (c1 =? c_star)%N && (c2 =? c_slash)%N
          then if (depth - 1 =? 0)%nat then pos + 2
               else block_comment_loop nested (depth - 1) (pos + 2) r2
          else block_comment_loop nested depth (pos + len_utf8 c1) r1
      | [] => block_comment_loop nested depth (pos + len_utf8 c1) r1
      end
  end.

Definition block_comment_len (sql : str) (nested : bool) : option nat :=
  if slen sql <=? 2 then Some 2
  else block_comment_loop nested 1 2 <$> slice_from 2 sql.

(** The length of the dollar-quote delimiter opening [sql]; the outer [option]
    is the panic of [sql[1..]]. *)
Definition dollar_tag_len (sql : str) : option (option nat) :=
  tail ← slice_from 1 sql;
  match find_byte (N.eqb c_dollar) tail with
  | None => Some None
  | Some n =>
      '(tag, _) ← split_at n tail;
      Some (if negb (match head tag with Some c => is_ascii_digit c | None => false end)
               && forallb (λ c, (c =? c_underscore)%N || is_alphanumeric c) tag
            then Some (n + 2)
            else None)
  end.

(** [str::find] of a text: the byte position of its first occurrence. *)
Fixpoint find_str (pat s : str) : option nat :=
  if starts_with pat s then Some 0
  else match s with
       | [] => None
       | c :: s' => Nat.add (len_utf8 c) <$> find_str pat s'
       end.

Definition dollar_len (sql : str) : option (option nat) :=
  o ← dollar_tag_len sql;
  match o with
  | None => Some None
  | Some open =>
      '(delimiter, rest) ← split_at open sql;
      Some ((λ n, open + n + slen delimiter) <$> find_str delimiter rest)
  end.

(** The inner loop of [sqlite_parameter_len]: the parenthesized suffix. *)
Fixpoint parameter_suffix (rest : str) (pos : nat) : nat :=
  match rest with
  | [] => pos
  | ch :: rest' =>
      if is_ascii_whitespace ch then pos
      else if (ch =? c_rparen)%N then pos + len_utf8 ch
      else parameter_suffix rest' (pos + len_utf8 ch)
  end.

(** The loop of [sqlite_parameter_len]: [rest] is [sql[pos..]]. *)
Fixpoint parameter_loop (rest : str) (pos : nat) (has_name : bool) : nat :=
  match rest with
  | [] => pos
  | ch :: rest' =>
      if identifier_char ch || negb (is_ascii ch)
      then parameter_loop rest' (pos + len_utf8 ch) true
      else match rest' with
           | c2 :: rest'' =>
               if (ch =? c_colon)%N && (c2 =? c_colon)%N
               then parameter_loop rest'' (pos + 2) has_name
               else if (ch =? c_lparen)%N && has_name
               then parameter_suffix rest' (pos + 1)
               else pos
           | [] => if (ch =? c_lparen)%N && has_name
                   then parameter_suffix rest' (pos + 1)
                   else pos
           end
  end.

Definition sqlite_parameter_len (sql : str) : option nat :=
  if slen sql <=? 1 then Some 1
  else (λ rest, parameter_loop rest 1 false) <$> slice_from 1 sql.

(** Whether the quote at the current position opens an [E'..'] string: [before]
    holds the characters before it, the nearest first. *)
Definition escape_string_prefix (before : str) : bool :=
  match before with
  | [] => false
  | e :: b =>
      ((e =? 101)%N || (e =? 69)%N)
      && match b with
         | [] => true
         | p :: _ => negb (identifier_char p)
         end
  end.

(** One step of [scan]: the kind and byte length of the token at the head of
    [rest]. [None] is a panic. *)
Definition lex_one (sqlite : bool) (before : str) (first : char) (tail : str)
    : option (Kind * nat) :=
  let rest := first :: tail in
  let whitespace c := is_whitespace c || (sqlite && (c =? 65279)%N) in
  if whitespace first then
    Some (Space, default (slen rest) (find_byte (λ c, negb (whitespace c)) rest))
  else if starts_with (lit "--") rest then
    Some (Comment, default (slen rest) (find_byte (N.eqb c_nl) rest))
  else if starts_with (lit "/*") rest then
    n ← block_comment_len rest (negb sqlite); Some (Comment, n)
  else if (first =? c_quote)%N || (first =? c_dquote)%N || (first =? c_backtick)%N
          || (first =? c_lbracket)%N then
    let escaped := negb sqlite && (first =? c_quote)%N && escape_string_prefix before in
    Some (if (first =? c_quote)%N then Literal else Identifier,
          quoted_len rest first escaped)
  else if sqlite && ((first =? c_dollar)%N || (first =? c_colon)%N
                     || (first =? c_at)%N || (first =? c_hash)%N) then
    n ← sqlite_parameter_len rest; Some (Param, n)
  else if (first =? c_dollar)%N then
    o ← (if sqlite then Some None else dollar_len rest);
    match o with
    | Some n => Some (Literal, n)
    | None =>
        tl ← slice_from 1 rest;
        let len := 1 + length (take_while is_ascii_digit tl) in
        Some (if 1 <? len then Param else Symbol, len)
    end
  else if (first =? c_underscore)%N || is_alphabetic first then
    Some (Word, default (slen rest) (find_byte (λ c, negb (identifier_char c)) rest))
  else Some (Symbol, len_utf8 first).

(** The iterator of [scan] run to its end. [fuel] bounds the tokens produced;
    [before] holds the characters already read, the nearest first. *)
Fixpoint scan_fuel (fuel : nat) (sqlite : bool) (before : str) (offset : nat)
    (rest : str) : option (list Token) :=
  match rest with
  | [] => Some []
  | first :: tail =>
      match fuel with
      | 0 => None
      | S fuel' =>
          '(k, len) ← lex_one sqlite before first tail;
          '(txt, rest') ← split_at len rest;
          toks ← scan_fuel fuel' sqlite (rev txt ++ before) (offset + len) rest';
          Some (mkToken txt offset k :: toks)
      end
  end.

(** Every token has at least one character, so the text's length is fuel
    enough ([scan_total] below). *)
Definition scan (sql : str) (sqlite : bool) : option (list Token) :=
  scan_fuel (length sql) sqlite [] 0 sql.

Definition tokens (sql : str) : option (list Token) := scan sql false.
Definition sqlite_tokens (sql : str) : option (list Token) := scan sql true.

Definition is_significant (t : Token) : bool :=
  negb (bool_decide (kind t = Space) || bool_decide (kind t = Comment)).

Definition significant (sql : str) : option (list Token) :=
  List.filter is_significant <$> tokens sql.
Definition sqlite_significant (sql : str) : option (list Token) :=
  List.filter is_significant <$> sqlite_tokens sql.

(** The words at the statement's outer level, the parenthesis depth saturating
    at zero. *)
Fixpoint top_words_loop (depth : nat) (toks : list Token) : list str :=
  match toks with
  | [] => []
  | t :: rest =>
      let depth' :=
        if str_eqb (text t) (lit "(") then depth + 1
        else if str_eqb (text t) (lit ")") then depth - 1
        else depth in
      if (depth' =? 0)%nat && bool_decide (kind t = Word)
      then text t :: top_words_loop depth' rest
      else top_words_loop depth' rest
  end.

Definition top_words (sql : str) : option (list str) :=
  top_words_loop 0 <$> significant sql.

(** ** What the tokens are *)

(** [toks] cut [s], whose first byte is at [off], into consecutive non-empty
    pieces, each [start] being the byte position of its piece. *)
Fixpoint tiles (off : nat) (toks : list Token) (s : str) : Prop :=
  match toks with
  | [] => s = []
  | t :: ts =>
      ∃ s', s = text t ++ s' ∧ text t ≠ [] ∧ start t = off
            ∧ tiles (off + slen (text t)) ts s'
  end.

Definition lex_whitespace (sqlite : bool) (c : char) : bool :=
  is_whitespace c || (sqlite && (c =? 65279)%N).

(** The shape of a token's text by its kind, [next] being the character after
    it: words and space runs are maximal, a symbol is one character. *)
Definition kind_shape (sqlite : bool) (t : Token) (next : option char) : Prop :=
  match kind t with
  | Space => Forall (λ c, lex_whitespace sqlite c = true) (text t)
             ∧ (∀ c, next = Some c → lex_whitespace sqlite c = false)
  | Comment => starts_with (lit "--") (text t) = true
               ∨ starts_with (lit "/*") (text t) = true
  | Word => Forall (λ c, identifier_char c = true) (text t)
            ∧ (∀ c, next = Some c → identifier_char c = false)
  | Identifier => head (text t) ∈ [Some c_dquote; Some c_backtick; Some c_lbracket]
  | Literal => head (text t) = Some c_quote
               ∨ (sqlite = false ∧ head (text t) = Some c_dollar)
  | Param => if sqlite
             then head (text t) ∈ [Some c_dollar; Some c_colon; Some c_at; Some c_hash]
             else ∃ ds, text t = c_dollar :: ds ∧ ds ≠ []
                        ∧ Forall (λ c, is_ascii_digit c = true) ds
  | Symbol => ∃ c, text t = [c] ∧ lex_whitespace sqlite c = false
                   ∧ is_alphabetic c = false
  end.

(** Every token of a list has the shape of its kind. *)
Fixpoint shaped (sqlite : bool) (toks : list Token) : Prop :=
  match toks with
  | [] => True
  | t :: ts => kind_shape sqlite t (head (concat (text <$> ts))) ∧ shaped sqlite ts
  end.

(** [n] is the byte length of a non-empty prefix of [s]. *)
Definition cuts (n : nat) (s : str) : Prop :=
  ∃ a b, s = a ++ b ∧ a ≠ [] ∧ n = slen a.

Lemma find_cuts p c s :
  p c = false →
  ∃ a b, c :: s = a ++ b ∧ a ≠ [] ∧ default (slen (c :: s)) (find_byte p (c :: s)) = slen a
         ∧ Forall (λ x, p x = false) a ∧ (∀ d, head b = Some d → p d = true).
Proof.
  intros Hc. destruct (find_byte p (c :: s)) as [n|] eqn:E; simpl default.
  - apply find_byte_Some in E as (a & d & b & Hs & -> & Hd & Ha).
    exists a, (d :: b). split_and!; auto.
    + intros ->. simplify_eq/=. congruence.
    + by intros ? [= <-].
  - exists (c :: s), []. rewrite app_nil_r. split_and!; auto.
    + by apply find_byte_None.
    + done.
Qed.

(** One step of [quoted_end], its recursive calls left folded. *)
Lemma quoted_end_cons index ch rest close mode end_ width :
  quoted_end ((index, ch) :: rest) close mode end_ width =
  if (ch =? c_backslash)%N && negb (bool_decide (mode = Doubled)) then
    match rest with
    | [] => (end_, Unterminated)
    | (_, next) :: rest' =>
        if bool_decide (mode = RejectAmbiguous) then
          if (next =? close)%N then (index, AmbiguousEscape)
          else if (next =? c_backslash)%N then quoted_end rest' close mode end_ width
          else quoted_end rest close mode end_ width
        else quoted_end rest' close mode end_ width
    end
  else if (ch =? close)%N then
    match rest with
    | [] => (index + width ch, Closed)
    | (_, next) :: rest' =>
        if (next =? close)%N then quoted_end rest' close mode end_ width
        else (index + width ch, Closed)
    end
  else quoted_end rest close mode end_ width.
Proof. done. Qed.

Lemma quoted_end_cuts s : ∀ off close mode n run,
  quoted_end (char_indices off s) close mode (off + slen s) len_utf8 = (n, run) →
  ∃ a b, s = a ++ b ∧ n = off + slen a.
Proof.
  induction s as [s IH] using (induction_ltof1 _ (@length _)); unfold ltof in IH.
  intros off close mode n run. destruct s as [|c s].
  { simpl. intros [= <- <-]. exists [], []. split; [done|simpl; lia]. }
  cbn [char_indices slen].
  assert (Hone : ∀ e, e = off + (len_utf8 c + slen s) →
    quoted_end (char_indices (off + len_utf8 c) s) close mode e len_utf8 = (n, run) →
    ∃ a b, c :: s = a ++ b ∧ n = off + slen a).
  { intros e -> He. replace (off + (len_utf8 c + slen s))
      with (off + len_utf8 c + slen s) in He by lia.
    apply IH in He as (a & b & -> & ->); [|simpl; lia].
    exists (c :: a), b. split; [done|simpl; lia]. }
  assert (Htwo : ∀ d s' e, s = d :: s' → e = off + (len_utf8 c + slen s) →
    quoted_end (char_indices (off + len_utf8 c + len_utf8 d) s') close mode e len_utf8
      = (n, run) →
    ∃ a b, c :: s = a ++ b ∧ n = off + slen a).
  { intros d s' e -> -> He. simpl in He.
    replace (off + (len_utf8 c + (len_utf8 d + slen s')))
      with (off + len_utf8 c + len_utf8 d + slen s') in He by lia.
    apply IH in He as (a & b & -> & ->); [|simpl; lia].
    exists (c :: d :: a), b. split; [done|simpl; lia]. }
  assert (Hend : (off + (len_utf8 c + slen s), Unterminated) = (n, run) →
    ∃ a b, c :: s = a ++ b ∧ n = off + slen a).
  { intros [= <- <-]. exists (c :: s), []. rewrite app_nil_r. split; [done|simpl; lia]. }
  assert (Hcl : (off + len_utf8 c, Closed) = (n, run) →
    ∃ a b, c :: s = a ++ b ∧ n = off + slen a).
  { intros [= <- <-]. exists [c], s. split; [done|simpl; lia]. }
  assert (Hamb : (off, AmbiguousEscape) = (n, run) →
    ∃ a b, c :: s = a ++ b ∧ n = off + slen a).
  { intros [= <- <-]. exists [], (c :: s). split; [done|simpl; lia]. }
  rewrite quoted_end_cons.
  destruct s as [|d s']; cbn [char_indices slen] in *; cbv beta iota;
    repeat case_match; eauto.
Qed.

Lemma quoted_len_cuts c s d b : cuts (quoted_len (c :: s) d b) (c :: s).
Proof.
  unfold quoted_len. simpl.
  destruct (quoted_end _ _ _ _ _) as [n run] eqn:E; simpl.
  apply quoted_end_cuts in E as (a & r & -> & ->).
  exists (c :: a), r. done.
Qed.

Lemma block_comment_loop_cuts nested s : ∀ depth pos,
  ∃ a b, s = a ++ b ∧ block_comment_loop nested depth pos s = pos + slen a.
Proof.
  induction s as [s IH] using (induction_ltof1 _ (@length _)); unfold ltof in IH.
  intros depth pos. destruct s as [|c1 r1]; simpl.
  { exists [], []. split; [done|simpl; lia]. }
  assert (Hone : ∀ d, ∃ a b, c1 :: r1 = a ++ b ∧
    block_comment_loop nested d (pos + len_utf8 c1) r1 = pos + slen a).
  { intros d. destruct (IH r1 ltac:(simpl; lia) d (pos + len_utf8 c1)) as (a & b & -> & ->).
    exists (c1 :: a), b. split; [done|simpl; lia]. }
  destruct r1 as [|c2 r2]; [apply Hone|].
  assert (Htwo : ∀ d, len_utf8 c1 = 1 → len_utf8 c2 = 1 →
    ∃ a b, c1 :: c2 :: r2 = a ++ b ∧
    block_comment_loop nested d (pos + 2) r2 = pos + slen a).
  { intros d H1 H2. destruct (IH r2 ltac:(simpl; lia) d (pos + 2)) as (a & b & -> & ->).
    exists (c1 :: c2 :: a), b. split; [done|simpl; lia]. }
  destruct (nested && _ && _) eqn:E1; [bools; subst; apply Htwo; done|].
  destruct ((c1 =? c_star)%N && _) eqn:E2; [|apply Hone].
  bools; subst. case_match; [|by apply Htwo].
  exists [c_star; c_slash], r2. done.
Qed.

Lemma slice_from_ascii c s : (c < 128)%N → slice_from 1 (c :: s) = Some s.
Proof.
  intros Hc. unfold slice_from.
  pose proof (split_at_app [c] s) as E. cbn [slen app] in E.
  rewrite len_utf8_ascii in E by done. change (1 + 0) with 1 in E. by rewrite E.
Qed.

Lemma block_comment_len_cuts nested s :
  ∃ n, block_comment_len (c_slash :: c_star :: s) nested = Some n
       ∧ ∃ a b, s = a ++ b ∧ n = slen (c_slash :: c_star :: a).
Proof.
  unfold block_comment_len. destruct (slen _ <=? 2) eqn:E.
  - exists 2. split; [done|]. exists [], s. done.
  - pose proof (split_at_app [c_slash; c_star] s) as Hs.
    change (slen [c_slash; c_star]) with 2 in Hs. unfold slice_from.
    cbn [app] in Hs. rewrite Hs. simpl.
    destruct (block_comment_loop_cuts nested s 1 2) as (a & b & Ha & ->).
    eexists; split; [done|]. exists a, b. split; [done|].
    reflexivity.
Qed.

Lemma parameter_suffix_cuts s : ∀ pos,
  ∃ a b, s = a ++ b ∧ parameter_suffix s pos = pos + slen a.
Proof.
  induction s as [|c s IH]; intros pos; simpl.
  { exists [], []. split; [done|simpl; lia]. }
  case_match; [exists [], (c :: s); split; [done|simpl; lia]|].
  case_match; [exists [c], s; split; [done|simpl; lia]|].
  destruct (IH (pos + len_utf8 c)) as (a & b & -> & ->).
  exists (c :: a), b. split; [done|simpl; lia].
Qed.

Lemma parameter_loop_cuts s : ∀ pos named,
  ∃ a b, s = a ++ b ∧ parameter_loop s pos named = pos + slen a.
Proof.
  induction s as [s IH] using (induction_ltof1 _ (@length _)); unfold ltof in IH.
  intros pos named. destruct s as [|ch r]; simpl.
  { exists [], []. split; [done|simpl; lia]. }
  assert (Hstop : ∃ a b, ch :: r = a ++ b ∧ pos = pos + slen a).
  { exists [], (ch :: r). split; [done|simpl; lia]. }
  assert (Hsuf : (ch =? c_lparen)%N && named = true → ∃ a b, ch :: r = a ++ b ∧
    parameter_suffix r (pos + 1) = pos + slen a).
  { intros E. bools; subst.
    destruct (parameter_suffix_cuts r (pos + 1)) as (a & b & -> & ->).
    exists (c_lparen :: a), b. split; [done|].
    change (slen (c_lparen :: a)) with (1 + slen a). lia. }
  case_match.
  { destruct (IH r ltac:(simpl; lia) (pos + len_utf8 ch) true) as (a & b & -> & ->).
    exists (ch :: a), b. split; [done|simpl; lia]. }
  destruct r as [|c2 r2].
  { case_match; auto. }
  destruct ((ch =? c_colon)%N && _) eqn:E2.
  { bools; subst. destruct (IH r2 ltac:(simpl; lia) (pos + 2) named) as (a & b & -> & ->).
    exists (c_colon :: c_colon :: a), b. split; [done|].
    change (slen (c_colon :: c_colon :: a)) with (2 + slen a). lia. }
  case_match; auto.
Qed.

Lemma sqlite_parameter_len_cuts c s :
  (c < 128)%N → ∃ n, sqlite_parameter_len (c :: s) = Some n ∧ cuts n (c :: s).
Proof.
  intros Hc. unfold sqlite_parameter_len. destruct (slen _ <=? 1) eqn:E.
  - exists 1. split; [done|]. exists [c], s. simpl. rewrite len_utf8_ascii by done. auto.
  - rewrite slice_from_ascii by done. simpl.
    destruct (parameter_loop_cuts s 1 false) as (a & b & -> & ->).
    eexists; split; [done|]. exists (c :: a), b.
    simpl. rewrite len_utf8_ascii by done. auto.
Qed.

Lemma find_str_Some pat s n :
  find_str pat s = Some n → ∃ a b, s = a ++ pat ++ b ∧ n = slen a.
Proof.
  revert n. induction s as [|c s IH]; intros n; simpl.
  - destruct (starts_with pat []) eqn:E; [|done]. intros [= <-].
    apply starts_with_spec in E as [r Hr]. exists [], r. done.
  - destruct (starts_with pat (c :: s)) eqn:E.
    + intros [= <-]. apply starts_with_spec in E as [r Hr]. exists [], r. done.
    + destruct (find_str pat s) as [m|] eqn:Ef; [|done]. intros [= <-].
      destruct (IH m eq_refl) as (a & b & -> & ->). exists (c :: a), b. done.
Qed.

Lemma dollar_tag_len_total s :
  ∃ o, dollar_tag_len (c_dollar :: s) = Some o ∧
       (∀ n, o = Some n → ∃ tag r, s = tag ++ c_dollar :: r
                                   ∧ n = slen (c_dollar :: tag ++ [c_dollar])
                                   ∧ head (tag ++ [c_dollar]) = head s
                                   ∧ (∀ d, head tag = Some d → is_ascii_digit d = false)).
Proof.
  unfold dollar_tag_len. rewrite slice_from_ascii by lia. simpl.
  destruct (find_byte _ s) as [n|] eqn:E; [|by exists None].
  apply find_byte_Some in E as (tag & d & r & -> & -> & Hd & _).
  apply N.eqb_eq in Hd as <-. rewrite split_at_app. simpl.
  eexists; split; [done|]. intros n. case_match eqn:E; [|done].
  intros [= <-]. exists tag, r. split_and!; auto.
  - cbn [slen]. rewrite slen_app. change (len_utf8 c_dollar) with 1. simpl. lia.
  - by destruct tag.
  - intros d Hd. bools. rewrite Hd in *. done.
Qed.

Lemma dollar_len_total s :
  ∃ o, dollar_len (c_dollar :: s) = Some o ∧
       (∀ n, o = Some n → cuts n (c_dollar :: s)).
Proof.
  unfold dollar_len. destruct (dollar_tag_len_total s) as (o & -> & Ho). simpl.
  destruct o as [open|]; [|by exists None].
  destruct (Ho open eq_refl) as (tag & r & -> & -> & _ & _).
  assert (Hs : c_dollar :: tag ++ c_dollar :: r = (c_dollar :: tag ++ [c_dollar]) ++ r)
    by (simpl; by rewrite <- app_assoc).
  rewrite Hs. clear Hs Ho.
  assert (HD : c_dollar :: tag ++ [c_dollar] ≠ []) by done. revert HD.
  generalize (c_dollar :: tag ++ [c_dollar]) as D. intros D HD.
  rewrite split_at_app. simpl mbind. eexists; split; [done|].
  intros n Hn. destruct (find_str D r) as [m|] eqn:E; [|done].
  apply find_str_Some in E as (a & b & -> & ->). injection Hn as <-.
  exists (D ++ a ++ D), b. split_and!; [by rewrite <- !app_assoc|by destruct D|].
  lengths.
Qed.

Lemma take_digits_slen s : length (take_while is_ascii_digit s) = slen (take_while is_ascii_digit s).
Proof.
  induction s as [|c s IH]; simpl; [done|]. destruct (is_ascii_digit c) eqn:E; simpl; [|done].
  unfold is_ascii_digit in E. rewrite len_utf8_ascii by lia. lia.
Qed.

(** [lex_one] never panics: it cuts a non-empty piece whose text has the shape
    of its kind. *)
Lemma lex_one_shape sqlite before first tail :
  ∃ k a b, lex_one sqlite before first tail = Some (k, slen a)
           ∧ first :: tail = a ++ b ∧ a ≠ []
           ∧ ∀ off, kind_shape sqlite (mkToken a off k) (head b).
Proof.
  unfold lex_one.
  destruct (is_whitespace first || (sqlite && (first =? 65279)%N)) eqn:Ews.
  { destruct (find_cuts (λ c, negb (lex_whitespace sqlite c)) first tail)
      as (a & b & Hab & Ha & Hn & Hall & Hb); [by apply negb_false_iff|].
    exists Space, a, b. unfold lex_whitespace in Hn. rewrite Hn. split_and!; auto.
    intros off. split; simpl.
    - eapply Forall_impl; [|exact Hall]. intros c. apply negb_false_iff.
    - intros c Hc. apply negb_true_iff, Hb, Hc. }
  destruct (starts_with (lit "--") (first :: tail)) eqn:Edash.
  { apply starts_with_spec in Edash as [r Hr].
    change (lit "--" ++ r) with (c_dash :: c_dash :: r) in Hr. injection Hr as -> ->.
    destruct (find_cuts (N.eqb c_nl) c_dash (c_dash :: r))
      as (a & b & Hab & Ha & Hn & Hall & Hb); [done|].
    exists Comment, a, b. rewrite Hn. split_and!; auto. intros off. left. simpl.
    destruct a as [|x [|y a]]; simplify_eq/=; [|done].
    specialize (Hb _ eq_refl). done. }
  destruct (starts_with (lit "/*") (first :: tail)) eqn:Eblock.
  { apply starts_with_spec in Eblock as [r Hr].
    change (lit "/*" ++ r) with (c_slash :: c_star :: r) in Hr. injection Hr as -> ->.
    destruct (block_comment_len_cuts (negb sqlite) r) as (n & -> & a & b & -> & ->).
    exists Comment, (c_slash :: c_star :: a), b. split_and!; auto.
    intros off. by right. }
  destruct ((first =? c_quote)%N || _ || _ || _) eqn:Equote.
  { destruct (quoted_len_cuts first tail first
      (negb sqlite && (first =? c_quote)%N && escape_string_prefix before))
      as (a & b & Hab & Ha & ->).
    eexists _, a, b. split_and!; [done..|]. intros off.
    destruct a as [|x a]; [done|]. simplify_eq/=.
    destruct (x =? c_quote)%N eqn:E1; simpl.
    - left. simpl. apply N.eqb_eq in E1. by subst.
    - rewrite !orb_true_iff, !N.eqb_eq in Equote. set_solver. }
  destruct (sqlite && ((first =? c_dollar)%N || (first =? c_colon)%N
                       || (first =? c_at)%N || (first =? c_hash)%N)) eqn:Eparam.
  { apply andb_true_iff in Eparam as [-> Hp]. rewrite !orb_true_iff, !N.eqb_eq in Hp.
    destruct (sqlite_parameter_len_cuts first tail) as (n & -> & a & b & Hab & Ha & ->); [lia|].
    exists Param, a, b. split_and!; auto. intros off.
    destruct a as [|x a]; [done|]. simplify_eq/=. set_solver. }
  destruct (first =? c_dollar)%N eqn:Edollar.
  { apply N.eqb_eq in Edollar as ->. destruct sqlite; [done|].
    destruct (dollar_len_total tail) as ([n|] & -> & Ho); simpl.
    - destruct (Ho n eq_refl) as (a & b & Hab & Ha & ->).
      exists Literal, a, b. split_and!; auto. intros off. right. split; [done|].
      destruct a as [|x a]; [done|]. by simplify_eq/=.
    - rewrite slice_from_ascii by lia. simpl.
      pose proof (take_digits_slen tail) as Hd.
      pose proof (take_drop_while is_ascii_digit tail) as Htd.
      eexists _, (c_dollar :: take_while is_ascii_digit tail), (drop_while is_ascii_digit tail).
      split_and!; [|by rewrite <- Htd at 1|done|].
      { cbn [slen]. rewrite <- Hd. change (len_utf8 c_dollar) with 1. done. }
      intros off. destruct (take_while is_ascii_digit tail) as [|d ds] eqn:E; simpl.
      + exists c_dollar. done.
      + exists (d :: ds). split_and!; [done..|]. rewrite <- E. apply take_while_all. }
  destruct ((first =? c_underscore)%N || is_alphabetic first) eqn:Eword.
  { destruct (find_cuts (λ c, negb (identifier_char c)) first tail)
      as (a & b & Hab & Ha & Hn & Hall & Hb).
    { unfold identifier_char, is_alphanumeric. apply negb_false_iff.
      apply orb_true_iff in Eword as [-> | ->]; [done|]. by rewrite !orb_true_r. }
    exists Word, a, b. rewrite Hn. split_and!; auto. intros off. split; simpl.
    - eapply Forall_impl; [|exact Hall]. intros c. apply negb_false_iff.
    - intros c Hc. apply negb_true_iff, Hb, Hc. }
  exists Symbol, [first], tail. split_and!; auto.
  { simpl. by rewrite Nat.add_0_r. }
  intros off. exists first. split_and!; [done|exact Ews|].
  by apply orb_false_iff in Eword as [_ ?].
Qed.

Lemma tiles_concat off toks s : tiles off toks s → concat (text <$> toks) = s.
Proof.
  revert off s. induction toks as [|t ts IH]; intros off s; csimpl; [done|].
  intros (s' & -> & _ & _ & Ht). by rewrite (IH _ _ Ht).
Qed.

Lemma scan_fuel_total sqlite fuel : ∀ before offset rest,
  length rest ≤ fuel →
  ∃ toks, scan_fuel fuel sqlite before offset rest = Some toks
          ∧ tiles offset toks rest ∧ shaped sqlite toks.
Proof.
  induction fuel as [|fuel IH]; intros before offset rest Hlen;
    (destruct rest as [|first tail]; [by exists []|]); [simpl in Hlen; lia|].
  cbn [scan_fuel].
  destruct (lex_one_shape sqlite before first tail) as (k & a & b & -> & Hab & Ha & Hk).
  simpl mbind. rewrite Hab, split_at_app. simpl mbind.
  destruct (IH (rev a ++ before) (offset + slen a) b) as (toks & -> & Ht & Hs).
  { apply (f_equal length) in Hab. rewrite length_app in Hab.
    destruct a; [done|]. simpl in *. lia. }
  exists (mkToken a offset k :: toks). split_and!; [done|simpl; eauto|].
  csimpl. split; [|done]. rewrite (tiles_concat _ _ _ Ht). apply Hk.
Qed.

Lemma scan_total sql sqlite :
  ∃ toks, scan sql sqlite = Some toks ∧ tiles 0 toks sql ∧ shaped sqlite toks.
Proof. by apply scan_fuel_total. Qed.

End lexer.

(** ** The properties *)

(** The lexer never panics and never loses text: on any text, in either
    dialect, it produces a token list that cuts the text into consecutive
    non-empty pieces, each carrying its byte offset, so that the pieces put
    together are the text; and each piece has the shape of its kind (words and
    runs of space are maximal, a symbol is one character, a comment, literal or
    parameter starts with its mark). *)
Theorem lexer_tiles_the_text `{Unicode} sql :
  (∃ toks, tokens sql = Some toks ∧ concat (text <$> toks) = sql
           ∧ tiles 0 toks sql ∧ shaped false toks)
  ∧ (∃ toks, sqlite_tokens sql = Some toks ∧ concat (text <$> toks) = sql
             ∧ tiles 0 toks sql ∧ shaped true toks).
Proof.
  split.
  - destruct (scan_total sql false) as (toks & ? & Ht & ?).
    exists toks. split_and!; auto. by eapply tiles_concat.
  - destruct (scan_total sql true) as (toks & ? & Ht & ?).
    exists toks. split_and!; auto. by eapply tiles_concat.
Qed.
