(* ===== verification/SqlSafety.v ===== *)
(** * SQL safety (src/src/internal/sql_safety.rs)

    Quoting of identifiers and literals, identifier validation, and the
    validators a raw SQL fragment passes before it is spliced into a statement.
    The scanners walk a [Vec<char>] by index; here the walk carries the
    characters already read ([before], nearest first) and a count of characters
    still to skip, which is how far the source moved its index ahead. *)

From S2P Require Import Prelude Dialect SqlLexer.
Local Open Scope tide_scope.

(** ** Literals and identifiers *)

Definition escape_sql_literal_for_db (db : DatabaseType) (value : str) : str :=
  let escaped := replace_char c_quote [c_quote; c_quote] value in
  match db with
  | MySQL | MariaDB => replace_char c_backslash [c_backslash; c_backslash] escaped
  | Postgres | SQLite => escaped
  end.

Definition is_safe_identifier_segment (segment : str) : bool :=
  match segment with
  | [] => false
  | ch :: chars =>
      ((ch =? c_underscore)%N || is_ascii_alphabetic ch)
      && forallb (λ ch, (ch =? c_underscore)%N || is_ascii_alphanumeric ch) chars
  end.

(** [push_quoted_ident] appends to its first argument. *)
Definition push_quoted_ident (out : str) (db : DatabaseType) (name : str) : str :=
  let q := quote_char db in
  out ++ [q] ++ (name ≫= λ ch, if (ch =? q)%N then [q; ch] else [ch]) ++ [q].

Definition quote_ident (db : DatabaseType) (name : str) : str :=
  push_quoted_ident [] db name.

Definition column_list (db : DatabaseType) (columns : list str) (prefix : str) : str :=
  join (lit ", ") ((λ column, prefix ++ quote_ident db column) <$> columns).

Definition identifier_reference_parts (value : str) : option (list str) :=
  let trimmed := trim value in
  if bool_decide (trimmed = [])
     || starts_with [c_dquote] trimmed || ends_with [c_dquote] trimmed
     || starts_with [c_backtick] trimmed || ends_with [c_backtick] trimmed
     || existsb (λ c, (c =? c_lparen)%N || (c =? c_rparen)%N || (c =? c_star)%N || (c =? 32)%N) trimmed
  then None
  else
    let parts := split_by (N.eqb 46) trimmed in
    if negb (existsb (λ part, bool_decide (part = [])) parts) then Some parts else None.

Fixpoint push_parts (out : str) (db : DatabaseType) (index : nat) (parts : list str) : str :=
  match parts with
  | [] => out
  | part :: rest =>
      let out := if 0 <? index then out ++ lit "." else out in
      push_parts (push_quoted_ident out db part) db (S index) rest
  end.

Definition format_identifier_reference (db : DatabaseType) (value : str) : option str :=
  parts ← identifier_reference_parts value;
  Some (push_parts [] db 0 parts).

(** [format_column] (src/src/query/db_sql.rs). *)
Definition format_column (db : DatabaseType) (column : str) : str :=
  let trimmed := trim column in
  default (quote_ident db trimmed) (format_identifier_reference db trimmed).

Definition validate_identifier (kind value : str) : result unit str :=
  if negb (bool_decide (value = [])) && is_safe_identifier_segment value then Ok tt
  else Err (lit "unsafe " ++ kind ++ lit " '" ++ value
            ++ lit "': identifiers may only contain ASCII letters, numbers, and underscores, and must not start with a number").

Definition validate_identifier_reference (kind value : str) : result unit str :=
  let parts := split_by (N.eqb 46) value in
  if negb (bool_decide (parts = [])) && (length parts <=? 3)
     && forallb (λ part, negb (bool_decide (part = [])) && is_safe_identifier_segment part) parts
  then Ok tt
  else Err (lit "invalid " ++ kind ++ lit " '" ++ value
            ++ lit "': expected column, table.column or schema.table.column using only ASCII letters, numbers, and underscores").

Definition validate_join_column (value : str) : result unit str :=
  let parts := split_by (N.eqb 46) value in
  if (length parts =? 2) && forallb is_safe_identifier_segment parts
  then Ok tt
  else Err (lit "unsafe JOIN column reference '" ++ value
            ++ lit "': expected table.column using only ASCII letters, numbers, and underscores").

(** ** Raw fragments *)

Section fragments.
Context `{Unicode}.

(** Walk a quoted run from its opening quote: the characters it takes. *)
Definition consume_quoted_run (tail : str) (quote : char) : nat * QuotedRun :=
  quoted_end (drop 1 (enumerate 0 tail)) quote RejectAmbiguous (length tail) (λ _, 1).

(** Whether the [$] before [after] opens a dollar-quoted string. *)
Definition starts_dollar_quote (before after : str) : bool :=
  let starts_token :=
    match before with [] => true | previous :: _ => negb (identifier_char previous) end in
  starts_token
  && match list_find (λ ch, ch = c_dollar) after with
     | None => false
     | Some (close, _) =>
         match dollar_tag_len (c_dollar :: take (S close) after) with
         | Some (Some _) => true
         | _ => false
         end
     end.

(** Whether the [[] before [after] and the next []] hold a quote. *)
Definition is_quote (ch : char) : bool :=
  (ch =? c_quote)%N || (ch =? c_dquote)%N || (ch =? c_backtick)%N.

Definition bracket_holds_quote (after : str) : bool :=
  existsb is_quote (take_while (λ ch, negb (ch =? c_rbracket)%N) after).

Fixpoint find_forbidden_loop (before rest : str) (skip : nat) : option str :=
  match rest with
  | [] => None
  | ch :: after =>
      match skip with
      | S skip' => find_forbidden_loop (ch :: before) after skip'
      | 0 =>
          if (ch =? c_quote)%N then
            match consume_quoted_run rest c_quote with
            | (consumed, Closed) => find_forbidden_loop (ch :: before) after (consumed - 1)
            | (_, Unterminated) => Some (lit "unterminated string literals")
            | (_, AmbiguousEscape) =>
                Some (lit "backslash-escaped quotes inside string literals")
            end
          else if (ch =? c_dquote)%N || (ch =? c_backtick)%N then
            match consume_quoted_run rest ch with
            | (consumed, Closed) => find_forbidden_loop (ch :: before) after (consumed - 1)
            | (_, Unterminated) => Some (lit "unterminated quoted identifiers")
            | (_, AmbiguousEscape) =>
                Some (lit "backslash-escaped quotes inside quoted identifiers")
            end
          else if (ch =? c_dollar)%N && starts_dollar_quote before after then
            Some (lit "dollar-quoted strings")
          else if (ch =? c_lbracket)%N && bracket_holds_quote after then
            Some (lit "quotes inside square brackets")
          else if (ch =? c_semi)%N then Some (lit "statement separators")
          else if (ch =? 0)%N then Some (lit "NUL bytes")
          else if (ch =? c_hash)%N then Some (lit "SQL comments")
          else if (ch =? c_dash)%N && bool_decide (head after = Some c_dash) then
            Some (lit "SQL comments")
          else if (ch =? c_slash)%N && bool_decide (head after = Some c_star) then
            Some (lit "SQL comments")
          else if (ch =? c_star)%N && bool_decide (head after = Some c_slash) then
            Some (lit "SQL comments")
          else find_forbidden_loop (ch :: before) after 0
      end
  end.

Definition find_forbidden_raw_sql_token (sql : str) : option str :=
  find_forbidden_loop [] sql 0.

Definition validate_raw_sql_fragment (kind sql : str) : result unit str :=
  let trimmed := trim sql in
  if bool_decide (trimmed = []) then
    Err (lit "unsafe " ++ kind ++ lit ": SQL fragment cannot be empty")
  else match find_forbidden_raw_sql_token trimmed with
       | Some reason =>
           Err (lit "unsafe " ++ kind ++ lit ": raw SQL fragments may not contain "
                ++ reason ++ lit "; use parameterized query builder APIs instead")
       | None => Ok tt
       end.

(** The characters [consume_numeric_literal] moves past, from the digit at the
    head of [tail]. *)
Definition consume_numeric_literal (tail : str) : nat :=
  let body := drop 1 tail in
  let mantissa := take_while
    (λ c, is_ascii_digit c || (c =? 46)%N || (c =? c_underscore)%N) body in
  let index := 1 + length mantissa in
  match drop index tail with
  | e :: exponent =>
      if (e =? 101)%N || (e =? 69)%N then
        let sign := match exponent with
                    | s :: _ => if (s =? 43)%N || (s =? c_dash)%N then 1 else 0
                    | [] => 0
                    end in
        let digits := take_while is_ascii_digit (drop sign exponent) in
        if (length digits =? 0)%nat then index
        else index + 1 + sign + length digits
      else index
  | [] => index
  end.

Inductive SqlToken :=
  | SWord (text : str) (depth : nat) (called : bool)
  | SSymbol (ch : char).

Definition word_char (c : char) : bool := (c =? c_underscore)%N || is_ascii_alphanumeric c.

(** Hand every bare word and symbol of [sql] to [visit], whose state is
    threaded through. *)
Fixpoint scan_sql_tokens_loop {S} (kind : str) (visit : S → SqlToken → result S str)
    (paren_depth : nat) (rest : str) (skip : nat) (st : S) : result S str :=
  match rest with
  | [] =>
      if (paren_depth =? 0)%nat then Ok st
      else Err (lit "unsafe " ++ kind ++ lit ": unbalanced parentheses")
  | ch :: after =>
      match skip with
      | Datatypes.S skip' => scan_sql_tokens_loop kind visit paren_depth after skip' st
      | 0 =>
          if is_whitespace ch then
            scan_sql_tokens_loop kind visit paren_depth after 0 st
          else if (ch =? c_quote)%N then
            match consume_quoted_run rest c_quote with
            | (consumed, Closed) =>
                scan_sql_tokens_loop kind visit paren_depth after (consumed - 1) st
            | _ => Err (lit "unsafe " ++ kind ++ lit ": unterminated string literal")
            end
          else if (ch =? c_dquote)%N || (ch =? c_backtick)%N then
            match consume_quoted_run rest ch with
            | (consumed, Closed) =>
                scan_sql_tokens_loop kind visit paren_depth after (consumed - 1) st
            | _ => Err (lit "unsafe " ++ kind ++ lit ": unterminated quoted identifier")
            end
          else if (ch =? c_lparen)%N then
            scan_sql_tokens_loop kind visit (Datatypes.S paren_depth) after 0 st
          else if (ch =? c_rparen)%N then
            match paren_depth with
            | 0 => Err (lit "unsafe " ++ kind ++ lit ": unbalanced closing parenthesis")
            | Datatypes.S d => scan_sql_tokens_loop kind visit d after 0 st
            end
          else if is_ascii_digit ch then
            scan_sql_tokens_loop kind visit paren_depth after
              (consume_numeric_literal rest - 1) st
          else if (ch =? c_underscore)%N || is_ascii_alphabetic ch then
            let more := take_while word_char after in
            let next := drop_while is_whitespace (drop (length more) after) in
            st' <-? visit st (SWord (ch :: more) paren_depth
                                (bool_decide (head next = Some c_lparen))) ;;
            scan_sql_tokens_loop kind visit paren_depth after (length more) st'
          else
            st' <-? visit st (SSymbol ch) ;;
            scan_sql_tokens_loop kind visit paren_depth after 0 st'
      end
  end.

Definition scan_sql_tokens {S} (sql kind : str) (visit : S → SqlToken → result S str)
    (st : S) : result S str :=
  scan_sql_tokens_loop kind visit 0 sql 0 st.

(** The lowercased words of [sql] outside any parentheses, each with whether a
    [(] follows it. *)
Definition collect_top_level_sql_words (sql kind : str) : result (list (str * bool)) str :=
  scan_sql_tokens sql kind
    (λ words token,
      match token with
      | SWord text 0 called => Ok (words ++ [(to_ascii_lowercase text, called)])
      | _ => Ok words
      end) [].

Definition subquery_keywords : list str :=
  lit <$> ["insert"; "update"; "delete"; "drop"; "alter"; "create"; "truncate";
           "returning"; "merge"; "replace"; "upsert"; "grant"; "revoke"; "call";
           "execute"; "values"].

Definition is_forbidden_top_level_subquery_keyword (token : str) : bool :=
  existsb (str_eqb token) subquery_keywords.

Definition validate_subquery_sql_with_mode (sql : str) (allow_top_level_set_ops : bool)
    : result unit str :=
  validate_raw_sql_fragment (lit "subquery") sql ;;?
  top_level_words <-? collect_top_level_sql_words sql (lit "subquery") ;;
  let first_word := fst <$> head top_level_words in
  if negb (bool_decide (first_word = Some (lit "select"))
           || bool_decide (first_word = Some (lit "with")))
  then Err (lit "unsafe subquery: expected a SELECT/WITH query generated by QueryBuilder")
  else if bool_decide (first_word = Some (lit "with"))
          && negb (existsb (λ w, str_eqb (fst w) (lit "select")) top_level_words)
  then Err (lit "unsafe subquery: WITH queries must terminate in a top-level SELECT statement")
  else match List.find (λ w, negb (snd w) && is_forbidden_top_level_subquery_keyword (fst w))
               top_level_words with
  | Some (token, _) =>
      Err (lit "unsafe subquery: keyword '" ++ token
           ++ lit "' is not allowed in raw subquery fragments")
  | None =>
      if negb allow_top_level_set_ops then
        match List.find (λ w, existsb (str_eqb (fst w)) (lit <$> ["union"; "intersect"; "except"]))
                top_level_words with
        | Some (token, _) =>
            Err (lit "unsafe subquery: top-level '" ++ token
                 ++ lit "' queries are not allowed here; use QueryBuilder union()/union_all()/with_recursive_cte() APIs instead")
        | None => Ok tt
        end
      else Ok tt
  end.

Definition having_keywords : list str :=
  lit <$> ["select"; "with"; "join"; "inner"; "left"; "right"; "cross"; "union";
           "intersect"; "except"; "insert"; "update"; "delete"; "drop"; "alter";
           "create"; "truncate"; "returning"; "exists"; "into"; "limit"; "offset";
           "window"; "over"].

Definition is_forbidden_having_keyword (token : str) : bool :=
  existsb (str_eqb token) having_keywords.

(** The symbols a raw HAVING clause may hold. *)
Definition having_symbols : str := lit ".,*+-/%=<>!|&@?:".

(** The visitor of [validate_having_sql_fragment]. *)
Definition having_visit (kind : str) (_ : unit) (token : SqlToken) : result unit str :=
  match token with
  | SWord text _ called =>
      if called && existsb (str_eqb (to_ascii_lowercase text)) (lit <$> ["left"; "right"])
      then Ok tt
      else if is_forbidden_having_keyword (to_ascii_lowercase text)
      then Err (lit "unsafe " ++ kind ++ lit ": keyword '" ++ text
                ++ lit "' is not allowed in raw HAVING clauses")
      else Ok tt
  | SSymbol ch =>
      if existsb (N.eqb ch) having_symbols then Ok tt
      else Err (lit "unsafe " ++ kind ++ lit ": unexpected character '" ++ [ch]
                ++ lit "' in raw HAVING clause")
  end.

Definition validate_having_sql_fragment (kind sql : str) : result unit str :=
  validate_raw_sql_fragment kind sql ;;?
  scan_sql_tokens sql kind (having_visit kind) tt.

Definition validate_subquery_sql (sql : str) : result unit str :=
  validate_subquery_sql_with_mode sql false.

Definition validate_compound_subquery_sql (sql : str) : result unit str :=
  validate_subquery_sql_with_mode sql true.

(** ** What a server reads of a fragment

    How a server splits text into quoted runs: the escape rule in force at a
    quote, which may depend on the characters before it (PostgreSQL's [E'..']
    strings), [None] where the character quotes nothing; whether [[..]] quotes
    an identifier; whether dollar quoting exists. *)
Record Reading := {
  quote_mode : str → char → option EscapeMode;
  brackets : bool;
  dollars : bool;
}.

(** The text a server reads outside quoted runs, each run blanked to one space;
    [None] when a run never ends or a dollar quote opens. *)
Fixpoint visible_loop (r : Reading) (before rest : str) (skip : nat) : option str :=
  match rest with
  | [] => Some []
  | ch :: after =>
      match skip with
      | S skip' => visible_loop r (ch :: before) after skip'
      | 0 =>
          match (if is_quote ch then quote_mode r before ch else None) with
          | Some mode =>
              match quoted_end (drop 1 (enumerate 0 rest)) ch mode (length rest) (λ _, 1) with
              | (consumed, Closed) =>
                  cons 32%N <$> visible_loop r (ch :: before) after (consumed - 1)
              | _ => None
              end
          | None =>
              if brackets r && (ch =? c_lbracket)%N then
                cons 32%N <$> visible_loop r (ch :: before) after
                  (S (length (take_while (λ c, negb (c =? c_rbracket)%N) after)))
              else if dollars r && (ch =? c_dollar)%N && starts_dollar_quote before after
              then None
              else cons ch <$> visible_loop r (ch :: before) after 0
          end
      end
  end.

Definition visible (r : Reading) (s : str) : option str := visible_loop r [] s 0.

(** No statement separator, NUL byte or comment mark in a text. *)
Fixpoint inert (v : str) : bool :=
  match v with
  | [] => true
  | c :: v' =>
      negb ((c =? c_semi)%N || (c =? 0)%N || (c =? c_hash)%N)
      && negb ((c =? c_dash)%N && bool_decide (head v' = Some c_dash))
      && negb ((c =? c_slash)%N && bool_decide (head v' = Some c_star))
      && negb ((c =? c_star)%N && bool_decide (head v' = Some c_slash))
      && inert v'
  end.

(** Every backend's default reading. MySQL escapes with a backslash in strings
    but not in backticked names; SQLite also quotes with brackets; PostgreSQL
    does not quote with backticks, and reads backslashes in [E'..'] only. *)
Definition mysql_reading : Reading :=
  {| quote_mode _ q := Some (if (q =? c_backtick)%N then Doubled else Backslash);
     brackets := false; dollars := false |}.
Definition sqlite_reading : Reading :=
  {| quote_mode _ _ := Some Doubled; brackets := true; dollars := false |}.
Definition postgres_reading : Reading :=
  {| quote_mode before q :=
       if (q =? c_backtick)%N then None
       else Some (if (q =? c_quote)%N && escape_string_prefix before
                  then Backslash else Doubled);
     brackets := false; dollars := true |}.

(** The readings agree on where a run ends whenever the validator's does not
    find an escape they could disagree on. *)
Lemma quoted_end_agrees chars : ∀ close mode e w n,
  mode ≠ RejectAmbiguous → close ≠ c_backslash →
  quoted_end chars close RejectAmbiguous e w = (n, Closed) →
  quoted_end chars close mode e w = (n, Closed).
Proof.
  induction chars as [chars IH] using (induction_ltof1 _ (@length _)); unfold ltof in IH.
  intros close mode e w n Hm Hc. destruct chars as [|[i ch] rest]; [done|].
  rewrite !quoted_end_cons. cbv beta iota.
  destruct (ch =? c_backslash)%N eqn:Eb; cbn [andb].
  - apply N.eqb_eq in Eb as ->.
    rewrite (bool_decide_eq_false_2 (RejectAmbiguous = Doubled)) by done. cbn [negb].
    destruct rest as [|[j next] rest']; [done|].
    rewrite bool_decide_eq_true_2 by done.
    rewrite (bool_decide_eq_false_2 (mode = RejectAmbiguous)) by done.
    replace (c_backslash =? close)%N with false by (symmetry; by apply N.eqb_neq).
    destruct (next =? close)%N eqn:En; [done|].
    destruct (next =? c_backslash)%N eqn:Enb.
    + apply N.eqb_eq in Enb as ->. intros Hq.
      assert (Hr : quoted_end rest' close mode e w = (n, Closed))
        by (apply IH; auto; simpl; lia).
      case_bool_decide; cbn [negb]; [|done].
      rewrite quoted_end_cons, (bool_decide_eq_true_2 (mode = Doubled)) by done.
      rewrite N.eqb_refl. cbn [andb negb].
      replace (c_backslash =? close)%N with false by (symmetry; by apply N.eqb_neq). done.
    + intros Hq. case_bool_decide; cbn [negb]; [apply IH; auto; simpl; lia|].
      apply IH; auto; [simpl; lia|].
      revert Hq. rewrite quoted_end_cons, En, Enb. done.
  - destruct (ch =? close)%N eqn:Ec; [|intros; apply IH; auto; simpl; lia].
    destruct rest as [|[j next] rest']; [done|].
    case_match; [|done]. intros; apply IH; auto; simpl; lia.
Qed.

(** The validator's walk steps over unquoted, unbracketed text. *)
Lemma find_forbidden_skip k : ∀ before rest,
  existsb is_quote (take k rest) = false →
  find_forbidden_loop before rest 0 = None →
  find_forbidden_loop (rev (take k rest) ++ before) (drop k rest) 0 = None.
Proof.
  induction k as [|k IH]; intros before rest Hq Hf; [done|].
  destruct rest as [|ch after]; [done|].
  cbn [take existsb] in Hq. apply orb_false_iff in Hq as [Hch Hq].
  cbn [take drop rev]. rewrite <- app_assoc. cbn [app]. apply IH; [done|].
  revert Hf. cbn [find_forbidden_loop]. unfold is_quote in Hch.
  apply orb_false_iff in Hch as [Hch H3]. apply orb_false_iff in Hch as [H1 H2].
  rewrite H1, H2, H3. cbn [orb]. repeat case_match; done.
Qed.

Lemma find_forbidden_drop skip : ∀ before rest,
  find_forbidden_loop before rest skip =
  find_forbidden_loop (rev (take skip rest) ++ before) (drop skip rest) 0.
Proof.
  induction skip as [|skip IH]; intros before rest; [done|].
  destruct rest as [|ch after]; [done|].
  cbn [take drop rev]. rewrite <- app_assoc. cbn [app]. apply IH.
Qed.

Lemma visible_drop r skip : ∀ before rest,
  visible_loop r before rest skip =
  visible_loop r (rev (take skip rest) ++ before) (drop skip rest) 0.
Proof.
  induction skip as [|skip IH]; intros before rest; [done|].
  destruct rest as [|ch after]; [by destruct skip|].
  cbn [take drop rev]. rewrite <- app_assoc. cbn [app]. apply IH.
Qed.

(** The first visible character is the text's, or the blank of a run. *)
Lemma visible_head r before rest v c :
  visible_loop r before rest 0 = Some v → head v = Some c → head rest = Some c ∨ c = 32%N.
Proof.
  destruct rest as [|ch after]; cbn [visible_loop]; [by intros [= <-]|].
  intros Hv Hc.
  repeat (case_match; try done);
    apply fmap_Some in Hv as (v' & _ & ->); simplify_eq/=; auto.
Qed.

(** What the validator checked of a character outside every quote. *)
Lemma find_forbidden_ordinary before ch after :
  is_quote ch = false → find_forbidden_loop before (ch :: after) 0 = None →
  find_forbidden_loop (ch :: before) after 0 = None
  ∧ (ch =? c_dollar)%N && starts_dollar_quote before after = false
  ∧ (ch =? c_lbracket)%N && bracket_holds_quote after = false
  ∧ (ch =? c_semi)%N = false ∧ (ch =? 0)%N = false ∧ (ch =? c_hash)%N = false
  ∧ (ch =? c_dash)%N && bool_decide (head after = Some c_dash) = false
  ∧ (ch =? c_slash)%N && bool_decide (head after = Some c_star) = false
  ∧ (ch =? c_star)%N && bool_decide (head after = Some c_slash) = false.
Proof.
  unfold is_quote. intros Hq. apply orb_false_iff in Hq as [Hq H3].
  apply orb_false_iff in Hq as [H1 H2]. cbn [find_forbidden_loop].
  rewrite H1, H2, H3. cbn [orb]. repeat (case_match; [done|]). auto 10.
Qed.

(** Inside the run a quote opens, the validator resumes after its end. *)
Lemma find_forbidden_quote before ch after :
  is_quote ch = true → find_forbidden_loop before (ch :: after) 0 = None →
  ∃ n, consume_quoted_run (ch :: after) ch = (n, Closed)
       ∧ find_forbidden_loop (ch :: before) after (n - 1) = None.
Proof.
  unfold is_quote. cbn [find_forbidden_loop]. intros Hq.
  destruct (ch =? c_quote)%N eqn:E1.
  - apply N.eqb_eq in E1 as ->. destruct (consume_quoted_run _ _) as [n []]; try done. eauto.
  - cbn [orb] in Hq. rewrite Hq.
    destruct (consume_quoted_run _ _) as [n []]; try done. eauto.
Qed.

Lemma bracket_unquoted after :
  bracket_holds_quote after = false →
  existsb is_quote (take (S (length (take_while (λ c, negb (c =? c_rbracket)%N) after))) after)
  = false.
Proof.
  unfold bracket_holds_quote. induction after as [|c after IH]; [done|].
  cbn [take_while]. destruct (c =? c_rbracket)%N eqn:E; cbn [negb].
  - intros _. apply N.eqb_eq in E as ->. by destruct after.
  - cbn [existsb length]. intros Hq. apply orb_false_iff in Hq as [Hc Hq].
    cbn [take existsb]. rewrite Hc. cbn [orb]. by apply IH.
Qed.

Lemma inert_cons ch v :
  (ch =? c_semi)%N = false → (ch =? 0)%N = false → (ch =? c_hash)%N = false →
  ((ch =? c_dash)%N = true → head v ≠ Some c_dash) →
  ((ch =? c_slash)%N = true → head v ≠ Some c_star) →
  ((ch =? c_star)%N = true → head v ≠ Some c_slash) →
  inert v = true → inert (ch :: v) = true.
Proof.
  intros H1 H2 H3 H4 H5 H6 Hv. cbn [inert]. rewrite H1, H2, H3, Hv. cbn [orb negb andb].
  rewrite !andb_true_iff, !negb_true_iff, !andb_false_iff, !bool_decide_eq_false.
  split_and!; try done.
  - destruct (ch =? c_dash)%N; auto.
  - destruct (ch =? c_slash)%N; auto.
  - destruct (ch =? c_star)%N; auto.
Qed.

(** [r] quotes with every quote character of [s]. *)
Definition quotes_as_validated (r : Reading) (s : str) : Prop :=
  ∀ before q, q ∈ s → is_quote q = true →
    quote_mode r before q = Some Doubled ∨ quote_mode r before q = Some Backslash.

Lemma quotes_as_validated_app r a b : quotes_as_validated r (a ++ b) → quotes_as_validated r b.
Proof. intros Hr before q Hq. apply Hr. set_solver. Qed.

Lemma is_quote_backslash q : is_quote q = true → q ≠ c_backslash.
Proof. unfold is_quote. lia. Qed.

Lemma accepted_visible r rest : ∀ before,
  quotes_as_validated r rest → find_forbidden_loop before rest 0 = None →
  ∃ v, visible_loop r before rest 0 = Some v ∧ inert v = true.
Proof.
  induction rest as [rest IH] using (induction_ltof1 _ (@length _)); unfold ltof in IH.
  intros before Hr Hf. destruct rest as [|ch after]; [by exists []|].
  assert (Hstep : ∀ k b, find_forbidden_loop b (drop k after) 0 = None →
    ∃ v, visible_loop r b (drop k after) 0 = Some v ∧ inert v = true).
  { intros k b. apply IH; [rewrite length_drop; simpl; lia|].
    apply (quotes_as_validated_app _ (ch :: take k after)). simpl. by rewrite take_drop. }
  cbn [visible_loop]. destruct (is_quote ch) eqn:Eq.
  - destruct (find_forbidden_quote _ _ _ Eq Hf) as (n & Hn & Hf').
    rewrite find_forbidden_drop in Hf'.
    destruct (Hstep _ _ Hf') as (v & Hv & Hi). rewrite <- visible_drop in Hv.
    assert (Hm : ∃ m, quote_mode r before ch = Some m ∧ m ≠ RejectAmbiguous).
    { destruct (Hr before ch ltac:(set_solver) Eq) as [-> | ->]; eauto. }
    destruct Hm as (m & -> & Hm). unfold consume_quoted_run in Hn.
    rewrite (quoted_end_agrees _ _ m _ _ _ Hm (is_quote_backslash _ Eq) Hn), Hv.
    exists (32%N :: v). split; [done|]. apply inert_cons; done.
  - destruct (find_forbidden_ordinary _ _ _ Eq Hf)
      as (Hf' & Hd & Hb & H1 & H2 & H3 & H4 & H5 & H6).
    destruct (brackets r && (ch =? c_lbracket)%N) eqn:Ebr.
    + apply andb_true_iff in Ebr as [_ Ebr]. rewrite Ebr in Hb. cbn [andb] in Hb.
      apply bracket_unquoted in Hb.
      pose proof (find_forbidden_skip _ _ _ Hb Hf') as Hf''.
      destruct (Hstep _ _ Hf'') as (v & Hv & Hi). rewrite <- visible_drop in Hv.
      rewrite Hv. exists (32%N :: v). split; [done|]. apply inert_cons; done.
    + rewrite <- andb_assoc, Hd, andb_false_r.
      destruct (Hstep 0 _ Hf') as (v & Hv & Hi). rewrite drop_0 in Hv. rewrite Hv.
      exists (ch :: v). split; [done|].
      assert (Hnext : ∀ c, c ≠ 32%N → head v = Some c → head after = Some c).
      { intros c Hc Hh. destruct (visible_head _ _ _ _ _ Hv Hh); done. }
      apply inert_cons; auto; intros Ec Hh; rewrite Ec in *;
        apply Hnext in Hh; try done; rewrite Hh in *; done.
Qed.

(** ** Quoted names and literals as the lexer reads them *)

(** [s] with each [q] doubled. *)
Definition doubled (q : char) (s : str) : str :=
  s ≫= λ ch, if (ch =? q)%N then [q; ch] else [ch].

Lemma doubled_cons q c s :
  doubled q (c :: s) = (if (c =? q)%N then [q; c] else [c]) ++ doubled q s.
Proof. done. Qed.

Lemma quote_ident_doubled db name :
  quote_ident db name = quote_char db :: doubled (quote_char db) name ++ [quote_char db].
Proof. done. Qed.

Lemma replace_char_doubled q s : replace_char q [q; q] s = doubled q s.
Proof.
  induction s as [|c s IH]; [done|]. rewrite doubled_cons, <- IH.
  unfold replace_char. csimpl. destruct (c =? q)%N eqn:E; [|done].
  apply N.eqb_eq in E as ->. done.
Qed.

(** A doubled text closes at the first quote after it. *)
Lemma quoted_end_doubled q s : ∀ off rest e,
  head rest ≠ Some q →
  quoted_end (char_indices off (doubled q s ++ q :: rest)) q Doubled e len_utf8
  = (off + slen (doubled q s) + len_utf8 q, Closed).
Proof.
  induction s as [|c s IH]; intros off rest e Hr.
  - cbn [doubled mbind list_bind app char_indices slen]. rewrite quoted_end_cons.
    rewrite bool_decide_eq_true_2, andb_false_r, N.eqb_refl by done.
    destruct rest as [|d rest]; cbn [char_indices].
    + f_equal. lia.
    + replace (d =? q)%N with false by (symmetry; apply N.eqb_neq; intros ->; done).
      f_equal. lia.
  - rewrite doubled_cons. destruct (c =? q)%N eqn:E.
    + apply N.eqb_eq in E as ->. cbn [app char_indices]. rewrite quoted_end_cons.
      rewrite bool_decide_eq_true_2, andb_false_r, N.eqb_refl by done. cbv beta iota.
      rewrite IH by done. cbn [slen]. f_equal. lia.
    + cbn [app char_indices]. rewrite quoted_end_cons.
      rewrite bool_decide_eq_true_2, andb_false_r, E by done.
      rewrite IH by done. cbn [slen]. f_equal. lia.
Qed.

Lemma replace_doubled q s : ∀ fuel,
  length (doubled q s) ≤ fuel → replace_fuel fuel [q; q] [q] (doubled q s) = s.
Proof.
  induction s as [|c s IH]; intros fuel Hf; [by destruct fuel|].
  rewrite doubled_cons in *. destruct (c =? q)%N eqn:E.
  - apply N.eqb_eq in E as ->. rewrite length_app in Hf. simpl in Hf.
    destruct fuel as [|fuel]; [lia|]. cbn [app replace_fuel strip_prefix].
    rewrite N.eqb_refl. rewrite IH by lia. done.
  - rewrite length_app in Hf. simpl in Hf. destruct fuel as [|fuel]; [lia|].
    cbn [app replace_fuel strip_prefix].
    replace (q =? c)%N with false by (rewrite N.eqb_sym; done).
    rewrite IH by lia. done.
Qed.

(** A delimiter other than a bracket, its text doubled, is one token that
    spells the text. *)
Lemma unquoted_doubled q s off k :
  (q = c_quote ∧ k = Literal) ∨ ((q = c_dquote ∨ q = c_backtick) ∧ k = Identifier) →
  unquoted (mkToken (q :: doubled q s ++ [q]) off k) = Some s.
Proof.
  intros Hk. unfold unquoted. cbn [text kind].
  assert (Hc : q ≠ c_lbracket ∧ (q < 128)%N) by (destruct Hk as [[-> _]|[[-> | ->] _]]; lia).
  destruct Hc as [Hlb Hascii].
  replace (negb _ && _) with false
    by (destruct Hk as [[-> ->]|[[-> | ->] ->]]; reflexivity).
  replace (starts_with [c_lbracket] (q :: doubled q s ++ [q])) with false.
  2: { cbn [starts_with]. symmetry. apply andb_false_iff. left. by apply N.eqb_neq, not_eq_sym. }
  cbn [head mbind option_bind]. unfold strip_suffix_char.
  replace (rev (q :: doubled q s ++ [q])) with (q :: rev (q :: doubled q s)).
  2: { cbn [rev]. rewrite rev_app_distr. done. }
  rewrite N.eqb_refl, rev_involutive. cbn [mbind option_bind].
  rewrite slice_from_ascii by done. cbn [mbind option_bind].
  unfold replace. by rewrite replace_doubled.
Qed.

Lemma quoted_len_doubled q s rest b :
  q ≠ c_lbracket → head rest ≠ Some q → b = false →
  quoted_len (q :: doubled q s ++ q :: rest) q b = slen (q :: doubled q s ++ [q]).
Proof.
  intros Hq Hr ->. unfold quoted_len.
  replace (q =? c_lbracket)%N with false by (symmetry; by apply N.eqb_neq).
  cbv zeta iota. cbn [char_indices drop]. rewrite drop_0. rewrite quoted_end_doubled by done. cbn [fst slen].
  rewrite slen_app. simpl. lia.
Qed.

(** What [lex_one] reads at a quoted name. *)
Lemma lex_one_quoted_ident sqlite before db name rest :
  head rest ≠ Some (quote_char db) →
  lex_one sqlite before (quote_char db) (doubled (quote_char db) name ++ quote_char db :: rest)
  = Some (Identifier, slen (quote_ident db name)).
Proof.
  intros Hr. rewrite quote_ident_doubled, <- (quoted_len_doubled _ _ rest false); auto.
  2: { by destruct db. }
  unfold lex_one. destruct sqlite, db; reflexivity.
Qed.

(** The tokens of [parts] quoted and joined by dots. *)
Fixpoint reference_tokens (db : DatabaseType) (off : nat) (parts : list str) : list Token :=
  match parts with
  | [] => []
  | [p] => [mkToken (quote_ident db p) off Identifier]
  | p :: rest =>
      mkToken (quote_ident db p) off Identifier
      :: mkToken (lit ".") (off + slen (quote_ident db p)) Symbol
      :: reference_tokens db (off + slen (quote_ident db p) + 1) rest
  end.

Lemma scan_quoted_ident fuel sqlite before off db name rest :
  head rest ≠ Some (quote_char db) →
  scan_fuel (S fuel) sqlite before off (quote_ident db name ++ rest) =
  cons (mkToken (quote_ident db name) off Identifier) <$>
    scan_fuel fuel sqlite (rev (quote_ident db name) ++ before)
      (off + slen (quote_ident db name)) rest.
Proof.
  intros Hr.
  assert (Hs : quote_ident db name ++ rest
    = quote_char db :: (doubled (quote_char db) name ++ quote_char db :: rest))
    by (rewrite quote_ident_doubled; simpl; by rewrite <- app_assoc).
  rewrite Hs. cbn [scan_fuel]. rewrite lex_one_quoted_ident by done. cbn [mbind option_bind].
  rewrite <- Hs, split_at_app. cbn [mbind option_bind].
  by destruct (scan_fuel fuel _ _ _ _).
Qed.

Lemma scan_dot fuel sqlite before off rest :
  scan_fuel (S fuel) sqlite before off (lit "." ++ rest) =
  cons (mkToken (lit ".") off Symbol) <$>
    scan_fuel fuel sqlite (rev (lit ".") ++ before) (off + 1) rest.
Proof.
  change (lit ".") with [46%N]. cbn [app scan_fuel].
  replace (lex_one sqlite before 46%N rest) with (Some (Symbol, 1)) by by destruct sqlite.
  cbn [mbind option_bind].
  pose proof (split_at_app [46%N] rest) as E. cbn [slen app] in E.
  rewrite len_utf8_ascii in E by lia. change (1 + 0) with 1 in E. rewrite E.
  cbn [mbind option_bind]. by destruct (scan_fuel fuel _ _ _ _).
Qed.

Lemma quote_char_dot db : Some 46%N ≠ Some (quote_char db).
Proof. by destruct db. Qed.

Lemma scan_reference sqlite db parts : ∀ fuel before off,
  2 * length parts ≤ S fuel →
  scan_fuel fuel sqlite before off (join (lit ".") (quote_ident db <$> parts))
  = Some (reference_tokens db off parts).
Proof.
  induction parts as [|p parts IH]; intros fuel before off Hf; [by destruct fuel|].
  destruct parts as [|p' parts]; cbn [length] in Hf.
  - destruct fuel as [|fuel]; [lia|].
    change (join (lit ".") (quote_ident db <$> [p])) with (quote_ident db p).
    rewrite <- (app_nil_r (quote_ident db p)) at 1.
    rewrite scan_quoted_ident by done. by destruct fuel.
  - destruct fuel as [|[|fuel]]; [lia..|].
    assert (Hj : join (lit ".") (quote_ident db <$> p :: p' :: parts) =
      quote_ident db p ++ lit "." ++ join (lit ".") (quote_ident db <$> p' :: parts)) by done.
    rewrite Hj, scan_quoted_ident by apply quote_char_dot.
    rewrite scan_dot, IH by (cbn [length]; lia). done.
Qed.

Lemma join_app_cons sep p ps :
  join sep (p :: ps) = p ++ concat ((λ x, sep ++ x) <$> ps).
Proof.
  revert p. induction ps as [|p' ps IH]; intros p; [by rewrite app_nil_r|].
  change (join sep (p :: p' :: ps)) with (p ++ sep ++ join sep (p' :: ps)).
  rewrite IH. csimpl. by rewrite <- app_assoc.
Qed.

Lemma push_quoted_ident_app out db name :
  push_quoted_ident out db name = out ++ quote_ident db name.
Proof. done. Qed.

Lemma push_parts_S parts : ∀ out db i,
  push_parts out db (S i) parts = out ++ concat ((λ x, lit "." ++ x) <$> (quote_ident db <$> parts)).
Proof.
  induction parts as [|p parts IH]; intros out db i; [by rewrite app_nil_r|].
  cbn [push_parts]. change (0 <? S i) with true. cbv iota.
  rewrite IH, push_quoted_ident_app, !fmap_cons. cbn [concat].
  by rewrite <- !app_assoc.
Qed.

Lemma push_parts_join db parts : push_parts [] db 0 parts = join (lit ".") (quote_ident db <$> parts).
Proof.
  destruct parts as [|p parts]; [done|]. cbn [push_parts].
  change (0 <? 0) with false. cbv iota. rewrite push_parts_S, push_quoted_ident_app.
  rewrite fmap_cons, join_app_cons. done.
Qed.

(** The names [format_column] renders: the dotted parts of a plain reference,
    else the whole trimmed text. *)
Definition column_parts (column : str) : list str :=
  default [trim column] (identifier_reference_parts (trim column)).

Lemma format_column_parts db column :
  format_column db column = join (lit ".") (quote_ident db <$> column_parts column).
Proof.
  unfold format_column, column_parts, format_identifier_reference.
  destruct (identifier_reference_parts (trim column)); simpl; [|done].
  apply push_parts_join.
Qed.

(** The names the quoted tokens of a list spell. *)
Definition spelled (toks : list Token) : list str :=
  omap (λ t, if bool_decide (kind t = Identifier) then unquoted t else None) toks.

Lemma unquoted_quote_ident db name off :
  unquoted (mkToken (quote_ident db name) off Identifier) = Some name.
Proof.
  rewrite quote_ident_doubled. apply unquoted_doubled. right. destruct db; auto.
Qed.

Lemma spelled_reference db parts : ∀ off, spelled (reference_tokens db off parts) = parts.
Proof.
  unfold spelled. induction parts as [|p parts IH]; intros off; [done|].
  destruct parts as [|p' parts].
  - csimpl. by rewrite unquoted_quote_ident.
  - cbn [reference_tokens]. csimpl. rewrite unquoted_quote_ident. f_equal. apply IH.
Qed.

Lemma reference_tokens_kinds db parts : ∀ off,
  Forall (λ t, kind t = Identifier ∨ (kind t = Symbol ∧ text t = lit ".")) (reference_tokens db off parts).
Proof.
  induction parts as [|p parts IH]; intros off; [constructor|].
  destruct parts as [|p' parts]; [by repeat constructor; left|].
  cbn [reference_tokens]. constructor; [by left|]. constructor; [by right|]. apply IH.
Qed.

(** ** Escaped literals *)

(** A text escaped for the MySQL family, character by character. *)
Lemma escape_mysql_cons c s db :
  db = MySQL ∨ db = MariaDB →
  escape_sql_literal_for_db db (c :: s) =
  (if (c =? c_quote)%N then [c_quote; c_quote]
   else if (c =? c_backslash)%N then [c_backslash; c_backslash] else [c])
  ++ escape_sql_literal_for_db db s.
Proof.
  intros Hdb. unfold escape_sql_literal_for_db, replace_char. rewrite bind_cons.
  destruct (c =? c_quote)%N eqn:E1.
  - destruct Hdb as [-> | ->]; rewrite bind_app; done.
  - destruct Hdb as [-> | ->]; rewrite bind_app; csimpl; by destruct (c =? c_backslash)%N.
Qed.

Lemma quoted_end_escaped_mysql db s : db = MySQL ∨ db = MariaDB →
  ∀ mode off rest e,
  mode ≠ RejectAmbiguous → head rest ≠ Some c_quote →
  quoted_end (char_indices off (escape_sql_literal_for_db db s ++ c_quote :: rest))
    c_quote mode e len_utf8
  = (off + slen (escape_sql_literal_for_db db s) + 1, Closed).
Proof.
  intros Hdb mode. induction s as [|c s IH]; intros off rest e Hm Hr.
  - replace (escape_sql_literal_for_db db []) with (@nil N) by (by destruct Hdb as [-> | ->]).
    cbn [app char_indices slen]. rewrite quoted_end_cons. cbn [N.eqb Pos.eqb andb].
    destruct rest as [|d rest]; cbn [char_indices].
    + f_equal. rewrite len_utf8_ascii by lia. lia.
    + replace (d =? c_quote)%N with false by (symmetry; apply N.eqb_neq; intros ->; done).
      f_equal. rewrite len_utf8_ascii by lia. lia.
  - rewrite escape_mysql_cons by done.
    destruct (c =? c_quote)%N eqn:E1; [|destruct (c =? c_backslash)%N eqn:E2];
      cbn [app char_indices slen]; rewrite quoted_end_cons.
    + cbn [N.eqb Pos.eqb andb]. rewrite IH by done. f_equal. lia.
    + destruct mode; [|cbn -[len_utf8]; rewrite IH by done; f_equal; lia|done].
      rewrite bool_decide_eq_true_2, andb_false_r by done.
      cbn [N.eqb Pos.eqb]. rewrite quoted_end_cons.
      rewrite bool_decide_eq_true_2, andb_false_r by done.
      cbn [N.eqb Pos.eqb]. rewrite IH by done. f_equal. lia.
    + rewrite E1, E2. cbn [andb]. rewrite IH by done. f_equal. lia.
Qed.

(** The value of the text between a MySQL literal's quotes: a backslash stands
    for the character after it, a doubled quote for one. *)
Fixpoint mysql_literal_value (s : str) : str :=
  match s with
  | c :: (d :: r) as tl =>
      if (c =? c_backslash)%N || ((c =? c_quote)%N && (d =? c_quote)%N)
      then d :: mysql_literal_value r
      else c :: mysql_literal_value tl
  | _ => s
  end.

Lemma mysql_literal_value_plain c s :
  (c =? c_quote)%N = false → (c =? c_backslash)%N = false →
  mysql_literal_value (c :: s) = c :: mysql_literal_value s.
Proof. intros H1 H2. destruct s; simpl; [done|]. by rewrite H1, H2. Qed.

Lemma mysql_literal_value_escaped db s : db = MySQL ∨ db = MariaDB →
  mysql_literal_value (escape_sql_literal_for_db db s) = s.
Proof.
  intros Hdb. induction s as [|c s IH]; [by destruct Hdb as [-> | ->]|].
  rewrite escape_mysql_cons by done.
  destruct (c =? c_quote)%N eqn:E1; [|destruct (c =? c_backslash)%N eqn:E2]; cbn [app].
  - apply N.eqb_eq in E1 as ->. cbn [mysql_literal_value]. cbn. by f_equal.
  - apply N.eqb_eq in E2 as ->. cbn [mysql_literal_value]. cbn. by f_equal.
  - rewrite mysql_literal_value_plain by done. by f_equal.
Qed.

(** ** Parentheses *)

(** Parentheses close only what the text opened, from depth [d], and all of it. *)
Fixpoint balanced (d : nat) (v : str) : bool :=
  match v with
  | [] => (d =? 0)%nat
  | c :: v' =>
      if (c =? c_lparen)%N then balanced (S d) v'
      else if (c =? c_rparen)%N then
        match d with 0 => false | S d' => balanced d' v' end
      else balanced d v'
  end.

(** A character that neither quotes nor nests. *)
Definition flat (c : char) : bool :=
  negb (is_quote c) && negb (c =? c_lparen)%N && negb (c =? c_rparen)%N.

Lemma visible_flat r c before after :
  brackets r = false → dollars r = false → is_quote c = false →
  visible_loop r before (c :: after) 0 = cons c <$> visible_loop r (c :: before) after 0.
Proof. intros Hb Hd Hc. cbn [visible_loop]. by rewrite Hc, Hb, Hd. Qed.

Lemma balanced_flat_run r d k : ∀ before rest,
  brackets r = false → dollars r = false → Forall (λ c, flat c = true) (take k rest) →
  (∃ v, visible_loop r (rev (take k rest) ++ before) (drop k rest) 0 = Some v
        ∧ balanced d v = true) →
  ∃ v, visible_loop r before rest 0 = Some v ∧ balanced d v = true.
Proof.
  induction k as [|k IH]; intros before rest Hb Hd Hf Hv; [done|].
  destruct rest as [|c after]; [done|]. cbn [take drop rev] in *.
  rewrite <- app_assoc in Hv. cbn [app] in Hv.
  apply Forall_cons_iff in Hf as [Hc Hf]. unfold flat in Hc. bools.
  destruct (IH (c :: before) after Hb Hd Hf Hv) as (v & Hv' & Hbal).
  rewrite visible_flat, Hv' by done. exists (c :: v). split; [done|].
  cbn [balanced]. replace (c =? c_lparen)%N with false by lia.
  by replace (c =? c_rparen)%N with false by lia.
Qed.

Lemma take_while_prefix {A} (p : A → bool) l : take (length (take_while p l)) l = take_while p l.
Proof. induction l as [|x l IH]; simpl; [done|]. destruct (p x); simpl; congruence. Qed.

Lemma word_char_flat c : word_char c = true → flat c = true.
Proof.
  unfold word_char, flat, is_quote, is_ascii_alphanumeric, is_ascii_alphabetic, is_ascii_digit. lia.
Qed.

(** A numeric literal holds no quote or parenthesis. *)
Lemma numeric_literal_flat c after :
  is_ascii_digit c = true →
  Forall (λ x, flat x = true) (take (consume_numeric_literal (c :: after)) (c :: after))
  ∧ 1 ≤ consume_numeric_literal (c :: after).
Proof.
  intros Hc. unfold consume_numeric_literal. cbn [drop]. rewrite drop_0.
  set (m := take_while _ after).
  assert (Hm : Forall (λ x, flat x = true) (c :: m)).
  { constructor; [unfold is_ascii_digit, flat, is_quote in *; lia|].
    eapply Forall_impl; [|apply take_while_all]. intros x. cbv beta.
    unfold is_ascii_digit, flat, is_quote. lia. }
  assert (Hpre : take (1 + length m) (c :: after) = c :: m)
    by (cbn [take Nat.add]; unfold m; by rewrite take_while_prefix).
  cbn [Nat.add drop] in *.
  destruct (drop (length m) after) as [|e ex] eqn:Ed; [rewrite Hpre; auto with lia|].
  destruct ((e =? 101)%N || (e =? 69)%N) eqn:Ee; [|rewrite Hpre; auto with lia].
  set (sg := match ex with
             | s :: _ => if (s =? 43)%N || (s =? c_dash)%N then 1 else 0
             | [] => 0
             end).
  set (ds := take_while is_ascii_digit (drop sg ex)).
  destruct (length ds =? 0)%nat; [rewrite Hpre; auto with lia|]. split; [|lia].
  replace (S (length m + 1 + sg + length ds)) with (S (length m) + (1 + (sg + length ds))) by lia.
  rewrite <- take_take_drop, Hpre. apply Forall_app. split; [done|].
  cbn [drop]. rewrite Ed. change (1 + (sg + length ds)) with (S (sg + length ds)).
  cbn [take]. constructor; [unfold flat, is_quote; lia|].
  rewrite <- take_take_drop. apply Forall_app. split.
  - unfold sg. destruct ex as [|s ex']; [constructor|].
    destruct ((s =? 43)%N || (s =? c_dash)%N) eqn:Es; cbn [take]; [|constructor].
    rewrite take_0. repeat constructor. unfold flat, is_quote. lia.
  - unfold ds. rewrite take_while_prefix.
    eapply Forall_impl; [|apply take_while_all]. intros x. cbv beta.
    unfold is_ascii_digit, flat, is_quote. lia.
Qed.

Lemma scan_sql_tokens_drop {S} kind (visit : S → SqlToken → result S str) skip :
  ∀ depth rest st,
  scan_sql_tokens_loop kind visit depth rest skip st =
  scan_sql_tokens_loop kind visit depth (drop skip rest) 0 st.
Proof.
  induction skip as [|skip IH]; intros depth rest st; [done|].
  destruct rest as [|c after]; [by destruct skip|]. apply IH.
Qed.

Lemma whitespace_flat c : is_whitespace c = true → flat c = true.
Proof. unfold is_whitespace, flat, is_quote. lia. Qed.

(** A scan that ends well leaves the parentheses a server reads balanced. *)
Lemma scan_sql_tokens_balanced {S} r kind (visit : S → SqlToken → result S str) rest :
  ∀ before depth st st',
  brackets r = false → dollars r = false → quotes_as_validated r rest →
  scan_sql_tokens_loop kind visit depth rest 0 st = Ok st' →
  ∃ v, visible_loop r before rest 0 = Some v ∧ balanced depth v = true.
Proof.
  induction rest as [rest IH] using (induction_ltof1 _ (@length _)); unfold ltof in IH.
  intros before depth st st' Hb Hd Hr. destruct rest as [|c after].
  { cbn. case_match; [|done]. intros _. by exists []. }
  assert (Hgo : ∀ k b d s1 s2, scan_sql_tokens_loop kind visit d (drop k after) 0 s1 = Ok s2 →
    ∃ v, visible_loop r b (drop k after) 0 = Some v ∧ balanced d v = true).
  { intros k b d s1 s2. apply IH; [rewrite length_drop; simpl; lia|done|done|].
    apply (quotes_as_validated_app _ (c :: take k after)). simpl. by rewrite take_drop. }
  assert (Hrun : ∀ k s1, Forall (λ x, flat x = true) (take (Datatypes.S k) (c :: after)) →
    scan_sql_tokens_loop kind visit depth after k s1 = Ok st' →
    ∃ v, visible_loop r before (c :: after) 0 = Some v ∧ balanced depth v = true).
  { intros k s1 Hf Hs. rewrite scan_sql_tokens_drop in Hs.
    apply (balanced_flat_run r depth (Datatypes.S k)); auto. eapply Hgo, Hs. }
  assert (Hquote : ∀ n, is_quote c = true → consume_quoted_run (c :: after) c = (n, Closed) →
    scan_sql_tokens_loop kind visit depth after (n - 1) st = Ok st' →
    ∃ v, visible_loop r before (c :: after) 0 = Some v ∧ balanced depth v = true).
  { intros n Hq Hn Hs. rewrite scan_sql_tokens_drop in Hs.
    destruct (Hgo _ (rev (take (n - 1) after) ++ c :: before) _ _ _ Hs) as (v & Hv & Hbal).
    rewrite <- visible_drop in Hv. cbn [visible_loop]. rewrite Hq.
    assert (Hm : ∃ m, quote_mode r before c = Some m ∧ m ≠ RejectAmbiguous)
      by (destruct (Hr before c ltac:(set_solver) Hq) as [-> | ->]; eauto).
    destruct Hm as (m & -> & Hm). unfold consume_quoted_run in Hn.
    rewrite (quoted_end_agrees _ _ m _ _ _ Hm (is_quote_backslash _ Hq) Hn), Hv.
    by exists (32%N :: v). }
  cbn [scan_sql_tokens_loop].
  destruct (is_whitespace c) eqn:Ews.
  { intros Hs. apply (Hrun 0 st); [|done]. repeat constructor. by apply whitespace_flat. }
  destruct (c =? c_quote)%N eqn:E1.
  { apply N.eqb_eq in E1 as ->. destruct (consume_quoted_run _ _) as [n []] eqn:Ec; try done.
    by apply Hquote. }
  destruct ((c =? c_dquote)%N || (c =? c_backtick)%N) eqn:E2.
  { destruct (consume_quoted_run _ _) as [n []] eqn:Ec; try done.
    apply Hquote; [|done]. unfold is_quote. by rewrite E1. }
  assert (Hnq : is_quote c = false) by (unfold is_quote; by rewrite E1).
  destruct (c =? c_lparen)%N eqn:E3.
  { intros Hs. rewrite <- (drop_0 after) in Hs. apply (Hgo 0 (c :: before)) in Hs as (v & Hv & Hbal).
    rewrite visible_flat by done. rewrite drop_0 in Hv. rewrite Hv. exists (c :: v).
    split; [done|]. cbn [balanced]. by rewrite E3. }
  destruct (c =? c_rparen)%N eqn:E4.
  { destruct depth as [|d]; [done|]. intros Hs. rewrite <- (drop_0 after) in Hs.
    apply (Hgo 0 (c :: before)) in Hs as (v & Hv & Hbal).
    rewrite visible_flat by done. rewrite drop_0 in Hv. rewrite Hv. exists (c :: v).
    split; [done|]. cbn [balanced]. by rewrite E3, E4. }
  assert (Hflat : flat c = true) by (unfold flat; by rewrite Hnq, E3, E4).
  destruct (is_ascii_digit c) eqn:E5.
  { destruct (numeric_literal_flat c after E5) as [Hf Hlen]. intros Hs.
    apply (Hrun _ _ ltac:(replace (Datatypes.S (consume_numeric_literal (c :: after) - 1))
      with (consume_numeric_literal (c :: after)) by lia; exact Hf) Hs). }
  destruct ((c =? c_underscore)%N || is_ascii_alphabetic c) eqn:E6.
  { intros Hs. apply rbind_Ok in Hs as (s1 & _ & Hs). eapply Hrun, Hs.
    cbn [take]. constructor; [done|]. rewrite take_while_prefix.
    eapply Forall_impl; [|apply take_while_all]. apply word_char_flat. }
  intros Hs. apply rbind_Ok in Hs as (s1 & _ & Hs). apply (Hrun 0 s1); [|done].
  by repeat constructor.
Qed.

Lemma mysql_quotes_as_validated s : quotes_as_validated mysql_reading s.
Proof. intros b q _ _. cbn. destruct (q =? c_backtick)%N; auto. Qed.

Lemma sqlite_quotes_as_validated s : quotes_as_validated sqlite_reading s.
Proof. intros b q _ _. by left. Qed.

Lemma postgres_quotes_as_validated s :
  c_backtick ∉ s → quotes_as_validated postgres_reading s.
Proof.
  intros Hs b q Hq _. cbn. destruct (q =? c_backtick)%N eqn:E.
  - apply N.eqb_eq in E as ->. done.
  - case_match; auto.
Qed.

Lemma validated_fragment kind sql :
  validate_raw_sql_fragment kind sql = Ok tt →
  find_forbidden_loop [] (trim sql) 0 = None.
Proof.
  unfold validate_raw_sql_fragment. case_bool_decide; [done|].
  unfold find_forbidden_raw_sql_token. by case_match.
Qed.

End fragments.

(** ** The properties *)

(** C1: A raw fragment [validate_raw_sql_fragment] accepts shows no statement
    separator, NUL byte or comment mark to any server whose quoting is a
    mixture of the doubled and the backslash rule on the three quote characters
    the fragment uses, with or without bracketed names and dollar quoting: the
    server's own reading of the fragment closes every quoted run and leaves
    only inert text outside them. MySQL, MariaDB and SQLite are such servers
    for every fragment, PostgreSQL is for a fragment without backticks. *)
Theorem accepted_fragment_is_inert `{Unicode} kind sql :
  validate_raw_sql_fragment kind sql = Ok tt →
  (∀ r, quotes_as_validated r (trim sql) →
        ∃ v, visible r (trim sql) = Some v ∧ inert v = true)
  ∧ (∃ v, visible mysql_reading (trim sql) = Some v ∧ inert v = true)
  ∧ (∃ v, visible sqlite_reading (trim sql) = Some v ∧ inert v = true)
  ∧ (c_backtick ∉ trim sql →
     ∃ v, visible postgres_reading (trim sql) = Some v ∧ inert v = true).
Proof.
  intros Hok. apply validated_fragment in Hok. split_and!.
  - intros r Hr. by apply accepted_visible.
  - apply accepted_visible; [apply mysql_quotes_as_validated|done].
  - apply accepted_visible; [apply sqlite_quotes_as_validated|done].
  - intros Hb. apply accepted_visible; [by apply postgres_quotes_as_validated|done].
Qed.

Lemma accepted_fragment_is_inert_witness :
  ∃ v, visible (H := ascii_only) mysql_reading (trim (lit " name = 'issue #42 -- ' ")) = Some v
       ∧ inert v = true.
Proof.
  exact (proj1 (proj2 (accepted_fragment_is_inert (H := ascii_only) (lit "WHERE")
    (lit " name = 'issue #42 -- ' ") ltac:(vm_compute; reflexivity)))).
Defined.

(** PostgreSQL does not quote with backticks, and the validator does: a
    fragment hiding a separator and a comment between backticks is accepted,
    and the PostgreSQL reading of it is not inert. *)
Theorem backticks_hide_comments_from_postgres :
  let sql := lit "a = 1 ` ; -- `" in
  validate_raw_sql_fragment (H := ascii_only) (lit "WHERE") sql = Ok tt
  ∧ visible (H := ascii_only) (postgres_reading (H := ascii_only)) sql = Some sql
  ∧ inert sql = false.
Proof. vm_compute. auto. Qed.

(** C23: No name breaks out of its quotes: whatever the name holds, the text
    [quote_ident] renders for it, followed by anything but another quote, is
    read by the lexer of any backend as one identifier token that spells
    exactly the name, the rest of the text being tokenized after it. *)
Theorem quoted_name_is_one_token `{Unicode} sqlite db name rest :
  head rest ≠ Some (quote_char db) →
  ∃ toks, scan (quote_ident db name ++ rest) sqlite
          = Some (mkToken (quote_ident db name) 0 Identifier :: toks)
  ∧ unquoted (mkToken (quote_ident db name) 0 Identifier) = Some name
  ∧ tiles (slen (quote_ident db name)) toks rest.
Proof.
  intros Hr. unfold scan.
  assert (Hlen : ∃ f, length (quote_ident db name ++ rest) = S f ∧ length rest ≤ f).
  { exists (length ((doubled (quote_char db) name ++ [quote_char db]) ++ rest)).
    split; [done|]. lengths. }
  destruct Hlen as (f & -> & Hf). rewrite scan_quoted_ident by done.
  destruct (scan_fuel_total sqlite f (rev (quote_ident db name) ++ [])
    (0 + slen (quote_ident db name)) rest Hf) as (toks & -> & Ht & _).
  exists toks. split_and!; [done|apply unquoted_quote_ident|done].
Qed.

Lemma quoted_name_is_one_token_witness :
  ∃ toks, scan (H := ascii_only) (quote_ident MySQL (lit "a`; DROP TABLE t") ++ lit " = 1") false
  = Some (mkToken (quote_ident MySQL (lit "a`; DROP TABLE t")) 0 Identifier :: toks).
Proof.
  destruct (quoted_name_is_one_token (H := ascii_only) false MySQL (lit "a`; DROP TABLE t")
    (lit " = 1") ltac:(vm_compute; discriminate)) as (toks & Ht & _).
  exists toks. exact Ht.
Defined.

(** [format_column] renders nothing but quoted identifiers separated by
    dots, whatever text it is given: its tokens are identifiers and dots only,
    and the names they spell are the dotted parts of a plain reference, or the
    whole trimmed text. *)
Theorem format_column_only_identifiers `{Unicode} sqlite db column :
  ∃ toks, scan (format_column db column) sqlite = Some toks
  ∧ Forall (λ t, kind t = Identifier ∨ (kind t = Symbol ∧ text t = lit ".")) toks
  ∧ spelled toks = column_parts column.
Proof.
  exists (reference_tokens db 0 (column_parts column)). split_and!.
  - unfold scan. rewrite format_column_parts. apply scan_reference.
    generalize (column_parts column) as parts. intros parts.
    assert (Hq : ∀ n, 2 ≤ length (quote_ident db n)).
    { intros n. rewrite quote_ident_doubled. lengths. }
    induction parts as [|p [|p' parts] IH]; [simpl; lia| |].
    + pose proof (Hq p). simpl in *. lia.
    + assert (Hj : join (lit ".") (quote_ident db <$> p :: p' :: parts) =
        quote_ident db p ++ lit "." ++ join (lit ".") (quote_ident db <$> p' :: parts)) by done.
      rewrite Hj, !length_app. pose proof (Hq p). change (length (lit ".")) with 1.
      cbn [length] in *. lia.
  - apply reference_tokens_kinds.
  - apply spelled_reference.
Qed.

(** An escaped literal closes where it should: the text
    [escape_sql_literal_for_db] writes between two quotes is read as one
    string, ending at the second, under the doubled rule on every backend and
    under the backslash rule too on MySQL and MariaDB, and it is read back as
    the value that was escaped. *)
Theorem escaped_literal_reads_back `{Unicode} db value rest mode e :
  head rest ≠ Some c_quote →
  (mode = Doubled ∨ (mode = Backslash ∧ (db = MySQL ∨ db = MariaDB))) →
  quoted_end (char_indices 1 (escape_sql_literal_for_db db value ++ c_quote :: rest))
    c_quote mode e len_utf8
  = (1 + slen (escape_sql_literal_for_db db value) + 1, Closed)
  ∧ (db = MySQL ∨ db = MariaDB →
     mysql_literal_value (escape_sql_literal_for_db db value) = value)
  ∧ (db = Postgres ∨ db = SQLite →
     unquoted (mkToken (c_quote :: escape_sql_literal_for_db db value ++ [c_quote]) 0 Literal)
     = Some value).
Proof.
  intros Hr Hm. split_and!.
  - assert (Hdb : (db = MySQL ∨ db = MariaDB) ∨ (db = Postgres ∨ db = SQLite))
      by (destruct db; auto).
    destruct Hdb as [Hdb|Hdb].
    + apply quoted_end_escaped_mysql; auto. destruct Hm as [-> | [-> _]]; done.
    + assert (mode = Doubled) as -> by (destruct Hm as [?|[_ [-> | ->]]]; naive_solver).
      replace (escape_sql_literal_for_db db value) with (doubled c_quote value)
        by (rewrite <- replace_char_doubled; by destruct Hdb as [-> | ->]).
      rewrite quoted_end_doubled by done. by rewrite (len_utf8_ascii c_quote) by lia.
  - apply mysql_literal_value_escaped.
  - intros Hdb. replace (escape_sql_literal_for_db db value) with (doubled c_quote value)
      by (rewrite <- replace_char_doubled; by destruct Hdb as [-> | ->]).
    apply unquoted_doubled. by left.
Qed.

Lemma escaped_literal_reads_back_witness :
  quoted_end (char_indices 1 (escape_sql_literal_for_db MySQL (lit "a\' OR 1=1 -- ") ++ lit "' AND"))
    c_quote Backslash 99 len_utf8 = (18, Closed).
Proof.
  exact (proj1 (escaped_literal_reads_back (H := ascii_only) MySQL (lit "a\' OR 1=1 -- ")
    (lit " AND") Backslash 99 ltac:(vm_compute; discriminate) ltac:(auto))).
Defined.

(** A raw HAVING clause cannot close the parentheses around it: in a
    clause [validate_having_sql_fragment] accepts, the parentheses a server
    reads outside quoted runs close only what the clause opened, and all of it. *)
Theorem having_fragment_is_balanced `{Unicode} kind sql r :
  validate_having_sql_fragment kind sql = Ok tt →
  brackets r = false → dollars r = false → quotes_as_validated r sql →
  ∃ v, visible r sql = Some v ∧ balanced 0 v = true.
Proof.
  unfold validate_having_sql_fragment. intros Hok Hb Hd Hr.
  apply rbind_Ok in Hok as (_ & _ & Hs). eapply scan_sql_tokens_balanced; eauto.
Qed.

Lemma having_fragment_is_balanced_witness :
  ∃ v, visible (H := ascii_only) mysql_reading (lit "COUNT(*) > 1e3 AND LEFT(name, 1) <> '('") = Some v
       ∧ balanced 0 v = true.
Proof.
  apply (having_fragment_is_balanced (H := ascii_only) (lit "HAVING")
    (lit "COUNT(*) > 1e3 AND LEFT(name, 1) <> '('") mysql_reading).
  - vm_compute. reflexivity.
  - reflexivity.
  - reflexivity.
  - apply mysql_quotes_as_validated.
Defined.
