(* ===== verification/Placeholders.v ===== *)
(** * The placeholders of SQL fragments (src/src/query/db_sql/placeholders.rs)

    Templates take [?] for each value and are rendered with the markers of a backend;
    fragments rendered on their own are spliced behind values already bound, their
    numbered markers shifted past those. sea-query's tokenizer and its
    [inject_parameters] are the class [SeaQuery]. *)

From S2P Require Import Prelude Dialect SqlLexer.
Local Open Scope tide_scope.

(** [sea_query::Token]. *)
Inductive SeaToken := Quoted (s : str) | Unquoted (s : str) | SpaceRun (s : str) | Punctuation (s : str).

(** What is used of sea-query: its tokenizer, and the literals it writes in place of the
    placeholders of a statement, [None] its panic on a placeholder without a value. *)
Class SeaQuery (V : Type) := {
  tokenizer : str → list SeaToken;
  inject_parameters : DatabaseType → str → list V → option str;
}.

(** [str::contains] of a character. *)
Definition contains_char (c : char) (s : str) : bool := existsb (N.eqb c) s.

(** The loop of [placeholders_match_values]: the slots seen and the positional markers,
    [None] once a number has no slot. *)
Fixpoint match_values_loop (db : DatabaseType) (toks : list SeaToken) (seen : list bool) (positional : N)
    : option (list bool * N) :=
  match toks with
  | [] => Some (seen, positional)
  | token :: rest =>
      match db, token with
      | Postgres, Punctuation p =>
          if str_eqb p (lit "$") then
            match rest with
            | Unquoted number :: _ =>
                match parse_u64 number with
                | Some index =>
                    if (index =? 0)%N then None
                    else let slot := N.to_nat (index - 1) in
                         if (slot <? length seen)%nat
                         then match_values_loop db rest (<[slot := true]> seen) positional
                         else None
                | None => match_values_loop db rest seen positional
                end
            | _ => match_values_loop db rest seen positional
            end
          else match_values_loop db rest seen positional
      | (MySQL | MariaDB | SQLite), Punctuation p =>
          match_values_loop db rest seen (if str_eqb p (lit "?") then positional + 1 else positional)%N
      | _, _ => match_values_loop db rest seen positional
      end
  end.

Section placeholders.
Context `{Unicode} {V : Type} `{SeaQuery V}.

(** [placeholders]: one marker per bound value, numbered from 1. *)
Definition placeholders (db : DatabaseType) (count : nat) : list str :=
  (λ index, placeholder db (N.of_nat index)) <$> seq 1 count.

Definition placeholders_match_values (db : DatabaseType) (sql : str) (bound : nat) : bool :=
  if contains_char c_backslash sql then false
  else match match_values_loop db (tokenizer sql) (replicate bound false) 0 with
       | None => false
       | Some (seen, positional) =>
           match db with
           | Postgres => forallb id seen
           | MySQL | MariaDB | SQLite => (positional =? N.of_nat bound)%N
           end
       end.

Definition inline_parameters (db : DatabaseType) (sql : str) (params : list V) : option str :=
  if negb (placeholders_match_values db sql (length params)) then Some sql
  else inject_parameters db sql params.

(** What [offset_postgres_placeholders] writes for a token; [None] is the panic of the
    slice after its first byte. *)
Definition rebased_text (offset : N) (token : Token) : option str :=
  if bool_decide (kind token = Param) then
    digits ← slice_from 1 (text token);
    Some match parse_u64 digits with
         | Some number =>
             if (0 <? number)%N && (number + offset <=? u64_max)%N
             then c_dollar :: show_N (number + offset)
             else text token
         | None => text token
         end
  else Some (text token).

Definition offset_postgres_placeholders (sql : str) (offset : N) : option str :=
  if (offset =? 0)%N then Some sql
  else toks ← tokens sql; texts ← mapM (rebased_text offset) toks; Some (concat texts).

Definition rebase_placeholders (db : DatabaseType) (sql : str) (offset : N) : option str :=
  match db with
  | Postgres => offset_postgres_placeholders sql offset
  | MySQL | MariaDB | SQLite => Some sql
  end.

Definition is_template_marker (token : Token) : bool :=
  str_eqb (text token) (lit "?") && bool_decide (kind token = Symbol).

(** The loop of [map_template_placeholders], the closure [next] with the state it keeps. *)
Fixpoint map_markers {S : Type} (next : S → str * S) (toks : list Token) (s : S) : str * S :=
  match toks with
  | [] => ([], s)
  | token :: rest =>
      let '(piece, s') := if is_template_marker token then next s else (text token, s) in
      let '(rendered, s'') := map_markers next rest s' in
      (piece ++ rendered, s'')
  end.

Definition map_template_placeholders {S : Type} (template : str) (next : S → str * S) (s : S)
    : option (str * S) :=
  toks ← tokens template; Some (map_markers next toks s).

Definition render_template (db : DatabaseType) (template : str) (first : N) : option str :=
  fst <$> map_template_placeholders template (λ index, (placeholder db index, index + 1)%N) first.

Definition count_template_placeholders (template : str) : option nat :=
  toks ← tokens template; Some (length (List.filter is_template_marker toks)).

End placeholders.
