(* ===== verification/Relexing.v ===== *)
(** * Lexing rewritten text

    How much of what follows a token decides it: little, so that a text whose parameters
    are given other numbers, or whose markers are given one, is the same tokens
    otherwise. What [offset_postgres_placeholders] and [render_template] of
    [Placeholders] rely on. *)

From S2P Require Import Prelude Dialect SqlLexer Placeholders.
Local Open Scope tide_scope.

(** ** Tokens depend on little of what follows them *)

Ltac slens := repeat first [rewrite slen_app | progress (cbn [slen])]; change (len_utf8 c_dollar) with 1 in *; lia.

Section locality.
Context `{Unicode}.

Lemma find_byte_local p a r r' R R' : p r = p r' →
  find_byte p (a ++ r :: R) = Some (slen a) → find_byte p (a ++ r' :: R') = Some (slen a).
Proof.
  intros Hr. induction a as [|c a IH]; cbn [app find_byte slen].
  - rewrite <- Hr. destruct (p r); [done|]. destruct (find_byte p R); cbn; [|done].
    pose proof (len_utf8_pos r). intros [= E]. lia.
  - pose proof (len_utf8_pos c). destruct (p c); [intros [= E]; lia|].
    destruct (find_byte p (a ++ r :: R)) as [n|]; cbn; [|done]. intros [= E].
    assert (n = slen a) as -> by lia. by rewrite IH.
Qed.

Lemma default_find_local p a r r' R R' : p r = p r' →
  default (slen (a ++ r :: R)) (find_byte p (a ++ r :: R)) = slen a →
  default (slen (a ++ r' :: R')) (find_byte p (a ++ r' :: R')) = slen a.
Proof.
  intros Hr. pose proof (len_utf8_pos r). destruct (find_byte p (a ++ r :: R)) as [n|] eqn:E.
  - change (n = slen a → default (slen (a ++ r' :: R')) (find_byte p (a ++ r' :: R')) = slen a).
    intros ->. by rewrite (find_byte_local _ _ _ _ _ R' Hr E).
  - change (slen (a ++ r :: R) = slen a → default (slen (a ++ r' :: R')) (find_byte p (a ++ r' :: R')) = slen a).
    rewrite slen_app. cbn [slen]. lia.
Qed.

Lemma starts_with_local p x R R' : length p ≤ length x → starts_with p (x ++ R) = starts_with p (x ++ R').
Proof.
  revert x. induction p as [|c p IH]; intros [|d x]; cbn; try done; try lia.
  intros Hl. by rewrite (IH x) by lia.
Qed.

Lemma find_str_local d a R R' :
  find_str d (a ++ d ++ R) = Some (slen a) → find_str d (a ++ d ++ R') = Some (slen a).
Proof.
  assert (∀ Q, find_str d (d ++ Q) = Some 0) as Hhere.
  { intros Q. destruct (starts_with d (d ++ Q)) eqn:E; [|rewrite (proj2 (starts_with_spec _ _)) in E; by eauto].
    destruct (d ++ Q) eqn:E'; cbn [find_str]; by rewrite E. }
  induction a as [|c a IH]; [intros _; apply Hhere|].
  cbn [app find_str slen]. pose proof (len_utf8_pos c).
  assert (starts_with d (c :: a ++ d ++ R) = starts_with d (c :: a ++ d ++ R')) as <-.
  { rewrite !app_comm_cons, !app_assoc. apply starts_with_local. rewrite length_app. lia. }
  destruct (starts_with _ _); [intros [= E]; lia|].
  destruct (find_str d (a ++ d ++ R)) as [n|]; cbn; [|done]. intros [= E].
  assert (n = slen a) as -> by lia. by rewrite IH.
Qed.

Lemma block_comment_local nested a r r' R R' : ∀ depth pos,
  block_comment_loop nested depth pos (a ++ r :: R) = pos + slen a →
  block_comment_loop nested depth pos (a ++ r' :: R') = pos + slen a.
Proof.
  induction a as [a IH] using (induction_ltof1 _ (@length _)); unfold ltof in IH. intros depth pos.
  assert (∀ depth pos x Q, pos < block_comment_loop nested depth pos (x :: Q)) as Hpos.
  { clear. intros depth pos x Q. cbn. pose proof (len_utf8_pos x).
    destruct Q as [|y Q];
      repeat case_match; try lia;
      match goal with |- context[block_comment_loop ?n ?d ?p ?s] =>
        destruct (block_comment_loop_cuts n s d p) as (? & ? & _ & ->) end; lia. }
  destruct a as [|c1 a].
  { cbn [app slen]. intros E. specialize (Hpos depth pos r R). lia. }
  pose proof (len_utf8_pos c1).
  destruct a as [|c2 a].
  - cbn [app slen]. rewrite Nat.add_0_r. intros E.
    assert (block_comment_loop nested depth pos (c1 :: r :: R) ≤ pos + len_utf8 c1) as E' by lia.
    clear E. exfalso. revert E'. cbn [block_comment_loop]. destruct (nested && _ && _) eqn:E1.
    + bools; subst. destruct (block_comment_loop_cuts true R (depth + 1) (pos + 2)) as (? & ? & _ & ->).
      change (len_utf8 c_slash) with 1. lia.
    + destruct (((c1 =? c_star)%N && (r =? c_slash)%N)) eqn:E2.
      * bools; subst. change (len_utf8 c_star) with 1. case_match; [lia|].
        destruct (block_comment_loop_cuts nested R (depth - 1) (pos + 2)) as (? & ? & _ & ->). lia.
      * specialize (Hpos depth (pos + len_utf8 c1) r R). cbn [block_comment_loop] in Hpos. lia.
  - cbn [app block_comment_loop slen]. destruct (nested && _ && _) eqn:E1.
    { bools; subst. change (len_utf8 c_slash) with 1. change (len_utf8 c_star) with 1. intros E.
      rewrite (IH a ltac:(cbn; lia)); lia. }
    destruct ((c1 =? c_star)%N && (c2 =? c_slash)%N) eqn:E2.
    { bools; subst. change (len_utf8 c_slash) with 1. change (len_utf8 c_star) with 1.
      destruct (depth - 1 =? 0)%nat; [done|]. intros E.
      rewrite (IH a ltac:(cbn; lia)); lia. }
    intros E. etrans; [apply (IH (c2 :: a) ltac:(cbn; lia) depth (pos + len_utf8 c1))|cbn [slen]; lia].
    etrans; [exact E|cbn [slen]; lia].
Qed.

(** [quoted_end] over a text at [off]. *)
Definition run_end (close : char) (mode : EscapeMode) (off : nat) (s : str) : nat :=
  fst (quoted_end (char_indices off s) close mode (off + slen s) len_utf8).

Lemma run_end_cons close mode off c s : mode ≠ RejectAmbiguous →
  run_end close mode off (c :: s) =
  if (c =? c_backslash)%N && negb (bool_decide (mode = Doubled)) then
    match s with
    | [] => off + len_utf8 c
    | d :: s' => run_end close mode (off + len_utf8 c + len_utf8 d) s'
    end
  else if (c =? close)%N then
    match s with
    | [] => off + len_utf8 c
    | d :: s' =>
        if (d =? close)%N then run_end close mode (off + len_utf8 c + len_utf8 d) s'
        else off + len_utf8 c
    end
  else run_end close mode (off + len_utf8 c) s.
Proof.
  intros Hm. unfold run_end. cbn [char_indices]. rewrite quoted_end_cons.
  rewrite (bool_decide_eq_false_2 (mode = RejectAmbiguous)) by done.
  destruct s as [|d s']; cbn [char_indices slen]; repeat case_match; cbn [fst]; try done;
    first [lia|f_equal; f_equal; lia].
Qed.

Lemma run_end_ge close mode off s : off ≤ run_end close mode off s.
Proof.
  unfold run_end. destruct (quoted_end _ _ _ _ _) as [n run] eqn:E.
  apply quoted_end_cuts in E as (? & ? & _ & ->). cbn [fst]. lia.
Qed.

Lemma run_end_gt close mode off c s : mode ≠ RejectAmbiguous → off < run_end close mode off (c :: s).
Proof.
  intros Hm. rewrite run_end_cons by done. pose proof (len_utf8_pos c).
  repeat case_match; try lia;
    match goal with |- context[run_end ?c ?m ?o ?s] => pose proof (run_end_ge c m o s) end; lia.
Qed.

Lemma run_end_local close mode r r' R R' : mode ≠ RejectAmbiguous → (r =? close)%N = (r' =? close)%N → ∀ a off,
  run_end close mode off (a ++ r :: R) = off + slen a → run_end close mode off (a ++ r' :: R') = off + slen a.
Proof.
  intros Hm Hr a. induction a as [a IH] using (induction_ltof1 _ (@length _)); unfold ltof in IH. intros off.
  pose proof (len_utf8_pos r). destruct a as [|c a].
  { cbn [app slen]. intros E. pose proof (run_end_gt close mode off r R Hm). lia. }
  pose proof (len_utf8_pos c). cbn [app slen]. rewrite !run_end_cons by done.
  assert (run_end close mode (off + len_utf8 c) (a ++ r :: R) = off + (len_utf8 c + slen a) →
          run_end close mode (off + len_utf8 c) (a ++ r' :: R') = off + (len_utf8 c + slen a)) as Hone.
  { rewrite Nat.add_assoc. apply IH. cbn. lia. }
  destruct a as [|d a]; cbn [app slen] in *.
  - rewrite <- Hr. repeat case_match; try done; intros E.
    all: try (pose proof (run_end_ge close mode (off + len_utf8 c + len_utf8 r) R); lia).
  - pose proof (IH a ltac:(cbn; lia) (off + len_utf8 c + len_utf8 d)) as Htwo. rewrite !Nat.add_assoc in *.
    repeat case_match; done.
Qed.

Lemma quoted_len_local c a r r' R R' backslash :
  (∀ close, r = close ∨ r' = close → r = r' ∨ close ≠ c ∧ close ≠ c_rbracket) →
  quoted_len (c :: a ++ r :: R) c backslash = slen (c :: a) →
  quoted_len (c :: a ++ r' :: R') c backslash = slen (c :: a).
Proof.
  intros Hr.
  unfold quoted_len. cbn [char_indices drop slen Nat.add].
  assert ((if backslash then Backslash else Doubled) ≠ RejectAmbiguous) as Hm by by destruct backslash.
  rewrite !drop_0. intros E. apply (run_end_local _ _ r r' R R' Hm) with (off := len_utf8 c); [|exact E].
  destruct (decide (r = r')) as [->|Hne]; [done|].
  destruct (Hr r (or_introl eq_refl)) as [?|[? ?]]; [done|]. destruct (Hr r' (or_intror eq_refl)) as [?|[? ?]]; [done|].
  transitivity false; [|symmetry]; apply N.eqb_neq; by case_match.
Qed.

Lemma block_comment_len_local nested a r r' R R' :
  block_comment_len (c_slash :: c_star :: a ++ r :: R) nested = Some (slen (c_slash :: c_star :: a)) →
  block_comment_len (c_slash :: c_star :: a ++ r' :: R') nested = Some (slen (c_slash :: c_star :: a)).
Proof.
  unfold block_comment_len.
  assert (∀ r Q, (slen (c_slash :: c_star :: a ++ r :: Q) <=? 2) = false) as Hl.
  { clear. intros r Q. apply Nat.leb_gt. pose proof (len_utf8_pos r). cbn [slen]. rewrite slen_app. cbn [slen].
    change (len_utf8 c_slash) with 1. change (len_utf8 c_star) with 1. lia. }
  rewrite !Hl. unfold slice_from.
  pose proof (λ Q, split_at_app [c_slash; c_star] Q) as Hs. cbn [app] in Hs.
  change (slen [c_slash; c_star]) with 2 in Hs. rewrite !Hs. cbn [fmap option_fmap option_map snd].
  intros [= E]. f_equal. by apply (block_comment_local nested a r r' R).
Qed.

(** A tag of a dollar quote. *)
Definition tag_ok (tag : str) : bool :=
  negb (match head tag with Some c => is_ascii_digit c | None => false end)
  && forallb (λ c, (c =? c_underscore)%N || is_alphanumeric c) tag.

Lemma first_dollar s :
  Forall (λ c, c ≠ c_dollar) s ∨ ∃ tag y, s = tag ++ c_dollar :: y ∧ Forall (λ c, c ≠ c_dollar) tag.
Proof.
  induction s as [|c s [Hs|(tag & y & -> & Ht)]]; [by left| |].
  - destruct (decide (c = c_dollar)) as [->|]; [right; by exists [], s|left; by constructor].
  - right. destruct (decide (c = c_dollar)) as [->|].
    + by exists [], (tag ++ c_dollar :: y).
    + exists (c :: tag), y. split; [done|by constructor].
Qed.

Lemma find_byte_app p a c b :
  Forall (λ x, p x = false) a → p c = true → find_byte p (a ++ c :: b) = Some (slen a).
Proof. intros Ha Hc. induction Ha as [|x a Hx _ IH]; cbn; [by rewrite Hc|]. by rewrite Hx, IH. Qed.

Lemma dollar_len_none s : Forall (λ c, c ≠ c_dollar) s → dollar_len (c_dollar :: s) = Some None.
Proof.
  intros Hs. unfold dollar_len, dollar_tag_len. rewrite slice_from_ascii by done. cbn [mbind option_bind].
  destruct (find_byte _ s) as [n|] eqn:E; [|done].
  apply find_byte_Some in E as (a & d & b & -> & _ & Hd & _). apply N.eqb_eq in Hd as <-.
  apply Forall_app in Hs as [_ Hs]. by apply list.Forall_cons in Hs as [? _].
Qed.

Lemma dollar_len_tag tag y :
  Forall (λ c, c ≠ c_dollar) tag →
  dollar_len (c_dollar :: tag ++ c_dollar :: y)
  = Some (if tag_ok tag then
            (λ n, slen (c_dollar :: tag ++ [c_dollar]) + n + slen (c_dollar :: tag ++ [c_dollar]))
              <$> find_str (c_dollar :: tag ++ [c_dollar]) y
          else None).
Proof.
  intros Ht. unfold dollar_len, dollar_tag_len. rewrite slice_from_ascii by done. cbn [mbind option_bind].
  rewrite find_byte_app; [|eapply List.Forall_impl, Ht; intros c Hc; by apply N.eqb_neq, not_eq_sym|done].
  rewrite split_at_app. cbn [mbind option_bind]. unfold tag_ok. destruct (_ && _); [|done].
  replace (slen tag + 2) with (slen (c_dollar :: tag ++ [c_dollar]))
    by (change (slen (c_dollar :: tag ++ [c_dollar])) with (1 + slen (tag ++ [c_dollar]));
        rewrite slen_app; change (slen [c_dollar]) with 1; lia).
  replace (c_dollar :: tag ++ c_dollar :: y) with ((c_dollar :: tag ++ [c_dollar]) ++ y)
    by by rewrite <- app_comm_cons, <- app_assoc.
  by rewrite split_at_app.
Qed.

Lemma find_str_here d a b : find_str d (a ++ d ++ b) ≠ None.
Proof.
  induction a as [|c a IH]; cbn [app].
  - destruct (starts_with d (d ++ b)) eqn:E; [|rewrite (proj2 (starts_with_spec _ _)) in E; by eauto].
    destruct (d ++ b) eqn:E'; cbn [find_str]; by rewrite E.
  - cbn [find_str]. destruct (starts_with _ _); [done|]. by destruct (find_str d (a ++ d ++ b)).
Qed.

(** The quote of a dollar closes when its tag comes again. *)
Lemma dollar_len_Some s n : dollar_len (c_dollar :: s) = Some (Some n) →
  ∃ tag a b, s = tag ++ c_dollar :: a ++ (c_dollar :: tag ++ [c_dollar]) ++ b
    ∧ tag_ok tag = true ∧ Forall (λ c, c ≠ c_dollar) tag
    ∧ n = slen (c_dollar :: tag ++ c_dollar :: a ++ (c_dollar :: tag ++ [c_dollar]))
    ∧ find_str (c_dollar :: tag ++ [c_dollar]) (a ++ (c_dollar :: tag ++ [c_dollar]) ++ b) = Some (slen a).
Proof.
  destruct (first_dollar s) as [Hs|(tag & y & -> & Ht)]; [by rewrite dollar_len_none|].
  rewrite dollar_len_tag by done. destruct (tag_ok tag) eqn:Eok; [|done].
  destruct (find_str _ y) as [m|] eqn:E; [|done]. intros [= <-].
  pose proof E as E'. apply find_str_Some in E' as (a & b & -> & ->). exists tag, a, b. split_and!; try done.
  slens.
Qed.

Lemma dollar_len_not_None tag a b : tag_ok tag = true → Forall (λ c, c ≠ c_dollar) tag →
  dollar_len (c_dollar :: tag ++ c_dollar :: a ++ (c_dollar :: tag ++ [c_dollar]) ++ b) ≠ Some None.
Proof.
  intros Hok Ht. rewrite dollar_len_tag, Hok by done.
  pose proof (find_str_here (c_dollar :: tag ++ [c_dollar]) a b) as Hf.
  by destruct (find_str _ _).
Qed.

Lemma app_inj_slen (a b x y : str) : a ++ x = b ++ y → slen a = slen b → a = b ∧ x = y.
Proof.
  intros E Hl. pose proof (split_at_app a x) as H1. rewrite E, Hl, split_at_app in H1. by simplify_eq.
Qed.

Lemma dollar_len_local a R R' :
  dollar_len (c_dollar :: a ++ R) = Some (Some (slen (c_dollar :: a))) →
  dollar_len (c_dollar :: a ++ R') = Some (Some (slen (c_dollar :: a))).
Proof.
  intros E. apply dollar_len_Some in E as (tag & x & b & Heq & Hok & Ht & Hn & Hf).
  assert (Hn' : slen a = slen (tag ++ c_dollar :: x ++ c_dollar :: tag ++ [c_dollar])) by (cbn [slen] in *; lia).
  replace (tag ++ c_dollar :: x ++ (c_dollar :: tag ++ [c_dollar]) ++ b)
    with ((tag ++ c_dollar :: x ++ c_dollar :: tag ++ [c_dollar]) ++ b) in Heq
    by by repeat (rewrite <- app_assoc; cbn [app]).
  apply app_inj_slen in Heq as [-> <-]; [|done].
  replace ((tag ++ c_dollar :: x ++ c_dollar :: tag ++ [c_dollar]) ++ R')
    with (tag ++ c_dollar :: x ++ (c_dollar :: tag ++ [c_dollar]) ++ R')
    by by repeat (rewrite <- app_assoc; cbn [app]).
  rewrite dollar_len_tag, Hok by done. rewrite (find_str_local _ _ _ R' Hf).
  cbn [fmap option_fmap option_map]. do 2 f_equal.
  slens.
Qed.

Lemma dollar_len_digit d s : is_ascii_digit d = true → dollar_len (c_dollar :: d :: s) = Some None.
Proof.
  intros Hd. destruct (first_dollar (d :: s)) as [Hs|(tag & y & E & Ht)]; [by apply dollar_len_none|].
  rewrite E. rewrite dollar_len_tag by done. destruct tag as [|e tag]; cbn [app] in E; injection E as -> ->.
  - discriminate Hd.
  - unfold tag_ok. cbn [head]. by rewrite Hd.
Qed.

(** What may follow a token of kind [k] for the token to be the same: the character that
    did, or a numbered marker where a positional one was. *)
Definition follows_alike (k : Kind) (r r' : char) : Prop := r = r' ∨ r = 63%N ∧ r' = c_dollar ∧ k ≠ Word.

(** A token other than a bare dollar or a parameter ends where it ends whatever comes
    after the character that follows it. *)
Lemma lex_one_local before before' first a r r' R R' k :
  lex_one false before first (a ++ r :: R) = Some (k, slen (first :: a)) →
  escape_string_prefix before = escape_string_prefix before' →
  first ≠ c_dollar ∨ k = Literal → follows_alike k r r' →
  lex_one false before' first (a ++ r' :: R') = Some (k, slen (first :: a)).
Proof.
  unfold lex_one. cbn [negb andb]. intros E Hesc Hd Hr. revert E.
  assert (∀ x y, y = c_dash ∨ y = c_star →
    starts_with [x; y] (first :: a ++ r :: R) = starts_with [x; y] (first :: a ++ r' :: R')) as Hst.
  { intros x y Hy. destruct a; [|done]. destruct Hr as [->|(-> & -> & _)]; [done|]. by destruct Hy as [-> | ->]. }
  change (lit "--") with [c_dash; c_dash]. change (lit "/*") with [c_slash; c_star].
  rewrite !Hst, <- Hesc by auto.
  assert (∀ p : char → bool, p r = p r' →
    default (slen (first :: a ++ r :: R)) (find_byte p (first :: a ++ r :: R)) = slen (first :: a) →
    default (slen (first :: a ++ r' :: R')) (find_byte p (first :: a ++ r' :: R')) = slen (first :: a)) as Hdf.
  { intros p Hpr. exact (default_find_local p (first :: a) r r' R R' Hpr). }
  destruct (is_whitespace first || false) eqn:Ews.
  { intros [= <- E]. do 2 f_equal. apply Hdf, E. by destruct Hr as [->|(-> & -> & _)]. }
  destruct (starts_with [c_dash; c_dash] _).
  { intros [= <- E]. do 2 f_equal. apply Hdf, E. by destruct Hr as [->|(-> & -> & _)]. }
  destruct (starts_with [c_slash; c_star] _) eqn:Eb.
  { destruct a as [|c a]; cbn [app] in *; apply starts_with_spec in Eb as [rest Eb];
      change ([c_slash; c_star] ++ rest) with (c_slash :: c_star :: rest) in Eb; injection Eb as -> Eb Eb'.
    - subst. destruct Hr as [->|(_ & ? & _)]; [|done].
      destruct (block_comment_len_cuts true R) as (n & -> & x & b & _ & ->). cbn [mbind option_bind].
      by intros [= _ E].
    - subst. destruct (block_comment_len _ true) as [n|] eqn:En; [|done]. cbn [mbind option_bind]. intros [= <- ->].
      by rewrite (block_comment_len_local _ _ _ r' _ R' En). }
  destruct (_ || (first =? c_lbracket)%N) eqn:Eq.
  { intros [= <- E]. do 2 f_equal. apply (quoted_len_local _ _ r _ R); [|done].
    intros close Hc. destruct Hr as [->|(-> & -> & _)]; [by left|]. right.
    rewrite !orb_true_iff, !N.eqb_eq in Eq. by destruct Hc as [<- | <-], Eq as [[[-> | ->] | ->] | ->]. }
  destruct (first =? c_dollar)%N eqn:Ed.
  { apply N.eqb_eq in Ed as ->. destruct Hd as [? | ->]; [done|].
    destruct (dollar_len (c_dollar :: a ++ r :: R)) as [[n|]|] eqn:En; cbn [mbind option_bind];
      [|rewrite slice_from_ascii by done; cbn; by case_match|done].
    intros [= ->]. by rewrite (dollar_len_local _ _ (r' :: R') En). }
  destruct (_ || is_alphabetic first); [|done].
  intros [= <- E]. do 2 f_equal. apply Hdf, E. by destruct Hr as [->|(_ & _ & ?)].
Qed.

Lemma lex_one_digits before ds s : ds ≠ [] →
  Forall (λ c, is_ascii_digit c = true) ds → (∀ c, head s = Some c → is_ascii_digit c = false) →
  lex_one false before c_dollar (ds ++ s) = Some (Param, slen (c_dollar :: ds)).
Proof.
  intros Hne Hd Hs. destruct ds as [|d ds]; [done|]. unfold lex_one.
  change (is_whitespace c_dollar || _) with false. cbv iota.
  change (starts_with (lit "--") _) with false. change (starts_with (lit "/*") _) with false. cbv iota.
  change ((c_dollar =? c_quote)%N || _ || _ || _) with false. cbn [andb negb]. cbv iota.
  change (c_dollar =? c_dollar)%N with true. cbv iota.
  rewrite <- app_comm_cons. rewrite dollar_len_digit by by apply list.Forall_cons in Hd as [? _].
  cbn [mbind option_bind]. rewrite slice_from_ascii by done. cbn [mbind option_bind].
  rewrite app_comm_cons. destruct (take_while_stop is_ascii_digit (d :: ds) s Hd) as [Htw _]; [by destruct s; [|apply Hs]|].
  rewrite Htw. pose proof (take_digits_slen ((d :: ds) ++ s)) as Hl. rewrite Htw in Hl. rewrite Hl.
  cbn [slen]. change (len_utf8 c_dollar) with 1.
  pose proof (len_utf8_pos d). destruct (_ <? _)%nat eqn:El; [done|]. apply Nat.ltb_ge in El. lia.
Qed.

End locality.

(** ** Rewriting the placeholders of a text *)

Section rewriting.
Context `{Unicode}.

Definition digits (ds : str) : Prop := ds ≠ [] ∧ Forall (λ c, is_ascii_digit c = true) ds.

(** Whether the character before a position can continue an identifier. *)
Definition joins (p : option char) : bool := match p with Some c => identifier_char c | None => false end.

(** The last character read, [p] the one before. *)
Definition prev (p : option char) (s : str) : option char := match list.last s with Some c => Some c | None => p end.

(** [us] are the texts of [toks] after some parameters got other numbers and some markers
    [?], apart from identifiers on both sides, got one; [p] is the character before. *)
Inductive rewritten : option char → list Token → list str → Prop :=
  | rewritten_nil p : rewritten p [] []
  | rewritten_keep p t ts us :
      rewritten (prev p (text t)) ts us → rewritten p (t :: ts) (text t :: us)
  | rewritten_param p t ts us ds' :
      kind t = Param → digits ds' → rewritten (prev p (text t)) ts us →
      rewritten p (t :: ts) ((c_dollar :: ds') :: us)
  | rewritten_marker p t ts us ds' :
      kind t = Symbol → text t = [63%N] → joins p = false → joins (head (concat (text <$> ts))) = false →
      digits ds' → rewritten (Some 63%N) ts us → rewritten p (t :: ts) ((c_dollar :: ds') :: us).

(** The same on the characters. *)
Inductive edits : option char → str → str → Prop :=
  | edits_nil p : edits p [] []
  | edits_char p c s s' : edits (Some c) s s' → edits p (c :: s) (c :: s')
  | edits_param p ds ds' s s' :
      digits ds → digits ds' → edits (list.last ds) s s' → edits p (c_dollar :: ds ++ s) (c_dollar :: ds' ++ s')
  | edits_marker p ds' s s' :
      joins p = false → digits ds' → edits (Some 63%N) s s' → edits p (63%N :: s) (c_dollar :: ds' ++ s').

Lemma digits_no_dollar ds : digits ds → Forall (λ c, c ≠ c_dollar) ds.
Proof. intros [_ Hd]. eapply List.Forall_impl, Hd. by intros c Hc ->. Qed.

Lemma edits_app s : ∀ p u v, edits (prev p s) u v → edits p (s ++ u) (s ++ v).
Proof.
  induction s as [|c s IH]; intros p u v He; cbn [app]; [done|]. apply edits_char, IH.
  unfold prev in *. destruct s; [done|]. rewrite last_cons_cons in He. destruct (list.last (n :: s)) eqn:E; [done|].
  by apply last_None in E.
Qed.

Lemma edits_same p s : edits p s s.
Proof. revert p. induction s as [|c s IH]; intros p; constructor; auto. Qed.

(** A run without dollars is a run of the original. *)
Lemma edits_run u : ∀ p s v, edits p s (u ++ v) → Forall (λ c, c ≠ c_dollar) u →
  ∃ s1, s = u ++ s1 ∧ edits (prev p u) s1 v.
Proof.
  induction u as [|c u IH]; intros p s v He Hu; cbn [app] in *; [by exists s|].
  apply list.Forall_cons in Hu as [Hc Hu]. inversion He as [|? ? s0 ? He'| |]; subst; try done.
  destruct (IH _ _ _ He' Hu) as (s1 & -> & Hs1). exists s1. split; [done|].
  unfold prev in *. destruct u; [done|]. rewrite last_cons_cons. destruct (list.last (n :: u)) eqn:E; [done|].
  by apply last_None in E.
Qed.

(** Each dollar stands where the original has a dollar or a marker. *)
Lemma edits_dollar p s w : edits p s w → ∀ a v, w = a ++ c_dollar :: v →
  ∃ a1 s1 q, s = a1 ++ s1 ∧ edits q s1 (c_dollar :: v) ∧ (a ≠ [] → a1 ≠ []) ∧ (a = [] → q = p ∧ a1 = []).
Proof.
  assert (∀ ds s' a v, digits ds → c_dollar :: ds ++ s' = a ++ c_dollar :: v →
    a = [] ∨ ∃ a', a = c_dollar :: ds ++ a' ∧ s' = a' ++ c_dollar :: v) as Hsplit.
  { intros ds s' [|x a] v Hd Heq; [by left|right]. cbn [app] in Heq. injection Heq as <- Heq.
    apply digits_no_dollar in Hd. clear -Hd Heq. revert a Heq. induction Hd as [|d ds Hd _ IH]; intros a Heq.
    - by exists a.
    - destruct a as [|x a]; cbn [app] in Heq; injection Heq as -> Heq; [done|].
      destruct (IH a Heq) as (a' & [= ->] & ->). by exists a'. }
  assert (∀ p s v, edits p s (c_dollar :: v) →
    ∃ a1 s1 q, s = a1 ++ s1 ∧ edits q s1 (c_dollar :: v) ∧ (@nil char ≠ [] → a1 ≠ []) ∧ (@nil char = [] → q = p ∧ a1 = [])) as Hhere.
  { intros ? s0 ? He. by exists [], s0, p0. }
  induction 1 as [p|p c s s' He IH|p ds ds' s s' Hd Hd' He IH|p ds' s s' Hp Hd' He IH]; intros a v Heq.
  - by destruct a.
  - destruct a as [|x a]; cbn [app] in Heq; injection Heq as -> ->.
    + apply Hhere. by constructor.
    + destruct (IH a v eq_refl) as (a1 & s1 & q & -> & Hs1 & _ & _). by exists (x :: a1), s1, q.
  - destruct (Hsplit _ _ _ _ Hd' Heq) as [->|(a' & -> & ->)].
    + apply Hhere. cbn [app] in Heq. rewrite <- Heq. by constructor.
    + destruct (IH a' v eq_refl) as (a1 & s1 & q & -> & Hs1 & _ & _). exists (c_dollar :: ds ++ a1), s1, q.
      by rewrite <- app_comm_cons, <- app_assoc.
  - destruct (Hsplit _ _ _ _ Hd' Heq) as [->|(a' & -> & ->)].
    + apply Hhere. cbn [app] in Heq. rewrite <- Heq. by constructor.
    + destruct (IH a' v eq_refl) as (a1 & s1 & q & -> & Hs1 & _ & _). by exists (63%N :: a1), s1, q.
Qed.

(** Behind an identifier character a dollar is the original's. *)
Lemma edits_kept_dollar p s v : edits p s (c_dollar :: v) → joins p = true → ∃ s1, s = c_dollar :: s1.
Proof. intros He Hp. inversion He; subst; [by eexists..|congruence]. Qed.


Lemma joins_dollar_tag tag : tag_ok tag = true → joins (prev (Some c_dollar) tag) = true.
Proof.
  unfold tag_ok, prev. intros Hok. apply andb_prop in Hok as [_ Hok]. rewrite forallb_forall in Hok.
  destruct (list.last tag) as [c|] eqn:E; [|done]. apply last_Some in E as [tag' ->].
  specialize (Hok c ltac:(apply in_or_app; right; by left)). cbn. unfold identifier_char.
  apply orb_true_iff in Hok as [-> | ->]; [done|]. by rewrite orb_true_r.
Qed.

Lemma digits_not_tag ds s tag v : digits ds → tag_ok tag = true → ds ++ s ≠ tag ++ c_dollar :: v.
Proof.
  intros [Hne Hd] Hok Heq. destruct Hd as [|d ds Hd _]; [done|]. unfold tag_ok in Hok.
  destruct tag as [|c tag]; cbn [app] in Heq; injection Heq as -> _; [discriminate Hd|].
  cbn [head] in Hok. by rewrite Hd in Hok.
Qed.

(** No dollar quote opens where none did. *)
Lemma dollar_len_rewritten R R' :
  edits (Some c_dollar) R R' → dollar_len (c_dollar :: R) = Some None → dollar_len (c_dollar :: R') = Some None.
Proof.
  intros He HR. destruct (dollar_len_total R') as ([n|] & E & _); [|done]. exfalso.
  apply dollar_len_Some in E as (tag & a & b & -> & Hok & Ht & _ & _).
  pose proof (joins_dollar_tag _ Hok) as Hj.
  destruct (edits_run _ _ _ _ He Ht) as (s1 & -> & He1).
  destruct (edits_kept_dollar _ _ _ He1 Hj) as [s2 ->].
  destruct (edits_dollar _ _ _ He1 (c_dollar :: a) (tag ++ c_dollar :: b)) as (a1 & s3 & q & Heq & He3 & Hne & _).
  { cbn [app]. by rewrite <- app_assoc. }
  destruct a1 as [|x a2]; [by destruct Hne|]. cbn [app] in Heq. injection Heq as <- ->.
  clear He He1. inversion He3 as [| | |]; subst.
  2,3: match goal with Hd : digits ?ds, Hx : ?ds ++ _ = _ |- _ => by eapply (digits_not_tag ds) in Hx end.
  match goal with He4 : edits _ ?s _ |- _ => destruct (edits_run _ _ _ _ He4 Ht) as (s5 & -> & He5) end.
  destruct (edits_kept_dollar _ _ _ He5 Hj) as [s6 ->]. apply (dollar_len_not_None tag a2 s6 Hok Ht).
  rewrite <- HR. cbn [app]. by rewrite <- app_assoc.
Qed.

Lemma lex_one_dollar before s : dollar_len (c_dollar :: s) = Some None →
  lex_one false before c_dollar s =
  Some (if 1 <? 1 + length (take_while is_ascii_digit s) then Param else Symbol,
        1 + length (take_while is_ascii_digit s)).
Proof.
  intros E. unfold lex_one.
  change (is_whitespace c_dollar || _) with false. cbv iota.
  change (starts_with (lit "--") _) with false. change (starts_with (lit "/*") _) with false. cbv iota.
  change ((c_dollar =? c_quote)%N || _ || _ || _) with false. cbn [andb negb]. cbv iota.
  change (c_dollar =? c_dollar)%N with true. cbv iota. rewrite E. cbn [mbind option_bind].
  by rewrite slice_from_ascii.
Qed.

Lemma esc_cons c b :
  escape_string_prefix (c :: b) = ((c =? 101)%N || (c =? 69)%N) && negb (joins (head b)).
Proof. by destruct b. Qed.

Lemma lex_one_before before before' first tail :
  escape_string_prefix before = escape_string_prefix before' →
  lex_one false before first tail = lex_one false before' first tail.
Proof. intros E. unfold lex_one. by rewrite E. Qed.

Lemma rewritten_edits p ts us :
  rewritten p ts us → shaped false ts → edits p (concat (text <$> ts)) (concat us).
Proof.
  induction 1 as [|p t ts us _ IH|p t ts us ds' Hk Hd' _ IH|p t ts us ds' Hk Ht Hp Hn Hd' _ IH];
    intros Hs; [constructor|destruct Hs as [Hsh Hs]..]; specialize (IH Hs); csimpl.
  - by apply edits_app.
  - unfold kind_shape in Hsh. rewrite Hk in Hsh. destruct Hsh as (ds & Hds & Hne & Hall). rewrite Hds in *.
    cbn [app]. apply edits_param; [done|done|]. unfold prev in IH. destruct ds as [|d ds]; [done|].
    rewrite last_cons_cons in IH. destruct (list.last (d :: ds)) eqn:El; [done|]. by apply last_None in El.
  - rewrite Ht. by apply edits_marker.
Qed.

(** The heads of a text and of its rewriting. *)
Lemma edits_heads p s s' : edits p s s' →
  s = [] ∧ s' = [] ∨ ∃ r R r' R', s = r :: R ∧ s' = r' :: R'
    ∧ (r = r' ∨ r = 63%N ∧ r' = c_dollar ∧ joins p = false).
Proof. inversion 1; subst; [by left|right..]; do 4 eexists; split_and!; auto. Qed.

Lemma edits_no_digit p s s' : edits p s s' →
  (∀ c, head s = Some c → is_ascii_digit c = false) → ∀ c, head s' = Some c → is_ascii_digit c = false.
Proof.
  intros He Hs c Hc. destruct (edits_heads _ _ _ He) as [[-> ->]|(r & R & r' & R' & -> & -> & Hr)]; [done|].
  cbn in Hc. injection Hc as <-. destruct Hr as [->|(_ & -> & _)]; [by apply Hs|done].
Qed.


(** The kind and text a token gets. *)
Definition piece (t : Token) : Kind * str := (kind t, text t).

Definition rewritten_piece (t : Token) (u : str) : Kind * str :=
  (if is_template_marker t && negb (str_eqb u (text t)) then Param else kind t, u).

Lemma last_rev_head (x : char) s before : head (rev (x :: s) ++ before) = list.last (x :: s).
Proof.
  destruct (list.last (x :: s)) as [c|] eqn:E; [|by apply last_None in E].
  apply last_Some in E as [l ->]. by rewrite rev_app_distr.
Qed.

Lemma digit_identifier c : is_ascii_digit c = true → identifier_char c = true.
Proof.
  intros Hc. unfold identifier_char, is_alphanumeric. unfold is_numeric, is_alphabetic.
  rewrite Hc. by rewrite !orb_true_r.
Qed.

Lemma digits_last ds before : digits ds →
  joins (head (rev (c_dollar :: ds) ++ before)) = true ∧ escape_string_prefix (rev (c_dollar :: ds) ++ before) = false.
Proof.
  intros [Hne Hd]. destruct (exists_last Hne) as (ds0 & d & ->). apply Forall_app in Hd as [_ Hd].
  apply list.Forall_cons in Hd as [Hd _]. rewrite app_comm_cons, rev_app_distr. cbn [rev app].
  split; [by apply digit_identifier|]. rewrite esc_cons. apply andb_false_iff. left.
  unfold is_ascii_digit in Hd. apply orb_false_iff. rewrite !N.eqb_neq. split; intros ->; done.
Qed.

(** A parameter takes all the digits there are. *)
Lemma lex_param_maximal before ds s : digits ds →
  lex_one false before c_dollar (ds ++ s) = Some (Param, slen (c_dollar :: ds)) →
  ∀ c, head s = Some c → is_ascii_digit c = false.
Proof.
  intros [Hne Hd] E c Hc. destruct s as [|? s]; [done|]. injection Hc as ->.
  destruct (is_ascii_digit c) eqn:Ec; [|done]. exfalso. destruct ds as [|d ds]; [done|].
  rewrite lex_one_dollar in E by (apply dollar_len_digit; by apply list.Forall_cons in Hd as [? _]).
  assert (take_while is_ascii_digit ((d :: ds) ++ c :: s) = (d :: ds) ++ c :: take_while is_ascii_digit s) as Htw.
  { clear - Hd Ec. induction Hd as [|x xs Hx _ IH]; cbn [app take_while]; [by rewrite Ec|]. by rewrite Hx, IH. }
  assert (1 + length (take_while is_ascii_digit ((d :: ds) ++ c :: s)) = slen (c_dollar :: d :: ds)) as El by congruence.
  rewrite take_digits_slen, Htw, slen_app in El. change (slen (c_dollar :: d :: ds)) with (1 + slen (d :: ds)) in El.
  cbn [slen] in El. pose proof (len_utf8_pos c). lia.
Qed.


(** A token kept is found again. *)
Lemma lex_kept before before' first a rest R k off :
  lex_one false before first (a ++ rest) = Some (k, slen (first :: a)) →
  kind_shape false (mkToken (first :: a) off k) (head rest) →
  edits (list.last (first :: a)) rest R → escape_string_prefix before = escape_string_prefix before' →
  lex_one false before' first (a ++ R) = Some (k, slen (first :: a)).
Proof.
  intros E Hsh He Hesc. destruct (edits_heads _ _ _ He) as [[-> ->]|(r & R0 & r' & R' & -> & -> & Hr)].
  { by rewrite <- (lex_one_before _ _ _ _ Hesc). }
  assert (follows_alike k r r') as Hf.
  { destruct Hr as [->|(-> & -> & Hj)]; [by left|right]. split_and!; [done..|]. intros ->.
    destruct Hsh as [Hall _]. cbn [text] in Hall. destruct (list.last (first :: a)) as [c|] eqn:El; [|by apply last_None in El].
    apply last_Some in El as [l El]. rewrite El in Hall. apply Forall_app in Hall as [_ Hc].
    apply list.Forall_cons in Hc as [Hc _]. cbn in Hj. congruence. }
  destruct (decide (first = c_dollar)) as [->|Hfd]; [|eapply lex_one_local; eauto].
  destruct (decide (k = Literal)) as [->|Hk]; [eapply lex_one_local; eauto|].
  destruct (dollar_len_total (a ++ r :: R0)) as ([n|] & En & _).
  { exfalso. unfold lex_one in E. change (is_whitespace c_dollar || _) with false in E.
    change (starts_with (lit "--") _) with false in E. change (starts_with (lit "/*") _) with false in E.
    cbv iota in E. change ((c_dollar =? c_quote)%N || _ || _ || _) with false in E. cbn [andb negb] in E. cbv iota in E.
    change (c_dollar =? c_dollar)%N with true in E. cbv iota in E. rewrite En in E. cbn in E. congruence. }
  pose proof E as E0. rewrite (lex_one_dollar _ _ En) in E0.
  assert (k = Param ∨ k = Symbol) as [-> | ->] by (destruct (_ <? _)%nat in E0; injection E0 as <- _; auto).
  - destruct Hsh as (ds & Ht & Hd). cbn [text] in Ht. injection Ht as <-.
    apply lex_one_digits; [apply Hd..|]. eapply edits_no_digit; [done|]. by eapply lex_param_maximal.
  - destruct Hsh as (c & Ht & _). cbn [text] in Ht. injection Ht as _ ->. cbn [app list.last] in *.
    rewrite (lex_one_dollar _ _ (dollar_len_rewritten _ _ He En)).
    assert (is_ascii_digit r = false) as Hd.
    { cbn [take_while] in E0. by destruct (is_ascii_digit r). }
    assert (is_ascii_digit r' = false) as Hd'.
    { eapply edits_no_digit; [done| |done]. by intros c' [= <-]. }
    cbn [take_while]. by rewrite Hd'.
Qed.

Lemma prev_cons p x s : prev p (x :: s) = list.last (x :: s).
Proof. unfold prev. destruct (list.last (x :: s)) eqn:E; [done|]. by apply last_None in E. Qed.

Lemma esc_kept first a before before' :
  joins (head before) = joins (head before') ∨ identifier_char first = false →
  escape_string_prefix (rev (first :: a) ++ before) = escape_string_prefix (rev (first :: a) ++ before').
Proof.
  intros Hj. cbn [rev]. rewrite <- !app_assoc. destruct (rev a) as [|c l]; cbn [app]; rewrite !esc_cons; [|by destruct l].
  destruct Hj as [->|Hf]; [done|]. replace ((first =? 101)%N || (first =? 69)%N) with false; [done|].
  symmetry. apply orb_false_iff. rewrite !N.eqb_neq. split; intros ->; done.
Qed.

Lemma rewritten_piece_same t : rewritten_piece t (text t) = piece t.
Proof. unfold rewritten_piece. by rewrite (proj2 (str_eqb_true _ _)), andb_false_r. Qed.

Lemma joins_digits ds : digits ds → joins (list.last (c_dollar :: ds)) = true.
Proof. intros Hd. destruct (digits_last ds [] Hd) as [Hj _]. by rewrite last_rev_head in Hj. Qed.

Lemma scan_rewritten fuel : ∀ fuel' before before' off off' rest toks us,
  length rest ≤ fuel → scan_fuel fuel false before off rest = Some toks →
  rewritten (head before) toks us → escape_string_prefix before = escape_string_prefix before' →
  joins (head before) = joins (head before') ∨ joins (head rest) = false →
  length (concat us) ≤ fuel' →
  ∃ toks', scan_fuel fuel' false before' off' (concat us) = Some toks'
    ∧ piece <$> toks' = zip_with rewritten_piece toks us.
Proof.
  induction fuel as [|fuel IH]; intros fuel' before before' off off' rest toks us Hl Hscan Hrw Hesc Hj Hf;
    destruct rest as [|first tail].
  1,3: injection Hscan as <-; inversion Hrw; subst; exists []; split; [by destruct fuel'|done].
  { cbn in Hl. lia. }
  pose proof (scan_fuel_total false (S fuel) before off (first :: tail) Hl) as (toks0 & E0 & Htiles & Hshaped).
  rewrite Hscan in E0. injection E0 as <-. cbn [scan_fuel] in Hscan.
  destruct (lex_one false before first tail) as [[k len]|] eqn:Elex; [|done]. cbn [mbind option_bind] in Hscan.
  destruct (split_at len (first :: tail)) as [[txt rest']|] eqn:Esp; [|done]. cbn [mbind option_bind] in Hscan.
  destruct (scan_fuel fuel _ _ _ rest') as [ts|] eqn:Ets; [|done]. injection Hscan as <-.
  cbn [tiles text start] in Htiles. destruct Htiles as (s' & Hs' & Hne & _ & Htiles).
  destruct Hshaped as [Hshape Hshaped]. cbn [text] in *.
  apply split_at_Some in Esp as [Heq ->].
  rewrite Heq in Hs'. apply app_inv_head in Hs' as <-. rewrite (tiles_concat _ _ _ Htiles) in Hshape.
  destruct txt as [|x a]; [done|]. injection Heq as <- ->.
  assert (length (a ++ rest') ≤ fuel) as Hl' by (cbn in Hl; lia). rewrite length_app in Hl'.
  assert (Hgo : ∀ k' d u us', lex_one false before' d (u ++ concat us') = Some (k', slen (d :: u)) →
    rewritten (list.last (first :: a)) ts us' →
    escape_string_prefix (rev (first :: a) ++ before) = escape_string_prefix (rev (d :: u) ++ before') →
    joins (list.last (first :: a)) = joins (list.last (d :: u)) ∨ joins (head rest') = false →
    length (concat ((d :: u) :: us')) ≤ fuel' →
    ∃ toks', scan_fuel fuel' false before' off' (concat ((d :: u) :: us')) = Some toks'
      ∧ piece <$> toks' = (k', d :: u) :: zip_with rewritten_piece ts us').
  { intros k' d u us' El Hrw' He' Hj' Hf'. cbn [concat app length] in Hf' |- *.
    destruct fuel' as [|fuel']; [lia|]. rewrite length_app in Hf'.
    destruct (IH fuel' _ (rev (d :: u) ++ before') _ (off' + slen (d :: u)) rest' ts us' ltac:(lia) Ets)
      as (toks' & E' & Hp'); [by rewrite last_rev_head|done|by rewrite !last_rev_head|lia|].
    cbn [scan_fuel]. rewrite El. cbn [mbind option_bind]. rewrite app_comm_cons, split_at_app. cbn [mbind option_bind].
    rewrite E'. cbn [mbind option_bind]. eexists. split; [done|]. by rewrite fmap_cons, Hp'. }
  pose proof (tiles_concat _ _ _ Htiles) as Hc.
  inversion Hrw as [| | |]; subst; cbn [text kind] in *.
  all: clear Hrw; match goal with Hr : rewritten _ _ _ |- _ => pose proof (rewritten_edits _ _ _ Hr Hshaped) as He end.
  all: rewrite ?prev_cons in *; try match goal with Hk : ?k = Param |- _ => subst k | Hk : ?k = Symbol |- _ => subst k end.
  - match goal with Hr : rewritten _ _ _ |- _ =>
      destruct (Hgo k first a _ (lex_kept _ _ _ _ _ _ _ _ Elex Hshape He Hesc) Hr) as (toks' & E' & Hp') end.
    + apply esc_kept. by destruct Hj; [left|right].
    + by left.
    + done.
    + exists toks'. split; [done|]. rewrite Hp'. cbn [zip_with]. f_equal.
      symmetry. exact (rewritten_piece_same (mkToken (first :: a) off k)).
  - destruct Hshape as (ds & Ht & Hd). cbn [text] in Ht. injection Ht as -> ->.
    assert (digits ds') as Hd' by done.
    pose proof (lex_param_maximal _ _ _ Hd Elex) as Hmax. pose proof (edits_no_digit _ _ _ He Hmax) as Hmax'.
    match goal with Hr : rewritten _ _ _ |- _ =>
      destruct (Hgo Param c_dollar ds' _ (lex_one_digits _ _ _ (proj1 Hd') (proj2 Hd') Hmax') Hr) as (toks' & E' & Hp') end.
    + by rewrite (proj2 (digits_last _ _ Hd)), (proj2 (digits_last _ _ Hd')).
    + left. by rewrite !joins_digits.
    + done.
    + exists toks'. split; [done|]. rewrite Hp'. cbn [zip_with]. unfold rewritten_piece, is_template_marker.
      cbn [kind text]. by rewrite (bool_decide_eq_false_2 (Param = Symbol)), andb_false_r.
  - match goal with Ht : first :: a = _ |- _ => injection Ht as -> -> end. cbn [list.last app] in *.
    assert (digits ds') as Hd' by done.
    assert (∀ c, head (concat (text <$> ts)) = Some c → is_ascii_digit c = false) as Hmax.
    { intros c Hcc. match goal with Hn : joins (head (concat _)) = false |- _ => rewrite Hcc in Hn; cbn in Hn end.
      destruct (is_ascii_digit c) eqn:Ec; [|done]. apply digit_identifier in Ec. congruence. }
    pose proof (edits_no_digit _ _ _ He Hmax) as Hmax'.
    match goal with Hr : rewritten _ _ _ |- _ =>
      destruct (Hgo Param c_dollar ds' _ (lex_one_digits _ _ _ (proj1 Hd') (proj2 Hd') Hmax') Hr) as (toks' & E' & Hp') end.
    + rewrite (proj2 (digits_last _ _ Hd')). cbn [rev app]. by rewrite esc_cons.
    + by right.
    + done.
    + exists toks'. split; [done|]. rewrite Hp'. cbn [zip_with]. unfold rewritten_piece, is_template_marker.
      cbn [kind text]. by rewrite (bool_decide_eq_true_2 (Symbol = Symbol)).
Qed.

(** The tokens of a text whose placeholders were rewritten are its tokens, rewritten. *)
Lemma tokens_rewritten sql toks us :
  tokens sql = Some toks → rewritten None toks us →
  ∃ toks', tokens (concat us) = Some toks' ∧ piece <$> toks' = zip_with rewritten_piece toks us.
Proof.
  intros E Hrw. by apply (scan_rewritten (length sql) _ [] [] 0 0 sql toks us); auto.
Qed.

End rewriting.
