(* ===== verification/Templates.v ===== *)
(** * What templates and spliced fragments become

    The theorems of [Placeholders]: the markers of a template name the values bound for
    it, wherever the rendered text is spliced. *)

From S2P Require Import Prelude Dialect SqlLexer Placeholders Relexing.
Local Open Scope tide_scope.

Section templates.
Context `{Unicode}.

(** The text of a token once its number, when it has one in range, is shifted. *)
Definition shifted (offset : N) (t : Token) : str :=
  if (offset =? 0)%N then text t
  else if bool_decide (kind t = Param) then
    match parse_u64 (drop 1 (text t)) with
    | Some number =>
        if (0 <? number)%N && (number + offset <=? u64_max)%N then c_dollar :: show_N (number + offset) else text t
    | None => text t
    end
  else text t.

Lemma show_N_digits n : digits (show_N n).
Proof. destruct (show_N_spec n) as (? & ? & _). done. Qed.

Lemma rebased_texts offset toks p : (offset =? 0)%N = false → shaped false toks →
  mapM (rebased_text offset) toks = Some (shifted offset <$> toks) ∧ rewritten p toks (shifted offset <$> toks).
Proof.
  intros Ho. revert p. induction toks as [|t ts IH]; intros p Hs; [split; [done|constructor]|].
  destruct Hs as [Hsh Hs]. destruct (IH (prev p (text t)) Hs) as [IH1 IH2]. rewrite fmap_cons.
  assert (rebased_text offset t = Some (shifted offset t)
          ∧ (shifted offset t = text t ∨ kind t = Param ∧ ∃ ds, digits ds ∧ shifted offset t = c_dollar :: ds)) as [E Hc].
  { unfold rebased_text, shifted. rewrite Ho. destruct (bool_decide (kind t = Param)) eqn:Ek; [|auto].
    apply bool_decide_eq_true in Ek. unfold kind_shape in Hsh. rewrite Ek in Hsh. destruct Hsh as (ds & -> & _).
    rewrite slice_from_ascii by done. cbn [mbind option_bind].
    change (drop 1 (c_dollar :: ds)) with ds. split; [done|].
    destruct (parse_u64 ds) as [number|]; [|by left]. destruct (_ && _); [|by left]. right. split; [done|]. eexists. split; [apply show_N_digits|done]. }
  split.
  - cbn. rewrite E. cbn. by rewrite IH1.
  - destruct Hc as [->|(Hk & ds & Hd & ->)]; [by constructor|by apply rewritten_param].
Qed.

(** Rebasing a fragment shifts the numbers of its parameters, and the fragment stays the
    same tokens: what was quoted or commented stays so. *)
Theorem rebased_fragments_keep_their_tokens sql offset :
  ∃ toks out toks', tokens sql = Some toks ∧ rebase_placeholders Postgres sql offset = Some out
    ∧ tokens out = Some toks' ∧ piece <$> toks' = (λ t, (kind t, shifted offset t)) <$> toks.
Proof.
  destruct (scan_total sql false) as (toks & E & Ht & Hs). exists toks. cbn [rebase_placeholders].
  unfold offset_postgres_placeholders. destruct (offset =? 0)%N eqn:Eo.
  { exists sql, toks. split_and!; [done..|]. apply list_fmap_ext. intros _ t _. unfold shifted, piece. by rewrite Eo. }
  change (tokens sql = Some toks) in E. rewrite E. cbn [mbind option_bind].
  destruct (rebased_texts offset toks None Eo Hs) as [-> Hr]. cbn [mbind option_bind].
  destruct (tokens_rewritten _ _ _ E Hr) as (toks' & E' & Hp). exists (concat (shifted offset <$> toks)), toks'.
  split_and!; [done..|]. rewrite Hp. clear. induction toks as [|t ts IH]; [done|]. rewrite !fmap_cons. cbn [zip_with].
  rewrite IH. f_equal. unfold rewritten_piece, is_template_marker, shifted. f_equal.
  destruct (bool_decide (kind t = Symbol)) eqn:Ek; [|by rewrite andb_false_r].
  apply bool_decide_eq_true in Ek. rewrite Ek. rewrite (bool_decide_eq_false_2 (Symbol = Param)) by done.
  replace (if (offset =? 0)%N then text t else text t) with (text t) by by destruct (offset =? 0)%N.
  by rewrite (proj2 (str_eqb_true (text t) (text t))), andb_false_r.
Qed.

(** The markers of a template stand apart: no identifier touches one on either side. *)
Fixpoint apart (p : option char) (toks : list Token) : Prop :=
  match toks with
  | [] => True
  | t :: ts =>
      (is_template_marker t = true → joins p = false ∧ joins (head (concat (text <$> ts))) = false)
      ∧ apart (prev p (text t)) ts
  end.

(** The tokens of a template with its markers numbered from [n]. *)
Fixpoint numbered (n : N) (toks : list Token) : list (Kind * str) :=
  match toks with
  | [] => []
  | t :: ts =>
      if is_template_marker t then (Param, c_dollar :: show_N n) :: numbered (n + 1) ts
      else piece t :: numbered n ts
  end.

Fixpoint marked (db : DatabaseType) (n : N) (toks : list Token) : list str :=
  match toks with
  | [] => []
  | t :: ts =>
      if is_template_marker t then placeholder db n :: marked db (n + 1) ts else text t :: marked db n ts
  end.

Lemma map_markers_marked db toks : ∀ n,
  fst (map_markers (λ index, (placeholder db index, index + 1)%N) toks n) = concat (marked db n toks).
Proof.
  induction toks as [|t ts IH]; intros n; [done|]. cbn [map_markers marked].
  destruct (is_template_marker t); [specialize (IH (n + 1)%N)|specialize (IH n)];
    destruct (map_markers _ ts _) as [r s]; cbn in *; by rewrite IH.
Qed.

Lemma marker_text t : is_template_marker t = true → kind t = Symbol ∧ text t = [63%N].
Proof.
  unfold is_template_marker. intros Hm. apply andb_prop in Hm as [Ht Hk]. apply bool_decide_eq_true in Hk.
  by apply str_eqb_true in Ht.
Qed.

Lemma marked_rewritten toks : ∀ p n, apart p toks → rewritten p toks (marked Postgres n toks)
  ∧ zip_with rewritten_piece toks (marked Postgres n toks) = numbered n toks.
Proof.
  induction toks as [|t ts IH]; intros p n Ha; [split; [constructor|done]|].
  destruct Ha as [Hm Ha]. cbn [marked numbered]. destruct (is_template_marker t) eqn:Em.
  - destruct (Hm eq_refl) as [Hp Hn], (marker_text _ Em) as [Hk Ht]. rewrite Ht in Ha.
    destruct (IH _ (n + 1)%N Ha) as [IH1 IH2]. split.
    + apply rewritten_marker; auto. apply show_N_digits.
    + cbn [zip_with]. rewrite IH2. unfold rewritten_piece. by rewrite Em, Ht.
  - destruct (IH _ n Ha) as [IH1 IH2]. split; [by constructor|]. cbn [zip_with].
    by rewrite IH2, rewritten_piece_same.
Qed.

Lemma marked_positional db n toks : db ≠ Postgres → concat (marked db n toks) = concat (text <$> toks).
Proof.
  intros Hdb. revert n. induction toks as [|t ts IH]; intros n; [done|]. csimpl. cbn [marked].
  destruct (is_template_marker t) eqn:Em; csimpl; rewrite IH; [|done].
  destruct (marker_text _ Em) as [_ ->]. by destruct db.
Qed.


Lemma shifted_numbered offset toks : ∀ toks1 n,
  piece <$> toks1 = numbered n toks → Forall (λ t, kind t ≠ Param) toks → (0 < n)%N →
  (n + N.of_nat (length (List.filter is_template_marker toks)) + offset ≤ u64_max)%N →
  (λ t, (kind t, shifted offset t)) <$> toks1 = numbered (n + offset) toks.
Proof.
  induction toks as [|t ts IH]; intros [|t1 ts1] n Hp Hk Hn Hb; [done|done|cbn in Hp; by case_match|].
  rewrite fmap_cons in Hp |- *. apply list.Forall_cons in Hk as [Hkt Hk].
  cbn [numbered List.filter] in Hp, Hb |- *. destruct (is_template_marker t); injection Hp as Ht Hx Hts; cbn [length] in Hb.
  - replace (n + offset + 1)%N with (n + 1 + offset)%N by lia. rewrite (IH ts1 (n + 1)%N) by (try done; lia).
    rewrite Ht. do 2 f_equal. unfold shifted. rewrite Ht, Hx. destruct (offset =? 0)%N eqn:Eo.
    { apply N.eqb_eq in Eo as ->. by rewrite N.add_0_r. }
    rewrite bool_decide_eq_true_2 by done. change (drop 1 (c_dollar :: show_N n)) with (show_N n).
    rewrite parse_u64_show by lia.
    by rewrite (proj2 (N.ltb_lt _ _)), (proj2 (N.leb_le _ _)) by lia.
  - rewrite (IH ts1 n) by (try done; lia). unfold piece. rewrite Ht. do 2 f_equal.
    unfold shifted. rewrite Ht, Hx. rewrite bool_decide_eq_false_2 by done. by destruct (offset =? 0)%N.
Qed.


End templates.


(** A marker that touches a word disappears into it: PostgreSQL reads no parameter. *)
Example markers_can_be_swallowed :
  render_template (H := ascii_only) Postgres (lit "name LIKE?") 1 = Some (lit "name LIKE$1")
  ∧ (toks ← tokens (H := ascii_only) (lit "name LIKE$1"); Some (existsb (λ t, bool_decide (kind t = Param)) toks)) = Some false.
Proof. split; by vm_compute. Qed.
