(* ===== verification/JsonPath.v ===== *)
(** * JSON paths (src/src/query/db_sql.rs)

    The paths of [where_json_path_exists] and of JSON assignments: [$] followed by
    member and element steps. The parser walks a [Vec<char>] by index; here it
    carries the characters still to read. Printing and parsing a JSON string is
    [serde_json]'s, the class [JsonStrings]. *)

From S2P Require Import Prelude Dialect SqlLexer SqlSafety.

Inductive JsonPathStep := Member (key : str) | Element (index : N).

#[export] Instance JsonPathStep_eq_dec : EqDecision JsonPathStep.
Proof. solve_decision. Defined.

(** The inside of a JSON string: no bare quote, and no backslash at the end. *)
Fixpoint json_escaped (s : str) : bool :=
  match s with
  | [] => true
  | c :: s' =>
      if (c =? c_dquote)%N then false
      else if (c =? c_backslash)%N
      then match s' with [] => false | _ :: s'' => json_escaped s'' end
      else json_escaped s'
  end.

(** [serde_json]'s text of a string ([Value::from(key).to_string()]) and its
    reading of one ([from_str::<String>]): a JSON string between quotes, read
    back as the string. *)
Class JsonStrings := {
  json_body : str → str;
  json_string_from : str → option str;
  json_body_escaped s : json_escaped (json_body s) = true;
  json_string_round_trip s :
    json_string_from (c_dquote :: json_body s ++ [c_dquote]) = Some s;
}.

Definition json_string `{JsonStrings} (s : str) : str :=
  c_dquote :: json_body s ++ [c_dquote].

Section JsonPath.
Context `{JsonStrings}.

(** The loop of [parse_quoted_json_path_segment]: [json] is the JSON text built so
    far, [chars] what follows it. *)
Fixpoint quoted_segment_loop (quote : char) (json chars : str) : option (str * str) :=
  match chars with
  | [] => None
  | ch :: rest =>
      if (ch =? quote)%N then
        s ← json_string_from (json ++ [c_dquote]); Some (s, rest)
      else if (ch =? c_backslash)%N then
        match rest with
        | [] => None
        | escaped :: rest' =>
            if (quote =? c_quote)%N && (escaped =? c_quote)%N
            then quoted_segment_loop quote (json ++ [c_quote]) rest'
            else quoted_segment_loop quote (json ++ [c_backslash; escaped]) rest'
        end
      else
        quoted_segment_loop quote
          (json ++ (if (ch =? c_dquote)%N then [c_backslash] else []) ++ [ch]) rest
  end.

Definition parse_quoted_json_path_segment (chars : str) : option (str * str) :=
  match chars with
  | [] => None
  | quote :: rest => quoted_segment_loop quote [c_dquote] rest
  end.

Definition is_quote_char (c : char) : bool := (c =? c_dquote)%N || (c =? c_quote)%N.

(** A [.key] step, after its dot. *)
Definition parse_dot_step (chars : str) : option (JsonPathStep * str) :=
  match chars with
  | [] => None
  | c :: _ =>
      if is_quote_char c then
        '(key, rest) ← parse_quoted_json_path_segment chars; Some (Member key, rest)
      else
        let in_segment := λ c, negb (c =? 46)%N && negb (c =? 91)%N in
        let segment := take_while in_segment chars in
        if is_safe_identifier_segment segment
        then Some (Member segment, drop_while in_segment chars) else None
  end.

(** A [[index]] or [['key']] step, after its bracket. *)
Definition parse_bracket_step (chars : str) : option (JsonPathStep * str) :=
  '(step, rest) ←
    match chars with
    | [] => None
    | c :: _ =>
        if is_quote_char c then
          '(key, rest) ← parse_quoted_json_path_segment chars; Some (Member key, rest)
        else if is_ascii_digit c then
          index ← parse_u64 (take_while is_ascii_digit chars);
          Some (Element index, drop_while is_ascii_digit chars)
        else None
    end;
  match rest with
  | c :: rest' => if (c =? 93)%N then Some (step, rest') else None
  | [] => None
  end.

Fixpoint parse_steps (fuel : nat) (chars : str) : option (list JsonPathStep) :=
  match chars with
  | [] => Some []
  | c :: rest =>
      match fuel with
      | 0 => None
      | S fuel' =>
          '(step, rest') ←
            (if (c =? 46)%N then parse_dot_step rest
             else if (c =? 91)%N then parse_bracket_step rest
             else None);
          steps ← parse_steps fuel' rest';
          Some (step :: steps)
      end
  end.

(** Every step takes a character at least, so the length is fuel enough. *)
Definition parse_json_path (path : str) : option (list JsonPathStep) :=
  match path with
  | c :: chars => if (c =? 36)%N then parse_steps (length chars) chars else None
  | [] => None
  end.

Definition json_member_path (path key : str) : str := path ++ lit "." ++ json_string key.

Definition json_path_text (steps : list JsonPathStep) : str :=
  foldl (λ path step,
    match step with
    | Member key => json_member_path path key
    | Element index => path ++ lit "[" ++ show_N index ++ lit "]"
    end) (lit "$") steps.

(** [postgres_json_path_array]: the path as a [text[]] literal. *)
Definition postgres_json_path_array (steps : list JsonPathStep) : str :=
  let elements :=
    (λ step,
      let text := match step with Member key => key | Element index => show_N index end in
      [c_dquote]
      ++ replace_char c_dquote [c_backslash; c_dquote]
           (replace_char c_backslash [c_backslash; c_backslash] text)
      ++ [c_dquote]) <$> steps in
  lit "{" ++ join (lit ",") elements ++ lit "}".

(** ** Reading back *)

(** An index is a [u64]. *)
Definition step_fits (step : JsonPathStep) : bool :=
  match step with Member _ => true | Element index => (index <=? u64_max)%N end.

Definition step_text (step : JsonPathStep) : str :=
  match step with
  | Member key => 46%N :: json_string key
  | Element index => 91%N :: show_N index ++ [93%N]
  end.

Lemma json_path_text_steps steps : json_path_text steps = 36%N :: (steps ≫= step_text).
Proof.
  unfold json_path_text. change (lit "$") with [36%N].
  change (36%N :: (steps ≫= step_text)) with ([36%N] ++ (steps ≫= step_text)).
  generalize [36%N]. induction steps as [|step steps IH]; intros path; [by rewrite app_nil_r|].
  cbn [foldl]. rewrite IH, bind_cons, (app_assoc path). f_equal. by destruct step.
Qed.

Lemma quoted_segment_body body json rest :
  json_escaped body = true →
  quoted_segment_loop c_dquote json (body ++ c_dquote :: rest)
  = (s ← json_string_from (json ++ body ++ [c_dquote]); Some (s, rest)).
Proof.
  remember (length body) as n eqn:Hn. assert (length body ≤ n) as Hle by lia. clear Hn.
  revert body json Hle. induction n as [|n IH]; intros body json Hle He.
  { destruct body; [|cbn in Hle; lia]. cbn. done. }
  destruct body as [|c body]; [done|].
  cbn [app quoted_segment_loop]. cbn [json_escaped] in He. cbn [length] in Hle.
  destruct (c =? c_dquote)%N eqn:Eq; [done|].
  destruct (c =? c_backslash)%N eqn:Eb.
  - destruct body as [|e body]; [done|]. cbn [app]. cbn [length] in Hle.
    change ((c_dquote =? c_quote)%N) with false. cbn [andb].
    apply N.eqb_eq in Eb as ->. rewrite IH by (try done; lia). by rewrite <- app_assoc.
  - cbn [app]. rewrite IH by (try done; lia). by rewrite <- app_assoc.
Qed.

Lemma parse_member key rest :
  parse_quoted_json_path_segment (json_string key ++ rest) = Some (key, rest).
Proof.
  unfold parse_quoted_json_path_segment, json_string. cbn [app].
  rewrite <- app_assoc. cbn [app]. rewrite quoted_segment_body by apply json_body_escaped.
  cbn [app]. by rewrite json_string_round_trip.
Qed.

Lemma take_digits ds c rest :
  Forall (λ c, is_ascii_digit c = true) ds → is_ascii_digit c = false →
  take_while is_ascii_digit (ds ++ c :: rest) = ds
  ∧ drop_while is_ascii_digit (ds ++ c :: rest) = c :: rest.
Proof.
  intros Hd Hc. induction Hd as [|d ds Hx _ [IH1 IH2]]; cbn; [by rewrite Hc|].
  by rewrite Hx, IH1, IH2.
Qed.

Lemma parse_element index rest :
  (index <=? u64_max)%N = true →
  parse_bracket_step (show_N index ++ 93%N :: rest) = Some (Element index, rest).
Proof.
  intros Hi%N.leb_le. destruct (show_N_spec index) as (Hne & Hd & _).
  destruct (take_digits _ 93%N rest Hd) as [Ht Hr]; [done|]. unfold parse_bracket_step.
  destruct (show_N index) as [|d ds] eqn:E; [done|]. cbn [app] in *.
  assert (is_ascii_digit d = true) as Hdd by by apply list.Forall_cons in Hd as [? _].
  assert (is_quote_char d = false) as ->.
  { unfold is_quote_char, is_ascii_digit in *. apply andb_true_iff in Hdd as [?%N.leb_le _].
    apply orb_false_iff. split; apply N.eqb_neq; lia. }
  rewrite Hdd, Ht, Hr, <- E, parse_u64_show by done. done.
Qed.

Lemma parse_steps_text steps fuel :
  forallb step_fits steps = true → length (steps ≫= step_text) ≤ fuel →
  parse_steps fuel (steps ≫= step_text) = Some steps.
Proof.
  revert fuel. induction steps as [|step steps IH]; intros fuel Hs Hf; [by destruct fuel|].
  cbn in Hs. apply andb_true_iff in Hs as [Hfit Hs]. rewrite bind_cons in Hf |- *.
  destruct step as [key|index]; cbn [step_text app] in *;
    cbn [length] in Hf; rewrite length_app in Hf;
    (destruct fuel as [|fuel]; [lia|]); cbn [parse_steps].
  - change ((46 =? 46)%N) with true. cbn iota.
    replace (parse_dot_step (json_string key ++ (steps ≫= step_text)))
      with (Some (Member key, steps ≫= step_text)).
    2: { pose proof (parse_member key (steps ≫= step_text)) as Hm.
         unfold json_string in *. cbn in *. by rewrite Hm. }
    cbn. rewrite IH by (try done; lia). done.
  - change ((91 =? 46)%N) with false. change ((91 =? 91)%N) with true. cbn iota.
    rewrite <- app_assoc. cbn [app]. rewrite parse_element by done. cbn.
    rewrite IH; [done|done|]. rewrite length_app in Hf. cbn in Hf. lia.
Qed.

Lemma parse_digits_fits acc ds n : parse_digits acc ds = Some n → (acc ≤ u64_max)%N →
  (n ≤ u64_max)%N.
Proof.
  revert acc. induction ds as [|c ds IH]; intros acc; cbn; [congruence|].
  destruct (is_ascii_digit c); [|done]. destruct (_ <=? _)%N eqn:E; [|done].
  intros ? _. apply N.leb_le in E. eauto.
Qed.

Lemma parse_u64_fits s n : parse_u64 s = Some n → (n ≤ u64_max)%N.
Proof.
  unfold parse_u64. destruct s as [|c s]; [done|]. destruct (c =? 43)%N; [destruct s; [done|]|];
    intros Hp%parse_digits_fits; (done || by apply Hp).
Qed.

Lemma parse_steps_fit fuel chars steps :
  parse_steps fuel chars = Some steps → forallb step_fits steps = true.
Proof.
  revert chars steps. induction fuel as [|fuel IH]; intros [|c rest] steps; cbn; try by intros [= <-].
  destruct (_ : option (JsonPathStep * str)) as [[step rest']|] eqn:E; [|done]. cbn.
  destruct (parse_steps fuel rest') as [more|] eqn:Em; [|done]. intros [= <-]. cbn.
  rewrite (IH _ _ Em), andb_true_r. destruct step as [key|index]; [done|]. cbn.
  apply N.leb_le. destruct (c =? 46)%N.
  { unfold parse_dot_step in E. destruct rest; [done|]. destruct (is_quote_char _).
    - destruct (parse_quoted_json_path_segment _) as [[]|]; cbn in E; congruence.
    - destruct (is_safe_identifier_segment _); congruence. }
  destruct (c =? 91)%N; [|done]. unfold parse_bracket_step in E. destruct rest as [|d ds]; [done|].
  destruct (is_quote_char d).
  { destruct (parse_quoted_json_path_segment _) as [[? [|x r]]|]; cbn in E; [done| |done].
    destruct (x =? 93)%N; congruence. }
  destruct (is_ascii_digit d); [|done].
  destruct (parse_u64 _) as [i|] eqn:Ei; [|done]. cbn in E.
  destruct (if is_ascii_digit d then _ else _) as [|x r]; [done|]. destruct (x =? 93)%N; [|done].
  injection E as <- _. by apply parse_u64_fits in Ei.
Qed.

(** C22: a JSON path that parses is rewritten without changing what it addresses: the
    text MySQL, MariaDB and SQLite are sent for its steps parses back to the same
    steps, whatever characters the keys hold; and the same for every sequence of
    steps whose indexes are [u64]s. *)
Theorem json_path_round_trip :
  (∀ steps, forallb step_fits steps = true →
            parse_json_path (json_path_text steps) = Some steps)
  ∧ (∀ path steps, parse_json_path path = Some steps →
       parse_json_path (json_path_text steps) = Some steps).
Proof.
  assert (∀ steps, forallb step_fits steps = true →
            parse_json_path (json_path_text steps) = Some steps) as Hrt.
  { intros steps Hs. rewrite json_path_text_steps. cbn. by apply parse_steps_text. }
  split; [done|]. intros [|c chars] steps; cbn; [done|]. destruct (c =? 36)%N; [|done].
  intros Hp%parse_steps_fit. by apply Hrt.
Qed.
End JsonPath.

(** ** JSON strings with the two mandatory escapes *)

Definition simple_escape (s : str) : str :=
  s ≫= λ c, if (c =? c_dquote)%N || (c =? c_backslash)%N then [c_backslash; c] else [c].

Fixpoint simple_unescape (s : str) : option str :=
  match s with
  | [] => None
  | c :: s' =>
      if (c =? c_dquote)%N then match s' with [] => Some [] | _ => None end
      else if (c =? c_backslash)%N
      then match s' with [] => None | e :: s'' => cons e <$> simple_unescape s'' end
      else cons c <$> simple_unescape s'
  end.

Lemma simple_unescape_escape s : simple_unescape (simple_escape s ++ [c_dquote]) = Some s.
Proof.
  induction s as [|c s IH]; [done|]. unfold simple_escape in *. rewrite bind_cons.
  destruct (c =? c_dquote)%N eqn:Eq, (c =? c_backslash)%N eqn:Eb; cbn in *;
    rewrite ?Eq, ?Eb, ?IH; done.
Qed.

Lemma simple_escape_escaped s : json_escaped (simple_escape s) = true.
Proof.
  induction s as [|c s IH]; [done|]. unfold simple_escape in *. rewrite bind_cons.
  destruct (c =? c_dquote)%N eqn:Eq, (c =? c_backslash)%N eqn:Eb; cbn in *;
    rewrite ?Eq, ?Eb; done.
Qed.

Definition simple_json_strings : JsonStrings := {|
  json_body := simple_escape;
  json_string_from := λ text,
    match text with
    | c :: text' => if (c =? c_dquote)%N then simple_unescape text' else None
    | [] => None
    end;
  json_body_escaped := simple_escape_escaped;
  json_string_round_trip := simple_unescape_escape;
|}.

(** [$.a['b"c'][2]] is sent as [$."a"."b\"c"[2]]. *)
Lemma json_path_round_trip_witness :
  let H := simple_json_strings in
  let path := lit "$.a['b" ++ [c_dquote] ++ lit "c'][2]" in
  let steps := [Member (lit "a"); Member (lit "b" ++ [c_dquote] ++ lit "c"); Element 2] in
  parse_json_path path = Some steps
  ∧ parse_json_path (json_path_text steps) = Some steps
  ∧ parse_json_path (json_path_text [Element u64_max]) = Some [Element u64_max].
Proof.
  intros H path steps. split_and!.
  - vm_compute. reflexivity.
  - apply (proj2 (@json_path_round_trip simple_json_strings) path). vm_compute. reflexivity.
  - apply (proj1 (@json_path_round_trip simple_json_strings)). vm_compute. reflexivity.
Defined.
