(* ===== verification/MinHeap.v ===== *)
(** * Min-heaps of the Rust standard library

    [BinaryHeap<Reverse<T>>], as the topological sort and the cache's eviction
    indexes use it: a multiset whose [pop] takes the least element of [T]'s
    total order. The elements are kept in a list; which of two equal elements
    [pop] takes cannot be told. *)

From Stdlib Require Export Sorted.
From stdpp Require Import sorting.
From S2P Require Import Prelude.

(** [Ord]: a decidable total order. *)
Class TotalLe (A : Type) := {
  leb : A → A → bool;
  leb_total x y : leb x y = true ∨ leb y x = true;
  leb_trans x y z : leb x y = true → leb y z = true → leb x z = true;
  leb_antisym x y : leb x y = true → leb y x = true → x = y;
}.

Lemma leb_refl `{TotalLe A} x : leb x x = true.
Proof. destruct (leb_total x x); done. Qed.

Lemma leb_false `{TotalLe A} x y : leb x y = false → leb y x = true.
Proof. destruct (leb_total x y); congruence. Qed.

#[export] Program Instance N_total : TotalLe N := {| leb := N.leb |}.
Next Obligation. intros. rewrite !N.leb_le. lia. Qed.
Next Obligation. intros x y z. rewrite !N.leb_le. lia. Qed.
Next Obligation. intros x y. rewrite !N.leb_le. lia. Qed.

#[export] Program Instance nat_total : TotalLe nat := {| leb := Nat.leb |}.
Next Obligation. intros. rewrite !Nat.leb_le. lia. Qed.
Next Obligation. intros x y z. rewrite !Nat.leb_le. lia. Qed.
Next Obligation. intros x y. rewrite !Nat.leb_le. lia. Qed.

(** Tuples compare their first components first. *)
#[export] Program Instance prod_total `{TotalLe A, TotalLe B} : TotalLe (A * B) :=
  {| leb x y := leb x.1 y.1 && (negb (leb y.1 x.1) || leb x.2 y.2) |}.
Next Obligation.
  intros A HA B HB [a b] [a' b']; cbn.
  destruct (leb a a') eqn:E1, (leb a' a) eqn:E2, (leb b b') eqn:E3; cbn; auto.
  - right. by apply leb_false.
  - apply leb_false in E1. congruence.
  - apply leb_false in E1. congruence.
Qed.
Next Obligation.
  intros A HA B HB [a b] [a' b'] [a'' b'']; cbn.
  rewrite !andb_true_iff, !orb_true_iff, !negb_true_iff. intros [H1 H2] [H3 H4].
  split; [by eapply leb_trans|].
  destruct (leb a'' a) eqn:E; [right|by left].
  assert (leb a' a = true) by by eapply leb_trans.
  assert (leb a'' a' = true) by by eapply leb_trans.
  destruct H2 as [?|H2]; [congruence|]. destruct H4 as [?|H4]; [congruence|].
  by eapply leb_trans.
Qed.
Next Obligation.
  intros A HA B HB [a b] [a' b']; cbn.
  rewrite !andb_true_iff, !orb_true_iff, !negb_true_iff. intros [H1 H2] [H3 H4].
  assert (a = a') as -> by by apply leb_antisym.
  destruct H2 as [?|H2]; [congruence|]. destruct H4 as [?|H4]; [congruence|].
  f_equal. by apply leb_antisym.
Qed.

(** Texts compare code point by code point, as their UTF-8 bytes do. *)
Fixpoint lex_leb (x y : list N) : bool :=
  match x, y with
  | [], _ => true
  | _ :: _, [] => false
  | a :: x', b :: y' => (a <? b)%N || ((a =? b)%N && lex_leb x' y')
  end.

#[export] Program Instance str_total : TotalLe (list N) := {| leb := lex_leb |}.
Next Obligation.
  intros x. induction x as [|a x IH]; intros [|b y]; cbn; auto.
  destruct (IH y); destruct (N.compare_spec a b); subst; rewrite ?N.eqb_refl;
    rewrite ?orb_true_iff, ?andb_true_iff, ?N.ltb_lt; auto.
Qed.
Next Obligation.
  intros x. induction x as [|a x IH]; intros [|b y] [|c z]; cbn; auto; try done.
  rewrite !orb_true_iff, !andb_true_iff, !N.ltb_lt, !N.eqb_eq.
  intros [H1|[-> H1]] [H2|[-> H2]]; try (left; lia). right. split; [done|]. by eapply IH.
Qed.
Next Obligation.
  intros x. induction x as [|a x IH]; intros [|b y]; cbn; auto; try done.
  rewrite !orb_true_iff, !andb_true_iff, !N.ltb_lt, !N.eqb_eq.
  intros [H1|[-> H1]] [H2|[H2 H3]]; try lia. f_equal. by apply IH.
Qed.

Section heap.
Context `{TotalLe A}.

(** [BinaryHeap::pop]: a least element and the others. *)
Fixpoint pop_min (heap : list A) : option (A * list A) :=
  match heap with
  | [] => None
  | x :: rest =>
      match pop_min rest with
      | None => Some (x, [])
      | Some (m, rest') => if leb x m then Some (x, rest) else Some (m, x :: rest')
      end
  end.

Lemma pop_min_None heap : pop_min heap = None ↔ heap = [].
Proof. destruct heap; cbn; [done|]. repeat case_match; naive_solver. Qed.

Lemma pop_min_Some heap m rest :
  pop_min heap = Some (m, rest) →
  heap ≡ₚ m :: rest ∧ Forall (λ x, leb m x = true) rest.
Proof.
  revert m rest. induction heap as [|x heap IH]; intros m rest; cbn; [done|].
  destruct (pop_min heap) as [[m' rest']|] eqn:E.
  - destruct (IH _ _ eq_refl) as [Hp Hm]. destruct (leb x m') eqn:El; intros [= <- <-].
    + split; [done|]. rewrite Hp. constructor; [done|].
      eapply Forall_impl; [|exact Hm]. intros y ?. by eapply leb_trans.
    + split; [rewrite Hp; by apply Permutation_swap|].
      constructor; [by apply leb_false|done].
  - apply pop_min_None in E as ->. intros [= <- <-]. auto.
Qed.

Lemma pop_min_length heap m rest :
  pop_min heap = Some (m, rest) → length heap = S (length rest).
Proof. intros Hp. apply pop_min_Some in Hp as [-> _]. done. Qed.

Lemma pop_min_least heap m rest x :
  pop_min heap = Some (m, rest) → x ∈ heap → leb m x = true.
Proof.
  intros Hp Hx. apply pop_min_Some in Hp as [Hp Hm]. rewrite Hp in Hx.
  apply elem_of_cons in Hx as [->|Hx]; [apply leb_refl|].
  rewrite list.Forall_forall in Hm. by apply Hm.
Qed.

End heap.

(** ** [sort_by_key]

    The stable sorts of the standard library, by a key. *)

Section sorting.
Context {A K : Type} `{TotalLe K} (key : A → K).

Fixpoint sorted_insert (x : A) (l : list A) : list A :=
  match l with
  | [] => [x]
  | y :: l' => if leb (key x) (key y) then x :: l else y :: sorted_insert x l'
  end.

Definition sort_by_key (l : list A) : list A := foldr sorted_insert [] l.

Definition by_key (x y : A) : Prop := leb (key x) (key y) = true.

Lemma sorted_insert_perm (x : A) (l : list A) : sorted_insert x l ≡ₚ x :: l.
Proof.
  induction l as [|y l IH]; cbn; [done|]. destruct (leb _ _); [done|].
  rewrite IH. constructor.
Qed.

Lemma sort_by_key_perm (l : list A) : sort_by_key l ≡ₚ l.
Proof. induction l as [|x l IH]; cbn; [done|]. by rewrite sorted_insert_perm, IH. Qed.

Lemma sorted_insert_sorted (x : A) (l : list A) :
  StronglySorted by_key l → StronglySorted by_key (sorted_insert x l).
Proof.
  induction 1 as [|y l Hl IH Hy]; cbn.
  { repeat constructor. }
  destruct (leb (key x) (key y)) eqn:E.
  - constructor; [by constructor|]. constructor; [done|].
    eapply Forall_impl; [|exact Hy]. intros z Hz. unfold by_key in *. by eapply leb_trans.
  - constructor; [done|]. rewrite sorted_insert_perm. constructor; [|done].
    unfold by_key. by apply leb_false.
Qed.

Lemma sort_by_key_sorted (l : list A) : StronglySorted by_key (sort_by_key l).
Proof. induction l as [|x l IH]; cbn; [constructor|]. by apply sorted_insert_sorted. Qed.

(** A list in the order of its distinct keys is what any permutation of it sorts
    to. *)
Lemma sort_by_key_unique (l l0 : list A) :
  l ≡ₚ l0 → NoDup (key <$> l0) → StronglySorted by_key l0 → sort_by_key l = l0.
Proof.
  intros Hp Hnd Hs. apply (StronglySorted_unique_strong by_key); [|apply sort_by_key_sorted|done|].
  2: { by rewrite sort_by_key_perm. }
  intros x y Hx Hy Hxy Hyx. rewrite sort_by_key_perm, Hp in Hx.
  assert (key x = key y) as Hk by by apply leb_antisym.
  apply list_elem_of_lookup in Hx as [i Hi], Hy as [j Hj].
  assert (i = j) as ->; [|congruence].
  eapply (NoDup_lookup (key <$> l0)); [done|..]; rewrite list_lookup_fmap.
  - by rewrite Hi.
  - rewrite Hj. cbn. by rewrite Hk.
Qed.
End sorting.

(** [Option<i64>]: [None] is the least. *)
#[export] Program Instance option_Z_total : TotalLe (option Z) :=
  {| leb x y := match x, y with
                | None, _ => true
                | Some _, None => false
                | Some a, Some b => Z.leb a b
                end |}.
Next Obligation. intros [a|] [b|]; rewrite ?Z.leb_le; auto. lia. Qed.
Next Obligation. intros [a|] [b|] [c|]; rewrite ?Z.leb_le; try done. lia. Qed.
Next Obligation. intros [a|] [b|]; rewrite ?Z.leb_le; try done. intros ? ?. f_equal. lia. Qed.
