(* ===== verification/CacheStore.v ===== *)
(** * The query cache's store

    src/src/cache/query_cache/store.rs: the cached entries, one eviction index
    per strategy, the byte count, and the history of invalidations that decides
    whether a read that started earlier may still fill the cache.

    [Instant]s are nanoseconds as [N], bounded by the platform's last instant
    [instant_max]; [Instant::now()] is the argument [now]. The [u64] sequence
    counters are unbounded: they advance by one per cache operation. A payload's
    [Arc<[u8]>] keeps its address, which [Arc::ptr_eq] compares; an entry is
    allocated with the sequence number it is inserted under, so that number is
    the address. *)

From stdpp Require Import gmap.
From S2P Require Import Prelude MinHeap.

Inductive CacheStrategy := LRU | FIFO | TTL.

#[export] Instance CacheStrategy_eq_dec : EqDecision CacheStrategy.
Proof. solve_decision. Defined.

(** [Arc<[u8]>]: an address and the bytes behind it. *)
Record Arc := { arc_addr : N; arc_bytes : list N }.

Definition ptr_eq (x y : Arc) : bool := (arc_addr x =? arc_addr y)%N.

Record CacheEntry := {
  data : Arc;
  expires_at : N;
  tables : gset str;
  database : option str;
  insert_order : N;
  access_order : N;
}.

(** The serialized size of an entry. *)
Definition data_len (e : CacheEntry) : N := N.of_nat (length (arc_bytes (data e))).

(** [Instant::checked_add] on a platform whose last instant is [instant_max]. *)
Definition checked_add (instant_max now ttl : N) : option N :=
  if (now + ttl <=? instant_max)%N then Some (now + ttl)%N else None.

(** [Duration::from_secs(100 * 365 * 24 * 60 * 60)], in nanoseconds. *)
Definition century : N := 100 * 365 * 24 * 60 * 60 * 1000000000.

Definition CacheEntry_new (instant_max now : N) (bytes : list N) (ttl : N)
    (tabs : gset str) (order : N) : CacheEntry :=
  {| data := {| arc_addr := order; arc_bytes := bytes |};
     expires_at :=
       match checked_add instant_max now ttl with
       | Some t => t
       | None => default now (checked_add instant_max now century)
       end;
     tables := tabs;
     database := None;
     insert_order := order;
     access_order := order |}.

Definition set_database (e : CacheEntry) (db : option str) : CacheEntry :=
  {| data := data e; expires_at := expires_at e; tables := tables e; database := db;
     insert_order := insert_order e; access_order := access_order e |}.

Definition set_access_order (e : CacheEntry) (order : N) : CacheEntry :=
  {| data := data e; expires_at := expires_at e; tables := tables e; database := database e;
     insert_order := insert_order e; access_order := order |}.

Definition reads_table (e : CacheEntry) (table : str) : bool :=
  bool_decide (table ∈ tables e).

Definition is_expired (now : N) (e : CacheEntry) : bool := (expires_at e <=? now)%N.

Definition lru_priority (e : CacheEntry) : N := access_order e.
Definition fifo_priority (e : CacheEntry) : N := insert_order e.
Definition ttl_priority (e : CacheEntry) : N * N := (expires_at e, insert_order e).

(** [Candidate<P>]: its derived order compares the priority, then the key. *)
Abbreviation Candidate P := (P * str)%type.

Record CacheStore := {
  entries : gmap str CacheEntry;
  lru_heap : list (Candidate N);
  fifo_heap : list (Candidate N);
  ttl_heap : list (Candidate (N * N));
  size_bytes : N;
  invalidation_seq : N;
  invalidated_at : gmap str N;
  invalidated_databases : gmap str N;
  unscoped_invalidated_at : N;
  cleared_at : N;
}.

(** [CacheStore::default()]. *)
Definition CacheStore_default : CacheStore :=
  {| entries := ∅; lru_heap := []; fifo_heap := []; ttl_heap := []; size_bytes := 0;
     invalidation_seq := 0; invalidated_at := ∅; invalidated_databases := ∅;
     unscoped_invalidated_at := 0; cleared_at := 0 |}.

(** Assignment to the entries, their indexes and their size; the history stays. *)
Definition set_contents (s : CacheStore) es lru fifo ttl size : CacheStore :=
  {| entries := es; lru_heap := lru; fifo_heap := fifo; ttl_heap := ttl; size_bytes := size;
     invalidation_seq := invalidation_seq s; invalidated_at := invalidated_at s;
     invalidated_databases := invalidated_databases s;
     unscoped_invalidated_at := unscoped_invalidated_at s; cleared_at := cleared_at s |}.

(** Assignment to the history; the entries stay. *)
Definition set_history (s : CacheStore) seq tabs dbs unscoped cleared : CacheStore :=
  {| entries := entries s; lru_heap := lru_heap s; fifo_heap := fifo_heap s;
     ttl_heap := ttl_heap s; size_bytes := size_bytes s;
     invalidation_seq := seq; invalidated_at := tabs; invalidated_databases := dbs;
     unscoped_invalidated_at := unscoped; cleared_at := cleared |}.

Definition get (s : CacheStore) (key : str) : option CacheEntry := entries s !! key.

Definition len (s : CacheStore) : N := N.of_nat (size (entries s)).

(** Every entry's candidate under a priority, in the map's iteration order. *)
Definition candidates {P} (priority_of : CacheEntry → P) (es : gmap str CacheEntry)
    : list (Candidate P) :=
  (λ kv, (priority_of kv.2, kv.1)) <$> map_to_list es.

Definition rebuild_indexes (s : CacheStore) : CacheStore :=
  set_contents s (entries s)
    (candidates lru_priority (entries s))
    (candidates fifo_priority (entries s))
    (candidates ttl_priority (entries s))
    (size_bytes s).

(** [usize] saturates at [usize_max]. *)
Definition usize_max : N := 2 ^ 64 - 1.
Definition saturating_mul (x y : N) : N := N.min (x * y) usize_max.
Definition saturating_add (x y : N) : N := N.min (x + y) usize_max.

Definition INDEX_REBUILD_MULTIPLIER : N := 4.
Definition INDEX_REBUILD_SLACK : N := 64.

Definition threshold (s : CacheStore) : N :=
  saturating_add (saturating_mul (len s) INDEX_REBUILD_MULTIPLIER) INDEX_REBUILD_SLACK.

Definition maybe_rebuild_indexes (s : CacheStore) : CacheStore :=
  if (len s =? 0)%N
     || (threshold s <? N.of_nat (length (lru_heap s)))%N
     || (threshold s <? N.of_nat (length (fifo_heap s)))%N
     || (threshold s <? N.of_nat (length (ttl_heap s)))%N
  then rebuild_indexes s else s.

Definition insert (s : CacheStore) (key : str) (e : CacheEntry) : CacheStore :=
  let size := (size_bytes s + data_len e)%N in
  let size :=
    match entries s !! key with
    | Some previous => (size - data_len previous)%N
    | None => size
    end in
  maybe_rebuild_indexes
    (set_contents s (<[key := e]> (entries s))
       ((lru_priority e, key) :: lru_heap s)
       ((fifo_priority e, key) :: fifo_heap s)
       ((ttl_priority e, key) :: ttl_heap s)
       size).

Definition remove (s : CacheStore) (key : str) : CacheStore * option CacheEntry :=
  match entries s !! key with
  | None => (s, None)
  | Some removed =>
      (maybe_rebuild_indexes
         (set_contents s (delete key (entries s)) (lru_heap s) (fifo_heap s) (ttl_heap s)
            (size_bytes s - data_len removed)),
       Some removed)
  end.

(** The bytes held by some entries. *)
Definition total_size (es : gmap str CacheEntry) : N :=
  foldr N.add 0%N (data_len <$> (map_to_list es).*2).

Definition remove_where (s : CacheStore) (predicate : CacheEntry → bool) : CacheStore * N :=
  let before := len s in
  let freed := total_size (filter (λ kv, predicate kv.2 = true) (entries s)) in
  let s := set_contents s (filter (λ kv, predicate kv.2 = false) (entries s))
             (lru_heap s) (fifo_heap s) (ttl_heap s) (size_bytes s - freed) in
  let removed := (before - len s)%N in
  ((if (0 <? removed)%N then maybe_rebuild_indexes s else s), removed).

Definition clear (s : CacheStore) : CacheStore * N :=
  let removed := len s in
  let seq := (invalidation_seq s + 1)%N in
  (set_history (set_contents s ∅ [] [] [] 0) seq ∅ ∅ (unscoped_invalidated_at s) seq, removed).

Definition INVALIDATION_HISTORY_LIMIT : nat := 1024.

(** Whether recording [name] in [hist] first discards the recorded history. *)
Definition compacts (hist : gmap str N) (name : str) : bool :=
  bool_decide (INVALIDATION_HISTORY_LIMIT ≤ size hist)
  && bool_decide (hist !! name = None).

Definition note_invalidated (s : CacheStore) (table : str) : CacheStore :=
  let seq := (invalidation_seq s + 1)%N in
  let full := compacts (invalidated_at s) table in
  set_history s seq
    (<[table := seq]> (if full then ∅ else invalidated_at s))
    (invalidated_databases s)
    (unscoped_invalidated_at s)
    (if full then seq else cleared_at s).

Definition note_database_invalidated (s : CacheStore) (db : str) : CacheStore :=
  let seq := (invalidation_seq s + 1)%N in
  let full := compacts (invalidated_databases s) db in
  set_history s seq
    (invalidated_at s)
    (<[db := seq]> (if full then ∅ else invalidated_databases s))
    seq
    (if full then seq else cleared_at s).

(** [FillPoint]: where a read that may fill the cache started. *)
Record FillPoint := { sequence : N; fill_database : option str }.

Definition after_seq (seq : N) (at_ : option N) : bool :=
  match at_ with Some at_ => (seq <? at_)%N | None => false end.

Definition invalidated_since (s : CacheStore) (point : FillPoint) (tabs : gset str) : bool :=
  let seq := sequence point in
  (seq <? cleared_at s)%N
  || match fill_database point with
     | Some db => after_seq seq (invalidated_databases s !! db)
     | None => (seq <? unscoped_invalidated_at s)%N
     end
  || existsb (λ table, after_seq seq (invalidated_at s !! table)) (elements tabs).

Definition touch (s : CacheStore) (key : str) (order : N) : CacheStore * option Arc :=
  match entries s !! key with
  | None => (s, None)
  | Some e =>
      let e := set_access_order e order in
      (maybe_rebuild_indexes
         (set_contents s (<[key := e]> (entries s)) ((order, key) :: lru_heap s)
            (fifo_heap s) (ttl_heap s) (size_bytes s)),
       Some (data e))
  end.

(** [pop_current]'s test: the candidate still has its entry's priority. *)
Definition is_current {P} `{EqDecision P} (priority_of : CacheEntry → P)
    (es : gmap str CacheEntry) (c : Candidate P) : bool :=
  match es !! c.2 with
  | Some e => bool_decide (priority_of e = c.1)
  | None => false
  end.

(** [pop_current]: each round pops one candidate, so the heap's length bounds
    the rounds. *)
Fixpoint pop_current_fuel {P} `{TotalLe P, EqDecision P} (fuel : nat)
    (heap : list (Candidate P)) (es : gmap str CacheEntry) (priority_of : CacheEntry → P)
    : list (Candidate P) * option str :=
  match fuel with
  | O => (heap, None)
  | S fuel =>
      match pop_min heap with
      | None => (heap, None)
      | Some (c, rest) =>
          if is_current priority_of es c then (rest, Some c.2)
          else pop_current_fuel fuel rest es priority_of
      end
  end.

Definition pop_current {P} `{TotalLe P, EqDecision P} (heap : list (Candidate P))
    (es : gmap str CacheEntry) (priority_of : CacheEntry → P)
    : list (Candidate P) * option str :=
  pop_current_fuel (length heap) heap es priority_of.

Definition evict (s : CacheStore) (strategy : CacheStrategy) : CacheStore * option CacheEntry :=
  let '(s, key) :=
    match strategy with
    | LRU =>
        let '(h, key) := pop_current (lru_heap s) (entries s) lru_priority in
        (set_contents s (entries s) h (fifo_heap s) (ttl_heap s) (size_bytes s), key)
    | FIFO =>
        let '(h, key) := pop_current (fifo_heap s) (entries s) fifo_priority in
        (set_contents s (entries s) (lru_heap s) h (ttl_heap s) (size_bytes s), key)
    | TTL =>
        let '(h, key) := pop_current (ttl_heap s) (entries s) ttl_priority in
        (set_contents s (entries s) (lru_heap s) (fifo_heap s) h (size_bytes s), key)
    end in
  match key with
  | None => (s, None)
  | Some key => remove s key
  end.

(** ** The byte count *)

#[export] Instance sum_proper : Proper ((≡ₚ) ==> (=)) (foldr N.add 0%N).
Proof. intros l1 l2 Hp. induction Hp; cbn; lia. Qed.

Lemma total_size_empty : total_size ∅ = 0%N.
Proof. unfold total_size. by rewrite map_to_list_empty. Qed.

Lemma total_size_insert es k e :
  es !! k = None → total_size (<[k := e]> es) = (data_len e + total_size es)%N.
Proof. intros Hk. unfold total_size. by rewrite (map_to_list_insert es k e Hk). Qed.

Lemma total_size_delete es k e :
  es !! k = Some e → total_size es = (data_len e + total_size (delete k es))%N.
Proof.
  intros Hk. rewrite <- (total_size_insert (delete k es) k e).
  - by rewrite insert_delete_id.
  - apply lookup_delete_eq.
Qed.

Lemma total_size_filter (p : CacheEntry → bool) es :
  total_size es = (total_size (filter (λ kv, p kv.2 = true) es)
                   + total_size (filter (λ kv, p kv.2 = false) es))%N.
Proof.
  induction es as [|k e es Hk IH] using map_ind.
  { by rewrite !map_filter_empty, total_size_empty. }
  rewrite total_size_insert by done.
  assert (∀ b, filter (λ kv, p kv.2 = b) es !! k = None) as Hn.
  { intros b. apply map_lookup_filter_None. by left. }
  destruct (p e) eqn:Hp.
  - rewrite (map_filter_insert_True (λ kv, p kv.2 = true)) by done.
    rewrite (map_filter_insert_False (λ kv, p kv.2 = false)) by (cbn; congruence).
    rewrite (delete_id es k Hk), total_size_insert by done. lia.
  - rewrite (map_filter_insert_True (λ kv, p kv.2 = false)) by done.
    rewrite (map_filter_insert_False (λ kv, p kv.2 = true)) by (cbn; congruence).
    rewrite (delete_id es k Hk), (total_size_insert (filter _ _) k e) by done. lia.
Qed.

(** ** The eviction indexes *)

(** Every entry has a candidate with its current priority. *)
Definition covers {P} (priority_of : CacheEntry → P) (es : gmap str CacheEntry)
    (heap : list (Candidate P)) : Prop :=
  ∀ k e, es !! k = Some e → (priority_of e, k) ∈ heap.

Lemma candidates_cover {P} (prio : CacheEntry → P) es : covers prio es (candidates prio es).
Proof.
  intros k e Hk. apply list_elem_of_fmap. exists (k, e). split; [done|].
  by apply elem_of_map_to_list.
Qed.

Lemma covers_insert {P} (prio : CacheEntry → P) es heap k e :
  covers prio es heap → covers prio (<[k := e]> es) ((prio e, k) :: heap).
Proof.
  intros Hc k' e' [[-> ->]|[_ Hk']]%lookup_insert_Some; [by left|]. right. by apply Hc.
Qed.

(** An update that keeps the priority needs no new candidate. *)
Lemma covers_update {P} (prio : CacheEntry → P) es heap k e e' :
  covers prio es heap → es !! k = Some e → prio e' = prio e →
  covers prio (<[k := e']> es) heap.
Proof.
  intros Hc Hk Hp k' e'' [[-> ->]|[_ Hk']]%lookup_insert_Some; [|by apply Hc].
  rewrite Hp. by apply Hc.
Qed.

Lemma covers_subset {P} (prio : CacheEntry → P) es es' heap :
  es' ⊆ es → covers prio es heap → covers prio es' heap.
Proof. intros Hs Hc k e Hk. apply Hc. by eapply lookup_weaken. Qed.

Section pop_current.
Context {P} `{TotalLe P, EqDecision P} (prio : CacheEntry → P) (es : gmap str CacheEntry).

(** A heap that covers some entries yields the least of them, and still covers
    the others. *)
Lemma pop_current_fuel_spec fuel heap :
  length heap ≤ fuel → covers prio es heap →
  match pop_current_fuel fuel heap es prio with
  | (_, None) => es = ∅
  | (rest, Some k) =>
      length rest ≤ length heap ∧
      (∃ e, es !! k = Some e ∧
         ∀ k' e', es !! k' = Some e' → leb (prio e, k) (prio e', k') = true) ∧
      covers prio (delete k es) rest
  end.
Proof.
  revert heap. induction fuel as [|fuel IH]; intros heap Hl Hc.
  { destruct heap; [|cbn in Hl; lia]. cbn. apply map_eq. intros k. rewrite lookup_empty.
    destruct (es !! k) as [e|] eqn:E; [|done]. apply Hc in E. by apply elem_of_nil in E. }
  cbn [pop_current_fuel]. destruct (pop_min heap) as [[[p k] rest]|] eqn:Em.
  2: { apply pop_min_None in Em as ->. apply map_eq. intros k. rewrite lookup_empty.
       destruct (es !! k) as [e|] eqn:E; [|done]. apply Hc in E. by apply elem_of_nil in E. }
  pose proof (pop_min_length _ _ _ Em) as Hlen.
  pose proof (pop_min_Some _ _ _ Em) as [Hp _].
  destruct (is_current prio es (p, k)) eqn:Ec.
  - unfold is_current in Ec. cbn in Ec. destruct (es !! k) as [e|] eqn:Ek; [|done].
    apply bool_decide_eq_true in Ec as <-. split_and!; [cbn; lia| |].
    + exists e. split; [done|]. intros k' e' Hk'. eapply pop_min_least; [exact Em|]. by apply Hc.
    + intros k' e' Hk'. apply lookup_delete_Some in Hk' as [Hne Hk']. apply Hc in Hk'.
      rewrite Hp in Hk'. apply elem_of_cons in Hk' as [[= _ ->]|Hk']; done.
  - assert (covers prio es rest) as Hc'.
    { intros k' e' Hk'. pose proof (Hc _ _ Hk') as Hin. rewrite Hp in Hin.
      apply elem_of_cons in Hin as [[= <- <-]|Hin]; [|done].
      unfold is_current in Ec. cbn in Ec. rewrite Hk' in Ec.
      by apply bool_decide_eq_false in Ec. }
    specialize (IH rest ltac:(lia) Hc').
    destruct (pop_current_fuel fuel rest es prio) as [rest' [k'|]]; [|done].
    destruct IH as (? & ? & ?). split_and!; [lia|done|done].
Qed.

Lemma pop_current_spec heap :
  covers prio es heap →
  match pop_current heap es prio with
  | (_, None) => es = ∅
  | (rest, Some k) =>
      length rest ≤ length heap ∧
      (∃ e, es !! k = Some e ∧
         ∀ k' e', es !! k' = Some e' → leb (prio e, k) (prio e', k') = true) ∧
      covers prio (delete k es) rest
  end.
Proof. by apply pop_current_fuel_spec. Qed.
End pop_current.

(** ** The store's invariant *)

(** What holds before the indexes are trimmed: the byte count is the entries'
    size and each index covers the entries. *)
Record indexed (s : CacheStore) : Prop := {
  idx_size : size_bytes s = total_size (entries s);
  idx_lru : covers lru_priority (entries s) (lru_heap s);
  idx_fifo : covers fifo_priority (entries s) (fifo_heap s);
  idx_ttl : covers ttl_priority (entries s) (ttl_heap s);
}.

(** No index outgrows four candidates per entry and 64 more, and an empty store
    keeps none. *)
Definition trimmed (s : CacheStore) : Prop :=
  (∀ n, n = length (lru_heap s) ∨ n = length (fifo_heap s) ∨ n = length (ttl_heap s) →
    n ≤ 4 * size (entries s) + 64 ∧ (entries s = ∅ → n = 0)).

Definition store_wf (s : CacheStore) : Prop := indexed s ∧ trimmed s.

Lemma candidates_length {P} (prio : CacheEntry → P) es : length (candidates prio es) = size es.
Proof. unfold candidates. by rewrite length_fmap, length_map_to_list. Qed.

Lemma maybe_rebuild_wf s : indexed s → store_wf (maybe_rebuild_indexes s).
Proof.
  intros [Hs Hl Hf Ht]. unfold maybe_rebuild_indexes. destruct (_ || _) eqn:E.
  - split.
    + split; cbn; [done|apply candidates_cover..].
    + intros n Hn. cbn in *. rewrite !candidates_length in Hn.
      split; [lia|]. intros He. rewrite He, map_size_empty in Hn. lia.
  - split; [done|]. intros n Hn.
    unfold threshold, saturating_add, saturating_mul, INDEX_REBUILD_MULTIPLIER,
      INDEX_REBUILD_SLACK, len in E.
    split; [lia|]. intros He. rewrite He, map_size_empty in E. done.
Qed.

Lemma maybe_rebuild_entries s : entries (maybe_rebuild_indexes s) = entries s.
Proof. unfold maybe_rebuild_indexes. by destruct (_ || _). Qed.

Lemma maybe_rebuild_size s : size_bytes (maybe_rebuild_indexes s) = size_bytes s.
Proof. unfold maybe_rebuild_indexes. by destruct (_ || _). Qed.

Lemma set_history_wf s seq tabs dbs un cl :
  store_wf s → store_wf (set_history s seq tabs dbs un cl).
Proof. intros [[] ?]. by split. Qed.

Lemma default_wf : store_wf CacheStore_default.
Proof.
  split.
  - split; cbn; [done|intros ?? Hk; by rewrite lookup_empty in Hk..].
  - intros n Hn. cbn in *. lia.
Qed.

Lemma insert_wf s k e : store_wf s → store_wf (insert s k e).
Proof.
  intros [[Hs Hl Hf Ht] _]. apply maybe_rebuild_wf. split; cbn; try by apply covers_insert.
  rewrite Hs. destruct (entries s !! k) as [p|] eqn:E.
  - rewrite (total_size_delete _ _ _ E).
    rewrite (total_size_delete (<[k := e]> (entries s)) k e) by apply lookup_insert_eq.
    rewrite delete_insert_eq. lia.
  - rewrite (total_size_insert _ _ _ E). lia.
Qed.

Lemma remove_None s k : entries s !! k = None → remove s k = (s, None).
Proof. unfold remove. by intros ->. Qed.

Lemma remove_entries s k : entries (remove s k).1 = delete k (entries s).
Proof.
  unfold remove. destruct (entries s !! k) eqn:E; cbn.
  - by rewrite maybe_rebuild_entries.
  - by rewrite delete_id.
Qed.

Lemma remove_snd s k : (remove s k).2 = entries s !! k.
Proof. unfold remove. by destruct (entries s !! k). Qed.

(** [remove] restores the invariant even when the candidate of the entry it
    removes has been popped already. *)
Lemma remove_popped_wf s k e :
  entries s !! k = Some e → size_bytes s = total_size (entries s) →
  covers lru_priority (delete k (entries s)) (lru_heap s) →
  covers fifo_priority (delete k (entries s)) (fifo_heap s) →
  covers ttl_priority (delete k (entries s)) (ttl_heap s) →
  store_wf (remove s k).1.
Proof.
  intros Hk Hs ???. unfold remove. rewrite Hk. apply maybe_rebuild_wf. split; cbn; try done.
  rewrite Hs, (total_size_delete _ _ _ Hk). lia.
Qed.

Lemma remove_wf s k : store_wf s → store_wf (remove s k).1.
Proof.
  intros Hw. destruct (entries s !! k) as [e|] eqn:E; [|by rewrite remove_None].
  destruct Hw as [[] _]. eapply remove_popped_wf; try done;
    (eapply covers_subset; [apply delete_subseteq|done]).
Qed.

Lemma remove_where_entries s p :
  entries (remove_where s p).1 = filter (λ kv, p kv.2 = false) (entries s).
Proof.
  unfold remove_where. cbn. destruct (_ <? _)%N; [by rewrite maybe_rebuild_entries|done].
Qed.

Lemma filter_size (p : CacheEntry → bool) (es : gmap str CacheEntry) :
  size es = size (filter (λ kv, p kv.2 = true) es) + size (filter (λ kv, p kv.2 = false) es).
Proof.
  induction es as [|k e es Hk IH] using map_ind.
  { by rewrite !map_filter_empty, map_size_empty. }
  assert (∀ b, filter (λ kv, p kv.2 = b) es !! k = None) as Hn.
  { intros b. apply map_lookup_filter_None. by left. }
  rewrite map_size_insert_None by done. destruct (p e) eqn:Hp.
  - rewrite (map_filter_insert_True (λ kv, p kv.2 = true)) by done.
    rewrite (map_filter_insert_False (λ kv, p kv.2 = false)) by (cbn; congruence).
    rewrite (delete_id es k Hk), map_size_insert_None by done. lia.
  - rewrite (map_filter_insert_True (λ kv, p kv.2 = false)) by done.
    rewrite (map_filter_insert_False (λ kv, p kv.2 = true)) by (cbn; congruence).
    rewrite (delete_id es k Hk), (map_size_insert_None k e (filter _ _)) by done. lia.
Qed.

(** It returns how many entries it removed. *)
Lemma remove_where_count s p :
  (remove_where s p).2 = N.of_nat (size (filter (λ kv, p kv.2 = true) (entries s))).
Proof.
  unfold remove_where, len. cbn. pose proof (filter_size p (entries s)). lia.
Qed.

Lemma remove_where_wf s p : store_wf s → store_wf (remove_where s p).1.
Proof.
  intros [Hi Ht]. unfold remove_where. cbn.
  assert (indexed (set_contents s (filter (λ kv, p kv.2 = false) (entries s)) (lru_heap s)
    (fifo_heap s) (ttl_heap s)
    (size_bytes s - total_size (filter (λ kv, p kv.2 = true) (entries s))))) as Hi'.
  { destruct Hi as [Hs Hl Hf Htt]. split; cbn.
    - rewrite Hs, (total_size_filter p). lia.
    - eapply covers_subset; [apply map_filter_subseteq|done].
    - eapply covers_subset; [apply map_filter_subseteq|done].
    - eapply covers_subset; [apply map_filter_subseteq|done]. }
  destruct (_ <? _)%N eqn:E; [by apply maybe_rebuild_wf|].
  split; [done|]. pose proof (filter_size p (entries s)) as Hsz. unfold len in E. cbn in E.
  intros n Hn. cbn in *. destruct (Ht n Hn) as [Hb He]. split; [lia|].
  intros He'. apply He. apply map_size_empty_inv. rewrite He', map_size_empty in *. lia.
Qed.

Lemma clear_wf s : store_wf (clear s).1.
Proof.
  split.
  - split; cbn; [done|intros ?? Hk; by rewrite lookup_empty in Hk..].
  - intros n Hn. cbn in *. lia.
Qed.

Lemma touch_wf s k o : store_wf s → store_wf (touch s k o).1.
Proof.
  intros Hw. unfold touch. destruct (entries s !! k) as [e|] eqn:E; [|done].
  destruct Hw as [[Hs Hl Hf Ht] _]. apply maybe_rebuild_wf. split; cbn.
  - rewrite Hs, (total_size_delete _ _ _ E).
    rewrite (total_size_delete (<[k := _]> (entries s)) k (set_access_order e o))
      by apply lookup_insert_eq.
    by rewrite delete_insert_eq.
  - apply (covers_insert lru_priority _ _ k (set_access_order e o) Hl).
  - by eapply covers_update.
  - by eapply covers_update.
Qed.

(** ** Eviction *)

(** The order a strategy evicts in: by priority, then by key. *)
Definition evicted_first (strategy : CacheStrategy) (k : str) (e : CacheEntry)
    (k' : str) (e' : CacheEntry) : Prop :=
  match strategy with
  | LRU => leb (lru_priority e, k) (lru_priority e', k') = true
  | FIFO => leb (fifo_priority e, k) (fifo_priority e', k') = true
  | TTL => leb (ttl_priority e, k) (ttl_priority e', k') = true
  end.

(** [e] under [k] is what [strategy] evicts from [es]. *)
Definition is_victim (strategy : CacheStrategy) (es : gmap str CacheEntry)
    (k : str) (e : CacheEntry) : Prop :=
  es !! k = Some e ∧ ∀ k' e', es !! k' = Some e' → evicted_first strategy k e k' e'.

Local Ltac solve_evict prio Hc :=
  pose proof (pop_current_spec prio _ _ Hc) as Hp;
  destruct (pop_current _ _ _) as [rest [k|]]; [|done];
  destruct Hp as (_ & (e & He & Hm) & ?); exists k, e; rewrite remove_snd, remove_entries;
  split_and!; try done; eapply remove_popped_wf; try done;
  (eapply covers_subset; [apply delete_subseteq|done]).

Lemma evict_spec s strategy :
  store_wf s → entries s ≠ ∅ →
  ∃ k e, is_victim strategy (entries s) k e ∧
    (evict s strategy).2 = Some e ∧
    entries (evict s strategy).1 = delete k (entries s) ∧
    store_wf (evict s strategy).1.
Proof.
  intros [[Hs Hl Hf Ht] _] Hne. unfold evict. destruct strategy.
  - solve_evict lru_priority Hl.
  - solve_evict fifo_priority Hf.
  - solve_evict ttl_priority Ht.
Qed.

(** An empty store has nothing to evict. *)
Lemma evict_empty s strategy :
  store_wf s → entries s = ∅ →
  (evict s strategy).2 = None ∧ (evict s strategy).1 = s.
Proof.
  intros [_ Ht] He.
  assert (lru_heap s = []) as El
    by (apply nil_length_inv; apply (Ht _ (or_introl eq_refl)); done).
  assert (fifo_heap s = []) as Ef
    by (apply nil_length_inv; apply (Ht _ (or_intror (or_introl eq_refl))); done).
  assert (ttl_heap s = []) as Et
    by (apply nil_length_inv; apply (Ht _ (or_intror (or_intror eq_refl))); done).
  unfold evict. destruct s; cbn in *; subst. destruct strategy; done.
Qed.

Lemma evict_wf s strategy : store_wf s → store_wf (evict s strategy).1.
Proof.
  intros Hw. destruct (decide (entries s = ∅)) as [He|Hne].
  - by destruct (evict_empty s strategy Hw He) as [_ ->].
  - by destruct (evict_spec s strategy Hw Hne) as (? & ? & ? & ? & ? & ?).
Qed.

(** ** Sequences of operations *)

Inductive StoreOp :=
  | OpInsert (key : str) (e : CacheEntry)
  | OpRemove (key : str)
  | OpRemoveWhere (predicate : CacheEntry → bool)
  | OpClear
  | OpNoteInvalidated (table : str)
  | OpNoteDatabaseInvalidated (db : str)
  | OpTouch (key : str) (order : N)
  | OpEvict (strategy : CacheStrategy).

Definition store_step (s : CacheStore) (op : StoreOp) : CacheStore :=
  match op with
  | OpInsert k e => insert s k e
  | OpRemove k => (remove s k).1
  | OpRemoveWhere p => (remove_where s p).1
  | OpClear => (clear s).1
  | OpNoteInvalidated t => note_invalidated s t
  | OpNoteDatabaseInvalidated d => note_database_invalidated s d
  | OpTouch k o => (touch s k o).1
  | OpEvict st => (evict s st).1
  end.

Definition store_run : CacheStore → list StoreOp → CacheStore := foldl store_step.

Lemma store_step_wf s op : store_wf s → store_wf (store_step s op).
Proof.
  destruct op; cbn [store_step];
    eauto using insert_wf, remove_wf, remove_where_wf, clear_wf, touch_wf, evict_wf;
    intros; by apply set_history_wf.
Qed.

Lemma store_run_wf s ops : store_wf s → store_wf (store_run s ops).
Proof.
  revert s. induction ops as [|op ops IH]; intros s Hw; [done|].
  by apply IH, store_step_wf.
Qed.

(** whatever is done to a fresh store, its byte count is its entries'
    serialized size (so no subtraction underflows), its three indexes stay within
    four candidates per entry and 64 more, and an eviction under any strategy
    takes the entry with the least priority and nothing else, failing only when
    the store is empty. *)
Theorem eviction_takes_the_least_entry ops strategy :
  let s := store_run CacheStore_default ops in
  size_bytes s = total_size (entries s)
  ∧ trimmed s
  ∧ if decide (entries s = ∅)
    then evict s strategy = (s, None)
    else ∃ k e, is_victim strategy (entries s) k e
           ∧ (evict s strategy).2 = Some e
           ∧ entries (evict s strategy).1 = delete k (entries s)
           ∧ size_bytes s = (size_bytes (evict s strategy).1 + data_len e)%N.
Proof.
  intros s. pose proof (store_run_wf _ ops default_wf : store_wf s) as Hw.
  split_and!; [apply Hw|apply Hw|]. destruct (decide _) as [He|Hne].
  - destruct (evict_empty s strategy Hw He) as [H1 H2]. by rewrite (surjective_pairing (evict _ _)), H1, H2.
  - destruct (evict_spec s strategy Hw Hne) as (k & e & Hv & Hs & He & Hw').
    exists k, e. split_and!; try done.
    rewrite (idx_size _ (proj1 Hw)), (idx_size _ (proj1 Hw')), He.
    rewrite (total_size_delete _ k e (proj1 Hv)). lia.
Qed.

(** ** The invalidation history *)

(** The history fields, which only the invalidations change. *)
Definition history (s : CacheStore) :=
  (invalidation_seq s, invalidated_at s, invalidated_databases s,
   unscoped_invalidated_at s, cleared_at s).

Lemma maybe_rebuild_history s : history (maybe_rebuild_indexes s) = history s.
Proof. unfold maybe_rebuild_indexes. by destruct (_ || _). Qed.

Lemma remove_history s k : history (remove s k).1 = history s.
Proof.
  unfold remove. destruct (entries s !! k); [|done]. cbn. by rewrite maybe_rebuild_history.
Qed.

Lemma remove_where_history s p : history (remove_where s p).1 = history s.
Proof.
  unfold remove_where. cbn. destruct (_ <? _)%N; [by rewrite maybe_rebuild_history|done].
Qed.

Lemma insert_history s k e : history (insert s k e) = history s.
Proof. unfold insert. by rewrite maybe_rebuild_history. Qed.

Lemma touch_history s k o : history (touch s k o).1 = history s.
Proof.
  unfold touch. destruct (entries s !! k); [|done]. cbn. by rewrite maybe_rebuild_history.
Qed.

Lemma evict_history s st : history (evict s st).1 = history s.
Proof.
  unfold evict. destruct st; destruct (pop_current _ _ _) as [? [?|]];
    by rewrite ?remove_history.
Qed.

(** [op] is an invalidation of what [point] reads. *)
Definition hits (point : FillPoint) (tabs : gset str) (op : StoreOp) : bool :=
  match op with
  | OpClear => true
  | OpNoteInvalidated t => bool_decide (t ∈ tabs)
  | OpNoteDatabaseInvalidated d =>
      match fill_database point with Some d' => bool_decide (d = d') | None => true end
  | _ => false
  end.

(** [op] discards recorded names, behind a barrier for every read in flight. *)
Definition discards (s : CacheStore) (op : StoreOp) : bool :=
  match op with
  | OpNoteInvalidated t => compacts (invalidated_at s) t
  | OpNoteDatabaseInvalidated d => compacts (invalidated_databases s) d
  | _ => false
  end.

Fixpoint discarded (s : CacheStore) (ops : list StoreOp) : bool :=
  match ops with
  | [] => false
  | op :: ops => discards s op || discarded (store_step s op) ops
  end.

(** No recorded point lies ahead of the sequence. *)
Record history_wf (s : CacheStore) : Prop := {
  hist_tabs t n : invalidated_at s !! t = Some n → (n ≤ invalidation_seq s)%N;
  hist_dbs d n : invalidated_databases s !! d = Some n → (n ≤ invalidation_seq s)%N;
  hist_unscoped : (unscoped_invalidated_at s ≤ invalidation_seq s)%N;
  hist_cleared : (cleared_at s ≤ invalidation_seq s)%N;
}.

Lemma history_eq_wf s s' : history s' = history s → history_wf s → history_wf s'.
Proof. intros [= E1 E2 E3 E4 E5] []. split; rewrite ?E1, ?E2, ?E3, ?E4, ?E5; done. Qed.

Lemma bounded_insert (m : gmap str N) (full : bool) k n x v :
  (∀ x v, m !! x = Some v → (v ≤ n)%N) →
  <[k := (n + 1)%N]> (if full then ∅ else m) !! x = Some v → (v ≤ n + 1)%N.
Proof.
  intros Hm [[_ <-]|[_ Hv]]%lookup_insert_Some; [lia|].
  destruct full; [by rewrite lookup_empty in Hv|]. apply Hm in Hv. lia.
Qed.

Lemma history_step_wf s op : history_wf s → history_wf (store_step s op).
Proof.
  intros Hw. destruct op; cbn [store_step];
    try (eapply history_eq_wf; [|exact Hw]; auto using insert_history, remove_history,
      remove_where_history, touch_history, evict_history; fail).
  all: destruct Hw as [Ht Hd Hu Hc]; split; cbn; try lia.
  - intros ?? Hx. by rewrite lookup_empty in Hx.
  - intros ?? Hx. by rewrite lookup_empty in Hx.
  - intros ??. by eapply bounded_insert.
  - intros ?? Hx. apply Hd in Hx. lia.
  - destruct (compacts _ _); lia.
  - intros ?? Hx. apply Ht in Hx. lia.
  - intros ??. by eapply bounded_insert.
  - destruct (compacts _ _); lia.
Qed.

Lemma invalidated_since_history s s' point tabs :
  history s' = history s → invalidated_since s' point tabs = invalidated_since s point tabs.
Proof. intros [= E1 E2 E3 E4 E5]. unfold invalidated_since. by rewrite E2, E3, E4, E5. Qed.

Lemma existsb_insert (m : gmap str N) (tabs : gset str) t seq n :
  (seq < n)%N →
  existsb (λ x, after_seq seq (<[t := n]> m !! x)) (elements tabs)
  = existsb (λ x, after_seq seq (m !! x)) (elements tabs) || bool_decide (t ∈ tabs).
Proof.
  intros Hn. rewrite (bool_decide_ext _ (t ∈ elements tabs)) by (symmetry; apply elem_of_elements).
  induction (elements tabs) as [|x l IH]; [done|]. cbn [existsb]. rewrite IH.
  destruct (decide (x = t)) as [->|Hx].
  - rewrite lookup_insert_eq. cbn [after_seq].
    rewrite (proj2 (N.ltb_lt _ _) Hn), (bool_decide_true (t ∈ t :: l)) by by left.
    by rewrite !orb_true_r.
  - rewrite lookup_insert_ne by done.
    rewrite (bool_decide_ext (t ∈ x :: l) (t ∈ l)) by (rewrite elem_of_cons; naive_solver).
    by rewrite orb_assoc.
Qed.

(** One operation makes a fill point stale exactly when it hits what the point
    reads, or discards history. *)
Lemma invalidated_since_step s op point tabs :
  (sequence point ≤ invalidation_seq s)%N →
  invalidated_since (store_step s op) point tabs
  = invalidated_since s point tabs || (hits point tabs op || discards s op).
Proof.
  intros Hseq.
  assert (sequence point <? invalidation_seq s + 1 = true)%N as Hlt by lia.
  destruct op; cbn [store_step hits discards];
    try (rewrite orb_false_r; apply invalidated_since_history; auto using insert_history,
      remove_history, remove_where_history, touch_history, evict_history; fail).
  - unfold invalidated_since. cbn. rewrite Hlt. cbn. by rewrite orb_true_r.
  - unfold invalidated_since. cbn [note_invalidated set_history cleared_at invalidated_at
      invalidated_databases unscoped_invalidated_at]. destruct (compacts _ _); cbn match.
    + rewrite Hlt. cbn. by rewrite !orb_true_r.
    + rewrite existsb_insert by lia. rewrite orb_false_r. by rewrite !orb_assoc.
  - unfold invalidated_since. cbn [note_database_invalidated set_history cleared_at
      invalidated_at invalidated_databases unscoped_invalidated_at].
    destruct (compacts _ _); cbn match.
    + rewrite Hlt. cbn. by rewrite !orb_true_r.
    + rewrite orb_false_r. destruct (fill_database point) as [d|].
      * destruct (decide (db = d)) as [->|Hne].
        -- rewrite lookup_insert_eq. cbn [after_seq]. rewrite Hlt, bool_decide_true by done.
           by rewrite !orb_true_r.
        -- rewrite lookup_insert_ne, bool_decide_false by done. by rewrite orb_false_r.
      * rewrite Hlt. by rewrite !orb_true_r.
Qed.

Lemma history_seq s s' : history s' = history s → invalidation_seq s' = invalidation_seq s.
Proof. by intros [= ? _ _ _ _]. Qed.

Lemma store_step_seq s op : (invalidation_seq s ≤ invalidation_seq (store_step s op))%N.
Proof.
  destruct op; cbn [store_step];
    try (apply N.eq_le_incl; symmetry; apply history_seq; auto using insert_history, remove_history,
      remove_where_history, touch_history, evict_history; fail).
  all: cbn -[N.add N.le]; lia.
Qed.

Lemma invalidated_since_run s ops point tabs :
  (sequence point ≤ invalidation_seq s)%N →
  invalidated_since (store_run s ops) point tabs
  = invalidated_since s point tabs || (existsb (hits point tabs) ops || discarded s ops).
Proof.
  revert s. induction ops as [|op ops IH]; intros s Hs; cbn [existsb discarded].
  { by rewrite orb_false_r. }
  change (store_run s (op :: ops)) with (store_run (store_step s op) ops).
  rewrite IH by (pose proof (store_step_seq s op); lia).
  rewrite invalidated_since_step by done.
  destruct (invalidated_since s point tabs), (hits point tabs op), (discards s op); cbn;
    rewrite ?orb_true_r; done.
Qed.

Lemma history_run_wf s ops : history_wf s → history_wf (store_run s ops).
Proof.
  revert s. induction ops as [|op ops IH]; intros s Hw; [done|].
  by apply IH, history_step_wf.
Qed.

Lemma history_default_wf : history_wf CacheStore_default.
Proof. split; cbn; try lia; intros ?? Hx; by rewrite lookup_empty in Hx. Qed.

Lemma after_seq_false seq (o : option N) :
  (∀ n, o = Some n → (n ≤ seq)%N) → after_seq seq o = false.
Proof. destruct o as [n|]; cbn; intros Hn; [|done]. specialize (Hn n eq_refl). lia. Qed.

(** A fill point taken now is not stale. *)
Lemma invalidated_since_fresh s db tabs :
  history_wf s →
  invalidated_since s {| sequence := invalidation_seq s; fill_database := db |} tabs = false.
Proof.
  intros [Ht Hd Hu Hc]. unfold invalidated_since. cbn [sequence fill_database].
  rewrite !orb_false_iff. split_and!.
  - lia.
  - destruct db as [d|]; [apply after_seq_false; naive_solver|lia].
  - apply not_true_iff_false. rewrite existsb_exists. intros (t & _ & Hx).
    rewrite after_seq_false in Hx; naive_solver.
Qed.

(** a read may fill the cache exactly when nothing it read was invalidated
    since it started. For a fill point taken after any operations [before], and
    any operations [after], the point is stale if and only if one of [after]
    cleared the cache, invalidated one of the read's tables or its database (any
    database, for a read that has none), or discarded the bounded history of
    names, which must be taken for an invalidation. *)
Theorem stale_exactly_when_invalidated before after db tabs :
  let s := store_run CacheStore_default before in
  let point := {| sequence := invalidation_seq s; fill_database := db |} in
  invalidated_since (store_run s after) point tabs
  = existsb (hits point tabs) after || discarded s after.
Proof.
  intros s point. rewrite invalidated_since_run by (cbn; lia).
  unfold point. rewrite invalidated_since_fresh; [done|].
  apply history_run_wf, history_default_wf.
Qed.
