(* ===== verification/JsonLoss.v ===== *)
(** * What a value's JSON loses

    src/src/internal/json_loss.rs: the [Probe] serializer, which walks a value
    and notes what [serde_json] would write as a [null] of a value that is not
    one. A value is given by the calls its [Serialize] implementation makes, the
    serde data model; an implementation's own failure is [SerError].

    What [serde_json] writes as [null] is not under src/: it is the parameter
    [writes_null] of class [SerdeJson], with its documented equations. *)

From S2P Require Import Prelude.

(** An [f32] or [f64]. *)
Inductive Float := Finite (bits : N) | NaN | Infinite (negative : bool).

Definition is_finite (f : Float) : bool :=
  match f with Finite _ => true | _ => false end.

(** The serde data model: one constructor per method of [ser::Serializer]
    ([SerInt] stands for the ten integer methods). *)
Inductive Ser :=
  | SerBool (b : bool)
  | SerInt (z : Z)
  | SerChar (c : N)
  | SerStr (s : str)
  | SerBytes (bytes : list N)
  | SerF32 (f : Float)
  | SerF64 (f : Float)
  | SerNone
  | SerSome (v : Ser)
  | SerUnit
  | SerUnitStruct (name : str)
  | SerUnitVariant (name : str) (index : N) (variant : str)
  | SerNewtypeStruct (name : str) (v : Ser)
  | SerNewtypeVariant (name : str) (index : N) (variant : str) (v : Ser)
  | SerSeq (vs : list Ser)
  | SerTuple (vs : list Ser)
  | SerTupleStruct (name : str) (vs : list Ser)
  | SerTupleVariant (name : str) (index : N) (variant : str) (vs : list Ser)
  | SerMap (entries : list (Ser * Ser))
  | SerStruct (name : str) (fields : list (str * Ser))
  | SerStructVariant (name : str) (index : N) (variant : str) (fields : list (str * Ser))
  | SerError (message : str).

Record JsonLoss := { non_finite : bool; none : bool; null_in_some : bool }.

Definition JsonLoss_default : JsonLoss :=
  {| non_finite := false; none := false; null_in_some := false |}.

Definition merge (x y : JsonLoss) : JsonLoss :=
  {| non_finite := non_finite x || non_finite y;
     none := none x || none y;
     null_in_some := null_in_some x || null_in_some y |}.

Record Probe := { top : bool; in_some : bool }.

Definition MEMBER : Probe := {| top := false; in_some := false |}.

(** [Probe::null]. *)
Definition probe_null (p : Probe) : JsonLoss :=
  {| non_finite := false; none := false; null_in_some := in_some p |}.

(** [Probe::float]. *)
Definition probe_float (f : Float) : JsonLoss :=
  {| non_finite := negb (is_finite f); none := false; null_in_some := false |}.

(** [Members]: each [visit] serializes one member and merges its loss, and [end]
    returns the sum; a sequence visits its elements in order. *)
Section Members.
Context (visit : Ser → result JsonLoss str).

Definition visit_elements : JsonLoss → list Ser → result JsonLoss str :=
  fix go acc vs :=
    match vs with
    | [] => Ok acc
    | v :: vs =>
        match visit v with
        | Err e => Err e
        | Ok l => go (merge acc l) vs
        end
    end.

(** [SerializeStruct], [SerializeStructVariant]: the fields' values. *)
Definition visit_fields : JsonLoss → list (str * Ser) → result JsonLoss str :=
  fix go acc fs :=
    match fs with
    | [] => Ok acc
    | (_, v) :: fs =>
        match visit v with
        | Err e => Err e
        | Ok l => go (merge acc l) fs
        end
    end.

(** [SerializeMap]: each entry's key, then its value. *)
Definition visit_entries : JsonLoss → list (Ser * Ser) → result JsonLoss str :=
  fix go acc es :=
    match es with
    | [] => Ok acc
    | (k, v) :: es =>
        match visit k with
        | Err e => Err e
        | Ok lk =>
            match visit v with
            | Err e => Err e
            | Ok lv => go (merge (merge acc lk) lv) es
            end
        end
    end.
End Members.

(** [value.serialize(probe)]. *)
Fixpoint serialize (p : Probe) (v : Ser) : result JsonLoss str :=
  match v with
  | SerBool _ | SerInt _ | SerChar _ | SerStr _ | SerBytes _ => Ok JsonLoss_default
  | SerF32 f | SerF64 f => Ok (probe_float f)
  | SerNone =>
      Ok {| non_finite := non_finite (probe_null p); none := top p;
            null_in_some := null_in_some (probe_null p) |}
  | SerSome v => serialize {| top := top p; in_some := true |} v
  | SerUnit | SerUnitStruct _ => Ok (probe_null p)
  | SerUnitVariant _ _ _ => Ok JsonLoss_default
  | SerNewtypeStruct _ v => serialize p v
  | SerNewtypeVariant _ _ _ v => serialize {| top := top p; in_some := false |} v
  | SerSeq vs | SerTuple vs | SerTupleStruct _ vs | SerTupleVariant _ _ _ vs =>
      visit_elements (serialize MEMBER) JsonLoss_default vs
  | SerMap es => visit_entries (serialize MEMBER) JsonLoss_default es
  | SerStruct _ fs | SerStructVariant _ _ _ fs =>
      visit_fields (serialize MEMBER) JsonLoss_default fs
  | SerError e => Err e
  end.

Definition json_loss (v : Ser) : result JsonLoss str :=
  serialize {| top := true; in_some := false |} v.

(** ** What is inside a value *)

(** The values a value's own serialization serializes. *)
Definition members (v : Ser) : list Ser :=
  match v with
  | SerSome v | SerNewtypeStruct _ v | SerNewtypeVariant _ _ _ v => [v]
  | SerSeq vs | SerTuple vs | SerTupleStruct _ vs | SerTupleVariant _ _ _ vs => vs
  | SerMap es => es ≫= (λ e, [e.1; e.2])
  | SerStruct _ fs | SerStructVariant _ _ _ fs => fs.*2
  | _ => []
  end.

Inductive inside : Ser → Ser → Prop :=
  | inside_self v : inside v v
  | inside_member v m w : m ∈ members v → inside m w → inside v w.

Section Ser_ind_members.
Context (P : Ser → Prop) (step : ∀ v, (∀ m, m ∈ members v → P m) → P v).

Fixpoint Ser_members_ind (v : Ser) : P v.
Proof.
  apply step. intros m Hm. destruct v; cbn in Hm;
    try (apply elem_of_nil in Hm; destruct Hm);
    try (apply list_elem_of_singleton in Hm; subst; apply Ser_members_ind).
  1-4: induction vs as [|x vs IH]; [apply elem_of_nil in Hm; destruct Hm|];
    apply elem_of_cons in Hm as [->|Hm]; [apply Ser_members_ind|by apply IH].
  - induction entries as [|[k x] es IH]; [apply elem_of_nil in Hm; destruct Hm|].
    cbn in Hm. apply elem_of_cons in Hm as [->|Hm]; [apply Ser_members_ind|].
    apply elem_of_cons in Hm as [->|Hm]; [apply Ser_members_ind|by apply IH].
  - induction fields as [|[k x] fs IH]; [apply elem_of_nil in Hm; destruct Hm|].
    cbn in Hm. apply elem_of_cons in Hm as [->|Hm]; [apply Ser_members_ind|by apply IH].
  - induction fields as [|[k x] fs IH]; [apply elem_of_nil in Hm; destruct Hm|].
    cbn in Hm. apply elem_of_cons in Hm as [->|Hm]; [apply Ser_members_ind|by apply IH].
Qed.
End Ser_ind_members.

Lemma inside_iff v w : inside v w ↔ v = w ∨ ∃ m, m ∈ members v ∧ inside m w.
Proof.
  split; [|intros [->|(m & ? & ?)]; econstructor; eauto]. inversion 1; subst; eauto.
Qed.

(** Every compound value visits its members in order. *)
Lemma visit_fields_elements visit acc fs :
  visit_fields visit acc fs = visit_elements visit acc fs.*2.
Proof.
  revert acc. induction fs as [|[k v] fs IH]; intros acc; [done|]. cbn.
  destruct (visit v); [apply IH|done].
Qed.

Lemma visit_entries_elements visit acc es :
  visit_entries visit acc es = visit_elements visit acc (es ≫= (λ e, [e.1; e.2])).
Proof.
  revert acc. induction es as [|[k v] es IH]; intros acc; [done|]. cbn.
  destruct (visit k); [|done]. cbn. destruct (visit v); [apply IH|done].
Qed.

Lemma visit_elements_spec visit acc vs :
  match visit_elements visit acc vs with
  | Ok l => ∃ ls, Forall2 (λ v x, visit v = Ok x) vs ls ∧ l = foldl merge acc ls
  | Err e => ∃ v, v ∈ vs ∧ visit v = Err e
  end.
Proof.
  revert acc. induction vs as [|v vs IH]; intros acc; cbn.
  { exists []. by split; [constructor|]. }
  destruct (visit v) as [x|e] eqn:E; [|exists v; split; [by left|done]].
  specialize (IH (merge acc x)).
  destruct (visit_elements visit (merge acc x) vs) as [l|e].
  - destruct IH as (ls & ? & ->). exists (x :: ls). split; [by constructor|done].
  - destruct IH as (w & ? & ?). exists w. split; [by right|done].
Qed.

(** A component of a merged loss is set when it is set in one of the parts. *)
Lemma foldl_merge (f : JsonLoss → bool) acc ls :
  (∀ x y, f (merge x y) = f x || f y) →
  f (foldl merge acc ls) = true ↔ f acc = true ∨ ∃ l, l ∈ ls ∧ f l = true.
Proof.
  intros Hf. revert acc. induction ls as [|l ls IH]; intros acc; cbn.
  { split; [by left|intros [?|(? & Hin & _)]; [done|by apply elem_of_nil in Hin]]. }
  rewrite IH, Hf, orb_true_iff. setoid_rewrite elem_of_cons. naive_solver.
Qed.

(** [serde_json] writes [null] for these, floats aside. *)
Fixpoint nullish (v : Ser) : bool :=
  match v with
  | SerNone | SerUnit | SerUnitStruct _ => true
  | SerSome v | SerNewtypeStruct _ v => nullish v
  | _ => false
  end.

(** An [Option::None], through [Some]s and newtypes. *)
Fixpoint is_none (v : Ser) : bool :=
  match v with
  | SerNone => true
  | SerSome v | SerNewtypeStruct _ v | SerNewtypeVariant _ _ _ v => is_none v
  | _ => false
  end.

(** A float that JSON has no number for. *)
Definition is_non_finite (v : Ser) : bool :=
  match v with SerF32 f | SerF64 f => negb (is_finite f) | _ => false end.

(** What a probe reports of a value. *)
Definition reports (p : Probe) (v : Ser) (r : result JsonLoss str) : Prop :=
  match r with
  | Ok l =>
      (non_finite l = true ↔ ∃ w, inside v w ∧ is_non_finite w = true)
      ∧ (null_in_some l = true ↔
           (in_some p = true ∧ nullish v = true)
           ∨ ∃ w, inside v (SerSome w) ∧ nullish w = true)
      ∧ (none l = true ↔ top p = true ∧ is_none v = true)
      ∧ (∀ e, ¬ inside v (SerError e))
  | Err e => inside v (SerError e)
  end.

(** A value without members is inside itself only. *)
Lemma inside_leaf v w : members v = [] → inside v w → w = v.
Proof.
  intros Hv [->|(m & Hm & _)]%inside_iff; [done|].
  rewrite Hv in Hm. by apply elem_of_nil in Hm.
Qed.

Lemma inside_only v m w :
  members v = [m] → inside v w ↔ w = v ∨ inside m w.
Proof.
  intros Hv. rewrite inside_iff, Hv. setoid_rewrite list_elem_of_singleton. naive_solver.
Qed.

Lemma reports_leaf p v l :
  members v = [] → (∀ e, v ≠ SerError e) →
  non_finite l = is_non_finite v →
  null_in_some l = in_some p && nullish v →
  none l = top p && is_none v →
  reports p v (Ok l).
Proof.
  intros Hm He H1 H2 H3. cbn. rewrite H1, H2, H3, !andb_true_iff. split_and!.
  - split; [eexists; split; [constructor|done]|]. intros (w & Hw & ?).
    by apply inside_leaf in Hw as ->.
  - split; [by left|]. intros [?|(w & Hw & ?)]; [done|].
    apply inside_leaf in Hw as <-; [|done]. done.
  - done.
  - intros e Hw. apply inside_leaf in Hw; [|done]. by apply (He e).
Qed.

Lemma Forall2_elem {A B} (R : A → B → Prop) l k :
  Forall2 R l k →
  (∀ x, x ∈ l → ∃ y, y ∈ k ∧ R x y) ∧ (∀ y, y ∈ k → ∃ x, x ∈ l ∧ R x y).
Proof.
  induction 1 as [|x y l k Hxy _ [IH1 IH2]].
  { split; intros ? H; by apply elem_of_nil in H. }
  split; intros z [->|Hz]%elem_of_cons.
  - exists y. split; [by left|done].
  - destruct (IH1 _ Hz) as (? & ? & ?). eexists; split; [by right|done].
  - exists x. split; [by left|done].
  - destruct (IH2 _ Hz) as (? & ? & ?). eexists; split; [by right|done].
Qed.

Lemma reports_compound p v :
  (∀ m, m ∈ members v → reports MEMBER m (serialize MEMBER m)) →
  is_non_finite v = false → nullish v = false → is_none v = false →
  (∀ w, v ≠ SerSome w) → (∀ e, v ≠ SerError e) →
  reports p v (visit_elements (serialize MEMBER) JsonLoss_default (members v)).
Proof.
  intros IH H1 H2 H3 H4 H5.
  pose proof (visit_elements_spec (serialize MEMBER) JsonLoss_default (members v)) as Hs.
  destruct (visit_elements _ _ _) as [l|e].
  2: { destruct Hs as (m & Hm & He). specialize (IH m Hm). rewrite He in IH.
       by eapply inside_member. }
  destruct Hs as (ls & Hls & ->). apply Forall2_elem in Hls as [Hlr Hrl].
  assert (∀ m, m ∈ members v → ∃ l, l ∈ ls ∧ reports MEMBER m (Ok l)) as Hl.
  { intros m Hm. destruct (Hlr m Hm) as (l & ? & E). exists l. split; [done|].
    rewrite <- E. by apply IH. }
  assert (∀ l, l ∈ ls → ∃ m, m ∈ members v ∧ reports MEMBER m (Ok l)) as Hr.
  { intros l Hm. destruct (Hrl l Hm) as (m & ? & E). exists m. split; [done|].
    rewrite <- E. by apply IH. }
  cbn. rewrite !(foldl_merge) by done. rewrite H2, H3. setoid_rewrite inside_iff.
  split_and!.
  - split.
    + intros [?|(l & (m & ? & Hm & _)%Hr & Hn)]; [done|]. apply Hm in Hn as (w & ? & ?).
      exists w. split; [right; by exists m|done].
    + intros (w & [->|(m & (l & ? & Hm & _)%Hl & ?)] & ?); [congruence|].
      right. exists l. split; [done|]. apply Hm. eauto.
  - split.
    + intros [?|(l & (m & ? & _ & Hm & _)%Hr & Hn)]; [done|].
      apply Hm in Hn as [[? _]|(w & ? & ?)]; [done|].
      right. exists w. split; [right; by exists m|done].
    + intros [[_ ?]|(w & [->|(m & (l & ? & _ & Hm & _)%Hl & ?)] & ?)]; [done|by destruct (H4 w)|].
      right. exists l. split; [done|]. apply Hm. eauto.
  - split; [|naive_solver]. intros [?|(l & (m & ? & _ & _ & Hm & _)%Hr & Hn)]; [done|].
    by apply Hm in Hn as [? _].
  - intros e [?|(m & (l & ? & _ & _ & _ & Hm)%Hl & ?)]; [by destruct (H5 e)|]. by apply (Hm e).
Qed.

(** A [Some] or a newtype is what its content is, and more. *)
Lemma reports_wrapper p p' v m r :
  members v = [m] → is_non_finite v = false → (∀ e, v ≠ SerError e) →
  top p' = top p → is_none v = is_none m →
  (∀ (x : bool), in_some p' && nullish m || x
     = in_some p && nullish v || match v with SerSome w => nullish w | _ => false end || x) →
  reports p' m r → reports p v r.
Proof.
  intros Hv H1 H2 Ht Hn Hs Hr. destruct r as [l|e]; cbn in *.
  2: { eapply inside_member; [rewrite Hv; by left|done]. }
  destruct Hr as (Hf & Hi & Hnn & He). setoid_rewrite (inside_only v m _ Hv). split_and!.
  - rewrite Hf. split; [naive_solver|]. intros (w & [->|?] & ?); [congruence|eauto].
  - rewrite Hi. specialize (Hs false). rewrite !orb_false_r in Hs.
    rewrite <- !andb_true_iff, Hs, orb_true_iff. split.
    + intros [[?|Hw]|(w & ? & ?)]; [by left|right|right; eauto].
      destruct v; try done. exists v. eauto.
    + intros [?|(w & [<-|?] & ?)]; [by left; left|by left; right|right; eauto].
  - rewrite Hnn, Ht, Hn. done.
  - intros e [<-|?]; [by destruct (H2 e)|by apply (He e)].
Qed.

Lemma serialize_reports v p : reports p v (serialize p v).
Proof.
  revert p. induction v as [v IH] using Ser_members_ind. intros p.
  destruct v; cbn [serialize];
    rewrite ?visit_fields_elements, ?visit_entries_elements;
    try (apply reports_leaf; cbn; rewrite ?andb_false_r, ?andb_true_r; done);
    try (match goal with |- reports p ?v _ => apply (reports_compound p v) end; eauto; done).
  - eapply reports_wrapper; [..|apply IH; by left]; try done. cbn.
    intros x. by destruct (in_some p), (nullish v).
  - eapply reports_wrapper; [..|apply IH; by left]; try done. cbn.
    intros x. by rewrite orb_false_r.
  - eapply reports_wrapper; [..|apply IH; by left]; try done. cbn.
    intros x. by rewrite andb_false_r.
  - apply inside_self.
Qed.

(** ** What [serde_json] writes *)

(** Which values [serde_json] writes as a bare [null], by its documentation: a
    [None], a unit, and a float that is not finite; a [Some] and a newtype
    struct are written as their content; everything else has a text of its own. *)
Class SerdeJson := {
  writes_null : Ser → bool;
  wn_none : writes_null SerNone = true;
  wn_unit : writes_null SerUnit = true;
  wn_unit_struct name : writes_null (SerUnitStruct name) = true;
  wn_f32 f : writes_null (SerF32 f) = negb (is_finite f);
  wn_f64 f : writes_null (SerF64 f) = negb (is_finite f);
  wn_some v : writes_null (SerSome v) = writes_null v;
  wn_newtype name v : writes_null (SerNewtypeStruct name v) = writes_null v;
  wn_other v :
    match v with
    | SerBool _ | SerInt _ | SerChar _ | SerStr _ | SerBytes _
    | SerUnitVariant _ _ _ | SerNewtypeVariant _ _ _ _
    | SerSeq _ | SerTuple _ | SerTupleStruct _ _ | SerTupleVariant _ _ _ _
    | SerMap _ | SerStruct _ _ | SerStructVariant _ _ _ _ => writes_null v = false
    | _ => True
    end;
}.

(** What is written as [null] is null-like, or a float that is not finite. *)
Lemma writes_null_cases `{SerdeJson} v :
  (∀ e, ¬ inside v (SerError e)) →
  writes_null v = true →
  nullish v = true ∨ ∃ w, inside v w ∧ is_non_finite w = true.
Proof.
  intros He Hw. induction v as [v IH] using Ser_members_ind.
  destruct v; try (by left);
    try (match type of Hw with writes_null ?x = true => pose proof (wn_other x) as Ho end;
         cbn in Ho; congruence).
  - rewrite wn_f32 in Hw. right. eexists. split; [apply inside_self|done].
  - rewrite wn_f64 in Hw. right. eexists. split; [apply inside_self|done].
  - rewrite wn_some in Hw. destruct (IH v) as [?|(w & ? & ?)]; [by left| |done|by left|].
    + intros e Hi. apply (He e). eapply inside_member; [by left|done].
    + right. exists w. split; [eapply inside_member; [by left|done]|done].
  - rewrite wn_newtype in Hw. destruct (IH v) as [?|(w & ? & ?)]; [by left| |done|by left|].
    + intros e Hi. apply (He e). eapply inside_member; [by left|done].
    + right. exists w. split; [eapply inside_member; [by left|done]|done].
  - destruct (He message). apply inside_self.
Qed.

Lemma nullish_writes_null `{SerdeJson} v : nullish v = true → writes_null v = true.
Proof.
  induction v as [v IH] using Ser_members_ind. intros Hn. destruct v; try done.
  - apply wn_none.
  - rewrite wn_some. apply IH; [by left|done].
  - apply wn_unit.
  - apply wn_unit_struct.
  - rewrite wn_newtype. apply IH; [by left|done].
Qed.

Lemma inside_trans u v w : inside u v → inside v w → inside u w.
Proof. induction 1; [done|]. intros. eapply inside_member; eauto. Qed.

(** An [Option::None] that is written as a bare [null]. *)
Fixpoint bare_none (v : Ser) : bool :=
  match v with
  | SerNone => true
  | SerSome v | SerNewtypeStruct _ v => bare_none v
  | _ => false
  end.

Lemma bare_none_iff `{SerdeJson} v : writes_null v = true → is_none v = bare_none v.
Proof.
  induction v as [v IH] using Ser_members_ind. intros Hn. destruct v; try done; cbn.
  - apply IH; [by left|]. by rewrite wn_some in Hn.
  - apply IH; [by left|]. by rewrite wn_newtype in Hn.
  - by rewrite (wn_other (SerNewtypeVariant name index variant v)) in Hn.
Qed.

(** [json_loss] reports a loss exactly when the value's JSON would not read
    back as the value: somewhere inside it is a float with no JSON number, or a
    [Some] whose content [serde_json] writes as [null], which reads back as
    [None]. Of a value written as a bare [null] it tells an [Option::None] from a
    JSON [null] document, and it fails only with an error the value's own
    [Serialize] reports. *)
Theorem json_loss_is_exact `{SerdeJson} v :
  match json_loss v with
  | Ok l =>
      (non_finite l || null_in_some l = true ↔
         ∃ w, inside v w ∧ (is_non_finite w = true
                            ∨ ∃ x, w = SerSome x ∧ writes_null x = true))
      ∧ (writes_null v = true → none l = bare_none v)
  | Err e => inside v (SerError e)
  end.
Proof.
  pose proof (serialize_reports v {| top := true; in_some := false |}) as Hr.
  unfold json_loss. destruct (serialize _ v) as [l|e]; [|done].
  destruct Hr as (Hf & Hi & Hn & He). split.
  - rewrite orb_true_iff, Hf, Hi. split.
    + intros [(w & ? & ?)|[[? _]|(w & ? & ?)]]; [by eauto|done|].
      eexists. split; [done|]. right. eauto using nullish_writes_null.
    + intros (w & Hw & [?|(x & -> & Hx)]); [by left; eauto|].
      assert (inside v x) as Hvx.
      { eapply inside_trans; [done|]. eapply inside_member; [by left|apply inside_self]. }
      destruct (writes_null_cases x) as [?|(y & ? & ?)]; [|done|by right; right; eauto|].
      * intros e ?. apply (He e). by eapply inside_trans.
      * left. exists y. split; [by eapply inside_trans|done].
  - intros Hw. rewrite <- bare_none_iff by done. apply eq_true_iff_eq. cbn in Hn. naive_solver.
Qed.

(** A [writes_null] with [serde_json]'s equations. *)
Fixpoint bare_null (v : Ser) : bool :=
  match v with
  | SerNone | SerUnit | SerUnitStruct _ => true
  | SerF32 f | SerF64 f => negb (is_finite f)
  | SerSome v | SerNewtypeStruct _ v => bare_null v
  | _ => false
  end.

Program Definition bare_null_json : SerdeJson := {| writes_null := bare_null |}.
Solve All Obligations with (intros; try done; destruct v; done).

(** A struct holding [Some(null)] loses it. *)
Lemma json_loss_is_exact_witness :
  let v := SerStruct (lit "row") [(lit "doc", SerSome SerUnit)] in
  @writes_null bare_null_json SerUnit = true
  ∧ ∃ w, inside v w ∧ (is_non_finite w = true
                       ∨ ∃ x, w = SerSome x ∧ @writes_null bare_null_json x = true).
Proof.
  split; [reflexivity|].
  pose proof (@json_loss_is_exact bare_null_json
    (SerStruct (lit "row") [(lit "doc", SerSome SerUnit)])) as Hl.
  cbn in Hl. destruct Hl as [[Hl _] _]. exact (Hl eq_refl).
Defined.
