(* ===== verification/Filters.v ===== *)
(** * Filters

    src/src/query/filters.rs, filters/or_group.rs, filters/or_branch_builder.rs,
    filters/finite.rs, and the rendering of a WHERE clause in
    src/src/query/sql/condition_builders/: what a condition is, which of its
    operator and value pairs have a rendering, how conditions and OR groups are
    put together, and which of them can exclude a row at all, the question a bulk
    write asks before it runs.

    A condition's expression is the rendering [condition_spec] chooses for it, on
    its column; how a backend spells that rendering is not modelled. The junctions
    it is put into are the query engine's, the class [SeaCondition]. Error texts,
    which quote the operator and the value, are the constructors of
    [FilterError]. *)

From S2P Require Import Prelude Dialect SqlLexer SqlSafety JsonPath JsonLoss.
Local Open Scope tide_scope.

(** ** JSON values *)

(** [serde_json::Number]. *)
Inductive Number := PosInt (n : N) | NegInt (z : Z) | JFloat (bits : N).

(** [serde_json::Value]. *)
Inductive Json :=
  | JNull
  | JBool (b : bool)
  | JNumber (n : Number)
  | JString (s : str)
  | JArray (items : list Json)
  | JObject (entries : list (str * Json)).

Definition is_null (j : Json) : bool := match j with JNull => true | _ => false end.

Definition nilb {A} (l : list A) : bool := match l with [] => true | _ => false end.

Fixpoint holds_null (j : Json) : bool :=
  match j with
  | JNull => true
  | JArray items => existsb holds_null items
  | JObject entries => existsb (λ e, holds_null e.2) entries
  | _ => false
  end.

(** ** Conditions *)

Inductive Operator :=
  | Eq | NotEq | Gt | Gte | Lt_ | Lte | Like | LikeEscaped | NotLike | In_ | NotIn_
  | IsNull | IsNotNull | Between | NotBetween
  | JsonContains | JsonContainedBy | JsonKeyExists | JsonKeyNotExists
  | JsonPathExists | JsonPathNotExists
  | ArrayContains | ArrayContainedBy | ArrayOverlaps | Raw.

Inductive LogicalOp := And | Or.

Inductive ConditionValue (V : Type) :=
  | VSingle (value : Json)
  | VList (values : list Json)
  | VDocumentList (values : list Json) (sql_null : bool)
  | VRange (low high : Json)
  | VNone
  | VRawExpr (sql : str)
  | VRawExprWithValues (sql : str) (values : list V)
  | VRawTemplate (sql : str) (values : list V)
  | VColumn (column : str)
  | VInvalid (reason : str).

Arguments VSingle {V}.
Arguments VList {V}.
Arguments VDocumentList {V}.
Arguments VRange {V}.
Arguments VNone {V}.
Arguments VRawExpr {V}.
Arguments VRawExprWithValues {V}.
Arguments VRawTemplate {V}.
Arguments VColumn {V}.
Arguments VInvalid {V}.

Record WhereCondition (V : Type) := mkCondition {
  column : str;
  operator : Operator;
  value : ConditionValue V;
}.

Arguments mkCondition {V}.
Arguments column {V}.
Arguments operator {V}.
Arguments value {V}.

(** ** The rendering a condition calls for *)

Inductive ComparisonOperator := CEq | CNotEq | CGt | CGte | CLt | CLte.
Inductive ListOperator := LIn | LNotIn.
Inductive ArrayOperator := AContains | AContainedBy | AOverlaps.
Inductive JsonContainment := Contains | ContainedBy.
Inductive JsonExistence := Key | Path.

(** [ComparisonOperator::of], [ListOperator::of], [ArrayOperator::of]. *)
Definition comparison_of (o : Operator) : option ComparisonOperator :=
  match o with
  | Eq => Some CEq
  | NotEq => Some CNotEq
  | Gt => Some CGt
  | Gte => Some CGte
  | Lt_ => Some CLt
  | Lte => Some CLte
  | _ => None
  end.

Definition list_of (o : Operator) : option ListOperator :=
  match o with In_ => Some LIn | NotIn_ => Some LNotIn | _ => None end.

Definition array_of (o : Operator) : option ArrayOperator :=
  match o with
  | ArrayContains => Some AContains
  | ArrayContainedBy => Some AContainedBy
  | ArrayOverlaps => Some AOverlaps
  | _ => None
  end.

Inductive ConditionSpec (V : Type) :=
  | SRaw (raw_sql : str) (values : list V) (template : bool)
  | SCompare (op : ComparisonOperator) (value : Json)
  | SCompareColumns (op : ComparisonOperator) (other : str)
  | SPattern (negated escaped : bool) (value : Json)
  | SList (op : ListOperator) (values : list Json) (documents : option bool)
  | SNullCheck (negated : bool)
  | SBetween (low high : Json) (negated : bool)
  | SJsonValue (containment : JsonContainment) (value : Json)
  | SJsonExists (existence : JsonExistence) (negated : bool) (target : str)
  | SArray (op : ArrayOperator) (values : list Json).

Arguments SRaw {V}.
Arguments SCompare {V}.
Arguments SCompareColumns {V}.
Arguments SPattern {V}.
Arguments SList {V}.
Arguments SNullCheck {V}.
Arguments SBetween {V}.
Arguments SJsonValue {V}.
Arguments SJsonExists {V}.
Arguments SArray {V}.

Section Conditions.
Context {V : Type}.
Notation WhereCondition := (WhereCondition V).

(** [QueryBuilder::condition_spec], its arms in the source's order. *)
Definition condition_spec (c : WhereCondition) : option (ConditionSpec V) :=
  match operator c, value c with
  | Raw, VRawExpr raw_sql => Some (SRaw raw_sql [] false)
  | Raw, VRawExprWithValues sql values => Some (SRaw sql values false)
  | Raw, VRawTemplate sql values => Some (SRaw sql values true)
  | o, VColumn other => op ← comparison_of o; Some (SCompareColumns op other)
  | Eq, VNone => Some (SNullCheck false)
  | NotEq, VNone => Some (SNullCheck true)
  | Like, VSingle value => Some (SPattern false false value)
  | LikeEscaped, VSingle value => Some (SPattern false true value)
  | NotLike, VSingle value => Some (SPattern true false value)
  | JsonContains, VSingle value => Some (SJsonValue Contains value)
  | JsonContainedBy, VSingle value => Some (SJsonValue ContainedBy value)
  | JsonKeyExists, VSingle (JString target) => Some (SJsonExists Key false target)
  | JsonKeyNotExists, VSingle (JString target) => Some (SJsonExists Key true target)
  | JsonPathExists, VSingle (JString target) => Some (SJsonExists Path false target)
  | JsonPathNotExists, VSingle (JString target) => Some (SJsonExists Path true target)
  | o, VSingle value => op ← comparison_of o; Some (SCompare op value)
  | IsNull, VNone => Some (SNullCheck false)
  | IsNotNull, VNone => Some (SNullCheck true)
  | Between, VRange low high => Some (SBetween low high false)
  | NotBetween, VRange low high => Some (SBetween low high true)
  | o, VList values =>
      match array_of o with
      | Some op => Some (SArray op values)
      | None => op ← list_of o; Some (SList op values None)
      end
  | o, VDocumentList values sql_null =>
      op ← list_of o; Some (SList op values (Some sql_null))
  | _, _ => None
  end.

Inductive FilterError :=
  | EInvalidValue (column reason : str)
  | ENullBound (column : str) (o : Operator)
  | EUnrepresentable (column : str) (o : Operator)
  | ENulPattern
  | EJsonPath (column path : str).

Definition ensure_condition_has_no_null_bound (c : WhereCondition)
  : result unit FilterError :=
  let has_null_bound :=
    match operator c, value c with
    | (Gt | Gte | Lt_ | Lte), (VNone | VSingle JNull) => true
    | (Between | NotBetween), VRange low high => is_null low || is_null high
    | _, _ => false
    end in
  if has_null_bound then Err (ENullBound (column c) (operator c)) else Ok tt.

Definition ensure_condition_is_representable (c : WhereCondition)
  : result unit FilterError :=
  match value c with
  | VInvalid reason => Err (EInvalidValue (column c) reason)
  | _ =>
      ensure_condition_has_no_null_bound c ;;?
      match condition_spec c with
      | Some _ => Ok tt
      | None =>
          let column := if bool_decide (column c = []) then lit "<raw>" else column c in
          Err (EUnrepresentable column (operator c))
      end
  end.

(** The checks [ensure_conditions_are_representable] makes of one condition. *)
Definition check_condition `{JsonStrings} (db : DatabaseType) (c : WhereCondition)
  : result unit FilterError :=
  ensure_condition_is_representable c ;;?
  match operator c, value c with
  | LikeEscaped, VSingle (JString text) =>
      if bool_decide (db = SQLite) && existsb (N.eqb 0) text then Err ENulPattern else Ok tt
  | (JsonPathExists | JsonPathNotExists), VSingle (JString path) =>
      if negb (bool_decide (db = Postgres)) && negb (bool_decide (is_Some (parse_json_path path)))
      then Err (EJsonPath (column c) path) else Ok tt
  | _, _ => Ok tt
  end.

Fixpoint ensure_conditions_are_representable `{JsonStrings} (db : DatabaseType)
    (all_conditions : list WhereCondition) : result unit FilterError :=
  match all_conditions with
  | [] => Ok tt
  | c :: rest => check_condition db c ;;? ensure_conditions_are_representable db rest
  end.

(** [condition_is_vacuous]: a condition that cannot exclude a row whose column is
    not NULL. *)
Definition condition_is_vacuous (is_json : str → bool) (c : WhereCondition) : bool :=
  match operator c, value c with
  | NotIn_, VList values => forallb is_null values
  | NotIn_, VDocumentList values _ => forallb is_null values && negb (is_json (column c))
  | NotEq, VNone => true
  | NotEq, VSingle JNull => negb (is_json (column c))
  | ArrayContains, VList values => nilb values
  | (Like | LikeEscaped), VSingle (JString pattern) =>
      negb (nilb pattern) && forallb (N.eqb 37) pattern
  | JsonContains, VSingle (JObject entries) => nilb entries
  | JsonContains, VSingle (JArray items) => nilb items
  | _, _ => false
  end.
End Conditions.

(** ** OR groups *)

Inductive OrGroup (V : Type) :=
  mkGroup (conditions : list (WhereCondition V)) (nested_groups : list (OrGroup V))
          (combine_with : LogicalOp).

Arguments mkGroup {V}.

Section Groups.
Context {V : Type}.
Notation WhereCondition := (WhereCondition V).
Notation OrGroup := (OrGroup V).

Definition group_conditions (g : OrGroup) : list WhereCondition :=
  match g with mkGroup conditions _ _ => conditions end.
Definition nested_groups (g : OrGroup) : list OrGroup :=
  match g with mkGroup _ nested _ => nested end.
Definition combine_with (g : OrGroup) : LogicalOp :=
  match g with mkGroup _ _ op => op end.

(** [OrGroup::new], [OrGroup::and_group]. *)
Definition OrGroup_new : OrGroup := mkGroup [] [] Or.
Definition and_group : OrGroup := mkGroup [] [] And.

(** [OrGroup::nested_or], [OrGroup::nested_and]. *)
Definition nested_or (g : OrGroup) (f : OrGroup → OrGroup) : OrGroup :=
  mkGroup (group_conditions g) (nested_groups g ++ [f OrGroup_new]) (combine_with g).
Definition nested_and (g : OrGroup) (f : OrGroup → OrGroup) : OrGroup :=
  mkGroup (group_conditions g) (nested_groups g ++ [f and_group]) (combine_with g).

(** [OrGroup::push_condition]. *)
Definition group_push (g : OrGroup) (c : WhereCondition) : OrGroup :=
  mkGroup (group_conditions g ++ [c]) (nested_groups g) (combine_with g).

(** [OrGroup::is_empty]. *)
Fixpoint group_is_empty (g : OrGroup) : bool :=
  match g with
  | mkGroup conditions nested _ => nilb conditions && forallb group_is_empty nested
  end.

Fixpoint is_restrictive_with (is_vacuous : WhereCondition → bool) (g : OrGroup) : bool :=
  match g with
  | mkGroup conditions nested And =>
      existsb (λ c, negb (is_vacuous c)) conditions
      || existsb (is_restrictive_with is_vacuous) nested
  | mkGroup conditions nested Or =>
      negb (group_is_empty g)
      && forallb (λ c, negb (is_vacuous c)) conditions
      && forallb (λ g, group_is_empty g || is_restrictive_with is_vacuous g) nested
  end.

(** [OrGroup::condition_count]. *)
Fixpoint condition_count (g : OrGroup) : nat :=
  match g with
  | mkGroup conditions nested _ => length conditions + sum_list_with condition_count nested
  end.

Fixpoint collect_conditions (g : OrGroup) : list WhereCondition :=
  match g with
  | mkGroup conditions nested _ => conditions ++ concat (map collect_conditions nested)
  end.

(** [QueryBuilder::all_conditions]. *)
Definition all_conditions (conditions : list WhereCondition) (or_groups : list OrGroup)
  : list WhereCondition :=
  conditions ++ concat (map collect_conditions or_groups).

(** *** The fluent builder of ORed branches *)

Record OrBranchBuilder := mkBranches {
  branches : list OrGroup;
  current_branch : OrGroup;
}.

(** [OrBranchBuilder::new], the query it was started on aside. *)
Definition OrBranchBuilder_new : OrBranchBuilder :=
  {| branches := []; current_branch := and_group |}.

Definition start_branch (b : OrBranchBuilder) (c : WhereCondition) : OrBranchBuilder :=
  let previous := current_branch b in
  {| branches := if group_is_empty previous then branches b else branches b ++ [previous];
     current_branch := group_push and_group c |}.

Definition extend_branch (b : OrBranchBuilder) (c : WhereCondition) : OrBranchBuilder :=
  {| branches := branches b; current_branch := group_push (current_branch b) c |}.

(** The loop of [end_or]. *)
Definition add_branch (or_group branch : OrGroup) : OrGroup :=
  if length (group_conditions branch) =? 1
  then mkGroup (group_conditions or_group ++ group_conditions branch)
         (nested_groups or_group) (combine_with or_group)
  else mkGroup (group_conditions or_group) (nested_groups or_group ++ [branch])
         (combine_with or_group).

(** [OrBranchBuilder::end_or] on the OR groups of the query it was started on. *)
Definition end_or (or_groups : list OrGroup) (b : OrBranchBuilder) : list OrGroup :=
  let all := if group_is_empty (current_branch b) then branches b
             else branches b ++ [current_branch b] in
  if nilb all then or_groups else or_groups ++ [foldl add_branch OrGroup_new all].
End Groups.

(** ** What a WHERE clause means *)

(** SQL's three truth values. *)
Inductive Truth := TTrue | TFalse | TUnknown.

#[export] Instance Truth_eq_dec : EqDecision Truth.
Proof. solve_decision. Defined.

Definition and3 (a b : Truth) : Truth :=
  match a, b with
  | TFalse, _ | _, TFalse => TFalse
  | TTrue, TTrue => TTrue
  | _, _ => TUnknown
  end.

Definition or3 (a b : Truth) : Truth :=
  match a, b with
  | TTrue, _ | _, TTrue => TTrue
  | TFalse, TFalse => TFalse
  | _, _ => TUnknown
  end.

Definition junction (op : LogicalOp) : Truth → Truth → Truth :=
  match op with And => and3 | Or => or3 end.

Definition junction_unit (op : LogicalOp) : Truth :=
  match op with And => TTrue | Or => TFalse end.

Definition junctions (op : LogicalOp) (ts : list Truth) : Truth :=
  foldr (junction op) (junction_unit op) ts.

(** [sea_query::Condition], by its documentation: [all] and [any] start an AND and
    an OR, and [add] puts an expression or a condition that is not empty into one.
    A condition with one member is that member. *)
Class SeaCondition (Expr : Type) := {
  Condition : Type;
  cond_start : LogicalOp → Condition;
  add_expr : Condition → Expr → Condition;
  add_condition : Condition → Condition → Condition;
  condition_is_empty : Condition → bool;
  junction_of : Condition → LogicalOp;
  truth : (Expr → Truth) → Condition → Truth;
  start_is_empty op : condition_is_empty (cond_start op) = true;
  start_junction op : junction_of (cond_start op) = op;
  truth_start_all v : truth v (cond_start And) = TTrue;
  add_expr_is_empty c e : condition_is_empty (add_expr c e) = false;
  add_expr_junction c e : junction_of (add_expr c e) = junction_of c;
  truth_add_expr v c e :
    truth v (add_expr c e)
    = if condition_is_empty c then v e else junction (junction_of c) (truth v c) (v e);
  add_condition_is_empty c d :
    condition_is_empty d = false → condition_is_empty (add_condition c d) = false;
  add_condition_junction c d : junction_of (add_condition c d) = junction_of c;
  truth_add_condition v c d :
    condition_is_empty d = false →
    truth v (add_condition c d)
    = if condition_is_empty c then truth v d
      else junction (junction_of c) (truth v c) (truth v d);
}.

(** The expressions of a WHERE clause: a condition's rendering on its column, and
    the tests of the soft-delete column. *)
Inductive Expr (V : Type) :=
  | ECondition (column : str) (spec : ConditionSpec V)
  | EIsNull (column : str)
  | EIsNotNull (column : str).

Arguments ECondition {V}.
Arguments EIsNull {V}.
Arguments EIsNotNull {V}.

Section Rendering.
Context {V : Type} `{SeaCondition (Expr V)}.
Notation WhereCondition := (WhereCondition V).
Notation OrGroup := (OrGroup V).

(** [build_condition_expression]: [None] where there is no rendering. *)
Definition build_condition_expression (c : WhereCondition) : option (Expr V) :=
  spec ← condition_spec c; Some (ECondition (column c) spec).

(** The first loop of [add_filters]. *)
Definition add_filter (condition : Condition) (c : WhereCondition) : Condition :=
  match build_condition_expression c with
  | Some e => add_expr condition e
  | None => condition
  end.

Fixpoint build_or_group_condition (g : OrGroup) : Condition :=
  match g with
  | mkGroup conditions nested op =>
      foldl (λ condition g,
               if group_is_empty g then condition
               else add_condition condition (build_or_group_condition g))
            (foldl add_filter (cond_start op) conditions) nested
  end.

Definition add_filters (condition : Condition) (conditions : list WhereCondition)
    (groups : list OrGroup) : Condition :=
  foldl (λ condition g, add_condition condition (build_or_group_condition g))
        (foldl add_filter condition conditions)
        (filter (λ g, group_is_empty g = false) groups).
End Rendering.

(** ** The three-valued junctions *)

Lemma junction_comm op a b : junction op a b = junction op b a.
Proof. by destruct op, a, b. Qed.

Lemma junction_assoc op a b c : junction op (junction op a b) c = junction op a (junction op b c).
Proof. by destruct op, a, b, c. Qed.

Lemma junction_unit_r op a : junction op a (junction_unit op) = a.
Proof. by destruct op, a. Qed.

Lemma junction_unit_l op a : junction op (junction_unit op) a = a.
Proof. by destruct op, a. Qed.

Lemma junctions_app op ts us :
  junctions op (ts ++ us) = junction op (junctions op ts) (junctions op us).
Proof.
  unfold junctions. induction ts as [|t ts IH]; cbn; [by rewrite junction_unit_l|].
  by rewrite IH, junction_assoc.
Qed.

Lemma junctions_cons op t ts : junctions op (t :: ts) = junction op t (junctions op ts).
Proof. done. Qed.

Lemma junctions_one op t : junctions op [t] = t.
Proof. apply junction_unit_r. Qed.

(** What a definite value of a junction says of its members. *)
Lemma junctions_And_true ts : junctions And ts = TTrue ↔ Forall (.= TTrue) ts.
Proof.
  induction ts as [|t ts IH]; cbn; [by split; [constructor|]|]. rewrite list.Forall_cons, <- IH.
  unfold junctions. by destruct t, (foldr _ _ ts); cbn; split; (try done); intros []; discriminate.
Qed.

Lemma junctions_Or_true ts : junctions Or ts = TTrue ↔ Exists (.= TTrue) ts.
Proof.
  induction ts as [|t ts IH]; cbn; [by rewrite Exists_nil|]. rewrite Exists_cons, <- IH.
  unfold junctions. by destruct t, (foldr _ _ ts); cbn; naive_solver.
Qed.

(** ** Groups and their meaning *)

Section Meaning.
Context {V : Type}.
Notation WhereCondition := (WhereCondition V).
Notation OrGroup := (OrGroup V).

Section group_ind.
Context (P : OrGroup → Prop)
  (step : ∀ conditions nested op, Forall P nested → P (mkGroup conditions nested op)).

Fixpoint group_nested_ind (g : OrGroup) : P g :=
  match g with
  | mkGroup conditions nested op =>
      step conditions nested op
        ((fix go (l : list OrGroup) : Forall P l :=
            match l with
            | [] => List.Forall_nil P
            | g :: l => List.Forall_cons P g l (group_nested_ind g) (go l)
            end) nested)
  end.
End group_ind.

(** The truth of a group whose conditions have the truth [w]: its conditions and
    its non-empty nested groups, joined by its operator. *)
Fixpoint group_truth (w : WhereCondition → Truth) (g : OrGroup) : Truth :=
  match g with
  | mkGroup conditions nested op =>
      junctions op (map w conditions
        ++ concat (map (λ g, if group_is_empty g then [] else [group_truth w g]) nested))
  end.

(** The truth of a query's filters: its conditions and its non-empty groups. *)
Definition filters_truth (w : WhereCondition → Truth) (conditions : list WhereCondition)
    (groups : list OrGroup) : Truth :=
  junctions And (map w conditions
    ++ concat (map (λ g, if group_is_empty g then [] else [group_truth w g]) groups)).

Lemma filters_truth_group w conditions groups :
  filters_truth w conditions groups = group_truth w (mkGroup conditions groups And).
Proof. done. Qed.

(** *** Which groups can exclude a row *)

(** The order of the truth values, by what they keep. *)
Definition truth_le (a b : Truth) : bool :=
  match a, b with
  | TFalse, _ | _, TTrue | TUnknown, TUnknown => true
  | _, _ => false
  end.

Lemma junction_mono op a a' b b' :
  truth_le a a' = true → truth_le b b' = true →
  truth_le (junction op a b) (junction op a' b') = true.
Proof. by destruct op, a, a', b, b'. Qed.

Lemma junctions_mono op ts us :
  Forall2 (λ a b, truth_le a b = true) ts us →
  truth_le (junctions op ts) (junctions op us) = true.
Proof.
  induction 1 as [|t u ts us Htu _ IH]; cbn; [by destruct op|]. by apply junction_mono.
Qed.

Lemma group_truth_mono w w' g :
  (∀ c, truth_le (w c) (w' c) = true) →
  truth_le (group_truth w g) (group_truth w' g) = true.
Proof.
  intros Hw. induction g as [conditions nested op IH] using group_nested_ind. cbn.
  apply junctions_mono, Forall2_app.
  - induction conditions; cbn; by constructor.
  - induction IH as [|g nested Hg _ IH]; cbn; [constructor|].
    destruct (group_is_empty g); cbn; [done|by constructor].
Qed.

(** The valuation in which only vacuous conditions hold. *)
Definition least_valuation (is_vacuous : WhereCondition → bool) (c : WhereCondition) : Truth :=
  if is_vacuous c then TTrue else TFalse.

Lemma empty_not_restrictive is_vacuous (g : OrGroup) :
  group_is_empty g = true → is_restrictive_with is_vacuous g = false.
Proof.
  induction g as [cs ns op IH] using group_nested_ind. cbn. intros Hne.
  apply andb_true_iff in Hne as [Hcs Hns]. destruct cs; [|done]. destruct op; cbn; [|by rewrite Hns].
  induction IH as [|g ns Hg _ IHn]; [done|]. cbn in *. bools. rewrite Hg by done. by apply IHn.
Qed.

Lemma least_truth is_vacuous g :
  group_is_empty g = false →
  group_truth (least_valuation is_vacuous) g
  = if is_restrictive_with is_vacuous g then TFalse else TTrue.
Proof.
  induction g as [conditions nested op IH] using group_nested_ind. intros Hne. cbn [group_truth].
  rewrite junctions_app.
  assert (junctions op (map (least_valuation is_vacuous) conditions)
          = match op with
            | And => if existsb (λ c, negb (is_vacuous c)) conditions then TFalse else TTrue
            | Or => if forallb (λ c, negb (is_vacuous c)) conditions then TFalse else TTrue
            end) as ->.
  { clear. unfold junctions, least_valuation. induction conditions as [|c cs IHc]; cbn; [by destruct op|].
    rewrite IHc. destruct op, (is_vacuous c); cbn; by repeat case_match. }
  assert (junctions op (concat (map (λ g, if group_is_empty g then []
              else [group_truth (least_valuation is_vacuous) g]) nested))
          = match op with
            | And => if existsb (is_restrictive_with is_vacuous) nested then TFalse else TTrue
            | Or => if forallb (λ g, group_is_empty g || is_restrictive_with is_vacuous g) nested
                    then TFalse else TTrue
            end) as ->.
  { clear Hne. induction IH as [|g nested Hg _ IHn]; cbn [map concat existsb forallb]; [by destruct op|].
    rewrite junctions_app, IHn.
    destruct (group_is_empty g) eqn:E.
    - rewrite empty_not_restrictive by done.
      destruct op; cbn; by repeat case_match.
    - rewrite Hg by done. rewrite junctions_one.
      destruct op, (is_restrictive_with is_vacuous g); cbn; by repeat case_match. }
  destruct op; cbn [is_restrictive_with]; rewrite ?Hne; cbn [negb andb];
    [by destruct (existsb _ conditions), (existsb _ nested)|by destruct (forallb _ conditions), (forallb _ nested)].
Qed.

(** A group restricts nothing exactly when it holds whenever its vacuous
    conditions do. *)
Lemma restrictive_spec is_vacuous g :
  group_is_empty g = false →
  is_restrictive_with is_vacuous g = false ↔
  (∀ w, (∀ c, is_vacuous c = true → w c = TTrue) → group_truth w g = TTrue).
Proof.
  intros Hne. pose proof (least_truth is_vacuous g Hne) as Hl. split.
  - intros Hr w Hw. rewrite Hr in Hl.
    assert (truth_le (group_truth (least_valuation is_vacuous) g) (group_truth w g) = true) as Hm.
    { apply group_truth_mono. intros c. unfold least_valuation.
      destruct (is_vacuous c) eqn:E; [by rewrite Hw|done]. }
    rewrite Hl in Hm. by destruct (group_truth w g).
  - intros Hall. rewrite (Hall (least_valuation is_vacuous)) in Hl.
    + by destruct (is_restrictive_with is_vacuous g).
    + intros c Hc. unfold least_valuation. by rewrite Hc.
Qed.
End Meaning.

(** ** Rendering drops nothing *)

Section Renders.
Context {V : Type} {SC : SeaCondition (Expr V)}.
Notation WhereCondition := (WhereCondition V).
Notation OrGroup := (OrGroup V).

(** The truth of a condition on a row: that of its expression. *)
Definition cond_truth (v : Expr V → Truth) (c : WhereCondition) : Truth :=
  match build_condition_expression c with Some e => v e | None => TUnknown end.

(** [c'] is [c] with members of the truths [ts] added. *)
Record grown (v : Expr V → Truth) (c : Condition) (ts : list Truth) (c' : Condition) : Prop := {
  grown_junction : junction_of c' = junction_of c;
  grown_empty : condition_is_empty c' = condition_is_empty c && nilb ts;
  grown_truth :
    truth v c' =
      if nilb ts then truth v c
      else if condition_is_empty c then junctions (junction_of c) ts
      else junction (junction_of c) (truth v c) (junctions (junction_of c) ts);
}.

Lemma grown_refl v c : grown v c [] c.
Proof. split; [done|by rewrite andb_true_r|done]. Qed.

Lemma grown_app v c ts c' us c'' :
  grown v c ts c' → grown v c' us c'' → grown v c (ts ++ us) c''.
Proof.
  intros [J1 E1 T1] [J2 E2 T2]. split; [congruence|..].
  - rewrite E2, E1. destruct (condition_is_empty c), ts; done.
  - rewrite T2, J1, E1, T1. destruct ts as [|t ts]; cbn [nilb app andb].
    + by rewrite andb_true_r.
    + destruct us as [|u us]; cbn [nilb]; [by rewrite app_nil_r|].
      rewrite andb_false_r. change (t :: ts ++ u :: us) with ((t :: ts) ++ (u :: us)).
      rewrite junctions_app. destruct (condition_is_empty c); [done|by rewrite junction_assoc].
Qed.

Lemma grown_expr v c e : grown v c [v e] (add_expr c e).
Proof.
  split; [apply add_expr_junction|by rewrite add_expr_is_empty, andb_false_r|].
  rewrite truth_add_expr, junctions_one. done.
Qed.

Lemma grown_condition v c d :
  condition_is_empty d = false → grown v c [truth v d] (add_condition c d).
Proof.
  intros Hd. split; [apply add_condition_junction| |].
  - by rewrite add_condition_is_empty, andb_false_r.
  - rewrite truth_add_condition, junctions_one by done. done.
Qed.

Definition renders (c : WhereCondition) : Prop := is_Some (condition_spec c).

Lemma grown_filters v c cs :
  Forall renders cs → grown v c (map (cond_truth v) cs) (foldl add_filter c cs).
Proof.
  intros Hr. revert c. induction Hr as [|f cs [spec Hf] _ IH]; intros c; [apply grown_refl|].
  cbn [foldl map]. change (?t :: ?l) with ([t] ++ l). eapply grown_app; [|apply IH].
  unfold add_filter, cond_truth, build_condition_expression. rewrite Hf. apply grown_expr.
Qed.

Lemma grown_groups v c gs :
  Forall (λ g, group_is_empty g = false →
            condition_is_empty (build_or_group_condition g) = false
            ∧ truth v (build_or_group_condition g) = group_truth (cond_truth v) g) gs →
  grown v c (concat (map (λ g, if group_is_empty g then [] else [group_truth (cond_truth v) g]) gs))
    (foldl (λ c g, if group_is_empty g then c else add_condition c (build_or_group_condition g)) c gs).
Proof.
  intros Hg. revert c. induction Hg as [|g gs Hg _ IH]; intros c; [apply grown_refl|].
  cbn [foldl map concat]. eapply grown_app; [|apply IH].
  destruct (group_is_empty g); [apply grown_refl|]. destruct Hg as [He <-]; [done|].
  by apply grown_condition.
Qed.

(** A grown start of a junction is the junction of what was added. *)
Lemma grown_start v op ts c :
  grown v (cond_start op) ts c → ts ≠ [] → truth v c = junctions op ts.
Proof.
  intros [_ _ ->] Hne. destruct ts; [done|]. cbn [nilb].
  by rewrite start_is_empty, start_junction.
Qed.

Lemma group_members_nil (w : WhereCondition → Truth) (g : OrGroup) :
  group_is_empty g = nilb (map w (group_conditions g)
    ++ concat (map (λ g, if group_is_empty g then [] else [group_truth w g]) (nested_groups g))).
Proof.
  destruct g as [cs ns op]. cbn. destruct cs as [|c cs]; [cbn|done].
  induction ns as [|n ns IH]; [done|]. cbn [forallb map concat]. rewrite IH.
  by destruct (group_is_empty n).
Qed.

Lemma build_group_spec v g :
  Forall renders (collect_conditions g) → group_is_empty g = false →
  condition_is_empty (build_or_group_condition g) = false
  ∧ truth v (build_or_group_condition g) = group_truth (cond_truth v) g.
Proof.
  induction g as [cs ns op IH] using group_nested_ind. cbn [collect_conditions].
  intros [Hcs Hns]%Forall_app Hne.
  assert (grown v (cond_start op)
            (map (cond_truth v) cs
             ++ concat (map (λ g, if group_is_empty g then [] else [group_truth (cond_truth v) g]) ns))
            (build_or_group_condition (mkGroup cs ns op))) as Hg.
  { eapply grown_app; [by apply grown_filters|]. apply grown_groups. clear Hne.
    induction IH as [|n ns Hn _ IHn]; [constructor|]. cbn in Hns. apply Forall_app in Hns as [? ?].
    constructor; [intros ?; by apply Hn|by apply IHn]. }
  rewrite (group_members_nil (cond_truth v)) in Hne. cbn in Hne. split.
  - rewrite (grown_empty _ _ _ _ Hg), Hne. apply andb_false_r.
  - apply (grown_start _ _ _ _ Hg). by destruct (_ ++ _).
Qed.

Lemma add_filters_loop c (cs : list WhereCondition) gs :
  add_filters c cs gs
  = foldl (λ c g, if group_is_empty g then c else add_condition c (build_or_group_condition g))
      (foldl add_filter c cs) gs.
Proof.
  unfold add_filters. generalize (foldl add_filter c cs). clear.
  induction gs as [|g gs IH]; intros c; [done|]. cbn [foldl]. rewrite list.filter_cons.
  destruct (group_is_empty g); [by rewrite decide_False|rewrite decide_True by done; apply IH].
Qed.

Lemma add_filters_grown v c cs gs :
  Forall renders (all_conditions cs gs) →
  grown v c
    (map (cond_truth v) cs
     ++ concat (map (λ g, if group_is_empty g then [] else [group_truth (cond_truth v) g]) gs))
    (add_filters c cs gs).
Proof.
  unfold all_conditions. intros [Hcs Hgs]%Forall_app.
  rewrite add_filters_loop. eapply grown_app; [by apply grown_filters|].
  apply grown_groups. apply list.Forall_forall. intros g Hin ?. apply build_group_spec; [|done].
  apply list.Forall_forall. intros d Hd. eapply list.Forall_forall; [exact Hgs|].
  apply list_elem_of_In, in_concat. exists (collect_conditions g).
  split; [by apply in_map, list_elem_of_In|by apply list_elem_of_In].
Qed.

Lemma add_filters_spec v cs gs :
  Forall renders (all_conditions cs gs) →
  condition_is_empty (add_filters (cond_start And) cs gs) = nilb cs && forallb group_is_empty gs
  ∧ truth v (add_filters (cond_start And) cs gs) = filters_truth (cond_truth v) cs gs.
Proof.
  intros Hr. pose proof (add_filters_grown v (cond_start And) cs gs Hr) as Hg. split.
  - rewrite (grown_empty _ _ _ _ Hg), start_is_empty. cbn [andb].
    symmetry. exact (group_members_nil (cond_truth v) (mkGroup cs gs And)).
  - rewrite (grown_truth _ _ _ _ Hg), start_is_empty, start_junction, truth_start_all.
    unfold filters_truth. by destruct (_ ++ _).
Qed.

(** The check that every condition has a rendering. *)
Lemma representable_renders `{JsonStrings} db cs :
  ensure_conditions_are_representable db cs = Ok tt → Forall renders cs.
Proof.
  induction cs as [|c cs IH]; cbn; [constructor|].
  intros ([] & Hc & Hcs)%rbind_Ok. constructor; [|by apply IH].
  unfold check_condition in Hc. apply rbind_Ok in Hc as ([] & Hr & _).
  unfold ensure_condition_is_representable in Hr. unfold renders.
  destruct (value c) eqn:Ev; try done;
    apply rbind_Ok in Hr as ([] & _ & Hr); destruct (condition_spec c); try done; eauto.
Qed.
End Renders.

(** ** The fluent OR builder *)

Section Branches.
Context {V : Type}.
Notation WhereCondition := (WhereCondition V).
Notation OrGroup := (OrGroup V).

(** The calls between [begin_or] and [end_or]: an [or_where_*] or an
    [and_where_*]. *)
Inductive BranchCall := OrWhere (c : WhereCondition) | AndWhere (c : WhereCondition).

Definition branch_call (b : OrBranchBuilder) (call : BranchCall) : OrBranchBuilder :=
  match call with
  | OrWhere c => start_branch b c
  | AndWhere c => extend_branch b c
  end.

(** The branches the calls describe: [or_where] opens one, [and_where] adds to
    the last. *)
Definition describe_call (ls : list (list WhereCondition)) (call : BranchCall)
  : list (list WhereCondition) :=
  match call with
  | OrWhere c => ls ++ [[c]]
  | AndWhere c =>
      match list.last ls with
      | Some l => removelast ls ++ [l ++ [c]]
      | None => [[c]]
      end
  end.

Definition described (calls : list BranchCall) : list (list WhereCondition) :=
  foldl describe_call [] calls.

Definition and_of (l : list WhereCondition) : OrGroup := mkGroup l [] And.

#[local] Instance and_of_inj : Inj (=) (=) and_of.
Proof. by intros ?? [=]. Qed.

(** The branches closed so far, and the one being built unless it is empty. *)
Definition builder_lists (ls : list (list WhereCondition)) (cur : list WhereCondition) :=
  if nilb cur then ls else ls ++ [cur].

Lemma describe_builder ls cur call :
  (cur = [] → ls = []) →
  ∃ ls' cur',
    cur' ≠ []
    ∧ branch_call {| branches := and_of <$> ls; current_branch := and_of cur |} call
      = {| branches := and_of <$> ls'; current_branch := and_of cur' |}
    ∧ describe_call (builder_lists ls cur) call = ls' ++ [cur'].
Proof.
  intros Hc. destruct call as [c|c].
  - exists (builder_lists ls cur), [c]. split_and!; [done| |done].
    unfold branch_call, start_branch, builder_lists. cbn. rewrite andb_true_r.
    destruct cur; [done|]. cbn. by rewrite fmap_app.
  - exists ls, (cur ++ [c]). split_and!; [by destruct cur|done|].
    unfold describe_call, builder_lists. destruct cur as [|x cur]; cbn [nilb].
    + by rewrite Hc.
    + by rewrite last_snoc, removelast_last.
Qed.

Lemma builder_describes calls :
  ∃ ls cur,
    foldl branch_call OrBranchBuilder_new calls
      = {| branches := and_of <$> ls; current_branch := and_of cur |}
    ∧ described calls = builder_lists ls cur
    ∧ (cur = [] → ls = []) ∧ Forall (.≠ []) ls.
Proof.
  induction calls as [|call calls (ls & cur & Hb & Hd & Hc & Hl)] using rev_ind.
  { by exists [], []. }
  destruct (describe_builder ls cur call Hc) as (ls' & cur' & Hcur & Hb' & Hd').
  exists ls', cur'. unfold described in *. rewrite !foldl_app, Hb, Hd. cbn [foldl].
  split_and!; [done| |done|].
  - rewrite Hd'. unfold builder_lists. by destruct cur'.
  - destruct call as [c|c]; cbn in Hb'; injection Hb' as Hls Hg.
    + destruct cur as [|x cur]; cbn in Hls.
      * rewrite Hc in Hls by done. by destruct ls'.
      * change [and_of (x :: cur)] with (and_of <$> [x :: cur]) in Hls.
        rewrite <- fmap_app in Hls. apply (inj (fmap and_of)) in Hls as <-.
        apply Forall_app. split; [done|by repeat constructor].
    + by apply (inj (fmap and_of)) in Hls as <-.
Qed.

Lemma empty_counts_none (g : OrGroup) : group_is_empty g = true → condition_count g = 0.
Proof.
  induction g as [cs ns op IH] using group_nested_ind. cbn. intros Eg. bools.
  destruct cs; [|done]. cbn. induction IH as [|n ns Hn _ IHn]; [done|]. cbn in *. bools.
  rewrite Hn by done. by apply IHn.
Qed.

(** Adding ANDed branches to an OR group. *)
Lemma add_branches_truth w ls g :
  combine_with g = Or → Forall (.≠ []) ls →
  combine_with (foldl add_branch g (and_of <$> ls)) = Or
  ∧ condition_count (foldl add_branch g (and_of <$> ls))
    = condition_count g + length (concat ls)
  ∧ group_truth w (foldl add_branch g (and_of <$> ls))
    = or3 (group_truth w g) (junctions Or (map (λ l, junctions And (map w l)) ls)).
Proof.
  intros Hg Hls. revert g Hg.
  induction Hls as [|l ls Hl _ IH]; intros g Hg; cbn [fmap list_fmap foldl map concat].
  { split_and!; [done|cbn; lia|]. symmetry. apply (junction_unit_r Or). }
  destruct (IH (add_branch g (and_of l))) as (Hop & Hn & Ht).
  { unfold add_branch. by case_match. }
  split_and!; [done|..].
  - rewrite Hn, length_app. cut (condition_count (add_branch g (and_of l)) = condition_count g + length l); [lia|].
    destruct g as [cs ns op]. unfold add_branch. case_match; cbn.
    + rewrite length_app. lia.
    + rewrite sum_list_with_app. cbn. lia.
  - rewrite Ht, junctions_cons. change or3 with (junction Or). rewrite <- junction_assoc. f_equal.
    destruct g as [cs ns op]. cbn in Hg. subst op. unfold add_branch. cbn [group_conditions and_of].
    destruct (length l =? 1) eqn:El.
    + apply Nat.eqb_eq in El. destruct l as [|c [|]]; try done.
      cbn [group_truth nested_groups combine_with group_conditions].
      rewrite map_app, !junctions_app. cbn [map].
      rewrite !junctions_one, !junction_assoc. f_equal. apply junction_comm.
    + cbn [group_truth nested_groups combine_with group_conditions].
      rewrite map_app, concat_app, app_assoc, junctions_app. f_equal.
      destruct l; [done|]. cbn [map concat group_is_empty and_of nilb andb app].
      rewrite !junctions_one. unfold and_of. cbn [group_truth map concat]. by rewrite app_nil_r.
Qed.

(** the fluent OR builder adds what its calls spell out: nothing for no calls, and
    otherwise one group, which holds on a row exactly when the OR of its branches
    does, each the AND of its conditions (in SQL's three-valued logic, though
    single-condition branches are moved in front of the longer ones), with every
    condition in it once. *)
Theorem or_branches_mean_their_or or_groups calls :
  match described calls with
  | [] => calls = [] ∧ end_or or_groups (foldl branch_call OrBranchBuilder_new calls) = or_groups
  | ls => ∃ g,
      end_or or_groups (foldl branch_call OrBranchBuilder_new calls) = or_groups ++ [g]
      ∧ group_is_empty g = false
      ∧ condition_count g = length calls
      ∧ ∀ w, group_truth w g = junctions Or (map (λ l, junctions And (map w l)) ls)
  end.
Proof.
  assert (length (concat (described calls)) = length calls) as Hcount.
  { unfold described. induction calls as [|call calls IH] using rev_ind; [done|].
    rewrite foldl_app, length_app, <- IH. cbn [foldl length].
    destruct call as [c|c]; cbn [describe_call]; [by rewrite concat_app, length_app|].
    destruct (foldl describe_call [] calls) as [|x xs] using rev_ind; [done|].
    rewrite last_snoc, removelast_last, !concat_app, !length_app. cbn.
    rewrite !app_nil_r, length_app. cbn. lia. }
  destruct (builder_describes calls) as (ls & cur & -> & Hd & Hc & Hl). rewrite Hd in *.
  unfold end_or, builder_lists in *. cbn [current_branch branches and_of group_is_empty forallb].
  rewrite andb_true_r. destruct cur as [|x cur]; cbn [nilb] in *.
  { rewrite Hc in * by done. cbn in *. split; [by destruct calls|done]. }
  destruct (ls ++ [x :: cur]) as [|y ys] eqn:E; [by destruct ls|]. rewrite <- E in *.
  assert (Forall (.≠ []) (ls ++ [x :: cur])) as Hall.
  { apply Forall_app. split; [done|by repeat constructor]. }
  change ((and_of <$> ls) ++ [and_of (x :: cur)]) with ((and_of <$> ls) ++ (and_of <$> [x :: cur])).
  rewrite <- fmap_app.
  destruct (nilb (and_of <$> _)) eqn:En; [by rewrite E in En|].
  eexists. split; [done|].
  split_and!.
  - destruct (add_branches_truth (λ _, TUnknown) _ OrGroup_new eq_refl Hall) as (_ & Hn & _).
    rewrite Hcount in Hn. cbn in Hn.
    destruct (group_is_empty _) eqn:Eg; [|done]. exfalso.
    apply empty_counts_none in Eg. rewrite Eg in Hn.
    rewrite concat_app, length_app in Hcount. cbn in Hcount. lia.
  - destruct (add_branches_truth (λ _, TUnknown) _ OrGroup_new eq_refl Hall) as (_ & Hn & _).
    by rewrite Hn, Hcount.
  - intros w. destruct (add_branches_truth w _ OrGroup_new eq_refl Hall) as (_ & _ & ->).
    apply (junction_unit_l Or).
Qed.
End Branches.

(** ** The rendered clause *)

Section WhereClause.
Context {V : Type} {SC : SeaCondition (Expr V)} `{JsonStrings}.

(** C9: a query whose conditions pass the representability check renders every one of
    them: the WHERE condition holds on a row exactly when all the query's
    conditions and all its non-empty groups do, each condition as its own
    expression; and it is empty only for a query that declares no filter. *)
Theorem where_clause_means_its_filters db (cs : list (WhereCondition V)) gs :
  ensure_conditions_are_representable db (all_conditions cs gs) = Ok tt →
  (∀ c, c ∈ all_conditions cs gs → ∃ e, build_condition_expression c = Some e
                                        ∧ ∀ v, cond_truth v c = v e)
  ∧ condition_is_empty (add_filters (cond_start And) cs gs)
    = nilb cs && forallb group_is_empty gs
  ∧ ∀ v, truth v (add_filters (cond_start And) cs gs) = filters_truth (cond_truth v) cs gs.
Proof.
  intros Hr%representable_renders. split_and!.
  - intros c Hc. rewrite list.Forall_forall in Hr. destruct (Hr c Hc) as [spec Hs].
    exists (ECondition (column c) spec). unfold cond_truth, build_condition_expression.
    by rewrite Hs.
  - by apply (add_filters_spec (λ _, TTrue)).
  - intros v. by apply add_filters_spec.
Qed.
End WhereClause.

(** ** Filter values *)

(** [serde_json::to_value], by its documentation: it fails where the value's own
    serialization does, and a float that is not finite is written as [null], or is
    refused. *)
Class SerdeValue := {
  to_value : Ser → result Json str;
  to_value_error v e : inside v (SerError e) → ∃ e', to_value v = Err e';
  to_value_non_finite v j w :
    to_value v = Ok j → inside v w → is_non_finite w = true → holds_null j = true;
}.

Section Values.
Context {V : Type} `{SerdeValue}.
Notation ConditionValue := (ConditionValue V).

(** [Result::is_ok_and(|loss| loss.non_finite)]. *)
Definition loses_float (v : Ser) : bool :=
  match json_loss v with Ok loss => non_finite loss | Err _ => false end.

Definition checked_filter_value (v : Ser) : result Json str :=
  match to_value v with
  | Err error => Err (lit "a filter value cannot be bound: " ++ error)
  | Ok json =>
      if holds_null json && loses_float v
      then Err (lit "a filter value holds a NaN or infinite float, which SQL cannot compare")
      else Ok json
  end.

Definition checked_assignment_value (v : Ser) : result (Json * bool) str :=
  json <-? checked_filter_value v;;
  if is_null json then
    loss <-? json_loss v;; Ok (json, none loss)
  else Ok (json, false).

(** [collect::<Result<Vec<_>, _>>]. *)
Fixpoint collect {A B} (f : A → result B str) (l : list A) : result (list B) str :=
  match l with
  | [] => Ok []
  | x :: l' => y <-? f x;; ys <-? collect f l';; Ok (y :: ys)
  end.

(** [ConditionValue::single]. *)
Definition single (v : Ser) : ConditionValue :=
  match checked_assignment_value v with
  | Ok (_, true) => VNone
  | Ok (json, false) => VSingle json
  | Err reason => VInvalid reason
  end.

(** [ConditionValue::list]. *)
Definition value_list (vs : list Ser) : ConditionValue :=
  match collect checked_filter_value vs with
  | Ok values => VList values
  | Err reason => VInvalid reason
  end.

(** [ConditionValue::members]. *)
Definition value_members (vs : list Ser) : ConditionValue :=
  match collect checked_assignment_value vs with
  | Err reason => VInvalid reason
  | Ok checked =>
      if negb (existsb (λ '(value, sql_null), is_null value && negb sql_null) checked)
      then VList (map fst checked)
      else VDocumentList
             (map fst (List.filter (λ '(_, sql_null), negb sql_null) checked))
             (existsb snd checked)
  end.

(** [ConditionValue::range]. *)
Definition range (low high : Ser) : ConditionValue :=
  match checked_filter_value low, checked_filter_value high with
  | Ok low, Ok high => VRange low high
  | Err reason, _ | _, Err reason => VInvalid reason
  end.

Lemma checked_filter_value_spec v :
  match checked_filter_value v with
  | Ok j => to_value v = Ok j ∧ (∀ w, inside v w → is_non_finite w = false)
            ∧ ∃ l, json_loss v = Ok l ∧ none l = is_none v
  | Err _ => True
  end.
Proof.
  unfold checked_filter_value, loses_float.
  destruct (to_value v) as [j|e] eqn:Ej; [|done].
  pose proof (serialize_reports v {| top := true; in_some := false |}) as Hr.
  unfold json_loss in *. destruct (serialize _ v) as [l|e] eqn:El.
  2: { apply to_value_error in Hr as [? ?]. congruence. }
  destruct Hr as (Hf & _ & Hn & _).
  destruct (holds_null j && non_finite l) eqn:E; [done|]. split_and!; [done|..].
  - intros w Hw. destruct (is_non_finite w) eqn:Ew; [|done].
    rewrite (to_value_non_finite v j w) in E by done. cbn in E.
    assert (non_finite l = true) by (apply Hf; eauto). congruence.
  - exists l. split; [done|]. apply eq_true_iff_eq. rewrite Hn. cbn. naive_solver.
Qed.

Lemma collect_Ok {A B} (f : A → result B str) l ys :
  collect f l = Ok ys ↔ Forall2 (λ x y, f x = Ok y) l ys.
Proof.
  revert ys. induction l as [|x l IH]; intros ys; cbn.
  { split; [intros [= <-]; constructor|]. by inversion 1. }
  rewrite rbind_Ok. setoid_rewrite rbind_Ok. setoid_rewrite IH. split.
  - intros (y & ? & ys' & ? & [= <-]). by constructor.
  - inversion 1; subst. eauto 10.
Qed.

Lemma checked_filter_refuses v w :
  inside v w → is_non_finite w = true → ∃ reason, checked_filter_value v = Err reason.
Proof.
  intros Hw Hn. pose proof (checked_filter_value_spec v) as Hs.
  destruct (checked_filter_value v) as [j|e]; [|eauto].
  destruct Hs as (_ & Hf & _). specialize (Hf w Hw). congruence.
Qed.

Lemma collect_Err {A B} (f : A → result B str) l x e :
  x ∈ l → f x = Err e → ∃ e', collect f l = Err e'.
Proof.
  intros Hx He. destruct (collect f l) as [ys|] eqn:E; [|eauto].
  apply collect_Ok in E. apply list_elem_of_lookup in Hx as [i Hi].
  eapply Forall2_lookup_l in E as (y & _ & Hy); [|done]. congruence.
Qed.

(** what a filter holds is the value it was given: a NaN or an infinity anywhere
    in it, or in a member of a list or a bound of a range, is refused and never
    compared as NULL; only an [Option::None], through newtypes and [Some]s, is SQL
    NULL, a unit or a JSON [null] is not; and any other value is its JSON. *)
Theorem filter_values_are_faithful :
  (∀ v w, inside v w → is_non_finite w = true →
     (∃ reason, single v = VInvalid reason)
     ∧ (∀ vs, v ∈ vs → ∃ r1 r2, value_list vs = VInvalid r1 ∧ value_members vs = VInvalid r2)
     ∧ (∀ u, ∃ r1 r2, range v u = VInvalid r1 ∧ range u v = VInvalid r2))
  ∧ (∀ v, single v = VNone → to_value v = Ok JNull ∧ is_none v = true)
  ∧ (∀ v j, single v = VSingle j → to_value v = Ok j ∧ (j = JNull → is_none v = false)).
Proof.
  split_and!.
  - intros v w Hw Hn. destruct (checked_filter_refuses v w Hw Hn) as [reason Hr].
    assert (checked_assignment_value v = Err reason) as Ha
      by (unfold checked_assignment_value; by rewrite Hr).
    split_and!.
    + exists reason. unfold single. by rewrite Ha.
    + intros vs Hv. destruct (collect_Err checked_filter_value vs v reason Hv Hr) as [r1 H1].
      destruct (collect_Err checked_assignment_value vs v reason Hv Ha) as [r2 H2].
      exists r1, r2. unfold value_list, value_members. by rewrite H1, H2.
    + intros u. unfold range. rewrite Hr. destruct (checked_filter_value u); eauto.
  - intros v. unfold single, checked_assignment_value.
    pose proof (checked_filter_value_spec v) as Hs.
    destruct (checked_filter_value v) as [j|e]; cbn; [|done].
    destruct Hs as (Hj & _ & l & Hl & Hn). destruct j; cbn; try done.
    rewrite Hl. cbn. destruct (none l) eqn:E; [|done]. by rewrite <- Hn.
  - intros v j. unfold single, checked_assignment_value.
    pose proof (checked_filter_value_spec v) as Hs.
    destruct (checked_filter_value v) as [j'|e]; cbn; [|done].
    destruct Hs as (Hj & _ & l & Hl & Hn). destruct (is_null j') eqn:Ej.
    + rewrite Hl. cbn. destruct (none l) eqn:E; [done|]. intros [= <-]. by rewrite <- Hn.
    + intros [= <-]. split; [done|]. by intros ->.
Qed.
End Values.

(** ** Concrete instances *)

(** Conditions as trees. *)
Inductive SeaTree (E : Type) := Leaf (e : E) | Node (op : LogicalOp) (ts : list (SeaTree E)).

Arguments Leaf {E}.
Arguments Node {E}.

Fixpoint tree_truth {E} (v : E → Truth) (t : SeaTree E) : Truth :=
  match t with
  | Leaf e => v e
  | Node op ts => junctions op (map (tree_truth v) ts)
  end.

Lemma snoc_truth {E} (v : E → Truth) op ts t :
  junctions op (map (tree_truth v) (ts ++ [t]))
  = if nilb ts then tree_truth v t
    else junction op (junctions op (map (tree_truth v) ts)) (tree_truth v t).
Proof.
  rewrite map_app, junctions_app. cbn [map]. rewrite junctions_one.
  destruct ts; [apply junction_unit_l|done].
Qed.

Lemma nilb_snoc {A} (l : list A) x : nilb (l ++ [x]) = false.
Proof. by destruct l. Qed.

Definition sea_trees (E : Type) : SeaCondition E := {|
  Condition := LogicalOp * list (SeaTree E);
  cond_start := λ op, (op, []);
  add_expr := λ c e, (c.1, c.2 ++ [Leaf e]);
  add_condition := λ c d, (c.1, c.2 ++ [Node d.1 d.2]);
  condition_is_empty := λ c, nilb c.2;
  junction_of := fst;
  truth := λ v c, junctions c.1 (map (tree_truth v) c.2);
  start_is_empty := λ _, eq_refl;
  start_junction := λ _, eq_refl;
  truth_start_all := λ _, eq_refl;
  add_expr_is_empty := λ c e, nilb_snoc c.2 (Leaf e);
  add_expr_junction := λ _ _, eq_refl;
  truth_add_expr := λ v c e, snoc_truth v c.1 c.2 (Leaf e);
  add_condition_is_empty := λ c d _, nilb_snoc c.2 (Node d.1 d.2);
  add_condition_junction := λ _ _, eq_refl;
  truth_add_condition := λ v c d _, snoc_truth v c.1 c.2 (Node d.1 d.2);
|}.

(** A small [to_value]: every float is [null], every container an array. *)
Fixpoint demo_to_value (v : Ser) : result Json str :=
  let go := fix go (vs : list Ser) : result (list Json) str :=
    match vs with
    | [] => Ok []
    | v :: vs => j <-? demo_to_value v;; js <-? go vs;; Ok (j :: js)
    end in
  match v with
  | SerBool b => Ok (JBool b)
  | SerInt z => Ok (JNumber (NegInt z))
  | SerChar c => Ok (JString [c])
  | SerStr s => Ok (JString s)
  | SerSome v | SerNewtypeStruct _ v => demo_to_value v
  | SerNewtypeVariant _ _ name v => j <-? demo_to_value v;; Ok (JObject [(name, j)])
  | SerSeq vs | SerTuple vs | SerTupleStruct _ vs | SerTupleVariant _ _ _ vs =>
      js <-? go vs;; Ok (JArray js)
  | SerError e => Err e
  | SerBytes _ | SerUnitVariant _ _ _ => Ok (JArray [])
  | SerMap _ | SerStruct _ _ | SerStructVariant _ _ _ _ => Err (lit "unsupported")
  | SerF32 _ | SerF64 _ | SerNone | SerUnit | SerUnitStruct _ => Ok JNull
  end.

Lemma demo_seq vs :
  (fix go (vs : list Ser) : result (list Json) str :=
    match vs with
    | [] => Ok []
    | v :: vs => j <-? demo_to_value v;; js <-? go vs;; Ok (j :: js)
    end) vs = collect demo_to_value vs.
Proof. induction vs as [|v vs IH]; [done|]. cbn. by rewrite IH. Qed.

Lemma demo_to_value_error v e : inside v (SerError e) → ∃ e', demo_to_value v = Err e'.
Proof.
  induction v as [v IH] using Ser_members_ind. intros [->|(m & Hm & Hi)]%inside_iff; [eauto|].
  destruct (IH m Hm Hi) as [e' He].
  destruct v; cbn in Hm; try (by apply elem_of_nil in Hm); cbn [demo_to_value];
    rewrite ?demo_seq; try (by eauto);
    try (apply list_elem_of_singleton in Hm as ->; rewrite He; by eauto);
    destruct (collect_Err demo_to_value _ _ _ Hm He) as [e'' ->]; by eauto.
Qed.

Lemma holds_null_member js j : j ∈ js → holds_null j = true → existsb holds_null js = true.
Proof. intros Hj Hn. apply existsb_exists. exists j. by rewrite <- list_elem_of_In. Qed.

Lemma demo_to_value_non_finite v j w :
  demo_to_value v = Ok j → inside v w → is_non_finite w = true → holds_null j = true.
Proof.
  intros Hv Hw Hn. revert j Hv. induction v as [v IH] using Ser_members_ind. intros j Hv.
  apply inside_iff in Hw as [->|(m & Hm & Hi)].
  { by destruct w; cbn in *; simplify_eq. }
  specialize (IH m Hm Hi).
  destruct v; cbn in Hm; try (by apply elem_of_nil in Hm); cbn [demo_to_value] in Hv;
    rewrite ?demo_seq in Hv; try done;
    try (apply list_elem_of_singleton in Hm as ->); try (by apply IH).
  1: { apply rbind_Ok in Hv as (j' & Hj & [= <-]). cbn. by rewrite (IH j'). }
  all: apply rbind_Ok in Hv as (js & Hjs%collect_Ok & [= <-]); cbn;
    apply list_elem_of_lookup in Hm as [i Hi'];
    destruct (Forall2_lookup_l _ _ _ _ _ Hjs Hi') as (j' & Hj' & Hm');
    apply (holds_null_member _ j'); [by eapply list_elem_of_lookup_2|by apply IH].
Qed.

Definition demo_serde_value : SerdeValue := {|
  to_value := demo_to_value;
  to_value_error := demo_to_value_error;
  to_value_non_finite := demo_to_value_non_finite;
|}.

(** A [Some(NaN)] in a list, and a [None]. *)
Lemma filter_values_are_faithful_witness :
  let S := demo_serde_value in
  let nan := SerSome (SerF64 NaN) in
  (∃ r1 r2, @value_list unit S [SerInt 1; nan] = VInvalid r1
            ∧ @value_members unit S [SerInt 1; nan] = VInvalid r2)
  ∧ is_none (SerNewtypeStruct [] SerNone) = true
  ∧ (JNull = JNull → is_none SerUnit = false).
Proof.
  intros S nan. split_and!.
  - apply (proj1 (@filter_values_are_faithful unit S) nan (SerF64 NaN)).
    + apply (inside_member _ (SerF64 NaN)); [by left|constructor].
    + reflexivity.
    + right. left.
  - apply (proj1 (proj2 (@filter_values_are_faithful unit S))). vm_compute. reflexivity.
  - apply (proj2 (proj2 (@filter_values_are_faithful unit S)) SerUnit JNull). vm_compute. reflexivity.
Defined.

Definition demo_condition (o : Operator) (v : ConditionValue unit) : WhereCondition unit :=
  mkCondition (lit "age") o v.

(** [age > 18 AND (age IN (..) OR age IS NULL)], with an empty nested group that
    renders nothing. *)
Lemma where_clause_means_its_filters_witness :
  let SC := sea_trees (Expr unit) in
  let J := simple_json_strings in
  let gt := demo_condition Gt (VSingle (JNumber (PosInt 18))) in
  let in_ := demo_condition In_ (VList [JNull; JBool true]) in
  let null := demo_condition IsNull VNone in
  let g := mkGroup [in_; null] [mkGroup [] [] And] Or in
  ensure_conditions_are_representable SQLite (all_conditions [gt] [g]) = Ok tt
  ∧ ∀ v, truth v (add_filters (cond_start And) [gt] [g]) = filters_truth (cond_truth v) [gt] [g].
Proof.
  intros SC J gt in_ null g. split; [vm_compute; reflexivity|].
  apply (@where_clause_means_its_filters unit SC J SQLite [gt] [g]). vm_compute. reflexivity.
Defined.
