(* ===== verification/LikePattern.v ===== *)
(** * LIKE patterns

    [escape_like_literal] (src/src/columns.rs), the patterns of [where_contains],
    [where_starts_with] and [where_ends_with] (src/src/query/filters.rs), and the
    decoding of such a pattern for SQLite
    (src/src/query/sql/condition_builders/comparison_pattern_list.rs).

    What [LIKE .. ESCAPE '!'] matches is SQL's definition, [like], under any
    notion of equal characters, since backends disagree on case. *)

From S2P Require Import Prelude.

Definition LIKE_ESCAPE_CHAR : char := 33.

Definition escape_like_literal (value : str) : str :=
  value ≫= λ ch,
    if (ch =? LIKE_ESCAPE_CHAR)%N || (ch =? 37)%N || (ch =? 95)%N
    then [LIKE_ESCAPE_CHAR; ch] else [ch].

(** [ConditionValue::contains], [starts_with], [ends_with]: the text they hold. *)
Definition contains_pattern (value : str) : str := [37%N] ++ escape_like_literal value ++ [37%N].
Definition starts_with_pattern (value : str) : str := escape_like_literal value ++ [37%N].
Definition ends_with_pattern (value : str) : str := [37%N] ++ escape_like_literal value.

(** The loop of [sqlite_literal_pattern]: the characters of the pattern, each with
    whether it is a wildcard. *)
Fixpoint literal_tokens (pattern : str) : option (list (char * bool)) :=
  match pattern with
  | [] => Some []
  | ch :: rest =>
      if (ch =? 33)%N then
        match rest with
        | [] => None
        | next :: rest' => tokens ← literal_tokens rest'; Some ((next, false) :: tokens)
        end
      else if (ch =? 95)%N then None
      else if (ch =? 37)%N then tokens ← literal_tokens rest; Some ((37%N, true) :: tokens)
      else tokens ← literal_tokens rest; Some ((ch, false) :: tokens)
  end.

(** [Option::is_some_and(|(_, wildcard)| *wildcard)]. *)
Definition is_wildcard (token : option (char * bool)) : bool :=
  match token with Some (_, wildcard) => wildcard | None => false end.

(** What [sqlite_literal_pattern] makes of the tokens. *)
Definition decode_literal (tokens : list (char * bool)) : option (str * bool * bool) :=
  let leading := is_wildcard (head tokens) in
  let trailing := is_wildcard (list.last tokens) in
  let start := if leading then 1 else 0 in
  let stop := (length tokens - if trailing then 1 else 0) `max` start in
  let middle := take (stop - start) (drop start tokens) in
  if existsb snd middle then None else Some (middle.*1, leading, trailing).

Definition sqlite_literal_pattern (pattern : str) : option (str * bool * bool) :=
  tokens ← literal_tokens pattern; decode_literal tokens.

(** ** [LIKE] *)

Inductive PatternToken := Any | One | Lit (c : char).

(** A pattern with escape character [!]; [None] for a dangling escape. *)
Fixpoint pattern_tokens (pattern : str) : option (list PatternToken) :=
  match pattern with
  | [] => Some []
  | ch :: rest =>
      if (ch =? LIKE_ESCAPE_CHAR)%N then
        match rest with
        | [] => None
        | next :: rest' => tokens ← pattern_tokens rest'; Some (Lit next :: tokens)
        end
      else tokens ← pattern_tokens rest;
        Some ((if (ch =? 37)%N then Any else if (ch =? 95)%N then One else Lit ch) :: tokens)
  end.

Section Like.
Context (same : char → char → bool).

Fixpoint like (tokens : list PatternToken) (text : str) : bool :=
  match tokens with
  | [] => match text with [] => true | _ => false end
  | Lit c :: tokens' =>
      match text with d :: text' => same c d && like tokens' text' | [] => false end
  | One :: tokens' => match text with _ :: text' => like tokens' text' | [] => false end
  | Any :: tokens' =>
      (fix any (text : str) : bool :=
         like tokens' text || match text with [] => false | _ :: text' => any text' end) text
  end.

(** The characters of [literal], one by one. *)
Definition spells (literal m : str) : Prop := Forall2 (λ c d, same c d = true) literal m.

Lemma like_any tokens text :
  like (Any :: tokens) text = true ↔ ∃ a b, text = a ++ b ∧ like tokens b = true.
Proof.
  cbn. induction text as [|d text IH].
  - rewrite orb_false_r. split; [by exists [], []|]. by intros ([|] & [|] & ? & ?).
  - rewrite orb_true_iff. split.
    + intros [?|(a & b & -> & ?)%IH]; [by exists [], (d :: text)|by exists (d :: a), b].
    + intros ([|x a] & b & Hab & Hb); [left; cbn in Hab; by subst|right].
      injection Hab as -> ->. apply IH. by exists a, b.
Qed.

Lemma like_literal (literal : str) tokens text :
  like ((Lit <$> literal) ++ tokens) text = true ↔
  ∃ m b, text = m ++ b ∧ spells literal m ∧ like tokens b = true.
Proof.
  revert text. induction literal as [|c literal IH]; intros text; cbn.
  { split.
    - intros ?. exists [], text. split_and!; [done|constructor|done].
    - intros (m & b & -> & Hm & ?). by inversion Hm. }
  destruct text as [|d text].
  { split; [done|]. intros (m & b & Hmb & Hm & _). inversion Hm; subst. done. }
  rewrite andb_true_iff, IH. split.
  - intros [? (m & b & -> & ? & ?)]. exists (d :: m), b. split_and!; [done|by constructor|done].
  - intros (m & b & Hmb & Hm & ?). inversion Hm; subst. injection Hmb as <- ->. eauto 10.
Qed.

Lemma like_nil text : like [] text = true ↔ text = [].
Proof. by destruct text. Qed.

(** What the four shapes of a literal pattern match. *)
Definition literal_matches (literal : str) (leading trailing : bool) (text : str) : Prop :=
  ∃ a m b, text = a ++ m ++ b ∧ spells literal m
           ∧ (leading = false → a = []) ∧ (trailing = false → b = []).

Lemma like_shape (literal : str) (leading trailing : bool) text :
  like ((if leading then [Any] else []) ++ (Lit <$> literal) ++ (if trailing then [Any] else [])) text
    = true ↔ literal_matches literal leading trailing text.
Proof.
  assert (∀ text, like ((Lit <$> literal) ++ (if trailing then [Any] else [])) text = true ↔
            literal_matches literal false trailing text) as Ht.
  { clear text. intros text. rewrite like_literal. unfold literal_matches. split.
    - intros (m & b & -> & ? & Hb). exists [], m, b. split_and!; try done.
      intros ->. by apply like_nil.
    - intros (a & m & b & -> & ? & -> & Hb); [|done]. exists m, b. split_and!; [done|done|].
      destruct trailing; [|by rewrite Hb].
      apply like_any. exists b, []. by rewrite app_nil_r. }
  destruct leading; [|by rewrite Ht]. cbn [app]. rewrite like_any. setoid_rewrite Ht.
  unfold literal_matches. split.
  - intros (a & b & -> & a' & m & b' & -> & ? & -> & ?); [|done]. by exists a, m, b'.
  - intros (a & m & b & -> & ? & _ & ?). exists a, (m ++ b). split; [done|]. by exists [], m, b.
Qed.
End Like.

(** ** Reading patterns *)

Lemma escape_tokens (value rest : str) :
  pattern_tokens (escape_like_literal value ++ rest)
  = (tokens ← pattern_tokens rest; Some ((Lit <$> value) ++ tokens)).
Proof.
  induction value as [|c value IH]; [cbn; by destruct (pattern_tokens rest)|].
  unfold escape_like_literal in *. rewrite bind_cons, <- app_assoc.
  destruct (c =? LIKE_ESCAPE_CHAR)%N eqn:E1, (c =? 37)%N eqn:E2, (c =? 95)%N eqn:E3;
    cbn [orb app pattern_tokens]; rewrite ?E1, ?E2, ?E3;
    cbn [pattern_tokens]; change ((LIKE_ESCAPE_CHAR =? LIKE_ESCAPE_CHAR)%N) with true;
    cbn iota; rewrite IH; by destruct (pattern_tokens rest).
Qed.

Definition plain (value : str) : list (char * bool) := (λ c, (c, false)) <$> value.

Lemma escape_literal_tokens (value rest : str) :
  literal_tokens (escape_like_literal value ++ rest)
  = (tokens ← literal_tokens rest; Some (plain value ++ tokens)).
Proof.
  induction value as [|c value IH]; [cbn; by destruct (literal_tokens rest)|].
  unfold escape_like_literal in *. rewrite bind_cons, <- app_assoc.
  destruct (c =? 33)%N eqn:E1, (c =? 37)%N eqn:E2, (c =? 95)%N eqn:E3;
    unfold LIKE_ESCAPE_CHAR in *; rewrite ?E1; cbn [orb app literal_tokens];
    rewrite ?E1, ?E2, ?E3; cbn [literal_tokens]; change ((33 =? 33)%N) with true;
    cbn iota; rewrite IH; by destruct (literal_tokens rest).
Qed.

Lemma plain_no_wildcard value : existsb snd (plain value) = false.
Proof. by induction value. Qed.

Lemma plain_chars value : (plain value).*1 = value.
Proof. induction value as [|c value IH]; [done|]. cbn. f_equal. apply IH. Qed.

Lemma length_plain value : length (plain value) = length value.
Proof. apply length_fmap. Qed.

Definition wild (b : bool) : list (char * bool) := if b then [(37%N, true)] else [].

Lemma plain_ends value :
  is_wildcard (head (plain value)) = false ∧ is_wildcard (list.last (plain value)) = false.
Proof.
  split; [by destruct value|]. unfold plain. rewrite fmap_last. by destruct (list.last value).
Qed.

(** A literal between wildcards; a lone wildcard is leading and trailing. *)
Lemma decode_plain value leading trailing :
  (value = [] → leading = trailing) →
  decode_literal (wild leading ++ plain value ++ wild trailing) = Some (value, leading, trailing).
Proof.
  intros Hv. destruct (plain_ends value) as [Hh Hl]. unfold decode_literal.
  assert (is_wildcard (head (wild leading ++ plain value ++ wild trailing)) = leading) as ->.
  { destruct leading; [done|]. cbn. destruct value; [by rewrite <- Hv|done]. }
  assert (is_wildcard (list.last (wild leading ++ plain value ++ wild trailing)) = trailing) as ->.
  { destruct trailing; cbn [wild]; [by rewrite app_assoc, last_snoc|]. rewrite app_nil_r.
    rewrite last_app. destruct (list.last (plain value)) eqn:E; [done|].
    apply last_None in E. destruct value; [|done]. by rewrite Hv. }
  replace ((length (wild leading ++ plain value ++ wild trailing) - (if trailing then 1 else 0))
             `max` (if leading then 1 else 0) - (if leading then 1 else 0)) with (length (plain value)).
  2: { rewrite !length_app. destruct leading, trailing; cbn; lia. }
  replace (drop (if leading then 1 else 0) (wild leading ++ plain value ++ wild trailing))
    with (plain value ++ wild trailing) by by destruct leading.
  by rewrite take_app_length, plain_no_wildcard, plain_chars.
Qed.

Definition token_of (token : char * bool) : PatternToken :=
  if token.2 then Any else Lit token.1.

Lemma literal_tokens_like pattern tokens :
  literal_tokens pattern = Some tokens → pattern_tokens pattern = Some (token_of <$> tokens).
Proof.
  remember (length pattern) as n eqn:Hn. assert (length pattern ≤ n) as Hle by lia. clear Hn.
  revert pattern tokens Hle. induction n as [|n IH]; intros [|ch rest] tokens Hle; cbn in *;
    try (by intros [= <-]); try lia.
  unfold LIKE_ESCAPE_CHAR. destruct (ch =? 33)%N eqn:E1.
  - destruct rest as [|next rest]; [done|]. cbn in Hle.
    destruct (literal_tokens rest) as [ts|] eqn:E; [|done]. intros [= <-].
    rewrite (IH rest ts) by (done || lia). done.
  - destruct (ch =? 95)%N eqn:E2; [done|].
    destruct (ch =? 37)%N eqn:E3; destruct (literal_tokens rest) as [ts|] eqn:E; try done;
      intros [= <-]; rewrite (IH rest ts) by (done || lia); done.
Qed.

Lemma no_wildcards (ps : list (char * bool)) :
  existsb snd ps = false → token_of <$> ps = Lit <$> ps.*1.
Proof.
  induction ps as [|[c w] ps IH]; [done|]. cbn. intros [-> H]%orb_false_iff. by rewrite IH.
Qed.

(** The tokens of a decoded pattern. *)
Lemma literal_shape tokens :
  let leading := is_wildcard (head tokens) in
  let trailing := is_wildcard (list.last tokens) in
  let start := if leading then 1 else 0 in
  let stop := (length tokens - if trailing then 1 else 0) `max` start in
  let middle := take (stop - start) (drop start tokens) in
  existsb snd middle = false →
  (token_of <$> tokens = [Any] ∧ leading = true ∧ trailing = true ∧ middle = [])
  ∨ token_of <$> tokens = (if leading then [Any] else []) ++ (Lit <$> middle.*1)
                          ++ (if trailing then [Any] else []).
Proof.
  destruct tokens as [|[c w] ts]; [by right|].
  destruct ts as [|t ts _] using rev_ind; cbn.
  { destruct w; cbn; [by left|]. by right. }
  rewrite last_cons, last_snoc, length_app. destruct t as [d w']. cbn [is_wildcard].
  destruct w; cbn.
  - replace ((S (length ts + 1) - (if w' then 1 else 0)) `max` 1 - 1)
      with (length ts + if w' then 0 else 1) by (destruct w'; lia).
    rewrite drop_0, fmap_app. destruct w'; cbn.
    + rewrite Nat.add_0_r, take_app_length. intros Hm. right. by rewrite no_wildcards.
    + change 1 with (length [(d, false)]). rewrite <- length_app, firstn_all. intros Hm. right.
      change [Lit d] with (token_of <$> [(d, false)]).
      rewrite <- fmap_app, no_wildcards by done. cbn. by rewrite app_nil_r.
  - destruct w'; cbn.
    + replace ((length ts + 1 - 0) `max` 0 - 0) with (S (length ts)) by lia. cbn.
      rewrite take_app_length. intros Hm. right. cbn. by rewrite fmap_app, no_wildcards.
    + replace (length ts + 1) with (length (ts ++ [(d, false)])) by (rewrite length_app; done).
      rewrite firstn_all. intros Hm. right. rewrite no_wildcards by done.
      by rewrite app_nil_r.
Qed.

(** C21: decoding an escaped pattern for SQLite never changes what it matches: where
    [sqlite_literal_pattern] gives a literal, and whether text may precede and
    follow it, the pattern is one that [LIKE .. ESCAPE '!'] accepts, and it matches
    exactly the texts in which the literal, its characters compared in any way the
    backend compares them, is preceded and followed as told. *)
Theorem sqlite_literal_pattern_is_like pattern literal leading trailing :
  sqlite_literal_pattern pattern = Some (literal, leading, trailing) →
  ∃ tokens, pattern_tokens pattern = Some tokens
    ∧ ∀ same text, like same tokens text = true ↔
                   literal_matches same literal leading trailing text.
Proof.
  unfold sqlite_literal_pattern. destruct (literal_tokens pattern) as [tokens|] eqn:Et; [|done].
  cbn. unfold decode_literal. destruct (existsb snd _) eqn:E; [done|]. intros [= <- <- <-].
  exists (token_of <$> tokens). split; [by apply literal_tokens_like|]. intros same text.
  destruct (literal_shape tokens E) as [(-> & -> & -> & ->)| ->]; [|apply like_shape].
  unfold literal_matches. rewrite like_any. cbn. split.
  - intros (a & b & -> & _). exists a, [], b. split_and!; [done|constructor|done|done].
  - intros (a & m & b & -> & _). exists (a ++ m ++ b), []. by rewrite app_nil_r.
Qed.

(** [where_contains], [where_starts_with] and [where_ends_with] take their text
    literally: whatever wildcards and escapes it holds, the pattern made of it
    matches exactly the texts that contain it, start with it or end with it, under
    any comparison of characters; and on SQLite it decodes back to the text. *)
Theorem literal_patterns_match_literally value :
  (∀ same text,
     (∃ tokens, pattern_tokens (contains_pattern value) = Some tokens
        ∧ (like same tokens text = true ↔ ∃ a m b, text = a ++ m ++ b ∧ spells same value m))
     ∧ (∃ tokens, pattern_tokens (starts_with_pattern value) = Some tokens
        ∧ (like same tokens text = true ↔ ∃ m b, text = m ++ b ∧ spells same value m))
     ∧ (∃ tokens, pattern_tokens (ends_with_pattern value) = Some tokens
        ∧ (like same tokens text = true ↔ ∃ a m, text = a ++ m ∧ spells same value m)))
  ∧ sqlite_literal_pattern (contains_pattern value) = Some (value, true, true)
  ∧ sqlite_literal_pattern (starts_with_pattern value)
    = Some (value, bool_decide (value = []), true)
  ∧ sqlite_literal_pattern (ends_with_pattern value)
    = Some (value, true, bool_decide (value = [])).
Proof.
  split.
  - intros same text. split_and!.
    + exists ([Any] ++ (Lit <$> value) ++ [Any]). split.
      { unfold contains_pattern. cbn [app pattern_tokens]. by rewrite escape_tokens. }
      rewrite (like_shape same value true true). unfold literal_matches. naive_solver.
    + exists ([] ++ (Lit <$> value) ++ [Any]). split.
      { unfold starts_with_pattern. by rewrite escape_tokens. }
      rewrite (like_shape same value false true). unfold literal_matches. split.
      * intros (a & m & b & -> & ? & -> & _); [|done]. by exists m, b.
      * intros (m & b & -> & ?). by exists [], m, b.
    + exists ([Any] ++ (Lit <$> value) ++ []). split.
      { unfold ends_with_pattern. cbn [app pattern_tokens].
        rewrite <- (app_nil_r (escape_like_literal value)). by rewrite escape_tokens. }
      rewrite (like_shape same value true false). unfold literal_matches. split.
      * intros (a & m & b & -> & ? & _ & ->); [|done]. exists a, m. by rewrite app_nil_r.
      * intros (a & m & -> & ?). exists a, m, []. by rewrite app_nil_r.
  - unfold sqlite_literal_pattern, contains_pattern, starts_with_pattern, ends_with_pattern.
    split_and!.
    + cbn [app literal_tokens]. rewrite escape_literal_tokens. cbn. by apply (decode_plain value true true).
    + rewrite escape_literal_tokens. cbn. case_bool_decide; [by subst|].
      by apply (decode_plain value false true).
    + rewrite <- (app_nil_r (escape_like_literal value)). cbn [app literal_tokens].
      rewrite escape_literal_tokens. cbn. case_bool_decide; [by subst|].
      by apply (decode_plain value true false).
Qed.

(** [where_contains("50%")]: the pattern [%50!%%]. *)
Lemma sqlite_literal_pattern_is_like_witness :
  sqlite_literal_pattern (lit "%50!%%") = Some (lit "50%", true, true)
  ∧ ∃ tokens, pattern_tokens (lit "%50!%%") = Some tokens
    ∧ ∀ same text, like same tokens text = true ↔
                   literal_matches same (lit "50%") true true text.
Proof.
  split; [vm_compute; reflexivity|].
  apply sqlite_literal_pattern_is_like. vm_compute. reflexivity.
Defined.
