(* ===== verification/QueryStructure.v ===== *)
(** * Clause structures (src/src/query/structure.rs, structure/consolidation.rs)

    The clauses a query holds besides its filters: joins, compound-select operands,
    window functions and CTEs, with the SQL of the last two, and the consolidation
    of joined rows into parents with their children. *)

From S2P Require Import Prelude Dialect SqlLexer SqlSafety.

(** What the structures carry of other crates' types and of other components: a
    bound value ([sea_query::Value]), a database handle, a column's type
    ([sea_query::ColumnType]), an encrypted column. *)
Class QueryTypes := {
  bound_value : Type;
  database : Type;
  column_type : Type;
  encrypted_column : Type;
}.

Inductive Order := Asc | Desc.

#[export] Instance Order_eq_dec : EqDecision Order.
Proof. solve_decision. Defined.

(** [Order::as_str]. *)
Definition order_str (o : Order) : str := match o with Asc => lit "ASC" | Desc => lit "DESC" end.

Inductive JoinType := Inner | LeftJoin | RightJoin.

(** [JoinType::as_sql]. *)
Definition join_sql (j : JoinType) : str :=
  match j with
  | Inner => lit "INNER JOIN"
  | LeftJoin => lit "LEFT JOIN"
  | RightJoin => lit "RIGHT JOIN"
  end.

Record JoinClause := {
  join_type : JoinType;
  join_table : str;
  join_alias : option str;
  left_column : str;
  right_column : str;
}.

(** [JoinClause::bare_table]: [rsplit('.').next()], what follows the last dot. *)
Definition bare_table (j : JoinClause) : str :=
  default (join_table j) (list.last (split_by (N.eqb 46) (join_table j))).

(** [JoinClause::qualifier]. *)
Definition qualifier (j : JoinClause) : str := default (bare_table j) (join_alias j).

Record SubquerySelect `{QueryTypes} := {
  subquery_sql : str;
  subquery_alias : str;
  subquery_params : list bound_value;
  subquery_source : option (str * str);
  subquery_encrypted_column : option encrypted_column;
  subquery_column_type : option column_type;
}.

Inductive UnionType := Union_ | UnionAll.

(** [UnionType::as_sql]. *)
Definition union_sql (u : UnionType) : str :=
  match u with Union_ => lit "UNION" | UnionAll => lit "UNION ALL" end.

Record UnionProjection `{QueryTypes} := {
  projected_columns : list (option encrypted_column);
  projected_types : list (option column_type);
  projection_complete : bool;
  has_encrypted : bool;
}.

Record UnionClause `{QueryTypes} := {
  union_type : UnionType;
  union_query_sql : str;
  union_params : list bound_value;
  union_raw : bool;
  union_projection : option UnionProjection;
}.

(** [UnionClause::new], [UnionClause::with_params]. *)
Definition UnionClause_new `{QueryTypes} (u : UnionType) (query_sql : str) : UnionClause :=
  {| union_type := u; union_query_sql := query_sql; union_params := [];
     union_raw := true; union_projection := None |}.

Definition UnionClause_with_params `{QueryTypes} (u : UnionType) (query_sql : str)
    (params : list bound_value) : UnionClause :=
  {| union_type := u; union_query_sql := query_sql; union_params := params;
     union_raw := false; union_projection := None |}.

(** ** Window functions *)

Inductive FrameBound :=
  | UnboundedPreceding | UnboundedFollowing | CurrentRow
  | Preceding (n : N) | Following (n : N).

(** [FrameBound::as_sql]. *)
Definition bound_sql (b : FrameBound) : str :=
  match b with
  | UnboundedPreceding => lit "UNBOUNDED PRECEDING"
  | UnboundedFollowing => lit "UNBOUNDED FOLLOWING"
  | CurrentRow => lit "CURRENT ROW"
  | Preceding n => show_N n ++ lit " PRECEDING"
  | Following n => show_N n ++ lit " FOLLOWING"
  end.

Inductive FrameType := Rows | Range_ | Groups.

(** [FrameType::as_sql]. *)
Definition frame_sql (f : FrameType) : str :=
  match f with Rows => lit "ROWS" | Range_ => lit "RANGE" | Groups => lit "GROUPS" end.

Inductive WindowFunctionType :=
  | RowNumber | Rank | DenseRank
  | Ntile (n : N)
  | Lag (column : str) (offset : option Z) (default_ : option str)
  | Lead (column : str) (offset : option Z) (default_ : option str)
  | FirstValue (column : str)
  | LastValue (column : str)
  | NthValue (column : str) (n : N)
  | WSum (column : str)
  | WAvg (column : str)
  | WCount (column : option str)
  | WMin (column : str)
  | WMax (column : str)
  | Custom (expression : str).

(** [WindowFunctionType::column]. *)
Definition window_column (f : WindowFunctionType) : option str :=
  match f with
  | Lag c _ _ | Lead c _ _ | FirstValue c | LastValue c | NthValue c _
  | WSum c | WAvg c | WCount (Some c) | WMin c | WMax c => Some c
  | RowNumber | Rank | DenseRank | Ntile _ | WCount None | Custom _ => None
  end.

(** [WindowFunctionType::value_column]. *)
Definition value_column (f : WindowFunctionType) : option str :=
  match f with
  | Lag c _ _ | Lead c _ _ | FirstValue c | LastValue c | NthValue c _ | WMin c | WMax c => Some c
  | _ => None
  end.

(** [WindowFunctionType::map_column]. *)
Definition map_column (column : str → str) (f : WindowFunctionType) : WindowFunctionType :=
  match f with
  | Lag c offset d => Lag (column c) offset d
  | Lead c offset d => Lead (column c) offset d
  | FirstValue c => FirstValue (column c)
  | LastValue c => LastValue (column c)
  | NthValue c n => NthValue (column c) n
  | WSum c => WSum (column c)
  | WAvg c => WAvg (column c)
  | WCount (Some c) => WCount (Some (column c))
  | WMin c => WMin (column c)
  | WMax c => WMax (column c)
  | RowNumber | Rank | DenseRank | Ntile _ | WCount None | Custom _ => f
  end.

(** An [i32], as [Display] writes it. *)
Definition show_Z (z : Z) : str :=
  match z with
  | Z0 => show_N 0
  | Zpos p => show_N (Npos p)
  | Zneg p => lit "-" ++ show_N (Npos p)
  end.

(** [WindowFunctionType::as_sql_for_db]. *)
Definition function_sql (db : DatabaseType) (f : WindowFunctionType) : str :=
  let quote_column := format_column db in
  let shifted := λ name c offset d,
    name ++ lit "(" ++ quote_column c
    ++ match offset with
       | Some o =>
           lit ", " ++ show_Z o
           ++ match d with Some d => lit ", " ++ d | None => [] end
       | None => []
       end
    ++ lit ")" in
  match f with
  | RowNumber => lit "ROW_NUMBER()"
  | Rank => lit "RANK()"
  | DenseRank => lit "DENSE_RANK()"
  | Ntile n => lit "NTILE(" ++ show_N n ++ lit ")"
  | Lag c offset d => shifted (lit "LAG") c offset d
  | Lead c offset d => shifted (lit "LEAD") c offset d
  | FirstValue c => lit "FIRST_VALUE(" ++ quote_column c ++ lit ")"
  | LastValue c => lit "LAST_VALUE(" ++ quote_column c ++ lit ")"
  | NthValue c n => lit "NTH_VALUE(" ++ quote_column c ++ lit ", " ++ show_N n ++ lit ")"
  | WSum c => lit "SUM(" ++ quote_column c ++ lit ")"
  | WAvg c => lit "AVG(" ++ quote_column c ++ lit ")"
  | WCount (Some c) => lit "COUNT(" ++ quote_column c ++ lit ")"
  | WCount None => lit "COUNT(*)"
  | WMin c => lit "MIN(" ++ quote_column c ++ lit ")"
  | WMax c => lit "MAX(" ++ quote_column c ++ lit ")"
  | Custom expression => expression
  end.

Record WindowFunction := {
  window_function : WindowFunctionType;
  partition_by : list str;
  window_order_by : list (str * Order);
  frame_type : option FrameType;
  frame_start : option FrameBound;
  frame_end : option FrameBound;
  window_alias : str;
}.

(** [WindowFunction::new], [partition_by], [order_by], [frame]. *)
Definition WindowFunction_new (f : WindowFunctionType) (alias : str) : WindowFunction :=
  {| window_function := f; partition_by := []; window_order_by := []; frame_type := None;
     frame_start := None; frame_end := None; window_alias := alias |}.

Definition window_partition_by (w : WindowFunction) (column : str) : WindowFunction :=
  {| window_function := window_function w; partition_by := partition_by w ++ [column];
     window_order_by := window_order_by w; frame_type := frame_type w;
     frame_start := frame_start w; frame_end := frame_end w; window_alias := window_alias w |}.

Definition window_order (w : WindowFunction) (column : str) (direction : Order) : WindowFunction :=
  {| window_function := window_function w; partition_by := partition_by w;
     window_order_by := window_order_by w ++ [(column, direction)]; frame_type := frame_type w;
     frame_start := frame_start w; frame_end := frame_end w; window_alias := window_alias w |}.

Definition window_frame (w : WindowFunction) (f : FrameType) (start end_ : FrameBound)
  : WindowFunction :=
  {| window_function := window_function w; partition_by := partition_by w;
     window_order_by := window_order_by w; frame_type := Some f;
     frame_start := Some start; frame_end := Some end_; window_alias := window_alias w |}.

(** [WindowFunction::map_columns]. *)
Definition map_columns (column : str → str) (w : WindowFunction) : WindowFunction :=
  {| window_function := map_column column (window_function w);
     partition_by := column <$> partition_by w;
     window_order_by := (λ '(c, direction), (column c, direction)) <$> window_order_by w;
     frame_type := frame_type w; frame_start := frame_start w; frame_end := frame_end w;
     window_alias := window_alias w |}.

Definition over_clause_for_db (db : DatabaseType) (w : WindowFunction) : str :=
  join (lit " ")
    ((if bool_decide (partition_by w = []) then []
      else [lit "PARTITION BY " ++ join (lit ", ") (format_column db <$> partition_by w)])
     ++ (if bool_decide (window_order_by w = []) then []
         else [lit "ORDER BY "
               ++ join (lit ", ")
                    ((λ '(c, dir), format_column db c ++ lit " " ++ order_str dir)
                     <$> window_order_by w)])
     ++ match frame_type w, frame_start w with
        | Some f, Some start =>
            [match frame_end w with
             | Some e => frame_sql f ++ lit " BETWEEN " ++ bound_sql start ++ lit " AND " ++ bound_sql e
             | None => frame_sql f ++ lit " " ++ bound_sql start
             end]
        | _, _ => []
        end).

(** [WindowFunction::to_sql_for_db]: MySQL and MariaDB get a [CASE] in place of the
    default that MariaDB's [LAG] and [LEAD] do not take. *)
Definition window_sql (db : DatabaseType) (w : WindowFunction) : str :=
  let over := over_clause_for_db db w in
  let with_default :=
    match window_function w with
    | Lag c (Some offset) (Some d) => Some (lit "LAG", c, offset, d)
    | Lead c (Some offset) (Some d) => Some (lit "LEAD", c, offset, d)
    | _ => None
    end in
  let plain := function_sql db (window_function w) ++ lit " OVER (" ++ over ++ lit ")" in
  let call :=
    match with_default, db with
    | Some (name, c, offset, d), (MySQL | MariaDB) =>
        lit "CASE WHEN " ++ name ++ lit "(1, " ++ show_Z offset ++ lit ") OVER (" ++ over
        ++ lit ") IS NULL THEN " ++ d ++ lit " ELSE " ++ name ++ lit "(" ++ format_column db c
        ++ lit ", " ++ show_Z offset ++ lit ") OVER (" ++ over ++ lit ") END"
    | _, _ => plain
    end in
  call ++ lit " AS " ++ quote_ident db (window_alias w).

(** ** CTEs *)

Record CTE `{QueryTypes} := {
  cte_name : str;
  cte_columns : option (list str);
  cte_query_sql : str;
  cte_recursive : bool;
  cte_params : list bound_value;
}.

(** [CTE::new], [with_columns], [with_params], [recursive]. *)
Definition CTE_new `{QueryTypes} (name query_sql : str) : CTE :=
  {| cte_name := name; cte_columns := None; cte_query_sql := query_sql;
     cte_recursive := false; cte_params := [] |}.

Definition CTE_with_columns `{QueryTypes} (name : str) (columns : list str) (query_sql : str) : CTE :=
  {| cte_name := name; cte_columns := Some columns; cte_query_sql := query_sql;
     cte_recursive := false; cte_params := [] |}.

Definition CTE_with_params `{QueryTypes} (name query_sql : str) (params : list bound_value) : CTE :=
  {| cte_name := name; cte_columns := None; cte_query_sql := query_sql;
     cte_recursive := false; cte_params := params |}.

Definition CTE_make_recursive `{QueryTypes} (cte : CTE) : CTE :=
  {| cte_name := cte_name cte; cte_columns := cte_columns cte;
     cte_query_sql := cte_query_sql cte; cte_recursive := true; cte_params := cte_params cte |}.

(** [CTE::to_sql_with_body_for_db], [CTE::to_sql_for_db]. *)
Definition cte_sql_with_body `{QueryTypes} (db : DatabaseType) (cte : CTE) (body : str) : str :=
  quote_ident db (cte_name cte)
  ++ match cte_columns cte with
     | Some cols => lit " (" ++ column_list db cols [] ++ lit ")"
     | None => []
     end
  ++ lit " AS (" ++ body ++ lit ")".

Definition cte_sql `{QueryTypes} (db : DatabaseType) (cte : CTE) : str :=
  cte_sql_with_body db cte (cte_query_sql cte).
