(* ===== verification/Consolidation.v ===== *)
(** * Consolidation of joined rows (src/src/query/structure/consolidation.rs)

    [JoinResultConsolidator]: the flat rows of a join, grouped into each parent with
    its children. The groups are a vector in order of first appearance, with a map
    from a parent's key to its place; an index out of range, which would panic, is
    [None]. *)

From S2P Require Import Prelude.

(** ** The code *)

Section Slots.
Context `{Countable K} {G : Type}.

(** The slot of a key's group, pushing [make] for a key seen for the first time. *)
Definition group_slot (index : gmap K nat) (groups : list G) (key : K) (make : G)
  : gmap K nat * list G * nat :=
  match index !! key with
  | Some slot => (index, groups, slot)
  | None =>
      let groups := groups ++ [make] in
      (<[key := length groups - 1]> index, groups, length groups - 1)
  end.

(** One round of the loops: the group of the item's key, changed in place. *)
Definition group_step {A X} (key : A → K) (make : A → G) (extend : G → X → option G)
    (st : gmap K nat * list G) (item : A * X) : option (gmap K nat * list G) :=
  let '(index, groups, slot) := group_slot st.1 st.2 (key item.1) (make item.1) in
  g ← groups !! slot;
  g' ← extend g item.2;
  Some (index, <[slot := g']> groups).

Fixpoint group_all {A X} (key : A → K) (make : A → G) (extend : G → X → option G)
    (st : gmap K nat * list G) (items : list (A * X)) : option (gmap K nat * list G) :=
  match items with
  | [] => Some st
  | item :: items' =>
      st' ← group_step key make extend st item;
      group_all key make extend st' items'
  end.
End Slots.

(** [Vec::extend] with an [Option]. *)
Definition extend_children {A B} (group : A * list B) (maybe_b : option B) : option (A * list B) :=
  Some (group.1, group.2 ++ option_list maybe_b).

Section Consolidator.
Context {A B C : Type} `{Countable KA, Countable KB}.

Definition group_pairs (key_fn : A → KA) (items : list (A * option B)) : option (list (A * list B)) :=
  snd <$> group_all key_fn (λ a, (a, [])) extend_children (∅, []) items.

(** [ParentGroup]: a parent, and its children with their own index. *)
Record ParentGroup := {
  parent : A;
  child_index : gmap KB nat;
  children : list (B * list C);
}.

Definition extend_parent (key_b : B → KB) (group : ParentGroup) (item : B * option C)
  : option ParentGroup :=
  st ← group_step key_b (λ b, (b, [])) extend_children (child_index group, children group) item;
  Some {| parent := parent group; child_index := st.1; children := st.2 |}.

Definition group_triples (key_a : A → KA) (key_b : B → KB) (items : list (A * (B * option C)))
  : option (list (A * list (B * list C))) :=
  match group_all key_a (λ a, {| parent := a; child_index := ∅; children := [] |})
          (extend_parent key_b) (∅, []) items with
  | Some (_, groups) => Some ((λ group, (parent group, children group)) <$> groups)
  | None => None
  end.

(** [JoinResultConsolidator::consolidate_two], [consolidate_two_optional],
    [consolidate_three], [consolidate_three_optional]. *)
Definition consolidate_two (items : list (A * B)) (key_fn : A → KA) : option (list (A * list B)) :=
  group_pairs key_fn ((λ '(a, b), (a, Some b)) <$> items).

Definition consolidate_two_optional (items : list (A * option B)) (key_fn : A → KA)
  : option (list (A * list B)) :=
  group_pairs key_fn items.

Definition consolidate_three (items : list (A * B * C)) (key_a : A → KA) (key_b : B → KB)
  : option (list (A * list (B * list C))) :=
  group_triples key_a key_b ((λ '(a, b, c), (a, (b, Some c))) <$> items).

Definition consolidate_three_optional (items : list (A * B * option C)) (key_a : A → KA)
    (key_b : B → KB) : option (list (A * list (B * list C))) :=
  group_triples key_a key_b ((λ '(a, b, c), (a, (b, c))) <$> items).
End Consolidator.

(** ** The reference: parents by first appearance *)

Section Reference.
Context {K : Type} `{EqDecision K} {A : Type} (key : A → K).

(** The first item of each key, in order. *)
Definition add_parent (ps : list A) (a : A) : list A :=
  if decide (key a ∈ key <$> ps) then ps else ps ++ [a].

Definition parents (items : list A) : list A := foldl add_parent [] items.

(** What the items of a key carry, in order. *)
Definition carried {X} (k : K) (items : list (A * X)) : list X :=
  snd <$> filter (λ item, key item.1 = k) items.

Lemma parents_snoc items a : parents (items ++ [a]) = add_parent (parents items) a.
Proof. unfold parents. by rewrite foldl_app. Qed.

Lemma carried_snoc {X} k (items : list (A * X)) item :
  carried k (items ++ [item])
  = carried k items ++ if decide (key item.1 = k) then [item.2] else [].
Proof.
  unfold carried. rewrite list.filter_app, fmap_app, list.filter_cons. by destruct (decide _).
Qed.

Lemma carried_nil {X} k (items : list (A * X)) : k ∉ key <$> items.*1 → carried k items = [].
Proof.
  unfold carried. induction items as [|[a x] items IH]; [done|].
  rewrite !fmap_cons, not_elem_of_cons. intros [Hne Hk]. rewrite list.filter_cons, decide_False by (cbn in *; congruence).
  by apply IH.
Qed.

Lemma parents_keys items k : k ∈ key <$> parents items ↔ k ∈ key <$> items.
Proof.
  induction items as [|a items IH] using rev_ind; [done|].
  rewrite parents_snoc, fmap_app, elem_of_app, <- IH. unfold add_parent.
  destruct (decide _) as [Hin|Hin]; cbn.
  - split; [by left|]. intros [?|Hk]; [done|]. apply list_elem_of_singleton in Hk as ->. done.
  - by rewrite fmap_app, elem_of_app.
Qed.

Lemma parents_NoDup items : NoDup (key <$> parents items).
Proof.
  induction items as [|a items IH] using rev_ind; [constructor|].
  rewrite parents_snoc. unfold add_parent. destruct (decide _) as [|Hin]; [done|].
  rewrite fmap_app. apply list.NoDup_app. split_and!; [done| |apply NoDup_singleton].
  intros k Hk Hk2. apply list_elem_of_singleton in Hk2 as ->. done.
Qed.
End Reference.

Section Grouping.
Context `{Countable K} {A X G : Type} (key : A → K) (make : A → G) (extend : G → X → option G).
Context (made : A → list X → G)
  (made_nil : ∀ a, made a [] = make a)
  (made_snoc : ∀ a xs x, extend (made a xs) x = Some (made a (xs ++ [x]))).

Definition grouped (items : list (A * X)) : list G :=
  (λ a, made a (carried key (key a) items)) <$> parents key (items.*1).

Definition indexes (ps : list A) (index : gmap K nat) : Prop :=
  ∀ k i, index !! k = Some i ↔ key <$> ps !! i = Some k.

Lemma indexes_None ps index k : indexes ps index → index !! k = None ↔ k ∉ key <$> ps.
Proof.
  intros Hi. rewrite list_elem_of_fmap, eq_None_not_Some. apply not_iff_compat.
  split.
  - intros [i Hk]. apply Hi in Hk. destruct (ps !! i) as [a|] eqn:E; [|done].
    injection Hk as <-. exists a. split; [done|by eapply list_elem_of_lookup_2].
  - intros (a & -> & [i Ha]%list_elem_of_lookup). exists i. apply Hi. by rewrite Ha.
Qed.

(** The item's group gets what the item carries, and no other changes. *)
Lemma grouped_update items a x i :
  key <$> parents key items.*1 !! i = Some (key a) →
  <[i := made (default a (parents key items.*1 !! i)) (carried key (key a) items ++ [x])]>
    (grouped items)
  = grouped (items ++ [(a, x)]).
Proof.
  intros Hi. unfold grouped. rewrite fmap_app. cbn. rewrite parents_snoc.
  assert (key a ∈ key <$> parents key items.*1) as Hin.
  { apply list_elem_of_lookup. exists i. by rewrite list_lookup_fmap. }
  unfold add_parent. rewrite decide_True by done.
  apply list_eq. intros j. rewrite list_lookup_fmap.
  destruct (decide (i = j)) as [<-|Hne].
  - destruct (parents key items.*1 !! i) as [b|] eqn:Eb; [|done]. cbn in *. injection Hi as Hb.
    rewrite list_lookup_insert_eq by (rewrite length_fmap; by eapply lookup_lt_Some).
    by rewrite carried_snoc, Hb, decide_True.
  - rewrite list_lookup_insert_ne, list_lookup_fmap by done.
    destruct (parents key items.*1 !! j) as [b|] eqn:Eb; [|done]. cbn. f_equal. f_equal.
    rewrite carried_snoc, decide_False, app_nil_r; [done|]. cbn. intros Hk.
    apply Hne. eapply (NoDup_lookup (key <$> parents key items.*1)); [apply parents_NoDup|..].
    + by rewrite list_lookup_fmap.
    + rewrite list_lookup_fmap, Eb. cbn. by rewrite Hk.
Qed.

Lemma group_step_spec items index a x :
  indexes (parents key items.*1) index →
  ∃ index', group_step key make extend (index, grouped items) (a, x)
              = Some (index', grouped (items ++ [(a, x)]))
            ∧ indexes (parents key (items ++ [(a, x)]).*1) index'.
Proof.
  intros Hi. unfold group_step, group_slot. cbn [fst snd].
  destruct (index !! key a) as [i|] eqn:E.
  - exists index. pose proof (proj1 (Hi _ _) E) as Hk.
    destruct (parents key items.*1 !! i) as [b|] eqn:Eb; [|done]. cbn in Hk. injection Hk as Hk.
    assert (grouped items !! i = Some (made b (carried key (key b) items))) as ->.
    { unfold grouped. by rewrite list_lookup_fmap, Eb. }
    cbn. rewrite made_snoc. cbn. rewrite Hk. split.
    + rewrite <- (grouped_update items a x i); rewrite Eb; cbn; [done|by rewrite Hk].
    + rewrite fmap_app. cbn. rewrite parents_snoc. unfold add_parent.
      rewrite decide_True; [done|]. apply list_elem_of_lookup. exists i.
      rewrite list_lookup_fmap, Eb. cbn. by rewrite Hk.
  - apply (indexes_None _ _ _ Hi) in E.
    rewrite length_app, Nat.add_sub.
    replace (length (grouped items)) with (length (parents key items.*1))
      by (unfold grouped; by rewrite length_fmap).
    exists (<[key a := length (parents key items.*1)]> index).
    assert (length (parents key items.*1) = length (grouped items)) as Hlen
      by (unfold grouped; by rewrite length_fmap).
    rewrite Hlen at 1. rewrite list_lookup_middle by done. cbn.
    rewrite <- made_nil, made_snoc. cbn. split.
    + f_equal. f_equal. rewrite Hlen at 1. rewrite insert_app_r_alt, Nat.sub_diag by done. cbn.
      unfold grouped. rewrite fmap_app. cbn. rewrite parents_snoc. unfold add_parent.
      rewrite decide_False by done. rewrite fmap_app. cbn. f_equal.
      * apply list_fmap_ext. intros j b Hb. f_equal. rewrite carried_snoc, decide_False, app_nil_r; [done|].
        cbn. intros Hk. apply E, list_elem_of_lookup. exists j. rewrite list_lookup_fmap, Hb.
        cbn. by rewrite Hk.
      * rewrite carried_snoc, decide_True by done. cbn.
        rewrite carried_nil; [done|]. by rewrite <- parents_keys.
    + rewrite fmap_app. cbn. rewrite parents_snoc. unfold add_parent.
      rewrite decide_False by done. intros k i. rewrite lookup_insert_Some, lookup_app.
      destruct (parents key items.*1 !! i) as [b|] eqn:Eb.
      * cbn. rewrite (Hi k i), Eb. cbn. split; [|intros [= <-]; right; split; [|done]].
        -- intros [[_ <-]|[_ ?]]; [by apply lookup_lt_Some, Nat.lt_irrefl in Eb|done].
        -- intros Hk. apply E, list_elem_of_lookup. exists i. rewrite list_lookup_fmap, Eb.
           cbn. by rewrite Hk.
      * cbn. rewrite (Hi k i), Eb. cbn. apply lookup_ge_None in Eb. split.
        -- intros [[<- <-]|[_ ?]]; [|done]. by rewrite Nat.sub_diag.
        -- destruct (i - length (parents key items.*1)) as [|n] eqn:En; cbn; [|done].
           intros [= <-]. left. split; [done|lia].
Qed.

(** The loop never panics, and its groups are the reference's. *)
Lemma group_all_spec items :
  ∃ index, group_all key make extend (∅, []) items = Some (index, grouped items)
           ∧ indexes (parents key items.*1) index.
Proof.
  assert (∀ done_ index todo,
    indexes (parents key done_.*1) index →
    ∃ index', group_all key make extend (index, grouped done_) todo
                = Some (index', grouped (done_ ++ todo))
              ∧ indexes (parents key (done_ ++ todo).*1) index') as Hgo.
  { intros done_ index todo. revert done_ index.
    induction todo as [|[a x] todo IH]; intros done_ index Hi; cbn [group_all].
    { rewrite app_nil_r. eauto. }
    destruct (group_step_spec done_ index a x Hi) as (index' & -> & Hi'). cbn.
    destruct (IH (done_ ++ [(a, x)]) index' Hi') as (index'' & -> & ?).
    exists index''. by rewrite <- app_assoc in *. }
  apply (Hgo [] ∅ items). intros k i. rewrite lookup_empty. done.
Qed.
End Grouping.

(** ** The consolidators *)

(** Each parent, by first appearance, with the children of its rows in order; a
    row without a child only adds the parent. *)
Definition nested_two {K A B} `{EqDecision K} (key : A → K) (items : list (A * option B))
  : list (A * list B) :=
  (λ a, (a, omap id (carried key (key a) items))) <$> parents key items.*1.

Definition nested_three {KA KB A B C} `{EqDecision KA, EqDecision KB} (key_a : A → KA)
    (key_b : B → KB) (items : list (A * (B * option C))) : list (A * list (B * list C)) :=
  (λ a, (a, nested_two key_b (carried key_a (key_a a) items))) <$> parents key_a items.*1.

Section Consolidated.
Context {A B C : Type} `{Countable KA, Countable KB}.

Definition made_pair (a : A) (xs : list (option B)) : A * list B := (a, omap id xs).

Lemma made_pair_snoc a xs x :
  extend_children (made_pair a xs) x = Some (made_pair a (xs ++ [x])).
Proof.
  unfold extend_children, made_pair. cbn. do 2 f_equal. rewrite omap_app. cbn.
  by destruct x.
Qed.

Lemma group_pairs_spec (key : A → KA) (items : list (A * option B)) :
  ∃ index, group_all key (λ a, (a, [])) extend_children (∅, []) items
             = Some (index, nested_two key items).
Proof.
  destruct (group_all_spec key (λ a, (a, [])) extend_children made_pair
              (λ _, eq_refl) made_pair_snoc items) as (index & ? & _).
  by exists index.
Qed.
End Consolidated.

Lemma group_all_snoc `{Countable K} {A X G} (key : A → K) (make : A → G) (extend : G → X → option G)
    st items item :
  group_all key make extend st (items ++ [item])
  = (st' ← group_all key make extend st items; group_step key make extend st' item).
Proof.
  revert st. induction items as [|i items IH]; intros st; cbn.
  { by destruct (group_step key make extend st item). }
  destruct (group_step key make extend st i); [apply IH|done].
Qed.

Section ConsolidatedThree.
Context {A B C : Type} `{Countable KA, Countable KB} (key_a : A → KA) (key_b : B → KB).

(** A parent's group after the rows [xs]. *)
Definition made_parent (a : A) (xs : list (B * option C)) : @ParentGroup A B C KB _ _ :=
  let st := default (∅, []) (group_all key_b (λ b, (b, [])) extend_children (∅, []) xs) in
  {| parent := a; child_index := st.1; children := st.2 |}.

Lemma made_parent_nil a : made_parent a [] = {| parent := a; child_index := ∅; children := [] |}.
Proof. done. Qed.

Lemma made_parent_snoc a xs x :
  extend_parent key_b (made_parent a xs) x = Some (made_parent a (xs ++ [x])).
Proof.
  unfold extend_parent, made_parent. rewrite group_all_snoc.
  destruct (group_pairs_spec key_b xs) as (index & E). rewrite E. cbn.
  destruct (group_pairs_spec key_b (xs ++ [x])) as (index' & E').
  rewrite group_all_snoc, E in E'. cbn in E'. by rewrite E'.
Qed.

Lemma group_triples_spec (items : list (A * (B * option C))) :
  group_triples key_a key_b items = Some (nested_three key_a key_b items).
Proof.
  unfold group_triples.
  destruct (group_all_spec key_a _ (extend_parent key_b) made_parent made_parent_nil
              made_parent_snoc items)
    as (index & -> & _).
  f_equal. unfold grouped, nested_three. rewrite <- list_fmap_compose.
  apply list_fmap_ext. intros i a _. unfold made_parent. cbn.
  by destruct (group_pairs_spec key_b (carried key_a (key_a a) items)) as (? & ->).
Qed.

(** consolidating the rows of a join never panics and loses nothing: every parent
    appears once, in order of first appearance and as its first row has it, with
    the children of all its rows in row order, whatever rows of other parents lie
    between; a row without a child keeps its parent; and with grandchildren the
    same holds at both levels, a child key counting per parent. *)
Theorem consolidation_groups_by_first_appearance :
  (∀ items : list (A * B), consolidate_two items key_a
     = Some (nested_two key_a ((λ '(a, b), (a, Some b)) <$> items)))
  ∧ (∀ items : list (A * option B), consolidate_two_optional items key_a
     = Some (nested_two key_a items))
  ∧ (∀ items : list (A * B * C), consolidate_three items key_a key_b
     = Some (nested_three key_a key_b ((λ '(a, b, c), (a, (b, Some c))) <$> items)))
  ∧ (∀ items : list (A * B * option C), consolidate_three_optional items key_a key_b
     = Some (nested_three key_a key_b ((λ '(a, b, c), (a, (b, c))) <$> items))).
Proof.
  split_and!; intros items.
  - unfold consolidate_two, group_pairs.
    by destruct (group_pairs_spec key_a ((λ '(a, b), (a, Some b)) <$> items)) as (? & ->).
  - unfold consolidate_two_optional, group_pairs.
    by destruct (group_pairs_spec key_a items) as (? & ->).
  - apply group_triples_spec.
  - apply group_triples_spec.
Qed.
End ConsolidatedThree.
