(* ===== verification/Clauses.v ===== *)
(** * The clauses of a query (src/src/query/clauses.rs)

    What a [QueryBuilder] holds besides its database, the builder calls that fill it
    (src/src/query/builder.rs, predicates.rs, or_clauses.rs, advanced/*.rs,
    sql/execution.rs), and the merge by which [apply] puts a [QueryFragment] into a
    query, checked against replaying the calls that made the fragment.

    A call that embeds another query takes what the embedding reads of that query,
    an [Operand]; the backend, and what the model says of columns, are parameters of
    a query and its fragments alike. *)

From S2P Require Import Prelude Dialect SqlLexer SqlSafety JsonPath JsonLoss Filters QueryStructure.

(** [CacheOptions]: a time to live, in nanoseconds. *)
Record CacheOptions := { cache_ttl : N }.

Record Clauses `{QueryTypes} := mkClauses {
  dependencies : list str;
  operand_databases : list database;
  conditions : list (WhereCondition bound_value);
  or_groups : list (OrGroup bound_value);
  simple_or_group : option nat;
  order_by : list (str * Order);
  limit_value : option N;
  offset_value : option N;
  select_columns : option (list str);
  raw_select_expressions : list str;
  subquery_select_expressions : list SubquerySelect;
  group_by : list str;
  having_conditions : list str;
  having_bindings : list (list bound_value);
  having_typed_bindings : gmap nat (str * Json);
  having_comparisons : list (str * str);
  joins : list JoinClause;
  unions : list UnionClause;
  window_functions : list WindowFunction;
  ctes : list CTE;
  cache_options : option CacheOptions;
  cache_key : option str;
  invalid_query_reason : option str;
  invalid_page : option (str * str);
  include_trashed : bool;
  only_trashed : bool;
  lock_for_update : bool;
}.

Arguments mkClauses {_}.

Definition Clauses_default `{QueryTypes} : Clauses :=
  mkClauses [] [] [] [] None [] None None None [] [] [] [] [] ∅ [] [] [] [] [] None None None None false false false.

(** One field changed. *)
Definition upd_dependencies `{QueryTypes} (f : list str → list str) (c : Clauses) : Clauses :=
  mkClauses (f (dependencies c)) (operand_databases c) (conditions c) (or_groups c)
    (simple_or_group c) (order_by c) (limit_value c) (offset_value c) (select_columns c)
    (raw_select_expressions c) (subquery_select_expressions c) (group_by c) (having_conditions c)
    (having_bindings c) (having_typed_bindings c) (having_comparisons c) (joins c) (unions c)
    (window_functions c) (ctes c) (cache_options c) (cache_key c) (invalid_query_reason c)
    (invalid_page c) (include_trashed c) (only_trashed c) (lock_for_update c).
Definition upd_operand_databases `{QueryTypes} (f : list database → list database) (c : Clauses) : Clauses :=
  mkClauses (dependencies c) (f (operand_databases c)) (conditions c) (or_groups c)
    (simple_or_group c) (order_by c) (limit_value c) (offset_value c) (select_columns c)
    (raw_select_expressions c) (subquery_select_expressions c) (group_by c) (having_conditions c)
    (having_bindings c) (having_typed_bindings c) (having_comparisons c) (joins c) (unions c)
    (window_functions c) (ctes c) (cache_options c) (cache_key c) (invalid_query_reason c)
    (invalid_page c) (include_trashed c) (only_trashed c) (lock_for_update c).
Definition upd_conditions `{QueryTypes} (f : list (WhereCondition bound_value) → list (WhereCondition bound_value)) (c : Clauses) : Clauses :=
  mkClauses (dependencies c) (operand_databases c) (f (conditions c)) (or_groups c)
    (simple_or_group c) (order_by c) (limit_value c) (offset_value c) (select_columns c)
    (raw_select_expressions c) (subquery_select_expressions c) (group_by c) (having_conditions c)
    (having_bindings c) (having_typed_bindings c) (having_comparisons c) (joins c) (unions c)
    (window_functions c) (ctes c) (cache_options c) (cache_key c) (invalid_query_reason c)
    (invalid_page c) (include_trashed c) (only_trashed c) (lock_for_update c).
Definition upd_or_groups `{QueryTypes} (f : list (OrGroup bound_value) → list (OrGroup bound_value)) (c : Clauses) : Clauses :=
  mkClauses (dependencies c) (operand_databases c) (conditions c) (f (or_groups c))
    (simple_or_group c) (order_by c) (limit_value c) (offset_value c) (select_columns c)
    (raw_select_expressions c) (subquery_select_expressions c) (group_by c) (having_conditions c)
    (having_bindings c) (having_typed_bindings c) (having_comparisons c) (joins c) (unions c)
    (window_functions c) (ctes c) (cache_options c) (cache_key c) (invalid_query_reason c)
    (invalid_page c) (include_trashed c) (only_trashed c) (lock_for_update c).
Definition upd_simple_or_group `{QueryTypes} (f : option nat → option nat) (c : Clauses) : Clauses :=
  mkClauses (dependencies c) (operand_databases c) (conditions c) (or_groups c) (f
    (simple_or_group c)) (order_by c) (limit_value c) (offset_value c) (select_columns c)
    (raw_select_expressions c) (subquery_select_expressions c) (group_by c) (having_conditions c)
    (having_bindings c) (having_typed_bindings c) (having_comparisons c) (joins c) (unions c)
    (window_functions c) (ctes c) (cache_options c) (cache_key c) (invalid_query_reason c)
    (invalid_page c) (include_trashed c) (only_trashed c) (lock_for_update c).
Definition upd_order_by `{QueryTypes} (f : list (str * Order) → list (str * Order)) (c : Clauses) : Clauses :=
  mkClauses (dependencies c) (operand_databases c) (conditions c) (or_groups c) (simple_or_group
    c) (f (order_by c)) (limit_value c) (offset_value c) (select_columns c)
    (raw_select_expressions c) (subquery_select_expressions c) (group_by c) (having_conditions c)
    (having_bindings c) (having_typed_bindings c) (having_comparisons c) (joins c) (unions c)
    (window_functions c) (ctes c) (cache_options c) (cache_key c) (invalid_query_reason c)
    (invalid_page c) (include_trashed c) (only_trashed c) (lock_for_update c).
Definition upd_limit_value `{QueryTypes} (f : option N → option N) (c : Clauses) : Clauses :=
  mkClauses (dependencies c) (operand_databases c) (conditions c) (or_groups c) (simple_or_group
    c) (order_by c) (f (limit_value c)) (offset_value c) (select_columns c)
    (raw_select_expressions c) (subquery_select_expressions c) (group_by c) (having_conditions c)
    (having_bindings c) (having_typed_bindings c) (having_comparisons c) (joins c) (unions c)
    (window_functions c) (ctes c) (cache_options c) (cache_key c) (invalid_query_reason c)
    (invalid_page c) (include_trashed c) (only_trashed c) (lock_for_update c).
Definition upd_offset_value `{QueryTypes} (f : option N → option N) (c : Clauses) : Clauses :=
  mkClauses (dependencies c) (operand_databases c) (conditions c) (or_groups c) (simple_or_group
    c) (order_by c) (limit_value c) (f (offset_value c)) (select_columns c)
    (raw_select_expressions c) (subquery_select_expressions c) (group_by c) (having_conditions c)
    (having_bindings c) (having_typed_bindings c) (having_comparisons c) (joins c) (unions c)
    (window_functions c) (ctes c) (cache_options c) (cache_key c) (invalid_query_reason c)
    (invalid_page c) (include_trashed c) (only_trashed c) (lock_for_update c).
Definition upd_select_columns `{QueryTypes} (f : option (list str) → option (list str)) (c : Clauses) : Clauses :=
  mkClauses (dependencies c) (operand_databases c) (conditions c) (or_groups c) (simple_or_group
    c) (order_by c) (limit_value c) (offset_value c) (f (select_columns c))
    (raw_select_expressions c) (subquery_select_expressions c) (group_by c) (having_conditions c)
    (having_bindings c) (having_typed_bindings c) (having_comparisons c) (joins c) (unions c)
    (window_functions c) (ctes c) (cache_options c) (cache_key c) (invalid_query_reason c)
    (invalid_page c) (include_trashed c) (only_trashed c) (lock_for_update c).
Definition upd_raw_select_expressions `{QueryTypes} (f : list str → list str) (c : Clauses) : Clauses :=
  mkClauses (dependencies c) (operand_databases c) (conditions c) (or_groups c) (simple_or_group
    c) (order_by c) (limit_value c) (offset_value c) (select_columns c) (f (raw_select_expressions
    c)) (subquery_select_expressions c) (group_by c) (having_conditions c) (having_bindings c)
    (having_typed_bindings c) (having_comparisons c) (joins c) (unions c) (window_functions c)
    (ctes c) (cache_options c) (cache_key c) (invalid_query_reason c) (invalid_page c)
    (include_trashed c) (only_trashed c) (lock_for_update c).
Definition upd_subquery_select_expressions `{QueryTypes} (f : list SubquerySelect → list SubquerySelect) (c : Clauses) : Clauses :=
  mkClauses (dependencies c) (operand_databases c) (conditions c) (or_groups c) (simple_or_group
    c) (order_by c) (limit_value c) (offset_value c) (select_columns c) (raw_select_expressions c)
    (f (subquery_select_expressions c)) (group_by c) (having_conditions c) (having_bindings c)
    (having_typed_bindings c) (having_comparisons c) (joins c) (unions c) (window_functions c)
    (ctes c) (cache_options c) (cache_key c) (invalid_query_reason c) (invalid_page c)
    (include_trashed c) (only_trashed c) (lock_for_update c).
Definition upd_group_by `{QueryTypes} (f : list str → list str) (c : Clauses) : Clauses :=
  mkClauses (dependencies c) (operand_databases c) (conditions c) (or_groups c) (simple_or_group
    c) (order_by c) (limit_value c) (offset_value c) (select_columns c) (raw_select_expressions c)
    (subquery_select_expressions c) (f (group_by c)) (having_conditions c) (having_bindings c)
    (having_typed_bindings c) (having_comparisons c) (joins c) (unions c) (window_functions c)
    (ctes c) (cache_options c) (cache_key c) (invalid_query_reason c) (invalid_page c)
    (include_trashed c) (only_trashed c) (lock_for_update c).
Definition upd_having_conditions `{QueryTypes} (f : list str → list str) (c : Clauses) : Clauses :=
  mkClauses (dependencies c) (operand_databases c) (conditions c) (or_groups c) (simple_or_group
    c) (order_by c) (limit_value c) (offset_value c) (select_columns c) (raw_select_expressions c)
    (subquery_select_expressions c) (group_by c) (f (having_conditions c)) (having_bindings c)
    (having_typed_bindings c) (having_comparisons c) (joins c) (unions c) (window_functions c)
    (ctes c) (cache_options c) (cache_key c) (invalid_query_reason c) (invalid_page c)
    (include_trashed c) (only_trashed c) (lock_for_update c).
Definition upd_having_bindings `{QueryTypes} (f : list (list bound_value) → list (list bound_value)) (c : Clauses) : Clauses :=
  mkClauses (dependencies c) (operand_databases c) (conditions c) (or_groups c) (simple_or_group
    c) (order_by c) (limit_value c) (offset_value c) (select_columns c) (raw_select_expressions c)
    (subquery_select_expressions c) (group_by c) (having_conditions c) (f (having_bindings c))
    (having_typed_bindings c) (having_comparisons c) (joins c) (unions c) (window_functions c)
    (ctes c) (cache_options c) (cache_key c) (invalid_query_reason c) (invalid_page c)
    (include_trashed c) (only_trashed c) (lock_for_update c).
Definition upd_having_typed_bindings `{QueryTypes} (f : gmap nat (str * Json) → gmap nat (str * Json)) (c : Clauses) : Clauses :=
  mkClauses (dependencies c) (operand_databases c) (conditions c) (or_groups c) (simple_or_group
    c) (order_by c) (limit_value c) (offset_value c) (select_columns c) (raw_select_expressions c)
    (subquery_select_expressions c) (group_by c) (having_conditions c) (having_bindings c) (f
    (having_typed_bindings c)) (having_comparisons c) (joins c) (unions c) (window_functions c)
    (ctes c) (cache_options c) (cache_key c) (invalid_query_reason c) (invalid_page c)
    (include_trashed c) (only_trashed c) (lock_for_update c).
Definition upd_having_comparisons `{QueryTypes} (f : list (str * str) → list (str * str)) (c : Clauses) : Clauses :=
  mkClauses (dependencies c) (operand_databases c) (conditions c) (or_groups c) (simple_or_group
    c) (order_by c) (limit_value c) (offset_value c) (select_columns c) (raw_select_expressions c)
    (subquery_select_expressions c) (group_by c) (having_conditions c) (having_bindings c)
    (having_typed_bindings c) (f (having_comparisons c)) (joins c) (unions c) (window_functions c)
    (ctes c) (cache_options c) (cache_key c) (invalid_query_reason c) (invalid_page c)
    (include_trashed c) (only_trashed c) (lock_for_update c).
Definition upd_joins `{QueryTypes} (f : list JoinClause → list JoinClause) (c : Clauses) : Clauses :=
  mkClauses (dependencies c) (operand_databases c) (conditions c) (or_groups c) (simple_or_group
    c) (order_by c) (limit_value c) (offset_value c) (select_columns c) (raw_select_expressions c)
    (subquery_select_expressions c) (group_by c) (having_conditions c) (having_bindings c)
    (having_typed_bindings c) (having_comparisons c) (f (joins c)) (unions c) (window_functions c)
    (ctes c) (cache_options c) (cache_key c) (invalid_query_reason c) (invalid_page c)
    (include_trashed c) (only_trashed c) (lock_for_update c).
Definition upd_unions `{QueryTypes} (f : list UnionClause → list UnionClause) (c : Clauses) : Clauses :=
  mkClauses (dependencies c) (operand_databases c) (conditions c) (or_groups c) (simple_or_group
    c) (order_by c) (limit_value c) (offset_value c) (select_columns c) (raw_select_expressions c)
    (subquery_select_expressions c) (group_by c) (having_conditions c) (having_bindings c)
    (having_typed_bindings c) (having_comparisons c) (joins c) (f (unions c)) (window_functions c)
    (ctes c) (cache_options c) (cache_key c) (invalid_query_reason c) (invalid_page c)
    (include_trashed c) (only_trashed c) (lock_for_update c).
Definition upd_window_functions `{QueryTypes} (f : list WindowFunction → list WindowFunction) (c : Clauses) : Clauses :=
  mkClauses (dependencies c) (operand_databases c) (conditions c) (or_groups c) (simple_or_group
    c) (order_by c) (limit_value c) (offset_value c) (select_columns c) (raw_select_expressions c)
    (subquery_select_expressions c) (group_by c) (having_conditions c) (having_bindings c)
    (having_typed_bindings c) (having_comparisons c) (joins c) (unions c) (f (window_functions c))
    (ctes c) (cache_options c) (cache_key c) (invalid_query_reason c) (invalid_page c)
    (include_trashed c) (only_trashed c) (lock_for_update c).
Definition upd_ctes `{QueryTypes} (f : list CTE → list CTE) (c : Clauses) : Clauses :=
  mkClauses (dependencies c) (operand_databases c) (conditions c) (or_groups c) (simple_or_group
    c) (order_by c) (limit_value c) (offset_value c) (select_columns c) (raw_select_expressions c)
    (subquery_select_expressions c) (group_by c) (having_conditions c) (having_bindings c)
    (having_typed_bindings c) (having_comparisons c) (joins c) (unions c) (window_functions c) (f
    (ctes c)) (cache_options c) (cache_key c) (invalid_query_reason c) (invalid_page c)
    (include_trashed c) (only_trashed c) (lock_for_update c).
Definition upd_cache_options `{QueryTypes} (f : option CacheOptions → option CacheOptions) (c : Clauses) : Clauses :=
  mkClauses (dependencies c) (operand_databases c) (conditions c) (or_groups c) (simple_or_group
    c) (order_by c) (limit_value c) (offset_value c) (select_columns c) (raw_select_expressions c)
    (subquery_select_expressions c) (group_by c) (having_conditions c) (having_bindings c)
    (having_typed_bindings c) (having_comparisons c) (joins c) (unions c) (window_functions c)
    (ctes c) (f (cache_options c)) (cache_key c) (invalid_query_reason c) (invalid_page c)
    (include_trashed c) (only_trashed c) (lock_for_update c).
Definition upd_cache_key `{QueryTypes} (f : option str → option str) (c : Clauses) : Clauses :=
  mkClauses (dependencies c) (operand_databases c) (conditions c) (or_groups c) (simple_or_group
    c) (order_by c) (limit_value c) (offset_value c) (select_columns c) (raw_select_expressions c)
    (subquery_select_expressions c) (group_by c) (having_conditions c) (having_bindings c)
    (having_typed_bindings c) (having_comparisons c) (joins c) (unions c) (window_functions c)
    (ctes c) (cache_options c) (f (cache_key c)) (invalid_query_reason c) (invalid_page c)
    (include_trashed c) (only_trashed c) (lock_for_update c).
Definition upd_invalid_query_reason `{QueryTypes} (f : option str → option str) (c : Clauses) : Clauses :=
  mkClauses (dependencies c) (operand_databases c) (conditions c) (or_groups c) (simple_or_group
    c) (order_by c) (limit_value c) (offset_value c) (select_columns c) (raw_select_expressions c)
    (subquery_select_expressions c) (group_by c) (having_conditions c) (having_bindings c)
    (having_typed_bindings c) (having_comparisons c) (joins c) (unions c) (window_functions c)
    (ctes c) (cache_options c) (cache_key c) (f (invalid_query_reason c)) (invalid_page c)
    (include_trashed c) (only_trashed c) (lock_for_update c).
Definition upd_invalid_page `{QueryTypes} (f : option (str * str) → option (str * str)) (c : Clauses) : Clauses :=
  mkClauses (dependencies c) (operand_databases c) (conditions c) (or_groups c) (simple_or_group
    c) (order_by c) (limit_value c) (offset_value c) (select_columns c) (raw_select_expressions c)
    (subquery_select_expressions c) (group_by c) (having_conditions c) (having_bindings c)
    (having_typed_bindings c) (having_comparisons c) (joins c) (unions c) (window_functions c)
    (ctes c) (cache_options c) (cache_key c) (invalid_query_reason c) (f (invalid_page c))
    (include_trashed c) (only_trashed c) (lock_for_update c).
Definition upd_include_trashed `{QueryTypes} (f : bool → bool) (c : Clauses) : Clauses :=
  mkClauses (dependencies c) (operand_databases c) (conditions c) (or_groups c) (simple_or_group
    c) (order_by c) (limit_value c) (offset_value c) (select_columns c) (raw_select_expressions c)
    (subquery_select_expressions c) (group_by c) (having_conditions c) (having_bindings c)
    (having_typed_bindings c) (having_comparisons c) (joins c) (unions c) (window_functions c)
    (ctes c) (cache_options c) (cache_key c) (invalid_query_reason c) (invalid_page c) (f
    (include_trashed c)) (only_trashed c) (lock_for_update c).
Definition upd_only_trashed `{QueryTypes} (f : bool → bool) (c : Clauses) : Clauses :=
  mkClauses (dependencies c) (operand_databases c) (conditions c) (or_groups c) (simple_or_group
    c) (order_by c) (limit_value c) (offset_value c) (select_columns c) (raw_select_expressions c)
    (subquery_select_expressions c) (group_by c) (having_conditions c) (having_bindings c)
    (having_typed_bindings c) (having_comparisons c) (joins c) (unions c) (window_functions c)
    (ctes c) (cache_options c) (cache_key c) (invalid_query_reason c) (invalid_page c)
    (include_trashed c) (f (only_trashed c)) (lock_for_update c).
Definition upd_lock_for_update `{QueryTypes} (f : bool → bool) (c : Clauses) : Clauses :=
  mkClauses (dependencies c) (operand_databases c) (conditions c) (or_groups c) (simple_or_group
    c) (order_by c) (limit_value c) (offset_value c) (select_columns c) (raw_select_expressions c)
    (subquery_select_expressions c) (group_by c) (having_conditions c) (having_bindings c)
    (having_typed_bindings c) (having_comparisons c) (joins c) (unions c) (window_functions c)
    (ctes c) (cache_options c) (cache_key c) (invalid_query_reason c) (invalid_page c)
    (include_trashed c) (only_trashed c) (f (lock_for_update c)).

(** Appending to a list field, and setting a field. *)
Definition push {A} (x : A) (l : list A) : list A := l ++ [x].
Definition put {A} (x : A) (_ : A) : A := x.

(** ** Constants and small functions of builder.rs *)

Definition DISTINCT_SELECT_MARKER : str := 1%N :: lit "tideorm_select_distinct" ++ [1%N].
Definition RAW_ORDER_BY_MARKER : str := 1%N :: lit "tideorm_raw_order_by" ++ [1%N].

Definition raw_order_by_entry (expression : str) : str := RAW_ORDER_BY_MARKER ++ trim expression.
Definition raw_order_by_expression (value : str) : option str := strip_prefix RAW_ORDER_BY_MARKER value.
Definition contains_raw_order_by_marker (value : str) : bool :=
  bool_decide (is_Some (find_str RAW_ORDER_BY_MARKER value)).

(** [str::rsplit_once] by a character test: around the last match. *)
Definition rsplit_once (p : char → bool) (s : str) : option (str * str) :=
  match drop_while (λ c, negb (p c)) (rev s) with
  | [] => None
  | _ :: before => Some (rev before, rev (take_while (λ c, negb (p c)) (rev s)))
  end.

(** [str::trim_end]. *)
Definition trim_end (s : str) : str := rev (drop_while is_whitespace (rev s)).

Definition split_direction (term : str) : option (str * Order) :=
  match rsplit_once is_whitespace (trim term) with
  | None => None
  | Some (column, direction) =>
      if eq_ignore_ascii_case direction (lit "asc") then Some (trim_end column, Asc)
      else if eq_ignore_ascii_case direction (lit "desc") then Some (trim_end column, Desc)
      else None
  end.

Definition i64_max : N := 9223372036854775807.

(** [page_offset]: the arguments are [u64]s, and [checked_mul] fails past one. *)
Definition page_offset (page per_page : N) : result N (str * str) :=
  if (page =? 0)%N then Err (lit "page", lit "must be at least 1")
  else if (per_page =? 0)%N then Err (lit "per_page", lit "must be greater than 0")
  else if negb (per_page <=? i64_max)%N then Err (lit "per_page", lit "must be at most i64::MAX")
  else
    let offset := ((page - 1) * per_page)%N in
    if (offset <=? u64_max)%N && (offset <=? i64_max)%N then Ok offset
    else Err (lit "page",
              lit "page is too large for this page size; (page - 1) * per_page exceeds i64::MAX").

(** ** Merging *)

Section Merge.
Context `{QueryTypes}.

Definition clauses_is_empty (c : Clauses) : bool :=
  nilb (operand_databases c) && nilb (conditions c) && nilb (or_groups c)
  && nilb (order_by c) && negb (bool_decide (is_Some (limit_value c)))
  && negb (bool_decide (is_Some (offset_value c)))
  && negb (bool_decide (is_Some (select_columns c)))
  && nilb (raw_select_expressions c) && nilb (subquery_select_expressions c)
  && nilb (group_by c) && nilb (having_conditions c) && nilb (joins c) && nilb (unions c)
  && nilb (window_functions c) && nilb (ctes c)
  && negb (bool_decide (is_Some (cache_options c))) && negb (bool_decide (is_Some (cache_key c)))
  && negb (bool_decide (is_Some (invalid_query_reason c)))
  && negb (bool_decide (is_Some (invalid_page c)))
  && negb (include_trashed c) && negb (only_trashed c) && negb (lock_for_update c).

Definition is_distinct (c : Clauses) : bool :=
  existsb (str_eqb DISTINCT_SELECT_MARKER) (raw_select_expressions c).

(** [Option::or] of a later value over an earlier one. *)
Definition last_wins {A} (earlier later : option A) : option A :=
  match later with Some _ => later | None => earlier end.
Definition first_wins {A} (earlier later : option A) : option A :=
  match earlier with Some _ => earlier | None => later end.

(** One round of [merge_or_groups], on the groups of the query and the index of the
    one its [or_where_*] calls share. *)
Definition merge_or_group (simple : option nat)
    (st : list (OrGroup bound_value) * option nat) (item : nat * OrGroup bound_value)
  : list (OrGroup bound_value) * option nat :=
  let '(groups, own_index) := st in
  let '(index, group) := item in
  if bool_decide (simple = Some index) then
    match own_index with
    | Some i =>
        match groups !! i with
        | Some own =>
            (<[i := mkGroup (group_conditions own ++ group_conditions group)
                      (nested_groups own) (combine_with own)]> groups, own_index)
        | None => (groups ++ [group], Some (length groups))
        end
    | None => (groups ++ [group], Some (length groups))
    end
  else (groups ++ [group], own_index).

Definition merge_or_groups (self other : Clauses) : list (OrGroup bound_value) * option nat :=
  foldl (merge_or_group (simple_or_group other)) (or_groups self, simple_or_group self)
        (enumerate 0 (or_groups other)).

(** [Vec::resize] with an empty vector. *)
Definition resize {A} (n : nat) (l : list (list A)) : list (list A) :=
  take n l ++ replicate (n - length l) [].

(** [merge_having]: the bindings, one per clause. *)
Definition merged_bindings (self other : Clauses) : list (list bound_value) :=
  resize (length (having_conditions self)) (having_bindings self)
  ++ imap (λ index _, default [] (having_bindings other !! index)) (having_conditions other).

(** [BTreeMap::extend] with the other's typed bindings, shifted. *)
Definition merged_typed (self other : Clauses) : gmap nat (str * Json) :=
  kmap (Nat.add (length (having_conditions self))) (having_typed_bindings other)
  ∪ having_typed_bindings self.

Definition merge (self other : Clauses) : Clauses :=
  let already_distinct := is_distinct self in
  {| dependencies := dependencies self ++ dependencies other;
     operand_databases := operand_databases self ++ operand_databases other;
     conditions := conditions self ++ conditions other;
     or_groups := (merge_or_groups self other).1;
     simple_or_group := (merge_or_groups self other).2;
     order_by := order_by self ++ order_by other;
     limit_value := last_wins (limit_value self) (limit_value other);
     offset_value := last_wins (offset_value self) (offset_value other);
     select_columns := last_wins (select_columns self) (select_columns other);
     raw_select_expressions :=
       raw_select_expressions self
       ++ List.filter (λ e, negb (str_eqb DISTINCT_SELECT_MARKER e) || negb already_distinct)
            (raw_select_expressions other);
     subquery_select_expressions :=
       subquery_select_expressions self ++ subquery_select_expressions other;
     group_by := group_by self ++ group_by other;
     having_conditions := having_conditions self ++ having_conditions other;
     having_bindings := merged_bindings self other;
     having_typed_bindings := merged_typed self other;
     having_comparisons := having_comparisons self ++ having_comparisons other;
     joins := joins self ++ joins other;
     unions := unions self ++ unions other;
     window_functions := window_functions self ++ window_functions other;
     ctes := ctes self ++ ctes other;
     cache_options := last_wins (cache_options self) (cache_options other);
     cache_key := last_wins (cache_key self) (cache_key other);
     invalid_query_reason := first_wins (invalid_query_reason self) (invalid_query_reason other);
     invalid_page := first_wins (invalid_page self) (invalid_page other);
     include_trashed :=
       if only_trashed other then false
       else if include_trashed other then true else include_trashed self;
     only_trashed :=
       if only_trashed other then true
       else if include_trashed other then false else only_trashed self;
     lock_for_update := lock_for_update self || lock_for_update other |}.
End Merge.

(** ** Builder calls *)

(** What a call that embeds another query reads of it: the tables it reads
    ([cache_tables]), the database it names and those of its own operands, and why it
    could not run on its own, if it could not. *)
Record Operand `{QueryTypes} := {
  operand_tables : list str;
  operand_database : option database;
  operand_operands : list database;
  operand_error : option str;
}.

Section Filters_.
Context `{QueryTypes} `{Unicode}.

Definition invalidate_query (reason : str) (c : Clauses) : Clauses :=
  upd_invalid_query_reason (λ r, first_wins r (Some reason)) c.

(** [if let Err(reason) = .. { self.invalidate_query(format(reason)) }]. *)
Definition invalidate_on {A} (r : result A str) (message : str → str) (c : Clauses) : Clauses :=
  match r with Ok _ => c | Err reason => invalidate_query (message reason) c end.

(** [push_condition], and [push_or_condition] on the group the [or_where_*] calls
    share. *)
Definition q_where (condition : WhereCondition bound_value) (c : Clauses) : Clauses :=
  upd_conditions (push condition) c.

Definition push_or_condition (condition : WhereCondition bound_value) (c : Clauses) : Clauses :=
  let fresh :=
    upd_or_groups (push (mkGroup [condition] [] Or))
      (upd_simple_or_group (put (Some (length (or_groups c)))) c) in
  match simple_or_group c with
  | Some index =>
      match or_groups c !! index with
      | Some group => upd_or_groups (λ gs, <[index := group_push group condition]> gs) c
      | None => fresh
      end
  | None => fresh
  end.

(** [or_where]: [group] is what the closure made of an empty group. *)
Definition q_or_where (group : OrGroup bound_value) (c : Clauses) : Clauses :=
  if group_is_empty group then c else upd_or_groups (push group) c.

(** [begin_or] .. [end_or]. *)
Definition q_end_or (calls : list (BranchCall (V := bound_value))) (c : Clauses) : Clauses :=
  upd_or_groups (λ gs, end_or gs (foldl branch_call OrBranchBuilder_new calls)) c.

(** ** Embedded queries *)

Definition absorb_operand_error (what method : str) (operand : Operand) (c : Clauses) : Clauses :=
  let c := upd_dependencies (λ d, d ++ operand_tables operand) c in
  let c := upd_operand_databases
             (λ d, d ++ option_list (operand_database operand) ++ operand_operands operand) c in
  match operand_error operand with
  | Some err =>
      invalidate_query (lit "invalid " ++ what ++ lit " for " ++ method ++ lit "(): " ++ err) c
  | None => c
  end.

Definition select_from_derived (db : DatabaseType) (projection inner_sql alias : str) : str :=
  lit "SELECT " ++ projection ++ lit " FROM (" ++ inner_sql ++ lit ") AS " ++ quote_ident db alias.

Definition push_bound_raw (column sql : str) (values : list bound_value) (c : Clauses) : Clauses :=
  q_where (mkCondition column Raw (VRawExprWithValues sql values)) c.

(** [push_subquery_condition]: [sql] and [values] are the subquery's rendering, and
    [paged] says whether it has a limit or an offset. *)
Definition push_subquery_condition (db : DatabaseType) (method column keyword : str)
    (operand : Operand) (sql : str) (values : list bound_value) (paged : bool) (c : Clauses)
  : Clauses :=
  let c := absorb_operand_error (lit "subquery") method operand c in
  let sql :=
    if ends_with (lit "IN") keyword && (bool_decide (db = MySQL) || bool_decide (db = MariaDB)) && paged
    then select_from_derived db (lit "*") sql (lit "tideorm_in_subquery") else sql in
  let c := invalidate_on (validate_compound_subquery_sql sql)
             (λ reason, lit "invalid subquery for " ++ method ++ lit "(): " ++ reason) c in
  push_bound_raw column (keyword ++ lit " (" ++ sql ++ lit ")") values c.

Definition correlated_exists_head (db : DatabaseType) (own_table_ref : str) (negated : bool)
    (from related foreign_key local_key : str) : str :=
  (if negated then lit "NOT " else [])
  ++ lit "EXISTS (SELECT 1 FROM " ++ from ++ lit " WHERE " ++ related ++ lit "."
  ++ quote_ident db foreign_key ++ lit " = " ++ quote_ident db own_table_ref ++ lit "."
  ++ quote_ident db local_key.

(** [push_has_condition]: [blocker] is the related query's [update_blocker], [keys]
    the two keys resolved, [keys_error] the message when one is no column, and
    [where_sql] and [values] the related query's filters rendered. *)
Definition push_has_condition (db : DatabaseType) (own_table_ref method : str) (negated : bool)
    (operand : Operand) (blocker : option str) (keys : option str * option str) (keys_error : str)
    (from related_ref where_sql : str) (values : list bound_value) (c : Clauses) : Clauses :=
  let c := absorb_operand_error (lit "related query") method operand c in
  let c :=
    match blocker with
    | Some part =>
        invalidate_query
          (method ++ lit "() correlates the related rows through their filters only; the related query cannot hold "
           ++ part) c
    | None => c
    end in
  match keys with
  | (Some foreign_key, Some local_key) =>
      push_bound_raw []
        (correlated_exists_head db own_table_ref negated from (quote_ident db related_ref)
           foreign_key local_key
         ++ (if bool_decide (where_sql = []) then [] else lit " AND (" ++ where_sql ++ lit ")")
         ++ lit ")") values c
  | _ => invalidate_query keys_error c
  end.

(** [select_raw], [select_subquery]: [projected] is what the subquery's one output
    column reads, or the error of reading it. *)
Definition q_select_raw (raw_select : str) (c : Clauses) : Clauses :=
  upd_raw_select_expressions (push raw_select)
    (invalidate_on (validate_raw_sql_fragment (lit "SELECT raw SQL") raw_select) id c).

Definition q_select_subquery (operand : Operand) (alias sql : str) (params : list bound_value)
    (source : option (str * str)) (type : option column_type)
    (encrypted : result (option encrypted_column) str) (c : Clauses) : Clauses :=
  let c := absorb_operand_error (lit "subquery") (lit "select_subquery") operand c in
  let c := invalidate_on (validate_identifier (lit "SELECT alias") alias) id c in
  let c := invalidate_on encrypted id c in
  upd_subquery_select_expressions
    (push {| subquery_sql := sql; subquery_alias := alias; subquery_params := params;
             subquery_source := source;
             subquery_encrypted_column := match encrypted with Ok e => e | Err _ => None end;
             subquery_column_type := type |}) c.
End Filters_.

(** ** Ordering, pages and projection (advanced/ordering_pagination.rs, select_and_joins.rs) *)

Definition order_debug (o : Order) : str := match o with Asc => lit "Asc" | Desc => lit "Desc" end.

Section Shape.
Context `{QueryTypes} `{Unicode}.

Definition q_order_by (column : str) (direction : Order) (c : Clauses) : Clauses :=
  if contains_raw_order_by_marker column then
    invalidate_query
      (lit "invalid ORDER BY column '" ++ column
       ++ lit "': the raw-expression marker is reserved; use order_by_raw() for trusted SQL expressions") c
  else
    match split_direction column with
    | Some (_, written) =>
        if bool_decide (written = direction) then upd_order_by (push (column, direction)) c
        else invalidate_query
               (lit "order_by('" ++ column ++ lit "', Order::" ++ order_debug direction
                ++ lit ") names two directions; pass the direction once, or sort() a request's sort string") c
    | None => upd_order_by (push (column, direction)) c
    end.

Definition term_of (term : str) : str * Order :=
  match strip_prefix (lit "-") term with
  | Some column => (trim column, Desc)
  | None =>
      match strip_prefix (lit "+") term with
      | Some column => (trim column, Asc)
      | None => default (term, Asc) (split_direction term)
      end
  end.

(** The loop of [sort]: it stops at a term without a column. *)
Fixpoint sort_terms (spec : str) (terms : list str) (c : Clauses) : Clauses :=
  match terms with
  | [] => c
  | term :: rest =>
      let '(column, direction) := term_of term in
      if bool_decide (column = [])
      then invalidate_query (lit "sort('" ++ spec ++ lit "') has a term with no column") c
      else sort_terms spec rest (q_order_by column direction c)
  end.

Definition q_sort (spec : str) (c : Clauses) : Clauses :=
  sort_terms spec
    (List.filter (λ term, negb (bool_decide (term = []))) (trim <$> split_by (N.eqb 44) spec)) c.

Definition q_reorder (column : str) (direction : Order) (c : Clauses) : Clauses :=
  q_order_by column direction (upd_order_by (put []) c).

Definition q_order_by_raw (expression : str) (direction : Order) (c : Clauses) : Clauses :=
  upd_order_by (push (raw_order_by_entry expression, direction)) c.

(** [order_asc], [order_desc], [latest], [oldest]. *)
Definition q_order_asc (column : str) : Clauses → Clauses := q_order_by column Asc.
Definition q_order_desc (column : str) : Clauses → Clauses := q_order_by column Desc.
Definition q_latest : Clauses → Clauses := q_order_desc (lit "created_at").
Definition q_oldest : Clauses → Clauses := q_order_asc (lit "created_at").

Definition q_limit (n : N) (c : Clauses) : Clauses := upd_limit_value (put (Some n)) c.
Definition q_offset (n : N) (c : Clauses) : Clauses := upd_offset_value (put (Some n)) c.

Definition q_page (page per_page : N) (c : Clauses) : Clauses :=
  match page_offset page per_page with
  | Ok offset => q_offset offset (q_limit per_page c)
  | Err refusal => upd_invalid_page (λ p, first_wins p (Some refusal)) c
  end.

Definition q_select (columns : list str) (c : Clauses) : Clauses :=
  upd_select_columns (put (Some columns)) c.

Definition q_distinct (c : Clauses) : Clauses :=
  if is_distinct c then c else upd_raw_select_expressions (push DISTINCT_SELECT_MARKER) c.

Definition q_lock_for_update (c : Clauses) : Clauses := upd_lock_for_update (put true) c.

Definition validate_join_clause (table : str) (alias : option str) (left right : str)
  : result unit str :=
  match validate_identifier_reference (lit "JOIN table") table with
  | Err _ =>
      Err (lit "unsafe JOIN table '" ++ table
           ++ lit "': expected a table or schema.table using only ASCII letters, numbers, and underscores")
  | Ok _ =>
      rbind (match alias with
             | Some alias => validate_identifier (lit "JOIN alias") alias
             | None => Ok tt
             end)
        (λ _, rbind (validate_join_column left) (λ _, validate_join_column right))
  end.

Definition q_join (join_type : JoinType) (table : str) (alias : option str) (left right : str)
    (c : Clauses) : Clauses :=
  match validate_join_clause table alias left right with
  | Err reason => invalidate_query reason c
  | Ok _ =>
      upd_joins (push {| join_type := join_type; join_table := table; join_alias := alias;
                         left_column := left; right_column := right |}) c
  end.

(** [select_with_linked], of a model of table [table_name]. *)
Definition q_select_with_linked (table_name : str) (local_columns : list str)
    (linked_table local_fk remote_pk : str) (linked_columns : list str) (c : Clauses) : Clauses :=
  let dot := λ table column, table ++ lit "." ++ column in
  upd_select_columns
    (put (Some ((dot table_name <$> local_columns) ++ (dot linked_table <$> linked_columns))))
    (q_join LeftJoin linked_table None (dot table_name local_fk) (dot linked_table remote_pk) c).

(** ** Compound selects, windows, CTEs, scopes and the cache *)

Definition push_raw_union (u : UnionType) (method sql : str) (c : Clauses) : Clauses :=
  upd_unions (push (UnionClause_new u sql))
    (invalidate_on (validate_subquery_sql sql)
       (λ reason, lit "invalid subquery for " ++ method ++ lit "(): " ++ reason) c).

(** [push_compound_operand]: the operand's rendering, whether it reads [table.*],
    the check of its own arms, and its projection. *)
Definition push_compound_operand (u : UnionType) (method : str) (operand : Operand)
    (query_sql : str) (params : list bound_value) (reads_table_wildcard : bool)
    (arms : result unit str) (projection : result UnionProjection str) (c : Clauses) : Clauses :=
  let c := absorb_operand_error (lit "operand") method operand c in
  let c := invalidate_on arms id c in
  let c := if reads_table_wildcard then c else invalidate_on projection id c in
  upd_unions
    (push {| union_type := u; union_query_sql := query_sql; union_params := params;
             union_raw := reads_table_wildcard;
             union_projection :=
               if reads_table_wildcard then None
               else match projection with Ok p => Some p | Err _ => None end |}) c.

(** [window], [ordered_window] (which [row_number], [rank], [dense_rank], [lag],
    [lead], [ntile] and [first_value] call), [running_sum]. *)
Definition q_window (w : WindowFunction) (c : Clauses) : Clauses := upd_window_functions (push w) c.

Definition ordered_window (f : WindowFunctionType) (alias : str) (partition : option str)
    (order_by : str) (order : Order) : WindowFunction :=
  let w := window_order (WindowFunction_new f alias) order_by order in
  match partition with Some p => window_partition_by w p | None => w end.

Definition running_sum (alias column order_by : str) (order : Order) : WindowFunction :=
  window_frame (window_order (WindowFunction_new (WSum column) alias) order_by order)
    Rows UnboundedPreceding CurrentRow.

Fixpoint validate_each (kind : str) (values : list str) : result unit str :=
  match values with
  | [] => Ok tt
  | v :: rest => rbind (validate_identifier kind v) (λ _, validate_each kind rest)
  end.

Definition validate_cte_clause (cte : CTE) : result unit str :=
  rbind (validate_identifier (lit "CTE name") (cte_name cte))
    (λ _, rbind (match cte_columns cte with
                 | Some columns => validate_each (lit "CTE column") columns
                 | None => Ok tt
                 end)
            (λ _, validate_compound_subquery_sql (cte_query_sql cte))).

Definition push_cte (method : str) (cte : CTE) (c : Clauses) : Clauses :=
  upd_ctes (push cte)
    (invalidate_on (validate_cte_clause cte)
       (λ reason, lit "invalid CTE for " ++ method ++ lit "(): " ++ reason) c).

Definition q_with_query (name : str) (operand : Operand) (query_sql : str)
    (params : list bound_value) (c : Clauses) : Clauses :=
  push_cte (lit "with_query") (CTE_with_params name query_sql params)
    (absorb_operand_error (lit "subquery") (lit "with_query") operand c).

Definition q_with_recursive_cte (name : str) (columns : list str) (base_case recursive_case : str)
    (c : Clauses) : Clauses :=
  let c := invalidate_on (validate_subquery_sql base_case)
    (λ reason, lit "invalid subquery for with_recursive_cte() base query: " ++ reason) c in
  let c := invalidate_on (validate_subquery_sql recursive_case)
    (λ reason, lit "invalid subquery for with_recursive_cte() recursive query: " ++ reason) c in
  push_cte (lit "with_recursive_cte")
    (CTE_make_recursive
       (CTE_with_columns name columns (base_case ++ lit " UNION ALL " ++ recursive_case))) c.

Definition q_with_trashed (c : Clauses) : Clauses :=
  upd_only_trashed (put false) (upd_include_trashed (put true) c).

Definition q_only_trashed (soft_delete_enabled : bool) (c : Clauses) : Clauses :=
  let c := if soft_delete_enabled then c
           else invalidate_query (lit "only_trashed() cannot be used: this model has no soft delete") c in
  upd_include_trashed (put false) (upd_only_trashed (put true) c).

Definition q_cache (ttl : N) (c : Clauses) : Clauses :=
  upd_cache_options (put (Some {| cache_ttl := ttl |})) c.

Definition q_cache_with_key (key : str) (ttl : N) (c : Clauses) : Clauses :=
  upd_cache_options (put (Some {| cache_ttl := ttl |})) (upd_cache_key (put (Some key)) c).

Definition q_no_cache (c : Clauses) : Clauses :=
  upd_cache_key (put None) (upd_cache_options (put None) c).

(** [live_rows_only]. *)
Definition live_rows_only (c : Clauses) : Clauses :=
  upd_only_trashed (put false) (upd_include_trashed (put false) c).
End Shape.

(** ** GROUP BY and HAVING (advanced/aggregations_unions.rs) *)

Inductive Aggregate :=
  | Count
  | CountDistinct (column : str)
  | Sum (column : str)
  | Avg (column : str)
  | Min (column : str)
  | Max (column : str).

(** [Aggregate::render]: [sum_expression] guards a sum over no rows. *)
Definition aggregate_sql (format : str → str) (a : Aggregate) : str :=
  match a with
  | Count => lit "COUNT(*)"
  | CountDistinct column => lit "COUNT(DISTINCT " ++ format column ++ lit ")"
  | Sum column => lit "COALESCE(SUM(" ++ format column ++ lit "), 0)"
  | Avg column => lit "AVG(" ++ format column ++ lit ")"
  | Min column => lit "MIN(" ++ format column ++ lit ")"
  | Max column => lit "MAX(" ++ format column ++ lit ")"
  end.

Definition extreme_column (a : Aggregate) : option str :=
  match a with Min column | Max column => Some column | _ => None end.

Definition compared_column (a : Aggregate) : option (str * str) :=
  match a with
  | Min column | Max column => Some (column, lit "MIN/MAX")
  | CountDistinct column => Some (column, lit "DISTINCT")
  | Sum column | Avg column => Some (column, lit "SUM/AVG")
  | Count => None
  end.

Record AggregateCondition := {
  aggregate : Aggregate;
  aggregate_operator : str;
  aggregate_value : result Json str;
}.

Inductive HavingCondition := HAggregate (condition : AggregateCondition) | HRaw (sql : str).

(** What a query knows of its model: its backend, the qualified name of a column
    ([model_identifier]), the type of a column given the joins ([column_type]), the
    binding of a value for a type ([json_to_column_value]) and of a number
    ([numeric_having_value]), and whether it soft-deletes. *)
Class ModelContext `{QueryTypes} := {
  query_db : DatabaseType;
  model_identifier : str → str;
  type_of_column : list JoinClause → str → option column_type;
  json_to_column_value : Json → option column_type → bound_value;
  numeric_having_value : Json → option bound_value;
  soft_delete_enabled : bool;
}.

Section Having.
Context `{QT : QueryTypes} `{!ModelContext} `{Unicode}.

Definition q_group_by (column : str) (c : Clauses) : Clauses := upd_group_by (push column) c.

Definition having_with_params (sql_template : str) (params : list bound_value) (c : Clauses)
  : Clauses :=
  upd_having_bindings (push params) (upd_having_conditions (push sql_template) c).

(** The last part of [having]: an extreme keeps its JSON operand too. *)
Definition having_bound (condition : AggregateCondition) (expression : str) (json : Json)
    (value : bound_value) (c : Clauses) : Clauses :=
  let c :=
    match extreme_column (aggregate condition) with
    | Some column =>
        upd_having_typed_bindings (λ m, <[length (having_conditions c) := (column, json)]> m) c
    | None => c
    end in
  having_with_params (expression ++ lit " " ++ aggregate_operator condition ++ lit " ?") [value] c.

(** The first part: the comparison is checked once every join is known. *)
Definition record_comparison (condition : AggregateCondition) (c : Clauses) : Clauses :=
  match compared_column (aggregate condition) with
  | Some compared => upd_having_comparisons (push compared) c
  | None => c
  end.

Definition having_compared (condition : AggregateCondition) (c : Clauses) : Clauses :=
  let expression :=
    aggregate_sql (λ column, format_column query_db (model_identifier (trim column)))
      (aggregate condition) in
  match aggregate_value condition with
  | Err reason => invalidate_query (lit "having(): " ++ reason) c
  | Ok json =>
      if is_null json then
        if str_eqb (aggregate_operator condition) (lit "=")
        then having_with_params (expression ++ lit " IS NULL") [] c
        else if str_eqb (aggregate_operator condition) (lit "<>")
        then having_with_params (expression ++ lit " IS NOT NULL") [] c
        else invalidate_query (lit "HAVING ordering comparisons cannot use NULL") c
      else
        match aggregate condition with
        | Count | CountDistinct _ | Sum _ | Avg _ =>
            match numeric_having_value json with
            | Some value => having_bound condition expression json value c
            | None => invalidate_query (lit "numeric HAVING comparisons require a number") c
            end
        | Min column | Max column =>
            having_bound condition expression json
              (json_to_column_value json (type_of_column (joins c) column)) c
        end
  end.

Definition having_aggregate (condition : AggregateCondition) (c : Clauses) : Clauses :=
  having_compared condition (record_comparison condition c).

Definition q_having (condition : HavingCondition) (c : Clauses) : Clauses :=
  match condition with
  | HAggregate condition => having_aggregate condition c
  | HRaw sql =>
      upd_having_bindings (push [])
        (upd_having_conditions (push sql)
           (invalidate_on (validate_having_sql_fragment (lit "HAVING raw SQL") sql) id c))
  end.

(** [having_clauses]: each clause with the values bound to its placeholders, an
    extreme's operand bound for the query as it now is. *)
Definition having_clauses (c : Clauses) : list (str * list bound_value) :=
  imap (λ index clause,
    (clause,
     match having_typed_bindings c !! index with
     | Some (column, value) => [json_to_column_value value (type_of_column (joins c) column)]
     | None => default [] (having_bindings c !! index)
     end)) (having_conditions c).

(** ** Calls, fragments and their application *)

Inductive QueryCall :=
  | Where (condition : WhereCondition bound_value)
  | OrWhereShared (condition : WhereCondition bound_value)
  | OrWhereGroup (group : OrGroup bound_value)
  | BeginOr (calls : list (BranchCall (V := bound_value)))
  | WhereSubquery (method column keyword : str) (operand : Operand) (sql : str)
      (values : list bound_value) (paged : bool)
  | WhereHas (own_table_ref method : str) (negated : bool) (operand : Operand)
      (blocker : option str) (keys : option str * option str) (keys_error from related_ref where_sql : str)
      (values : list bound_value)
  | SelectRaw (raw_select : str)
  | SelectSubquery (operand : Operand) (alias sql : str) (params : list bound_value)
      (source : option (str * str)) (type : option column_type)
      (encrypted : result (option encrypted_column) str)
  | OrderBy (column : str) (direction : Order)
  | Sort (spec : str)
  | OrderByRaw (expression : str) (direction : Order)
  | Limit (n : N)
  | Offset (n : N)
  | Page (page per_page : N)
  | Select (columns : list str)
  | Distinct
  | LockForUpdate
  | Join (type : JoinType) (table : str) (alias : option str) (left right : str)
  | SelectWithLinked (table_name : str) (local_columns : list str)
      (linked_table local_fk remote_pk : str) (linked_columns : list str)
  | GroupBy (column : str)
  | Having_ (condition : HavingCondition)
  | UnionRaw (u : UnionType) (method sql : str)
  | UnionQuery (u : UnionType) (method : str) (operand : Operand) (query_sql : str)
      (params : list bound_value) (reads_table_wildcard : bool) (arms : result unit str)
      (projection : result UnionProjection str)
  | Window (w : WindowFunction)
  | WithCte (method : str) (cte : CTE)
  | WithQuery (name : str) (operand : Operand) (query_sql : str) (params : list bound_value)
  | WithRecursiveCte (name : str) (columns : list str) (base_case recursive_case : str)
  | WithTrashed
  | OnlyTrashed
  | Cache (ttl : N)
  | CacheWithKey (key : str) (ttl : N).

Definition call (q : QueryCall) : Clauses → Clauses :=
  match q with
  | Where condition => q_where condition
  | OrWhereShared condition => push_or_condition condition
  | OrWhereGroup group => q_or_where group
  | BeginOr calls => q_end_or calls
  | WhereSubquery method column keyword operand sql values paged =>
      push_subquery_condition query_db method column keyword operand sql values paged
  | WhereHas own method negated operand blocker keys keys_error from related_ref where_sql values =>
      push_has_condition query_db own method negated operand blocker keys keys_error
        from related_ref where_sql values
  | SelectRaw raw_select => q_select_raw raw_select
  | SelectSubquery operand alias sql params source type encrypted =>
      q_select_subquery operand alias sql params source type encrypted
  | OrderBy column direction => q_order_by column direction
  | Sort spec => q_sort spec
  | OrderByRaw expression direction => q_order_by_raw expression direction
  | Limit n => q_limit n
  | Offset n => q_offset n
  | Page page per_page => q_page page per_page
  | Select columns => q_select columns
  | Distinct => q_distinct
  | LockForUpdate => q_lock_for_update
  | Join type table alias l r => q_join type table alias l r
  | SelectWithLinked table_name local_columns linked_table local_fk remote_pk linked_columns =>
      q_select_with_linked table_name local_columns linked_table local_fk remote_pk linked_columns
  | GroupBy column => q_group_by column
  | Having_ condition => q_having condition
  | UnionRaw u method sql => push_raw_union u method sql
  | UnionQuery u method operand query_sql params wildcard arms projection =>
      push_compound_operand u method operand query_sql params wildcard arms projection
  | Window w => q_window w
  | WithCte method cte => push_cte method cte
  | WithQuery name operand query_sql params => q_with_query name operand query_sql params
  | WithRecursiveCte name columns base_case recursive_case =>
      q_with_recursive_cte name columns base_case recursive_case
  | WithTrashed => q_with_trashed
  | OnlyTrashed => q_only_trashed soft_delete_enabled
  | Cache ttl => q_cache ttl
  | CacheWithKey key ttl => q_cache_with_key key ttl
  end.

Definition replay (calls : list QueryCall) (c : Clauses) : Clauses :=
  foldl (λ c q, call q c) c calls.

(** [consolidate] and [apply]: a fragment is the clauses. *)
Definition consolidate (c : Clauses) : Clauses := c.
Definition apply (c fragment : Clauses) : Clauses := merge c fragment.

(** [QueryFragment::condition_count]. *)
Definition fragment_condition_count (fragment : Clauses) : nat :=
  length (conditions fragment) + sum_list_with condition_count (or_groups fragment).
End Having.
