(* ===== verification/Fragments.v ===== *)
(** * Fragments: merging is replaying

    The proofs about [Clauses.merge]: applying a fragment
    (src/src/query/builder.rs, [apply]) gives the query that the fragment's builder
    calls would have given, for every call but the two that clear a slot. *)

From S2P Require Import Prelude Dialect SqlLexer SqlSafety JsonPath JsonLoss Filters QueryStructure.
From S2P Require Import Clauses.

(** ** Merging commutes with the calls *)


Create Rewrite HintDb merging.

Section Commute.
Context `{QueryTypes}.
Implicit Types (self c : Clauses).

Ltac merge_field := intros; unfold merge, merged_bindings, merged_typed, merge_or_groups, is_distinct, push, put; cbn;
  f_equal; by rewrite ?app_assoc.

Lemma merge_dependencies self c x :
  merge self (upd_dependencies (λ d, d ++ x) c) = upd_dependencies (λ d, d ++ x) (merge self c).
Proof. merge_field. Qed.
Lemma merge_operand_databases self c x :
  merge self (upd_operand_databases (λ d, d ++ x) c)
  = upd_operand_databases (λ d, d ++ x) (merge self c).
Proof. merge_field. Qed.
Lemma merge_conditions self c x :
  merge self (upd_conditions (push x) c) = upd_conditions (push x) (merge self c).
Proof. merge_field. Qed.
Lemma merge_order_by self c x :
  merge self (upd_order_by (push x) c) = upd_order_by (push x) (merge self c).
Proof. merge_field. Qed.
Lemma merge_subqueries self c x :
  merge self (upd_subquery_select_expressions (push x) c)
  = upd_subquery_select_expressions (push x) (merge self c).
Proof. merge_field. Qed.
Lemma merge_group_by self c x :
  merge self (upd_group_by (push x) c) = upd_group_by (push x) (merge self c).
Proof. merge_field. Qed.
Lemma merge_comparisons self c x :
  merge self (upd_having_comparisons (push x) c) = upd_having_comparisons (push x) (merge self c).
Proof. merge_field. Qed.
Lemma merge_joins self c x : merge self (upd_joins (push x) c) = upd_joins (push x) (merge self c).
Proof. merge_field. Qed.
Lemma merge_unions self c x : merge self (upd_unions (push x) c) = upd_unions (push x) (merge self c).
Proof. merge_field. Qed.
Lemma merge_windows self c x :
  merge self (upd_window_functions (push x) c) = upd_window_functions (push x) (merge self c).
Proof. merge_field. Qed.
Lemma merge_ctes self c x : merge self (upd_ctes (push x) c) = upd_ctes (push x) (merge self c).
Proof. merge_field. Qed.
Lemma merge_limit self c n :
  merge self (upd_limit_value (put (Some n)) c) = upd_limit_value (put (Some n)) (merge self c).
Proof. done. Qed.
Lemma merge_offset self c n :
  merge self (upd_offset_value (put (Some n)) c) = upd_offset_value (put (Some n)) (merge self c).
Proof. done. Qed.
Lemma merge_select self c x :
  merge self (upd_select_columns (put (Some x)) c) = upd_select_columns (put (Some x)) (merge self c).
Proof. done. Qed.
Lemma merge_cache_options self c x :
  merge self (upd_cache_options (put (Some x)) c) = upd_cache_options (put (Some x)) (merge self c).
Proof. done. Qed.
Lemma merge_cache_key self c x :
  merge self (upd_cache_key (put (Some x)) c) = upd_cache_key (put (Some x)) (merge self c).
Proof. done. Qed.
Lemma merge_lock self c :
  merge self (upd_lock_for_update (put true) c) = upd_lock_for_update (put true) (merge self c).
Proof. unfold merge, upd_lock_for_update, put. cbn. by rewrite orb_true_r. Qed.
Lemma merge_reason self c r :
  merge self (upd_invalid_query_reason (λ x, first_wins x (Some r)) c)
  = upd_invalid_query_reason (λ x, first_wins x (Some r)) (merge self c).
Proof.
  unfold merge, upd_invalid_query_reason. cbn.
  by destruct (invalid_query_reason self), (invalid_query_reason c).
Qed.
Lemma merge_page self c r :
  merge self (upd_invalid_page (λ x, first_wins x (Some r)) c)
  = upd_invalid_page (λ x, first_wins x (Some r)) (merge self c).
Proof.
  unfold merge, upd_invalid_page. cbn. by destruct (invalid_page self), (invalid_page c).
Qed.
End Commute.

#[export] Hint Rewrite @merge_dependencies @merge_operand_databases @merge_conditions @merge_order_by
  @merge_subqueries @merge_group_by @merge_comparisons @merge_joins @merge_unions @merge_windows
  @merge_ctes @merge_limit @merge_offset @merge_select @merge_cache_options @merge_cache_key
  @merge_lock @merge_reason @merge_page : merging.

(** ** Well-formed clauses *)

Section Wf.
Context `{QueryTypes}.
Implicit Types (self c : Clauses).

(** The shared OR group exists, every HAVING clause has its bindings, the DISTINCT
    marker is there once at most, and the soft-delete scope is one of three. *)
Record wf c : Prop := {
  wf_simple : ∀ i, simple_or_group c = Some i → i < length (or_groups c);
  wf_bindings : length (having_bindings c) = length (having_conditions c);
  wf_typed : ∀ i, is_Some (having_typed_bindings c !! i) → i < length (having_conditions c);
  wf_scope : include_trashed c = true → only_trashed c = false;
}.

Lemma wf_default : wf Clauses_default.
Proof. split; cbn; [done|done|intros i [? Hi]; by rewrite lookup_empty in Hi|done]. Qed.

(** *** The OR groups of a merge *)

(** [own] with the conditions of [g]. *)
Definition absorb_group (g own : OrGroup bound_value) : OrGroup bound_value :=
  mkGroup (group_conditions own ++ group_conditions g) (nested_groups own) (combine_with own).

Lemma merge_or_plain simple groups own off l :
  (∀ i, simple = Some i → i < off ∨ off + length l ≤ i) →
  foldl (merge_or_group simple) (groups, own) (enumerate off l) = (groups ++ l, own).
Proof.
  revert groups off. induction l as [|g l IH]; intros groups off Hs; cbn.
  { by rewrite app_nil_r. }
  rewrite bool_decide_false.
  2: { intros ->. destruct (Hs off eq_refl); cbn in *; lia. }
  rewrite IH; [by rewrite <- app_assoc|]. intros i Hi. specialize (Hs i Hi). cbn in Hs. lia.
Qed.

Lemma alter_as_insert {A} (f : A → A) (l : list A) i x :
  l !! i = Some x → alter f i l = <[i := f x]> l.
Proof.
  revert i. induction l as [|y l IH]; intros [|i] Hl; try done; cbn in *; [by simplify_eq|].
  f_equal. by apply IH.
Qed.

Lemma merge_or_simple simple i groups own l g :
  simple = Some i → l !! i = Some g →
  (∀ k, own = Some k → k < length groups) →
  foldl (merge_or_group simple) (groups, own) (enumerate 0 l)
  = match own with
    | Some k => (alter (absorb_group g) k groups ++ delete i l, Some k)
    | None => (groups ++ l, Some (length groups + i))
    end.
Proof.
  intros -> Hg Hown. pose proof (lookup_lt_Some _ _ _ Hg) as Hi.
  rewrite <- (take_drop_middle l i g Hg) at 1.
  assert (length (take i l) = i) as Hlen by (rewrite length_take; lia).
  rewrite enumerate_app, foldl_app, merge_or_plain, Hlen.
  2: { intros j [= <-]. rewrite Hlen. cbn. lia. }
  cbn [enumerate foldl]. cbn [merge_or_group]. rewrite bool_decide_true by done.
  destruct own as [k|].
  - specialize (Hown k eq_refl). destruct (lookup_lt_is_Some_2 groups k Hown) as [h Hh].
    rewrite lookup_app_l, Hh by done.
    rewrite merge_or_plain by (intros j [= <-]; lia).
    rewrite insert_app_l, <- app_assoc by done. f_equal. f_equal.
    + symmetry. exact (alter_as_insert (absorb_group g) groups k h Hh).
    + by rewrite delete_take_drop.
  - rewrite merge_or_plain by (intros j [= <-]; lia).
    f_equal.
    + rewrite <- !app_assoc. cbn [app]. by rewrite take_drop_middle.
    + rewrite length_app, Hlen. done.
Qed.

Lemma merge_or_closed self c :
  wf self → wf c →
  merge_or_groups self c
  = match simple_or_group c with
    | Some i =>
        match or_groups c !! i with
        | Some g =>
            match simple_or_group self with
            | Some k => (alter (absorb_group g) k (or_groups self) ++ delete i (or_groups c), Some k)
            | None => (or_groups self ++ or_groups c, Some (length (or_groups self) + i))
            end
        | None => (or_groups self ++ or_groups c, simple_or_group self)
        end
    | None => (or_groups self ++ or_groups c, simple_or_group self)
    end.
Proof.
  intros Hs Hc. unfold merge_or_groups. destruct (simple_or_group c) as [i|] eqn:E.
  - pose proof (wf_simple c Hc i E) as Hi.
    destruct (lookup_lt_is_Some_2 _ _ Hi) as [g Hg]. rewrite Hg.
    by apply merge_or_simple; [..|apply (wf_simple self Hs)].
  - by apply merge_or_plain.
Qed.
End Wf.

(** ** Merging and the remaining slots *)

Section Slots.
Context `{QueryTypes}.
Implicit Types (self c : Clauses).

(** A value list per HAVING clause. *)
Definition bound c : Prop := length (having_bindings c) = length (having_conditions c).

Lemma merged_bindings_app self c :
  bound self → bound c → merged_bindings self c = having_bindings self ++ having_bindings c.
Proof.
  unfold bound. intros Hs Hc. unfold merged_bindings, resize.
  rewrite Hs, Nat.sub_diag, <- Hs, firstn_all, app_nil_r.
  f_equal. apply list_eq. intros i. rewrite list_lookup_imap.
  destruct (having_conditions c !! i) as [x|] eqn:E; cbn.
  - apply lookup_lt_Some in E. rewrite <- Hc in E.
    by destruct (lookup_lt_is_Some_2 _ _ E) as [y ->].
  - symmetry. apply lookup_ge_None. apply lookup_ge_None in E. by rewrite Hc.
Qed.

Lemma merge_or_push self c g :
  wf self → wf c →
  merge self (upd_or_groups (push g) c) = upd_or_groups (push g) (merge self c).
Proof.
  intros Hs Hc.
  assert (wf (upd_or_groups (push g) c)) as Hc'.
  { destruct Hc as [Hw1 Hw2 Hw3 Hw4]. split; cbn; try done. intros i Hi. specialize (Hw1 i Hi).
    unfold push. rewrite length_app. lia. }
  assert (merge_or_groups self (upd_or_groups (push g) c)
          = (push g (merge_or_groups self c).1, (merge_or_groups self c).2)) as Hm.
  { rewrite !merge_or_closed by done. cbn. unfold push.
    destruct (simple_or_group c) as [i|] eqn:E; [|cbn; by rewrite app_assoc].
    pose proof (wf_simple c Hc i E) as Hi. destruct (lookup_lt_is_Some_2 _ _ Hi) as [h Hh].
    rewrite lookup_app_l, Hh by done.
    destruct (simple_or_group self); cbn; [|by rewrite app_assoc].
    by rewrite !delete_take_drop, take_app_le, drop_app_le, !app_assoc by lia. }
  unfold merge. rewrite Hm. done.
Qed.

(** *** The OR group shared by the [or_where_*] calls *)

Abbreviation OrState := (list (OrGroup bound_value) * option nat)%type.

Definition or_push (f : WhereCondition bound_value) (st : OrState) : OrState :=
  let fresh := (st.1 ++ [mkGroup [f] [] Or], Some (length st.1)) in
  match st.2 with
  | Some i =>
      match st.1 !! i with
      | Some g => (<[i := group_push g f]> st.1, st.2)
      | None => fresh
      end
  | None => fresh
  end.

Definition or_merge (own other : OrState) : OrState :=
  match other.2 with
  | Some i =>
      match other.1 !! i with
      | Some g =>
          match own.2 with
          | Some k => (alter (absorb_group g) k own.1 ++ delete i other.1, Some k)
          | None => (own.1 ++ other.1, Some (length own.1 + i))
          end
      | None => (own.1 ++ other.1, own.2)
      end
  | None => (own.1 ++ other.1, own.2)
  end.

Definition or_valid (st : OrState) : Prop := ∀ i, st.2 = Some i → i < length st.1.

Lemma delete_insert {A} (l : list A) i x : delete i (<[i := x]> l) = delete i l.
Proof. revert i. induction l as [|y l IH]; intros [|i]; cbn; [done..|]. f_equal. apply IH. Qed.

Lemma or_push_valid f st : or_valid st → or_valid (or_push f st).
Proof.
  unfold or_valid, or_push. destruct st as [gs [k|]]; cbn.
  - intros Hk. specialize (Hk k eq_refl). destruct (lookup_lt_is_Some_2 _ _ Hk) as [g ->]. cbn.
    intros i [= <-]. by rewrite length_insert.
  - intros _ i [= <-]. rewrite length_app. cbn. lia.
Qed.

Lemma or_merge_push f own other :
  or_valid own → or_valid other → or_merge own (or_push f other) = or_push f (or_merge own other).
Proof.
  destruct own as [gs ok], other as [hs oi]. unfold or_valid. cbn. intros Hown Hother.
  unfold or_push at 1. cbn. destruct oi as [i|].
  - specialize (Hother i eq_refl). destruct (lookup_lt_is_Some_2 _ _ Hother) as [h Hh].
    rewrite Hh. unfold or_merge. cbn. rewrite list_lookup_insert_eq, Hh by done.
    destruct ok as [k|]; unfold or_push; cbn.
    + specialize (Hown k eq_refl). destruct (lookup_lt_is_Some_2 _ _ Hown) as [g Hg].
      rewrite lookup_app_l, list_lookup_alter_eq, Hg by by rewrite length_alter. cbn.
      rewrite insert_app_l, delete_insert by by rewrite length_alter.
      rewrite !(alter_as_insert _ _ _ _ Hg), list_insert_insert_eq. do 3 f_equal.
      unfold absorb_group, group_push. cbn. by rewrite app_assoc.
    + rewrite lookup_app_r by lia. rewrite Nat.add_comm, Nat.add_sub, Hh, Nat.add_comm.
      by rewrite insert_app_r.
  - unfold or_merge. cbn. rewrite lookup_app_r, Nat.sub_diag by done. cbn.
    destruct ok as [k|]; unfold or_push; cbn.
    + specialize (Hown k eq_refl). destruct (lookup_lt_is_Some_2 _ _ Hown) as [g Hg].
      rewrite lookup_app_l, Hg, insert_app_l, (alter_as_insert _ _ _ _ Hg) by done.
      do 2 f_equal. rewrite delete_take_drop, take_app_length, drop_ge by (rewrite length_app; cbn; lia).
      by rewrite app_nil_r.
    + by rewrite app_assoc, length_app.
Qed.

Definition or_state c : OrState := (or_groups c, simple_or_group c).
Definition set_or_state (st : OrState) c : Clauses :=
  upd_or_groups (put st.1) (upd_simple_or_group (put st.2) c).

Lemma wf_or_valid c : wf c → or_valid (or_state c).
Proof. intros Hc i. exact (wf_simple c Hc i). Qed.

Lemma push_or_condition_state f c :
  push_or_condition f c = set_or_state (or_push f (or_state c)) c.
Proof.
  unfold push_or_condition, or_push. destruct c. cbn.
  destruct simple_or_group as [i|]; [|done]. by destruct (or_groups !! i).
Qed.

Lemma merge_state self c :
  wf self → wf c → or_state (merge self c) = or_merge (or_state self) (or_state c).
Proof.
  intros Hs Hc. unfold or_state at 1. cbn. rewrite <- surjective_pairing.
  by rewrite merge_or_closed.
Qed.

Lemma merge_push_or_condition self c f :
  wf self → wf c → merge self (push_or_condition f c) = push_or_condition f (merge self c).
Proof.
  intros Hs Hc. rewrite !push_or_condition_state.
  assert (wf (set_or_state (or_push f (or_state c)) c)) as Hc'.
  { pose proof (or_push_valid f _ (wf_or_valid c Hc)) as Hv. destruct Hc. by split. }
  rewrite (merge_state self c), <- or_merge_push by (done || by apply wf_or_valid).
  destruct (or_push f (or_state c)) as [gs i] eqn:E.
  change (gs, i) with (or_state (set_or_state (gs, i) c)) at 2.
  rewrite <- merge_state by done. done.
Qed.
End Slots.

(** ** The other slots a call reads *)

#[export] Instance nat_add_inj n : Inj (=) (=) (Nat.add n).
Proof. intros x y Hxy. lia. Qed.

Section Reads.
Context `{QT : QueryTypes} `{!ModelContext} `{Unicode}.
Implicit Types (self c : Clauses).

Lemma merge_having_with_params self c t ps :
  bound self → bound c →
  merge self (having_with_params t ps c) = having_with_params t ps (merge self c).
Proof.
  intros Hs Hc.
  assert (bound (having_with_params t ps c)) as Hc'
    by (unfold bound in *; cbn; unfold push; by rewrite !length_app, Hc).
  pose proof (merged_bindings_app self c Hs Hc) as Hb.
  pose proof (merged_bindings_app self _ Hs Hc') as Hb'.
  unfold merge at 1. rewrite Hb'. unfold having_with_params, merge. cbn. rewrite Hb.
  unfold upd_having_bindings, upd_having_conditions, push. cbn. by rewrite !app_assoc.
Qed.

Lemma merge_typed self c x :
  merge self (upd_having_typed_bindings (λ m, <[length (having_conditions c) := x]> m) c)
  = upd_having_typed_bindings
      (λ m, <[length (having_conditions (merge self c)) := x]> m) (merge self c).
Proof.
  unfold merge, upd_having_typed_bindings, merged_typed. cbn. f_equal.
  rewrite length_app, kmap_insert by apply _. by rewrite insert_union_l.
Qed.

Lemma filter_all {A} (p : A → bool) l : (∀ x, p x = true) → List.filter p l = l.
Proof. intros Hp. induction l as [|x l IH]; [done|]. cbn. by rewrite Hp, IH. Qed.

Lemma merge_distinct self c : merge self (q_distinct c) = q_distinct (merge self c).
Proof.
  assert (is_distinct (merge self c) = is_distinct self || is_distinct c) as Hm.
  { unfold is_distinct at 1, merge. cbn [raw_select_expressions]. rewrite existsb_app.
    fold (is_distinct self). destruct (is_distinct self) eqn:E; [done|]. cbn [orb].
    rewrite filter_all; [done|]. intros e. apply orb_true_r. }
  unfold q_distinct. rewrite Hm. destruct (is_distinct c) eqn:Ec; [by rewrite orb_true_r|].
  rewrite orb_false_r. unfold merge, upd_raw_select_expressions, push. cbn.
  rewrite filter_app. destruct (is_distinct self); cbn; [by rewrite app_nil_r|by rewrite app_assoc].
Qed.

Lemma merge_select_raw_push self c e :
  e ≠ DISTINCT_SELECT_MARKER →
  merge self (upd_raw_select_expressions (push e) c)
  = upd_raw_select_expressions (push e) (merge self c).
Proof.
  intros He. unfold merge, upd_raw_select_expressions, push. cbn -[str_eqb DISTINCT_SELECT_MARKER].
  rewrite filter_app. cbn -[str_eqb DISTINCT_SELECT_MARKER].
  unfold str_eqb at 2. rewrite bool_decide_false by done. cbn. by rewrite app_assoc.
Qed.

Lemma merge_with_trashed self c : merge self (q_with_trashed c) = q_with_trashed (merge self c).
Proof. done. Qed.

Lemma merge_trash self c :
  merge self (upd_include_trashed (put false) (upd_only_trashed (put true) c))
  = upd_include_trashed (put false) (upd_only_trashed (put true) (merge self c)).
Proof. done. Qed.

Lemma merge_end_or self c calls :
  wf self → wf c → merge self (q_end_or calls c) = q_end_or calls (merge self c).
Proof.
  intros Hs Hc. unfold q_end_or, end_or. destruct (nilb _) eqn:E.
  - destruct self, c. unfold merge, upd_or_groups. cbn. done.
  - apply merge_or_push; done.
Qed.

Lemma merge_invalidate_on {A} self c (r : result A str) m :
  merge self (invalidate_on r m c) = invalidate_on r m (merge self c).
Proof. destruct r; [done|]. apply merge_reason. Qed.

Lemma merge_absorb self c what method op :
  merge self (absorb_operand_error what method op c)
  = absorb_operand_error what method op (merge self c).
Proof.
  unfold absorb_operand_error. destruct (operand_error op); unfold invalidate_query;
    by autorewrite with merging.
Qed.

Lemma merge_order self c column direction :
  merge self (q_order_by column direction c) = q_order_by column direction (merge self c).
Proof.
  unfold q_order_by, invalidate_query. repeat case_match; by autorewrite with merging.
Qed.

Lemma merge_sort_terms self c spec terms :
  merge self (sort_terms spec terms c) = sort_terms spec terms (merge self c).
Proof.
  revert c. induction terms as [|term terms IH]; intros c; cbn; [done|].
  destruct (term_of term) as [column direction]. case_bool_decide.
  - apply merge_reason.
  - by rewrite IH, merge_order.
Qed.

Lemma merge_join self c type table alias left right :
  merge self (q_join type table alias left right c)
  = q_join type table alias left right (merge self c).
Proof.
  unfold q_join, invalidate_query. case_match; by autorewrite with merging.
Qed.
End Reads.

#[export] Hint Rewrite @merge_invalidate_on @merge_absorb @merge_order @merge_sort_terms @merge_join
  @merge_distinct @merge_with_trashed @merge_trash : merging.

(** ** Calls keep clauses well-formed *)

Section CallWf.
Context `{QT : QueryTypes} `{!ModelContext} `{Unicode}.
Implicit Types (self c : Clauses).

(** The fields [wf] is about. *)
Definition wf_fields c :=
  (or_groups c, simple_or_group c, having_bindings c, having_conditions c,
   having_typed_bindings c, include_trashed c, only_trashed c).

Lemma wf_frame c c' : wf_fields c' = wf_fields c → wf c → wf c'.
Proof.
  unfold wf_fields. intros [= E1 E2 E3 E4 E5 E6 E7] [W1 W2 W3 W4].
  split; rewrite ?E1, ?E2, ?E3, ?E4, ?E5, ?E6, ?E7; done.
Qed.

Lemma absorb_fields what method op c :
  wf_fields (absorb_operand_error what method op c) = wf_fields c.
Proof. unfold absorb_operand_error. by case_match. Qed.

Lemma invalidate_fields {A} (r : result A str) m c :
  wf_fields (invalidate_on r m c) = wf_fields c.
Proof. by destruct r. Qed.

Lemma order_fields column direction c : wf_fields (q_order_by column direction c) = wf_fields c.
Proof. unfold q_order_by. by repeat case_match. Qed.

Lemma sort_fields spec terms c : wf_fields (sort_terms spec terms c) = wf_fields c.
Proof.
  revert c. induction terms as [|term terms IH]; intros c; cbn; [done|].
  destruct (term_of term). case_bool_decide; [done|]. by rewrite IH, order_fields.
Qed.

Lemma join_fields type table alias left right c :
  wf_fields (q_join type table alias left right c) = wf_fields c.
Proof. unfold q_join. by case_match. Qed.

Lemma wf_push_group g c : wf c → wf (upd_or_groups (push g) c).
Proof.
  intros [W1 W2 W3 W4]. split; cbn; try done. intros i Hi. specialize (W1 i Hi).
  unfold push. rewrite length_app. lia.
Qed.

Lemma wf_having_with_params t ps c : wf c → wf (having_with_params t ps c).
Proof.
  intros [W1 W2 W3 W4]. split; cbn; try done; unfold push.
  - by rewrite !length_app, W2.
  - intros i Hi. rewrite length_app. specialize (W3 i Hi). lia.
Qed.

Lemma wf_having_bound condition e j v c : wf c → wf (having_bound condition e j v c).
Proof.
  intros Hc. unfold having_bound. destruct (extreme_column _) as [col|];
    [|by apply wf_having_with_params].
  destruct Hc as [W1 W2 W3 W4]. split; cbn; try done; unfold push.
  - by rewrite !length_app, W2.
  - intros i Hi. rewrite length_app. cbn.
    destruct (decide (i = length (having_conditions c))) as [->|Hne]; [lia|].
    rewrite lookup_insert_ne in Hi by done. specialize (W3 i Hi). lia.
Qed.

Lemma wf_having condition c : wf c → wf (q_having condition c).
Proof.
  intros Hc. destruct condition as [condition|sql]; cbn.
  - unfold having_aggregate, having_compared.
    assert (wf (record_comparison condition c)) as Hd
      by (unfold record_comparison; case_match; [by apply (wf_frame c)|done]).
    revert Hd. generalize (record_comparison condition c) as d. intros d Hd.
    repeat case_match; try (by apply wf_having_with_params); try (by apply wf_having_bound);
      by apply (wf_frame d).
  - apply (wf_having_with_params sql []). eapply wf_frame; [apply invalidate_fields|done].
Qed.

Lemma wf_call q c : wf c → wf (call q c).
Proof.
  intros Hc. destruct q; cbn [call];
    try (by apply (wf_frame c));
    try (by apply wf_having).
  - rewrite push_or_condition_state. pose proof (or_push_valid condition _ (wf_or_valid c Hc)).
    destruct Hc. by split.
  - unfold q_or_where. case_match; [done|]. by apply wf_push_group.
  - unfold q_end_or, end_or. destruct (nilb _) eqn:E; [|by apply wf_push_group].
    by apply (wf_frame c).
  - apply (wf_frame c); [|done]. unfold push_subquery_condition, push_bound_raw, q_where.
    change (wf_fields (upd_conditions ?f ?c)) with (wf_fields c).
    by rewrite invalidate_fields, absorb_fields.
  - apply (wf_frame c); [|done]. unfold push_has_condition, push_bound_raw, q_where.
    repeat case_match; apply absorb_fields.
  - apply (wf_frame c); [|done]. apply (invalidate_fields (validate_raw_sql_fragment _ _) id c).
  - apply (wf_frame c); [|done]. unfold q_select_subquery.
    change (wf_fields (upd_subquery_select_expressions ?f ?c)) with (wf_fields c).
    by rewrite !invalidate_fields, absorb_fields.
  - apply (wf_frame c); [|done]. apply order_fields.
  - apply (wf_frame c); [|done]. apply sort_fields.
  - apply (wf_frame c); [|done]. unfold q_page. by case_match.
  - apply (wf_frame c); [|done]. unfold q_distinct. by case_match.
  - apply (wf_frame c); [|done]. apply join_fields.
  - apply (wf_frame c); [|done].
    exact (join_fields LeftJoin linked_table None (table_name ++ lit "." ++ local_fk)
             (linked_table ++ lit "." ++ remote_pk) c).
  - apply (wf_frame c); [|done]. unfold push_raw_union.
    change (wf_fields (upd_unions ?f ?c)) with (wf_fields c). apply invalidate_fields.
  - apply (wf_frame c); [|done]. unfold push_compound_operand.
    change (wf_fields (upd_unions ?f ?c)) with (wf_fields c).
    destruct reads_table_wildcard; by rewrite ?invalidate_fields, absorb_fields.
  - apply (wf_frame c); [|done]. unfold push_cte.
    change (wf_fields (upd_ctes ?f ?c)) with (wf_fields c). apply invalidate_fields.
  - apply (wf_frame c); [|done]. unfold q_with_query, push_cte.
    change (wf_fields (upd_ctes ?f ?c)) with (wf_fields c).
    by rewrite invalidate_fields, absorb_fields.
  - apply (wf_frame c); [|done]. unfold q_with_recursive_cte, push_cte.
    change (wf_fields (upd_ctes ?f ?c)) with (wf_fields c). by rewrite !invalidate_fields.
  - destruct Hc. by split.
  - destruct Hc. unfold q_only_trashed. by case_match; split.
Qed.

Lemma wf_replay calls c : wf c → wf (replay calls c).
Proof.
  revert c. induction calls as [|q calls IH]; intros c Hc; [done|]. cbn. by apply IH, wf_call.
Qed.
End CallWf.

(** ** Queries that run alike

    The value bound to a MIN or MAX comparison when the call is made depends on the
    joins there are by then; it is replaced by one bound for the whole query when
    the query is rendered ([having_clauses]). Two queries agree when they differ in
    such replaced values only. *)

Section Agree.
Context `{QT : QueryTypes} `{!ModelContext} `{Unicode}.
Implicit Types (self c d : Clauses).

Definition without_bindings c : Clauses := upd_having_bindings (put []) c.

Record agree c d : Prop := {
  agree_rest : without_bindings c = without_bindings d;
  agree_length : length (having_bindings c) = length (having_bindings d);
  agree_untyped : ∀ i, having_typed_bindings c !! i = None →
                       having_bindings c !! i = having_bindings d !! i;
}.

#[export] Instance clauses_equiv : Equiv Clauses := agree.

#[export] Instance agree_equivalence : Equivalence (≡@{Clauses}).
Proof.
  split.
  - by split.
  - intros c d [R L U]. split; [done|done|]. intros i Hi. symmetry. apply U.
    by rewrite (f_equal having_typed_bindings R : having_typed_bindings c = having_typed_bindings d).
  - intros c d e [R1 L1 U1] [R2 L2 U2]. split; [congruence|congruence|].
    intros i Hi. rewrite U1 by done. apply U2.
    by rewrite <- (f_equal having_typed_bindings R1 : having_typed_bindings c = having_typed_bindings d).
Qed.

(** Agreeing queries render the same HAVING clauses. *)
#[export] Instance having_clauses_proper : Proper ((≡@{Clauses}) ==> (=)) having_clauses.
Proof.
  intros c d [R L U].
  pose proof (f_equal having_typed_bindings R : having_typed_bindings c = having_typed_bindings d) as Ht.
  pose proof (f_equal joins R : joins c = joins d) as Hj.
  pose proof (f_equal having_conditions R : having_conditions c = having_conditions d) as Hc.
  unfold having_clauses. rewrite Hc. apply imap_ext. intros i x _. f_equal.
  rewrite <- Ht, Hj. destruct (having_typed_bindings c !! i) as [[]|] eqn:E; [done|].
  by rewrite U.
Qed.

(** A call neither reads the bindings nor takes any away. *)
Record appends (f : Clauses → Clauses) c : Prop := {
  appends_rest : without_bindings (f c) = without_bindings (f (without_bindings c));
  appends_bindings :
    having_bindings (f c) = having_bindings c ++ having_bindings (f (without_bindings c));
  appends_typed : ∀ i, having_typed_bindings (f c) !! i = None → having_typed_bindings c !! i = None;
}.

Lemma appends_proper (f : Clauses → Clauses) c d :
  appends f c → appends f d → c ≡ d → f c ≡ f d.
Proof.
  intros [R1 B1 T1] [R2 B2 T2] [R L U]. rewrite R in R1, B1. split.
  - congruence.
  - by rewrite B1, B2, !length_app, L.
  - intros i Hi. rewrite B1, B2. apply T1 in Hi.
    destruct (decide (i < length (having_bindings c))) as [Hl|Hl].
    + rewrite !lookup_app_l by lia. by apply U.
    + rewrite !lookup_app_r by lia. by rewrite L.
Qed.

Lemma appends_none (f : Clauses → Clauses) c :
  without_bindings (f c) = f (without_bindings c) →
  having_bindings (f c) = having_bindings c →
  having_typed_bindings (f c) = having_typed_bindings c →
  appends f c.
Proof.
  intros R B T. split.
  - rewrite <- R. done.
  - rewrite <- R, B. cbn. by rewrite app_nil_r.
  - by rewrite T.
Qed.
End Agree.

Section CallAppends.
Context `{QT : QueryTypes} `{!ModelContext} `{Unicode}.
Implicit Types (self c d : Clauses).

(** A call that leaves the HAVING values alone. *)
Record frames (f : Clauses → Clauses) : Prop := {
  frames_rest : ∀ c, without_bindings (f c) = f (without_bindings c);
  frames_bindings : ∀ c, having_bindings (f c) = having_bindings c;
  frames_typed : ∀ c, having_typed_bindings (f c) = having_typed_bindings c;
}.

Lemma frames_appends f c : frames f → appends f c.
Proof. intros [R B T]. by apply appends_none. Qed.

Lemma frames_compose f g : frames f → frames g → frames (λ c, f (g c)).
Proof. intros [R B T] [R' B' T']. split; intros c; by rewrite ?R, ?R', ?B, ?B', ?T, ?T'. Qed.

Lemma frames_id : frames (λ c, c).
Proof. done. Qed.

Lemma frames_invalidate {A} (r : result A str) m : frames (invalidate_on r m).
Proof. by destruct r. Qed.

Lemma frames_absorb what method op : frames (absorb_operand_error what method op).
Proof. unfold absorb_operand_error. by destruct (operand_error op). Qed.

Lemma frames_order column direction : frames (q_order_by column direction).
Proof. unfold q_order_by. by repeat case_match. Qed.

Lemma frames_sort spec terms : frames (sort_terms spec terms).
Proof.
  induction terms as [|term terms IH]; cbn [sort_terms]; [done|].
  destruct (term_of term) as [column direction]. case_bool_decide; [done|].
  apply (frames_compose _ (q_order_by column direction)); [done|apply frames_order].
Qed.

Lemma frames_join type table alias left right : frames (q_join type table alias left right).
Proof. unfold q_join. by case_match. Qed.

Lemma frames_push_or f : frames (push_or_condition f).
Proof.
  split; intros c; unfold push_or_condition; destruct c; cbn;
    destruct simple_or_group as [i|]; (done || by destruct (or_groups !! i)).
Qed.

Lemma frames_distinct : frames q_distinct.
Proof. split; intros c; unfold q_distinct, is_distinct; destruct c; cbn; by destruct (existsb _ _). Qed.
End CallAppends.

#[export] Hint Resolve frames_id frames_invalidate frames_absorb frames_order frames_sort frames_join
  frames_push_or frames_distinct : tide.

Section CallProper.
Context `{QT : QueryTypes} `{!ModelContext} `{Unicode}.
Implicit Types (self c d : Clauses).

Lemma frames_call q : match q with Having_ _ => True | _ => frames (call q) end.
Proof.
  destruct q; cbn [call]; try done; auto with tide.
  - unfold q_or_where. by destruct (group_is_empty group).
  - unfold push_subquery_condition, push_bound_raw.
    apply (frames_compose (q_where _)); [done|].
    apply (frames_compose (invalidate_on _ _)); auto with tide.
  - unfold push_has_condition, push_bound_raw.
    destruct keys as [[?|] [?|]]; (apply (frames_compose (q_where _)) || apply (frames_compose (invalidate_query _)));
      try done; (destruct blocker; [apply (frames_compose (invalidate_query _))|]; [done|..]; auto with tide).
  - apply (frames_compose (upd_raw_select_expressions _)); [done|auto with tide].
  - apply (frames_compose (upd_subquery_select_expressions _)); [done|].
    apply (frames_compose (invalidate_on _ _)); [auto with tide|].
    apply (frames_compose (invalidate_on _ _)); auto with tide.
  - by apply frames_sort.
  - unfold q_page. by case_match.
  - apply (frames_compose (upd_select_columns _)); [done|auto with tide].
  - apply (frames_compose (upd_unions _)); [done|auto with tide].
  - unfold push_compound_operand. apply (frames_compose (upd_unions _)); [done|].
    destruct reads_table_wildcard; [|apply (frames_compose (invalidate_on _ _)); [auto with tide|]];
      apply (frames_compose (invalidate_on _ _)); auto with tide.
  - apply (frames_compose (upd_ctes _)); [done|auto with tide].
  - apply (frames_compose (upd_ctes _)); [done|].
    apply (frames_compose (invalidate_on _ _)); auto with tide.
  - apply (frames_compose (upd_ctes _)); [done|].
    apply (frames_compose (invalidate_on _ _)); [auto with tide|].
    apply (frames_compose (invalidate_on _ _)); auto with tide.
  - unfold q_only_trashed. by destruct soft_delete_enabled.
Qed.

Lemma appends_params t ps (g : Clauses → Clauses) c :
  frames g → appends (λ c, having_with_params t ps (g c)) c.
Proof.
  intros [R B T]. split; cbn; unfold push.
  - rewrite <- R. done.
  - rewrite B, <- R. done.
  - by rewrite T.
Qed.

Lemma appends_bound condition e j v (g : Clauses → Clauses) c :
  frames g → appends (λ c, having_bound condition e j v (g c)) c.
Proof.
  intros Hg. unfold having_bound. destruct (extreme_column _) as [column|];
    [|by apply appends_params].
  destruct Hg as [R B T]. split; cbn; unfold push.
  - rewrite <- R. done.
  - rewrite B, <- R. done.
  - intros i. rewrite T. intros Hi. apply lookup_insert_None in Hi as [? _]. done.
Qed.

Lemma appends_call q c : appends (call q) c.
Proof.
  pose proof (frames_call q) as Hq. destruct q; try (by apply frames_appends). clear Hq.
  destruct condition as [condition|sql]; cbn [call q_having].
  2: { apply (appends_params sql [] (invalidate_on _ _)). auto with tide. }
  assert (frames (record_comparison condition)) as Hg
    by (unfold record_comparison; by destruct (compared_column _)).
  assert (joins (record_comparison condition c) = joins c
          ∧ joins (record_comparison condition (without_bindings c)) = joins c) as [Hj Hj']
    by (unfold record_comparison; by destruct (compared_column _)).
  revert Hg Hj Hj'. change (q_having (HAggregate condition))
    with (λ c, having_compared condition (record_comparison condition c)).
  generalize (record_comparison condition) as g. intros g Hg Hj Hj'. unfold having_compared.
  assert (∀ r, appends (λ c, invalidate_query r (g c)) c) as Hi.
  { intros r. by apply frames_appends, (frames_compose (invalidate_query r)). }
  destruct (aggregate_value condition) as [j|r]; [|apply Hi].
  destruct (is_null j).
  { destruct (str_eqb _ _); [by apply appends_params|].
    destruct (str_eqb _ _); [by apply appends_params|apply Hi]. }
  assert (∀ e v, appends (λ c, having_bound condition e j v (g c)) c) as Hb
    by (intros; by apply appends_bound).
  destruct (aggregate condition); try (destruct (numeric_having_value j); [apply Hb|apply Hi]).
  all: match goal with |- appends (λ c, having_bound _ ?e _ (json_to_column_value _ (_ _ ?col)) _) _ =>
    destruct (Hb e (json_to_column_value j (type_of_column (joins c) col))) as [R B T] end;
    split; rewrite ?Hj, ?Hj'; done.
Qed.

#[export] Instance call_proper q : Proper ((≡@{Clauses}) ==> (≡)) (call q).
Proof. intros c d Hcd. apply appends_proper; [apply appends_call..|done]. Qed.
End CallProper.

(** ** Applying a fragment replays its calls *)

Section Replays.
Context `{QT : QueryTypes} `{!ModelContext} `{Unicode}.
Implicit Types (self c d : Clauses).

(** No raw SELECT expression spells the marker of [distinct()]. *)
Definition no_marker (q : QueryCall) : Prop :=
  match q with SelectRaw e => e ≠ DISTINCT_SELECT_MARKER | _ => True end.

Lemma merge_having_bound self c condition e j v :
  wf self → wf c →
  merge self (having_bound condition e j v c) = having_bound condition e j v (merge self c).
Proof.
  intros Hs Hc. unfold having_bound. pose proof (wf_bindings _ Hs) as Bs. pose proof (wf_bindings _ Hc) as Bc.
  destruct (extreme_column _) as [column|]; [|by apply merge_having_with_params].
  rewrite merge_having_with_params; [|done|done]. by rewrite merge_typed.
Qed.

(** A value bound early for an extreme is replaced later. *)
Lemma having_bound_agree condition e j v v' c :
  bound c → extreme_column (aggregate condition) ≠ None →
  having_bound condition e j v c ≡ having_bound condition e j v' c.
Proof.
  intros Hc He. unfold having_bound. destruct (extreme_column _) as [column|]; [|done].
  split; cbn; unfold push; [done|by rewrite !length_app|].
  intros i [Hi Hne]%lookup_insert_None.
  destruct (decide (i < length (having_bindings c))) as [Hl|Hl].
  - by rewrite !lookup_app_l.
  - rewrite !lookup_ge_None_2; [done|..]; rewrite length_app; unfold bound in Hc; cbn; lia.
Qed.

Lemma merge_having self c condition :
  wf self → wf c → merge self (q_having condition c) ≡ q_having condition (merge self c).
Proof.
  intros Hs Hc. pose proof (wf_bindings _ Hs) as Bs. destruct condition as [condition|sql]; cbn [q_having].
  2: { apply reflexive_eq. change (upd_having_bindings (push []) (upd_having_conditions (push sql) ?c))
         with (having_with_params sql [] c).
       rewrite merge_having_with_params, merge_invalidate_on; [done|done|].
       destruct (validate_having_sql_fragment _ _); apply (wf_bindings _ Hc). }
  unfold having_aggregate. set (d := record_comparison condition c).
  assert (wf d) as Hd by (unfold d, record_comparison; case_match; [by apply (wf_frame c)|done]).
  assert (record_comparison condition (merge self c) = merge self d) as ->.
  { unfold d, record_comparison. case_match; [|done]. by rewrite merge_comparisons. }
  pose proof (wf_bindings _ Hd) as Bd. unfold having_compared.
  destruct (aggregate_value condition) as [j|r].
  2: { by apply reflexive_eq, merge_reason. }
  destruct (is_null j).
  { apply reflexive_eq. repeat case_match; try (by apply merge_having_with_params). apply merge_reason. }
  destruct (aggregate condition) eqn:Ea;
    try (apply reflexive_eq; destruct (numeric_having_value j);
         [by apply merge_having_bound|apply merge_reason]).
  all: rewrite merge_having_bound by done; apply having_bound_agree; [|by rewrite Ea].
  all: unfold bound; cbn; rewrite merged_bindings_app, !length_app by done; unfold bound in *; lia.
Qed.

Lemma merge_call self c q :
  wf self → wf c → no_marker q → merge self (call q c) ≡ call q (merge self c).
Proof.
  intros Hs Hc Hq. destruct q; cbn [call]; try (by apply merge_having); apply reflexive_eq.
  all: try (by unfold q_where, q_window, q_group_by, q_limit, q_offset, q_select, q_lock_for_update,
              q_order_by_raw, q_cache, q_cache_with_key, q_sort; autorewrite with merging).
  - by apply merge_push_or_condition.
  - unfold q_or_where. case_match; [done|]. by apply merge_or_push.
  - by apply merge_end_or.
  - unfold push_subquery_condition, push_bound_raw, q_where. by autorewrite with merging.
  - unfold push_has_condition, push_bound_raw, q_where, invalidate_query.
    repeat case_match; by autorewrite with merging.
  - unfold q_select_raw. by rewrite merge_select_raw_push, merge_invalidate_on.
  - unfold q_select_subquery. by autorewrite with merging.
  - unfold q_page, q_limit, q_offset. case_match; by autorewrite with merging.
  - unfold q_select_with_linked. by autorewrite with merging.
  - unfold push_raw_union. by autorewrite with merging.
  - unfold push_compound_operand. destruct reads_table_wildcard; by autorewrite with merging.
  - unfold push_cte. by autorewrite with merging.
  - unfold q_with_query, push_cte. by autorewrite with merging.
  - unfold q_with_recursive_cte, push_cte. by autorewrite with merging.
  - unfold q_only_trashed, invalidate_query. destruct soft_delete_enabled; by autorewrite with merging.
Qed.

(** What no call made: nothing to merge. *)
Lemma merge_default_r self : wf self → merge self Clauses_default = self.
Proof.
  intros Hs. pose proof (merged_bindings_app self Clauses_default (wf_bindings _ Hs) eq_refl) as Hb.
  unfold merge. rewrite Hb. unfold merged_typed, merge_or_groups, last_wins, first_wins. cbn.
  rewrite !app_nil_r, kmap_empty, (left_id_L ∅ _), orb_false_r.
  destruct self. cbn. f_equal; by case_match.
Qed.

Lemma kmap_add_0 {A} (m : gmap nat A) : kmap (Nat.add 0) m = m.
Proof.
  apply map_eq. intros i. apply option_eq. intros x. rewrite lookup_kmap_Some by apply _.
  split; [by intros (j & -> & ?)|]. intros Hi. by exists i.
Qed.

Lemma merge_default_l c : wf c → merge Clauses_default c = c.
Proof.
  intros Hc. pose proof (merged_bindings_app Clauses_default c eq_refl (wf_bindings _ Hc)) as Hb.
  pose proof (merge_or_closed Clauses_default c wf_default Hc) as Ho. cbn in Ho.
  assert (merge_or_groups Clauses_default c = (or_groups c, simple_or_group c)) as Ho'.
  { rewrite Ho. destruct (simple_or_group c) as [i|] eqn:Ei; [|done].
    by destruct (lookup_lt_is_Some_2 _ _ (wf_simple _ Hc i Ei)) as [g ->]. }
  unfold merge. rewrite Hb, Ho'. unfold merged_typed, last_wins, first_wins. cbn.
  rewrite filter_all by (intros; apply orb_true_r).
  rewrite kmap_add_0, (right_id_L ∅ _).
  pose proof (wf_scope _ Hc) as Hw. destruct c. cbn in *.
  f_equal; try (match goal with |- ?x = ?y => destruct y; done end);
    destruct only_trashed, include_trashed; try done; by rewrite Hw.
Qed.

Lemma wf_merge self c : wf self → wf c → wf (merge self c).
Proof.
  intros Hs Hc. split; cbn.
  - intros i Hi. rewrite (merge_or_closed self c Hs Hc) in *.
    pose proof (wf_simple _ Hs) as Hws. pose proof (wf_simple _ Hc) as Hwc.
    destruct (simple_or_group c) as [j|]; [|cbn in *; rewrite length_app; specialize (Hws i Hi); lia].
    specialize (Hwc j eq_refl). destruct (lookup_lt_is_Some_2 _ _ Hwc) as [g Hg]. rewrite Hg in *.
    destruct (simple_or_group self) as [k|]; cbn in *; injection Hi as <-.
    + rewrite length_app, length_alter. specialize (Hws k eq_refl). lia.
    + rewrite length_app. lia.
  - rewrite (merged_bindings_app self c (wf_bindings _ Hs) (wf_bindings _ Hc)).
    by rewrite !length_app, (wf_bindings _ Hs), (wf_bindings _ Hc).
  - intros i. unfold merged_typed. rewrite length_app. intros [x Hx].
    apply lookup_union_Some_raw in Hx as [Hx|[_ Hx]].
    + apply lookup_kmap_Some in Hx as (j & -> & Hj); [|apply _].
      pose proof (wf_typed _ Hc j (mk_is_Some _ _ Hj)). lia.
    + pose proof (wf_typed _ Hs i (mk_is_Some _ _ Hx)). lia.
  - pose proof (wf_scope _ Hs). by destruct (only_trashed c), (include_trashed c).
Qed.

(** The clauses a query can come to hold: by builder calls, by the calls that clear
    a slot, and by applying fragments. *)
Inductive built : Clauses → Prop :=
  | built_new : built Clauses_default
  | built_call q c : no_marker q → built c → built (call q c)
  | built_reorder column direction c : built c → built (q_reorder column direction c)
  | built_no_cache c : built c → built (q_no_cache c)
  | built_live_rows c : built c → built (live_rows_only c)
  | built_apply c fragment : built c → built fragment → built (apply c fragment).

Lemma built_wf c : built c → wf c.
Proof.
  induction 1 as [|q c _ _ IH|column direction c _ IH|c _ IH|c _ IH|c f _ IHc _ IHf].
  - apply wf_default.
  - by apply wf_call.
  - eapply wf_frame; [apply order_fields|]. by apply (wf_frame c).
  - by apply (wf_frame c).
  - destruct IH. by split.
  - by apply wf_merge.
Qed.

End Replays.

(** ** Empty fragments *)

Section Empty.
Context `{QT : QueryTypes} `{!ModelContext} `{Unicode}.
Implicit Types (self c d : Clauses).

(** Something [is_empty] looks at that no call takes away. *)
Definition visible c : bool :=
  negb (nilb (conditions c) && nilb (subquery_select_expressions c) && nilb (unions c)
        && nilb (ctes c) && nilb (having_conditions c)
        && negb (bool_decide (is_Some (invalid_query_reason c)))).

(** What [is_empty] does not look at comes with something it does. *)
Definition accounted c : Prop :=
  visible c = true ∨ (dependencies c = [] ∧ having_comparisons c = []).

Definition tracked c := (conditions c, subquery_select_expressions c, unions c, ctes c,
                         having_conditions c, invalid_query_reason c,
                         dependencies c, having_comparisons c).

Lemma accounted_frame c c' : tracked c' = tracked c → accounted c → accounted c'.
Proof.
  unfold tracked, accounted, visible. by intros [= -> -> -> -> -> -> -> ->].
Qed.

Lemma visible_reason c r :
  visible (upd_invalid_query_reason (λ x, first_wins x (Some r)) c) = true.
Proof.
  unfold visible. cbn. destruct (invalid_query_reason c); cbn; by rewrite andb_false_r.
Qed.

Lemma visible_condition c x : visible (upd_conditions (push x) c) = true.
Proof. unfold visible, push. cbn. by destruct (conditions c). Qed.
Lemma visible_subquery c x : visible (upd_subquery_select_expressions (push x) c) = true.
Proof. unfold visible, push. cbn. by destruct (conditions c), (subquery_select_expressions c). Qed.
Lemma visible_union c x : visible (upd_unions (push x) c) = true.
Proof.
  unfold visible, push. cbn. by destruct (conditions c), (subquery_select_expressions c), (unions c).
Qed.
Lemma visible_cte c x : visible (upd_ctes (push x) c) = true.
Proof.
  unfold visible, push. cbn.
  by destruct (conditions c), (subquery_select_expressions c), (unions c), (ctes c).
Qed.
Lemma visible_having c t ps : visible (having_with_params t ps c) = true.
Proof.
  unfold visible, push. cbn.
  by destruct (conditions c), (subquery_select_expressions c), (unions c), (ctes c), (having_conditions c).
Qed.

Lemma accounted_invalidate {A} (r : result A str) m c :
  accounted c → accounted (invalidate_on r m c).
Proof. destruct r; [done|]. intros _. left. apply visible_reason. Qed.

Lemma accounted_order column direction c : accounted c → accounted (q_order_by column direction c).
Proof.
  intros Hc. unfold q_order_by. repeat case_match; try (by apply (accounted_frame c));
    left; apply visible_reason.
Qed.

Lemma accounted_sort spec terms c : accounted c → accounted (sort_terms spec terms c).
Proof.
  revert c. induction terms as [|term terms IH]; intros c Hc; cbn; [done|].
  destruct (term_of term). case_bool_decide; [left; apply visible_reason|].
  by apply IH, accounted_order.
Qed.

Lemma accounted_join type table alias left right c :
  accounted c → accounted (q_join type table alias left right c).
Proof.
  intros Hc. unfold q_join. case_match; [by apply (accounted_frame c)|left; apply visible_reason].
Qed.

Lemma accounted_having condition c : accounted c → accounted (q_having condition c).
Proof.
  intros Hc. destruct condition as [condition|sql]; cbn [q_having].
  2: { left. apply (visible_having _ sql []). }
  unfold having_aggregate, having_compared, having_bound. generalize (record_comparison condition c).
  intros d. repeat case_match; left; try apply visible_having; apply visible_reason.
Qed.

Lemma accounted_call q c : accounted c → accounted (call q c).
Proof.
  intros Hc. destruct q; cbn [call];
    try (by apply (accounted_frame c)); try (by apply accounted_having);
    try (left; apply visible_condition || apply visible_subquery || apply visible_union
         || apply visible_cte).
  - unfold push_or_condition. by repeat case_match; apply (accounted_frame c).
  - unfold q_or_where. case_match; [done|by apply (accounted_frame c)].
  - unfold push_has_condition, push_bound_raw, q_where, invalidate_query.
    destruct keys as [[?|] [?|]]; left; try apply visible_condition; apply visible_reason.
  - apply (accounted_frame (invalidate_on (validate_raw_sql_fragment (lit "SELECT raw SQL") raw_select) id c));
      [done|by apply accounted_invalidate].
  - by apply accounted_order.
  - by apply accounted_sort.
  - unfold q_page. by case_match; apply (accounted_frame c).
  - unfold q_distinct. case_match; [done|by apply (accounted_frame c)].
  - by apply accounted_join.
  - unfold q_select_with_linked.
    eapply accounted_frame; [|by apply accounted_join]. done.
  - unfold q_only_trashed. case_match; [by apply (accounted_frame c)|].
    apply (accounted_frame (invalidate_query (lit "only_trashed() cannot be used: this model has no soft delete") c));
      [done|left; apply visible_reason].
Qed.

Lemma accounted_merge self c : accounted self → accounted c → accounted (merge self c).
Proof.
  unfold accounted, visible. cbn. intros [Hs|[-> ->]].
  - intros _. left. destruct (conditions self), (subquery_select_expressions self), (unions self),
      (ctes self), (having_conditions self), (invalid_query_reason self);
      cbn in *; rewrite ?andb_false_r; try done.
  - intros [Hc|[-> ->]]; [left|by right].
    destruct (conditions self), (subquery_select_expressions self), (unions self),
      (ctes self), (having_conditions self), (invalid_query_reason self); cbn in *;
      rewrite ?andb_false_r; done.
Qed.

Lemma built_accounted c : built c → accounted c.
Proof.
  induction 1 as [|q c _ _ IH|column direction c _ IH|c _ IH|c _ IH|c f _ IHc _ IHf].
  - by right.
  - by apply accounted_call.
  - apply accounted_order. by apply (accounted_frame c).
  - by apply (accounted_frame c).
  - by apply (accounted_frame c).
  - by apply accounted_merge.
Qed.

Lemma nilb_true {A} (l : list A) : nilb l = true → l = [].
Proof. by destruct l. Qed.

Lemma no_some {A} (o : option A) : negb (bool_decide (is_Some o)) = true → o = None.
Proof. intros H1%negb_true_iff%bool_decide_eq_false. by apply eq_None_not_Some. Qed.

(** [QueryFragment::is_empty] tells the truth: clauses built in any way at all are
    reported empty only when they are the empty clauses, so that applying them
    changes nothing, though the check leaves out five of the slots. *)
Theorem empty_fragments_change_nothing c :
  built c → clauses_is_empty c = true →
  c = Clauses_default ∧ ∀ self, built self → apply self (consolidate c) = self.
Proof.
  intros Hb He. pose proof (built_wf c Hb) as Hw.
  assert (c = Clauses_default) as ->.
  2: { split; [done|]. intros self Hs%built_wf. by apply merge_default_r. }
  destruct (built_accounted c Hb) as [Hv|[Hd Hh]]; unfold clauses_is_empty, visible in *; bools;
    repeat match goal with
    | H : nilb _ = true |- _ => apply nilb_true in H
    | H : negb (bool_decide (is_Some _)) = true |- _ => apply no_some in H
    | H : bool_decide (is_Some _) = false |- _ => apply bool_decide_eq_false, eq_None_not_Some in H
    end.
  { exfalso. repeat match goal with H : _ = [] |- _ => rewrite H in Hv
                   | H : _ = None |- _ => rewrite H in Hv end. done. }
  destruct Hw as [Hw1 Hw2 Hw3 _].
  assert (length (having_conditions c) = 0 ∧ length (or_groups c) = 0) as [Hz Ho]
    by (split; apply length_zero_iff_nil; assumption).
  assert (having_bindings c = []) as Hbind by (apply length_zero_iff_nil; lia).
  assert (simple_or_group c = None) as Hsimple.
  { destruct (simple_or_group c) as [i|]; [|done]. specialize (Hw1 i eq_refl). lia. }
  assert (having_typed_bindings c = ∅) as Htyped.
  { apply map_eq. intros i. rewrite lookup_empty. apply eq_None_not_Some. intros Hi.
    specialize (Hw3 i Hi). lia. }
  destruct c; cbn in *. by subst.
Qed.
End Empty.

(** ** Calls that clear a slot, and pages *)

Section Clearing.
Context `{QT : QueryTypes} `{!ModelContext} `{Unicode}.
Implicit Types (self c d : Clauses).

(** The documentation of [apply] says that every slot behaves exactly as the
    matching setter does and that the query's failure is the sole first-wins slot.
    It is not so: a [reorder] or a [no_cache] in a fragment does not replace the
    query's ordering or cancel its caching, as those calls would, and a refused
    page is first-wins too. *)
Theorem clearing_calls_are_not_replayed self :
  let name := lit "name" in
  order_by (q_reorder name Asc self) = [(name, Asc)]
  ∧ order_by (apply self (consolidate (q_reorder name Asc Clauses_default)))
    = order_by self ++ [(name, Asc)]
  ∧ cache_options (q_no_cache self) = None
  ∧ cache_options (apply self (consolidate (q_no_cache Clauses_default))) = cache_options self
  ∧ ∀ page per_page, invalid_page self ≠ None →
      invalid_page (apply self (consolidate (q_page page per_page Clauses_default)))
      = invalid_page self.
Proof.
  split_and!; try done.
  intros page per_page Hp. unfold apply, consolidate, merge. cbn.
  by destruct (invalid_page self).
Qed.

(** The page and its size count from one, and its range is one of [i64]s. *)
Definition page_fits (page per_page : N) : Prop :=
  (0 < page ∧ 0 < per_page ∧ per_page ≤ i64_max ∧ (page - 1) * per_page ≤ i64_max)%N.

(** [page] asks a database for a range it can take, or says what is wrong: for
    any 64-bit page number and size, it sets the limit to the size and the offset to
    the rows before the page, both at most [i64::MAX], exactly when the page and the
    size are not zero and those numbers fit; otherwise it changes neither and
    records, unless an earlier refusal is recorded, one naming [per_page] when the
    size is the reason and [page] when the page is. *)
Theorem page_bounds page per_page c :
  (page ≤ u64_max)%N → (per_page ≤ u64_max)%N →
  (page_fits page per_page → q_page page per_page c
          = q_offset ((page - 1) * per_page) (q_limit per_page c))
  ∧ (¬ page_fits page per_page → limit_value (q_page page per_page c) = limit_value c
      ∧ offset_value (q_page page per_page c) = offset_value c
      ∧ ∃ field message,
          invalid_page (q_page page per_page c)
          = first_wins (invalid_page c) (Some (field, message))
          ∧ (field = lit "per_page" ↔ (0 < page ∧ (per_page = 0 ∨ i64_max < per_page))%N)
          ∧ (field = lit "page" ↔ (page = 0 ∨ (0 < per_page ≤ i64_max))%N)).
Proof.
  intros _ _. set (fits := page_fits page per_page). assert (i64_max < u64_max)%N as Hmax by done.
  assert (match page_offset page per_page with
          | Ok offset => fits ∧ offset = ((page - 1) * per_page)%N
          | Err (field, _) => ¬ fits
              ∧ (field = lit "per_page" ↔ (0 < page ∧ (per_page = 0 ∨ i64_max < per_page))%N)
              ∧ (field = lit "page" ↔ (page = 0 ∨ (0 < per_page ≤ i64_max))%N)
          end) as Hp.
  { unfold page_offset, fits, page_fits. generalize dependent i64_max. generalize u64_max. intros u i Hu.
    assert (lit "page" ≠ lit "per_page") as Hne by done.
    destruct (page =? 0)%N eqn:E1; cbv beta iota; [split; [lia|split; split; (congruence || lia || done)]|].
    destruct (per_page =? 0)%N eqn:E2; cbv beta iota; [split; [lia|split; split; (congruence || lia || done)]|].
    destruct (per_page <=? i)%N eqn:E3; cbn [negb]; cbv beta iota.
    2: { split; [lia|split; split; (congruence || lia || done)]. }
    destruct (((page - 1) * per_page <=? u) && ((page - 1) * per_page <=? i))%N eqn:E4; cbv beta iota.
    - apply andb_true_iff in E4 as [_ ?%N.leb_le]. split; [split_and!; lia|done].
    - split; [|split; split; (congruence || lia || done)].
      intros (_ & _ & _ & Hle). apply andb_false_iff in E4 as [E4%N.leb_gt|E4%N.leb_gt]; lia. }
  unfold q_page. destruct (page_offset page per_page) as [offset|[field message]].
  - destruct Hp as [Hf ->]. split; [done|]. intros Hn. destruct (Hn Hf).
  - destruct Hp as (Hn & ? & ?). split; [intros Hf; destruct (Hn Hf)|]. intros _.
    split_and!; [done|done|]. by exists field, message.
Qed.
End Clearing.

(** ** Witnesses *)

Definition demo_types : QueryTypes :=
  {| bound_value := str; database := N; column_type := N; encrypted_column := N |}.

(** A model whose column [price] has a type once a table is joined. *)
Definition demo_context : @ModelContext demo_types := {|
  query_db := SQLite;
  model_identifier := λ column, lit "items." ++ column;
  type_of_column := λ joins _, match joins with [] => None | _ => Some (1%N : @column_type demo_types) end;
  json_to_column_value := λ _ type,
    match type with
    | Some _ => lit "typed" : @bound_value demo_types
    | None => lit "plain" : @bound_value demo_types
    end;
  numeric_having_value := λ _, Some (lit "number" : @bound_value demo_types);
  soft_delete_enabled := true;
|}.

Lemma built_replay `{QT : QueryTypes} `{!ModelContext} `{Unicode} calls c :
  Forall no_marker calls → built c → built (replay calls c).
Proof.
  intros Hm. revert c. induction Hm as [|q calls Hq _ IH]; intros c Hc; [done|].
  cbn. by apply IH, built_call.
Qed.


Lemma empty_fragments_change_nothing_witness :
  let QT := demo_types in
  let MC := demo_context in
  let U := ascii_only in
  let c := q_no_cache (call (Cache 5) Clauses_default) in
  clauses_is_empty c = true ∧ c = Clauses_default
  ∧ ∀ self, built self → apply self (consolidate c) = self.
Proof.
  intros QT MC U c. split; [vm_compute; reflexivity|].
  apply empty_fragments_change_nothing; [|vm_compute; reflexivity].
  apply built_no_cache, built_call; [exact I|apply built_new].
Defined.

Lemma page_bounds_witness :
  let QT := demo_types in
  q_page 3 20 Clauses_default = q_offset 40 (q_limit 20 Clauses_default)
  ∧ invalid_page (q_page u64_max u64_max Clauses_default)
    = Some (lit "per_page", lit "must be at most i64::MAX").
Proof.
  intros QT. split; [|vm_compute; reflexivity].
  apply (page_bounds 3 20 Clauses_default); [vm_compute; discriminate..|].
  vm_compute. repeat split; discriminate.
Defined.
