(* ===== verification/BulkWrites.v ===== *)
(** * Bulk writes

    src/src/query/sql/execution.rs ([delete], [delete_all], [soft_delete], [restore],
    [force_delete]), execution/mutation_safety.rs, the blockers of
    src/src/query/builder.rs and the scope of src/src/soft_delete.rs: which queries may
    write rows in bulk, the statement each write sends, and what it does to a table.

    Sending the statement, and the invalidations around it, are not modelled here
    (see [Transactions]); the statement keeps, next to its text, the condition that
    was rendered into it, which says what the database does with it. *)

From S2P Require Import Prelude Dialect SqlLexer SqlSafety JsonPath JsonLoss Filters QueryStructure.
From S2P Require Import Clauses Fragments.
Local Open Scope tide_scope.

Inductive QueryError :=
  | EQuery (message : str)
  | EValidation (field message : str)
  | EFilter (e : FilterError).

Inductive SoftDeleteScope := Disabled | ActiveOnly | WithTrashed_ | OnlyTrashed_.

(** [query_scope_for]. *)
Definition query_scope (soft_delete_enabled include_trashed only_trashed : bool) : SoftDeleteScope :=
  if negb soft_delete_enabled then Disabled
  else if only_trashed then OnlyTrashed_
  else if include_trashed then WithTrashed_
  else ActiveOnly.

(** What bulk writes use of the model and of other components: the table's names,
    which types are JSON, the checks of the raw fragments of a query
    ([validate_query_fragments]), and the query engine's text of a condition, in
    [SELECT 1 WHERE ..]. *)
Class BulkContext `{QueryTypes} `{SeaCondition (Expr bound_value)} := {
  table_name : str;
  quoted_table : str;
  deleted_at_column : str;
  is_json_type : option column_type → bool;
  validate_query_fragments : Clauses → result unit str;
  render_select : Condition → str * list bound_value;
}.

Section Guards.
Context `{QT : QueryTypes} `{!ModelContext} `{SC : SeaCondition (Expr bound_value)} `{!BulkContext}
  `{JsonStrings}.

Definition ensure_query_is_valid (c : Clauses) : result unit QueryError :=
  match invalid_query_reason c with
  | Some reason => Err (EQuery reason)
  | None =>
      match invalid_page c with
      | Some (field, message) => Err (EValidation field message)
      | None =>
          match validate_query_fragments c with
          | Ok _ => Ok tt
          | Err message => Err (EQuery message)
          end
      end
  end.

Definition ensure_query_is_executable (c : Clauses) : result unit QueryError :=
  ensure_query_is_valid c;;?
  match ensure_conditions_are_representable query_db (all_conditions (conditions c) (or_groups c)) with
  | Ok _ => Ok tt
  | Err e => Err (EFilter e)
  end.

(** [[(bool, &str)].find_map]. *)
Definition first_present (parts : list (bool * str)) : option str :=
  snd <$> find fst parts.

Definition update_blocker (c : Clauses) : option str :=
  first_present
    [(negb (nilb (joins c)), lit "a join");
     (negb (nilb (unions c)), lit "a union");
     (negb (nilb (ctes c)), lit "a CTE");
     (negb (nilb (group_by c)), lit "group_by()");
     (negb (nilb (having_conditions c)), lit "having()");
     (negb (nilb (window_functions c)), lit "a window function");
     (bool_decide (is_Some (limit_value c)) || bool_decide (is_Some (offset_value c)),
      lit "limit() or offset()")].

(** [has_explicit_projection]: the raw projection is what the marker leaves. *)
Definition has_explicit_projection (c : Clauses) : bool :=
  bool_decide (is_Some (select_columns c)) || negb (nilb (subquery_select_expressions c))
  || existsb (λ e, negb (str_eqb DISTINCT_SELECT_MARKER e)) (raw_select_expressions c).

Definition mutation_blocker (c : Clauses) : option str :=
  match update_blocker c with
  | Some part => Some part
  | None =>
      first_present
        [(has_explicit_projection c, lit "a select()");
         (is_distinct c, lit "distinct()");
         (negb (nilb (order_by c)), lit "an ordering")]
  end.

Definition ensure_mutation_query_is_safe (operation : str) (c : Clauses) : result unit QueryError :=
  match mutation_blocker c with
  | Some part =>
      Err (EQuery (operation ++ lit " keeps a query's filters and scope only; " ++ part
                   ++ lit " cannot be part of it"))
  | None => Ok tt
  end.

(** [condition_is_vacuous] with the query's own column types. *)
Definition is_vacuous (c : Clauses) : WhereCondition bound_value → bool :=
  condition_is_vacuous (λ column, is_json_type (type_of_column (joins c) column)).

Definition has_explicit_mutation_filters (c : Clauses) : bool :=
  existsb (λ condition, negb (is_vacuous c condition)) (conditions c)
  || existsb (is_restrictive_with (is_vacuous c)) (or_groups c).

Definition ensure_mutation_has_explicit_filters (operation : str) (c : Clauses)
  : result unit QueryError :=
  if has_explicit_mutation_filters c then Ok tt
  else Err (EQuery (operation
         ++ lit " requires at least one explicit filter that can exclude a row; unfiltered bulk mutations are blocked")).

Definition ensure_trash_mutation_has_filters (operation : str) (c : Clauses)
  : result unit QueryError :=
  if only_trashed c then
    if negb soft_delete_enabled then
      Err (EQuery (operation ++ lit " with only_trashed() on '" ++ table_name
                   ++ lit "', which has no soft delete and so no trash"))
    else Ok tt
  else ensure_mutation_has_explicit_filters operation c.

Definition to_ascii_uppercase_char (ch : char) : char :=
  if ((97 <=? ch) && (ch <=? 122))%N then (ch - 32)%N else ch.

Definition is_unrestricted_where_body (where_sql : str) : bool :=
  let normalized :=
    map to_ascii_uppercase_char
      (List.filter (λ ch, negb (is_whitespace ch || (ch =? 40)%N || (ch =? 41)%N)) where_sql) in
  existsb (str_eqb normalized) [[]; lit "TRUE"; lit "1"; lit "1=1"; lit "TRUE=TRUE"].

Definition ensure_rendered_filter_is_restrictive (operation where_sql : str)
  : result unit QueryError :=
  if is_unrestricted_where_body where_sql
  then Err (EQuery (operation
         ++ lit " rendered a WHERE clause that matches every row; unfiltered bulk mutations are blocked"))
  else Ok tt.

Definition ensure_mutation_has_no_explicit_filters (operation : str) (c : Clauses)
  : result unit QueryError :=
  if has_explicit_mutation_filters c
  then Err (EQuery (operation
         ++ lit " does not accept WHERE filters; use delete() when you intend to target specific rows"))
  else Ok tt.

Definition ensure_not_only_trashed (operation : str) (c : Clauses) : result unit QueryError :=
  if only_trashed c
  then Err (EQuery (operation ++ lit "() on only_trashed() rows of " ++ table_name
         ++ lit " would mark rows that are already deleted; force_delete() removes them for good"))
  else Ok tt.

(** ** The WHERE clause *)

Definition build_soft_delete_expression (c : Clauses) : option (Expr bound_value) :=
  match query_scope soft_delete_enabled (include_trashed c) (only_trashed c) with
  | Disabled | WithTrashed_ => None
  | ActiveOnly => Some (EIsNull deleted_at_column)
  | OnlyTrashed_ => Some (EIsNotNull deleted_at_column)
  end.

(** [build_sea_condition_for_db]. *)
Definition build_sea_condition (c : Clauses) : Condition :=
  let condition := add_filters (cond_start And) (conditions c) (or_groups c) in
  match build_soft_delete_expression c with
  | Some e => add_expr condition e
  | None => condition
  end.

(** [build_where_clause_with_condition_for_db]: what follows the first [WHERE]. *)
Definition build_where_clause (c : Clauses) : str * list bound_value :=
  let condition := build_sea_condition c in
  if condition_is_empty condition then ([], [])
  else
    let '(sql, values) := render_select condition in
    match find_str (lit " WHERE ") sql with
    | Some start =>
        match slice_from (start + slen (lit " WHERE ")) sql with
        | Some where_sql => (where_sql, values)
        | None => ([], [])
        end
    | None => ([], [])
    end.

(** ** The statements *)

(** A [DELETE], or an [UPDATE] of the soft-delete column ([None] is NULL, [Some] the
    stamp's literal), with the condition rendered into its WHERE clause. *)
Inductive Statement :=
  | SDelete (sql : str) (params : list bound_value) (condition : option Condition)
  | SStamp (sql : str) (params : list bound_value) (stamp : option str)
           (condition : option Condition).

(** The condition that a rendered clause holds; an empty one is no clause. *)
Definition rendered (where_sql : str) (condition : Condition) : option Condition :=
  if bool_decide (where_sql = []) then None else Some condition.

Definition build_delete_sql (operation : str) (c : Clauses) : result Statement QueryError :=
  let '(where_sql, params) := build_where_clause c in
  ensure_rendered_filter_is_restrictive operation where_sql;;?
  Ok (SDelete (lit "DELETE FROM " ++ quoted_table ++ lit " WHERE " ++ where_sql) params
        (rendered where_sql (build_sea_condition c))).

Definition deleted_at_update_sql (value where_sql : str) : str :=
  lit "UPDATE " ++ quoted_table ++ lit " SET " ++ quote_ident query_db deleted_at_column
  ++ lit " = " ++ value ++ lit " WHERE " ++ where_sql.

Definition build_soft_delete_sql (now : str) (c : Clauses) : result Statement QueryError :=
  let '(where_sql, params) := build_where_clause c in
  ensure_rendered_filter_is_restrictive (lit "soft_delete") where_sql;;?
  Ok (SStamp (deleted_at_update_sql now where_sql) params (Some now)
        (rendered where_sql (build_sea_condition c))).

Definition soft_delete (now : str) (c : Clauses) : result Statement QueryError :=
  ensure_query_is_executable c;;?
  ensure_mutation_query_is_safe (lit "soft_delete") c;;?
  if negb soft_delete_enabled then
    Err (EQuery (lit "soft_delete() can only be used on models with soft delete enabled"))
  else
    ensure_mutation_has_explicit_filters (lit "soft_delete") c;;?
    ensure_not_only_trashed (lit "soft_delete") c;;?
    build_soft_delete_sql now (live_rows_only c).

Definition delete_rows (now : str) (c : Clauses) : result Statement QueryError :=
  if soft_delete_enabled then
    ensure_not_only_trashed (lit "delete") c;;? soft_delete now c
  else
    ensure_query_is_executable c;;?
    ensure_mutation_query_is_safe (lit "delete") c;;?
    ensure_mutation_has_explicit_filters (lit "delete") c;;?
    build_delete_sql (lit "delete") c.

Definition delete_all (now : str) (c : Clauses) : result Statement QueryError :=
  ensure_query_is_executable c;;?
  ensure_mutation_query_is_safe (lit "delete_all") c;;?
  ensure_mutation_has_no_explicit_filters (lit "delete_all") c;;?
  if soft_delete_enabled then
    ensure_not_only_trashed (lit "delete_all") c;;?
    let query := live_rows_only c in
    let '(scope_sql, params) := build_where_clause query in
    Ok (SStamp (deleted_at_update_sql now scope_sql) params (Some now)
          (rendered scope_sql (build_sea_condition query)))
  else
    let '(scope_sql, params) := build_where_clause c in
    Ok (SDelete
          (lit "DELETE FROM " ++ quoted_table
           ++ (if bool_decide (scope_sql = []) then [] else lit " WHERE " ++ scope_sql))
          params (rendered scope_sql (build_sea_condition c))).

Definition restore (c : Clauses) : result Statement QueryError :=
  ensure_query_is_executable c;;?
  ensure_mutation_query_is_safe (lit "restore") c;;?
  if negb soft_delete_enabled then
    Err (EQuery (lit "restore() can only be used on models with soft delete enabled"))
  else
    ensure_trash_mutation_has_filters (lit "restore") c;;?
    let query := upd_include_trashed (put false) (upd_only_trashed (put true) c) in
    let '(where_sql, params) := build_where_clause query in
    ensure_rendered_filter_is_restrictive (lit "restore") where_sql;;?
    Ok (SStamp (deleted_at_update_sql (lit "NULL") where_sql) params None
          (rendered where_sql (build_sea_condition query))).

Definition force_delete (c : Clauses) : result Statement QueryError :=
  ensure_query_is_executable c;;?
  ensure_mutation_query_is_safe (lit "force_delete") c;;?
  ensure_trash_mutation_has_filters (lit "force_delete") c;;?
  let query := if negb (only_trashed c) then upd_include_trashed (put true) c else c in
  build_delete_sql (lit "force_delete") query.
End Guards.

(** ** What the database does with a statement *)

(** A table's rows, by the documentation of the databases: what an expression is worth
    on a row, and a stamp of the soft-delete column, which decides its own tests.
    The engine writes a condition that is not empty after [SELECT 1 WHERE]. *)
Class Table `{BulkContext} := {
  Row : Type;
  row_truth : Row → Expr bound_value → Truth;
  is_deleted : Row → bool;
  stamped : option str → Row → Row;
  truth_is_null r :
    row_truth r (EIsNull deleted_at_column) = if is_deleted r then TFalse else TTrue;
  truth_is_not_null r :
    row_truth r (EIsNotNull deleted_at_column) = if is_deleted r then TTrue else TFalse;
  stamped_is_deleted stamp r : is_deleted (stamped stamp r) = bool_decide (is_Some stamp);
  render_select_text d :
    condition_is_empty d = false →
    ∃ body, body ≠ [] ∧ (render_select d).1 = lit "SELECT 1 WHERE " ++ body;
}.

Section Execution.
Context `{Table}.

(** A row is reached when the condition is true on it; no condition reaches all. *)
Definition reached (condition : option Condition) (r : Row) : bool :=
  match condition with
  | Some d => bool_decide (truth (row_truth r) d = TTrue)
  | None => true
  end.

(** The table after a statement. *)
Definition exec (s : Statement) (rows : list Row) : list Row :=
  match s with
  | SDelete _ _ d => List.filter (λ r, negb (reached d r)) rows
  | SStamp _ _ stamp d => map (λ r, if reached d r then stamped stamp r else r) rows
  end.

(** The rows a query's own filters match. *)
Definition matches (c : Clauses) (r : Row) : bool :=
  bool_decide (filters_truth (cond_truth (row_truth r)) (conditions c) (or_groups c) = TTrue).

Definition in_scope (scope : SoftDeleteScope) (r : Row) : bool :=
  match scope with
  | Disabled | WithTrashed_ => true
  | ActiveOnly => negb (is_deleted r)
  | OnlyTrashed_ => is_deleted r
  end.
End Execution.

(** ** The guards *)

Section GuardFacts.
Context `{QT : QueryTypes} `{!ModelContext} `{SC : SeaCondition (Expr bound_value)} `{!BulkContext}
  `{JsonStrings}.

Lemma explicit_filters_restrict (c : Clauses) :
  has_explicit_mutation_filters c
  = is_restrictive_with (is_vacuous c) (mkGroup (conditions c) (or_groups c) And).
Proof. done. Qed.

Lemma no_filters_hold (w : WhereCondition bound_value → Truth) cs gs :
  group_is_empty (mkGroup cs gs And) = true → filters_truth w cs gs = TTrue.
Proof.
  rewrite (group_members_nil w). unfold filters_truth. cbn [group_conditions nested_groups].
  by destruct (_ ++ _).
Qed.

(** The filters count as none exactly when they hold on every row on which their
    vacuous conditions do. *)
Lemma explicit_filters_spec (c : Clauses) :
  has_explicit_mutation_filters c = false ↔
  (∀ w, (∀ d, is_vacuous c d = true → w d = TTrue) →
        filters_truth w (conditions c) (or_groups c) = TTrue).
Proof.
  rewrite explicit_filters_restrict.
  destruct (group_is_empty (mkGroup (conditions c) (or_groups c) And)) eqn:E.
  - rewrite empty_not_restrictive by done. split; [|done].
    intros _ w _. by apply no_filters_hold.
  - rewrite (restrictive_spec _ _ E). by setoid_rewrite <- filters_truth_group.
Qed.

Lemma mutation_guard_Ok operation c :
  ensure_mutation_has_explicit_filters operation c = Ok tt ↔ has_explicit_mutation_filters c = true.
Proof. unfold ensure_mutation_has_explicit_filters. by destruct (has_explicit_mutation_filters c). Qed.
End GuardFacts.

(** ** The rendered clause *)

Lemma find_where body :
  find_str (lit " WHERE ") (lit "SELECT 1 WHERE " ++ body) = Some 8.
Proof. destruct body; reflexivity. Qed.

Lemma slice_where body :
  slice_from (8 + slen (lit " WHERE ")) (lit "SELECT 1 WHERE " ++ body) = Some body.
Proof. destruct body; reflexivity. Qed.

Section Rendered.
Context `{QT : QueryTypes} {MC : ModelContext} {SC : SeaCondition (Expr bound_value)}
  {BC : BulkContext} {TB : Table} `{JsonStrings}.

(** A rendered clause is empty exactly when its condition is. *)
Lemma rendered_where c :
  rendered (build_where_clause c).1 (build_sea_condition c)
  = if condition_is_empty (build_sea_condition c) then None else Some (build_sea_condition c).
Proof.
  unfold rendered, build_where_clause.
  destruct (condition_is_empty (build_sea_condition c)) eqn:E; [done|].
  destruct (render_select_text _ E) as (body & Hne & Hsql).
  destruct (render_select (build_sea_condition c)) as [sql values]. cbn in Hsql. subst sql.
  rewrite find_where. cbn [fst]. rewrite slice_where. cbn. by rewrite bool_decide_false.
Qed.

Lemma ensure_executable_renders c :
  ensure_query_is_executable c = Ok tt → Forall renders (all_conditions (conditions c) (or_groups c)).
Proof.
  unfold ensure_query_is_executable. intros (? & _ & Hc)%rbind_Ok.
  destruct (ensure_conditions_are_representable _ _) as [[]|] eqn:E; [|done].
  by eapply representable_renders.
Qed.

(** A clause reaches the rows of the scope that the filters match. *)
Lemma clause_reaches c r :
  Forall renders (all_conditions (conditions c) (or_groups c)) →
  reached (rendered (build_where_clause c).1 (build_sea_condition c)) r
  = in_scope (query_scope soft_delete_enabled (include_trashed c) (only_trashed c)) r && matches c r.
Proof.
  intros Hr. rewrite rendered_where. unfold reached, matches, build_sea_condition.
  destruct (add_filters_spec (row_truth r) _ _ Hr) as [He Ht]. rewrite <- Ht.
  set (d := add_filters _ _ _) in *.
  assert (condition_is_empty d = true → truth (row_truth r) d = TTrue) as Htrue.
  { intros Hd. rewrite Ht. apply no_filters_hold. by rewrite He in Hd. }
  assert (junction_of d = And) as Hj.
  { rewrite <- (start_junction And). eapply (grown_junction (row_truth r)).
    by apply add_filters_grown. }
  clearbody d. clear He Ht.
  unfold build_soft_delete_expression.
  destruct (query_scope _ _ _); cbn [in_scope];
    rewrite ?truth_add_expr, ?add_expr_is_empty, ?truth_add_expr, ?Hj, ?truth_is_null, ?truth_is_not_null;
    destruct (condition_is_empty d) eqn:E; rewrite ?Htrue by done;
    repeat case_bool_decide; destruct (is_deleted r), (truth (row_truth r) d); try done.
Qed.

(** The rows a scope of a query's filters reaches, from the query whose scope it is. *)
Lemma scoped_reaches scope c c' r :
  ensure_query_is_executable c = Ok tt →
  conditions c' = conditions c → or_groups c' = or_groups c →
  query_scope soft_delete_enabled (include_trashed c') (only_trashed c') = scope →
  reached (rendered (build_where_clause c').1 (build_sea_condition c')) r
  = in_scope scope r && matches c r.
Proof.
  intros Hr%ensure_executable_renders Hc Hg <-. unfold matches. rewrite <- Hc, <- Hg in *.
  by apply clause_reaches.
Qed.

Lemma build_delete_sql_Ok operation c s :
  build_delete_sql operation c = Ok s →
  ∃ sql params, s = SDelete sql params (rendered (build_where_clause c).1 (build_sea_condition c)).
Proof.
  unfold build_delete_sql. destruct (build_where_clause c) as [where_sql params].
  intros (? & _ & [= <-])%rbind_Ok. eauto.
Qed.

(** The statement of a bulk write: its condition, and the rows it reaches. *)
Lemma soft_delete_Ok now c s :
  soft_delete now c = Ok s →
  soft_delete_enabled = true ∧ only_trashed c = false ∧ has_explicit_mutation_filters c = true
  ∧ ∃ sql params d, s = SStamp sql params (Some now) d
      ∧ ∀ r, reached d r = negb (is_deleted r) && matches c r.
Proof.
  unfold soft_delete. intros ([] & He & (? & _ & Hs)%rbind_Ok)%rbind_Ok.
  destruct soft_delete_enabled eqn:Esd; [|done]. cbn [negb] in Hs.
  apply rbind_Ok in Hs as ([] & Hf & ([] & Ho & Hs)%rbind_Ok). apply mutation_guard_Ok in Hf.
  unfold ensure_not_only_trashed in Ho. destruct (only_trashed c); [done|].
  unfold build_soft_delete_sql in Hs.
  pose proof (λ r, scoped_reaches ActiveOnly c (live_rows_only c) r He eq_refl eq_refl
                     ltac:(by rewrite Esd)) as Hr.
  destruct (build_where_clause (live_rows_only c)) as [where_sql params].
  apply rbind_Ok in Hs as (? & _ & [= <-]). split_and!; [done..|]. by eexists _, _, _.
Qed.

Lemma restore_Ok c s :
  restore c = Ok s →
  soft_delete_enabled = true ∧ (only_trashed c || has_explicit_mutation_filters c = true)
  ∧ ∃ sql params d, s = SStamp sql params None d
      ∧ ∀ r, reached d r = is_deleted r && matches c r.
Proof.
  unfold restore. intros ([] & He & (? & _ & Hs)%rbind_Ok)%rbind_Ok.
  destruct soft_delete_enabled eqn:Esd; [|done]. cbn [negb] in Hs.
  apply rbind_Ok in Hs as ([] & Hf & Hs).
  set (c' := upd_include_trashed _ _) in Hs.
  pose proof (λ r, scoped_reaches OnlyTrashed_ c c' r He eq_refl eq_refl
                     ltac:(by rewrite Esd)) as Hr.
  destruct (build_where_clause c') as [where_sql params].
  apply rbind_Ok in Hs as (? & _ & [= <-]). split_and!; [done| |by eexists _, _, _].
  unfold ensure_trash_mutation_has_filters in Hf. destruct (only_trashed c); [done|].
  by apply mutation_guard_Ok in Hf.
Qed.

Lemma force_delete_Ok c s :
  force_delete c = Ok s →
  (only_trashed c || has_explicit_mutation_filters c = true)
  ∧ ∃ sql params d, s = SDelete sql params d
      ∧ ∀ r, reached d r = (if only_trashed c then is_deleted r else true) && matches c r.
Proof.
  unfold force_delete. intros ([] & He & (? & _ & ([] & Hf & Hs)%rbind_Ok)%rbind_Ok)%rbind_Ok.
  unfold ensure_trash_mutation_has_filters in Hf.
  set (scope := if only_trashed c then OnlyTrashed_
                else if soft_delete_enabled then WithTrashed_ else Disabled).
  set (c' := if negb (only_trashed c) then _ else c) in Hs.
  assert (query_scope soft_delete_enabled (include_trashed c') (only_trashed c') = scope) as Hsc.
  { subst c' scope. destruct (only_trashed c) eqn:Eo; cbn [negb];
      [rewrite Eo; by destruct soft_delete_enabled|cbn; rewrite Eo; by destruct soft_delete_enabled]. }
  assert (conditions c' = conditions c) as Hc by (subst c'; by destruct (negb (only_trashed c))).
  assert (or_groups c' = or_groups c) as Hg by (subst c'; by destruct (negb (only_trashed c))).
  pose proof (λ r, scoped_reaches scope c c' r He Hc Hg Hsc) as Hr.
  apply build_delete_sql_Ok in Hs as (sql & params & ->).
  split; [destruct (only_trashed c); [done|by apply mutation_guard_Ok in Hf]|].
  eexists _, _, _. split; [done|]. intros r. rewrite Hr. subst scope.
  by destruct (only_trashed c), soft_delete_enabled.
Qed.

Lemma delete_rows_Ok now c s :
  delete_rows now c = Ok s →
  has_explicit_mutation_filters c = true
  ∧ if soft_delete_enabled then soft_delete now c = Ok s
    else ∃ sql params d, s = SDelete sql params d ∧ ∀ r, reached d r = matches c r.
Proof.
  unfold delete_rows. destruct soft_delete_enabled eqn:Esd.
  - intros (? & _ & Hs)%rbind_Ok. by destruct (soft_delete_Ok _ _ _ Hs) as (_ & _ & ? & _).
  - intros ([] & He & (? & _ & ([] & Hf & Hs)%rbind_Ok)%rbind_Ok)%rbind_Ok.
    apply mutation_guard_Ok in Hf. split; [done|].
    apply build_delete_sql_Ok in Hs as (sql & params & ->). eexists _, _, _. split; [done|].
    intros r. apply (scoped_reaches Disabled c c r He); [done..|]. by rewrite Esd.
Qed.

Lemma delete_all_Ok now c s :
  delete_all now c = Ok s →
  has_explicit_mutation_filters c = false
  ∧ ∃ sql params d,
      s = (if soft_delete_enabled then SStamp sql params (Some now) d else SDelete sql params d)
      ∧ ∀ r, reached d r = (if soft_delete_enabled then negb (is_deleted r) else true) && matches c r.
Proof.
  unfold delete_all. intros ([] & He & (? & _ & ([] & Hf & Hs)%rbind_Ok)%rbind_Ok)%rbind_Ok.
  unfold ensure_mutation_has_no_explicit_filters in Hf.
  destruct (has_explicit_mutation_filters c); [done|]. split; [done|].
  destruct soft_delete_enabled eqn:Esd.
  - apply rbind_Ok in Hs as (? & _ & Hs).
    pose proof (λ r, scoped_reaches ActiveOnly c (live_rows_only c) r He eq_refl eq_refl
                       ltac:(by rewrite Esd)) as Hr.
    destruct (build_where_clause (live_rows_only c)) as [where_sql params].
    injection Hs as <-. by eexists _, _, _.
  - pose proof (λ r, scoped_reaches Disabled c c r He eq_refl eq_refl
                       ltac:(by rewrite Esd)) as Hr.
    destruct (build_where_clause c) as [where_sql params]. injection Hs as <-. by eexists _, _, _.
Qed.
End Rendered.

(** ** What bulk writes do *)

Section BulkWriteTheorems.
Context `{QT : QueryTypes} {MC : ModelContext} {SC : SeaCondition (Expr bound_value)}
  {BC : BulkContext} {TB : Table} `{JsonStrings}.

Definition stamp_where (stamp : option str) (f : Row → bool) (rows : list Row) : list Row :=
  map (λ r, if f r then stamped stamp r else r) rows.

Definition remove_where (f : Row → bool) (rows : list Row) : list Row :=
  List.filter (λ r, negb (f r)) rows.

(** No reading of the conditions that are not vacuous excludes a row. *)
Definition unfiltered (c : Clauses) : Prop :=
  ∀ w, (∀ d, is_vacuous c d = true → w d = TTrue) →
       filters_truth w (conditions c) (or_groups c) = TTrue.

Lemma stamp_reached sql params stamp d f rows :
  (∀ r, reached d r = f r) → exec (SStamp sql params stamp d) rows = stamp_where stamp f rows.
Proof. intros Hf. cbn. unfold stamp_where. apply map_ext. intros r. by rewrite Hf. Qed.

Lemma remove_reached sql params d f rows :
  (∀ r, reached d r = f r) → exec (SDelete sql params d) rows = remove_where f rows.
Proof. intros Hf. cbn. unfold remove_where. apply filter_ext. intros r. by rewrite Hf. Qed.

(** C7: a bulk write that is sent changes exactly its rows. On a model with soft
    deletes, [delete] and [soft_delete] stamp the live rows that the query's filters
    match and remove none; [restore] clears the stamp of the trashed rows they match;
    without soft deletes [delete] removes the rows they match. [force_delete] removes
    the rows they match, live and trashed, and under [only_trashed] trashed ones only.
    [delete_all] with no filter leaves no live row, or no row at all. *)
Theorem bulk_writes_change_exactly_their_rows (now : str) (c : Clauses) (s : Statement)
    (rows : list Row) :
  (soft_delete now c = Ok s →
   exec s rows = stamp_where (Some now) (λ r, negb (is_deleted r) && matches c r) rows)
  ∧ (delete_rows now c = Ok s →
     exec s rows
     = if soft_delete_enabled
       then stamp_where (Some now) (λ r, negb (is_deleted r) && matches c r) rows
       else remove_where (matches c) rows)
  ∧ (restore c = Ok s →
     exec s rows = stamp_where None (λ r, is_deleted r && matches c r) rows)
  ∧ (force_delete c = Ok s →
     exec s rows
     = remove_where (λ r, (if only_trashed c then is_deleted r else true) && matches c r) rows)
  ∧ (delete_all now c = Ok s → conditions c = [] → or_groups c = [] →
     if soft_delete_enabled then Forall (λ r, is_deleted r = true) (exec s rows)
     else exec s rows = []).
Proof.
  split_and!.
  - intros (_ & _ & _ & sql & params & d & -> & Hd)%soft_delete_Ok. by apply stamp_reached.
  - intros [_ Hs]%delete_rows_Ok. destruct soft_delete_enabled.
    + destruct (soft_delete_Ok _ _ _ Hs) as (_ & _ & _ & sql & params & d & -> & Hd).
      by apply stamp_reached.
    + destruct Hs as (sql & params & d & -> & Hd). by apply remove_reached.
  - intros (_ & _ & sql & params & d & -> & Hd)%restore_Ok. by apply stamp_reached.
  - intros (_ & sql & params & d & -> & Hd)%force_delete_Ok. by apply remove_reached.
  - intros (_ & sql & params & d & -> & Hd)%delete_all_Ok Hc Hg.
    assert (∀ r, matches c r = true) as Hm.
    { intros r. unfold matches. rewrite Hc, Hg. by apply bool_decide_true. }
    destruct soft_delete_enabled.
    + rewrite (stamp_reached _ _ _ _ _ _ Hd). apply List.Forall_map, list.Forall_forall. intros r _.
      cbn. rewrite Hm, andb_true_r. destruct (is_deleted r) eqn:E; [done|].
      cbn [negb]. by rewrite stamped_is_deleted.
    + rewrite (remove_reached _ _ _ _ _ Hd). clear -Hm.
      induction rows as [|r rows IH]; [done|]. cbn. by rewrite Hm.
Qed.

End BulkWriteTheorems.

(** ** A concrete table *)

Definition demo_model (soft : bool) : @ModelContext Fragments.demo_types := {|
  query_db := SQLite;
  model_identifier := λ column, lit "items." ++ column;
  type_of_column := λ _ _, None;
  json_to_column_value := λ _ _, lit "plain" : @bound_value Fragments.demo_types;
  numeric_having_value := λ _, None;
  soft_delete_enabled := soft;
|}.

Definition demo_bulk :
  @BulkContext Fragments.demo_types (sea_trees (Expr str)) := {|
  table_name := lit "items";
  quoted_table := lit "items";
  deleted_at_column := lit "deleted_at";
  is_json_type := λ _, false;
  validate_query_fragments := λ _, Ok tt;
  render_select := λ _, (lit "SELECT 1 WHERE c", [] : list (@bound_value Fragments.demo_types));
|}.

(** A row: whether it is deleted, and its name. *)
Definition demo_row_truth (r : bool * option str) (e : Expr (@bound_value Fragments.demo_types)) : Truth :=
  let definite (b : bool) := if b then TTrue else TFalse in
  let is_null column :=
    if bool_decide (column = lit "deleted_at") then negb r.1
    else bool_decide (r.2 = None) in
  match e with
  | EIsNull column => definite (is_null column)
  | EIsNotNull column => definite (negb (is_null column))
  | ECondition column (SNullCheck negated) =>
      definite (if negated then negb (is_null column) else is_null column)
  | ECondition column (SCompare CEq (JString v)) =>
      match r.2 with Some name => definite (str_eqb name v) | None => TUnknown end
  | _ => TUnknown
  end.

Definition demo_table :
  @Table Fragments.demo_types (sea_trees (Expr str)) demo_bulk.
Proof.
  refine (@Build_Table _ _ demo_bulk (bool * option str) demo_row_truth fst
            (λ stamp r, (bool_decide (is_Some stamp), r.2)) _ _ _ _).
  - by intros [[] ?].
  - by intros [[] ?].
  - done.
  - intros d _. by exists (lit "c").
Defined.

Definition demo_query (cs : list (WhereCondition (@bound_value Fragments.demo_types))) (only : bool)
  : @Clauses Fragments.demo_types :=
  upd_only_trashed (put only) (upd_conditions (put cs) Clauses_default).

Definition demo_named (name : str) : WhereCondition (@bound_value Fragments.demo_types) :=
  mkCondition (lit "name") Eq (VSingle (JString name)).

Definition demo_rows : list (bool * option str) :=
  [(false, Some (lit "a")); (true, Some (lit "a")); (false, Some (lit "b")); (false, None)].

(** [delete] with [name = 'a'] on a soft-delete model and without soft deletes,
    [restore], [force_delete] of the trash, and [delete_all]. *)
Lemma bulk_writes_change_exactly_their_rows_witness :
  let J := simple_json_strings in
  let sent {A E} (r : result A E) : option A := match r with Ok a => Some a | Err _ => None end in
  let named := demo_query [demo_named (lit "a")] false in
  let trash := demo_query [demo_named (lit "a")] true in
  (∃ s, @delete_rows _ (demo_model true) _ demo_bulk J (lit "now") named = Ok s
        ∧ @exec _ _ _ demo_table s demo_rows
          = [(true, Some (lit "a")); (true, Some (lit "a")); (false, Some (lit "b")); (false, None)])
  ∧ (∃ s, @delete_rows _ (demo_model false) _ demo_bulk J (lit "now") named = Ok s
          ∧ @exec _ _ _ demo_table s demo_rows
            = [(false, Some (lit "b")); (false, None)])
  ∧ (∃ s, @restore _ (demo_model true) _ demo_bulk J named = Ok s
          ∧ @exec _ _ _ demo_table s demo_rows
            = [(false, Some (lit "a")); (false, Some (lit "a")); (false, Some (lit "b")); (false, None)])
  ∧ (∃ s, @force_delete _ (demo_model true) _ demo_bulk J trash = Ok s
          ∧ @exec _ _ _ demo_table s demo_rows
            = [(false, Some (lit "a")); (false, Some (lit "b")); (false, None)])
  ∧ (∃ s, @delete_all _ (demo_model true) _ demo_bulk J (lit "now") (demo_query [] false) = Ok s
          ∧ Forall (λ r, fst r = true) (@exec _ _ _ demo_table s demo_rows)).
Proof.
  intros J sent named trash. split_and!.
  - eexists. split; [vm_compute; reflexivity|].
    rewrite (proj1 (proj2 (@bulk_writes_change_exactly_their_rows _ (demo_model true) _ _
      demo_table J
      (lit "now") named _ demo_rows)) ltac:(vm_compute; reflexivity)).
    vm_compute. reflexivity.
  - eexists. split; [vm_compute; reflexivity|].
    rewrite (proj1 (proj2 (@bulk_writes_change_exactly_their_rows _ (demo_model false) _ _
      demo_table J
      (lit "now") named _ demo_rows)) ltac:(vm_compute; reflexivity)).
    vm_compute. reflexivity.
  - eexists. split; [vm_compute; reflexivity|].
    rewrite (proj1 (proj2 (proj2 (@bulk_writes_change_exactly_their_rows _ (demo_model true) _ _
      demo_table J
      (lit "now") named _ demo_rows))) ltac:(vm_compute; reflexivity)).
    vm_compute. reflexivity.
  - eexists. split; [vm_compute; reflexivity|].
    rewrite (proj1 (proj2 (proj2 (proj2 (@bulk_writes_change_exactly_their_rows _ (demo_model true) _ _
      demo_table J (lit "now") trash _ demo_rows)))) ltac:(vm_compute; reflexivity)).
    vm_compute. reflexivity.
  - eexists. split; [vm_compute; reflexivity|].
    exact (proj2 (proj2 (proj2 (proj2 (@bulk_writes_change_exactly_their_rows _ (demo_model true) _ _
      demo_table J (lit "now") (demo_query [] false) _ demo_rows))))
      ltac:(vm_compute; reflexivity) eq_refl eq_refl).
Defined.

(** [delete_all] with [name IS NOT NULL], which counts as no filter. *)
Definition named_rows : @Clauses Fragments.demo_types :=
  demo_query [mkCondition (lit "name") NotEq VNone] false.


(** [delete_all] takes a filter that the guard counts as vacuous, and its statement
    keeps the rows which that filter excludes: [name IS NOT NULL] leaves the row
    without a name. *)
Example delete_all_keeps_rows :
  ∃ s, @delete_all _ (demo_model false) _ demo_bulk simple_json_strings (lit "now") named_rows
       = Ok s
       ∧ @exec _ _ _ demo_table s demo_rows = [(false, None)].
Proof. eexists. split; vm_compute; reflexivity. Qed.
