(* ===== verification/Chunking.v ===== *)
(** * Reading in batches and pages (src/src/query/sql/execution.rs, execution/shaped_reads.rs)

    [chunk] walks a query's rows by a cursor on the primary key, so that a callback may
    change the rows it was handed; a join may repeat a key, and the rows of one key are
    kept in one batch. [paginate] reads one page and the total. The model and
    [QueryBuilder::get] with the database behind it are the class [Reads]. *)

From stdpp Require Import sorting.
From S2P Require Import Prelude Dialect SqlLexer JsonPath Filters QueryStructure Clauses BulkWrites.
Local Open Scope tide_scope.

(** What the reads use of the model: its table and key names, the columns it knows and
    what its projection keeps; the key of a row as JSON; and the rows a query returns
    from the database in a state, or the error. *)
Class Reads `{QueryTypes} := {
  row : Type;
  key : Type;
  key_eq_dec :: EqDecision key;
  db_state : Type;
  schema_name : option str;
  model_table : str;
  primary_key_names : list str;
  canonical_column_name : str → option str;
  key_is_original : Clauses → str → bool;
  key_json : key → Json;
  key_text : key → str;
  key_of : row → result key str;
  get_rows : Clauses → db_state → result (list row) str;
}.

Section chunk.
Context `{QT : QueryTypes} `{!ModelContext} `{SC : SeaCondition (Expr bound_value)} `{!BulkContext}
  `{JsonStrings} `{!Reads}.

(** [str::split_once] of a character: around the first match. *)
Definition split_once (c : char) (s : str) : option (str * str) :=
  match drop_while (λ x, negb (x =? c)%N) s with
  | [] => None
  | _ :: after => Some (take_while (λ x, negb (x =? c)%N) s, after)
  end.

Definition owns_table_reference (reference : str) : bool :=
  match split_once 46 reference with
  | Some (schema, table) => bool_decide (Some schema = schema_name) && str_eqb table model_table
  | None => str_eqb reference model_table
  end.

Definition own_column_name (name : str) : option str :=
  match rsplit_once (N.eqb 46) (trim name) with
  | Some (table, column) => if owns_table_reference table then canonical_column_name column else None
  | None => canonical_column_name (trim name)
  end.

Definition chunk_primary_key_column : result str str :=
  match primary_key_names with
  | [primary_key] => Ok primary_key
  | names =>
      Err (lit "chunk() only supports models with a single-column primary key; model '" ++ model_table
           ++ lit "' uses " ++ show_N (N.of_nat (length names)) ++ lit " key columns")
  end.

Definition chunk_order (c : Clauses) (primary_key : str) : result Order str :=
  let refused :=
    Err (lit "chunk() only supports explicit ordering by the single primary key '" ++ primary_key
         ++ lit "' for model '" ++ model_table ++ lit "'") in
  match order_by c with
  | [] => Ok Asc
  | [(column, direction)] =>
      if bool_decide (own_column_name column = Some primary_key) then Ok direction else refused
  | _ => refused
  end.

Definition ensure_query_is_chunkable (c : Clauses) (chunk_size : N) : result unit str :=
  if (chunk_size =? 0)%N then Err (lit "chunk() requires chunk_size to be greater than 0")
  else if negb (nilb (window_functions c)) then
    Err (lit "chunk() does not support window functions: its cursor changes the window input; use get() or page()")
  else if negb (nilb (group_by c)) || negb (nilb (having_conditions c)) then
    Err (lit "chunk() does not support GROUP BY or HAVING: its primary-key cursor changes group membership; read grouped results with get() or page()")
  else if (0 <? default 0 (offset_value c))%N then
    Err (lit "chunk() does not support offset(); use page()/get() for fixed windows or chunk over primary-key order")
  else if negb (nilb (unions c)) then
    Err (lit "chunk() pages by the model's primary key, which the other branches of a union() do not follow; read a union with get(), or page() it")
  else Ok tt.

Definition ensure_chunk_key_is_original (c : Clauses) (primary_key : str) : result unit str :=
  if key_is_original c primary_key then Ok tt
  else Err (lit "chunk() requires the original primary key '" ++ model_table ++ lit "." ++ primary_key
            ++ lit "' in its projection; use get() for a projection that replaces it").

(** The condition the cursor adds: [where_gt], [where_gte], [where_lt] or [where_lte]. *)
Definition cursor_operator (order : Order) (inclusive : bool) : Operator :=
  match order, inclusive with
  | Asc, false => Gt
  | Asc, true => Gte
  | Desc, false => Lt_
  | Desc, true => Lte
  end.

Definition key_condition (cursor_column : str) (op : Operator) (k : key) : WhereCondition bound_value :=
  mkCondition cursor_column op (VSingle (key_json k)).

Definition batch_query (base : Clauses) (cursor_column : str) (order : Order) (batch_limit : N)
    (cursor : option (key * bool)) : Clauses :=
  let limited := q_limit batch_limit base in
  match cursor with
  | None => limited
  | Some (k, inclusive) => q_where (key_condition cursor_column (cursor_operator order inclusive) k) limited
  end.

(** The rows at the end of a batch, given from the last, that share its last key. *)
Fixpoint tail_length (last_key : key) (reversed : list row) : result nat str :=
  match reversed with
  | [] => Ok 0
  | model :: rest =>
      k <-? key_of model;;
      if bool_decide (k = last_key) then n <-? tail_length last_key rest;; Ok (S n) else Ok 0
  end.

(** What one round of the loop comes to: its end, or a batch for the callback with the
    cursor behind it. *)
Inductive Round :=
  | Finished
  | Failed (message : str)
  | Hand (batch : list row) (last_key : key) (starts_at_last_key : bool) (fetched batch_limit : N).

(** [u64::saturating_add]. *)
Definition saturating_add (a b : N) : N := N.min (a + b) u64_max.

Definition chunk_round (base : Clauses) (cursor_column : str) (order : Order) (chunk_size : N)
    (remaining : option N) (cursor : option (key * bool)) (s : db_state) : Round :=
  let batch_limit := match remaining with None => chunk_size | Some limit => N.min limit chunk_size end in
  if (batch_limit =? 0)%N then Finished else
  match get_rows (batch_query base cursor_column order batch_limit cursor) s with
  | Err e => Failed e
  | Ok batch =>
      match list.last batch with
      | None => Finished
      | Some last_ =>
          match key_of last_ with
          | Err e => Failed e
          | Ok last_key =>
              let fetched := N.of_nat (length batch) in
              let more_may_follow := match remaining with None => true | Some limit => (batch_limit <? limit)%N end in
              if negb (nilb (joins base)) && (fetched =? batch_limit)%N && more_may_follow then
                match tail_length last_key (rev batch) with
                | Err e => Failed e
                | Ok tail =>
                    if (tail =? length batch)%nat then
                      match get_rows (q_limit (saturating_add chunk_size 1)
                                        (q_where (key_condition cursor_column Eq last_key) base)) s with
                      | Err e => Failed e
                      | Ok run =>
                          if (chunk_size <? N.of_nat (length run))%N then
                            Failed (lit "chunk(" ++ show_N chunk_size ++ lit ") found more rows with the key "
                                    ++ key_text last_key
                                    ++ lit " than a batch holds: the join repeats it, so pass a larger chunk size")
                          else Hand run last_key false fetched batch_limit
                      end
                    else Hand (take (length batch - tail) batch) last_key true fetched batch_limit
                end
              else Hand batch last_key false fetched batch_limit
          end
      end
  end.

Context (callback : list row → db_state → result unit str * db_state).

(** The loop, with the batches handed to the callback. [None] is fuel running out: the
    rows that are left, and one, are enough. *)
Fixpoint chunk_loop (fuel : nat) (base : Clauses) (cursor_column : str) (order : Order) (chunk_size : N)
    (remaining : option N) (cursor : option (key * bool)) (s : db_state)
    : option (result unit str * db_state * list (list row)) :=
  match fuel with
  | 0 => None
  | S fuel' =>
      match chunk_round base cursor_column order chunk_size remaining cursor s with
      | Finished => Some (Ok tt, s, [])
      | Failed e => Some (Err e, s, [])
      | Hand batch last_key starts_at_last_key fetched batch_limit =>
          match callback batch s with
          | (Err e, s') => Some (Err e, s', [batch])
          | (Ok _, s') =>
              let remaining := (λ limit, limit - N.of_nat (length batch))%N <$> remaining in
              if bool_decide (remaining = Some 0%N) || (fetched <? batch_limit)%N then Some (Ok tt, s', [batch])
              else
                '(res, s'', handed) ← chunk_loop fuel' base cursor_column order chunk_size remaining
                                        (Some (last_key, starts_at_last_key)) s';
                Some (res, s'', batch :: handed)
          end
      end
  end.

(** The query the loop pages, the column it compares and the direction. *)
Definition chunk_plan (c : Clauses) (chunk_size : N) : result (Clauses * str * Order) QueryError :=
  let query {A} (r : result A str) : result A QueryError := match r with Ok x => Ok x | Err m => Err (EQuery m) end in
  ensure_query_is_executable c;;?
  query (ensure_query_is_chunkable c chunk_size);;?
  primary_key <-? query chunk_primary_key_column;;
  query (ensure_chunk_key_is_original c primary_key);;?
  order <-? query (chunk_order c primary_key);;
  let cursor_column := model_table ++ lit "." ++ primary_key in
  let base := upd_offset_value (put None) (upd_limit_value (put None) c) in
  let base := if nilb (order_by base) then q_order_by cursor_column order base else base in
  Ok (base, cursor_column, order).

Definition chunk (fuel : nat) (c : Clauses) (chunk_size : N) (s : db_state)
    : option (result unit QueryError * db_state * list (list row)) :=
  match chunk_plan c chunk_size with
  | Err e => Some (Err e, s, [])
  | Ok (base, cursor_column, order) =>
      '(res, s', handed) ← chunk_loop fuel base cursor_column order chunk_size (limit_value c) None s;
      Some (match res with Ok _ => Ok tt | Err m => Err (EQuery m) end, s', handed)
  end.

End chunk.

(** ** One row, one page and counts *)

Section pages.
Context `{QT : QueryTypes} `{!ModelContext} `{SC : SeaCondition (Expr bound_value)} `{!BulkContext}
  `{JsonStrings} `{!Reads}.

(** [Value]'s [Display]. *)
Context (json_text : Json → str).

Definition first (c : Clauses) (s : db_state) : result (option row) str :=
  results <-? get_rows (q_limit 1 c) s;; Ok (head results).

Definition first_or_fail (c : Clauses) (s : db_state) : result row str :=
  found <-? first c s;;
  match found with
  | Some model => Ok model
  | None => Err (lit "No " ++ model_table ++ lit " found matching query")
  end.

Definition ensure_key_lookup_is_unpaged (c : Clauses) : result unit str :=
  match limit_value c, offset_value c with
  | None, None => Ok tt
  | _, _ => Err (lit "find() looks a " ++ model_table
                 ++ lit " row up by its key, so it takes no limit() or offset(); filter the query instead")
  end.

(** [primary_key] is what serde makes of the key, or its error. *)
Definition where_primary_key (primary_key : result Json str) (c : Clauses) : result Clauses str :=
  if negb (nilb (unions c)) then
    Err (lit "a primary-key lookup on a union of " ++ model_table
         ++ lit " would filter its first query only; filter each query of the union instead")
  else
    json <-? match primary_key with
             | Ok json => Ok json
             | Err e => Err (lit "Failed to serialize primary key: " ++ e)
             end;;
    let values := match json with
                  | JArray values => if (length primary_key_names =? 1)%nat then [json] else values
                  | _ => [json]
                  end in
    if negb (length values =? length primary_key_names)%nat then
      Err (lit "Primary key value for " ++ model_table ++ lit " did not match declared key columns")
    else Ok (foldl (λ c '(column, value), q_where (mkCondition column Eq (VSingle value)) c) c
               (zip primary_key_names values)).

Definition find (id : result Json str) (c : Clauses) (s : db_state) : result (option row) str :=
  ensure_key_lookup_is_unpaged c;;?
  keyed <-? where_primary_key id c;;
  first keyed s.

Definition count_to_u64 (count : Z) (context : str) : result N str :=
  if (count <? 0)%Z then
    Err (lit "Database returned a negative count (" ++ json_text (JNumber (NegInt count)) ++ lit ") for " ++ context)
  else Ok (Z.to_N count).

Definition decode_count_value (value : option Json) (column : str) : result N str :=
  match value with
  | None => Err (lit "Database returned no '" ++ column ++ lit "' column for the query count")
  | Some (JNumber (PosInt count)) => Ok count
  | Some (JNumber (NegInt count)) => count_to_u64 count column
  | Some value =>
      Err (lit "Unable to decode the '" ++ column ++ lit "' count as an integer (got " ++ json_text value ++ lit ")")
  end.

Definition decode_exists_flag (value : Json) : result bool str :=
  match value with
  | JBool exists_ => Ok exists_
  | JNumber (PosInt exists_) => Ok (negb (exists_ =? 0)%N)
  | JNumber (NegInt exists_) => Ok (negb (exists_ =? 0)%Z)
  | _ => Err (lit "Unable to decode the database EXISTS result as a boolean or integer (got " ++ json_text value ++ lit ")")
  end.

Record Paginated := { items : list row; total : N; page : N; per_page : N }.

Definition last_page (p : Paginated) : N :=
  if (per_page p =? 0)%N then 1%N else N.max ((total p + (per_page p - 1)) / per_page p) 1.

Definition has_next_page (p : Paginated) : bool := (page p <? last_page p)%N.

(** [count] is the query's count, read before the rows. *)
Definition paginate (count : Clauses → db_state → result N str) (page_ per_page_ : N) (c : Clauses) (s : db_state)
    : result Paginated QueryError :=
  let query {A} (r : result A str) : result A QueryError := match r with Ok x => Ok x | Err m => Err (EQuery m) end in
  let rows := q_page page_ per_page_ c in
  ensure_query_is_executable rows;;?
  total_ <-? query (count c s);;
  items_ <-? query (get_rows rows s);;
  Ok {| items := items_; total := total_; page := page_; per_page := per_page_ |}.

End pages.

(** ** What the batches hold *)

Section spec.
Context `{QT : QueryTypes} `{!ModelContext} `{SC : SeaCondition (Expr bound_value)} `{!BulkContext}
  `{JS : JsonPath.JsonStrings} `{!Reads}.
Context (callback : list row → db_state → result unit str * db_state).
Context (base : Clauses) (cursor_column : str) (order : Order) (chunk_size : N).
(** The order the database gives the keys, in the direction of the query; the rows of the
    query in a state, and their keys. *)
Context (before : relation key) `{!RelDecision before}.
Context (rows : db_state → list row) (the_key : row → key).

(** In the order of the query: rows sharing a key come in any order. *)
Definition in_order : list row → Prop := StronglySorted (λ a b, ¬ before (the_key b) (the_key a)).

(** The rows behind the cursor. *)
Definition beyond (cursor : option (key * bool)) (r : row) : Prop :=
  match cursor with
  | None => True
  | Some (k, inclusive) => before k (the_key r) ∨ inclusive = true ∧ k = the_key r
  end.

#[export] Instance beyond_dec cursor r : Decision (beyond cursor r).
Proof. destruct cursor as [[k i]|]; cbn; apply _. Defined.

(** [q] returns the first [n] of the rows it selects, whatever the database makes of rows
    that share a key. *)
Definition answers (selects : row → Prop) `{!∀ r, Decision (selects r)} (n : N) (q : Clauses) (s : db_state) : Prop :=
  ∀ got, get_rows q s = Ok got → ∃ l, l ≡ₚ filter selects (rows s) ∧ in_order l ∧ got = take (N.to_nat n) l.

(** What [chunk] relies on: keys are ordered and read back from the rows; the database
    answers the queries of the loop; without a join a key is a row's own; and the callback
    does as [chunk] asks, and leaves the rows behind its batch alone. *)
Record Pageable : Prop := {
  before_irrefl : ∀ k, ¬ before k k;
  before_trans : Transitive before;
  before_total : ∀ a b, before a b ∨ a = b ∨ before b a;
  keys_read : ∀ s r, r ∈ rows s → key_of r = Ok (the_key r);
  pages_answer : ∀ cursor s n, answers (beyond cursor) n (batch_query base cursor_column order n cursor) s;
  runs_answer : ∀ k s n,
    answers (λ r, the_key r = k) n (q_limit n (q_where (key_condition cursor_column Eq k) base)) s;
  keys_unique : joins base = [] → ∀ s, NoDup (the_key <$> rows s);
  rest_left_alone : ∀ batch s s' top, callback batch s = (Ok tt, s') → (∃ r, r ∈ batch ∧ the_key r = top) →
    (∀ r, r ∈ batch → ¬ before top (the_key r)) →
    filter (λ r, before top (the_key r)) (rows s') ≡ₚ filter (λ r, before top (the_key r)) (rows s);
}.

Context (HP : Pageable).

Lemma not_before_trans a b c : ¬ before b a → ¬ before c b → ¬ before c a.
Proof.
  intros Hab Hbc Hca. destruct (before_total HP a b) as [?|[->|?]]; [|done|done].
  apply Hbc. by eapply (before_trans HP).
Qed.

Lemma before_not_before a b c : before a b → ¬ before c b → before a c.
Proof.
  intros Hab Hcb. destruct (before_total HP b c) as [?|[->|?]]; [by eapply (before_trans HP)|done|done].
Qed.

Lemma not_before_before a b c : ¬ before b a → before b c → before a c.
Proof.
  intros Hba Hbc. destruct (before_total HP a b) as [?|[->|?]]; [by eapply (before_trans HP)|done|done].
Qed.

(** Rows in order have their keys in one order. *)
Lemma in_order_keys l l' : l ≡ₚ l' → in_order l → in_order l' → the_key <$> l = the_key <$> l'.
Proof.
  intros Hp Hl Hl'. eapply (StronglySorted_unique_strong (λ a b, ¬ before b a)).
  - intros a b _ _ Hab Hba. by destruct (before_total HP a b) as [?|[?|?]].
  - by eapply StronglySorted_fmap, Hl.
  - by eapply StronglySorted_fmap, Hl'.
  - by rewrite Hp.
Qed.

Lemma in_order_app l l' : in_order (l ++ l') →
  in_order l ∧ in_order l' ∧ ∀ a b, a ∈ l → b ∈ l' → ¬ before (the_key b) (the_key a).
Proof.
  intros Hs. by apply StronglySorted_app in Hs as (? & ? & ?).
Qed.


Lemma filter_all_rows (P : row → Prop) `{!∀ r, Decision (P r)} l : Forall P l → filter P l = l.
Proof. induction 1 as [|r l Hr _ IH]; [done|]. by rewrite filter_cons_True, IH. Qed.

Lemma filter_no_rows (P : row → Prop) `{!∀ r, Decision (P r)} l : Forall (λ r, ¬ P r) l → filter P l = [].
Proof. induction 1 as [|r l Hr _ IH]; [done|]. by rewrite filter_cons_False, IH. Qed.

(** Where the rows left are cut behind [top], those behind [top] are the rest. *)
Lemma rest_behind cursor s front rest top :
  front ++ rest ≡ₚ filter (beyond cursor) (rows s) →
  (∃ r, r ∈ front ∧ the_key r = top) → (∀ r, r ∈ front → ¬ before top (the_key r)) →
  (∀ r, r ∈ rest → before top (the_key r)) →
  filter (λ r, before top (the_key r)) (rows s) ≡ₚ rest.
Proof.
  intros Hp (r0 & Hr0 & <-) Hf Hr.
  assert (beyond cursor r0) as Hb.
  { assert (r0 ∈ filter (beyond cursor) (rows s)) as Hin by (rewrite <- Hp; apply elem_of_app; by left).
    by apply list_elem_of_filter in Hin as [? _]. }
  rewrite <- (list_filter_filter_l (λ r, before (the_key r0) (the_key r)) (beyond cursor)).
  - rewrite <- Hp. rewrite list.filter_app. rewrite filter_no_rows, filter_all_rows; [done|by apply list.Forall_forall|by apply list.Forall_forall].
  - intros r Hbr. destruct cursor as [[k i]|]; [|done]. cbn in *. left.
    destruct Hb as [Hb|[_ ->]]; [|done]. by eapply (before_trans HP).
Qed.

(** What a round hands over: the front of the rows left, up to the rows that share a
    key; and the rows behind it are those the next round is asked for. *)
Record Handed (remaining : option N) (cursor : option (key * bool)) (s : db_state)
    (batch : list row) (k : key) (inclusive : bool) (fetched batch_limit : N) (l front rest : list row) : Prop := {
  handed_rows : l = front ++ rest;
  handed_batch : batch ≡ₚ front;
  handed_keys : the_key <$> batch = the_key <$> front;
  handed_some : batch ≠ [];
  handed_size : (N.of_nat (length batch) ≤ chunk_size)%N;
  handed_limit : ∀ limit, remaining = Some limit → (N.of_nat (length batch) ≤ limit)%N;
  handed_last : (fetched < batch_limit)%N → rest = [];
  handed_next : (batch_limit ≤ fetched)%N → remaining = Some (N.of_nat (length batch)) ∨
    ∃ top, (∃ r, r ∈ batch ∧ the_key r = top) ∧ (∀ r, r ∈ batch → ¬ before top (the_key r))
      ∧ (∀ r, r ∈ rest → before top (the_key r) ∧ beyond (Some (k, inclusive)) r)
      ∧ (∀ r, beyond (Some (k, inclusive)) r → before top (the_key r));
}.

Definition page_limit (remaining : option N) : N :=
  match remaining with None => chunk_size | Some limit => N.min limit chunk_size end.

Lemma last_key_top (l : list row) r : in_order l → list.last l = Some r →
  r ∈ l ∧ ∀ x, x ∈ l → ¬ before (the_key r) (the_key x).
Proof.
  intros Hs Hl. destruct l as [|y l _] using rev_ind; [done|]. rewrite last_snoc in Hl. injection Hl as ->.
  split; [apply elem_of_app; right; by apply list_elem_of_singleton|].
  intros x Hx. apply in_order_app in Hs as (_ & _ & Hs).
  apply elem_of_app in Hx as [Hx|Hx]; [by apply Hs; [|apply list_elem_of_singleton]|].
  apply list_elem_of_singleton in Hx as ->. apply (before_irrefl HP).
Qed.

(** A batch handed as it was fetched. *)
Lemma handed_whole remaining cursor s (l : list row) n r :
  l ≡ₚ filter (beyond cursor) (rows s) → in_order l → n = page_limit remaining →
  list.last (take (N.to_nat n) l) = Some r →
  (joins base = [] ∨ (N.of_nat (length (take (N.to_nat n) l)) ≠ n ∨ ∃ limit, remaining = Some limit ∧ (limit ≤ n)%N)) →
  Handed remaining cursor s (take (N.to_nat n) l) (the_key r) false (N.of_nat (length (take (N.to_nat n) l))) n
    l (take (N.to_nat n) l) (drop (N.to_nat n) l).
Proof.
  intros Hp Hs -> Hlast Hcase. set (n := page_limit remaining) in *.
  assert (n ≤ chunk_size)%N as Hn by (unfold n, page_limit; destruct remaining; lia).
  assert (take (N.to_nat n) l ≠ []) as Hne by (intros E; by rewrite E in Hlast).
  split; try done.
  - by rewrite take_drop.
  - rewrite length_take. lia.
  - intros limit ->. rewrite length_take. unfold n, page_limit. lia.
  - rewrite length_take. intros Hlt. apply drop_ge. lia.
  - intros Hge. destruct Hcase as [Hj|[Hlt|(limit & -> & Hle)]].
    + right. exists (the_key r).
      rewrite <- (take_drop (N.to_nat n) l) in Hs. apply in_order_app in Hs as (Hs1 & _ & Hs2).
      destruct (last_key_top _ _ Hs1 Hlast) as [Hr Htop]. split_and!; [by exists r|done| |].
      * intros x Hx. assert (before (the_key r) (the_key x)) as Hb; [|by split; [|left]].
        destruct (before_total HP (the_key r) (the_key x)) as [?|[Heq|Hb]]; [done| |by apply Hs2 in Hb].
        exfalso. pose proof (keys_unique HP Hj s) as Hnd.
        assert (NoDup (the_key <$> l)) as Hnd'.
        { rewrite Hp. eapply sublist_NoDup; [exact Hnd|apply fmap_sublist, sublist_filter]. }
        rewrite <- (take_drop (N.to_nat n) l), fmap_app in Hnd'. apply list.NoDup_app in Hnd' as (_ & Hnd' & _).
        apply (Hnd' (the_key r)); [by apply list_elem_of_fmap_2|]. rewrite Heq. by apply list_elem_of_fmap_2.
      * intros x Hx. by destruct Hx as [?|[? _]].
    + destruct (decide (n = N.of_nat (length (take (N.to_nat n) l)))) as [Heq|Hneq]; [done|].
      rewrite length_take in Hge, Hlt. lia.
    + left. rewrite length_take in *. f_equal. unfold n, page_limit in *. lia.
Qed.


Lemma tail_length_spec k l : Forall (λ r, key_of r = Ok (the_key r)) l →
  ∃ t a, l = t ++ a ∧ tail_length k l = Ok (length t) ∧ Forall (λ r, the_key r = k) t
    ∧ ∀ r, head a = Some r → the_key r ≠ k.
Proof.
  induction 1 as [|r l Hr _ (t & a & -> & E & Ht & Ha)]; [by exists [], []|].
  cbn [tail_length]. rewrite Hr. cbn [rbind]. destruct (decide (the_key r = k)) as [Hk|Hk].
  - exists (r :: t), a. rewrite bool_decide_eq_true_2, E by done. split_and!; [done..|by constructor|done].
  - exists [], (r :: t ++ a). rewrite bool_decide_eq_false_2 by done. split_and!; [done..|by constructor|by intros ? [= <-]].
Qed.

Lemma reading_keys s cursor l : l ≡ₚ filter (beyond cursor) (rows s) → Forall (λ r, key_of r = Ok (the_key r)) l.
Proof.
  intros Hp. apply list.Forall_forall. intros r Hr. apply (keys_read HP s). rewrite Hp in Hr.
  by apply list_elem_of_filter in Hr as [_ ?].
Qed.

(** A full batch that ends inside the rows of a key: those rows are left for the next. *)
Lemma handed_cut remaining cursor s (l A T : list row) n k :
  l ≡ₚ filter (beyond cursor) (rows s) → in_order l → n = page_limit remaining →
  take (N.to_nat n) l = A ++ T → A ≠ [] → T ≠ [] → Forall (λ r, the_key r = k) T →
  (∀ r, list.last A = Some r → the_key r ≠ k) →
  Handed remaining cursor s A k true n n l A (T ++ drop (N.to_nat n) l).
Proof.
  intros Hp Hs Hn Hl HA HT Hk HAk.
  assert (l = A ++ T ++ drop (N.to_nat n) l) as Heq by by rewrite app_assoc, <- Hl, take_drop.
  assert (length (A ++ T) ≤ N.to_nat n) as Hlen by (rewrite <- Hl, length_take; lia). rewrite length_app in Hlen.
  assert (n ≤ chunk_size)%N as Hsz by (rewrite Hn; unfold page_limit; destruct remaining; lia).
  destruct (list.last A) as [r|] eqn:Er; [|by apply list.last_None in Er]. specialize (HAk r eq_refl).
  rewrite Heq in Hs. apply in_order_app in Hs as (HsA & Hs2 & HsAT). destruct (last_key_top _ _ HsA Er) as [HrA Htop].
  destruct T as [|t T]; [done|]. apply list.Forall_cons in Hk as [Hkt Hk].
  assert (before (the_key r) k) as Hrk.
  { destruct (before_total HP (the_key r) k) as [?|[?|Hb]]; [done..|]. rewrite <- Hkt in Hb.
    exfalso. apply (HsAT r t); [done|by left|done]. }
  split; try done.
  - lia.
  - intros limit ->. rewrite Hn in Hlen. unfold page_limit in Hlen. lia.
  - lia.
  - intros _. right. exists (the_key r). split_and!; [by exists r|done| |].
    + intros x Hx. assert (¬ before (the_key x) k) as Hxk.
      { cbn in Hx. apply elem_of_cons in Hx as [->|Hx]; [rewrite Hkt; apply (before_irrefl HP)|].
        rewrite <- Hkt. apply in_order_app with (l := [t]) in Hs2 as (_ & _ & Hs2). apply Hs2; [by left|done]. }
      split; [by eapply before_not_before|]. cbn.
      destruct (before_total HP k (the_key x)) as [?|[?|?]]; [by left|by right|done].
    + intros x [Hx|[_ <-]]; [by eapply (before_trans HP)|done].
Qed.

Lemma split_least (l : list row) k : in_order l → (∀ x, x ∈ l → ¬ before (the_key x) k) →
  l = filter (λ r, the_key r = k) l ++ filter (λ r, the_key r ≠ k) l.
Proof.
  induction l as [|x l IH]; intros Hs Hk; [done|].
  apply in_order_app with (l := [x]) in Hs as (_ & Hs & Hx).
  destruct (decide (the_key x = k)) as [Hxk|Hxk].
  - rewrite filter_cons_True, filter_cons_False by auto. cbn. f_equal. apply IH; [done|]. intros y Hy. apply Hk. by right.
  - assert (Forall (λ r, the_key r ≠ k) (x :: l)) as Hall.
    { apply list.Forall_forall. intros y Hy Hyk. apply elem_of_cons in Hy as [->|Hy]; [done|].
      apply (Hx x y); [by left|done|]. rewrite Hyk.
      destruct (before_total HP k (the_key x)) as [?|[?|Hb]]; [done|by subst|]. by apply Hk in Hb; [|left]. }
    rewrite (filter_all_rows (λ r, the_key r ≠ k)) by done. rewrite filter_no_rows; [done|].
    eapply List.Forall_impl, Hall. cbn. tauto.
Qed.

(** A full batch of one key: all the rows of that key instead. *)
Lemma handed_run remaining cursor s (l run : list row) n k :
  l ≡ₚ filter (beyond cursor) (rows s) → in_order l → n = page_limit remaining → n = chunk_size → n ≠ 0%N →
  (∀ limit, remaining = Some limit → (n < limit)%N) →
  Forall (λ r, the_key r = k) (take (N.to_nat n) l) → length (take (N.to_nat n) l) = N.to_nat n →
  run ≡ₚ filter (λ r, the_key r = k) (rows s) → (N.of_nat (length run) ≤ chunk_size)%N →
  Handed remaining cursor s run k false n n l
    (filter (λ r, the_key r = k) l) (filter (λ r, the_key r ≠ k) l).
Proof.
  intros Hp Hs Hn Hsz Hn0 Hrem Hk Hlen Hrun Hlr.
  destruct l as [|x l']; [cbn in Hlen; rewrite take_nil in Hlen; cbn in Hlen; lia|]. set (l := x :: l') in *.
  assert (the_key x = k) as Hxk.
  { unfold l in Hk. destruct (N.to_nat n) eqn:E; [lia|]. by apply list.Forall_cons in Hk as [? _]. }
  assert (∀ y, y ∈ l → ¬ before (the_key y) k) as Hmin.
  { intros y Hy. unfold l in Hy, Hs. apply elem_of_cons in Hy as [->|Hy]; [rewrite Hxk; apply (before_irrefl HP)|].
    rewrite <- Hxk. apply in_order_app with (l := [x]) in Hs as (_ & _ & Hs). apply Hs; [by left|done]. }
  assert (beyond cursor x) as Hbx.
  { assert (x ∈ l) as Hx by by left. rewrite Hp in Hx. by apply list_elem_of_filter in Hx as [? _]. }
  assert (run ≡ₚ filter (λ r, the_key r = k) l) as Hrl.
  { rewrite Hrun, Hp, list_filter_filter_l; [done|]. intros r Hr. unfold beyond in *. by rewrite Hr, <- Hxk. }
  assert (∀ r, r ∈ run → the_key r = k) as Hrk.
  { intros r Hr. rewrite Hrun in Hr. by apply list_elem_of_filter in Hr as [? _]. }
  assert (x ∈ run) as Hxr by (rewrite Hrl; apply list_elem_of_filter; by split; [|left]).
  split; try done.
  - by apply split_least.
  - assert (∀ rs, (∀ r, r ∈ rs → the_key r = k) → the_key <$> rs = replicate (length rs) k) as Hrep.
    { induction rs as [|r rs IH]; intros Hrs; [done|]. rewrite fmap_cons. cbn [length replicate]. f_equal; [by apply Hrs; left|].
      apply IH. intros y Hy. apply Hrs. by right. }
    rewrite !Hrep; [by rewrite Hrl| |done]. intros r Hr. by apply list_elem_of_filter in Hr as [? _].
  - intros ->. by apply elem_of_nil in Hxr.
  - intros limit Hl. apply Hrem in Hl. lia.
  - lia.
  - intros _. right. exists k. split_and!.
    + by exists x.
    + intros r Hr. rewrite (Hrk _ Hr). apply (before_irrefl HP).
    + intros r Hr. apply list_elem_of_filter in Hr as [Hne Hr].
      assert (before k (the_key r)) as Hb; [|by split; [|left]].
      destruct (before_total HP k (the_key r)) as [?|[?|Hb]]; [done|by subst|]. by apply Hmin in Hb.
    + intros r [Hb|[? _]]; done.
Qed.


(** Whether the database fails a query, and whether a key has more rows than a batch. *)
Definition database_fails (s : db_state) : Prop := ∃ q e, get_rows q s = Err e.
Definition overfull (s : db_state) : Prop :=
  ∃ k, (chunk_size < N.of_nat (length (filter (λ r, the_key r = k) (rows s))))%N.

Lemma round_spec remaining cursor s : (0 < chunk_size < u64_max)%N →
  match chunk_round base cursor_column order chunk_size remaining cursor s with
  | Finished => filter (beyond cursor) (rows s) = [] ∨ remaining = Some 0%N
  | Failed _ => database_fails s ∨ overfull s
  | Hand batch k inclusive fetched n =>
      ∃ l front rest, l ≡ₚ filter (beyond cursor) (rows s) ∧ in_order l
        ∧ Handed remaining cursor s batch k inclusive fetched n l front rest
  end.
Proof.
  intros Hsz. unfold chunk_round. fold (page_limit remaining). set (n := page_limit remaining).
  destruct (n =? 0)%N eqn:En0.
  { apply N.eqb_eq in En0. right. unfold n, page_limit in En0. destruct remaining; [f_equal|]; lia. }
  apply N.eqb_neq in En0.
  destruct (get_rows (batch_query base cursor_column order n cursor) s) as [batch|e] eqn:Eget; [|left; by eexists _, _].
  destruct (pages_answer HP cursor s n batch Eget) as (l & Hp & Hs & ->).
  pose proof (reading_keys _ _ _ Hp) as Hread.
  destruct (list.last (take (N.to_nat n) l)) as [r|] eqn:Elast.
  2: { left. apply list.last_None in Elast. destruct l as [|x l]; [by apply Permutation_nil in Hp|].
       destruct (N.to_nat n) eqn:E; [lia|done]. }
  assert (r ∈ take (N.to_nat n) l) as Hr.
  { destruct (take (N.to_nat n) l) as [|y l' _] using rev_ind; [done|]. rewrite last_snoc in Elast.
    injection Elast as ->. apply elem_of_app. right. by apply list_elem_of_singleton. }
  assert (Forall (λ r, key_of r = Ok (the_key r)) (take (N.to_nat n) l)) as Hread' by by apply Forall_take.
  rewrite (proj1 (list.Forall_forall _ _) Hread' r Hr).
  set (more := match remaining with None => true | Some limit => (n <? limit)%N end).
  assert (∀ limit, more = true → remaining = Some limit → (n < limit)%N ∧ n = chunk_size) as Hmore.
  { intros limit Hm ->. unfold more in Hm. apply N.ltb_lt in Hm. split; [done|]. unfold n, page_limit in *. lia. }
  destruct (negb (nilb (joins base)) && (N.of_nat (length (take (N.to_nat n) l)) =? n)%N && more) eqn:Ec.
  2: { exists l, (take (N.to_nat n) l), (drop (N.to_nat n) l). split_and!; [done..|].
       apply handed_whole; [done..|]. rewrite !andb_false_iff in Ec. destruct Ec as [[Ec|Ec]|Ec].
       - left. by destruct (joins base).
       - right. left. by apply N.eqb_neq in Ec.
       - right. right. unfold more in Ec. destruct remaining as [limit|]; [|done]. exists limit. split; [done|].
         by apply N.ltb_ge in Ec. }
  rewrite !andb_true_iff in Ec. destruct Ec as [[_ Hfull] Hm]. apply N.eqb_eq in Hfull.
  destruct (tail_length_spec (the_key r) (rev (take (N.to_nat n) l))) as (t & a & Hrev & -> & Ht & Ha).
  { by apply Forall_rev. }
  assert (take (N.to_nat n) l = rev a ++ rev t) as Hbatch by by rewrite <- rev_app_distr, <- Hrev, rev_involutive.
  assert (t ≠ []) as Hne.
  { intros ->. rewrite Hbatch, app_nil_r in Elast. destruct a as [|y a]; [done|]. cbn [rev] in Elast.
    rewrite last_snoc in Elast. injection Elast as ->. by apply (Ha r). }
  assert (length (take (N.to_nat n) l) = length a + length t) as Hlen by by rewrite Hbatch, length_app, !length_rev.
  rewrite Hfull. destruct (_ =? _)%nat eqn:Et.
  - apply Nat.eqb_eq in Et. assert (a = []) as -> by (destruct a; [done|cbn in Hlen; lia]).
    assert (n = chunk_size) as Hn.
    { unfold n, page_limit. destruct remaining as [limit|]; [|done]. by apply (Hmore limit). }
    destruct (get_rows (q_limit (saturating_add _ _) _) s) as [run|e] eqn:Erun; [|left; by eexists _, _].
    destruct (runs_answer HP (the_key r) s _ run Erun) as (l2 & Hp2 & Hs2 & ->).
    assert (saturating_add chunk_size 1 = chunk_size + 1)%N as -> by (unfold saturating_add; lia).
    destruct (chunk_size <? _)%N eqn:Eover.
    + right. exists (the_key r). apply N.ltb_lt in Eover. rewrite length_take in Eover. rewrite <- Hp2. lia.
    + apply N.ltb_ge in Eover. assert (length l2 ≤ N.to_nat chunk_size) as Hl2 by (rewrite length_take in Eover; lia).
      rewrite take_ge in Eover |- * by lia. exists l. do 2 eexists. split_and!; [done..|].
      apply handed_run; try done; [| |lia].
      * intros limit Hl. by destruct (Hmore limit Hm Hl).
      * rewrite Hbatch. cbn. by apply Forall_rev.
  - apply Nat.eqb_neq in Et.
    assert (take (length (take (N.to_nat n) l) - length t) (take (N.to_nat n) l) = rev a) as ->.
    { rewrite Hlen. replace (length a + length t - length t) with (length (rev a)) by (rewrite length_rev; lia).
      by rewrite Hbatch, take_app_length. }
    exists l. do 2 eexists. split_and!; [done..|]. apply (handed_cut _ _ _ _ (rev a) (rev t)); try done.
    + intros E. apply (f_equal length) in E. rewrite length_rev in E. cbn in E. lia.
    + intros E. apply (f_equal length) in E. rewrite length_rev in E. destruct t; [done|cbn in E; lia].
    + by apply Forall_rev.
    + intros x Hx. apply Ha. destruct a as [|y a]; [done|]. cbn [rev] in Hx. by rewrite last_snoc in Hx.
Qed.


(** The first [remaining] of a list. *)
Definition lim {A} (remaining : option N) (l : list A) : list A :=
  match remaining with None => l | Some n => take (N.to_nat n) l end.

(** What the batches handed hold of the rows that are left: those of the least keys, each
    row at most once, batches whose keys follow each other, and all of them at the end. *)
Record Outcome (remaining : option N) (pending : list row) (res : result unit str) (handed : list (list row)) : Prop := {
  outcome_keys : ∀ l, l ≡ₚ pending → in_order l → the_key <$> concat handed `prefix_of` the_key <$> lim remaining l;
  outcome_rows : concat handed ⊆+ pending;
  outcome_apart : StronglySorted (λ b b', ∀ r r', r ∈ b → r' ∈ b' → before (the_key r) (the_key r')) handed;
  outcome_sizes : Forall (λ b, b ≠ [] ∧ (N.of_nat (length b) ≤ chunk_size)%N) handed;
  outcome_all : res = Ok tt → length (concat handed) = length (lim remaining pending);
}.

Lemma lim_fmap {A B} (f : A → B) remaining l : f <$> lim remaining l = lim remaining (f <$> l).
Proof. destruct remaining; [apply fmap_take|done]. Qed.

Lemma outcome_perm remaining pending pending' res handed :
  pending ≡ₚ pending' → Outcome remaining pending res handed → Outcome remaining pending' res handed.
Proof.
  intros Hp [O1 O2 O3 O4 O5]. split; try done.
  - intros l Hl. apply O1. by rewrite Hp.
  - by rewrite <- Hp.
  - intros Hr. rewrite (O5 Hr). destruct remaining; cbn; rewrite ?length_take; by rewrite Hp.
Qed.

Lemma outcome_none remaining pending res :
  (res = Ok tt → pending = [] ∨ remaining = Some 0%N) → Outcome remaining pending res [].
Proof.
  intros Hr. split; cbn; try constructor.
  - intros l _ _. apply prefix_nil.
  - apply submseteq_nil_l.
  - intros Hres. destruct (Hr Hres) as [->| ->]; [by destruct remaining; cbn; rewrite ?take_nil|done].
Qed.

(** A batch in front of the batches of the rows behind it. *)
Lemma outcome_cons remaining cursor s batch k inclusive fetched n (l front rest : list row) res handed :
  in_order l → Handed remaining cursor s batch k inclusive fetched n l front rest →
  Outcome ((λ limit, limit - N.of_nat (length batch))%N <$> remaining) rest res handed →
  (∀ r r', r ∈ batch → r' ∈ concat handed → before (the_key r) (the_key r')) →
  Outcome remaining l res (batch :: handed).
Proof.
  intros Hs Hh [O1 O2 O3 O4 O5] Hap. pose proof (handed_rows _ _ _ _ _ _ _ _ _ _ _ Hh) as ->.
  pose proof (handed_batch _ _ _ _ _ _ _ _ _ _ _ Hh) as Hb. pose proof (Permutation_length Hb) as Hlb.
  assert (∀ {A} (a b : list A), length a = length batch → lim remaining (a ++ b)
    = a ++ lim ((λ limit, limit - N.of_nat (length batch))%N <$> remaining) b) as Hlim.
  { intros A a b Ha. destruct remaining as [limit|]; [|done]. cbn.
    pose proof (handed_limit _ _ _ _ _ _ _ _ _ _ _ Hh limit eq_refl). rewrite take_app. f_equal; [apply take_ge; lia|].
    f_equal. lia. }
  split; cbn [concat].
  - intros l' Hl' Hs'. rewrite lim_fmap, (in_order_keys _ _ Hl' Hs' Hs), <- lim_fmap, Hlim, !fmap_app by done.
    rewrite (handed_keys _ _ _ _ _ _ _ _ _ _ _ Hh). apply prefix_app, O1; [done|]. by apply in_order_app in Hs as (_ & ? & _).
  - rewrite Hb. by apply submseteq_skips_l.
  - constructor; [done|]. apply list.Forall_forall. intros b Hbin r r' Hr Hr'. apply Hap; [done|].
    apply list_elem_of_In, in_concat. exists b. by split; apply list_elem_of_In.
  - constructor; [|done]. split; [by eapply handed_some|by eapply handed_size].
  - intros Hres. rewrite Hlim by done. rewrite !length_app, (O5 Hres). lia.
Qed.

Lemma chunk_loop_spec fuel : ∀ remaining cursor s,
  (0 < chunk_size < u64_max)%N → length (filter (beyond cursor) (rows s)) < fuel →
  ∃ res s' handed, chunk_loop callback fuel base cursor_column order chunk_size remaining cursor s = Some (res, s', handed)
    ∧ Outcome remaining (filter (beyond cursor) (rows s)) res handed
    ∧ ((∀ s, ¬ database_fails s) → (∀ s, ¬ overfull s) → (∀ b s, fst (callback b s) = Ok tt) → res = Ok tt).
Proof.
  induction fuel as [|fuel IH]; intros remaining cursor s Hsz Hf; [lia|]. cbn [chunk_loop].
  pose proof (round_spec remaining cursor s Hsz) as Hround.
  destruct (chunk_round base cursor_column order chunk_size remaining cursor s) as [|e|batch k inclusive fetched n].
  { do 3 eexists. split_and!; [done|by apply outcome_none|done]. }
  { do 3 eexists. split_and!; [done|by apply outcome_none|]. intros Hd Ho _. exfalso. destruct Hround as [?|?]; [by eapply Hd|by eapply Ho]. }
  destruct Hround as (l & front & rest & Hl & Hs & Hh).
  pose proof (handed_rows _ _ _ _ _ _ _ _ _ _ _ Hh) as Heq. pose proof (handed_batch _ _ _ _ _ _ _ _ _ _ _ Hh) as Hb.
  pose proof (handed_some _ _ _ _ _ _ _ _ _ _ _ Hh) as Hne.
  assert (∀ res, (res = Ok tt → rest = [] ∨ (λ limit, limit - N.of_nat (length batch))%N <$> remaining = Some 0%N) →
    Outcome remaining (filter (beyond cursor) (rows s)) res [batch]) as Hlast.
  { intros res Hres. eapply outcome_perm; [exact Hl|]. eapply outcome_cons; [done|done|by apply outcome_none|].
    intros r r' _ Hr'. by apply elem_of_nil in Hr'. }
  destruct (callback batch s) as [[[]|e] s'] eqn:Ecb.
  2: { do 3 eexists. split_and!; [done|by apply Hlast|]. intros _ _ Hcb. specialize (Hcb batch s). by rewrite Ecb in Hcb. }
  set (remaining' := (λ limit, limit - N.of_nat (length batch))%N <$> remaining) in *.
  destruct (bool_decide (remaining' = Some 0%N) || (fetched <? n)%N) eqn:Estop.
  { do 3 eexists. split_and!; [done| |done]. apply Hlast. intros _. apply orb_prop in Estop as [Hz|Hlt].
    - right. by apply bool_decide_eq_true in Hz.
    - left. apply N.ltb_lt in Hlt. by eapply handed_last. }
  apply orb_false_iff in Estop as [Hz Hlt]. apply bool_decide_eq_false in Hz. apply N.ltb_ge in Hlt.
  destruct (handed_next _ _ _ _ _ _ _ _ _ _ _ Hh Hlt) as [Hrem|(top & (r0 & Hr0 & Htop) & Hmax & Hrest & Hcur)].
  { exfalso. apply Hz. unfold remaining'. rewrite Hrem. cbn. f_equal. lia. }
  assert (filter (beyond (Some (k, inclusive))) (rows s') ≡ₚ rest) as Hs'.
  { rewrite <- (list_filter_filter_l _ (λ r, before top (the_key r))) by done.
    rewrite (rest_left_alone HP batch s s' top Ecb) by eauto.
    rewrite (rest_behind cursor s front rest top).
    - rewrite filter_all_rows; [done|]. apply list.Forall_forall. intros r Hr. by apply Hrest.
    - by rewrite <- Heq.
    - exists r0. by rewrite <- Hb.
    - intros r Hr. apply Hmax. by rewrite Hb.
    - intros r Hr. by apply Hrest. }
  destruct (IH remaining' (Some (k, inclusive)) s' Hsz) as (res & s'' & handed & -> & Ho & Hok).
  { rewrite Hs'. rewrite <- Hl, Heq, length_app in Hf. apply Permutation_length in Hb.
    destruct batch; [done|]. cbn in Hb. lia. }
  cbn [mbind option_bind]. do 3 eexists. split_and!; [done| |done].
  eapply outcome_perm; [exact Hl|]. apply (outcome_perm _ _ _ _ _ Hs') in Ho.
  eapply outcome_cons; [done|done|done|]. intros r r' Hr Hr'.
  eapply not_before_before; [by apply Hmax|]. apply Hrest.
  apply (elem_of_submseteq _ _ _ Hr'), (outcome_rows _ _ _ _ Ho).
Qed.

End spec.

(** The order of the rows of a query, from that of the keys. *)
Definition direction {A} (order : Order) (R : relation A) : relation A :=
  match order with Asc => R | Desc => flip R end.

#[export] Instance direction_dec {A} (order : Order) (R : relation A) `{!RelDecision R} :
  RelDecision (direction order R).
Proof. intros a b. destruct order; cbn; apply _. Defined.

(** What a comparison with a key selects. *)
Definition compares `{QueryTypes} `{!Reads} (klt : relation key) (op : Operator) (k other : key) : Prop :=
  match op with
  | Gt => klt k other
  | Gte => ¬ klt other k
  | Lt_ => klt other k
  | Lte => ¬ klt k other
  | _ => other = k
  end.

#[export] Instance compares_dec `{QueryTypes} `{!Reads} klt `{!RelDecision klt} op k other :
  Decision (compares klt op k other).
Proof. destruct op; cbn; apply _. Defined.

Section database.
Context `{QT : QueryTypes} `{!ModelContext} `{SC : SeaCondition (Expr bound_value)} `{!BulkContext}
  `{JS : JsonPath.JsonStrings} `{!Reads}.
Context (callback : list row → db_state → result unit str * db_state).
Context (base : Clauses) (cursor_column : str) (order : Order).
Context (klt : relation key) `{!RelDecision klt} (rows : db_state → list row) (the_key : row → key).
#[local] Notation before := (direction order klt).

(** What [chunk] relies on. Keys are ordered and read back from the rows; the database
    returns the rows of a query that the comparison with a key selects, in the order of
    the query up to rows of one key, and as many as its limit; without a join a key is a
    row's own; and the callback leaves the rows behind its batch alone. *)
Record Database : Prop := {
  klt_irrefl : ∀ k, ¬ klt k k;
  klt_trans : Transitive klt;
  klt_total : ∀ a b, klt a b ∨ a = b ∨ klt b a;
  database_keys : ∀ s r, r ∈ rows s → key_of r = Ok (the_key r);
  database_first : ∀ s n, answers before rows the_key (λ _, True) n (q_limit n base) s;
  database_compared : ∀ op k s n, op ∈ [Gt; Gte; Lt_; Lte] →
    answers before rows the_key (λ r, compares klt op k (the_key r)) n
      (q_where (key_condition cursor_column op k) (q_limit n base)) s;
  database_run : ∀ k s n, answers before rows the_key (λ r, compares klt Eq k (the_key r)) n
    (q_limit n (q_where (key_condition cursor_column Eq k) base)) s;
  database_unique : joins base = [] → ∀ s, NoDup (the_key <$> rows s);
  callback_spares : ∀ batch s s' top, callback batch s = (Ok tt, s') → (∃ r, r ∈ batch ∧ the_key r = top) →
    (∀ r, r ∈ batch → ¬ before top (the_key r)) →
    filter (λ r, before top (the_key r)) (rows s') ≡ₚ filter (λ r, before top (the_key r)) (rows s);
}.

Lemma answers_ext (P Q : row → Prop) `{!∀ r, Decision (P r), !∀ r, Decision (Q r)} n q s :
  (∀ r, P r ↔ Q r) → answers before rows the_key P n q s → answers before rows the_key Q n q s.
Proof.
  intros HPQ HP got Hgot. destruct (HP got Hgot) as (l & Hl & ?). exists l. by rewrite <- (list_filter_iff P Q).
Qed.

Lemma database_pageable : Database → Pageable callback base cursor_column order before rows the_key.
Proof.
  intros HD. assert (∀ a b, ¬ klt b a ↔ klt a b ∨ a = b) as Hnot.
  { intros a b. split; [destruct (klt_total HD a b) as [?|[?|?]]; tauto|].
    intros [Hab|<-] Hba; [|by apply (klt_irrefl HD) in Hba].
    by apply (klt_irrefl HD a), (klt_trans HD _ b). }
  split.
  - destruct order; apply (klt_irrefl HD).
  - pose proof (klt_trans HD). destruct order; cbn; apply _.
  - intros a b. destruct (klt_total HD a b) as [?|[?|?]], order; cbn; tauto.
  - apply (database_keys HD).
  - intros [[k inclusive]|] s n; [|by eapply answers_ext, (database_first HD)].
    eapply answers_ext, (database_compared HD (cursor_operator order inclusive)).
    + intros r. destruct order, inclusive; cbn; rewrite ?Hnot; intuition congruence.
    + destruct order, inclusive; set_solver.
  - intros k s n. by eapply answers_ext, (database_run HD).
  - apply (database_unique HD).
  - apply (callback_spares HD).
Qed.

End database.

(** A page has a next one exactly when rows follow it. *)
Theorem next_page_exactly_when_rows_follow `{QueryTypes} `{!Reads} (p : Paginated) :
  (0 < per_page p)%N → (0 < page p)%N → has_next_page p = true ↔ (page p * per_page p < total p)%N.
Proof.
  intros Hper Hpage. unfold has_next_page, last_page. rewrite (proj2 (N.eqb_neq _ _)), N.ltb_lt by lia.
  set (q := ((total p + (per_page p - 1)) / per_page p)%N).
  assert (q * per_page p ≤ total p + (per_page p - 1))%N as H1 by (rewrite N.mul_comm; apply N.Div0.mul_div_le).
  assert (total p + (per_page p - 1) < (q + 1) * per_page p)%N as H2.
  { unfold q. rewrite N.add_1_r, N.mul_comm. apply N.mul_succ_div_gt. lia. }
  split; intros Hlt; nia.
Qed.

(** C34: [chunk] hands every row to its callback exactly once. Whatever order the database
    gives rows that share a key, and whatever the callback does to the rows it was handed,
    the batches, of at most the size asked for, hold the first rows of the query up to its
    limit, in key order; rows a join gives one key come in one batch, unless the limit
    cuts them; when it succeeds none is missing, it ends after at most a round for each
    row, and it succeeds when the database answers, the callback does and no key has more
    rows than a batch. *)
Theorem chunk_hands_every_row_once `{QT : QueryTypes} `{!ModelContext} `{SC : SeaCondition (Expr bound_value)}
    `{!BulkContext} `{JS : JsonPath.JsonStrings} `{!Reads}
    (callback : list row → db_state → result unit str * db_state) (c base : Clauses) (cursor_column : str)
    (order : Order) (chunk_size : N) (klt : relation key) `{!RelDecision klt}
    (rows : db_state → list row) (the_key : row → key) (s : db_state) :
  chunk_plan c chunk_size = Ok (base, cursor_column, order) → (chunk_size < u64_max)%N →
  Database callback base cursor_column order klt rows the_key →
  let before := direction order klt in
  ∃ res s' handed, chunk callback (S (length (rows s))) c chunk_size s = Some (res, s', handed)
    ∧ (∀ l, l ≡ₚ rows s → in_order before the_key l →
         the_key <$> concat handed `prefix_of` the_key <$> lim (limit_value c) l)
    ∧ concat handed ⊆+ rows s
    ∧ StronglySorted (λ b b', ∀ r r', r ∈ b → r' ∈ b' → before (the_key r) (the_key r')) handed
    ∧ Forall (λ b, b ≠ [] ∧ (N.of_nat (length b) ≤ chunk_size)%N) handed
    ∧ (res = Ok tt → length (concat handed) = length (lim (limit_value c) (rows s)))
    ∧ ((∀ s, ¬ database_fails s) → (∀ s, ¬ overfull chunk_size rows the_key s) → (∀ b s, fst (callback b s) = Ok tt) → res = Ok tt).
Proof.
  intros Hplan Hsz HD before. pose proof (database_pageable _ _ _ _ _ _ _ HD) as HP. fold before in HP.
  assert (0 < chunk_size)%N as Hpos.
  { revert Hplan. unfold chunk_plan, ensure_query_is_chunkable. destruct (chunk_size =? 0)%N eqn:E; [|apply N.eqb_neq in E; lia].
    by destruct (ensure_query_is_executable c). }
  destruct (chunk_loop_spec callback base cursor_column order chunk_size before rows the_key HP
    (S (length (rows s))) (limit_value c) None s ltac:(lia)) as (res & s' & handed & E & Ho & Hok).
  { eapply Nat.le_lt_trans; [apply list.length_filter|lia]. }
  unfold chunk. rewrite Hplan, E. cbn [mbind option_bind].
  assert (filter (beyond before the_key None) (rows s) = rows s) as Hall by (apply filter_all_rows, list.Forall_forall; done).
  rewrite Hall in Ho. destruct Ho as [O1 O2 O3 O4 O5]. do 3 eexists. split; [done|]. split_and!; try done.
  - intros Hr. apply O5. by destruct res as [[]|].
  - intros Hd Hov Hcb. by rewrite (Hok Hd Hov Hcb).
Qed.

(** A table of keys joined to rows that repeat them. *)
Definition chunk_rows : list (N * N) := [(1, 10); (1, 11); (2, 20); (3, 30); (3, 31)]%N.

Definition chunk_holds (r : N * N) (condition : WhereCondition (@bound_value Fragments.demo_types)) : bool :=
  match value condition, operator condition with
  | VSingle (JNumber (PosInt k)), Gt => (k <? fst r)%N
  | VSingle (JNumber (PosInt k)), Gte => (k <=? fst r)%N
  | VSingle (JNumber (PosInt k)), Lt_ => (fst r <? k)%N
  | VSingle (JNumber (PosInt k)), Lte => (fst r <=? k)%N
  | VSingle (JNumber (PosInt k)), Eq => (k =? fst r)%N
  | _, _ => true
  end.

Definition chunk_reads : @Reads Fragments.demo_types := {|
  row := N * N;
  key := N;
  key_eq_dec := N.eq_dec;
  db_state := unit;
  schema_name := None;
  model_table := lit "items";
  primary_key_names := [lit "id"];
  canonical_column_name := Some;
  key_is_original := λ _ _, true;
  key_json := λ k, JNumber (PosInt k);
  key_text := show_N;
  key_of := λ r, Ok (fst r);
  get_rows := λ q _,
    Ok (match limit_value q with
        | Some n => take (N.to_nat n)
        | None => id
        end (List.filter (λ r, forallb (chunk_holds r) (conditions q)) chunk_rows));
|}.

Definition chunk_join : JoinClause :=
  {| join_type := Inner; join_table := lit "parts"; join_alias := None;
     left_column := lit "items.id"; right_column := lit "parts.item" |}.

Definition chunk_query : @Clauses Fragments.demo_types :=
  @upd_joins Fragments.demo_types (put [chunk_join]) (@Clauses_default Fragments.demo_types).

Definition chunk_callback (_ : list (N * N)) (s : unit) : result unit str * unit := (Ok tt, s).

Lemma chunk_filter (P : N * N → Prop) `{!∀ r, Decision (P r)} (f : N * N → bool) l :
  (∀ r, f r = true ↔ P r) → List.filter f l = filter P l.
Proof.
  intros Hf. induction l as [|r l IH]; [done|]. cbn [List.filter]. destruct (f r) eqn:E.
  - rewrite filter_cons_True by by apply Hf. by rewrite IH.
  - rewrite filter_cons_False; [done|]. intros HP. apply Hf in HP. congruence.
Qed.

Lemma sorted_filter {A} (R : relation A) (P : A → Prop) `{!∀ r, Decision (P r)} l :
  StronglySorted R l → StronglySorted R (filter P l).
Proof.
  induction 1 as [|x l _ IH Hx]; [constructor|]. rewrite filter_cons. destruct (decide (P x)); [|done].
  constructor; [done|]. apply list.Forall_forall. intros y Hy. apply list_elem_of_filter in Hy as [_ Hy].
  by apply (proj1 (list.Forall_forall _ _) Hx).
Qed.

Lemma chunk_in_order : @in_order _ chunk_reads (direction Asc N.lt) fst chunk_rows.
Proof. unfold in_order, chunk_rows. repeat constructor; cbn; lia. Qed.

#[local] Opaque chunk_rows.

Lemma chunk_pageable base : conditions base = [] → joins base = [chunk_join] →
  @Database _ chunk_reads chunk_callback base (lit "items.id") Asc N.lt N.lt_dec (λ _, chunk_rows) fst.
Proof.
  intros Hc Hj. split.
  - intros k. cbn. lia.
  - intros a b c. cbn. lia.
  - intros a b. cbn in *. lia.
  - done.
  - intros [] n got Hgot. exists chunk_rows. split_and!; [by rewrite (@filter_all_rows _ chunk_reads) by by apply list.Forall_forall|apply chunk_in_order|].
    injection Hgot as <-. cbn. rewrite Hc. cbn. done.
  - intros op k [] n Hop got Hgot. exists (filter (λ r, @compares _ chunk_reads N.lt op k (fst r)) chunk_rows).
    split_and!; [done|apply sorted_filter, chunk_in_order|].
    injection Hgot as <-. cbn. rewrite Hc. cbn. f_equal. apply chunk_filter. intros r.
    unfold chunk_holds. rewrite !elem_of_cons, elem_of_nil in Hop.
    destruct Hop as [->|[->|[->|[->|[]]]]]; cbn; rewrite andb_true_r, ?N.leb_le, ?N.ltb_lt; lia.
  - intros k [] n got Hgot. exists (filter (λ r, @compares _ chunk_reads N.lt Eq k (fst r)) chunk_rows).
    split_and!; [done|apply sorted_filter, chunk_in_order|].
    injection Hgot as <-. cbn. rewrite Hc. cbn. f_equal. apply chunk_filter. intros r.
    unfold chunk_holds. cbn. rewrite andb_true_r, N.eqb_eq. split; congruence.
  - by rewrite Hj.
  - done.
Qed.

#[local] Transparent chunk_rows.

Definition chunk_base : @Clauses Fragments.demo_types :=
  @upd_order_by Fragments.demo_types (put [(lit "items.id", Asc)]) chunk_query.

Lemma chunk_planned :
  @chunk_plan _ (demo_model false) _ demo_bulk simple_json_strings chunk_reads chunk_query 2%N
  = Ok (chunk_base, lit "items.id", Asc).
Proof. by vm_compute. Qed.

Lemma chunk_hands_every_row_once_witness :
  let run := @chunk _ (demo_model false) _ demo_bulk simple_json_strings chunk_reads chunk_callback in
  run 6 chunk_query 2%N tt = Some (Ok tt, tt, [[(1, 10); (1, 11)]; [(2, 20)]; [(3, 30); (3, 31)]])%N
  ∧ ∃ res s' handed, run 6 chunk_query 2%N tt = Some (res, s', handed)
      ∧ length (concat handed) = 5 ∧ concat handed ⊆+ chunk_rows.
Proof.
  intros run.
  assert (run 6 chunk_query 2%N tt = Some (Ok tt, tt, [[(1, 10); (1, 11)]; [(2, 20)]; [(3, 30); (3, 31)]])%N) as E2
    by by vm_compute.
  split; [done|].
  destruct (@chunk_hands_every_row_once _ (demo_model false) _ demo_bulk simple_json_strings chunk_reads
    chunk_callback chunk_query chunk_base (lit "items.id") Asc 2%N N.lt N.lt_dec (λ _, chunk_rows) fst tt
    chunk_planned eq_refl (chunk_pageable chunk_base eq_refl eq_refl)) as (res & s' & handed & E & _ & Hrows & _ & _ & Hall & _).
  exists res, s', handed. split; [exact E|]. split; [|exact Hrows].
  change (run 6 chunk_query 2%N tt = Some (res, s', handed)) in E. rewrite E2 in E. injection E as <- _ _.
  exact (Hall eq_refl).
Defined.
