(* ===== verification/Toggle.v ===== *)
(** * A cache's configuration and its on/off switch

    src/src/cache/toggle.rs: the configuration both caches keep, with its
    [enabled] flag mirrored in an atomic that queries check without the lock. *)

From S2P Require Import Prelude.

(** [Switchable]: a configuration with an [enabled] flag. *)
Class Switchable (C : Type) := {
  cfg_enabled : C → bool;
  cfg_set_enabled : C → bool → C;
  cfg_enabled_set c b : cfg_enabled (cfg_set_enabled c b) = b;
}.

Record Toggle (C : Type) := { config : C; enabled : bool }.
Arguments Build_Toggle {C} config enabled.
Arguments config {C} t.
Arguments enabled {C} t.

Section toggle.
Context `{Switchable C}.

Definition Toggle_new (c : C) : Toggle C := {| config := c; enabled := cfg_enabled c |}.

Definition is_enabled (t : Toggle C) : bool := enabled t.

Definition set_enabled (t : Toggle C) (b : bool) : Toggle C :=
  {| config := cfg_set_enabled (config t) b; enabled := b |}.

Definition apply (t : Toggle C) (c : C) : Toggle C :=
  {| config := c; enabled := cfg_enabled c |}.

(** A change made through [Toggle::write]. *)
Definition write (t : Toggle C) (f : C → C) : Toggle C :=
  {| config := f (config t); enabled := enabled t |}.

(** The atomic mirrors the flag. *)
Definition mirrored (t : Toggle C) : Prop := enabled t = cfg_enabled (config t).

Lemma new_mirrored c : mirrored (Toggle_new c).
Proof. done. Qed.

Lemma set_enabled_mirrored t b : mirrored (set_enabled t b).
Proof. unfold mirrored. cbn. by rewrite cfg_enabled_set. Qed.

Lemma apply_mirrored t c : mirrored (apply t c).
Proof. done. Qed.

(** Every setting but [enabled] may be written. *)
Lemma write_mirrored t f :
  (∀ c, cfg_enabled (f c) = cfg_enabled c) → mirrored t → mirrored (write t f).
Proof. unfold mirrored. cbn. intros ->. done. Qed.
End toggle.
