(* ===== verification/CacheKey.v ===== *)
(** * The cache key builder (src/src/cache/builders.rs)

    A key is the parts of a query, tagged and joined with colons, the separators in
    their texts escaped. [std::fmt::Display] of a condition's value is a text given
    by the caller; the digest is a parameter. *)

From S2P Require Import Prelude Dialect.
Local Open Scope tide_scope.

(** [CacheKeyBuilder]: its parts as they are rendered. *)
Record CacheKeyBuilder := { parts : list str }.

Definition is_separator (c : char) : bool := (c =? 92)%N || (c =? 58)%N || (c =? 61)%N.

Definition escaped (text : str) : str :=
  text ≫= λ ch, if is_separator ch then [92%N; ch] else [ch].

Definition CacheKeyBuilder_new : CacheKeyBuilder := {| parts := [] |}.
Definition push_part (part : str) (b : CacheKeyBuilder) : CacheKeyBuilder :=
  {| parts := parts b ++ [part] |}.

Definition table (name : str) : CacheKeyBuilder → CacheKeyBuilder :=
  push_part (lit "t:" ++ escaped name).
Definition condition (column value : str) : CacheKeyBuilder → CacheKeyBuilder :=
  push_part (escaped column ++ lit "=" ++ escaped value).
Definition order (column direction : str) : CacheKeyBuilder → CacheKeyBuilder :=
  push_part (lit "o:" ++ escaped column ++ lit ":" ++ escaped direction).
Definition limit (n : N) : CacheKeyBuilder → CacheKeyBuilder := push_part (lit "l:" ++ show_N n).
Definition offset (n : N) : CacheKeyBuilder → CacheKeyBuilder := push_part (lit "off:" ++ show_N n).
Definition raw (part : str) : CacheKeyBuilder → CacheKeyBuilder := push_part (lit "r:" ++ escaped part).

Definition build (b : CacheKeyBuilder) : str := join (lit ":") (parts b).

Definition build_hash (hash_text : str → N) (b : CacheKeyBuilder) : N := hash_text (build b).

(** ** Calls *)

(** One call of the builder. *)
Inductive KeyCall :=
  | Table (name : str)
  | Condition (column value : str)
  | Order (column direction : str)
  | Limit (n : N)
  | Offset (n : N)
  | Raw (part : str).

Definition call (c : KeyCall) : CacheKeyBuilder → CacheKeyBuilder :=
  match c with
  | Table name => table name
  | Condition column value => condition column value
  | Order column direction => order column direction
  | Limit n => limit n
  | Offset n => offset n
  | Raw part => raw part
  end.

Definition key_of (calls : list KeyCall) : str :=
  build (foldl (λ b c, call c b) CacheKeyBuilder_new calls).

(** A call's part as a tag or column, the separator after it, and what follows. *)
Definition tagged (c : KeyCall) : str * char * str :=
  match c with
  | Table name => (lit "t", 58%N, escaped name)
  | Condition column value => (column, 61%N, escaped value)
  | Order column direction => (lit "o", 58%N, escaped column ++ 58%N :: escaped direction)
  | Limit n => (lit "l", 58%N, show_N n)
  | Offset n => (lit "off", 58%N, show_N n)
  | Raw part => (lit "r", 58%N, escaped part)
  end.

Definition part_of (c : KeyCall) : str := escaped (tagged c).1.1 ++ (tagged c).1.2 :: (tagged c).2.

Lemma key_of_parts calls : key_of calls = join (lit ":") (part_of <$> calls).
Proof.
  unfold key_of, build. f_equal.
  assert (∀ b, parts (foldl (λ b c, call c b) b calls) = parts b ++ (part_of <$> calls)) as H; [|by rewrite H].
  induction calls as [|c calls IH]; intros b; cbn; [by rewrite app_nil_r|].
  rewrite IH. destruct c; cbn; by rewrite <- app_assoc.
Qed.

(** What may follow an escaped text in a key. *)
Definition at_separator (s : str) : Prop :=
  match s with [] => True | c :: _ => c = 58%N ∨ c = 61%N end.

Lemma escaped_cons c s :
  escaped (c :: s) = (if is_separator c then [92%N; c] else [c]) ++ escaped s.
Proof. done. Qed.

Lemma separated_escaped c a s t : at_separator s → s ≠ escaped (c :: a) ++ t.
Proof.
  intros Hs ->. rewrite escaped_cons in Hs. destruct (is_separator c) eqn:Ec; cbn in Hs; [by destruct Hs|].
  by destruct Hs as [->| ->].
Qed.

Lemma escaped_inj a b s t :
  at_separator s → at_separator t → escaped a ++ s = escaped b ++ t → a = b ∧ s = t.
Proof.
  revert b. induction a as [|c a IH]; intros [|d b] Hs Ht Heq.
  - done.
  - by apply separated_escaped in Heq.
  - symmetry in Heq. by apply separated_escaped in Heq.
  - rewrite !escaped_cons, <- !app_assoc in Heq.
    assert (c = d ∧ escaped a ++ s = escaped b ++ t) as [-> Htl].
    { destruct (is_separator c) eqn:Ec, (is_separator d) eqn:Ed; cbn in Heq; injection Heq.
      - by intros ? ->.
      - intros _ <-. done.
      - intros _ ->. done.
      - by intros ? ->. }
    by destruct (IH b Hs Ht Htl) as [-> ->].
Qed.

Lemma show_N_escaped n : escaped (show_N n) = show_N n.
Proof.
  destruct (show_N_spec n) as (_ & Hd & _). unfold escaped. induction Hd as [|c ds Hc _ IH]; [done|].
  cbn. rewrite IH. unfold is_ascii_digit in Hc. unfold is_separator.
  by replace ((c =? 92)%N || (c =? 58)%N || (c =? 61)%N) with false by lia.
Qed.

Lemma show_N_inj n k : show_N n = show_N k → n = k.
Proof.
  intros Heq. destruct (show_N_spec n) as (_ & _ & <-), (show_N_spec k) as (_ & _ & <-). by rewrite Heq.
Qed.

(** A part ends where the next begins. *)
Lemma part_inj c d s t :
  at_separator s → at_separator t →
  part_of c ++ s = part_of d ++ t → c = d ∧ s = t.
Proof.
  intros Hs Ht Heq. unfold part_of in Heq. rewrite <- !app_assoc in Heq. cbn in Heq.
  apply escaped_inj in Heq as [Htag Heq];
    [|destruct c; cbn; auto|destruct d; cbn; auto].
  destruct c, d; cbn [tagged fst snd] in Htag, Heq; try done; injection Heq as Heq; subst; try done.
  all: rewrite <- ?app_assoc in Heq.
  all: try (apply escaped_inj in Heq as [-> ->]; done).
  - cbn in Heq. apply escaped_inj in Heq as [-> Heq]; [|by left|by left].
    injection Heq as Heq. by apply escaped_inj in Heq as [-> ->].
  - rewrite <- (show_N_escaped n), <- (show_N_escaped n0) in Heq.
    by apply escaped_inj in Heq as [->%show_N_inj ->].
  - rewrite <- (show_N_escaped n), <- (show_N_escaped n0) in Heq.
    by apply escaped_inj in Heq as [->%show_N_inj ->].
Qed.

Lemma part_nonempty c : part_of c ≠ [].
Proof. unfold part_of. by destruct (escaped _). Qed.

Lemma join_tail sep p ps : join sep (p :: ps) = p ++ match ps with [] => [] | _ => sep ++ join sep ps end.
Proof. destruct ps; cbn; [by rewrite app_nil_r|done]. Qed.

(** C27: two different sequences of calls of the key builder never build one key; whatever
    separators and backslashes the names and values hold, the key tells which calls
    made it, in what order and with what texts. *)
Theorem cache_keys_are_injective calls calls' : key_of calls = key_of calls' ↔ calls = calls'.
Proof.
  split; [|by intros ->]. rewrite !key_of_parts. revert calls'.
  induction calls as [|c calls IH]; intros [|d calls']; [done|..].
  - cbn [fmap list_fmap]. rewrite join_tail. cbn. intros Heq. symmetry in Heq.
    by apply app_eq_nil in Heq as [?%part_nonempty _].
  - cbn [fmap list_fmap]. rewrite join_tail. cbn. intros Heq. by apply app_eq_nil in Heq as [?%part_nonempty _].
  - cbn [fmap list_fmap]. rewrite !join_tail. intros Heq. apply part_inj in Heq as [-> Heq].
    + f_equal. apply IH. destruct (part_of <$> calls), (part_of <$> calls'); try done. by apply (app_inv_head (lit ":")).
    + destruct calls; [done|by left].
    + destruct calls'; [done|by left].
Qed.

(** The builder's own example. *)
Example separators_stay_apart :
  key_of [Table (lit "users"); Condition (lit "name") (lit "a:o:id:ASC")]
  = lit "t:users:name=a\:o\:id\:ASC" ∧
  key_of [Table (lit "users"); Condition (lit "name") (lit "a"); Order (lit "id") (lit "ASC"); Limit 10]
  = lit "t:users:name=a:o:id:ASC:l:10".
Proof. by vm_compute. Qed.
