(* ===== verification/FullText.v ===== *)
(** * Full-text search input (src/src/internal/sql_safety/fulltext.rs)

    What a user types into a search, rewritten into queries that PostgreSQL's tsquery
    reader, SQLite's FTS5 and MySQL's boolean parser read as terms and not as syntax
    of their own. *)

From S2P Require Import Prelude Dialect.
Local Open Scope tide_scope.

Abbreviation c_dquote := 34%N (only parsing).
Abbreviation c_quote := 39%N (only parsing).
Abbreviation c_minus := 45%N (only parsing).
Abbreviation c_star := 42%N (only parsing).

Section FullText.
Context `{Unicode}.

(** ** Segments *)

Record SearchSegment := mkSegment { text : str; quoted : bool; operator : option char }.

Definition excluded (s : SearchSegment) : bool :=
  if quoted s then bool_decide (operator s = Some c_minus)
  else starts_with [c_minus] (text s).

Definition is_boolean_operator (ch : char) : bool := existsb (N.eqb ch) (lit "+-~<>").

Definition flush_segment (segments : list SearchSegment) (current : str) (is_quoted : bool)
    (op : option char) : list SearchSegment :=
  match trim current with
  | [] => segments
  | trimmed => segments ++ [mkSegment trimmed is_quoted op]
  end.

(** The loop of [split_search_segments] over the characters left. *)
Fixpoint split_loop (chars current : str) (in_quotes : bool) (op : option char)
    (segments : list SearchSegment) : list SearchSegment :=
  match chars with
  | [] => flush_segment segments current in_quotes op
  | ch :: chars =>
      if (ch =? c_dquote)%N then
        if in_quotes
        then split_loop chars [] false None (flush_segment segments current true op)
        else
          let pending := trim current in
          let op := if forallb is_boolean_operator pending then list.last pending else None in
          split_loop chars [] true op
            (match op with Some _ => segments | None => flush_segment segments current false None end)
      else if is_whitespace ch && negb in_quotes
      then split_loop chars [] in_quotes op (flush_segment segments current false None)
      else split_loop chars (current ++ [ch]) in_quotes op segments
  end.

Definition split_search_segments (input : str) : list SearchSegment := split_loop input [] false None [].

Definition has_searchable_char (s : str) : bool := existsb is_alphanumeric s.

Definition search_words (input : str) : list str :=
  List.filter has_searchable_char (split_by (λ ch, is_whitespace ch || (ch =? c_dquote)%N) input).

(** ** PostgreSQL *)

Definition lexeme_char (ch : char) : bool := is_alphanumeric ch || (ch =? 95)%N || (ch =? c_quote)%N.

Fixpoint lexemes_loop (chars current : str) (lexemes : list str) : list str :=
  match chars with
  | [] => match current with [] => lexemes | _ => lexemes ++ [current] end
  | ch :: chars =>
      if lexeme_char ch then lexemes_loop chars (current ++ [ch]) lexemes
      else match current with
           | [] => lexemes_loop chars [] lexemes
           | _ => lexemes_loop chars [] (lexemes ++ [current])
           end
  end.

Definition extract_postgres_lexemes (input : str) : list str :=
  List.filter has_searchable_char (lexemes_loop input [] []).

Definition format_postgres_lexeme (prefix : bool) (lexeme : str) : str :=
  c_quote :: replace_char c_quote [c_quote; c_quote] lexeme
  ++ (if prefix then lit "':*" else lit "'").

Definition postgres_tsquery_phrases (input : str) (prefix : bool) (joiner : bool → str)
    : list (str * bool) :=
  omap (λ segment,
    let lexemes := format_postgres_lexeme prefix <$> extract_postgres_lexemes (text segment) in
    match lexemes with
    | [] => None
    | [lexeme] => Some (lexeme, excluded segment)
    | _ => Some (lit "(" ++ join (joiner (quoted segment)) lexemes ++ lit ")", excluded segment)
    end) (split_search_segments input).

Definition phrase_or_and (is_quoted : bool) : str := if is_quoted then lit " <-> " else lit " & ".

Definition sanitize_postgres_tsquery_literals (input : str) (prefix : bool) : str :=
  join (lit " & ") (postgres_tsquery_phrases input prefix phrase_or_and).*1.

Definition POSTGRES_PROXIMITY_LIMIT : N := 64.

Definition proximity_within (distance : N) (left_ right_ : str) : str :=
  lit "(" ++
  join (lit " | ")
    (seq 1 (N.to_nat (N.max 1 (N.min distance POSTGRES_PROXIMITY_LIMIT))) ≫= λ apart,
       let apart := lit " <" ++ show_N (N.of_nat apart) ++ lit "> " in
       [left_ ++ apart ++ right_; right_ ++ apart ++ left_])
  ++ lit ")".

(** [windows(2)]. *)
Definition neighbours {A} (l : list A) : list (A * A) := zip l (tail l).

Definition sanitize_postgres_proximity_tsquery_literals (input : str) (distance : N) : str :=
  let phrases := (postgres_tsquery_phrases input false (λ _, lit " <-> ")).*1 in
  if length phrases <? 2 then concat phrases
  else join (lit " & ") ((λ '(l, r), proximity_within distance l r) <$> neighbours phrases).

Definition sanitize_postgres_boolean_tsquery (input : str) : str :=
  join (lit " & ")
    ((λ '(phrase, is_excluded), if (is_excluded : bool) then lit "!" ++ phrase else phrase)
     <$> postgres_tsquery_phrases input false phrase_or_and).

(** ** FTS5 *)

Definition double_quoted (s : str) : str :=
  c_dquote :: replace_char c_dquote [c_dquote; c_dquote] s ++ [c_dquote].

Definition searchable_segments (input : str) : list SearchSegment :=
  List.filter (λ s, has_searchable_char (text s)) (split_search_segments input).

Definition escape_fts5_query_literal_terms (input : str) : str :=
  join (lit " ") (double_quoted ∘ text <$> searchable_segments input).

Definition fts5_boolean_query (input : str) : str :=
  let segments := searchable_segments input in
  let is_excluded := List.filter excluded segments in
  let included := List.filter (λ s, negb (excluded s)) segments in
  match included with
  | [] => []
  | _ =>
      lit "(" ++ join (lit " AND ") (double_quoted ∘ text <$> included) ++ lit ")"
      ++ (is_excluded ≫= λ s, lit " NOT " ++ double_quoted (text s))
  end.

Definition fts5_phrase_query (input : str) : str :=
  match search_words input with
  | [] => []
  | words => double_quoted (join (lit " ") words)
  end.

Definition fts5_prefix_query (input : str) : str :=
  join (lit " ") ((λ word, double_quoted word ++ lit "*") <$> search_words input).

Definition fts5_near_query (input : str) (distance : N) : str :=
  match double_quoted <$> search_words input with
  | [] => []
  | [word] => word
  | words => lit "NEAR(" ++ join (lit " ") words ++ lit ", " ++ show_N distance ++ lit ")"
  end.

(** ** MySQL *)

Definition MYSQL_FULLTEXT_OPERATORS : str := [43; 45; 60; 62; 40; 41; 126; 42; 34; 64]%N.

Definition is_mysql_operator (ch : char) : bool := existsb (N.eqb ch) MYSQL_FULLTEXT_OPERATORS.

Definition mysql_word_list (s : str) : list str :=
  List.filter has_searchable_char (split_by (λ ch, is_whitespace ch || is_mysql_operator ch) s).

Definition mysql_fulltext_words (s : str) : str := join (lit " ") (mysql_word_list s).

Definition mysql_term (segment : SearchSegment) : option str :=
  if quoted segment then
    let phrase := replace_char c_dquote (lit " ") (text segment) in
    if has_searchable_char phrase
    then Some (option_list (operator segment) ++ c_dquote :: trim phrase ++ [c_dquote])
    else None
  else
    let op := match head (text segment) with
              | Some ch => if is_boolean_operator ch then Some ch else None
              | None => None
              end in
    let words := mysql_fulltext_words (text segment) in
    match words with
    | [] => None
    | _ => Some (option_list op ++ words ++ (if ends_with [c_star] (text segment) then [c_star] else []))
    end.

Definition sanitize_mysql_fulltext_query (input : str) (boolean : bool) : str :=
  if negb boolean then mysql_fulltext_words input
  else join (lit " ") (omap mysql_term (split_search_segments input)).
End FullText.

(** ** Queries as a server reads them *)

(** A query in pieces: quoted terms, and what stands between them. *)
Inductive Piece := Quoted (s : str) | Op (s : str).

Definition render_piece (q : char) (p : Piece) : str :=
  match p with Quoted s => q :: replace_char q [q; q] s ++ [q] | Op s => s end.

Definition render (q : char) (ps : list Piece) : str := ps ≫= render_piece q.

(** What a server sees: the terms between its quotes, a doubled quote being one of their
    characters, and every character outside; none where a quote is left open.
    [inside] is the term being read. *)
Fixpoint outline (q : char) (s : str) (inside : option str) : option (list (str + char)) :=
  match s with
  | [] => match inside with None => Some [] | Some _ => None end
  | c :: s =>
      match inside with
      | None => if (c =? q)%N then outline q s (Some []) else cons (inr c) <$> outline q s None
      | Some acc =>
          if (c =? q)%N then
            match s with
            | d :: s' => if (d =? q)%N then outline q s' (Some (acc ++ [q]))
                         else cons (inl acc) <$> outline q s None
            | [] => Some [inl acc]
            end
          else outline q s (Some (acc ++ [c]))
      end
  end.

Definition seen_piece (p : Piece) : list (str + char) :=
  match p with Quoted s => [inl s] | Op s => inr <$> s end.

Definition seen (ps : list Piece) : list (str + char) := ps ≫= seen_piece.

Definition terms (ps : list Piece) : list str :=
  omap (λ p, match p with Quoted s => Some s | Op _ => None end) ps.

(** No two terms touch, and nothing between them holds a quote. *)
Fixpoint separated (q : char) (ps : list Piece) : Prop :=
  match ps with
  | [] => True
  | Quoted _ :: rest => match rest with Quoted _ :: _ => False | _ => True end ∧ separated q rest
  | Op o :: rest => o ≠ [] ∧ q ∉ o ∧ separated q rest
  end.

(** A server reads [out] as [ps], and only the operators [ops] are outside its terms. *)
Definition reads_as (q : char) (ops : str → Prop) (out : str) (ps : list Piece) : Prop :=
  outline q out None = Some (seen ps) ∧ Forall (λ p, match p with Op o => ops o | _ => True end) ps.

Lemma render_cons q p ps : render q (p :: ps) = render_piece q p ++ render q ps.
Proof. done. Qed.

Lemma render_app q ps qs : render q (ps ++ qs) = render q ps ++ render q qs.
Proof. apply bind_app. Qed.

Lemma replace_char_cons q b c s :
  replace_char q b (c :: s) = (if (c =? q)%N then b else [c]) ++ replace_char q b s.
Proof. done. Qed.

Lemma outline_quoted q s acc rest :
  head rest ≠ Some q →
  outline q (replace_char q [q; q] s ++ q :: rest) (Some acc) = cons (inl (acc ++ s)) <$> outline q rest None.
Proof.
  intros Hr. revert acc. induction s as [|c s IH]; intros acc.
  - cbn. rewrite N.eqb_refl, app_nil_r. destruct rest as [|d rest]; [done|].
    destruct (N.eqb_spec d q) as [->|_]; [by destruct Hr|done].
  - rewrite replace_char_cons. destruct (N.eqb_spec c q) as [->|Hne]; cbn.
    + rewrite !N.eqb_refl. rewrite IH, <- app_assoc. done.
    + apply N.eqb_neq in Hne. rewrite Hne, IH, <- app_assoc. done.
Qed.

Lemma outline_op q o rest :
  q ∉ o → outline q (o ++ rest) None = app (inr <$> o) <$> outline q rest None.
Proof.
  intros Ho. induction o as [|c o IH]; cbn; [by destruct (outline q rest None)|].
  destruct (N.eqb_spec c q) as [->|_]; [set_solver|]. rewrite IH by set_solver.
  by destruct (outline q rest None).
Qed.

Lemma outline_render q ps : separated q ps → outline q (render q ps) None = Some (seen ps).
Proof.
  induction ps as [|[s|o] ps IH]; [done|..]; cbn [separated].
  - intros [Hnext Hsep]. rewrite render_cons. cbn [render_piece outline app]. rewrite N.eqb_refl, <- app_assoc.
    cbn [app]. rewrite outline_quoted; [by rewrite IH|].
    destruct ps as [|[s'|o'] ps]; [done|done|]. cbn in Hsep. destruct Hsep as (Hne & Hni & _).
    destruct o' as [|c o']; [done|]. cbn. intros [= ->]. set_solver.
  - intros (Hne & Hni & Hsep). rewrite render_cons. cbn [render_piece]. by rewrite outline_op, IH.
Qed.

(** *** Putting pieces together *)

Fixpoint between (sep : list Piece) (parts : list (list Piece)) : list Piece :=
  match parts with
  | [] => []
  | [p] => p
  | p :: parts => p ++ sep ++ between sep parts
  end.

Lemma between_cons sep p p' parts : between sep (p :: p' :: parts) = p ++ sep ++ between sep (p' :: parts).
Proof. done. Qed.

Lemma render_between q o parts :
  render q (between [Op o] parts) = join o (render q <$> parts).
Proof.
  induction parts as [|p parts IH]; [done|]. destruct parts as [|p' parts]; [done|].
  rewrite between_cons, !render_app, IH. cbn. by rewrite app_nil_r.
Qed.

Lemma separated_op q ps o qs :
  separated q ps → o ≠ [] → q ∉ o → separated q qs → separated q (ps ++ Op o :: qs).
Proof.
  intros Hps Ho Hq Hqs. induction ps as [|[s|o'] ps IH]; cbn in *; [done|..].
  - destruct Hps as [Hn Hps]. split; [|by apply IH]. by destruct ps as [|[]].
  - destruct Hps as (? & ? & ?). auto.
Qed.

Lemma separated_between q o parts :
  o ≠ [] → q ∉ o → Forall (separated q) parts → separated q (between [Op o] parts).
Proof.
  intros Ho Hq. induction 1 as [|p parts Hp Hparts IH]; [done|]. destruct parts as [|p' parts]; [done|].
  rewrite between_cons. by apply separated_op.
Qed.

Lemma terms_app ps qs : terms (ps ++ qs) = terms ps ++ terms qs.
Proof. apply omap_app. Qed.

Lemma terms_between o parts : terms (between [Op o] parts) = parts ≫= terms.
Proof.
  induction parts as [|p parts IH]; [done|]. destruct parts as [|p' parts]; [cbn; by rewrite app_nil_r|].
  rewrite between_cons, !terms_app, IH. done.
Qed.

Lemma between_ops (P : Piece → Prop) o parts :
  P (Op o) → Forall (Forall P) parts → Forall P (between [Op o] parts).
Proof.
  intros Ho. induction 1 as [|p parts Hp Hparts IH]; [constructor|]. destruct parts as [|p' parts]; [done|].
  rewrite between_cons. apply Forall_app. split; [done|]. by constructor.
Qed.

(** A character of a literal. *)
Ltac literal := apply (bool_decide_unpack _); vm_compute; exact I.

Lemma show_N_no n c : is_ascii_digit c = false → c ∉ show_N n.
Proof.
  intros Hc Hin. destruct (show_N_spec n) as (_ & Hd & _). rewrite list.Forall_forall in Hd.
  specialize (Hd _ Hin). congruence.
Qed.

(** Terms with one operator between them. *)
Definition spaced (o : str) (suffix : list Piece) (ss : list str) : list Piece :=
  between [Op o] ((λ s, Quoted s :: suffix) <$> ss).

Lemma spaced_terms o suffix ss : terms suffix = [] → terms (spaced o suffix ss) = ss.
Proof.
  intros Hs. unfold spaced. rewrite terms_between. induction ss as [|s ss IH]; [done|].
  rewrite fmap_cons, bind_cons, IH. cbn. fold (terms suffix). by rewrite Hs.
Qed.

Lemma spaced_separated q o suffix ss :
  o ≠ [] → q ∉ o → separated q suffix → match suffix with Quoted _ :: _ => False | _ => True end →
  separated q (spaced o suffix ss).
Proof.
  intros Ho Hq Hs Hn. apply separated_between; [done..|]. apply List.Forall_map, Forall_true.
  intros s. by split.
Qed.

Lemma spaced_ops (P : str → Prop) o suffix ss :
  P o → Forall (λ p, match p with Op o => P o | _ => True end) suffix →
  Forall (λ p, match p with Op o => P o | _ => True end) (spaced o suffix ss).
Proof. intros Ho Hs. apply between_ops; [done|]. apply List.Forall_map, Forall_true. intros s. by constructor. Qed.

Lemma spaced_render q o suffix ss :
  render q (spaced o suffix ss) = join o ((λ s, q :: replace_char q [q; q] s ++ q :: render q suffix) <$> ss).
Proof.
  unfold spaced. rewrite render_between, <- list_fmap_compose. f_equal. apply list_fmap_ext.
  intros i s _. cbn [compose]. rewrite render_cons. cbn [render_piece app]. by rewrite <- app_assoc.
Qed.

Lemma reads_as_intro q (P : str → Prop) ps :
  separated q ps → Forall (λ p, match p with Op o => P o | _ => True end) ps → reads_as q P (render q ps) ps.
Proof. intros Hs Hp. split; [by apply outline_render|done]. Qed.

(** ** FTS5 *)

Section Reading.
Context `{Unicode}.

Definition fts5_terms (ss : list str) : list Piece := spaced (lit " ") [] ss.

Definition fts5_boolean_pieces (included excluded : list str) : list Piece :=
  Op (lit "(") :: spaced (lit " AND ") [] included
  ++ Op (lit ")") :: (excluded ≫= λ s, [Op (lit " NOT "); Quoted s]).

Definition fts5_near_pieces (distance : N) (ss : list str) : list Piece :=
  match ss with
  | [] => []
  | [s] => [Quoted s]
  | _ => Op (lit "NEAR(") :: spaced (lit " ") [] ss ++ [Op (lit ", " ++ show_N distance ++ lit ")")]
  end.

Lemma spaced_double_quoted o ss :
  render c_dquote (spaced o [] ss) = join o (double_quoted <$> ss).
Proof. apply spaced_render. Qed.

Lemma fts5_boolean_reads included excluded :
  separated c_dquote (fts5_boolean_pieces included excluded) ∧
  Forall (λ p, match p with Op o => o ∈ [lit "("; lit ")"; lit " AND "; lit " NOT "] | _ => True end)
    (fts5_boolean_pieces included excluded) ∧
  terms (fts5_boolean_pieces included excluded) = included ++ excluded ∧
  render c_dquote (fts5_boolean_pieces included excluded)
  = lit "(" ++ join (lit " AND ") (double_quoted <$> included) ++ lit ")"
    ++ (excluded ≫= λ s, lit " NOT " ++ double_quoted s).
Proof.
  unfold fts5_boolean_pieces.
  assert (separated c_dquote (excluded ≫= λ s, [Op (lit " NOT "); Quoted s]) ∧
          match excluded ≫= λ s, [Op (lit " NOT "); Quoted s] with Quoted _ :: _ => False | _ => True end ∧
          Forall (λ p, match p with Op o => o ∈ [lit "("; lit ")"; lit " AND "; lit " NOT "] | _ => True end)
            (excluded ≫= λ s, [Op (lit " NOT "); Quoted s]) ∧
          terms (excluded ≫= λ s, [Op (lit " NOT "); Quoted s]) = excluded ∧
          render c_dquote (excluded ≫= λ s, [Op (lit " NOT "); Quoted s])
          = excluded ≫= λ s, lit " NOT " ++ double_quoted s) as (Hs & _ & Ho & Ht & Hr).
  { induction excluded as [|s ss (Hs & Hn & Ho & Ht & Hr)]; [done|]. rewrite !bind_cons.
    set (rest := ss ≫= _) in *. split_and!.
    - cbn [separated app]. split_and!; [done|literal|done|done].
    - done.
    - constructor; [literal|]. by constructor.
    - cbn. f_equal. exact Ht.
    - rewrite render_app, Hr. f_equal. rewrite !render_cons. cbn [render mbind list_bind render_piece].
      by rewrite app_nil_r. }
  split_and!.
  - cbn [separated]. split_and!; [done|literal|]. apply separated_op; [|done|literal|done].
    by apply spaced_separated; [|literal|..].
  - constructor; [literal|]. apply Forall_app. split; [|constructor; [literal|done]].
    apply spaced_ops; [literal|constructor].
  - cbn [terms omap list_omap]. fold (terms (spaced (lit " AND ") [] included ++ Op (lit ")") :: (excluded ≫= λ s, [Op (lit " NOT "); Quoted s]))).
    rewrite terms_app, spaced_terms by done. f_equal. exact Ht.
  - rewrite render_cons, render_app, render_cons, spaced_double_quoted, Hr. done.
Qed.

Lemma fts5_near_reads distance ss :
  separated c_dquote (fts5_near_pieces distance ss) ∧
  Forall (λ p, match p with
               | Op o => o ∈ [lit "NEAR("; lit " "; lit ", " ++ show_N distance ++ lit ")"]
               | _ => True
               end) (fts5_near_pieces distance ss) ∧
  terms (fts5_near_pieces distance ss) = ss.
Proof.
  unfold fts5_near_pieces. destruct ss as [|s [|s' ss]]; [done|by split_and!; [..|constructor|]|].
  set (l := s :: s' :: ss). split_and!.
  - cbn [separated]. split_and!; [done|literal|]. apply separated_op; [|done| |done].
    + by apply spaced_separated; [|literal|..].
    + rewrite !not_elem_of_app. split_and!; [literal|by apply show_N_no|literal].
  - constructor; [by left|]. apply Forall_app. split; [|constructor; [|constructor]].
    + apply spaced_ops; [by right; left|constructor].
    + by right; right; left.
  - cbn [terms omap list_omap]. fold (terms (spaced (lit " ") [] l ++ [Op (lit ", " ++ show_N distance ++ lit ")")])).
    rewrite terms_app, spaced_terms by done. by rewrite app_nil_r.
Qed.

(** ** tsquery *)

(** The operators a tsquery is given between its lexemes. *)
Definition tsquery_op (o : str) : Prop :=
  o ∈ [lit " & "; lit " <-> "; lit "("; lit ")"; lit ":*"; lit "!"; lit " | "]
  ∨ ∃ n, o = lit " <" ++ show_N n ++ lit "> ".

Definition only_tsquery_ops : list Piece → Prop :=
  Forall (λ p, match p with Op o => tsquery_op o | _ => True end).

Definition well_read (ps : list Piece) : Prop := separated c_quote ps ∧ only_tsquery_ops ps.

Lemma tsquery_op_no_quote o : tsquery_op o → o ≠ [] ∧ c_quote ∉ o.
Proof.
  intros [Ho|[n ->]].
  - repeat (apply elem_of_cons in Ho as [->|Ho]; [split; [done|literal]|]). by apply elem_of_nil in Ho.
  - split; [done|]. rewrite !not_elem_of_app. split_and!; [literal|by apply show_N_no|literal].
Qed.

Lemma well_read_op ps o qs : well_read ps → tsquery_op o → well_read qs → well_read (ps ++ Op o :: qs).
Proof.
  intros [Hps Hp] Ho [Hqs Hq]. destruct (tsquery_op_no_quote o Ho) as [Hne Hni]. split.
  - by apply separated_op.
  - apply Forall_app. split; [done|by constructor].
Qed.

Lemma well_read_between o parts : tsquery_op o → Forall well_read parts → well_read (between [Op o] parts).
Proof.
  intros Ho. induction 1 as [|p parts Hp Hparts IH]; [by split; [|constructor]|].
  destruct parts as [|p' parts]; [done|]. rewrite between_cons. by apply well_read_op.
Qed.

Lemma well_read_nil : well_read [].
Proof. split; [done|constructor]. Qed.

(** [(ps)]. *)
Lemma well_read_parens ps : well_read ps → well_read (Op (lit "(") :: ps ++ [Op (lit ")")]).
Proof.
  intros Hps. apply (well_read_op [] (lit "(")); [apply well_read_nil|left; literal|].
  apply well_read_op; [done|left; literal|apply well_read_nil].
Qed.

Definition lexeme_pieces (prefix : bool) (l : str) : list Piece :=
  Quoted l :: (if prefix then [Op (lit ":*")] else []).

Definition phrase_of (prefix : bool) (joiner : str) (ls : list str) : list Piece :=
  match ls with
  | [l] => lexeme_pieces prefix l
  | _ => Op (lit "(") :: between [Op joiner] (lexeme_pieces prefix <$> ls) ++ [Op (lit ")")]
  end.

Definition phrase_pieces (input : str) (prefix : bool) (joiner : bool → str) : list (list Piece * bool) :=
  omap (λ segment,
    match extract_postgres_lexemes (text segment) with
    | [] => None
    | ls => Some (phrase_of prefix (joiner (quoted segment)) ls, excluded segment)
    end) (split_search_segments input).

(** The lexemes of an input, segment by segment. *)
Definition lexemes_of (input : str) : list str :=
  split_search_segments input ≫= (extract_postgres_lexemes ∘ text).

Lemma lexeme_render prefix l : render c_quote (lexeme_pieces prefix l) = format_postgres_lexeme prefix l.
Proof.
  unfold lexeme_pieces, format_postgres_lexeme. rewrite render_cons. destruct prefix; cbn [render_piece];
    rewrite <- app_comm_cons, <- app_assoc; done.
Qed.

Lemma phrase_render prefix joiner ls :
  ls ≠ [] →
  render c_quote (phrase_of prefix joiner ls)
  = match format_postgres_lexeme prefix <$> ls with
    | [lexeme] => lexeme
    | lexemes => lit "(" ++ join joiner lexemes ++ lit ")"
    end.
Proof.
  intros Hne. destruct ls as [|l [|l' ls]]; [done|apply lexeme_render|].
  unfold phrase_of. rewrite render_cons, render_app, render_between, <- list_fmap_compose.
  cbn [render_piece].
  rewrite (list_fmap_ext (render c_quote ∘ lexeme_pieces prefix) (format_postgres_lexeme prefix))
    by (intros; apply lexeme_render).
  by rewrite render_cons, app_nil_r.
Qed.

Lemma phrases_render input prefix joiner :
  postgres_tsquery_phrases input prefix joiner
  = (λ '(ps, e), (render c_quote ps, e)) <$> phrase_pieces input prefix joiner.
Proof.
  unfold postgres_tsquery_phrases, phrase_pieces.
  induction (split_search_segments input) as [|segment segments IH]; [done|]. rewrite !omap_step.
  pose proof (phrase_render prefix (joiner (quoted segment)) (extract_postgres_lexemes (text segment))) as Hr.
  destruct (extract_postgres_lexemes (text segment)) as [|l ls]; [exact IH|].
  refine (eq_trans _ (eq_sym (fmap_cons _ _ _))). rewrite <- IH, Hr by done. by destruct ls as [|l' ls].
Qed.

Lemma lexeme_well_read prefix l : well_read (lexeme_pieces prefix l).
Proof.
  unfold lexeme_pieces. destruct prefix; (split; [|by repeat constructor; left; literal]).
  - cbn. split_and!; [done|done|literal|done].
  - done.
Qed.

Lemma phrase_well_read prefix joiner ls : tsquery_op joiner → well_read (phrase_of prefix joiner ls).
Proof.
  intros Hj. assert (well_read (Op (lit "(") :: between [Op joiner] (lexeme_pieces prefix <$> ls) ++ [Op (lit ")")])) as Hw.
  { apply well_read_parens, well_read_between; [done|]. apply List.Forall_map, Forall_true, lexeme_well_read. }
  destruct ls as [|l [|l' ls]]; [exact Hw|apply lexeme_well_read|exact Hw].
Qed.

Lemma phrase_terms prefix joiner ls : terms (phrase_of prefix joiner ls) = ls.
Proof.
  assert (∀ l, terms (lexeme_pieces prefix l) = [l]) as Hl by by intros; destruct prefix.
  assert (terms (Op (lit "(") :: between [Op joiner] (lexeme_pieces prefix <$> ls) ++ [Op (lit ")")]) = ls) as Hw.
  { change (terms (Op (lit "(") :: ?ps)) with (terms ps). cbn [terms omap list_omap].
    fold (terms (between [Op joiner] (lexeme_pieces prefix <$> ls) ++ [Op (lit ")")])).
    rewrite terms_app, terms_between. cbn. rewrite app_nil_r.
    induction ls as [|l ls IH]; [done|]. rewrite fmap_cons, bind_cons, IH, Hl. done. }
  destruct ls as [|l [|l' ls]]; [exact Hw|apply Hl|exact Hw].
Qed.

Lemma phrase_pieces_spec input prefix joiner :
  (∀ b, tsquery_op (joiner b)) →
  Forall well_read (phrase_pieces input prefix joiner).*1 ∧
  (phrase_pieces input prefix joiner).*1 ≫= terms = lexemes_of input.
Proof.
  intros Hj. unfold phrase_pieces, lexemes_of.
  induction (split_search_segments input) as [|segment segments [IH1 IH2]]; [done|].
  rewrite omap_step, bind_cons. cbn [compose].
  destruct (extract_postgres_lexemes (text segment)) as [|l ls]; [done|].
  rewrite fmap_cons, bind_cons, IH2. cbn [fst]. rewrite phrase_terms.
  split; [constructor; [by apply phrase_well_read|done]|done].
Qed.

Lemma lexemes_loop_chars chars current lexemes :
  Forall (Forall (λ c, lexeme_char c = true)) lexemes → Forall (λ c, lexeme_char c = true) current →
  Forall (Forall (λ c, lexeme_char c = true)) (lexemes_loop chars current lexemes).
Proof.
  revert current lexemes. induction chars as [|c chars IH]; intros current lexemes Hl Hc; cbn.
  - destruct current; [done|]. apply Forall_app. split; [done|by constructor].
  - destruct (lexeme_char c) eqn:Ec.
    + apply IH; [done|]. apply Forall_app. split; [done|by constructor].
    + destruct current; apply IH; [done|constructor| |constructor]. apply Forall_app. split; [done|by constructor].
Qed.

Lemma lexemes_of_chars input :
  Forall (λ l, Forall (λ c, lexeme_char c = true) l ∧ has_searchable_char l = true) (lexemes_of input).
Proof.
  unfold lexemes_of. apply Forall_bind, Forall_true. intros segment. cbn. unfold extract_postgres_lexemes.
  apply list.Forall_forall. intros l Hl. apply list_elem_of_In, filter_In in Hl as [Hl ?].
  split; [|done]. assert (Forall (Forall (λ c, lexeme_char c = true)) (lexemes_loop (text segment) [] [])) as Hall.
  { by apply lexemes_loop_chars. }
  rewrite list.Forall_forall in Hall. by apply Hall, list_elem_of_In.
Qed.

(** One proximity pair, in pieces. *)
Definition within_pieces (distance : N) (l r : list Piece) : list Piece :=
  Op (lit "(") ::
  between [Op (lit " | ")]
    (seq 1 (N.to_nat (N.max 1 (N.min distance POSTGRES_PROXIMITY_LIMIT))) ≫= λ apart,
       let apart := Op (lit " <" ++ show_N (N.of_nat apart) ++ lit "> ") in
       [l ++ apart :: r; r ++ apart :: l])
  ++ [Op (lit ")")].

Lemma within_spec distance l r :
  well_read l → well_read r →
  well_read (within_pieces distance l r)
  ∧ render c_quote (within_pieces distance l r) = proximity_within distance (render c_quote l) (render c_quote r)
  ∧ ∀ t, t ∈ terms (within_pieces distance l r) → t ∈ terms l ∨ t ∈ terms r.
Proof.
  intros Hl Hr. unfold within_pieces, proximity_within.
  set (apart n := lit " <" ++ show_N (N.of_nat n) ++ lit "> ").
  set (parts := seq _ _ ≫= _). split_and!.
  - apply well_read_parens, well_read_between; [left; literal|]. subst parts.
    apply Forall_bind, Forall_true. intros n. assert (tsquery_op (apart n)) by by right; eexists.
    repeat constructor; by apply well_read_op.
  - rewrite render_cons, render_app, render_between. cbn [render_piece]. do 2 f_equal.
    f_equal. unfold parts. induction (seq _ _) as [|n ns IH]; [done|].
    rewrite !bind_cons, fmap_app, IH. f_equal. cbn [fmap list_fmap]. by rewrite !render_app, !render_cons.
  - intros t. cbn [terms omap list_omap]. fold (terms (between [Op (lit " | ")] parts ++ [Op (lit ")")])).
    rewrite terms_app, terms_between, elem_of_app. intros [Ht|Ht]; [|by apply elem_of_nil in Ht].
    apply list_elem_of_bind in Ht as (part & Ht & Hpart). apply list_elem_of_bind in Hpart as (n & Hpart & _).
    repeat (apply elem_of_cons in Hpart as [->|Hpart]; [rewrite terms_app, elem_of_app in Ht; cbn in Ht; naive_solver|]).
    by apply elem_of_nil in Hpart.
Qed.

Lemma phrase_texts (l : list (list Piece * bool)) :
  ((λ '(ps, e), (render c_quote ps, e)) <$> l).*1 = render c_quote <$> l.*1.
Proof. induction l as [|[ps e] l IH]; [done|]. rewrite !fmap_cons, IH. done. Qed.

(** A phrase a boolean search excludes. *)
Definition negated : list Piece * bool → list Piece := λ '(ps, e), if e then Op (lit "!") :: ps else ps.

Lemma boolean_texts (l : list (list Piece * bool)) :
  (λ '(phrase, e), if (e : bool) then lit "!" ++ phrase else phrase)
    <$> ((λ '(ps, e), (render c_quote ps, e)) <$> l)
  = render c_quote <$> (negated <$> l).
Proof. rewrite <- !list_fmap_compose. apply list_fmap_ext. by intros i [ps []] _. Qed.

Lemma negated_well_read (l : list (list Piece * bool)) : Forall well_read l.*1 → Forall well_read (negated <$> l).
Proof.
  induction l as [|[ps e] l IH]; [done|]. rewrite !fmap_cons, !list.Forall_cons. intros [Hp Hl].
  split; [|auto]. destruct e; [|done]. apply (well_read_op [] (lit "!") ps); [apply well_read_nil|left; literal|done].
Qed.

Lemma negated_terms (l : list (list Piece * bool)) : (negated <$> l) ≫= terms = l.*1 ≫= terms.
Proof.
  induction l as [|[ps e] l IH]; [done|]. rewrite !fmap_cons, !bind_cons. f_equal; [|exact IH]. by destruct e.
Qed.

Lemma proximity_pieces distance (parts : list (list Piece)) :
  Forall well_read parts →
  ∃ pieces, Forall well_read pieces
    ∧ ((λ '(l, r), proximity_within distance l r) <$> neighbours (render c_quote <$> parts)) = render c_quote <$> pieces
    ∧ ∀ t, t ∈ pieces ≫= terms → t ∈ parts ≫= terms.
Proof.
  unfold neighbours. induction 1 as [|p parts Hp Hparts (pieces & Hw & Hr & Hin)].
  { exists []. split_and!; [constructor|done|by intros t ?%elem_of_nil]. }
  destruct Hparts as [|p' parts Hp' Hparts].
  { exists []. split_and!; [constructor|done|by intros t ?%elem_of_nil]. }
  destruct (within_spec distance p p' Hp Hp') as (Hww & Hwr & Hwt).
  exists (within_pieces distance p p' :: pieces). split_and!.
  - by constructor.
  - rewrite (fmap_cons (render c_quote) (within_pieces distance p p')), <- Hr, Hwr. done.
  - intros t. rewrite bind_cons, elem_of_app. intros [Ht|Ht].
    + rewrite !bind_cons, !elem_of_app. apply Hwt in Ht as [?|?]; auto.
    + apply Hin in Ht. rewrite bind_cons, elem_of_app. auto.
Qed.

(** C28: what a user searches for never becomes syntax of a tsquery: PostgreSQL reads the
    query, in every mode, as operators of the mode around quoted lexemes, the
    lexemes being those of the input in order (of it, in a proximity search, which
    pairs them), each of word characters with a letter or a digit; no quote is left
    open whatever was typed. *)
Theorem tsquery_input_is_quoted input prefix distance :
  (∃ ps, reads_as c_quote tsquery_op (sanitize_postgres_tsquery_literals input prefix) ps
         ∧ terms ps = lexemes_of input)
  ∧ (∃ ps, reads_as c_quote tsquery_op (sanitize_postgres_boolean_tsquery input) ps ∧ terms ps = lexemes_of input)
  ∧ (∃ ps, reads_as c_quote tsquery_op (sanitize_postgres_proximity_tsquery_literals input distance) ps
           ∧ ∀ t, t ∈ terms ps → t ∈ lexemes_of input)
  ∧ Forall (λ l, Forall (λ c, lexeme_char c = true) l ∧ has_searchable_char l = true) (lexemes_of input).
Proof.
  assert (∀ b, tsquery_op (phrase_or_and b)) as Hj by (intros []; left; literal).
  assert (∀ (parts : list (list Piece)),
    Forall well_read parts →
    let ps := between [Op (lit " & ")] parts in
    reads_as c_quote tsquery_op (join (lit " & ") (render c_quote <$> parts)) ps
    ∧ terms ps = parts ≫= terms) as Hand.
  { intros parts Hparts ps. rewrite <- render_between. destruct (well_read_between (lit " & ") parts) as [Hs Ho];
      [left; literal|done|]. split; [by apply reads_as_intro|apply terms_between]. }
  split_and!; [| | |apply lexemes_of_chars].
  - destruct (phrase_pieces_spec input prefix phrase_or_and Hj) as [Hw Ht].
    unfold sanitize_postgres_tsquery_literals. rewrite phrases_render, phrase_texts.
    destruct (Hand _ Hw) as [Hr Hps]. eexists. split; [exact Hr|]. by rewrite Hps.
  - destruct (phrase_pieces_spec input false phrase_or_and Hj) as [Hw Ht].
    unfold sanitize_postgres_boolean_tsquery. rewrite phrases_render.
    rewrite boolean_texts. destruct (Hand (negated <$> phrase_pieces input false phrase_or_and)) as [Hr Hps].
    { apply negated_well_read, Hw. }
    eexists. split; [exact Hr|]. rewrite Hps, <- Ht. apply negated_terms.
  - destruct (phrase_pieces_spec input false (λ _, lit " <-> ")) as [Hw Ht]; [intros _; left; literal|].
    unfold sanitize_postgres_proximity_tsquery_literals. rewrite phrases_render, phrase_texts, length_fmap.
    rewrite <- Ht. clear Ht. generalize dependent ((phrase_pieces input false (λ _, lit " <-> ")).*1). intros parts Hw.
    destruct (Nat.ltb_spec (length parts) 2) as [Hlt|Hge].
    + destruct parts as [|p [|p' parts]]; [|..|cbn in Hlt; lia].
      * exists []. split; [by split; [|constructor]|by intros t ?%elem_of_nil].
      * apply list.Forall_cons in Hw as [[Hs Ho] _]. exists p. cbn [concat fmap list_fmap].
        rewrite bind_cons, !app_nil_r. split; [by apply reads_as_intro|done].
    + destruct (proximity_pieces distance parts Hw) as (pieces & Hp & -> & Hin).
      destruct (Hand _ Hp) as [Hr Hps]. eexists. split; [exact Hr|]. rewrite Hps. exact Hin.
Qed.

(** what a user searches for never becomes syntax of FTS5: SQLite reads the query, in
    every mode, as string literals with that mode's operators around them and no
    literal left open; the literals are the searchable segments or words of the
    input, in order, those a boolean search excludes behind the others. *)
Theorem fts5_input_is_quoted input distance :
  (∃ ps, reads_as c_dquote (.= lit " ") (escape_fts5_query_literal_terms input) ps
         ∧ terms ps = text <$> searchable_segments input)
  ∧ (∃ ps, reads_as c_dquote (.∈ [lit "("; lit ")"; lit " AND "; lit " NOT "]) (fts5_boolean_query input) ps
           ∧ terms ps
             = text <$> match List.filter (λ s, negb (excluded s)) (searchable_segments input) with
                        | [] => []
                        | included => included ++ List.filter excluded (searchable_segments input)
                        end)
  ∧ (∃ ps, reads_as c_dquote (λ _, False) (fts5_phrase_query input) ps
           ∧ terms ps = match search_words input with [] => [] | words => [join (lit " ") words] end)
  ∧ (∃ ps, reads_as c_dquote (.∈ [lit "*"; lit " "]) (fts5_prefix_query input) ps
           ∧ terms ps = search_words input)
  ∧ ∃ ps, reads_as c_dquote (.∈ [lit "NEAR("; lit " "; lit ", " ++ show_N distance ++ lit ")"])
            (fts5_near_query input distance) ps
          ∧ terms ps = search_words input.
Proof.
  split_and!.
  - exists (fts5_terms (text <$> searchable_segments input)). unfold fts5_terms.
    split; [|by apply spaced_terms]. unfold escape_fts5_query_literal_terms.
    rewrite list_fmap_compose, <- spaced_double_quoted. apply reads_as_intro.
    + by apply spaced_separated; [|literal|..].
    + by apply spaced_ops; [|constructor].
  - unfold fts5_boolean_query. destruct (List.filter _ _) as [|s ss].
    { exists []. split; [|done]. split; [done|constructor]. }
    set (included := s :: ss). set (left_out := List.filter excluded _).
    destruct (fts5_boolean_reads (text <$> included) (text <$> left_out)) as (Hs & Ho & Ht & Hr).
    eexists. split; [|by rewrite Ht, fmap_app].
    replace (lit "(" ++ _) with (render c_dquote (fts5_boolean_pieces (text <$> included) (text <$> left_out)));
      [by apply reads_as_intro|].
    rewrite Hr, list_fmap_compose. do 3 f_equal. f_equal.
    clear. induction left_out as [|x xs IH]; [done|]. by rewrite fmap_cons, !bind_cons, IH.
  - unfold fts5_phrase_query. destruct (search_words input) as [|w ws].
    + exists []. split; [|done]. split; [done|constructor].
    + exists [Quoted (join (lit " ") (w :: ws))]. split; [|done].
      assert (double_quoted (join (lit " ") (w :: ws)) = render c_dquote [Quoted (join (lit " ") (w :: ws))]) as ->.
      { unfold double_quoted. rewrite render_cons. cbn [render_piece]. by rewrite app_nil_r. }
      apply reads_as_intro; [done|by repeat constructor].
  - exists (spaced (lit " ") [Op (lit "*")] (search_words input)). split; [|by apply spaced_terms].
    unfold fts5_prefix_query.
    assert (join (lit " ") ((λ word, double_quoted word ++ lit "*") <$> search_words input)
            = render c_dquote (spaced (lit " ") [Op (lit "*")] (search_words input))) as ->.
    { rewrite spaced_render. f_equal. apply list_fmap_ext. intros i x _. unfold double_quoted.
      by rewrite <- app_comm_cons, <- app_assoc. }
    apply reads_as_intro.
    + apply spaced_separated; [done|literal| |done]. by split_and!; [|literal|].
    + apply spaced_ops; [by right; left|]. by repeat constructor.
  - destruct (fts5_near_reads distance (search_words input)) as (Hs & Ho & Ht).
    eexists. split; [|exact Ht].
    replace (fts5_near_query input distance)
      with (render c_dquote (fts5_near_pieces distance (search_words input))); [by apply reads_as_intro|].
    unfold fts5_near_query, fts5_near_pieces. destruct (search_words input) as [|w [|w' ws]]; [done|..].
    + rewrite render_cons. cbn. by rewrite app_nil_r.
    + rewrite render_cons, render_app, spaced_double_quoted. cbn [render_piece]. do 2 f_equal.
      rewrite render_cons. cbn [render_piece]. by rewrite app_nil_r.
Qed.
End Reading.

(** ** MySQL *)

Section Operands.
Context `{Unicode}.

Lemma split_by_chars p s w : w ∈ split_by p s → Forall (λ c, p c = false) w.
Proof.
  revert w. induction s as [|c s IH]; intros w; cbn.
  - intros ->%list_elem_of_singleton. constructor.
  - destruct (p c) eqn:Ec.
    + intros [->|Hw]%elem_of_cons; [constructor|auto].
    + destruct (split_by p s) as [|v vs]; [intros ->%list_elem_of_singleton; by repeat constructor|].
      intros [->|Hw]%elem_of_cons; [constructor; [done|apply IH; by left]|apply IH; by right].
Qed.

Lemma join_chars (P : char → Prop) sep parts :
  Forall P sep → Forall (Forall P) parts → Forall P (join sep parts).
Proof.
  intros Hsep. induction 1 as [|p parts Hp Hparts IH]; [constructor|]. destruct parts as [|p' parts]; [done|].
  cbn in *. apply Forall_app. split; [done|]. apply Forall_app. by split.
Qed.

Lemma mysql_words_plain s : Forall (λ c, is_mysql_operator c = false) (mysql_fulltext_words s).
Proof.
  apply join_chars; [by repeat constructor|]. apply list.Forall_forall. intros w Hw.
  apply list_elem_of_In, filter_In in Hw as [Hw _]. apply list_elem_of_In, split_by_chars in Hw.
  eapply Forall_impl; [|exact Hw]. cbn. intros c Hc. by apply orb_false_iff in Hc as [_ ?].
Qed.

Lemma split_loop_operators chars current in_quotes op segments :
  Forall (λ s, ∀ c, operator s = Some c → is_boolean_operator c = true) segments →
  (∀ c, op = Some c → is_boolean_operator c = true) →
  Forall (λ s, ∀ c, operator s = Some c → is_boolean_operator c = true)
    (split_loop chars current in_quotes op segments).
Proof.
  assert (∀ segments current b op,
    Forall (λ s, ∀ c, operator s = Some c → is_boolean_operator c = true) segments →
    (∀ c, op = Some c → is_boolean_operator c = true) →
    Forall (λ s, ∀ c, operator s = Some c → is_boolean_operator c = true) (flush_segment segments current b op)) as Hflush.
  { intros segments0 current0 b op0 Hs Ho. unfold flush_segment. destruct (trim current0); [done|].
    apply Forall_app. split; [done|]. by constructor. }
  revert current in_quotes op segments.
  induction chars as [|c chars IH]; intros current in_quotes op segments Hs Ho; cbn [split_loop]; [by apply Hflush|].
  destruct (c =? c_dquote)%N.
  - destruct in_quotes; [apply IH; [by apply Hflush|done]|].
    set (op' := if forallb _ _ then _ else None).
    assert (∀ d, op' = Some d → is_boolean_operator d = true) as Hop'.
    { intros d. subst op'. destruct (forallb is_boolean_operator (trim current)) eqn:E; [|done].
      intros Hd. rewrite forallb_forall in E. apply E, list_elem_of_In. by apply list.last_Some_elem_of. }
    clearbody op'. apply IH; [|done]. destruct op'; [done|by apply Hflush].
  - destruct (is_whitespace c && negb in_quotes); apply IH; [by apply Hflush|done..].
Qed.

(** One term of a boolean search: a quoted phrase or words, with one operator before it,
    and a star behind words. *)
Definition boolean_term (t : str) : Prop :=
  ∃ op, (∀ c, op = Some c → is_boolean_operator c = true) ∧
  ((∃ phrase, c_dquote ∉ phrase ∧ has_searchable_char phrase = true
              ∧ t = option_list op ++ c_dquote :: trim phrase ++ [c_dquote])
   ∨ ∃ words star, words ≠ [] ∧ Forall (λ c, is_mysql_operator c = false) words
                   ∧ (star = [] ∨ star = [c_star]) ∧ t = option_list op ++ words ++ star).

(** What a user searches for is an operand InnoDB parses: outside boolean mode it holds
    none of the operator characters, and in boolean mode it is a list of terms, each
    with at most an operator before it and a star behind it and no other operator
    character outside a closed pair of quotes. *)
Theorem mysql_input_is_an_operand input :
  Forall (λ c, is_mysql_operator c = false) (sanitize_mysql_fulltext_query input false)
  ∧ ∃ terms, sanitize_mysql_fulltext_query input true = join (lit " ") terms ∧ Forall boolean_term terms.
Proof.
  split; [apply mysql_words_plain|]. eexists. split; [reflexivity|].
  pose proof (split_loop_operators input [] false None []) as Hops. fold (split_search_segments input) in Hops.
  specialize (Hops ltac:(constructor) ltac:(done)).
  induction Hops as [|segment segments Hop _ IH]; [constructor|]. rewrite omap_step.
  destruct (mysql_term segment) as [t|] eqn:Et; [|done]. constructor; [|done]. clear IH. unfold mysql_term in Et.
  destruct (quoted segment).
  - destruct (has_searchable_char _) eqn:Es; [|done]. injection Et as <-. exists (operator segment).
    split; [done|]. left. eexists. split; [|by split].
    unfold replace_char. intros (d & Hd & _)%list_elem_of_bind. destruct (N.eqb_spec d c_dquote); [|set_solver].
    by apply list_elem_of_singleton in Hd.
  - destruct (mysql_fulltext_words (text segment)) as [|c words] eqn:Ew; [done|]. injection Et as <-.
    eexists. split; [|right; eexists (c :: words), _; split_and!; [done| | |reflexivity]].
    + intros d. destruct (head (text segment)) as [x|]; [|done].
      destruct (is_boolean_operator x) eqn:Ex; [by intros [= <-]|done].
    + rewrite <- Ew. apply mysql_words_plain.
    + destruct (ends_with _ _); auto.
Qed.
End Operands.

#[local] Existing Instance ascii_only.

(** An attempt at each grammar. *)
Example searches_are_rewritten :
  sanitize_postgres_tsquery_literals (lit "foo:* & !bar's") true = lit "'foo':* & 'bar" ++ c_quote :: c_quote :: lit "s':*" ∧
  sanitize_postgres_boolean_tsquery (lit "rust -" ++ c_dquote :: lit "java script") = lit "'rust' & !('java' <-> 'script')" ∧
  fts5_boolean_query (lit "rust -java* NEAR(x)")
  = lit "(" ++ double_quoted (lit "rust") ++ lit " AND " ++ double_quoted (lit "NEAR(x)") ++ lit ") NOT "
    ++ double_quoted (lit "-java*") ∧
  sanitize_mysql_fulltext_query (lit "+rust* (a @b)") true = lit "+rust* a b".
Proof. vm_compute. by split_and!. Qed.
