(* ===== verification/Decimals.v ===== *)
(** * Decimal texts (src/src/validation.rs)

    [compare_decimal_text], which compares two decimal texts without rounding either
    to a machine number, and the numbers such texts spell. *)

From S2P Require Import Prelude Dialect.
Local Open Scope tide_scope.

Definition i128_min : Z := - 2 ^ 127.
Definition i128_max : Z := 2 ^ 127 - 1.
Definition i128_fits (z : Z) : bool := (i128_min <=? z)%Z && (z <=? i128_max)%Z.

(** A result of checked [i128] arithmetic. *)
Definition checked_i128 (z : Z) : option Z := if i128_fits z then Some z else None.

Definition signed (negative : bool) (n : N) : Z := if negative then (- Z.of_N n)%Z else Z.of_N n.

(** [str::parse::<i128>]: a sign and digits, an error past 128 bits. *)
Definition parse_i128 (s : str) : option Z :=
  let '(negative, digits) :=
    match s with
    | c :: rest => if (c =? 45)%N then (true, rest) else if (c =? 43)%N then (false, rest) else (false, s)
    | [] => (false, [])
    end in
  match digits with
  | [] => None
  | _ => if forallb is_ascii_digit digits then checked_i128 (signed negative (digits_value 0 digits)) else None
  end.

Definition is_exponent_mark (c : char) : bool := (c =? 101)%N || (c =? 69)%N.

(** The digits of a mantissa and how many follow its dot. *)
Fixpoint mantissa_loop (chars digits : str) (fractional : Z) (dot : bool) : option (str * Z) :=
  match chars with
  | [] => Some (digits, fractional)
  | c :: chars =>
      if (c =? 46)%N && negb dot then mantissa_loop chars digits fractional true
      else if is_ascii_digit c
      then mantissa_loop chars (digits ++ [c]) (if dot then fractional + 1 else fractional)%Z dot
      else None
  end.

(** [parts]: the sign, the digits from the first that is not zero, and the power of
    ten the digits after a leading dot would have. *)
Definition parts (text : str) : option (bool * str * Z) :=
  let text := trim text in
  let '(negative, text) :=
    match strip_prefix (lit "-") text with
    | Some rest => (true, rest)
    | None => (false, default text (strip_prefix (lit "+") text))
    end in
  '(mantissa, exponent) ←
    match split_by is_exponent_mark text with
    | [mantissa] => Some (mantissa, 0%Z)
    | [mantissa; exponent] => exponent ← parse_i128 exponent; Some (mantissa, exponent)
    | _ => None
    end;
  '(digits, fractional) ← mantissa_loop mantissa [] 0%Z false;
  match digits with
  | [] => None
  | _ =>
      match drop_while (N.eqb 48) digits with
      | [] => Some (false, [], 0%Z)
      | digits =>
          magnitude ← checked_i128 (exponent - fractional)%Z;
          magnitude ← checked_i128 (magnitude + Z.of_nat (length digits))%Z;
          Some (negative, digits, magnitude)
      end
  end.

Definition is_eq (c : comparison) : bool := match c with Eq => true | _ => false end.

(** Position by position, a missing digit read as a zero. *)
Definition compare_digits (ld rd : str) : comparison :=
  default Eq (head (List.filter (λ c, negb (is_eq c))
    ((λ i, N.compare (default 48%N (ld !! i)) (default 48%N (rd !! i)))
     <$> seq 0 (length ld `max` length rd)))).

Definition compare_parts (l r : bool * str * Z) : comparison :=
  let '(ln, ld, lm) := l in
  let '(rn, rd, rm) := r in
  if negb (Bool.eqb ln rn) then (if ln then Lt else Gt)
  else
    let order :=
      match ld, rd with
      | [], [] => Eq
      | [], _ => Lt
      | _, [] => Gt
      | _, _ => match (lm ?= rm)%Z with Eq => compare_digits ld rd | order => order end
      end in
    if ln then CompOpp order else order.

Definition compare_decimal_text (left_ right_ : str) : option comparison :=
  l ← parts left_; r ← parts right_; Some (compare_parts l r).

(** ** The numbers texts spell *)

(** [text] is a decimal spelling of [a.1] times ten to the [a.2]. *)
Definition spells (text : str) (a : Z * Z) : Prop :=
  ∃ sign ip dot fp ex negative exponent,
    trim text = sign ++ ip ++ dot ++ fp ++ ex
    ∧ (sign = lit "-" ∧ negative = true ∨ (sign = lit "+" ∨ sign = []) ∧ negative = false)
    ∧ Forall (λ c, is_ascii_digit c = true) ip ∧ Forall (λ c, is_ascii_digit c = true) fp
    ∧ ip ++ fp ≠ [] ∧ (dot = lit "." ∨ dot = [] ∧ fp = [])
    ∧ (ex = [] ∧ exponent = 0%Z ∨ ∃ c e, ex = c :: e ∧ is_exponent_mark c = true ∧ parse_i128 e = Some exponent)
    ∧ a = (signed negative (digits_value 0 (ip ++ fp)), (exponent - Z.of_nat (length fp))%Z).

(** The order of two such numbers. *)
Definition compare_scaled (a b : Z * Z) : comparison :=
  let low := Z.min a.2 b.2 in
  (a.1 * 10 ^ (a.2 - low) ?= b.1 * 10 ^ (b.2 - low))%Z.

(** The power of ten of a spelling stays within 128 bits, as that of any text with an
    exponent of at most 37 digits does. *)
Definition in_reach (text : str) (a : Z * Z) : Prop :=
  (i128_min ≤ a.2 ∧ a.2 + Z.of_nat (length text) ≤ i128_max ∧ Z.of_nat (length text) ≤ i128_max)%Z.

(** What [parts] makes of a number. *)
Definition represents (p : bool * str * Z) (a : Z * Z) : Prop :=
  let '(negative, digits, magnitude) := p in
  Forall (λ c, is_ascii_digit c = true) digits ∧
  match digits with
  | [] => negative = false ∧ a.1 = 0%Z
  | d :: _ => d ≠ 48%N ∧ a.1 = signed negative (digits_value 0 digits)
              ∧ magnitude = (a.2 + Z.of_nat (length digits))%Z
  end.

(** ** Digits *)

Abbreviation all_digits := (Forall (λ c, is_ascii_digit c = true)) (only parsing).

Lemma digits_value_acc acc ds :
  digits_value acc ds = (acc * 10 ^ N.of_nat (length ds) + digits_value 0 ds)%N.
Proof.
  revert acc. induction ds as [|c ds IH]; intros acc; [cbn; lia|].
  cbn [digits_value foldl length]. fold (digits_value (acc * 10 + (c - 48)) ds).
  fold (digits_value (0 * 10 + (c - 48)) ds).
  rewrite IH, (IH (0 * 10 + (c - 48))%N), Nat2N.inj_succ, N.pow_succ_r'. lia.
Qed.

Lemma digits_value_cons c ds :
  digits_value 0 (c :: ds) = ((c - 48) * 10 ^ N.of_nat (length ds) + digits_value 0 ds)%N.
Proof.
  transitivity (digits_value (0 * 10 + (c - 48)) ds); [done|]. by rewrite digits_value_acc.
Qed.

Lemma digit_bounds c : is_ascii_digit c = true → (48 ≤ c ∧ c - 48 < 10)%N.
Proof. unfold is_ascii_digit. lia. Qed.

Lemma digits_value_lt ds : all_digits ds → (digits_value 0 ds < 10 ^ N.of_nat (length ds))%N.
Proof.
  induction 1 as [|c ds Hc%digit_bounds _ IH]; [done|].
  rewrite digits_value_cons. cbn [length]. rewrite Nat2N.inj_succ, N.pow_succ_r'. nia.
Qed.

Lemma digits_value_pos d ds :
  is_ascii_digit d = true → d ≠ 48%N → (10 ^ N.of_nat (length ds) ≤ digits_value 0 (d :: ds))%N.
Proof. intros Hd%digit_bounds Hne. rewrite digits_value_cons. nia. Qed.

Lemma digits_value_zeros n : digits_value 0 (replicate n 48%N) = 0%N.
Proof. induction n as [|n IH]; [done|]. cbn [replicate]. rewrite digits_value_cons, IH. lia. Qed.

Lemma digits_value_app ds es :
  digits_value 0 (ds ++ es) = (digits_value 0 ds * 10 ^ N.of_nat (length es) + digits_value 0 es)%N.
Proof. unfold digits_value at 1. rewrite foldl_app. apply digits_value_acc. Qed.

(** Leading zeros. *)
Lemma drop_zeros ds :
  all_digits ds →
  digits_value 0 (drop_while (N.eqb 48) ds) = digits_value 0 ds
  ∧ all_digits (drop_while (N.eqb 48) ds)
  ∧ length (drop_while (N.eqb 48) ds) ≤ length ds.
Proof.
  induction 1 as [|c ds Hc Hds (IHv & IHd & IHl)]; [done|]. cbn [drop_while].
  destruct (N.eqb_spec 48 c) as [<-|Hne].
  - rewrite IHv, digits_value_cons. cbn [length]. split_and!; [lia|done|lia].
  - split_and!; [done|by constructor|done].
Qed.

(** Two runs of one length compare as their values. *)
Lemma compare_same_length ds es :
  all_digits ds → all_digits es → length ds = length es →
  default Eq (head (List.filter (λ c, negb (is_eq c)) (zip_with N.compare ds es)))
  = (digits_value 0 ds ?= digits_value 0 es)%N.
Proof.
  intros Hds. revert es. induction Hds as [|c ds Hc%digit_bounds Hds IH]; intros [|d es] Hes Hlen; try done.
  apply list.Forall_cons in Hes as [Hd%digit_bounds Hes]. injection Hlen as Hlen.
  pose proof (digits_value_lt ds Hds) as Hvd. pose proof (digits_value_lt es Hes) as Hve.
  cbn [zip_with List.filter]. rewrite !digits_value_cons, Hlen in *.
  destruct (N.compare_spec c d) as [->|Hlt|Hgt]; cbn [is_eq negb head default from_option].
  - rewrite IH by done. symmetry.
    destruct (N.compare_spec (digits_value 0 ds) (digits_value 0 es));
      [apply N.compare_eq_iff|apply N.compare_lt_iff|apply N.compare_gt_iff]; lia.
  - symmetry. apply N.compare_lt_iff. nia.
  - symmetry. apply N.compare_gt_iff. nia.
Qed.

Lemma resize_value n ds :
  length ds ≤ n → digits_value 0 (resize n 48%N ds) = (digits_value 0 ds * 10 ^ N.of_nat (n - length ds))%N.
Proof.
  intros Hn. rewrite resize_ge by done. rewrite digits_value_app, digits_value_zeros, length_replicate. lia.
Qed.

Lemma compare_digits_spec ds es :
  all_digits ds → all_digits es →
  let n := length ds `max` length es in
  compare_digits ds es
  = (digits_value 0 ds * 10 ^ N.of_nat (n - length ds) ?= digits_value 0 es * 10 ^ N.of_nat (n - length es))%N.
Proof.
  intros Hds Hes n. rewrite <- !resize_value by (subst n; lia). unfold compare_digits.
  assert (∀ ds, all_digits ds → all_digits (resize n 48%N ds)) as Hr by (intros; by apply Forall_resize).
  rewrite <- compare_same_length; [|by apply Hr..|by rewrite !length_resize]. do 3 f_equal.
  apply list_eq. intros i. rewrite list_lookup_fmap, lookup_zip_with. fold n.
  destruct (decide (i < n)) as [Hi|Hi].
  - rewrite lookup_seq_lt by done. cbn.
    assert (∀ ds, resize n 48%N ds !! i = Some (default 48%N (ds !! i))) as Hl; [|by rewrite !Hl].
    intros l. destruct (decide (i < length l)) as [Hl|Hl].
    + rewrite lookup_resize by done. by destruct (lookup_lt_is_Some_2 l i Hl) as [x ->].
    + rewrite (lookup_ge_None_2 l i) by lia. rewrite lookup_resize_new by lia. reflexivity.
  - rewrite lookup_seq_ge by lia. rewrite !lookup_resize_old by lia. done.
Qed.

(** ** The order *)

Lemma compare_scaled_min k a b :
  (k ≤ a.2)%Z → (k ≤ b.2)%Z →
  compare_scaled a b = (a.1 * 10 ^ (a.2 - k) ?= b.1 * 10 ^ (b.2 - k))%Z.
Proof.
  intros Ha Hb. unfold compare_scaled. set (low := Z.min a.2 b.2).
  assert (∀ x, (low ≤ x)%Z → (10 ^ (x - k) = 10 ^ (x - low) * 10 ^ (low - k))%Z) as Hp.
  { intros x Hx. rewrite <- Z.pow_add_r by lia. f_equal. lia. }
  rewrite (Hp a.2), (Hp b.2) by lia. rewrite !Z.mul_assoc.
  assert (0 < 10 ^ (low - k))%Z as Hpos by (apply Z.pow_pos_nonneg; lia).
  apply Zmult_compare_compat_r. lia.
Qed.

Lemma compare_scaled_opp x y e f : compare_scaled ((- x)%Z, e) ((- y)%Z, f) = CompOpp (compare_scaled (x, e) (y, f)).
Proof. unfold compare_scaled. cbn [fst snd]. rewrite !Z.mul_opp_l, Z.compare_opp. apply Z.compare_antisym. Qed.

(** Two numbers that are not zero, by their digits and magnitudes. *)
Lemma compare_magnitudes d ds e es x y :
  all_digits (d :: ds) → all_digits (e :: es) → d ≠ 48%N → e ≠ 48%N →
  match (x + Z.of_nat (length (d :: ds)) ?= y + Z.of_nat (length (e :: es)))%Z with
  | Eq => compare_digits (d :: ds) (e :: es)
  | order => order
  end = compare_scaled (Z.of_N (digits_value 0 (d :: ds)), x) (Z.of_N (digits_value 0 (e :: es)), y).
Proof.
  intros Hds Hes Hd He. set (l := d :: ds) in *. set (r := e :: es) in *.
  assert (length l = S (length ds) ∧ length r = S (length es)) as [Hll Hlr] by done.
  set (k := Z.min x y). rewrite (compare_scaled_min k) by (cbn; lia). cbn [fst snd].
  pose proof (digits_value_lt l Hds) as Hl1. pose proof (digits_value_lt r Hes) as Hr1.
  assert (10 ^ N.of_nat (length ds) ≤ digits_value 0 l)%N as Hl2.
  { apply digits_value_pos; [|done]. by apply list.Forall_cons in Hds as [? _]. }
  assert (10 ^ N.of_nat (length es) ≤ digits_value 0 r)%N as Hr2.
  { apply digits_value_pos; [|done]. by apply list.Forall_cons in Hes as [? _]. }
  apply N2Z.inj_lt in Hl1, Hr1. apply N2Z.inj_le in Hl2, Hr2.
  rewrite N2Z.inj_pow, nat_N_Z in Hl1, Hr1, Hl2, Hr2. change (Z.of_N 10) with 10%Z in *.
  assert (∀ a u (n : nat), (a < 10 ^ Z.of_nat n)%Z → (k ≤ u)%Z → (a * 10 ^ (u - k) < 10 ^ (u + Z.of_nat n - k))%Z) as Hup.
  { intros a u n Ha Hu. replace (u + Z.of_nat n - k)%Z with (Z.of_nat n + (u - k))%Z by lia.
    rewrite Z.pow_add_r by lia. apply Z.mul_lt_mono_pos_r; [apply Z.pow_pos_nonneg|]; lia. }
  assert (∀ a u (n : nat), (10 ^ Z.of_nat n ≤ a)%Z → (k ≤ u)%Z → (10 ^ (u + Z.of_nat n - k) ≤ a * 10 ^ (u - k))%Z) as Hlow.
  { intros a u n Ha Hu. replace (u + Z.of_nat n - k)%Z with (Z.of_nat n + (u - k))%Z by lia.
    rewrite Z.pow_add_r by lia. apply Z.mul_le_mono_nonneg_r; [apply Z.pow_nonneg|]; lia. }
  destruct (Z.compare_spec (x + Z.of_nat (length l)) (y + Z.of_nat (length r))) as [Heq|Hlt|Hgt].
  - rewrite compare_digits_spec by done. rewrite <- N2Z.inj_compare, !N2Z.inj_mul, !N2Z.inj_pow, !nat_N_Z.
    change (Z.of_N 10) with 10%Z.
    assert (k = x + Z.of_nat (length l) - Z.of_nat (length l `max` length r))%Z as -> by lia.
    f_equal; f_equal; f_equal; lia.
  - symmetry. apply Z.compare_lt_iff. eapply Z.lt_le_trans; [apply (Hup _ x (length l)); [done|lia]|].
    etrans; [|apply (Hlow _ y (length es)); [done|lia]]. apply Z.pow_le_mono_r; lia.
  - symmetry. apply Z.compare_gt_iff. eapply Z.lt_le_trans; [apply (Hup _ y (length r)); [done|lia]|].
    etrans; [|apply (Hlow _ x (length ds)); [done|lia]]. apply Z.pow_le_mono_r; lia.
Qed.

Lemma signed_neg n : signed true n = (- signed false n)%Z.
Proof. done. Qed.

Lemma compare_scaled_signs a b : (a.1 < 0 ≤ b.1)%Z ∨ (a.1 ≤ 0 < b.1)%Z → compare_scaled a b = Lt.
Proof.
  intros Hs. apply Z.compare_lt_iff. set (low := Z.min a.2 b.2).
  assert (∀ u, (low ≤ u)%Z → (0 < 10 ^ (u - low))%Z) as Hp by (intros; apply Z.pow_pos_nonneg; lia).
  pose proof (Hp a.2 ltac:(lia)). pose proof (Hp b.2 ltac:(lia)). nia.
Qed.

Lemma compare_scaled_antisym a b : compare_scaled b a = CompOpp (compare_scaled a b).
Proof. unfold compare_scaled. rewrite Z.min_comm. apply Z.compare_antisym. Qed.

Lemma compare_parts_spec p q a b :
  represents p a → represents q b → compare_parts p q = compare_scaled a b.
Proof.
  destruct p as [[ln ld] lm], q as [[rn rd] rm], a as [a x], b as [b y]. cbn [represents fst snd].
  intros [Hld Hl] [Hrd Hr]. unfold compare_parts.
  assert (∀ d ds, all_digits (d :: ds) → d ≠ 48%N → (0 < Z.of_N (digits_value 0 (d :: ds)))%Z) as Hpos.
  { intros d ds Hds Hd. assert (10 ^ N.of_nat (length ds) ≤ digits_value 0 (d :: ds))%N as Hge.
    { apply digits_value_pos; [|done]. by apply list.Forall_cons in Hds as [? _]. }
    assert (10 ^ N.of_nat (length ds) ≠ 0)%N by by apply N.pow_nonzero. lia. }
  destruct ld as [|d ds], rd as [|e es].
  - destruct Hl as [-> ->], Hr as [-> ->]. cbn. unfold compare_scaled. cbn. done.
  - destruct Hl as [-> ->], Hr as (He & -> & _). pose proof (Hpos e es Hrd He).
    destruct rn; cbn [Bool.eqb negb signed].
    + rewrite compare_scaled_antisym, compare_scaled_signs; [done|cbn [fst snd signed]; lia].
    + rewrite compare_scaled_signs; [done|cbn [fst snd signed]; lia].
  - destruct Hr as [-> ->], Hl as (Hd & -> & _). pose proof (Hpos d ds Hld Hd).
    destruct ln; cbn [Bool.eqb negb signed].
    + rewrite compare_scaled_signs; [done|cbn [fst snd signed]; lia].
    + rewrite compare_scaled_antisym, compare_scaled_signs; [done|cbn [fst snd signed]; lia].
  - destruct Hl as (Hd & -> & ->), Hr as (He & -> & ->).
    pose proof (Hpos d ds Hld Hd). pose proof (Hpos e es Hrd He).
    rewrite compare_magnitudes by done.
    destruct ln, rn; cbn [Bool.eqb negb signed].
    + by rewrite compare_scaled_opp.
    + rewrite compare_scaled_signs; [done|cbn [fst snd signed]; lia].
    + rewrite compare_scaled_antisym, compare_scaled_signs; [done|cbn [fst snd signed]; lia].
    + done.
Qed.

(** ** Reading *)

Lemma split_by_plain p s : Forall (λ c, p c = false) s → split_by p s = [s].
Proof. induction 1 as [|c s Hc _ IH]; [done|]. cbn. by rewrite Hc, IH. Qed.

Lemma split_by_at p w c s :
  Forall (λ c, p c = false) w → p c = true → split_by p (w ++ c :: s) = w :: split_by p s.
Proof. intros Hw Hc. induction Hw as [|d w Hd _ IH]; cbn; [by rewrite Hc|]. by rewrite Hd, IH. Qed.

Lemma split_by_nonempty p s : split_by p s ≠ [].
Proof. destruct s as [|c s]; cbn; [done|]. destruct (p c); [done|]. by destruct (split_by p s). Qed.

Lemma split_by_inv p s w ws :
  split_by p s = w :: ws →
  Forall (λ c, p c = false) w ∧
  (ws = [] ∧ s = w ∨ ∃ c s', s = w ++ c :: s' ∧ p c = true ∧ split_by p s' = ws).
Proof.
  revert w ws. induction s as [|d s IH]; intros w ws; cbn; [intros [= <- <-]; auto|].
  destruct (p d) eqn:Hd; [intros [= <- <-]; split; [constructor|right; by exists d, s]|].
  destruct (split_by p s) as [|w' ws'] eqn:Es; [by apply split_by_nonempty in Es|].
  intros [= <- <-]. destruct (IH _ _ eq_refl) as [Hw [[-> ->]|(c & s' & -> & Hc & Hs')]].
  - split; [by constructor|by left].
  - split; [by constructor|]. right. by exists c, s'.
Qed.

Lemma mantissa_dotted chars ds f ds' f' :
  mantissa_loop chars ds f true = Some (ds', f') ↔
  all_digits chars ∧ ds' = ds ++ chars ∧ f' = (f + Z.of_nat (length chars))%Z.
Proof.
  revert ds f. induction chars as [|c chars IH]; intros ds f; cbn [mantissa_loop].
  { rewrite app_nil_r. split; [intros [= -> ->]; split_and!; [constructor|done|cbn; lia]|].
    intros (_ & -> & ->). do 2 f_equal. cbn. lia. }
  rewrite andb_false_r, list.Forall_cons. destruct (is_ascii_digit c) eqn:Ec; [|naive_solver].
  rewrite IH, <- app_assoc. cbn [length app]. split.
  - intros (? & -> & ->). split_and!; [done..|lia].
  - intros ([_ ?] & -> & ->). split_and!; [done..|lia].
Qed.

(** [chars] is a mantissa of these digits. *)
Definition mantissa_of (chars ip dot fp : str) : Prop :=
  chars = ip ++ dot ++ fp ∧ all_digits ip ∧ all_digits fp ∧ (dot = lit "." ∨ dot = [] ∧ fp = []).

Lemma mantissa_plain chars ds f ds' f' :
  mantissa_loop chars ds f false = Some (ds', f') ↔
  ∃ ip dot fp, mantissa_of chars ip dot fp ∧ ds' = ds ++ ip ++ fp ∧ f' = (f + Z.of_nat (length fp))%Z.
Proof.
  revert ds. induction chars as [|c chars IH]; intros ds; cbn [mantissa_loop].
  { split.
    - intros [= -> ->]. exists [], [], []. rewrite app_nil_r. split_and!; [|done|cbn; lia].
      split_and!; [done|constructor..|by right].
    - intros (ip & dot & fp & (Heq & _) & -> & ->). symmetry in Heq.
      apply app_eq_nil in Heq as [-> [-> ->]%app_eq_nil]. cbn. rewrite app_nil_r. do 2 f_equal. lia. }
  rewrite andb_true_r. destruct (N.eqb_spec c 46) as [->|Hne].
  - rewrite mantissa_dotted. split.
    + intros (Hd & -> & ->). by exists [], (lit "."), chars; split_and!; [split_and!; [| |done|by left]|..].
    + intros (ip & dot & fp & (Heq & Hip & Hfp & Hdot) & -> & ->).
      destruct Hip as [|d ip Hd Hip]; [|by injection Heq as <- _].
      destruct Hdot as [->|[-> ->]]; [by injection Heq as ->|done].
  - destruct (is_ascii_digit c) eqn:Ec.
    + rewrite IH. split.
      * intros (ip & dot & fp & (-> & Hip & Hfp & Hdot) & -> & ->). exists (c :: ip), dot, fp.
        rewrite <- app_assoc. split_and!; [|done|done]. split_and!; [done|by constructor|done|done].
      * intros (ip & dot & fp & (Heq & Hip & Hfp & Hdot) & -> & ->).
        destruct Hip as [|d ip Hd Hip].
        { destruct Hdot as [->|[-> ->]]; [by injection Heq as -> _|done]. }
        injection Heq as -> ->. exists ip, dot, fp. by rewrite <- app_assoc.
    + split; [done|]. intros (ip & dot & fp & (Heq & Hip & Hfp & Hdot) & _).
      destruct Hip as [|d ip Hd Hip]; [|injection Heq as -> _; congruence].
      destruct Hdot as [->|[-> ->]]; [by injection Heq as -> _|done].
Qed.

(** No mark of an exponent in digits, dots and signs. *)
Lemma digit_no_mark c : is_ascii_digit c = true → is_exponent_mark c = false.
Proof. unfold is_ascii_digit, is_exponent_mark. lia. Qed.

Lemma mantissa_no_mark chars ip dot fp :
  mantissa_of chars ip dot fp → Forall (λ c, is_exponent_mark c = false) chars.
Proof.
  intros (-> & Hip & Hfp & Hdot). apply Forall_app. split; [eapply Forall_impl; [apply digit_no_mark|exact Hip]|].
  apply Forall_app. split; [|eapply Forall_impl; [apply digit_no_mark|exact Hfp]].
  destruct Hdot as [->|[-> _]]; [by repeat constructor|constructor].
Qed.

Lemma exponent_no_mark e z : parse_i128 e = Some z → Forall (λ c, is_exponent_mark c = false) e.
Proof.
  unfold parse_i128. assert (∀ ds, forallb is_ascii_digit ds = true → Forall (λ c, is_exponent_mark c = false) ds) as Hds.
  { intros ds. induction ds as [|c ds IH]; [constructor|]. cbn. intros [Hc Hds]%andb_true_iff.
    constructor; [by apply digit_no_mark|auto]. }
  destruct e as [|c e]; [done|]. destruct (N.eqb_spec c 45) as [->|_]; [|destruct (N.eqb_spec c 43) as [->|_]].
  - destruct e as [|d e]; [done|]. destruct (forallb is_ascii_digit (d :: e)) eqn:E; [|done]. constructor; auto.
  - destruct e as [|d e]; [done|]. destruct (forallb is_ascii_digit (d :: e)) eqn:E; [|done]. constructor; auto.
  - destruct (forallb is_ascii_digit (c :: e)) eqn:E; [|done]. auto.
Qed.

(** The sign, stripped. *)
Definition unsigned (text : str) : bool * str :=
  match strip_prefix (lit "-") text with
  | Some rest => (true, rest)
  | None => (false, default text (strip_prefix (lit "+") text))
  end.

Definition sign_of (sign : str) (negative : bool) : Prop :=
  sign = lit "-" ∧ negative = true ∨ (sign = lit "+" ∨ sign = []) ∧ negative = false.

Lemma unsigned_sound text : ∃ sign, text = sign ++ (unsigned text).2 ∧ sign_of sign (unsigned text).1.
Proof.
  unfold unsigned. destruct (strip_prefix (lit "-") text) as [rest|] eqn:E.
  { apply strip_prefix_Some in E as ->. exists (lit "-"). split; [done|by left]. }
  destruct (strip_prefix (lit "+") text) as [rest|] eqn:E'; cbn.
  - apply strip_prefix_Some in E' as ->. exists (lit "+"). split; [done|right; auto].
  - exists []. split; [done|right; auto].
Qed.

(** Text that starts with no sign. *)
Lemma unsigned_complete sign negative rest :
  sign_of sign negative → (∀ c, head rest = Some c → is_ascii_digit c = true ∨ c = 46%N) →
  unsigned (sign ++ rest) = (negative, rest).
Proof.
  unfold unsigned. intros [[-> ->]|[[->| ->] ->]] Hr; [done|done|]. cbn [app].
  destruct rest as [|c rest]; [done|]. cbn.
  assert (c ≠ 45%N ∧ c ≠ 43%N) as [Hm Hp].
  { destruct (Hr c eq_refl) as [Hd%digit_bounds| ->]; lia. }
  change (strip_prefix (lit "-") (c :: rest)) with (if (45 =? c)%N then Some rest else None).
  change (strip_prefix (lit "+") (c :: rest)) with (if (43 =? c)%N then Some rest else None).
  destruct (N.eqb_spec 45 c); [congruence|]. by destruct (N.eqb_spec 43 c); [congruence|].
Qed.

(** What the mantissa's digits and the exponent make of a number. *)
Lemma parts_represents negative ds fractional exponent p :
  all_digits ds → ds ≠ [] →
  (match drop_while (N.eqb 48) ds with
   | [] => Some (false, [], 0%Z)
   | digits =>
       magnitude ← checked_i128 (exponent - fractional)%Z;
       magnitude ← checked_i128 (magnitude + Z.of_nat (length digits))%Z;
       Some (negative, digits, magnitude)
   end = Some p) →
  represents p (signed negative (digits_value 0 ds), (exponent - fractional)%Z).
Proof.
  intros Hds _ Hp. destruct (drop_zeros ds Hds) as (Hv & Hd & _). rewrite <- Hv.
  destruct (drop_while (N.eqb 48) ds) as [|d l] eqn:Ed.
  { injection Hp as <-. split; [done|]. split; [done|]. by destruct negative. }
  unfold checked_i128 in Hp. destruct (i128_fits _); [|done]. cbn [mbind option_bind] in Hp.
  destruct (i128_fits _); [|done]. injection Hp as <-. split; [done|]. split; [|done].
  apply drop_while_head in Ed. intros ->. done.
Qed.

(** The text [parts] reads past the sign. *)
Definition body (text : str) (mantissa : str) (exponent : Z) : Prop :=
  ∃ ex, text = mantissa ++ ex ∧
    (ex = [] ∧ exponent = 0%Z ∨ ∃ c e, ex = c :: e ∧ is_exponent_mark c = true ∧ parse_i128 e = Some exponent).

Lemma body_split text mantissa exponent :
  Forall (λ c, is_exponent_mark c = false) mantissa → body text mantissa exponent →
  match split_by is_exponent_mark text with
  | [mantissa] => Some (mantissa, 0%Z)
  | [mantissa; exponent] => exponent ← parse_i128 exponent; Some (mantissa, exponent)
  | _ => None
  end = Some (mantissa, exponent).
Proof.
  intros Hm (ex & -> & [[-> ->]|(c & e & -> & Hc & He)]).
  - by rewrite app_nil_r, split_by_plain.
  - rewrite split_by_at by done. rewrite split_by_plain by by eapply exponent_no_mark. by rewrite He.
Qed.

Lemma split_body text mantissa exponent :
  match split_by is_exponent_mark text with
  | [mantissa] => Some (mantissa, 0%Z)
  | [mantissa; exponent] => exponent ← parse_i128 exponent; Some (mantissa, exponent)
  | _ => None
  end = Some (mantissa, exponent) →
  body text mantissa exponent.
Proof.
  destruct (split_by is_exponent_mark text) as [|w [|e [|? ?]]] eqn:Es; [done| | |done].
  - intros [= -> <-]. apply split_by_inv in Es as [_ [[_ ->]|(c & s' & _ & _ & Hs)]].
    + exists []. rewrite app_nil_r. auto.
    + by apply split_by_nonempty in Hs.
  - destruct (parse_i128 e) as [z|] eqn:Ee; [|done]. intros [= -> <-].
    apply split_by_inv in Es as [_ [[? _]|(c & s' & -> & Hc & Hs)]]; [done|].
    apply split_by_inv in Hs as [_ [[_ ->]|(c' & s'' & _ & _ & Hs)]]; [|by apply split_by_nonempty in Hs].
    exists (c :: e). split; [done|]. right. by exists c, e.
Qed.

Lemma parts_sound text p : parts text = Some p → ∃ a, spells text a ∧ represents p a.
Proof.
  unfold parts. fold (unsigned (trim text)). destruct (unsigned_sound (trim text)) as (sign & Htext & Hsign).
  destruct (unsigned (trim text)) as [negative rest]. cbn [fst snd] in *.
  destruct (match split_by is_exponent_mark rest with [] => _ | _ => _ end) as [[mantissa exponent]|] eqn:Eb; [|done].
  apply split_body in Eb as (ex & -> & Hex). cbn [mbind option_bind].
  destruct (mantissa_loop mantissa [] 0%Z false) as [[ds fractional]|] eqn:Em; [|done].
  apply mantissa_plain in Em as (ip & dot & fp & (-> & Hip & Hfp & Hdot) & -> & ->). cbn [app].
  cbn [mbind option_bind]. intros Hp. assert (ip ++ fp ≠ []) as Hne by by destruct (ip ++ fp).
  exists (signed negative (digits_value 0 (ip ++ fp)), (exponent - Z.of_nat (length fp))%Z). split.
  - exists sign, ip, dot, fp, ex, negative, exponent. rewrite Htext, <- !app_assoc. by split_and!.
  - replace (0 + Z.of_nat (length fp))%Z with (Z.of_nat (length fp)) in Hp by lia.
    eapply parts_represents; [by apply Forall_app|done|]. destruct (ip ++ fp); [done|exact Hp].
Qed.

Lemma length_trim s : length (trim s) ≤ length s.
Proof.
  unfold trim. assert (∀ l, length (drop_while is_whitespace l) ≤ length l) as Hd.
  { intros l. rewrite <- (take_drop_while is_whitespace l) at 2. rewrite length_app. lia. }
  rewrite length_rev. etrans; [apply Hd|]. rewrite length_rev. apply Hd.
Qed.

Lemma parts_complete text a : spells text a → in_reach text a → ∃ p, parts text = Some p ∧ represents p a.
Proof.
  intros (sign & ip & dot & fp & ex & negative & exponent & Htext & Hsign & Hip & Hfp & Hne & Hdot & Hex & ->).
  intros (Hlow & Hhigh & _). cbn [fst snd] in Hlow, Hhigh. unfold parts. fold (unsigned (trim text)).
  assert (mantissa_of (ip ++ dot ++ fp) ip dot fp) as Hm by by split_and!.
  pose proof (length_trim text) as Hlen. rewrite Htext, !length_app in Hlen.
  rewrite Htext, (unsigned_complete sign negative); [|done|].
  2: { intros c Hc. destruct Hip as [|d ip Hd _]; [|injection Hc as ->; by left].
       destruct Hdot as [->|[-> ->]]; [injection Hc as <-; by right|done]. }
  rewrite !app_assoc, <- (app_assoc ip dot fp).
  rewrite (body_split _ (ip ++ dot ++ fp) exponent); [|by eapply mantissa_no_mark|by exists ex].
  cbn [mbind option_bind].
  rewrite (proj2 (mantissa_plain (ip ++ dot ++ fp) [] 0 (ip ++ fp) (0 + Z.of_nat (length fp)))) by by exists ip, dot, fp.
  cbn [mbind option_bind]. rewrite Z.add_0_l.
  assert (all_digits (ip ++ fp)) as Hds by by apply Forall_app.
  destruct (drop_zeros _ Hds) as (_ & _ & Hdrop). rewrite length_app in Hdrop.
  pose proof (parts_represents negative (ip ++ fp) (Z.of_nat (length fp)) exponent) as Hrep.
  destruct (ip ++ fp) as [|d l] eqn:El; [done|].
  destruct (drop_while (N.eqb 48) (d :: l)) as [|d' l'] eqn:Ed.
  - eexists. split; [done|]. by apply Hrep.
  - assert (∀ z, (i128_min ≤ z ≤ i128_max)%Z → checked_i128 z = Some z) as Hchk.
    { intros z Hz. unfold checked_i128, i128_fits. by rewrite (proj2 (Z.leb_le _ _)), (proj2 (Z.leb_le _ _)) by lia. }
    cbv zeta in Hrep. rewrite Hchk in Hrep |- * by lia. cbn [mbind option_bind] in Hrep |- *.
    rewrite Hchk in Hrep |- * by lia.
    eexists. split; [done|]. by apply Hrep.
Qed.

(** Integers and their texts. *)
Lemma trim_plain s : Forall (λ c, is_whitespace c = false) s → trim s = s.
Proof.
  assert (∀ l, Forall (λ c, is_whitespace c = false) l → drop_while is_whitespace l = l) as Hd.
  { intros l [|c l' Hc _]; [done|]. cbn. by rewrite Hc. }
  intros Hs. unfold trim. rewrite (Hd s Hs), Hd by by apply Forall_rev. apply rev_involutive.
Qed.

Lemma digit_not_space c : is_ascii_digit c = true → is_whitespace c = false.
Proof. unfold is_ascii_digit, is_whitespace. lia. Qed.

Lemma digits_not_space ds : all_digits ds → Forall (λ c, is_whitespace c = false) ds.
Proof. intros Hd. eapply Forall_impl; [apply digit_not_space|exact Hd]. Qed.

Lemma spells_integer sign negative ds :
  sign_of sign negative → all_digits ds → ds ≠ [] →
  spells (sign ++ ds) (signed negative (digits_value 0 ds), 0%Z).
Proof.
  intros Hsign Hds Hne. exists sign, ds, [], [], [], negative, 0%Z.
  rewrite !app_nil_r. split_and!; [|done|done|constructor|done|by right|by left|done].
  apply trim_plain, Forall_app. split; [|by apply digits_not_space].
  destruct Hsign as [[-> _]|[[->| ->] _]]; repeat constructor.
Qed.

Lemma parse_i128_spells text z : parse_i128 text = Some z → spells text (z, 0%Z) ∧ i128_fits z = true.
Proof.
  assert (∀ sign negative ds, sign_of sign negative → ds ≠ [] →
    (if forallb is_ascii_digit ds then checked_i128 (signed negative (digits_value 0 ds)) else None) = Some z →
    spells (sign ++ ds) (z, 0%Z) ∧ i128_fits z = true) as Hgo.
  { intros sign negative ds Hsign Hne Hz. destruct (forallb is_ascii_digit ds) eqn:Ed; [|done].
    unfold checked_i128 in Hz. destruct (i128_fits _) eqn:Ef; [|done]. injection Hz as <-.
    split; [|done]. apply spells_integer; [done| |done].
    clear -Ed. induction ds as [|c ds IH]; [constructor|]. cbn in Ed. apply andb_true_iff in Ed as [? ?].
    constructor; auto. }
  unfold parse_i128. destruct text as [|c text]; [done|].
  destruct (N.eqb_spec c 45) as [->|_]; [|destruct (N.eqb_spec c 43) as [->|_]].
  - destruct text as [|d text]; [done|]. apply (Hgo (lit "-")); [by left|done].
  - destruct text as [|d text]; [done|]. apply (Hgo (lit "+")); [right; auto|done].
  - apply (Hgo []); [right; auto|done].
Qed.

(** [i128::to_string]. *)
Definition show_Z (z : Z) : str :=
  if (z <? 0)%Z then 45%N :: show_N (Z.to_N (- z)) else show_N (Z.to_N z).

Lemma show_Z_spells z : spells (show_Z z) (z, 0%Z).
Proof.
  unfold show_Z. destruct (Z.ltb_spec z 0) as [Hz|Hz].
  - destruct (show_N_spec (Z.to_N (- z))) as (Hne & Hd & Hv).
    replace z with (signed true (digits_value 0 (show_N (Z.to_N (- z))))) at 2 by (rewrite Hv; cbn; lia).
    apply (spells_integer (lit "-")); [by left|done|done].
  - destruct (show_N_spec (Z.to_N z)) as (Hne & Hd & Hv).
    replace z with (signed false (digits_value 0 (show_N (Z.to_N z)))) at 2 by (rewrite Hv; cbn; lia).
    apply (spells_integer []); [right; auto|done|done].
Qed.

Lemma length_digits_fuel fuel n acc : length (digits_fuel fuel n acc) ≤ fuel + length acc.
Proof.
  revert n acc. induction fuel as [|fuel IH]; intros n acc; cbn; [lia|].
  destruct (n <? 10)%N; cbn; [lia|]. etrans; [apply IH|]. cbn. lia.
Qed.

Lemma show_Z_reach z : i128_fits z = true → in_reach (show_Z z) (z, 0%Z).
Proof.
  intros Hz. assert (length (show_Z z) ≤ 130) as Hl.
  { unfold i128_fits, i128_min, i128_max in Hz.
    assert (∀ n, (n ≤ 2 ^ 127)%N → length (show_N n) ≤ 128) as Hn.
    { intros n Hn. etrans; [apply length_digits_fuel|]. cbn [length].
      destruct (decide (n = 0%N)) as [->|Hne]; [cbn; lia|].
      assert (N.log2 n ≤ 127)%N; [|lia]. etrans; [apply N.log2_le_mono, Hn|]. by vm_compute. }
    pose proof (Hn (Z.to_N z)). pose proof (Hn (Z.to_N (- z))).
    unfold show_Z. destruct (z <? 0)%Z eqn:E; cbn [length]; lia. }
  unfold in_reach, i128_min, i128_max. cbn [snd]. lia.
Qed.

(** Spellings of one text are of one number. *)
Lemma compare_scaled_refl a : compare_scaled a a = Eq.
Proof. unfold compare_scaled. apply Z.compare_refl. Qed.

Lemma spellings_agree l r a a' b :
  spells l a → spells l a' → spells r b → in_reach l a → in_reach l a' → in_reach r b →
  compare_scaled b a = compare_scaled b a'.
Proof.
  intros Ha Ha' Hb Hra Hra' Hrb.
  destruct (parts_complete _ _ Ha Hra) as (p & Ep & Hp), (parts_complete _ _ Ha' Hra') as (p' & Ep' & Hp').
  destruct (parts_complete _ _ Hb Hrb) as (q & _ & Hq). assert (p' = p) as -> by congruence.
  by rewrite <- (compare_parts_spec q p b a), (compare_parts_spec q p b a').
Qed.

Lemma compare_text_reads l r a b :
  spells l a → spells r b → in_reach l a → in_reach r b →
  compare_decimal_text l r = Some (compare_scaled a b).
Proof.
  intros Hl Hr Hla Hrb. unfold compare_decimal_text. destruct (parts_complete _ _ Hl Hla) as (p & -> & Hp).
  destruct (parts_complete _ _ Hr Hrb) as (q & -> & Hq). cbn. f_equal. by apply compare_parts_spec.
Qed.

(** C29: the comparison of decimal texts is exact, however many digits they have: it
    answers for spellings of two numbers whose powers of ten fit 128 bits, with the
    very order of the numbers, and where it answers the texts spell numbers so
    ordered. *)
Theorem decimal_texts_compare_exactly l r :
  (∀ a b, spells l a → spells r b → in_reach l a → in_reach r b →
     compare_decimal_text l r = Some (compare_scaled a b))
  ∧ ∀ c, compare_decimal_text l r = Some c → ∃ a b, spells l a ∧ spells r b ∧ c = compare_scaled a b.
Proof.
  split.
  - intros a b Hl Hr Hla Hrb. by apply compare_text_reads.
  - intros c. unfold compare_decimal_text. destruct (parts l) as [p|] eqn:El; [|done]. destruct (parts r) as [q|] eqn:Er; [|done].
    apply parts_sound in El as (a & Ha & Hp), Er as (b & Hb & Hq). intros [= <-]. exists a, b.
    split_and!; [done..|]. by apply compare_parts_spec.
Qed.

Example decimals_compare :
  compare_decimal_text (lit "0.1000000000000000000000000000001") (lit "1e-1") = Some Gt ∧
  compare_decimal_text (lit " -12.50 ") (lit "-1.25E1") = Some Eq ∧
  compare_decimal_text (lit "-0") (lit "0e99") = Some Eq ∧
  compare_decimal_text (lit "1.2.3") (lit "1") = None.
Proof. by vm_compute. Qed.
