(* ===== verification/BulkArithmetic.v ===== *)
(** * Arithmetic in bulk updates (src/src/model/batch/sql_execution.rs)

    [increment], [decrement], [multiply] and [divide] of a batch update compute the new
    value in the database. On SQLite, whose integers overflow into floats and whose
    columns have one width, an integer column is scaled in integer arithmetic and checked;
    a [REAL] one is bounded, and rounded to binary32 for an [f32] field. *)

From S2P Require Import Prelude Dialect Decimals.
Local Open Scope tide_scope.

(** ** Machine integers *)

Definition i64_min : Z := - 2 ^ 63.
Definition i64_max : Z := 2 ^ 63 - 1.
Definition i64_fits (z : Z) : bool := (i64_min <=? z)%Z && (z <=? i64_max)%Z.

(** What the [checked_] operations and [i64::try_from] leave. *)
Definition checked_i64 (z : Z) : option Z := if i64_fits z then Some z else None.

(** ** Column types *)

(** A [ColumnType] of the models. *)
Inductive ColumnType :=
  | TChar | TString | TText | TBlob | TBinary | TVarBinary
  | TTinyInteger | TSmallInteger | TInteger | TBigInteger
  | TTinyUnsigned | TSmallUnsigned | TUnsigned | TBigUnsigned
  | TFloat | TDouble | TDecimal | TMoney | TBoolean
  | TDate | TTime | TDateTime | TTimestamp | TTimestampWithTimeZone
  | TUuid | TJson | TJsonBinary | TArray (element : ColumnType) | TOther.

(** [internal::is_integer]. *)
Definition is_integer (column_type : ColumnType) : bool :=
  match column_type with
  | TTinyInteger | TSmallInteger | TInteger | TBigInteger
  | TTinyUnsigned | TSmallUnsigned | TUnsigned | TBigUnsigned => true
  | _ => false
  end.

Definition is_decimal (column_type : ColumnType) : bool :=
  match column_type with TDecimal | TMoney => true | _ => false end.

(** ** What is computed elsewhere

    The [f64]s and their text, [rust_decimal]'s reading of it (normalized), its parts, and
    the values a driver binds. *)
Class Arithmetic (Bound : Type) := {
  f64 : Type;
  is_finite : f64 → bool;
  is_zero : f64 → bool;
  f64_text : f64 → str;
  lower_exp : f64 → str;
  powi2 : Z → f64;
  f32_max : f64;
  f64_max : f64;
  SQLITE_DECIMAL_MAX : f64;
  Decimal : Type;
  decimal_from_str : str → option Decimal;
  normalize : Decimal → Decimal;
  mantissa : Decimal → Z;
  scale : Decimal → nat;
  BigInt : Z → Bound;
  Double : f64 → Bound;
  DecimalValue : Decimal → Bound;
}.

Definition SQLITE_ABORT : str := lit "abs(-9223372036854775808)".

(** The Euclidean loop; the second operand halves every two rounds. *)
Fixpoint gcd_fuel (fuel : nat) (a b : N) : N :=
  match fuel with
  | 0 => a
  | S fuel' => if (b =? 0)%N then a else gcd_fuel fuel' b (a mod b)%N
  end.
Definition gcd (a b : N) : N := gcd_fuel 129 a b.

Section arithmetic.
Context {Bound : Type} `{Arithmetic Bound}.

Definition exact_decimal (factor : f64) : option Decimal := normalize <$> decimal_from_str (f64_text factor).

(** The numerator and the denominator to scale by, the divisor positive; [None] as soon as
    a part does not fit. *)
Definition sqlite_scale_parts (factor : Decimal) (divide : bool) : option (Z * Z) :=
  numerator ← checked_i64 (mantissa factor);
  denominator ← checked_i64 (10 ^ Z.of_nat (scale factor))%Z;
  common ← checked_i64 (Z.of_N (gcd (Z.abs_N numerator) (Z.abs_N denominator)));
  let numerator := Z.quot numerator common in
  let denominator := Z.quot denominator common in
  let '(times, over) := if divide then (denominator, numerator) else (numerator, denominator) in
  '(times, over) ←
    (if (over <? 0)%Z then
       times ← checked_i64 (- times)%Z; over ← checked_i64 (- over)%Z; Some (times, over)
     else Some (times, over));
  magnitude ← checked_i64 (Z.abs times);
  share ← checked_i64 ((over - 1) * magnitude)%Z;
  _ ← checked_i64 (share + Z.quot over 2)%Z;
  Some (times, over).

(** The closure [scaled]: each value is bound where it stands. *)
Definition scaled_operand (db : DatabaseType) (times : Z) (operand : str) (params : list Bound)
    : list Bound * str :=
  if (times =? 1)%Z then (params, operand)
  else
    let '(params, marker) := push_param db params (BigInt times) in
    (params, operand ++ lit " * " ++ marker).

Definition sqlite_integer_scale (col : str) (factor : Decimal) (divide : bool) (db : DatabaseType)
    (params : list Bound) : option (list Bound * str) :=
  '(times, over) ← sqlite_scale_parts factor divide;
  if (over =? 1)%Z then Some (scaled_operand db times col params)
  else
    let '(params, marker) := push_param db params (BigInt over) in
    let '(params, quotient) := scaled_operand db times (lit "(" ++ col ++ lit " / " ++ marker ++ lit ")") params in
    let '(params, marker) := push_param db params (BigInt over) in
    let '(params, remainder) := scaled_operand db times (lit "(" ++ col ++ lit " % " ++ marker ++ lit ")") params in
    let half := Z.quot over 2 in
    let '(below_zero, otherwise) := if (times <? 0)%Z then (half, (- half)%Z) else ((- half)%Z, half) in
    let '(params, below_zero) := push_param db params (BigInt below_zero) in
    let '(params, otherwise) := push_param db params (BigInt otherwise) in
    let '(params, divisor) := push_param db params (BigInt over) in
    Some (params, quotient ++ lit " + (" ++ remainder ++ lit " + CASE WHEN " ++ col ++ lit " < 0 THEN "
           ++ below_zero ++ lit " ELSE " ++ otherwise ++ lit " END) / " ++ divisor).

(** The bounds of the model's integer, [own] those of a field the macros know. *)
Definition sqlite_integer_bounds (own : option (Z * Z)) (kind : option ColumnType) : Z * Z :=
  match own with
  | Some bounds => bounds
  | None =>
      match kind with
      | Some TTinyInteger => (- 2 ^ 7, 2 ^ 7 - 1)%Z
      | Some TSmallInteger => (- 2 ^ 15, 2 ^ 15 - 1)%Z
      | Some TInteger => (- 2 ^ 31, 2 ^ 31 - 1)%Z
      | Some TTinyUnsigned => (0, 2 ^ 8 - 1)%Z
      | Some TSmallUnsigned => (0, 2 ^ 16 - 1)%Z
      | Some TUnsigned => (0, 2 ^ 32 - 1)%Z
      | Some TBigUnsigned => (0%Z, i64_max)
      | _ => (i64_min, i64_max)
      end
  end.

Definition sqlite_integer_checked (own : option (Z * Z)) (kind : option ColumnType) (checked bounded result : str) : str :=
  let '(min, max) := sqlite_integer_bounds own kind in
  lit "CASE WHEN typeof(" ++ checked ++ lit ") IN ('integer', 'null') AND COALESCE((" ++ bounded
  ++ lit ") BETWEEN " ++ show_Z min ++ lit " AND " ++ show_Z max ++ lit ", 1) THEN " ++ result
  ++ lit " ELSE " ++ SQLITE_ABORT ++ lit " END".

(** [sqlite_f32_round], with eight factors, from 2^128 down to 2^1. *)
Definition sqlite_f32_round (expression : str) : str :=
  let factors := join (lit " ") ((λ step, lit "WHEN " ++ show_N (N.of_nat step) ++ lit " THEN "
                    ++ lower_exp (powi2 (Z.shiftr 128 (Z.of_nat step)))) <$> seq 0 8) in
  let factor := lit "(CASE step " ++ factors ++ lit " END)" in
  let minimum := lower_exp (powi2 (-149)) in
  lit "(WITH RECURSIVE input(value) AS (SELECT " ++ expression ++ lit "), spacing(step, quantum) AS (VALUES(0, "
  ++ minimum ++ lit ") UNION ALL SELECT step + 1, CASE WHEN abs(value) >= quantum * " ++ factor
  ++ lit " * 8388608.0 THEN quantum * " ++ factor
  ++ lit " ELSE quantum END FROM spacing, input WHERE step < 8), scaled(value, quantum, units) AS (SELECT value, quantum, abs(value) / quantum FROM input, spacing WHERE step = 8), parts(value, quantum, units, whole) AS (SELECT value, quantum, units, CAST(units AS INTEGER) FROM scaled) SELECT CASE WHEN value IS NULL THEN NULL ELSE (CASE WHEN value < 0 THEN -1.0 ELSE 1.0 END) * quantum * (whole + CASE WHEN units - whole > 0.5 OR (units - whole = 0.5 AND whole % 2 = 1) THEN 1 ELSE 0 END) END FROM parts)".

(** [maximum == f64::from(f32::MAX)]: the column is a [Float]. *)
Definition sqlite_float_arithmetic (kind : option ColumnType) (col operator : str) (operand : Bound)
    (params : list Bound) : option (list Bound * str) :=
  '(maximum, single) ←
    match kind with
    | Some TFloat => Some (f32_max, true)
    | Some TDouble => Some (f64_max, false)
    | Some (TDecimal | TMoney) => Some (SQLITE_DECIMAL_MAX, false)
    | _ => None
    end;
  let '(params, bounded) := push_param SQLite params operand in
  let '(params, result) := push_param SQLite params operand in
  let expression :=
    lit "CASE WHEN " ++ col ++ lit " IS NULL OR (" ++ col ++ lit " " ++ operator ++ lit " " ++ bounded
    ++ lit ") BETWEEN -" ++ lower_exp maximum ++ lit " AND " ++ lower_exp maximum ++ lit " THEN " ++ col
    ++ lit " " ++ operator ++ lit " " ++ result ++ lit " ELSE " ++ SQLITE_ABORT ++ lit " END" in
  Some (params, if (single : bool) then sqlite_f32_round expression else expression).

Definition stepped (own : option (Z * Z)) (kind : option ColumnType) (col : str) (db : DatabaseType)
    (params : list Bound) (operator : str) (by_ : Z) : list Bound * str :=
  let operand := BigInt by_ in
  let step params :=
    let '(params, marker) := push_param db params operand in
    (params, col ++ lit " " ++ operator ++ lit " " ++ marker) in
  match (match db with SQLite => sqlite_float_arithmetic kind col operator operand params | _ => None end) with
  | Some floating => floating
  | None =>
      let '(params, expression) := step params in
      match db, kind with
      | SQLite, Some kind' =>
          if is_integer kind' then
            let '(params, bounded) := step params in
            let '(params, result) := step params in
            (params, sqlite_integer_checked own kind expression bounded result)
          else (params, expression)
      | _, _ => (params, expression)
      end
  end.

(** [scaled]: an exact factor where the column is exact, and a float else. *)
Definition scaled (own : option (Z * Z)) (kind : option ColumnType) (col : str) (db : DatabaseType)
    (params : list Bound) (factor : f64) (divide : bool) : result (list Bound * str) str :=
  if negb (is_finite factor) || (divide && is_zero factor) then
    Err (lit "bulk arithmetic requires a finite factor and a nonzero divisor")
  else
    let integral := match kind with Some kind => is_integer kind | None => false end in
    let decimal := match kind with Some kind => is_decimal kind | None => false end in
    let operator := if divide then lit "/" else lit "*" in
    let plainly params :=
      let '(params, marker) := push_param db params (Double factor) in
      Ok (params, col ++ lit " " ++ operator ++ lit " " ++ marker) in
    let floating :=
      match db with
      | SQLite =>
          if integral then
            Err (lit "SQLite cannot scale this integer column exactly with the requested factor")
          else
            match sqlite_float_arithmetic kind col operator (Double factor) params with
            | Some expression => Ok expression
            | None => plainly params
            end
      | _ => plainly params
      end in
    match db, exact_decimal factor with
    | SQLite, Some exact =>
        if integral then
          match sqlite_integer_scale col exact divide db params with
          | Some (params, checked) =>
              match sqlite_integer_scale col exact divide db params with
              | Some (params, bounded) =>
                  match sqlite_integer_scale col exact divide db params with
                  | Some (params, result) => Ok (params, sqlite_integer_checked own kind checked bounded result)
                  | None => Err (lit "the same exact factor was already accepted")
                  end
              | None => Err (lit "the same exact factor was already accepted")
              end
          | None => floating
          end
        else floating
    | (Postgres | MySQL | MariaDB), Some exact =>
        if integral || decimal then
          let '(params, marker) := push_param db params (DecimalValue exact) in
          Ok (params, col ++ lit " " ++ operator ++ lit " " ++ marker)
        else floating
    | _, _ => floating
    end.

End arithmetic.
