(* ===== verification/ExactArithmetic.v ===== *)
(** * What SQLite computes for bulk arithmetic

    The theorems of [BulkArithmetic]: the expressions it writes, read as SQLite reads and
    evaluates them, scale a 64-bit integer exactly, rounding half away from zero, or stop
    the statement. *)

From S2P Require Import Prelude Dialect Decimals BulkArithmetic.
Local Open Scope tide_scope.
Local Open Scope Z_scope.

(** ** SQLite's expressions *)

Inductive BinOp := OAdd | OSub | OMul | ODiv | OMod.

(** A column, a bound integer, parentheses, an operation, and
    [CASE WHEN column < 0 THEN t ELSE e END]. *)
Inductive Sql :=
  | Col
  | Par (z : Z)
  | Group (e : Sql)
  | Bin (o : BinOp) (l r : Sql)
  | IfNegative (t e : Sql).

(** The precedence of the operators: [* / %] before [+ -], all to the left. *)
Definition level (e : Sql) : nat :=
  match e with
  | Bin (OAdd | OSub) _ _ => 1
  | Bin (OMul | ODiv | OMod) _ _ => 2
  | _ => 3
  end%nat.

(** The text of such an expression is read as that expression. *)
Fixpoint grouped (e : Sql) : bool :=
  match e with
  | Col | Par _ => true
  | Group e => grouped e
  | Bin o l r => grouped l && grouped r && (level e <=? level l)%nat && (level e <? level r)%nat
  | IfNegative t e => grouped t && grouped e
  end.

Definition op_text (o : BinOp) : str :=
  match o with
  | OAdd => lit " + " | OSub => lit " - " | OMul => lit " * " | ODiv => lit " / " | OMod => lit " % "
  end.

Section emit.
Context {Bound : Type} `{Arithmetic Bound}.

(** The text of an expression and the values it binds, in order. *)
Fixpoint emit (col : str) (e : Sql) (params : list Bound) : list Bound * str :=
  match e with
  | Col => (params, col)
  | Par z => push_param SQLite params (BigInt z)
  | Group e => let '(params, t) := emit col e params in (params, lit "(" ++ t ++ lit ")")
  | Bin o l r =>
      let '(params, tl) := emit col l params in
      let '(params, tr) := emit col r params in
      (params, tl ++ op_text o ++ tr)
  | IfNegative t e =>
      let '(params, text_t) := emit col t params in
      let '(params, text_e) := emit col e params in
      (params, lit "CASE WHEN " ++ col ++ lit " < 0 THEN " ++ text_t ++ lit " ELSE " ++ text_e ++ lit " END")
  end.
End emit.

(** A value: an integer of 64 bits, or a float, which overflow makes of integers. *)
Inductive Val := VNull | VInt (z : Z) | VReal.

Definition int_or_real (z : Z) : Val := if i64_fits z then VInt z else VReal.

Definition apply_op (o : BinOp) (a b : Val) : Val :=
  match a, b with
  | VNull, _ | _, VNull => VNull
  | VInt x, VInt y =>
      match o with
      | OAdd => int_or_real (x + y)
      | OSub => int_or_real (x - y)
      | OMul => int_or_real (x * y)
      | ODiv => if y =? 0 then VNull else int_or_real (Z.quot x y)
      | OMod => if y =? 0 then VNull else VInt (Z.rem x y)
      end
  | _, _ => VReal
  end.

(** The value on a row that holds [v] in the column. *)
Fixpoint eval (v : option Z) (e : Sql) : Val :=
  match e with
  | Col => match v with Some z => VInt z | None => VNull end
  | Par z => VInt z
  | Group e => eval v e
  | Bin o l r => apply_op o (eval v l) (eval v r)
  | IfNegative t e =>
      match v with
      | Some z => if z <? 0 then eval v t else eval v e
      | None => eval v e
      end
  end.

(** What [CASE WHEN typeof(checked) IN ('integer', 'null') AND COALESCE((bounded) BETWEEN
    min AND max, 1) THEN result ELSE abs(-9223372036854775808) END] does to the row. *)
Inductive Outcome := Stored (v : Val) | Aborted.

Definition checked_outcome (min max : Z) (checked bounded result : Val) : Outcome :=
  let typed := match checked with VReal => false | _ => true end in
  let between := match bounded with VNull => true | VInt z => (min <=? z) && (z <=? max) | VReal => false end in
  if typed && between then Stored result else Aborted.

(** ** Rounding *)

(** [num / den] rounded half away from zero. *)
Definition half_away (num den : Z) : Z :=
  Z.sgn num * Z.sgn den * ((2 * Z.abs num + Z.abs den) / (2 * Z.abs den)).

(** It is the nearest integer, and of two nearest the one farther from zero. *)
Lemma half_away_nearest num den : den ≠ 0 →
  2 * Z.abs (num - half_away num den * den) ≤ Z.abs den
  ∧ (2 * Z.abs (num - half_away num den * den) = Z.abs den → Z.abs num < Z.abs (half_away num den * den)).
Proof.
  intros Hd. unfold half_away. set (q := (2 * Z.abs num + Z.abs den) / (2 * Z.abs den)).
  pose proof (Z.div_mod (2 * Z.abs num + Z.abs den) (2 * Z.abs den) ltac:(lia)) as Hq. fold q in Hq.
  pose proof (Z.mod_pos_bound (2 * Z.abs num + Z.abs den) (2 * Z.abs den) ltac:(lia)) as Hr.
  assert (0 ≤ q) as Hq0 by (apply Z.div_pos; lia).
  assert (num = 0 → q = 0) as Hz.
  { intros ->. unfold q. apply Z.div_small. lia. }
  assert (Z.sgn num * Z.sgn den * q * den = Z.sgn num * (q * Z.abs den)) as E.
  { assert (Z.abs den = Z.sgn den * den) as -> by (destruct den; reflexivity). ring. }
  rewrite E. destruct (Z.sgn_spec num) as [[Hn ->]|[[Hn ->]|[Hn ->]]].
  - nia.
  - rewrite Hz in * by done. nia.
  - nia.
Qed.

Lemma half_away_scale k num den : k ≠ 0 → den ≠ 0 → half_away (k * num) (k * den) = half_away num den.
Proof.
  intros Hk Hd. unfold half_away. rewrite !Z.abs_mul, !Z.sgn_mul.
  replace (2 * (Z.abs k * Z.abs num) + Z.abs k * Z.abs den) with (Z.abs k * (2 * Z.abs num + Z.abs den)) by lia.
  replace (2 * (Z.abs k * Z.abs den)) with (Z.abs k * (2 * Z.abs den)) by lia.
  rewrite Z.div_mul_cancel_l by lia. assert (Z.sgn k * Z.sgn k = 1) as Hs by (destruct k; done). nia.
Qed.

Lemma half_away_opp_num num den : half_away (- num) den = - half_away num den.
Proof. unfold half_away. rewrite Z.abs_opp, Z.sgn_opp. lia. Qed.

Lemma half_away_opp_den num den : half_away num (- den) = - half_away num den.
Proof. unfold half_away. rewrite Z.abs_opp, Z.sgn_opp. lia. Qed.

Lemma half_away_one num : half_away num 1 = num.
Proof. unfold half_away. replace (2 * Z.abs num + Z.abs 1) with (Z.abs num * 2 + 1) by lia. rewrite Z.div_add_l by lia. cbn. lia. Qed.

(** ** The scaling expression *)

(** [operand * times], or the operand alone. *)
Definition times_of (times : Z) (operand : Sql) : Sql :=
  if times =? 1 then operand else Bin OMul operand (Par times).

Definition scale_expr (times over : Z) : Sql :=
  if over =? 1 then times_of times Col
  else
    let half := Z.quot over 2 in
    let '(below_zero, otherwise) := if times <? 0 then (half, - half) else (- half, half) in
    Bin OAdd (times_of times (Group (Bin ODiv Col (Par over))))
      (Bin ODiv (Group (Bin OAdd (times_of times (Group (Bin OMod Col (Par over)))) (IfNegative (Par below_zero) (Par otherwise))))
         (Par over)).

Lemma scale_expr_grouped times over : grouped (scale_expr times over) = true.
Proof. unfold scale_expr, times_of. destruct (over =? 1), (times =? 1), (times <? 0); reflexivity. Qed.

Lemma eval_times_of v times e : eval v (times_of times e) = apply_op OMul (eval v e) (VInt times) ∨ times = 1 ∧ eval v (times_of times e) = eval v e.
Proof. unfold times_of. destruct (Z.eqb_spec times 1) as [->|]; [by right|by left]. Qed.

Lemma fits_spec z : i64_fits z = true ↔ i64_min ≤ z ≤ i64_max.
Proof. unfold i64_fits. rewrite andb_true_iff, !Z.leb_le. done. Qed.

Lemma fits_closer a b : i64_fits b = true → Z.abs a ≤ Z.abs b → 0 ≤ a * b → i64_fits a = true.
Proof. rewrite !fits_spec. unfold i64_min, i64_max. nia. Qed.

(** Multiplying by one changes nothing of an integer of 64 bits. *)
Lemma eval_times_int v times e z : eval v e = VInt z → i64_fits z = true → eval v (times_of times e) = int_or_real (z * times).
Proof.
  intros E Hz. destruct (eval_times_of v times e) as [->|[-> ->]]; rewrite E; [done|].
  unfold int_or_real. by rewrite Z.mul_1_r, Hz.
Qed.

(** The quotient's share and the remainder's, rounded, make the rounded product. *)
Lemma split_product v times over half : 0 < over → half = Z.quot over 2 →
  let h := if times <? 0 then (if v <? 0 then half else - half) else (if v <? 0 then - half else half) in
  Z.quot v over * times + Z.quot (Z.rem v over * times + h) over = half_away (v * times) over.
Proof.
  intros Ho Hhalf.
  (* The case of a positive column and factor; the others mirror it. *)
  assert (∀ v times, 0 ≤ v → 0 ≤ times →
    v / over * times + (v mod over * times + over / 2) / over = half_away (v * times) over) as Hpos.
  { clear v times. intros v times Hv Ht. pose proof (Z.div_mod v over ltac:(lia)) as Hdm.
    set (q := v / over) in *. set (r := v mod over) in *.
    assert (half_away (v * times) over = (2 * (v * times) + over) / (2 * over)) as ->.
    { unfold half_away. rewrite !Z.abs_eq by nia. rewrite (Z.sgn_pos over), Z.mul_1_r by done.
      destruct (Z.eq_dec (v * times) 0) as [->|Hne]; [|rewrite Z.sgn_pos by nia; lia].
      cbn. rewrite Z.div_small by lia. done. }
    rewrite Hdm. replace (2 * ((over * q + r) * times) + over) with (q * times * (2 * over) + (2 * (r * times) + over)) by ring.
    rewrite Z.div_add_l by lia. f_equal.
    pose proof (Z.div_mod over 2 ltac:(lia)) as Hh. pose proof (Z.mod_pos_bound over 2 ltac:(lia)).
    set (h := over / 2) in *.
    apply (Z.div_unique_pos _ _ _ (2 * ((r * times + h) mod over) + over mod 2)).
    - pose proof (Z.mod_pos_bound (r * times + h) over ltac:(lia)). lia.
    - pose proof (Z.div_mod (r * times + h) over ltac:(lia)). lia. }
  assert (half = over / 2) as Hh by (rewrite Hhalf; apply Z.quot_div_nonneg; lia).
  cbn zeta. rewrite Hh. clear half Hhalf Hh.
  assert (∀ a, 0 ≤ a → Z.quot a over = a / over) as Hq by (intros; apply Z.quot_div_nonneg; lia).
  assert (∀ a, 0 ≤ a → Z.rem a over = a mod over) as Hm by (intros; apply Z.rem_mod_nonneg; lia).
  assert (∀ a, 0 ≤ a → 0 ≤ a mod over) as Hm0 by (intros; apply Z.mod_pos_bound; lia).
  assert (0 ≤ over / 2) as Hh0 by (apply Z.div_pos; lia).
  destruct (Z.ltb_spec times 0) as [Ht|Ht], (Z.ltb_spec v 0) as [Hv|Hv].
  - rewrite <- (Z.opp_involutive v), Z.quot_opp_l, Z.rem_opp_l by lia. rewrite Hq, Hm by lia.
    replace (- ((- v) mod over) * times + over / 2) with ((- v) mod over * (- times) + over / 2) by ring.
    rewrite (Hq ((- v) mod over * (- times) + over / 2)) by (specialize (Hm0 (- v)); nia).
    replace (- - v * times) with (- v * - times) by ring. rewrite <- Hpos by lia. ring.
  - rewrite Hq, Hm by lia. replace (v mod over * times + - (over / 2)) with (- (v mod over * (- times) + over / 2)) by ring.
    rewrite Z.quot_opp_l by lia. rewrite Hq by (specialize (Hm0 v); nia).
    replace (v * times) with (- (v * - times)) by ring. rewrite half_away_opp_num, <- Hpos by lia. ring.
  - rewrite <- (Z.opp_involutive v), Z.quot_opp_l, Z.rem_opp_l by lia. rewrite Hq, Hm by lia.
    replace (- ((- v) mod over) * times + - (over / 2)) with (- ((- v) mod over * times + over / 2)) by ring.
    rewrite Z.quot_opp_l by lia. rewrite Hq by (specialize (Hm0 (- v)); nia).
    replace (- - v * times) with (- ((- v) * times)) by ring. rewrite half_away_opp_num, <- Hpos by lia. ring.
  - rewrite Hq, Hm by lia. rewrite Hq by (specialize (Hm0 v); nia). by rewrite <- Hpos.
Qed.

(** ** The fraction *)

(** Two rounds of Euclid's loop halve the second operand. *)
Lemma gcd_fuel_spec k : ∀ a b, (b < 2 ^ N.of_nat k)%N → ∀ fuel, (2 * k + 1 ≤ fuel)%nat → gcd_fuel fuel a b = N.gcd a b.
Proof.
  induction k as [|k IH]; intros a b Hb fuel Hf.
  { destruct fuel as [|fuel]; [lia|]. cbn in Hb. assert (b = 0)%N as -> by lia. cbn. by rewrite N.gcd_0_r. }
  destruct fuel as [|[|fuel]]; [lia|lia|]. cbn [gcd_fuel]. destruct (N.eqb_spec b 0) as [->|Hb0]; [by rewrite N.gcd_0_r|].
  assert (N.gcd a b = N.gcd b (a mod b)) as -> by (rewrite (N.gcd_comm b), N.gcd_mod by done; apply N.gcd_comm).
  set (c := (a mod b)%N). assert (c < b)%N as Hc by (apply N.mod_lt; done).
  destruct (N.eqb_spec c 0) as [->|Hc0]; [by rewrite N.gcd_0_r|].
  assert (N.gcd b c = N.gcd c (b mod c)) as -> by (rewrite (N.gcd_comm c), N.gcd_mod by done; apply N.gcd_comm).
  apply IH; [|lia]. pose proof (N.div_mod' b c) as Hd. pose proof (N.mod_lt b c Hc0).
  assert (1 ≤ b / c)%N by (apply N.div_le_lower_bound; lia).
  rewrite Nat2N.inj_succ, N.pow_succ_r' in Hb. nia.
Qed.

Lemma of_N_gcd a b : Z.of_N (N.gcd a b) = Z.gcd (Z.of_N a) (Z.of_N b).
Proof. by destruct a, b. Qed.

Section exact.
Context {Bound : Type} `{Arithmetic Bound}.

Lemma checked_Some z z' : checked_i64 z = Some z' → z' = z ∧ i64_fits z = true.
Proof. unfold checked_i64. destruct (i64_fits z); [|done]. by intros [= ->]. Qed.

(** The decimal as a fraction to multiply by. *)
Definition fraction (factor : Decimal) (divide : bool) : Z * Z :=
  let den := 10 ^ Z.of_nat (scale factor) in
  if divide then (den, mantissa factor) else (mantissa factor, den).

Lemma reduced numerator denominator common :
  0 < denominator → i64_fits denominator = true → Z.of_N (gcd (Z.abs_N numerator) (Z.abs_N denominator)) = common →
  0 < common ∧ Z.quot numerator common * common = numerator ∧ Z.quot denominator common * common = denominator
  ∧ 0 < Z.quot denominator common ∧ Z.abs (Z.quot numerator common) ≤ Z.abs numerator ∧ Z.quot denominator common ≤ denominator.
Proof.
  intros Hd Hf%fits_spec. unfold gcd. rewrite (gcd_fuel_spec 64).
  - intros <-. set (g := N.gcd _ _).
    assert (Z.of_N g = Z.gcd numerator denominator) as ->.
    { unfold g. rewrite of_N_gcd, !N2Z.inj_abs_N. by rewrite Z.gcd_abs_l, Z.gcd_abs_r. }
    set (c := Z.gcd numerator denominator).
    assert (0 < c) as Hc.
    { pose proof (Z.gcd_nonneg numerator denominator). destruct (Z.eq_dec c 0) as [E|]; [|unfold c in *; lia].
      apply Z.gcd_eq_0_r in E. lia. }
    destruct (Z.gcd_divide_l numerator denominator) as [n Hn]. destruct (Z.gcd_divide_r numerator denominator) as [d Hd'].
    fold c in Hn, Hd'. rewrite Hn, Hd', !Z.quot_mul by lia. nia.
  - unfold i64_max in *. apply N2Z.inj_lt. rewrite N2Z.inj_abs_N, Z.abs_eq by lia. change (Z.of_N (2 ^ N.of_nat 64)) with (2 ^ 64). lia.
  - lia.
Qed.

(** The sign moved off the divisor, and the bound on the remainder's share. *)
Lemma signed_parts n d (divide : bool) times over : 0 < d → i64_fits n = true → i64_fits d = true →
  (let '(times, over) := if divide then (d, n) else (n, d) in
   '(times, over) ←
     (if (over <? 0) then times ← checked_i64 (- times); over ← checked_i64 (- over); Some (times, over)
      else Some (times, over) : option (Z * Z));
   magnitude ← checked_i64 (Z.abs times);
   share ← checked_i64 ((over - 1) * magnitude);
   _ ← checked_i64 (share + Z.quot over 2);
   Some (times, over) : option (Z * Z)) = Some (times, over) →
  ∃ s, (s = 1 ∨ s = -1 ∧ divide = true) ∧ times = s * (if divide then d else n) ∧ over = s * (if divide then n else d)
    ∧ 0 ≤ over ∧ i64_fits over = true ∧ i64_fits times = true ∧ i64_fits ((over - 1) * Z.abs times + Z.quot over 2) = true.
Proof.
  intros Hd Hfn Hfd Heq.
  assert (∀ times' over', (magnitude ← checked_i64 (Z.abs times'); share ← checked_i64 ((over' - 1) * magnitude);
      _ ← checked_i64 (share + Z.quot over' 2); Some (times', over')) = Some (times, over) →
      times = times' ∧ over = over' ∧ i64_fits ((over - 1) * Z.abs times + Z.quot over 2) = true) as Htail.
  { intros t o. destruct (checked_i64 (Z.abs t)) as [a|] eqn:Ea; [|done]. apply checked_Some in Ea as [-> _]. cbn [mbind option_bind].
    destruct (checked_i64 ((o - 1) * Z.abs t)) as [b|] eqn:Eb; [|done]. apply checked_Some in Eb as [-> _]. cbn [mbind option_bind].
    destruct (checked_i64 ((o - 1) * Z.abs t + Z.quot o 2)) as [x|] eqn:Ex; [|done]. apply checked_Some in Ex as [_ ?].
    cbn [mbind option_bind]. by intros [= <- <-]. }
  destruct divide.
  - destruct (Z.ltb_spec n 0).
    + destruct (checked_i64 (- d)) as [d'|] eqn:E5; [|done]. apply checked_Some in E5 as [-> Hd']. cbn [mbind option_bind] in Heq.
      destruct (checked_i64 (- n)) as [n'|] eqn:E6; [|done]. apply checked_Some in E6 as [-> Hn']. cbn [mbind option_bind] in Heq.
      apply Htail in Heq as (Et & Eo & Hsh). exists (-1). replace (-1 * d) with (- d) by lia. replace (-1 * n) with (- n) by lia.
      rewrite Et, Eo in *. split_and!; auto. lia.
    + cbn [mbind option_bind] in Heq. apply Htail in Heq as (-> & -> & ?). exists 1. rewrite !Z.mul_1_l. auto 10.
  - destruct (Z.ltb_spec d 0); [lia|]. cbn [mbind option_bind] in Heq. apply Htail in Heq as (-> & -> & ?).
    exists 1. rewrite !Z.mul_1_l. split_and!; auto; lia.
Qed.

Lemma scale_parts_spec factor divide times over : sqlite_scale_parts factor divide = Some (times, over) →
  0 ≤ over ∧ (over = 0 → divide = true ∧ mantissa factor = 0)
  ∧ i64_fits over = true ∧ i64_fits times = true ∧ i64_fits ((over - 1) * Z.abs times + Z.quot over 2) = true
  ∧ ∀ v, 0 < over → half_away (v * times) over = half_away (v * (fraction factor divide).1) (fraction factor divide).2.
Proof.
  unfold sqlite_scale_parts, fraction. assert (0 < 10 ^ Z.of_nat (scale factor)) as Hpos by lia. revert Hpos.
  generalize (mantissa factor) as m, (10 ^ Z.of_nat (scale factor)) as den. intros m den Hpos.
  intros (m' & [-> Hm]%checked_Some & (den' & [-> Hden]%checked_Some & Heq)%bind_Some)%bind_Some. revert Heq.
  pose proof (λ c, reduced m den c Hpos Hden) as Hred. revert Hred. generalize (Z.of_N (gcd (Z.abs_N m) (Z.abs_N den))) as g.
  intros g Hred. destruct (Hred g eq_refl) as (Hc & En & Ed & Hd0 & Hn & Hd). clear Hred.
  intros (c & [-> _]%checked_Some & Heq)%bind_Some.
  revert En Ed Hd0 Hn Hd Heq. generalize (Z.quot m g) as n, (Z.quot den g) as d. intros n d En Ed Hd0 Hn Hd Heq.
  assert (i64_fits n = true) as Hfn by (rewrite fits_spec in *; unfold i64_min, i64_max in *; lia).
  assert (i64_fits d = true) as Hfd by (rewrite fits_spec in *; unfold i64_min, i64_max in *; lia).
  destruct (signed_parts n d divide times over Hd0 Hfn Hfd Heq) as (s & Hs & Et & Eo & Hov & Hfo & Hft & Hsh).
  split_and!; try done.
  - intros Hz. destruct divide; [|nia]. split; [done|]. nia.
  - intros v Hgt. destruct divide; cbn [fst snd].
    + rewrite <- (half_away_scale (s * g) (v * times) over) by nia. rewrite Et, Eo. f_equal.
      * rewrite <- Ed. destruct Hs as [->|[-> _]]; ring.
      * rewrite <- En. destruct Hs as [->|[-> _]]; ring.
    + rewrite <- (half_away_scale g (v * times) over) by nia. destruct Hs as [->|[-> ?]]; [|done].
      rewrite Et, Eo. f_equal; [rewrite <- En|rewrite <- Ed]; ring.
Qed.
End exact.

(** ** Its value *)

Lemma quot_closer a b : 0 < b → Z.abs (Z.quot a b) ≤ Z.abs a ∧ 0 ≤ Z.quot a b * a.
Proof.
  intros Hb. assert (∀ a, 0 ≤ a → 0 ≤ Z.quot a b ≤ a) as Hpos.
  { intros x Hx. split; [apply Z.quot_pos; lia|apply Z.quot_le_upper_bound; nia]. }
  destruct (Z.le_ge_cases 0 a) as [Ha|Ha]; [specialize (Hpos a Ha); nia|].
  specialize (Hpos (- a) ltac:(lia)). rewrite Z.quot_opp_l in Hpos by lia. nia.
Qed.

Lemma rem_closer a b : 0 < b → Z.abs (Z.rem a b) ≤ b - 1 ∧ Z.abs (Z.rem a b) ≤ Z.abs a ∧ 0 ≤ Z.rem a b * a.
Proof.
  intros Hb. assert (∀ a, 0 ≤ a → 0 ≤ Z.rem a b ≤ b - 1 ∧ Z.rem a b ≤ a) as Hpos.
  { intros x Hx. rewrite Z.rem_mod_nonneg by lia. pose proof (Z.mod_pos_bound x b Hb).
    pose proof (Z.mod_le x b Hx Hb). lia. }
  destruct (Z.le_ge_cases 0 a) as [Ha|Ha]; [specialize (Hpos a Ha); nia|].
  specialize (Hpos (- a) ltac:(lia)). rewrite Z.rem_opp_l in Hpos by lia. nia.
Qed.

Lemma fits_abs a b : i64_fits b = true → Z.abs a ≤ b → i64_fits a = true.
Proof. rewrite !fits_spec. unfold i64_min, i64_max. lia. Qed.

Lemma fits_part a b : 0 ≤ a * b → i64_fits (a + b) = true → i64_fits a = true.
Proof. intros Hab Hf. apply (fits_closer a (a + b)); [done|nia|nia]. Qed.

Lemma same_sign_trans a b c : c ≠ 0 → 0 ≤ a * c → 0 ≤ b * c → 0 ≤ a * b.
Proof. nia. Qed.

Lemma int_or_real_fits z : i64_fits z = true → int_or_real z = VInt z.
Proof. unfold int_or_real. by intros ->. Qed.

(** A sum whose parts have one sign overflows where a part does. *)
Lemma add_same_sign a b : i64_fits b = true → 0 ≤ a * b → apply_op OAdd (int_or_real a) (VInt b) = int_or_real (a + b).
Proof.
  intros Hb Hs. unfold int_or_real at 1. destruct (i64_fits a) eqn:Ha; [done|]. cbn.
  unfold int_or_real. destruct (i64_fits (a + b)) eqn:E; [|done].
  by rewrite (fits_part a b Hs E) in Ha.
Qed.

(** Nothing but the result can overflow: the shares have its sign and are no larger. *)
Lemma scale_eval times over v : 0 < over → i64_fits v = true →
  i64_fits ((over - 1) * Z.abs times + Z.quot over 2) = true →
  eval (Some v) (scale_expr times over) = int_or_real (half_away (v * times) over).
Proof.
  intros Ho Hv Hs. unfold scale_expr. destruct (Z.eqb_spec over 1) as [->|Hne].
  { rewrite half_away_one. by apply eval_times_int. }
  rewrite <- (split_product v times over (Z.quot over 2) Ho eq_refl). cbn zeta.
  set (half := Z.quot over 2) in *. assert (0 ≤ half) as Hh by (apply Z.quot_pos; lia).
  destruct (quot_closer v over Ho) as [Hq Hqs]. destruct (rem_closer v over Ho) as (Hr & Hrv & Hrs).
  set (h := if times <? 0 then if v <? 0 then half else - half else if v <? 0 then - half else half).
  set (q := Z.quot v over) in *. set (r := Z.rem v over) in *.
  assert (i64_fits q = true) as Hfq by (apply (fits_closer q v); [done|lia|nia]).
  assert (i64_fits r = true) as Hfr by (apply (fits_closer r v); [done|lia|nia]).
  assert (∀ e z, eval (Some v) e = VInt z → i64_fits z = true →
    eval (Some v) (times_of times (Group e)) = int_or_real (z * times)) as Htimes by (intros; by apply eval_times_int).
  assert (eval (Some v) (Bin ODiv Col (Par over)) = VInt q) as Eq.
  { cbn. destruct (Z.eqb_spec over 0); [lia|]. by apply int_or_real_fits. }
  assert (eval (Some v) (Bin OMod Col (Par over)) = VInt r) as Er.
  { cbn. by destruct (Z.eqb_spec over 0); [lia|]. }
  assert (0 ≤ (r * times) * h ∧ 0 ≤ (r * times) * (v * times) ∧ 0 ≤ h * (v * times) ∧ Z.abs h ≤ half) as (Hrh & Hrt & Hht & Hha).
  { unfold h. destruct (Z.ltb_spec times 0), (Z.ltb_spec v 0); split_and!; nia. }
  assert (Z.abs (r * times) ≤ (over - 1) * Z.abs times) as Hrt' by (rewrite Z.abs_mul; nia).
  assert (i64_fits (r * times + h) = true) as Hf2 by (apply (fits_abs _ _ Hs); lia).
  assert (i64_fits (r * times) = true) as Hf1 by (by apply (fits_part _ h)).
  assert (∀ t e, eval (Some v) (IfNegative (Par t) (Par e)) = VInt (if v <? 0 then t else e)) as Hif.
  { intros t e. cbn. by destruct (v <? 0). }
  destruct (quot_closer (r * times + h) over Ho) as [Hs1 Hs2]. set (s := Z.quot (r * times + h) over) in *.
  assert (i64_fits s = true) as Hfs by (apply (fits_closer _ _ Hf2); lia).
  assert (0 ≤ q * times * s) as Hqts.
  { destruct (Z.eq_dec (v * times) 0) as [E|Hn].
    - assert (q * times = 0) as ->; [|lia]. apply Z.mul_eq_0 in E as [E|E]; [|rewrite E; lia].
      unfold q. rewrite E, Z.quot_0_l; lia.
    - apply (same_sign_trans _ _ (v * times)); [done|..].
      + replace (q * times * (v * times)) with ((q * v) * (times * times)) by ring. apply Z.mul_nonneg_nonneg; [done|apply Z.square_nonneg].
      + destruct (Z.eq_dec (r * times + h) 0) as [E|Hn'].
        * assert (s = 0) as ->; [|lia]. unfold s. rewrite E. apply Z.quot_0_l. lia.
        * apply (same_sign_trans _ _ (r * times + h)); [done|done|]. rewrite Z.mul_comm, Z.mul_add_distr_r. by apply Z.add_nonneg_nonneg. }
  assert (∀ bz ow, (if v <? 0 then bz else ow) = h →
    eval (Some v) (Bin OAdd (times_of times (Group (Bin ODiv Col (Par over))))
      (Bin ODiv (Group (Bin OAdd (times_of times (Group (Bin OMod Col (Par over)))) (IfNegative (Par bz) (Par ow)))) (Par over)))
    = int_or_real (q * times + s)) as Hfinal.
  { intros bz ow E. cbn [eval]. rewrite (Htimes _ _ Eq Hfq), (Htimes _ _ Er Hfr), (int_or_real_fits _ Hf1).
    change (if v <? 0 then VInt bz else VInt ow) with (eval (Some v) (IfNegative (Par bz) (Par ow))).
    rewrite Hif, E. cbn [apply_op]. rewrite (int_or_real_fits _ Hf2). cbn [apply_op].
    destruct (Z.eqb_spec over 0); [lia|]. fold s. rewrite (int_or_real_fits _ Hfs).
    apply add_same_sign; done. }
  unfold h in *. destruct (times <? 0); apply Hfinal; by destruct (v <? 0).
Qed.

(** NULL stays NULL. *)
Lemma scale_eval_null times over : eval None (scale_expr times over) = VNull.
Proof.
  unfold scale_expr, times_of. destruct (over =? 1), (times =? 1), (times <? 0); reflexivity.
Qed.

Section emitted.
Context {Bound : Type} `{Arithmetic Bound}.

(** What is written is the scaling expression. *)
Lemma scale_emitted col factor divide params :
  sqlite_integer_scale col factor divide SQLite params
  = '(times, over) ← sqlite_scale_parts factor divide; Some (emit col (scale_expr times over) params).
Proof.
  unfold sqlite_integer_scale. destruct (sqlite_scale_parts factor divide) as [[times over]|]; [|done].
  cbn [mbind option_bind]. unfold scale_expr, times_of, scaled_operand.
  destruct (over =? 1), (times =? 1), (times <? 0); cbn [emit push_param fst snd op_text]; try done;
    rewrite <- ?app_assoc; done.
Qed.
End emitted.

(** ** Bulk arithmetic on an integer column *)

Section bulk.
Context {Bound : Type} `{Arithmetic Bound}.

(** The expression three times, each with values of its own, in the check. *)
Definition emit_checked (own : option (Z * Z)) (kind : option ColumnType) (col : str) (e : Sql) (params : list Bound)
    : list Bound * str :=
  let '(params, checked) := emit col e params in
  let '(params, bounded) := emit col e params in
  let '(params, result) := emit col e params in
  (params, sqlite_integer_checked own kind checked bounded result).

(** What the check does to a row that holds [v]. *)
Definition outcome (own : option (Z * Z)) (kind : option ColumnType) (e : Sql) (v : option Z) : Outcome :=
  let '(min, max) := sqlite_integer_bounds own kind in checked_outcome min max (eval v e) (eval v e) (eval v e).

(** The row holds the exact result, or the statement stops. *)
Definition exactly (own : option (Z * Z)) (kind : option ColumnType) (f : Z → Z) (v : option Z) : Outcome :=
  match v with
  | None => Stored VNull
  | Some v =>
      let '(min, max) := sqlite_integer_bounds own kind in
      if (min <=? f v) && (f v <=? max) then Stored (VInt (f v)) else Aborted
  end.

Definition bounds_fit (own : option (Z * Z)) : Prop :=
  match own with Some (min, max) => i64_fits min = true ∧ i64_fits max = true | None => True end.

Lemma integer_bounds_fit own kind : bounds_fit own →
  i64_fits (sqlite_integer_bounds own kind).1 = true ∧ i64_fits (sqlite_integer_bounds own kind).2 = true.
Proof. destruct own as [[min max]|]; [done|]. intros _. by destruct kind as [[]|]. Qed.

Lemma outcome_exact own kind e f v : bounds_fit own → eval None e = VNull →
  (∀ z, i64_fits z = true → eval (Some z) e = int_or_real (f z)) → (∀ z, v = Some z → i64_fits z = true) →
  outcome own kind e v = exactly own kind f v.
Proof.
  intros Hb Hnull Hint Hv. unfold outcome, exactly. destruct (integer_bounds_fit own kind Hb) as [H1 H2].
  destruct (sqlite_integer_bounds own kind) as [min max]. cbn [fst snd] in *.
  destruct v as [z|]; [|by rewrite Hnull]. rewrite Hint by by apply Hv. unfold int_or_real.
  destruct (i64_fits (f z)) eqn:E; [done|]. cbn. destruct (_ && _) eqn:Em; [|done].
  apply andb_true_iff in Em as [?%Z.leb_le ?%Z.leb_le]. apply fits_spec in H1, H2.
  assert (i64_fits (f z) = true) as E'; [|congruence]. apply fits_spec. unfold i64_min, i64_max in *. lia.
Qed.

End bulk.

(** ** Factors of one and a half *)

Module Stock.

(** Factors written as a mantissa and a decimal exponent; a decimal keeps 28 places. *)
#[local] Instance factors : Arithmetic (Z + (Z * N)) := {
  f64 := Z * N;
  is_finite := λ _, true;
  is_zero := λ f, f.1 =? 0;
  f64_text := λ f, show_Z f.1 ++ lit "e-" ++ show_N f.2;
  lower_exp := λ f, show_Z f.1 ++ lit "e-" ++ show_N f.2;
  powi2 := λ e, (2 ^ e, 0%N);
  f32_max := (340282346638528859811704183484516925440, 0%N);
  f64_max := (2 ^ 1023, 0%N);
  SQLITE_DECIMAL_MAX := (79228162514264337593543950335, 0%N);
  Decimal := Z * nat;
  decimal_from_str := λ text,
    match split_by (N.eqb 101) text with
    | [m; e] =>
        m ← parse_i128 m; e ← parse_u64 (drop 1 e);
        Some (if (28 <? e)%N then (Z.quot m (10 ^ Z.of_N (e - 28)), 28%nat) else (m, N.to_nat e))
    | _ => None
    end;
  normalize := λ d, if d.1 =? 0 then (0, 0%nat) else d;
  mantissa := fst;
  scale := snd;
  BigInt := inl;
  Double := inr;
  DecimalValue := λ d, inr (d.1, N.of_nat d.2);
}.

Definition stock : str := lit "stock".

(** Minus seven and a half of it. *)
Example scaled_stock :
  exactly None (Some TInteger) (λ z, half_away (z * 15) 10) (Some (-7)) = Stored (VInt (-11))
  ∧ exactly None (Some TTinyInteger) (λ z, half_away (z * 15) 10) (Some 100) = Aborted.
Proof. split; vm_compute; reflexivity. Qed.

Example scaled_text :
  snd <$> (match scaled None (Some TInteger) stock SQLite [] (15, 1%N) false with Ok w => Some w | Err _ => None end)
  = Some (lit "CASE WHEN typeof((stock / ?) * ? + ((stock % ?) * ? + CASE WHEN stock < 0 THEN ? ELSE ? END) / ?) IN ('integer', 'null') AND COALESCE(((stock / ?) * ? + ((stock % ?) * ? + CASE WHEN stock < 0 THEN ? ELSE ? END) / ?) BETWEEN -2147483648 AND 2147483647, 1) THEN (stock / ?) * ? + ((stock % ?) * ? + CASE WHEN stock < 0 THEN ? ELSE ? END) / ? ELSE abs(-9223372036854775808) END").
Proof. vm_compute. reflexivity. Qed.


(** A divisor too small for a decimal's places reads as zero: the guard looks at the float,
    and every row is set to NULL. *)
Example tiny_divisor_clears_the_column :
  is_zero (1, 30%N) = false ∧ exact_decimal (1, 30%N) = Some (0, 0%nat)
  ∧ scaled None (Some TInteger) stock SQLite [] (1, 30%N) true = Ok (emit_checked None (Some TInteger) stock (scale_expr 1 0) [])
  ∧ outcome None (Some TInteger) (scale_expr 1 0) (Some 5) = Stored VNull.
Proof. split_and!; vm_compute; reflexivity. Qed.

End Stock.
