(* ===== verification/ColumnValues.v ===== *)
(** * Values bound for a column (src/src/internal/column_values.rs, internal/mod.rs)

    A filter's or an assignment's value travels as JSON; the type of the column it is for
    decides what it is bound as. The parsers of UUIDs, decimals and moments, and the
    values a driver binds, are the class [Bindings]. PostgreSQL's driver is compiled in. *)

From S2P Require Import Prelude Dialect Filters Decimals BulkArithmetic.
Local Open Scope tide_scope.

(** [serde_json::Value]'s views. *)
Definition as_str (value : Json) : option str := match value with JString text => Some text | _ => None end.

Definition as_i64 (number : Number) : option Z :=
  match number with
  | PosInt n => checked_i64 (Z.of_N n)
  | NegInt z => Some z
  | JFloat _ => None
  end.

Definition as_u64 (number : Number) : option N :=
  match number with PosInt n => Some n | NegInt _ | JFloat _ => None end.

(** A value of the driver, by its Rust type; the types of the moments; the text of JSON;
    the parsers. [read_array] is [Vec::<T>::deserialize] for the element's [T]. *)
Class Bindings (Bound : Type) `{Arithmetic Bound} := {
  StringValue : option str → Bound;
  BoolValue : option bool → Bound;
  BigUnsigned : N → Bound;
  NullOf : ColumnType → Bound;
  FloatValue : f64 → Bound;
  JsonValue : option Json → Bound;
  BytesValue : option (list N) → Bound;
  ArrayValue : ColumnType → list Json → option Bound;
  as_null : Bound → Bound;
  decimal_of : Bound → option (option Decimal);
  is_moment : Bound → bool;
  UuidValue : str → Bound;
  is_uuid : str → bool;
  Moment : Type;
  MomentValue : Moment → Bound;
  fixed_datetime : str → option Moment;
  to_utc : Moment → Moment;
  naive_utc : Moment → Moment;
  and_utc : Moment → Moment;
  naive_datetime : str → option Moment;
  naive_datetime_format : str → str → option Moment;
  midnight : Moment → option Moment;
  naive_date : str → option Moment;
  naive_time : str → option Moment;
  naive_time_format : str → str → option Moment;
  decimal_exact : str → option Decimal;
  decimal_scientific : str → option Decimal;
  decimal_of_u64 : N → Decimal;
  decimal_f64 : Decimal → option f64;
  json_text : Json → str;
  number_text : Number → str;
  number_f64 : Number → option f64;
  parse_f64 : str → option f64;
  parse_i64 : str → option Z;
  deserialize_bytes : Json → option (list N);
  at_most : f64 → f64 → bool;
  as_f32 : f64 → f64;
  integral : f64 → option Z;
}.

Section values.
Context `{Unicode} {Bound : Type} `{Bindings Bound}.

Definition or_else {A} (a b : option A) : option A := match a with Some _ => a | None => b end.

(** [bindable_value] of an unsigned integer: an exact decimal past [i64::MAX]. *)
Definition bindable_unsigned (n : N) : Bound :=
  if i64_fits (Z.of_N n) then BigUnsigned n else DecimalValue (decimal_of_u64 n).

Definition json_to_db_value (value : Json) : Bound :=
  match value with
  | JNull => StringValue None
  | JBool b => BoolValue (Some b)
  | JNumber number =>
      match as_i64 number with
      | Some integer => BigInt integer
      | None =>
          match as_u64 number with
          | Some unsigned => bindable_unsigned unsigned
          | None =>
              match number_f64 number with
              | Some float => Double float
              | None => StringValue (Some (number_text number))
              end
          end
      end
  | JString text => StringValue (Some text)
  | JArray _ | JObject _ => StringValue (Some (json_text value))
  end.

(** ** Moments and decimals *)

Definition parse_date (text : str) : option Moment := naive_date text.

Definition parse_time (text : str) : option Moment :=
  or_else (naive_time text) (naive_time_format text (lit "%H:%M")).

Definition parse_naive_datetime (text : str) : option Moment :=
  or_else (naive_datetime text)
    (or_else (naive_datetime_format text (lit "%Y-%m-%d %H:%M:%S%.f"))
       (or_else (naive_utc <$> fixed_datetime text)
          (date ← parse_date text; midnight date))).

Definition parse_utc_datetime (text : str) : option Moment :=
  or_else (to_utc <$> fixed_datetime text) (and_utc <$> parse_naive_datetime text).

Definition parse_decimal (text : str) : option Decimal := or_else (decimal_exact text) (decimal_scientific text).

(** ** Typed values *)

(** [array_value]: the elements PostgreSQL's arrays are read as. *)
Definition array_value (items : list Json) (element : ColumnType) : option Bound :=
  match element with
  | TInteger | TBigInteger | TBoolean | TDouble | TText | TString | TJson | TJsonBinary => ArrayValue element items
  | _ => None
  end.

Definition is_binary (column_type : ColumnType) : bool :=
  match column_type with TBlob | TBinary | TVarBinary => true | _ => false end.

Definition typed_value (value : Json) (column_type : ColumnType) : option Bound :=
  match column_type, value with
  | TArray element, JArray items => array_value items element
  | (TBlob | TBinary | TVarBinary), JArray _ => (λ bytes, BytesValue (Some bytes)) <$> deserialize_bytes value
  | TUuid, JString text => if is_uuid text then Some (UuidValue text) else None
  | TTimestampWithTimeZone, JString text => MomentValue <$> parse_utc_datetime text
  | (TDateTime | TTimestamp), JString text => MomentValue <$> parse_naive_datetime text
  | TDate, JString text => MomentValue <$> parse_date text
  | TTime, JString text => MomentValue <$> parse_time text
  | (TDecimal | TMoney), JString text => DecimalValue <$> parse_decimal text
  | (TDecimal | TMoney), JNumber number => DecimalValue <$> parse_decimal (number_text number)
  | (TTinyInteger | TSmallInteger | TInteger | TBigInteger | TTinyUnsigned | TSmallUnsigned | TUnsigned | TBigUnsigned),
    JString text => BigInt <$> parse_i64 (trim text)
  | (TFloat | TDouble), JString text => Double <$> parse_f64 (trim text)
  | (TString | TText | TChar), JNumber number => Some (StringValue (Some (number_text number)))
  | _, _ => None
  end.

Definition typed_null (column_type : ColumnType) : Bound :=
  match column_type with
  | TJson | TJsonBinary => JsonValue None
  | TBlob | TBinary | TVarBinary => BytesValue None
  | TArray element =>
      match array_value [] element with
      | Some value => as_null value
      | None => json_to_db_value JNull
      end
  | TUuid | TTimestampWithTimeZone | TDateTime | TTimestamp | TDate | TTime | TDecimal | TMoney | TBoolean
  | TFloat | TDouble => NullOf column_type
  | column_type => if is_integer column_type then NullOf column_type else json_to_db_value JNull
  end.

Definition json_to_column_value (value : Json) (column_type : option ColumnType) : Bound :=
  match column_type with
  | None => json_to_db_value value
  | Some column_type =>
      if is_null value then typed_null column_type
      else default (json_to_db_value value) (typed_value value column_type)
  end.

Definition is_json (column_type : option ColumnType) : bool :=
  match column_type with Some (TJson | TJsonBinary) => true | _ => false end.

Definition json_to_assignment_value (value : Json) (column_type : option ColumnType) : Bound :=
  if is_json column_type && negb (is_null value) then JsonValue (Some value)
  else json_to_column_value value column_type.

Definition json_to_array_element (value : Json) (column : option ColumnType) : Bound :=
  match column with
  | Some (TArray element) =>
      if is_json (Some element) then JsonValue (Some value) else json_to_assignment_value value (Some element)
  | _ => json_to_db_value value
  end.

Definition sqlite_decimal_is_storable (value : Decimal) : bool :=
  match decimal_f64 value with Some number => at_most SQLITE_DECIMAL_MAX number | None => false end.

(** ** The value of an assignment

    [BatchUpdateBuilder::column_value]: bound with the type of its column, or refused
    where the column could not hold it. *)

(** The integer SQLite would store. *)
Definition sqlite_integer (value : Json) : option Z :=
  match value with
  | JString text => parse_i64 (trim text)
  | JNumber number =>
      or_else (as_i64 number) (n ← number_f64 number; z ← integral n; checked_i64 z)
  | _ => None
  end.

Definition as_float (value : Json) : option f64 :=
  match value with
  | JNumber number => number_f64 number
  | JString text => parse_f64 (trim text)
  | _ => None
  end.

Definition refuse {A} (column problem : str) : result A str := Err (lit "value for " ++ column ++ lit " " ++ problem).

(** The checks before binding: an error, or a value bound at once. *)
Definition check_column_value (own : option (Z * Z)) (column : str) (column_type : option ColumnType) (value : Json)
    (db : DatabaseType) : result (option Bound) str :=
  if is_null value then Ok None
  else
    match column_type with
    | Some TBoolean => match value with JBool _ => Ok None | _ => refuse column (lit "must be a boolean") end
    | Some TUuid =>
        match as_str value with
        | Some text => if is_uuid text then Ok None else refuse column (lit "must be a UUID")
        | None => refuse column (lit "must be a UUID")
        end
    | Some (TBlob | TBinary | TVarBinary) =>
        match deserialize_bytes value with
        | Some _ => Ok None
        | None => refuse column (lit "must be an array of bytes in 0..=255")
        end
    | Some TFloat =>
        match as_float value with
        | Some n =>
            if is_finite n && at_most f32_max n then Ok (Some (FloatValue (as_f32 n)))
            else refuse column (lit "must be within the finite f32 range")
        | None => refuse column (lit "must be within the finite f32 range")
        end
    | Some TDouble =>
        match as_float value with
        | Some n =>
            if is_finite n && at_most f64_max n then Ok None
            else refuse column (lit "must be within the finite f64 range")
        | None => refuse column (lit "must be within the finite f64 range")
        end
    | Some kind =>
        match db with
        | SQLite =>
            if is_integer kind then
              let '(min, max) := sqlite_integer_bounds own column_type in
              match sqlite_integer value with
              | Some integer =>
                  if (min <=? integer)%Z && (integer <=? max)%Z then Ok None
                  else refuse column (lit "is outside the model's integer range or is not an integer")
              | None => refuse column (lit "is outside the model's integer range or is not an integer")
              end
            else Ok None
        | _ => Ok None
        end
    | None => Ok None
    end.

Definition column_value (own : option (Z * Z)) (column : str) (column_type : option ColumnType) (value : Json)
    (db : DatabaseType) : result Bound str :=
  checked <-? check_column_value own column column_type value db;;
  match checked with
  | Some bound => Ok bound
  | None =>
      if is_json column_type then Ok (JsonValue (Some value))
      else
        let bound := json_to_assignment_value value column_type in
        match column_type with
        | Some (TDecimal | TMoney) =>
            match decimal_of bound with
            | Some None => Ok bound
            | Some (Some decimal) =>
                if negb (match db with SQLite => true | _ => false end) || sqlite_decimal_is_storable decimal then Ok bound
                else refuse column (lit "must be a valid decimal within its readable model range")
            | None => refuse column (lit "must be a valid decimal within its readable model range")
            end
        | Some (TDate | TTime | TDateTime | TTimestamp | TTimestampWithTimeZone) =>
            if is_moment bound then Ok bound
            else refuse column (lit "must be a valid date, time or timestamp for its column type")
        | _ => Ok bound
        end
  end.
End values.
