(* ===== verification/SqliteJson.v ===== *)
(** * JSON tests on SQLite (src/src/query/db_sql/sqlite_json.rs)

    SQLite has no containment of JSON and compares documents as text; the tests are
    written as SQL over [json_each]. The text is built with the values it binds, in order,
    and an alias of its own for each subquery. How [serde_json] writes a number, and the
    values a driver binds, are the class [JsonTestValues]. *)

From S2P Require Import Prelude Dialect Filters Decimals BulkArithmetic.
Local Open Scope tide_scope.

Class JsonTestValues (Bound : Type) := {
  text_value : str → Bound;
  bool_value : bool → Bound;
  int_value : Z → Bound;
  number_to_string : Number → str;
}.

(** A [Node]: the column itself, or a [json_each] row. *)
Record Node := { json : str; kind : str; raw_json : str; atom : str }.

Definition document (column_sql : str) : Node := {|
  json := column_sql;
  raw_json := lit "(" ++ column_sql ++ lit " -> '$')";
  kind := lit "json_type(" ++ column_sql ++ lit ")";
  atom := lit "json_extract(" ++ column_sql ++ lit ", '$')";
|}.

Definition row (alias : str) : Node := {|
  json := alias ++ lit ".value";
  raw_json := lit "(" ++ alias ++ lit ".json -> " ++ alias ++ lit ".fullkey)";
  kind := alias ++ lit ".type";
  atom := alias ++ lit ".atom";
|}.

(** ** Decimal tokens *)

(** [str::split_once] at the first character of a kind. *)
Fixpoint split_first (p : char → bool) (s : str) : option (str * str) :=
  match s with
  | [] => None
  | c :: rest => if p c then Some ([], rest) else '(before, after) ← split_first p rest; Some (c :: before, after)
  end.

(** [trim_end_matches] of a character. *)
Definition trim_end_matches (c : char) (s : str) : str := rev (drop_while (N.eqb c) (rev s)).

(** [str::parse::<i64>]. *)
Definition parse_i64 (s : str) : option Z := z ← parse_i128 s; checked_i64 z.

(** [replace('.', "")]. *)
Definition remove_char (c : char) (s : str) : str := List.filter (λ d, negb (d =? c)%N) s.

Definition decimal_parts (text : str) : bool * str * option Z :=
  let negative := starts_with (lit "-") text in
  let unsigned := drop_while (N.eqb 45) text in
  let '(mantissa, exponent) :=
    match split_first is_exponent_mark unsigned with
    | Some (mantissa, exponent) => (mantissa, parse_i64 exponent)
    | None => (unsigned, Some 0%Z)
    end in
  let fraction := match split_first (N.eqb 46) mantissa with Some (_, fraction) => slen fraction | None => 0 end in
  let digits := remove_char 46 mantissa in
  let trimmed := trim_end_matches 48 digits in
  let coefficient := drop_while (N.eqb 48) trimmed in
  let scale :=
    exponent ← exponent;
    fraction ← checked_i64 (Z.of_nat fraction);
    shifted ← checked_i64 (exponent - fraction);
    zeros ← checked_i64 (Z.of_nat (slen digits - slen trimmed));
    checked_i64 (shifted + zeros) in
  (negative, coefficient, scale).

(** A loop over a list, with the position of each item: what it makes of the items in
    order, and the state it leaves. *)
Definition for_each {A R T} (step : nat → A → T → R * T) : nat → list A → T → list R * T :=
  fix each (index : nat) (l : list A) (st : T) : list R * T :=
    match l with
    | [] => ([], st)
    | x :: l => let '(r, st) := step index x st in let '(rs, st) := each (S index) l st in (r :: rs, st)
    end.

(** ** The tests *)

(** The builder's state: the values bound and the aliases used. *)
Definition JsonTests (Bound : Type) : Type := list Bound * N.

(** [any_of]. *)
Definition any_of (alternatives : list str) : str :=
  match alternatives with
  | [] => lit "(0)"
  | _ => lit "(" ++ join (lit " OR ") alternatives ++ lit ")"
  end.

Definition all_of (checks : list str) : str := lit "(" ++ join (lit " AND ") checks ++ lit ")".

Section tests.
Context {Bound : Type} `{JsonTestValues Bound}.
Notation Tests := (JsonTests Bound).

Definition alias (st : Tests) : str * Tests :=
  let aliases := (st.2 + 1)%N in
  (lit "tide_json_" ++ show_N aliases, (st.1, aliases)).

Definition bind_value (value : Bound) (st : Tests) : Tests := (st.1 ++ [value], st.2).

(** [number_equals] *)
Definition number_comparison (text : str) (st : Tests) : str * Tests :=
  let '(negative, coefficient, scale) := decimal_parts text in
  match nilb coefficient, scale with
  | true, _ => (lit "coefficient = ''", st)
  | false, Some scale =>
      (lit "coefficient = ? AND negative = ? AND scale = ?",
       bind_value (int_value scale) (bind_value (bool_value negative) (bind_value (text_value coefficient) st)))
  | false, None => (lit "0", st)
  end.

Definition number_equals (node : Node) (text : str) (st : Tests) : str * Tests :=
  let '(comparison, st) := number_comparison text st in
  (lit "(" ++ kind node ++ lit " IN ('integer', 'real') AND (WITH tide_num_token AS (SELECT lower(" ++ raw_json node
   ++ lit ") AS token), tide_num_unsigned AS (SELECT substr(token, 1, 1) = '-' AS negative, CASE WHEN substr(token, 1, 1) = '-' THEN substr(token, 2) ELSE token END AS digits FROM tide_num_token), tide_num_parts AS (SELECT negative, CASE WHEN instr(digits, 'e') > 0 THEN substr(digits, 1, instr(digits, 'e') - 1) ELSE digits END AS mantissa, CASE WHEN instr(digits, 'e') > 0 THEN CAST(substr(digits, instr(digits, 'e') + 1) AS INTEGER) ELSE 0 END AS exponent FROM tide_num_unsigned), tide_num_digits AS (SELECT negative, replace(mantissa, '.', '') AS digits, exponent - CASE WHEN instr(mantissa, '.') > 0 THEN length(mantissa) - instr(mantissa, '.') ELSE 0 END AS exponent FROM tide_num_parts), tide_num_normal AS (SELECT negative, ltrim(rtrim(digits, '0'), '0') AS coefficient, exponent + length(digits) - length(rtrim(digits, '0')) AS scale FROM tide_num_digits) SELECT "
   ++ comparison ++ lit " FROM tide_num_normal))", st).

(** [scalar_equals]; containers do not reach it. *)
Definition scalar_equals (node : Node) (scalar : Json) (st : Tests) : str * Tests :=
  match scalar with
  | JNull => (kind node ++ lit " = 'null'", st)
  | JBool true => (kind node ++ lit " = 'true'", st)
  | JBool false => (kind node ++ lit " = 'false'", st)
  | JNumber number => number_equals node (number_to_string number) st
  | JString text =>
      (lit "(" ++ kind node ++ lit " = 'text' AND " ++ atom node ++ lit " = ?)", bind_value (text_value text) st)
  | JArray _ | JObject _ => ([], st)
  end.

(** An [EXISTS] over the rows of the node under an alias. *)
Definition exists_row (node : Node) (alias test : str) : str :=
  lit "EXISTS (SELECT 1 FROM json_each(" ++ json node ++ lit ") AS " ++ alias ++ lit " WHERE " ++ test ++ lit ")".

Definition no_row (node : Node) (alias test : str) : str :=
  lit "NOT EXISTS (SELECT 1 FROM json_each(" ++ json node ++ lit ") AS " ++ alias ++ lit " WHERE NOT " ++ test ++ lit ")".

(** [some_element], for the test of an element. *)
Definition some_element (test : Node → Tests → str * Tests) (node : Node) (st : Tests) : str * Tests :=
  let '(alias, st) := alias st in
  let '(element, st) := test (row alias) st in
  (exists_row node alias element, st).

(** [contains]; a scalar's element is tested as a scalar again. *)
Fixpoint contains (candidate : Json) (node : Node) (top_level : bool) (st : Tests) {struct candidate} : str * Tests :=
  match candidate with
  | JObject members =>
      let '(checks, st) := for_each (λ _ '(key, value) st,
        let '(alias, st) := alias st in
        let st := bind_value (text_value key) st in
        let '(member, st) := contains value (row alias) false st in
        (exists_row node alias (alias ++ lit ".key = ? AND " ++ member), st)) 0 members st in
      (all_of ((kind node ++ lit " = 'object'") :: checks), st)
  | JArray elements =>
      let '(checks, st) := for_each (λ _ element,
        some_element (λ node st, contains element node false st) node) 0 elements st in
      (all_of ((kind node ++ lit " = 'array'") :: checks), st)
  | scalar =>
      if top_level then
        let '(equal, st) := scalar_equals node scalar st in
        let '(element, st) := some_element (λ node st, scalar_equals node scalar st) node st in
        (lit "(" ++ equal ++ lit " OR (" ++ kind node ++ lit " = 'array' AND " ++ element ++ lit "))", st)
      else scalar_equals node scalar st
  end.

Definition is_container (value : Json) : bool := match value with JArray _ | JObject _ => true | _ => false end.

Fixpoint contained_by (container : Json) (node : Node) (top_level : bool) (st : Tests) {struct container} : str * Tests :=
  match container with
  | JObject members =>
      let '(alias, st) := alias st in
      let '(placed, st) := for_each (λ _ '(key, value) st,
        let st := bind_value (text_value key) st in
        let '(member, st) := contained_by value (row alias) false st in
        (lit "(" ++ alias ++ lit ".key = ? AND " ++ member ++ lit ")", st)) 0 members st in
      (lit "(" ++ kind node ++ lit " = 'object' AND " ++ no_row node alias (any_of placed) ++ lit ")", st)
  | JArray elements =>
      let '(alias, st) := alias st in
      let '(placed, st) := for_each (λ _ element st, contained_by element (row alias) false st) 0 elements st in
      let array := lit "(" ++ kind node ++ lit " = 'array' AND " ++ no_row node alias (any_of placed) ++ lit ")" in
      if negb top_level then (array, st)
      else
        let '(scalars, st) := for_each (λ _ element, scalar_equals node element) 0
          (List.filter (λ e, negb (is_container e)) elements) st in
        (lit "(" ++ array ++ lit " OR " ++ any_of scalars ++ lit ")", st)
  | scalar => scalar_equals node scalar st
  end.

Fixpoint equals (value : Json) (node : Node) (st : Tests) {struct value} : str * Tests :=
  match value with
  | JObject members =>
      let '(checks, st) := for_each (λ _ '(key, member) st,
        let '(alias, st) := alias st in
        let st := bind_value (text_value key) st in
        let '(equal, st) := equals member (row alias) st in
        (exists_row node alias (alias ++ lit ".key = ? AND " ++ equal), st)) 0 members st in
      (all_of ((kind node ++ lit " = 'object'")
         :: (lit "(SELECT COUNT(*) FROM json_each(" ++ json node ++ lit ")) = " ++ show_N (N.of_nat (length members)))
         :: checks), st)
  | JArray elements =>
      let '(checks, st) := for_each (λ index element st,
        let '(alias, st) := alias st in
        let '(equal, st) := equals element (row alias) st in
        (exists_row node alias (alias ++ lit ".key = " ++ show_N (N.of_nat index) ++ lit " AND " ++ equal), st)) 0 elements st in
      (all_of ((kind node ++ lit " = 'array'")
         :: (lit "json_array_length(" ++ json node ++ lit ") = " ++ show_N (N.of_nat (length elements)))
         :: checks), st)
  | scalar => scalar_equals node scalar st
  end.

(** The tests of a column, with the values they bind. *)
Definition run_tests (test : Tests → str * Tests) : str * list Bound :=
  let '(sql, st) := test ([], 0%N) in (sql, st.1).

Definition sqlite_json_contains (column_sql : str) (candidate : Json) : str * list Bound :=
  run_tests (contains candidate (document column_sql) true).
Definition sqlite_json_contained_by (column_sql : str) (container : Json) : str * list Bound :=
  run_tests (contained_by container (document column_sql) true).
Definition sqlite_json_equals (column_sql : str) (value : Json) : str * list Bound :=
  run_tests (equals value (document column_sql)).
Definition sqlite_json_element_equals (alias : str) (value : Json) : str * list Bound :=
  run_tests (equals value (row alias)).
End tests.
