(* ===== verification/JsonNumbers.v ===== *)
(** * Numbers in JSON tests

    How [SqliteJson] compares numbers: the parts of a JSON number, taken in Rust from the
    value asked for and by string functions of SQL from the stored token, agree exactly
    when the two tokens are one number. *)

From S2P Require Import Prelude Dialect SqlLexer Filters Decimals BulkArithmetic SqliteJson.
Local Open Scope tide_scope.

(** ** JSON numbers *)

(** [t] is the JSON number with these digits before and after the dot and this exponent. *)
Record json_number (t : str) (negative : bool) (ip fp : str) (exponent : Z) : Prop := {
  jn_ip : all_digits ip;
  jn_fp : all_digits fp;
  jn_some : ip ≠ [];
  jn_text : ∃ dot ex,
    t = (if negative then lit "-" else []) ++ ip ++ dot ++ ex
    ∧ (dot = [] ∧ fp = [] ∨ dot = 46%N :: fp)
    ∧ (ex = [] ∧ exponent = 0%Z
       ∨ ∃ c sign ds, ex = c :: sign ++ ds ∧ is_exponent_mark c = true ∧ (sign = [] ∨ sign = lit "-" ∨ sign = lit "+")
           ∧ ds ≠ [] ∧ all_digits ds ∧ exponent = signed (str_eqb sign (lit "-")) (digits_value 0 ds));
}.

(** The number it is, a coefficient and a power of ten. *)
Definition number_value (negative : bool) (ip fp : str) (exponent : Z) : Z * Z :=
  (signed negative (digits_value 0 (ip ++ fp)), (exponent - Z.of_nat (length fp))%Z).

Definition same_number (a b : Z * Z) : Prop := compare_scaled a b = Datatypes.Eq.

(** ** What SQLite computes from the token

    [lower], [substr], [instr], [replace], [rtrim], [ltrim], [length] and [CAST], as the
    subqueries of [number_equals] use them. *)

Fixpoint digit_run (s : str) : str :=
  match s with
  | [] => []
  | c :: rest => if is_ascii_digit c then c :: digit_run rest else []
  end.

(** [CAST(text AS INTEGER)]: the integer it starts with, within 64 bits. *)
Definition cast_integer (s : str) : Z :=
  let '(negative, digits) :=
    match s with
    | c :: rest => if (c =? 45)%N then (true, rest) else if (c =? 43)%N then (false, rest) else (false, s)
    | [] => (false, [])
    end in
  Z.max i64_min (Z.min (signed negative (digits_value 0 (digit_run digits))) i64_max).

Definition sql_parts (raw : str) : bool * str * Z :=
  let token := to_ascii_lowercase raw in
  let negative := starts_with (lit "-") token in
  let digits := if negative then drop 1 token else token in
  let '(mantissa, exponent) :=
    match split_first (N.eqb 101) digits with
    | Some (mantissa, rest) => (mantissa, cast_integer rest)
    | None => (digits, 0%Z)
    end in
  let fraction := match split_first (N.eqb 46) mantissa with Some (_, fraction) => length fraction | None => 0 end in
  let digits := remove_char 46 mantissa in
  let trimmed := trim_end_matches 48 digits in
  (negative, drop_while (N.eqb 48) trimmed,
   (exponent - Z.of_nat fraction + Z.of_nat (length digits) - Z.of_nat (length trimmed))%Z).

(** The comparison of [number_comparison] on the parts of a stored token. *)
Definition number_test (text token : str) : bool :=
  let '(negative, coefficient, scale) := decimal_parts text in
  let '(negative', coefficient', scale') := sql_parts token in
  match nilb coefficient, scale with
  | true, _ => nilb coefficient'
  | false, Some scale => str_eqb coefficient' coefficient && Bool.eqb negative' negative && (scale' =? scale)%Z
  | false, None => false
  end.

(** ** Lists of digits *)

Lemma split_first_none p s : Forall (λ c, p c = false) s → split_first p s = None.
Proof. induction 1 as [|c s Hc _ IH]; [done|]. cbn. by rewrite Hc, IH. Qed.

Lemma split_first_at p w c s : Forall (λ c, p c = false) w → p c = true → split_first p (w ++ c :: s) = Some (w, s).
Proof. intros Hw Hc. induction Hw as [|d w Hd _ IH]; cbn; [by rewrite Hc|]. by rewrite Hd, IH. Qed.

Lemma digit_plain c d : is_ascii_digit c = true → (d < 48 ∨ 57 < d)%N → (d =? c)%N = false.
Proof. unfold is_ascii_digit. intros Hc Hd. lia. Qed.

Lemma digits_plain d ds : all_digits ds → (d < 48 ∨ 57 < d)%N → Forall (λ c, (d =? c)%N = false) ds.
Proof. intros Hds Hd. eapply list.Forall_impl; [exact Hds|]. intros c Hc. by apply digit_plain. Qed.

Lemma remove_plain d ds : all_digits ds → (d < 48 ∨ 57 < d)%N → remove_char d ds = ds.
Proof.
  intros Hds Hd. induction Hds as [|c ds Hc _ IH]; [done|]. cbn. rewrite N.eqb_sym, digit_plain by done.
  cbn. f_equal. exact IH.
Qed.

Lemma lower_digits ds : all_digits ds → to_ascii_lowercase ds = ds.
Proof.
  induction 1 as [|c ds Hc _ IH]; [done|]. cbn. f_equal; [|exact IH]. unfold to_ascii_lowercase_char, is_ascii_digit in *.
  destruct ((65 <=? c)%N && _) eqn:E; lia.
Qed.

Lemma slen_digits ds : all_digits ds → slen ds = length ds.
Proof.
  induction 1 as [|c ds Hc%digit_bounds _ IH]; [done|]. cbn [slen length]. rewrite len_utf8_ascii by lia. by rewrite IH.
Qed.

Lemma digit_run_all ds : all_digits ds → digit_run ds = ds.
Proof. induction 1 as [|c ds Hc _ IH]; [done|]. cbn. by rewrite Hc, IH. Qed.

(** Trailing zeros. *)
Lemma trim_zeros ds : ∃ n, ds = trim_end_matches 48 ds ++ replicate n 48%N
  ∧ (trim_end_matches 48 ds = [] ∨ ∃ ds' d, trim_end_matches 48 ds = ds' ++ [d] ∧ d ≠ 48%N).
Proof.
  unfold trim_end_matches. induction ds as [|d ds _] using rev_ind; [exists 0; by split; [|left]|].
  assert (∀ l, ∃ n, l = replicate n 48%N ++ drop_while (N.eqb 48) l
    ∧ (drop_while (N.eqb 48) l = [] ∨ ∃ x l', drop_while (N.eqb 48) l = x :: l' ∧ x ≠ 48%N)) as Hdrop.
  { intros l. induction l as [|x l (n & E & IH)]; [exists 0; by split; [|left]|]. cbn [drop_while].
    destruct (N.eqb_spec 48 x) as [<-|Hne]; [|exists 0; split; [done|right; exists x, l; by split]].
    exists (S n). cbn [replicate app]. split; [by f_equal|exact IH]. }
  destruct (Hdrop (rev (ds ++ [d]))) as (n & E & IH). exists n. split.
  - apply (f_equal (@rev N)) in E. rewrite rev_involutive, rev_app_distr in E. rewrite E at 1. f_equal.
    clear. induction n as [|n IH]; [done|]. cbn [replicate rev]. rewrite IH. by rewrite <- replicate_cons_app.
  - destruct IH as [->|(x & l' & -> & Hx)]; [by left|right]. exists (rev l'), x. by split.
Qed.

Lemma drop_while_form (ds : str) : drop_while (N.eqb 48) ds = [] ∨ ∃ d ds', drop_while (N.eqb 48) ds = d :: ds' ∧ d ≠ 48%N.
Proof.
  induction ds as [|d ds IH]; [by left|]. cbn [drop_while]. destruct (N.eqb_spec 48 d); [done|]. right. exists d, ds. split; congruence.
Qed.

(** ** The parts of a token *)

(** A token's canonical parts: the digits between the outer zeros, and the power of ten of
    the last. *)
Definition coefficient_of (ip fp : str) : str := drop_while (N.eqb 48) (trim_end_matches 48 (ip ++ fp)).
Definition scale_of (ip fp : str) (exponent : Z) : Z :=
  (exponent - Z.of_nat (length fp) + Z.of_nat (length (ip ++ fp) - length (trim_end_matches 48 (ip ++ fp))))%Z.

Lemma trim_length ds : length (trim_end_matches 48 ds) ≤ length ds.
Proof. destruct (trim_zeros ds) as (n & E & _). rewrite E at 2. rewrite length_app. lia. Qed.

Lemma trim_digits ds : all_digits ds → all_digits (trim_end_matches 48 ds).
Proof. destruct (trim_zeros ds) as (n & E & _). rewrite E at 1. by intros [? _]%Forall_app. Qed.

Lemma parse_i64_signed sign ds : sign = [] ∨ sign = lit "-" ∨ sign = lit "+" → ds ≠ [] → all_digits ds →
  parse_i64 (sign ++ ds) = checked_i64 (signed (str_eqb sign (lit "-")) (digits_value 0 ds))
  ∧ cast_integer (sign ++ ds) = Z.max i64_min (Z.min (signed (str_eqb sign (lit "-")) (digits_value 0 ds)) i64_max).
Proof.
  intros Hs Hne Hds. assert (forallb is_ascii_digit ds = true) as Hall.
  { apply forallb_forall. intros c Hc%list_elem_of_In. by eapply list.Forall_forall in Hds. }
  assert (∀ z, (z ← checked_i128 z; checked_i64 z) = checked_i64 z) as Hfit.
  { intros z. unfold checked_i128, checked_i64, i128_fits, i64_fits, i128_min, i128_max, i64_min, i64_max.
    destruct ((- 2 ^ 127 <=? z)%Z && (z <=? 2 ^ 127 - 1)%Z) eqn:E; [done|]. cbn [mbind option_bind].
    destruct ((- 2 ^ 63 <=? z)%Z && (z <=? 2 ^ 63 - 1)%Z) eqn:E'; [|done]. lia. }
  destruct ds as [|d ds]; [done|]. assert (is_ascii_digit d = true) as Hd by (by apply list.Forall_cons in Hds as [? _]).
  assert ((d =? 45)%N = false ∧ (d =? 43)%N = false) as [Hd1 Hd2] by (unfold is_ascii_digit in Hd; lia).
  unfold parse_i64, parse_i128, cast_integer. destruct Hs as [->|[->| ->]].
  - cbn [app]. rewrite Hd1, Hd2, Hall, digit_run_all by done. by rewrite Hfit.
  - change (lit "-") with [45%N]. cbn [app]. cbn [N.eqb Pos.eqb]. rewrite Hall, digit_run_all by done. by rewrite Hfit.
  - change (lit "+") with [43%N]. cbn [app]. cbn [N.eqb Pos.eqb]. rewrite Hall, digit_run_all by done. by rewrite Hfit.
Qed.

Lemma no_mark_digits ds : all_digits ds → Forall (λ c, is_exponent_mark c = false) ds.
Proof. intros Hds. eapply list.Forall_impl; [exact Hds|]. apply digit_no_mark. Qed.

(** The digits of a mantissa, without its dot. *)
Lemma mantissa_parts ip fp dot : all_digits ip → all_digits fp → dot = [] ∧ fp = [] ∨ dot = 46%N :: fp →
  Forall (λ c, is_exponent_mark c = false) (ip ++ dot) ∧ Forall (λ c, (101 =? c)%N = false) (ip ++ dot)
  ∧ remove_char 46 (ip ++ dot) = ip ++ fp ∧ to_ascii_lowercase (ip ++ dot) = ip ++ dot
  ∧ match split_first (N.eqb 46) (ip ++ dot) with Some (_, f) => length f | None => 0 end = length fp
  ∧ match split_first (N.eqb 46) (ip ++ dot) with Some (_, f) => slen f | None => 0 end = length fp.
Proof.
  intros Hip Hfp Hdot. pose proof (digits_plain 46 ip Hip ltac:(lia)) as H46. pose proof (digits_plain 46 fp Hfp ltac:(lia)).
  pose proof (digits_plain 101 ip Hip ltac:(lia)) as H101. pose proof (digits_plain 101 fp Hfp ltac:(lia)).
  destruct Hdot as [[-> ->]| ->].
  - rewrite !app_nil_r. rewrite split_first_none by done. split_and!; try done.
    + by apply no_mark_digits.
    + apply remove_plain; [done|lia].
    + by apply lower_digits.
  - rewrite split_first_at by done. split_and!.
    + apply Forall_app. split; [by apply no_mark_digits|]. constructor; [done|by apply no_mark_digits].
    + apply Forall_app. split; [done|]. by constructor.
    + transitivity (remove_char 46 ip ++ remove_char 46 fp); [apply List.filter_app|].
      by rewrite !remove_plain by (done || lia).
    + unfold to_ascii_lowercase. rewrite fmap_app, fmap_cons. fold (to_ascii_lowercase ip) (to_ascii_lowercase fp).
      by rewrite !lower_digits.
    + done.
    + by apply slen_digits.
Qed.

Lemma dash_first (negative : bool) (ip rest : str) : all_digits ip → ip ≠ [] →
  starts_with (lit "-") ((if negative then lit "-" else []) ++ ip ++ rest) = negative
  ∧ drop_while (N.eqb 45) ((if negative then lit "-" else []) ++ ip ++ rest) = ip ++ rest.
Proof.
  intros Hip Hne. destruct ip as [|d ip]; [done|]. apply list.Forall_cons in Hip as [Hd _].
  assert ((45 =? d)%N = false) as Hd' by (unfold is_ascii_digit in Hd; lia).
  assert ((d =? 45)%N = false) as Hd'' by (unfold is_ascii_digit in Hd; lia).
  change (lit "-") with [45%N]. destruct negative; cbn [app starts_with drop_while]; rewrite ?N.eqb_refl, ?Hd', ?Hd''.
  - done.
  - cbn [andb]. by rewrite ?Hd'.
Qed.

(** A number within the reach of 64-bit scales. *)
Definition within_reach (t : str) (exponent : Z) : Prop :=
  (Z.of_nat (length t) < 2 ^ 62 ∧ - 2 ^ 62 < exponent < 2 ^ 62)%Z.

Lemma checked_i64_small z : (- 2 ^ 63 ≤ z < 2 ^ 63)%Z → checked_i64 z = Some z.
Proof. intros Hz. unfold checked_i64, i64_fits, i64_min, i64_max. by replace (_ && _) with true by lia. Qed.

Lemma json_number_split t negative ip fp exponent : json_number t negative ip fp exponent →
  ∃ dot ex, t = (if negative then lit "-" else []) ++ (ip ++ dot) ++ ex
    ∧ length ip + length fp ≤ length t ∧ (dot = [] ∧ fp = [] ∨ dot = 46%N :: fp)
    ∧ (ex = [] ∧ exponent = 0%Z
       ∨ ∃ c sign ds, ex = c :: sign ++ ds ∧ is_exponent_mark c = true ∧ (sign = [] ∨ sign = lit "-" ∨ sign = lit "+")
           ∧ ds ≠ [] ∧ all_digits ds ∧ exponent = signed (str_eqb sign (lit "-")) (digits_value 0 ds)).
Proof.
  intros [Hip Hfp Hne (dot & ex & -> & Hdot & Hex)]. exists dot, ex. rewrite <- app_assoc. split_and!; [done| |done..].
  rewrite !length_app. destruct Hdot as [[-> ->]| ->]; cbn [length]; lia.
Qed.

(** The parts Rust takes of a number. *)
Lemma decimal_parts_number t negative ip fp exponent :
  json_number t negative ip fp exponent → within_reach t exponent →
  decimal_parts t = (negative, coefficient_of ip fp, Some (scale_of ip fp exponent)).
Proof.
  intros Ht [Hlen He]. pose proof Ht as [Hip Hfp Hne _].
  apply json_number_split in Ht as (dot & ex & -> & Hl & Hdot & Hex).
  destruct (mantissa_parts ip fp dot Hip Hfp Hdot) as (Hm & _ & Hr & _ & _ & Hf).
  unfold decimal_parts. rewrite <- (app_assoc ip). rewrite (proj1 (dash_first _ _ _ Hip Hne)), (proj2 (dash_first _ _ _ Hip Hne)).
  rewrite app_assoc.
  assert (match split_first is_exponent_mark ((ip ++ dot) ++ ex) with
    | Some (mantissa, exponent) => (mantissa, parse_i64 exponent)
    | None => ((ip ++ dot) ++ ex, Some 0%Z) end = (ip ++ dot, Some exponent)) as ->.
  { destruct Hex as [[-> ->]|(c & sign & ds & -> & Hc & Hs & Hds & Hds' & ->)].
    - rewrite app_nil_r. by rewrite split_first_none.
    - rewrite split_first_at by done. rewrite (proj1 (parse_i64_signed sign ds Hs Hds Hds')). by rewrite checked_i64_small by lia. }
  rewrite Hr, Hf. fold (coefficient_of ip fp). f_equal.
  assert (all_digits (ip ++ fp)) as Hall by by apply Forall_app.
  rewrite !slen_digits by (done || by apply trim_digits). pose proof (trim_length (ip ++ fp)) as Htrim. rewrite length_app in Htrim.
  rewrite length_app. unfold scale_of. rewrite length_app. repeat (rewrite checked_i64_small by lia; cbn [mbind option_bind]).
  done.
Qed.

Lemma lower_app s t : to_ascii_lowercase (s ++ t) = to_ascii_lowercase s ++ to_ascii_lowercase t.
Proof. apply fmap_app. Qed.

(** The parts SQLite takes of a stored number are those Rust takes. *)
Lemma sql_parts_number t negative ip fp exponent :
  json_number t negative ip fp exponent → within_reach t exponent →
  sql_parts t = (negative, coefficient_of ip fp, scale_of ip fp exponent).
Proof.
  intros Ht [Hlen He]. pose proof Ht as [Hip Hfp Hne _].
  apply json_number_split in Ht as (dot & ex & -> & Hl & Hdot & Hex).
  destruct (mantissa_parts ip fp dot Hip Hfp Hdot) as (_ & Hm & Hr & Hlow & Hf & _).
  unfold sql_parts. rewrite (lower_app (if negative then lit "-" else [])), (lower_app (ip ++ dot)), Hlow. rewrite <- (app_assoc ip).
  replace (to_ascii_lowercase (if negative then lit "-" else [])) with (if negative then lit "-" else []) by by destruct negative.
  rewrite (proj1 (dash_first _ _ _ Hip Hne)).
  assert ((if negative then drop 1 ((if negative then lit "-" else []) ++ ip ++ dot ++ to_ascii_lowercase ex)
    else (if negative then lit "-" else []) ++ ip ++ dot ++ to_ascii_lowercase ex) = (ip ++ dot) ++ to_ascii_lowercase ex) as ->.
  { rewrite <- (app_assoc ip). by destruct negative. }
  assert (match split_first (N.eqb 101) ((ip ++ dot) ++ to_ascii_lowercase ex) with
    | Some (mantissa, rest) => (mantissa, cast_integer rest)
    | None => ((ip ++ dot) ++ to_ascii_lowercase ex, 0%Z) end = (ip ++ dot, exponent)) as ->.
  { destruct Hex as [[-> ->]|(c & sign & ds & -> & Hc & Hs & Hds & Hds' & ->)].
    - cbn [to_ascii_lowercase fmap list_fmap]. rewrite app_nil_r. by rewrite split_first_none.
    - assert (to_ascii_lowercase (c :: sign ++ ds) = 101%N :: sign ++ ds) as ->.
      { unfold to_ascii_lowercase. rewrite fmap_cons. fold (to_ascii_lowercase (sign ++ ds)). rewrite lower_app, (lower_digits ds Hds').
        f_equal; [|f_equal; by destruct Hs as [->|[->| ->]]]. unfold is_exponent_mark in Hc. unfold to_ascii_lowercase_char. by apply orb_true_iff in Hc as [->%N.eqb_eq| ->%N.eqb_eq]. }
      rewrite split_first_at by done. rewrite (proj2 (parse_i64_signed sign ds Hs Hds Hds')). f_equal. unfold i64_min, i64_max. lia. }
  rewrite Hr, Hf. fold (coefficient_of ip fp). f_equal. unfold scale_of. pose proof (trim_length (ip ++ fp)). lia.
Qed.

(** ** One number, one pair of parts *)

(** Digits without an outer zero: none, or a first and a last that are not zero. *)
Definition canonical (ds : str) : Prop :=
  all_digits ds ∧ (ds = [] ∨ (∃ d ds', ds = d :: ds' ∧ d ≠ 48%N) ∧ ∃ ds' d, ds = ds' ++ [d] ∧ d ≠ 48%N).

Lemma drop_zeros_last ds d : d ≠ 48%N →
  ∃ ds', drop_while (N.eqb 48) (ds ++ [d]) = ds' ++ [d].
Proof.
  intros Hd. induction ds as [|x ds IH]; cbn [app drop_while].
  - destruct (N.eqb_spec 48 d); [congruence|]. by exists [].
  - destruct (N.eqb_spec 48 x); [done|]. by exists (x :: ds).
Qed.

Lemma coefficient_canonical ip fp : all_digits ip → all_digits fp → canonical (coefficient_of ip fp).
Proof.
  intros Hip Hfp. assert (all_digits (ip ++ fp)) as Hall by by apply Forall_app. unfold coefficient_of.
  split; [by apply drop_zeros, trim_digits|].
  destruct (trim_zeros (ip ++ fp)) as (n & _ & [->|(ds & d & -> & Hd)]); [by left|].
  destruct (drop_while_form (ds ++ [d])) as [->|Hform]; [by left|right]. split; [done|].
  destruct (drop_zeros_last ds d Hd) as [ds' ->]. by exists ds', d.
Qed.

Lemma coefficient_value ip fp : all_digits ip → all_digits fp →
  digits_value 0 (ip ++ fp)
  = (digits_value 0 (coefficient_of ip fp) * 10 ^ N.of_nat (length (ip ++ fp) - length (trim_end_matches 48 (ip ++ fp))))%N.
Proof.
  intros Hip Hfp. assert (all_digits (ip ++ fp)) as Hall by by apply Forall_app. unfold coefficient_of.
  rewrite (proj1 (drop_zeros _ (trim_digits _ Hall))). destruct (trim_zeros (ip ++ fp)) as (n & E & _).
  rewrite E at 1. rewrite digits_value_app, digits_value_zeros, length_replicate, N.add_0_r. do 3 f_equal.
  rewrite E at 1. rewrite length_app, length_replicate. lia.
Qed.

Lemma signed_mul negative a b : signed negative (a * b) = (signed negative a * Z.of_N b)%Z.
Proof. destruct negative; cbn [signed]; lia. Qed.

Lemma compare_scaled_shift x s k b : (0 ≤ k)%Z → compare_scaled ((x * 10 ^ k)%Z, s) b = compare_scaled (x, (s + k)%Z) b.
Proof.
  intros Hk. set (low := Z.min s b.2). rewrite !(compare_scaled_min low) by (cbn; lia). cbn [fst snd].
  rewrite <- Z.mul_assoc, <- Z.pow_add_r by lia. do 3 f_equal. lia.
Qed.

Lemma number_value_parts negative ip fp exponent b : all_digits ip → all_digits fp →
  compare_scaled (number_value negative ip fp exponent) b
  = compare_scaled (signed negative (digits_value 0 (coefficient_of ip fp)), scale_of ip fp exponent) b.
Proof.
  intros Hip Hfp. unfold number_value. rewrite coefficient_value, signed_mul by done. rewrite N2Z.inj_pow, nat_N_Z.
  change (Z.of_N 10) with 10%Z. rewrite compare_scaled_shift by lia. done.
Qed.

Lemma canonical_pos ds : canonical ds → ds ≠ [] → (0 < digits_value 0 ds)%N ∧ (digits_value 0 ds mod 10 ≠ 0)%N.
Proof.
  intros [Hds [->|[(d & ds' & -> & Hd) (es & e & E & He)]]] Hne; [done|]. split.
  - pose proof (digits_value_pos d ds' ltac:(by apply list.Forall_cons in Hds as [? _]) Hd).
    assert (10 ^ N.of_nat (length ds') ≠ 0)%N by by apply N.pow_nonzero. lia.
  - rewrite E in *. apply Forall_app in Hds as [_ [He'%digit_bounds _]%list.Forall_cons].
    rewrite digits_value_app. change (length [e]) with 1. rewrite N.add_comm, N.pow_1_r, N.Div0.mod_add.
    unfold digits_value. cbn [foldl]. rewrite N.mod_small; lia.
Qed.

Lemma digits_value_inj ds es : all_digits ds → all_digits es → length ds = length es →
  digits_value 0 ds = digits_value 0 es → ds = es.
Proof.
  intros Hds. revert es. induction Hds as [|c ds Hc%digit_bounds Hds IH]; intros [|d es] Hes Hlen; try done.
  apply list.Forall_cons in Hes as [Hd%digit_bounds Hes]. injection Hlen as Hlen.
  pose proof (digits_value_lt ds Hds). pose proof (digits_value_lt es Hes). rewrite !digits_value_cons, Hlen in *.
  intros Heq. set (x := (c - 48)%N) in *. set (y := (d - 48)%N) in *. set (p := (10 ^ N.of_nat (length es))%N) in *.
  assert (x = y) as E by (destruct (N.lt_trichotomy x y) as [|[|]]; [nia|done|nia]). subst x y.
  f_equal; [lia|]. apply IH; [done..|]. rewrite E in Heq. lia.
Qed.

Lemma canonical_inj ds es : canonical ds → canonical es → digits_value 0 ds = digits_value 0 es → ds = es.
Proof.
  intros Hds Hes Heq. pose proof (canonical_pos ds Hds). pose proof (canonical_pos es Hes).
  destruct Hds as [Hd Hds], Hes as [He Hes]. apply digits_value_inj; [done..| |done].
  pose proof (digits_value_lt ds Hd) as Hld. pose proof (digits_value_lt es He) as Hle.
  assert (∀ c cs, canonical (c :: cs) → 10 ^ N.of_nat (length cs) ≤ digits_value 0 (c :: cs))%N as Hlow.
  { intros c cs [Hall [?|[(d & ds' & [= <- <-] & Hne) _]]]; [done|]. apply digits_value_pos; [|done]. by apply list.Forall_cons in Hall as [? _]. }
  destruct ds as [|d ds], es as [|e es]; try (cbn in *; lia).
  - destruct (H0 ltac:(done)) as [? _]. change (digits_value 0 []) with 0%N in Heq. lia.
  - destruct (H ltac:(done)) as [? _]. change (digits_value 0 []) with 0%N in Heq. lia.
  - pose proof (Hlow d ds (conj Hd Hds)). pose proof (Hlow e es (conj He Hes)).
    assert (N.of_nat (length ds) < N.of_nat (length (e :: es)))%N by (apply (N.pow_lt_mono_r_iff 10); lia).
    assert (N.of_nat (length es) < N.of_nat (length (d :: ds)))%N by (apply (N.pow_lt_mono_r_iff 10); lia).
    cbn [length] in *. lia.
Qed.

(** Equal numbers in canonical parts have equal parts. *)
Lemma canonical_equal n m ds es s t : canonical ds → canonical es →
  compare_scaled (signed n (digits_value 0 ds), s) (signed m (digits_value 0 es), t) = Datatypes.Eq
  ↔ (ds = [] ∧ es = []) ∨ (ds ≠ [] ∧ es = ds ∧ n = m ∧ s = t).
Proof.
  intros Hds Hes. pose proof (canonical_pos ds Hds) as Hpd. pose proof (canonical_pos es Hes) as Hpe.
  unfold compare_scaled. cbn [fst snd]. rewrite Z.compare_eq_iff.
  assert (∀ u, (Z.min s t ≤ u)%Z → (0 < 10 ^ (u - Z.min s t))%Z) as Hpow by (intros; apply Z.pow_pos_nonneg; lia).
  pose proof (Hpow s ltac:(lia)). pose proof (Hpow t ltac:(lia)).
  assert (∀ n v, signed n v = 0%Z ↔ v = 0%N) as Hzero by (intros [] v; cbn [signed]; lia).
  destruct (decide (ds = [])) as [->|Hd], (decide (es = [])) as [->|He].
  - change (digits_value 0 []) with 0%N. split; [by left|]. intros _. destruct n, m; cbn [signed]; lia.
  - destruct (Hpe He) as [? _]. change (digits_value 0 []) with 0%N. split; [|naive_solver].
    intros Heq. destruct n, m; cbn [signed] in Heq; nia.
  - destruct (Hpd Hd) as [? _]. change (digits_value 0 []) with 0%N. split; [|naive_solver].
    intros Heq. destruct n, m; cbn [signed] in Heq; nia.
  - destruct (Hpd Hd) as [Hd0 Hdm], (Hpe He) as [He0 Hem]. split; [|intros [[? _]|(_ & -> & -> & ->)]; done].
    intros Heq. right. assert (n = m) as -> by (destruct n, m; cbn [signed] in Heq; nia || done).
    assert (Z.of_N (digits_value 0 ds) * 10 ^ (s - Z.min s t) = Z.of_N (digits_value 0 es) * 10 ^ (t - Z.min s t))%Z as Habs
      by (destruct m; cbn [signed] in Heq; lia).
    assert (∀ (a b : N) (k : Z), (a mod 10 ≠ 0)%N → (0 < k)%Z → Z.of_N a = (Z.of_N b * 10 ^ k)%Z → False) as Hmod.
    { intros a b k Ha Hk E. apply Ha. replace k with (Z.succ (k - 1)) in E by lia. rewrite Z.pow_succ_r in E by lia.
      assert (Z.of_N a = (Z.of_N b * 10 ^ (k - 1)) * 10)%Z as E' by lia. apply N2Z.inj. rewrite N2Z.inj_mod, E'. change (Z.of_N 10) with 10%Z. rewrite Z.mod_mul by lia. done. }
    destruct (Z.lt_trichotomy s t) as [Hlt|[->|Hgt]].
    + exfalso. replace (s - Z.min s t)%Z with 0%Z in Habs by lia. apply (Hmod _ (digits_value 0 es) (t - Z.min s t)%Z Hdm); [lia|].
      by rewrite Z.pow_0_r, Z.mul_1_r in Habs.
    + rewrite Z.min_id, Z.sub_diag, Z.pow_0_r, !Z.mul_1_r in Habs. apply N2Z.inj in Habs. split_and!; try done.
      symmetry. by apply canonical_inj.
    + exfalso. replace (t - Z.min s t)%Z with 0%Z in Habs by lia. apply (Hmod _ (digits_value 0 ds) (s - Z.min s t)%Z Hem); [lia|].
      by rewrite Z.pow_0_r, Z.mul_1_r in Habs.
Qed.

(** The comparison of tokens is the comparison of numbers. *)
Lemma number_test_spec text n ip fp e token n' ip' fp' e' :
  json_number text n ip fp e → within_reach text e → json_number token n' ip' fp' e' → within_reach token e' →
  number_test text token = true ↔ same_number (number_value n' ip' fp' e') (number_value n ip fp e).
Proof.
  intros Ht Hr Ht' Hr'. unfold number_test. rewrite (decimal_parts_number _ _ _ _ _ Ht Hr), (sql_parts_number _ _ _ _ _ Ht' Hr').
  destruct Ht as [Hip Hfp _ _], Ht' as [Hip' Hfp' _ _]. unfold same_number.
  rewrite number_value_parts, compare_scaled_antisym, number_value_parts by done.
  assert (∀ c, CompOpp c = Datatypes.Eq ↔ c = Datatypes.Eq) as -> by (by intros []).
  rewrite canonical_equal by by apply coefficient_canonical.
  destruct (coefficient_of ip fp) as [|d ds].
  - cbn [nilb]. destruct (coefficient_of ip' fp'); naive_solver.
  - cbn [nilb]. rewrite !andb_true_iff, str_eqb_true, Bool.eqb_true_iff, Z.eqb_eq. naive_solver.
Qed.
