(* ===== verification/JsonConditions.v ===== *)
(** * The JSON tests as conditions

    The tests of [SqliteJson] are the texts of SQL conditions over the document and the
    rows of their subqueries: the conditions, SQLite's evaluation of one, and that each
    test writes its condition and binds its values in order. The JSON values the tests
    compare, their containment and equality, are here too. *)

From S2P Require Import Prelude Dialect Filters Decimals SqliteJson JsonNumbers.
Local Open Scope tide_scope.

(** ** Values *)

(** JSON values, a number by its value; a stored document, a number by its token. *)
Inductive Value :=
  | VNull | VBool (b : bool) | VNumber (n : Z * Z) | VText (s : str)
  | VArray (items : list Value) | VObject (members : list (str * Value)).

Inductive Document :=
  | DNull | DBool (b : bool) | DNumber (token : str) | DText (s : str)
  | DArray (items : list Document) | DObject (members : list (str * Document)).

(** Scalars compare, and containers equal none. *)
Definition scalar_same (v w : Value) : Prop :=
  match v, w with
  | VNull, VNull => True
  | VBool a, VBool b => a = b
  | VNumber a, VNumber b => same_number a b
  | VText a, VText b => a = b
  | _, _ => False
  end.

(** [v] holds [w]: an object each member's value under its key, an array each element in
    some element, a scalar the scalar. *)
Inductive holds : Value → Value → Prop :=
  | holds_scalar v w : scalar_same v w → holds v w
  | holds_array own items :
      (∀ x, x ∈ items → ∃ y, y ∈ own ∧ holds y x) → holds (VArray own) (VArray items)
  | holds_object own members :
      (∀ k x, (k, x) ∈ members → ∃ y, (k, y) ∈ own ∧ holds y x) → holds (VObject own) (VObject members).

(** Containment of documents: at the top an array contains its own scalars too. *)
Definition contains_value (v w : Value) : Prop :=
  holds v w ∨ ∃ own y, v = VArray own ∧ y ∈ own ∧ scalar_same y w.

(** Equality of documents: numbers by value, the members of an object in any order. *)
Inductive same_value : Value → Value → Prop :=
  | same_scalar v w : scalar_same v w → same_value v w
  | same_array own items : Forall2 same_value own items → same_value (VArray own) (VArray items)
  | same_object own members :
      (∀ k x, (k, x) ∈ members → ∃ y, (k, y) ∈ own ∧ same_value y x) → own.*1 ≡ₚ members.*1 →
      same_value (VObject own) (VObject members).

Section values.
Context {Bound : Type} `{JsonTestValues Bound}.

(** What a stored document, and a value asked for, stand for: no key twice in an object. *)
Definition token_number (token : str) (n : Z * Z) : Prop :=
  ∃ negative ip fp exponent, json_number token negative ip fp exponent ∧ within_reach token exponent
    ∧ n = number_value negative ip fp exponent.

Inductive denotes : Document → Value → Prop :=
  | denotes_null : denotes DNull VNull
  | denotes_bool b : denotes (DBool b) (VBool b)
  | denotes_number token n : token_number token n → denotes (DNumber token) (VNumber n)
  | denotes_text s : denotes (DText s) (VText s)
  | denotes_array items values : Forall2 denotes items values → denotes (DArray items) (VArray values)
  | denotes_object members values :
      NoDup (members.*1) → Forall2 (λ m v, m.1 = v.1 ∧ denotes m.2 v.2) members values →
      denotes (DObject members) (VObject values).

Inductive asks : Json → Value → Prop :=
  | asks_null : asks JNull VNull
  | asks_bool b : asks (JBool b) (VBool b)
  | asks_number number n : token_number (number_to_string number) n → asks (JNumber number) (VNumber n)
  | asks_text s : asks (JString s) (VText s)
  | asks_array items values : Forall2 asks items values → asks (JArray items) (VArray values)
  | asks_object members values :
      NoDup (members.*1) → Forall2 (λ m v, m.1 = v.1 ∧ asks m.2 v.2) members values →
      asks (JObject members) (VObject values).
End values.

(** ** Conditions

    The SQL conditions the tests are made of. *)

Inductive Place := Column | Row (alias : N).

Inductive Condition :=
  | Type_ (place : Place) (name : str)                 (* type = 'name' *)
  | Atom (place : Place) (text : str)                  (* atom = ? *)
  | NumberTest (place : Place) (text : str)            (* the normalised token *)
  | KeyIs (alias : N) (key : str)                      (* alias.key = ? *)
  | IndexIs (alias : N) (index : nat)                  (* alias.key = index *)
  | CountIs (place : Place) (count : nat)
  | LengthIs (place : Place) (length : nat)
  | Both (checks : list Condition)                     (* checks joined with AND *)
  | Either (checks : list Condition)                   (* with OR, 0 when there is none *)
  | Group (check : Condition)                          (* in parentheses *)
  | SomeRow (place : Place) (alias : N) (test : Condition)
  | NoRow (place : Place) (alias : N) (test : Condition).

(** How tightly a condition's text binds: OR, AND, NOT, then the rest. A condition is
    [grouped] where its text is read as it is: AND, OR and NOT are over tighter texts. *)
Definition level (c : Condition) : nat :=
  match c with Either _ => 0 | Both _ => 1 | NoRow _ _ _ => 2 | _ => 3 end.

Fixpoint grouped (c : Condition) : bool :=
  match c with
  | Both checks => forallb (λ check, grouped check && (2 <=? level check)) checks
  | Either checks => forallb (λ check, grouped check && (1 <=? level check)) checks
  | Group check | SomeRow _ _ check => grouped check
  | NoRow _ _ check => grouped check && (3 <=? level check)
  | _ => true
  end.

(** What a condition evaluates to. *)
Inductive Outcome := Yes | No | Unknown | Failed.

Definition outcome (b : bool) : Outcome := if b then Yes else No.

(** Left to right, what follows a test that decides left alone. *)
Definition and_then (a b : Outcome) : Outcome :=
  match a, b with
  | No, _ => No
  | Failed, _ => Failed
  | Yes, b => b
  | Unknown, No => No
  | Unknown, Failed => Failed
  | Unknown, _ => Unknown
  end.

Definition or_else (a b : Outcome) : Outcome :=
  match a, b with
  | Yes, _ => Yes
  | Failed, _ => Failed
  | No, b => b
  | Unknown, Yes => Yes
  | Unknown, Failed => Failed
  | Unknown, _ => Unknown
  end.

Definition negate (o : Outcome) : Outcome := match o with Yes => No | No => Yes | Unknown => Unknown | Failed => Failed end.

Definition is_yes (o : Outcome) : bool := match o with Yes => true | _ => false end.
Definition is_no (o : Outcome) : bool := match o with No => true | _ => false end.
Definition is_failed (o : Outcome) : bool := match o with Failed => true | _ => false end.

(** ** SQLite's evaluation

    [json_type] and [json_each.type]; the rows of [json_each]. A condition fails where
    SQLite would refuse it or read something else than a document: [json_each] of a row
    that is no container, an alias already taken, an [atom] that is no text. *)

Inductive RowKey := Named (key : str) | Indexed (index : nat).

Definition json_type (d : Document) : str :=
  match d with
  | DNull => lit "null"
  | DBool true => lit "true"
  | DBool false => lit "false"
  | DNumber token => if existsb (λ c, (c =? 46)%N || is_exponent_mark c) token then lit "real" else lit "integer"
  | DText _ => lit "text"
  | DArray _ => lit "array"
  | DObject _ => lit "object"
  end.

Definition json_each (d : Document) : option (list (RowKey * Document)) :=
  match d with
  | DArray items => Some (imap (λ i d, (Indexed i, d)) items)
  | DObject members => Some ((λ m, (Named m.1, m.2)) <$> members)
  | _ => None
  end.

Section evaluation.
(** The column: [None] is an SQL null. *)
Variable column : option Document.

Definition node_of (scope : gmap N (RowKey * Document)) (place : Place) : option (option Document) :=
  match place with
  | Column => Some column
  | Row alias => '(_, d) ← scope !! alias; Some (Some d)
  end.

(** The rows of [json_each] over a place; a null has none. *)
Definition rows_of (scope : gmap N (RowKey * Document)) (place : Place) : option (list (RowKey * Document)) :=
  node ← node_of scope place;
  match node with None => Some [] | Some d => json_each d end.

(** A test of the document a place is, unknown of a null. *)
Definition on_node (scope : gmap N (RowKey * Document)) (place : Place) (test : Document → Outcome) : Outcome :=
  match node_of scope place with
  | None => Failed
  | Some None => Unknown
  | Some (Some d) => test d
  end.

(** Whether some row passes a test; no row may fail it. *)
Definition some_row (outcomes : list Outcome) : Outcome :=
  if existsb is_failed outcomes then Failed else outcome (existsb is_yes outcomes).

Fixpoint evaluate (scope : gmap N (RowKey * Document)) (c : Condition) : Outcome :=
  match c with
  | Type_ place name => on_node scope place (λ d, outcome (str_eqb (json_type d) name))
  | Atom place text => on_node scope place (λ d, match d with DText s => outcome (str_eqb s text) | _ => Failed end)
  | NumberTest place text =>
      on_node scope place (λ d, match d with DNumber token => outcome (number_test text token) | _ => No end)
  | KeyIs alias key =>
      match scope !! alias with Some (Named k, _) => outcome (str_eqb k key) | _ => Failed end
  | IndexIs alias index =>
      match scope !! alias with Some (Indexed i, _) => outcome (i =? index)%nat | _ => Failed end
  | CountIs place count =>
      match rows_of scope place with Some rows => outcome (length rows =? count)%nat | None => Failed end
  | LengthIs place count =>
      on_node scope place (λ d, match d with DArray items => outcome (length items =? count)%nat | _ => Failed end)
  | Both checks =>
      (fix all (checks : list Condition) : Outcome :=
         match checks with [] => Yes | check :: checks => and_then (evaluate scope check) (all checks) end) checks
  | Either checks =>
      (fix any (checks : list Condition) : Outcome :=
         match checks with [] => No | check :: checks => or_else (evaluate scope check) (any checks) end) checks
  | Group check => evaluate scope check
  | SomeRow place alias test =>
      match scope !! alias, rows_of scope place with
      | None, Some rows => some_row ((λ r, evaluate (<[alias := r]> scope) test) <$> rows)
      | _, _ => Failed
      end
  | NoRow place alias test =>
      match scope !! alias, rows_of scope place with
      | None, Some rows =>
          negate (some_row ((λ r, negate (evaluate (<[alias := r]> scope) test)) <$> rows))
      | _, _ => Failed
      end
  end.
End evaluation.

(** ** The conditions of a test

    [contains], [contained_by] and [equals] with conditions in place of their texts; the
    argument [n] counts the aliases taken. *)

Section json_rect.
Variable P : Json → Prop.
Hypothesis null : P JNull.
Hypothesis bool : ∀ b, P (JBool b).
Hypothesis number : ∀ n, P (JNumber n).
Hypothesis text : ∀ s, P (JString s).
Hypothesis array : ∀ items, Forall P items → P (JArray items).
Hypothesis object : ∀ members, Forall (λ m, P m.2) members → P (JObject members).

Fixpoint json_nested (j : Json) : P j :=
  match j with
  | JNull => null
  | JBool b => bool b
  | JNumber n => number n
  | JString s => text s
  | JArray items =>
      array items ((fix all (l : list Json) : Forall P l :=
        match l with [] => @Stdlib.Lists.List.Forall_nil _ _ | x :: l => @Stdlib.Lists.List.Forall_cons _ _ x l (json_nested x) (all l) end) items)
  | JObject members =>
      object members ((fix all (l : list (str * Json)) : Forall (λ m, P m.2) l :=
        match l with [] => @Stdlib.Lists.List.Forall_nil _ _ | x :: l => @Stdlib.Lists.List.Forall_cons _ _ x l (json_nested x.2) (all l) end) members)
  end.
End json_rect.


Section conditions.
Context {Bound : Type} `{JsonTestValues Bound}.

Definition scalar_condition (place : Place) (scalar : Json) : Condition :=
  match scalar with
  | JNull => Type_ place (lit "null")
  | JBool true => Type_ place (lit "true")
  | JBool false => Type_ place (lit "false")
  | JNumber number => NumberTest place (number_to_string number)
  | JString text => Group (Both [Type_ place (lit "text"); Atom place text])
  | JArray _ | JObject _ => Either []
  end.

Fixpoint contains_condition (candidate : Json) (place : Place) (top_level : bool) (n : N) {struct candidate} : Condition * N :=
  match candidate with
  | JObject members =>
      let '(checks, n) := for_each (λ _ m n,
        let '(member, n') := contains_condition m.2 (Row (n + 1)) false (n + 1) in
        (SomeRow place (n + 1) (Both [KeyIs (n + 1) m.1; member]), n')) 0 members n in
      (Group (Both (Type_ place (lit "object") :: checks)), n)
  | JArray elements =>
      let '(checks, n) := for_each (λ _ e n,
        let '(element, n') := contains_condition e (Row (n + 1)) false (n + 1) in
        (SomeRow place (n + 1) element, n')) 0 elements n in
      (Group (Both (Type_ place (lit "array") :: checks)), n)
  | scalar =>
      if top_level
      then (Group (Either [scalar_condition place scalar;
             Group (Both [Type_ place (lit "array"); SomeRow place (n + 1) (scalar_condition (Row (n + 1)) scalar)])]), (n + 1)%N)
      else (scalar_condition place scalar, n)
  end.

Fixpoint contained_condition (container : Json) (place : Place) (top_level : bool) (n : N) {struct container} : Condition * N :=
  match container with
  | JObject members =>
      let '(placed, n') := for_each (λ _ m n',
        let '(member, n'') := contained_condition m.2 (Row (n + 1)) false n' in
        (Group (Both [KeyIs (n + 1) m.1; member]), n'')) 0 members (n + 1)%N in
      (Group (Both [Type_ place (lit "object"); NoRow place (n + 1) (Group (Either placed))]), n')
  | JArray elements =>
      let '(placed, n') := for_each (λ _ e n', contained_condition e (Row (n + 1)) false n') 0 elements (n + 1)%N in
      let array := Group (Both [Type_ place (lit "array"); NoRow place (n + 1) (Group (Either placed))]) in
      if negb top_level then (array, n')
      else (Group (Either [array;
              Group (Either (scalar_condition place <$> List.filter (λ e, negb (is_container e)) elements))]), n')
  | scalar => (scalar_condition place scalar, n)
  end.

Fixpoint equals_condition (value : Json) (place : Place) (n : N) {struct value} : Condition * N :=
  match value with
  | JObject members =>
      let '(checks, n) := for_each (λ _ m n,
        let '(equal, n') := equals_condition m.2 (Row (n + 1)) (n + 1) in
        (SomeRow place (n + 1) (Both [KeyIs (n + 1) m.1; equal]), n')) 0 members n in
      (Group (Both (Type_ place (lit "object") :: CountIs place (length members) :: checks)), n)
  | JArray elements =>
      let '(checks, n) := for_each (λ index e n,
        let '(equal, n') := equals_condition e (Row (n + 1)) (n + 1) in
        (SomeRow place (n + 1) (Both [IndexIs (n + 1) index; equal]), n')) 0 elements n in
      (Group (Both (Type_ place (lit "array") :: LengthIs place (length elements) :: checks)), n)
  | scalar => (scalar_condition place scalar, n)
  end.

(** Every condition is read as it is. *)
Definition tight (c : Condition) : Prop := grouped c = true ∧ level c = 3.

Lemma for_each_tight {A} (check : nat → A → N → Condition * N) (P : A → Prop) l : Forall P l →
  (∀ x i n, P x → tight (check i x n).1) → ∀ i n, Forall tight (for_each check i l n).1.
Proof.
  intros Hl Hc. induction Hl as [|x l Hx _ IH]; intros i n; [constructor|]. cbn [for_each]. fold (@for_each _ _ _ check).
  specialize (Hc x i n Hx). destruct (check i x n) as [c n']. specialize (IH (S i) n').
  destruct (for_each check (S i) l n') as [cs n'']. by constructor.
Qed.

Lemma tight_both cs : Forall tight cs → tight (Group (Both cs)).
Proof. intros Hcs. split; [|done]. cbn [grouped]. induction Hcs as [|c cs [Hg Hl] _ IH]; [done|]. cbn [forallb]. by rewrite Hg, Hl. Qed.

Lemma tight_either cs : Forall tight cs → tight (Group (Either cs)).
Proof. intros Hcs. split; [|done]. cbn [grouped]. induction Hcs as [|c cs [Hg Hl] _ IH]; [done|]. cbn [forallb]. by rewrite Hg, Hl. Qed.

Lemma tight_row place alias c : tight c → tight (SomeRow place alias c).
Proof. intros [Hg _]. by split. Qed.

Lemma tight_key_row place alias key c : tight key → tight c → tight (SomeRow place alias (Both [key; c])).
Proof. intros [Hk Hk'] [Hg Hl]. split; [|done]. cbn [grouped forallb]. by rewrite Hk, Hk', Hg, Hl. Qed.

Lemma tight_no_row place alias name cs : Forall tight cs →
  tight (Group (Both [Type_ place name; NoRow place alias (Group (Either cs))])).
Proof.
  intros [Hg _]%tight_either. split; [|done]. cbn [grouped forallb level] in *. by rewrite Hg.
Qed.

Lemma scalar_tight place j : is_container j = false → tight (scalar_condition place j).
Proof. by destruct j as [|[]| | | |]. Qed.

Lemma contains_tight j : ∀ place top_level n, tight (contains_condition j place top_level n).1.
Proof.
  induction j as [|b|number|s|elements IH|members IH] using json_nested; intros place top_level n.
  1-4: destruct top_level; [|by apply scalar_tight]; repeat (apply tight_either || apply tight_both || constructor); by apply scalar_tight.
  all: cbn [contains_condition]; match goal with |- context [for_each ?check 0 ?l ?m] =>
    assert (Forall tight (for_each check 0 l m).1) as Ht;
      [eapply for_each_tight; [eassumption|]|destruct (for_each check 0 l m); apply tight_both; by constructor] end.
  - intros e i m He. specialize (He (Row (m + 1)) false (m + 1)%N). destruct (contains_condition e _ _ _). by apply tight_row.
  - intros e i m He. specialize (He (Row (m + 1)) false (m + 1)%N). destruct (contains_condition e.2 _ _ _). by apply tight_key_row.
Qed.

Lemma contained_tight j : ∀ place top_level n, tight (contained_condition j place top_level n).1.
Proof.
  induction j as [|b|number|s|elements IH|members IH] using json_nested; intros place top_level n; try by apply scalar_tight.
  all: cbn [contained_condition]; match goal with |- context [for_each ?check 0 ?l ?m] =>
    assert (Forall tight (for_each check 0 l m).1) as Ht;
      [eapply for_each_tight; [eassumption|]|destruct (for_each check 0 l m)] end.
  - intros e i m He. apply He.
  - apply (tight_no_row place (n + 1) (lit "array")) in Ht. destruct top_level; [|done]. apply tight_either. constructor; [done|]. constructor; [|constructor]. apply tight_either.
    induction elements as [|e es IHes]; [constructor|]. apply list.Forall_cons in IH as [_ IH]. cbn [List.filter].
    destruct (is_container e) eqn:He; cbn [negb]; [by apply IHes|]. constructor; [by apply scalar_tight|by apply IHes].
  - intros e i m He. specialize (He (Row (n + 1)) false m). destruct (contained_condition e.2 _ _ _) as [c m']. apply tight_both.
    by repeat constructor; apply He.
  - by apply (tight_no_row place (n + 1) (lit "object")) in Ht.
Qed.

Lemma equals_tight j : ∀ place n, tight (equals_condition j place n).1.
Proof.
  induction j as [|b|number|s|elements IH|members IH] using json_nested; intros place n; try by apply scalar_tight.
  all: cbn [equals_condition]; match goal with |- context [for_each ?check 0 ?l ?m] =>
    assert (Forall tight (for_each check 0 l m).1) as Ht;
      [eapply for_each_tight; [eassumption|]|destruct (for_each check 0 l m); apply tight_both; by repeat constructor] end.
  - intros e i m He. specialize (He (Row (m + 1)) (m + 1)%N). destruct (equals_condition e _ _). by apply tight_key_row.
  - intros e i m He. specialize (He (Row (m + 1)) (m + 1)%N). destruct (equals_condition e.2 _ _). by apply tight_key_row.
Qed.

(** The text of a condition over the node [base], and the values it binds. *)
Section text.
Variable base : Node.

Definition node_at (place : Place) : Node :=
  match place with Column => base | Row alias => row (lit "tide_json_" ++ show_N alias) end.

Fixpoint condition_text (c : Condition) : str :=
  match c with
  | Type_ place name => kind (node_at place) ++ lit " = '" ++ name ++ lit "'"
  | Atom place _ => atom (node_at place) ++ lit " = ?"
  | NumberTest place text => (number_equals (node_at place) text ([], 0%N)).1
  | KeyIs alias _ => lit "tide_json_" ++ show_N alias ++ lit ".key = ?"
  | IndexIs alias index => lit "tide_json_" ++ show_N alias ++ lit ".key = " ++ show_N (N.of_nat index)
  | CountIs place count => lit "(SELECT COUNT(*) FROM json_each(" ++ json (node_at place) ++ lit ")) = " ++ show_N (N.of_nat count)
  | LengthIs place count => lit "json_array_length(" ++ json (node_at place) ++ lit ") = " ++ show_N (N.of_nat count)
  | Both checks => join (lit " AND ") (condition_text <$> checks)
  | Either [] => lit "0"
  | Either checks => join (lit " OR ") (condition_text <$> checks)
  | Group check => lit "(" ++ condition_text check ++ lit ")"
  | SomeRow place alias test => exists_row (node_at place) (lit "tide_json_" ++ show_N alias) (condition_text test)
  | NoRow place alias test => no_row (node_at place) (lit "tide_json_" ++ show_N alias) (condition_text test)
  end.

Fixpoint condition_values (c : Condition) : list Bound :=
  match c with
  | Atom _ text => [text_value text]
  | NumberTest place text => (number_equals (node_at place) text ([], 0%N)).2.1
  | KeyIs _ key => [text_value key]
  | Both checks | Either checks => checks ≫= condition_values
  | Group check | SomeRow _ _ check | NoRow _ _ check => condition_values check
  | _ => []
  end.
End text.
End conditions.

(** ** The tests are their conditions *)

Section emission.
Context {Bound : Type} `{JsonTestValues Bound} (base : Node).
Notation Tests := (JsonTests Bound).
Notation text := (condition_text base).
Notation values := (condition_values base).
Notation at_ := (node_at base).

(** One text, however its parts were put together; and the values of one. *)
Ltac written := cbn [condition_text condition_values fst snd fmap list_fmap join mbind list_bind]; by rewrite ?app_nil_r, <- ?app_assoc.

(** A step of a test writes a condition and binds its values. *)
Definition writes (c : Condition * N) (test : str * Tests) (bound : list Bound) : Prop :=
  test = (text c.1, (bound ++ values c.1, c.2)).

Lemma for_each_writes {A} (step : nat → A → Tests → str * Tests) (check : nat → A → N → Condition * N) l i bound n :
  Forall (λ x, ∀ i bound n, writes (check i x n) (step i x (bound, n)) bound) l →
  for_each step i l (bound, n)
  = (text <$> (for_each check i l n).1, (bound ++ ((for_each check i l n).1 ≫= values), (for_each check i l n).2)).
Proof.
  intros Hl. revert i bound n. induction Hl as [|x l Hx _ IH]; intros i bound n; [by cbn; rewrite app_nil_r|].
  cbn [for_each]. rewrite (Hx i bound n). destruct (check i x n) as [c n']. cbn [fst snd].
  fold (@for_each _ _ _ step). fold (@for_each _ _ _ check). rewrite (IH (S i)). destruct (for_each check (S i) l n') as [cs n''].
  cbn [fst snd fmap list_fmap mbind list_bind]. by rewrite app_assoc.
Qed.

Lemma number_equals_state node number bound n :
  number_equals node number (bound, n)
  = ((number_equals node number ([], 0%N)).1, (bound ++ (number_equals (Bound := Bound) node number ([], 0%N)).2.1, n)).
Proof.
  unfold number_equals, number_comparison. destruct (decimal_parts number) as [[negative coefficient] scale].
  destruct (nilb coefficient); [|destruct scale]; unfold bind_value; cbn [fst snd]; by rewrite ?app_nil_r, <- ?app_assoc.
Qed.

Lemma scalar_writes place scalar bound n : is_container scalar = false →
  writes (scalar_condition place scalar, n) (scalar_equals (at_ place) scalar (bound, n)) bound.
Proof.
  unfold writes. destruct scalar as [|[]|number|s| |]; intros Hs; try done; cbn [scalar_equals scalar_condition fst snd].
  1-3: by cbn [condition_values]; rewrite app_nil_r.
  - rewrite number_equals_state. done.
  - f_equal. written.
Qed.

Lemma any_text checks : any_of (text <$> checks) = text (Group (Either checks)).
Proof. destruct checks as [|c cs]; reflexivity. Qed.

Lemma all_text checks : all_of (text <$> checks) = text (Group (Both checks)).
Proof. reflexivity. Qed.

Lemma alias_state (bound : list Bound) n : alias (bound, n) = (lit "tide_json_" ++ show_N (n + 1), (bound, (n + 1)%N)).
Proof. reflexivity. Qed.

Lemma contains_writes candidate : ∀ place top_level bound n,
  writes (contains_condition candidate place top_level n) (contains candidate (at_ place) top_level (bound, n)) bound.
Proof.
  assert (∀ scalar place top_level bound n, is_container scalar = false →
    writes (contains_condition scalar place top_level n) (contains scalar (at_ place) top_level (bound, n)) bound) as Hscalar.
  { intros scalar place top_level bound n Hs.
    assert (contains_condition scalar place top_level n = if top_level
      then (Group (Either [scalar_condition place scalar;
             Group (Both [Type_ place (lit "array"); SomeRow place (n + 1) (scalar_condition (Row (n + 1)) scalar)])]), (n + 1)%N)
      else (scalar_condition place scalar, n)) as -> by by destruct scalar.
    assert (contains scalar (at_ place) top_level (bound, n) = if top_level then
        let '(equal, st) := scalar_equals (at_ place) scalar (bound, n) in
        let '(element, st) := some_element (λ node st, scalar_equals node scalar st) (at_ place) st in
        (lit "(" ++ equal ++ lit " OR (" ++ kind (at_ place) ++ lit " = 'array' AND " ++ element ++ lit "))", st)
      else scalar_equals (at_ place) scalar (bound, n)) as -> by by destruct scalar.
    destruct top_level; [|by apply scalar_writes]. rewrite (scalar_writes place scalar bound n Hs). unfold some_element.
    rewrite alias_state. change (row (lit "tide_json_" ++ show_N (n + 1))) with (at_ (Row (n + 1))).
    rewrite (scalar_writes (Row (n + 1)) scalar _ _ Hs). unfold writes. cbn [fst snd]. f_equal.
    - written.
    - f_equal. written. }
  induction candidate as [|b|number|s|elements IH|members IH] using json_nested; intros place top_level bound n; try by apply Hscalar.
  - cbn [contains contains_condition].
    match goal with |- context [for_each ?check 0 elements n] => rewrite (for_each_writes _ check) end.
    2:{ eapply list.Forall_impl; [exact IH|]. intros e He i bound' n'. unfold some_element. rewrite alias_state.
        change (row (lit "tide_json_" ++ show_N (n' + 1))) with (at_ (Row (n' + 1))). rewrite (He (Row (n' + 1)) false bound' (n' + 1)%N).
        unfold writes. destruct (contains_condition e (Row (n' + 1)) false (n' + 1)) as [c n'']. reflexivity. }
    unfold writes. destruct (for_each _ 0 elements n) as [cs n']. reflexivity.
  - cbn [contains contains_condition].
    match goal with |- context [for_each ?check 0 members n] => rewrite (for_each_writes _ check) end.
    2:{ eapply list.Forall_impl; [exact IH|]. intros [key e] He i bound' n'. rewrite alias_state.
        change (row (lit "tide_json_" ++ show_N (n' + 1))) with (at_ (Row (n' + 1))). cbn [fst snd] in *. unfold bind_value.
        rewrite (He (Row (n' + 1)) false _ (n' + 1)%N).
        unfold writes. destruct (contains_condition e (Row (n' + 1)) false (n' + 1)) as [c n'']. cbn [fst snd]. f_equal.
        - written.
        - f_equal. written. }
    unfold writes. destruct (for_each _ 0 members n) as [cs n']. reflexivity.
Qed.

Lemma contained_writes container : ∀ place top_level bound n,
  writes (contained_condition container place top_level n) (contained_by container (at_ place) top_level (bound, n)) bound.
Proof.
  induction container as [|b|number|s|elements IH|members IH] using json_nested; intros place top_level bound n;
    try by apply scalar_writes.
  - cbn [contained_by contained_condition]. rewrite alias_state.
    change (row (lit "tide_json_" ++ show_N (n + 1))) with (at_ (Row (n + 1))).
    match goal with |- context [for_each ?check 0 elements (n + 1)%N] => rewrite (for_each_writes _ check) end.
    2:{ eapply list.Forall_impl; [exact IH|]. intros e He i bound' n'. apply He. }
    destruct (for_each _ 0 elements (n + 1)%N) as [cs n']. cbn [fst snd]. rewrite any_text.
    assert (lit "(" ++ kind (at_ place) ++ lit " = 'array' AND "
        ++ no_row (at_ place) (lit "tide_json_" ++ show_N (n + 1)) (text (Group (Either cs))) ++ lit ")"
      = text (Group (Both [Type_ place (lit "array"); NoRow place (n + 1) (Group (Either cs))]))) as ->.
    { written. }
    destruct top_level; cbn [negb].
    2:{ unfold writes. cbn [fst snd]. do 2 f_equal. written. }
    assert (∀ l i bound n, for_each (λ _ element, scalar_equals (at_ place) element) i (List.filter (λ e, negb (is_container e)) l) (bound, n)
      = (text <$> (scalar_condition place <$> List.filter (λ e, negb (is_container e)) l),
         (bound ++ ((scalar_condition place <$> List.filter (λ e, negb (is_container e)) l) ≫= values), n))) as Hscalars.
    { clear. induction l as [|e l IH]; intros i bound n; [cbn; by rewrite app_nil_r|]. cbn [List.filter].
      destruct (is_container e) eqn:He; cbn [negb]; [apply IH|]. cbn [for_each]. rewrite (scalar_writes place e bound n He).
      cbn [fst snd]. fold (@for_each _ _ _ (λ _ : nat, scalar_equals (Bound := Bound) (at_ place))).
      rewrite (IH (S i)). cbn [fmap list_fmap mbind list_bind]. by rewrite app_assoc. }
    rewrite Hscalars, any_text. unfold writes. cbn [fst snd]. do 2 f_equal.
    + written.
    + written.
  - cbn [contained_by contained_condition]. rewrite alias_state.
    change (row (lit "tide_json_" ++ show_N (n + 1))) with (at_ (Row (n + 1))).
    match goal with |- context [for_each ?check 0 members (n + 1)%N] => rewrite (for_each_writes _ check) end.
    2:{ eapply list.Forall_impl; [exact IH|]. intros [key e] He i bound' n'. cbn [fst snd] in *. unfold bind_value.
        rewrite (He (Row (n + 1)) false _ n'). unfold writes.
        destruct (contained_condition e (Row (n + 1)) false n') as [c n'']. cbn [fst snd]. f_equal.
        - written.
        - f_equal. written. }
    destruct (for_each _ 0 members (n + 1)%N) as [cs n']. cbn [fst snd]. rewrite any_text. unfold writes. cbn [fst snd]. do 2 f_equal.
    + written.
    + written.
Qed.

Lemma equals_writes value : ∀ place bound n,
  writes (equals_condition value place n) (equals value (at_ place) (bound, n)) bound.
Proof.
  induction value as [|b|number|s|elements IH|members IH] using json_nested; intros place bound n;
    try by apply scalar_writes.
  - cbn [equals equals_condition].
    match goal with |- context [for_each ?check 0 elements n] => rewrite (for_each_writes _ check) end.
    2:{ eapply list.Forall_impl; [exact IH|]. intros e He i bound' n'. rewrite alias_state.
        change (row (lit "tide_json_" ++ show_N (n' + 1))) with (at_ (Row (n' + 1))).
        rewrite (He (Row (n' + 1)) _ (n' + 1)%N). unfold writes.
        destruct (equals_condition e (Row (n' + 1)) (n' + 1)) as [c n'']. cbn [fst snd]. f_equal.
        - written.
        - f_equal. written. }
    destruct (for_each _ 0 elements n) as [cs n']. reflexivity.
  - cbn [equals equals_condition].
    match goal with |- context [for_each ?check 0 members n] => rewrite (for_each_writes _ check) end.
    2:{ eapply list.Forall_impl; [exact IH|]. intros [key e] He i bound' n'. rewrite alias_state.
        change (row (lit "tide_json_" ++ show_N (n' + 1))) with (at_ (Row (n' + 1))). cbn [fst snd] in *. unfold bind_value.
        rewrite (He (Row (n' + 1)) _ (n' + 1)%N). unfold writes.
        destruct (equals_condition e (Row (n' + 1)) (n' + 1)) as [c n'']. cbn [fst snd]. f_equal.
        - written.
        - f_equal. written. }
    destruct (for_each _ 0 members n) as [cs n']. reflexivity.
Qed.
End emission.
