(* ===== verification/JsonContainment.v ===== *)
(** * What the JSON tests decide

    SQLite's evaluation of the conditions of [JsonConditions]: each test decides
    containment, or equality, of JSON values, and a null matches none. *)

From S2P Require Import Prelude Dialect Filters Decimals SqliteJson JsonNumbers JsonConditions.
Local Open Scope tide_scope.

(** ** What the conditions decide *)

(** [o] is the answer to [P], a yes or a no. *)
Definition decides (o : Outcome) (P : Prop) : Prop := o = Yes ∧ P ∨ o = No ∧ ¬ P.

Lemma decides_iff o P Q : (P ↔ Q) → decides o P → decides o Q.
Proof. unfold decides. tauto. Qed.

#[export] Instance decides_proper o : Proper (iff ==> iff) (decides o).
Proof. intros P Q HPQ. split; by apply decides_iff. Qed.

Lemma decides_outcome b (P : Prop) : (b = true ↔ P) → decides (outcome b) P.
Proof. unfold decides. destruct b; cbn; [left|right]; intuition congruence. Qed.

Lemma decides_and a b P Q : decides a P → (P → decides b Q) → decides (and_then a b) (P ∧ Q).
Proof. intros [[-> HP]|[-> HP]] Hb; [|by right; cbn; split; [|intros [? ?]]]. destruct (Hb HP) as [[-> HQ]|[-> HQ]]; [by left|right]. cbn. tauto. Qed.

Lemma decides_or a b P Q : decides a P → decides b Q → decides (or_else a b) (P ∨ Q).
Proof. intros [[-> HP]|[-> HP]]; [by left; split; [|left]|]. intros [[-> HQ]|[-> HQ]]; [left|right]; cbn; tauto. Qed.

Lemma decides_negation o P : decides o P → decides (negate o) (¬ P).
Proof. intros [[-> HP]|[-> HP]]; [right|left]; tauto. Qed.

Lemma some_row_decides {A B} (f : A → Outcome) (T : B → Prop) rows xs :
  Forall2 (λ r x, decides (f r) (T x)) rows xs → decides (some_row (f <$> rows)) (∃ x, x ∈ xs ∧ T x).
Proof.
  intros Hf. unfold some_row.
  assert (existsb is_failed (f <$> rows) = false) as ->.
  { induction Hf as [|r x rows xs [[E _]|[E _]] _ IH]; [done|..]; cbn; by rewrite E, IH. }
  apply decides_outcome. induction Hf as [|r x rows xs Hr _ IH]; cbn [fmap list_fmap existsb].
  - split; [done|]. by intros (x & Hx%not_elem_of_nil & _).
  - rewrite orb_true_iff, IH. setoid_rewrite elem_of_cons. destruct Hr as [[-> HT]|[-> HT]]; cbn [is_yes]; [split; eauto|].
    split; [intros [|(y & ? & ?)]; [done|eauto]|]. intros (y & [->|Hy] & Hy'); [done|eauto].
Qed.

Section decisions.
Variable column : option Document.
Notation Scope := (gmap N (RowKey * Document)).
Notation eval := (evaluate column).

Lemma evaluate_both scope c cs : eval scope (Both (c :: cs)) = and_then (eval scope c) (eval scope (Both cs)).
Proof. reflexivity. Qed.
Lemma evaluate_either scope c cs : eval scope (Either (c :: cs)) = or_else (eval scope c) (eval scope (Either cs)).
Proof. reflexivity. Qed.
Lemma evaluate_group scope c : eval scope (Group c) = eval scope c.
Proof. reflexivity. Qed.

(** No alias past [n] is taken. *)
Definition fresh (n : N) (scope : Scope) : Prop := ∀ a, (n < a)%N → scope !! a = None.

Lemma fresh_le n m scope : fresh n scope → (n ≤ m)%N → fresh m scope.
Proof. intros Hf Hn a Ha. apply Hf. lia. Qed.

Lemma fresh_insert n scope r : fresh n scope → fresh (n + 1) (<[(n + 1)%N := r]> scope).
Proof. intros Hf a Ha. rewrite lookup_insert_ne by lia. apply Hf. lia. Qed.

(** A place keeps its document when an alias is taken. *)
Lemma node_of_insert scope n place d r : fresh n scope →
  node_of column scope place = Some (Some d) → node_of column (<[(n + 1)%N := r]> scope) place = Some (Some d).
Proof.
  intros Hf. destruct place as [|a]; [done|]. cbn [node_of]. intros (x & Hx & E)%bind_Some.
  rewrite lookup_insert_ne by (intros <-; rewrite Hf in Hx by lia; done). by rewrite Hx.
Qed.

Lemma node_of_row scope n key d : node_of column (<[n := (key, d)]> scope) (Row n) = Some (Some d).
Proof. cbn [node_of]. by rewrite lookup_insert_eq. Qed.

(** A condition, with the aliases it leaves, that decides [P] in every scope with the
    aliases from [n] free. *)
Definition answers (n : N) (scope : Scope) (r : Condition * N) (P : Prop) : Prop :=
  (n ≤ r.2)%N ∧ decides (eval scope r.1) P.

Lemma for_each_all {A} (check : nat → A → N → Condition * N) (P : nat → A → Prop) scope l : ∀ i n,
  (∀ j x n', l !! j = Some x → (n ≤ n')%N → answers n' scope (check (i + j) x n') (P (i + j) x)) →
  (n ≤ (for_each check i l n).2)%N
  ∧ decides (eval scope (Both (for_each check i l n).1)) (∀ j x, l !! j = Some x → P (i + j) x).
Proof.
  induction l as [|x l IH]; intros i n Hl; [split; [cbn; lia|by left]|]. cbn [for_each]. fold (@for_each _ _ _ check).
  destruct (Hl 0 x n eq_refl ltac:(lia)) as [Hn Hx]. rewrite Nat.add_0_r in Hn, Hx. destruct (check i x n) as [c n'] eqn:Ec. cbn [fst snd] in *.
  destruct (IH (S i) n') as [Hn' Hrest].
  { intros j y n'' Hj Hle. rewrite Nat.add_succ_comm. apply Hl; [done|lia]. }
  destruct (for_each check (S i) l n') as [cs n'']. cbn [fst snd] in *. split; [lia|]. rewrite evaluate_both.
  eapply decides_iff; [|exact (decides_and _ _ _ _ Hx (λ _, Hrest))]. split.
  - intros [Hx' Hl'] [|j] y Hj; [injection Hj as <-; by rewrite Nat.add_0_r|]. rewrite <- Nat.add_succ_comm. by apply (Hl' j).
  - intros Hall. split; [rewrite <- (Nat.add_0_r i); by apply Hall|]. intros j y Hj. rewrite Nat.add_succ_comm. by apply Hall.
Qed.

Lemma for_each_any {A} (check : nat → A → N → Condition * N) (P : nat → A → Prop) scope l : ∀ i n,
  (∀ j x n', l !! j = Some x → (n ≤ n')%N → answers n' scope (check (i + j) x n') (P (i + j) x)) →
  (n ≤ (for_each check i l n).2)%N
  ∧ decides (eval scope (Either (for_each check i l n).1)) (∃ j x, l !! j = Some x ∧ P (i + j) x).
Proof.
  induction l as [|x l IH]; intros i n Hl; [split; [cbn; lia|right; split; [done|by intros (j & y & ? & _)]]|].
  cbn [for_each]. fold (@for_each _ _ _ check).
  destruct (Hl 0 x n eq_refl ltac:(lia)) as [Hn Hx]. rewrite Nat.add_0_r in Hn, Hx. destruct (check i x n) as [c n'] eqn:Ec. cbn [fst snd] in *.
  destruct (IH (S i) n') as [Hn' Hrest].
  { intros j y n'' Hj Hle. rewrite Nat.add_succ_comm. apply Hl; [done|lia]. }
  destruct (for_each check (S i) l n') as [cs n'']. cbn [fst snd] in *. split; [lia|]. rewrite evaluate_either.
  eapply decides_iff; [|exact (decides_or _ _ _ _ Hx Hrest)]. split.
  - intros [Hx'|(j & y & Hj & Hy)]; [exists 0, x; by rewrite Nat.add_0_r|]. exists (S j), y. by rewrite <- Nat.add_succ_comm.
  - intros ([|j] & y & Hj & Hy); [left|right].
    + injection Hj as <-. by rewrite Nat.add_0_r in Hy.
    + exists j, y. by rewrite Nat.add_succ_comm.
Qed.

(** *** Tests of one document *)

Section document.
Context {Bound : Type} `{JsonTestValues Bound}.
Context (scope : Scope) (place : Place) (d : Document).
Hypothesis Hd : node_of column scope place = Some (Some d).

Lemma on_document test : on_node column scope place test = test d.
Proof. unfold on_node. by rewrite Hd. Qed.

Lemma type_decides name : eval scope (Type_ place name) = outcome (str_eqb (json_type d) name).
Proof. apply on_document. Qed.

Lemma number_type token : json_type (DNumber token) = lit "real" ∨ json_type (DNumber token) = lit "integer".
Proof. cbn [json_type]. case_match; auto. Qed.

Lemma array_type v : denotes d v →
  (∃ items own, d = DArray items ∧ v = VArray own ∧ Forall2 denotes items own ∧ eval scope (Type_ place (lit "array")) = Yes)
  ∨ (∀ own, v ≠ VArray own) ∧ eval scope (Type_ place (lit "array")) = No.
Proof.
  intros Hv. rewrite type_decides. destruct Hv as [|[]|token n|s|items own|members own]; eauto 8; right; split; try done.
  by destruct (number_type token) as [-> | ->].
Qed.

Lemma object_type v : denotes d v →
  (∃ members own, d = DObject members ∧ v = VObject own ∧ NoDup (members.*1)
     ∧ Forall2 (λ m v, m.1 = v.1 ∧ denotes m.2 v.2) members own ∧ eval scope (Type_ place (lit "object")) = Yes)
  ∨ (∀ own, v ≠ VObject own) ∧ eval scope (Type_ place (lit "object")) = No.
Proof.
  intros Hv. rewrite type_decides. destruct Hv as [|[]|token n|s|items own|members own]; eauto 10; right; split; try done.
  by destruct (number_type token) as [-> | ->].
Qed.

Lemma token_test token n text m : token_number token n → token_number text m →
  number_test text token = true ↔ same_number n m.
Proof.
  intros (ng & ip & fp & e & Ht & Hr & ->) (ng' & ip' & fp' & e' & Ht' & Hr' & ->). by eapply number_test_spec.
Qed.

Lemma scalar_decides v j w : denotes d v → asks j w → is_container j = false →
  decides (eval scope (scalar_condition place j)) (scalar_same v w).
Proof.
  intros Hv Hw Hj.
  destruct Hw as [|b|number m Hm|s| |]; try done; cbn [scalar_condition].
  - rewrite type_decides. apply decides_outcome. destruct Hv as [|[]|token n|t| |]; try done.
    cbn [scalar_same]. by destruct (number_type token) as [-> | ->].
  - assert (eval scope (if b then Type_ place (lit "true") else Type_ place (lit "false"))
      = outcome (str_eqb (json_type d) (if b then lit "true" else lit "false"))) as -> by (destruct b; apply type_decides).
    apply decides_outcome. destruct Hv as [|[]|token n|t| |]; cbn [scalar_same]; destruct b; try done;
      by destruct (number_type token) as [-> | ->].
  - cbn [evaluate]. rewrite on_document. destruct Hv as [|b|token n Hn|t| |]; try (right; split; [done|intros []]).
    apply decides_outcome. by apply token_test.
  - rewrite evaluate_group. rewrite !evaluate_both. rewrite type_decides. cbn [evaluate]. rewrite on_document.
    destruct Hv as [|[]|token n|t| |]; try (right; split; [done|intros []]).
    + right. split; [|intros []]. by destruct (number_type token) as [-> | ->].
    + change (str_eqb (json_type (DText t)) (lit "text")) with true. eapply decides_iff; [|apply (decides_and _ _ True (t = s ∧ True)); [by left|intros _; apply decides_and]].
      * cbn [scalar_same]. tauto.
      * apply decides_outcome, str_eqb_true.
      * intros _. by left.
Qed.
End document.

(** *** The rows of a container *)

(** The rows of a value, as [json_each] gives those of a document. *)
Definition value_rows (v : Value) : list (RowKey * Value) :=
  match v with
  | VArray own => imap (λ i y, (Indexed i, y)) own
  | VObject own => (λ m, (Named m.1, m.2)) <$> own
  | _ => []
  end.

Definition has_rows (v : Value) : Prop := match v with VArray _ | VObject _ => True | _ => False end.

Lemma array_row own k y : (k, y) ∈ value_rows (VArray own) ↔ ∃ i, k = Indexed i ∧ own !! i = Some y.
Proof.
  cbn [value_rows]. rewrite list_elem_of_lookup. setoid_rewrite list_lookup_imap. split.
  - intros (i & Hi). destruct (own !! i) as [x|] eqn:E; [|done]. injection Hi as <- <-. eauto.
  - intros (i & -> & Hi). exists i. by rewrite Hi.
Qed.

Lemma object_row own k y : (k, y) ∈ value_rows (VObject own) ↔ ∃ name, k = Named name ∧ (name, y) ∈ own.
Proof.
  cbn [value_rows]. rewrite list_elem_of_fmap. split.
  - intros ([name x] & [= -> ->] & Hin). eauto.
  - intros (name & -> & Hin). by exists (name, y).
Qed.

Lemma container_rows d v : denotes d v → has_rows v →
  ∃ rows, json_each d = Some rows ∧ Forall2 (λ r x, r.1 = x.1 ∧ denotes r.2 x.2) rows (value_rows v).
Proof.
  intros Hv Hr. destruct Hv as [| | | |items own Hv|members own _ Hv]; try done; eexists; (split; [reflexivity|]).
  - cbn [value_rows]. apply Forall2_same_length_lookup. rewrite !length_imap. split; [by eapply Forall2_length|].
    intros i r x. rewrite !list_lookup_imap. intros (d & Hd & ->)%fmap_Some (y & Hy & ->)%fmap_Some. split; [done|].
    by apply (Forall2_lookup_lr _ _ _ _ _ _ Hv Hd Hy).
  - cbn [value_rows]. apply Forall2_fmap. eapply list.Forall2_impl; [exact Hv|]. intros [k d] [k' y] [E Hd]. cbn in *. by subst.
Qed.

Lemma rows_of_node scope place d rows : node_of column scope place = Some (Some d) → json_each d = Some rows →
  rows_of column scope place = Some rows.
Proof. intros Hd Hr. unfold rows_of. by rewrite Hd. Qed.

(** A subquery decides whether some row passes, and whether every row does. *)
Section subquery.
Context (scope : Scope) (place : Place) (d : Document) (v : Value) (n : N) (test : Condition) (T : RowKey → Value → Prop).
Hypothesis Hd : node_of column scope place = Some (Some d).
Hypothesis Hv : denotes d v.
Hypothesis Hrows : has_rows v.
Hypothesis Hf : fresh n scope.
Hypothesis Htest : ∀ k d' y, (k, y) ∈ value_rows v → denotes d' y → decides (eval (<[(n + 1)%N := (k, d')]> scope) test) (T k y).

Lemma rows_decide : ∃ rows, rows_of column scope place = Some rows
  ∧ Forall2 (λ r x, decides (eval (<[(n + 1)%N := r]> scope) test) (T x.1 x.2)) rows (value_rows v).
Proof.
  destruct (container_rows d v Hv Hrows) as (rows & Hr & Hall). exists rows. split; [by eapply rows_of_node|].
  apply Forall2_same_length_lookup in Hall as [Hlen Hall]. apply Forall2_same_length_lookup. split; [done|].
  intros i [k d'] [k' y] Hi Hi'. destruct (Hall _ _ _ Hi Hi') as [E Hdy]. cbn in *. subst k'. apply Htest; [|done].
  by eapply list_elem_of_lookup_2.
Qed.

Lemma some_decides : decides (eval scope (SomeRow place (n + 1) test)) (∃ k y, (k, y) ∈ value_rows v ∧ T k y).
Proof.
  destruct rows_decide as (rows & Hr & Hall). cbn [evaluate]. rewrite Hf by lia. rewrite Hr.
  eapply decides_iff; [|exact (some_row_decides _ (λ x, T x.1 x.2) _ _ Hall)]. split.
  - intros ([k y] & ? & ?). eauto.
  - intros (k & y & ? & ?). by exists (k, y).
Qed.

Lemma every_decides : decides (eval scope (NoRow place (n + 1) test)) (∀ k y, (k, y) ∈ value_rows v → T k y).
Proof.
  destruct rows_decide as (rows & Hr & Hall). cbn [evaluate]. rewrite Hf by lia. rewrite Hr.
  assert (∀ x, x ∈ value_rows v → T x.1 x.2 ∨ ¬ T x.1 x.2) as Hdec.
  { intros x (i & Hi)%list_elem_of_lookup_1. destruct (Forall2_lookup_r _ _ _ _ _ Hall Hi) as (r & _ & [[_ ?]|[_ ?]]); auto. }
  assert (Forall2 (λ r x, decides (negate (eval (<[(n + 1)%N := r]> scope) test)) (¬ T x.1 x.2)) rows (value_rows v)) as Hneg.
  { eapply list.Forall2_impl; [exact Hall|]. intros r x Hrx. by apply decides_negation. }
  eapply decides_iff; [|exact (decides_negation _ _ (some_row_decides (λ r, negate (eval (<[(n + 1)%N := r]> scope) test)) _ _ _ Hneg))]. split.
  - intros Hno k y Hin. destruct (Hdec _ Hin) as [|Hn]; [done|]. destruct Hno. by exists (k, y).
  - intros Hall' ([k y] & Hin & Hn). by apply Hn, Hall'.
Qed.
End subquery.

Lemma key_decides scope n k d key : decides (eval (<[n := (Named k, d)]> scope) (KeyIs n key)) (k = key).
Proof. cbn [evaluate]. rewrite lookup_insert_eq. apply decides_outcome, str_eqb_true. Qed.

Lemma index_decides scope n i d index : decides (eval (<[n := (Indexed i, d)]> scope) (IndexIs n index)) (i = index).
Proof. cbn [evaluate]. rewrite lookup_insert_eq. apply decides_outcome, Nat.eqb_eq. Qed.

(** A test of the rows under a key. *)
Lemma both_decides scope a b P Q : decides (eval scope a) P → (P → decides (eval scope b) Q) →
  decides (eval scope (Both [a; b])) (P ∧ Q).
Proof.
  intros Ha Hb. rewrite !evaluate_both. eapply decides_iff; [|apply (decides_and _ _ P (Q ∧ True) Ha)]; [tauto|].
  intros HP. apply decides_and; [by apply Hb|by left].
Qed.

Lemma single_decides scope c P : decides (eval scope c) P → decides (eval scope (Both [c])) P.
Proof. intros Hc. rewrite evaluate_both. eapply decides_iff; [|apply (decides_and _ _ P True Hc); by left]. tauto. Qed.

Lemma either_decides scope a b P Q : decides (eval scope a) P → decides (eval scope b) Q →
  decides (eval scope (Either [a; b])) (P ∨ Q).
Proof.
  intros Ha Hb. rewrite !evaluate_either. eapply decides_iff; [|apply (decides_or _ _ P (Q ∨ False) Ha)]; [tauto|].
  apply decides_or; [done|]. by right; split; [|intros []].
Qed.

(** *** The tests decide *)

Section tests.
Context {Bound : Type} `{JsonTestValues Bound}.

Lemma for_each_counts {A} (check : nat → A → N → Condition * N) l :
  Forall (λ x, ∀ i n, (n ≤ (check i x n).2)%N) l → ∀ i n, (n ≤ (for_each check i l n).2)%N.
Proof.
  induction 1 as [|x l Hx _ IH]; intros i n; [cbn; lia|]. cbn [for_each]. fold (@for_each _ _ _ check).
  specialize (Hx i n). destruct (check i x n) as [c n']. specialize (IH (S i) n').
  destruct (for_each check (S i) l n') as [cs n'']. cbn in *. lia.
Qed.

Lemma for_each_counts_in {A} (check : nat → A → N → Condition * N) l (P : A → Prop) i n :
  Forall P l → (∀ x i n, P x → (n ≤ (check i x n).2)%N) → (n ≤ (for_each check i l n).2)%N.
Proof. intros Hl Hc. apply for_each_counts. eapply list.Forall_impl; [exact Hl|]. auto. Qed.

(** The aliases a test takes follow the ones taken. *)
Lemma contains_counts j : ∀ place top_level n, (n ≤ (contains_condition j place top_level n).2)%N.
Proof.
  induction j as [|b|number|s|elements IH|members IH] using json_nested; intros place top_level n; try (destruct top_level; cbn; lia).
  all: cbn [contains_condition]; match goal with |- context [for_each ?check 0 ?l ?m] =>
    assert (m ≤ (for_each check 0 l m).2)%N; [eapply for_each_counts_in; [eassumption|]|by destruct (for_each check 0 l m)] end.
  - intros e i n0 He. specialize (He (Row (n0 + 1)) false (n0 + 1)%N). destruct (contains_condition e _ _ _). cbn in *. lia.
  - intros e i n0 He. specialize (He (Row (n0 + 1)) false (n0 + 1)%N). destruct (contains_condition e.2 _ _ _). cbn in *. lia.
Qed.

Lemma contained_counts j : ∀ place top_level n, (n ≤ (contained_condition j place top_level n).2)%N.
Proof.
  induction j as [|b|number|s|elements IH|members IH] using json_nested; intros place top_level n; try (cbn; lia).
  all: cbn [contained_condition]; match goal with |- context [for_each ?check 0 ?l ?m] =>
    assert (m ≤ (for_each check 0 l m).2)%N; [eapply for_each_counts_in; [eassumption|]|destruct (for_each check 0 l m)] end.
  - intros e i n0 He. apply He.
  - destruct top_level; cbn in *; lia.
  - intros e i n0 He. specialize (He (Row (n + 1)) false n0). destruct (contained_condition e.2 _ _ _). cbn in *. lia.
  - cbn in *. lia.
Qed.

Lemma equals_counts j : ∀ place n, (n ≤ (equals_condition j place n).2)%N.
Proof.
  induction j as [|b|number|s|elements IH|members IH] using json_nested; intros place n; try (cbn; lia).
  all: cbn [equals_condition]; match goal with |- context [for_each ?check 0 ?l ?m] =>
    assert (m ≤ (for_each check 0 l m).2)%N; [eapply for_each_counts_in; [eassumption|]|by destruct (for_each check 0 l m)] end.
  - intros e i n0 He. specialize (He (Row (n0 + 1)) (n0 + 1)%N). destruct (equals_condition e _ _). cbn in *. lia.
  - intros e i n0 He. specialize (He (Row (n0 + 1)) (n0 + 1)%N). destruct (equals_condition e.2 _ _). cbn in *. lia.
Qed.

(** A type and the checks that follow it. *)
Definition typed (name : str) (v : Value) : Prop :=
  (name = lit "array" ∧ ∃ own, v = VArray own) ∨ (name = lit "object" ∧ ∃ own, v = VObject own).

Lemma guarded scope place d v name cs (Q : Prop) : name = lit "array" ∨ name = lit "object" →
  node_of column scope place = Some (Some d) → denotes d v → 
  (typed name v → decides (eval scope (Both cs)) Q) →
  decides (eval scope (Group (Both (Type_ place name :: cs)))) (typed name v ∧ Q).
Proof.
  intros Hname Hd Hv Hcs. rewrite evaluate_group, evaluate_both. apply decides_and; [|done]. unfold typed.
  destruct Hname as [-> | ->].
  - destruct (array_type scope place d Hd v Hv) as [(items & own & _ & -> & _ & ->)|[Hne ->]]; [left; eauto|right].
    split; [done|]. intros [[_ [own ->]]|[? _]]; [by destruct (Hne own)|done].
  - destruct (object_type scope place d Hd v Hv) as [(items & own & _ & -> & _ & _ & ->)|[Hne ->]]; [left; eauto|right].
    split; [done|]. intros [[? _]|[_ [own ->]]]; [done|by destruct (Hne own)].
Qed.

Lemma typed_rows name v : typed name v → has_rows v.
Proof. by intros [[_ [own ->]]|[_ [own ->]]]. Qed.

Lemma typed_array v : typed (lit "array") v ↔ ∃ own, v = VArray own.
Proof. unfold typed. split; [by intros [[_ ?]|[? _]]|by left]. Qed.
Lemma typed_object v : typed (lit "object") v ↔ ∃ own, v = VObject own.
Proof. unfold typed. split; [by intros [[? _]|[_ ?]]|by right]. Qed.

(** Containment, of rows. *)
Lemma holds_scalar_iff v w : (∀ l, w ≠ VArray l) → (∀ l, w ≠ VObject l) → holds v w ↔ scalar_same v w.
Proof. intros Ha Ho. split; [|by constructor]. intros Hh. destruct Hh; [done|by destruct (Ha items)|by destruct (Ho members)]. Qed.

Lemma holds_array_iff v items : holds v (VArray items)
  ↔ typed (lit "array") v ∧ ∀ j x, items !! j = Some x → ∃ k y, (k, y) ∈ value_rows v ∧ holds y x.
Proof.
  rewrite typed_array. split.
  - intros Hh. inversion Hh as [v' w Hs|own items' Hall|]; subst; [by destruct v|]. split; [by exists own|].
    intros j x Hx%list_elem_of_lookup_2. destruct (Hall x Hx) as (y & (i & Hi)%list_elem_of_lookup & Hy).
    exists (Indexed i), y. split; [|done]. apply array_row. eauto.
  - intros ([own ->] & Hall). apply holds_array. intros x (j & Hx)%list_elem_of_lookup_1.
    destruct (Hall j x Hx) as (k & y & (i & _ & Hi)%array_row & Hy). exists y. split; [|done]. by eapply list_elem_of_lookup_2.
Qed.

Lemma holds_object_iff v members : holds v (VObject members)
  ↔ typed (lit "object") v ∧ ∀ j m, members !! j = Some m → ∃ k y, (k, y) ∈ value_rows v ∧ k = Named m.1 ∧ holds y m.2.
Proof.
  rewrite typed_object. split.
  - intros Hh. inversion Hh as [v' w Hs| |own members' Hall]; subst; [by destruct v|]. split; [by exists own|].
    intros j [k x] Hx%list_elem_of_lookup_2. destruct (Hall k x Hx) as (y & Hin & Hy).
    exists (Named k), y. split; [|done]. apply object_row. eauto.
  - intros ([own ->] & Hall). apply holds_object. intros k x (j & Hx)%list_elem_of_lookup_1.
    destruct (Hall j _ Hx) as (k' & y & (name & -> & Hin)%object_row & [= ->] & Hy). by exists y.
Qed.

Lemma contains_value_iff v w : contains_value v w
  ↔ holds v w ∨ typed (lit "array") v ∧ ∃ k y, (k, y) ∈ value_rows v ∧ scalar_same y w.
Proof.
  rewrite typed_array. unfold contains_value. apply or_iff_compat_l. split.
  - intros (own & y & -> & (i & Hi)%list_elem_of_lookup & Hy). split; [by exists own|]. exists (Indexed i), y.
    split; [|done]. apply array_row. eauto.
  - intros ([own ->] & k & y & (i & _ & Hi)%array_row & Hy). exists own, y. split_and!; [done| |done]. by eapply list_elem_of_lookup_2.
Qed.

(** The checks of a list, against what its items stand for. *)
Section checks.
Context {A B : Type} (check : nat → A → N → Condition * N) (P : A → Prop) (rel : A → B → Prop) (R : nat → B → Prop).
Context (scope : Scope) (l : list A) (xs : list B) (n : N).
Hypothesis Hl : Forall P l.
Hypothesis Hxs : Forall2 rel l xs.
Hypothesis Hcheck : ∀ i e x n', P e → rel e x → (n ≤ n')%N → answers n' scope (check i e n') (R i x).

Lemma check_at j e n' : l !! j = Some e → (n ≤ n')%N → answers n' scope (check j e n') (∃ x, xs !! j = Some x ∧ R j x).
Proof.
  intros Hj Hn. destruct (Forall2_lookup_l _ _ _ _ _ Hxs Hj) as (x & Hx & He).
  destruct (Hcheck j e x n' (proj1 (list.Forall_lookup _ _) Hl j e Hj) He Hn) as [Hc Hd]. split; [done|].
  eapply decides_iff; [|exact Hd]. split; [eauto|]. intros (x' & Hx' & HR). congruence.
Qed.

Lemma all_checks : decides (eval scope (Both (for_each check 0 l n).1)) (∀ j x, xs !! j = Some x → R j x).
Proof.
  destruct (for_each_all check (λ j _, ∃ x, xs !! j = Some x ∧ R j x) scope l 0 n (λ j e n', check_at j e n')) as [_ Hd].
  eapply decides_iff; [|exact Hd]. cbn [Nat.add]. split.
  - intros Hall j x Hx. destruct (Forall2_lookup_r _ _ _ _ _ Hxs Hx) as (e & He & _). destruct (Hall j e He) as (x' & Hx' & HR). congruence.
  - intros Hall j e He. destruct (Forall2_lookup_l _ _ _ _ _ Hxs He) as (x & Hx & _). eauto.
Qed.

Lemma any_checks : decides (eval scope (Either (for_each check 0 l n).1)) (∃ j x, xs !! j = Some x ∧ R j x).
Proof.
  destruct (for_each_any check (λ j _, ∃ x, xs !! j = Some x ∧ R j x) scope l 0 n (λ j e n', check_at j e n')) as [_ Hd].
  eapply decides_iff; [|exact Hd]. cbn [Nat.add]. split.
  - intros (j & e & He & x & Hx & HR). eauto.
  - intros (j & x & Hx & HR). destruct (Forall2_lookup_r _ _ _ _ _ Hxs Hx) as (e & He & _). eauto 6.
Qed.
End checks.

Definition top_or (top_level : bool) (v w : Value) : Prop := if top_level then contains_value v w else holds v w.

Lemma top_or_container top_level v w : (∀ y, ¬ scalar_same y w) → top_or top_level v w ↔ holds v w.
Proof.
  intros Hw. destruct top_level; [|done]. cbn. unfold contains_value. split; [|by left].
  intros [|(own & y & _ & _ & Hs)]; [done|]. by destruct (Hw y).
Qed.

Lemma contains_scalar j w d v scope place top_level n : is_container j = false → asks j w → denotes d v →
  node_of column scope place = Some (Some d) → fresh n scope →
  decides (eval scope (contains_condition j place top_level n).1) (top_or top_level v w).
Proof.
  intros Hj Hw Hv Hd Hf.
  assert ((∀ l, w ≠ VArray l) ∧ ∀ l, w ≠ VObject l) as [Ha Ho] by (destruct Hw; split; done).
  assert (contains_condition j place top_level n = if top_level
    then (Group (Either [scalar_condition place j;
           Group (Both [Type_ place (lit "array"); SomeRow place (n + 1) (scalar_condition (Row (n + 1)) j)])]), (n + 1)%N)
    else (scalar_condition place j, n)) as -> by by destruct j.
  pose proof (scalar_decides scope place d Hd v j w Hv Hw Hj) as Hs.
  destruct top_level; cbn [fst top_or]; [|by eapply decides_iff; [symmetry; by apply holds_scalar_iff|]].
  rewrite contains_value_iff, holds_scalar_iff by done. rewrite evaluate_group. apply either_decides; [done|].
  eapply guarded; [by left|done..|]. intros Ht. apply single_decides.
  apply (some_decides scope place d v n _ (λ _ y, scalar_same y w) Hd Hv); [by eapply typed_rows|done|].
  intros k d' y _ Hy. eapply scalar_decides; [apply node_of_row|done..].
Qed.

Lemma contains_decides j : ∀ w d v scope place top_level n, asks j w → denotes d v →
  node_of column scope place = Some (Some d) → fresh n scope →
  decides (eval scope (contains_condition j place top_level n).1) (top_or top_level v w).
Proof.
  induction j as [|b|number|s|elements IH|members IH] using json_nested; intros w d v scope place top_level n Hw Hv Hd Hf;
    try by eapply contains_scalar.
  - inversion Hw as [| | | |? values Hxs|]; subst. eapply decides_iff; [symmetry; apply top_or_container; intros [] []|].
    rewrite holds_array_iff. cbn [contains_condition]. destruct (for_each _ 0 elements n) as [cs n'] eqn:E. cbn [fst].
    eapply guarded; [by left|done..|]. intros Ht. replace cs with (fst (cs, n')) by done. rewrite <- E.
    eapply (all_checks _ _ _ (λ _ x, ∃ k y, (k, y) ∈ value_rows v ∧ holds y x) _ _ _ _ IH Hxs).
    intros _ e x m He Hx Hm. pose proof (contains_counts e (Row (m + 1)) false (m + 1)) as Hc. unfold answers.
    destruct (contains_condition e (Row (m + 1)) false (m + 1)) as [c m'] eqn:Ec. cbn [fst snd] in *. split; [lia|].
    apply (some_decides scope place d v m _ (λ _ y, holds y x) Hd Hv); [by eapply typed_rows|by eapply fresh_le|].
    intros k d' y _ Hy. replace c with (contains_condition e (Row (m + 1)) false (m + 1)).1 by by rewrite Ec.
    by apply (He x d' y _ _ false); [..|apply node_of_row|apply fresh_insert; eapply fresh_le].
  - inversion Hw as [| | | | |? values Hnd Hxs]; subst. eapply decides_iff; [symmetry; apply top_or_container; intros [] []|].
    rewrite holds_object_iff. cbn [contains_condition]. destruct (for_each _ 0 members n) as [cs n'] eqn:E. cbn [fst].
    eapply guarded; [by right|done..|]. intros Ht. replace cs with (fst (cs, n')) by done. rewrite <- E.
    eapply (all_checks _ _ _ (λ _ m, ∃ k y, (k, y) ∈ value_rows v ∧ k = Named m.1 ∧ holds y m.2) _ _ _ _ IH Hxs).
    intros _ [key e] [key' x] m He [Hkey Hx] Hm. cbn [fst snd] in *. subst key'.
    pose proof (contains_counts e (Row (m + 1)) false (m + 1)) as Hc. unfold answers.
    destruct (contains_condition e (Row (m + 1)) false (m + 1)) as [c m'] eqn:Ec. cbn [fst snd] in *. split; [lia|].
    apply (some_decides scope place d v m _ (λ k y, k = Named key ∧ holds y x) Hd Hv); [by eapply typed_rows|by eapply fresh_le|].
    intros k d' y Hin Hy. apply typed_object in Ht as [own ->]. apply object_row in Hin as (name & -> & _).
    apply both_decides; [eapply decides_iff; [|apply key_decides]; naive_solver|].
    intros _. replace c with (contains_condition e (Row (m + 1)) false (m + 1)).1 by by rewrite Ec.
    by apply (He x d' y _ _ false); [..|apply node_of_row|apply fresh_insert; eapply fresh_le].
Qed.

(** The same test with the document on the other side. *)
Lemma scalar_same_sym v w : scalar_same v w ↔ scalar_same w v.
Proof.
  destruct v, w; cbn [scalar_same]; try tauto; [split; congruence| |split; congruence].
  unfold same_number. rewrite compare_scaled_antisym. by destruct (compare_scaled n0 n).
Qed.

Lemma within_scalar_iff w v : (∀ l, w ≠ VArray l) → (∀ l, w ≠ VObject l) → holds w v ↔ scalar_same v w.
Proof.
  intros Ha Ho. rewrite scalar_same_sym. split; [|by constructor].
  intros Hh. destruct Hh; [done|by destruct (Ha own)|by destruct (Ho own)].
Qed.

Lemma within_array_iff values v : holds (VArray values) v
  ↔ typed (lit "array") v ∧ ∀ k y, (k, y) ∈ value_rows v → ∃ j x, values !! j = Some x ∧ holds x y.
Proof.
  rewrite typed_array. split.
  - intros Hh. inversion Hh as [v' w Hs|own items Hall|]; subst; [by destruct v|]. split; [by exists items|].
    intros k y (i & _ & Hi%list_elem_of_lookup_2)%array_row. destruct (Hall y Hi) as (x & (j & Hj)%list_elem_of_lookup & Hx). eauto.
  - intros ([own ->] & Hall). apply holds_array. intros y (i & Hi)%list_elem_of_lookup_1.
    destruct (Hall (Indexed i) y) as (j & x & Hj & Hx); [apply array_row; eauto|].
    exists x. split; [by eapply list_elem_of_lookup_2|done].
Qed.

Lemma within_object_iff members v : holds (VObject members) v
  ↔ typed (lit "object") v ∧ ∀ k y, (k, y) ∈ value_rows v → ∃ j m, members !! j = Some m ∧ k = Named m.1 ∧ holds m.2 y.
Proof.
  rewrite typed_object. split.
  - intros Hh. inversion Hh as [v' w Hs| |own items Hall]; subst; [by destruct v|]. split; [by exists items|].
    intros k y (name & -> & Hin)%object_row. destruct (Hall name y Hin) as (x & (j & Hj)%list_elem_of_lookup & Hx).
    exists j, (name, x). auto.
  - intros ([own ->] & Hall). apply holds_object. intros name y Hin.
    destruct (Hall (Named name) y) as (j & [key x] & Hj & [= ->] & Hx); [apply object_row; eauto|].
    exists x. split; [by eapply list_elem_of_lookup_2|done].
Qed.

(** The scalars of an array, any of which the document may be. *)
Lemma scalars_decide scope place d v elements values : node_of column scope place = Some (Some d) → denotes d v →
  Forall2 asks elements values →
  decides (eval scope (Either (scalar_condition place <$> List.filter (λ e, negb (is_container e)) elements)))
    (∃ y, y ∈ values ∧ scalar_same y v).
Proof.
  intros Hd Hv Hxs. induction Hxs as [|e x elements values He _ IH].
  { right. split; [done|]. by intros (y & Hy%not_elem_of_nil & _). }
  cbn [List.filter]. destruct (is_container e) eqn:Ec; cbn [negb].
  - eapply decides_iff; [|exact IH]. setoid_rewrite elem_of_cons. split; [naive_solver|]. intros (y & [->|Hy] & Hs); [|eauto].
    destruct He; try done; by destruct v.
  - cbn [fmap list_fmap]. rewrite evaluate_either.
    eapply decides_iff; [|apply (decides_or _ _ _ _ (scalar_decides scope place d Hd v e x Hv He Ec) IH)].
    setoid_rewrite elem_of_cons. rewrite scalar_same_sym. naive_solver.
Qed.

Lemma contained_decides j : ∀ w d v scope place top_level n, asks j w → denotes d v →
  node_of column scope place = Some (Some d) → fresh n scope →
  decides (eval scope (contained_condition j place top_level n).1) (top_or top_level w v).
Proof.
  induction j as [|b|number|s|elements IH|members IH] using json_nested; intros w d v scope place top_level n Hw Hv Hd Hf.
  1-4: (eapply (decides_iff _ (scalar_same v w)); [|by eapply scalar_decides]);
    (assert ((∀ l, w ≠ VArray l) ∧ ∀ l, w ≠ VObject l) as [Ha Ho] by (by inversion Hw));
    rewrite <- within_scalar_iff by done; destruct top_level; [|done]; cbn [top_or]; unfold contains_value; split; [by left|];
    by intros [|(own & y & E & _)]; [|destruct (Ha own)].
  - inversion Hw as [| | | |? values Hxs|]; subst. cbn [contained_condition].
    destruct (for_each _ 0 elements (n + 1)%N) as [cs n'] eqn:E.
    assert (decides (eval scope (Group (Both [Type_ place (lit "array"); NoRow place (n + 1) (Group (Either cs))])))
      (holds (VArray values) v)) as Harray.
    { rewrite within_array_iff. eapply guarded; [by left|done..|]. intros Ht. apply single_decides.
      apply (every_decides scope place d v n _ (λ _ y, ∃ j x, values !! j = Some x ∧ holds x y) Hd Hv); [by eapply typed_rows|done|].
      intros k d' y _ Hy. rewrite evaluate_group. replace cs with (fst (cs, n')) by done. rewrite <- E.
      apply (any_checks _ _ _ (λ _ x, holds x y) _ _ _ _ IH Hxs).
      intros _ e x m He Hx Hm. split; [apply contained_counts|].
      apply (He x d' y _ _ false); [done|done|apply node_of_row|]. eapply fresh_le; [by apply fresh_insert|done]. }
    destruct top_level; [|done]. cbn [negb fst top_or]. rewrite evaluate_group. unfold contains_value.
    eapply decides_iff; [|eapply (either_decides _ _ _ _ _ Harray); rewrite evaluate_group; by apply (scalars_decide scope place d v _ _ Hd Hv Hxs)].
    apply or_iff_compat_l. split; [intros (y & ? & ?); by exists values, y|]. intros (own & y & [= <-] & ? & ?). eauto.
  - inversion Hw as [| | | | |? values Hnd Hxs]; subst. cbn [contained_condition].
    destruct (for_each _ 0 members (n + 1)%N) as [cs n'] eqn:E. cbn [fst].
    assert (top_or top_level (VObject values) v ↔ holds (VObject values) v) as ->.
    { destruct top_level; [|done]. cbn [top_or]. unfold contains_value. split; [|by left]. by intros [|(own & y & [=] & _)]. }
    rewrite within_object_iff. eapply guarded; [by right|done..|]. intros Ht. apply single_decides.
    apply (every_decides scope place d v n _ (λ k y, ∃ j m, values !! j = Some m ∧ k = Named m.1 ∧ holds m.2 y) Hd Hv);
      [by eapply typed_rows|done|].
    intros k d' y Hin Hy. apply typed_object in Ht as [own ->]. apply object_row in Hin as (name & -> & _).
    rewrite evaluate_group. replace cs with (fst (cs, n')) by done. rewrite <- E.
    apply (any_checks _ _ _ (λ _ m, Named name = Named m.1 ∧ holds m.2 y) _ _ _ _ IH Hxs).
    intros _ [key e] [key' x] m He [Hkey Hx] Hm. cbn [fst snd] in *. subst key'. unfold answers.
    pose proof (contained_counts e (Row (n + 1)) false m) as Hc.
    destruct (contained_condition e (Row (n + 1)) false m) as [c m'] eqn:Ec. cbn [fst snd] in *. split; [done|].
    rewrite evaluate_group. apply both_decides; [eapply decides_iff; [|apply key_decides]; naive_solver|].
    intros _. replace c with (contained_condition e (Row (n + 1)) false m).1 by by rewrite Ec.
    apply (He x d' y _ _ false); [done|done|apply node_of_row|]. eapply fresh_le; [by apply fresh_insert|done].
Qed.

(** Equality. *)
Lemma same_scalar_iff v w : (∀ l, w ≠ VArray l) → (∀ l, w ≠ VObject l) → same_value v w ↔ scalar_same v w.
Proof. intros Ha Ho. split; [|by constructor]. intros Hh. destruct Hh; [done|by destruct (Ha items)|by destruct (Ho members)]. Qed.

Lemma same_array_iff v items : same_value v (VArray items)
  ↔ typed (lit "array") v ∧ length (value_rows v) = length items
    ∧ ∀ j x, items !! j = Some x → ∃ k y, (k, y) ∈ value_rows v ∧ k = Indexed j ∧ same_value y x.
Proof.
  rewrite typed_array. split.
  - intros Hh. inversion Hh as [v' w Hs|own items' Hall|]; subst; [by destruct v|]. split_and!; [by exists own| |].
    + cbn [value_rows]. rewrite length_imap. by eapply Forall2_length.
    + intros j x Hx. destruct (Forall2_lookup_r _ _ _ _ _ Hall Hx) as (y & Hy & Hs). exists (Indexed j), y.
      split_and!; [|done..]. apply array_row. eauto.
  - intros ([own ->] & Hlen & Hall). apply same_array. apply Forall2_same_length_lookup. split.
    + by rewrite <- Hlen; cbn [value_rows]; rewrite length_imap.
    + intros j y x Hy Hx. destruct (Hall j x Hx) as (k & y' & (i & -> & Hi)%array_row & [= ->] & Hs). congruence.
Qed.

Lemma same_object_iff v members : NoDup (members.*1) → same_value v (VObject members)
  ↔ typed (lit "object") v ∧ length (value_rows v) = length members
    ∧ ∀ j m, members !! j = Some m → ∃ k y, (k, y) ∈ value_rows v ∧ k = Named m.1 ∧ same_value y m.2.
Proof.
  intros Hnd. rewrite typed_object. split.
  - intros Hh. inversion Hh as [v' w Hs| |own members' Hall Hperm]; subst; [by destruct v|]. split_and!; [by exists own| |].
    + cbn [value_rows]. apply Permutation_length in Hperm. by rewrite !length_fmap in *.
    + intros j [k x] Hx%list_elem_of_lookup_2. destruct (Hall k x Hx) as (y & Hin & Hy). exists (Named k), y.
      split_and!; [|done..]. apply object_row. eauto.
  - intros ([own ->] & Hlen & Hall).
    assert (∀ k x, (k, x) ∈ members → ∃ y, (k, y) ∈ own ∧ same_value y x) as Hown.
    { intros k x (j & Hx)%list_elem_of_lookup_1.
      destruct (Hall j _ Hx) as (k' & y & (name & -> & Hin)%object_row & [= ->] & Hy). by exists y. }
    apply same_object; [done|]. symmetry. apply submseteq_length_Permutation.
    + apply NoDup_submseteq; [done|]. intros k ([k' x] & -> & Hin)%list_elem_of_fmap.
      destruct (Hown k' x Hin) as (y & Hy & _). by apply (list_elem_of_fmap_2 fst) in Hy.
    + cbn [value_rows] in Hlen. rewrite !length_fmap in *. lia.
Qed.

Lemma counted scope place d v name check cs (Q : Prop) n : name = lit "array" ∨ name = lit "object" →
  node_of column scope place = Some (Some d) → denotes d v →
  (typed name v → eval scope check = outcome (length (value_rows v) =? n)%nat) →
  (typed name v → decides (eval scope (Both cs)) Q) →
  decides (eval scope (Group (Both (Type_ place name :: check :: cs)))) (typed name v ∧ length (value_rows v) = n ∧ Q).
Proof.
  intros Hname Hd Hv Hcheck Hcs. eapply guarded; [done..|]. intros Ht. rewrite evaluate_both. apply decides_and; [|auto].
  rewrite (Hcheck Ht). apply decides_outcome, Nat.eqb_eq.
Qed.

Lemma count_rows scope place d v count : node_of column scope place = Some (Some d) → denotes d v → has_rows v →
  eval scope (CountIs place count) = outcome (length (value_rows v) =? count)%nat.
Proof.
  intros Hd Hv Hr. destruct (container_rows d v Hv Hr) as (rows & Hrows & Hall). cbn [evaluate].
  rewrite (rows_of_node _ _ _ _ Hd Hrows). by rewrite (Forall2_length Hall).
Qed.

Lemma equals_decides j : ∀ w d v scope place n, asks j w → denotes d v →
  node_of column scope place = Some (Some d) → fresh n scope →
  decides (eval scope (equals_condition j place n).1) (same_value v w).
Proof.
  induction j as [|b|number|s|elements IH|members IH] using json_nested; intros w d v scope place n Hw Hv Hd Hf.
  1-4: (eapply (decides_iff _ (scalar_same v w)); [|by eapply scalar_decides]); symmetry; apply same_scalar_iff; by inversion Hw.
  - inversion Hw as [| | | |? values Hxs|]; subst. rewrite same_array_iff. cbn [equals_condition].
    destruct (for_each _ 0 elements n) as [cs n'] eqn:E. cbn [fst]. rewrite (Forall2_length Hxs).
    eapply counted; [by left|done..| |]; intros Ht.
    { cbn [evaluate]. rewrite (on_document scope place d Hd). apply typed_array in Ht as [own ->].
      inversion Hv as [| | | |items own' Hrows|]; subst. cbn [value_rows]. by rewrite length_imap, (Forall2_length Hrows). }
    replace cs with (fst (cs, n')) by done. rewrite <- E.
    eapply (all_checks _ _ _ (λ j x, ∃ k y, (k, y) ∈ value_rows v ∧ k = Indexed j ∧ same_value y x) _ _ _ _ IH Hxs).
    intros i e x m He Hx Hm. pose proof (equals_counts e (Row (m + 1)) (m + 1)) as Hc. unfold answers.
    destruct (equals_condition e (Row (m + 1)) (m + 1)) as [c m'] eqn:Ec. cbn [fst snd] in *. split; [lia|].
    apply (some_decides scope place d v m _ (λ k y, k = Indexed i ∧ same_value y x) Hd Hv); [by eapply typed_rows|by eapply fresh_le|].
    intros k d' y Hin Hy. apply typed_array in Ht as [own ->]. apply array_row in Hin as (i' & -> & _).
    apply both_decides; [eapply decides_iff; [|apply index_decides]; naive_solver|].
    intros _. replace c with (equals_condition e (Row (m + 1)) (m + 1)).1 by by rewrite Ec.
    by apply (He x d' y); [..|apply node_of_row|apply fresh_insert; eapply fresh_le].
  - inversion Hw as [| | | | |? values Hnd Hxs]; subst.
    assert (members.*1 = values.*1) as Hkeys.
    { clear -Hxs. induction Hxs as [|m x ? ? [E _] _ IH]; [done|]. cbn. by rewrite E, IH. }
    rewrite Hkeys in Hnd. rewrite same_object_iff by done. cbn [equals_condition].
    destruct (for_each _ 0 members n) as [cs n'] eqn:E. cbn [fst]. rewrite (Forall2_length Hxs).
    eapply counted; [by right|done..| |]; intros Ht; [eapply count_rows; [done..|by eapply typed_rows]|].
    replace cs with (fst (cs, n')) by done. rewrite <- E.
    eapply (all_checks _ _ _ (λ _ m, ∃ k y, (k, y) ∈ value_rows v ∧ k = Named m.1 ∧ same_value y m.2) _ _ _ _ IH Hxs).
    intros _ [key e] [key' x] m He [Hkey Hx] Hm. cbn [fst snd] in *. subst key'.
    pose proof (equals_counts e (Row (m + 1)) (m + 1)) as Hc. unfold answers.
    destruct (equals_condition e (Row (m + 1)) (m + 1)) as [c m'] eqn:Ec. cbn [fst snd] in *. split; [lia|].
    apply (some_decides scope place d v m _ (λ k y, k = Named key ∧ same_value y x) Hd Hv); [by eapply typed_rows|by eapply fresh_le|].
    intros k d' y Hin Hy. apply typed_object in Ht as [own ->]. apply object_row in Hin as (name & -> & _).
    apply both_decides; [eapply decides_iff; [|apply key_decides]; naive_solver|].
    intros _. replace c with (equals_condition e (Row (m + 1)) (m + 1)).1 by by rewrite Ec.
    by apply (He x d' y); [..|apply node_of_row|apply fresh_insert; eapply fresh_le].
Qed.
End tests.
End decisions.

(** ** A column that is null

    Of no document the tests say yes, and none fails. *)

Definition unmatched (o : Outcome) : Prop := o = Unknown ∨ o = No.

Lemma unmatched_and b : b ≠ Failed → unmatched (and_then Unknown b).
Proof. unfold unmatched. destruct b; cbn; naive_solver. Qed.

Lemma unmatched_either a b : unmatched a → unmatched b → unmatched (or_else a b).
Proof. intros [-> | ->] [-> | ->]; cbn; unfold unmatched; auto. Qed.

Section null_column.
Context {Bound : Type} `{JsonTestValues Bound}.
Notation eval := (evaluate None ∅).

Lemma null_typed name cs : eval (Both cs) ≠ Failed → unmatched (eval (Group (Both (Type_ Column name :: cs)))).
Proof. intros Hcs. rewrite evaluate_group, evaluate_both. by apply unmatched_and. Qed.

Lemma null_rows alias test : eval (SomeRow Column alias test) = No ∧ eval (NoRow Column alias test) = Yes.
Proof. split; reflexivity. Qed.

Lemma null_checks {A} (check : nat → A → N → Condition * N) l : (∀ i x n, eval (check i x n).1 = No) →
  ∀ i n, eval (Both (for_each check i l n).1) ≠ Failed.
Proof.
  intros Hc. induction l as [|x l IH]; intros i n; [done|]. cbn [for_each]. fold (@for_each _ _ _ check).
  specialize (Hc i x n). destruct (check i x n) as [c n']. specialize (IH (S i) n').
  destruct (for_each check (S i) l n') as [cs n'']. cbn [fst] in *. rewrite evaluate_both. by rewrite Hc.
Qed.

Lemma null_scalar j : unmatched (eval (scalar_condition Column j)).
Proof. destruct j as [|[]| | | |]; unfold unmatched; auto. Qed.

Lemma null_contains j n : unmatched (eval (contains_condition j Column true n).1).
Proof.
  assert (∀ j, unmatched (eval (Group (Either [scalar_condition Column j;
    Group (Both [Type_ Column (lit "array"); SomeRow Column (n + 1) (scalar_condition (Row (n + 1)) j)])])))) as Hscalar.
  { intros k. rewrite evaluate_group, !evaluate_either.
    apply unmatched_either; [apply null_scalar|]. apply unmatched_either; [by apply null_typed|by right]. }
  destruct j as [|b|number|s|elements|members]; try apply Hscalar; cbn [contains_condition].
  all: match goal with |- context [for_each ?check 0 ?l ?m] => pose proof (null_checks check l ltac:(intros; cbv beta; by case_match) 0 m) as Hc end.
  - destruct (for_each _ 0 elements n). by apply null_typed.
  - destruct (for_each _ 0 members n). by apply null_typed.
Qed.

Lemma null_contained j n : unmatched (eval (contained_condition j Column true n).1).
Proof.
  destruct j as [|b|number|s|elements|members]; try apply (null_scalar _); cbn [contained_condition].
  - destruct (for_each _ 0 elements (n + 1)%N). cbn [negb fst]. rewrite evaluate_group, !evaluate_either.
    apply unmatched_either; [by apply null_typed|]. apply unmatched_either; [|by right]. rewrite evaluate_group.
    induction (List.filter _ elements) as [|e es IH]; [by right|]. cbn [fmap list_fmap]. rewrite evaluate_either.
    apply unmatched_either; [apply null_scalar|exact IH].
  - destruct (for_each _ 0 members (n + 1)%N). by apply null_typed.
Qed.

Lemma null_equals j n : unmatched (eval (equals_condition j Column n).1).
Proof.
  destruct j as [|b|number|s|elements|members]; try apply (null_scalar _); cbn [equals_condition].
  all: match goal with |- context [for_each ?check 0 ?l ?m] => pose proof (null_checks check l ltac:(intros; cbv beta; by case_match) 0 m) as Hc end.
  - destruct (for_each _ 0 elements n) as [cs n']. cbn [fst] in *. apply null_typed. rewrite evaluate_both.
    change (and_then Unknown (eval (Both cs)) ≠ Failed). by destruct (unmatched_and _ Hc) as [-> | ->].
  - destruct (for_each _ 0 members n) as [cs n']. apply null_typed. rewrite evaluate_both. cbn [evaluate].
    cbn [fst] in Hc. destruct members; cbn; [exact Hc|done].
Qed.
End null_column.

(** ** The tests *)

Section theorem.
Context {Bound : Type} `{JsonTestValues Bound}.

(** The test is the text of a condition, read as it is, with its values; it decides [P] of
    every document and matches no null. *)
Definition decided_by (base : Node) (test : str * list Bound) (c : Condition) (P : Value → Prop) : Prop :=
  test = (condition_text base c, condition_values base c) ∧ grouped c = true
  ∧ (∀ d v, denotes d v → decides (evaluate (Some d) ∅ c) (P v))
  ∧ unmatched (evaluate None ∅ c).

Lemma run_writes base c (test : JsonTests Bound → str * JsonTests Bound) :
  writes base c (test ([], 0%N)) [] → run_tests test = (condition_text base c.1, condition_values base c.1).
Proof. unfold run_tests, writes. by intros ->. Qed.

(** C38: The SQL that tests a JSON column of SQLite for a value, with the values it binds in
    order, is the text of a condition that decides whether the stored document contains the
    value, is contained by it, or equals it: members under their keys in any order, elements
    in any order for containment and in theirs for equality, an array at the top also by its
    own scalars, and numbers by their value however they are spelled, [10e-1] as [1]. On a
    document no part of it fails; a NULL column is never matched. The same test of a row of
    [json_each] decides the equality of an element. *)
Theorem json_tests_decide column_sql candidate w : asks candidate w →
  decided_by (document column_sql) (sqlite_json_contains column_sql candidate)
    (contains_condition candidate Column true 0).1 (λ v, contains_value v w)
  ∧ decided_by (document column_sql) (sqlite_json_contained_by column_sql candidate)
      (contained_condition candidate Column true 0).1 (λ v, contains_value w v)
  ∧ decided_by (document column_sql) (sqlite_json_equals column_sql candidate)
      (equals_condition candidate Column 0).1 (λ v, same_value v w)
  ∧ (∀ alias, decided_by (row alias) (sqlite_json_element_equals alias candidate)
      (equals_condition candidate Column 0).1 (λ v, same_value v w)).
Proof.
  intros Hw. split; [|split; [|split; [|intros alias]]]; (split; [apply run_writes|split; [|split]]).
  - apply (contains_writes (document column_sql) candidate Column true [] 0).
  - apply contains_tight.
  - intros d v Hv. by apply (contains_decides _ candidate w d v ∅ Column true).
  - apply null_contains.
  - apply (contained_writes (document column_sql) candidate Column true [] 0).
  - apply contained_tight.
  - intros d v Hv. by apply (contained_decides _ candidate w d v ∅ Column true).
  - apply null_contained.
  - apply (equals_writes (document column_sql) candidate Column [] 0).
  - apply equals_tight.
  - intros d v Hv. by apply (equals_decides _ candidate w d v ∅ Column).
  - apply null_equals.
  - apply (equals_writes (row alias) candidate Column [] 0).
  - apply equals_tight.
  - intros d v Hv. by apply (equals_decides _ candidate w d v ∅ Column).
  - apply null_equals.
Qed.
End theorem.

(** ** A catalogue

    A column of documents asked for one with the tag "red" and the number 1. *)
Module Catalogue.

Inductive Bound := BText (s : str) | BBool (b : bool) | BInt (z : Z).

#[local] Instance values : JsonTestValues Bound := {|
  text_value := BText;
  bool_value := BBool;
  int_value := BInt;
  number_to_string := λ n, match n with
    | PosInt n => show_N n
    | NegInt z => lit "-" ++ show_N (Z.to_N (- z))
    | JFloat _ => lit "1.5"
    end;
|}.

Definition candidate : Json := JObject [(lit "n", JNumber (PosInt 1)); (lit "tags", JArray [JString (lit "red")])].
Definition wanted : Value := VObject [(lit "n", VNumber (1, 0)%Z); (lit "tags", VArray [VText (lit "red")])].

(** The stored document spells the number 10e-1 and has a tag and a member more. *)
Definition stored : Document := DObject [
  (lit "tags", DArray [DText (lit "new"); DText (lit "red")]);
  (lit "n", DNumber (lit "10e-1"));
  (lit "note", DNull)].

Lemma wanted_asked : asks candidate wanted.
Proof.
  apply asks_object; [vm_compute; repeat constructor; set_solver|].
  constructor; [split; [done|]|constructor; [split; [done|]|constructor]].
  - apply asks_number. exists false, (lit "1"), [], 0%Z. split_and!; [|split; vm_compute; split; congruence|done].
    split; [by repeat constructor|constructor|done|]. exists [], []. split_and!; [done|by left|by left].
  - apply asks_array. constructor; [apply asks_text|constructor].
Defined.

Lemma json_tests_decide_witness :
  decided_by (document (lit "doc")) (sqlite_json_contains (lit "doc") candidate)
    (contains_condition candidate Column true 0).1 (λ v, contains_value v wanted)
  ∧ decided_by (document (lit "doc")) (sqlite_json_contained_by (lit "doc") candidate)
      (contained_condition candidate Column true 0).1 (λ v, contains_value wanted v)
  ∧ decided_by (document (lit "doc")) (sqlite_json_equals (lit "doc") candidate)
      (equals_condition candidate Column 0).1 (λ v, same_value v wanted)
  ∧ (∀ alias, decided_by (row alias) (sqlite_json_element_equals alias candidate)
      (equals_condition candidate Column 0).1 (λ v, same_value v wanted)).
Proof. apply (json_tests_decide (lit "doc") candidate wanted). exact wanted_asked. Defined.

(** The stored document contains the candidate, is not contained by it and does not equal it. *)
Example stored_contains : evaluate (Some stored) ∅ (contains_condition candidate Column true 0).1 = Yes.
Proof. vm_compute. reflexivity. Qed.

Example stored_not_contained : evaluate (Some stored) ∅ (contained_condition candidate Column true 0).1 = No.
Proof. vm_compute. reflexivity. Qed.

Example stored_not_equal : evaluate (Some stored) ∅ (equals_condition candidate Column 0).1 = No.
Proof. vm_compute. reflexivity. Qed.

Example tag_text : sqlite_json_contains (lit "doc") (JArray [JString (lit "red")])
  = (lit "(json_type(doc) = 'array' AND EXISTS (SELECT 1 FROM json_each(doc) AS tide_json_1 WHERE (tide_json_1.type = 'text' AND tide_json_1.atom = ?)))",
     [BText (lit "red")]).
Proof. vm_compute. reflexivity. Qed.

End Catalogue.
