(* ===== verification/BatchUpdate.v ===== *)
(** * Bulk updates (src/src/model/batch.rs and batch/)

    [BatchUpdateBuilder]: the assignments and filters of an [UPDATE], the guards it passes
    before it is sent, and its statement: assignments in column order, each bound behind
    the ones before it, the filters of the query it started from and its own with their
    placeholders renumbered behind the assignments, and a limit, scoped by the primary key
    where the backend takes none. What an encrypted field stores (model/encryption.rs) is
    here too. Sending the statement and the invalidation after it are not modelled. *)

From S2P Require Import Prelude Dialect SqlLexer SqlSafety Placeholders JsonPath JsonLoss MinHeap Filters QueryStructure.
From S2P Require Import Decimals Clauses Fragments BulkWrites BulkArithmetic ColumnValues SqliteJson.
Local Open Scope tide_scope.

(** ** The builder *)

Inductive UpdateValue {f64 : Type} :=
  | Value (value : Json)
  | SqlNull
  | CoalesceSqlNull
  | UnsafeRaw (expression : str)
  | Increment (by_ : Z)
  | Decrement (by_ : Z)
  | Multiply (by_ : f64)
  | Divide (by_ : f64)
  | ArrayAppend (value : Json)
  | ArrayRemove (value : Json)
  | JsonSet (path : str) (value : Json)
  | Coalesce (default : Json).
Arguments UpdateValue : clear implicits.

(** A name of a column, as a string or as a typed column of a model. *)
Record ColumnName := {
  column_name : str;
  column_table : option str;
  column_schema : option str;
}.

(** What the macros say of the model, the encryption of an attribute, and one [ORDER BY]
    term ([format_order_by_for_db]). *)
Class UpdatedModel := {
  schema_name : option str;
  column_named : str → str;
  column_from_str : str → bool;
  column_type_of : str → option ColumnType;
  own_bounds : str → option (Z * Z);
  primary_key_names : list str;
  column_names : list str;
  encrypted_column_of : str → result (option (str * str)) str;
  encrypt_json_value : str → str → str → result str str;
  format_order_by : str * Order → str;
}.

Section Update.
Context `{QT : QueryTypes} `{!ModelContext} `{SC : SeaCondition (Expr bound_value)} `{!BulkContext}
  `{JsonStrings} `{Unicode} `{SerdeValue} `{!Arithmetic bound_value} `{!Bindings bound_value}
  `{!JsonTestValues bound_value} `{!UpdatedModel}.
Notation UpdateValue := (UpdateValue (f64 (Bound := bound_value))).

Record BatchUpdateBuilder := mkUpdate {
  updates : gmap str UpdateValue;
  update_conditions : list (WhereCondition bound_value);
  or_group : list (WhereCondition bound_value);
  update_limit : option N;
  update_trashed : option bool;
  base : option Clauses;
  invalid_reason : option str;
}.

Definition BatchUpdateBuilder_new : BatchUpdateBuilder := mkUpdate ∅ [] [] None None None None.

Definition from_query (query : Clauses) : BatchUpdateBuilder := mkUpdate ∅ [] [] None None (Some query) None.

Definition without_trashed (b : BatchUpdateBuilder) : BatchUpdateBuilder :=
  mkUpdate (updates b) (update_conditions b) (or_group b) (update_limit b) (Some false) (base b) (invalid_reason b).

Definition with_trashed (b : BatchUpdateBuilder) : BatchUpdateBuilder :=
  mkUpdate (updates b) (update_conditions b) (or_group b) (update_limit b) (Some true) (base b) (invalid_reason b).

Definition limit (n : N) (b : BatchUpdateBuilder) : BatchUpdateBuilder :=
  mkUpdate (updates b) (update_conditions b) (or_group b) (Some n) (update_trashed b) (base b) (invalid_reason b).

(** [get_or_insert]: the first reason stays. *)
Definition invalidate (reason : str) (b : BatchUpdateBuilder) : BatchUpdateBuilder :=
  mkUpdate (updates b) (update_conditions b) (or_group b) (update_limit b) (update_trashed b) (base b)
    (Some (default reason (invalid_reason b))).

(** The text of the error is left out: it spells the two schemas. *)
Definition foreign_column (field : ColumnName) : option str :=
  table ← column_table field;
  if negb (str_eqb table table_name) || negb (bool_decide (column_schema field = schema_name))
  then Some (lit "cannot update " ++ table_name ++ lit " with typed column " ++ table ++ lit "." ++ column_name field)
  else None.

Definition assign (field : ColumnName) (value : UpdateValue) (b : BatchUpdateBuilder) : BatchUpdateBuilder :=
  match foreign_column field with
  | Some reason => invalidate reason b
  | None =>
      mkUpdate (<[column_named (column_name field) := value]> (updates b)) (update_conditions b) (or_group b)
        (update_limit b) (update_trashed b) (base b) (invalid_reason b)
  end.

Definition set (field : ColumnName) (value : Ser) (b : BatchUpdateBuilder) : BatchUpdateBuilder :=
  match checked_assignment_value value with
  | Ok (_, true) => assign field SqlNull b
  | Ok (value, false) => assign field (Value value) b
  | Err reason => invalidate (lit "set(): " ++ reason) b
  end.

Definition set_trusted_raw (field : ColumnName) (expression : str) (b : BatchUpdateBuilder) : BatchUpdateBuilder :=
  assign field (UnsafeRaw expression) b.
Definition increment (field : ColumnName) (by_ : Z) (b : BatchUpdateBuilder) : BatchUpdateBuilder := assign field (Increment by_) b.
Definition decrement (field : ColumnName) (by_ : Z) (b : BatchUpdateBuilder) : BatchUpdateBuilder := assign field (Decrement by_) b.
Definition multiply (field : ColumnName) by_ (b : BatchUpdateBuilder) : BatchUpdateBuilder := assign field (Multiply by_) b.
Definition divide (field : ColumnName) by_ (b : BatchUpdateBuilder) : BatchUpdateBuilder := assign field (Divide by_) b.

Definition array_append (field : ColumnName) (value : Ser) (b : BatchUpdateBuilder) : BatchUpdateBuilder :=
  match checked_assignment_value value with
  | Ok (value, _) => assign field (ArrayAppend value) b
  | Err reason => invalidate (lit "array_append(): " ++ reason) b
  end.

Definition array_remove (field : ColumnName) (value : Ser) (b : BatchUpdateBuilder) : BatchUpdateBuilder :=
  match checked_assignment_value value with
  | Ok (value, _) => assign field (ArrayRemove value) b
  | Err reason => invalidate (lit "array_remove(): " ++ reason) b
  end.

Definition json_set (field : ColumnName) (path : str) (value : Ser) (b : BatchUpdateBuilder) : BatchUpdateBuilder :=
  match checked_assignment_value value with
  | Ok (value, _) => assign field (JsonSet path value) b
  | Err reason => invalidate (lit "json_set(): " ++ reason) b
  end.

Definition coalesce (field : ColumnName) (value : Ser) (b : BatchUpdateBuilder) : BatchUpdateBuilder :=
  match checked_assignment_value value with
  | Ok (_, true) => assign field CoalesceSqlNull b
  | Ok (value, false) => assign field (Coalesce value) b
  | Err reason => invalidate (lit "coalesce(): " ++ reason) b
  end.

Definition push_condition (condition : WhereCondition bound_value) (b : BatchUpdateBuilder) : BatchUpdateBuilder :=
  mkUpdate (updates b) (update_conditions b ++ [condition]) (or_group b) (update_limit b) (update_trashed b) (base b) (invalid_reason b).

Definition push_or (condition : WhereCondition bound_value) (b : BatchUpdateBuilder) : BatchUpdateBuilder :=
  mkUpdate (updates b) (update_conditions b) (or_group b ++ [condition]) (update_limit b) (update_trashed b) (base b) (invalid_reason b).

(** ** Encrypted fields *)

Definition json_kind (value : Json) : str :=
  match value with
  | JNull => lit "null" | JBool _ => lit "boolean" | JNumber _ => lit "number"
  | JString _ => lit "string" | JArray _ => lit "array" | JObject _ => lit "object"
  end.

Definition encrypted_field_label (field_name column_name : str) : str :=
  if str_eqb field_name column_name then field_name else field_name ++ lit " (" ++ column_name ++ lit ")".

Definition encrypt_batch_json_value (value : Json) (field_name column_name : str) : result Json str :=
  match value with
  | JNull => Ok JNull
  | JString text => sealed <-? encrypt_json_value text table_name column_name;; Ok (JString sealed)
  | _ => Err (lit "Encrypted field '" ++ encrypted_field_label field_name column_name
              ++ lit "' takes a string or null, not a JSON " ++ json_kind value)
  end.

Definition unsupported_batch_operation (operation field_name column_name : str) : result UpdateValue str :=
  Err (lit "Batch operation '" ++ operation ++ lit "' is not supported for encrypted field '"
       ++ encrypted_field_label field_name column_name ++ lit "'").

Definition prepare_batch_update_value (field_or_column : str) (value : UpdateValue) : result UpdateValue str :=
  encrypted <-? encrypted_column_of field_or_column;;
  match encrypted with
  | None => Ok value
  | Some (field_name, column_name) =>
      match value with
      | SqlNull | CoalesceSqlNull => Ok value
      | Value v => v <-? encrypt_batch_json_value v field_name column_name;; Ok (Value v)
      | Coalesce v => v <-? encrypt_batch_json_value v field_name column_name;; Ok (Coalesce v)
      | UnsafeRaw _ => unsupported_batch_operation (lit "trusted raw SQL") field_name column_name
      | Increment _ => unsupported_batch_operation (lit "increment") field_name column_name
      | Decrement _ => unsupported_batch_operation (lit "decrement") field_name column_name
      | Multiply _ => unsupported_batch_operation (lit "multiply") field_name column_name
      | Divide _ => unsupported_batch_operation (lit "divide") field_name column_name
      | ArrayAppend _ => unsupported_batch_operation (lit "array append") field_name column_name
      | ArrayRemove _ => unsupported_batch_operation (lit "array remove") field_name column_name
      | JsonSet _ _ => unsupported_batch_operation (lit "json set") field_name column_name
      end
  end.

(** ** One assignment *)

Definition validate_update_column (column : str) : result unit str :=
  if is_safe_identifier_segment column && column_from_str column then Ok tt
  else Err (lit "unsafe update column '" ++ column
            ++ lit "': batch updates require a known model field/column name using only ASCII letters, numbers, and underscores").

Definition quote_update_column (column : str) (db : DatabaseType) : result str str :=
  validate_update_column column;;? Ok (quote_ident db (column_named column)).

Definition is_json_column (kind : option ColumnType) : bool :=
  match kind with Some (TJson | TJsonBinary) => true | _ => false end.

Definition is_array_column (kind : option ColumnType) : bool :=
  match kind with Some (TArray _) => true | _ => false end.

Definition is_numeric (kind : option ColumnType) : bool :=
  match kind with
  | Some kind => is_integer kind || match kind with TFloat | TDouble | TDecimal | TMoney => true | _ => false end
  | None => false
  end.

Definition ensure_setter_fits_column (column : str) (value : UpdateValue) (db : DatabaseType)
    (kind : option ColumnType) : result unit str :=
  let structured (supported : bool) :=
    if supported then Ok tt
    else Err (lit "structured setter requires a compatible JSON or array column; " ++ column ++ lit " is not supported") in
  match value with
  | JsonSet _ _ => structured (is_json_column kind)
  | ArrayAppend _ | ArrayRemove _ =>
      structured (match db with Postgres => is_array_column kind | _ => is_json_column kind end)
  | Increment _ | Decrement _ | Multiply _ | Divide _ =>
      if is_numeric kind then Ok tt
      else Err (lit "bulk arithmetic requires a numeric column; " ++ column ++ lit " is not numeric")
  | _ => Ok tt
  end.

Definition json_scalar_parameter (value : Json) : bound_value := StringValue (Some (json_text value)).

Definition postgres_jsonb (column_sql : str) : str := lit "(" ++ column_sql ++ lit ")::jsonb".

(** [json_equals_bound] of an element, for MySQL and MariaDB. *)
Definition mysql_json_equals (db : DatabaseType) (column_sql : str) : str :=
  match db with
  | MariaDB => lit "(CASE WHEN " ++ column_sql ++ lit " IS NOT NULL THEN JSON_EQUALS(" ++ column_sql ++ lit ", ?) END)"
  | _ => column_sql ++ lit " = CAST(? AS JSON)"
  end.

Notation Params := (list bound_value).

Definition array_appended (col : str) (kind : option ColumnType) (value : Json) (db : DatabaseType) (params : Params)
    : Params * str :=
  match db with
  | Postgres =>
      let '(params, marker) := push_param db params (json_to_array_element value kind) in
      (params, lit "array_append(" ++ col ++ lit ", " ++ marker ++ lit ")")
  | MySQL | MariaDB =>
      let '(params, marker) := push_param db params (json_scalar_parameter value) in
      (params, lit "JSON_ARRAY_APPEND(COALESCE(" ++ col ++ lit ", JSON_ARRAY()), '$', JSON_EXTRACT(" ++ marker ++ lit ", '$'))")
  | SQLite =>
      let '(params, first) := push_param db params (json_scalar_parameter value) in
      let '(params, appended) := push_param db params (json_scalar_parameter value) in
      let '(params, wrapped) := push_param db params (json_scalar_parameter value) in
      (params, lit "CASE WHEN " ++ col ++ lit " IS NULL THEN json_array(json(" ++ first ++ lit ")) WHEN json_type(" ++ col
        ++ lit ") = 'array' THEN json_insert(" ++ col ++ lit ", '$[#]', json(" ++ appended ++ lit ")) ELSE json_array(json("
        ++ col ++ lit "), json(" ++ wrapped ++ lit ")) END")
  end.

Definition array_removed (col : str) (kind : option ColumnType) (value : Json) (db : DatabaseType) (params : Params)
    : Params * str :=
  match db with
  | Postgres =>
      let '(params, marker) := push_param db params (json_to_array_element value kind) in
      (params, lit "array_remove(" ++ col ++ lit ", " ++ marker ++ lit ")")
  | MySQL | MariaDB =>
      let equal := mysql_json_equals db (lit "tideorm_element.v") in
      let null_guard := if is_null value then lit "tideorm_element.v IS NOT NULL AND " else [] in
      (params ++ [json_scalar_parameter value],
       lit "CASE WHEN " ++ col ++ lit " IS NULL THEN NULL WHEN JSON_TYPE(" ++ col ++ lit ") <> 'ARRAY' THEN " ++ col
        ++ lit " ELSE (SELECT COALESCE(JSON_ARRAYAGG(JSON_EXTRACT(tideorm_element.v, '$')), JSON_ARRAY()) FROM JSON_TABLE("
        ++ col ++ lit ", '$[*]' COLUMNS (v JSON PATH '$')) AS tideorm_element WHERE " ++ null_guard ++ lit "NOT COALESCE("
        ++ equal ++ lit ", FALSE)) END")
  | SQLite =>
      let '(equal, values) := sqlite_json_element_equals (lit "tideorm_element") value in
      (params ++ values,
       lit "CASE WHEN " ++ col ++ lit " IS NULL THEN NULL WHEN json_type(" ++ col ++ lit ") <> 'array' THEN " ++ col
        ++ lit " ELSE (SELECT json_group_array(json(tideorm_element.json -> tideorm_element.fullkey) ORDER BY tideorm_element.key) FROM json_each("
        ++ quote_ident db table_name ++ lit "." ++ col ++ lit ") AS tideorm_element WHERE NOT " ++ equal ++ lit ") END")
  end.

(** [sqlite_json_set]; a path with no step is refused before. *)
Definition sqlite_json_set (col : str) (parent : list JsonPathStep) (last : JsonPathStep) (value : Json) (params : Params)
    : Params * str :=
  let bind value params := push_param SQLite params value in
  let path steps suffix := StringValue (Some (json_path_text steps ++ suffix)) in
  let steps := parent ++ [last] in
  match last with
  | Member _ =>
      let '(params, parent_path) := bind (path parent []) params in
      let '(params, target) := bind (path steps []) params in
      let '(params, value) := bind (json_scalar_parameter value) params in
      (params, lit "CASE WHEN json_type(" ++ col ++ lit ", " ++ parent_path ++ lit ") IS NOT 'object' THEN " ++ col
        ++ lit " ELSE json_set(" ++ col ++ lit ", " ++ target ++ lit ", json(" ++ value ++ lit ")) END")
  | Element index =>
      let '(params, parent_path) := bind (path parent []) params in
      let '(params, length_path) := bind (path parent []) params in
      let '(params, target) := bind (path steps []) params in
      let '(params, replaced) := bind (json_scalar_parameter value) params in
      let '(params, end_) := bind (path parent (lit "[#]")) params in
      let '(params, appended) := bind (json_scalar_parameter value) params in
      (params, lit "CASE WHEN json_type(" ++ col ++ lit ", " ++ parent_path ++ lit ") IS NOT 'array' THEN " ++ col
        ++ lit " WHEN json_array_length(" ++ col ++ lit ", " ++ length_path ++ lit ") > " ++ show_N index
        ++ lit " THEN json_set(" ++ col ++ lit ", " ++ target ++ lit ", json(" ++ replaced ++ lit ")) ELSE json_insert("
        ++ col ++ lit ", " ++ end_ ++ lit ", json(" ++ appended ++ lit ")) END")
  end.

(** [split_last]. *)
Definition split_last {A} (l : list A) : option (list A * A) :=
  match rev l with [] => None | x :: rest => Some (rev rest, x) end.

Definition json_path_set (col path : str) (value : Json) (db : DatabaseType) (params : Params) : result (Params * str) str :=
  match parse_json_path path ≫= split_last with
  | None =>
      Err (lit "unsupported JSON path '" ++ path
        ++ lit "': json_set takes `$` followed by `.key`, `." ++ [c_dquote] ++ lit "key" ++ [c_dquote]
        ++ lit "`, `['key']` or `[index]` steps")
  | Some (parent, last) =>
      let steps := parent ++ [last] in
      Ok match db with
         | Postgres =>
             let '(params, path) := push_param db params (StringValue (Some (postgres_json_path_array steps))) in
             let '(params, value) := push_param db params (json_scalar_parameter value) in
             (params, lit "jsonb_set(" ++ postgres_jsonb col ++ lit ", " ++ path ++ lit "::text[], CAST(" ++ value ++ lit " AS jsonb))")
         | MySQL | MariaDB =>
             let '(params, path) := push_param db params (StringValue (Some (json_path_text steps))) in
             let '(params, value) := push_param db params (json_scalar_parameter value) in
             (params, lit "JSON_SET(" ++ col ++ lit ", " ++ path ++ lit ", JSON_EXTRACT(" ++ value ++ lit ", '$'))")
         | SQLite => sqlite_json_set col parent last value params
         end
  end.

(** What [build_assignment_sql] assigns to the quoted column [col]. *)
Definition assigned_sql (column col : str) (value : UpdateValue) (db : DatabaseType) (params : Params)
    : result (Params * str) str :=
  let kind := column_type_of column in
  let own := own_bounds column in
  match value with
  | SqlNull => Ok (push_param db params (ColumnValues.json_to_column_value JNull kind))
  | CoalesceSqlNull =>
      let '(params, parameter) := push_param db params (ColumnValues.json_to_column_value JNull kind) in
      Ok (params, lit "COALESCE(" ++ col ++ lit ", " ++ parameter ++ lit ")")
  | Value value => bound <-? column_value own column kind value db;; Ok (push_param db params bound)
  | UnsafeRaw expression => Ok (params, expression)
  | Increment by_ => Ok (stepped own kind col db params (lit "+") by_)
  | Decrement by_ => Ok (stepped own kind col db params (lit "-") by_)
  | Multiply by_ => scaled own kind col db params by_ false
  | Divide by_ => scaled own kind col db params by_ true
  | ArrayAppend value => Ok (array_appended col kind value db params)
  | ArrayRemove value => Ok (array_removed col kind value db params)
  | JsonSet path value => json_path_set col path value db params
  | Coalesce default_ =>
      bound <-? column_value own column kind default_ db;;
      let '(params, marker) := push_param db params bound in
      Ok (params, lit "COALESCE(" ++ col ++ lit ", " ++ marker ++ lit ")")
  end.

Definition build_assignment_sql (column : str) (value : UpdateValue) (db : DatabaseType) (params : Params)
    : result (Params * str) str :=
  col <-? quote_update_column column db;;
  ensure_setter_fits_column column value db (column_type_of column);;?
  assigned <-? assigned_sql column col value db params;;
  let '(params, assigned) := assigned in Ok (params, col ++ lit " = " ++ assigned).

(** ** The statement *)

(** The assignments in the order of their columns. *)
Definition ordered_updates (b : BatchUpdateBuilder) : list (str * UpdateValue) :=
  sort_by_key fst (map_to_list (updates b)).

Fixpoint build_set_parts (assignments : list (str * UpdateValue)) (db : DatabaseType) (params : Params)
    : result (list str * Params) str :=
  match assignments with
  | [] => Ok ([], params)
  | (column, value) :: rest =>
      value <-? prepare_batch_update_value column value;;
      part <-? build_assignment_sql column value db params;;
      let '(params, part) := part in
      parts <-? build_set_parts rest db params;;
      let '(parts, params) := parts in
      Ok (part :: parts, params)
  end.

Definition build_set_clause (b : BatchUpdateBuilder) (db : DatabaseType) : result (list str * Params) str :=
  build_set_parts (ordered_updates b) db [].

Definition build_where_query (b : BatchUpdateBuilder) : Clauses :=
  let query := default Clauses_default (base b) in
  let query :=
    match update_trashed b with
    | Some true => q_with_trashed query
    | Some false => live_rows_only query
    | None => query
    end in
  let query := upd_conditions (λ own, own ++ update_conditions b) query in
  foldl (λ query condition, push_or_condition condition query) query (or_group b).

Definition ensure_values_are_bindable (b : BatchUpdateBuilder) : result unit QueryError :=
  match invalid_reason b with
  | Some reason => Err (EQuery (lit "update of " ++ table_name ++ lit ": " ++ reason))
  | None => Ok tt
  end.

Definition ensure_base_is_updatable (b : BatchUpdateBuilder) : result unit QueryError :=
  match base b ≫= update_blocker with
  | Some part =>
      Err (EQuery (lit "update_all() of a " ++ table_name ++ lit " query keeps its filters and scope only; "
                   ++ part ++ lit " cannot be part of an UPDATE"))
  | None => Ok tt
  end.

Definition ensure_explicit_filters (operation : str) (b : BatchUpdateBuilder) : result unit QueryError :=
  ensure_base_is_updatable b;;?
  ensure_query_is_executable (build_where_query b);;?
  ensure_mutation_has_explicit_filters operation (build_where_query b).

Definition backend_supports_update_limit (db : DatabaseType) : bool :=
  match db with MySQL | MariaDB => true | Postgres | SQLite => false end.

(** The text of the error is left out. *)
Definition limit_scope_primary_key (db : DatabaseType) : result str str :=
  match primary_key_names with
  | [column] => Ok (quote_ident db column)
  | _ => Err (lit "limit() is not supported for '" ++ table_name ++ lit "'")
  end.

Definition order_by_sql (query : Clauses) : str :=
  match order_by query with
  | [] => []
  | terms => lit " ORDER BY " ++ join (lit ", ") (format_order_by <$> terms)
  end.

(** An [UPDATE]: its text and values, and, with them, the assignments, the condition of
    its WHERE clause and the limit with the order that picks the rows under it, which say
    what the database does. [scoped] is a limit in a subquery of primary keys. *)
Record UpdateStatement := {
  statement_sql : str;
  statement_params : Params;
  assignments : list (str * UpdateValue);
  condition : option Condition;
  cap : option (N * list (str * Order));
  scoped : bool;
}.

(** [None] is the panic of the lexer, which the theorems exclude. *)
Definition build_update_statement (b : BatchUpdateBuilder) : option (result UpdateStatement str) :=
  match build_set_clause b query_db with
  | Err e => Some (Err e)
  | Ok (set_parts, params) =>
      let query := build_where_query b in
      let '(where_sql, where_params) := build_where_clause query in
      rebased ← rebase_placeholders query_db where_sql (N.of_nat (length params));
      let scoped := bool_decide (is_Some (update_limit b)) && negb (backend_supports_update_limit query_db) in
      let sql := lit "UPDATE " ++ quoted_table ++ lit " SET " ++ join (lit ", ") set_parts in
      Some (scope <-? (if scoped then
                primary_key <-? limit_scope_primary_key query_db;;
                Ok (lit " WHERE " ++ primary_key ++ lit " IN (SELECT " ++ primary_key ++ lit " FROM " ++ quoted_table)
              else Ok []);;
            let sql := sql ++ scope ++ (if nilb rebased then [] else lit " WHERE " ++ rebased) in
            let sql := sql ++ match update_limit b with
                              | Some n => order_by_sql query ++ lit " LIMIT " ++ show_N n
                              | None => []
                              end in
            Ok {| statement_sql := sql ++ (if scoped then lit ")" else []);
                  statement_params := params ++ where_params;
                  assignments := ordered_updates b;
                  condition := rendered where_sql (build_sea_condition query);
                  cap := (λ n, (n, order_by query)) <$> update_limit b;
                  scoped := scoped |})
  end.

(** [execute], up to the sending: no statement where there is nothing to assign. *)
Definition execute (b : BatchUpdateBuilder) : option (result (option UpdateStatement) QueryError) :=
  match ensure_values_are_bindable b with
  | Err e => Some (Err e)
  | Ok _ =>
      if bool_decide (updates b = ∅) then Some (Ok None)
      else
        match ensure_explicit_filters (lit "update") b with
        | Err e => Some (Err e)
        | Ok _ =>
            statement ← build_update_statement b;
            Some match statement with Ok s => Ok (Some s) | Err message => Err (EQuery message) end
        end
  end.

Definition ensure_backend_supports_returning (db : DatabaseType) : result unit str :=
  if supports_returning db then Ok tt
  else Err (lit "execute_returning() is not supported on this backend: it needs UPDATE .. RETURNING").

(** [execute_returning]; whether the model's fields can be stored is an argument. *)
Definition execute_returning (storable : result unit str) (b : BatchUpdateBuilder)
    : option (result (option UpdateStatement) QueryError) :=
  match ensure_values_are_bindable b with
  | Err e => Some (Err e)
  | Ok _ =>
      if bool_decide (updates b = ∅) then Some (Ok None)
      else
        match ensure_explicit_filters (lit "update") b with
        | Err e => Some (Err e)
        | Ok _ =>
            match ensure_backend_supports_returning query_db;;? storable with
            | Err message => Some (Err (EQuery message))
            | Ok _ =>
                statement ← build_update_statement b;
                Some match statement with
                     | Ok s => Ok (Some {| statement_sql := statement_sql s ++ lit " RETURNING "
                                             ++ join (lit ", ") (quote_ident query_db <$> column_names);
                                           statement_params := statement_params s; assignments := assignments s;
                                           condition := condition s; cap := cap s; scoped := scoped s |})
                     | Err message => Err (EQuery message)
                     end
            end
        end
  end.
End Update.
