(* ===== verification/BulkUpdates.v ===== *)
(** * What a bulk update does

    The theorems of [BatchUpdate]: every value of a statement is bound at a marker of its
    own, in order; the rows it changes; what is refused. *)

From S2P Require Import Prelude Dialect SqlLexer SqlSafety Placeholders Relexing Templates JsonPath JsonLoss MinHeap Filters QueryStructure.
From S2P Require Import Decimals SqliteJson JsonConditions Clauses Fragments BulkWrites BulkArithmetic ColumnValues BatchUpdate.
Local Open Scope tide_scope.

(** ** Texts with markers *)

Inductive Piece := Text (s : str) | Hole.

(** The markers numbered from [n]. *)
Fixpoint render (db : DatabaseType) (n : N) (ps : list Piece) : str :=
  match ps with
  | [] => []
  | Text s :: ps => s ++ render db n ps
  | Hole :: ps => placeholder db n ++ render db (n + 1) ps
  end.

Fixpoint holes (ps : list Piece) : nat :=
  match ps with [] => 0 | Text _ :: ps => holes ps | Hole :: ps => S (holes ps) end.

(** What a writer adds to the values bound so far: the text has a marker for each value,
    numbered in order behind those before it. *)
Definition binds {V} (db : DatabaseType) (params : list V) (r : list V * str) : Prop :=
  ∃ ps vals, r.1 = params ++ vals ∧ r.2 = render db (N.of_nat (length params) + 1) ps ∧ holes ps = length vals.

Section binds.
Context {V : Type} (db : DatabaseType).
Implicit Types (params : list V).

Lemma render_pieces_app n ps qs : render db n (ps ++ qs) = render db n ps ++ render db (n + N.of_nat (holes ps)) qs.
Proof.
  revert n. induction ps as [|[s|] ps IH]; intros n; cbn [render holes app].
  - by rewrite N.add_0_r.
  - by rewrite IH, app_assoc.
  - rewrite IH, app_assoc. do 2 f_equal. lia.
Qed.

Lemma holes_app ps qs : holes (ps ++ qs) = holes ps + holes qs.
Proof. induction ps as [|[s|] ps IH]; cbn [holes app]; lia. Qed.

Lemma binds_text params s : binds db params (params, s).
Proof. exists [Text s], []. cbn. by rewrite !app_nil_r. Qed.

Lemma binds_push params v : binds db params (push_param db params v).
Proof. exists [Hole], [v]. cbn [fst snd push_param render holes length]. rewrite app_nil_r, length_app. split_and!; [done| |done]. cbn [length]. f_equal. lia. Qed.

Lemma binds_app params params1 params2 t1 t2 :
  binds db params (params1, t1) → binds db params1 (params2, t2) → binds db params (params2, t1 ++ t2).
Proof.
  intros (ps & vals & E1 & Et & Hp) (qs & vals' & E2 & Et' & Hq). cbn [fst snd] in *. subst params1 params2 t1 t2.
  exists (ps ++ qs), (vals ++ vals'). cbn [fst snd]. rewrite render_pieces_app, holes_app, !length_app, app_assoc, Hp, Hq.
  split_and!; [done| |done]. do 2 f_equal. lia.
Qed.

Lemma binds_wrap params params' t before after :
  binds db params (params', t) → binds db params (params', before ++ t ++ after).
Proof. intros Ht. eapply binds_app; [apply binds_text|]. eapply binds_app; [exact Ht|apply binds_text]. Qed.

Lemma binds_join params params1 params2 sep t ts :
  binds db params (params1, t) → binds db params1 (params2, join sep ts) → binds db params (params2, join sep (t :: ts)).
Proof.
  intros Ht Hts. destruct ts as [|t' ts].
  - cbn [join] in *. destruct Hts as (ps & vals & E & Et & Hp). cbn [fst snd] in *.
    assert (t = t ++ []) as -> by (by rewrite app_nil_r). eapply binds_app; [exact Ht|]. by exists ps, vals.
  - change (join sep (t :: t' :: ts)) with (t ++ sep ++ join sep (t' :: ts)).
    eapply binds_app; [exact Ht|]. eapply binds_app; [apply binds_text|exact Hts].
Qed.
End binds.

(** Pushes become facts, then the text is cut at the texts they are known for. *)
Ltac pushes :=
  repeat match goal with
  | |- context [push_param ?db ?params ?v] =>
      let p := fresh "p" in let m := fresh "m" in let H := fresh "H" in
      pose proof (binds_push db params v) as H; destruct (push_param db params v) as [p m]
  end.

Ltac cut_text :=
  rewrite <- ?app_assoc;
  repeat first [eassumption | apply binds_text
    | eapply binds_app; [eassumption|]
    | eapply binds_app; [apply binds_text|]].

Lemma ok_inj {A E} (x y : A) : Ok (E := E) x = Ok y → x = y.
Proof. by intros [= ->]. Qed.

(** ** The assignments *)

Section assignments.
Context {V : Type} `{!Arithmetic V}.
Implicit Types params : list V.

Lemma checked_binds db own kind params p1 p2 p3 checked bounded result :
  binds db params (p1, checked) → binds db p1 (p2, bounded) → binds db p2 (p3, result) →
  binds db params (p3, sqlite_integer_checked own kind checked bounded result).
Proof. intros. unfold sqlite_integer_checked. destruct (sqlite_integer_bounds own kind) as [low high]. cut_text. Qed.

Lemma float_binds kind col operator operand params r :
  sqlite_float_arithmetic kind col operator operand params = Some r → binds SQLite params r.
Proof.
  unfold sqlite_float_arithmetic. intros ([maximum single] & _ & E)%bind_Some. revert E. pushes. intros <-%(inj Some).
  match goal with |- binds _ _ (_, if single then sqlite_f32_round ?e else _) => assert (binds SQLite params (p0, e)) as Hexpr by cut_text end.
  destruct single; [|exact Hexpr]. unfold sqlite_f32_round. cbv zeta.
  eapply binds_app; [apply binds_text|]. eapply binds_app; [exact Hexpr|]. apply binds_text.
Qed.

Lemma stepped_binds own kind col db params operator by_ : binds db params (stepped own kind col db params operator by_).
Proof.
  unfold stepped. destruct (match db with SQLite => _ | _ => None end) as [r|] eqn:E.
  - destruct db; try done. by eapply float_binds.
  - pushes. assert (binds db params (p, col ++ lit " " ++ operator ++ lit " " ++ m)) as Hstep by cut_text.
    destruct db, kind as [kind'|]; try exact Hstep. destruct (is_integer kind'); [|exact Hstep]. pushes.
    apply (checked_binds SQLite own (Some kind') params p p0 p1); [exact Hstep|cut_text|cut_text].
Qed.

Lemma operand_binds db times operand params p : binds db params (p, operand) → binds db params (scaled_operand db times operand p).
Proof. intros Hp. unfold scaled_operand. destruct (times =? 1)%Z; [done|]. pushes. cut_text. Qed.

Lemma scale_binds col factor divide db params r :
  sqlite_integer_scale col factor divide db params = Some r → binds db params r.
Proof.
  unfold sqlite_integer_scale. intros ([times over] & _ & E)%bind_Some. revert E. destruct (over =? 1)%Z.
  { intros <-%(inj Some). apply operand_binds, binds_text. }
  pose proof (binds_push db params (BigInt over)) as H0. destruct (push_param db params (BigInt over)) as [p0 m0].
  assert (binds db params (p0, lit "(" ++ col ++ lit " / " ++ m0 ++ lit ")")) as H1 by cut_text.
  apply (operand_binds db times) in H1. destruct (scaled_operand db times _ p0) as [p1 quotient].
  pose proof (binds_push db p1 (BigInt over)) as H2. destruct (push_param db p1 (BigInt over)) as [p2 m2].
  assert (binds db p1 (p2, lit "(" ++ col ++ lit " % " ++ m2 ++ lit ")")) as H3 by cut_text.
  apply (operand_binds db times) in H3. destruct (scaled_operand db times _ p2) as [p3 remainder].
  destruct (if (times <? 0)%Z then _ else _) as [below_zero otherwise]. pushes. intros <-%(inj Some). cut_text.
Qed.

Lemma scaled_binds own kind col db params factor divide r :
  scaled own kind col db params factor divide = Ok r → binds db params r.
Proof.
  unfold scaled. destruct (negb (is_finite factor) || divide && is_zero factor); [done|].
  set (plainly := λ params, let '(params, marker) := push_param db params (Double factor) in
    Ok (E := str) (params, col ++ lit " " ++ (if divide then lit "/" else lit "*") ++ lit " " ++ marker)).
  assert (∀ r, plainly params = Ok r → binds db params r) as Hplain.
  { intros r'. unfold plainly. pushes. intros <-%ok_inj. cut_text. }
  set (integral := match kind with Some kind => is_integer kind | None => false end). clearbody integral.
  destruct db.
  1-3: destruct (exact_decimal factor); [destruct (integral || _)|]; first [apply Hplain | pushes; intros <-%ok_inj; cut_text].
  assert (∀ r', (if integral then Err (lit "SQLite cannot scale this integer column exactly with the requested factor")
      else match sqlite_float_arithmetic kind col (if divide then lit "/" else lit "*") (Double factor) params with
           | Some expression => Ok expression | None => plainly params end) = Ok r' → binds SQLite params r') as Hfloat.
  { intros r'. destruct integral; [done|]. destruct (sqlite_float_arithmetic kind col _ _ params) as [e|] eqn:E; [|apply Hplain].
    intros <-%ok_inj. by eapply float_binds. }
  destruct (exact_decimal factor) as [exact_|]; [|apply Hfloat]. destruct integral; [|apply Hfloat].
  destruct (sqlite_integer_scale col exact_ divide SQLite params) as [[p1 checked]|] eqn:E1; [|done].
  destruct (sqlite_integer_scale col exact_ divide SQLite p1) as [[p2 bounded]|] eqn:E2; [|done].
  destruct (sqlite_integer_scale col exact_ divide SQLite p2) as [[p3 result]|] eqn:E3; [|done]. intros <-%ok_inj.
  eapply checked_binds; by eapply scale_binds.
Qed.
End assignments.

(** ** JSON tests *)

Definition is_leaf (c : JsonConditions.Condition) : bool :=
  match c with Both _ | Either _ | JsonConditions.Group _ | SomeRow _ _ _ | NoRow _ _ _ => false | _ => true end.

Section condition_rect.
Variable P : JsonConditions.Condition → Prop.
Hypothesis leaf : ∀ c, is_leaf c = true → P c.
Hypothesis both : ∀ checks, Forall P checks → P (Both checks).
Hypothesis either : ∀ checks, Forall P checks → P (Either checks).
Hypothesis group : ∀ c, P c → P (JsonConditions.Group c).
Hypothesis some : ∀ place alias c, P c → P (SomeRow place alias c).
Hypothesis no : ∀ place alias c, P c → P (NoRow place alias c).

Fixpoint condition_nested (c : JsonConditions.Condition) : P c :=
  let all := fix all (l : list JsonConditions.Condition) : Forall P l :=
    match l with [] => @Stdlib.Lists.List.Forall_nil _ _ | x :: l => @Stdlib.Lists.List.Forall_cons _ _ x l (condition_nested x) (all l) end in
  match c with
  | Both checks => both checks (all checks)
  | Either checks => either checks (all checks)
  | JsonConditions.Group c => group c (condition_nested c)
  | SomeRow place alias c => some place alias c (condition_nested c)
  | NoRow place alias c => no place alias c (condition_nested c)
  | c => leaf c eq_refl
  end.
End condition_rect.

Section json_tests.
Context {V : Type} `{JsonTestValues V}.

Lemma binds_joined sep base (checks : list JsonConditions.Condition) (params : list V) :
  Forall (λ c, ∀ params, binds SQLite params (params ++ condition_values base c, condition_text base c)) checks →
  binds SQLite params (params ++ (checks ≫= condition_values base), join sep (condition_text base <$> checks)).
Proof.
  intros Hall. revert params. induction Hall as [|c checks Hc _ IH]; intros params.
  { cbn. rewrite app_nil_r. apply binds_text. }
  cbn [fmap list_fmap mbind list_bind]. rewrite app_assoc. eapply binds_join; [apply Hc|apply IH].
Qed.

Lemma condition_binds base (c : JsonConditions.Condition) : ∀ params : list V,
  binds SQLite params (params ++ condition_values base c, condition_text base c).
Proof.
  induction c as [c Hleaf|checks IH|checks IH|c IH|place alias c IH|place alias c IH] using condition_nested; [|intros params..].
  - assert (∀ (v : V) params before, binds SQLite params (params ++ [v], before ++ lit "?")) as Hone.
    { intros v params before. change (lit "?") with (placeholder SQLite (N.of_nat (length (params ++ [v])))).
      eapply binds_app; [apply binds_text|apply (binds_push SQLite params v)]. }
    destruct c; try done; intros params; cbn [condition_values condition_text];
      try (rewrite app_nil_r; apply binds_text).
    + change (lit " = ?") with (lit " = " ++ lit "?"). rewrite app_assoc. apply Hone.
    + unfold number_equals, number_comparison. destruct (decimal_parts text) as [[negative coefficient] scale].
      destruct (nilb coefficient); [|destruct scale as [scale|]]; cbn [fst snd]; try (rewrite app_nil_r; apply binds_text).
      unfold bind_value. cbn [fst snd app].
      match goal with |- binds _ _ (_ ++ ?values, _) =>
        assert (binds SQLite params (params ++ values, lit "coefficient = ? AND negative = ? AND scale = ?")) as Hcompared
          by (eexists [Text (lit "coefficient = "); Hole; Text (lit " AND negative = "); Hole; Text (lit " AND scale = "); Hole], values;
              split_and!; reflexivity)
      end.
      cut_text.
    + change (lit ".key = ?") with (lit ".key = " ++ lit "?"). rewrite !app_assoc. apply Hone.
  - by apply binds_joined.
  - destruct checks as [|c checks]; [cbn; rewrite app_nil_r; apply binds_text|].
    change (condition_text base (Either (c :: checks))) with (join (lit " OR ") (condition_text base <$> c :: checks)).
    by apply binds_joined.
  - cbn [condition_values condition_text]. by apply binds_wrap.
  - cbn [condition_values condition_text]. unfold exists_row. specialize (IH params). cut_text.
  - cbn [condition_values condition_text]. unfold no_row. specialize (IH params). cut_text.
Qed.
End json_tests.

(** ** The SET clause *)

Section set_clause.
Context `{QT : QueryTypes} `{MC : !ModelContext} `{SC : SeaCondition (Expr bound_value)} `{BC : !BulkContext}
  `{JS : JsonStrings} `{UC : Unicode} `{SV : SerdeValue} `{AR : !Arithmetic bound_value} `{BI : !Bindings bound_value}
  `{JT : !JsonTestValues bound_value} `{UM : !UpdatedModel}.
Implicit Types (params : list bound_value) (db : DatabaseType).

Lemma element_equals_binds alias_ value params :
  binds SQLite params (params ++ (sqlite_json_element_equals alias_ value).2, (sqlite_json_element_equals alias_ value).1).
Proof.
  unfold sqlite_json_element_equals, run_tests.
  rewrite (equals_writes (row alias_) value Column [] 0). cbn [fst snd app]. apply condition_binds.
Qed.

Lemma appended_binds col kind value db params : binds db params (array_appended col kind value db params).
Proof. unfold array_appended. destruct db; pushes; cut_text. Qed.

Lemma mysql_equal_binds db col value params : db = MySQL ∨ db = MariaDB →
  binds db params (params ++ [json_scalar_parameter value], mysql_json_equals db col).
Proof.
  intros Hdb. assert (binds db params (params ++ [json_scalar_parameter value], lit "?")) as Hmark.
  { destruct Hdb as [-> | ->]; [apply (binds_push MySQL params (json_scalar_parameter value))|apply (binds_push MariaDB params (json_scalar_parameter value))]. }
  destruct Hdb as [-> | ->]; cbn [mysql_json_equals].
  - change (lit " = CAST(? AS JSON)") with (lit " = CAST(" ++ lit "?" ++ lit " AS JSON)"). cut_text.
  - change (lit ", ?) END)") with (lit ", " ++ lit "?" ++ lit ") END)"). cut_text.
Qed.

Lemma removed_binds col kind value db params : binds db params (array_removed col kind value db params).
Proof.
  unfold array_removed. destruct db.
  - pushes. cut_text.
  - pose proof (mysql_equal_binds MySQL (lit "tideorm_element.v") value params (or_introl eq_refl)). cut_text.
  - pose proof (mysql_equal_binds MariaDB (lit "tideorm_element.v") value params (or_intror eq_refl)). cut_text.
  - pose proof (element_equals_binds (lit "tideorm_element") value params) as He.
    destruct (sqlite_json_element_equals (lit "tideorm_element") value) as [equal values]. cbn [fst snd] in He. cut_text.
Qed.

Lemma json_set_binds col path value db params r : json_path_set col path value db params = Ok r → binds db params r.
Proof.
  unfold json_path_set. destruct (parse_json_path path ≫= split_last) as [[parent last]|]; [|done]. intros <-%ok_inj.
  destruct db.
  - pushes. cut_text.
  - pushes. cut_text.
  - pushes. cut_text.
  - unfold sqlite_json_set. destruct last; pushes; cut_text.
Qed.

Lemma assigned_binds column col value db params r : assigned_sql column col value db params = Ok r → binds db params r.
Proof.
  unfold assigned_sql. destruct value.
  - intros (bound & _ & <-%ok_inj)%rbind_Ok. apply binds_push.
  - intros <-%ok_inj. apply binds_push.
  - pushes. intros <-%ok_inj. cut_text.
  - intros <-%ok_inj. apply binds_text.
  - intros <-%ok_inj. apply stepped_binds.
  - intros <-%ok_inj. apply stepped_binds.
  - apply scaled_binds.
  - apply scaled_binds.
  - intros <-%ok_inj. apply appended_binds.
  - intros <-%ok_inj. apply removed_binds.
  - apply json_set_binds.
  - intros (bound & _ & Hb)%rbind_Ok. revert Hb. pushes. intros <-%ok_inj. cut_text.
Qed.

Lemma assignment_binds column value db params params' part : build_assignment_sql column value db params = Ok (params', part) →
  let col := quote_ident db (column_named column) in
  binds db params (params', part)
  ∧ ∃ expression, assigned_sql column col value db params = Ok (params', expression) ∧ part = col ++ lit " = " ++ expression.
Proof.
  unfold build_assignment_sql, quote_update_column.
  intros (col & (_ & _ & <-%ok_inj)%rbind_Ok & (_ & _ & ([p e] & He & [<- <-]%ok_inj%pair_equal_spec)%rbind_Ok)%rbind_Ok)%rbind_Ok.
  cbn zeta. split; [|by exists e]. apply assigned_binds in He. cut_text.
Qed.

(** What a column stores: of an encrypted field a sealed text or a null, else what was assigned. *)
Definition stores (column : str) (value stored : UpdateValue (f64 (Bound := bound_value))) : Prop :=
  match encrypted_column_of column with
  | Err _ => False
  | Ok None => stored = value
  | Ok (Some (_, name)) =>
      match stored with
      | SqlNull | CoalesceSqlNull | Value JNull | Coalesce JNull => True
      | Value (JString sealed) | Coalesce (JString sealed) => ∃ text, encrypt_json_value text table_name name = Ok sealed
      | _ => False
      end
  end.

Lemma encrypted_json value field name stored : encrypt_batch_json_value value field name = Ok stored →
  stored = JNull ∨ ∃ text sealed, stored = JString sealed ∧ encrypt_json_value text table_name name = Ok sealed.
Proof.
  unfold encrypt_batch_json_value. destruct value as [| | |text| |]; try done.
  - intros [= <-]. by left.
  - intros (sealed & E & [= <-])%rbind_Ok. right. by exists text, sealed.
Qed.

Lemma prepared_stores column value stored : prepare_batch_update_value column value = Ok stored → stores column value stored.
Proof.
  unfold prepare_batch_update_value, stores. intros ([[field name]|] & -> & Hv)%rbind_Ok; [|by apply ok_inj in Hv].
  destruct value; try done; try by apply ok_inj in Hv as <-.
  all: apply rbind_Ok in Hv as (v & [->|(text & sealed & -> & E)]%encrypted_json & [= <-]); [done|by exists text].
Qed.

(** A part of the SET clause: the column, quoted, and the expression of what it stores. *)
Definition assigns (db : DatabaseType) (a : str * UpdateValue (f64 (Bound := bound_value))) (part : str) : Prop :=
  let col := quote_ident db (column_named a.1) in
  ∃ stored before after expression, stores a.1 a.2 stored
    ∧ assigned_sql a.1 col stored db before = Ok (after, expression) ∧ part = col ++ lit " = " ++ expression.

(** Each part assigns its column; together they bind the values of the clause in order. *)
Lemma set_parts_bind l db : ∀ params parts params',
  build_set_parts l db params = Ok (parts, params') →
  binds db params (params', join (lit ", ") parts) ∧ Forall2 (assigns db) l parts.
Proof.
  induction l as [|[column value] l IH]; intros params parts params'; cbn [build_set_parts].
  { intros [= <- <-]. split; [apply binds_text|constructor]. }
  intros (stored & Hstored%prepared_stores & ([params1 part] & [Hpart (expression & Hsql & Hform)]%assignment_binds
    & ([parts' params2] & Hparts & [= <- <-])%rbind_Ok)%rbind_Ok)%rbind_Ok.
  destruct (IH _ _ _ Hparts) as [Hb Hall]. split; [by eapply binds_join|constructor; [|done]].
  by exists stored, params, params1, expression.
Qed.
End set_clause.

(** ** The rows of an update *)

(** A table with a key: what the assignments make of a row, and the order the rows under a
    limit are picked in. *)
Class UpdatedTable `{TB : Table} `{AR : !Arithmetic bound_value} := {
  Key : Type;
  Key_eq_dec : EqDecision Key;
  row_key : Row → Key;
  assigned : list (str * UpdateValue (f64 (Bound := bound_value))) → Row → Row;
  in_order : list (str * Order) → list Row → list Row;
  in_order_perm order rows : in_order order rows ≡ₚ rows;
}.
#[export] Existing Instance Key_eq_dec.

Section update.
Context `{QT : QueryTypes} `{MC : !ModelContext} `{SC : SeaCondition (Expr bound_value)} `{BC : !BulkContext}
  `{JS : JsonStrings} `{UC : Unicode} `{SV : SerdeValue} `{AR : !Arithmetic bound_value} `{BI : !Bindings bound_value}
  `{JT : !JsonTestValues bound_value} `{UM : !UpdatedModel} `{TB : !Table} `{UT : !UpdatedTable}.

(** The rows a statement writes: those its condition reaches, under a limit the first of
    them, told apart by their keys. *)
Definition picked (s : UpdateStatement) (rows : list Row) : list Row :=
  let rows := List.filter (reached (condition s)) rows in
  match cap s with Some (n, order) => take (N.to_nat n) (in_order order rows) | None => rows end.

Definition written (s : UpdateStatement) (rows : list Row) (r : Row) : bool :=
  match cap s with
  | Some _ => bool_decide (row_key r ∈ row_key <$> picked s rows)
  | None => reached (condition s) r
  end.

Definition exec_update (s : UpdateStatement) (rows : list Row) : list Row :=
  (λ r, if written s rows r then assigned (assignments s) r else r) <$> rows.

(** The rows the update is for. *)
Definition update_scope (b : BatchUpdateBuilder) : SoftDeleteScope :=
  let query := default Clauses_default (base b) in
  match update_trashed b with
  | Some trashed => query_scope soft_delete_enabled trashed false
  | None => query_scope soft_delete_enabled (include_trashed query) (only_trashed query)
  end.

(** The groups of alternatives: the update's own are one group, that of the query if it has
    one to share. *)
Definition update_groups (b : BatchUpdateBuilder) : list (OrGroup bound_value) :=
  let query := default Clauses_default (base b) in
  match or_group b with
  | [] => or_groups query
  | alternatives =>
      match simple_or_group query ≫= λ index, (λ g, (index, g)) <$> or_groups query !! index with
      | Some (index, g) =>
          <[index := mkGroup (group_conditions g ++ alternatives) (nested_groups g) (combine_with g)]> (or_groups query)
      | None => or_groups query ++ [mkGroup alternatives [] Or]
      end
  end.

(** The rows in that scope that the query's filters and the update's own are true of. *)
Definition target (b : BatchUpdateBuilder) (r : Row) : bool :=
  in_scope (update_scope b) r
  && bool_decide (filters_truth (cond_truth (row_truth r))
       (conditions (default Clauses_default (base b)) ++ update_conditions b) (update_groups b) = TTrue).

Lemma push_or_scope (cs : list (WhereCondition bound_value)) : ∀ q : Clauses,
  include_trashed (foldl (λ q c, push_or_condition c q) q cs) = include_trashed q
  ∧ only_trashed (foldl (λ q c, push_or_condition c q) q cs) = only_trashed q
  ∧ conditions (foldl (λ q c, push_or_condition c q) q cs) = conditions q.
Proof.
  induction cs as [|c cs IH]; intros q; [done|]. cbn [foldl]. destruct (IH (push_or_condition c q)) as (-> & -> & ->).
  unfold push_or_condition. by repeat case_match.
Qed.

Lemma where_query_scope b :
  query_scope soft_delete_enabled (include_trashed (build_where_query b)) (only_trashed (build_where_query b)) = update_scope b
  ∧ conditions (build_where_query b) = conditions (default Clauses_default (base b)) ++ update_conditions b.
Proof.
  unfold build_where_query, update_scope. match goal with |- context [foldl _ ?q _] => destruct (push_or_scope (or_group b) q) as (-> & -> & ->) end.
  destruct (update_trashed b) as [[]|]; by split.
Qed.

Lemma group_pushes_all (cs : list (WhereCondition bound_value)) : ∀ g,
  foldl group_push g cs = mkGroup (group_conditions g ++ cs) (nested_groups g) (combine_with g).
Proof.
  induction cs as [|c cs IH]; intros g; cbn [foldl]; [rewrite app_nil_r; by destruct g|].
  rewrite IH. unfold group_push. cbn. by rewrite <- app_assoc.
Qed.

Lemma push_or_into (cs : list (WhereCondition bound_value)) : ∀ (q : Clauses) i g, simple_or_group q = Some i →
  or_groups q !! i = Some g →
  or_groups (foldl (λ q c, push_or_condition c q) q cs) = <[i := foldl group_push g cs]> (or_groups q).
Proof.
  induction cs as [|c cs IH]; intros q i g Hs Hg; cbn [foldl]; [by rewrite list_insert_id|].
  assert (push_or_condition c q = upd_or_groups (λ gs, <[i := group_push g c]> gs) q) as ->
    by (unfold push_or_condition; by rewrite Hs, Hg).
  rewrite (IH _ i (group_push g c)); [cbn; by rewrite list_insert_insert_eq|done|].
  cbn. apply list_lookup_insert_eq. by eapply lookup_lt_Some.
Qed.

(** The update's alternatives join the group that the query's own share, or are one more. *)
Lemma where_query_groups b : or_groups (build_where_query b) = update_groups b.
Proof.
  unfold build_where_query, update_groups. set (q0 := default Clauses_default (base b)).
  match goal with |- or_groups (foldl _ ?q _) = _ => assert (or_groups q = or_groups q0 ∧ simple_or_group q = simple_or_group q0) as [Hg Hs]
    by (destruct (update_trashed b) as [[]|]; by split); generalize dependent q end.
  intros q <- <-. destruct (or_group b) as [|c cs]; [done|].
  destruct (simple_or_group q) as [i|] eqn:Ei; [destruct (or_groups q !! i) as [g|] eqn:Eg|]; cbn [mbind option_bind]; rewrite ?Eg.
  - rewrite (push_or_into _ _ i g) by done. by rewrite group_pushes_all.
  - cbn [foldl]. rewrite (push_or_into _ _ (length (or_groups q)) (mkGroup [c] [] Or)).
    + unfold push_or_condition. rewrite Ei, Eg. cbn. rewrite group_pushes_all. by rewrite insert_app_r_alt, Nat.sub_diag by done.
    + unfold push_or_condition. by rewrite Ei, Eg.
    + unfold push_or_condition. rewrite Ei, Eg. cbn. apply list_lookup_middle. done.
  - cbn [foldl]. rewrite (push_or_into _ _ (length (or_groups q)) (mkGroup [c] [] Or)).
    + unfold push_or_condition. rewrite Ei. cbn. rewrite group_pushes_all. by rewrite insert_app_r_alt, Nat.sub_diag by done.
    + unfold push_or_condition. by rewrite Ei.
    + unfold push_or_condition. rewrite Ei. cbn. apply list_lookup_middle. done.
Qed.

Lemma explicit_filters_exclude (c : Clauses) : has_explicit_mutation_filters c = true ↔ ¬ unfiltered c.
Proof. rewrite <- not_false_iff_true. unfold unfiltered. by rewrite explicit_filters_spec. Qed.

Lemma rebase_total db sql offset : ∃ out, rebase_placeholders db sql offset = Some out.
Proof.
  destruct db; [|by eexists..]. destruct (rebased_fragments_keep_their_tokens sql offset) as (_ & out & _ & _ & Hout & _). by exists out.
Qed.

(** The text and values of a statement. *)
Definition update_text (b : BatchUpdateBuilder) (s : UpdateStatement) : Prop :=
  ∃ parts set_params rebased scope page,
    binds query_db [] (set_params, join (lit ", ") parts)
    ∧ Forall2 (assigns query_db) (assignments s) parts
    ∧ rebase_placeholders query_db (build_where_clause (build_where_query b)).1 (N.of_nat (length set_params)) = Some rebased
    ∧ statement_params s = set_params ++ (build_where_clause (build_where_query b)).2
    ∧ statement_sql s = lit "UPDATE " ++ quoted_table ++ lit " SET " ++ join (lit ", ") parts ++ scope
        ++ (if nilb rebased then [] else lit " WHERE " ++ rebased) ++ page.

Lemma statement_built b : ∃ r, build_update_statement b = Some r ∧
  ∀ s, r = Ok s → update_text b s ∧ assignments s = ordered_updates b
    ∧ condition s = rendered (build_where_clause (build_where_query b)).1 (build_sea_condition (build_where_query b))
    ∧ cap s = (λ n, (n, order_by (build_where_query b))) <$> update_limit b.
Proof.
  unfold build_update_statement, build_set_clause.
  destruct (build_set_parts (ordered_updates b) query_db []) as [[parts set_params]|e] eqn:Eparts; [|by eexists].
  destruct (set_parts_bind _ _ _ _ _ Eparts) as [Hb Hall].
  unfold update_text. destruct (build_where_clause (build_where_query b)) as [where_sql where_params]. cbn [fst snd].
  destruct (rebase_total query_db where_sql (N.of_nat (length set_params))) as [rebased Hre]. rewrite Hre. cbn [mbind option_bind].
  eexists. split; [reflexivity|]. intros s (scope & _ & <-%ok_inj)%rbind_Ok. split_and!; try reflexivity.
  cbn [assignments statement_params statement_sql].
  eexists parts, set_params, rebased, scope, _. split_and!; [done..|]. rewrite <- ?app_assoc. reflexivity.
Qed.

(** [execute] never panics; what it sends, it sends past its guards. *)
Lemma execute_sends b : ∃ r, execute b = Some r ∧
  (r = Ok None → updates b = ∅) ∧
  ∀ s, r = Ok (Some s) → invalid_reason b = None ∧ updates b ≠ ∅ ∧ base b ≫= update_blocker = None
    ∧ ensure_query_is_executable (build_where_query b) = Ok tt
    ∧ has_explicit_mutation_filters (build_where_query b) = true
    ∧ update_text b s ∧ assignments s = ordered_updates b
    ∧ condition s = rendered (build_where_clause (build_where_query b)).1 (build_sea_condition (build_where_query b))
    ∧ cap s = (λ n, (n, order_by (build_where_query b))) <$> update_limit b.
Proof.
  unfold execute, ensure_values_are_bindable. destruct (invalid_reason b) eqn:Einv; [by eexists|].
  case_bool_decide as Hempty; [by eexists|].
  destruct (ensure_explicit_filters (lit "update") b) as [[]|e] eqn:Efilters; [|by eexists].
  revert Efilters. unfold ensure_explicit_filters, ensure_base_is_updatable. destruct (base b ≫= update_blocker) eqn:Eb; [done|].
  intros (_ & _ & ([] & Hexec & Hfilters%mutation_guard_Ok)%rbind_Ok)%rbind_Ok.
  destruct (statement_built b) as (r & -> & Hs). cbn [mbind option_bind]. eexists. split; [reflexivity|].
  destruct r as [s'|e]; [|by split]. split; [done|]. intros s [= <-]. destruct (Hs s' eq_refl) as (? & ? & ? & ?). done.
Qed.

Lemma picked_keys s rows n order : NoDup (row_key <$> rows) → cap s = Some (n, order) →
  List.filter (written s rows) rows ≡ₚ picked s rows
  ∧ length (picked s rows) = N.to_nat n `min` length (List.filter (reached (condition s)) rows)
  ∧ picked s rows = take (N.to_nat n) (in_order order (List.filter (reached (condition s)) rows)).
Proof.
  intros Hnd Hcap. assert (picked s rows = take (N.to_nat n) (in_order order (List.filter (reached (condition s)) rows))) as Hp
    by (unfold picked; by rewrite Hcap). split_and!; [|by rewrite Hp, length_take, in_order_perm|exact Hp].
  assert (∀ f : Row → bool, NoDup (row_key <$> List.filter f rows)) as Hfilter.
  { intros f. clear -Hnd. induction rows as [|r rows IH]; [done|]. cbn [fmap list_fmap] in Hnd. apply list.NoDup_cons in Hnd as [Hr Hnd].
    cbn [List.filter]. destruct (f r); [|by apply IH]. cbn [fmap list_fmap]. apply list.NoDup_cons. split; [|by apply IH].
    intros (r' & E & Hin)%list_elem_of_fmap. apply Hr. rewrite E. apply list_elem_of_fmap_2.
    apply list_elem_of_In in Hin. apply filter_In in Hin as [Hin _]. by apply list_elem_of_In. }
  assert (NoDup (row_key <$> picked s rows)) as Hpn.
  { rewrite Hp. pose proof (Hfilter (reached (condition s))) as Hf.
    rewrite <- (in_order_perm order) in Hf. rewrite <- (take_drop (N.to_nat n) (in_order order _)) in Hf.
    rewrite fmap_app in Hf. by apply list.NoDup_app in Hf as [? _]. }
  assert (∀ r, r ∈ picked s rows → r ∈ rows) as Hin.
  { intros r Hr. rewrite Hp in Hr. apply list_elem_of_In.
    assert (r ∈ in_order order (List.filter (reached (condition s)) rows)) as Ho by (by eapply elem_of_take in Hr as (? & ? & ?); eapply list_elem_of_lookup_2).
    rewrite in_order_perm in Ho. apply list_elem_of_In, filter_In in Ho as [? _]. done. }
  apply NoDup_Permutation; [by eapply NoDup_fmap_1|by eapply NoDup_fmap_1|].
  intros r. unfold written. rewrite Hcap. rewrite list_elem_of_In, filter_In, <- list_elem_of_In, bool_decide_eq_true. split.
  - intros [Hr (r' & E & Hr')%list_elem_of_fmap]. replace r with r'; [done|].
    clear -Hnd E Hr Hr' Hin. specialize (Hin r' Hr'). apply list_elem_of_lookup in Hr as [i Hi], Hin as [j Hj].
    assert (i = j) as ->; [|congruence]. eapply NoDup_lookup; [exact Hnd|by rewrite list_lookup_fmap, Hi|by rewrite list_lookup_fmap, Hj, E].
  - intros Hr. split; [by apply Hin|]. by apply list_elem_of_fmap_2.
Qed.

Lemma reached_target b s r : ensure_query_is_executable (build_where_query b) = Ok tt →
  condition s = rendered (build_where_clause (build_where_query b)).1 (build_sea_condition (build_where_query b)) →
  reached (condition s) r = target b r.
Proof.
  intros He ->. unfold target. destruct (where_query_scope b) as [Hscope <-]. rewrite <- where_query_groups.
  apply (scoped_reaches (update_scope b) (build_where_query b) (build_where_query b)); [done..|exact Hscope].
Qed.

End update.

(** ** A shop

    Items with a name, their key, which may be deleted. *)
Module Shop.

#[local] Existing Instance Fragments.demo_types.
#[local] Existing Instance simple_json_strings.
#[local] Existing Instance ascii_only.
#[local] Instance model : ModelContext := demo_model true.
#[local] Instance trees : SeaCondition (Expr bound_value) := sea_trees (Expr str).
#[local] Existing Instance demo_bulk.
#[local] Existing Instance demo_table.

#[local] Instance shop_arithmetic : Arithmetic bound_value := {|
  f64 := Z; is_finite := λ _, true; is_zero := Z.eqb 0; f64_text := show_Z; lower_exp := show_Z;
  powi2 := λ e, (2 ^ e)%Z; f32_max := (2 ^ 127)%Z; f64_max := (2 ^ 1023)%Z; SQLITE_DECIMAL_MAX := (2 ^ 95)%Z;
  Decimal := Z; decimal_from_str := parse_i128; normalize := λ d, d; mantissa := λ d, d; scale := λ _, 0;
  BigInt := show_Z; Double := show_Z; DecimalValue := show_Z;
|}.

#[local] Instance shop_bindings : Bindings bound_value := {|
  StringValue := default (lit "NULL"); BoolValue := λ b, if b is Some true then lit "TRUE" else lit "FALSE";
  BigUnsigned := show_N; NullOf := λ _, lit "NULL"; FloatValue := show_Z; JsonValue := λ _, lit "json";
  BytesValue := λ _, lit "bytes"; ArrayValue := λ _ _, None; as_null := λ _, lit "NULL"; decimal_of := λ _, None;
  is_moment := λ _, false; UuidValue := λ s, s; is_uuid := λ _, false; Moment := unit; MomentValue := λ _, lit "moment";
  fixed_datetime := λ _, None; to_utc := λ m, m; naive_utc := λ m, m; and_utc := λ m, m; naive_datetime := λ _, None;
  naive_datetime_format := λ _ _, None; midnight := λ _, None; naive_date := λ _, None; naive_time := λ _, None;
  naive_time_format := λ _ _, None; decimal_exact := parse_i128; decimal_scientific := λ _, None; decimal_of_u64 := Z.of_N;
  decimal_f64 := Some; json_text := λ j, if j is JString s then s else lit "json"; number_text := λ _, lit "1";
  number_f64 := λ _, None; parse_f64 := parse_i128; ColumnValues.parse_i64 := parse_i128; deserialize_bytes := λ _, None;
  at_most := λ a b, (Z.abs b <=? a)%Z; as_f32 := λ f, f; integral := Some;
|}.

#[local] Instance shop_tests : JsonTestValues bound_value := {|
  text_value := λ s, s; bool_value := λ b, if b then lit "TRUE" else lit "FALSE"; int_value := show_Z; number_to_string := λ _, lit "1";
|}.

#[local] Instance shop_model : UpdatedModel := {|
  schema_name := None; column_named := λ c, c; column_from_str := λ c, existsb (str_eqb c) [lit "name"; lit "stock"];
  column_type_of := λ c, if str_eqb c (lit "stock") then Some TInteger else Some TText;
  own_bounds := λ _, None; primary_key_names := [lit "name"]; column_names := [lit "name"; lit "stock"];
  encrypted_column_of := λ _, Ok None; encrypt_json_value := λ s _ _, Ok s; format_order_by := fst;
|}.

#[local] Instance shop_table : @UpdatedTable _ _ _ demo_table shop_arithmetic :=
  @Build_UpdatedTable _ _ _ demo_table shop_arithmetic (option str) _ (λ r : bool * option str, r.2)
    (λ _ (r : bool * option str), (r.1, Some (lit "sold"))) (λ _ rows, rows) (λ _ rows, reflexivity rows).

Definition column (name : str) : ColumnName := {| column_name := name; column_table := None; column_schema := None |}.

(** Two assignments, a filter and a limit of one row. *)
Definition sale : BatchUpdateBuilder :=
  limit 1 (push_condition (mkCondition (lit "name") Eq (VSingle (JString (lit "a"))))
    (increment (column (lit "stock")) (-1) (assign (column (lit "name")) (Value (JString (lit "sold"))) BatchUpdateBuilder_new))).

Definition items : list (bool * option str) := [(false, Some (lit "a")); (true, Some (lit "b")); (false, Some (lit "c"))].

Definition sale_statement : UpdateStatement :=
  match execute sale with
  | Some (Ok (Some s)) => s
  | _ => {| statement_sql := []; statement_params := []; assignments := []; condition := None; cap := None; scoped := false |}
  end.

Lemma items_keys : NoDup (row_key <$> items).
Proof. change (NoDup [Some (lit "a"); Some (lit "b"); Some (lit "c")]). repeat constructor; set_solver. Qed.


(** The name and three markers for the step of the stock, and one row sold. *)
Example sale_sent :
  statement_params sale_statement = [lit "sold"; lit "-1"; lit "-1"; lit "-1"]
  ∧ exec_update sale_statement items = [(false, Some (lit "sold")); (true, Some (lit "b")); (false, Some (lit "c"))].
Proof. split; vm_compute; reflexivity. Qed.
End Shop.
