(* ===== verification/Validation.v ===== *)
(** * Model validation (src/src/validation.rs, validation/values.rs)

    Rules on field values, the messages of those that fail, and their collection. A
    finite [f64] is the number it is, [m] times two to the [e]. What the standard
    library does between decimal text and floats, regular expressions, the URL and
    UUID parsers and [rust_decimal] are the class [Numbers]. *)

From S2P Require Import Prelude Dialect Decimals.
Local Open Scope tide_scope.

(** ** Floats *)

Inductive F64 :=
  | NaN
  | Infinite (negative : bool)
  | Finite (m e : Z).

(** [f64::floor] and [f64::ceil] of a finite number, as the integer they are. *)
Definition floor_of (m e : Z) : Z := if (0 <=? e)%Z then (m * 2 ^ e)%Z else (m / 2 ^ (- e))%Z.
Definition ceil_of (m e : Z) : Z := (- floor_of (- m) e)%Z.

(** The cast of a float to [i128], which saturates. *)
Definition saturate (z : Z) : Z := Z.max i128_min (Z.min z i128_max).
Definition cast_i128 (rounded : Z → Z → Z) (f : F64) : Z :=
  match f with
  | NaN => 0
  | Infinite negative => if negative then i128_min else i128_max
  | Finite m e => saturate (rounded m e)
  end.

Definition compare_finite (a b : Z * Z) : comparison :=
  let low := Z.min a.2 b.2 in
  (a.1 * 2 ^ (a.2 - low) ?= b.1 * 2 ^ (b.2 - low))%Z.

(** [PartialOrd] of floats: none with a [NaN]. *)
Definition partial_cmp (a b : F64) : option comparison :=
  match a, b with
  | NaN, _ | _, NaN => None
  | Infinite s, Infinite t => Some (if Bool.eqb s t then Eq else if s then Lt else Gt)
  | Infinite s, Finite _ _ => Some (if s then Lt else Gt)
  | Finite _ _, Infinite t => Some (if t then Gt else Lt)
  | Finite m e, Finite n f => Some (compare_finite (m, e) (n, f))
  end.

Definition float_lt (a b : F64) : bool := match partial_cmp a b with Some Lt => true | _ => false end.
Definition float_le (a b : F64) : bool :=
  match partial_cmp a b with Some (Lt | Eq) => true | _ => false end.
Definition is_nan (f : F64) : bool := match f with NaN => true | _ => false end.

(** [i128::MAX as f64] rounds up to a power of two. *)
Definition i128_max_float : F64 := Finite 1 127.
Definition i128_min_float : F64 := Finite (-1) 127.

(** ** Values *)

Class Numbers := {
  Decimal : Type;
  decimal_text : Decimal → str;
  decimal_f64 : Decimal → option F64;
  decimal_is_integral : Decimal → bool;
  decimal_i128 : Decimal → option Z;
  parse_f64 : str → option F64;
  f64_text : F64 → str;
  f64_of_int : Z → F64;
  to_f32 : F64 → F64;
  regex : str → option (str → bool);
  is_http_url : str → bool;
  is_uuid : str → bool;
}.

Inductive JsonValue :=
  | JNull
  | JBool (b : bool)
  | JInteger (z : Z)
  | JFloat (f : F64)
  | JString (s : str)
  | JArray (length : nat)
  | JObject (length : nat).

Section Validation.
Context `{Unicode} `{Numbers}.

(** The types with a [ValidatableValue]: texts, options, floats, integers, decimals,
    JSON, vectors, and those only [required] applies to. *)
Inductive Value :=
  | VText (s : str)
  | VNone
  | VSome (v : Value)
  | VFloat (single : bool) (f : F64)
  | VInteger (z : Z)
  | VDecimal (d : Decimal)
  | VJson (j : JsonValue)
  | VVec (length : nat)
  | VPresent.

Definition is_blank (s : str) : bool := match trim s with [] => true | _ => false end.

Fixpoint is_empty_value (v : Value) : bool :=
  match v with
  | VText s => is_blank s
  | VNone => true
  | VSome v => is_empty_value v
  | VJson j =>
      match j with
      | JNull => true
      | JString s => is_blank s
      | JArray n | JObject n => (n =? 0)%nat
      | JBool _ | JInteger _ | JFloat _ => false
      end
  | VVec n => (n =? 0)%nat
  | VFloat _ _ | VInteger _ | VDecimal _ | VPresent => false
  end.

Fixpoint as_str_value (v : Value) : option str :=
  match v with
  | VText s | VJson (JString s) => Some s
  | VSome v => as_str_value v
  | _ => None
  end.

Fixpoint as_f64_value (v : Value) : option F64 :=
  match v with
  | VText s => parse_f64 s
  | VSome v => as_f64_value v
  | VFloat _ f | VJson (JFloat f) => Some f
  | VInteger z | VJson (JInteger z) => Some (f64_of_int z)
  | VDecimal d => decimal_f64 d
  | _ => None
  end.

Definition i64_fits (z : Z) : bool := (- 2 ^ 63 <=? z)%Z && (z <? 2 ^ 63)%Z.
Definition u64_fits (z : Z) : bool := (0 <=? z)%Z && (z <? 2 ^ 64)%Z.

Fixpoint as_i128_value (v : Value) : option Z :=
  match v with
  | VText s => parse_i128 s
  | VSome v => as_i128_value v
  | VInteger z => checked_i128 z
  | VDecimal d => if decimal_is_integral d then decimal_i128 d else None
  | VJson (JInteger z) => if i64_fits z || u64_fits z then Some z else None
  | _ => None
  end.

Fixpoint as_decimal_value (v : Value) : option Decimal :=
  match v with
  | VDecimal d => Some d
  | VSome v => as_decimal_value v
  | _ => None
  end.

Fixpoint numeric_bound (v : Value) (bound : F64) : F64 :=
  match v with
  | VSome v => numeric_bound v bound
  | VFloat true _ => to_f32 bound
  | _ => bound
  end.

(** ** Bounds *)

Definition decimal_text_outside (value bound : str) (below : bool) : bool :=
  match compare_decimal_text value bound with
  | Some order => match order with Lt => below | Gt => negb below | Eq => false end
  | None => true
  end.

Definition decimal_outside (d : Decimal) (text : str) (below : bool) : bool :=
  decimal_text_outside (decimal_text d) text below.

Definition below_bound (v : Value) (bound : F64) : option bool :=
  match as_i128_value v with
  | Some integer =>
      Some (if float_lt i128_max_float bound then true
            else if float_le bound i128_min_float then false
            else (integer <? cast_i128 ceil_of bound)%Z)
  | None =>
      match as_decimal_value v with
      | Some d => Some (decimal_outside d (f64_text bound) true)
      | None => (λ n, is_nan n || float_lt n (numeric_bound v bound)) <$> as_f64_value v
      end
  end.

Definition above_bound (v : Value) (bound : F64) : option bool :=
  match as_i128_value v with
  | Some integer =>
      Some (if float_le i128_max_float bound then false
            else if float_lt bound i128_min_float then true
            else (cast_i128 floor_of bound <? integer)%Z)
  | None =>
      match as_decimal_value v with
      | Some d => Some (decimal_outside d (f64_text bound) false)
      | None => (λ n, is_nan n || float_lt (numeric_bound v bound) n) <$> as_f64_value v
      end
  end.

Definition fails (o : option bool) : bool := default false o.

Definition outside_exact (v : Value) (text : str) (below : bool) : bool :=
  match as_i128_value v with
  | Some integer =>
      match parse_i128 text with
      | Some bound => if below then (integer <? bound)%Z else (bound <? integer)%Z
      | None => decimal_text_outside (show_Z integer) text below
      end
  | None =>
      match as_decimal_value v with
      | Some d => decimal_outside d text below
      | None =>
          match parse_f64 text with
          | None => true
          | Some bound => fails (if below then below_bound v bound else above_bound v bound)
          end
      end
  end.

(** ** Rules *)

Inductive ValidationRule :=
  | Required
  | Email
  | Url
  | MinLength (n : nat)
  | MaxLength (n : nat)
  | Length (n : nat)
  | Min (bound : F64)
  | MinExact (bound : str)
  | Max (bound : F64)
  | MaxExact (bound : str)
  | Range (min max : F64)
  | RangeExact (min max : str)
  | Regex (pattern : str)
  | Alpha
  | Alphanumeric
  | Numeric
  | Uuid
  | In (values : list str)
  | NotIn (values : list str).

Definition message (rule : ValidationRule) (field : str) : str :=
  lit "The " ++ field ++
  match rule with
  | Required => lit " field is required"
  | Email => lit " must be a valid email address"
  | Url => lit " must be a valid URL"
  | MinLength n => lit " must be at least " ++ show_N (N.of_nat n) ++ lit " characters"
  | MaxLength n => lit " must not exceed " ++ show_N (N.of_nat n) ++ lit " characters"
  | Length n => lit " must be exactly " ++ show_N (N.of_nat n) ++ lit " characters"
  | MinExact bound => lit " must be at least " ++ bound
  | MaxExact bound => lit " must not exceed " ++ bound
  | RangeExact min max => lit " must be between " ++ min ++ lit " and " ++ max
  | Min bound => lit " must be at least " ++ f64_text bound
  | Max bound => lit " must not exceed " ++ f64_text bound
  | Range min max => lit " must be between " ++ f64_text min ++ lit " and " ++ f64_text max
  | Regex pattern => lit " format is invalid (must match: " ++ pattern ++ lit ")"
  | Alpha => lit " must only contain letters"
  | Alphanumeric => lit " must only contain letters and numbers"
  | Numeric => lit " must be a number"
  | Uuid => lit " must be a valid UUID"
  | In values => lit " must be one of: " ++ join (lit ", ") values
  | NotIn values => lit " must not be one of: " ++ join (lit ", ") values
  end.

Definition EMAIL_PATTERN : str := lit "^[a-zA-Z0-9._%+-]+@[a-zA-Z0-9.-]+\.[a-zA-Z]{2,}$".

Definition is_valid_email (s : str) : bool :=
  match regex EMAIL_PATTERN with Some is_match => is_match s | None => false end.

Definition is_finite (f : F64) : bool := match f with Finite _ _ => true | _ => false end.

(** Whether a rule fails; a pattern that does not compile is another message. *)
Definition rule_fails (v : Value) (rule : ValidationRule) : bool :=
  let text_fails fails := match as_str_value v with Some s => fails s | None => false end in
  match rule with
  | Required => is_empty_value v
  | Email => text_fails (λ s, negb (is_valid_email s))
  | Url => text_fails (λ s, negb (is_http_url s))
  | MinLength min => text_fails (λ s, (length s <? min)%nat)
  | MaxLength max => text_fails (λ s, (max <? length s)%nat)
  | Length len => text_fails (λ s, negb (length s =? len)%nat)
  | MinExact min => outside_exact v min true
  | MaxExact max => outside_exact v max false
  | RangeExact min max => outside_exact v min true || outside_exact v max false
  | Min min => fails (below_bound v min)
  | Max max => fails (above_bound v max)
  | Range min max => fails (below_bound v min) || fails (above_bound v max)
  | Regex pattern =>
      match regex pattern with
      | Some is_match => text_fails (λ s, negb (is_match s))
      | None => true
      end
  | Alpha => text_fails (λ s, negb (forallb is_alphabetic s))
  | Alphanumeric => text_fails (λ s, negb (forallb is_alphanumeric s))
  | Numeric => text_fails (λ s, negb (match parse_f64 s with Some f => is_finite f | None => false end))
  | Uuid => text_fails (λ s, negb (is_uuid s))
  | In values => text_fails (λ s, negb (existsb (str_eqb s) values))
  | NotIn values => text_fails (λ s, existsb (str_eqb s) values)
  end.

Definition validate_rule (v : Value) (rule : ValidationRule) (field : str) : option str :=
  match rule with
  | Regex pattern =>
      match regex pattern with
      | None => Some (lit "The " ++ field ++ lit " validation pattern `" ++ pattern
                      ++ lit "` is not a valid regular expression")
      | Some _ => if rule_fails v rule then Some (message rule field) else None
      end
  | _ => if rule_fails v rule then Some (message rule field) else None
  end.

(** [ValidationRule::validate]. *)
Definition validate (rule : ValidationRule) (v : Value) : result unit str :=
  match validate_rule v rule (lit "field") with Some error => Err error | None => Ok tt end.
End Validation.

(** ** Errors *)

Record ValidationErrors := { errors_of : gmap str (list str); order : list str }.

Definition ValidationErrors_new : ValidationErrors := {| errors_of := ∅; order := [] |}.

Definition add (field message : str) (e : ValidationErrors) : ValidationErrors := {|
  order := match errors_of e !! field with None => order e ++ [field] | Some _ => order e end;
  errors_of := <[field := default [] (errors_of e !! field) ++ [message]]> (errors_of e);
|}.

(** [__check]. *)
Definition check `{Unicode} `{Numbers} (field : str) (v : Value) (rules : list ValidationRule)
    (e : ValidationErrors) : ValidationErrors :=
  foldl (λ e rule, match validate_rule v rule field with Some m => add field m e | None => e end) e rules.

Definition is_empty (e : ValidationErrors) : bool := bool_decide (errors_of e = ∅).
Definition len (e : ValidationErrors) : nat := size (errors_of e).
Definition get (field : str) (e : ValidationErrors) : option (list str) := errors_of e !! field.
Definition field_errors (field : str) (e : ValidationErrors) : list str := default [] (get field e).

Definition iter (e : ValidationErrors) : list (str * list str) :=
  omap (λ field, pair field <$> errors_of e !! field) (order e).

Definition first (e : ValidationErrors) : option (str * str) :=
  '(field, messages) ← head (iter e); pair field <$> head messages.

(** [errors]: pairs. *)
Definition errors (e : ValidationErrors) : list (str * str) :=
  iter e ≫= λ '(field, messages), pair field <$> messages.

Definition messages (e : ValidationErrors) : list str :=
  (λ '(field, msg), field ++ lit ": " ++ msg) <$> errors e.

(** [merge]: a field is taken out of [other] as it comes, so one listed twice would
    give nothing the second time. *)
Definition merge (other e : ValidationErrors) : ValidationErrors :=
  (foldl (λ '(e, left_), λ field,
     (foldl (λ e message, add field message e) e (default [] (left_ !! field)), delete field left_))
   (e, errors_of other) (order other)).1.

Definition to_result (e : ValidationErrors) : result unit ValidationErrors :=
  if is_empty e then Ok tt else Err e.

(** The [Error::Validation] an operation fails with. *)
Definition validation_error (e : ValidationErrors) : str * str :=
  default (lit "unknown", lit "Validation failed") (first e).

(** ** Exact bounds *)

Lemma floor_below m e z : (floor_of m e < z)%Z ↔ compare_finite (z, 0%Z) (m, e) = Gt.
Proof.
  unfold compare_finite, floor_of. cbn [fst snd]. rewrite Z.compare_gt_iff.
  destruct (Z.leb_spec 0 e) as [He|He].
  - rewrite Z.min_l by done. rewrite Z.sub_0_r, Z.sub_diag. change (2 ^ 0)%Z with 1%Z. lia.
  - rewrite Z.min_r by lia. rewrite Z.sub_diag. change (2 ^ 0)%Z with 1%Z.
    assert (0 < 2 ^ (- e))%Z as Hp by (apply Z.pow_pos_nonneg; lia).
    replace (0 - e)%Z with (- e)%Z by lia. rewrite Z.mul_1_r. split.
    + intros Hlt. pose proof (Z.mul_succ_div_gt m _ Hp). nia.
    + intros Hlt. apply Z.div_lt_upper_bound; lia.
Qed.

Lemma compare_finite_opp x e y f :
  compare_finite ((- x)%Z, e) ((- y)%Z, f) = compare_finite (y, f) (x, e).
Proof. unfold compare_finite. cbn [fst snd]. by rewrite !Z.mul_opp_l, Z.compare_opp, Z.min_comm. Qed.

Lemma ceil_above m e z : (z < ceil_of m e)%Z ↔ compare_finite (z, 0%Z) (m, e) = Lt.
Proof.
  unfold ceil_of. transitivity (floor_of (- m) e < - z)%Z; [lia|]. rewrite floor_below.
  rewrite compare_finite_opp. unfold compare_finite. cbn [fst snd].
  rewrite Z.min_comm, Z.compare_gt_iff. by rewrite Z.compare_lt_iff.
Qed.

Lemma compare_finite_antisym a b : compare_finite b a = CompOpp (compare_finite a b).
Proof. unfold compare_finite. rewrite Z.min_comm. apply Z.compare_antisym. Qed.

Lemma partial_cmp_antisym a b : partial_cmp b a = CompOpp <$> partial_cmp a b.
Proof.
  destruct a as [|[]|m e], b as [|[]|n f]; cbn; try done.
  by rewrite compare_finite_antisym.
Qed.

Definition integer (z : Z) : F64 := Finite z 0.

Lemma float_lt_spec a b : float_lt a b = true ↔ partial_cmp a b = Some Lt.
Proof. unfold float_lt. destruct (partial_cmp a b) as [[]|]; split; congruence. Qed.

Lemma integer_lt z m e : float_lt (integer z) (Finite m e) = (z <? ceil_of m e)%Z.
Proof.
  apply eq_true_iff_eq. rewrite float_lt_spec, Z.ltb_lt, ceil_above. cbn. split; congruence.
Qed.

Lemma integer_gt z m e : float_lt (Finite m e) (integer z) = (floor_of m e <? z)%Z.
Proof.
  apply eq_true_iff_eq. rewrite float_lt_spec, partial_cmp_antisym, Z.ltb_lt, floor_below. cbn.
  destruct (compare_finite _ _); cbn; split; congruence.
Qed.

(** The limits of [i128], as the code spells them. *)
Lemma past_max m e :
  float_lt i128_max_float (Finite m e) = (2 ^ 127 <? ceil_of m e)%Z
  ∧ float_le i128_max_float (Finite m e) = (2 ^ 127 <=? floor_of m e)%Z
  ∧ float_le (Finite m e) i128_min_float = (ceil_of m e <=? - 2 ^ 127)%Z
  ∧ float_lt (Finite m e) i128_min_float = (floor_of m e <? - 2 ^ 127)%Z.
Proof.
  assert (∀ s b, partial_cmp (Finite s 127) b = partial_cmp (integer (s * 2 ^ 127)) b) as Hp.
  { intros s [|[]|n f]; try done. cbn [partial_cmp integer]. f_equal. unfold compare_finite. cbn [fst snd].
    set (l := Z.min 127 f). set (l' := Z.min 0 f).
    assert (0 < 2 ^ (l - l'))%Z as Hpos by (apply Z.pow_pos_nonneg; lia).
    rewrite (Zmult_compare_compat_r _ _ (2 ^ (l - l'))) by lia.
    rewrite <- !Z.mul_assoc, <- !Z.pow_add_r by lia. do 2 f_equal; f_equal; lia. }
  assert (∀ b, partial_cmp b i128_max_float = partial_cmp b (integer (2 ^ 127))
               ∧ partial_cmp i128_max_float b = partial_cmp (integer (2 ^ 127)) b) as Hmax.
  { intros b. rewrite (partial_cmp_antisym _ b), (partial_cmp_antisym (integer _) b).
    unfold i128_max_float. by rewrite Hp. }
  assert (∀ b, partial_cmp b i128_min_float = partial_cmp b (integer (- 2 ^ 127))) as Hmin.
  { intros b. rewrite (partial_cmp_antisym _ b), (partial_cmp_antisym (integer _) b).
    unfold i128_min_float. by rewrite Hp. }
  split_and!.
  - rewrite <- integer_lt. unfold float_lt. by rewrite (proj2 (Hmax _)).
  - transitivity (negb (float_lt (Finite m e) (integer (2 ^ 127)))).
    + unfold float_le, float_lt. rewrite (proj2 (Hmax _)), (partial_cmp_antisym (Finite m e)).
      cbn. by destruct (compare_finite _ _).
    + rewrite integer_gt, <- Z.leb_antisym. done.
  - transitivity (negb (float_lt (integer (- 2 ^ 127)) (Finite m e))).
    + unfold float_le, float_lt. rewrite Hmin, (partial_cmp_antisym (Finite m e) (integer _)).
      cbn. by destruct (compare_finite _ _).
    + rewrite integer_lt, <- Z.leb_antisym. done.
  - rewrite <- integer_gt. unfold float_lt. by rewrite Hmin.
Qed.

(** What is relied on of [rust_decimal]: the text of a decimal spells its value, and its
    integer is an [i128]. *)
Class DecimalLaws `{Numbers} := {
  decimal_value : Decimal → Z * Z;
  decimal_spells d : spells (decimal_text d) (decimal_value d);
  decimal_reach d : in_reach (decimal_text d) (decimal_value d);
  decimal_i128_fits d z : decimal_i128 d = Some z → i128_fits z = true;
}.

Section Exact.
Context `{DecimalLaws}.

Lemma as_i128_fits v z : as_i128_value v = Some z → i128_fits z = true.
Proof.
  induction v as [s| |v IH|single f|i|d|j|n|]; cbn; try done.
  - intros Hp. by apply parse_i128_spells in Hp as [_ ?].
  - unfold checked_i128. destruct (i128_fits i) eqn:E; [by intros [= <-]|done].
  - destruct (decimal_is_integral d); [apply decimal_i128_fits|done].
  - destruct j; try done. destruct (i64_fits _ || u64_fits _) eqn:E; [intros [= <-]|done].
    unfold i64_fits, u64_fits in E. unfold i128_fits, i128_min, i128_max. lia.
Qed.

(** C30: the numeric rules compare an integer with a float bound exactly, however large
    either is: [min] fails for the integers below the bound and [max] for those above
    it, with no rounding through a float. The one exception is the greatest [i128],
    which a minimum above it of two to the 127th does not refuse. *)
Theorem float_bounds_are_exact v z bound :
  as_i128_value v = Some z → is_nan bound = false →
  (¬ (z = i128_max ∧ float_lt (integer z) bound = true ∧ float_le bound i128_max_float = true) →
   below_bound v bound = Some (float_lt (integer z) bound))
  ∧ above_bound v bound = Some (float_lt bound (integer z)).
Proof.
  intros Hz Hb. pose proof (as_i128_fits _ _ Hz) as Hfits. unfold below_bound, above_bound. rewrite Hz.
  unfold i128_fits, i128_min, i128_max in Hfits.
  destruct bound as [|[]|m e]; [done| | |].
  - by split.
  - by split.
  - destruct (past_max m e) as (-> & -> & -> & ->). rewrite integer_lt, integer_gt.
    unfold cast_i128, saturate, i128_min, i128_max.
    assert (floor_of m e ≤ ceil_of m e)%Z as Hfc.
    { assert (¬ (ceil_of m e < floor_of m e)%Z); [|lia]. intros Hlt.
      assert (floor_of m e < floor_of m e)%Z; [|lia]. apply floor_below.
      assert (compare_finite (floor_of m e, 0%Z) (m, e) ≠ Lt) as Hn1 by (rewrite <- ceil_above; lia).
      destruct (compare_finite (floor_of m e, 0%Z) (m, e)) eqn:E; [|done|done]. exfalso.
      assert (compare_finite (ceil_of m e, 0%Z) (m, e) = Lt) as Hl; [|apply ceil_above in Hl; lia].
      revert E. unfold compare_finite. cbn [fst snd]. set (l := Z.min 0 e).
      assert (0 < 2 ^ (0 - l))%Z by (apply Z.pow_pos_nonneg; lia).
      rewrite Z.compare_eq_iff, Z.compare_lt_iff. nia. }
    assert (float_le (Finite m e) i128_max_float = negb (2 ^ 127 <? ceil_of m e)%Z) as ->.
    { destruct (past_max m e) as [<- _]. unfold float_le, float_lt.
      rewrite (partial_cmp_antisym (Finite m e)). cbn. by destruct (compare_finite _ _). }
    split; f_equal.
    + intros Hne. f_equal. assert (ceil_of m e = 2 ^ 127 → z ≠ 2 ^ 127 - 1)%Z as Hedge.
      { intros Hc ->. apply Hne. rewrite Hc. by vm_compute. }
      destruct (Z.ltb_spec (2 ^ 127) (ceil_of m e)); [lia|].
      destruct (Z.leb_spec (ceil_of m e) (- 2 ^ 127)); lia.
    + destruct (Z.leb_spec (2 ^ 127) (floor_of m e)); [lia|].
      destruct (Z.ltb_spec (floor_of m e) (- 2 ^ 127)); lia.
Qed.

(** The number an integer or decimal value holds. *)
Definition number_of (v : Value) : option (Z * Z) :=
  match as_i128_value v with
  | Some z => Some (z, 0%Z)
  | None => decimal_value <$> as_decimal_value v
  end.

Lemma outside_spec value bound below n a :
  spells value n → spells bound a → in_reach value n → in_reach bound a →
  decimal_text_outside value bound below
  = match compare_scaled n a with Lt => below | Gt => negb below | Eq => false end.
Proof. intros. unfold decimal_text_outside. by rewrite (compare_text_reads _ _ n a). Qed.

Lemma compare_integers x y : compare_scaled (x, 0%Z) (y, 0%Z) = (x ?= y)%Z.
Proof. unfold compare_scaled. cbn. by rewrite !Z.mul_1_r. Qed.

(** a bound written as decimal text is compared exactly with the integer or decimal
    of the field, whatever digits and exponents either has: the rule fails for the
    values on the wrong side of it and for no other. *)
Theorem exact_bounds_are_exact v n text a below :
  number_of v = Some n → spells text a → in_reach text a →
  outside_exact v text below
  = match compare_scaled n a with Lt => below | Gt => negb below | Eq => false end.
Proof.
  unfold number_of, outside_exact. intros Hn Ha Hreach.
  destruct (as_i128_value v) as [z|] eqn:Ez.
  - injection Hn as <-. pose proof (as_i128_fits _ _ Ez) as Hfits.
    pose proof (show_Z_reach z Hfits) as Hz. destruct (parse_i128 text) as [b|] eqn:Eb.
    + apply parse_i128_spells in Eb as [Hb Hbfits].
      assert (in_reach text (b, 0%Z)) as Hrb.
      { destruct Hreach as (_ & _ & Hlen). unfold in_reach, i128_min, i128_max in *. cbn [snd]. lia. }
      rewrite (spellings_agree text (show_Z z) a (b, 0%Z) (z, 0%Z)) by (done || apply show_Z_spells).
      rewrite compare_integers. unfold Z.ltb. rewrite (Z.compare_antisym z b).
      destruct below; by destruct (z ?= b)%Z.
    + apply outside_spec; [apply show_Z_spells|done..].
  - destruct (as_decimal_value v) as [d|]; [|done]. injection Hn as <-.
    apply outside_spec; [apply decimal_spells|done|apply decimal_reach|done].
Qed.

(** The rule that fails one past the limit passes it at the limit. *)
Example greatest_integer_passes_a_greater_minimum `{Unicode} :
  rule_fails (VInteger i128_max) (Min i128_max_float) = false ∧
  float_lt (integer i128_max) i128_max_float = true ∧
  rule_fails (VInteger (i128_max - 1)) (Min i128_max_float) = true.
Proof. by vm_compute. Qed.
End Exact.

(** ** What is reported *)

(** The fields of [pairs], each where it comes first. *)
Definition note_field (fields : list str) (field : str) : list str :=
  if bool_decide (field ∈ fields) then fields else fields ++ [field].

Definition fields_in_order (pairs : list (str * str)) : list str :=
  foldl note_field [] pairs.*1.

(** The messages of [field], in order. *)
Definition messages_of (pairs : list (str * str)) (field : str) : list str :=
  (filter (λ p, p.1 = field) pairs).*2.

Definition collect (pairs : list (str * str)) (e : ValidationErrors) : ValidationErrors :=
  foldl (λ e p, add p.1 p.2 e) e pairs.

(** What a collection of [pairs] holds. *)
Record holds (e : ValidationErrors) (pairs : list (str * str)) : Prop := {
  holds_order : order e = fields_in_order pairs;
  holds_nodup : NoDup (order e);
  holds_errors field : errors_of e !! field = if bool_decide (field ∈ pairs.*1) then Some (messages_of pairs field) else None;
  holds_fields field : field ∈ order e ↔ field ∈ pairs.*1;
}.

Lemma holds_new : holds ValidationErrors_new [].
Proof.
  split; [done|constructor| |set_solver].
  intros field. rewrite bool_decide_false; [done|set_solver].
Qed.

Lemma messages_of_none pairs field : field ∉ pairs.*1 → messages_of pairs field = [].
Proof.
  unfold messages_of. induction pairs as [|p pairs IH]; [done|]. rewrite fmap_cons. intros Hni.
  rewrite list.filter_cons_False by set_solver. apply IH. set_solver.
Qed.

Lemma holds_add e pairs field msg : holds e pairs → holds (add field msg e) (pairs ++ [(field, msg)]).
Proof.
  intros [Ho Hnd He Hf].
  assert (messages_of (pairs ++ [(field, msg)]) field = messages_of pairs field ++ [msg]) as Hsame.
  { unfold messages_of. rewrite list.filter_app, fmap_app, list.filter_cons_True by done. done. }
  assert (∀ g, g ≠ field → messages_of (pairs ++ [(field, msg)]) g = messages_of pairs g) as Hother.
  { intros g Hne. unfold messages_of. rewrite list.filter_app, list.filter_cons_False by (cbn; congruence).
    by rewrite list.filter_nil, app_nil_r. }
  assert (fields_in_order (pairs ++ [(field, msg)]) = note_field (fields_in_order pairs) field) as Hfields.
  { unfold fields_in_order. by rewrite fmap_app, foldl_app. }
  assert (order (add field msg e) = note_field (order e) field) as Hord.
  { unfold add, note_field. cbn [order]. rewrite He.
    rewrite (bool_decide_ext (field ∈ order e) (field ∈ pairs.*1)) by apply Hf. by case_bool_decide. }
  split.
  - by rewrite Hord, Hfields, Ho.
  - rewrite Hord. unfold note_field. case_bool_decide; [done|]. apply list.NoDup_app.
    split_and!; [done|set_solver|apply NoDup_singleton].
  - intros g. unfold add. cbn [errors_of]. rewrite fmap_app. destruct (decide (g = field)) as [->|Hne].
    + rewrite lookup_insert_eq, He, (bool_decide_true (field ∈ _ ++ _)) by set_solver. rewrite Hsame. f_equal.
      case_bool_decide as Hin; [done|]. by rewrite messages_of_none.
    + rewrite lookup_insert_ne, He, Hother by done.
      by rewrite (bool_decide_ext (g ∈ pairs.*1) (g ∈ pairs.*1 ++ [(field, msg)].*1)) by set_solver.
  - intros g. rewrite Hord, fmap_app. unfold note_field. case_bool_decide; set_solver.
Qed.

Lemma holds_collect e pairs pairs' : holds e pairs → holds (collect pairs' e) (pairs ++ pairs').
Proof.
  revert e pairs. induction pairs' as [|[field msg] pairs' IH]; intros e pairs He; cbn.
  - by rewrite app_nil_r.
  - rewrite cons_middle, app_assoc. by apply IH, holds_add.
Qed.

Lemma holds_iter e pairs :
  holds e pairs → iter e = (λ field, (field, messages_of pairs field)) <$> fields_in_order pairs.
Proof.
  intros [Ho _ He Hf]. unfold iter. rewrite <- Ho.
  assert (∀ l : list str, (∀ field, field ∈ l → field ∈ pairs.*1) →
    omap (λ field, pair field <$> errors_of e !! field) l
    = (λ field, (field, messages_of pairs field)) <$> l) as Hl.
  { intros l. induction l as [|field l IH]; intros Hin; [done|]. cbn.
    rewrite He, bool_decide_true by (apply Hin; by left). cbn. f_equal. apply IH.
    intros g Hg. apply Hin. by right. }
  apply Hl. intros field. apply Hf.
Qed.

(** The failures of a list of checks, in the order the rules are tried. *)
Definition failures `{Unicode} `{Numbers} (checks : list (str * Value * list ValidationRule))
  : list (str * str) :=
  checks ≫= λ '(field, v, rules),
    omap (λ rule, pair field <$> validate_rule v rule field) rules.

Lemma check_collects `{Unicode} `{Numbers} field v rules e :
  check field v rules e = collect (omap (λ rule, pair field <$> validate_rule v rule field) rules) e.
Proof.
  unfold check, collect. revert e. induction rules as [|rule rules IH]; intros e; [done|]. cbn.
  destruct (validate_rule v rule field); cbn; apply IH.
Qed.

(** Merging is collecting what the other holds. *)
Lemma merge_collects other e pairs :
  holds other pairs → merge other e = collect (errors other) e.
Proof.
  intros Hh. pose proof (holds_nodup _ _ Hh) as Hnd. unfold merge, errors, iter, collect.
  generalize (errors_of other) as map. generalize dependent (order other). clear Hh.
  intros l Hnd map. revert e map. induction Hnd as [|field l Hni _ IH]; intros e map; [done|].
  cbn [foldl]. rewrite IH. cbn [omap list_omap].
  assert (omap (λ field0, pair field0 <$> delete field map !! field0) l
          = omap (λ field0, pair field0 <$> map !! field0) l) as ->.
  { clear -Hni. induction l as [|g l IH]; [done|]. cbn.
    rewrite lookup_delete_ne by set_solver. rewrite IH by set_solver. done. }
  destruct (map !! field) as [msgs|]; cbn [default from_option]; [|done].
  cbn [fmap option_fmap option_map mbind list_bind]. rewrite foldl_app. f_equal.
  clear. revert e. induction msgs as [|msg msgs IH]; intros e; [done|]. cbn. apply IH.
Qed.

(** checking a model's fields reports every rule that fails and nothing else, the
    fields in the order of their first failure and each with its messages in the
    order of its rules; the result is an error exactly when some rule fails, and the
    error an operation raises is the first failure. Merging another collection adds
    its failures behind. *)
Theorem validation_reports_every_failure `{Unicode} `{Numbers} checks other pairs :
  let e := foldl (λ e '(field, v, rules), check field v rules e) ValidationErrors_new checks in
  iter e = (λ field, (field, messages_of (failures checks) field)) <$> fields_in_order (failures checks)
  ∧ (to_result e = Ok tt ↔ failures checks = [])
  ∧ (∀ p, head (failures checks) = Some p → validation_error e = p)
  ∧ (holds other pairs →
     iter (merge other e)
     = (λ field, (field, messages_of (failures checks ++ errors other) field))
       <$> fields_in_order (failures checks ++ errors other)).
Proof.
  intros e. assert (holds e (failures checks)) as He.
  { assert (∀ e0 pairs0, holds e0 pairs0 →
      holds (foldl (λ e '(field, v, rules), check field v rules e) e0 checks) (pairs0 ++ failures checks)) as Hgo.
    { unfold failures. clear e. induction checks as [|[[field v] rules] checks IH]; intros e0 pairs0 Hh; cbn.
      - by rewrite app_nil_r.
      - rewrite app_assoc. apply IH. rewrite check_collects. by apply holds_collect. }
    apply (Hgo ValidationErrors_new []), holds_new. }
  clearbody e. split_and!.
  - by apply holds_iter.
  - unfold to_result, is_empty. destruct (failures checks) as [|[field msg] l] eqn:El.
    + assert (errors_of e = ∅) as Hnone.
      { apply map_eq. intros field. rewrite (holds_errors _ _ He), lookup_empty. by rewrite bool_decide_false by set_solver. }
      by rewrite bool_decide_true.
    + rewrite bool_decide_false; [done|]. intros Hnone.
      pose proof (holds_errors _ _ He field) as Hf. rewrite Hnone, lookup_empty in Hf.
      rewrite bool_decide_true in Hf by (cbn; by left). done.
  - intros [field msg] Hp. destruct (failures checks) as [|? l] eqn:El; [done|]. injection Hp as ->.
    unfold validation_error, first. rewrite (holds_iter _ _ He).
    assert (∃ l', fields_in_order ((field, msg) :: l) = field :: l') as [l' ->].
    { unfold fields_in_order. rewrite fmap_cons. cbn [foldl fst].
      assert (note_field [] field = [field]) as -> by (unfold note_field; by rewrite bool_decide_false by set_solver).
      generalize ([] : list str) as acc. generalize (l.*1) as fs. clear.
      induction fs as [|f fs IH]; intros acc; cbn; [by eexists|]. unfold note_field at 2.
      case_bool_decide; apply IH. }
    assert (messages_of ((field, msg) :: l) field = msg :: messages_of l field) as Em.
    { unfold messages_of. by rewrite list.filter_cons_True. }
    rewrite fmap_cons, Em. done.
  - intros Ho. rewrite (merge_collects _ _ pairs Ho). by apply holds_iter, holds_collect.
Qed.

(** ** A demonstration *)

(** Numbers where the one decimal is 0.50 and float texts are integers. *)
#[export] Instance demo_numbers : Numbers := {|
  Decimal := unit;
  decimal_text := λ _, lit "0.50";
  decimal_f64 := λ _, Some (Finite 1 (-1));
  decimal_is_integral := λ _, false;
  decimal_i128 := λ _, None;
  parse_f64 := λ s, integer <$> parse_i128 s;
  f64_text := λ f, match f with Finite m _ => show_Z m | _ => lit "inf" end;
  f64_of_int := integer;
  to_f32 := λ f, f;
  regex := λ _, None;
  is_http_url := λ _, false;
  is_uuid := λ _, false;
|}.

#[export] Instance demo_decimals : DecimalLaws.
Proof.
  refine {| decimal_value := λ _, (50, -2)%Z |}; [| |done].
  - intros []. exists [], (lit "0"), (lit "."), (lit "50"), [], false, 0%Z.
    split_and!; [done|right; auto|by repeat constructor|by repeat constructor|done|by left|by left|done].
  - intros []. by vm_compute.
Defined.

#[local] Existing Instance ascii_only.

Definition half : @Decimal demo_numbers := tt.

Example checks_in_order :
  messages (check (lit "name") (VText (lit " ")) [Required; MinLength 2]
    (check (lit "age") (VInteger 17) [MinExact (lit "18")] ValidationErrors_new))
  = [lit "age: The age must be at least 18"; lit "name: The name field is required";
     lit "name: The name must be at least 2 characters"].
Proof. by vm_compute. Qed.

Lemma float_bounds_are_exact_witness :
  below_bound (VInteger 9007199254740993) (Finite 9007199254740992 0) = Some false
  ∧ above_bound (VInteger 9007199254740993) (Finite 9007199254740992 0) = Some true.
Proof.
  destruct (float_bounds_are_exact (VInteger 9007199254740993) 9007199254740993 (Finite 9007199254740992 0))
    as [Hbelow Habove].
  - reflexivity.
  - reflexivity.
  - split; [apply Hbelow; by intros [? _]|exact Habove].
Defined.

Lemma exact_bounds_are_exact_witness :
  outside_exact (VDecimal half) (lit "5e-1") true = false.
Proof.
  apply (exact_bounds_are_exact (VDecimal half) (50, -2)%Z (lit "5e-1") (5, -1)%Z true).
  - reflexivity.
  - exists [], (lit "5"), [], [], (lit "e-1"), false, (-1)%Z.
    split_and!; [done|right; auto|by repeat constructor|constructor|done|by right|right|done].
    by exists 101%N, (lit "-1").
  - by vm_compute.
Defined.
