(* ===== verification/QueryCache.v ===== *)
(** * The query cache

    src/src/cache/query_cache.rs, query_cache/control.rs and
    query_cache/config.rs, over the store of [CacheStore]. Every method runs
    under the cache's lock, so each is one state transition; [get] takes the lock
    up to three times and is given as its three phases, so that other threads'
    transitions can run between them, and as their composition.

    Parameters: [instant_max] is the platform's last instant, [to_vec] and
    [from_slice] are [serde_json]'s, the times [now] are [Instant::now()]. *)

From stdpp Require Import gmap.
From S2P Require Import Prelude Dialect MinHeap Toggle CacheStore JsonLoss.

Record CacheConfig := {
  cc_enabled : bool;
  max_entries : N;
  max_size_bytes : N;
  default_ttl : N;
  strategy : CacheStrategy;
  cache_empty_results : bool;
  key_prefix : option str;
}.

(** [CacheConfig::default()]; a [Duration] is nanoseconds. *)
Definition CacheConfig_default : CacheConfig :=
  {| cc_enabled := false; max_entries := 1000; max_size_bytes := 0;
     default_ttl := 60 * 1000000000; strategy := LRU; cache_empty_results := true;
     key_prefix := None |}.

#[export] Program Instance CacheConfig_switchable : Switchable CacheConfig := {|
  cfg_enabled := cc_enabled;
  cfg_set_enabled c b :=
    {| cc_enabled := b; max_entries := max_entries c; max_size_bytes := max_size_bytes c;
       default_ttl := default_ttl c; strategy := strategy c;
       cache_empty_results := cache_empty_results c; key_prefix := key_prefix c |};
|}.
Next Obligation. done. Qed.

Record QueryCache := {
  qc_config : Toggle CacheConfig;
  cache : CacheStore;
  order_counter : N;
  hits : N;
  misses : N;
  evictions : N;
  invalidations : N;
}.

(** [QueryCache::with_config]. *)
Definition with_config (c : CacheConfig) : QueryCache :=
  {| qc_config := Toggle_new c; cache := CacheStore_default; order_counter := 1;
     hits := 0; misses := 0; evictions := 0; invalidations := 0 |}.

Definition new : QueryCache := with_config CacheConfig_default.

(** Field assignments; [fetch_add] on the counters wraps at [u64]. *)
Definition fetch_add (x n : N) : N := ((x + n) mod 2 ^ 64)%N.

Definition set_config qc t : QueryCache :=
  {| qc_config := t; cache := cache qc; order_counter := order_counter qc; hits := hits qc;
     misses := misses qc; evictions := evictions qc; invalidations := invalidations qc |}.
Definition set_cache qc s : QueryCache :=
  {| qc_config := qc_config qc; cache := s; order_counter := order_counter qc; hits := hits qc;
     misses := misses qc; evictions := evictions qc; invalidations := invalidations qc |}.
(** [next_order]; the sequence does not wrap (2^64 stores or touches). *)
Definition bump_order qc : QueryCache :=
  {| qc_config := qc_config qc; cache := cache qc; order_counter := order_counter qc + 1;
     hits := hits qc; misses := misses qc; evictions := evictions qc;
     invalidations := invalidations qc |}.
Definition add_hits qc n : QueryCache :=
  {| qc_config := qc_config qc; cache := cache qc; order_counter := order_counter qc;
     hits := fetch_add (hits qc) n; misses := misses qc; evictions := evictions qc;
     invalidations := invalidations qc |}.
Definition add_misses qc n : QueryCache :=
  {| qc_config := qc_config qc; cache := cache qc; order_counter := order_counter qc;
     hits := hits qc; misses := fetch_add (misses qc) n; evictions := evictions qc;
     invalidations := invalidations qc |}.
Definition add_evictions qc n : QueryCache :=
  {| qc_config := qc_config qc; cache := cache qc; order_counter := order_counter qc;
     hits := hits qc; misses := misses qc; evictions := fetch_add (evictions qc) n;
     invalidations := invalidations qc |}.
Definition add_invalidations qc n : QueryCache :=
  {| qc_config := qc_config qc; cache := cache qc; order_counter := order_counter qc;
     hits := hits qc; misses := misses qc; evictions := evictions qc;
     invalidations := fetch_add (invalidations qc) n |}.

Definition qc_is_enabled (qc : QueryCache) : bool := is_enabled (qc_config qc).

(** [format!("{}:{}", table, query_hash)], after the prefix if there is one. *)
Definition generate_key (qc : QueryCache) (table : str) (query_hash : N) : str :=
  let prefix := default [] (key_prefix (config (qc_config qc))) in
  match prefix with
  | [] => table ++ lit ":" ++ show_N query_hash
  | _ => prefix ++ lit ":" ++ table ++ lit ":" ++ show_N query_hash
  end.

(** [data.windows(n)]. *)
Fixpoint windows (n : nat) (bytes : list N) : list (list N) :=
  match bytes with
  | [] => []
  | _ :: rest => if n <=? length bytes then take n bytes :: windows n rest else []
  end%nat.

(** What an invalidation of the global cache notes in the open transaction. *)
Inductive Note := NoteTable (table : str) | NoteAll | NoteDatabase (db : str).

Section query_cache.
Context (instant_max : N) (to_vec : Ser → result (list N) str).

Definition serialize_payload (value : Ser) : result (option (list N)) str :=
  match to_vec value with
  | Err e => Err e
  | Ok bytes =>
      if negb (existsb (λ w, str_eqb w (lit "null")) (windows 4 bytes)) then Ok (Some bytes)
      else
        match json_loss value with
        | Err e => Err e
        | Ok loss =>
            Ok (if negb (non_finite loss) && negb (null_in_some loss) then Some bytes else None)
        end
  end.

(** [evict_one]: what it does to the store, and whether it evicted. *)
Definition evict_one (qc : QueryCache) (st : CacheStrategy) : QueryCache * bool :=
  match evict (cache qc) st with
  | (s, Some _) => (add_evictions (set_cache qc s) 1, true)
  | (s, None) => (set_cache qc s, false)
  end.

(** [while cond { if !self.evict_one(..) { break } }]; every round but the last
    evicts an entry, so one more round than there are entries is enough. *)
Fixpoint evict_while (fuel : nat) (cond : CacheStore → bool) (st : CacheStrategy)
    (qc : QueryCache) : QueryCache :=
  match fuel with
  | O => qc
  | S fuel =>
      if cond (cache qc) then
        let '(qc, evicted) := evict_one qc st in
        if evicted then evict_while fuel cond st qc else qc
      else qc
  end.

Definition rounds (qc : QueryCache) : nat := S (size (entries (cache qc))).

(** The bytes that may be stored under the configuration, of those serialized. *)
Definition admissible (c : CacheConfig) (ttl : N) (bytes : list N) : bool :=
  negb (ttl =? 0)%N
  && (0 <? max_entries c)%N
  && (cache_empty_results c || negb (str_eqb bytes (lit "[]")))
  && ((max_size_bytes c =? 0)%N || (N.of_nat (length bytes) <=? max_size_bytes c)%N).

(** [store] once the value is serialized: the part under the write lock. *)
Definition store_locked (qc : QueryCache) (now : N) (key : str) (c : CacheConfig) (ttl : N)
    (tabs : gset str) (bytes : option (list N)) (fill_point : option FillPoint) : QueryCache :=
  if match fill_point with
     | Some point => invalidated_since (cache qc) point tabs
     | None => false
     end
  then qc
  else
    let '(s, replaced) := remove (cache qc) key in
    let qc := set_cache qc s in
    match bytes with
    | None => if replaced then add_invalidations qc 1 else qc
    | Some bytes =>
        let entry_size := N.of_nat (length bytes) in
        let entry := CacheEntry_new instant_max now bytes ttl tabs (order_counter qc) in
        let qc := bump_order qc in
        let entry := set_database entry (fill_point ≫= fill_database) in
        let qc := evict_while (rounds qc) (λ s, max_entries c <=? len s)%N (strategy c) qc in
        let qc := evict_while (rounds qc)
          (λ s, (0 <? max_size_bytes c) && (max_size_bytes c <? size_bytes s + entry_size))%N
          (strategy c) qc in
        set_cache qc (insert (cache qc) key entry)
    end.

Definition serialize_error (e : str) : str := lit "Failed to serialize cache value: " ++ e.

Definition store (qc : QueryCache) (now : N) (key : str) (value : Ser) (ttl : option N)
    (tabs : list str) (fill_point : option FillPoint) : QueryCache * result unit str :=
  if negb (qc_is_enabled qc) then (qc, Ok tt)
  else
    let tabs := list_to_set (to_ascii_lowercase <$> tabs) : gset str in
    match serialize_payload value with
    | Err e => (qc, Err (serialize_error e))
    | Ok bytes =>
        let c := config (qc_config qc) in
        let ttl := default (default_ttl c) ttl in
        let bytes := b ← bytes; if admissible c ttl b then Some b else None in
        (store_locked qc now key c ttl tabs bytes fill_point, Ok tt)
    end.

Definition set (qc : QueryCache) (now : N) (key : str) (value : Ser) (ttl : option N)
    (model_name : str) : QueryCache * result unit str :=
  store qc now key value ttl [model_name] None.

Definition set_tagged (qc : QueryCache) (now : N) (key : str) (value : Ser) (ttl : option N)
    (tabs : list str) : QueryCache * result unit str :=
  store qc now key value ttl tabs None.

Definition fill_point_for_database (qc : QueryCache) (db : option str) : FillPoint :=
  {| sequence := invalidation_seq (cache qc); fill_database := db |}.

Definition fill_tagged (qc : QueryCache) (now : N) (point : FillPoint) (key : str) (value : Ser)
    (ttl : option N) (tabs : list str) : QueryCache * result unit str :=
  store qc now key value ttl tabs (Some point).

(** [get] under the read lock: the strategy it saw, and the payload, or [None]
    to go on with the write lock; or the answer. *)
Inductive GetRead := GetDone | GetGoOn (st : CacheStrategy) (payload : option Arc).

Definition get_read (qc : QueryCache) (now : N) (key : str) : QueryCache * GetRead :=
  if negb (qc_is_enabled qc) then (qc, GetDone)
  else
    let st := strategy (config (qc_config qc)) in
    match get (cache qc) key with
    | None => (add_misses qc 1, GetDone)
    | Some e =>
        (qc, GetGoOn st
               (if negb (is_expired now e) && bool_decide (st ≠ LRU) then Some (data e) else None))
    end.

(** [get] under the write lock, for an LRU touch or an expired entry. *)
Definition get_write (qc : QueryCache) (now : N) (st : CacheStrategy) (key : str)
    : QueryCache * option Arc :=
  match get (cache qc) key with
  | Some e =>
      if is_expired now e then (set_cache qc (remove (cache qc) key).1, None)
      else if bool_decide (st = LRU) then
        let '(s, payload) := touch (cache qc) key (order_counter qc) in
        (bump_order (set_cache qc s), payload)
      else (qc, Some (data e))
  | None => (qc, None)
  end.

(** [get] once it has the payload, or has none. *)
Definition get_settle {T} (from_slice : list N → option T) (qc : QueryCache) (key : str)
    (payload : option Arc) : QueryCache * option T :=
  match payload with
  | None => (add_misses qc 1, None)
  | Some payload =>
      match from_slice (arc_bytes payload) with
      | Some value => (add_hits qc 1, Some value)
      | None =>
          let qc := add_misses qc 1 in
          if match get (cache qc) key with
             | Some e => ptr_eq (data e) payload
             | None => false
             end
          then (set_cache qc (remove (cache qc) key).1, None)
          else (qc, None)
      end
  end.

(** [get] with no other thread in between. *)
Definition qc_get {T} (from_slice : list N → option T) (qc : QueryCache) (now : N) (key : str)
    : QueryCache * option T :=
  match get_read qc now key with
  | (qc, GetDone) => (qc, None)
  | (qc, GetGoOn _ (Some payload)) => get_settle from_slice qc key (Some payload)
  | (qc, GetGoOn st None) =>
      let '(qc, payload) := get_write qc now st key in
      get_settle from_slice qc key payload
  end.

Definition invalidate (qc : QueryCache) (key : str) : QueryCache * bool :=
  match remove (cache qc) key with
  | (s, Some _) => (add_invalidations (set_cache qc s) 1, true)
  | (s, None) => (set_cache qc s, false)
  end.

(** The notes are recorded when this is the global cache. *)
Definition invalidate_model (is_global : bool) (qc : QueryCache) (model_name : str)
    : QueryCache * list Note :=
  let model_name := to_ascii_lowercase model_name in
  let '(s, removed) :=
    remove_where (note_invalidated (cache qc) model_name) (λ e, reads_table e model_name) in
  (add_invalidations (set_cache qc s) removed,
   if is_global then [NoteTable model_name] else []).

Definition qc_clear (is_global : bool) (qc : QueryCache) : QueryCache * list Note :=
  let '(s, removed) := clear (cache qc) in
  (add_invalidations (set_cache qc s) removed, if is_global then [NoteAll] else []).

Definition invalidate_database (is_global : bool) (qc : QueryCache) (db : str)
    : QueryCache * list Note :=
  let '(s, removed) :=
    remove_where (note_database_invalidated (cache qc) db)
      (λ e, match database e with None => true | Some scope => str_eqb scope db end) in
  (add_invalidations (set_cache qc s) removed,
   if is_global then [NoteDatabase db] else []).

Definition evict_expired (qc : QueryCache) (now : N) : QueryCache :=
  let '(s, removed) := remove_where (cache qc) (is_expired now) in
  add_evictions (set_cache qc s) removed.

Definition contains (qc : QueryCache) (now : N) (key : str) : bool :=
  match get (cache qc) key with Some e => negb (is_expired now e) | None => false end.

Record CacheStats := {
  st_hits : N; st_misses : N; st_entries : N; st_size_bytes : N;
  st_evictions : N; st_invalidations : N;
}.

Definition stats (qc : QueryCache) : CacheStats :=
  {| st_hits := hits qc; st_misses := misses qc; st_entries := len (cache qc);
     st_size_bytes := size_bytes (cache qc); st_evictions := evictions qc;
     st_invalidations := invalidations qc |}.

Definition reset_stats (qc : QueryCache) : QueryCache :=
  {| qc_config := qc_config qc; cache := cache qc; order_counter := order_counter qc;
     hits := 0; misses := 0; evictions := 0; invalidations := 0 |}.

Definition apply_config (qc : QueryCache) (c : CacheConfig) : QueryCache :=
  set_config qc (apply (qc_config qc) c).

Definition enable (qc : QueryCache) : QueryCache := set_config qc (set_enabled (qc_config qc) true).
Definition disable (qc : QueryCache) : QueryCache := set_config qc (set_enabled (qc_config qc) false).

(** The settings written in place: [set_max_entries], [set_max_size_bytes],
    [set_default_ttl], [set_strategy], [set_cache_empty_results]. *)
Inductive Setting :=
  | MaxEntries (max : N) | MaxSizeBytes (max : N) | DefaultTtl (ttl : N)
  | Strategy (st : CacheStrategy) | CacheEmptyResults (b : bool).

Definition update_config (setting : Setting) (c : CacheConfig) : CacheConfig :=
  {| cc_enabled := cc_enabled c;
     max_entries := match setting with MaxEntries n => n | _ => max_entries c end;
     max_size_bytes := match setting with MaxSizeBytes n => n | _ => max_size_bytes c end;
     default_ttl := match setting with DefaultTtl n => n | _ => default_ttl c end;
     strategy := match setting with Strategy st => st | _ => strategy c end;
     cache_empty_results :=
       match setting with CacheEmptyResults b => b | _ => cache_empty_results c end;
     key_prefix := key_prefix c |}.

Definition set_setting (qc : QueryCache) (setting : Setting) : QueryCache :=
  set_config qc (write (qc_config qc) (update_config setting)).

End query_cache.

(** ** The eviction loops *)

(** What the eviction loops leave alone. *)
Definition same_frame (qc qc' : QueryCache) : Prop :=
  qc_config qc' = qc_config qc ∧ order_counter qc' = order_counter qc
  ∧ history (cache qc') = history (cache qc).

#[export] Instance same_frame_preorder : PreOrder same_frame.
Proof.
  split; [done|]. intros x y z (? & ? & ?) (? & ? & ?). split_and!; congruence.
Qed.

Lemma evict_one_spec qc st :
  store_wf (cache qc) →
  let '(qc', evicted) := evict_one qc st in
  same_frame qc qc' ∧ store_wf (cache qc') ∧
  if evicted
  then entries (cache qc') ⊂ entries (cache qc)
  else entries (cache qc) = ∅ ∧ entries (cache qc') = ∅.
Proof.
  intros Hw. unfold evict_one.
  pose proof (evict_history (cache qc) st) as Hh. pose proof (evict_wf _ st Hw) as Hw'.
  destruct (decide (entries (cache qc) = ∅)) as [He|He].
  - destruct (evict_empty _ st Hw He) as [H1 H2].
    destruct (evict (cache qc) st) as [s o]. cbn in *. subst. done.
  - destruct (evict_spec _ st Hw He) as (k & e & [Hk _] & H1 & H2 & _).
    destruct (evict (cache qc) st) as [s o]. cbn in *. subst o. split_and!; try done. cbn.
    rewrite H2. by eapply delete_subset.
Qed.

Lemma evict_while_spec fuel cond st qc :
  store_wf (cache qc) → size (entries (cache qc)) < fuel →
  let qc' := evict_while fuel cond st qc in
  same_frame qc qc' ∧ store_wf (cache qc')
  ∧ entries (cache qc') ⊆ entries (cache qc)
  ∧ (cond (cache qc') = false ∨ entries (cache qc') = ∅).
Proof.
  revert qc. induction fuel as [|fuel IH]; intros qc Hw Hf; [lia|]. cbn.
  destruct (cond (cache qc)) eqn:Ec; [|by split_and!; [done|done|done|left]].
  pose proof (evict_one_spec qc st Hw) as Ho. destruct (evict_one qc st) as [qc1 [|]].
  - destruct Ho as (Hs & Hw1 & Hsub). pose proof (map_subset_size _ _ Hsub) as Hlt.
    destruct (IH qc1 Hw1 ltac:(lia)) as (Hs1 & Hw2 & Hsub1 & Hc).
    split_and!; [by transitivity qc1|done| |done].
    transitivity (entries (cache qc1)); [done|]. apply Hsub.
  - destruct Ho as (? & ? & He & He'). split_and!; try done; [|by right]. by rewrite He, He'.
Qed.

(** The room [store] makes for an entry of [n] bytes. *)
Definition make_room (c : CacheConfig) (n : N) (qc : QueryCache) : QueryCache :=
  let qc := evict_while (rounds qc) (λ s, max_entries c <=? len s)%N (strategy c) qc in
  evict_while (rounds qc)
    (λ s, (0 <? max_size_bytes c) && (max_size_bytes c <? size_bytes s + n))%N (strategy c) qc.

(** Entries that are some of [es], up to when they were used, are no more and no
    larger. *)
Lemma sizes_le (es es' : gmap str CacheEntry) :
  (∀ k e, es' !! k = Some e → ∃ e0, es !! k = Some e0 ∧ data e = data e0) →
  size es' ≤ size es ∧ (total_size es' ≤ total_size es)%N.
Proof.
  revert es. induction es' as [|k e es' Hk IH] using map_ind; intros es Hs.
  { rewrite total_size_empty, map_size_empty. lia. }
  destruct (Hs k e (lookup_insert_eq _ _ _)) as (e0 & He0 & Hd).
  destruct (IH (delete k es)) as [IH1 IH2].
  { intros k' e' Hk'. assert (k' ≠ k) by congruence. rewrite lookup_delete_ne by done.
    apply Hs. by rewrite lookup_insert_ne. }
  rewrite (total_size_insert _ _ _ Hk), (total_size_delete es k e0 He0).
  assert (data_len e = data_len e0) as -> by (unfold data_len; by rewrite Hd).
  rewrite (map_size_insert_None _ _ _ Hk). rewrite map_size_delete_Some in IH1 by eauto.
  assert (size es ≠ 0) by (rewrite map_size_non_empty_iff; intros ->; by rewrite lookup_empty in He0).
  lia.
Qed.

(** The store is inside the configured bounds. *)
Definition fits (c : CacheConfig) (s : CacheStore) : Prop :=
  (len s ≤ max_entries c)%N ∧ (max_size_bytes c = 0 ∨ size_bytes s ≤ max_size_bytes c)%N.

Lemma make_room_spec c n qc :
  store_wf (cache qc) → (0 < max_entries c)%N →
  (max_size_bytes c = 0 ∨ n ≤ max_size_bytes c)%N →
  let qc' := make_room c n qc in
  same_frame qc qc' ∧ store_wf (cache qc') ∧ entries (cache qc') ⊆ entries (cache qc)
  ∧ (len (cache qc') < max_entries c)%N
  ∧ (max_size_bytes c = 0 ∨ size_bytes (cache qc') + n ≤ max_size_bytes c)%N.
Proof.
  intros Hw Hm Hn. unfold make_room.
  set (qc1 := evict_while (rounds qc) _ _ qc).
  destruct (evict_while_spec (rounds qc) (λ s, max_entries c <=? len s)%N (strategy c) qc Hw
    ltac:(unfold rounds; lia)) as (Hf1 & Hw1 & Hs1 & Hc1). fold qc1 in Hf1, Hw1, Hs1, Hc1.
  set (cond2 := λ s, _). set (qc2 := evict_while _ cond2 _ qc1).
  destruct (evict_while_spec (rounds qc1) cond2 (strategy c) qc1 Hw1
    ltac:(unfold rounds; lia)) as (Hf2 & Hw2 & Hs2 & Hc2). fold qc2 in Hf2, Hw2, Hs2, Hc2.
  split_and!; [by transitivity qc1|done|by transitivity (entries (cache qc1))| |].
  - assert (len (cache qc1) < max_entries c)%N.
    { destruct Hc1 as [Hc1|Hc1]; [cbv beta in Hc1; lia|]. unfold len. rewrite Hc1, map_size_empty. lia. }
    pose proof (map_subseteq_size _ _ Hs2). unfold len in *. lia.
  - destruct Hc2 as [Hc2|Hc2]; [unfold cond2 in Hc2; cbv beta in Hc2; lia|].
    rewrite (idx_size _ (proj1 Hw2)), Hc2, total_size_empty. lia.
Qed.

(** ** [store] *)

(** The entry [store] makes. *)
Definition new_entry (instant_max : N) (qc : QueryCache) (now : N) (bytes : list N) (ttl : N)
    (tabs : gset str) (fill_point : option FillPoint) : CacheEntry :=
  set_database (CacheEntry_new instant_max now bytes ttl tabs (order_counter qc))
    (fill_point ≫= fill_database).

Definition stale (qc : QueryCache) (fill_point : option FillPoint) (tabs : gset str) : bool :=
  match fill_point with
  | Some point => invalidated_since (cache qc) point tabs
  | None => false
  end.

Section store.
Context (instant_max : N).

Lemma store_locked_stale qc now key c ttl tabs bytes fp :
  stale qc fp tabs = true → store_locked instant_max qc now key c ttl tabs bytes fp = qc.
Proof. unfold store_locked, stale. by intros ->. Qed.

(** A value that may not be cached takes the old entry away. *)
Lemma store_locked_reject qc now key c ttl tabs fp :
  stale qc fp tabs = false →
  let qc' := store_locked instant_max qc now key c ttl tabs None fp in
  same_frame qc qc' ∧ cache qc' = (remove (cache qc) key).1
  ∧ invalidations qc' = match entries (cache qc) !! key with
                        | Some _ => fetch_add (invalidations qc) 1
                        | None => invalidations qc
                        end.
Proof.
  unfold store_locked, stale. intros ->. pose proof (remove_history (cache qc) key) as Hh.
  pose proof (remove_snd (cache qc) key) as Hr. destruct (remove (cache qc) key) as [s r].
  cbn in Hr, Hh. subst r. by destruct (entries (cache qc) !! key).
Qed.

(** A value that may be cached is, inside the bounds, in place of the old one and
    of entries evicted for it. *)
Lemma store_locked_accept qc now key c ttl tabs bytes fp :
  store_wf (cache qc) → stale qc fp tabs = false → admissible c ttl bytes = true →
  let qc' := store_locked instant_max qc now key c ttl tabs (Some bytes) fp in
  ∃ kept,
    kept ⊆ delete key (entries (cache qc))
    ∧ entries (cache qc')
      = <[key := new_entry instant_max qc now bytes ttl tabs fp]> kept
    ∧ fits c (cache qc') ∧ store_wf (cache qc')
    ∧ qc_config qc' = qc_config qc ∧ order_counter qc' = (order_counter qc + 1)%N
    ∧ history (cache qc') = history (cache qc).
Proof.
  intros Hw Hs Ha. unfold store_locked. unfold stale in Hs. rewrite Hs. cbn.
  pose proof (remove_wf _ key Hw) as Hw0. pose proof (remove_history (cache qc) key) as Hh0.
  pose proof (remove_entries (cache qc) key) as He0.
  destruct (remove (cache qc) key) as [s0 r]. cbn in Hw0, He0, Hh0.
  change (order_counter (set_cache qc s0)) with (order_counter qc).
  fold (new_entry instant_max qc now bytes ttl tabs fp).
  set (e := new_entry _ _ _ _ _ _ _). set (qc0 := bump_order (set_cache qc s0)).
  fold (make_room c (N.of_nat (length bytes)) qc0).
  unfold admissible in Ha.
  destruct (make_room_spec c (N.of_nat (length bytes)) qc0 Hw0 ltac:(lia) ltac:(lia))
    as ((Hf1 & Hf2 & Hf3) & Hw1 & Hs1 & Hl & Hz).
  set (qc1 := make_room _ _ _) in *. pose proof (insert_wf _ key e Hw1) as Hw2.
  assert (entries (insert (cache qc1) key e) = <[key := e]> (entries (cache qc1))) as He.
  { unfold insert. by rewrite maybe_rebuild_entries. }
  exists (entries (cache qc1)). rewrite <- He0.
  assert (entries (cache qc1) !! key = None) as Hn.
  { destruct (entries (cache qc1) !! key) eqn:E; [|done].
    pose proof (lookup_weaken _ _ _ _ E Hs1) as Hx. cbn in Hx.
    rewrite He0, lookup_delete_eq in Hx. done. }
  split_and!; try done.
  - change (fits c (insert (cache qc1) key e)). unfold fits, len.
    rewrite (idx_size _ (proj1 Hw2)), He.
    rewrite map_size_insert_None, total_size_insert by done.
    rewrite <- (idx_size _ (proj1 Hw1)). unfold len in Hl.
    change (data_len e) with (N.of_nat (length bytes)). lia.
  - cbn [set_cache cache]. rewrite insert_history. etrans; [exact Hf3|done].
Qed.
Context (to_vec : Ser → result (list N) str).

(** What [store] can do: nothing, take the old entry away, or store the value. *)
Lemma store_outcome qc now key value ttl tabs fp :
  store_wf (cache qc) →
  let qc' := (store instant_max to_vec qc now key value ttl tabs fp).1 in
  let tags := list_to_set (to_ascii_lowercase <$> tabs) in
  let c := config (qc_config qc) in
  qc' = qc
  ∨ (same_frame qc qc' ∧ cache qc' = (remove (cache qc) key).1)
  ∨ ∃ bytes kept,
      kept ⊆ delete key (entries (cache qc))
      ∧ entries (cache qc')
        = <[key := new_entry instant_max qc now bytes (default (default_ttl c) ttl) tags fp]> kept
      ∧ fits c (cache qc') ∧ store_wf (cache qc')
      ∧ qc_config qc' = qc_config qc ∧ order_counter qc' = (order_counter qc + 1)%N
      ∧ history (cache qc') = history (cache qc).
Proof.
  intros Hw. unfold store. destruct (negb _); [by left|].
  destruct (serialize_payload to_vec value) as [bytes|]; [|by left]. cbn.
  set (tags := list_to_set _). set (c := config _). set (t := default _ ttl).
  destruct (stale qc fp tags) eqn:Es; [left; by apply store_locked_stale|right].
  destruct (bytes ≫= _) as [b|] eqn:Eb.
  - right. exists b. apply store_locked_accept; [done|done|].
    destruct bytes as [b'|]; cbn in Eb; [|done].
    by destruct (admissible c t b') eqn:?; simplify_eq.
  - left. by destruct (store_locked_reject qc now key c t tags fp Es) as (? & ? & _).
Qed.

(** A value that may be cached is stored, unless its read is stale. *)
Lemma store_accepts qc now key value ttl tabs fp bytes :
  let tags := list_to_set (to_ascii_lowercase <$> tabs) in
  let c := config (qc_config qc) in
  let t := default (default_ttl c) ttl in
  store_wf (cache qc) → qc_is_enabled qc = true → stale qc fp tags = false →
  serialize_payload to_vec value = Ok (Some bytes) → admissible c t bytes = true →
  let qc' := (store instant_max to_vec qc now key value ttl tabs fp).1 in
  entries (cache qc') !! key = Some (new_entry instant_max qc now bytes t tags fp)
  ∧ store_wf (cache qc') ∧ qc_config qc' = qc_config qc.
Proof.
  intros tags c t Hw He Hst Hs Ha. unfold store. rewrite He, Hs. cbn. fold tags c t.
  rewrite Ha.
  destruct (store_locked_accept qc now key c t tags bytes fp Hw Hst Ha)
    as (kept & _ & -> & _ & ? & ? & _).
  split_and!; [apply lookup_insert_eq|done|done].
Qed.
End store.

(** ** Interleavings *)

(** One transition under the cache's lock, by any thread; the phases of [get]
    are transitions of their own. *)
Inductive QOp :=
  | QStore (now : N) (key : str) (value : Ser) (ttl : option N) (tabs : list str)
      (fill_point : option FillPoint)
  | QGetRead (now : N) (key : str)
  | QGetWrite (now : N) (st : CacheStrategy) (key : str)
  | QGetSettle (key : str) (payload : option Arc) (parses : bool)
  | QInvalidate (key : str)
  | QInvalidateModel (model_name : str)
  | QClear
  | QInvalidateDatabase (db : str)
  | QEvictExpired (now : N)
  | QResetStats
  | QApplyConfig (c : CacheConfig)
  | QSetEnabled (b : bool)
  | QSetting (setting : Setting).

(** [op] changes the configuration. *)
Definition configures (op : QOp) : bool :=
  match op with QApplyConfig _ | QSetting _ => true | _ => false end.

Section interleavings.
Context (instant_max : N) (to_vec : Ser → result (list N) str).

Definition q_step (qc : QueryCache) (op : QOp) : QueryCache :=
  match op with
  | QStore now key value ttl tabs fp => (store instant_max to_vec qc now key value ttl tabs fp).1
  | QGetRead now key => (get_read qc now key).1
  | QGetWrite now st key => (get_write qc now st key).1
  | QGetSettle key payload parses =>
      (get_settle (λ _, if parses then Some tt else None) qc key payload).1
  | QInvalidate key => (invalidate qc key).1
  | QInvalidateModel m => (invalidate_model true qc m).1
  | QClear => (qc_clear true qc).1
  | QInvalidateDatabase db => (invalidate_database true qc db).1
  | QEvictExpired now => evict_expired qc now
  | QResetStats => reset_stats qc
  | QApplyConfig c => apply_config qc c
  | QSetEnabled b => if b then enable qc else disable qc
  | QSetting setting => set_setting qc setting
  end.

Definition q_run : QueryCache → list QOp → QueryCache := foldl q_step.

(** The same entry, up to when it was last used. *)
Definition same_entry (e e' : CacheEntry) : Prop :=
  data e' = data e ∧ expires_at e' = expires_at e ∧ tables e' = tables e
  ∧ database e' = database e ∧ insert_order e' = insert_order e.

(** A transition that keeps entries or drops them. *)
Record shrinks (qc qc' : QueryCache) : Prop := {
  shrink_wf : store_wf (cache qc');
  shrink_order : (order_counter qc ≤ order_counter qc')%N;
  shrink_entry k e : entries (cache qc') !! k = Some e →
    ∃ e0, entries (cache qc) !! k = Some e0 ∧ same_entry e0 e;
}.

(** A transition that may also make an entry, with a new payload. *)
Record grows (qc qc' : QueryCache) : Prop := {
  grow_wf : store_wf (cache qc');
  grow_order : (order_counter qc ≤ order_counter qc')%N;
  grow_entry k e : entries (cache qc') !! k = Some e →
    (∃ e0, entries (cache qc) !! k = Some e0 ∧ same_entry e0 e)
    ∨ (order_counter qc ≤ arc_addr (data e) < order_counter qc')%N;
}.

Lemma shrinks_grows qc qc' : shrinks qc qc' → grows qc qc'.
Proof. intros [??]. split; auto. Qed.

Lemma shrinks_subset qc qc' :
  store_wf (cache qc') → (order_counter qc ≤ order_counter qc')%N →
  entries (cache qc') ⊆ entries (cache qc) → shrinks qc qc'.
Proof.
  intros Hw Ho Hs. split; [done|done|]. intros k e Hk. exists e.
  split; [by eapply lookup_weaken|done].
Qed.

Lemma shrinks_same qc qc' :
  store_wf (cache qc) → order_counter qc' = order_counter qc → cache qc' = cache qc →
  shrinks qc qc'.
Proof. intros Hw Ho Hc. apply shrinks_subset; rewrite ?Hc, ?Ho; [done|lia|done]. Qed.

Lemma remove_where_subset s p : entries (remove_where s p).1 ⊆ entries s.
Proof. rewrite remove_where_entries. apply map_filter_subseteq. Qed.

Lemma remove_subset s k : entries (remove s k).1 ⊆ entries s.
Proof. rewrite remove_entries. apply delete_subseteq. Qed.

Lemma store_grows qc now key value ttl tabs fp :
  store_wf (cache qc) → grows qc (store instant_max to_vec qc now key value ttl tabs fp).1.
Proof.
  intros Hw. destruct (store_outcome instant_max to_vec qc now key value ttl tabs fp Hw)
    as [->|[((_ & Ho & _) & Hc)|(b & kept & Hk & He & _ & Hw' & _ & Ho & _)]].
  - by apply shrinks_grows, shrinks_same.
  - apply shrinks_grows, shrinks_subset; rewrite ?Hc, ?Ho;
      [by apply remove_wf|lia|apply remove_subset].
  - split; [done|lia|]. intros k e. rewrite He, Ho.
    intros [[-> <-]|[_ Hl]]%lookup_insert_Some; [right; cbn; lia|].
    left. exists e. split; [|done]. eapply lookup_weaken; [exact Hl|].
    etrans; [exact Hk|apply delete_subseteq].
Qed.

Lemma get_write_shrinks qc now st key :
  store_wf (cache qc) → shrinks qc (get_write qc now st key).1.
Proof.
  intros Hw. unfold get_write, get. destruct (entries (cache qc) !! key) as [e|] eqn:E;
    [|by apply shrinks_same].
  destruct (is_expired now e).
  { apply shrinks_subset; cbn; [by apply remove_wf|lia|apply remove_subset]. }
  case_bool_decide; [|by apply shrinks_same].
  pose proof (touch_wf _ key (order_counter qc) Hw) as Hw'. unfold touch in *. rewrite E in *.
  split; cbn [fst cache bump_order set_cache order_counter]; [done|lia|].
  rewrite maybe_rebuild_entries. cbn. intros k e' [[-> <-]|[_ Hl]]%lookup_insert_Some;
    [by exists e|by exists e'].
Qed.

Lemma get_settle_shrinks {T} (from_slice : list N → option T) qc key payload :
  store_wf (cache qc) → shrinks qc (get_settle from_slice qc key payload).1.
Proof.
  intros Hw. unfold get_settle. destruct payload as [p|]; [|by apply shrinks_same].
  destruct (from_slice _); [by apply shrinks_same|].
  match goal with |- context [if ?b then (set_cache _ _, _) else _] => destruct b end;
    [|by apply shrinks_same].
  apply shrinks_subset; cbn; [by apply remove_wf|lia|apply remove_subset].
Qed.

(** The invalidations note the event and remove entries. *)
Lemma invalidation_shrinks qc s p n :
  store_wf s → entries s = entries (cache qc) →
  shrinks qc (add_invalidations (set_cache qc (remove_where s p).1) n).
Proof.
  intros Hw He. apply shrinks_subset; cbn [cache add_invalidations set_cache order_counter].
  - by apply remove_where_wf.
  - lia.
  - rewrite <- He. apply remove_where_subset.
Qed.

(** [store] alone makes entries. *)
Definition stores (op : QOp) : bool :=
  match op with QStore _ _ _ _ _ _ => true | _ => false end.

Lemma q_step_shrinks qc op :
  store_wf (cache qc) → stores op = false → shrinks qc (q_step qc op).
Proof.
  intros Hw Hs. destruct op; cbn [q_step]; [done|..].
  - unfold get_read. destruct (negb _); [by apply shrinks_same|].
    destruct (get _ _); by apply shrinks_same.
  - by apply get_write_shrinks.
  - by apply get_settle_shrinks.
  - unfold invalidate. pose proof (remove_wf _ key Hw) as Hw'.
    pose proof (remove_subset (cache qc) key). destruct (remove _ _) as [s [e|]];
      (apply shrinks_subset; cbn; [done|lia|done]).
  - unfold invalidate_model. set (m := to_ascii_lowercase _).
    rewrite (surjective_pairing (remove_where _ _)).
    apply invalidation_shrinks; [by apply set_history_wf|done].
  - apply shrinks_subset; cbn; [apply clear_wf|lia|apply map_empty_subseteq].
  - unfold invalidate_database. rewrite (surjective_pairing (remove_where _ _)).
    apply invalidation_shrinks; [by apply set_history_wf|done].
  - unfold evict_expired. rewrite (surjective_pairing (remove_where _ _)).
    apply shrinks_subset; cbn [cache add_evictions set_cache order_counter];
      [by apply remove_where_wf|lia|apply remove_where_subset].
  - by apply shrinks_same.
  - by apply shrinks_same.
  - destruct b; by apply shrinks_same.
  - by apply shrinks_same.
Qed.

Lemma q_step_grows qc op : store_wf (cache qc) → grows qc (q_step qc op).
Proof.
  intros Hw. destruct (stores op) eqn:E.
  - destruct op; try done. by apply store_grows.
  - by apply shrinks_grows, q_step_shrinks.
Qed.

Lemma shrinks_fits c qc qc' :
  store_wf (cache qc) → shrinks qc qc' → fits c (cache qc) → fits c (cache qc').
Proof.
  intros Hw [Hw' _ He] [Hl Hz]. unfold fits, len in *.
  destruct (sizes_le (entries (cache qc)) (entries (cache qc'))) as [??].
  { intros k e Hk. destruct (He k e Hk) as (e0 & ? & ? & _). eauto. }
  rewrite (idx_size _ (proj1 Hw)) in Hz. rewrite (idx_size _ (proj1 Hw')). lia.
Qed.

(** The settings but [enabled]. *)
Definition settings (qc : QueryCache) : CacheConfig :=
  cfg_set_enabled (config (qc_config qc)) false.

Lemma store_config qc now key value ttl tabs fp :
  store_wf (cache qc) →
  qc_config (store instant_max to_vec qc now key value ttl tabs fp).1 = qc_config qc
  ∧ (fits (config (qc_config qc)) (cache qc) →
     fits (config (qc_config qc)) (cache (store instant_max to_vec qc now key value ttl tabs fp).1)).
Proof.
  intros Hw. destruct (store_outcome instant_max to_vec qc now key value ttl tabs fp Hw)
    as [->|[((Hc & Ho & _) & Hc')|(b & kept & Hk & He & Hf & Hw' & Hc & Ho & _)]]; [done| |done].
  split; [done|]. apply shrinks_fits; [done|].
  apply shrinks_subset; rewrite ?Hc', ?Ho; [by apply remove_wf|lia|apply remove_subset].
Qed.

Lemma q_step_settings qc op :
  store_wf (cache qc) → configures op = false → settings (q_step qc op) = settings qc.
Proof.
  intros Hw Hc. unfold settings.
  assert (∀ qc', qc_config qc' = qc_config qc →
    cfg_set_enabled (config (qc_config qc')) false
    = cfg_set_enabled (config (qc_config qc)) false) as Hq by by intros ? ->.
  destruct op; cbn [q_step]; try done; try (by destruct b); try apply Hq.
  - by apply store_config.
  - unfold get_read. destruct (negb _); [done|]. by destruct (get _ _).
  - unfold get_write. destruct (get _ _); [|done]. destruct (is_expired _ _); [done|].
    case_bool_decide; [|done]. by destruct (touch _ _ _).
  - unfold get_settle. destruct payload; [|done]. destruct parses; [done|]. by case_match.
  - unfold invalidate. by destruct (remove _ _) as [? [?|]].
Qed.

Lemma q_step_fits qc op :
  store_wf (cache qc) → configures op = false →
  fits (settings qc) (cache qc) → fits (settings (q_step qc op)) (cache (q_step qc op)).
Proof.
  intros Hw Hc Hf. rewrite q_step_settings by done. destruct (stores op) eqn:E.
  - destruct op; try done. by apply store_config.
  - by eapply shrinks_fits, Hf; [|apply q_step_shrinks].
Qed.

Lemma q_run_wf qc ops : store_wf (cache qc) → store_wf (cache (q_run qc ops)).
Proof.
  revert qc. induction ops as [|op ops IH]; intros qc Hw; [done|].
  by apply IH, (grow_wf qc), q_step_grows.
Qed.

(** C18: whatever threads do, as long as they do not change the settings, the
    cache never holds more than [max_entries] entries, nor more than
    [max_size_bytes] bytes of payload when that budget is set, and the reported
    byte count is the true one. *)
Theorem cache_stays_within_bounds c ops :
  forallb (negb ∘ configures) ops = true →
  let qc := q_run (with_config c) ops in
  (st_entries (stats qc) ≤ max_entries c)%N
  ∧ (max_size_bytes c = 0 ∨ st_size_bytes (stats qc) ≤ max_size_bytes c)%N
  ∧ st_size_bytes (stats qc) = total_size (entries (cache qc)).
Proof.
  intros Hops qc.
  assert (fits (settings qc) (cache qc) ∧ settings qc = settings (with_config c)) as [[Hl Hz] Hs].
  { unfold qc. assert (fits (settings (with_config c)) (cache (with_config c))) as Hf.
    { split; cbn; [unfold len; cbn; rewrite map_size_empty; lia|lia]. }
    revert Hf. pose proof (default_wf : store_wf (cache (with_config c))) as Hw. revert Hw Hops.
    clear qc. generalize (with_config c) as qc. induction ops as [|op ops IH]; [done|].
    cbn [forallb]. intros qc Hw [Hop Hops]%andb_true_iff Hf. apply negb_true_iff in Hop.
    destruct (IH (q_step qc op)) as [H1 H2]; [by apply (grow_wf qc), q_step_grows|done|by apply q_step_fits|].
    split; [done|]. etrans; [exact H2|]. by apply q_step_settings. }
  rewrite Hs in Hl, Hz. split_and!; [done|done|].
  apply (idx_size _ (proj1 (q_run_wf (with_config c) ops default_wf))).
Qed.
End interleavings.

(** ** Reads that fill the cache *)

(** The store's invalidation an operation of the cache makes. *)
Definition noted (op : QOp) : option StoreOp :=
  match op with
  | QInvalidateModel m => Some (OpNoteInvalidated (to_ascii_lowercase m))
  | QClear => Some OpClear
  | QInvalidateDatabase db => Some (OpNoteDatabaseInvalidated db)
  | _ => None
  end.

Definition q_hits (point : FillPoint) (tabs : gset str) (op : QOp) : bool :=
  match noted op with Some op => CacheStore.hits point tabs op | None => false end.

Definition q_discards (qc : QueryCache) (op : QOp) : bool :=
  match noted op with Some op => discards (cache qc) op | None => false end.

Section fills.
Context (instant_max : N) (to_vec : Ser → result (list N) str).

Fixpoint q_discarded (qc : QueryCache) (ops : list QOp) : bool :=
  match ops with
  | [] => false
  | op :: ops => q_discards qc op || q_discarded (q_step instant_max to_vec qc op) ops
  end.

Lemma store_keeps_history qc now key value ttl tabs fp :
  store_wf (cache qc) →
  history (cache (store instant_max to_vec qc now key value ttl tabs fp).1) = history (cache qc).
Proof.
  intros Hw. destruct (store_outcome instant_max to_vec qc now key value ttl tabs fp Hw)
    as [->|[((_ & _ & Hh) & _)|(b & kept & Hk & He & Hf & Hw' & Hc & Ho & Hh)]]; done.
Qed.

Lemma q_step_history qc op :
  store_wf (cache qc) →
  history (cache (q_step instant_max to_vec qc op))
  = history (match noted op with
             | Some op => store_step (cache qc) op
             | None => cache qc
             end).
Proof.
  intros Hw. destruct op; cbn [q_step noted store_step]; try done.
  - by apply store_keeps_history.
  - unfold get_read. destruct (negb _); [done|]. by destruct (get _ _).
  - unfold get_write. destruct (get _ _); [|done].
    destruct (is_expired _ _); [apply remove_history|]. case_bool_decide; [|done].
    pose proof (touch_history (cache qc) key (order_counter qc)). by destruct (touch _ _ _).
  - unfold get_settle. destruct payload; [|done]. destruct parses; [done|].
    match goal with |- context [if ?b then (set_cache _ _, _) else _] => destruct b end; [|done].
    apply remove_history.
  - unfold invalidate. pose proof (remove_history (cache qc) key).
    by destruct (remove _ _) as [? [?|]].
  - unfold invalidate_model. rewrite (surjective_pairing (remove_where _ _)).
    cbn [fst cache add_invalidations set_cache]. apply remove_where_history.
  - unfold invalidate_database. rewrite (surjective_pairing (remove_where _ _)).
    cbn [fst cache add_invalidations set_cache]. apply remove_where_history.
  - unfold evict_expired. rewrite (surjective_pairing (remove_where _ _)).
    cbn [fst cache add_evictions set_cache]. apply remove_where_history.
  - by destruct b.
Qed.

Lemma invalidated_since_q_run qc ops point tabs :
  store_wf (cache qc) → (sequence point ≤ invalidation_seq (cache qc))%N →
  invalidated_since (cache (q_run instant_max to_vec qc ops)) point tabs
  = invalidated_since (cache qc) point tabs
    || (existsb (q_hits point tabs) ops || q_discarded qc ops).
Proof.
  revert qc. induction ops as [|op ops IH]; intros qc Hw Hs; cbn [existsb q_discarded].
  { by rewrite orb_false_r. }
  change (q_run _ _ qc (op :: ops)) with (q_run instant_max to_vec (q_step instant_max to_vec qc op) ops).
  pose proof (q_step_history qc op Hw) as Hh.
  assert (invalidated_since (cache (q_step instant_max to_vec qc op)) point tabs
    = invalidated_since (cache qc) point tabs || (q_hits point tabs op || q_discards qc op)) as Hi.
  { rewrite (invalidated_since_history _ _ _ _ Hh). unfold q_hits, q_discards.
    destruct (noted op); [by apply invalidated_since_step|by rewrite orb_false_r]. }
  assert (sequence point ≤ invalidation_seq (cache (q_step instant_max to_vec qc op)))%N as Hs'.
  { rewrite (history_seq _ _ Hh). destruct (noted op) as [sop|]; [|done].
    pose proof (store_step_seq (cache qc) sop). lia. }
  rewrite IH, Hi; [|by apply (grow_wf qc), q_step_grows|done].
  destruct (invalidated_since (cache qc) point tabs), (q_hits point tabs op), (q_discards qc op);
    cbn; rewrite ?orb_true_r; done.
Qed.

Lemma q_history_wf qc op :
  store_wf (cache qc) → history_wf (cache qc) → history_wf (cache (q_step instant_max to_vec qc op)).
Proof.
  intros Hw Hh. eapply history_eq_wf; [by apply q_step_history|].
  destruct (noted op); [by apply history_step_wf|done].
Qed.

Lemma q_run_history_wf qc ops :
  store_wf (cache qc) → history_wf (cache qc) → history_wf (cache (q_run instant_max to_vec qc ops)).
Proof.
  revert qc. induction ops as [|op ops IH]; intros qc Hw Hh; [done|].
  apply IH; [by apply (grow_wf qc), q_step_grows|by apply q_history_wf].
Qed.

(** C3: rows read before a write never enter the cache after it. A read takes
    its fill point, other threads do anything, and the read then fills the cache:
    if one of them cleared the cache or invalidated a table the read is tagged
    with (in any case) or its database, the fill changes nothing. The fill is
    refused for no other reason than those and a discarded history. *)
Theorem stale_read_never_fills c before during now db key value ttl tabs :
  let qc0 := q_run instant_max to_vec (with_config c) before in
  let point := fill_point_for_database qc0 db in
  let qc := q_run instant_max to_vec qc0 during in
  let tags := list_to_set (to_ascii_lowercase <$> tabs) in
  let cc := config (qc_config qc) in
  let t := default (default_ttl cc) ttl in
  let qc' := (fill_tagged instant_max to_vec qc now point key value ttl tabs).1 in
  if existsb (q_hits point tags) during || q_discarded qc0 during
  then qc' = qc
  else ∀ bytes,
    qc_is_enabled qc = true → serialize_payload to_vec value = Ok (Some bytes) →
    admissible cc t bytes = true →
    entries (cache qc') !! key = Some (new_entry instant_max qc now bytes t tags (Some point)).
Proof.
  intros qc0 point qc tags cc t qc'.
  assert (store_wf (cache qc0)) as Hw0 by apply q_run_wf, default_wf.
  assert (history_wf (cache qc0)) as Hh0
    by (apply q_run_history_wf; [apply default_wf|apply history_default_wf]).
  pose proof (invalidated_since_q_run qc0 during point tags Hw0 (N.le_refl _)) as Hi.
  unfold point, fill_point_for_database in Hi.
  rewrite (invalidated_since_fresh _ _ _ Hh0) in Hi. fold qc in Hi. cbn [orb] in Hi.
  unfold point, fill_point_for_database. rewrite <- Hi.
  destruct (invalidated_since (cache qc) _ tags) eqn:Es.
  - unfold qc', fill_tagged, store. destruct (negb _); [done|].
    destruct (serialize_payload to_vec value); [|done]. by apply store_locked_stale.
  - intros bytes He Hs Ha.
    by apply (store_accepts instant_max to_vec qc now key value ttl tabs (Some point) bytes);
      [apply q_run_wf| | | |].
Qed.
End fills.

(** ** Lookups *)

Section lookups.
Context (instant_max : N) (to_vec : Ser → result (list N) str).
Context {T : Type} (from_slice : list N → option T).

Lemma get_settle_snd qc key payload :
  (get_settle from_slice qc key payload).2 = (payload ≫= λ p, from_slice (arc_bytes p)).
Proof.
  unfold get_settle. destruct payload as [p|]; [|done]. cbn.
  destruct (from_slice _); [done|]. by case_match.
Qed.

(** What a lookup answers: the payload of the unexpired entry, if it parses. *)
Lemma qc_get_snd qc now key :
  (qc_get from_slice qc now key).2
  = if qc_is_enabled qc then
      e ← entries (cache qc) !! key;
      if is_expired now e then None else from_slice (arc_bytes (data e))
    else None.
Proof.
  unfold qc_get, get_read. destruct (qc_is_enabled qc); cbn [negb]; [|done].
  unfold get. destruct (entries (cache qc) !! key) as [e|] eqn:E; [|done].
  cbn [mbind option_bind]. destruct (is_expired now e) eqn:Ex; cbn [negb andb].
  - unfold get_write, get. rewrite E, Ex. by rewrite get_settle_snd.
  - case_bool_decide as Hst; [by rewrite get_settle_snd|].
    unfold get_write, get. rewrite E, Ex, bool_decide_true by done.
    unfold touch. rewrite E. by rewrite get_settle_snd.
Qed.

(** a value just stored is read back until its TTL is over, and not after:
    on a reachable, enabled cache, storing an admissible payload with TTL [t] at
    time [now] makes a lookup of the key at a time [later] answer the parsed
    payload exactly when [later < now + t]. *)
Theorem stored_value_reads_back c ops now later key value ttl tabs bytes :
  let qc := q_run instant_max to_vec (with_config c) ops in
  let cc := config (qc_config qc) in
  let t := default (default_ttl cc) ttl in
  qc_is_enabled qc = true →
  serialize_payload to_vec value = Ok (Some bytes) →
  admissible cc t bytes = true →
  (now + t ≤ instant_max)%N →
  let qc' := (set_tagged instant_max to_vec qc now key value ttl tabs).1 in
  (qc_get from_slice qc' later key).2
  = if (later <? now + t)%N then from_slice bytes else None.
Proof.
  intros qc cc t He Hs Ha Ht qc'.
  assert (store_wf (cache qc)) as Hw by apply q_run_wf, default_wf.
  destruct (store_accepts instant_max to_vec qc now key value ttl tabs None bytes Hw He eq_refl Hs Ha)
    as (Hl & _ & Hc).
  rewrite qc_get_snd. unfold qc_is_enabled in *.
  assert (qc_config qc' = qc_config qc) as -> by exact Hc. rewrite He.
  unfold qc', set_tagged. rewrite Hl. cbn [mbind option_bind].
  unfold is_expired, new_entry, set_database, CacheEntry_new, checked_add.
  cbn [expires_at data arc_bytes]. fold cc t.
  assert (now + t <=? instant_max = true)%N as -> by lia.
  destruct (later <? now + t)%N eqn:E; destruct (now + t <=? later)%N eqn:E'; [lia|done..|lia].
Qed.

(** [op] stores a value under [key]. *)
Definition stores_at (key : str) (op : QOp) : bool :=
  match op with QStore _ k _ _ _ _ => str_eqb k key | _ => false end.

Lemma q_step_keeps qc op key :
  store_wf (cache qc) → stores_at key op = false →
  ∀ e, entries (cache (q_step instant_max to_vec qc op)) !! key = Some e →
    ∃ e0, entries (cache qc) !! key = Some e0 ∧ same_entry e0 e.
Proof.
  intros Hw Hop e Hk. destruct (stores op) eqn:Es.
  2: { by apply (shrink_entry qc _ (q_step_shrinks instant_max to_vec qc op Hw Es)). }
  destruct op as [now k value ttl tabs fp| | | | | | | | | | | |]; try done. cbn in Hop, Hk.
  apply not_true_iff_false in Hop. rewrite str_eqb_true in Hop.
  destruct (store_outcome instant_max to_vec qc now k value ttl tabs fp Hw)
    as [E|[(_ & E)|(b & kept & Hs & E & _)]].
  - rewrite E in Hk. by exists e.
  - rewrite E, remove_entries, lookup_delete_ne in Hk by done. by exists e.
  - rewrite E, lookup_insert_ne in Hk by done. exists e. split; [|done].
    eapply lookup_weaken; [exact Hk|]. etrans; [exact Hs|apply delete_subseteq].
Qed.

Lemma q_run_keeps qc ops key :
  store_wf (cache qc) → forallb (negb ∘ stores_at key) ops = true →
  ∀ e, entries (cache (q_run instant_max to_vec qc ops)) !! key = Some e →
    ∃ e0, entries (cache qc) !! key = Some e0 ∧ same_entry e0 e.
Proof.
  revert qc. induction ops as [|op ops IH]; intros qc Hw Hops e Hk; [by exists e|].
  apply andb_true_iff in Hops as [Hop Hops]. apply negb_true_iff in Hop.
  destruct (IH (q_step instant_max to_vec qc op)) with (e := e) as (e1 & H1 & Hs1); [|done|done|].
  { by apply (grow_wf qc), q_step_grows. }
  destruct (q_step_keeps qc op key Hw Hop e1 H1) as (e0 & H0 & Hs0).
  exists e0. split; [done|]. unfold same_entry in *. intuition congruence.
Qed.

Lemma invalidate_model_entries is_global qc m k e :
  entries (cache (invalidate_model is_global qc m).1) !! k = Some e ↔
  entries (cache qc) !! k = Some e ∧ to_ascii_lowercase m ∉ tables e.
Proof.
  unfold invalidate_model. rewrite (surjective_pairing (remove_where _ _)).
  cbn [fst cache add_invalidations set_cache]. rewrite remove_where_entries.
  cbn [note_invalidated set_history entries].
  rewrite map_lookup_filter_Some. cbn. unfold reads_table. by rewrite bool_decide_eq_false.
Qed.

(** [invalidate_model] removes exactly the entries tagged with the table, in
    any ASCII case, and counts them. *)
Theorem invalidation_reaches_exactly_the_readers is_global qc m :
  let qc' := (invalidate_model is_global qc m).1 in
  (∀ k e, entries (cache qc') !! k = Some e ↔
     entries (cache qc) !! k = Some e ∧ to_ascii_lowercase m ∉ tables e)
  ∧ invalidations qc'
    = fetch_add (invalidations qc)
        (N.of_nat (size (filter (λ kv, reads_table kv.2 (to_ascii_lowercase m) = true)
                           (entries (cache qc)))))
  ∧ (invalidate_model is_global qc m).2
    = if is_global then [NoteTable (to_ascii_lowercase m)] else [].
Proof.
  split; [by apply invalidate_model_entries|].
  unfold invalidate_model. rewrite (surjective_pairing (remove_where _ _)).
  cbn [fst snd invalidations add_invalidations set_cache].
  by rewrite remove_where_count.
Qed.

(** a write to a table makes every cached read of it a miss. A result stored
    under [key] with table [t] among its tags is gone after [invalidate_model] of
    any spelling of [t], whatever other threads did in between short of storing a
    new result under the same key. *)
Theorem write_evicts_its_readers c ops during now later key value ttl tabs bytes t m is_global :
  let qc := q_run instant_max to_vec (with_config c) ops in
  let cc := config (qc_config qc) in
  qc_is_enabled qc = true →
  serialize_payload to_vec value = Ok (Some bytes) →
  admissible cc (default (default_ttl cc) ttl) bytes = true →
  t ∈ tabs → eq_ignore_ascii_case t m = true →
  forallb (negb ∘ stores_at key) during = true →
  let stored := (set_tagged instant_max to_vec qc now key value ttl tabs).1 in
  let qc' := (invalidate_model is_global (q_run instant_max to_vec stored during) m).1 in
  entries (cache qc') !! key = None ∧ (qc_get from_slice qc' later key).2 = None.
Proof.
  intros qc cc He Hs Ha Ht Hm Hd stored qc'.
  assert (store_wf (cache qc)) as Hw by apply q_run_wf, default_wf.
  destruct (store_accepts instant_max to_vec qc now key value ttl tabs None bytes Hw He eq_refl Hs Ha)
    as (Hl & Hw' & _).
  assert (entries (cache qc') !! key = None) as Hn.
  { destruct (entries (cache qc') !! key) as [e|] eqn:E; [exfalso|done].
    apply invalidate_model_entries in E as [E Hnt]. apply Hnt.
    destruct (q_run_keeps stored during key Hw' Hd e E) as (e0 & E0 & _ & _ & -> & _).
    unfold stored, set_tagged in E0. rewrite Hl in E0. injection E0 as <-.
    cbn. apply elem_of_list_to_set, list_elem_of_fmap. exists t. split; [|done].
    symmetry. exact (proj1 (str_eqb_true _ _) Hm). }
  split; [done|]. rewrite qc_get_snd, Hn. destruct (qc_is_enabled qc'); reflexivity.
Qed.

(** Payloads lie below the sequence. *)
Definition addressed (qc : QueryCache) : Prop :=
  ∀ k e, entries (cache qc) !! k = Some e → (arc_addr (data e) < order_counter qc)%N.

Lemma q_step_addressed qc op :
  store_wf (cache qc) → addressed qc → addressed (q_step instant_max to_vec qc op).
Proof.
  intros Hw Ha k e Hk. destruct (q_step_grows instant_max to_vec qc op Hw) as [_ Ho He].
  destruct (He k e Hk) as [(e0 & H0 & -> & _)|?]; [|lia]. apply Ha in H0. lia.
Qed.

Lemma q_run_addressed qc ops :
  store_wf (cache qc) → addressed qc → addressed (q_run instant_max to_vec qc ops).
Proof.
  revert qc. induction ops as [|op ops IH]; intros qc Hw Ha; [done|].
  apply IH; [by apply (grow_wf qc), q_step_grows|by apply q_step_addressed].
Qed.

(** Over any transitions an entry keeps its payload or has a new one. *)
Lemma q_run_grows qc ops : store_wf (cache qc) → grows qc (q_run instant_max to_vec qc ops).
Proof.
  revert qc. induction ops as [|op ops IH]; intros qc Hw; [by apply shrinks_grows, shrinks_same|].
  pose proof (q_step_grows instant_max to_vec qc op Hw) as [Hw1 Ho1 He1].
  destruct (IH _ Hw1) as [Hw2 Ho2 He2].
  split; [done|change (q_run _ _ qc (op :: ops)) with (q_run instant_max to_vec
    (q_step instant_max to_vec qc op) ops); lia|].
  intros k e Hk. destruct (He2 k e Hk) as [(e1 & H1 & Hs1)|?].
  - destruct (He1 k e1 H1) as [(e0 & H0 & Hs0)|?].
    + left. exists e0. split; [done|]. unfold same_entry in *. intuition congruence.
    + right. destruct Hs1 as [-> _].
      change (q_run _ _ qc (op :: ops)) with (q_run instant_max to_vec
        (q_step instant_max to_vec qc op) ops). lia.
  - right. change (q_run _ _ qc (op :: ops)) with (q_run instant_max to_vec
      (q_step instant_max to_vec qc op) ops). lia.
Qed.

(** a lookup that cannot parse its payload never removes a replacement. A
    thread read the payload of the entry under [key], other threads did anything,
    and the thread then finds that the payload does not parse: the entry now
    under the key is removed if it still holds that payload, and otherwise the
    store is left as it is. *)
Theorem replaced_payload_survives c before during key e0 :
  let qc0 := q_run instant_max to_vec (with_config c) before in
  let qc := q_run instant_max to_vec qc0 during in
  let settled := (get_settle from_slice qc key (Some (data e0))).1 in
  entries (cache qc0) !! key = Some e0 →
  from_slice (arc_bytes (data e0)) = None →
  (entries (cache qc) !! key = None → cache settled = cache qc)
  ∧ ∀ e, entries (cache qc) !! key = Some e →
      (data e = data e0 → entries (cache settled) = delete key (entries (cache qc)))
      ∧ (data e ≠ data e0 → cache settled = cache qc).
Proof.
  intros qc0 qc settled H0 Hp. unfold settled, get_settle. rewrite Hp.
  unfold get. cbn [cache add_misses]. split; [by intros ->|]. intros e He. rewrite He. split.
  - intros ->. unfold ptr_eq. rewrite N.eqb_refl. cbn [fst cache set_cache add_misses].
    apply remove_entries.
  - intros Hne. destruct (ptr_eq (data e) (data e0)) eqn:Ep; [exfalso|done].
    apply N.eqb_eq in Ep.
    assert (store_wf (cache qc0)) as Hw by apply q_run_wf, default_wf.
    assert (addressed qc0) as Ha.
    { apply q_run_addressed; [apply default_wf|]. intros ?? Hx. done. }
    destruct (grow_entry _ _ (q_run_grows qc0 during Hw) key e He) as [(e' & He' & Hd & _)|Hlt].
    + rewrite H0 in He'. injection He' as <-. done.
    + apply Ha in H0. lia.
Qed.
End lookups.

(** ** Concrete runs *)

Definition demo_config : CacheConfig :=
  {| cc_enabled := true; max_entries := 2; max_size_bytes := 10; default_ttl := 60;
     strategy := LRU; cache_empty_results := true; key_prefix := None |}.

(** Strings serialize as themselves here, and nothing else does. *)
Definition demo_vec (v : Ser) : result (list N) str :=
  match v with SerStr s => Ok s | _ => Err (lit "unsupported") end.

Definition demo_store (k : str) : QOp :=
  QStore 10 k (SerStr (lit "rows")) None [lit "Users"; lit "posts"] None.

(** The third store evicts the entry the lookup did not touch. *)
Example demo_lru :
  let qc := q_run 1000 demo_vec (with_config demo_config)
              [demo_store (lit "a"); demo_store (lit "b"); QGetWrite 11 LRU (lit "a");
               demo_store (lit "c")] in
  (contains qc 20 (lit "a"), contains qc 20 (lit "b"), contains qc 20 (lit "c"),
   st_evictions (stats qc)) = (true, false, true, 1%N).
Proof. vm_compute. reflexivity. Qed.

Lemma cache_stays_within_bounds_witness :
  let ops := [demo_store (lit "a"); demo_store (lit "b"); demo_store (lit "c")] in
  forallb (negb ∘ configures) ops = true
  ∧ (st_entries (stats (q_run 1000%N demo_vec (with_config demo_config) ops)) ≤ 2)%N.
Proof.
  split; [reflexivity|].
  exact (proj1 (cache_stays_within_bounds 1000 demo_vec demo_config
    [demo_store (lit "a"); demo_store (lit "b"); demo_store (lit "c")] eq_refl)).
Defined.

Lemma stale_read_never_fills_witness :
  let qc0 := q_run 1000 demo_vec (with_config demo_config) [demo_store (lit "a")] in
  let point := fill_point_for_database qc0 None in
  let qc := q_run 1000 demo_vec qc0 [QInvalidateModel (lit "USERS")] in
  existsb (q_hits point (list_to_set (to_ascii_lowercase <$> [lit "users"])))
    [QInvalidateModel (lit "USERS")] = true
  ∧ (fill_tagged 1000 demo_vec qc 12 point (lit "a") (SerStr (lit "old")) None [lit "users"]).1 = qc.
Proof.
  split; [vm_compute; reflexivity|].
  exact (stale_read_never_fills 1000 demo_vec demo_config [demo_store (lit "a")]
    [QInvalidateModel (lit "USERS")] 12 None (lit "a") (SerStr (lit "old")) None [lit "users"]).
Defined.

Lemma stored_value_reads_back_witness :
  let qc := q_run 1000 demo_vec (with_config demo_config) [demo_store (lit "a")] in
  qc_is_enabled qc = true
  ∧ (qc_get Some (set_tagged 1000 demo_vec qc 20 (lit "k") (SerStr (lit "rows")) None [lit "users"]).1
       70 (lit "k")).2 = Some (lit "rows").
Proof.
  split; [reflexivity|].
  refine (eq_trans (stored_value_reads_back 1000 demo_vec Some demo_config [demo_store (lit "a")]
    20 70 (lit "k") (SerStr (lit "rows")) None [lit "users"] (lit "rows") _ _ _ _) _).
  - reflexivity.
  - reflexivity.
  - vm_compute. reflexivity.
  - vm_compute. discriminate.
  - vm_compute. reflexivity.
Defined.

Lemma write_evicts_its_readers_witness :
  let qc := q_run 1000 demo_vec (with_config demo_config) [] in
  let stored := (set_tagged 1000 demo_vec qc 20 (lit "k") (SerStr (lit "rows")) None
                   [lit "Users"]).1 in
  contains stored 21 (lit "k") = true
  ∧ (qc_get Some (invalidate_model true (q_run 1000 demo_vec stored [demo_store (lit "a")])
       (lit "USERS")).1 30 (lit "k")).2 = None.
Proof.
  split; [vm_compute; reflexivity|].
  refine (proj2 (write_evicts_its_readers 1000 demo_vec Some demo_config [] [demo_store (lit "a")]
    20 30 (lit "k") (SerStr (lit "rows")) None [lit "Users"] (lit "rows") (lit "Users")
    (lit "USERS") true _ _ _ _ _ _)).
  - reflexivity.
  - reflexivity.
  - vm_compute. reflexivity.
  - by left.
  - vm_compute. reflexivity.
  - vm_compute. reflexivity.
Defined.

Lemma replaced_payload_survives_witness :
  let qc0 := q_run 1000 demo_vec (with_config demo_config) [demo_store (lit "a")] in
  let qc := q_run 1000 demo_vec qc0 [demo_store (lit "a")] in
  let old := new_entry 1000 (with_config demo_config) 10 (lit "rows") 60
               (list_to_set [lit "users"; lit "posts"]) None in
  entries (cache qc0) !! lit "a" = Some old
  ∧ cache (get_settle (λ _, @None unit) qc (lit "a") (Some (data old))).1 = cache qc.
Proof.
  split; [vm_compute; reflexivity|].
  refine (proj2 (proj2 (replaced_payload_survives 1000 demo_vec (λ _, @None unit) demo_config
    [demo_store (lit "a")] [demo_store (lit "a")] (lit "a") _ _ _)
    (new_entry 1000 (bump_order (with_config demo_config)) 10 (lit "rows") 60
       (list_to_set [lit "users"; lit "posts"]) None) _) _).
  - vm_compute. reflexivity.
  - reflexivity.
  - vm_compute. reflexivity.
  - vm_compute. discriminate.
Defined.
