(* ===== verification/PreparedStatements.v ===== *)
(** * The prepared-statement cache

    src/src/cache/prepared_statements.rs: the distinct statements the query
    builder ran, keyed by a 64-bit digest, with their counts and timings.

    Parameters: [hash_sql] is the digest (the standard library's hasher), which
    may collide; [iter] is the map's iteration order, of which only its content
    is assumed. One operation reads the clock once, as [now]. *)

From stdpp Require Import gmap.
From S2P Require Import Prelude Toggle.

Record PreparedStatement := {
  sql : str;
  prepared_at : N;
  last_used : N;
  execution_count : N;
  total_execution_time_us : N;
}.

Definition PreparedStatement_new (now : N) (s : str) : PreparedStatement :=
  {| sql := s; prepared_at := now; last_used := now; execution_count := 0;
     total_execution_time_us := 0 |}.

(** [PreparedStatement::record_execution]. *)
Definition record_one (now us : N) (p : PreparedStatement) : PreparedStatement :=
  {| sql := sql p; prepared_at := prepared_at p; last_used := now;
     execution_count := execution_count p + 1;
     total_execution_time_us := total_execution_time_us p + us |}.

Definition set_last_used (now : N) (p : PreparedStatement) : PreparedStatement :=
  {| sql := sql p; prepared_at := prepared_at p; last_used := now;
     execution_count := execution_count p;
     total_execution_time_us := total_execution_time_us p |}.

(** [prepared_at.elapsed()], which saturates at zero. *)
Definition elapsed (now : N) (p : PreparedStatement) : N := (now - prepared_at p)%N.

Record PreparedStatementConfig := {
  pc_enabled : bool;
  max_statements : N;
  max_age : N;
}.

Definition PreparedStatementConfig_default : PreparedStatementConfig :=
  {| pc_enabled := false; max_statements := 500; max_age := 3600 * 1000000000 |}.

#[export] Program Instance PreparedStatementConfig_switchable :
    Switchable PreparedStatementConfig := {|
  cfg_enabled := pc_enabled;
  cfg_set_enabled c b :=
    {| pc_enabled := b; max_statements := max_statements c; max_age := max_age c |};
|}.
Next Obligation. done. Qed.

Record PreparedStatementCache := {
  ps_config : Toggle PreparedStatementConfig;
  statements : gmap N PreparedStatement;
  ps_hits : N;
  ps_misses : N;
  total_executions : N;
  ps_evictions : N;
}.

Definition ps_with_config (c : PreparedStatementConfig) : PreparedStatementCache :=
  {| ps_config := Toggle_new c; statements := ∅; ps_hits := 0; ps_misses := 0;
     total_executions := 0; ps_evictions := 0 |}.

(** [fetch_add] on the [AtomicU64] counters. *)
Definition counter_add (x n : N) : N := ((x + n) mod 2 ^ 64)%N.

Definition ps_set_config pc t : PreparedStatementCache :=
  {| ps_config := t; statements := statements pc; ps_hits := ps_hits pc;
     ps_misses := ps_misses pc; total_executions := total_executions pc;
     ps_evictions := ps_evictions pc |}.
Definition set_statements pc m : PreparedStatementCache :=
  {| ps_config := ps_config pc; statements := m; ps_hits := ps_hits pc;
     ps_misses := ps_misses pc; total_executions := total_executions pc;
     ps_evictions := ps_evictions pc |}.
Definition add_ps_hits pc : PreparedStatementCache :=
  {| ps_config := ps_config pc; statements := statements pc;
     ps_hits := counter_add (ps_hits pc) 1; ps_misses := ps_misses pc;
     total_executions := total_executions pc; ps_evictions := ps_evictions pc |}.
Definition add_ps_misses pc : PreparedStatementCache :=
  {| ps_config := ps_config pc; statements := statements pc; ps_hits := ps_hits pc;
     ps_misses := counter_add (ps_misses pc) 1;
     total_executions := total_executions pc; ps_evictions := ps_evictions pc |}.
Definition add_executions pc : PreparedStatementCache :=
  {| ps_config := ps_config pc; statements := statements pc; ps_hits := ps_hits pc;
     ps_misses := ps_misses pc; total_executions := counter_add (total_executions pc) 1;
     ps_evictions := ps_evictions pc |}.
Definition add_ps_evictions pc : PreparedStatementCache :=
  {| ps_config := ps_config pc; statements := statements pc; ps_hits := ps_hits pc;
     ps_misses := ps_misses pc; total_executions := total_executions pc;
     ps_evictions := counter_add (ps_evictions pc) 1 |}.

Definition ps_is_enabled (pc : PreparedStatementCache) : bool := is_enabled (ps_config pc).

(** [iter().min_by_key(|(_, stmt)| stmt.last_used)]: the first least one. *)
Fixpoint min_by_last_used (l : list (N * PreparedStatement)) : option (N * PreparedStatement) :=
  match l with
  | [] => None
  | x :: l =>
      match min_by_last_used l with
      | None => Some x
      | Some y => if (last_used x.2 <=? last_used y.2)%N then Some x else Some y
      end
  end.

Section prepared.
Context (hash_sql : str → N).
Context (iter : gmap N PreparedStatement → list (N * PreparedStatement)).

(** [while statements.len() >= max { .. }]: each round removes a statement. *)
Fixpoint evict_oldest (fuel : nat) (max : N) (pc : PreparedStatementCache)
    : PreparedStatementCache :=
  match fuel with
  | O => pc
  | S fuel =>
      if (max <=? N.of_nat (size (statements pc)))%N then
        match min_by_last_used (iter (statements pc)) with
        | Some (key, _) =>
            evict_oldest fuel max
              (add_ps_evictions (set_statements pc (delete key (statements pc))))
        | None => pc
        end
      else pc
  end.

Definition register (pc : PreparedStatementCache) (now : N) (s : str) (us : option N)
    : PreparedStatementCache * bool :=
  if negb (ps_is_enabled pc) then (pc, false)
  else
    let c := config (ps_config pc) in
    let hash := hash_sql s in
    let hit :=
      match statements pc !! hash with
      | Some p => str_eqb (sql p) s && (elapsed now p <? max_age c)%N
      | None => false
      end in
    let pc :=
      if hit then
        add_ps_hits (set_statements pc (alter (set_last_used now) hash (statements pc)))
      else
        let pc := add_ps_misses pc in
        let pc := set_statements pc (delete hash (statements pc)) in
        if (0 <? max_statements c)%N then
          let pc := evict_oldest (S (size (statements pc))) (max_statements c) pc in
          set_statements pc (<[hash := PreparedStatement_new now s]> (statements pc))
        else pc in
    let pc :=
      match us with
      | Some us =>
          add_executions (set_statements pc (alter (record_one now us) hash (statements pc)))
      | None => pc
      end in
    (pc, hit).

Definition get_or_prepare (pc : PreparedStatementCache) (now : N) (s : str)
    : PreparedStatementCache * (str * bool) :=
  let '(pc, hit) := register pc now s None in (pc, (s, hit)).

Definition observe_execution (pc : PreparedStatementCache) (now : N) (s : str) (us : N)
    : PreparedStatementCache :=
  if negb (ps_is_enabled pc) then pc else (register pc now s (Some us)).1.

Definition record_execution (pc : PreparedStatementCache) (now : N) (s : str) (us : N)
    : PreparedStatementCache :=
  if negb (ps_is_enabled pc) then pc
  else
    let pc :=
      match statements pc !! hash_sql s with
      | Some p =>
          if str_eqb (sql p) s
          then set_statements pc (alter (record_one now us) (hash_sql s) (statements pc))
          else pc
      | None => pc
      end in
    add_executions pc.

Definition ps_invalidate (pc : PreparedStatementCache) (s : str) : PreparedStatementCache * bool :=
  if match statements pc !! hash_sql s with
     | Some p => negb (str_eqb (sql p) s)
     | None => true
     end
  then (pc, false)
  else (set_statements pc (delete (hash_sql s) (statements pc)), true).

Definition ps_clear (pc : PreparedStatementCache) : PreparedStatementCache :=
  set_statements pc ∅.

Definition ps_reset_stats (pc : PreparedStatementCache) : PreparedStatementCache :=
  {| ps_config := ps_config pc; statements := statements pc; ps_hits := 0; ps_misses := 0;
     total_executions := 0; ps_evictions := 0 |}.

Definition ps_apply_config (pc : PreparedStatementCache) (c : PreparedStatementConfig)
    : PreparedStatementCache := ps_set_config pc (apply (ps_config pc) c).

Definition ps_set_enabled (pc : PreparedStatementCache) (b : bool) : PreparedStatementCache :=
  ps_set_config pc (set_enabled (ps_config pc) b).

Definition set_max_statements (pc : PreparedStatementCache) (n : N) : PreparedStatementCache :=
  ps_set_config pc (write (ps_config pc)
    (λ c, {| pc_enabled := pc_enabled c; max_statements := n; max_age := max_age c |})).

Definition set_max_age (pc : PreparedStatementCache) (n : N) : PreparedStatementCache :=
  ps_set_config pc (write (ps_config pc)
    (λ c, {| pc_enabled := pc_enabled c; max_statements := max_statements c; max_age := n |})).

End prepared.

Definition PREVIEW_CHARS : nat := 100.

(** [sql_preview]: the text up to the byte offset of its hundredth character. *)
Definition sql_preview (s : str) : option str :=
  match char_indices 0 s !! PREVIEW_CHARS with
  | Some (index, _) =>
      match split_at index s with
      | Some (h, _) => Some (h ++ lit "...")
      | None => None
      end
  | None => Some s
  end.

Record CachedStatementInfo := {
  info_hash : N;
  info_preview : str;
  info_count : N;
  info_avg_us : N;
  info_age_secs : N;
}.

(** One row of [cached_statements_info]; [None] is a panic of the slicing. *)
Definition statement_info (now hash : N) (p : PreparedStatement) : option CachedStatementInfo :=
  preview ← sql_preview (sql p);
  Some {| info_hash := hash; info_preview := preview; info_count := execution_count p;
          info_avg_us :=
            ((total_execution_time_us p / N.max (execution_count p) 1) mod 2 ^ 64)%N;
          info_age_secs := (elapsed now p / 1000000000)%N |}.

(** ** Eviction *)

Lemma min_by_last_used_None l : min_by_last_used l = None ↔ l = [].
Proof. destruct l; cbn; [done|]. repeat case_match; naive_solver. Qed.

Lemma min_by_last_used_Some l x :
  min_by_last_used l = Some x →
  x ∈ l ∧ ∀ y, y ∈ l → (last_used x.2 ≤ last_used y.2)%N.
Proof.
  revert x. induction l as [|a l IH]; intros x; cbn; [done|].
  destruct (min_by_last_used l) as [y|] eqn:E.
  - destruct (IH y eq_refl) as [Hy Hm].
    destruct (last_used a.2 <=? last_used y.2)%N eqn:El; intros [= <-].
    + split; [by left|]. intros z [->|Hz]%elem_of_cons; [lia|]. specialize (Hm z Hz). lia.
    + split; [by right|]. intros z [->|Hz]%elem_of_cons; [lia|]. by apply Hm.
  - apply min_by_last_used_None in E as ->. intros [= <-]. split; [by left|].
    intros z Hz%list_elem_of_singleton. subst. lia.
Qed.

(** [kept] is what is left of [m] after its least recently used statements went. *)
Definition oldest_gone (m kept : gmap N PreparedStatement) : Prop :=
  kept ⊆ m
  ∧ ∀ k p k' p', m !! k = Some p → kept !! k = None → kept !! k' = Some p' →
      (last_used p ≤ last_used p')%N.

Section facts.
Context (hash_sql : str → N).
Context (iter : gmap N PreparedStatement → list (N * PreparedStatement)).
Hypothesis iter_map : ∀ m, iter m ≡ₚ map_to_list m.

Lemma oldest_gone_delete m k p :
  min_by_last_used (iter m) = Some (k, p) →
  m !! k = Some p ∧ ∀ k' p', m !! k' = Some p' → (last_used p ≤ last_used p')%N.
Proof.
  intros Hm%min_by_last_used_Some. destruct Hm as [Hin Hle]. rewrite iter_map in Hin.
  split; [by apply elem_of_map_to_list|]. intros k' p' Hk'.
  apply (Hle (k', p')). rewrite iter_map. by apply elem_of_map_to_list.
Qed.

Lemma evict_oldest_spec fuel max pc :
  size (statements pc) < fuel → (0 < max)%N →
  let pc' := evict_oldest iter fuel max pc in
  oldest_gone (statements pc) (statements pc')
  ∧ (N.of_nat (size (statements pc')) < max)%N
  ∧ ps_config pc' = ps_config pc.
Proof.
  revert pc. induction fuel as [|fuel IH]; intros pc Hf Hmax; [lia|]. cbn [evict_oldest].
  destruct (max <=? N.of_nat (size (statements pc)))%N eqn:E.
  2: { split_and!; [|lia|done]. split; [done|]. intros. congruence. }
  destruct (min_by_last_used (iter (statements pc))) as [[k p]|] eqn:Em.
  2: { apply min_by_last_used_None in Em. pose proof (iter_map (statements pc)) as Hi.
       rewrite Em in Hi. apply Permutation_nil, map_to_list_empty_iff in Hi.
       rewrite Hi, map_size_empty in E. lia. }
  destruct (oldest_gone_delete _ _ _ Em) as [Hk Hle].
  set (pc1 := add_ps_evictions _).
  assert (S (size (statements pc1)) = size (statements pc)) as Hsz.
  { cbn. rewrite map_size_delete_Some by eauto.
    assert (size (statements pc) ≠ 0); [|lia].
    rewrite map_size_non_empty_iff. intros Hem. by rewrite Hem, lookup_empty in Hk. }
  destruct (IH pc1 ltac:(lia) Hmax) as ([Hs Ho] & Hlt & Hc).
  split_and!; [|done|done]. split.
  - etrans; [exact Hs|]. apply delete_subseteq.
  - intros k1 p1 k2 p2 H1 H2 H3.
    pose proof (lookup_weaken _ _ _ _ H3 Hs) as H3'. cbn in H3'.
    apply lookup_delete_Some in H3' as [_ H3'].
    destruct (decide (k1 = k)) as [->|Hne]; [rewrite Hk in H1; injection H1 as <-; by eapply Hle|].
    eapply Ho; [|exact H2|exact H3]. cbn. by rewrite lookup_delete_ne.
Qed.

(** [sql] is registered and still young: what a hit is. *)
Definition registered (pc : PreparedStatementCache) (now : N) (s : str)
    (p : PreparedStatement) : Prop :=
  statements pc !! hash_sql s = Some p ∧ sql p = s
  ∧ (elapsed now p < max_age (config (ps_config pc)))%N.

(** The slot a registration leaves, for the statement it found there. *)
Definition slot_after (now : N) (s : str) (us : option N) (found : option PreparedStatement)
    : PreparedStatement :=
  let p := match found with Some p => set_last_used now p | None => PreparedStatement_new now s end in
  match us with Some us => record_one now us p | None => p end.

Lemma register_hit pc now s us p :
  ps_is_enabled pc = true → registered pc now s p →
  (register hash_sql iter pc now s us).2 = true
  ∧ statements (register hash_sql iter pc now s us).1
    = <[hash_sql s := slot_after now s us (Some p)]> (statements pc)
  ∧ ps_config (register hash_sql iter pc now s us).1 = ps_config pc.
Proof.
  intros He (Hk & Hs & Ha). unfold register. rewrite He, Hk. cbn [negb].
  rewrite (proj2 (str_eqb_true _ _) Hs), (proj2 (N.ltb_lt _ _) Ha). cbn [andb fst snd].
  assert (∀ f, alter f (hash_sql s) (statements pc) = <[hash_sql s := f p]> (statements pc)) as Hal.
  { intros f. apply map_eq. intros k. destruct (decide (k = hash_sql s)) as [->|Hne].
    - by rewrite lookup_alter_eq, lookup_insert_eq, Hk.
    - by rewrite lookup_alter_ne, lookup_insert_ne. }
  split; [done|]. destruct us as [us|]; cbn; [|by rewrite Hal].
  rewrite Hal, alter_insert_eq. done.
Qed.

Lemma register_miss pc now s us :
  ps_is_enabled pc = true → (∀ p, ¬ registered pc now s p) →
  (0 < max_statements (config (ps_config pc)))%N →
  (register hash_sql iter pc now s us).2 = false
  ∧ ps_config (register hash_sql iter pc now s us).1 = ps_config pc
  ∧ ∃ kept, oldest_gone (delete (hash_sql s) (statements pc)) kept
      ∧ (N.of_nat (size kept) < max_statements (config (ps_config pc)))%N
      ∧ statements (register hash_sql iter pc now s us).1
        = <[hash_sql s := slot_after now s us None]> kept.
Proof.
  intros He Hn Hm. unfold register. rewrite He. cbn [negb].
  match goal with |- context [if ?b then add_ps_hits _ else _] => assert (b = false) as -> end.
  { destruct (statements pc !! hash_sql s) as [p|] eqn:Ek; [|done].
    apply not_true_iff_false. rewrite andb_true_iff, str_eqb_true, N.ltb_lt.
    intros [??]. by apply (Hn p). }
  rewrite (proj2 (N.ltb_lt _ _) Hm).
  set (pc0 := set_statements (add_ps_misses pc) _).
  destruct (evict_oldest_spec (S (size (statements pc0))) (max_statements (config (ps_config pc)))
    pc0 ltac:(lia) Hm) as (Ho & Hsz & Hc).
  set (pc1 := evict_oldest _ _ _ pc0) in *. cbn [fst snd].
  split; [done|]. split; [by destruct us|]. exists (statements pc1). split_and!; [done|done|].
  destruct us as [us|]; cbn; [by rewrite alter_insert_eq|done].
Qed.

(** Without room for a statement, the slot is emptied and nothing is kept. *)
Lemma register_no_room pc now s us :
  ps_is_enabled pc = true → (∀ p, ¬ registered pc now s p) →
  max_statements (config (ps_config pc)) = 0%N →
  (register hash_sql iter pc now s us).2 = false
  ∧ ps_config (register hash_sql iter pc now s us).1 = ps_config pc
  ∧ statements (register hash_sql iter pc now s us).1 = delete (hash_sql s) (statements pc).
Proof.
  intros He Hn Hm. unfold register. rewrite He. cbn [negb].
  match goal with |- context [if ?b then add_ps_hits _ else _] => assert (b = false) as -> end.
  { destruct (statements pc !! hash_sql s) as [p|] eqn:Ek; [|done].
    apply not_true_iff_false. rewrite andb_true_iff, str_eqb_true, N.ltb_lt.
    intros [??]. by apply (Hn p). }
  rewrite Hm. cbn. split; [done|]. destruct us as [us|]; cbn; [|done]. split; [done|].
  apply map_eq. intros k. destruct (decide (k = hash_sql s)) as [->|Hne].
  - by rewrite lookup_alter_eq, lookup_delete_eq.
  - by rewrite lookup_alter_ne.
Qed.

Lemma registered_dec pc now s : (∃ p, registered pc now s p) ∨ ∀ p, ¬ registered pc now s p.
Proof.
  unfold registered. destruct (statements pc !! hash_sql s) as [p|]; [|right; naive_solver].
  destruct (decide (sql p = s)); [|right; naive_solver].
  destruct (decide (elapsed now p < max_age (config (ps_config pc)))%N); [left|right]; naive_solver.
Qed.

(** registering a statement is safe under digest collisions and evicts only
    the least recently used. It reports a hit exactly when its slot holds this
    very SQL and is young enough; with room for a statement the slot then holds
    this SQL, continuing the counts of a hit and starting afresh otherwise; no
    other statement's record changes; and a statement evicted was used no later
    than any other that stayed. *)
Theorem registration_is_collision_safe pc now s us :
  ps_is_enabled pc = true →
  let pc' := (register hash_sql iter pc now s us).1 in
  let hit := (register hash_sql iter pc now s us).2 in
  (hit = true ↔ ∃ p, registered pc now s p)
  ∧ ((0 < max_statements (config (ps_config pc)))%N →
     ∃ found, statements pc' !! hash_sql s = Some (slot_after now s us found)
       ∧ match found with Some p => registered pc now s p | None => hit = false end)
  ∧ (∀ k p, k ≠ hash_sql s → statements pc' !! k = Some p → statements pc !! k = Some p)
  ∧ (∀ k p k' p', k ≠ hash_sql s → k' ≠ hash_sql s →
       statements pc !! k = Some p → statements pc' !! k = None →
       statements pc' !! k' = Some p' → (last_used p ≤ last_used p')%N).
Proof.
  intros He pc' hit. destruct (registered_dec pc now s) as [[p Hp]|Hn].
  { destruct (register_hit pc now s us p He Hp) as (Hh & Hs & _). fold pc' hit in Hh, Hs.
    rewrite Hh, Hs. split_and!.
    - split; eauto.
    - intros _. exists (Some p). split; [apply lookup_insert_eq|done].
    - intros k q Hk. by rewrite lookup_insert_ne.
    - intros k q k' q' Hk _. rewrite lookup_insert_ne by done. congruence. }
  destruct (decide (0 < max_statements (config (ps_config pc)))%N) as [Hm|Hm].
  - destruct (register_miss pc now s us He Hn Hm) as (Hh & _ & kept & [Hsub Ho] & _ & Hs).
    fold pc' hit in Hh, Hs. rewrite Hh, Hs. split_and!.
    + split; [done|]. intros [p Hp]. by apply Hn in Hp.
    + intros _. exists None. split; [apply lookup_insert_eq|done].
    + intros k q Hk. rewrite lookup_insert_ne by done. intros Hq.
      pose proof (lookup_weaken _ _ _ _ Hq Hsub) as Hx. by apply lookup_delete_Some in Hx as [_ ?].
    + intros k q k' q' Hk Hk'. rewrite !lookup_insert_ne by done. intros Hq.
      apply Ho. by rewrite lookup_delete_ne.
  - destruct (register_no_room pc now s us He Hn ltac:(lia)) as (Hh & _ & Hs).
    fold pc' hit in Hh, Hs. rewrite Hh, Hs. split_and!.
    + split; [done|]. intros [p Hp]. by apply Hn in Hp.
    + done.
    + intros k q Hk. by rewrite lookup_delete_ne.
    + intros k q k' q' Hk _. rewrite lookup_delete_ne by done. congruence.
Qed.

(** The operations that leave the configuration alone, as a log. *)
Inductive POp :=
  | PRegister (now : N) (s : str) (us : option N)
  | PRecord (now : N) (s : str) (us : N)
  | PInvalidate (s : str)
  | PClear
  | PResetStats
  | PSetEnabled (b : bool).

Definition p_step (pc : PreparedStatementCache) (op : POp) : PreparedStatementCache :=
  match op with
  | PRegister now s us => (register hash_sql iter pc now s us).1
  | PRecord now s us => record_execution hash_sql pc now s us
  | PInvalidate s => (ps_invalidate hash_sql pc s).1
  | PClear => ps_clear pc
  | PResetStats => ps_reset_stats pc
  | PSetEnabled b => ps_set_enabled pc b
  end.

Definition p_run : PreparedStatementCache → list POp → PreparedStatementCache := foldl p_step.

(** Every slot holds a statement of its digest, and there are not too many. *)
Definition slots_ok (max : N) (m : gmap N PreparedStatement) : Prop :=
  (N.of_nat (size m) ≤ max)%N ∧ ∀ k p, m !! k = Some p → hash_sql (sql p) = k.

Lemma slots_ok_subset max m m' : m' ⊆ m → slots_ok max m → slots_ok max m'.
Proof.
  intros Hs [Hl Hk]. split.
  - pose proof (map_subseteq_size _ _ Hs). lia.
  - intros k p Hp. apply Hk. by eapply lookup_weaken.
Qed.

Lemma slots_ok_insert max m k p :
  (N.of_nat (size (<[k := p]> m)) ≤ max)%N → (∀ k p, m !! k = Some p → hash_sql (sql p) = k) →
  hash_sql (sql p) = k → slots_ok max (<[k := p]> m).
Proof.
  intros Hl Hm Hp. split; [done|]. intros k' p'.
  intros [[<- <-]|[_ ?]]%lookup_insert_Some; [done|by apply Hm].
Qed.

Lemma slots_ok_alter max m k f :
  (∀ p, sql (f p) = sql p) → slots_ok max m → slots_ok max (alter f k m).
Proof.
  intros Hf [Hl Hk]. split.
  { rewrite <- !(size_dom (D := gset N)) in *. by rewrite dom_alter_L. }
  intros k' p. rewrite lookup_alter_Some. intros [(<- & q & Hq & ->)|[_ Hq]].
  - rewrite Hf. by apply Hk.
  - by apply Hk.
Qed.

Lemma register_slots pc now s us :
  let max := max_statements (config (ps_config pc)) in
  let pc' := (register hash_sql iter pc now s us).1 in
  slots_ok max (statements pc) → slots_ok max (statements pc') ∧ ps_config pc' = ps_config pc.
Proof.
  intros max pc' Hok. destruct (ps_is_enabled pc) eqn:He.
  2: { unfold pc', register. by rewrite He. }
  destruct (registered_dec pc now s) as [[p Hp]|Hn].
  { destruct (register_hit pc now s us p He Hp) as (_ & Hs & Hc). fold pc' in Hs, Hc. rewrite Hs.
    split; [|done]. destruct Hok as [Hl Hk]. destruct Hp as (Hp & Hsq & _).
    apply slots_ok_insert; [|done|by destruct us; cbn; rewrite Hsq].
    rewrite map_size_insert, Hp. done. }
  destruct (decide (0 < max)%N) as [Hm|Hm].
  - destruct (register_miss pc now s us He Hn Hm) as (_ & Hc & kept & [Hsub Ho] & Hlt & Hs).
    fold pc' in Hs, Hc. rewrite Hs. split; [|done]. apply slots_ok_insert; [| |by destruct us].
    + rewrite map_size_insert. unfold max. destruct (kept !! hash_sql s); cbn [id]; lia.
    + intros k p Hp. pose proof (lookup_weaken _ _ _ _ Hp Hsub) as Hx.
      apply lookup_delete_Some in Hx as [_ Hx]. by apply Hok.
  - destruct (register_no_room pc now s us He Hn ltac:(lia)) as (_ & Hc & Hs).
    fold pc' in Hs, Hc. rewrite Hs. split; [|done]. by eapply slots_ok_subset, Hok; apply delete_subseteq.
Qed.

Lemma p_step_slots pc op max :
  max_statements (config (ps_config pc)) = max → slots_ok max (statements pc) →
  slots_ok max (statements (p_step pc op))
  ∧ max_statements (config (ps_config (p_step pc op))) = max.
Proof.
  intros <- Hok. destruct op; cbn [p_step].
  - destruct (register_slots pc now s us Hok) as [? ->]. done.
  - unfold record_execution. destruct (negb _); [done|]. split; [|by repeat case_match].
    cbn. destruct (statements pc !! hash_sql s); [|done]. destruct (str_eqb _ _); [|done].
    by apply slots_ok_alter.
  - unfold ps_invalidate. case_match; [done|]. split; [|done].
    by eapply slots_ok_subset, Hok; apply delete_subseteq.
  - split; [|done]. split; [cbn; rewrite map_size_empty; lia|done].
  - done.
  - done.
Qed.

(** While the configuration stays, the cache never tracks more than
    [max_statements] statements, and every slot holds a statement of its own
    digest, so a lookup by digest and text finds what was registered. *)
Theorem statements_stay_bounded c ops :
  slots_ok (max_statements c) (statements (p_run (ps_with_config c) ops)).
Proof.
  assert (slots_ok (max_statements c) (statements (ps_with_config c))) as Hok.
  { split; [cbn; rewrite map_size_empty; lia|done]. }
  assert (max_statements (config (ps_config (ps_with_config c))) = max_statements c) as Hc by done.
  revert Hok Hc. generalize (max_statements c) as max. generalize (ps_with_config c) as pc.
  induction ops as [|op ops IH]; intros pc max Hok Hc; [done|].
  destruct (p_step_slots pc op max Hc Hok). by apply IH.
Qed.
End facts.

(** ** Previews *)

Lemma char_indices_lookup off s n i c :
  char_indices off s !! n = Some (i, c) → i = off + slen (take n s) ∧ s !! n = Some c.
Proof.
  revert off n. induction s as [|x s IH]; intros off [|n]; cbn; try done.
  - intros [= <- <-]. split; [lia|done].
  - intros [-> ?]%IH. split; [lia|done].
Qed.

Lemma char_indices_length off s : length (char_indices off s) = length s.
Proof. revert off. induction s as [|x s IH]; intros off; cbn; [done|]. by rewrite IH. Qed.

(** A statement's preview never panics, whatever characters it holds: it is
    the whole text up to a hundred characters, and otherwise the first hundred
    characters and an ellipsis. *)
Theorem preview_never_splits_a_character s :
  sql_preview s = Some (if length s <=? 100 then s else take 100 s ++ lit "...").
Proof.
  unfold sql_preview, PREVIEW_CHARS.
  destruct (char_indices 0 s !! 100) as [[i c]|] eqn:E.
  - pose proof (lookup_lt_Some _ _ _ E) as Hl. rewrite char_indices_length in Hl.
    apply char_indices_lookup in E as [-> _]. cbn [Nat.add].
    rewrite <- (take_drop 100 s) at 2. rewrite split_at_app.
    destruct (length s <=? 100) eqn:Hle; [lia|done].
  - apply lookup_ge_None in E. rewrite char_indices_length in E.
    destruct (length s <=? 100) eqn:Hle; [done|lia].
Qed.

(** ** Concrete runs *)

Definition demo_ps_config : PreparedStatementConfig :=
  {| pc_enabled := true; max_statements := 2; max_age := 1000 |}.

(** A digest under which texts of one length collide. *)
Definition demo_hash (s : str) : N := N.of_nat (length s).

Lemma registration_is_collision_safe_witness :
  let pc := p_run demo_hash map_to_list (ps_with_config demo_ps_config)
              [PRegister 1 (lit "SELECT 1") (Some 5%N)] in
  ps_is_enabled pc = true
  ∧ (register demo_hash map_to_list pc 2 (lit "SELECT 2") None).2 = false
  ∧ ∃ p, statements (register demo_hash map_to_list pc 2 (lit "SELECT 2") None).1
           !! demo_hash (lit "SELECT 2") = Some p ∧ sql p = lit "SELECT 2".
Proof.
  split; [reflexivity|].
  pose proof (registration_is_collision_safe demo_hash map_to_list (λ m, Permutation_refl _)
    (p_run demo_hash map_to_list (ps_with_config demo_ps_config)
       [PRegister 1 (lit "SELECT 1") (Some 5%N)]) 2 (lit "SELECT 2") None eq_refl) as (_ & Hs & _).
  split; [vm_compute; reflexivity|].
  destruct Hs as (found & Hf & Hr); [vm_compute; reflexivity|].
  eexists. split; [exact Hf|]. destruct found as [p|]; [|reflexivity].
  exact (proj1 (proj2 Hr)).
Defined.

Lemma statements_stay_bounded_witness :
  slots_ok demo_hash 2 (statements (p_run demo_hash map_to_list (ps_with_config demo_ps_config)
    [PRegister 1 (lit "a") None; PRegister 2 (lit "bb") None; PRegister 3 (lit "ccc") None])).
Proof.
  exact (statements_stay_bounded demo_hash map_to_list (λ m, Permutation_refl _) demo_ps_config
    [PRegister 1 (lit "a") None; PRegister 2 (lit "bb") None; PRegister 3 (lit "ccc") None]).
Defined.
