(* ===== verification/Topology.v ===== *)
(** * Dependency order

    src/src/internal/topology.rs: Kahn's algorithm, which migrations, seeders
    and the entity manager order their work with. An index out of range and a
    subtraction below zero are panics, [None]. *)

From S2P Require Import Prelude MinHeap.

Section topology.
Context {K : Type} `{TotalLe K}.

(** [followers[before].push(after); unmet[after] += 1] *)
Definition add_edge (st : list nat * list (list nat)) (edge : nat * nat)
    : option (list nat * list (list nat)) :=
  let '(unmet, followers) := st in
  let '(before, after) := edge in
  fs ← followers !! before;
  u ← unmet !! after;
  Some (<[after := S u]> unmet, <[before := fs ++ [after]]> followers).

Fixpoint add_edges (st : list nat * list (list nat)) (edges : list (nat * nat))
    : option (list nat * list (list nat)) :=
  match edges with
  | [] => Some st
  | e :: edges => st ← add_edge st e; add_edges st edges
  end.

(** The inner loop: one predecessor of each follower is met. *)
Fixpoint release (key : nat → K) (fs : list nat) (unmet : list nat) (ready : list (K * nat))
    : option (list nat * list (K * nat)) :=
  match fs with
  | [] => Some (unmet, ready)
  | f :: fs =>
      match unmet !! f with
      | Some (S u) =>
          let unmet := <[f := u]> unmet in
          release key fs unmet (if u =? 0 then (key f, f) :: ready else ready)
      | _ => None
      end
  end.

(** The outer loop; it pops each node at most once. *)
Fixpoint take_ready (fuel : nat) (key : nat → K) (followers : list (list nat))
    (unmet : list nat) (ready : list (K * nat)) (ordered : list nat)
    : option (list nat * list nat) :=
  match fuel with
  | O => None
  | S fuel =>
      match pop_min ready with
      | None => Some (unmet, ordered)
      | Some ((_, node), ready) =>
          fs ← followers !! node;
          '(unmet, ready) ← release key fs unmet ready;
          take_ready fuel key followers unmet ready (ordered ++ [node])
      end
  end.

Definition topological_order (count : nat) (edges : list (nat * nat)) (key : nat → K)
    : option (list nat * list nat) :=
  '(unmet, followers) ← add_edges (replicate count 0, replicate count []) edges;
  let ready := (λ n, (key n, n)) <$> filter (λ n, unmet !! n = Some 0) (seq 0 count) in
  '(unmet, ordered) ← take_ready (S count) key followers unmet ready [];
  Some (ordered, filter (λ n, 0 < default 0 (unmet !! n)) (seq 0 count)).
End topology.

(** ** Lists by their indices *)

Definition precedes {A} (y x : A) (l : list A) : Prop := ∃ l1 l2 : list A, l = l1 ++ x :: l2 ∧ y ∈ l1.

(** The elements at a list of indices. *)
Definition at_indices {A} (l : list A) (js : list nat) (l' : list A) : Prop := Forall2 (λ i x, l !! i = Some x) js l'.

Lemma at_indices_total {A} (l : list A) (js : list nat) : Forall (λ i, i < length l) js → ∃ l', mapM (λ i, l !! i) js = Some l' ∧ at_indices l js l'.
Proof.
  intros His. destruct (mapM_is_Some_2 (λ i, l !! i) js) as [l' Hl'].
  { eapply Forall_impl; [|exact His]. intros i Hi. by apply lookup_lt_is_Some_2. }
  exists l'. split; [done|]. by apply mapM_Some_1.
Qed.

Lemma at_indices_elem {A} (l : list A) (js : list nat) l' x : at_indices l js l' → x ∈ l' ↔ ∃ i, i ∈ js ∧ l !! i = Some x.
Proof.
  intros Hat. split.
  - intros Hx. apply list_elem_of_lookup in Hx as [j Hj].
    destruct (Forall2_lookup_r _ _ _ _ _ Hat Hj) as (i & Hi & Hx). exists i. split; [by eapply list_elem_of_lookup_2|done].
  - intros (i & Hi & Hx). apply list_elem_of_lookup in Hi as [j Hj].
    destruct (Forall2_lookup_l _ _ _ _ _ Hat Hj) as (x' & Hx' & Heq). assert (x' = x) as -> by congruence.
    by eapply list_elem_of_lookup_2.
Qed.

Lemma at_indices_fun {A} (l : list A) (js : list nat) l1 l2 : at_indices l js l1 → at_indices l js l2 → l1 = l2.
Proof.
  intros H1. revert l2. induction H1 as [|i x js l1 Hi _ IH]; intros l2.
  - by intros ->%Forall2_nil_inv_l.
  - intros (x' & l2' & Hx' & Hl2 & ->)%Forall2_cons_inv_l. f_equal; [congruence|by apply IH].
Qed.

Lemma at_indices_perm {A} (l : list A) (js : list nat) l' : at_indices l js l' → js ≡ₚ seq 0 (length l) → l' ≡ₚ l.
Proof.
  intros Hat Hp. assert (at_indices l (seq 0 (length l)) l) as Hid.
  { apply Forall2_same_length_lookup. split; [by rewrite length_seq|]. intros i j x [-> _]%lookup_seq. done. }
  destruct (Permutation_Forall2 Hp Hat) as (l'' & Hp' & Hat'). rewrite Hp'.
  by rewrite (at_indices_fun _ _ _ _ Hat' Hid).
Qed.

(** ** The graph *)

(** The edges into [m] whose source is not among [taken]. *)
Definition pending (edges : list (nat * nat)) (taken : list nat) (m : nat) : nat :=
  length (filter (λ e, e.2 = m ∧ e.1 ∉ taken) edges).

Definition followers_of (edges : list (nat * nat)) (n : nat) : list nat :=
  (filter (λ e, e.1 = n) edges).*2.

Definition occurrences (m : nat) (l : list nat) : nat := length (filter (m =.) l).

Definition in_range (count : nat) (edges : list (nat * nat)) : Prop :=
  Forall (λ e, e.1 < count ∧ e.2 < count) edges.

Lemma pending_snoc edges e taken m :
  pending (edges ++ [e]) taken m
  = pending edges taken m + (if decide (e.2 = m ∧ e.1 ∉ taken) then 1 else 0).
Proof.
  unfold pending. rewrite list.filter_app, length_app. f_equal.
  rewrite list.filter_cons, list.filter_nil. by destruct (decide _).
Qed.

Lemma pending_cons e edges taken m :
  pending (e :: edges) taken m
  = (if decide (e.2 = m ∧ e.1 ∉ taken) then 1 else 0) + pending edges taken m.
Proof. unfold pending. rewrite list.filter_cons. by destruct (decide _). Qed.

Lemma followers_of_snoc edges e n :
  followers_of (edges ++ [e]) n
  = followers_of edges n ++ (if decide (e.1 = n) then [e.2] else []).
Proof.
  unfold followers_of. rewrite list.filter_app, fmap_app. f_equal.
  rewrite list.filter_cons, list.filter_nil. by destruct (decide _).
Qed.

Lemma occurrences_cons m x l :
  occurrences m (x :: l) = (if decide (m = x) then 1 else 0) + occurrences m l.
Proof. unfold occurrences. rewrite list.filter_cons. by destruct (decide _). Qed.

Lemma occurrences_zero m l : occurrences m l = 0 ↔ m ∉ l.
Proof.
  induction l as [|x l IH]; [by split; [intros _ Hm; by apply elem_of_nil in Hm|]|].
  rewrite occurrences_cons, not_elem_of_cons. destruct (decide _); naive_solver lia.
Qed.

(** Taking [n] meets one predecessor of each of its followers. *)
Lemma pending_take edges taken n m :
  n ∉ taken →
  pending edges taken m
  = pending edges (taken ++ [n]) m + occurrences m (followers_of edges n).
Proof.
  intros Hn. induction edges as [|[b a] edges IH]; [done|].
  rewrite !pending_cons, IH. unfold followers_of. rewrite list.filter_cons. cbn [fst snd].
  assert (b ∉ taken ++ [n] ↔ b ∉ taken ∧ b ≠ n) as Hb by set_solver.
  destruct (decide (b = n)) as [->|Hne].
  - cbn [fmap list_fmap snd]. rewrite occurrences_cons.
    destruct (decide (a = m ∧ n ∉ taken)), (decide (a = m ∧ n ∉ taken ++ [n])), (decide (m = a));
      naive_solver lia.
  - destruct (decide (a = m ∧ b ∉ taken)), (decide (a = m ∧ b ∉ taken ++ [n])); naive_solver lia.
Qed.

(** The two tables, as the edges define them. *)
Lemma add_edges_spec count edges0 edges unmet followers :
  in_range count edges →
  length unmet = count → length followers = count →
  (∀ m, m < count → unmet !! m = Some (pending edges0 [] m)) →
  (∀ n, n < count → followers !! n = Some (followers_of edges0 n)) →
  ∃ unmet' followers',
    add_edges (unmet, followers) edges = Some (unmet', followers')
    ∧ length unmet' = count ∧ length followers' = count
    ∧ (∀ m, m < count → unmet' !! m = Some (pending (edges0 ++ edges) [] m))
    ∧ (∀ n, n < count → followers' !! n = Some (followers_of (edges0 ++ edges) n)).
Proof.
  revert edges0 unmet followers. induction edges as [|[b a] edges IH];
    intros edges0 unmet followers Hr Hlu Hlf Hu Hf.
  { exists unmet, followers. rewrite app_nil_r. done. }
  apply Forall_cons_iff in Hr as [[Hb Ha] Hr]. cbn in Hb, Ha.
  cbn [add_edges add_edge]. rewrite (Hf b Hb). cbn [mbind option_bind].
  rewrite (Hu a Ha). cbn [mbind option_bind].
  destruct (IH (edges0 ++ [(b, a)]) (<[a := S (pending edges0 [] a)]> unmet)
              (<[b := followers_of edges0 b ++ [a]]> followers)) as (u' & f' & Heq & ?).
  - done.
  - by rewrite length_insert.
  - by rewrite length_insert.
  - intros m Hm. rewrite pending_snoc. cbn [fst snd]. destruct (decide (m = a)) as [->|Hne].
    + rewrite list_lookup_insert_eq by lia. rewrite decide_True by set_solver. f_equal. lia.
    + rewrite list_lookup_insert_ne by done. rewrite decide_False by naive_solver.
      rewrite Hu by done. f_equal. lia.
  - intros n Hn. rewrite followers_of_snoc. cbn [fst snd]. destruct (decide (b = n)) as [->|Hne].
    + by rewrite list_lookup_insert_eq by lia.
    + rewrite list_lookup_insert_ne by done. by rewrite Hf, app_nil_r.
  - exists u', f'. rewrite Heq. by rewrite <- !app_assoc in *.
Qed.

Section loop.
Context {K : Type} `{TotalLe K} (key : nat → K) (count : nat) (edges : list (nat * nat)).
Context (Hrange : in_range count edges).

Definition item (n : nat) : K * nat := (key n, n).

(** The inner loop leaves the counts without the followers, and makes ready
    those it brought to zero, once each. *)
Lemma release_spec (c : nat → nat) fs unmet ready :
  length unmet = count → Forall (λ x, x < count) fs →
  (∀ m, m < count → unmet !! m = Some (c m + occurrences m fs)) →
  ∃ unmet' ready' new,
    release key fs unmet ready = Some (unmet', ready')
    ∧ length unmet' = count
    ∧ (∀ m, m < count → unmet' !! m = Some (c m))
    ∧ ready' ≡ₚ (item <$> new) ++ ready ∧ NoDup new
    ∧ ∀ m, m ∈ new ↔ m ∈ fs ∧ c m = 0.
Proof.
  revert unmet ready. induction fs as [|f fs IH]; intros unmet ready Hl Hfs Hu.
  { exists unmet, ready, []. split_and!; [done|done| |done|constructor|].
    - intros m Hm. rewrite Hu by done. f_equal. unfold occurrences. cbn. lia.
    - intros m. split; [intros Hm; by apply elem_of_nil in Hm|intros [Hm _]; by apply elem_of_nil in Hm]. }
  apply Forall_cons_iff in Hfs as [Hf Hfs]. cbn [release].
  assert (unmet !! f = Some (S (c f + occurrences f fs))) as ->.
  { rewrite Hu by done. rewrite occurrences_cons, decide_True by done. f_equal. lia. }
  set (u := c f + occurrences f fs).
  destruct (IH (<[f := u]> unmet) (if u =? 0 then (key f, f) :: ready else ready))
    as (unmet' & ready' & new & Heq & Hl' & Hu' & Hp & Hnd & Hin).
  - by rewrite length_insert.
  - done.
  - intros m Hm. destruct (decide (m = f)) as [->|Hne].
    + by rewrite list_lookup_insert_eq by lia.
    + rewrite list_lookup_insert_ne, Hu by done. by rewrite occurrences_cons, decide_False.
  - rewrite Heq. destruct (u =? 0) eqn:Eu.
    + assert (c f = 0 ∧ f ∉ fs) as [Hc Hnf]. { rewrite <- occurrences_zero. lia. }
      exists unmet', ready', (f :: new). split_and!; [done|done|done| | |].
      * rewrite Hp. rewrite fmap_cons. by rewrite <- Permutation_middle.
      * constructor; [|done]. rewrite Hin. naive_solver.
      * intros m. rewrite !elem_of_cons, Hin. naive_solver.
    + exists unmet', ready', new. split_and!; try done.
      intros m. rewrite elem_of_cons, Hin. split; [naive_solver|].
      intros [[->|?] Hc]; [|done]. split; [|done].
      destruct (decide (f ∈ fs)) as [?|Hnf]; [done|]. apply occurrences_zero in Hnf. lia.
Qed.

(** A node before another in a list. *)
Definition before (b a : nat) (l : list nat) : Prop :=
  ∃ l1 l2, l = l1 ++ a :: l2 ∧ b ∈ l1.

(** [l] takes, at every point, the smallest of the nodes that are ready. *)
Definition greedy (l : list nat) : Prop :=
  ∀ l1 x l2 y, l = l1 ++ x :: l2 → y < count → y ∉ l1 →
    (∀ b, (b, y) ∈ edges → b ∈ l1) → leb (item x) (item y) = true.

(** The state of the outer loop. *)
Record loop_inv (unmet : list nat) (ready : list (K * nat)) (ordered : list nat) : Prop := {
  inv_len : length unmet = count;
  inv_unmet m : m < count → unmet !! m = Some (pending edges ordered m);
  inv_ready : ∃ ns, ready ≡ₚ item <$> ns ∧ NoDup ns
    ∧ ∀ m, m ∈ ns ↔ m < count ∧ m ∉ ordered ∧ pending edges ordered m = 0;
  inv_nodup : NoDup ordered;
  inv_range : Forall (λ x, x < count) ordered;
  inv_edges b a : (b, a) ∈ edges → a ∈ ordered → before b a ordered;
  inv_greedy : greedy ordered;
}.

Lemma pending_zero taken m :
  pending edges taken m = 0 ↔ ∀ b, (b, m) ∈ edges → b ∈ taken.
Proof.
  unfold pending. rewrite length_zero_iff_nil. split.
  - intros Hf b Hb. destruct (decide (b ∈ taken)) as [?|Hn]; [done|exfalso].
    assert ((b, m) ∈ filter (λ e, e.2 = m ∧ e.1 ∉ taken) edges) as Hin
      by by apply list_elem_of_filter.
    rewrite Hf in Hin. by apply elem_of_nil in Hin.
  - intros Hb. destruct (filter _ edges) as [|[b a] l] eqn:E; [done|exfalso].
    assert ((b, a) ∈ filter (λ e, e.2 = m ∧ e.1 ∉ taken) edges) as Hin by (rewrite E; by left).
    apply list_elem_of_filter in Hin as [[? Hn] Hin]. cbn in *. subst. apply Hn, Hb, Hin.
Qed.

Lemma followers_range n : Forall (λ x, x < count) (followers_of edges n).
Proof.
  rewrite list.Forall_forall. intros m (e & -> & He)%list_elem_of_fmap.
  apply list_elem_of_filter in He as [_ He]. unfold in_range in Hrange.
  rewrite list.Forall_forall in Hrange. by apply Hrange.
Qed.

Lemma elem_followers n m : m ∈ followers_of edges n ↔ (n, m) ∈ edges.
Proof.
  unfold followers_of. rewrite list_elem_of_fmap. split.
  - intros ([b a] & -> & [Hb Ha]%list_elem_of_filter). cbn in *. by subst.
  - intros He. exists (n, m). split; [done|]. by apply list_elem_of_filter.
Qed.

Lemma before_app b a l l' : before b a l → before b a (l ++ l').
Proof. intros (l1 & l2 & -> & Hb). exists l1, (l2 ++ l'). by rewrite <- app_assoc. Qed.

Lemma before_mem b a l : before b a l → b ∈ l.
Proof. intros (l1 & l2 & -> & Hb). by apply elem_of_app; left. Qed.

(** Splits of a list with one more element. *)
Lemma snoc_split {A} (l l1 l2 : list A) n x :
  l ++ [n] = l1 ++ x :: l2 →
  (l2 = [] ∧ l1 = l ∧ x = n) ∨ ∃ l2', l2 = l2' ++ [n] ∧ l = l1 ++ x :: l2'.
Proof.
  intros E. destruct l2 as [|y l2] using rev_ind.
  - apply app_inj_tail in E as [-> ->]. by left.
  - rewrite app_comm_cons, app_assoc in E. apply app_inj_tail in E as [-> ->]. right. eauto.
Qed.

(** One round keeps the invariant. *)
Lemma loop_inv_step unmet ready ordered k node rest :
  loop_inv unmet ready ordered → pop_min ready = Some ((k, node), rest) →
  node < count ∧ node ∉ ordered
  ∧ ∃ unmet' ready',
      release key (followers_of edges node) unmet rest = Some (unmet', ready')
      ∧ loop_inv unmet' ready' (ordered ++ [node]).
Proof.
  intros [Hl Hu (ns & Hp & Hnd & Hns) Hno Hro He Hg] Hpop.
  pose proof (pop_min_Some _ _ _ Hpop) as [Hpp _].
  assert (k = key node ∧ node ∈ ns) as [-> Hnode].
  { assert ((k, node) ∈ item <$> ns) as Hin by (rewrite <- Hp, Hpp; by left).
    apply list_elem_of_fmap in Hin as (m & [= -> ->] & ?). done. }
  apply Hns in Hnode as Hx. destruct Hx as (Hlt & Hnin & Hz).
  split; [done|]. split; [done|].
  destruct (release_spec (pending edges (ordered ++ [node])) (followers_of edges node) unmet rest)
    as (unmet' & ready' & new & Heq & Hl' & Hu' & Hp' & Hnd' & Hnew).
  { done. }
  { apply followers_range. }
  { intros m Hm. rewrite Hu by done. f_equal. by apply pending_take. }
  exists unmet', ready'. split; [done|].
  destruct (proj1 (elem_of_Permutation ns node) Hnode) as [ns' Hns'].
  rewrite Hns' in Hnd. apply list.NoDup_cons in Hnd as [Hnn Hnd].
  assert (rest ≡ₚ item <$> ns') as Hrest.
  { apply (Permutation_cons_inv (a := item node)). rewrite <- Hpp, Hp, Hns'. done. }
  assert (∀ m, m ∈ ns' ↔ m ∈ ns ∧ m ≠ node) as Hns2.
  { intros m. rewrite Hns', elem_of_cons. naive_solver. }
  assert (∀ m, (node, m) ∈ edges → m ∉ ns ∧ m ≠ node ∧ m ∉ ordered) as Hfol.
  { intros m Hm. split_and!.
    - intros (_ & _ & Hz')%Hns. apply Hnin. by eapply pending_zero.
    - intros ->. apply Hnin. by eapply pending_zero.
    - intros Hm'. apply Hnin. eapply before_mem. by apply (He _ m). }
  split; [done|done| | | | |].
  - exists (new ++ ns'). split_and!.
    + by rewrite Hp', Hrest, fmap_app.
    + apply list.NoDup_app. split_and!; [done| |done]. intros m [Hm _]%Hnew [Hm' _]%Hns2.
      apply elem_followers in Hm. by destruct (Hfol m Hm).
    + intros m. rewrite elem_of_app, Hnew, Hns2, elem_followers, Hns.
      pose proof (pending_take edges ordered node m Hnin) as Ht.
      assert (m ∉ ordered ++ [node] ↔ m ∉ ordered ∧ m ≠ node) as -> by set_solver.
      split.
      * intros [[Hm Hc]|[(? & ? & ?) ?]]; [|split_and!; [done|done|done|lia]].
        pose proof (Hfol m Hm) as (? & ? & ?). split_and!; try done.
        apply elem_followers in Hm. pose proof (followers_range node) as Hr.
        rewrite list.Forall_forall in Hr. by apply Hr.
      * intros (? & [??] & ?). destruct (decide ((node, m) ∈ edges)) as [Hm|Hm]; [by left|right].
        split_and!; try done. rewrite <- elem_followers, <- occurrences_zero in Hm. lia.
  - apply list.NoDup_app. split_and!; [done| |apply list.NoDup_singleton].
    intros m Hm ->%list_elem_of_singleton. done.
  - apply Forall_app. split; [done|]. by constructor.
  - intros b a Hba [Ha| ->%list_elem_of_singleton]%elem_of_app.
    + apply before_app. by apply He.
    + exists ordered, []. split; [done|]. by eapply pending_zero.
  - intros l1 x l2 y El Hy Hyn Hyb.
    destruct (snoc_split _ _ _ _ _ El) as [(-> & -> & ->)|(l2' & -> & ->)].
    + eapply pop_min_least; [exact Hpop|]. rewrite Hp. apply list_elem_of_fmap. exists y.
      split; [done|]. apply Hns. split_and!; [done|done|]. by apply pending_zero.
    + by eapply Hg.
Qed.

Lemma take_ready_spec fuel followers unmet ready ordered :
  (∀ n, n < count → followers !! n = Some (followers_of edges n)) →
  loop_inv unmet ready ordered → count < fuel + length ordered →
  ∃ unmet' ordered',
    take_ready fuel key followers unmet ready ordered = Some (unmet', ordered')
    ∧ loop_inv unmet' [] ordered'.
Proof.
  intros Hf. revert unmet ready ordered. induction fuel as [|fuel IH]; intros unmet ready ordered Hi Hlt.
  { exfalso. pose proof (inv_nodup _ _ _ Hi) as Hnd. pose proof (inv_range _ _ _ Hi) as Hr.
    assert (length ordered ≤ length (seq 0 count)) as Hle.
    { apply NoDup_incl_length; [by apply NoDup_ListNoDup|]. intros m Hm%list_elem_of_In.
      rewrite list.Forall_forall in Hr. apply list_elem_of_In, elem_of_seq.
      specialize (Hr m Hm). cbn in Hr. lia. }
    rewrite length_seq in Hle. lia. }
  cbn [take_ready]. destruct (pop_min ready) as [[[k node] rest]|] eqn:E.
  - destruct (loop_inv_step _ _ _ _ _ _ Hi E) as (Hn & _ & unmet' & ready' & Hrel & Hi').
    rewrite (Hf node Hn). cbn [mbind option_bind]. rewrite Hrel. cbn [mbind option_bind].
    apply IH; [done|]. lengths.
  - apply pop_min_None in E as ->. by exists unmet, ordered.
Qed.
End loop.

(** A list and what it leaves of another that contains it are that other. *)
Lemma partition_permutation (l k : list nat) :
  NoDup l → NoDup k → (∀ m, m ∈ l → m ∈ k) → l ++ filter (λ n, n ∉ l) k ≡ₚ k.
Proof.
  intros Hl Hk Hs. apply NoDup_Permutation; [|done|].
  - apply list.NoDup_app. split_and!; [done| |by apply list.NoDup_filter].
    intros m Hm [Hn _]%list_elem_of_filter. done.
  - intros m. rewrite elem_of_app, list_elem_of_filter.
    destruct (decide (m ∈ l)); naive_solver.
Qed.

Section theorems.
Context {K : Type} `{TotalLe K} (key : nat → K) (count : nat) (edges : list (nat * nat)).

Lemma loop_inv_init unmet :
  length unmet = count → (∀ m, m < count → unmet !! m = Some (pending edges [] m)) →
  loop_inv key count edges unmet
    ((λ n, (key n, n)) <$> filter (λ n, unmet !! n = Some 0) (seq 0 count)) [].
Proof.
  intros Hl Hu. split; [done|done| |constructor|constructor| |].
  - exists (filter (λ n, unmet !! n = Some 0) (seq 0 count)). split_and!; [done| |].
    + apply list.NoDup_filter, NoDup_seq.
    + intros m. rewrite list_elem_of_filter, elem_of_seq. split.
      * intros [Hm Hr]. rewrite Hu in Hm by lia. split_and!; [lia|apply not_elem_of_nil|congruence].
      * intros (? & _ & Hz). rewrite Hu, Hz by done. split; [done|lia].
  - intros b a _ Ha. by apply elem_of_nil in Ha.
  - intros [|? ?] x l2 y E; discriminate E.
Qed.

(** The result of the algorithm, from the loop's invariant. *)
Lemma topological_order_run :
  in_range count edges →
  ∃ unmet ordered,
    topological_order count edges key
    = Some (ordered, filter (λ n, 0 < default 0 (unmet !! n)) (seq 0 count))
    ∧ loop_inv key count edges unmet [] ordered.
Proof.
  intros Hr.
  destruct (add_edges_spec count [] edges (replicate count 0) (replicate count []))
    as (unmet & followers & Ha & Hlu & Hlf & Hu & Hf).
  - done.
  - by rewrite length_replicate.
  - by rewrite length_replicate.
  - intros m Hm. by rewrite lookup_replicate_2.
  - intros n Hn. by rewrite lookup_replicate_2.
  - destruct (take_ready_spec key count edges Hr (S count) followers unmet _ [] Hf
      (loop_inv_init unmet Hlu Hu) ltac:(cbn; lia)) as (unmet' & ordered & Ht & Hi).
    exists unmet', ordered. split; [|done]. unfold topological_order.
    rewrite Ha. cbn [mbind option_bind]. rewrite Ht. done.
Qed.

Lemma left_over_eq unmet ordered :
  loop_inv key count edges unmet [] ordered →
  (∀ m, m < count → m ∉ ordered ↔ 0 < pending edges ordered m)
  ∧ filter (λ n, 0 < default 0 (unmet !! n)) (seq 0 count)
    = filter (λ n, n ∉ ordered) (seq 0 count).
Proof.
  intros [Hl Hu (ns & Hp & _ & Hns) _ _ He _].
  assert (ns = []) as ->. { apply Permutation_nil in Hp. by destruct ns. }
  assert (∀ m, m < count → m ∉ ordered ↔ 0 < pending edges ordered m) as Hm.
  { intros m Hm. split.
    - intros Hn. destruct (pending edges ordered m) eqn:E; [|lia].
      assert (m ∈ @nil nat) as Hx by by apply Hns. by apply elem_of_nil in Hx.
    - intros Hp' Hin. assert (pending edges ordered m = 0); [|lia].
      apply pending_zero. intros b Hb. by eapply before_mem, He. }
  split; [done|]. apply filter_ext_elem. intros m Hs%elem_of_seq.
  rewrite Hu, Hm by lia. done.
Qed.

(** Kahn's algorithm on edges between nodes there are. *)
Lemma topological_order_correct :
  in_range count edges →
  ∃ ordered left_over,
    topological_order count edges key = Some (ordered, left_over)
    ∧ ordered ++ left_over ≡ₚ seq 0 count
    ∧ (∀ b a, (b, a) ∈ edges → a ∈ ordered → before b a ordered)
    ∧ greedy key count edges ordered
    ∧ left_over = filter (λ n, n ∉ ordered) (seq 0 count)
    ∧ (∀ a, a ∈ left_over → ∃ b, (b, a) ∈ edges ∧ b ∈ left_over).
Proof.
  intros Hr. destruct (topological_order_run Hr) as (unmet & ordered & Heq & Hi).
  destruct (left_over_eq unmet ordered Hi) as [Hm Hf]. rewrite Hf in Heq.
  exists ordered, (filter (λ n, n ∉ ordered) (seq 0 count)).
  split_and!; [done| |apply (inv_edges _ _ _ _ _ _ Hi)|apply (inv_greedy _ _ _ _ _ _ Hi)|done|].
  - apply partition_permutation; [apply Hi|apply NoDup_seq|].
    intros m Hm'. pose proof (inv_range _ _ _ _ _ _ Hi) as Hro.
    rewrite list.Forall_forall in Hro. apply elem_of_seq. specialize (Hro m Hm'). cbn in Hro. lia.
  - intros a [Ha Hs%elem_of_seq]%list_elem_of_filter.
    apply Hm in Ha; [|lia]. unfold pending in Ha.
    destruct (filter _ edges) as [|[b a'] l] eqn:E; [cbn in Ha; lia|].
    assert ((b, a') ∈ filter (λ e, e.2 = a ∧ e.1 ∉ ordered) edges) as Hb by (rewrite E; by left).
    apply list_elem_of_filter in Hb as [[? Hn] Hb]. cbn in *. subst a'. exists b. split; [done|].
    apply list_elem_of_filter. split; [done|]. apply elem_of_seq.
    unfold in_range in Hr. rewrite list.Forall_forall in Hr. specialize (Hr _ Hb). cbn in Hr. lia.
Qed.

(** C25: the order is a dependency order, complete and deterministic. For edges
    between existing nodes it never panics; the ordered nodes and the left-over
    ones are all the nodes, once each; every ordered node comes after all of its
    predecessors; at every step the node taken has the smallest key of the nodes
    that were ready; the left-over nodes are in index order, and each of them has
    a predecessor left over too, so it is on or behind a cycle. *)
Theorem topological_order_is_sound :
  in_range count edges →
  ∃ ordered left_over,
    topological_order count edges key = Some (ordered, left_over)
    ∧ ordered ++ left_over ≡ₚ seq 0 count
    ∧ (∀ b a, (b, a) ∈ edges → a ∈ ordered → before b a ordered)
    ∧ greedy key count edges ordered
    ∧ left_over = filter (λ n, n ∉ ordered) (seq 0 count)
    ∧ (∀ a, a ∈ left_over → ∃ b, (b, a) ∈ edges ∧ b ∈ left_over).
Proof. apply topological_order_correct. Qed.

(** A graph without cycles is ordered whole. When some rank grows along
    every edge, nothing is left over and every edge points forward in the order. *)
Theorem acyclic_graph_is_ordered_whole (rank : nat → nat) :
  in_range count edges → (∀ b a, (b, a) ∈ edges → rank b < rank a) →
  ∃ ordered,
    topological_order count edges key = Some (ordered, [])
    ∧ ordered ≡ₚ seq 0 count
    ∧ ∀ b a, (b, a) ∈ edges → before b a ordered.
Proof.
  intros Hr Hrank. destruct (topological_order_run Hr) as (unmet & ordered & Heq & Hi).
  destruct (left_over_eq unmet ordered Hi) as [Hm Hf]. rewrite Hf in Heq.
  assert (∀ m, m < count → m ∈ ordered) as Hall.
  { intros m. remember (rank m) as r eqn:Er. revert m Er.
    induction r as [r IH] using lt_wf_ind. intros m -> Hlt.
    destruct (decide (m ∈ ordered)) as [?|Hn]; [done|exfalso].
    apply Hm in Hn; [|done]. assert (pending edges ordered m = 0); [|lia].
    apply pending_zero. intros b Hb. eapply IH; [by apply (Hrank b m)|done|].
    unfold in_range in Hr. rewrite list.Forall_forall in Hr. by apply (Hr (b, m)). }
  assert (filter (λ n, n ∉ ordered) (seq 0 count) = []) as Hnil.
  { destruct (filter _ _) as [|m l] eqn:E; [done|exfalso].
    assert (m ∈ filter (λ n, n ∉ ordered) (seq 0 count)) as Hin by (rewrite E; by left).
    apply list_elem_of_filter in Hin as [Hn Hs%elem_of_seq]. apply Hn, Hall. lia. }
  exists ordered. rewrite Hnil in Heq. split_and!; [done| |].
  - rewrite <- (app_nil_r ordered), <- Hnil at 1.
    apply partition_permutation; [apply Hi|apply NoDup_seq|].
    intros m Hm'. pose proof (inv_range _ _ _ _ _ _ Hi) as Hro.
    rewrite list.Forall_forall in Hro. apply elem_of_seq. specialize (Hro m Hm'). cbn in Hro. lia.
  - intros b a Hb. apply (inv_edges _ _ _ _ _ _ Hi); [done|]. apply Hall.
    unfold in_range in Hr. rewrite list.Forall_forall in Hr. by apply (Hr (b, a)).
Qed.
End theorems.

(** A diamond with a cycle hanging below it; ties go to the smaller key. *)
Lemma topological_order_is_sound_witness :
  let edges := [(0, 1); (0, 2); (1, 3); (2, 3); (3, 4); (4, 5); (5, 4)] in
  topological_order 6 edges (λ n, 10 - n) = Some ([0; 2; 1; 3], [4; 5])
  ∧ ∃ ordered left_over,
      topological_order 6 edges (λ n, 10 - n) = Some (ordered, left_over)
      ∧ ordered ++ left_over ≡ₚ seq 0 6.
Proof.
  split; [vm_compute; reflexivity|].
  destruct (topological_order_is_sound (λ n, 10 - n) 6
    [(0, 1); (0, 2); (1, 3); (2, 3); (3, 4); (4, 5); (5, 4)]) as (o & l & Heq & Hp & _).
  { repeat constructor; cbn; lia. }
  exists o, l. exact (conj Heq Hp).
Defined.

Lemma acyclic_graph_is_ordered_whole_witness :
  ∃ ordered, topological_order 3 [(2, 0); (0, 1)] (λ n, n) = Some (ordered, [])
    ∧ before 2 0 ordered.
Proof.
  destruct (acyclic_graph_is_ordered_whole (λ n, n) 3 [(2, 0); (0, 1)]
    (λ n, match n with 2 => 0 | 0 => 1 | _ => 2 end)) as (o & Heq & _ & Hb).
  - repeat constructor; cbn; lia.
  - intros b a Hin. repeat (apply elem_of_cons in Hin as [[= -> ->]|Hin]; [lia|]).
    destruct (elem_of_nil (b, a)) as [Hx _]. destruct (Hx Hin).
  - exists o. split; [exact Heq|]. apply Hb. left.
Defined.
