(* ===== verification/FlushOrder.v ===== *)
(** * The order of a flush

    src/src/entity_manager/managed.rs: the order in which an entity manager's flush
    writes the entries of a pass. Inserts go first and deletes last; inside each,
    tables are ordered by their declared relations and the rows of one table by the
    foreign keys they hold to each other.

    The entries are read once, as the flush finds them; an entry is whatever
    answers the questions of [ManagedOps]. *)

From stdpp Require Import sorting.
From S2P Require Import Prelude MinHeap Topology.

Inductive EntityState := New | Managed | Removed | Detached.

#[export] Instance EntityState_eq_dec : EqDecision EntityState.
Proof. solve_decision. Defined.

Definition flush_order_rank (state : EntityState) : nat :=
  match state with New => 0 | Managed => 1 | Removed => 2 | Detached => 3 end.

(** A self-referencing foreign key as it applies to a row: the key texts it holds. *)
Record RowLink := {
  foreign_key : str;
  referenced : str;
  provides : option str;
  requires : option str;
}.

(** The part of [ManagedOps] that orders a flush. *)
Class ManagedOps (E : Type) := {
  current_state : E → EntityState;
  table_name : E → str;
  parent_tables : E → list str;
  child_tables : E → list str;
  row_links : E → list RowLink;
}.

Record FlushOrder := { ranks : gmap str nat; unordered : list str }.

(** [FlushOrder::rank]. *)
Definition rank (order : FlushOrder) (table : str) : nat := default 0 (ranks order !! table).

Definition add_dependency_edge (tables : list str) (edges : list (str * str)) (edge : str * str)
  : list (str * str) :=
  let '(parent, child) := edge in
  if bool_decide (parent = child) || negb (bool_decide (parent ∈ tables))
     || negb (bool_decide (child ∈ tables))
  then edges
  else if bool_decide (edge ∈ edges) then edges else edges ++ [edge].

Section Plan.
Context {E : Type} `{ManagedOps E}.

(** The first loop of [plan_flush_order]: the tables of the pass, as first seen. *)
Definition tables_of (entries : list E) : list str :=
  foldl (λ tables entry,
           if bool_decide (table_name entry ∈ tables) then tables
           else tables ++ [table_name entry]) [] entries.

(** The edges of one entry, in the order the second loop adds them. *)
Definition edges_of (entry : E) : list (str * str) :=
  ((λ parent, (parent, table_name entry)) <$> parent_tables entry)
  ++ ((λ child, (table_name entry, child)) <$> child_tables entry).

Definition table_edges (tables : list str) (entries : list E) : list (str * str) :=
  foldl (add_dependency_edge tables) [] (entries ≫= edges_of).

(** [index_of]: a table that is not of the pass is a panic. *)
Definition index_of (tables : list str) (table : str) : option nat :=
  fst <$> list_find (.= table) tables.

(** [plan_flush_order]: [None] is a panic. *)
Definition plan_flush_order (entries : list E) : option FlushOrder :=
  let tables := tables_of entries in
  edges ← mapM (λ e, b ← index_of tables e.1; a ← index_of tables e.2; Some (b, a))
            (table_edges tables entries);
  '(ordered, cycle) ← topological_order (length tables) edges (λ index, index);
  unordered ← mapM (tables !!.) cycle;
  ordered ← mapM (tables !!.) (ordered ++ cycle);
  Some {| ranks := positions (λ table, table) ordered; unordered := unordered |}.

Definition flush_sort_key (order : FlushOrder) (entry : E) : nat * nat :=
  let state := current_state entry in
  let r := rank order (table_name entry) in
  let within_kind :=
    match state with
    | New => r
    | Removed => size (ranks order) - r
    | Managed | Detached => 0
    end in
  (flush_order_rank state, within_kind).

(** ** Rows that reference rows of their table *)

(** The map of [order_rows] from a referenced value to the rows that hold it. *)
Definition add_provider (index : nat) (providers : gmap (str * str * str) (list nat)) (link : RowLink)
  : gmap (str * str * str) (list nat) :=
  match provides link with
  | Some provided =>
      let key := (foreign_key link, referenced link, provided) in
      <[key := default [] (providers !! key) ++ [index]]> providers
  | None => providers
  end.

Definition providers_of (links : list (list RowLink)) : gmap (str * str * str) (list nat) :=
  foldl (λ providers il, foldl (add_provider il.1) providers il.2) ∅ (enumerate 0 links).

(** The edges of one link of the row [referencing]. *)
Definition link_edges (referencing_first : bool) (providers : gmap (str * str * str) (list nat))
    (referencing : nat) (link : RowLink) : list (nat * nat) :=
  match requires link with
  | None => []
  | Some required =>
      (λ referenced, if referencing_first then (referencing, referenced)
                     else (referenced, referencing))
      <$> filter (λ referenced, referenced ≠ referencing)
            (default [] (providers !! (foreign_key link, referenced link, required)))
  end.

Definition row_edges (referencing_first : bool) (links : list (list RowLink)) : list (nat * nat) :=
  enumerate 0 links ≫= λ il, il.2 ≫= link_edges referencing_first (providers_of links) il.1.

Definition order_rows (rows : list E) (referencing_first : bool) : option (list E) :=
  let edges := row_edges referencing_first (row_links <$> rows) in
  match edges with
  | [] => Some rows
  | _ =>
      '(order, cycle) ← topological_order (length rows) edges (λ index, index);
      mapM (rows !!.) (order ++ cycle)
  end.

(** The runs of entries with one state and one table; the fuel counts the entries. *)
Fixpoint order_runs (fuel : nat) (entries : list E) : option (list E) :=
  match entries with
  | [] => Some []
  | first :: _ =>
      match fuel with
      | 0 => None
      | S fuel =>
          let state := current_state first in
          let same e := bool_decide (current_state e = state)
                        && bool_decide (table_name e = table_name first) in
          let run := take_while same entries in
          run' ← (if (bool_decide (state = New) || bool_decide (state = Removed))
                     && (1 <? length run)
                  then order_rows run (bool_decide (state = Removed)) else Some run);
          rest ← order_runs fuel (drop (length run) entries);
          Some (run' ++ rest)
      end
  end.

Definition order_self_references (entries : list E) : option (list E) :=
  order_runs (length entries) entries.

(** The order of one pass, as [flush_in_scope] puts it together. *)
Definition flush_pass_order (entries : list E) : option (FlushOrder * list E) :=
  order ← plan_flush_order entries;
  ordered ← order_self_references (sort_by_key (flush_sort_key order) entries);
  Some (order, ordered).
End Plan.

(** ** Lists *)

(** In a list in which every [b] that must come before [a] does, no later element
    must come before an earlier one. *)
Lemma before_sorted (R : nat → nat → Prop) (l : list nat) :
  NoDup l → (∀ b a, R b a → b ∈ l → a ∈ l → before b a l) →
  StronglySorted (λ i j, i ≠ j ∧ ¬ R j i) l.
Proof.
  induction l as [|x l IH]; [constructor|]. intros [Hx Hnd]%list.NoDup_cons Hb. constructor.
  - apply IH; [done|]. intros b a Hr Hbl Hal.
    destruct (Hb b a Hr) as (l1 & l2 & E & Hin); [by right..|].
    destruct l1 as [|y l1]; [by apply elem_of_nil in Hin|]. injection E as <- El.
    exists l1, l2. split; [done|]. by apply elem_of_cons in Hin as [->|?].
  - apply list.Forall_forall. intros y Hy. split; [by intros ->|]. intros Hr.
    destruct (Hb y x Hr) as (l1 & l2 & E & Hin); [by right|by left|].
    destruct l1 as [|z l1]; [by apply elem_of_nil in Hin|]. injection E as <- El.
    apply Hx. rewrite El. set_solver.
Qed.

Lemma StronglySorted_at {A} (R : A → A → Prop) (l l' : list A) (js : list nat) :
  at_indices l js l' →
  StronglySorted (λ i j, ∀ x y, l !! i = Some x → l !! j = Some y → R x y) js →
  StronglySorted R l'.
Proof.
  intros Hat. induction Hat as [|i x js l' Hi Hat IH]; [constructor|].
  intros [Hs Hf]%StronglySorted_inv. constructor; [by apply IH|].
  apply list.Forall_forall. intros y Hy. apply (at_indices_elem _ _ _ _ Hat) in Hy as (j & Hj & Hy).
  rewrite list.Forall_forall in Hf. by eapply Hf.
Qed.

Lemma StronglySorted_impl {A} (R R' : A → A → Prop) (l : list A) :
  (∀ x y, x ∈ l → y ∈ l → R x y → R' x y) → StronglySorted R l → StronglySorted R' l.
Proof.
  intros Himp Hs. induction Hs as [|x l Hs IH Hf]; [constructor|]. constructor.
  - apply IH. intros y z Hy Hz. apply Himp; by right.
  - rewrite list.Forall_forall in *. intros y Hy. apply Himp; [by left|by right|by apply Hf].
Qed.

(** A relation of images holds along a list when it does along the images. *)
Lemma StronglySorted_fmap {A B} (f : A → B) (R : B → B → Prop) (l : list A) :
  StronglySorted R (f <$> l) ↔ StronglySorted (λ x y, R (f x) (f y)) l.
Proof.
  induction l as [|x l IH]; [by split; constructor|]. cbn. split; intros [Hs Hf]%StronglySorted_inv.
  - constructor; [by apply IH|]. by rewrite Forall_fmap in Hf.
  - constructor; [by apply IH|]. by rewrite Forall_fmap.
Qed.

(** Where an order and what it left over put two elements. *)
Lemma earlier_index (ordered left_over : list nat) (i j : nat) :
  (j ∈ ordered → before i j ordered) → i ∈ ordered ∨ i ∈ left_over → j ∈ ordered ∨ j ∈ left_over →
  (i ∈ left_over → j ∈ left_over → False) →
  ∃ m n, m < n ∧ (ordered ++ left_over) !! m = Some i ∧ (ordered ++ left_over) !! n = Some j.
Proof.
  intros Hb Hi Hj Hnot. destruct (decide (j ∈ ordered)) as [Hjo|Hjo].
  - destruct (Hb Hjo) as (l1 & l2 & -> & [m Hm]%list_elem_of_lookup).
    pose proof (lookup_lt_Some _ _ _ Hm) as Hlt.
    exists m, (length l1). rewrite <- app_assoc. cbn. split_and!; [done| |by apply list_lookup_middle].
    by rewrite lookup_app_l.
  - destruct Hj as [Hj|Hj]; [done|]. destruct Hi as [Hi|Hi]; [|by destruct (Hnot Hi Hj)].
    apply list_elem_of_lookup in Hi as [m Hm], Hj as [n Hn].
    pose proof (lookup_lt_Some _ _ _ Hm) as Hlt. exists m, (length ordered + n).
    rewrite lookup_app_l by done. rewrite lookup_app_r by lia.
    replace (length ordered + n - length ordered) with n by lia. split_and!; [lia|done|done].
Qed.

Lemma positions_size (l : list str) : NoDup l → size (positions (λ x, x) l) = length l.
Proof.
  intros Hnd. rewrite <- size_dom.
  rewrite <- (size_list_to_set (C := gset str) l) by done. f_equal. apply set_eq. intros t.
  rewrite elem_of_dom, elem_of_list_to_set. split.
  - intros [i Hi]. apply positions_lookup in Hi as (x & Hx & <-); [by eapply list_elem_of_lookup_2|].
    by rewrite list_fmap_id.
  - intros [i Hi]%list_elem_of_lookup. exists i. apply positions_lookup; [by rewrite list_fmap_id|]. eauto.
Qed.

(** ** The tables of a pass *)

Section PlanFacts.
Context {E : Type} `{ManagedOps E}.
Implicit Types (entries : list E) (e : E).

Lemma tables_of_spec entries :
  NoDup (tables_of entries) ∧ ∀ t, t ∈ tables_of entries ↔ ∃ e, e ∈ entries ∧ table_name e = t.
Proof.
  unfold tables_of.
  induction entries as [|e entries [Hnd Hin]] using rev_ind.
  { cbn. split; [constructor|]. intros t. split; [by intros ?%elem_of_nil|].
    by intros (? & ?%elem_of_nil & _). }
  rewrite foldl_app. cbn. set (tables := foldl _ _ entries) in *.
  assert (∀ t, t ∈ tables ∨ t = table_name e ↔ ∃ x, x ∈ entries ++ [e] ∧ table_name x = t) as Hor.
  { intros t. rewrite Hin. setoid_rewrite elem_of_app. setoid_rewrite list_elem_of_singleton. naive_solver. }
  case_bool_decide as Hd.
  - split; [done|]. intros t. rewrite <- Hor. split; [by left|by intros [?| ->]].
  - split.
    + apply list.NoDup_app. split_and!; [done| |apply NoDup_singleton].
      intros t Ht ->%list_elem_of_singleton. done.
    + intros t. rewrite elem_of_app, list_elem_of_singleton. apply Hor.
Qed.

(** A constraint between two tables of the pass. *)
Definition declared entries (parent child : str) : Prop :=
  parent ≠ child ∧ (∃ e, e ∈ entries ∧ table_name e = parent)
  ∧ (∃ e, e ∈ entries ∧ table_name e = child)
  ∧ ∃ e, e ∈ entries ∧ ((table_name e = child ∧ parent ∈ parent_tables e)
                        ∨ (table_name e = parent ∧ child ∈ child_tables e)).

Lemma elem_of_edges_of e b a :
  (b, a) ∈ edges_of e ↔ (table_name e = a ∧ b ∈ parent_tables e)
                        ∨ (table_name e = b ∧ a ∈ child_tables e).
Proof.
  unfold edges_of. rewrite elem_of_app, !list_elem_of_fmap. naive_solver.
Qed.

Lemma table_edges_spec entries b a :
  (b, a) ∈ table_edges (tables_of entries) entries ↔ declared entries b a.
Proof.
  unfold table_edges, declared.
  assert (∀ tables edges acc,
    (b, a) ∈ foldl (add_dependency_edge tables) acc edges
    ↔ (b, a) ∈ acc ∨ ((b, a) ∈ edges ∧ b ≠ a ∧ b ∈ tables ∧ a ∈ tables)) as Hfold.
  { intros tables edges. induction edges as [|[p c] edges IH]; intros acc; cbn [foldl].
    - split; [by left|by intros [?|[?%elem_of_nil _]]].
    - rewrite IH, elem_of_cons. unfold add_dependency_edge.
      destruct (bool_decide (p = c)) eqn:E1, (bool_decide (p ∈ tables)) eqn:E2,
        (bool_decide (c ∈ tables)) eqn:E3; cbn;
        rewrite ?bool_decide_eq_true, ?bool_decide_eq_false in *;
        try (case_bool_decide; rewrite ?elem_of_app, ?list_elem_of_singleton); naive_solver. }
  rewrite Hfold. destruct (tables_of_spec entries) as [_ Ht]. rewrite !Ht.
  setoid_rewrite list_elem_of_bind. setoid_rewrite elem_of_edges_of.
  split; [intros [?%elem_of_nil|?]; [done|]|right]; naive_solver.
Qed.

Lemma index_of_spec (tables : list str) t i :
  NoDup tables → index_of tables t = Some i ↔ tables !! i = Some t.
Proof.
  intros Hnd. unfold index_of. destruct (list_find _ tables) as [[j x]|] eqn:Ef; cbn.
  - apply list_find_Some in Ef as (Hj & -> & _). split; [by intros [= ->]|].
    intros Hi. f_equal. by eapply NoDup_lookup.
  - split; [done|]. intros Hi. apply list_find_None in Ef. rewrite list.Forall_forall in Ef.
    destruct (Ef t); [by eapply list_elem_of_lookup_2|done].
Qed.

(** What the plan of a pass promises. *)
Record plan_ok entries (order : FlushOrder) : Prop := {
  plan_ranks t r : ranks order !! t = Some r → r < size (ranks order);
  plan_tables e : e ∈ entries → is_Some (ranks order !! table_name e);
  plan_inj t t' r : ranks order !! t = Some r → ranks order !! t' = Some r → t = t';
  plan_edges b a : declared entries b a → b ∉ unordered order ∨ a ∉ unordered order →
    rank order b < rank order a;
  plan_cycle a : a ∈ unordered order → ∃ b, declared entries b a ∧ b ∈ unordered order;
}.

(** The edges of the plan, by the indices of their tables. *)
Lemma indexed_edges entries :
  let tables := tables_of entries in
  ∃ edges,
    mapM (λ e : str * str, b ← index_of tables e.1; a ← index_of tables e.2; Some (b, a))
      (table_edges tables entries) = Some edges
    ∧ (∀ i j, (i, j) ∈ edges ↔
         ∃ b a, declared entries b a ∧ tables !! i = Some b ∧ tables !! j = Some a)
    ∧ in_range (length tables) edges.
Proof.
  intros tables. destruct (tables_of_spec entries) as [Hnd Hin]. fold tables in Hnd, Hin.
  set (edge := λ e : str * str, b ← index_of tables e.1; a ← index_of tables e.2; Some (b, a)).
  assert (∀ x i j, edge x = Some (i, j) ↔ tables !! i = Some x.1 ∧ tables !! j = Some x.2) as Hedge.
  { intros [b a] i j. cbn. rewrite <- !index_of_spec by done. unfold edge. cbn.
    destruct (index_of tables b), (index_of tables a); naive_solver. }
  destruct (mapM_is_Some_2 edge (table_edges tables entries)) as [edges Hedges].
  { apply list.Forall_forall. intros [b a] Hba. apply table_edges_spec in Hba as (_ & Hb & Ha & _).
    apply Hin, list_elem_of_lookup in Hb as [i Hi]. apply Hin, list_elem_of_lookup in Ha as [j Hj].
    exists (i, j). by apply Hedge. }
  exists edges. split; [done|]. apply mapM_Some_1 in Hedges.
  assert (∀ i j, (i, j) ∈ edges ↔
         ∃ b a, declared entries b a ∧ tables !! i = Some b ∧ tables !! j = Some a) as He.
  { intros i j. setoid_rewrite <- table_edges_spec. fold tables. split.
    - intros [k Hk]%list_elem_of_lookup. destruct (Forall2_lookup_r _ _ _ _ _ Hedges Hk) as ([b a] & Hba & Hij).
      apply Hedge in Hij. exists b, a. split; [by eapply list_elem_of_lookup_2|done].
    - intros (b & a & [k Hk]%list_elem_of_lookup & Hb & Ha).
      destruct (Forall2_lookup_l _ _ _ _ _ Hedges Hk) as ([i' j'] & Hij & Heq).
      rewrite (proj2 (Hedge (b, a) i j)) in Heq by done. injection Heq as -> ->.
      by eapply list_elem_of_lookup_2. }
  split; [done|]. apply list.Forall_forall. intros [i j] (b & a & _ & Hb & Ha)%He. cbn.
  split; by eapply lookup_lt_Some.
Qed.

Lemma plan_flush_order_ok entries :
  ∃ order, plan_flush_order entries = Some order ∧ plan_ok entries order.
Proof.
  unfold plan_flush_order. set (tables := tables_of entries).
  destruct (tables_of_spec entries) as [Hnd Hin]. fold tables in Hnd, Hin.
  destruct (indexed_edges entries) as (edges & Hedges & He & Hr). fold tables in Hedges, He, Hr.
  rewrite Hedges. cbn [mbind option_bind].
  destruct (topological_order_correct (λ i : nat, i) (length tables) edges Hr)
    as (ordered & left_over & -> & Hp & Hb & _ & Hl & Hs).
  cbn [mbind option_bind].
  assert (Forall (λ i, i < length tables) (ordered ++ left_over)) as Hlt.
  { rewrite Hp. apply list.Forall_forall. intros i [_ ?]%elem_of_seq. lia. }
  destruct (at_indices_total tables (ordered ++ left_over) Hlt) as (L & HL & HatL).
  apply Forall_app in Hlt as [_ Hlt].
  destruct (at_indices_total tables left_over Hlt) as (U & -> & HatU).
  cbn [mbind option_bind]. rewrite HL. cbn [mbind option_bind]. eexists. split; [done|].
  assert (NoDup L) as HndL by by rewrite (at_indices_perm _ _ _ HatL Hp).
  assert (∀ t r, positions (λ t, t) L !! t = Some r ↔ L !! r = Some t) as Hpos.
  { intros t r. rewrite positions_lookup by by rewrite list_fmap_id. naive_solver. }
  assert (NoDup (ordered ++ left_over)) as Hndo by (rewrite Hp; apply NoDup_seq).
  split; cbn [ranks unordered].
  - intros t r Hr'%Hpos. rewrite positions_size by done. by eapply lookup_lt_Some.
  - intros e Hel. assert (table_name e ∈ L) as [r Hr']%list_elem_of_lookup.
    { rewrite (at_indices_perm _ _ _ HatL Hp). apply Hin. eauto. }
    exists r. by apply Hpos.
  - intros t t' r Hr1%Hpos Hr2%Hpos. congruence.
  - intros b a Hd Hor. destruct Hd as (Hne & Hbt & Hat & Hrest).
    apply Hin in Hbt as [i Hi]%list_elem_of_lookup. apply Hin in Hat as [j Hj]%list_elem_of_lookup.
    assert ((i, j) ∈ edges) as Hij.
    { apply He. exists b, a. split; [|done]. split; [done|].
      split; [by apply Hin; eapply list_elem_of_lookup_2|].
      split; [by apply Hin; eapply list_elem_of_lookup_2|done]. }
    destruct (earlier_index ordered left_over i j) as (m & n & Hmn & Hm & Hn).
    { intros Hjo. by apply (Hb i j). }
    { apply elem_of_app. rewrite Hp. apply elem_of_seq. apply lookup_lt_Some in Hi. lia. }
    { apply elem_of_app. rewrite Hp. apply elem_of_seq. apply lookup_lt_Some in Hj. lia. }
    { rewrite !(at_indices_elem _ _ _ _ HatU) in Hor. intros Hil Hjl. destruct Hor as [Hor|Hor]; eauto. }
    destruct (Forall2_lookup_l _ _ _ _ _ HatL Hm) as (b' & Hb' & Hbi).
    destruct (Forall2_lookup_l _ _ _ _ _ HatL Hn) as (a' & Ha' & Hai).
    unfold rank. cbn [ranks].
    rewrite (proj2 (Hpos b m)) by congruence. rewrite (proj2 (Hpos a n)) by congruence. done.
  - intros t (i & Hi & Ht)%(at_indices_elem _ _ _ _ HatU). destruct (Hs i Hi) as (j & Hji & Hj).
    apply He in Hji as (b & a & Hd & Hb' & Ha'). assert (a = t) as -> by congruence.
    exists b. split; [done|]. apply (at_indices_elem _ _ _ _ HatU). eauto.
Qed.

(** ** The rows of a table *)

(** [x] holds a foreign key to [y]. *)
Definition references (x y : E) : Prop :=
  ∃ lx ly v, lx ∈ row_links x ∧ ly ∈ row_links y
    ∧ foreign_key lx = foreign_key ly ∧ referenced lx = referenced ly
    ∧ requires lx = Some v ∧ provides ly = Some v.

Lemma add_provider_lookup index providers link key i :
  i ∈ default [] (add_provider index providers link !! key) ↔
  i ∈ default [] (providers !! key)
  ∨ (i = index ∧ ∃ v, provides link = Some v ∧ key = (foreign_key link, referenced link, v)).
Proof.
  unfold add_provider. destruct (provides link) as [v|]; [|naive_solver].
  set (k := (foreign_key link, referenced link, v)). destruct (decide (key = k)) as [->|Hne].
  - rewrite lookup_insert_eq. cbn. rewrite elem_of_app, list_elem_of_singleton. naive_solver.
  - rewrite lookup_insert_ne by done. subst k. naive_solver.
Qed.

Lemma providers_of_lookup (links : list (list RowLink)) key i :
  i ∈ default [] (providers_of links !! key) ↔
  ∃ ls link v, links !! i = Some ls ∧ link ∈ ls ∧ provides link = Some v
    ∧ key = (foreign_key link, referenced link, v).
Proof.
  assert (∀ ls index (providers : gmap (str * str * str) (list nat)),
    i ∈ default [] (foldl (add_provider index) providers ls !! key) ↔
    i ∈ default [] (providers !! key)
    ∨ (i = index ∧ ∃ link v, link ∈ ls ∧ provides link = Some v
                            ∧ key = (foreign_key link, referenced link, v))) as Hinner.
  { induction ls as [|link ls IH]; intros index providers; cbn [foldl].
    - split; [by left|by intros [?|(_ & ? & ? & ?%elem_of_nil & _)]].
    - rewrite IH, add_provider_lookup. setoid_rewrite elem_of_cons. naive_solver. }
  unfold providers_of. induction links as [|ls links IH] using rev_ind.
  - cbn. rewrite lookup_empty. cbn. split; [by intros ?%elem_of_nil|].
    intros (? & ? & ? & [=] & _).
  - rewrite enumerate_app, foldl_app. cbn. rewrite Hinner, IH. cbn. split.
    + intros [(ls' & link & v & Hi & Hl)|(-> & link & v & Hl)].
      * exists ls', link, v. split; [by apply lookup_app_l_Some|done].
      * exists ls, link, v. split; [by apply list_lookup_middle|done].
    + intros (ls' & link & v & Hi & Hl). apply lookup_app_Some in Hi as [Hi|[Hle Hi]]; [left; eauto 6|].
      right. apply list_lookup_singleton_Some in Hi as [Hi ->]. split; [lia|eauto].
Qed.

Lemma row_edges_spec rf (rows : list E) b a :
  (b, a) ∈ row_edges rf (row_links <$> rows) ↔
  ∃ i j x y, rows !! i = Some x ∧ rows !! j = Some y ∧ i ≠ j ∧ references x y
    ∧ (b, a) = if rf then (i, j) else (j, i).
Proof.
  unfold row_edges, references. rewrite list_elem_of_bind. split.
  - intros ([i ls] & (lx & Hlink & Hlx)%list_elem_of_bind & [k Hk]%list_elem_of_lookup). cbn in *.
    rewrite lookup_enumerate, list_lookup_fmap in Hk.
    destruct (rows !! k) as [x|] eqn:Ex; [|done]. injection Hk as -> <-.
    unfold link_edges in Hlink. destruct (requires lx) as [v|] eqn:Ev; [|by apply elem_of_nil in Hlink].
    apply list_elem_of_fmap in Hlink as (j & Heq & [Hne Hj]%list_elem_of_filter).
    apply providers_of_lookup in Hj as (ls' & ly & v' & Hy & Hly & Hp & [= Hf Hr Hv]).
    rewrite list_lookup_fmap in Hy. destruct (rows !! j) as [y|] eqn:Ey; [|done]. injection Hy as <-.
    exists i, j, x, y. split_and!; [done..| |done]. exists lx, ly, v. by subst.
  - intros (i & j & x & y & Hx & Hy & Hne & (lx & ly & v & Hlx & Hly & Hf & Hr & Hv & Hp) & ->).
    exists (i, row_links x). split.
    + apply list_elem_of_bind. exists lx. split; [|done]. unfold link_edges. rewrite Hv. cbn.
      apply list_elem_of_fmap. exists j. split; [done|]. apply list_elem_of_filter. split; [done|].
      apply providers_of_lookup. exists (row_links y), ly, v.
      rewrite list_lookup_fmap, Hy. by rewrite Hf, Hr.
    + apply list_elem_of_lookup. exists i. by rewrite lookup_enumerate, list_lookup_fmap, Hx.
Qed.

Lemma row_edges_in_range rf (rows : list E) :
  in_range (length rows) (row_edges rf (row_links <$> rows)).
Proof.
  apply list.Forall_forall. intros [b a] (i & j & x & y & Hi%lookup_lt_Some & Hj%lookup_lt_Some & _ & _ & Heq)%row_edges_spec.
  destruct rf; injection Heq as -> ->; done.
Qed.

(** What [order_rows] must not leave behind: a row written after one it has to
    precede. *)
Definition row_after (rf : bool) (x y : E) : Prop := if rf then references y x else references x y.

(** Foreign keys that grow some rank of the rows. *)
Definition acyclic (rows : list E) : Prop :=
  ∃ rk : E → nat, ∀ x y, x ∈ rows → y ∈ rows → x ≠ y → references x y → rk y < rk x.

Lemma acyclic_edges rf (rows : list E) :
  NoDup rows → acyclic rows →
  ∃ rk : nat → nat, ∀ b a, (b, a) ∈ row_edges rf (row_links <$> rows) → rk b < rk a.
Proof.
  intros Hnd [rk Hrk]. set (top := max_list (rk <$> rows)).
  exists (λ i, match rows !! i with Some x => if rf then top - rk x else rk x | None => 0 end).
  intros b a (i & j & x & y & Hi & Hj & Hne & Href & Heq)%row_edges_spec.
  assert (rk y < rk x) as Hlt.
  { apply Hrk; [by eapply list_elem_of_lookup_2..| |done]. intros ->. by eapply Hne, NoDup_lookup. }
  assert (rk x ≤ top) as Htop.
  { apply max_list_elem_of_le, list_elem_of_fmap. eexists. split; [done|]. by eapply list_elem_of_lookup_2. }
  destruct rf; injection Heq as -> ->; rewrite Hi, Hj; lia.
Qed.

Lemma order_rows_spec rf (rows : list E) :
  ∃ rows', order_rows rows rf = Some rows' ∧ rows' ≡ₚ rows
    ∧ (NoDup rows → acyclic rows → StronglySorted (λ x y, ¬ row_after rf x y) rows').
Proof.
  assert (∀ js rows', at_indices rows js rows' → js ≡ₚ seq 0 (length rows) →
    (∀ b a, (b, a) ∈ row_edges rf (row_links <$> rows) → before b a js) →
    NoDup rows → StronglySorted (λ x y, ¬ row_after rf x y) rows') as Hsorted.
  { intros js rows' Hat Hp Hb Hnd. eapply StronglySorted_at; [exact Hat|].
    assert (NoDup js) as Hndj by (rewrite Hp; apply NoDup_seq).
    eapply StronglySorted_impl; [|apply (before_sorted (λ b a, (b, a) ∈ row_edges rf (row_links <$> rows)));
      [done|intros b a Hba _ _; by apply Hb]].
    intros i j _ _ [Hne Hnot] x y Hx Hy Haft. apply Hnot, row_edges_spec. unfold row_after in Haft.
    destruct rf; [exists j, i, y, x|exists i, j, x, y]; done. }
  assert (at_indices rows (seq 0 (length rows)) rows) as Hid.
  { apply Forall2_same_length_lookup. split; [by rewrite length_seq|]. by intros i j x [-> _]%lookup_seq. }
  pose proof (row_edges_in_range rf rows) as Hr.
  unfold order_rows. destruct (row_edges rf (row_links <$> rows)) as [|e edges] eqn:Ee.
  - exists rows. split_and!; [done..|]. intros Hnd _. apply (Hsorted _ _ Hid); [done| |done].
    by intros b a ?%elem_of_nil.
  - rewrite <- Ee in *. clear Ee e edges.
    destruct (topological_order_correct (λ i : nat, i) _ _ Hr) as (order & left & Heq & Hp & _).
    rewrite Heq. cbn [mbind option_bind].
    destruct (at_indices_total rows (order ++ left)) as (rows' & -> & Hat).
    { rewrite Hp. apply list.Forall_forall. intros i [_ ?]%elem_of_seq. lia. }
    exists rows'. split_and!; [done|by eapply at_indices_perm|]. intros Hnd Ha.
    destruct (acyclic_edges rf rows Hnd Ha) as [rk Hrk].
    destruct (acyclic_graph_is_ordered_whole (λ i : nat, i) _ _ rk Hr Hrk) as (order' & Heq' & Hp' & Hb).
    rewrite Heq in Heq'. injection Heq' as -> ->. rewrite app_nil_r in *. by eapply Hsorted.
Qed.

(** ** The runs of a pass *)

Definition tag (e : E) : EntityState * str := (current_state e, table_name e).

(** The rows of one table that are all inserted, or all deleted, are in the order
    their foreign keys ask for. *)
Definition rows_in_order (x y : E) : Prop :=
  tag x = tag y →
  (current_state x = New → ¬ references x y) ∧ (current_state x = Removed → ¬ references y x).

(** The order of one run. *)
Lemma order_run_spec (run : list E) t :
  Forall (λ e, tag e = t) run →
  ∃ run',
    (if (bool_decide (t.1 = New) || bool_decide (t.1 = Removed)) && (1 <? length run)
     then order_rows run (bool_decide (t.1 = Removed)) else Some run) = Some run'
    ∧ run' ≡ₚ run
    ∧ (NoDup run → acyclic run → StronglySorted rows_in_order run').
Proof.
  intros Ht.
  assert (∀ x, x ∈ run → current_state x = t.1) as Hst.
  { intros x Hx. rewrite list.Forall_forall in Ht. by rewrite <- (Ht x Hx). }
  destruct ((bool_decide (t.1 = New) || bool_decide (t.1 = Removed)) && (1 <? length run)) eqn:Ec.
  - apply andb_true_iff in Ec as [Ec _].
    destruct (order_rows_spec (bool_decide (t.1 = Removed)) run) as (run' & -> & Hp & Hs).
    exists run'. split_and!; [done..|]. intros Hnd Ha. eapply StronglySorted_impl; [|by apply Hs].
    intros x y Hx%(elem_of_Permutation_proper _ _ _ Hp) _ Hn _. apply Hst in Hx. rewrite Hx. unfold row_after in Hn.
    split; intros E0; rewrite E0 in Hn; exact Hn.
  - exists run. split_and!; [done..|]. intros Hnd Ha.
    apply andb_false_iff in Ec as [[E1 E2]%orb_false_iff|Ec].
    + apply bool_decide_eq_false in E1, E2. clear Hnd Ha Ht.
      induction run as [|x run IH]; [constructor|]. constructor.
      * apply IH. intros y Hy. apply Hst. by right.
      * apply list.Forall_forall. intros y _ _. rewrite (Hst x) by by left. done.
    + apply Nat.ltb_ge in Ec. destruct run as [|x [|y run]]; cbn in Ec; [constructor|repeat constructor|lia].
Qed.

(** Entries whose tags are told apart by a key they are sorted by, where rows are
    ordered at all. *)
Definition grouped_by (f : E → nat * nat) (l : list E) : Prop :=
  StronglySorted (by_key f) l
  ∧ (∀ x y, tag x = tag y → f x = f y)
  ∧ ∀ x y, x ∈ l → y ∈ l → current_state x = New ∨ current_state x = Removed → f x = f y → tag x = tag y.

Lemma take_while_tags (first : E) (l : list E) :
  let same e := bool_decide (current_state e = current_state first)
                && bool_decide (table_name e = table_name first) in
  Forall (λ e, tag e = tag first) (take_while same l).
Proof.
  intros same. induction l as [|e l IH]; cbn; [constructor|].
  destruct (same e) eqn:Es; constructor; [|done].
  apply andb_true_iff in Es as [Hs Ht]. apply bool_decide_eq_true in Hs, Ht. unfold tag. congruence.
Qed.

(** Foreign keys without a cycle among the rows of a table that are inserted, or
    deleted, together. *)
Definition acyclic_rows (rows : list E) : Prop :=
  ∃ rk : E → nat, ∀ x y, x ∈ rows → y ∈ rows → x ≠ y → tag x = tag y → references x y → rk y < rk x.

Lemma acyclic_run (l run : list E) t :
  Forall (λ e, tag e = t) run → (∀ x, x ∈ run → x ∈ l) → acyclic_rows l → acyclic run.
Proof.
  rewrite list.Forall_forall. intros Ht Hsub [rk Hrk]. exists rk. intros x y Hx Hy Hne.
  apply Hrk; auto. by rewrite (Ht x), (Ht y).
Qed.

Lemma acyclic_sub (l l' : list E) : (∀ x, x ∈ l' → x ∈ l) → acyclic_rows l → acyclic_rows l'.
Proof. intros Hsub [rk Hrk]. exists rk. eauto. Qed.

(** An entry after a run of rows that are ordered is not of the run's kind. *)
Lemma run_is_maximal f first (l : list E) x y :
  let same e := bool_decide (current_state e = current_state first)
                && bool_decide (table_name e = table_name first) in
  grouped_by f (first :: l) → x ∈ take_while same (first :: l) → y ∈ drop_while same (first :: l) →
  rows_in_order x y.
Proof.
  intros same (Hs & Hf & Hinj) Hx Hy Htag.
  assert (tag x = tag first) as Hxt.
  { pose proof (take_while_tags first (first :: l)) as Ht. fold same in Ht. cbv zeta in Ht.
    rewrite list.Forall_forall in Ht. by apply Ht. }
  rewrite <- (take_drop_while same (first :: l)) in Hs, Hinj.
  assert (first ∈ take_while same (first :: l)) as Hfirst.
  { cbn. unfold same at 1. rewrite !bool_decide_true by done. by left. }
  destruct (drop_while same (first :: l)) as [|z rest] eqn:Ed; [by apply elem_of_nil in Hy|].
  assert (by_key f first z) as Hz1 by (eapply StronglySorted_app_1_elem_of; [exact Hs|done|by left]).
  assert (by_key f z y) as Hz2.
  { apply StronglySorted_app_1_r, StronglySorted_inv in Hs as [_ Hall].
    apply elem_of_cons in Hy as [->|Hy]; [by apply leb_refl|].
    rewrite list.Forall_forall in Hall. by apply Hall. }
  assert (current_state first = New ∨ current_state first = Removed → tag first = tag z) as Hzt.
  { intros Hst. apply Hinj; [by apply elem_of_app; left|apply elem_of_app; right; by left|done|].
    apply leb_antisym; [done|]. rewrite (Hf first y) by congruence. done. }
  assert (¬ (current_state first = New ∨ current_state first = Removed)) as Hno.
  { intros Hst. specialize (Hzt Hst). apply drop_while_head in Ed. injection Hzt as H1 H2.
    unfold same in Ed. by rewrite !bool_decide_true in Ed. }
  injection Hxt as Hxs _. rewrite Hxs. split; intros Hst; destruct Hno; auto.
Qed.

Lemma order_runs_spec f fuel (l : list E) :
  length l ≤ fuel → grouped_by f l →
  ∃ l', order_runs fuel l = Some l' ∧ l' ≡ₚ l ∧ tag <$> l' = tag <$> l
    ∧ (NoDup l → acyclic_rows l → StronglySorted rows_in_order l').
Proof.
  revert l. induction fuel as [|fuel IH]; intros [|first l] Hf Hg; [|by cbn in Hf; lia| |].
  1,2: exists []; split_and!; [done..|]; intros _ _; constructor.
  cbn [order_runs]. set (same := λ e, _). set (run := take_while same (first :: l)).
  pose proof (take_while_tags first (first :: l)) as Ht. cbv zeta in Ht. fold same run in Ht.
  set (rest := drop_while same (first :: l)).
  assert (first :: l = run ++ rest) as Hsplit by (symmetry; apply take_drop_while).
  assert (∀ x y, x ∈ run → y ∈ rest → rows_in_order x y) as Hcross
    by (intros x y; by apply run_is_maximal with f).
  assert (0 < length run) as Hlen.
  { subst run. cbn. unfold same at 1. rewrite !bool_decide_true by done. cbn. lia. }
  clearbody run rest. rewrite Hsplit in *. rewrite drop_app_length.
  rewrite length_app in Hf.
  destruct (order_run_spec run (tag first) Ht) as (run' & Hrun & Hp1 & Hs1).
  cbn [fst] in Hrun. unfold tag in Hrun. cbn [fst] in Hrun. rewrite Hrun. cbn [mbind option_bind].
  destruct Hg as (Hs & Htf & Hinj).
  destruct (IH rest) as (rest' & -> & Hp2 & Htags & Hs2); [lia| |].
  { split_and!; [by apply StronglySorted_app_1_r in Hs|done|].
    intros x y Hx Hy. apply Hinj; apply elem_of_app; by right. }
  exists (run' ++ rest'). cbn [mbind option_bind]. split_and!; [done|by rewrite Hp1, Hp2| |].
  - rewrite !fmap_app, Htags. f_equal.
    assert (∀ l0 : list E, Forall (λ e, tag e = tag first) l0 → tag <$> l0 = replicate (length l0) (tag first)) as Hrep.
    { induction 1; cbn; congruence. }
    rewrite (Hrep run), (Hrep run') by (rewrite ?Hp1; done). by rewrite Hp1.
  - intros (Hnd1 & _ & Hnd2)%list.NoDup_app Ha. apply StronglySorted_app_2.
    + intros x y. rewrite Hp1, Hp2. apply Hcross.
    + apply Hs1; [done|]. eapply acyclic_run; [exact Ht| |exact Ha]. intros x Hx. apply elem_of_app. by left.
    + apply Hs2; [done|]. eapply acyclic_sub; [|exact Ha]. intros x Hx. apply elem_of_app. by right.
Qed.

Lemma sorted_groups entries order :
  plan_ok entries order → grouped_by (flush_sort_key order) (sort_by_key (flush_sort_key order) entries).
Proof.
  intros Hplan. split_and!; [apply sort_by_key_sorted|..].
  - intros x y [= Hs Ht]. unfold flush_sort_key. by rewrite Hs, Ht.
  - intros x y Hx Hy Hst [= Hk Hr].
    rewrite sort_by_key_perm in Hx, Hy.
    assert (current_state x = current_state y) as Hs.
    { clear -Hk. by destruct (current_state x), (current_state y). }
    destruct (plan_tables _ _ Hplan x Hx) as [rx Hrx], (plan_tables _ _ Hplan y Hy) as [ry Hry].
    pose proof (plan_ranks _ _ Hplan _ _ Hrx). pose proof (plan_ranks _ _ Hplan _ _ Hry).
    unfold rank in Hr. rewrite Hrx, Hry, <- Hs in Hr. cbn in Hr.
    assert (rx = ry) as -> by (destruct Hst as [Hst|Hst]; rewrite Hst in Hr; lia).
    unfold tag. rewrite Hs. f_equal. by eapply (plan_inj _ _ Hplan).
Qed.

(** What a table order says of two entries, the first of which is written first. *)
Lemma key_respects_tables entries order parent child (x y : E) :
  plan_ok entries order → declared entries parent child →
  parent ∉ unordered order ∨ child ∉ unordered order → by_key (flush_sort_key order) x y →
  ¬ (tag x = (New, child) ∧ tag y = (New, parent))
  ∧ ¬ (tag x = (Removed, parent) ∧ tag y = (Removed, child)).
Proof.
  intros Hplan Hd Hor Hk. pose proof (plan_edges _ _ Hplan _ _ Hd Hor) as Hlt.
  destruct Hd as (_ & (ep & Hep & <-) & (ec & Hec & <-) & _).
  destruct (plan_tables _ _ Hplan ep Hep) as [rp Hrp], (plan_tables _ _ Hplan ec Hec) as [rc Hrc].
  pose proof (plan_ranks _ _ Hplan _ _ Hrc). unfold rank in Hlt. rewrite Hrp, Hrc in Hlt. cbn in Hlt.
  unfold by_key, flush_sort_key in Hk. split; intros [[= Hsx Htx] [= Hsy Hty]];
    rewrite Hsx, Hsy, Htx, Hty in Hk; unfold rank in Hk; rewrite Hrp, Hrc in Hk; cbn in Hk.
  - apply Nat.leb_le in Hk. lia.
  - apply Nat.leb_le in Hk. lia.
Qed.

(** A pass has an order, of the entries it was given. *)
Lemma flush_pass_permutes entries :
  ∃ order l, flush_pass_order entries = Some (order, l) ∧ l ≡ₚ entries.
Proof.
  unfold flush_pass_order. destruct (plan_flush_order_ok entries) as (order & -> & Hplan).
  cbn [mbind option_bind]. set (l0 := sort_by_key (flush_sort_key order) entries).
  pose proof (sorted_groups entries order Hplan) as Hg. fold l0 in Hg. unfold order_self_references.
  destruct (order_runs_spec (flush_sort_key order) (length l0) l0) as (l & -> & Hp & _); [done..|].
  cbn [mbind option_bind]. exists order, l. split; [done|]. rewrite Hp. apply sort_by_key_perm.
Qed.

(** C14: a flush never panics and writes every entry of a pass once: inserts first, then
    updates, then deletes. Of two tables that a declared relation of the pass
    joins, and that are not both reported as part of a cycle, the parent's inserts
    come before the child's and the child's deletes before the parent's; a table is
    reported only with a parent that is. Rows of one table that are inserted, or
    deleted, together and hold foreign keys to each other without a cycle are
    inserted after the rows they reference and deleted before them. *)
Theorem flush_writes_in_dependency_order entries :
  ∃ order l,
    flush_pass_order entries = Some (order, l) ∧ l ≡ₚ entries
    ∧ StronglySorted (λ x y, flush_order_rank (current_state x) ≤ flush_order_rank (current_state y)) l
    ∧ (∀ parent child, declared entries parent child →
         parent ∉ unordered order ∨ child ∉ unordered order →
         StronglySorted (λ x y, ¬ (tag x = (New, child) ∧ tag y = (New, parent))
                                ∧ ¬ (tag x = (Removed, parent) ∧ tag y = (Removed, child))) l)
    ∧ (∀ child, child ∈ unordered order →
         ∃ parent, declared entries parent child ∧ parent ∈ unordered order)
    ∧ (NoDup entries → acyclic_rows entries → StronglySorted rows_in_order l).
Proof.
  unfold flush_pass_order. destruct (plan_flush_order_ok entries) as (order & -> & Hplan).
  cbn [mbind option_bind]. set (l0 := sort_by_key (flush_sort_key order) entries).
  pose proof (sorted_groups entries order Hplan) as Hg. fold l0 in Hg.
  assert (l0 ≡ₚ entries) as Hp0 by apply sort_by_key_perm.
  unfold order_self_references.
  destruct (order_runs_spec (flush_sort_key order) (length l0) l0) as (l & -> & Hp & Htags & Hrows); [done..|].
  cbn [mbind option_bind].
  assert (∀ Q : EntityState * str → EntityState * str → Prop,
            StronglySorted (λ x y, Q (tag x) (tag y)) l0 → StronglySorted (λ x y, Q (tag x) (tag y)) l) as Hmove.
  { intros Q HQ. apply (StronglySorted_fmap tag Q l). rewrite Htags. by apply (StronglySorted_fmap tag Q l0). }
  destruct Hg as (Hs & _). exists order, l. split_and!; [done|by rewrite Hp| | | |].
  - apply (Hmove (λ s t, flush_order_rank s.1 ≤ flush_order_rank t.1)).
    eapply StronglySorted_impl; [|exact Hs]. intros x y _ _ Hk. unfold by_key, flush_sort_key in Hk.
    cbn in Hk. apply andb_true_iff in Hk as [Hk _]. by apply Nat.leb_le in Hk.
  - intros parent child Hd Hor.
    apply (Hmove (λ s t, ¬ (s = (New, child) ∧ t = (New, parent))
                         ∧ ¬ (s = (Removed, parent) ∧ t = (Removed, child)))).
    eapply StronglySorted_impl; [|exact Hs]. intros x y _ _. by eapply key_respects_tables.
  - apply (plan_cycle _ _ Hplan).
  - intros Hnd Ha. apply Hrows; [by rewrite Hp0|]. eapply acyclic_sub; [|exact Ha].
    intros x. by rewrite Hp0.
Qed.
End PlanFacts.

(** ** A pass *)

(** An entry with the tables and links it declares. *)
Record DemoEntry := {
  demo_state : EntityState;
  demo_table : str;
  demo_parents : list str;
  demo_links : list RowLink;
}.

#[export] Instance demo_ops : ManagedOps DemoEntry := {|
  current_state := demo_state;
  table_name := demo_table;
  parent_tables := demo_parents;
  child_tables := λ _, [];
  row_links := demo_links;
|}.

Definition demo_node (state : EntityState) (id : str) (parent : option str) : DemoEntry := {|
  demo_state := state;
  demo_table := lit "nodes";
  demo_parents := [lit "nodes"; lit "users"];
  demo_links := [{| foreign_key := lit "parent_id"; referenced := lit "id";
                    provides := Some id; requires := parent |}];
|}.

Definition demo_user (state : EntityState) : DemoEntry :=
  {| demo_state := state; demo_table := lit "users"; demo_parents := []; demo_links := [] |}.

(** A leaf, its parent and the user they belong to, registered in the wrong order,
    with an update and deletes between them. *)
Example flush_order_example :
  let leaf := demo_node New (lit "2") (Some (lit "1")) in
  let root := demo_node New (lit "1") (Some (lit "1")) in
  let entries := [demo_user Removed; leaf; demo_node Managed (lit "3") None; root;
                  demo_node Removed (lit "4") None; demo_node Removed (lit "5") (Some (lit "4"));
                  demo_user New] in
  snd <$> flush_pass_order entries
  = Some [demo_user New; root; leaf; demo_node Managed (lit "3") None;
          demo_node Removed (lit "5") (Some (lit "4")); demo_node Removed (lit "4") None;
          demo_user Removed].
Proof. vm_compute. reflexivity. Qed.
