(* ===== verification/EntityManager.v ===== *)
(** * The entity manager

    src/src/entity_manager/: the persistence context, its identity map, its managed
    entries and the flush that writes them. [Manager] is the context's shared state;
    an operation is a function on it, in the source's order of writes. What another
    task does while an operation waits for the database is part of the arguments
    that stand for that wait ([save], [delete], [find]): they may change the state
    in any way.

    An entry ([Arc<ManagedEntry>]) is its address in [heap]; the entities filed in
    the identity map ([Arc<T>]) carry the address they were allocated at. The undo
    steps a transaction holds ([undo_on_rollback]) are data, the last first. *)

From S2P Require Import Prelude MinHeap Topology FlushOrder.
Local Open Scope tide_scope.

(** What the derive macro, the model layer and the database give an entity: its
    type, its identity key, its fields one by one, the columns a flush compares, and
    its relation wrappers. *)
Class Entities := {
  Entity : Type;
  Failure : Type;
  FieldValue : Type;
  FieldValue_eq_dec :: EqDecision FieldValue;
  query_error : str → Failure;
  type_of : Entity → N;
  model_table : N → str;
  pk_key : Entity → str;
  pk_is_new : Entity → bool;
  entity_key : Entity → result (option str) Failure;
  field_names : N → list str;
  compare_value : Entity → str → result FieldValue Failure;
  copy_field_from : Entity → Entity → str → result Entity Failure;
  same_columns : Entity → Entity → bool;
  relations_match : Entity → Entity → bool;
  relations_from : Entity → Entity → Entity;
  refresh_relations_from : Entity → Entity → Entity;
  merge_persisted : Entity → Entity → Entity;
  attach_database : Entity → Entity;
  unload_relations : Entity → Entity;
  parent_tables_of : N → list str;
  child_tables_of : N → list str;
  row_references : N → list (str * str * str);
  is_key_column : N → str → bool;
  key_text : Entity → str → option str;
  is_foreign_key_violation : Failure → bool;
  failure_text : Failure → str;
  with_db_failure_of : Failure → str → Failure;
}.

(** [(TypeId, String)]. *)
Abbreviation IdentityKey := (N * str)%type (only parsing).

Section EntityManager.
Context `{Entities}.

Record ManagedEntry := {
  entry_type : N;
  current : Entity;
  snapshot : option Entity;
  state : EntityState;
  persisted_key : option str;
  identity_key : option str;
}.

(** The fields a merge gave the stored value: [before] has what the entry held,
    [after] the stored values. *)
Record FieldChanges := { fields : list str; before : Entity; after : Entity }.

Record FlushUndo := {
  undo_fields : option FieldChanges;
  undo_snapshot : option Entity * option Entity;
  undo_persisted_key : option str * option str;
  undo_identity_key : option str * option str;
  undo_state : EntityState * EntityState;
}.

(** The closures handed to [undo_on_rollback]. *)
Inductive Undo :=
  | UndoIdentityMap (log : N)
  | UndoFlush (entry : N) (u : FlushUndo)
  | UndoRebase (entry : N) (changes : FieldChanges) (loaded : Entity)
  | UndoRegister (key : IdentityKey) (address : N)
  | UndoAttach (key : IdentityKey) (entry : N).

Record Manager := {
  identity_map : gmap IdentityKey (N * Entity);
  identity_generation : N;
  managed_map : gmap IdentityKey N;
  managed_entries : list N;
  heap : gmap N ManagedEntry;
  next_address : N;
  (** The rollback logs of units of work, and the one of the unit that runs. *)
  rollback_logs : gmap N (gmap (IdentityKey * N) (option (N * Entity)));
  scope : option N;
  undo : list Undo;
}.

Definition EntityManager_new : Manager := {|
  identity_map := ∅; identity_generation := 0; managed_map := ∅; managed_entries := [];
  heap := ∅; next_address := 0; rollback_logs := ∅; scope := None; undo := [];
|}.

(** One part of the state changed. *)
Definition upd_identity_map f (m : Manager) : Manager := {|
  identity_map := f (identity_map m); identity_generation := identity_generation m;
  managed_map := managed_map m; managed_entries := managed_entries m; heap := heap m;
  next_address := next_address m; rollback_logs := rollback_logs m; scope := scope m; undo := undo m |}.
Definition upd_managed_map f (m : Manager) : Manager := {|
  identity_map := identity_map m; identity_generation := identity_generation m;
  managed_map := f (managed_map m); managed_entries := managed_entries m; heap := heap m;
  next_address := next_address m; rollback_logs := rollback_logs m; scope := scope m; undo := undo m |}.
Definition upd_managed_entries f (m : Manager) : Manager := {|
  identity_map := identity_map m; identity_generation := identity_generation m;
  managed_map := managed_map m; managed_entries := f (managed_entries m); heap := heap m;
  next_address := next_address m; rollback_logs := rollback_logs m; scope := scope m; undo := undo m |}.
Definition upd_heap f (m : Manager) : Manager := {|
  identity_map := identity_map m; identity_generation := identity_generation m;
  managed_map := managed_map m; managed_entries := managed_entries m; heap := f (heap m);
  next_address := next_address m; rollback_logs := rollback_logs m; scope := scope m; undo := undo m |}.
Definition upd_rollback_logs f (m : Manager) : Manager := {|
  identity_map := identity_map m; identity_generation := identity_generation m;
  managed_map := managed_map m; managed_entries := managed_entries m; heap := heap m;
  next_address := next_address m; rollback_logs := f (rollback_logs m); scope := scope m; undo := undo m |}.
Definition undo_on_rollback (u : Undo) (m : Manager) : Manager := {|
  identity_map := identity_map m; identity_generation := identity_generation m;
  managed_map := managed_map m; managed_entries := managed_entries m; heap := heap m;
  next_address := next_address m; rollback_logs := rollback_logs m; scope := scope m; undo := u :: undo m |}.

(** [Arc::new]. *)
Definition allocate (m : Manager) : N * Manager := (next_address m, {|
  identity_map := identity_map m; identity_generation := identity_generation m;
  managed_map := managed_map m; managed_entries := managed_entries m; heap := heap m;
  next_address := next_address m + 1; rollback_logs := rollback_logs m; scope := scope m; undo := undo m |}).

(** The parts of one entry. *)
Definition upd_entry (id : N) (f : ManagedEntry → ManagedEntry) : Manager → Manager :=
  upd_heap (alter f id).
Definition set_current x e := {| entry_type := entry_type e; current := x; snapshot := snapshot e;
  state := state e; persisted_key := persisted_key e; identity_key := identity_key e |}.
Definition set_snapshot x e := {| entry_type := entry_type e; current := current e; snapshot := x;
  state := state e; persisted_key := persisted_key e; identity_key := identity_key e |}.
Definition set_state x e := {| entry_type := entry_type e; current := current e;
  snapshot := snapshot e; state := x; persisted_key := persisted_key e;
  identity_key := identity_key e |}.
Definition set_persisted_key x e := {| entry_type := entry_type e; current := current e;
  snapshot := snapshot e; state := state e; persisted_key := x; identity_key := identity_key e |}.
Definition set_identity_key x e := {| entry_type := entry_type e; current := current e;
  snapshot := snapshot e; state := state e; persisted_key := persisted_key e; identity_key := x |}.

(** ** The identity map (state.rs, save.rs) *)

Definition identity_key_of (x : Entity) : IdentityKey := (type_of x, pk_key x).

(** [record_identity_map_rollback]: nothing outside a unit of work; the first change
    of a key since the last clear is the one recorded. *)
Definition record_identity_map_rollback (key : IdentityKey) (m : Manager) : Manager :=
  match scope m with
  | None => m
  | Some id =>
      let log_key := (key, identity_generation m) in
      let log := default ∅ (rollback_logs m !! id) in
      match log !! log_key with
      | Some _ => m
      | None => upd_rollback_logs <[id := <[log_key := identity_map m !! key]> log]> m
      end
  end.

Definition get_by_key (key : IdentityKey) (m : Manager) : option Entity :=
  snd <$> identity_map m !! key.

(** [put]: the caller's copy, with its relations attached, and the state. *)
Definition put (x : Entity) (m : Manager) : Entity * Manager :=
  let x := attach_database x in
  if pk_is_new x then (x, m)
  else
    let key := identity_key_of x in
    let stored := attach_database (unload_relations x) in
    let m := record_identity_map_rollback key m in
    let '(address, m) := allocate m in
    (x, upd_identity_map <[key := (address, stored)]> m).

Definition remove_by_entity_manager_key (key : IdentityKey) (m : Manager) : Manager :=
  let m := record_identity_map_rollback key m in
  upd_identity_map (delete key) m.

(** [IdentityMapRollbackEntry::restore]. *)
Definition restore_identity (key : IdentityKey) (generation : N) (original : option (N * Entity))
    (m : Manager) : Manager :=
  if bool_decide (identity_generation m = generation)
  then upd_identity_map (λ map, match original with
                                | Some stored => <[key := stored]> map
                                | None => delete key map
                                end) m
  else m.

(** [rollback_identity_map]: the log is taken; no two of its entries of one
    generation have a key in common. *)
Definition rollback_identity_map (id : N) (m : Manager) : Manager :=
  foldr (λ '((key, generation), original), restore_identity key generation original)
    (upd_rollback_logs <[id := ∅]> m) (map_to_list (default ∅ (rollback_logs m !! id))).

(** [register]: [reading] says whether a transaction of this manager's database is
    running. Another task can only register the row between the two looks at the
    map, and then the second finds it. *)
Definition register (reading : bool) (x : Entity) (m : Manager) : Entity * Manager :=
  let x := attach_database x in
  if pk_is_new x then (x, m)
  else
    let key := identity_key_of x in
    match get_by_key key m with
    | Some existing => (existing, m)
    | None =>
        let '(address, m) := allocate m in
        let m := upd_identity_map <[key := (address, x)]> m in
        (x, if reading then undo_on_rollback (UndoRegister key address) m else m)
    end.

(** The step [register] leaves for a rollback. *)
Definition unregister (key : IdentityKey) (address : N) (m : Manager) : Manager :=
  match identity_map m !! key with
  | Some (current, _) => if (current =? address)%N then upd_identity_map (delete key) m else m
  | None => m
  end.

(** ** Managed entries (mod.rs, managed.rs) *)

Definition get_managed_by_key (key : IdentityKey) (m : Manager) : option N := managed_map m !! key.
Definition put_managed_entry (key : IdentityKey) (id : N) : Manager → Manager :=
  upd_managed_map <[key := id]>.
Definition remove_managed_entry (key : IdentityKey) : Manager → Manager :=
  upd_managed_map (delete key).
Definition remove_managed_ops_entry (id : N) : Manager → Manager :=
  upd_managed_entries (filter (.≠ id)).
Definition register_managed_entry (id : N) : Manager → Manager :=
  upd_managed_entries (λ entries, entries ++ [id]).
Definition reregister_managed_entry (id : N) : Manager → Manager :=
  upd_managed_entries (λ entries, if bool_decide (id ∈ entries) then entries else entries ++ [id]).

Definition edit (id : N) (f : Entity → Entity) : Manager → Manager :=
  upd_entry id (λ e, set_current (f (current e)) e).
Definition mark_removed (id : N) : Manager → Manager := upd_entry id (set_state Removed).

Definition overwrite_merged (id : N) (x : Entity) : Manager → Manager :=
  upd_entry id (λ e,
    set_state (if bool_decide (is_Some (persisted_key e)) then Managed else New)
      (set_current x e)).

(** [ManagedEntry::evict]. *)
Definition evict (id : N) (m : Manager) : Manager :=
  match heap m !! id with
  | None => m
  | Some e =>
      let m := match identity_key e with
               | Some key => remove_managed_entry (entry_type e, key) m
               | None => m
               end in
      upd_entry id (λ e, set_state Detached (set_identity_key None e)) m
  end.

Definition detach (id : N) (m : Manager) : Manager := remove_managed_ops_entry id (evict id m).

Definition file_managed (x : Entity) (snap : option Entity) (st : EntityState)
    (persisted : option str) (filed : option str) (m : Manager) : N * Manager :=
  let '(id, m) := allocate m in
  let entry := {| entry_type := type_of x; current := x; snapshot := snap; state := st;
                  persisted_key := persisted; identity_key := persisted |} in
  let m := register_managed_entry id (upd_heap <[id := entry]> m) in
  (id, match filed with
       | Some key =>
           upd_entry id (set_identity_key (Some key)) (put_managed_entry (type_of x, key) id m)
       | None => m
       end).

Definition persist (x : Entity) (m : Manager) : N * Manager :=
  let x := attach_database x in
  let key := if pk_is_new x then None else Some (pk_key x) in
  match (key ≫= λ key, get_managed_by_key (type_of x, key) m) with
  | Some existing => (existing, overwrite_merged existing x m)
  | None => file_managed x None New None key m
  end.

Definition merge (x : Entity) (m : Manager) : result N Failure * Manager :=
  let x := attach_database x in
  match entity_key x with
  | Err e => (Err e, m)
  | Ok None => let '(id, m) := persist x m in (Ok id, m)
  | Ok (Some key) =>
      match get_managed_by_key (type_of x, key) m with
      | Some existing => (Ok existing, overwrite_merged existing x m)
      | None =>
          let snap := get_by_key (type_of x, key) m in
          let '(id, m) := file_managed x snap Managed (Some key) (Some key) m in (Ok id, m)
      end
  end.

(** [attach_persisted_managed]: a row just read. *)
Definition attach_persisted_managed (reading : bool) (x : Entity) (m : Manager) : N * Manager :=
  let x := attach_database x in
  let key := pk_key x in
  match get_managed_by_key (type_of x, key) m with
  | Some existing => (existing, m)
  | None =>
      let '(id, m) := file_managed x (Some x) Managed (Some key) (Some key) m in
      (id, if reading then undo_on_rollback (UndoAttach (type_of x, key) id) m else m)
  end.

(** The step it leaves for a rollback. *)
Definition unattach (key : IdentityKey) (id : N) (m : Manager) : Manager :=
  if bool_decide (get_managed_by_key key m = Some id) then detach id m else m.

(** [clear]: the handles are detached, then the maps and the list emptied. *)
Definition clear (m : Manager) : Manager :=
  let m := foldl (λ m id, evict id m) m (managed_entries m) in
  {| identity_map := ∅; identity_generation := identity_generation m + 1; managed_map := ∅;
     managed_entries := []; heap := heap m; next_address := next_address m;
     rollback_logs := rollback_logs m; scope := scope m; undo := undo m |}.

(** ** Merging a stored row (managed.rs) *)

(** [merge_fields]: what becomes of [target], also where a field fails, and the fields
    that took a different stored value. *)
Fixpoint merge_fields_loop (holder base saved : Entity) (names changed : list str)
    (target : Entity) : Entity * result (list str) Failure :=
  match names with
  | [] => (target, Ok changed)
  | field :: names =>
      match compare_value holder field, compare_value base field with
      | Err e, _ => (target, Err e)
      | Ok _, Err e => (target, Err e)
      | Ok held, Ok loaded =>
          if bool_decide (held = loaded) then
            match compare_value saved field with
            | Err e => (target, Err e)
            | Ok stored =>
                match copy_field_from target saved field with
                | Err e => (target, Err e)
                | Ok target =>
                    merge_fields_loop holder base saved names
                      (if bool_decide (held = stored) then changed else changed ++ [field]) target
                end
            end
          else
            match copy_field_from target holder field with
            | Err e => (target, Err e)
            | Ok target => merge_fields_loop holder base saved names changed target
            end
      end
  end.

Definition merge_fields (target holder base saved : Entity)
  : Entity * result (list str) Failure :=
  merge_fields_loop holder base saved (field_names (type_of target)) [] target.

(** [FieldChanges::undo]. *)
Definition undo_field (changes : FieldChanges) (target : Entity) (field : str) : Entity :=
  match compare_value target field, compare_value (after changes) field with
  | Ok current, Ok stored =>
      if bool_decide (current = stored)
      then match copy_field_from target (before changes) field with Ok t => t | Err _ => target end
      else target
  | _, _ => target
  end.

Definition undo_fields_of (changes : FieldChanges) (target : Entity) : Entity :=
  foldl (undo_field changes) target (fields changes).

(** ** Operations that wait for the database *)

Definition Op (A : Type) : Type := Manager → Manager * result A Failure.

Definition op_ret {A} (a : A) : Op A := λ m, (m, Ok a).
Definition op_fail {A} (e : Failure) : Op A := λ m, (m, Err e).
Definition op_bind {A B} (x : Op A) (k : A → Op B) : Op B := λ m,
  let '(m, r) := x m in match r with Ok a => k a m | Err e => (m, Err e) end.
Definition op_do (f : Manager → Manager) : Op unit := λ m, (f m, Ok tt).
Local Notation "'let!' a := x 'in' k" := (op_bind x (λ a, k))
  (at level 200, a name, x at level 100, k at level 200).

(** [rebase]. *)
Definition rebase (id : N) (saved : Entity) : Op unit := λ m,
  match heap m !! id with
  | Some e =>
      match snapshot e with
      | None => (m, Ok tt)
      | Some loaded =>
          let '(merged, r) := merge_fields (current e) (current e) loaded saved in
          let m := upd_entry id (set_current merged) m in
          match r with
          | Err e => (m, Err e)
          | Ok changed =>
              let m := upd_entry id (set_snapshot (Some saved)) m in
              let changes := {| fields := changed; before := current e; after := saved |} in
              (undo_on_rollback (UndoRebase id changes loaded) m, Ok tt)
          end
      end
  | None => (m, Ok tt)
  end.

(** Its undo step. *)
Definition undo_rebase (id : N) (changes : FieldChanges) (loaded : Entity) : Manager → Manager :=
  upd_entry id (λ e, set_snapshot (Some loaded) (set_current (undo_fields_of changes (current e)) e)).

(** [FlushUndo] applied: [undo_flush]. *)
Definition same_model (x y : option Entity) : bool :=
  match x, y with
  | Some x, Some y => same_columns x y
  | None, None => true
  | _, _ => false
  end.

Definition undo_entry (u : FlushUndo) (e : ManagedEntry) : ManagedEntry :=
  let e := match undo_fields u with
           | Some changes =>
               let x := current e in
               let x := if relations_match x (after changes)
                        then relations_from x (before changes) else x in
               set_current (undo_fields_of changes x) e
           | None => e
           end in
  let e := if same_model (snapshot e) (undo_snapshot u).2
           then set_snapshot (undo_snapshot u).1 e else e in
  if bool_decide (persisted_key e = (undo_persisted_key u).2)
  then set_persisted_key (undo_persisted_key u).1 e else e.

Definition undo_identity (id : N) (u : FlushUndo) (m : Manager) : Manager :=
  match heap m !! id with
  | None => m
  | Some e =>
      let '(before, after) := undo_identity_key u in
      if bool_decide (identity_key e = after) && negb (bool_decide (before = after)) then
        let m := match after with
                 | Some key => remove_managed_entry (entry_type e, key) m
                 | None => m
                 end in
        let m := match before with
                 | Some key => put_managed_entry (entry_type e, key) id m
                 | None => m
                 end in
        upd_entry id (set_identity_key before) m
      else m
  end.

Definition undo_state_of (id : N) (u : FlushUndo) (m : Manager) : Manager :=
  match heap m !! id with
  | None => m
  | Some e =>
      let '(before, after) := undo_state u in
      let m' := if bool_decide (state e = after) then upd_entry id (set_state before) m else m in
      if bool_decide (state e = after) && negb (bool_decide (before = after))
         && bool_decide (after = Detached)
      then reregister_managed_entry id m' else m'
  end.

Definition undo_flush (id : N) (u : FlushUndo) (m : Manager) : Manager :=
  undo_state_of id u (undo_identity id u (upd_entry id (undo_entry u) m)).

(** What a transaction that does not commit runs. *)
Definition run_undo (m : Manager) (u : Undo) : Manager :=
  match u with
  | UndoIdentityMap log => rollback_identity_map log m
  | UndoFlush id u => undo_flush id u m
  | UndoRebase id changes loaded => undo_rebase id changes loaded m
  | UndoRegister key address => unregister key address m
  | UndoAttach key id => unattach key id m
  end.

Definition set_undo (steps : list Undo) (m : Manager) : Manager := {|
  identity_map := identity_map m; identity_generation := identity_generation m;
  managed_map := managed_map m; managed_entries := managed_entries m; heap := heap m;
  next_address := next_address m; rollback_logs := rollback_logs m; scope := scope m;
  undo := steps |}.

Definition set_scope (sc : option N) (m : Manager) : Manager := {|
  identity_map := identity_map m; identity_generation := identity_generation m;
  managed_map := managed_map m; managed_entries := managed_entries m; heap := heap m;
  next_address := next_address m; rollback_logs := rollback_logs m; scope := sc;
  undo := undo m |}.

(** A transaction's rollback: its steps, the last first, and nothing of its record left. *)
Definition roll_back (outer : list Undo) (m : Manager) : Manager :=
  set_undo outer (foldl run_undo m (undo m)).

(** [in_unit_of_work]: [commit] is what the database answers to the commit, and [nested]
    says whether a transaction of the same database is around it, which then takes
    the steps over. *)
Definition in_unit_of_work {A} (nested : bool) (commit : result unit Failure) (work : Op A) : Op A :=
  λ m,
    let outer := undo m in
    let outer_scope := scope m in
    let '(log, m) := allocate m in
    let m := set_scope (Some log) (upd_rollback_logs <[log := ∅]> m) in
    let '(m, r) := work (set_undo [UndoIdentityMap log] m) in
    let m := set_scope outer_scope m in
    match r, commit with
    | Ok a, Ok _ => (set_undo (if nested then undo m ++ outer else outer) m, Ok a)
    | Ok _, Err e => (roll_back outer m, Err e)
    | Err e, _ => (roll_back outer m, Err e)
    end.

(** ** Saves and flushes (save.rs, managed.rs, mod.rs) *)

Section Store.
(** [Model::save], [Model::delete] and the generated sync of an entity's loaded
    relations, each with whatever happens to the context while it runs. *)
Context (model_save : Entity → Op Entity) (model_delete : Entity → Op unit)
  (sync_relations : Entity → Op Entity).

Definition sync_aggregate (aggregate x : Entity) : Op Entity :=
  let! aggregate := sync_relations (refresh_relations_from aggregate x) in
  λ m, let '(aggregate, m) := put aggregate m in (m, Ok aggregate).

Definition save_in_scope (x : Entity) : Op Entity :=
  let! persisted := model_save x in
  let! aggregate := sync_aggregate (merge_persisted x persisted) x in
  λ m,
    match get_managed_by_key (type_of aggregate, pk_key aggregate) m with
    | Some id => let '(m, r) := rebase id aggregate m in (m, a <-? r ;; Ok aggregate)
    | None => (m, Ok aggregate)
    end.

Definition key_changed (what key key' advice : str) : str :=
  lit "the primary key of a managed " ++ what ++ lit " row changed from " ++ key ++ lit " to "
  ++ key' ++ advice.

(** What [flush_removal] does once the row is gone. *)
Definition flush_removed (id : N) : Op unit := λ m,
  match heap m !! id with
  | None => (m, Ok tt)
  | Some e =>
      let u := {| undo_fields := None;
                  undo_snapshot := (snapshot e, None);
                  undo_persisted_key := (persisted_key e, None);
                  undo_identity_key := (identity_key e, None);
                  undo_state := (state e, Detached) |} in
      let m := upd_entry id (λ e, set_persisted_key None (set_snapshot None e)) m in
      (undo_on_rollback (UndoFlush id u) (evict id m), Ok tt)
  end.

(** [flush_removal]. *)
Definition flush_removal (id : N) : Op unit := λ m,
  match heap m !! id with
  | None => (m, Ok tt)
  | Some e =>
      let delete : Op unit :=
        match persisted_key e with
        | None => op_ret tt
        | Some key =>
            let x := default (current e) (snapshot e) in
            if bool_decide (pk_key x ≠ key)
            then op_fail (query_error (key_changed (model_table (entry_type e)) key (pk_key x)
                            (lit "; refusing to delete a different row")))
            else
              let! _ := model_delete x in
              op_do (remove_by_entity_manager_key (entry_type e, key))
        end in
      op_bind delete (λ _, flush_removed id) m
  end.

(** What [flush_write] does once the row is stored: [read] is the value it read before,
    and [previous_key] the key the entry was filed under then. *)
Definition flush_written (id : N) (read saved : Entity) (previous_key : option str) : Op unit := λ m,
  match heap m !! id with
  | None => (m, Ok tt)
  | Some e =>
      if negb (relations_match (current e) read)
      then (m, Err (query_error (lit "a relation of a managed " ++ model_table (entry_type e)
             ++ lit " row was edited while the flush wrote it; the flush was rolled back and the edit kept, so flush again")))
      else
        let next_key := Some (pk_key saved) in
        let '(stored, r) := merge_fields saved (current e) read saved in
        match r with
        | Err e => (m, Err e)
        | Ok changed =>
            let e' := set_persisted_key next_key (set_snapshot (Some saved) (set_current stored e)) in
            let m := upd_entry id (λ _, e') m in
            let filed := negb (bool_decide (state e = Detached)) in
            let m :=
              if filed then
                let m := match previous_key with
                         | Some key => if bool_decide (previous_key = next_key) then m
                                       else remove_managed_entry (entry_type e, key) m
                         | None => m
                         end in
                let m := put_managed_entry (entry_type e, pk_key saved) id m in
                upd_entry id (λ e, set_state (if bool_decide (state e = Removed) then Removed else Managed)
                                     (set_identity_key next_key e)) m
              else m in
            let u := {| undo_fields := Some {| fields := changed; before := read; after := saved |};
                        undo_snapshot := (snapshot e, Some saved);
                        undo_persisted_key := (persisted_key e, next_key);
                        undo_identity_key := (identity_key e, if filed then next_key else identity_key e);
                        undo_state := (state e,
                          if filed then (if bool_decide (state e = Removed) then Removed else Managed)
                          else Detached) |} in
            (undo_on_rollback (UndoFlush id u) m, Ok tt)
        end
  end.

Definition flush_write (id : N) : Op unit := λ m,
  match heap m !! id with
  | None => (m, Ok tt)
  | Some e =>
      let read := current e in
      let changed_key :=
        match persisted_key e with
        | Some persisted => if bool_decide (pk_key read = persisted) then None else Some persisted
        | None => None
        end in
      match changed_key with
      | Some persisted =>
          (m, Err (query_error (key_changed (model_table (entry_type e)) persisted (pk_key read)
                (lit "; a managed entity keeps its key, so detach it and persist a new one"))))
      | None =>
          let columns_changed :=
            match snapshot e with Some snap => negb (same_columns snap read) | None => true end in
          let previous_key := identity_key e in
          op_bind (if columns_changed then save_in_scope read else sync_aggregate read read)
            (λ saved, flush_written id read saved previous_key) m
      end
  end.

Definition flush_entry (id : N) : Op unit := λ m,
  match state <$> heap m !! id with
  | None | Some Detached => (m, Ok tt)
  | Some Removed => flush_removal id m
  | Some (New | Managed) => flush_write id m
  end.

(** What a flush's order reads of an entry. *)
Definition row_links_of (e : ManagedEntry) : list RowLink :=
  let table := model_table (entry_type e) in
  (λ '(_, foreign_key, referenced), {|
     foreign_key := foreign_key;
     referenced := referenced;
     provides := if pk_is_new (current e) && is_key_column (entry_type e) referenced then None
                 else key_text (current e) referenced;
     requires := key_text (current e) foreign_key |})
  <$> filter (λ r, r.1.1 = table) (row_references (entry_type e)).

Definition entry_ops (m : Manager) : ManagedOps N := {|
  FlushOrder.current_state id := default Detached (state <$> heap m !! id);
  FlushOrder.table_name id := default [] (model_table ∘ entry_type <$> heap m !! id);
  FlushOrder.parent_tables id := default [] (parent_tables_of ∘ entry_type <$> heap m !! id);
  FlushOrder.child_tables id := default [] (child_tables_of ∘ entry_type <$> heap m !! id);
  FlushOrder.row_links id := default [] (row_links_of <$> heap m !! id);
|}.

Definition explain_flush_ordering_failure (error : Failure) (table : str) (unordered : list str)
  : Failure :=
  if negb (is_foreign_key_violation error) then error
  else
    let detail :=
      match unordered with
      | [] => lit "every table in this flush was ordered parent-before-child, so the row it references belongs to a table this model declares no relation to; declare the relation (`belongs_to` or `has_many`/`has_one`) or persist the parent first"
      | _ => lit "these tables declare foreign keys in a cycle and could not be ordered: "
             ++ join (lit ", ") unordered ++ lit "; flush one side of the cycle before the other"
      end in
    with_db_failure_of error
      (lit "entity manager flush failed writing `" ++ table ++ lit "`: " ++ failure_text error
       ++ lit " — " ++ detail).

(** The entries of a pass, in its order. *)
Fixpoint flush_each (unordered : list str) (ids : list N) : Op unit :=
  match ids with
  | [] => op_ret tt
  | id :: ids => λ m,
      let table := @FlushOrder.table_name N (entry_ops m) id in
      let '(m, r) := flush_entry id m in
      match r with
      | Ok _ => flush_each unordered ids m
      | Err e => (m, Err (explain_flush_ordering_failure e table unordered))
      end
  end.

Definition MAX_FLUSH_PASSES : nat := 16.

(** The loop of [flush_in_scope]; [passes] counts down. A plan never panics
    ([FlushOrder.flush_writes_in_dependency_order]). *)
Fixpoint flush_passes (passes : nat) (processed : nat) : Op unit := λ m,
  let entries := drop processed (managed_entries m) in
  let entries_len := length (managed_entries m) in
  if entries_len <=? processed then (m, Ok tt)
  else
    match passes with
    | 0 => (m, Err (query_error (lit "entity manager flush exceeded 16 passes while new managed entries kept being registered; check relation sync for cycles")))
    | S passes =>
        match @flush_pass_order N (entry_ops m) entries with
        | None => (m, Err (query_error (lit "panic")))
        | Some (order, ids) =>
            op_bind (flush_each (unordered order) ids) (λ _, flush_passes passes entries_len) m
        end
    end.

Definition flush_in_scope : Op unit :=
  let! _ := flush_passes MAX_FLUSH_PASSES 0 in
  op_do (λ m, upd_managed_entries
                (filter (λ id, default Detached (state <$> heap m !! id) ≠ Detached)) m).

(** [flush], and [save_with_entity_manager] of an entity. *)
Definition flush (nested : bool) (commit : result unit Failure) : Op unit := λ m,
  match scope m with
  | Some _ => flush_in_scope m
  | None => in_unit_of_work nested commit flush_in_scope m
  end.

Definition save (nested : bool) (commit : result unit Failure) (x : Entity) : Op Entity := λ m,
  match scope m with
  | Some _ => save_in_scope x m
  | None => in_unit_of_work nested commit (save_in_scope x) m
  end.

(** ** Relations of a saved aggregate *)

Definition removed_keys (baseline : option (list str)) (current : list str) : list str :=
  filter (.∉ current) (default [] baseline).

Fixpoint added_loop (baseline seen current : list str) : list str :=
  match current with
  | [] => []
  | key :: current =>
      if bool_decide (key ∈ baseline) then added_loop baseline seen current
      else if bool_decide (key ∈ seen) then added_loop baseline seen current
      else key :: added_loop baseline (key :: seen) current
  end.

Definition added_keys (baseline : option (list str)) (current : list str) : list str :=
  added_loop (default [] baseline) [] current.

Fixpoint delete_each (type : N) (keys : list str) : Op unit :=
  match keys with
  | [] => op_ret tt
  | key :: keys =>
      let! _ := (λ m, match get_by_key (type, key) m with
                      | Some deleted => model_delete deleted m
                      | None => (m, Ok tt)
                      end) in
      let! _ := op_do (remove_by_entity_manager_key (type, key)) in
      delete_each type keys
  end.

Definition delete_detached_entities (type : N) (baseline : option (list str))
    (current_keys : list str) : Op unit :=
  delete_each type (removed_keys baseline current_keys).

(** [__sync_related_entity]: the entity as it is afterwards, and its key. *)
Definition sync_related_entity (x : Entity) : Op (Entity * option str) := λ m,
  match entity_key x with
  | Err e => (m, Err e)
  | Ok existing_key =>
      let unchanged :=
        match existing_key with
        | Some key => match get_by_key (type_of x, key) m with
                      | Some cached => same_columns x cached
                      | None => false
                      end
        | None => false
        end in
      if unchanged then
        op_bind (sync_relations x)
          (λ x m, let '(x, m) := put x m in (m, Ok (x, existing_key))) m
      else
        op_bind (save_in_scope x)
          (λ saved m, (m, saved_key <-? entity_key saved ;; Ok (saved, saved_key))) m
  end.
End Store.
End EntityManager.
