(* ===== verification/EntityContext.v ===== *)
(** * What the entity manager promises

    The theorems of [EntityManager]: the three-way merge of a stored row, the undoing of a
    flush's writes and of a unit of work's filings, the entries a flush writes, and the
    handles its map finds. [EntityLaws] is what they ask of a model's generated code;
    [rows] is a model that has it, on which the examples run. *)

From S2P Require Import Prelude MinHeap Topology FlushOrder EntityManager.
Local Open Scope tide_scope.

(** ** Fields *)

(** What the derive macro generates: fields are values of their own, named once, and
    copied as they are; taking another entity's relation wrappers changes none. *)
Class EntityLaws `{Entities} : Prop := {
  field_names_nodup t : NoDup (field_names t);
  copy_total x s f : type_of x = type_of s → f ∈ field_names (type_of x) →
    ∃ t, copy_field_from x s f = Ok t;
  copy_value x s f g t : copy_field_from x s f = Ok t →
    compare_value t g = if bool_decide (g = f) then compare_value s f else compare_value x g;
  copy_type x s f t : copy_field_from x s f = Ok t → type_of t = type_of x;
  relations_from_value x y f : compare_value (relations_from x y) f = compare_value x f;
  relations_from_type x y : type_of (relations_from x y) = type_of x;
}.

Section Merging.
Context `{EntityLaws}.
Implicit Types (x y target holder base saved : Entity) (f g : str).

(** The two hold one value in a field. *)
Definition same_field x y f : bool :=
  match compare_value x f, compare_value y f with
  | Ok v, Ok w => bool_decide (v = w)
  | _, _ => false
  end.

(** The three-way merge of a field: the holder's if it changed since [base], else the
    stored one. *)
Definition merged_from holder base saved f : Entity := if same_field holder base f then saved else holder.

Lemma merge_fields_loop_spec holder base saved names changed target t changed' :
  NoDup names →
  merge_fields_loop holder base saved names changed target = (t, Ok changed') →
  type_of t = type_of target
  ∧ changed' = changed ++ filter (λ f, same_field holder base f = true ∧ same_field holder saved f = false) names
  ∧ (∀ f, compare_value t f = if bool_decide (f ∈ names)
                              then compare_value (merged_from holder base saved f) f
                              else compare_value target f)
  ∧ Forall (λ f, same_field holder base f = true → is_ok (compare_value saved f) = true) names.
Proof.
  revert changed target. induction names as [|g names IH]; intros changed target; cbn [merge_fields_loop].
  { intros _ [= -> ->]. rewrite list.filter_nil, app_nil_r. split_and!; [done..|constructor]. }
  intros [Hg Hnd]%list.NoDup_cons.
  destruct (compare_value holder g) as [held|] eqn:Eh; [|done].
  destruct (compare_value base g) as [loaded|] eqn:Eb; [|done].
  assert (∀ source target' changed1,
    (same_field holder base g = true → is_ok (compare_value saved g) = true) →
    copy_field_from target source g = Ok target' →
    merged_from holder base saved g = source →
    changed1 = changed ++ (if decide (same_field holder base g = true ∧ same_field holder saved g = false)
                           then [g] else []) →
    merge_fields_loop holder base saved names changed1 target' = (t, Ok changed') →
    type_of t = type_of target
    ∧ changed' = changed ++ filter (λ f, same_field holder base f = true ∧ same_field holder saved f = false) (g :: names)
    ∧ (∀ f, compare_value t f = if bool_decide (f ∈ g :: names)
                                then compare_value (merged_from holder base saved f) f
                                else compare_value target f)
    ∧ Forall (λ f, same_field holder base f = true → is_ok (compare_value saved f) = true) (g :: names)) as Hstep.
  { intros source target' changed1 Hsaved Hc Hsrc -> Hl. apply IH in Hl as (Ht & -> & Hv & Hok); [|done].
    split_and!.
    - rewrite Ht. by eapply copy_type.
    - rewrite list.filter_cons, <- app_assoc. by destruct (decide _).
    - intros f. rewrite Hv, (copy_value _ _ _ f _ Hc). destruct (decide (f = g)) as [->|Hne].
      + rewrite (bool_decide_false (g ∈ names)), !bool_decide_true by (done || by left). by rewrite Hsrc.
      + rewrite (bool_decide_false (f = g)) by done.
        by rewrite (bool_decide_ext (f ∈ g :: names) (f ∈ names)) by set_solver.
    - by constructor. }
  unfold merged_from, same_field in Hstep. rewrite Eh, Eb in Hstep.
  case_bool_decide as Hd.
  - destruct (compare_value saved g) as [stored|] eqn:Es; [|done].
    destruct (copy_field_from target saved g) as [target'|] eqn:Ec; [|done].
    intros Hl. eapply Hstep; [done|exact Ec|done| |exact Hl].
    case_bool_decide; [rewrite decide_False by naive_solver; by rewrite app_nil_r|by rewrite decide_True].
  - destruct (copy_field_from target holder g) as [target'|] eqn:Ec; [|done].
    intros Hl. eapply Hstep; [done|exact Ec|done| |exact Hl].
    rewrite decide_False by naive_solver. by rewrite app_nil_r.
Qed.

(** C16: merging a stored row into a held one is a three-way merge: each field that the
    holder changed since its base keeps the change, every other takes the stored
    value; what the merge starts from keeps nothing of its own but fields the model
    does not have; and the fields reported are exactly the unchanged ones whose
    stored value differs. *)
Theorem stored_row_merges_three_way target holder base saved t changed :
  merge_fields target holder base saved = (t, Ok changed) →
  type_of t = type_of target
  ∧ (∀ f, f ∈ field_names (type_of target) →
       compare_value t f
       = compare_value (if same_field holder base f then saved else holder) f
       ∧ (f ∈ changed ↔ same_field holder base f = true ∧ same_field holder saved f = false))
  ∧ ∀ f, f ∉ field_names (type_of target) → compare_value t f = compare_value target f.
Proof.
  intros Hm. apply merge_fields_loop_spec in Hm as (Ht & -> & Hv & _); [|apply field_names_nodup].
  split_and!; [done|..].
  - intros f Hf. split; [by rewrite Hv, bool_decide_true|].
    cbn. rewrite list_elem_of_filter. naive_solver.
  - intros f Hf. by rewrite Hv, bool_decide_false.
Qed.

(** Undoing a merge gives each reported field that still holds the stored value its
    old one back. *)
Lemma undo_fields_spec (changes : FieldChanges) x :
  NoDup (fields changes) → (∀ f, f ∈ fields changes → f ∈ field_names (type_of x)) →
  type_of (before changes) = type_of x →
  type_of (undo_fields_of changes x) = type_of x
  ∧ ∀ f, compare_value (undo_fields_of changes x) f
         = if bool_decide (f ∈ fields changes) && same_field x (after changes) f
           then compare_value (before changes) f else compare_value x f.
Proof.
  unfold undo_fields_of. intros Hnd Hin Hty. revert x Hin Hty.
  induction (fields changes) as [|g names IH]; intros x Hin Hty; cbn [foldl].
  { split; [done|]. intros f. by rewrite bool_decide_false by apply not_elem_of_nil. }
  apply list.NoDup_cons in Hnd as [Hg Hnd].
  assert (type_of (undo_field changes x g) = type_of x
          ∧ ∀ f, compare_value (undo_field changes x g) f
                 = if bool_decide (f = g) && same_field x (after changes) g
                   then compare_value (before changes) g else compare_value x f) as [Hty1 Hv1].
  { unfold undo_field, same_field.
    destruct (compare_value x g) as [v|] eqn:Ex; [|split; [done|intros; by rewrite andb_false_r]].
    destruct (compare_value (after changes) g) as [w|]; [|split; [done|intros; by rewrite andb_false_r]].
    case_bool_decide; [|split; [done|intros; by rewrite andb_false_r]].
    destruct (copy_total x (before changes) g) as [t Ht]; [done|apply Hin; by left|]. rewrite Ht.
    split; [by eapply copy_type|]. intros f. rewrite andb_true_r. by eapply copy_value. }
  destruct (IH Hnd (undo_field changes x g)) as [Hty2 Hv2].
  { intros f Hf. rewrite Hty1. apply Hin. by right. }
  { by rewrite Hty1. }
  split; [congruence|]. intros f. rewrite Hv2, Hv1. unfold same_field. rewrite Hv1.
  destruct (decide (f = g)) as [->|Hne].
  - rewrite (bool_decide_false (g ∈ names)), (bool_decide_true (g = g)) by done. cbn [andb].
    rewrite (bool_decide_true (g ∈ g :: names)) by by left. done.
  - rewrite (bool_decide_false (f = g)) by done. cbn [andb].
    by rewrite (bool_decide_ext (f ∈ g :: names) (f ∈ names)) by set_solver.
Qed.
End Merging.

(** ** Undoing a flush *)

Section Undoing.
Context `{EntityLaws}.
Implicit Types (m : Manager) (e : ManagedEntry) (x : Entity) (id : N).

Lemma lookup_upd_entry id (f : ManagedEntry → ManagedEntry) m : heap (upd_entry id f m) !! id = f <$> heap m !! id.
Proof. apply lookup_alter_eq. Qed.

Lemma lookup_upd_entry_ne id id' (f : ManagedEntry → ManagedEntry) m :
  id ≠ id' → heap (upd_entry id f m) !! id' = heap m !! id'.
Proof. intros Hne. by apply lookup_alter_ne. Qed.

(** An entry filed under exactly the key it records. *)
Definition filed m id e : Prop :=
  ∀ key, managed_map m !! (entry_type e, key) = Some id ↔ identity_key e = Some key.

(** The state a rollback of one flush gives back: everything but the entry's value. *)
Record undone id e m x m' : Prop := {
  undone_entry : heap m' !! id = Some (set_current x e);
  undone_heap id' : id' ≠ id → heap m' !! id' = heap m !! id';
  undone_managed : managed_map m' = managed_map m;
  undone_entries : managed_entries m' = managed_entries m;
  undone_identities : identity_map m' = identity_map m;
}.

(** What [flush_written] leaves. *)
Lemma flush_written_Ok id read saved previous m e m1 :
  heap m !! id = Some e → flush_written id read saved previous m = (m1, Ok tt) →
  let next := Some (pk_key saved) in
  let live := negb (bool_decide (state e = Detached)) in
  let st := if live then (if bool_decide (state e = Removed) then Removed else Managed) else Detached in
  let ik := if live then next else identity_key e in
  ∃ stored changed,
    merge_fields saved (current e) read saved = (stored, Ok changed)
    ∧ let u := {| undo_fields := Some {| fields := changed; before := read; after := saved |};
                  undo_snapshot := (snapshot e, Some saved);
                  undo_persisted_key := (persisted_key e, next);
                  undo_identity_key := (identity_key e, ik);
                  undo_state := (state e, st) |} in
      heap m1 = <[id := {| entry_type := entry_type e; current := stored; snapshot := Some saved;
                           state := st; persisted_key := next; identity_key := ik |}]> (heap m)
      ∧ managed_map m1
        = (if live then <[(entry_type e, pk_key saved) := id]>
             (match previous with
              | Some key => if bool_decide (previous = next) then managed_map m
                            else delete (entry_type e, key) (managed_map m)
              | None => managed_map m
              end) else managed_map m)
      ∧ managed_entries m1 = managed_entries m ∧ identity_map m1 = identity_map m
      ∧ undo m1 = UndoFlush id u :: undo m.
Proof.
  intros He. unfold flush_written. rewrite He.
  destruct (relations_match (current e) read); [|done]. cbn [negb].
  destruct (merge_fields saved (current e) read saved) as [stored [changed|]]; [|done].
  intros [= <-]. cbn zeta. exists stored, changed. split; [done|].
  destruct (bool_decide (state e = Detached)) eqn:Ed; cbn [negb].
  - split_and!; [|done..]. unfold undo_on_rollback, upd_entry, upd_heap. cbn [heap].
    rewrite (alter_alt_Some _ _ _ _ He). apply bool_decide_eq_true in Ed. rewrite <- Ed. by destruct e.
  - split_and!; [|destruct previous as [key|]; [by destruct (bool_decide (Some key = _))|done]..|].
    + transitivity (alter (λ e, set_state (if bool_decide (state e = Removed) then Removed else Managed)
                                  (set_identity_key (Some (pk_key saved)) e)) id
                      (alter (λ _, set_persisted_key (Some (pk_key saved))
                                     (set_snapshot (Some saved) (set_current stored e))) id (heap m))).
      * destruct previous as [key|]; [by destruct (bool_decide (Some key = _))|done].
      * rewrite alter_alter_eq. by rewrite (alter_alt_Some _ _ _ _ He).
    + destruct previous as [key|]; [by destruct (bool_decide (Some key = _))|done].
Qed.

Lemma flush_written_next id read saved previous m m1 r :
  flush_written id read saved previous m = (m1, r) → next_address m1 = next_address m.
Proof.
  unfold flush_written. destruct (heap m !! id) as [e|]; [|by intros [= <- _]].
  destruct (negb _); [by intros [= <- _]|].
  destruct (merge_fields _ _ _ _) as [stored [changed|]]; [|by intros [= <- _]]. cbn zeta.
  intros [= <- _]. destruct (bool_decide (state e = Detached)); [done|].
  destruct previous as [key|]; [|done]. by destruct (bool_decide (Some key = _)).
Qed.

(** The value [undo_entry] gives an entry. *)
Definition undone_value (changes : FieldChanges) x : Entity :=
  undo_fields_of changes
    (if relations_match x (after changes) then relations_from x (before changes) else x).

(** The managed map an undo leaves. *)
Definition undone_map id (u : FlushUndo) e (M : gmap IdentityKey N) : gmap IdentityKey N :=
  let '(b, a) := undo_identity_key u in
  let map := match a with Some key => delete (entry_type e, key) M | None => M end in
  if bool_decide (b = a) then M
  else match b with Some key => <[(entry_type e, key) := id]> map | None => map end.

Lemma undo_identity_spec id u e m :
  heap m !! id = Some e → identity_key e = (undo_identity_key u).2 →
  heap (undo_identity id u m) = <[id := set_identity_key (undo_identity_key u).1 e]> (heap m)
  ∧ managed_map (undo_identity id u m) = undone_map id u e (managed_map m)
  ∧ managed_entries (undo_identity id u m) = managed_entries m
  ∧ identity_map (undo_identity id u m) = identity_map m.
Proof.
  intros He Hi. unfold undo_identity, undone_map. rewrite He.
  destruct (undo_identity_key u) as [b a]. cbn in Hi. rewrite Hi. rewrite bool_decide_true by done. cbn [andb].
  destruct (bool_decide (b = a)) eqn:Eb; cbn [negb fst].
  - apply bool_decide_eq_true in Eb as <-. split_and!; [|done..]. rewrite insert_id; [done|].
    rewrite He. f_equal. destruct e. cbn in *. by subst.
  - assert (∀ m', heap m' = heap m →
      heap (upd_entry id (set_identity_key b) m') = <[id := set_identity_key b e]> (heap m)) as Hset.
    { intros m' Hm'. unfold upd_entry, upd_heap. cbn [heap]. rewrite Hm'. by apply alter_alt_Some. }
    split_and!; [apply Hset|..]; by destruct a, b.
Qed.

(** Undoing on an entry as a flush left it. *)
Lemma undo_flush_spec id u e x e1 m1 m :
  heap m1 = <[id := e1]> (heap m) →
  undo_entry u e1 = {| entry_type := entry_type e; current := x; snapshot := snapshot e;
                       state := (undo_state u).2; persisted_key := persisted_key e;
                       identity_key := (undo_identity_key u).2 |} →
  (undo_identity_key u).1 = identity_key e → (undo_state u).1 = state e →
  ((undo_state u).2 = Detached → id ∈ managed_entries m ∨ state e = Detached) →
  managed_entries m1 = managed_entries m → identity_map m1 = identity_map m →
  undone_map id u e (managed_map m1) = managed_map m →
  undone id e m x (undo_flush id u m1).
Proof.
  intros Hheap Hue Hi Hst Hdet Hent Hid Hmap. unfold undo_flush.
  set (m2 := upd_entry id (undo_entry u) m1). set (e2 := undo_entry u e1) in *.
  assert (heap m2 = <[id := e2]> (heap m)) as Hh2.
  { unfold m2, upd_entry, upd_heap. cbn [heap]. by rewrite Hheap, alter_insert_eq. }
  destruct (undo_identity_spec id u e2 m2) as (Hh3 & Hm3 & He3 & Hi3).
  { by rewrite Hh2, lookup_insert_eq. }
  { by rewrite Hue. }
  set (m3 := undo_identity id u m2) in *. clearbody m3.
  rewrite Hh2, insert_insert_eq in Hh3.
  assert (managed_map m3 = managed_map m ∧ managed_entries m3 = managed_entries m
          ∧ identity_map m3 = identity_map m) as (Hm3' & He3' & Hi3').
  { rewrite Hm3, He3, Hi3. split_and!; [|done..]. rewrite <- Hmap. unfold undone_map. by rewrite Hue. }
  clear Hm3 He3 Hi3 Hmap. rewrite Hi in Hh3. clearbody e2. subst e2.
  cbn [set_identity_key entry_type current snapshot state persisted_key] in Hh3.
  unfold undo_state_of. rewrite Hh3, lookup_insert_eq. cbn [state].
  destruct (undo_state u) as [st1 st2]. cbn in Hst, Hdet, Hh3. subst st1.
  rewrite (bool_decide_true (st2 = st2)) by done. cbn [andb].
  set (m4 := upd_entry id (set_state (state e)) m3).
  assert (heap m4 = <[id := set_current x e]> (heap m)) as Hh4.
  { unfold m4, upd_entry, upd_heap. cbn [heap]. rewrite Hh3, alter_insert_eq. by destruct e. }
  assert (undone id e m x m4) as H4.
  { split; [by rewrite Hh4, lookup_insert_eq| |done..]. intros id' Hne. by rewrite Hh4, lookup_insert_ne. }
  clearbody m4. destruct (negb (bool_decide (state e = st2)) && bool_decide (st2 = Detached)) eqn:E; [|done].
  apply andb_true_iff in E as [E1%negb_true_iff%bool_decide_eq_false E2%bool_decide_eq_true].
  destruct (Hdet E2) as [Hin|?]; [|congruence]. destruct H4. split; [done..| |done].
  unfold reregister_managed_entry, upd_managed_entries. cbn [managed_entries].
  rewrite undone_entries0. by rewrite bool_decide_true.
Qed.

Lemma undone_value_spec (changes : FieldChanges) y :
  NoDup (fields changes) → (∀ f, f ∈ fields changes → f ∈ field_names (type_of y)) →
  type_of (before changes) = type_of y →
  ∀ f, compare_value (undone_value changes y) f
       = if bool_decide (f ∈ fields changes) && same_field y (after changes) f
         then compare_value (before changes) f else compare_value y f.
Proof.
  intros Hnd Hin Hty f. unfold undone_value. set (x := if relations_match _ _ then _ else y).
  assert (type_of x = type_of y ∧ ∀ f, compare_value x f = compare_value y f) as [Hxt Hxv].
  { subst x. destruct (relations_match _ _); [|done].
    split; [apply relations_from_type|intros; apply relations_from_value]. }
  clearbody x. destruct (undo_fields_spec changes x) as [_ Hv]; [done|by rewrite Hxt|congruence|].
  rewrite Hv. unfold same_field. by rewrite !Hxv.
Qed.

(** The managed map of a written entry, and what its undo makes of it. *)
Lemma refiled_map (M : gmap IdentityKey N) id u e pk (live : bool) :
  undo_identity_key u = (identity_key e, if live then Some pk else identity_key e) →
  (∀ key, identity_key e = Some key → M !! (entry_type e, key) = Some id) →
  M !! (entry_type e, pk) = None ∨ identity_key e = Some pk →
  undone_map id u e
    (if live then
       <[(entry_type e, pk) := id]>
         (match identity_key e with
          | Some key => if bool_decide (identity_key e = Some pk) then M
                        else delete (entry_type e, key) M
          | None => M
          end)
     else M) = M.
Proof.
  unfold undone_map. intros -> Hik Hfree. destruct live; cbn zeta; [|by rewrite bool_decide_true].
  destruct (identity_key e) as [key|].
  - case_bool_decide as Heq.
    + injection Heq as ->. apply insert_id. by apply Hik.
    + destruct Hfree as [Hfree|?]; [|done].
      assert ((entry_type e, key) ≠ (entry_type e, pk)) as Hne by congruence.
      rewrite delete_insert_id by by rewrite lookup_delete_ne.
      rewrite insert_delete_eq. apply insert_id. by apply Hik.
  - rewrite bool_decide_false by done. destruct Hfree as [Hfree|?]; [|done]. by rewrite delete_insert_id.
Qed.

(** A field's value through a flush, edits and the undo. *)
Lemma undone_flush_value ty x read saved stored changed y f :
  type_of read = ty → type_of saved = ty → type_of y = ty → f ∈ field_names ty →
  merge_fields saved x read saved = (stored, Ok changed) →
  let changes := {| fields := changed; before := read; after := saved |} in
  (compare_value y f = compare_value stored f →
   compare_value (undone_value changes y) f = compare_value x f)
  ∧ (same_field y saved f = false → compare_value (undone_value changes y) f = compare_value y f).
Proof.
  intros Hr Hs Hy Hf Hm changes.
  pose proof (merge_fields_loop_spec _ _ _ _ _ _ _ _ (field_names_nodup _) Hm) as (_ & Hc & Hv & Hok).
  rewrite Hs in *. cbn [app] in Hc.
  assert (∀ f, f ∈ changed ↔ (same_field x read f = true ∧ same_field x saved f = false) ∧ f ∈ field_names ty) as Hin.
  { intros f'. by rewrite Hc, list_elem_of_filter. }
  rewrite undone_value_spec; cbn [fields before after changes].
  - split; [|intros ->; by rewrite andb_false_r]. intros Hsame. specialize (Hv f).
    rewrite bool_decide_true in Hv by done. rewrite Hv in Hsame. rewrite Hsame.
    rewrite list.Forall_forall in Hok. specialize (Hok f Hf).
    unfold same_field at 1. rewrite Hsame. unfold merged_from.
    destruct (same_field x read f) eqn:Er.
    + specialize (Hok eq_refl). destruct (compare_value saved f) as [v|] eqn:Es; [|done].
      rewrite (bool_decide_true (v = v)), andb_true_r by done. unfold same_field in Er.
      case_bool_decide as Hd.
      * destruct (compare_value x f), (compare_value read f); try done. apply bool_decide_eq_true in Er. congruence.
      * rewrite Hin in Hd. destruct (same_field x saved f) eqn:Exs; [|by destruct Hd].
        unfold same_field in Exs. rewrite Es in Exs. destruct (compare_value x f); [|done].
        apply bool_decide_eq_true in Exs. by rewrite Exs.
    + rewrite (bool_decide_false (f ∈ changed)); [done|]. rewrite Hin, Er. by intros [[? _] _].
  - rewrite Hc. apply list.NoDup_filter, field_names_nodup.
  - intros f' [_ ?]%Hin. by rewrite Hy.
  - congruence.
Qed.

(** What a removal leaves of an entry. *)
Lemma flush_removed_Ok id e m :
  heap m !! id = Some e →
  ∃ m1, flush_removed id m = (m1, Ok tt)
    ∧ heap m1 = <[id := {| entry_type := entry_type e; current := current e; snapshot := None;
                           state := Detached; persisted_key := None; identity_key := None |}]> (heap m)
    ∧ managed_map m1 = match identity_key e with
                       | Some key => delete (entry_type e, key) (managed_map m)
                       | None => managed_map m
                       end
    ∧ managed_entries m1 = managed_entries m ∧ identity_map m1 = identity_map m
    ∧ undo m1 = UndoFlush id {| undo_fields := None;
                                undo_snapshot := (snapshot e, None);
                                undo_persisted_key := (persisted_key e, None);
                                undo_identity_key := (identity_key e, None);
                                undo_state := (state e, Detached) |} :: undo m.
Proof.
  intros He. unfold flush_removed. rewrite He. eexists. split; [done|].
  unfold evict. rewrite lookup_upd_entry, He. cbn [fmap option_fmap option_map].
  unfold undo_on_rollback, upd_entry, upd_heap, remove_managed_entry, upd_managed_map.
  cbn [set_persisted_key set_snapshot identity_key entry_type].
  destruct (identity_key e); cbn [heap managed_map managed_entries identity_map undo];
    (split_and!; [|done..]); rewrite alter_alter_eq, (alter_alt_Some _ _ _ _ He); by destruct e.
Qed.

(** C5: a flush that a rollback undoes leaves the context as it found it: the entry's
    snapshot, keys and state, the managed map and the list of entries are what they
    were, and its value keeps exactly what its holder gave it. A field that nobody
    touched since the flush has the value it had before; one edited since, to
    anything but the stored value, keeps the edit. An entry whose removal is undone
    is managed again as it was. *)
Theorem rolled_back_flush_restores_the_entry id e m m1 read saved previous g :
  heap m !! id = Some e → filed m id e →
  (previous = identity_key e → type_of read = entry_type e → type_of saved = entry_type e →
   (∀ x, type_of x = entry_type e → type_of (g x) = entry_type e) →
   same_columns saved saved = true →
   managed_map m !! (entry_type e, pk_key saved) = None ∨ identity_key e = Some (pk_key saved) →
   flush_written id read saved previous m = (m1, Ok tt) →
   ∃ u e1 x, undo m1 = u :: undo m ∧ heap m1 !! id = Some e1
     ∧ undone id e m x (run_undo (edit id g m1) u)
     ∧ ∀ f, f ∈ field_names (entry_type e) →
         (compare_value (g (current e1)) f = compare_value (current e1) f →
          compare_value x f = compare_value (current e) f)
         ∧ (same_field (g (current e1)) saved f = false →
            compare_value x f = compare_value (g (current e1)) f))
  ∧ (id ∈ managed_entries m → flush_removed id m = (m1, Ok tt) →
     ∃ u, undo m1 = u :: undo m ∧ undone id e m (current e) (run_undo m1 u)).
Proof.
  intros He Hfiled. split.
  - intros -> Hread Hsaved Hg Hrefl Hfree Hok.
    destruct (flush_written_Ok _ _ _ _ _ _ _ He Hok) as (stored & changed & Hmerge & Hm1).
    cbv zeta in Hm1. set (u := {| undo_fields := _ |}) in Hm1.
    destruct Hm1 as (Hheap & Hmap & Hents & Hids & Hundo).
    assert (type_of stored = entry_type e) as Hst.
    { apply merge_fields_loop_spec in Hmerge as (-> & _); [done|apply field_names_nodup]. }
    set (changes := {| fields := changed; before := read; after := saved |}).
    eexists (UndoFlush id u), _, (undone_value changes (g stored)).
    split; [done|]. rewrite Hheap, lookup_insert_eq. split; [done|]. cbn [current]. split.
    + eapply (undo_flush_spec id u); [| |done|done| |done|done|].
      * unfold edit, upd_entry, upd_heap. cbn [heap]. by rewrite Hheap, alter_insert_eq.
      * unfold undo_entry. cbn. rewrite Hrefl. cbn. by rewrite bool_decide_true.
      * intros Hd. right. cbn in Hd. destruct (bool_decide (state e = Detached)) eqn:Ed; cbn in Hd.
        { by apply bool_decide_eq_true in Ed. }
        by destruct (bool_decide (state e = Removed)).
      * cbn [edit upd_entry upd_heap managed_map]. rewrite Hmap. apply refiled_map; [done| |done].
        intros key. apply Hfiled.
    + intros f Hf. eapply undone_flush_value; [done..|by apply Hg|done|done].
  - intros Hin Hok. destruct (flush_removed_Ok id e m He) as (m1' & Heq & Hheap & Hmap & Hents & Hids & Hundo).
    rewrite Hok in Heq. injection Heq as <-. rewrite Hundo. eexists. split; [done|]. cbn [run_undo].
    eapply undo_flush_spec; [exact Hheap|done|done|done|by left|done|done|].
    unfold undone_map. cbn. rewrite Hmap. destruct (identity_key e) as [key|] eqn:Ek.
    + rewrite bool_decide_false by done. rewrite insert_delete_eq. apply insert_id. by apply Hfiled.
    + by rewrite bool_decide_true.
Qed.
End Undoing.

(** ** Undoing what a unit of work filed *)

Section Identities.
Context `{Entities}.
Implicit Types (m : Manager) (x : Entity) (key : IdentityKey).

(** What may happen to a context while one of its units of work runs: its saves file and
    remove entities, reads register rows under the keys [R], any task clears it, and
    everything else leaves the other keys alone. *)
Definition quiet (u : Undo) : Prop :=
  match u with UndoFlush _ _ | UndoRebase _ _ _ | UndoAttach _ _ => True | _ => False end.

Definition of_unit (R : IdentityKey → Prop) (u : Undo) : Prop :=
  match u with UndoRegister key _ => R key | u => quiet u end.

Record unrelated (R : IdentityKey → Prop) m m' : Prop := {
  unrelated_map key : ¬ R key → identity_map m' !! key = identity_map m !! key;
  unrelated_generation : identity_generation m' = identity_generation m;
  unrelated_logs : rollback_logs m' = rollback_logs m;
  unrelated_scope : scope m' = scope m;
  unrelated_undo : ∃ l, undo m' = l ++ undo m ∧ Forall (of_unit R) l;
}.

Inductive identity_step (R : IdentityKey → Prop) : relation Manager :=
  | step_put x m : identity_step R m (put x m).2
  | step_remove key m : identity_step R m (remove_by_entity_manager_key key m)
  | step_clear m : identity_step R m (clear m)
  | step_register reading x m :
      R (identity_key_of (attach_database x)) → identity_step R m (register reading x m).2
  | step_unrelated m m' : unrelated R m m' → identity_step R m m'.

Context (R : IdentityKey → Prop).

Definition log_of (log : N) m := default ∅ (rollback_logs m !! log).

(** The map a rollback has to give back: the one the unit started from, or none of it
    after a clear. *)
Definition base m0 m : gmap IdentityKey (N * Entity) :=
  if bool_decide (identity_generation m = identity_generation m0) then identity_map m0 else ∅.

Record running m0 (log : N) m : Prop := {
  running_scope : scope m = Some log;
  running_generation : (identity_generation m0 ≤ identity_generation m)%N;
  running_log key o : ¬ R key → log_of log m !! (key, identity_generation m) = Some o → o = base m0 m !! key;
  running_map key : ¬ R key → log_of log m !! (key, identity_generation m) = None →
    identity_map m !! key = base m0 m !! key;
  running_past key g o : log_of log m !! (key, g) = Some o → (g ≤ identity_generation m)%N;
  running_undo : ∃ l, undo m = l ++ [UndoIdentityMap log] ∧ Forall (of_unit R) l;
}.

(** Changing a key that the log has. *)
Lemma running_recorded m0 (log : N) key (f : gmap IdentityKey (N * Entity) → gmap IdentityKey (N * Entity)) m m' :
  running m0 log m → (∀ map key', key' ≠ key → f map !! key' = map !! key') →
  m' = record_identity_map_rollback key m →
  running m0 log {| identity_map := f (identity_map m'); identity_generation := identity_generation m';
                    managed_map := managed_map m'; managed_entries := managed_entries m'; heap := heap m';
                    next_address := next_address m'; rollback_logs := rollback_logs m';
                    scope := scope m'; undo := undo m' |}.
Proof.
  intros Hrun Hf ->. pose proof (running_scope _ _ _ Hrun) as Hs.
  unfold record_identity_map_rollback. rewrite Hs. fold (log_of log m).
  destruct (log_of log m !! (key, identity_generation m)) as [o|] eqn:El.
  - destruct Hrun as [_ Hg Hl Hm Hp Hu]. split; cbn; [done..| |done|done].
    intros key' Hk El'. rewrite Hf; [by apply Hm|]. intros ->. change (log_of log m !! (key, identity_generation m) = None) in El'. congruence.
  - destruct Hrun as [_ Hg Hl Hm Hp Hu]. unfold upd_rollback_logs.
    split; cbn [scope identity_generation identity_map rollback_logs undo]; [done..| | | |done].
    all: unfold log_of, base; cbn [rollback_logs identity_generation]; rewrite lookup_insert_eq; cbn [default from_option id].
    + intros key' o Hk. destruct (decide (key' = key)) as [->|Hne].
      * rewrite lookup_insert_eq. intros [= <-]. by apply Hm.
      * rewrite lookup_insert_ne by congruence. by apply Hl.
    + intros key' Hk. destruct (decide (key' = key)) as [->|Hne]; [by rewrite lookup_insert_eq|].
      rewrite lookup_insert_ne by congruence. intros El'. rewrite Hf by done. by apply Hm.
    + intros key' g o. destruct (decide ((key', g) = (key, identity_generation m))) as [[= -> ->]|Hne].
      * rewrite lookup_insert_eq. intros _. reflexivity.
      * rewrite lookup_insert_ne by congruence. apply Hp.
Qed.

Lemma evict_frame id m :
  identity_map (evict id m) = identity_map m ∧ identity_generation (evict id m) = identity_generation m
  ∧ rollback_logs (evict id m) = rollback_logs m ∧ scope (evict id m) = scope m
  ∧ undo (evict id m) = undo m.
Proof. unfold evict. destruct (heap m !! id) as [e|]; [|done]. by destruct (identity_key e). Qed.

(** What [running] reads of a state. *)
Record same_identities m m' : Prop := {
  same_map : identity_map m' = identity_map m;
  same_generation : identity_generation m' = identity_generation m;
  same_logs : rollback_logs m' = rollback_logs m;
  same_scope : scope m' = scope m;
  same_undo : undo m' = undo m;
}.

Lemma running_ext m0 (log : N) m m' : same_identities m m' → running m0 log m → running m0 log m'.
Proof.
  intros [Em Eg El Es Eu] [Hs Hg Hl Hm Hp Hu].
  assert (log_of log m' = log_of log m ∧ base m0 m' = base m0 m) as [Elog Ebase].
  { unfold log_of, base. by rewrite Eg, El. }
  split; rewrite ?Es, ?Eu, ?Eg, ?Em, ?Elog, ?Ebase; done.
Qed.

Lemma clear_frame m :
  identity_map (clear m) = ∅ ∧ identity_generation (clear m) = (identity_generation m + 1)%N
  ∧ rollback_logs (clear m) = rollback_logs m ∧ scope (clear m) = scope m ∧ undo (clear m) = undo m.
Proof.
  unfold clear.
  assert (∀ ids m', same_identities m m' → same_identities m (foldl (λ m id, evict id m) m' ids)) as Hfold.
  { induction ids as [|id ids IH]; intros m' Hm'; [done|]. cbn. apply IH.
    destruct (evict_frame id m') as (E1 & E2 & E3 & E4 & E5). destruct Hm'. split; congruence. }
  destruct (Hfold (managed_entries m) m) as [_ Hg Hl Hs Hu]; [done|]. cbn. by rewrite Hg, Hl, Hs, Hu.
Qed.

Lemma running_step m0 (log : N) m m' : identity_step R m m' → running m0 log m → running m0 log m'.
Proof.
  intros Hstep Hrun. destruct Hstep as [x m|key m|m|reading x m HR|m m' Hun].
  - unfold put. destruct (pk_is_new _); [done|].
    eapply running_ext; [|eapply (running_recorded m0 log (identity_key_of (attach_database x))
      <[identity_key_of (attach_database x) := _]>); [exact Hrun| |reflexivity]].
    + split; reflexivity.
    + intros map key' Hne. by rewrite lookup_insert_ne.
  - eapply running_ext; [|eapply (running_recorded m0 log key (delete key)); [exact Hrun| |reflexivity]].
    + split; reflexivity.
    + intros map key' Hne. by rewrite lookup_delete_ne.
  - destruct (clear_frame m) as (Em & Eg & El & Es & Eu). destruct Hrun as [Hs Hg Hl Hm Hp Hu].
    assert (∀ key, log_of log (clear m) !! (key, identity_generation (clear m)) = None) as Hnone.
    { intros key. unfold log_of. rewrite El, Eg. fold (log_of log m).
      destruct (log_of log m !! _) as [o|] eqn:E; [|done]. apply Hp in E. lia. }
    split; rewrite ?Es, ?Eu; [done|by rewrite Eg; lia|..|done].
    + intros key o _. by rewrite Hnone.
    + intros key _ _. rewrite Em. unfold base. rewrite Eg, bool_decide_false by lia. done.
    + intros key g o. unfold log_of. rewrite El, Eg. intros E. apply Hp in E. lia.
  - unfold register. destruct (pk_is_new _); [done|]. set (key := identity_key_of _) in *.
    destruct (get_by_key key m); [done|]. destruct Hrun as [Hs Hg Hl Hm Hp Hu].
    destruct Hu as (l & Hul & Hal).
    destruct reading; cbn [snd allocate]; split; cbn; try done.
    all: try (intros key' Hk E; rewrite lookup_insert_ne by congruence; by apply Hm).
    + exists (UndoRegister key (next_address m) :: l). cbn. rewrite Hul. split; [done|]. by constructor.
    + by exists l.
  - destruct Hun as [Em Eg El Es (l & Eu & Hq)], Hrun as [Hs Hg Hl Hm Hp (l' & Hu & Hal)].
    assert (log_of log m' = log_of log m ∧ base m0 m' = base m0 m) as [Elog Ebase].
    { unfold log_of, base. by rewrite Eg, El. }
    split; rewrite ?Es, ?Eg, ?Elog, ?Ebase; [done..| |done|].
    + intros key Hk. rewrite Em by done. by apply Hm.
    + exists (l ++ l'). rewrite Eu, Hu, <- app_assoc. split; [done|]. by apply Forall_app.
Qed.

(** Agreement but for the keys of [R], on what a rollback reads. *)
Record agree_off m m' : Prop := {
  off_map key : ¬ R key → identity_map m' !! key = identity_map m !! key;
  off_generation : identity_generation m' = identity_generation m;
  off_logs : rollback_logs m' = rollback_logs m;
  off_scope : scope m' = scope m;
}.

Lemma agree_off_same m m' : same_identities m m' → agree_off m m'.
Proof. intros [Em ? ? ? _]. split; [|done..]. by rewrite Em. Qed.

Lemma agree_off_trans m1 m2 m3 : agree_off m1 m2 → agree_off m2 m3 → agree_off m1 m3.
Proof.
  intros [H1 ? ? ?] [H2 ? ? ?]. split; [|congruence..]. intros key Hk. by rewrite H2, H1.
Qed.

Lemma undo_flush_identities id u m : same_identities m (undo_flush id u m).
Proof.
  unfold undo_flush, undo_state_of, undo_identity.
  repeat (case_match; try by split). all: cbn in *; simplify_eq; by split.
Qed.

Lemma detach_identities id m : same_identities m (detach id m).
Proof. destruct (evict_frame id m) as (? & ? & ? & ? & ?). by split. Qed.

Lemma run_undo_of_unit u m : of_unit R u → agree_off m (run_undo m u).
Proof.
  destruct u as [log|id u|id changes loaded|key address|key id]; cbn; intros Hu; [done|..].
  - apply agree_off_same, undo_flush_identities.
  - by split.
  - unfold unregister. destruct (identity_map m !! key) as [[current x]|]; [|by split].
    destruct (current =? address)%N; [|by split]. split; cbn; try done.
    intros key' Hk. rewrite lookup_delete_ne; [done|]. by intros ->.
  - unfold unattach. case_bool_decide; [|by split]. apply agree_off_same, detach_identities.
Qed.

Lemma run_undos_of_unit l m : Forall (of_unit R) l → agree_off m (foldl run_undo m l).
Proof.
  intros Hl. revert m. induction Hl as [|u l Hu _ IH]; intros m; cbn; [by split|].
  eapply agree_off_trans; [by apply run_undo_of_unit|apply IH].
Qed.

(** What putting a log back makes of a key. *)
Lemma restore_all (l : list ((IdentityKey * N) * option (N * Entity))) m key :
  NoDup l.*1 →
  let m' := foldr (λ '((key, generation), original), restore_identity key generation original) m l in
  identity_generation m' = identity_generation m ∧ scope m' = scope m
  ∧ (∀ o, ((key, identity_generation m), o) ∈ l → identity_map m' !! key = o)
  ∧ ((∀ o, ((key, identity_generation m), o) ∉ l) → identity_map m' !! key = identity_map m !! key).
Proof.
  induction l as [|[[k g] o] l IH]; cbn; intros Hnd.
  { split_and!; [done|done|by intros o ?%elem_of_nil|done]. }
  apply list.NoDup_cons in Hnd as [Hk Hnd]. destruct (IH Hnd) as (Hg & Hs & Hin & Hout).
  set (m' := foldr _ m l) in *. unfold restore_identity. rewrite Hg.
  case_bool_decide as Hgen; cbn [upd_identity_map identity_map identity_generation scope].
  - split_and!; [done|done|..].
    + intros o'. rewrite elem_of_cons. intros [[= -> _ ->]|Hl].
      * destruct o; [apply lookup_insert_eq|apply lookup_delete_eq].
      * assert (k ≠ key) as Hne. { intros ->. apply Hk, list_elem_of_fmap. rewrite <- Hgen. by exists ((key, identity_generation m), o'). }
        destruct o; [rewrite lookup_insert_ne by done|rewrite lookup_delete_ne by done]; by apply Hin.
    + intros Hno. assert (k ≠ key) as Hne. { intros ->. apply (Hno o). rewrite <- Hgen. by left. }
      destruct o; [rewrite lookup_insert_ne by done|rewrite lookup_delete_ne by done];
        apply Hout; intros o' Ho'; apply (Hno o'); by right.
  - split_and!; [done|done|..].
    + intros o'. rewrite elem_of_cons. intros [[= _ Hgm _]|Hl]; [by destruct Hgen|by apply Hin].
    + intros Hno. apply Hout. intros o' Ho'. apply (Hno o'). by right.
Qed.

(** A rollback gives back the map the unit started from. *)
Lemma running_rolled_back m0 (log : N) outer sc m key :
  running m0 log m → ¬ R key →
  identity_map (roll_back outer (set_scope sc m)) !! key
  = if bool_decide (identity_generation (roll_back outer (set_scope sc m)) = identity_generation m0)
    then identity_map m0 !! key else None.
Proof.
  intros [Hs Hg Hl Hm Hp (l & Hu & Hal)] Hk. unfold roll_back.
  cbn [set_scope undo]. rewrite Hu, foldl_app. cbn [foldl run_undo].
  pose proof (run_undos_of_unit l (set_scope sc m) Hal) as [Hmap Hgen Hlogs Hsc].
  set (m1 := foldl run_undo (set_scope sc m) l) in *. clearbody m1.
  cbn [set_scope identity_map identity_generation rollback_logs] in Hmap, Hgen, Hlogs.
  cbn [set_undo identity_map identity_generation]. unfold rollback_identity_map.
  rewrite Hlogs. fold (log_of log m). set (m2 := upd_rollback_logs _ m1).
  destruct (restore_all (map_to_list (log_of log m)) m2 key (NoDup_fst_map_to_list _)) as (Hg2 & _ & Hin & Hout).
  rewrite Hg2. subst m2. cbn [upd_rollback_logs identity_generation identity_map] in *.
  specialize (Hmap key Hk). rewrite Hgen in Hin, Hout |- *. rewrite Hmap in Hout.
  transitivity (base m0 m !! key).
  2: { unfold base. by case_bool_decide; [|rewrite lookup_empty]. }
  destruct (log_of log m !! (key, identity_generation m)) as [o|] eqn:El.
  - rewrite (Hin o) by by apply elem_of_map_to_list. by apply Hl.
  - rewrite Hout; [by apply Hm|]. intros o Ho%elem_of_map_to_list. congruence.
Qed.

Lemma roll_back_frame outer m :
  undo (roll_back outer m) = outer.
Proof. done. Qed.

(** ** Operations of a unit of work *)

Definition stepwise {A} (op : Op A) : Prop := ∀ m, rtc (identity_step R) m (op m).1.

Lemma stepwise_bind {A B} (op : Op A) (k : A → Op B) :
  stepwise op → (∀ a, stepwise (k a)) → stepwise (op_bind op k).
Proof.
  intros Hop Hk m. unfold op_bind. specialize (Hop m). destruct (op m) as [m1 [a|e]]; [|done].
  etrans; [exact Hop|apply Hk].
Qed.

Lemma stepwise_unrelated {A} (op : Op A) : (∀ m, unrelated R m (op m).1) → stepwise op.
Proof. intros Hop m. apply rtc_once, step_unrelated, Hop. Qed.

Lemma unrelated_refl m : unrelated R m m.
Proof. split; [done..|]. by exists []. Qed.

Lemma unrelated_same m m' : same_identities m m' → unrelated R m m'.
Proof. intros [Em]. split; [by rewrite Em|done..|]. by exists []. Qed.

Lemma unrelated_quiet m m' u : same_identities m m' → of_unit R u → unrelated R m (undo_on_rollback u m').
Proof. intros [Em] Hu. split; [by cbn; rewrite Em|done..|]. exists [u]. cbn. split; [congruence|by constructor]. Qed.

Lemma stepwise_rebase id saved : stepwise (rebase id saved).
Proof.
  apply stepwise_unrelated. intros m. unfold rebase.
  destruct (heap m !! id) as [e|]; [|by apply unrelated_refl].
  destruct (snapshot e); [|by apply unrelated_refl].
  destruct (merge_fields _ _ _ _) as [merged [changed|]]; cbn.
  - by apply unrelated_quiet.
  - by apply unrelated_same.
Qed.

Lemma stepwise_flush_written id read saved previous : stepwise (flush_written id read saved previous).
Proof.
  apply stepwise_unrelated. intros m. unfold flush_written.
  destruct (heap m !! id) as [e|]; [|by apply unrelated_refl].
  destruct (negb _); [by apply unrelated_refl|].
  destruct (merge_fields _ _ _ _) as [merged [changed|]]; [|by apply unrelated_refl].
  cbn zeta. cbn [fst]. apply unrelated_quiet; [|done].
  destruct (negb (bool_decide (state e = Detached))); [|by split].
  destruct previous; [|by split]. by destruct (bool_decide _).
Qed.

Lemma stepwise_flush_removed id : stepwise (flush_removed id).
Proof.
  apply stepwise_unrelated. intros m. unfold flush_removed.
  destruct (heap m !! id) as [e|]; [|by apply unrelated_refl].
  cbn zeta. cbn [fst]. apply unrelated_quiet; [|done]. set (m1 := upd_entry id _ m).
  destruct (evict_frame id m1) as (? & ? & ? & ? & ?). by split.
Qed.

Lemma stepwise_ret {A} (a : A) : stepwise (op_ret a).
Proof. intros m. reflexivity. Qed.

Lemma stepwise_fail {A} e : stepwise (@op_fail _ A e).
Proof. intros m. reflexivity. Qed.

Lemma stepwise_do f : (∀ m, identity_step R m (f m)) → stepwise (op_do f).
Proof. intros Hf m. apply rtc_once, Hf. Qed.

(** An operation that only looks at the state and then goes on as a stepwise one. *)
Lemma stepwise_look {A} (op : Op A) : (∀ m, ∃ op', stepwise op' ∧ op m = op' m) → stepwise op.
Proof. intros Hop m. destruct (Hop m) as (op' & Hs & ->). apply Hs. Qed.

Lemma stepwise_put x : stepwise (λ m, let '(x, m) := put x m in (m, Ok x)).
Proof.
  intros m. pose proof (step_put R x m) as Hs. destruct (put x m) as [x' m']. by apply rtc_once.
Qed.

Section Store.
Context (model_save : Entity → Op Entity) (model_delete : Entity → Op unit)
  (sync_relations : Entity → Op Entity).
Hypothesis save_stepwise : ∀ x, stepwise (model_save x).
Hypothesis delete_stepwise : ∀ x, stepwise (model_delete x).
Hypothesis sync_stepwise : ∀ x, stepwise (sync_relations x).

Lemma stepwise_sync_aggregate aggregate x : stepwise (sync_aggregate sync_relations aggregate x).
Proof. apply stepwise_bind; [apply sync_stepwise|intros; apply stepwise_put]. Qed.

Lemma stepwise_save_in_scope x : stepwise (save_in_scope model_save sync_relations x).
Proof.
  apply stepwise_bind; [apply save_stepwise|intros persisted].
  apply stepwise_bind; [apply stepwise_sync_aggregate|intros aggregate m].
  destruct (get_managed_by_key _ m) as [id|]; [|done].
  pose proof (stepwise_rebase id aggregate m). by destruct (rebase id aggregate m) as [m' r].
Qed.

Lemma stepwise_flush_removal id : stepwise (flush_removal model_delete id).
Proof.
  apply stepwise_look. intros m. unfold flush_removal. destruct (heap m !! id) as [e|].
  2: { exists (op_ret tt). split; [apply stepwise_ret|done]. }
  eexists. split; [|reflexivity]. apply stepwise_bind; [|intros; apply stepwise_flush_removed].
  destruct (persisted_key e) as [key|]; [|apply stepwise_ret].
  destruct (bool_decide _); [apply stepwise_fail|].
  apply stepwise_bind; [apply delete_stepwise|intros _; apply stepwise_do; constructor].
Qed.

Lemma stepwise_flush_write id : stepwise (flush_write model_save sync_relations id).
Proof.
  apply stepwise_look. intros m. unfold flush_write. destruct (heap m !! id) as [e|].
  2: { exists (op_ret tt). split; [apply stepwise_ret|done]. }
  cbv zeta. destruct (match persisted_key e with Some _ => _ | None => _ end) as [key|].
  { eexists (op_fail _). split; [apply stepwise_fail|reflexivity]. }
  eexists. split; [|reflexivity]. apply stepwise_bind; [|intros; apply stepwise_flush_written].
  destruct (match snapshot e with Some _ => _ | None => _ end);
    [apply stepwise_save_in_scope|apply stepwise_sync_aggregate].
Qed.

Lemma stepwise_flush_entry id : stepwise (flush_entry model_save model_delete sync_relations id).
Proof.
  apply stepwise_look. intros m. unfold flush_entry.
  destruct (state <$> heap m !! id) as [[]|].
  all: (eexists; split; [|reflexivity]; apply stepwise_flush_write || apply stepwise_flush_removal)
       || (exists (op_ret tt); split; [apply stepwise_ret|done]).
Qed.

Lemma stepwise_flush_each unordered ids :
  stepwise (flush_each model_save model_delete sync_relations unordered ids).
Proof.
  induction ids as [|id ids IH]; [apply stepwise_ret|]. intros m. cbn [flush_each].
  pose proof (stepwise_flush_entry id m) as Hs. destruct (flush_entry _ _ _ id m) as [m1 [[]|e]]; [|done].
  etrans; [exact Hs|apply IH].
Qed.

Lemma stepwise_flush_passes passes processed :
  stepwise (flush_passes model_save model_delete sync_relations passes processed).
Proof.
  revert processed. induction passes as [|passes IH]; intros processed;
    apply stepwise_look; intros m; cbn [flush_passes].
  all: destruct (_ <=? _); [by exists (op_ret tt); split; [apply stepwise_ret|]|].
  { eexists (op_fail _). split; [apply stepwise_fail|reflexivity]. }
  destruct (flush_pass_order _) as [[order ids]|].
  2: { eexists (op_fail _). split; [apply stepwise_fail|reflexivity]. }
  eexists. split; [|reflexivity]. apply stepwise_bind; [apply stepwise_flush_each|intros _; apply IH].
Qed.

Lemma stepwise_flush_in_scope : stepwise (flush_in_scope model_save model_delete sync_relations).
Proof.
  apply stepwise_bind; [apply stepwise_flush_passes|intros _].
  apply stepwise_do. intros m. apply step_unrelated, unrelated_same. by split.
Qed.
End Store.

(** A unit of work on its own that fails. *)
Lemma failed_unit {A} nested commit (work : Op A) m m' e key :
  stepwise work → scope m = None →
  in_unit_of_work nested commit work m = (m', Err e) → ¬ R key →
  undo m' = undo m ∧
  identity_map m' !! key
  = if bool_decide (identity_generation m' = identity_generation m) then identity_map m !! key else None.
Proof.
  intros Hwork Hs Hrun Hk. unfold in_unit_of_work in Hrun. cbn zeta in Hrun.
  destruct (allocate m) as [log m1] eqn:Ea.
  assert (same_identities m m1) as [Em Eg El Es Eu] by (injection Ea as _ <-; by split).
  set (m2 := set_undo _ _) in Hrun. specialize (Hwork m2).
  assert (running m log m2) as Hrun2.
  { assert (log_of log m2 = ∅) as Elog.
    { unfold log_of, m2. cbn. by rewrite lookup_insert_eq. }
    split; rewrite ?Elog; cbn; rewrite ?Eg; [done|lia|by intros|..].
    - intros key' _ _. unfold base. cbn. by rewrite Eg, bool_decide_true, Em.
    - by intros.
    - exists []. by split; [|constructor]. }
  destruct (work m2) as [m3 r]. cbn [fst] in Hwork.
  assert (running m log m3) as Hrun3.
  { clear Hrun. clearbody m2. induction Hwork as [|x y z Hxy _ IH]; [done|]. apply IH. by eapply running_step. }
  assert (m' = roll_back (undo m) (set_scope (scope m) m3)) as ->.
  { destruct r; [destruct commit|]; congruence. }
  split; [apply roll_back_frame|]. by apply (running_rolled_back m log).
Qed.


End Identities.

(** ** What a flush writes *)

Section Flushing.
Context `{Entities} (model_save : Entity → Op Entity) (model_delete : Entity → Op unit)
  (sync_relations : Entity → Op Entity).
Implicit Types (m : Manager) (id : N) (ids : list N).

Local Abbreviation write_entry := (flush_entry model_save model_delete sync_relations).

(** The entries written one after the other, each with success; [P] relates the states
    around a write. *)
Inductive writes (P : Manager → Manager → Prop) : list N → Manager → Manager → Prop :=
  | writes_nil m : writes P [] m m
  | writes_cons id ids m m1 m2 :
      write_entry id m = (m1, Ok tt) → P m m1 → writes P ids m1 m2 → writes P (id :: ids) m m2.

(** No handle leaves the list of entries. *)
Definition keeps_entries m m' : Prop := ∃ added, managed_entries m' = managed_entries m ++ added.

Definition keeps_list m m' : Prop := managed_entries m' = managed_entries m.

(** The entries a completed flush drops. *)
Definition retained m : Manager :=
  upd_managed_entries (filter (λ id, default Detached (state <$> heap m !! id) ≠ Detached)) m.

Lemma writes_app P ids ids' m m1 m2 :
  writes P ids m m1 → writes P ids' m1 m2 → writes P (ids ++ ids') m m2.
Proof. induction 1 as [|id ids m m1' m2' Hw HP _ IH]; [done|]. intros Hr. econstructor; [done..|auto]. Qed.

Lemma writes_app_inv P ids ids' m m2 :
  writes P (ids ++ ids') m m2 → ∃ m1, writes P ids m m1 ∧ writes P ids' m1 m2.
Proof.
  revert m. induction ids as [|id ids IH]; intros m; cbn [app]; [intros Hw; exists m; split; [constructor|done]|].
  inversion 1 as [|? ? ? m1 ? Hw HP Hr]; subst. destruct (IH _ Hr) as (m3 & H1 & H2).
  exists m3. split; [by econstructor|done].
Qed.

Lemma writes_end P ids m m1 m2 : writes (λ _ _, True) ids m m1 → writes P ids m m2 → m2 = m1.
Proof.
  intros Hw. revert m2. induction Hw as [m|id ids m m1 m3 Hw _ _ IH]; intros m2; inversion 1; subst; [done|].
  apply IH. congruence.
Qed.

Lemma writes_keep ids m m' : writes keeps_entries ids m m' → keeps_entries m m'.
Proof.
  induction 1 as [|id ids m m1 m2 _ [l El] _ [l' El']]; [exists []; by rewrite app_nil_r|].
  exists (l ++ l'). by rewrite El', El, <- app_assoc.
Qed.

Lemma flush_each_Ok unordered ids m m' :
  flush_each model_save model_delete sync_relations unordered ids m = (m', Ok tt) ↔
  writes (λ _ _, True) ids m m'.
Proof.
  split.
  - revert m. induction ids as [|id ids IH]; intros m; cbn [flush_each].
    + intros [= <-]. constructor.
    + destruct (write_entry id m) as [m1 [[]|e]] eqn:Ew; [|done]. intros Hr. econstructor; [done..|auto].
  - induction 1 as [|id ids m m1 m2 Hw _ _ IH]; [done|]. cbn [flush_each]. by rewrite Hw.
Qed.

Lemma flush_each_Err plan before id after m m1 m2 e :
  writes (λ _ _, True) before m m1 → write_entry id m1 = (m2, Err e) →
  flush_each model_save model_delete sync_relations plan (before ++ id :: after) m
  = (m2, Err (explain_flush_ordering_failure e (@FlushOrder.table_name N (entry_ops m1) id) plan)).
Proof.
  intros Hw He. induction Hw as [m|id' ids m m1 m3 Hw' _ _ IH]; cbn [app flush_each]; [by rewrite He|].
  rewrite Hw'. by apply IH.
Qed.

Lemma flush_passes_Ok passes processed m m' :
  flush_passes model_save model_delete sync_relations passes processed m = (m', Ok tt) →
  ∃ order, writes (λ _ _, True) order m m'
    ∧ (writes keeps_entries order m m' → order ≡ₚ drop processed (managed_entries m')).
Proof.
  revert processed m. induction passes as [|passes IH]; intros processed m; cbn [flush_passes];
    (destruct (Nat.leb_spec (length (managed_entries m)) processed) as [Hle|Hlt];
     [intros [= <-]; exists []; split; [constructor|]; intros _; by rewrite drop_ge|]); [done|].
  destruct (@flush_pass_permutes N (entry_ops m) (drop processed (managed_entries m))) as (o & ids & -> & Hp).
  unfold op_bind. destruct (flush_each _ _ _ _ ids m) as [m1 [[]|e]] eqn:Ef; [|done].
  intros (order & Hw & Hperm)%IH. apply flush_each_Ok in Ef.
  exists (ids ++ order). split; [by eapply writes_app|].
  intros (m1' & Hk1 & Hk2)%writes_app_inv. pose proof (writes_end _ _ _ _ _ Ef Hk1) as ->.
  specialize (Hperm Hk2). apply writes_keep in Hk1 as [l1 E1], Hk2 as [l2 E2].
  rewrite Hperm, Hp, E2, E1, <- app_assoc, drop_app_length, drop_app_le by lia. done.
Qed.

Lemma writes_one_pass ids m m' :
  writes keeps_list ids m m' → managed_entries m' = managed_entries m ∧ writes (λ _ _, True) ids m m'.
Proof.
  induction 1 as [|id ids m m1 m2 Hw HP _ [He IH]]; [split; [done|constructor]|].
  split; [by rewrite He|by econstructor].
Qed.

(** C15: a flush that succeeds has written the managed entries, and only by writes that
    all succeeded; as long as nothing leaves the list meanwhile, that is each of
    them exactly once, those registered by the flush's own writes included, and it
    keeps those not detached. A flush does succeed where each write in the order of
    its pass does and registers nothing; and where one fails, the flush fails with
    that error, explained, having written nothing after it. *)
Theorem flush_writes_every_entry_once m :
  (∀ m', flush_in_scope model_save model_delete sync_relations m = (m', Ok tt) →
     ∃ order m1, writes (λ _ _, True) order m m1 ∧ m' = retained m1
       ∧ (writes keeps_entries order m m1 → order ≡ₚ managed_entries m1))
  ∧ ∃ plan order,
      @flush_pass_order N (entry_ops m) (managed_entries m) = Some (plan, order) ∧
      (∀ m1, writes keeps_list order m m1 →
         flush_in_scope model_save model_delete sync_relations m = (retained m1, Ok tt))
      ∧ ∀ before id after m1 m2 e,
          order = before ++ id :: after → writes (λ _ _, True) before m m1 →
          write_entry id m1 = (m2, Err e) →
          flush_in_scope model_save model_delete sync_relations m
          = (m2, Err (explain_flush_ordering_failure e (@FlushOrder.table_name N (entry_ops m1) id)
                        (unordered plan))).
Proof.
  split.
  - intros m'. unfold flush_in_scope, op_bind.
    destruct (flush_passes _ _ _ _ _ m) as [m1 [[]|e]] eqn:Ef; [|done].
    intros [= <-]. apply flush_passes_Ok in Ef as (order & Hw & Hp). by exists order, m1.
  - destruct (@flush_pass_permutes N (entry_ops m) (managed_entries m)) as (plan & order & Ho & Hp).
    exists plan, order. split; [done|].
    unfold flush_in_scope, MAX_FLUSH_PASSES. generalize 15 as passes. intros passes.
    unfold op_bind. cbn [flush_passes]. rewrite drop_0, Ho. unfold op_bind.
    destruct (managed_entries m) as [|id0 ids0] eqn:Em; cbn [length Nat.leb].
    { apply Permutation_nil_r in Hp as ->. split.
      - inversion 1. done.
      - intros [|? ?]; done. }
    split.
    + intros m1 [He Hw]%writes_one_pass. apply (flush_each_Ok (unordered plan)) in Hw. rewrite Hw.
      destruct passes; cbn [flush_passes]; rewrite He, Em; cbn [length]; by rewrite Nat.leb_refl.
    + intros before id after m1 m2 e -> Hw He. by erewrite flush_each_Err.
Qed.
End Flushing.

(** ** Filed handles *)

Section Filing.
Context `{EntityLaws}.
Implicit Types (m : Manager) (e : ManagedEntry) (x : Entity) (id : N) (key : IdentityKey).

(** What may happen to the managed entries. A flush files an entry under its new key
    while the entry is filed as the flush read it, or no longer is. *)
Inductive managed_step : relation Manager :=
  | step_persist x m : managed_step m (persist x m).2
  | step_merge x m : managed_step m (merge x m).2
  | step_attach reading x m : managed_step m (attach_persisted_managed reading x m).2
  | step_edit id f m : managed_step m (edit id f m)
  | step_mark_removed id m : managed_step m (mark_removed id m)
  | step_detach id m : managed_step m (detach id m)
  | step_clear_all m : managed_step m (clear m)
  | step_rebase id saved m : managed_step m (rebase id saved m).1
  | step_flush_removed id m : managed_step m (flush_removed id m).1
  | step_flush_written id e read saved m :
      heap m !! id = Some e → managed_step m (flush_written id read saved (identity_key e) m).1
  | step_undo m u : managed_step m (run_undo m u)
  | step_elsewhere m m' :
      managed_map m' = managed_map m → heap m' = heap m → (next_address m ≤ next_address m')%N →
      managed_step m m'.

Record consistent m : Prop := {
  consistent_filed key id : managed_map m !! key = Some id →
    ∃ e, heap m !! id = Some e ∧ entry_type e = key.1 ∧ identity_key e = Some key.2;
  consistent_fresh id : is_Some (heap m !! id) → (id < next_address m)%N;
}.

(** One entry changes, and its filing with it. *)
Lemma consistent_change id e e' m m' :
  heap m !! id = Some e → heap m' = <[id := e']> (heap m) → entry_type e' = entry_type e →
  (next_address m ≤ next_address m')%N →
  (∀ key id', managed_map m' !! key = Some id' →
     (managed_map m !! key = Some id' ∧ (id' = id → identity_key e = Some key.2 → identity_key e' = Some key.2))
     ∨ (id' = id ∧ key.1 = entry_type e ∧ identity_key e' = Some key.2)) →
  consistent m → consistent m'.
Proof.
  intros He Hh Ht Hn Hmap [Hf Hr]. split.
  - intros key id' [[Hk Hkeep]|(-> & Hty & Hik)]%Hmap.
    + destruct (Hf _ _ Hk) as (e0 & He0 & Ht0 & Hi0). rewrite Hh. destruct (decide (id' = id)) as [->|Hne].
      * rewrite lookup_insert_eq. simplify_eq. exists e'. split_and!; [done|congruence|auto].
      * rewrite lookup_insert_ne by done. by exists e0.
    + rewrite Hh, lookup_insert_eq. exists e'. split_and!; [done|congruence|done].
  - intros id'. rewrite Hh. destruct (decide (id' = id)) as [->|Hne].
    + intros _. specialize (Hr id). rewrite He in Hr. specialize (Hr (ex_intro _ _ eq_refl)). lia.
    + rewrite lookup_insert_ne by done. intros Hr'%Hr. lia.
Qed.

Lemma consistent_same m m' :
  managed_map m' = managed_map m → heap m' = heap m → (next_address m ≤ next_address m')%N →
  consistent m → consistent m'.
Proof.
  intros Em Eh Hn [Hf Hr]. split; [intros key id; rewrite Em, Eh; apply Hf|].
  intros id. rewrite Eh. intros Hi%Hr. lia.
Qed.

Lemma consistent_upd id f m :
  (∀ e, entry_type (f e) = entry_type e ∧ identity_key (f e) = identity_key e) →
  consistent m → consistent (upd_entry id f m).
Proof.
  intros Hf. destruct (heap m !! id) as [e|] eqn:He.
  - destruct (Hf e) as [Ht Hi]. apply (consistent_change id e (f e)); [done| |done|cbn; lia|].
    + cbn. by rewrite (alter_alt_Some _ _ _ _ He).
    + intros key id' Hk. left. split; [done|]. by rewrite Hi.
  - apply consistent_same; [done| |cbn; lia]. cbn. apply map_eq. intros id'.
    destruct (decide (id' = id)) as [->|Hne]; [by rewrite lookup_alter_eq, He|by rewrite lookup_alter_ne].
Qed.

Lemma consistent_evict id m : consistent m → consistent (evict id m).
Proof.
  intros Hc. unfold evict. destruct (heap m !! id) as [e|] eqn:He; [|done].
  eapply (consistent_change id e); [done|..|exact Hc].
  - destruct (identity_key e); cbn; by rewrite (alter_alt_Some _ _ _ _ He).
  - done.
  - destruct (identity_key e); cbn; lia.
  - intros key id' Hk. left. destruct (identity_key e) as [k|] eqn:Ek; cbn in Hk |- *; [|done].
    apply lookup_delete_Some in Hk as [Hne Hk]. split; [done|]. intros -> [= ->].
    destruct Hc as [Hf _]. destruct (Hf _ _ Hk) as (e0 & He0 & Ht0 & _). simplify_eq.
    destruct Hne, key. cbn in *. congruence.
Qed.

Lemma consistent_detach id m : consistent m → consistent (detach id m).
Proof. intros Hc. eapply consistent_same; [..|apply (consistent_evict id m Hc)]; done. Qed.

Lemma consistent_clear m : consistent m → consistent (clear m).
Proof.
  intros Hc. unfold clear. set (m1 := foldl _ m (managed_entries m)).
  assert (consistent m1) as [_ Hr].
  { subst m1. revert Hc. generalize (managed_entries m) as ids. intros ids. revert m.
    induction ids as [|id ids IH]; intros m Hc; [done|]. cbn. by apply IH, consistent_evict. }
  by split.
Qed.

(** A new handle, filed under a key or under none. *)
Lemma consistent_file x snap st persisted filed m :
  consistent m → consistent (file_managed x snap st persisted filed m).2.
Proof.
  intros [Hf Hr]. unfold file_managed, allocate. cbn zeta.
  assert (heap m !! next_address m = None) as Hfresh.
  { destruct (heap m !! next_address m) as [e|] eqn:E; [|done].
    specialize (Hr (next_address m) (ex_intro _ _ E)). lia. }
  set (entry := {| entry_type := _ |}).
  destruct filed as [k|]; split; cbn.
  - intros key id [[<- <-]|[Hne Hk]]%lookup_insert_Some.
    + rewrite alter_insert_eq, lookup_insert_eq. by eexists.
    + destruct (Hf _ _ Hk) as (e & He & Ht & Hi). exists e. split; [|done].
      assert (id ≠ next_address m) by (intros ->; congruence).
      by rewrite alter_insert_eq, lookup_insert_ne.
  - intros id. rewrite alter_insert_eq. intros [e [[-> _]|[Hne He]]%lookup_insert_Some]; [lia|].
    specialize (Hr id (ex_intro _ _ He)). lia.
  - intros key id Hk. destruct (Hf _ _ Hk) as (e & He & Ht & Hi). exists e. split; [|done].
    assert (id ≠ next_address m) by (intros ->; congruence). by rewrite lookup_insert_ne.
  - intros id [e [[-> _]|[Hne He]]%lookup_insert_Some]; [lia|].
    specialize (Hr id (ex_intro _ _ He)). lia.
Qed.

Lemma consistent_written id e read saved m :
  heap m !! id = Some e → consistent m → consistent (flush_written id read saved (identity_key e) m).1.
Proof.
  intros He Hc. destruct (flush_written id read saved (identity_key e) m) as [m1 [[]|e']] eqn:Ew.
  2: { unfold flush_written in Ew. rewrite He in Ew. destruct (negb _); [by simplify_eq|].
       by destruct (merge_fields _ _ _ _) as [merged [changed|]]; simplify_eq. }
  pose proof (flush_written_next _ _ _ _ _ _ _ Ew) as Hn.
  apply (flush_written_Ok _ _ _ _ _ _ _ He) in Ew as (stored & changed & _ & Hh & Hmap & _).
  eapply (consistent_change id e); [exact He|exact Hh|done|cbn; lia| |exact Hc]. cbn [identity_key fst].
  intros key id'. rewrite Hmap. destruct (bool_decide (state e = Detached)); cbn [negb]; [by left|].
  intros [[<- <-]|[Hne Hk]]%lookup_insert_Some; [by right|]. left.
  assert (managed_map m !! key = Some id' ∧ (identity_key e = Some key.2 → id' = id → Some (pk_key saved) = Some key.2))
    as [? ?]; [|by split; [|intros; eauto]].
  destruct Hc as [Hf _]. destruct (identity_key e) as [k|]; [|done].
  case_bool_decide as Hpk; [by rewrite <- Hpk|].
  apply lookup_delete_Some in Hk as [Hne' Hk]. split; [done|]. intros [= ->] ->.
  destruct (Hf _ _ Hk) as (e0 & He0 & Ht0 & _). destruct Hne', key. cbn in *. congruence.
Qed.

Lemma consistent_undo_flush id u m : consistent m → consistent (undo_flush id u m).
Proof.
  intros Hc. unfold undo_flush. set (m1 := upd_entry id (undo_entry u) m).
  assert (consistent m1) as Hc1.
  { apply consistent_upd; [|done]. intros e. unfold undo_entry.
    destruct (undo_fields u); cbn zeta; repeat (case_match; try done). }
  clearbody m1. clear Hc m. assert (consistent (undo_identity id u m1)) as Hc2.
  { unfold undo_identity. destruct (heap m1 !! id) as [e|] eqn:He; [|done].
    destruct (undo_identity_key u) as [before after].
    destruct (bool_decide (identity_key e = after)) eqn:Ea; [|done]. cbn [andb].
    apply bool_decide_eq_true in Ea as <-. destruct (bool_decide _) eqn:Eb; [done|]. cbn [negb].
    eapply (consistent_change id e (set_identity_key before e)); [done|..|exact Hc1].
    - destruct (identity_key e), before; cbn; by rewrite (alter_alt_Some _ _ _ _ He).
    - done.
    - destruct (identity_key e), before; cbn; lia.
    - destruct Hc1 as [Hf _].
      assert (∀ key id', match identity_key e with
                         | Some k => delete (entry_type e, k) (managed_map m1)
                         | None => managed_map m1
                         end !! key = Some id' →
              managed_map m1 !! key = Some id' ∧ (id' = id → identity_key e ≠ Some key.2)) as Hdel.
      { intros key id' Hk. destruct (identity_key e) as [k|] eqn:Ek; [|by split].
        apply lookup_delete_Some in Hk as [Hne Hk]. split; [done|]. intros -> [= ->].
        destruct (Hf _ _ Hk) as (e0 & He0 & Ht0 & _). destruct Hne, key. cbn in *. congruence. }
      intros key id' Hk. destruct before as [k|].
      + assert (((entry_type e, k) = key ∧ id = id') ∨
          match identity_key e with
          | Some k => delete (entry_type e, k) (managed_map m1)
          | None => managed_map m1
          end !! key = Some id') as [[<- <-]|Hk'].
        { destruct (identity_key e); cbn in Hk; apply lookup_insert_Some in Hk; naive_solver. }
        * by right.
        * left. apply Hdel in Hk' as [? Hno]. split; [done|]. intros Hid Hik. by destruct (Hno Hid).
      + left. assert (managed_map m1 !! key = Some id' ∧ (id' = id → identity_key e ≠ Some key.2)) as [? Hno].
        { apply Hdel. by destruct (identity_key e). }
        split; [done|]. intros Hid Hik. by destruct (Hno Hid). }
  generalize dependent (undo_identity id u m1). intros m2 Hc2. unfold undo_state_of.
  destruct (heap m2 !! id) as [e|]; [|done]. destruct (undo_state u) as [before after].
  set (m3 := if bool_decide (state e = after) then _ else m2).
  assert (consistent m3) as Hc3.
  { subst m3. case_bool_decide; [|done]. by apply consistent_upd. }
  clearbody m3. destruct (_ && _); [|done]. by eapply consistent_same; [..|exact Hc3].
Qed.

Lemma restore_identities_frame l m :
  let m' := foldr (λ '((key, generation), original), restore_identity key generation original) m l in
  managed_map m' = managed_map m ∧ heap m' = heap m ∧ next_address m' = next_address m.
Proof.
  induction l as [|[[key g] o] l (E1 & E2 & E3)]; [done|]. cbn in *. unfold restore_identity at 1 3 5.
  by case_bool_decide.
Qed.

Lemma consistent_run_undo m u : consistent m → consistent (run_undo m u).
Proof.
  intros Hc. destruct u as [log|id u|id changes loaded|key address|key id]; cbn [run_undo].
  - destruct (restore_identities_frame (map_to_list (default ∅ (rollback_logs m !! log)))
      (upd_rollback_logs <[log := ∅]> m)) as (E1 & E2 & E3).
    apply (consistent_same m); [done..| |done]. unfold rollback_identity_map. rewrite E3. cbn. lia.
  - by apply consistent_undo_flush.
  - by apply consistent_upd.
  - apply (consistent_same m); [..|done]; unfold unregister; repeat (case_match; try done). all: cbn; lia.
  - unfold unattach. case_bool_decide; [by apply consistent_detach|done].
Qed.

Lemma managed_step_consistent m m' : managed_step m m' → consistent m → consistent m'.
Proof.
  assert (∀ id x m, consistent m → consistent (overwrite_merged id x m)) as Hover.
  { intros. by apply consistent_upd. }
  assert (∀ x m, consistent m → consistent (persist x m).2) as Hpersist.
  { intros x m0 Hc. unfold persist. cbn zeta. destruct (_ ≫= _); [by apply Hover|by apply consistent_file]. }
  intros Hs Hc. destruct Hs as [x m|x m|reading x m|id f m|id m|id m|m|id saved m|id m|id e read saved m He|m u|].
  - by apply Hpersist.
  - unfold merge. cbn zeta. destruct (entity_key _) as [[key|]|]; [|..|done].
    + destruct (get_managed_by_key _ m); [by apply Hover|].
      pose proof (consistent_file (attach_database x) (get_by_key (type_of (attach_database x), key) m) Managed
        (Some key) (Some key) m Hc) as Hf. by destruct (file_managed _ _ _ _ _ m).
    + pose proof (Hpersist (attach_database x) m Hc) as Hp. by destruct (persist _ m).
  - unfold attach_persisted_managed. cbn zeta. destruct (get_managed_by_key _ m); [done|].
    pose proof (consistent_file (attach_database x) (Some (attach_database x)) Managed
      (Some (pk_key (attach_database x))) (Some (pk_key (attach_database x))) m Hc) as Hf.
    destruct (file_managed _ _ _ _ _ m) as [id m1]. destruct reading; [|done].
    by eapply consistent_same; [..|exact Hf].
  - by apply consistent_upd.
  - by apply consistent_upd.
  - by apply consistent_detach.
  - by apply consistent_clear.
  - unfold rebase. destruct (heap m !! id) as [e|] eqn:He; [|done]. destruct (snapshot e); [|done].
    destruct (merge_fields _ _ _ _) as [merged [changed|]]; cbn [fst]; [|by apply consistent_upd].
    eapply consistent_same; [..|apply (consistent_upd id (set_snapshot (Some saved)));
      [done|apply (consistent_upd id (set_current merged)); [done|exact Hc]]]; done.
  - unfold flush_removed. destruct (heap m !! id) as [e|] eqn:He; [|done]. cbn [fst].
    eapply consistent_same; [..|apply (consistent_evict id); apply consistent_upd; [|exact Hc]]; done.
  - by apply consistent_written.
  - by apply consistent_run_undo.
  - by apply (consistent_same m).
Qed.

Lemma steps_consistent m m' : rtc managed_step m m' → consistent m → consistent m'.
Proof. induction 1 as [|x y z Hxy _ IH]; [done|]. intros Hc. by eapply IH, managed_step_consistent. Qed.

(** C17: whatever a context goes through (handles made, edited, detached and removed, rows
    merged and attached, flushes and their undoing in any order, clears), a handle
    found under a type and a key is one of that type that records that key, so the
    typed handle a lookup gives is never another type's; and a handle that records
    no key, as a detached one, is found under none. *)
Theorem filed_handles_match_their_keys m :
  rtc managed_step EntityManager_new m →
  (∀ key id, get_managed_by_key key m = Some id →
     ∃ e, heap m !! id = Some e ∧ entry_type e = key.1 ∧ identity_key e = Some key.2)
  ∧ ∀ id e, heap m !! id = Some e → identity_key e = None → ∀ key, get_managed_by_key key m ≠ Some id.
Proof.
  intros Hs. apply steps_consistent in Hs as [Hf _].
  2: { split; [by intros|]. by intros id [? ?]. }
  split; [done|]. intros id e He Hnone key Hk. destruct (Hf _ _ Hk) as (e' & He' & _ & Hi). congruence.
Qed.
End Filing.

(** ** A demonstration model *)

(** A model of a key and a name, without relations; an empty key is a row not stored. *)
Record Row := { row_key : str; row_name : str }.

Definition row_value (x : Row) (field : str) : result str str :=
  if bool_decide (field = lit "id") then Ok (row_key x)
  else if bool_decide (field = lit "name") then Ok (row_name x) else Err (lit "no such field").

Definition row_copy (x s : Row) (field : str) : result Row str :=
  if bool_decide (field = lit "id") then Ok {| row_key := row_key s; row_name := row_name x |}
  else if bool_decide (field = lit "name") then Ok {| row_key := row_key x; row_name := row_name s |}
  else Err (lit "no such field").

Definition same_row (x y : Row) : bool :=
  bool_decide (row_key x = row_key y) && bool_decide (row_name x = row_name y).

#[export] Instance rows : Entities := {|
  Entity := Row;
  Failure := str;
  FieldValue := str;
  query_error := λ e, e;
  type_of := λ _, 0%N;
  model_table := λ _, lit "rows";
  pk_key := row_key;
  pk_is_new := λ x, bool_decide (row_key x = []);
  entity_key := λ x, Ok (if bool_decide (row_key x = []) then None else Some (row_key x));
  field_names := λ _, [lit "id"; lit "name"];
  compare_value := row_value;
  copy_field_from := row_copy;
  same_columns := same_row;
  relations_match := λ _ _, true;
  relations_from := λ x _, x;
  refresh_relations_from := λ x _, x;
  merge_persisted := λ _ persisted, persisted;
  attach_database := λ x, x;
  unload_relations := λ x, x;
  parent_tables_of := λ _, [];
  child_tables_of := λ _, [];
  row_references := λ _, [];
  is_key_column := λ _ column, bool_decide (column = lit "id");
  key_text := λ x column, if bool_decide (column = lit "id") then Some (row_key x) else None;
  is_foreign_key_violation := λ _, false;
  failure_text := λ e, e;
  with_db_failure_of := λ e _, e;
|}.

#[export] Instance rows_laws : EntityLaws.
Proof.
  split; try done.
  - intros t. apply (bool_decide_unpack _). by vm_compute.
  - intros x s f _ Hf. cbn in *. unfold row_copy.
    repeat (case_bool_decide; [by eexists|]). set_solver.
  - intros x s f g t. cbn. unfold row_copy, row_value. repeat case_bool_decide; intros [= <-]; subst; done.
Qed.

(** Statements that succeed: a row gets the key of its name when it has none. *)
Definition store_row (x : Entity) : Op Entity :=
  op_ret (A := Entity) {| row_key := if bool_decide (row_key x = []) then row_name x else row_key x;
            row_name := row_name x |}.
Definition erase_row (_ : Entity) : Op unit := op_ret tt.
Definition no_relations (x : Entity) : Op Entity := op_ret x.
Definition refused (_ : Entity) : Op Entity := op_fail (lit "refused").

Definition row (key name : string) : Entity := {| row_key := lit key; row_name := lit name |}.

(** One entry per handle: the state, the value's name, the key it is filed under. *)
Definition handles (m : Manager) : list (EntityState * str * option str) :=
  omap (λ id, (λ e, (state e, row_name (current e), identity_key e)) <$> heap m !! id) (managed_entries m).

Definition committed : result unit str := Ok tt.
Definition lost : result unit str := Err (lit "connection lost").

Definition two_rows : Manager := (persist (row "a" "first") (persist (row "" "b") EntityManager_new).2).2.

(** A flush stores both; a second one, whose commit fails, restores what it found. *)
Example flush_stores_and_restores :
  let '(m, r) := flush store_row erase_row no_relations false committed two_rows in
  let edited := edit 1 (λ x, {| row_key := row_key x; row_name := lit "renamed" |}) (mark_removed 0 m) in
  let '(m', r') := flush store_row erase_row no_relations false lost edited in
  handles two_rows = [(New, lit "b", None); (New, lit "first", Some (lit "a"))] ∧
  r = Ok tt ∧ handles m = [(Managed, lit "b", Some (lit "b")); (Managed, lit "first", Some (lit "a"))] ∧
  r' = lost ∧
  handles m' = [(Managed, lit "renamed", Some (lit "a")); (Removed, lit "b", Some (lit "b"))] ∧
  get_by_key (0%N, lit "a") m' = Some (row "a" "first").
Proof. vm_compute. by split_and!. Qed.

(** [b]'s save registers a handle and detaches the other. *)
Definition store_meddling (x : Entity) : Op Entity :=
  let register_late (m : Manager) := (persist (row "" "late") (detach 1 m)).2 in
  op_bind (op_do (λ m, if bool_decide (row_name x = lit "b") then register_late m else m)) (λ _, store_row x).

(** The list of entries shrinks under the flush, which goes on from a position in it: a
    handle registered meanwhile is passed over, and the flush succeeds. *)
Example detached_handle_hides_a_new_one :
  let '(m, r) := flush store_meddling erase_row no_relations false committed two_rows in
  r = Ok tt ∧ handles m = [(Managed, lit "b", Some (lit "b")); (New, lit "late", None)].
Proof. vm_compute. by split_and!. Qed.

(** A removal that a transaction around the flush rolls back is filed again over the handle
    that took its key meanwhile: two handles of one row, of which a lookup finds the
    old one. *)
Example restored_removal_displaces_a_new_handle :
  let m := (flush store_row erase_row no_relations false committed two_rows).1 in
  let m := (flush store_row erase_row no_relations true committed (mark_removed 1 m)).1 in
  let '(id, m) := persist (row "a" "second") m in
  let m' := roll_back [] m in
  get_managed_by_key (0%N, lit "a") m = Some id ∧ get_managed_by_key (0%N, lit "a") m' = Some 1%N ∧
  id ≠ 1%N ∧
  handles m' = [(Managed, lit "b", Some (lit "b")); (New, lit "second", Some (lit "a"));
                (Removed, lit "first", Some (lit "a"))].
Proof. vm_compute. by split_and!. Qed.

(** A row read in a unit of work, and saved in it, stays in the identity map when the unit
    rolls back; only read, it goes. *)
Example saved_read_outlives_its_rollback :
  let read := op_do (λ m, (register true (row "a" "uncommitted") m).2) in
  let saved := op_do (λ m, (put (row "a" "saved") m).2) in
  let after work := (in_unit_of_work false committed (op_bind work (λ _, refused (row "" ""))) EntityManager_new).1 in
  get_by_key (0%N, lit "a") (after read) = None ∧
  get_by_key (0%N, lit "a") (after (op_bind read (λ _, saved))) = Some (row "a" "uncommitted").
Proof. vm_compute. by split_and!. Qed.

(** ** Witnesses *)

Lemma stored_row_merges_three_way_witness :
  compare_value (row "a" "edited") (lit "name")
  = compare_value (if same_field (row "a" "edited") (row "" "loaded") (lit "name")
                   then row "a" "stored" else row "a" "edited") (lit "name").
Proof.
  destruct (stored_row_merges_three_way (row "" "edited") (row "" "edited") (row "" "loaded") (row "a" "stored")
              (row "a" "edited") [lit "id"]) as (_ & Hfields & _).
  - vm_compute. reflexivity.
  - apply (Hfields (lit "name")). right. left.
Defined.

Definition first_entry : ManagedEntry := {|
  entry_type := 0; current := row "a" "first"; snapshot := None; state := New;
  persisted_key := None; identity_key := Some (lit "a") |}.

Definition first_stored : Manager :=
  (flush_written 1 (row "a" "first") (row "a" "stored") (Some (lit "a")) two_rows).1.

Lemma rolled_back_flush_restores_the_entry_witness :
  ∃ u e1 x, undo first_stored = u :: undo two_rows ∧ heap first_stored !! 1%N = Some e1
    ∧ undone 1 first_entry two_rows x (run_undo (edit 1 (λ x, x) first_stored) u)
    ∧ compare_value x (lit "name") = Ok (lit "first").
Proof.
  destruct (rolled_back_flush_restores_the_entry 1 first_entry two_rows first_stored
              (row "a" "first") (row "a" "stored") (Some (lit "a")) (λ x, x)) as [Hw _].
  - reflexivity.
  - intros key. change (managed_map two_rows) with (<[(0%N, lit "a") := 1%N]> (∅ : gmap IdentityKey N)).
    cbn [entry_type identity_key first_entry]. rewrite lookup_insert_Some, lookup_empty. naive_solver.
  - destruct Hw as (u & e1 & x & Hu & He & Hundone & Hfields); [reflexivity..|done|done|by right|reflexivity|].
    exists u, e1, x. split_and!; [done..|]. apply Hfields; [right; left|reflexivity].
Defined.

Definition renamed_row : Manager :=
  edit 1 (λ _, row "a" "renamed") (flush store_row erase_row no_relations false committed two_rows).1.

Definition unit_lost : Manager := (flush store_row erase_row no_relations false lost renamed_row).1.


Lemma filed_handles_match_their_keys_witness :
  ∃ e, heap two_rows !! 1%N = Some e ∧ entry_type e = 0%N ∧ identity_key e = Some (lit "a").
Proof.
  destruct (filed_handles_match_their_keys two_rows) as [Hfiled _].
  - eapply rtc_l; [apply (step_persist (row "" "b"))|]. eapply rtc_l; [apply (step_persist (row "a" "first"))|].
    apply rtc_refl.
  - apply (Hfiled (0%N, lit "a")). reflexivity.
Defined.
