(* ===== verification/Utf8.v ===== *)
(** * UTF-8

    [str::as_bytes] and [String::from_utf8] of the standard library: a text is a
    list of scalar values, and its bytes are their UTF-8 encoding. *)

From S2P Require Import Prelude.

Local Open Scope N_scope.

(** [char]: any code point but the surrogates. *)
Definition is_scalar (c : char) : bool :=
  (c <? 0xD800) || ((0xE000 <=? c) && (c <=? 0x10FFFF)).

Definition encode_utf8 (c : char) : list N :=
  if c <? 0x80 then [c]
  else if c <? 0x800 then [0xC0 + c / 64; 0x80 + c mod 64]
  else if c <? 0x10000 then [0xE0 + c / 4096; 0x80 + (c / 64) mod 64; 0x80 + c mod 64]
  else [0xF0 + c / 262144; 0x80 + (c / 4096) mod 64; 0x80 + (c / 64) mod 64; 0x80 + c mod 64].

Definition as_bytes (s : str) : list N := s ≫= encode_utf8.

(** The character whose encoding the bytes could start with, by the leading
    byte's length, and the bytes after it. *)
Definition leading (bytes : list N) : option (char * list N) :=
  match bytes with
  | [] => None
  | a :: r =>
      if a <? 0x80 then Some (a, r)
      else
        match r with
        | [] => None
        | b :: r =>
            if a <? 0xE0 then Some ((a - 0xC0) * 64 + (b - 0x80), r)
            else
              match r with
              | [] => None
              | c :: r =>
                  if a <? 0xF0 then Some (((a - 0xE0) * 64 + (b - 0x80)) * 64 + (c - 0x80), r)
                  else
                    match r with
                    | [] => None
                    | d :: r =>
                        Some ((((a - 0xF0) * 64 + (b - 0x80)) * 64 + (c - 0x80)) * 64
                              + (d - 0x80), r)
                    end
              end
        end
  end.

(** The first character of some bytes. It is read only from its own encoding,
    which excludes overlong forms, stray continuation bytes, surrogates and
    values past the last code point. *)
Definition decode_utf8 (bytes : list N) : option (char * list N) :=
  '(c, rest) ← leading bytes;
  if is_scalar c && str_eqb bytes (encode_utf8 c ++ rest) then Some (c, rest) else None.

Fixpoint from_utf8_fuel (fuel : nat) (bytes : list N) : option str :=
  match fuel, bytes with
  | _, [] => Some []
  | O, _ => None
  | S fuel, _ =>
      '(c, rest) ← decode_utf8 bytes;
      s ← from_utf8_fuel fuel rest;
      Some (c :: s)
  end.

(** [String::from_utf8]. *)
Definition from_utf8 (bytes : list N) : option str := from_utf8_fuel (length bytes) bytes.

Definition scalars (s : str) : Prop := Forall (λ c, is_scalar c = true) s.

#[local] Ltac Zify.zify_post_hook ::= Z.to_euclidean_division_equations.

Lemma leading_encode c rest : c ≤ 0x10FFFF → leading (encode_utf8 c ++ rest) = Some (c, rest).
Proof.
  intros Hmax. unfold encode_utf8.
  destruct (c <? 0x80) eqn:E1; [|destruct (c <? 0x800) eqn:E2; [|destruct (c <? 0x10000) eqn:E3]];
    cbn [app leading].
  - by rewrite E1.
  - rewrite (proj2 (N.ltb_ge _ _)) by lia. rewrite (proj2 (N.ltb_lt _ _)) by lia.
    do 2 f_equal. lia.
  - rewrite (proj2 (N.ltb_ge _ _)) by lia. rewrite (proj2 (N.ltb_ge _ _)) by lia.
    rewrite (proj2 (N.ltb_lt _ _)) by lia. do 2 f_equal. lia.
  - rewrite (proj2 (N.ltb_ge _ _)) by lia. rewrite (proj2 (N.ltb_ge _ _)) by lia.
    rewrite (proj2 (N.ltb_ge _ _)) by lia. do 2 f_equal. lia.
Qed.

Lemma decode_encode c rest :
  is_scalar c = true → decode_utf8 (encode_utf8 c ++ rest) = Some (c, rest).
Proof.
  intros Hc. unfold decode_utf8. rewrite leading_encode by (unfold is_scalar in Hc; lia).
  cbn [mbind option_bind]. by rewrite Hc, (proj2 (str_eqb_true _ _) eq_refl).
Qed.

Lemma encode_utf8_length c : (1 ≤ length (encode_utf8 c))%nat.
Proof. unfold encode_utf8. repeat case_match; cbn; lia. Qed.

Lemma from_utf8_fuel_as_bytes fuel s :
  (length (as_bytes s) ≤ fuel)%nat → scalars s → from_utf8_fuel fuel (as_bytes s) = Some s.
Proof.
  revert fuel. induction s as [|c s IH]; intros fuel Hf Hs; [by destruct fuel|].
  apply Forall_cons_iff in Hs as [Hc Hs].
  change (as_bytes (c :: s)) with (encode_utf8 c ++ as_bytes s) in *.
  rewrite length_app in Hf. pose proof (encode_utf8_length c) as Hl.
  destruct fuel as [|fuel]; [lia|]. pose proof (decode_encode c (as_bytes s) Hc) as Hd.
  destruct (encode_utf8 c ++ as_bytes s) as [|b bs] eqn:E; [done|]. cbn [from_utf8_fuel].
  rewrite Hd. cbn [mbind option_bind]. rewrite IH by (done || lia). done.
Qed.

(** Reading a text's bytes gives the text. *)
Lemma from_utf8_as_bytes s : scalars s → from_utf8 (as_bytes s) = Some s.
Proof. intros. by apply from_utf8_fuel_as_bytes. Qed.

Lemma as_bytes_inj s s' : scalars s → scalars s' → as_bytes s = as_bytes s' → s = s'.
Proof.
  intros Hs Hs' E. pose proof (from_utf8_as_bytes s Hs) as H1. rewrite E in H1.
  rewrite (from_utf8_as_bytes s' Hs') in H1. by injection H1.
Qed.

Lemma encode_utf8_bytes c : is_scalar c = true → Forall (λ b, b < 256) (encode_utf8 c).
Proof.
  unfold is_scalar, encode_utf8. intros Hc.
  destruct (c <? 0x80) eqn:E1; [|destruct (c <? 0x800) eqn:E2; [|destruct (c <? 0x10000) eqn:E3]];
    repeat constructor; lia.
Qed.

Lemma as_bytes_bytes s : scalars s → Forall (λ b, b < 256) (as_bytes s).
Proof.
  induction 1 as [|c s Hc _ IH]; [constructor|]. apply Forall_app. split; [|done].
  by apply encode_utf8_bytes.
Qed.

Lemma as_bytes_app s s' : as_bytes (s ++ s') = as_bytes s ++ as_bytes s'.
Proof. apply bind_app. Qed.
