(* ===== verification/PgBinary.v ===== *)
(** * PostgreSQL's binary values (src/src/database/json_rows/postgres_binary.rs)

    The decoder of the wire forms no typed decoder reads: arrays with NULLs and several
    dimensions, numerics, intervals, times with a zone, addresses and ranges. Dates and
    timestamps are chrono's, JSON documents serde_json's, and so are the texts of UUIDs
    and the JSON of decimals: they are the class [Decoders]. Texts, integers, floats
    and addresses are the standard library's and defined here. *)

From S2P Require Import Prelude Dialect Utf8 Decimals.
Local Open Scope tide_scope.

(** ** Bytes and numbers *)

Definition be (bytes : list N) : Z := foldl (λ acc b, acc * 256 + Z.of_N b)%Z 0%Z bytes.

(** Two's complement at a width. *)
Definition to_signed (width z : Z) : Z := if (z <? 2 ^ (width - 1))%Z then z else (z - 2 ^ width)%Z.

Definition i16_of (bytes : list N) : Z := to_signed 16 (be bytes).
Definition i32_of (bytes : list N) : Z := to_signed 32 (be bytes).
Definition i64_of (bytes : list N) : Z := to_signed 64 (be bytes).

Definition i32_min : Z := - 2 ^ 31.
Definition i32_max : Z := 2 ^ 31 - 1.
Definition i64_min : Z := - 2 ^ 63.
Definition i64_max : Z := 2 ^ 63 - 1.

(** [fixed]: the bytes when they are exactly so many. *)
Definition fixed (n : nat) (bytes : list N) : option (list N) :=
  if (length bytes =? n)%nat then Some bytes else None.

(** The formats [{:0width}] of unsigned and signed integers. *)
Definition pad (width : nat) (digits : str) : str := replicate (width - length digits) 48%N ++ digits.
Definition show_padded (width : nat) (z : Z) : str :=
  if (z <? 0)%Z then 45%N :: pad (width - 1) (show_N (Z.to_N (- z))) else pad width (show_N (Z.to_N z)).

(** [f64::from(f32)] on the bits of both: exact, a subnormal made normal. *)
Definition f64_of_f32 (bits : Z) : Z :=
  let sign := Z.shiftr bits 31 in
  let exponent := Z.land (Z.shiftr bits 23) 255 in
  let fraction := Z.land bits (2 ^ 23 - 1) in
  let '(exponent, fraction) :=
    if (exponent =? 255)%Z then (2047, Z.shiftl fraction 29)%Z
    else if (exponent =? 0)%Z then
      if (fraction =? 0)%Z then (0, 0)%Z
      else let k := Z.log2 fraction in (k - 149 + 1023, Z.shiftl (fraction - 2 ^ k) (52 - k))%Z
    else (exponent - 127 + 1023, Z.shiftl fraction 29)%Z in
  (Z.shiftl sign 63 + Z.shiftl exponent 52 + fraction)%Z.

Class Decoders := {
  Document : Type;
  json_from_slice : list N → option Document;
  decimal_json : Z → nat → option Document;
  uuid_text : list N → str;
  NaiveDate : Type;
  epoch_plus_days : Z → option NaiveDate;
  year : NaiveDate → Z;
  month : NaiveDate → Z;
  day : NaiveDate → Z;
  date_json : NaiveDate → option Document;
  NaiveDateTime : Type;
  epoch_plus_micros : Z → option NaiveDateTime;
  date_of : NaiveDateTime → NaiveDate;
  seconds_from_midnight : NaiveDateTime → Z;
  nanosecond : NaiveDateTime → Z;
  timestamp_json : NaiveDateTime → option Document;
  utc_json : NaiveDateTime → option Document;
  time_of_day_json : Z → Z → option Document;
}.

Section Decoding.
Context `{Decoders}.

(** [serde_json::Value] as the decoder builds it; a float is its 64 bits. *)
Inductive Value :=
  | Null
  | Bool (b : bool)
  | Integer (z : Z)
  | Float (bits : Z)
  | String (s : str)
  | Array (values : list Value)
  | Parsed (d : Document).

(** [Database::f64_to_json]. *)
Definition f64_to_json (bits : Z) : Value :=
  if (Z.land (Z.shiftr bits 52) 2047 =? 2047)%Z then
    if (Z.land bits (2 ^ 52 - 1) =? 0)%Z
    then String (if Z.testbit bits 63 then lit "-inf" else lit "inf")
    else String (lit "NaN")
  else Float bits.

(** [printable_text]. *)
Definition printable_text (text : str) : option Value :=
  if forallb (λ c, negb (is_control c) || is_whitespace c) text then Some (String text) else None.

(** ** Reading on *)

Definition take_i32 (bytes : list N) : option (Z * list N) :=
  match bytes with
  | a :: b :: c :: d :: tail => Some (i32_of [a; b; c; d], tail)
  | _ => None
  end.

Definition take_value (bytes : list N) : option (option (list N) * list N) :=
  '(len, bytes) ← take_i32 bytes;
  if (len =? -1)%Z then Some (None, bytes)
  else if (len <? 0)%Z then None
  else if (Z.of_nat (length bytes) <? len)%Z then None
  else Some (Some (take (Z.to_nat len) bytes), drop (Z.to_nat len) bytes).

(** ** Arrays *)

Fixpoint read_lengths (dimensions : nat) (rest : list N) : option (list N * list N) :=
  match dimensions with
  | O => Some ([], rest)
  | S dimensions =>
      '(len, rest) ← take_i32 rest;
      if (len <? 0)%Z then None
      else
        '(_, rest) ← take_i32 rest;
        '(lengths, rest) ← read_lengths dimensions rest;
        Some (Z.to_N len :: lengths, rest)
  end.

Definition checked_mul (a b : N) : option N := if (a * b <=? u64_max)%N then Some (a * b)%N else None.

Fixpoint count_of (count : N) (lengths : list N) : option N :=
  match lengths with
  | [] => Some count
  | len :: lengths => count ← checked_mul count len; count_of count lengths
  end.

Fixpoint read_elements (element : list N → option Value) (count : nat) (rest : list N)
    : option (list Value * list N) :=
  match count with
  | O => Some ([], rest)
  | S count =>
      '(value, rest) ← take_value rest;
      value ← match value with Some bytes => element bytes | None => Some Null end;
      '(values, rest) ← read_elements element count rest;
      Some (value :: values, rest)
  end.

(** So many readings in a row, the first that fails ending them. *)
Fixpoint repeated (f : list Value → option Value * list Value) (n : nat) (elements : list Value)
    : option (list Value) * list Value :=
  match n with
  | O => (Some [], elements)
  | S n =>
      match f elements with
      | (None, elements) => (None, elements)
      | (Some value, elements) =>
          let '(values, elements) := repeated f n elements in (cons value <$> values, elements)
      end
  end.

Fixpoint nest (lengths : list N) (elements : list Value) : option Value * list Value :=
  match lengths with
  | [] => match elements with [] => (None, []) | value :: elements => (Some value, elements) end
  | len :: inner =>
      let '(values, elements) := repeated (nest inner) (N.to_nat len) elements in
      (Array <$> values, elements)
  end.

Definition array_json (bytes : list N) (element : list N → option Value) : option Value :=
  '(dimensions, rest) ← take_i32 bytes;
  '(_, rest) ← take_i32 rest;
  '(_, rest) ← take_i32 rest;
  '(lengths, rest) ← read_lengths (Z.to_nat dimensions) rest;
  match lengths with
  | [] => match rest with [] => Some (Array []) | _ => None end
  | _ =>
      count ← count_of 1 lengths;
      '(elements, rest) ← read_elements element (N.to_nat count) rest;
      match rest with [] => (nest lengths elements).1 | _ => None end
  end.

(** ** Dates and times *)

Inductive Moment (T : Type) := At (at_ : T) | Infinite (infinity : str).
#[global] Arguments At {_} _.
#[global] Arguments Infinite {_} _.

Definition moment_text {T} (m : Moment T) (finite : T → str) : str :=
  match m with At at_ => finite at_ | Infinite infinity => infinity end.

Definition moment_json {T} (json : T → option Document) (m : Moment T) : option Value :=
  match m with At at_ => Parsed <$> json at_ | Infinite infinity => Some (String infinity) end.

Definition date (bytes : list N) : option (Moment NaiveDate) :=
  bytes ← fixed 4 bytes;
  let days := i32_of bytes in
  if (days =? i32_max)%Z then Some (Infinite (lit "infinity"))
  else if (days =? i32_min)%Z then Some (Infinite (lit "-infinity"))
  else At <$> epoch_plus_days days.

Definition timestamp (bytes : list N) : option (Moment NaiveDateTime) :=
  bytes ← fixed 8 bytes;
  let micros := i64_of bytes in
  if (micros =? i64_max)%Z then Some (Infinite (lit "infinity"))
  else if (micros =? i64_min)%Z then Some (Infinite (lit "-infinity"))
  else At <$> epoch_plus_micros micros.

Definition midnight : Z := 86400000000.

(** [time_json]; [u32::try_from] refuses what does not fit, as negative seconds. *)
Definition time_json (micros : Z) : option Value :=
  if (micros =? midnight)%Z then Some (String (lit "24:00:00"))
  else
    let seconds := (micros / 1000000)%Z in
    let nanos := ((micros mod 1000000) * 1000)%Z in
    if (0 <=? seconds)%Z && (seconds <? 2 ^ 32)%Z then Parsed <$> time_of_day_json seconds nanos else None.

Definition trim_zeros (digits : str) : str := rev (drop_while (λ c, (c =? 48)%N) (rev digits)).

Definition fraction_text (micros : N) : str :=
  if (micros =? 0)%N then [] else 46%N :: trim_zeros (pad 6 (show_N micros)).

Definition time_text (micros : Z) : str :=
  show_padded 2 (Z.quot micros 3600000000) ++ lit ":"
  ++ show_padded 2 (Z.rem (Z.quot micros 60000000) 60) ++ lit ":"
  ++ show_padded 2 (Z.rem (Z.quot micros 1000000) 60)
  ++ fraction_text (Z.abs_N (Z.rem micros 1000000)).

Definition date_parts (d : NaiveDate) : str * str :=
  let '(y, era) := if (0 <? year d)%Z then (year d, []) else ((1 - year d)%Z, lit " BC") in
  (show_padded 4 y ++ lit "-" ++ show_padded 2 (month d) ++ lit "-" ++ show_padded 2 (day d), era).

Definition date_text (d : NaiveDate) : str := let '(text, era) := date_parts d in text ++ era.

Definition timestamp_text (at_ : NaiveDateTime) (zone : str) : str :=
  let '(text, era) := date_parts (date_of at_) in
  let micros := (seconds_from_midnight at_ * 1000000 + nanosecond at_ / 1000)%Z in
  text ++ lit " " ++ time_text micros ++ zone ++ era.

Definition timetz_text (bytes : list N) : option str :=
  if (length bytes <? 8)%nat then None
  else
    zone ← i32_of <$> fixed 4 (drop 8 bytes);
    let seconds := Z.abs zone in
    Some (time_text (i64_of (take 8 bytes))
          ++ (if (zone <=? 0)%Z then lit "+" else lit "-") ++ show_padded 2 (seconds / 3600)
          ++ (if negb (seconds mod 60 =? 0)%Z
              then lit ":" ++ show_padded 2 (seconds / 60 mod 60) ++ lit ":" ++ show_padded 2 (seconds mod 60)
              else if negb (seconds / 60 mod 60 =? 0)%Z then lit ":" ++ show_padded 2 (seconds / 60 mod 60)
              else [])).

(** [{value}{unit}], left out for a zero. *)
Definition part_text (value : Z) (unit_ : char) : str :=
  if (value =? 0)%Z then [] else show_Z value ++ [unit_].

Definition seconds_text (micros : Z) : str :=
  let seconds := Z.rem (Z.quot micros 1000000) 60 in
  let fraction := Z.rem micros 1000000 in
  if (seconds =? 0)%Z && (fraction =? 0)%Z then []
  else (if (seconds <? 0)%Z || (fraction <? 0)%Z then lit "-" else [])
       ++ show_N (Z.abs_N seconds) ++ fraction_text (Z.abs_N fraction) ++ lit "S".

Definition interval_parts (micros days months : Z) : str :=
  lit "P" ++ part_text (Z.quot months 12) 89 ++ part_text (Z.rem months 12) 77 ++ part_text days 68
  ++ (if (micros =? 0)%Z then []
      else lit "T" ++ part_text (Z.quot micros 3600000000) 72
           ++ part_text (Z.rem (Z.quot micros 60000000) 60) 77 ++ seconds_text micros).

Definition interval_text (bytes : list N) : option str :=
  if (length bytes <? 8)%nat then None
  else
    let micros := i64_of (take 8 bytes) in
    '(days, rest) ← take_i32 (drop 8 bytes);
    '(months, rest) ← take_i32 rest;
    match rest with
    | [] =>
        if (micros =? i64_max)%Z && (days =? i32_max)%Z && (months =? i32_max)%Z then Some (lit "infinity")
        else if (micros =? i64_min)%Z && (days =? i32_min)%Z && (months =? i32_min)%Z then Some (lit "-infinity")
        else if (micros =? 0)%Z && (days =? 0)%Z && (months =? 0)%Z then Some (lit "PT0S")
        else Some (interval_parts micros days months)
    | _ => None
    end.

(** ** Addresses *)

(** [{:x}] of an unsigned integer. *)
Definition hex_digit (d : N) : char := if (d <? 10)%N then (48 + d)%N else (87 + d)%N.
Fixpoint hex_fuel (fuel : nat) (n : N) (acc : str) : str :=
  match fuel with
  | O => acc
  | S fuel =>
      let acc := hex_digit (n mod 16) :: acc in
      if (n <? 16)%N then acc else hex_fuel fuel (n / 16) acc
  end.
Definition show_hex (n : N) : str := hex_fuel (S (N.to_nat (N.log2 n))) n [].

(** [Ipv4Addr::to_string]. *)
Definition ipv4_text (octets : list N) : str := join (lit ".") (show_N <$> octets).

Fixpoint segments_of (octets : list N) : list N :=
  match octets with a :: b :: octets => (a * 256 + b)%N :: segments_of octets | _ => [] end.

(** The longest run of zeros, the first of several: its start and its length. *)
Fixpoint zero_span (i : nat) (segments : list N) (current longest : nat * nat) : nat * nat :=
  match segments with
  | [] => longest
  | segment :: segments =>
      if (segment =? 0)%N then
        let current := (if (current.2 =? 0)%nat then i else current.1, S current.2) in
        zero_span (S i) segments current (if (longest.2 <? current.2)%nat then current else longest)
      else zero_span (S i) segments (0, 0) longest
  end.

Definition hex_groups (segments : list N) : str := join (lit ":") (show_hex <$> segments).

(** [Ipv6Addr::to_string]. *)
Definition ipv6_display (octets : list N) : str :=
  let segments := segments_of octets in
  if bool_decide (take 6 segments = [0; 0; 0; 0; 0; 65535]%N)
  then lit "::ffff:" ++ ipv4_text (drop 12 octets)
  else
    let '(start, len) := zero_span 0 segments (0, 0) (0, 0) in
    if (1 <? len)%nat
    then hex_groups (take start segments) ++ lit "::" ++ hex_groups (drop (start + len) segments)
    else hex_groups segments.

Definition ipv6_text (octets : list N) : str :=
  let segments := segments_of octets in
  if bool_decide (take 6 segments = [0; 0; 0; 0; 0; 0]%N) && negb (default 0%N (segments !! 6%nat) =? 0)%N
  then lit "::" ++ ipv4_text (drop 12 octets)
  else ipv6_display octets.

Definition inet_text (bytes : list N) : option str :=
  match bytes with
  | _ :: bits :: is_cidr :: len :: address =>
      if negb (N.of_nat (length address) =? len)%N then None
      else
        '(text, full) ←
          (if (len =? 4)%N then Some (ipv4_text address, 32%N)
           else if (len =? 16)%N then Some (ipv6_text address, 128%N) else None);
        Some (if negb (is_cidr =? 0)%N || negb (bits =? full)%N then text ++ lit "/" ++ show_N bits else text)
  | _ => None
  end.

(** ** Ranges *)

Definition RANGE_EMPTY : N := 1.
Definition RANGE_LOWER_INCLUSIVE : N := 2.
Definition RANGE_UPPER_INCLUSIVE : N := 4.
Definition RANGE_LOWER_UNBOUNDED : N := N.lor 8 32.
Definition RANGE_UPPER_UNBOUNDED : N := N.lor 16 64.

Definition has_flag (flags flag : N) : bool := negb (N.land flags flag =? 0)%N.

Definition range_syntax (c : char) : bool :=
  existsb (N.eqb c) [34; 92; 40; 41; 91; 93; 44]%N || is_ascii_whitespace c.

Definition doubled (c : char) : str := if (c =? 34)%N || (c =? 92)%N then [c; c] else [c].

Definition push_range_bound (bound : str) : str :=
  let quoted := match bound with [] => true | _ => existsb range_syntax bound end in
  let quote := if quoted then [34%N] else [] in
  quote ++ (bound ≫= doubled) ++ quote.

(** One bound of a range, when it has it, and the bytes after it. *)
Definition bound_text (bound : list N → option str) (unbounded : bool) (rest : list N)
    : option (str * list N) :=
  if unbounded then Some ([], rest)
  else
    '(value, rest) ← take_value rest;
    value ← value;
    text ← bound value;
    Some (push_range_bound text, rest).

Definition range_text (bytes : list N) (bound : list N → option str) : option str :=
  match bytes with
  | [] => None
  | flags :: rest =>
      if has_flag flags RANGE_EMPTY then match rest with [] => Some (lit "empty") | _ => None end
      else
        '(lower, rest) ← bound_text bound (has_flag flags RANGE_LOWER_UNBOUNDED) rest;
        '(upper, rest) ← bound_text bound (has_flag flags RANGE_UPPER_UNBOUNDED) rest;
        match rest with
        | [] =>
            Some ((if has_flag flags RANGE_LOWER_INCLUSIVE then lit "[" else lit "(")
                  ++ lower ++ lit "," ++ upper
                  ++ (if has_flag flags RANGE_UPPER_INCLUSIVE then lit "]" else lit ")"))
        | _ => None
        end
  end.

(** ** Numerics *)

Definition word (bytes : list N) (at_ : nat) : option N :=
  a ← bytes !! at_; b ← bytes !! S at_; Some (a * 256 + b)%N.

(** The digit of a place counted from the first stored one; zero outside them. *)
Definition digit_at (digits : list N) (group : Z) : N :=
  if (group <? 0)%Z then 0%N else default 0%N (digits !! Z.to_nat group).

Definition group_text (digits : list N) (group : Z) : str := pad 4 (show_N (digit_at digits group)).

(** The groups [1..=weight] of the integer part. *)
Definition integer_groups (digits : list N) (weight : Z) : str :=
  seq 1 (Z.to_nat weight) ≫= λ g, group_text digits (Z.of_nat g).

(** The loop of the fraction: it adds at least four characters each time. *)
Fixpoint fraction_loop (fuel : nat) (digits : list N) (scale : nat) (group : Z) (fraction : str) : str :=
  match fuel with
  | O => fraction
  | S fuel =>
      if (length fraction <? scale)%nat
      then fraction_loop fuel digits scale (group + 1) (fraction ++ group_text digits group)
      else fraction
  end.

Definition decimal_of (negative : bool) (weight : Z) (scale : nat) (digits : list N) : str :=
  (if negative then lit "-" else [])
  ++ (if (weight <? 0)%Z then lit "0"
      else show_N (digit_at digits 0) ++ integer_groups digits weight)
  ++ (if (0 <? scale)%nat then lit "." ++ take scale (fraction_loop scale digits scale (weight + 1) []) else []).

Definition numeric_text (bytes : list N) : option str :=
  ndigits ← word bytes 0;
  weight ← word bytes 2;
  sign ← word bytes 4;
  scale ← word bytes 6;
  if (sign =? 0xC000)%N then Some (lit "NaN")
  else if (sign =? 0xD000)%N then Some (lit "Infinity")
  else if (sign =? 0xF000)%N then Some (lit "-Infinity")
  else if negb ((sign =? 0)%N || (sign =? 0x4000)%N) then None
  else
    digits ← mapM (λ position, word bytes (8 + 2 * position)) (seq 0 (N.to_nat ndigits));
    Some (decimal_of (sign =? 0x4000)%N (to_signed 16 (Z.of_N weight)) (N.to_nat scale) digits).

(** ** Values by their type *)

Definition strip_array (type_name : str) : option str :=
  if ends_with (lit "[]") type_name then Some (take (length type_name - 2) type_name) else None.

Definition named (type_name : str) (names : list str) : bool := existsb (str_eqb type_name) names.

Definition to_range {T} (read : list N → option T) (show : T → str) (bytes : list N) : option str :=
  show <$> read bytes.

(** [binary_json] of a type that is no array. *)
Definition scalar_json (type_name : str) (bytes : list N) : option Value :=
  let is_ name := str_eqb type_name (lit name) in
  if is_ "BOOL" then (λ b, Bool (bool_decide (b ≠ [0%N]))) <$> fixed 1 bytes
  else if is_ "INT2" then (λ b, Integer (i16_of b)) <$> fixed 2 bytes
  else if is_ "INT4" then (λ b, Integer (i32_of b)) <$> fixed 4 bytes
  else if is_ "INT8" then (λ b, Integer (i64_of b)) <$> fixed 8 bytes
  else if is_ "FLOAT4" then (λ b, f64_to_json (f64_of_f32 (be b))) <$> fixed 4 bytes
  else if is_ "FLOAT8" then (λ b, f64_to_json (be b)) <$> fixed 8 bytes
  else if is_ "NUMERIC" then String <$> numeric_text bytes
  else if is_ "UUID" then (λ b, String (uuid_text b)) <$> fixed 16 bytes
  else if named type_name [lit "TEXT"; lit "VARCHAR"; lit "CHAR"; lit "NAME"; lit "CITEXT"]
  then String <$> from_utf8 bytes
  else if is_ "JSON" then Parsed <$> json_from_slice bytes
  else if is_ "JSONB" then
    match bytes with b :: bytes => if (b =? 1)%N then Parsed <$> json_from_slice bytes else None | [] => None end
  else if is_ "BYTEA" then Some (Array ((λ b, Integer (Z.of_N b)) <$> bytes))
  else if is_ "DATE" then m ← date bytes; moment_json date_json m
  else if is_ "TIME" then b ← fixed 8 bytes; time_json (i64_of b)
  else if is_ "TIMESTAMP" then m ← timestamp bytes; moment_json timestamp_json m
  else if is_ "TIMESTAMPTZ" then m ← timestamp bytes; moment_json utc_json m
  else if is_ "TIMETZ" then String <$> timetz_text bytes
  else if is_ "INTERVAL" then String <$> interval_text bytes
  else if is_ "MONEY" then b ← fixed 8 bytes; Parsed <$> decimal_json (i64_of b) 2
  else if is_ "INET" || is_ "CIDR" then String <$> inet_text bytes
  else if is_ "INT4RANGE" then String <$> range_text bytes (to_range (fixed 4) (λ b, show_Z (i32_of b)))
  else if is_ "INT8RANGE" then String <$> range_text bytes (to_range (fixed 8) (λ b, show_Z (i64_of b)))
  else if is_ "NUMRANGE" then String <$> range_text bytes numeric_text
  else if is_ "DATERANGE" then String <$> range_text bytes (to_range date (λ m, moment_text m date_text))
  else if is_ "TSRANGE" then
    String <$> range_text bytes (to_range timestamp (λ m, moment_text m (λ at_, timestamp_text at_ [])))
  else if is_ "TSTZRANGE" then
    String <$> range_text bytes (to_range timestamp (λ m, moment_text m (λ at_, timestamp_text at_ (lit "+00"))))
  else None.

(** [binary_json] and [binary_or_text], which call each other over the brackets of an
    array type; the fuel is the length of the name. *)
Fixpoint binary_json_fuel (fuel : nat) (type_name : str) (bytes : list N) : option Value :=
  match strip_array type_name, fuel with
  | Some element, S fuel =>
      array_json bytes (λ bytes,
        match binary_json_fuel fuel element bytes with
        | Some value => Some value
        | None => from_utf8 bytes ≫= printable_text
        end)
  | Some _, O => None
  | None, _ => scalar_json type_name bytes
  end.

Definition binary_json (type_name : str) : list N → option Value :=
  binary_json_fuel (length type_name) type_name.

Definition binary_or_text (type_name : str) (bytes : list N) : option Value :=
  match binary_json type_name bytes with
  | Some value => Some value
  | None => from_utf8 bytes ≫= printable_text
  end.

Definition is_moment_type (type_name : str) : bool :=
  named type_name [lit "DATE"; lit "TIME"; lit "TIMESTAMP"; lit "TIMESTAMPTZ"].

Definition unreadable_moment (type_name : str) (bytes : list N) : bool :=
  if str_eqb type_name (lit "DATE") then
    match fixed 4 bytes with Some days => (i32_of days =? i32_max)%Z || (i32_of days =? i32_min)%Z | None => false end
  else if str_eqb type_name (lit "TIME") then
    match fixed 8 bytes with Some micros => (midnight <=? i64_of micros)%Z | None => false end
  else if named type_name [lit "TIMESTAMP"; lit "TIMESTAMPTZ"] then
    match fixed 8 bytes with
    | Some micros => (i64_of micros =? i64_max)%Z || (i64_of micros =? i64_min)%Z
    | None => false
    end
  else false.
End Decoding.
