(* ===== verification/PgValues.v ===== *)
(** * What PostgreSQL's binary values read as

    The theorems of [PgBinary]: arrays come back with their elements and dimensions,
    and nothing else is read as one; numerics are spelled exactly to their display
    scale; intervals and ranges print what reads back as them; the moments left to this
    decoder are those it reads as words. *)

From S2P Require Import Prelude Dialect Utf8 Decimals PgBinary.
Local Open Scope tide_scope.

(** ** Four bytes and the integer they are *)

Definition i32_bytes (z : Z) : list N :=
  let u := Z.to_N (z mod 2 ^ 32) in
  [u / 2 ^ 24; u / 2 ^ 16 mod 256; u / 256 mod 256; u mod 256]%N.

Definition is_i32 (z : Z) : Prop := (i32_min ≤ z ≤ i32_max)%Z.

Abbreviation all_bytes := (Forall (λ b, (b < 256)%N)) (only parsing).

Lemma i32_of_four a b c d :
  i32_of [a; b; c; d] = to_signed 32 (Z.of_N (((a * 256 + b) * 256 + c) * 256 + d)).
Proof. unfold i32_of, be. cbn [foldl]. f_equal. lia. Qed.

Lemma i32_of_bytes z : is_i32 z → i32_of (i32_bytes z) = z.
Proof.
  unfold is_i32, i32_min, i32_max, i32_bytes. intros Hz. rewrite i32_of_four.
  set (u := Z.to_N (z mod 2 ^ 32)).
  replace (((u / 2 ^ 24 * 256 + u / 2 ^ 16 mod 256) * 256 + u / 256 mod 256) * 256 + u mod 256)%N with u.
  - unfold u, to_signed. rewrite Z2N.id by (apply Z.mod_pos_bound; lia).
    destruct (Z.ltb_spec (z mod 2 ^ 32) (2 ^ (32 - 1))); lia.
  - clearbody u. change (2 ^ 24)%N with 16777216%N. change (2 ^ 16)%N with 65536%N. lia.
Qed.

Lemma i32_of_range a b c d : all_bytes [a; b; c; d] → is_i32 (i32_of [a; b; c; d]).
Proof.
  intros Hb. rewrite i32_of_four. repeat (apply Forall_cons_1 in Hb as [? Hb]).
  unfold is_i32, i32_min, i32_max, to_signed. case_match; lia.
Qed.

Lemma bytes_of_i32 a b c d : all_bytes [a; b; c; d] → i32_bytes (i32_of [a; b; c; d]) = [a; b; c; d].
Proof.
  intros Hb. rewrite i32_of_four. repeat (apply Forall_cons_1 in Hb as [? Hb]).
  set (u := (((a * 256 + b) * 256 + c) * 256 + d)%N). unfold i32_bytes.
  assert (Z.to_N (to_signed 32 (Z.of_N u) mod 2 ^ 32) = u) as ->.
  { unfold to_signed, u. case_match; lia. }
  change (2 ^ 24)%N with 16777216%N. change (2 ^ 16)%N with 65536%N. unfold u. repeat f_equal; lia.
Qed.

Lemma take_i32_bytes z rest : is_i32 z → take_i32 (i32_bytes z ++ rest) = Some (z, rest).
Proof. intros Hz. rewrite <- (i32_of_bytes z Hz) at 2. done. Qed.

Lemma take_i32_inv bytes z rest :
  all_bytes bytes → take_i32 bytes = Some (z, rest) → bytes = i32_bytes z ++ rest ∧ is_i32 z ∧ all_bytes rest.
Proof.
  intros Hb. destruct bytes as [|a [|b [|c [|d bytes]]]]; try done. cbn [take_i32]. intros [= <- <-].
  apply (Forall_app _ [a; b; c; d]) in Hb as [Hb Hr]. split_and!; [|by apply i32_of_range|done].
  by rewrite bytes_of_i32.
Qed.

(** ** Arrays *)

Section Arrays.
Context `{Decoders}.

(** An array on the wire: its dimension count, the flag, the element type, each axis
    with its length and lower bound, and the elements. *)
Record WireArray := {
  dims : Z; flag : Z; oid : Z;
  axes : list (N * Z);
  items : list (option (list N));
}.

Definition wire_value (item : option (list N)) : list N :=
  match item with Some bytes => i32_bytes (Z.of_nat (length bytes)) ++ bytes | None => i32_bytes (-1) end.
Definition wire_axis (axis : N * Z) : list N := i32_bytes (Z.of_N axis.1) ++ i32_bytes axis.2.
Definition wire (a : WireArray) : list N :=
  i32_bytes (dims a) ++ i32_bytes (flag a) ++ i32_bytes (oid a)
  ++ (axes a ≫= wire_axis) ++ (items a ≫= wire_value).

Definition product (lengths : list N) : N := foldr N.mul 1%N lengths.

(** [count_of] refuses a product past [usize] on the way. *)
Definition countable (lengths : list N) : Prop := ∀ k, (product (take k lengths) <= u64_max)%N.

Definition axis_ok (axis : N * Z) : Prop := is_i32 (Z.of_N axis.1) ∧ is_i32 axis.2.
Definition item_ok (item : option (list N)) : Prop :=
  match item with Some bytes => is_i32 (Z.of_nat (length bytes)) | None => True end.

Definition element_count (lengths : list N) : nat :=
  match lengths with [] => 0 | _ => N.to_nat (product lengths) end.

Record wire_ok (a : WireArray) : Prop := {
  ok_dims : is_i32 (dims a); ok_flag : is_i32 (flag a); ok_oid : is_i32 (oid a);
  ok_count : Z.to_nat (dims a) = length (axes a);
  ok_axes : Forall axis_ok (axes a);
  ok_items : Forall item_ok (items a);
  ok_countable : countable ((axes a).*1);
  ok_length : length (items a) = element_count ((axes a).*1);
}.

(** A value with the axes [lengths] whose innermost values are [values], in row-major
    order. *)
Fixpoint shaped (lengths : list N) (v : Value) (values : list Value) : Prop :=
  match lengths with
  | [] => values = [v]
  | len :: inner =>
      ∃ vs parts, v = Array vs ∧ N.of_nat (length vs) = len ∧ Forall2 (shaped inner) vs parts
                  ∧ values = mjoin parts
  end.

Definition reads (element : list N → option Value) (item : option (list N)) (v : Value) : Prop :=
  match item with Some bytes => element bytes = Some v | None => v = Null end.

(** The value of an array: one without axes is empty. *)
Definition array_of (lengths : list N) (v : Value) (values : list Value) : Prop :=
  match lengths with [] => v = Array [] ∧ values = [] | _ => shaped lengths v values end.

Lemma count_of_spec acc lengths :
  (acc <= u64_max)%N →
  count_of acc lengths = Some (acc * product lengths)%N ∧ (∀ k, (acc * product (take k lengths) <= u64_max)%N)
  ∨ count_of acc lengths = None ∧ ∃ k, (u64_max < acc * product (take k lengths))%N.
Proof.
  revert acc. induction lengths as [|len lengths IH]; intros acc Hacc.
  - left. cbn. rewrite N.mul_1_r. split; [done|]. intros [|k]; cbn; lia.
  - cbn [count_of]. unfold checked_mul. destruct (N.leb_spec (acc * len) u64_max) as [Hle|Hgt].
    + cbn. destruct (IH _ Hle) as [[-> Hk]|[-> [k Hk]]].
      * left. unfold product in *. cbn [foldr]. rewrite N.mul_assoc. split; [done|].
        intros [|k]; cbn [take foldr]; [by rewrite N.mul_1_r|]. rewrite N.mul_assoc. apply Hk.
      * right. split; [done|]. exists (S k). unfold product in *. cbn [take foldr]. by rewrite N.mul_assoc.
    + right. split; [done|]. exists 1%nat. unfold product. cbn [take foldr]. by rewrite N.mul_1_r.
Qed.

Lemma count_of_countable lengths n : count_of 1 lengths = Some n ↔ countable lengths ∧ n = product lengths.
Proof.
  unfold countable. destruct (count_of_spec 1 lengths ltac:(done)) as [[-> Hk]|[-> [k Hk]]].
  - rewrite N.mul_1_l. split; [intros [= <-]; split; [|done]|intros [_ ->]; done].
    intros k. specialize (Hk k). lia.
  - split; [done|]. intros [Hc _]. specialize (Hc k). lia.
Qed.

Lemma wire_value_take item rest :
  item_ok item → take_value (wire_value item ++ rest) = Some (item, rest).
Proof.
  unfold take_value, item_ok. intros Hok. destruct item as [bytes|]; cbn [wire_value].
  - rewrite <- app_assoc, take_i32_bytes by done. cbn [mbind option_bind].
    rewrite length_app. destruct (Z.eqb_spec (Z.of_nat (length bytes)) (-1)); [lia|].
    destruct (Z.ltb_spec (Z.of_nat (length bytes)) 0); [lia|].
    destruct (Z.ltb_spec (Z.of_nat (length bytes + length rest)) (Z.of_nat (length bytes))); [lia|].
    by rewrite Nat2Z.id, take_app_length, drop_app_length.
  - rewrite take_i32_bytes by done. done.
Qed.

Lemma take_value_inv bytes item rest :
  all_bytes bytes → take_value bytes = Some (item, rest) →
  bytes = wire_value item ++ rest ∧ item_ok item ∧ all_bytes rest.
Proof.
  unfold take_value. intros Hb. destruct (take_i32 bytes) as [[len tail]|] eqn:E; [|done]. cbn.
  apply take_i32_inv in E as (-> & Hlen & Ht); [|done].
  destruct (Z.eqb_spec len (-1)) as [->|]; [by intros [= <- <-]|].
  destruct (Z.ltb_spec len 0); [done|]. destruct (Z.ltb_spec (Z.of_nat (length tail)) len); [done|].
  intros [= <- <-]. cbn [wire_value item_ok]. rewrite length_take. replace (Z.of_nat _) with len by lia. split_and!; [|done|].
  - by rewrite <- app_assoc, take_drop.
  - by apply Forall_drop.
Qed.

Lemma read_lengths_wire axes rest :
  Forall axis_ok axes → read_lengths (length axes) ((axes ≫= wire_axis) ++ rest) = Some (axes.*1, rest).
Proof.
  induction 1 as [|[len lower] axes [Hlen Hlower] _ IH]; [done|]. cbn [length read_lengths].
  rewrite bind_cons. unfold wire_axis at 1. cbn [fst snd] in *. rewrite <- !app_assoc, take_i32_bytes by done.
  cbn [mbind option_bind]. destruct (Z.ltb_spec (Z.of_N len) 0); [lia|].
  rewrite take_i32_bytes by done. cbn [mbind option_bind]. rewrite IH. cbn. by rewrite N2Z.id.
Qed.

Lemma read_lengths_inv n bytes lengths rest :
  all_bytes bytes → read_lengths n bytes = Some (lengths, rest) →
  ∃ axes, axes.*1 = lengths ∧ length axes = n ∧ Forall axis_ok axes
          ∧ bytes = (axes ≫= wire_axis) ++ rest ∧ all_bytes rest.
Proof.
  revert bytes lengths. induction n as [|n IH]; intros bytes lengths Hb; cbn [read_lengths].
  { intros [= <- <-]. exists []. by repeat split. }
  destruct (take_i32 bytes) as [[len b1]|] eqn:E1; [|done]. cbn [mbind option_bind].
  apply take_i32_inv in E1 as (-> & Hlen & Hb1); [|done]. destruct (Z.ltb_spec len 0); [done|].
  destruct (take_i32 b1) as [[lower b2]|] eqn:E2; [|done]. cbn [mbind option_bind].
  apply take_i32_inv in E2 as (-> & Hlower & Hb2); [|done].
  destruct (read_lengths n b2) as [[ls b3]|] eqn:E3; [|done]. intros [= <- <-].
  apply IH in E3 as (axes & <- & <- & Hok & -> & Hr); [|done].
  exists ((Z.to_N len, lower) :: axes). unfold axis_ok, wire_axis. split_and!; try done.
  - constructor; [|done]. cbn. by rewrite Z2N.id.
  - rewrite bind_cons. cbn [fst snd]. rewrite Z2N.id by done. by rewrite <- !app_assoc.
Qed.

Lemma read_elements_wire element items values rest :
  Forall item_ok items → Forall2 (reads element) items values →
  read_elements element (length items) ((items ≫= wire_value) ++ rest) = Some (values, rest).
Proof.
  intros Hok Hr. revert Hok. induction Hr as [|item v items values Hv _ IH]; intros Hok; [done|].
  apply list.Forall_cons in Hok as [Hi Hok]. cbn [length read_elements].
  rewrite bind_cons, <- app_assoc, wire_value_take by done. cbn [mbind option_bind].
  destruct item as [bytes|]; cbn in Hv; [rewrite Hv|subst v]; cbn [mbind option_bind]; by rewrite IH.
Qed.

Lemma read_elements_inv element n bytes values rest :
  all_bytes bytes → read_elements element n bytes = Some (values, rest) →
  ∃ items, length items = n ∧ Forall item_ok items ∧ Forall2 (reads element) items values
           ∧ bytes = (items ≫= wire_value) ++ rest.
Proof.
  revert bytes values. induction n as [|n IH]; intros bytes values Hb; cbn [read_elements].
  { intros [= <- <-]. exists []. by repeat split. }
  destruct (take_value bytes) as [[item b1]|] eqn:E1; [|done]. cbn [mbind option_bind].
  apply take_value_inv in E1 as (-> & Hi & Hb1); [|done].
  destruct (match item with Some bytes => element bytes | None => Some Null end) as [v|] eqn:Ev; [|done].
  cbn [mbind option_bind]. destruct (read_elements element n b1) as [[vs b2]|] eqn:E2; [|done].
  intros [= <- <-]. apply IH in E2 as (items & <- & Hok & Hr & ->); [|done].
  exists (item :: items). split_and!; [done|by constructor| |by rewrite bind_cons, <- app_assoc].
  constructor; [|done]. destruct item; [done|]. by injection Ev as <-.
Qed.

(** ** Nesting *)

Lemma mjoin_cons {A} (part : list A) parts : mjoin (part :: parts) = part ++ mjoin parts.
Proof. done. Qed.

Lemma repeated_shaped (f : list Value → option Value * list Value) (P : Value → list Value → Prop) vs parts rest :
  (∀ v part tail, P v part → f (part ++ tail) = (Some v, tail)) →
  Forall2 P vs parts → repeated f (length vs) (mjoin parts ++ rest) = (Some vs, rest).
Proof.
  intros Hf. induction 1 as [|v part vs parts Hv _ IH]; [done|]. cbn [length repeated].
  by rewrite mjoin_cons, <- app_assoc, (Hf _ _ _ Hv), IH.
Qed.

Lemma nest_shaped lengths v values rest : shaped lengths v values → nest lengths (values ++ rest) = (Some v, rest).
Proof.
  revert v values rest. induction lengths as [|len inner IH]; intros v values rest; cbn [shaped nest].
  { intros ->. done. }
  intros (vs & parts & -> & <- & Hall & ->). rewrite Nat2N.id.
  rewrite (repeated_shaped _ (shaped inner)); [done|intros; by apply IH|done].
Qed.

Lemma repeated_inv (f : list Value → option Value * list Value) (P : Value → list Value → Prop) n elements vs rest :
  (∀ es v tail, f es = (Some v, tail) → ∃ part, es = part ++ tail ∧ P v part) →
  repeated f n elements = (Some vs, rest) →
  ∃ parts, length vs = n ∧ Forall2 P vs parts ∧ elements = mjoin parts ++ rest.
Proof.
  intros Hf. revert elements vs. induction n as [|n IH]; intros elements vs; cbn [repeated].
  { intros [= <- <-]. exists []. by repeat split. }
  destruct (f elements) as [[v|] es] eqn:E; [|done]. apply Hf in E as (part & -> & Hv).
  destruct (repeated f n es) as [[ws|] es'] eqn:E; [|done]. intros [= <- <-].
  apply IH in E as (parts & <- & Hall & ->). exists (part :: parts). split_and!; [done|by constructor|].
  rewrite mjoin_cons. by rewrite <- app_assoc.
Qed.

Lemma nest_inv lengths elements v rest :
  nest lengths elements = (Some v, rest) → ∃ values, elements = values ++ rest ∧ shaped lengths v values.
Proof.
  revert elements v rest. induction lengths as [|len inner IH]; intros elements v rest; cbn [shaped nest].
  { destruct elements as [|e elements]; [done|]. intros [= <- <-]. by exists [e]. }
  destruct (repeated (nest inner) (N.to_nat len) elements) as [[vs|] es] eqn:E; [|done]. intros [= <- <-].
  apply (repeated_inv _ (shaped inner)) in E as (parts & Hlen & Hall & ->); [|done].
  exists (mjoin parts). split; [done|]. exists vs, parts. split_and!; [done|lia|done|done].
Qed.

Lemma shaped_length lengths v values : shaped lengths v values → length values = N.to_nat (product lengths).
Proof.
  revert v values. induction lengths as [|len inner IH]; intros v values; cbn [shaped].
  { by intros ->. }
  intros (vs & parts & -> & <- & Hall & ->). cbn [product foldr]. fold (product inner).
  rewrite N2Nat.inj_mul, Nat2N.id. induction Hall as [|v part vs parts Hv _ IHall]; [done|].
  rewrite mjoin_cons, length_app. cbn [length]. rewrite IHall, (IH _ _ Hv). lia.
Qed.

(** So many elements always make a value. *)
Lemma shaped_total lengths values :
  length values = N.to_nat (product lengths) → ∃ v, shaped lengths v values.
Proof.
  revert values. induction lengths as [|len inner IH]; intros values; cbn [shaped].
  { destruct values as [|v [|]]; [done| |done]. intros _. by exists v. }
  cbn [product foldr]. fold (product inner). rewrite N2Nat.inj_mul.
  intros Hlen. enough (∃ vs parts, length vs = N.to_nat len ∧ Forall2 (shaped inner) vs parts
                                   ∧ values = mjoin parts) as (vs & parts & Hvs & Hall & ->).
  { exists (Array vs), vs, parts. split_and!; [done|lia|done|done]. }
  revert values Hlen. induction (N.to_nat len) as [|n IHn]; intros values Hlen.
  { exists [], []. destruct values; [by repeat split|done]. }
  set (k := N.to_nat (product inner)) in *.
  destruct (IH (take k values)) as [v Hv]; [rewrite length_take; lia|].
  destruct (IHn (drop k values)) as (vs & parts & <- & Hall & Hr); [rewrite length_drop; lia|].
  exists (v :: vs), (take k values :: parts). split_and!; [done|by constructor|].
  rewrite mjoin_cons. by rewrite <- Hr, take_drop.
Qed.

Lemma array_json_wire a element v values :
  wire_ok a → Forall2 (reads element) (items a) values → array_of (axes a).*1 v values →
  array_json (wire a) element = Some v.
Proof.
  intros [Hd Hf Ho Hc Hax Hit Hcount Hlen] Hr Hv. unfold array_json, wire.
  rewrite take_i32_bytes by done. cbn [mbind option_bind]. rewrite take_i32_bytes by done. cbn [mbind option_bind].
  rewrite take_i32_bytes by done. cbn [mbind option_bind]. rewrite Hc, read_lengths_wire by done.
  cbn [mbind option_bind]. destruct (axes a).*1 as [|len lengths] eqn:E.
  { destruct Hv as [-> ->]. apply Forall2_nil_inv_r in Hr as ->. done. }
  assert (count_of 1 (len :: lengths) = Some (product (len :: lengths))) as -> by by apply count_of_countable.
  cbn [mbind option_bind]. cbn [element_count] in Hlen. rewrite <- Hlen.
  rewrite <- (app_nil_r (items a ≫= wire_value)), (read_elements_wire _ _ values) by done.
  cbn [mbind option_bind]. rewrite <- (app_nil_r values). by rewrite (nest_shaped _ v values).
Qed.

Lemma array_json_inv bytes element v :
  all_bytes bytes → array_json bytes element = Some v →
  ∃ a values, bytes = wire a ∧ wire_ok a ∧ Forall2 (reads element) (items a) values ∧ array_of (axes a).*1 v values.
Proof.
  intros Hb. unfold array_json.
  destruct (take_i32 bytes) as [[dims b1]|] eqn:E1; [|done]. cbn [mbind option_bind].
  apply take_i32_inv in E1 as (-> & Hdims & Hb1); [|done].
  destruct (take_i32 b1) as [[flag b2]|] eqn:E2; [|done]. cbn [mbind option_bind].
  apply take_i32_inv in E2 as (-> & Hflag & Hb2); [|done].
  destruct (take_i32 b2) as [[oid b3]|] eqn:E3; [|done]. cbn [mbind option_bind].
  apply take_i32_inv in E3 as (-> & Hoid & Hb3); [|done].
  destruct (read_lengths (Z.to_nat dims) b3) as [[lengths b4]|] eqn:E4; [|done]. cbn [mbind option_bind].
  apply read_lengths_inv in E4 as (axes & <- & Hlen & Hax & -> & Hb4); [|done].
  destruct axes.*1 as [|n lengths] eqn:Eax.
  - destruct b4; [|done]. intros [= <-]. destruct axes; [|done].
    exists {| dims := dims; flag := flag; oid := oid; axes := []; items := [] |}, [].
    split_and!; [done| |by constructor|done]. constructor; try done. intros [|k]; done.
  - destruct (count_of 1 (n :: lengths)) as [count|] eqn:Ec; [|done]. cbn [mbind option_bind].
    apply count_of_countable in Ec as [Hcount ->].
    destruct (read_elements element _ b4) as [[values b5]|] eqn:E5; [|done]. cbn [mbind option_bind].
    apply read_elements_inv in E5 as (items & Hit & Hok & Hr & ->); [|done].
    destruct b5; [|done]. intros Hn. destruct (nest (n :: lengths) values) as [o rest] eqn:En. cbn in Hn. subst o.
    apply nest_inv in En as (used & -> & Hs). pose proof (shaped_length _ _ _ Hs) as Hused.
    pose proof (Forall2_length Hr) as Hl. rewrite length_app, Hit, Hused in Hl.
    destruct rest; [|cbn in Hl; lia]. rewrite app_nil_r in *.
    exists {| dims := dims; flag := flag; oid := oid; axes := axes; items := items |}, used.
    split_and!; [done| |done|cbn; by rewrite Eax]. constructor; cbn; rewrite ?Eax; done.
Qed.

(** C31: an array of PostgreSQL reads as the nested array of its elements in row-major
    order, NULLs as null, whatever its dimensions; bytes that are no array, through a
    length that does not fit, an element that does not decode or bytes left over, are
    not read as one. *)
Theorem arrays_read_back bytes element :
  all_bytes bytes →
  (∀ v, array_json bytes element = Some v ↔
     ∃ a values, bytes = wire a ∧ wire_ok a ∧ Forall2 (reads element) (items a) values
                 ∧ array_of (axes a).*1 v values)
  ∧ ∀ a values, bytes = wire a → wire_ok a → Forall2 (reads element) (items a) values →
      is_Some (array_json bytes element).
Proof.
  intros Hb. split.
  - intros v. split; [by apply array_json_inv|]. intros (a & values & -> & Hok & Hr & Hv).
    by eapply array_json_wire.
  - intros a values -> Hok Hr. pose proof (ok_length _ Hok) as Hlen.
    rewrite (Forall2_length Hr) in Hlen. destruct (axes a).*1 as [|n lengths] eqn:E.
    + exists (Array []). eapply array_json_wire; [done..|]. rewrite E. split; [done|].
      by apply nil_length_inv.
    + destruct (shaped_total (n :: lengths) values Hlen) as [v Hv]. exists v.
      eapply array_json_wire; [done..|]. by rewrite E.
Qed.
End Arrays.

(** ** Numerics *)

(** [D] times ten to the [k], without what is below one. *)
Definition scaled (D : N) (k : Z) : N :=
  if (0 <=? k)%Z then (D * 10 ^ Z.to_N k)%N else (D / 10 ^ Z.to_N (- k))%N.

(** The number that base-10000 digits are. *)
Definition base_value (digits : list N) : N := foldl (λ acc d, acc * 10000 + d)%N 0%N digits.

Lemma scaled_scaled D a e : (0 ≤ e)%Z → (scaled D a / 10 ^ Z.to_N e)%N = scaled D (a - e).
Proof.
  intros He. unfold scaled. destruct (Z.leb_spec 0 a), (Z.leb_spec 0 (a - e)).
  - replace (Z.to_N a) with (Z.to_N (a - e) + Z.to_N e)%N by lia. rewrite N.pow_add_r, N.mul_assoc.
    apply N.div_mul, N.pow_nonzero. lia.
  - replace (Z.to_N e) with (Z.to_N a + Z.to_N (- (a - e)))%N by lia. rewrite N.pow_add_r.
    rewrite <- N.Div0.div_div. f_equal. apply N.div_mul, N.pow_nonzero. lia.
  - lia.
  - rewrite N.Div0.div_div, <- N.pow_add_r. do 2 f_equal. lia.
Qed.

Lemma base_value_app ds es :
  base_value (ds ++ es) = (base_value ds * 10000 ^ N.of_nat (length es) + base_value es)%N.
Proof.
  unfold base_value. rewrite foldl_app. generalize (foldl (λ acc d, acc * 10000 + d)%N 0%N ds) as acc.
  induction es as [|d es IH] using rev_ind; intros acc; [cbn; lia|].
  rewrite !foldl_app. cbn [foldl]. rewrite IH, length_app. cbn [length].
  rewrite Nat.add_1_r, Nat2N.inj_succ, N.pow_succ_r'. lia.
Qed.

Lemma base_value_lt digits :
  Forall (λ d, (d < 10000)%N) digits → (base_value digits < 10000 ^ N.of_nat (length digits))%N.
Proof.
  induction digits as [|d digits IH] using rev_ind; [done|]. intros [Hds Hd]%Forall_app.
  apply list.Forall_cons in Hd as [Hd _]. specialize (IH Hds).
  rewrite base_value_app, length_app, Nat2N.inj_add, N.pow_add_r. cbn [length].
  change (10000 ^ N.of_nat 1)%N with 10000%N. unfold base_value at 2. cbn [foldl]. lia.
Qed.

Lemma base_value_zeros n : base_value (replicate n 0%N) = 0%N.
Proof. induction n as [|n IH]; [done|]. by rewrite replicate_S_end, base_value_app, IH. Qed.

Lemma pow_10000 k : (10000 ^ k = 10 ^ (4 * k))%N.
Proof. by rewrite N.pow_mul_r. Qed.

(** The first [k] digits, zeros past the stored ones. *)
Definition places (digits : list N) (k : nat) : list N := (λ g : nat, digit_at digits (Z.of_nat g)) <$> seq 0 k.

Lemma digit_at_nat digits (g : nat) : digit_at digits (Z.of_nat g) = default 0%N (digits !! g).
Proof. unfold digit_at. destruct (Z.ltb_spec (Z.of_nat g) 0); [lia|]. by rewrite Nat2Z.id. Qed.

Lemma places_take digits k : k ≤ length digits → places digits k = take k digits.
Proof.
  intros Hk. apply list_eq. intros i. unfold places. rewrite list_lookup_fmap.
  destruct (decide (i < k)) as [Hi|Hi].
  - rewrite lookup_seq_lt, lookup_take_lt by done. cbn. rewrite digit_at_nat.
    destruct (lookup_lt_is_Some_2 digits i ltac:(lia)) as [d ->]. done.
  - rewrite lookup_seq_ge, lookup_take_ge by lia. done.
Qed.

Lemma places_all digits k : places digits (length digits + k) = digits ++ replicate k 0%N.
Proof.
  unfold places. rewrite seq_app, fmap_app. fold (places digits (length digits)).
  rewrite places_take, firstn_all by lia. f_equal. apply list_eq. intros i. rewrite list_lookup_fmap.
  destruct (decide (i < k)) as [Hi|Hi].
  - rewrite lookup_seq_lt, lookup_replicate_2 by done. cbn. rewrite digit_at_nat.
    by rewrite lookup_ge_None_2 by lia.
  - rewrite lookup_seq_ge by lia. symmetry. apply lookup_ge_None_2. rewrite length_replicate. lia.
Qed.

Lemma places_value digits k :
  Forall (λ d, (d < 10000)%N) digits →
  base_value (places digits k) = scaled (base_value digits) (4 * (Z.of_nat k - Z.of_nat (length digits))).
Proof.
  intros Hd. unfold scaled. destruct (Z.leb_spec 0 (4 * (Z.of_nat k - Z.of_nat (length digits)))) as [Hk|Hk].
  - replace k with (length digits + (k - length digits)) at 1 by lia.
    rewrite places_all, base_value_app, base_value_zeros, length_replicate, pow_10000, N.add_0_r.
    do 2 f_equal. lia.
  - rewrite places_take by lia. rewrite <- (take_drop k digits) at 2.
    rewrite base_value_app, length_drop, pow_10000.
    replace (Z.to_N _) with (4 * N.of_nat (length digits - k))%N by lia.
    apply (Forall_drop _ k) in Hd. apply base_value_lt in Hd. rewrite length_drop, pow_10000 in Hd.
    rewrite N.div_add_l by (apply N.pow_nonzero; lia). by rewrite N.div_small, N.add_0_r.
Qed.

(** *** Groups of four digits *)

Lemma length_show_N k n : (n < 10 ^ N.of_nat k)%N → 0 < k → length (show_N n) ≤ k.
Proof.
  unfold show_N. assert (∀ fuel k n acc, (n < 10 ^ N.of_nat k)%N → 0 < k →
    length (digits_fuel fuel n acc) ≤ k + length acc) as Hgo.
  { induction fuel as [|fuel IH]; intros j m acc Hm Hj; cbn [digits_fuel]; [lia|].
    destruct (N.ltb_spec m 10); [cbn; lia|]. destruct j as [|[|j]]; [lia|cbn in Hm; lia|].
    etrans; [apply (IH (S j)); [|lia]|cbn; lia].
    rewrite Nat2N.inj_succ, N.pow_succ_r' in Hm. apply N.Div0.div_lt_upper_bound. lia. }
  intros Hn Hk. etrans; [by apply Hgo|]. cbn. lia.
Qed.

Lemma pad_spec width n :
  0 < width → (n < 10 ^ N.of_nat width)%N →
  length (pad width (show_N n)) = width ∧ all_digits (pad width (show_N n))
  ∧ digits_value 0 (pad width (show_N n)) = n.
Proof.
  intros Hw Hn. pose proof (length_show_N width n Hn Hw) as Hl. destruct (show_N_spec n) as (_ & Hd & Hv).
  unfold pad. rewrite length_app, length_replicate. split_and!; [lia| |].
  - apply Forall_app. split; [by apply Forall_replicate|done].
  - by rewrite digits_value_app, digits_value_zeros, Hv.
Qed.

Lemma digit_at_lt digits g : Forall (λ d, (d < 10000)%N) digits → (digit_at digits g < 10000)%N.
Proof.
  intros Hd. unfold digit_at. destruct (g <? 0)%Z; [lia|].
  destruct (digits !! Z.to_nat g) as [d|] eqn:E; [|cbn; lia].
  by apply (list.Forall_lookup_1 _ _ _ _ Hd) in E.
Qed.

(** The groups of the places from [from] on, [count] of them. *)
Definition groups (digits : list N) (from : Z) (count : nat) : str :=
  seq 0 count ≫= λ i : nat, group_text digits (from + Z.of_nat i).

Lemma groups_S digits from count :
  groups digits from (S count) = groups digits from count ++ group_text digits (from + Z.of_nat count).
Proof. unfold groups. rewrite seq_S, bind_app. cbn. by rewrite app_nil_r. Qed.

Lemma groups_spec digits from count :
  Forall (λ d, (d < 10000)%N) digits →
  length (groups digits from count) = 4 * count ∧ all_digits (groups digits from count)
  ∧ digits_value 0 (groups digits from count)
    = base_value ((λ i : nat, digit_at digits (from + Z.of_nat i)) <$> seq 0 count).
Proof.
  intros Hd. induction count as [|count (IHl & IHd & IHv)]; [done|]. rewrite groups_S.
  destruct (pad_spec 4 (digit_at digits (from + Z.of_nat count))) as (Hl & Hds & Hv); [lia|by apply digit_at_lt|].
  fold (group_text digits (from + Z.of_nat count)) in Hl, Hds, Hv.
  rewrite length_app. split_and!; [lia|by apply Forall_app|].
  rewrite digits_value_app, Hl, Hv, IHv, seq_S, fmap_app, base_value_app. unfold base_value at 3. cbn. lia.
Qed.

Lemma base_value_map_zero {A} (f : A → N) l : Forall (λ x, f x = 0%N) l → base_value (f <$> l) = 0%N.
Proof.
  intros Hl. replace (f <$> l) with (replicate (length l) 0%N); [apply base_value_zeros|].
  induction Hl as [|x l Hx _ IH]; [done|]. cbn. by rewrite Hx, IH.
Qed.

(** Groups from a place at or before the first stored one end where the first
    places do. *)
Lemma groups_from_zero digits from count :
  Forall (λ d, (d < 10000)%N) digits → (from ≤ 0)%Z →
  digits_value 0 (groups digits from count)
  = base_value (places digits (Z.to_nat (from + Z.of_nat count))).
Proof.
  intros Hd Hf. destruct (groups_spec digits from count Hd) as (_ & _ & ->).
  set (z := Nat.min count (Z.to_nat (- from))).
  replace (seq 0 count) with (seq 0 (z + (count - z))) by (f_equal; lia).
  rewrite seq_app, fmap_app, base_value_app, base_value_map_zero.
  - rewrite N.mul_0_l, N.add_0_l. unfold places. f_equal.
    replace (Z.to_nat (from + Z.of_nat count)) with (count - z) by lia.
    apply list_eq. intros i. rewrite !list_lookup_fmap. destruct (decide (i < count - z)) as [Hi|Hi].
    + rewrite !lookup_seq_lt by done. cbn. do 2 f_equal. lia.
    + by rewrite !lookup_seq_ge by lia.
  - apply Forall_seq. intros i Hi. unfold digit_at. destruct (Z.ltb_spec (from + Z.of_nat i) 0); [done|lia].
Qed.

Lemma groups_app digits from a b :
  groups digits from a ++ groups digits (from + Z.of_nat a) b = groups digits from (a + b).
Proof.
  unfold groups. rewrite seq_app, bind_app. f_equal. rewrite Nat.add_0_l.
  replace (seq a b) with (Nat.add a <$> seq 0 b) by (rewrite fmap_add_seq; f_equal; lia).
  rewrite list_fmap_bind. apply list_bind_ext; [|done]. intros i. unfold compose. f_equal. lia.
Qed.

Lemma fraction_groups fuel digits scale from c :
  scale - 4 * c ≤ fuel → 4 * c < scale + 4 → Forall (λ d, (d < 10000)%N) digits →
  ∃ c', fraction_loop fuel digits scale (from + Z.of_nat c) (groups digits from c) = groups digits from c'
        ∧ scale ≤ 4 * c' < scale + 4.
Proof.
  intros Hfuel Hc Hd. revert c Hfuel Hc. induction fuel as [|fuel IH]; intros c Hfuel Hc; cbn [fraction_loop].
  { exists c. split; [done|lia]. }
  destruct (groups_spec digits from c Hd) as (Hl & _). rewrite Hl.
  destruct (Nat.ltb_spec (4 * c) scale); [|exists c; split; [done|lia]].
  rewrite <- groups_S. replace (from + Z.of_nat c + 1)%Z with (from + Z.of_nat (S c))%Z by lia.
  apply IH; lia.
Qed.

Definition integer_text (weight : Z) (digits : list N) : str :=
  if (weight <? 0)%Z then lit "0" else show_N (digit_at digits 0) ++ integer_groups digits weight.

Lemma integer_groups_groups digits weight : integer_groups digits weight = groups digits 1 (Z.to_nat weight).
Proof.
  unfold integer_groups, groups. rewrite <- (fmap_add_seq 1 0), list_fmap_bind.
  apply list_bind_ext; [|done]. intros i. unfold compose. f_equal. lia.
Qed.

(** The integer part and so many groups of the fraction are the first places. *)
Lemma decimal_places digits weight c :
  Forall (λ d, (d < 10000)%N) digits →
  all_digits (integer_text weight digits) ∧ integer_text weight digits ≠ []
  ∧ digits_value 0 (integer_text weight digits ++ groups digits (weight + 1) c)
    = base_value (places digits (Z.to_nat (weight + 1 + Z.of_nat c))).
Proof.
  intros Hd. unfold integer_text. destruct (Z.ltb_spec weight 0) as [Hw|Hw].
  - split_and!; [by repeat constructor|done|]. rewrite digits_value_app, groups_from_zero by (done || lia).
    change (digits_value 0 (lit "0")) with 0%N. lia.
  - destruct (show_N_spec (digit_at digits 0)) as (Hne & Hds & Hv).
    destruct (groups_spec digits 1 (Z.to_nat weight) Hd) as (_ & Hgd & _). rewrite integer_groups_groups.
    split_and!; [by apply Forall_app|by destruct (show_N (digit_at digits 0))|].
    transitivity (digits_value 0 (groups digits 0 (S (Z.to_nat weight) + c))).
    + rewrite <- groups_app. replace (0 + Z.of_nat (S (Z.to_nat weight)))%Z with (weight + 1)%Z by lia.
      rewrite !(digits_value_app (_ ++ _)), !(digits_value_app _ (groups digits (weight + 1) c)).
      do 2 f_equal. change (S (Z.to_nat weight)) with (1 + Z.to_nat weight). rewrite <- groups_app.
      destruct (pad_spec 4 (digit_at digits 0)) as (_ & _ & Hp); [lia|by apply digit_at_lt|].
      assert (groups digits 0 1 = pad 4 (show_N (digit_at digits 0))) as -> by apply app_nil_r.
      by rewrite !digits_value_app, Hv, Hp.
    + rewrite groups_from_zero by (done || lia). do 2 f_equal. lia.
Qed.

Lemma digits_value_take ds k :
  all_digits ds → digits_value 0 (take k ds) = (digits_value 0 ds / 10 ^ N.of_nat (length ds - k))%N.
Proof.
  intros Hd. rewrite <- (take_drop k ds) at 2. rewrite digits_value_app, length_drop.
  pose proof (digits_value_lt _ (Forall_drop _ k _ Hd)) as Hlt. rewrite length_drop in Hlt.
  rewrite N.div_add_l by (apply N.pow_nonzero; lia). by rewrite N.div_small, N.add_0_r.
Qed.

Lemma places_scaled digits z :
  Forall (λ d, (d < 10000)%N) digits →
  base_value (places digits (Z.to_nat z)) = scaled (base_value digits) (4 * (z - Z.of_nat (length digits))).
Proof.
  intros Hd. rewrite places_value by done. destruct (decide (0 ≤ z)%Z) as [Hz|Hz].
  { f_equal. lia. }
  pose proof (base_value_lt _ Hd) as Hlt. rewrite pow_10000 in Hlt.
  assert (∀ k, (k ≤ - (4 * Z.of_nat (length digits)))%Z → scaled (base_value digits) k = 0%N) as Hzero.
  { intros k Hk. unfold scaled. destruct (Z.leb_spec 0 k).
    - replace (N.of_nat (length digits)) with 0%N in Hlt by lia. cbn in Hlt. lia.
    - apply N.div_small. eapply N.lt_le_trans; [exact Hlt|]. apply N.pow_le_mono_r; lia. }
  by rewrite !Hzero by lia.
Qed.

Lemma decimal_of_spells negative weight scale digits :
  Forall (λ d, (d < 10000)%N) digits →
  spells (decimal_of negative weight scale digits)
    (signed negative (scaled (base_value digits) (4 * (weight + 1 - Z.of_nat (length digits)) + Z.of_nat scale)),
     - Z.of_nat scale)%Z.
Proof.
  intros Hd. destruct (fraction_groups scale digits scale (weight + 1) 0) as (c & Hloop & Hc); [lia|lia|done|].
  change (groups digits (weight + 1) 0) with ([] : str) in Hloop. rewrite Z.add_0_r in Hloop.
  destruct (decimal_places digits weight c Hd) as (Hip & Hne & Hv).
  destruct (groups_spec digits (weight + 1) c Hd) as (Hl & Hg & _).
  set (ip := integer_text weight digits) in *. set (fraction := groups digits (weight + 1) c) in *.
  assert (digits_value 0 (ip ++ take scale fraction)
          = scaled (base_value digits) (4 * (weight + 1 - Z.of_nat (length digits)) + Z.of_nat scale)) as Hval.
  { replace (ip ++ take scale fraction) with (take (length ip + scale) (ip ++ fraction))
      by by rewrite take_app_add.
    rewrite digits_value_take by by apply Forall_app.
    rewrite Hv, places_scaled, length_app, Hl by done.
    replace (N.of_nat _) with (Z.to_N (4 * Z.of_nat c - Z.of_nat scale)) by lia.
    rewrite scaled_scaled by lia. f_equal. lia. }
  exists (if negative then lit "-" else []), ip, (if (0 <? scale)%nat then lit "." else []),
    (take scale fraction), [], negative, 0%Z.
  assert (length (take scale fraction) = scale) as Hlen by (rewrite length_take; lia).
  split_and!.
  - rewrite app_nil_r. rewrite trim_plain.
    + unfold decimal_of. rewrite Hloop. fold ip fraction. f_equal. f_equal.
      destruct (Nat.ltb_spec 0 scale); [done|]. by replace scale with 0 by lia.
    + unfold decimal_of. rewrite Hloop. fold (integer_text weight digits) ip fraction.
      apply Forall_app. split; [destruct negative; by repeat constructor|].
      apply Forall_app. split; [by apply digits_not_space|].
      destruct (0 <? scale)%nat; [|done]. apply Forall_app. split; [by repeat constructor|].
      apply digits_not_space. by apply Forall_take.
  - destruct negative; [by left|right; auto].
  - done.
  - by apply Forall_take.
  - by destruct ip.
  - destruct (Nat.ltb_spec 0 scale); [by left|right]. split; [done|]. by replace scale with 0 by lia.
  - by left.
  - by rewrite Hval, Hlen.
Qed.

Definition two_bytes (n : N) : list N := [n / 256; n mod 256]%N.

(** A numeric on the wire. *)
Definition wire_numeric (sign : N) (weight : Z) (scale : N) (digits : list N) : list N :=
  two_bytes (N.of_nat (length digits)) ++ two_bytes (Z.to_N (weight mod 2 ^ 16)) ++ two_bytes sign
  ++ two_bytes scale ++ (digits ≫= two_bytes).

Lemma word_at before n after : word (before ++ two_bytes n ++ after) (length before) = Some n.
Proof.
  unfold word. rewrite (lookup_app_r _ _ (S _)), (lookup_app_r _ _ (length before)), Nat.sub_diag by lia.
  replace (S (length before) - length before) with 1 by lia. cbn. f_equal. lia.
Qed.

Lemma words_at before digits after :
  mapM (λ position, word (before ++ (digits ≫= two_bytes) ++ after) (length before + 2 * position))
    (seq 0 (length digits)) = Some digits.
Proof.
  apply mapM_Some. revert before. induction digits as [|d digits IH]; intros before; [constructor|].
  cbn [length seq]. constructor.
  - rewrite bind_cons, Nat.mul_0_r, Nat.add_0_r, <- app_assoc. apply word_at.
  - rewrite <- fmap_S_seq. apply Forall2_fmap_l. specialize (IH (before ++ two_bytes d)).
    eapply Forall2_impl; [|exact IH]. intros position w. cbn beta. rewrite bind_cons, length_app, <- !app_assoc.
    unfold compose. intros <-. f_equal. cbn [two_bytes length]. lia.
Qed.

Lemma wire_words sign weight scale digits rest :
  let bytes := wire_numeric sign weight scale digits ++ rest in
  word bytes 0 = Some (N.of_nat (length digits)) ∧ word bytes 2 = Some (Z.to_N (weight mod 2 ^ 16))
  ∧ word bytes 4 = Some sign ∧ word bytes 6 = Some scale
  ∧ mapM (λ position, word bytes (8 + 2 * position)) (seq 0 (length digits)) = Some digits.
Proof.
  cbv zeta. unfold wire_numeric. rewrite <- !app_assoc.
  set (a := two_bytes (N.of_nat _)). set (b := two_bytes (Z.to_N _)). set (c := two_bytes sign).
  split_and!.
  - apply (word_at []).
  - apply (word_at a).
  - rewrite (app_assoc a b). apply (word_at (a ++ b)).
  - rewrite (app_assoc a b), (app_assoc (a ++ b) c). apply (word_at ((a ++ b) ++ c)).
  - rewrite (app_assoc a b), (app_assoc (a ++ b) c), (app_assoc ((a ++ b) ++ c) (two_bytes scale)).
    apply (words_at (((a ++ b) ++ c) ++ two_bytes scale)).
Qed.

Lemma weight_of_bytes weight :
  (- 2 ^ 15 ≤ weight < 2 ^ 15)%Z → to_signed 16 (Z.of_N (Z.to_N (weight mod 2 ^ 16))) = weight.
Proof.
  intros Hw. rewrite Z2N.id by (apply Z.mod_pos_bound; lia). unfold to_signed.
  destruct (Z.ltb_spec (weight mod 2 ^ 16) (2 ^ (16 - 1))); lia.
Qed.

(** C32: a numeric of PostgreSQL is spelled exactly to its display scale, whatever its
    digits, its weight and its sign: the text has [scale] fraction digits and is the
    number without what lies beyond them; the special values are their words. *)
Theorem numerics_are_spelled_exactly digits weight scale rest :
  Forall (λ d, (d < 10000)%N) digits → (N.of_nat (length digits) < 2 ^ 16)%N →
  (- 2 ^ 15 ≤ weight < 2 ^ 15)%Z → (scale < 2 ^ 16)%N →
  (∀ negative, ∃ text,
     numeric_text (wire_numeric (if negative : bool then 0x4000 else 0) weight scale digits ++ rest) = Some text
     ∧ spells text
         (signed negative (scaled (base_value digits) (4 * (weight + 1 - Z.of_nat (length digits)) + Z.of_N scale)),
          - Z.of_N scale)%Z)
  ∧ numeric_text (wire_numeric 0xC000 weight scale digits ++ rest) = Some (lit "NaN")
  ∧ numeric_text (wire_numeric 0xD000 weight scale digits ++ rest) = Some (lit "Infinity")
  ∧ numeric_text (wire_numeric 0xF000 weight scale digits ++ rest) = Some (lit "-Infinity").
Proof.
  intros Hd Hn Hw Hs. unfold numeric_text. split_and!.
  { intros negative. exists (decimal_of negative weight (N.to_nat scale) digits).
    destruct (wire_words (if negative then 0x4000 else 0)%N weight scale digits rest) as (-> & -> & -> & -> & Hdigits).
    cbn [mbind option_bind]. rewrite Nat2N.id, Hdigits, weight_of_bytes by done.
    split; [by destruct negative|]. pose proof (decimal_of_spells negative weight (N.to_nat scale) digits Hd) as Hspell.
    by replace (Z.of_N scale) with (Z.of_nat (N.to_nat scale)) by lia. }
  all: destruct (wire_words 0xC000%N weight scale digits rest) as (-> & -> & -> & -> & _) ||
    destruct (wire_words 0xD000%N weight scale digits rest) as (-> & -> & -> & -> & _) ||
    destruct (wire_words 0xF000%N weight scale digits rest) as (-> & -> & -> & -> & _); done.
Qed.

(** ** Intervals

    A reader of ISO 8601 durations, with signs and a fraction of a second: the
    microseconds, days and months they add up to. *)

Definition number_char (c : char) : bool := is_ascii_digit c || (c =? 45)%N || (c =? 46)%N.

(** A number in millionths. *)
Definition read_number (num : str) : Z :=
  let negative := match num with c :: _ => (c =? 45)%N | [] => false end in
  let body := if negative then tail num else num in
  let whole := take_while is_ascii_digit body in
  let fraction := tail (drop_while is_ascii_digit body) in
  signed negative (digits_value 0 (whole ++ fraction ++ replicate (6 - length fraction) 48%N)).

Record Duration := mkDuration { d_micros : Z; d_days : Z; d_months : Z }.

Definition add_field (time : bool) (unit_ : char) (millionths : Z) (d : Duration) : option Duration :=
  let '(mkDuration micros days months) := d in
  let value := (millionths / 1000000)%Z in
  if time then
    if (unit_ =? 72)%N then Some (mkDuration (micros + value * 3600000000) days months)
    else if (unit_ =? 77)%N then Some (mkDuration (micros + value * 60000000) days months)
    else if (unit_ =? 83)%N then Some (mkDuration (micros + millionths) days months)
    else None
  else
    if (unit_ =? 89)%N then Some (mkDuration micros days (months + value * 12))
    else if (unit_ =? 77)%N then Some (mkDuration micros days (months + value))
    else if (unit_ =? 68)%N then Some (mkDuration micros (days + value) months)
    else None.

Fixpoint read_fields (s : str) (time : bool) (num : str) (d : Duration) : option Duration :=
  match s with
  | [] => match num with [] => Some d | _ => None end
  | c :: s =>
      if number_char c then read_fields s time (num ++ [c]) d
      else
        match num with
        | [] => if (c =? 84)%N && negb time then read_fields s true [] d else None
        | _ => d ← add_field time c (read_number num) d; read_fields s time [] d
        end
  end.

Definition read_interval (s : str) : option Duration :=
  match s with c :: s => if (c =? 80)%N then read_fields s false [] (mkDuration 0 0 0) else None | [] => None end.

Lemma read_fields_number num' s time num d :
  Forall (λ c, number_char c = true) num' → read_fields (num' ++ s) time num d = read_fields s time (num ++ num') d.
Proof.
  intros Hn. revert num. induction Hn as [|c num' Hc _ IH]; intros num; [by rewrite app_nil_r|].
  cbn [app read_fields]. by rewrite Hc, IH, <- app_assoc.
Qed.

Lemma read_fields_field num u s time d :
  Forall (λ c, number_char c = true) num → num ≠ [] → number_char u = false →
  read_fields (num ++ u :: s) time [] d = (d ← add_field time u (read_number num) d; read_fields s time [] d).
Proof.
  intros Hn Hne Hu. rewrite read_fields_number by done. cbn [app read_fields]. rewrite Hu. by destruct num.
Qed.

Lemma digits_number ds : all_digits ds → Forall (λ c, number_char c = true) ds.
Proof. apply Forall_impl. intros c Hc. unfold number_char. by rewrite Hc. Qed.

(** [dot] and [fp] are the fraction of a number. *)
Lemma read_number_spec (negative : bool) ip dot fp :
  all_digits ip → ip ≠ [] → (dot = lit "." ∨ dot = [] ∧ fp = []) →
  read_number ((if negative then lit "-" else []) ++ ip ++ dot ++ fp)
  = signed negative (digits_value 0 (ip ++ fp ++ replicate (6 - length fp) 48%N)).
Proof.
  intros Hip Hne Hdot. unfold read_number.
  destruct (take_while_stop is_ascii_digit ip (dot ++ fp) Hip) as [Ht Hd].
  { destruct Hdot as [->|[-> ->]]; done. }
  assert (tail (dot ++ fp) = fp) as Htail by (destruct Hdot as [->|[-> ->]]; done).
  destruct negative; cbn [app lit].
  - change (lit "-" ++ ip ++ dot ++ fp) with (45%N :: ip ++ dot ++ fp). cbn [tail]. change (45 =? 45)%N with true. cbn iota.
    by rewrite Ht, Hd, Htail.
  - destruct ip as [|c ip]; [done|]. cbn [app] in *. pose proof (Forall_inv Hip) as Hc. cbn beta in Hc.
    replace (c =? 45)%N with false by (unfold is_ascii_digit in Hc; lia). cbn iota. by rewrite Ht, Hd, Htail.
Qed.

Lemma show_Z_number z :
  Forall (λ c, number_char c = true) (show_Z z) ∧ show_Z z ≠ [] ∧ read_number (show_Z z) = (z * 1000000)%Z.
Proof.
  assert (∀ (negative : bool) n, signed negative n = z →
    show_Z z = (if negative then lit "-" else []) ++ show_N n → 
    Forall (λ c, number_char c = true) (show_Z z) ∧ show_Z z ≠ [] ∧ read_number (show_Z z) = (z * 1000000)%Z) as Hgo.
  { intros negative n Hz ->. destruct (show_N_spec n) as (Hne & Hd & Hv). split_and!.
    - apply Forall_app. split; [destruct negative; by repeat constructor|by apply digits_number].
    - by destruct negative, (show_N n).
    - pose proof (read_number_spec negative (show_N n) [] [] Hd Hne ltac:(by right)) as Hr.
      rewrite !app_nil_r in Hr. rewrite Hr. cbn [app length Nat.sub].
      rewrite digits_value_app, Hv, digits_value_zeros, length_replicate, <- Hz.
      change (10 ^ N.of_nat 6)%N with 1000000%N. unfold signed. destruct negative; lia. }
  destruct (Z.ltb_spec z 0) as [Hz|Hz].
  - apply (Hgo true (Z.to_N (- z))); [cbn; lia|]. unfold show_Z. destruct (Z.ltb_spec z 0); [done|lia].
  - apply (Hgo false (Z.to_N z)); [cbn; lia|]. unfold show_Z. destruct (Z.ltb_spec z 0); [lia|done].
Qed.

(** What a part adds. *)
Definition plus (micros days months : Z) (d : Duration) : Duration :=
  mkDuration (d_micros d + micros) (d_days d + days) (d_months d + months).

Lemma read_part value u s time d micros days months :
  number_char u = false →
  (∀ m d, add_field time u (m * 1000000) d = Some (plus (m * micros) (m * days) (m * months) d)) →
  read_fields (part_text value u ++ s) time [] d
  = read_fields s time [] (plus (value * micros) (value * days) (value * months) d).
Proof.
  intros Hu Hadd. unfold part_text. destruct (Z.eqb_spec value 0) as [->|].
  { unfold plus. destruct d. cbn. by rewrite !Z.add_0_r. }
  destruct (show_Z_number value) as (Hn & Hne & Hv). rewrite <- app_assoc. cbn [app].
  by rewrite read_fields_field, Hv, Hadd.
Qed.

Lemma drop_while_length {A} (p : A → bool) l : length (drop_while p l) ≤ length l.
Proof. induction l as [|x l IH]; [done|]. cbn. destruct (p x); cbn; lia. Qed.

Lemma trim_zeros_pad ds : trim_zeros ds ++ replicate (length ds - length (trim_zeros ds)) 48%N = ds.
Proof.
  set (zero := λ c, (c =? 48)%N).
  assert (∀ l, rev (drop_while zero l) ++ replicate (length l - length (drop_while zero l)) 48%N = rev l) as Hl.
  { induction l as [|c l IH]; [done|]. cbn [drop_while]. unfold zero at 1 3. destruct (N.eqb_spec c 48) as [->|].
    - cbn [rev length]. rewrite <- IH, <- app_assoc. f_equal. pose proof (drop_while_length zero l).
      replace (S (length l) - _) with (S (length l - length (drop_while zero l))) by lia.
      by rewrite replicate_S_end.
    - by rewrite Nat.sub_diag, app_nil_r. }
  specialize (Hl (rev ds)). rewrite rev_involutive, length_rev in Hl. unfold trim_zeros. by rewrite length_rev.
Qed.

Lemma fraction_text_spec m :
  (m < 1000000)%N →
  ∃ dot fp, fraction_text m = dot ++ fp ∧ all_digits fp ∧ (dot = lit "." ∨ dot = [] ∧ fp = [])
            ∧ length (fp ++ replicate (6 - length fp) 48%N) = 6
            ∧ digits_value 0 (fp ++ replicate (6 - length fp) 48%N) = m.
Proof.
  intros Hm. unfold fraction_text. destruct (N.eqb_spec m 0) as [->|].
  { exists [], []. split_and!; [done|constructor|by right|done|done]. }
  destruct (pad_spec 6 m) as (Hl & Hd & Hv); [lia|done|]. pose proof (trim_zeros_pad (pad 6 (show_N m))) as Ht.
  rewrite Hl in Ht. exists (lit "."), (trim_zeros (pad 6 (show_N m))). rewrite Ht. split_and!; [done| |by left|done|done].
  rewrite <- Ht in Hd. by apply Forall_app in Hd as [? _].
Qed.

Lemma read_seconds micros s d :
  read_fields (seconds_text micros ++ s) true [] d
  = read_fields s true [] (plus (Z.rem (Z.quot micros 1000000) 60 * 1000000 + Z.rem micros 1000000) 0 0 d).
Proof.
  unfold seconds_text. set (seconds := Z.rem (Z.quot micros 1000000) 60). set (fraction := Z.rem micros 1000000).
  assert ((0 ≤ seconds ∧ 0 ≤ fraction ∨ seconds ≤ 0 ∧ fraction ≤ 0) ∧ Z.abs fraction < 1000000)%Z as [Hsign Hf].
  { unfold seconds, fraction. clear. Z.to_euclidean_division_equations. lia. }
  clearbody seconds fraction. destruct d as [m dd mo]. unfold plus. cbn [d_micros d_days d_months].
  destruct ((seconds =? 0) && (fraction =? 0))%Z eqn:Ezero.
  { replace seconds with 0%Z by lia. replace fraction with 0%Z by lia. by rewrite !Z.add_0_r. }
  rewrite !Z.add_0_r. destruct (fraction_text_spec (Z.abs_N fraction)) as (dot & fp & -> & Hfp & Hdot & Hl & Hv); [lia|].
  destruct (show_N_spec (Z.abs_N seconds)) as (Hne & Hip & Hvs).
  set (negative := ((seconds <? 0) || (fraction <? 0))%Z). set (ip := show_N _) in *.
  rewrite <- !app_assoc. change (lit "S" ++ s) with (83%N :: s).
  replace (_ ++ ip ++ dot ++ fp ++ 83%N :: s)
    with (((if negative then lit "-" else []) ++ ip ++ dot ++ fp) ++ 83%N :: s) by by rewrite <- !app_assoc.
  rewrite read_fields_field; [|..|done].
  - rewrite read_number_spec, digits_value_app, Hvs, Hv, Hl by done. cbn [add_field N.eqb mbind option_bind].
    change (10 ^ N.of_nat 6)%N with 1000000%N. cbn. do 2 f_equal. unfold signed, negative. case_match; lia.
  - repeat apply Forall_app_2; try by apply digits_number.
    + destruct negative; by repeat constructor.
    + destruct Hdot as [->|[-> _]]; by repeat constructor.
  - destruct negative; [done|]. by destruct ip.
Qed.

Lemma add_unit time u micros days months :
  (time, u, micros, days, months) ∈
    [(true, 72%N, 3600000000, 0, 0); (true, 77%N, 60000000, 0, 0);
     (false, 89%N, 0, 0, 12); (false, 77%N, 0, 0, 1); (false, 68%N, 0, 1, 0)]%Z →
  ∀ m d, add_field time u (m * 1000000) d = Some (plus (m * micros) (m * days) (m * months) d).
Proof.
  intros Hin m [mi da mo]. unfold plus. cbn [d_micros d_days d_months].
  repeat (apply elem_of_cons in Hin as [[= -> -> -> -> ->]|Hin];
    [cbn; rewrite Z.div_mul by done; do 2 f_equal; lia|]). by apply elem_of_nil in Hin.
Qed.

(** The parts of an interval add up to it. *)
Lemma read_interval_parts micros days months :
  read_interval (interval_parts micros days months) = Some (mkDuration micros days months).
Proof.
  unfold interval_parts. change (lit "P" ++ ?s) with (80%N :: s).
  cbn [read_interval N.eqb Pos.eqb].
  rewrite (read_part _ 89 _ false _ 0 0 12), (read_part _ 77 _ false _ 0 0 1), (read_part _ 68 _ false _ 0 1 0)
    by (done || by apply add_unit; set_solver).
  destruct (Z.eqb_spec micros 0) as [->|Hm].
  { unfold plus. cbn. do 2 f_equal; Z.to_euclidean_division_equations; lia. }
  change (lit "T" ++ ?s) with (84%N :: s). cbn [read_fields number_char].
  change (number_char 84) with false. cbn [andb negb N.eqb Pos.eqb].
  rewrite (read_part _ 72 _ true _ 3600000000 0 0), (read_part _ 77 _ true _ 60000000 0 0)
    by (done || by apply add_unit; set_solver).
  rewrite <- (app_nil_r (seconds_text micros)), read_seconds. unfold plus. cbn. do 2 f_equal; Z.to_euclidean_division_equations; lia.
Qed.

Lemma all_eqb a b c x y z : ((a =? x) && (b =? y) && (c =? z))%Z = bool_decide ((a, b, c) = (x, y, z)).
Proof.
  destruct (bool_decide_reflect ((a, b, c) = (x, y, z))) as [[= -> -> ->]|Hne].
  - by rewrite !Z.eqb_refl.
  - apply not_true_is_false. intros Ht. apply Hne. repeat f_equal; lia.
Qed.

Lemma take_i32_spec bytes :
  take_i32 bytes = if (length bytes <? 4)%nat then None else Some (i32_of (take 4 bytes), drop 4 bytes).
Proof. by do 4 (destruct bytes as [|? bytes]; [done|]). Qed.

(** an interval of PostgreSQL is the sixteen bytes of its microseconds, days and
    months, and nothing else is read as one; what is written for it is the ISO 8601
    duration of exactly those, each part under its own sign, or the word of an
    infinite one. *)
Theorem intervals_read_back bytes :
  let micros := i64_of (take 8 bytes) in
  let days := i32_of (take 4 (drop 8 bytes)) in
  let months := i32_of (drop 12 bytes) in
  (is_Some (interval_text bytes) ↔ length bytes = 16)
  ∧ ∀ text, interval_text bytes = Some text →
      if bool_decide ((micros, days, months) = (i64_max, i32_max, i32_max)) then text = lit "infinity"
      else if bool_decide ((micros, days, months) = (i64_min, i32_min, i32_min)) then text = lit "-infinity"
      else read_interval text = Some (mkDuration micros days months).
Proof.
  intros micros days months. unfold interval_text. rewrite take_i32_spec, length_drop.
  destruct (Nat.ltb_spec (length bytes) 8); [split; [split; [by intros []|lia]|done]|].
  destruct (Nat.ltb_spec (length bytes - 8) 4); [split; [split; [by intros []|lia]|done]|].
  cbn [mbind option_bind]. rewrite take_i32_spec, !drop_drop, length_drop. cbn [Nat.add].
  destruct (Nat.ltb_spec (length bytes - 12) 4); [split; [split; [by intros []|lia]|done]|].
  cbn [mbind option_bind]. fold micros days.
  destruct (drop 16 bytes) as [|b rest] eqn:E;
    pose proof (f_equal length E) as Hl; rewrite length_drop in Hl; cbn [length] in Hl;
    [|split; [split; [by intros []|lia]|done]].
  rewrite (take_ge (drop 12 bytes)) by (rewrite length_drop; lia). fold months. clearbody micros days months.
  rewrite !all_eqb. split.
  { split; [lia|]. intros _. repeat case_bool_decide; by eexists. }
  intros text. case_bool_decide; [by intros [= <-]|]. case_bool_decide; [by intros [= <-]|].
  case_bool_decide as Hz; intros [= <-]; [|apply read_interval_parts]. by injection Hz as -> -> ->.
Qed.

(** ** Ranges

    The reader of PostgreSQL's range syntax: a bound with nothing in it is missing, in
    quotes or after a backslash a character is itself. *)

Definition ends_bound (c : char) : bool := (c =? 44)%N || (c =? 41)%N || (c =? 93)%N.

Fixpoint read_bound (s : str) (in_quotes : bool) (acc : str) : option (str * str) :=
  match s with
  | [] => None
  | c :: s' =>
      if (c =? 92)%N then match s' with d :: s' => read_bound s' in_quotes (acc ++ [d]) | [] => None end
      else if (c =? 34)%N then
        match in_quotes, s' with
        | false, _ => read_bound s' true acc
        | true, d :: s'' => if (d =? 34)%N then read_bound s'' true (acc ++ [34%N]) else read_bound s' false acc
        | true, [] => None
        end
      else if negb in_quotes && ends_bound c then Some (acc, s)
      else read_bound s' in_quotes (acc ++ [c])
  end.

Definition read_bound_opt (s : str) : option (option str * str) :=
  match s with
  | [] => None
  | c :: _ => if ends_bound c then Some (None, s) else '(b, s) ← read_bound s false []; Some (Some b, s)
  end.

(** A range: whether its ends belong to it, and its bounds. *)
Record Range := mkRange { lower_in : bool; lower : option str; upper : option str; upper_in : bool }.

Definition read_range (s : str) : option Range :=
  match s with
  | [] => None
  | c :: s =>
      lower_in ← (if (c =? 91)%N then Some true else if (c =? 40)%N then Some false else None);
      '(lower, s) ← read_bound_opt s;
      match s with
      | comma :: s =>
          if (comma =? 44)%N then
            '(upper, s) ← read_bound_opt s;
            match s with
            | [c] => if (c =? 93)%N then Some (mkRange lower_in lower upper true)
                     else if (c =? 41)%N then Some (mkRange lower_in lower upper false) else None
            | _ => None
            end
          else None
      | [] => None
      end
  end.

Lemma read_bound_quoted bound s acc :
  match s with c :: _ => c ≠ 34%N | [] => False end →
  read_bound ((bound ≫= doubled) ++ 34%N :: s) true acc = read_bound s false (acc ++ bound).
Proof.
  intros Hs. revert acc. induction bound as [|c bound IH]; intros acc.
  { rewrite app_nil_r. destruct s as [|d s]; [done|]. change ([] ≫= doubled) with ([] : str).
    cbn [app read_bound N.eqb Pos.eqb]. destruct (N.eqb_spec d 34); [done|]. done. }
  rewrite bind_cons, <- app_assoc. replace (acc ++ c :: bound) with ((acc ++ [c]) ++ bound) by by rewrite <- app_assoc.
  rewrite <- IH. unfold doubled at 1. destruct (N.eqb_spec c 92) as [->|H92]; [done|].
  destruct (N.eqb_spec c 34) as [->|H34]; [done|]. cbn [orb app read_bound].
  destruct (N.eqb_spec c 92); [done|]. destruct (N.eqb_spec c 34); [done|]. done.
Qed.

Lemma read_bound_plain bound c s acc :
  existsb range_syntax bound = false → ends_bound c = true →
  read_bound ((bound ≫= doubled) ++ c :: s) false acc = Some (acc ++ bound, c :: s).
Proof.
  intros Hb Hc. revert acc Hb. induction bound as [|b bound IH]; intros acc Hb.
  { change ([] ≫= doubled) with ([] : str). cbn [app read_bound]. rewrite app_nil_r, Hc. unfold ends_bound in Hc.
    destruct (N.eqb_spec c 92); [lia|]. destruct (N.eqb_spec c 34); [lia|]. done. }
  cbn [existsb] in Hb. apply orb_false_iff in Hb as [Hb Hbs]. specialize (IH (acc ++ [b]) Hbs).
  rewrite <- app_assoc in IH. rewrite bind_cons, <- app_assoc. unfold range_syntax in Hb. cbn [existsb] in Hb.
  unfold doubled at 1. destruct (N.eqb_spec b 34); [lia|]. destruct (N.eqb_spec b 92); [lia|].
  cbn [orb app read_bound]. destruct (N.eqb_spec b 92); [done|]. destruct (N.eqb_spec b 34); [done|].
  replace (ends_bound b) with false by (unfold ends_bound; lia). cbn [negb andb]. done.
Qed.

Lemma read_bound_text bound c s :
  ends_bound c = true → read_bound_opt (push_range_bound bound ++ c :: s) = Some (Some bound, c :: s).
Proof.
  intros Hc. assert (c ≠ 34%N) as Hq by (intros ->; done). unfold push_range_bound.
  set (quoted := match bound with [] => true | _ => existsb range_syntax bound end).
  destruct quoted eqn:E; subst quoted.
  - rewrite <- !app_assoc. change ([34%N] ++ ?x) with (34%N :: x). cbn [read_bound_opt].
    change (ends_bound 34) with false. cbn iota. cbn [read_bound N.eqb Pos.eqb].
    change ([34%N] ++ c :: s) with (34%N :: c :: s). rewrite read_bound_quoted by done. cbn [app].
    pose proof (read_bound_plain [] c s bound eq_refl Hc) as Hr. rewrite app_nil_r in Hr.
    change (([] ≫= doubled) ++ c :: s) with (c :: s) in Hr. by rewrite Hr.
  - destruct bound as [|b bound]; [done|]. rewrite app_nil_r, app_nil_l.
    pose proof (read_bound_plain (b :: bound) c s [] E Hc) as Hr.
    assert (∃ rest, ((b :: bound) ≫= doubled) ++ c :: s = b :: rest) as [rest Erest].
    { rewrite bind_cons. unfold doubled at 1. destruct (_ || _); by eexists. }
    rewrite Erest in *. cbn [read_bound_opt]. cbn [existsb] in E. apply orb_false_iff in E as [Eb _].
    replace (ends_bound b) with false by (unfold range_syntax in Eb; cbn in Eb; unfold ends_bound; lia).
    by rewrite Hr.
Qed.

(** A bound on the wire, of a range with these flags. *)
Definition wire_bound (value : option (list N)) : list N :=
  match value with Some bytes => wire_value (Some bytes) | None => [] end.

Definition bound_ok (unbounded : bool) (value : option (list N)) : Prop :=
  match value with
  | Some bytes => unbounded = false ∧ is_i32 (Z.of_nat (length bytes))
  | None => unbounded = true
  end.

Lemma bound_text_wire bound unbounded value rest :
  bound_ok unbounded value →
  bound_text bound unbounded (wire_bound value ++ rest)
  = match value with
    | Some bytes => text ← bound bytes; Some (push_range_bound text, rest)
    | None => Some ([], rest)
    end.
Proof.
  unfold bound_ok, bound_text. destruct value as [bytes|]; [intros [-> Hb]|by intros ->].
  cbn [wire_bound]. by rewrite wire_value_take.
Qed.

(** What is written for a range of PostgreSQL reads back as it by the syntax of
    ranges: which ends belong to it, and either bound as the text of its value,
    whatever characters that has, or as missing; an empty range is its word. *)
Theorem ranges_read_back flags lower upper bound lower_text upper_text :
  bound_ok (has_flag flags RANGE_LOWER_UNBOUNDED) lower → bound_ok (has_flag flags RANGE_UPPER_UNBOUNDED) upper →
  option_Forall2 (λ bytes text, bound bytes = Some text) lower lower_text →
  option_Forall2 (λ bytes text, bound bytes = Some text) upper upper_text →
  if has_flag flags RANGE_EMPTY then range_text [flags] bound = Some (lit "empty")
  else ∃ text, range_text (flags :: wire_bound lower ++ wire_bound upper) bound = Some text
               ∧ read_range text = Some (mkRange (has_flag flags RANGE_LOWER_INCLUSIVE) lower_text upper_text
                                           (has_flag flags RANGE_UPPER_INCLUSIVE)).
Proof.
  intros Hl Hu Hlt Hut. unfold range_text. destruct (has_flag flags RANGE_EMPTY); [done|].
  rewrite bound_text_wire by done. rewrite <- (app_nil_r (wire_bound upper)).
  assert (∀ value text (o : list N), option_Forall2 (λ bytes text, bound bytes = Some text) value text →
    match value with Some bytes => text ← bound bytes; Some (push_range_bound text, o) | None => Some ([], o) end
    = Some (match text with Some text => push_range_bound text | None => [] end, o)) as Hvalue.
  { intros value text o [bytes t Ht|]; [by rewrite Ht|done]. }
  rewrite (Hvalue _ lower_text) by done. cbn [mbind option_bind].
  rewrite bound_text_wire, (Hvalue _ upper_text) by done. cbn [mbind option_bind].
  eexists. split; [done|].
  assert (∀ text c s, ends_bound c = true →
    read_bound_opt (match text with Some text => push_range_bound text | None => [] end ++ c :: s)
    = Some (text, c :: s)) as Hread.
  { intros [text|] c s Hc; [by apply read_bound_text|]. cbn. by rewrite Hc. }
  set (up := match upper_text with Some text => push_range_bound text | None => [] end).
  set (low := match lower_text with Some text => push_range_bound text | None => [] end).
  assert (∀ b : bool, read_range ((if b then lit "[" else lit "(") ++ low ++ lit "," ++ up
    ++ (if has_flag flags RANGE_UPPER_INCLUSIVE then lit "]" else lit ")"))
    = Some (mkRange b lower_text upper_text (has_flag flags RANGE_UPPER_INCLUSIVE))) as Hgo; [|apply Hgo].
  intros b. set (close := if has_flag flags RANGE_UPPER_INCLUSIVE then 93%N else 41%N).
  replace (if has_flag flags RANGE_UPPER_INCLUSIVE then lit "]" else lit ")") with [close]
    by (unfold close; by destruct (has_flag flags RANGE_UPPER_INCLUSIVE)).
  set (open := if b then 91%N else 40%N). replace (if b then lit "[" else lit "(") with [open] by by destruct b.
  cbn [app read_range]. replace (if (open =? 91)%N then _ else _) with (Some b) by by destruct b.
  cbn [mbind option_bind]. change (lit "," ++ ?s) with (44%N :: s). unfold low. rewrite Hread by done.
  cbn [mbind option_bind N.eqb Pos.eqb]. unfold up. rewrite Hread by (unfold close; by destruct (has_flag flags RANGE_UPPER_INCLUSIVE)).
  cbn [mbind option_bind]. unfold close. by destruct (has_flag flags RANGE_UPPER_INCLUSIVE).
Qed.

(** ** Moments

    What the executor leaves to this decoder is what it writes as a word: the
    infinities, and the midnight that ends a day. *)
Theorem special_moments_are_words `{Decoders} type_name bytes :
  is_moment_type type_name = true →
  (∃ word, binary_json type_name bytes = Some (String word))
  ↔ unreadable_moment type_name bytes = true ∧ (type_name = lit "TIME" → i64_of bytes = midnight).
Proof.
  assert (∀ {T} (json : T → option Document) (o : option (Moment T)) (special : bool),
    (special = true ↔ ∃ word, o = Some (Infinite word)) →
    (∃ word, (m ← o; moment_json json m) = Some (String word)) ↔ special = true) as Hmoment.
  { intros T json o special ->. destruct o as [[at_|word]|]; cbn; [|naive_solver..].
    destruct (json at_); naive_solver. }
  assert (∀ {T} (o : option T) n lo hi, lo ≠ hi →
    ((n =? hi) || (n =? lo))%Z = true ↔
    ∃ word, (if (n =? hi)%Z then Some (Infinite (lit "infinity"))
             else if (n =? lo)%Z then Some (Infinite (lit "-infinity")) else At <$> o) = Some (Infinite word)) as Hword.
  { intros T o n lo hi _. destruct (n =? hi)%Z, (n =? lo)%Z; cbn; [naive_solver..|]. destruct o; naive_solver. }
  unfold is_moment_type, named. cbn [existsb]. rewrite !orb_true_iff, !str_eqb_true.
  intros [-> |[-> |[-> |[-> |?]]]]; [| | | |done].
  - rewrite <- (Hmoment _ date_json (date bytes)).
    { split; [intros Hw; split; [exact Hw|done]|intros [Hw _]; exact Hw]. }
    change (unreadable_moment _ _) with
      (match fixed 4 bytes with Some b => (i32_of b =? i32_max)%Z || (i32_of b =? i32_min)%Z | None => false end).
    unfold date. destruct (fixed 4 bytes); cbn [mbind option_bind]; [by apply Hword|naive_solver].
  - change (binary_json _ _) with (b ← fixed 8 bytes; time_json (i64_of b)).
    change (unreadable_moment _ _) with
      (match fixed 8 bytes with Some b => (midnight <=? i64_of b)%Z | None => false end).
    unfold fixed. destruct (length bytes =? 8)%nat; cbn [mbind option_bind]; [|naive_solver].
    unfold time_json. destruct (Z.eqb_spec (i64_of bytes) midnight) as [->|Hne].
    + split; [done|]. intros _. by eexists.
    + split; [|intros [_ Ht]; by specialize (Ht eq_refl)]. intros [word Hw].
      destruct (_ && _); [|done]. by destruct (time_of_day_json _ _).
  - rewrite <- (Hmoment _ timestamp_json (timestamp bytes)).
    { split; [intros Hw; split; [exact Hw|done]|intros [Hw _]; exact Hw]. }
    change (unreadable_moment _ _) with
      (match fixed 8 bytes with Some b => (i64_of b =? i64_max)%Z || (i64_of b =? i64_min)%Z | None => false end).
    unfold timestamp. destruct (fixed 8 bytes); cbn [mbind option_bind]; [by apply Hword|naive_solver].
  - rewrite <- (Hmoment _ utc_json (timestamp bytes)).
    { split; [intros Hw; split; [exact Hw|done]|intros [Hw _]; exact Hw]. }
    change (unreadable_moment _ _) with
      (match fixed 8 bytes with Some b => (i64_of b =? i64_max)%Z || (i64_of b =? i64_min)%Z | None => false end).
    unfold timestamp. destruct (fixed 8 bytes); cbn [mbind option_bind]; [by apply Hword|naive_solver].
Qed.

(** An array holding a NULL, a numeric, a range with a bound to quote, an address. *)
Definition demo_decoders : Decoders := {|
  Document := str; json_from_slice := from_utf8; decimal_json := λ z _, Some (show_Z z); uuid_text := id;
  NaiveDate := Z; epoch_plus_days := Some; year := λ _, 2000%Z; month := λ _, 1%Z; day := λ d, (d + 1)%Z;
  date_json := λ d, Some (show_Z d);
  NaiveDateTime := Z; epoch_plus_micros := Some; date_of := λ m, (m / midnight)%Z;
  seconds_from_midnight := λ m, (m mod midnight / 1000000)%Z; nanosecond := λ m, (m mod 1000000 * 1000)%Z;
  timestamp_json := λ m, Some (show_Z m); utc_json := λ m, Some (show_Z m);
  time_of_day_json := λ seconds _, if (seconds <? 86400)%Z then Some (show_Z seconds) else None |}.

Lemma arrays_read_back_witness :
  let bytes := [0; 0; 0; 1; 0; 0; 0; 1; 0; 0; 0; 23; 0; 0; 0; 2; 0; 0; 0; 1; 255; 255; 255; 255; 0; 0; 0; 1; 7]%N in
  let element := λ bytes : list N, Some (@Integer demo_decoders (be bytes)) in
  array_json bytes element = Some (Array [Null; Integer 7])
  ∧ ∃ a values, bytes = wire a ∧ wire_ok a ∧ Forall2 (reads element) (items a) values
                ∧ array_of (axes a).*1 (Array [Null; Integer 7]) values.
Proof.
  cbv zeta. split; [reflexivity|]. apply (@arrays_read_back demo_decoders); [|reflexivity].
  repeat (constructor; [by vm_compute|]). constructor.
Defined.

Lemma numerics_are_spelled_exactly_witness :
  ∃ text, numeric_text (wire_numeric 0x4000 1 3 [12; 1000; 5000]%N ++ []) = Some text
          ∧ spells text (-121000500, -3)%Z.
Proof.
  destruct (numerics_are_spelled_exactly [12; 1000; 5000]%N 1 3 []) as (Htext & _);
    [repeat (constructor; [by vm_compute|]); constructor|by vm_compute|by split; vm_compute|by vm_compute|].
  destruct (Htext true) as (text & Ht & Hs). exists text. split; [exact Ht|].
  match type of Hs with spells _ (?n, _) => replace (-121000500)%Z with n by by vm_compute end. exact Hs.
Defined.

Lemma ranges_read_back_witness :
  ∃ text, range_text (18 :: wire_bound (Some [44; 34]) ++ wire_bound None)%N from_utf8 = Some text
          ∧ read_range text = Some (mkRange true (Some [44; 34]%N) None false).
Proof.
  assert (bound_ok (has_flag 18 RANGE_LOWER_UNBOUNDED) (Some [44; 34]%N)) as Hl by (split; [done|by split; vm_compute]).
  pose proof (ranges_read_back 18 (Some [44; 34]%N) None from_utf8 (Some [44; 34]%N) None Hl eq_refl
    ltac:(by constructor) ltac:(by constructor)) as Hr.
  exact Hr.
Defined.
