(* ===== verification/RowDecoding.v ===== *)
(** * Rows as JSON (src/src/database/json_rows.rs)

    Which decoder reads which column of a result, in what order they are tried, and the
    objects the rows become. The drivers, what they decode a column as and what serde
    makes of it are the class [Driver]; the decoder of PostgreSQL's binary values is
    [PgBinary]. All three drivers are compiled in. *)

From S2P Require Import Prelude Dialect Utf8 PgBinary.
Local Open Scope tide_scope.

(** The Rust types a column is read as. *)
Inductive RustType :=
  | Tbool | Ti8 | Ti16 | Ti32 | Ti64 | Tu8 | Tu16 | Tu32 | Tu64 | Tf32 | Tf64
  | TDecimal | TUuid | TJson | TNaiveDate | TNaiveTime | TNaiveDateTime
  | TFixedDateTime | TUtcDateTime | TString | TBytes | TVec (element : RustType).

(** A [ColumnType] of the models. *)
Inductive ColumnType :=
  | CBoolean | CTinyInteger | CSmallInteger | CInteger | CBigInteger
  | CTinyUnsigned | CSmallUnsigned | CUnsigned | CBigUnsigned | CFloat | CDouble
  | CDecimal | CMoney | CChar | CString | CText | CUuid | CJson | CJsonBinary
  | CDate | CTime | CDateTime | CTimestamp | CTimestampWithTimeZone
  | CBinary | CVarBinary | CBlob | COther.

Inductive StorageClass := SNull | SInteger | SReal | SText | SOther.

(** A [MySqlTime], a signed duration. *)
Record MySqlTime := {
  negative_time : bool; hours : N; minutes : N; seconds : N; microseconds : N;
}.

(** A PostgreSQL value as it came: its bytes, whether in binary form, its type. *)
Record PgRaw := { raw_null : bool; raw_binary : bool; raw_bytes : list N; raw_type : str }.

Class Driver `{Decoders} := {
  Row : Type;
  RustValue : Type;
  backend : Row → Backend;
  column_names : Row → list str;
  type_names : Row → list str;
  try_get : RustType → Row → nat → result (option RustValue) unit;
  to_value : RustValue → option Value;
  as_f64 : RustValue → Z;
  vec_f64 : RustValue → list Z;
  text_of : RustValue → str;
  f64_display : Z → str;
  decimal_of_text : str → option RustValue;
  decimal_of_int : RustValue → RustValue;
  pg_raw : Row → nat → option PgRaw;
  mysql_type : Row → nat → option str;
  mysql_text : Row → nat → option str;
  mysql_time : Row → nat → result (option MySqlTime) unit;
  storage_class : Row → nat → option StorageClass;
  json_from_text : str → option Document;
  is_container : Document → bool;
}.

Definition or_else {A} (o : option A) (f : option A) : option A := match o with Some _ => o | None => f end.

Section Rows.
Context `{Driver}.
Implicit Types (row : Row) (index : nat).

(** ** One type *)

Definition option_to_json (v : option RustValue) : option Value :=
  match v with Some v => to_value v | None => Some Null end.

Definition try_get_json (T : RustType) row index : option Value :=
  match try_get T row index with Ok v => option_to_json v | Err _ => None end.

Definition try_get_float_json (T : RustType) row index : option Value :=
  match try_get T row index with
  | Ok (Some v) => Some (f64_to_json (as_f64 v))
  | Ok None => Some Null
  | Err _ => None
  end.

(** [binary_bytes]. *)
Definition binary_bytes row index : option (list N) :=
  raw ← pg_raw row index;
  if raw_null raw || negb (raw_binary raw) then None else Some (raw_bytes raw).

Definition to_ascii_uppercase (s : str) : str :=
  (λ c, if (97 <=? c)%N && (c <=? 122)%N then (c - 32)%N else c) <$> s.

Definition undecoded_value row index : option Value :=
  match backend row with
  | BPostgres =>
      raw ← pg_raw row index;
      if raw_null raw then None
      else if raw_binary raw then binary_or_text (to_ascii_uppercase (raw_type raw)) (raw_bytes raw)
      else from_utf8 (raw_bytes raw) ≫= printable_text
  | BMySql =>
      type_name ← mysql_type row index;
      if str_eqb type_name (lit "DECIMAL") then String <$> mysql_text row index else None
  | BSqlite => None
  end.

(** The typed decoders in the order the fallback tries them. *)
Definition fallback_types : list RustType :=
  [TJson; TUuid; TDecimal; Ti64; Tu64; Tf64; Tbool; TFixedDateTime; TUtcDateTime; TNaiveDateTime;
   TNaiveDate; TNaiveTime; TString; TBytes].

Definition fallback_try_get_json row index : option Value :=
  foldr (λ T rest, or_else (try_get_json T row index) rest) (undecoded_value row index) fallback_types.

Definition typed_or_fallback (T : RustType) row index : option Value :=
  or_else (try_get_json T row index) (fallback_try_get_json row index).

Definition float_or_fallback (T : RustType) row index : option Value :=
  or_else (try_get_float_json T row index) (fallback_try_get_json row index).

Definition float_array_or_fallback (T : RustType) row index : option Value :=
  match try_get (TVec T) row index with
  | Ok (Some v) => Some (Array (f64_to_json <$> vec_f64 v))
  | Ok None => Some Null
  | Err _ => fallback_try_get_json row index
  end.

(** A value read as [T], when the column has one. *)
Definition got (T : RustType) row index : option RustValue :=
  match try_get T row index with Ok v => v | Err _ => None end.

Definition try_get_decimal_json row index : option Value :=
  or_else (try_get_json TDecimal row index)
    match got TString row index with
    | Some v => or_else (d ← decimal_of_text (text_of v); to_value d) (Some (String (text_of v)))
    | None =>
        match or_else (got Ti64 row index) (got Tu64 row index) with
        | Some v => or_else (to_value (decimal_of_int v)) (to_value v)
        | None =>
            match got Tf64 row index with
            | Some v => Some (default (f64_to_json (as_f64 v))
                               (d ← decimal_of_text (f64_display (as_f64 v)); to_value d))
            | None => None
            end
        end
    end.

Definition decimal_or_fallback row index : option Value :=
  or_else (try_get_decimal_json row index) (fallback_try_get_json row index).

(** ** By the declared type *)

Definition mysql_time_text (time : MySqlTime) : str :=
  (if negative_time time then lit "-" else []) ++ pad 2 (show_N (hours time)) ++ lit ":"
  ++ pad 2 (show_N (minutes time)) ++ lit ":" ++ pad 2 (show_N (seconds time))
  ++ (let micros := microseconds time in
      if (micros =? 0)%N then []
      else if (micros mod 1000 =? 0)%N then lit "." ++ pad 3 (show_N (micros / 1000))
      else lit "." ++ pad 6 (show_N micros)).

Definition mysql_time_json row index : option Value :=
  match backend row with
  | BMySql =>
      match mysql_time row index with
      | Ok (Some time) => Some (String (mysql_time_text time))
      | Ok None => Some Null
      | Err _ => None
      end
  | _ => None
  end.

(** The decoder of the first entry that names the type. *)
Fixpoint by_type (type_name : str) (entries : list (list str * option Value)) (other : option Value) : option Value :=
  match entries with
  | [] => other
  | (names, value) :: entries => if named type_name names then value else by_type type_name entries other
  end.

Definition postgres_column_to_json row index (type_name : str) : option Value :=
  by_type type_name [
    ([lit "BOOL"], typed_or_fallback Tbool row index);
    ([lit "INT2"], typed_or_fallback Ti16 row index);
    ([lit "INT4"], typed_or_fallback Ti32 row index);
    ([lit "INT8"], typed_or_fallback Ti64 row index);
    ([lit "FLOAT4"], float_or_fallback Tf32 row index);
    ([lit "FLOAT8"], float_or_fallback Tf64 row index);
    ([lit "NUMERIC"], decimal_or_fallback row index);
    ([lit "UUID"], typed_or_fallback TUuid row index);
    ([lit "JSON"; lit "JSONB"], typed_or_fallback TJson row index);
    ([lit "DATE"], typed_or_fallback TNaiveDate row index);
    ([lit "TIME"], typed_or_fallback TNaiveTime row index);
    ([lit "TIMESTAMP"], typed_or_fallback TNaiveDateTime row index);
    ([lit "TIMESTAMPTZ"], typed_or_fallback TFixedDateTime row index);
    ([lit "TEXT"; lit "VARCHAR"; lit "CHAR"; lit "NAME"; lit "CITEXT"; lit "UNKNOWN"], typed_or_fallback TString row index);
    ([lit "BYTEA"], typed_or_fallback TBytes row index);
    ([lit "BOOL[]"], typed_or_fallback (TVec Tbool) row index);
    ([lit "INT2[]"], typed_or_fallback (TVec Ti16) row index);
    ([lit "INT4[]"], typed_or_fallback (TVec Ti32) row index);
    ([lit "INT8[]"], typed_or_fallback (TVec Ti64) row index);
    ([lit "FLOAT4[]"], float_array_or_fallback Tf32 row index);
    ([lit "FLOAT8[]"], float_array_or_fallback Tf64 row index);
    ([lit "NUMERIC[]"], typed_or_fallback (TVec TDecimal) row index);
    ([lit "UUID[]"], typed_or_fallback (TVec TUuid) row index);
    ([lit "JSON[]"; lit "JSONB[]"], typed_or_fallback (TVec TJson) row index);
    ([lit "TEXT[]"; lit "VARCHAR[]"; lit "CHAR[]"; lit "NAME[]"], typed_or_fallback (TVec TString) row index)
  ] (fallback_try_get_json row index).

Definition mysql_column_to_json row index (type_name : str) : option Value :=
  by_type type_name [
    ([lit "BOOLEAN"; lit "BOOL"], typed_or_fallback Tbool row index);
    ([lit "TINYINT"], typed_or_fallback Ti8 row index);
    ([lit "SMALLINT"], typed_or_fallback Ti16 row index);
    ([lit "INT"; lit "INTEGER"; lit "MEDIUMINT"], typed_or_fallback Ti32 row index);
    ([lit "BIGINT"], typed_or_fallback Ti64 row index);
    ([lit "TINYINT UNSIGNED"], typed_or_fallback Tu8 row index);
    ([lit "SMALLINT UNSIGNED"], typed_or_fallback Tu16 row index);
    ([lit "INT UNSIGNED"; lit "MEDIUMINT UNSIGNED"], typed_or_fallback Tu32 row index);
    ([lit "BIGINT UNSIGNED"], typed_or_fallback Tu64 row index);
    ([lit "FLOAT"], float_or_fallback Tf32 row index);
    ([lit "DOUBLE"], float_or_fallback Tf64 row index);
    ([lit "DECIMAL"; lit "NUMERIC"], decimal_or_fallback row index);
    ([lit "JSON"], typed_or_fallback TJson row index);
    ([lit "DATE"], typed_or_fallback TNaiveDate row index);
    ([lit "TIME"], or_else (mysql_time_json row index) (fallback_try_get_json row index));
    ([lit "DATETIME"; lit "TIMESTAMP"], typed_or_fallback TNaiveDateTime row index);
    ([lit "CHAR"; lit "VARCHAR"; lit "TINYTEXT"; lit "TEXT"; lit "MEDIUMTEXT"; lit "LONGTEXT"; lit "ENUM"; lit "SET"],
     typed_or_fallback TString row index);
    ([lit "BINARY"], or_else (try_get_json TString row index)
                       (or_else (try_get_json TUuid row index) (typed_or_fallback TBytes row index)));
    ([lit "VARBINARY"; lit "TINYBLOB"; lit "BLOB"; lit "MEDIUMBLOB"; lit "LONGBLOB"],
     or_else (try_get_json TString row index) (typed_or_fallback TBytes row index))
  ] (fallback_try_get_json row index).

Definition sqlite_value_to_json row index (documents : bool) : option Value :=
  match storage_class row index with
  | Some SNull => Some Null
  | Some SInteger => typed_or_fallback Ti64 row index
  | Some SReal => float_or_fallback Tf64 row index
  | Some SText =>
      match try_get TString row index with
      | Ok (Some v) =>
          let document := if documents then json_from_text (text_of v) else None in
          match document with
          | Some d => if is_container d then Some (Parsed d) else Some (String (text_of v))
          | None => Some (String (text_of v))
          end
      | _ => fallback_try_get_json row index
      end
  | _ => fallback_try_get_json row index
  end.

Definition sqlite_column_to_json row index (type_name : str) : option Value :=
  by_type type_name [
    ([lit "BOOLEAN"; lit "BOOL"], typed_or_fallback Tbool row index);
    ([lit "INTEGER"; lit "INT"], typed_or_fallback Ti64 row index);
    ([lit "REAL"; lit "FLOAT"; lit "DOUBLE"], float_or_fallback Tf64 row index);
    ([lit "NUMERIC"; lit "DECIMAL"], decimal_or_fallback row index);
    ([lit "JSON"], sqlite_value_to_json row index true);
    ([lit "DATE"], typed_or_fallback TNaiveDate row index);
    ([lit "TIME"], typed_or_fallback TNaiveTime row index);
    ([lit "DATETIME"; lit "TIMESTAMP"], typed_or_fallback TNaiveDateTime row index);
    ([lit "TEXT"], typed_or_fallback TString row index);
    ([lit "BLOB"], typed_or_fallback TBytes row index)
  ] (sqlite_value_to_json row index false).

(** By the model's type of the column. *)
Definition model_column_to_json row index (column_type : ColumnType) : option Value :=
  match column_type with
  | CBoolean => try_get_json Tbool row index
  | CTinyInteger => try_get_json Ti8 row index
  | CSmallInteger => try_get_json Ti16 row index
  | CInteger => try_get_json Ti32 row index
  | CBigInteger => try_get_json Ti64 row index
  | CTinyUnsigned => try_get_json Tu8 row index
  | CSmallUnsigned => try_get_json Tu16 row index
  | CUnsigned => try_get_json Tu32 row index
  | CBigUnsigned => try_get_json Tu64 row index
  | CFloat => try_get_float_json Tf32 row index
  | CDouble => try_get_float_json Tf64 row index
  | CDecimal | CMoney => try_get_json TDecimal row index
  | CChar | CString | CText => try_get_json TString row index
  | CUuid => try_get_json TUuid row index
  | CJson | CJsonBinary => try_get_json TJson row index
  | CDate => try_get_json TNaiveDate row index
  | CTime =>
      match backend row with BMySql => mysql_time_json row index | _ => try_get_json TNaiveTime row index end
  | CDateTime | CTimestamp => try_get_json TNaiveDateTime row index
  | CTimestampWithTimeZone => try_get_json TUtcDateTime row index
  | CBinary | CVarBinary | CBlob => try_get_json TBytes row index
  | COther => None
  end.

Definition postgres_special_moment row index (declared_type : str) : option Value :=
  if negb (is_moment_type declared_type) then None
  else
    match backend row with
    | BPostgres =>
        bytes ← binary_bytes row index;
        if unreadable_moment declared_type bytes then binary_json declared_type bytes else None
    | _ => None
    end.

(** ** Results *)

Record ColumnPlan := { name : str; model_type : option ColumnType; declared_type : str }.

Definition decoder row index (type_name : str) : option Value :=
  match backend row with
  | BPostgres => postgres_column_to_json row index type_name
  | BMySql => mysql_column_to_json row index type_name
  | BSqlite => sqlite_column_to_json row index type_name
  end.

(** [sqlx_column_plan]. *)
Definition sqlx_column_plan row (lookup : str → option ColumnType) : list ColumnPlan :=
  (λ '(name, type_name),
     {| name := name; model_type := lookup name; declared_type := to_ascii_uppercase type_name |})
  <$> zip (column_names row) (type_names row).

(** A column without a declared type that holds documents is decoded as JSON. *)
Definition mark_document (column : ColumnPlan) (document : bool) : ColumnPlan :=
  if document && str_eqb (declared_type column) (lit "NULL")
  then {| name := name column; model_type := model_type column; declared_type := lit "JSON" |} else column.

Fixpoint mark_documents (plan : list ColumnPlan) (documents : list bool) : list ColumnPlan :=
  match plan, documents with
  | column :: plan, document :: documents => mark_document column document :: mark_documents plan documents
  | plan, _ => plan
  end.

Definition column_plan row (lookup : str → option ColumnType) (documents : list bool) : list ColumnPlan :=
  let plan := sqlx_column_plan row lookup in
  match backend row with BSqlite => mark_documents plan documents | _ => plan end.

(** What a column of a row reads as. *)
Definition column_json row index (column : ColumnPlan) : option Value :=
  or_else (postgres_special_moment row index (declared_type column))
    (or_else (model_type column ≫= model_column_to_json row index)
       (decoder row index (declared_type column))).

Definition unreadable_column (column : ColumnPlan) : str :=
  lit "column '" ++ name column ++ lit "'"
  ++ (match declared_type column with [] => [] | declared => lit " of type " ++ declared end)
  ++ lit " holds a value TideORM cannot read as JSON".

(** The entries of a row's object, in column order, as they are inserted. *)
Fixpoint row_entries row (columns : list (nat * ColumnPlan)) : result (list (str * Value)) str :=
  match columns with
  | [] => Ok []
  | (index, column) :: columns =>
      match column_json row index column with
      | Some value => rbind (row_entries row columns) (λ entries, Ok ((name column, value) :: entries))
      | None => Err (unreadable_column column)
      end
  end.

Fixpoint rows_entries (rows : list Row) (plan : list ColumnPlan) : result (list (list (str * Value))) str :=
  match rows with
  | [] => Ok []
  | row :: rows =>
      rbind (row_entries row (enumerate 0 plan)) (λ object,
      rbind (rows_entries rows plan) (λ objects, Ok (object :: objects)))
  end.

Definition query_rows_to_json (rows : list Row) (lookup : str → option ColumnType) (documents : list bool)
    : result (list (list (str * Value))) str :=
  match rows with
  | [] => Ok []
  | first :: _ => rows_entries rows (column_plan first lookup documents)
  end.
End Rows.

(** ** Nulls and errors *)

(** What the drivers and serde promise: an optional value is missing only for a SQL
    NULL, and the JSON of a value is null only for a JSON null and for a float that is
    not finite; a text's JSON is the text. *)
Class DriverLaws `{Driver} := {
  sql_null : Row → nat → bool;
  json_null : Row → nat → bool;
  missing_is_null : ∀ T row index, try_get T row index = Ok None → sql_null row index = true;
  missing_time_is_null : ∀ row index, mysql_time row index = Ok None → sql_null row index = true;
  null_storage : ∀ row index, storage_class row index = Some SNull → sql_null row index = true;
  null_values : ∀ T row index v, try_get T row index = Ok (Some v) → to_value v = Some Null →
    T = TJson ∧ json_null row index = true ∨ T = Tf64 ∧ f64_to_json (as_f64 v) ≠ Float (as_f64 v);
  decimals_not_null : ∀ text v, decimal_of_text text = Some v → to_value v ≠ Some Null;
  int_decimals_not_null : ∀ v, to_value (decimal_of_int v) ≠ Some Null;
  texts_are_texts : ∀ row index v, try_get TString row index = Ok (Some v) → to_value v = Some (String (text_of v));
}.

Section Nulls.
Context `{DriverLaws}.

(** A float that is not finite, read where only the fallback's plain conversion is
    left: every decoder before it refused the value. *)
Definition lost_float (row : Row) (index : nat) : Prop :=
  ∃ v, try_get Tf64 row index = Ok (Some v) ∧ f64_to_json (as_f64 v) ≠ Float (as_f64 v)
       ∧ Forall (λ T, try_get_json T row index = None) [TJson; TUuid; TDecimal; Ti64; Tu64].

Definition null_ok (row : Row) (index : nat) : Prop :=
  sql_null row index = true ∨ json_null row index = true ∨ lost_float row index.

Definition sound (row : Row) (index : nat) (o : option Value) : Prop := o = Some Null → null_ok row index.

Lemma sound_or_else row index o f : sound row index o → sound row index f → sound row index (or_else o f).
Proof. destruct o; cbn; auto. Qed.

Lemma f64_to_json_not_null bits : f64_to_json bits ≠ Null.
Proof. unfold f64_to_json. by repeat case_match. Qed.

Lemma sound_typed T row index : T ≠ Tf64 → sound row index (try_get_json T row index).
Proof.
  intros HT. unfold sound, try_get_json, option_to_json. destruct (try_get T row index) as [[v|]|] eqn:E; [| |done].
  - intros Hv. destruct (null_values T row index v E Hv) as [[_ Hj]|[-> _]]; [|done]. right. by left.
  - intros _. left. by eapply missing_is_null.
Qed.

Lemma sound_float T row index : sound row index (try_get_float_json T row index).
Proof.
  unfold sound, try_get_float_json. destruct (try_get T row index) as [[v|]|] eqn:E; [| |done].
  - intros [= Hv]. by destruct (f64_to_json_not_null (as_f64 v)).
  - intros _. left. by eapply missing_is_null.
Qed.

(** The binary decoder writes no null of its own. *)
Lemma not_null_fmap {A} (f : A → Value) (o : option A) : (∀ a, f a ≠ Null) → f <$> o ≠ Some Null.
Proof. intros Hf. destruct o as [a|]; [|done]. cbn. intros [= Ha]. by destruct (Hf a). Qed.

Lemma moment_json_not_null {T} (json : T → option Document) o : (m ← o; moment_json json m) ≠ Some Null.
Proof. destruct o as [[t|w]|]; cbn; [|done|done]. by destruct (json t). Qed.

Lemma scalar_json_not_null type_name bytes : scalar_json type_name bytes ≠ Some Null.
Proof.
  unfold scalar_json. cbv zeta.
  repeat match goal with |- context [if ?c then _ else _] => destruct c end;
    try apply not_null_fmap; try apply moment_json_not_null; try done.
  all: try (intros ?; apply f64_to_json_not_null).
  - by destruct bytes as [|b ?]; [|destruct (b =? 1)%N; [apply not_null_fmap|]].
  - destruct (fixed 8 bytes) as [b|]; [|done]. cbn. unfold time_json. destruct (_ =? midnight)%Z; [done|].
    destruct (_ && _); [by apply not_null_fmap|done].
  - destruct (fixed 8 bytes) as [b|]; [|done]. cbn. by apply not_null_fmap.
Qed.

Lemma array_json_not_null bytes element : array_json bytes element ≠ Some Null.
Proof.
  unfold array_json.
  do 3 (match goal with |- context [take_i32 ?b] => destruct (take_i32 b) as [[? ?]|]; [cbn [mbind option_bind]|done] end).
  destruct (read_lengths _ _) as [[lengths rest]|]; [cbn [mbind option_bind]|done].
  destruct lengths as [|len lengths]; [by destruct rest|].
  destruct (count_of _ _) as [count|]; [cbn [mbind option_bind]|done].
  destruct (read_elements _ _ _) as [[elements tail_]|]; [cbn [mbind option_bind]|done].
  destruct tail_; [|done]. cbn [nest]. by destruct (repeated _ _ _) as [[vs|] ?].
Qed.

Lemma binary_json_not_null type_name bytes : binary_json type_name bytes ≠ Some Null.
Proof.
  unfold binary_json. destruct (length type_name) as [|fuel]; cbn [binary_json_fuel];
    destruct (strip_array type_name); try apply scalar_json_not_null; [done|apply array_json_not_null].
Qed.

Lemma printable_not_null s : printable_text s ≠ Some Null.
Proof. unfold printable_text. by destruct (forallb _ _). Qed.

Lemma binary_or_text_not_null type_name bytes : binary_or_text type_name bytes ≠ Some Null.
Proof.
  unfold binary_or_text. destruct (binary_json type_name bytes) as [v|] eqn:E.
  - rewrite <- E. apply binary_json_not_null.
  - destruct (from_utf8 bytes); cbn; [apply printable_not_null|done].
Qed.

Lemma undecoded_not_null row index : undecoded_value row index ≠ Some Null.
Proof.
  unfold undecoded_value. destruct (backend row); [| |done].
  - destruct (pg_raw row index) as [raw|]; [|done]. cbn. destruct (raw_null raw); [done|].
    destruct (raw_binary raw); [apply binary_or_text_not_null|].
    destruct (from_utf8 _); cbn; [apply printable_not_null|done].
  - destruct (mysql_type row index) as [name_|]; [|done]. cbn. destruct (str_eqb _ _); [|done]. by apply not_null_fmap.
Qed.

Lemma sound_fallback row index : sound row index (fallback_try_get_json row index).
Proof.
  unfold fallback_try_get_json, fallback_types. cbn [foldr].
  do 5 (match goal with |- sound _ _ (or_else (try_get_json ?T _ _) _) =>
    let E := fresh "E" in
    destruct (try_get_json T row index) as [?v|] eqn:E;
      [cbn [or_else]; rewrite <- E; by apply sound_typed|cbn [or_else]] end).
  apply sound_or_else.
  - unfold sound, try_get_json, option_to_json. destruct (try_get Tf64 row index) as [[v|]|] eqn:Ef; [| |done].
    + intros Hv. destruct (null_values Tf64 row index v Ef Hv) as [[? _]|[_ Hf]]; [done|].
      do 2 right. exists v. split_and!; [done|done|by repeat constructor].
    + intros _. left. by eapply missing_is_null.
  - do 8 (apply sound_or_else; [by apply sound_typed|]). intros Hu. by destruct (undecoded_not_null row index).
Qed.

Hint Resolve sound_or_else sound_typed sound_float sound_fallback : core.
Hint Extern 1 (_ ≠ Tf64) => discriminate : core.

Lemma sound_typed_or_fallback T row index : T ≠ Tf64 → sound row index (typed_or_fallback T row index).
Proof. intros HT. unfold typed_or_fallback. auto. Qed.

Lemma sound_float_or_fallback T row index : sound row index (float_or_fallback T row index).
Proof. unfold float_or_fallback. auto. Qed.

Lemma sound_float_array T row index : sound row index (float_array_or_fallback T row index).
Proof.
  unfold float_array_or_fallback. destruct (try_get (TVec T) row index) as [[v|]|] eqn:E; [done| |auto].
  intros _. left. by eapply missing_is_null.
Qed.

Lemma sound_decimal row index : sound row index (decimal_or_fallback row index).
Proof.
  unfold decimal_or_fallback, try_get_decimal_json. apply sound_or_else; [|auto]. apply sound_or_else; [by apply sound_typed|].
  intros Hnull. exfalso. revert Hnull.
  assert (∀ T v, got T row index = Some v → T ≠ TJson → T ≠ Tf64 → to_value v ≠ Some Null) as Hgot.
  { intros T v Hv HJ Hf Hn. unfold got in Hv. destruct (try_get T row index) as [[w|]|] eqn:E; [|done|done].
    injection Hv as ->. by destruct (null_values T row index v E Hn) as [[? _]|[? _]]. }
  destruct (got TString row index) as [v|].
  { destruct (decimal_of_text (text_of v)) as [d|] eqn:Ed; cbn; [|done].
    pose proof (decimals_not_null _ _ Ed). by destruct (to_value d). }
  destruct (or_else (got Ti64 row index) (got Tu64 row index)) as [v|] eqn:Ev.
  { assert (to_value v ≠ Some Null) as Hv.
    { destruct (got Ti64 row index) as [w|] eqn:E64; cbn in Ev.
      - injection Ev as ->. by apply (Hgot Ti64).
      - by apply (Hgot Tu64). }
    pose proof (int_decimals_not_null v). by destruct (to_value (decimal_of_int v)). }
  destruct (got Tf64 row index) as [v|]; [|done]. intros [= Hv]. revert Hv.
  destruct (decimal_of_text _) as [d|] eqn:Ed; cbn; [|apply f64_to_json_not_null].
  pose proof (decimals_not_null _ _ Ed). destruct (to_value d); cbn; [congruence|apply f64_to_json_not_null].
Qed.

Lemma sound_mysql_time row index : sound row index (mysql_time_json row index).
Proof.
  unfold mysql_time_json. destruct (backend row); [done| |done].
  destruct (mysql_time row index) as [[time|]|] eqn:E; [done| |done].
  intros _. left. by eapply missing_time_is_null.
Qed.

Lemma sound_sqlite_value row index documents : sound row index (sqlite_value_to_json row index documents).
Proof.
  unfold sqlite_value_to_json. destruct (storage_class row index) as [[]|] eqn:E.
  - intros _. left. by apply null_storage.
  - by apply sound_typed_or_fallback.
  - apply sound_float_or_fallback.
  - destruct (try_get TString row index) as [[v|]|]; [|auto..].
    destruct (if documents then _ else _) as [d|]; [by destruct (is_container d)|done].
  - auto.
  - auto.
Qed.

Hint Resolve sound_typed_or_fallback sound_float_or_fallback sound_float_array sound_decimal sound_mysql_time
  sound_sqlite_value : core.

Lemma sound_by_type row index type_name entries other :
  Forall (λ e, sound row index e.2) entries → sound row index other →
  sound row index (by_type type_name entries other).
Proof.
  intros He Ho. induction He as [|[names v] entries Hv _ IH]; [done|]. cbn. by destruct (named _ _).
Qed.

Lemma sound_decoder row index type_name : sound row index (decoder row index type_name).
Proof.
  unfold decoder. destruct (backend row); apply sound_by_type; auto;
    repeat (apply List.Forall_cons; [cbn; auto 6|]); apply List.Forall_nil.
Qed.

Lemma sound_model row index column_type : sound row index (model_column_to_json row index column_type).
Proof.
  destruct column_type; cbn; auto; [destruct (backend row); auto|done].
Qed.

Lemma sound_column row index column : sound row index (column_json row index column).
Proof.
  unfold column_json. repeat apply sound_or_else.
  - intros Hnull. exfalso. revert Hnull. unfold postgres_special_moment. destruct (is_moment_type _); [cbn|done].
    destruct (backend row); [|done..]. destruct (binary_bytes row index); [cbn|done].
    destruct (unreadable_moment _ _); [apply binary_json_not_null|done].
  - destruct (model_type column); [apply sound_model|done].
  - apply sound_decoder.
Qed.

Lemma row_entries_spec row off columns :
  match row_entries row (enumerate off columns) with
  | Ok entries => entries.*1 = name <$> columns ∧
      ∀ index column, columns !! index = Some column → entries.*2 !! index = column_json row (off + index) column
  | Err message => ∃ index column, columns !! index = Some column ∧ column_json row (off + index) column = None
      ∧ message = unreadable_column column
      ∧ ∀ j column, j < index → columns !! j = Some column → is_Some (column_json row (off + j) column)
  end.
Proof.
  revert off. induction columns as [|column columns IH]; intros off; cbn [enumerate row_entries].
  { split; [done|]. intros index column. by rewrite lookup_nil. }
  destruct (column_json row off column) as [value|] eqn:E.
  - specialize (IH (S off)). destruct (row_entries row (enumerate (S off) columns)) as [entries|message]; cbn [rbind].
    + destruct IH as [Hn Hv]. split; [by rewrite !fmap_cons, Hn|]. intros [|index] c; cbn.
      * intros [= ->]. by rewrite Nat.add_0_r.
      * intros Hc. change (entries.*2 !! index = column_json row (off + S index) c). rewrite (Hv _ _ Hc). f_equal. lia.
    + destruct IH as (index & c & Hc & Hnone & Hm & Hbefore). exists (S index), c. split_and!; [done| |done|].
      * rewrite <- Hnone. f_equal. lia.
      * intros [|j] d Hj Hd; cbn in Hd.
        -- injection Hd as ->. rewrite Nat.add_0_r. by eexists.
        -- replace (off + S j) with (S off + j) by lia. apply Hbefore; [lia|done].
  - exists 0, column. rewrite Nat.add_0_r. split_and!; [done|done|done|]. intros j d Hj. lia.
Qed.


(** The text a text column holds is its value, whatever it looks like. *)
Theorem text_columns_come_back_verbatim row index type_name v :
  try_get TString row index = Ok (Some v) →
  named type_name
    match backend row with
    | BPostgres => [lit "TEXT"; lit "VARCHAR"; lit "CHAR"; lit "NAME"; lit "CITEXT"; lit "UNKNOWN"]
    | BMySql => [lit "CHAR"; lit "VARCHAR"; lit "TINYTEXT"; lit "TEXT"; lit "MEDIUMTEXT"; lit "LONGTEXT";
                 lit "ENUM"; lit "SET"; lit "BINARY"; lit "VARBINARY"; lit "TINYBLOB"; lit "BLOB";
                 lit "MEDIUMBLOB"; lit "LONGBLOB"]
    | BSqlite => [lit "TEXT"]
    end = true →
  decoder row index type_name = Some (String (text_of v)).
Proof.
  intros Hv Hnamed. assert (try_get_json TString row index = Some (String (text_of v))) as Hs.
  { unfold try_get_json. rewrite Hv. cbn. by eapply texts_are_texts. }
  unfold decoder. destruct (backend row); unfold named in Hnamed; cbn [existsb] in Hnamed;
    rewrite ?orb_true_iff, !str_eqb_true in Hnamed;
    repeat (destruct Hnamed as [->|Hnamed]); try done.
  all: cbv -[try_get_json fallback_try_get_json]; by rewrite Hs.
Qed.
End Nulls.

(** ** A driver

    A SQLite row of one column declared INTEGER, which holds nothing, a float or a
    text. *)
#[local] Instance demo_decoders : Decoders := {|
  Document := str; json_from_slice := from_utf8; decimal_json := λ _ _, None; uuid_text := id;
  NaiveDate := Z; epoch_plus_days := Some; year := id; month := id; day := id; date_json := λ _, None;
  NaiveDateTime := Z; epoch_plus_micros := Some; date_of := id; seconds_from_midnight := id; nanosecond := id;
  timestamp_json := λ _, None; utc_json := λ _, None; time_of_day_json := λ _ _, None |}.

#[local] Instance demo_driver : Driver := {|
  Row := option (Z + str); RustValue := Z + str; backend := λ _, BSqlite;
  column_names := λ _, [lit "n"]; type_names := λ _, [lit "INTEGER"];
  try_get := λ T row _,
    match row, T with
    | None, _ => Ok None
    | Some (inl bits), Tf64 => Ok (Some (inl bits))
    | Some (inr s), TString => Ok (Some (inr s))
    | _, _ => Err tt
    end;
  to_value := λ v,
    match v with
    | inl bits => Some (match f64_to_json bits with Float bits => Float bits | _ => Null end)
    | inr s => Some (String s)
    end;
  as_f64 := λ v, match v with inl bits => bits | inr _ => 0%Z end; vec_f64 := λ _, [];
  text_of := λ v, match v with inl _ => [] | inr s => s end;
  f64_display := λ _, []; decimal_of_text := λ _, None; decimal_of_int := λ _, inr (lit "0");
  pg_raw := λ _ _, None; mysql_type := λ _ _, None; mysql_text := λ _ _, None; mysql_time := λ _ _, Err tt;
  storage_class := λ row _, Some match row with None => SNull | Some (inl _) => SReal | Some (inr _) => SText end;
  json_from_text := λ _, None; is_container := λ _, false |}.

#[local] Instance demo_laws : DriverLaws.
Proof.
  refine {| sql_null := λ (row : @Row _ demo_driver) _, match row with None => true | Some _ => false end;
            json_null := λ _ _, false |}; try done.
  - by intros [] [[]|] index.
  - by intros [[]|] index.
  - intros T [[bits|s]|] index v; cbn; [|by destruct T; try done; intros [= <-]|done].
    destruct T; try done. intros [= <-]. cbn. intros Hnull. right. split; [done|]. intros Hf. by rewrite Hf in Hnull.
  - intros [[bits|s]|] index v; cbn; [done| |done]. by intros [= <-].
Defined.


(** An infinity in an INTEGER column, which SQLite keeps as it is, comes back as null
    although the column is not: no decoder before the fallback's plain float reads it,
    and serde writes a float that is not finite as null. *)
Example infinities_read_as_null :
  let infinite : @Row _ demo_driver := Some (inl (Z.shiftl 2047 52)) in
  query_rows_to_json [infinite] (λ _, None) [] = Ok [[(lit "n", Null)]] ∧ sql_null infinite 0 = false
  ∧ f64_to_json (Z.shiftl 2047 52) = String (lit "inf").
Proof. by split_and!. Qed.
