(* ===== verification/SqliteOutputs.v ===== *)
(** * Which columns of a SQLite result are documents (src/src/database/json_rows/sqlite_outputs.rs)

    The statement is read lexically for select items that are JSON function calls, with
    the CTEs, derived tables and views they may come from. A slice out of range is
    [None], the panic, and so is running out of fuel: the fuel of a query is one more
    than its tokens, of which every part read on its own has fewer. *)

From S2P Require Import Prelude Dialect SqlLexer.
Local Open Scope tide_scope.

Record Output := mkOutput { name : str; document : bool; wildcard : bool; unresolved : bool }.

#[export] Instance Output_eq_dec : EqDecision Output.
Proof. solve_decision. Defined.

Definition known (name : str) (document : bool) : Output := mkOutput name document false false.
Definition unknown_wildcard : Output := mkOutput [] false true true.

(** Columns known to come from one source, under its local name. *)
Definition Source : Type := str * list Output.

Record CatalogObject := { schema : str; object_name : str; sql : option str }.

Record ViewSource := { object : CatalogObject; outputs : list Output }.

Record Views := { sources : list ViewSource; view_schema : option str }.

Definition lookup_view (views : Views) (schema_ : option str) (name_ : str) : option (list Output) :=
  let schema_ := match schema_ with Some s => Some s | None => view_schema views end in
  outputs <$> List.find (λ source,
    eq_ignore_ascii_case (object_name (object source)) name_
    && match schema_ with Some s => eq_ignore_ascii_case (schema (object source)) s | None => true end)
    (sources views).

Section Outputs.
Context `{Unicode}.

(** ** Tokens *)

Definition is_word (tokens : list Token) (at_ : nat) (words : list str) : bool :=
  match tokens !! at_ with Some t => SqlLexer.is_word t words | None => false end.

Definition is_symbol (tokens : list Token) (at_ : nat) (symbols : list str) : bool :=
  match tokens !! at_ with Some t => SqlLexer.is_symbol t symbols | None => false end.

Definition unquoted_name (t : Token) : str := default [] (unquoted t).

Definition b2n (b : bool) : nat := if b then 1 else 0.

Fixpoint closing_loop (rest : list Token) (at_ depth : nat) : option nat :=
  match rest with
  | [] => None
  | t :: rest =>
      if negb (bool_decide (kind t = Symbol)) then closing_loop rest (S at_) depth
      else if str_eqb (text t) (lit "(") then closing_loop rest (S at_) (S depth)
      else if str_eqb (text t) (lit ")") then
        match depth with
        | O => None
        | S O => Some at_
        | S depth => closing_loop rest (S at_) depth
        end
      else closing_loop rest (S at_) depth
  end.

Definition closing_parenthesis (tokens : list Token) (open : nat) : option nat :=
  closing_loop (drop open tokens) open 0.

Definition ends_select_item (tokens : list Token) (at_ : nat) : bool :=
  (at_ =? length tokens)%nat || is_symbol tokens at_ [lit ","; lit ")"; lit ";"]
  || is_word tokens at_ [lit "from"; lit "where"; lit "group"; lit "having"; lit "window"; lit "order";
                         lit "limit"; lit "union"; lit "intersect"; lit "except"].

(** Indices outside parentheses, each opening one included; each step moves on. *)
Fixpoint top_level_fuel (fuel : nat) (tokens : list Token) (at_ : nat) : list nat :=
  match fuel, tokens !! at_ with
  | S fuel, Some _ =>
      at_ :: top_level_fuel fuel tokens
        (if is_symbol tokens at_ [lit "("]
         then match closing_parenthesis tokens at_ with Some close => S close | None => length tokens end
         else S at_)
  | _, _ => []
  end.
Definition top_level (tokens : list Token) : list nat := top_level_fuel (length tokens) tokens 0.

(** ** JSON expressions

    [Some None] is an expression that is none. *)

Definition is_kind (tokens : list Token) (at_ : nat) (kinds : list Kind) : bool :=
  match tokens !! at_ with Some t => existsb (λ k, bool_decide (kind t = k)) kinds | None => false end.

Definition is_digits (t : Token) : bool := bool_decide (kind t = Symbol) && forallb is_ascii_digit (text t).

Definition json_path_end (tokens : list Token) (at_ : nat) : option nat :=
  path ← tokens !! at_;
  let digits from := length (take_while is_digits (drop from tokens)) in
  match kind path with
  | Literal | Param => Some (at_ + 1)
  | _ =>
      if bool_decide (kind path = Symbol) && str_eqb (text path) (lit "?") then Some (at_ + 1 + digits (at_ + 1))
      else if is_digits path then Some (at_ + digits at_) else None
  end.

Definition document_functions : list str :=
  [lit "json"; lit "json_array"; lit "json_object"; lit "json_quote"; lit "json_group_array";
   lit "json_group_object"; lit "json_insert"; lit "json_replace"; lit "json_set"; lit "json_remove";
   lit "json_patch"; lit "json_pretty"].

(** The end of a call whose argument list closes at [close]: an aggregate's FILTER and
    the window it is over. *)
Definition call_end (tokens : list Token) (close : nat) : option nat :=
  let at_ := S close in
  at_ ← (if is_word tokens at_ [lit "filter"] && is_symbol tokens (at_ + 1) [lit "("]
         then S <$> closing_parenthesis tokens (at_ + 1) else Some at_);
  if is_word tokens at_ [lit "over"]
  then if is_symbol tokens (at_ + 1) [lit "("] then S <$> closing_parenthesis tokens (at_ + 1) else Some (at_ + 2)
  else Some at_.

Fixpoint reference_end (fuel : nat) (tokens : list Token) (at_ : nat) : nat :=
  match fuel with
  | O => at_
  | S fuel =>
      if is_symbol tokens at_ [lit "."] && is_kind tokens (at_ + 1) [Word; Identifier]
      then reference_end fuel tokens (at_ + 2) else at_
  end.

(** [->] paths read one after the other, from an operand that ends at [at_]. *)
Fixpoint arrows (fuel : nat) (tokens : list Token) (at_ : nat) (document : bool) : option (nat * bool) :=
  match fuel with
  | O => Some (at_, document)
  | S fuel =>
      if is_symbol tokens at_ [lit "-"] && is_symbol tokens (at_ + 1) [lit ">"]
         && negb (is_symbol tokens (at_ + 2) [lit ">"])
      then at_ ← json_path_end tokens (at_ + 2); arrows fuel tokens at_ true
      else Some (at_, document)
  end.

Definition json_operand (expression_end : list Token → option (option nat)) (tokens : list Token) (start_ : nat)
    : option (option (nat * bool)) :=
  match tokens !! start_ with
  | None => Some None
  | Some first =>
      if is_symbol tokens start_ [lit "("] then
        match closing_parenthesis tokens start_ with
        | None => Some None
        | Some close =>
            inner ← slice (start_ + 1) close tokens;
            end_ ← expression_end inner;
            Some (Some (S close, bool_decide (end_ = Some (length inner))))
        end
      else if bool_decide (kind first = Word) && is_symbol tokens (start_ + 1) [lit "("] then
        match closing_parenthesis tokens (start_ + 1) with
        | None => Some None
        | Some close =>
            arguments ← slice (start_ + 2) close tokens;
            let function := to_ascii_lowercase (text first) in
            let document :=
              existsb (str_eqb function) document_functions
              || str_eqb function (lit "json_extract")
                 && (2 <=? length (List.filter (λ at_, is_symbol arguments at_ [lit ","]) (top_level arguments)))%nat in
            Some ((λ at_, (at_, document)) <$> call_end tokens close)
        end
      else if is_kind tokens start_ [Literal; Param] then Some (Some (start_ + 1, false))
      else if is_kind tokens start_ [Word; Identifier]
      then Some (Some (reference_end (length tokens) tokens (start_ + 1), false))
      else Some None
  end.

Fixpoint json_expression_fuel (fuel : nat) (tokens : list Token) : option (option nat) :=
  match fuel with
  | O => None
  | S fuel =>
      operand ← json_operand (json_expression_fuel fuel) tokens 0;
      Some ('(at_, document) ← operand;
            '(at_, document) ← arrows (length tokens) tokens at_ document;
            if document : bool then Some at_ else None)
  end.

Definition json_expression_end (tokens : list Token) : option (option nat) :=
  json_expression_fuel (S (length tokens)) tokens.

(** ** Definitions *)

(** The names of a parenthesized column list, and where the statement goes on. *)
Definition column_list (tokens : list Token) (at_ : nat) : option (option (list str * nat)) :=
  if negb (is_symbol tokens at_ [lit "("]) then Some (Some ([], at_))
  else
    match closing_parenthesis tokens at_ with
    | None => Some None
    | Some close =>
        inner ← slice (at_ + 1) close tokens;
        Some (Some (unquoted_name <$> List.filter (λ t, negb (str_eqb (text t) (lit ","))) inner, close + 1))
    end.

Definition named_outputs (outs : list Output) (names : list str) : list Output :=
  match names with
  | [] => outs
  | _ =>
      if existsb wildcard outs then (λ n, mkOutput n false false true) <$> names
      else zip_with (λ o n, mkOutput n (document o) (wildcard o) (unresolved o)) outs names
           ++ drop (length names) outs
  end.

Definition Definition_ : Type := str * list str * list Token.

(** The modifiers [NOT MATERIALIZED] and where they end. *)
Fixpoint skip_words (fuel : nat) (tokens : list Token) (at_ : nat) (words : list str) : nat :=
  match fuel with
  | O => at_
  | S fuel => if is_word tokens at_ words then skip_words fuel tokens (S at_) words else at_
  end.

Fixpoint with_loop (fuel : nat) (tokens : list Token) (at_ : nat) (ctes : list Source)
    (definitions : list Definition_) : option (option (list Definition_ * nat * list Source)) :=
  match fuel with
  | O => None
  | S fuel =>
      match tokens !! at_ with
      | None => Some None
      | Some t =>
          let name_ := unquoted_name t in
          listed ← column_list tokens (S at_);
          match listed with
          | None => Some None
          | Some (names, at_) =>
              if negb (is_word tokens at_ [lit "as"]) then Some None
              else
                let at_ := skip_words (length tokens) tokens (S at_) [lit "not"; lit "materialized"] in
                if negb (is_symbol tokens at_ [lit "("]) then Some None
                else
                  match closing_parenthesis tokens at_ with
                  | None => Some None
                  | Some close =>
                      body ← slice (at_ + 1) close tokens;
                      let ctes := List.filter (λ c : Source, negb (eq_ignore_ascii_case c.1 name_)) ctes
                                  ++ [(name_, [])] in
                      let definitions := definitions ++ [(name_, names, body)] in
                      if negb (is_symbol tokens (close + 1) [lit ","])
                      then Some (Some (definitions, close + 1, ctes))
                      else with_loop fuel tokens (close + 2) ctes definitions
                  end
          end
      end
  end.

Definition with_clause (tokens : list Token) (ctes : list Source)
    : option (option (list Definition_ * nat * list Source)) :=
  if negb (is_word tokens 0 [lit "with"]) then Some (Some ([], 0, ctes))
  else with_loop (length tokens) tokens (1 + b2n (is_word tokens 1 [lit "recursive"])) ctes [].

(** The first source of that name takes the outputs; whether that changed it, and
    whether there is one. *)
Fixpoint set_source (name_ : str) (resolved : list Output) (srcs : list Source) : list Source * bool :=
  match srcs with
  | [] => ([], false)
  | (n, outs) :: srcs =>
      if eq_ignore_ascii_case n name_ then ((n, resolved) :: srcs, negb (bool_decide (outs = resolved)))
      else let '(srcs, changed) := set_source name_ resolved srcs in ((n, outs) :: srcs, changed)
  end.

(** One pass over the definitions. *)
Fixpoint resolve_pass (outs : Definition_ → list Source → option (list Output)) (definitions : list Definition_)
    (srcs : list Source) : option (list Source * bool) :=
  match definitions with
  | [] => Some (srcs, false)
  | d :: definitions =>
      resolved ← outs d srcs;
      let '(srcs, changed) := set_source d.1.1 resolved srcs in
      '(srcs, changed') ← resolve_pass outs definitions srcs;
      Some (srcs, changed || changed')
  end.

Fixpoint resolve_passes (passes : nat) (outs : Definition_ → list Source → option (list Output))
    (definitions : list Definition_) (srcs : list Source) : option (list Source) :=
  match passes with
  | O => Some srcs
  | S passes =>
      '(srcs, changed) ← resolve_pass outs definitions srcs;
      if changed : bool then resolve_passes passes outs definitions srcs else Some srcs
  end.

Definition resolve_definitions (outs : Definition_ → list Source → option (list Output))
    (definitions : list Definition_) (srcs : list Source) : option (list Source) :=
  resolve_passes (length definitions) outs definitions srcs.

(** ** Queries

    [query] reads a query inside the one at hand, with the CTEs it sees. *)

Section Query.
Context (sql_text : str) (views : Views) (query : list Token → list Source → option (list Output)).

(** A source and its columns, and where the clause goes on; [Some None] stops it. *)
Definition source_at (tokens : list Token) (at_ : nat) (ctes : list Source)
    : option (option (str * list Output * nat)) :=
  if is_symbol tokens at_ [lit "("] then
    match closing_parenthesis tokens at_ with
    | None => Some None
    | Some close =>
        inner ← slice (at_ + 1) close tokens;
        outs ← query inner ctes;
        Some (Some ([], outs, close + 1))
    end
  else
    t ← tokens !! at_;
    let name_ := unquoted_name t in
    Some (Some
      (if is_symbol tokens (at_ + 1) [lit "."] then
         let table := default [] (unquoted_name <$> tokens !! (at_ + 2)) in
         (table, default [] (lookup_view views (Some name_) table), at_ + 3)
       else
         (name_,
          match List.find (λ c : Source, eq_ignore_ascii_case c.1 name_) (rev ctes) with
          | Some (_, outs) => outs
          | None => default [] (lookup_view views None name_)
          end, at_ + 1))).

Definition join_words : list str :=
  [lit "join"; lit "on"; lit "using"; lit "left"; lit "right"; lit "inner"; lit "outer"; lit "cross";
   lit "full"; lit "natural"; lit "indexed"; lit "not"].

(** The alias after a source. *)
Definition alias_at (tokens : list Token) (name_ : str) (end_ : nat) : str * nat :=
  if is_word tokens end_ [lit "as"] then
    match tokens !! S end_ with Some alias => (unquoted_name alias, end_ + 2) | None => (name_, end_ + 1) end
  else if is_kind tokens end_ [Word; Identifier] && negb (ends_select_item tokens end_)
          && negb (is_word tokens end_ join_words)
  then (default [] (unquoted_name <$> tokens !! end_), end_ + 1)
  else (name_, end_).

Fixpoint query_sources_loop (positions : list nat) (tokens : list Token) (ctes : list Source)
    (srcs : list Source) (expect_source : bool) (skip_until : nat) : option (list Source) :=
  match positions with
  | [] => Some srcs
  | at_ :: positions =>
      if (at_ <? skip_until)%nat then query_sources_loop positions tokens ctes srcs expect_source skip_until
      else if (at_ =? 0)%nat && is_word tokens at_ [lit "from"] || is_word tokens at_ [lit "join"]
              || is_symbol tokens at_ [lit ","]
      then query_sources_loop positions tokens ctes srcs true skip_until
      else if ends_select_item tokens at_ then Some srcs
      else if negb expect_source then query_sources_loop positions tokens ctes srcs expect_source skip_until
      else
        found ← source_at tokens at_ ctes;
        match found with
        | None => Some srcs
        | Some (name_, outs, end_) =>
            let '(name_, end_) := alias_at tokens name_ end_ in
            query_sources_loop positions tokens ctes (srcs ++ [(name_, outs)]) false end_
        end
  end.

Definition query_sources (tokens : list Token) (ctes : list Source) : option (list Source) :=
  query_sources_loop (top_level tokens) tokens ctes [] false 0.

(** A column or wildcard, alone or qualified: names at even places, dots between. *)
Definition is_reference (expression : list Token) : bool :=
  forallb (λ '(index, t),
    if Nat.even index
    then bool_decide (kind t = Word) || bool_decide (kind t = Identifier) || str_eqb (text t) (lit "*")
    else bool_decide (kind t = Symbol) && str_eqb (text t) (lit ".")) (enumerate 0 expression)
  && Nat.odd (length expression).

Definition reference_outputs (expression : list Token) (alias : option str) (srcs : list Source)
    : option (list Output) :=
  t ← List.last (Some <$> expression) None;
  let column := unquoted_name t in
  qualifier ← (if (1 <? length expression)%nat
               then q ← expression !! (length expression - 3); Some (Some (unquoted_name q)) else Some None);
  let matching_sources := List.filter (λ s : Source,
    match qualifier with Some q => eq_ignore_ascii_case s.1 q | None => true end) srcs in
  if str_eqb column (lit "*") then
    Some (matching_sources ≫= λ s, match s.2 with [] => [unknown_wildcard] | outs => outs end)
  else
    let matching := List.filter (λ o, negb (wildcard o) && eq_ignore_ascii_case (name o) column)
                      (matching_sources ≫= snd) in
    Some [match matching with
          | [o] => mkOutput (default (name o) alias) (document o) false (unresolved o)
          | _ => mkOutput (default column alias) false false
                   (existsb (λ s : Source, match s.2 with [] => true | outs => existsb wildcard outs end) matching_sources)
          end].

(** The expression and the alias of a select item. *)
Definition split_alias (tokens : list Token) (last_ : Token) (expression_end : option nat)
    : option (list Token * option str) :=
  let len := length tokens in
  if (2 <=? len)%nat && is_word tokens (len - 2) [lit "as"] then
    expression ← slice 0 (len - 2) tokens; Some (expression, Some (unquoted_name last_))
  else if (2 <=? len)%nat && negb (bool_decide (expression_end = Some len))
          && existsb (λ k, bool_decide (kind last_ = k)) [Word; Identifier; Literal]
          && (bool_decide (expression_end = Some (len - 1)) || negb (is_symbol tokens (len - 2) [lit "."]))
  then expression ← slice 0 (len - 1) tokens; Some (expression, Some (unquoted_name last_))
  else Some (tokens, None).

Definition select_item (tokens : list Token) (srcs ctes : list Source) : option (list Output) :=
  match List.last (Some <$> tokens) None with
  | None => Some []
  | Some last_ =>
      expression_end ← json_expression_end tokens;
      '(expression, alias) ← split_alias tokens last_ expression_end;
      if is_reference expression then reference_outputs expression alias srcs
      else
        first ← tokens !! 0;
        name_ ← match alias with
                | Some alias => Some alias
                | None => slice_text (start first) (start last_ + slen (text last_)) sql_text
                end;
        json_end ← json_expression_end expression;
        if bool_decide (json_end = Some (length expression)) then Some [known name_ true]
        else if is_symbol expression 0 [lit "("]
                && bool_decide (closing_parenthesis expression 0 = Some (length expression - 1))
        then
          inner ← slice 1 (length expression - 1) expression;
          nested ← query inner ctes;
          Some [match nested with [o] => mkOutput name_ (document o) false (unresolved o) | _ => known name_ false end]
        else Some [known name_ false]
  end.

Fixpoint select_items (ends : list nat) (tokens : list Token) (start_ : nat) (srcs ctes : list Source)
    : option (list Output) :=
  match ends with
  | [] => Some []
  | end_ :: ends =>
      item ← slice start_ end_ tokens;
      outs ← select_item item srcs ctes;
      rest ← select_items ends tokens (end_ + 1) srcs ctes;
      Some (outs ++ rest)
  end.

(** What an arm of a UNION leaves of the columns before it. *)
Definition add_arm (outs other : list Output) : list Output :=
  let unknown_width := existsb wildcard (outs ++ other) in
  (λ '(index, o),
     let arm := other !! index in
     mkOutput (name o)
       (document o && (negb unknown_width && match arm with Some a => document a | None => false end))
       (wildcard o)
       (unresolved o || (unknown_width || match arm with Some a => unresolved a | None => true end)))
  <$> enumerate 0 outs.

Fixpoint add_arms (compounds : list nat) (tokens : list Token) (ctes : list Source) (outs : list Output)
    : option (list Output) :=
  match compounds with
  | [] => Some outs
  | compound :: compounds =>
      if negb (is_word tokens compound [lit "union"]) then add_arms compounds tokens ctes outs
      else
        let next := compound + 1 + b2n (is_word tokens (compound + 1) [lit "all"; lit "distinct"]) in
        let end_ := default (length tokens) (head compounds) in
        arm ← slice next end_ tokens;
        other ← query arm ctes;
        add_arms compounds tokens ctes (add_arm outs other)
  end.

Definition select_outputs (tokens : list Token) (ctes : list Source) : option (list Output) :=
  let tokens := drop (b2n (is_word tokens 0 [lit "distinct"; lit "all"])) tokens in
  let end_ := default (length tokens)
    (List.find (λ at_, negb (is_symbol tokens at_ [lit ","; lit "("]) && ends_select_item tokens at_)
       (top_level tokens)) in
  srcs ← query_sources (drop end_ tokens) ctes;
  items ← slice 0 end_ tokens;
  outs ← select_items (List.filter (λ at_, is_symbol tokens at_ [lit ","]) (top_level items) ++ [end_])
           tokens 0 srcs ctes;
  add_arms (List.filter (λ at_, is_word tokens at_ [lit "union"; lit "intersect"; lit "except"]) (top_level tokens))
    tokens ctes outs.
End Query.

Fixpoint query_outputs_fuel (fuel : nat) (sql_text : str) (views : Views) (tokens : list Token)
    (inherited : list Source) : option (list Output) :=
  match fuel with
  | O => None
  | S fuel =>
      let query := query_outputs_fuel fuel sql_text views in
      clause ← with_clause tokens inherited;
      match clause with
      | None => Some []
      | Some (definitions, at_, ctes) =>
          ctes ← resolve_definitions (λ '(_, names, body) ctes,
                    outs ← query body ctes; Some (named_outputs outs names)) definitions ctes;
          if negb (is_word tokens at_ [lit "select"]) then Some []
          else select_outputs sql_text views query (drop (at_ + 1) tokens) ctes
      end
  end.

Definition query_outputs (sql_text : str) (views : Views) (tokens : list Token) : option (list Output) :=
  query_outputs_fuel (S (length tokens)) sql_text views tokens [].

(** ** Views *)

Definition view_definition (tokens : list Token) : option (option (list str * list Token)) :=
  let at_ := b2n (is_word tokens 0 [lit "create"]) in
  let at_ := at_ + b2n (is_word tokens at_ [lit "temp"; lit "temporary"]) in
  if negb (is_word tokens at_ [lit "view"]) then Some None
  else
    let at_ := at_ + 1 in
    let at_ := if is_word tokens at_ [lit "if"] then at_ + 3 else at_ in
    let at_ := at_ + (if is_symbol tokens (at_ + 1) [lit "."] then 3 else 1) in
    listed ← column_list tokens at_;
    match listed with
    | None => Some None
    | Some (names, at_) =>
        if is_word tokens at_ [lit "as"] then Some (Some (names, drop (at_ + 1) tokens)) else Some None
    end.

(** One pass over the catalog; the sources change as it goes. *)
Fixpoint view_pass (todo : list (nat * (CatalogObject * list Token))) (srcs : list ViewSource)
    : option (list ViewSource * bool) :=
  match todo with
  | [] => Some (srcs, false)
  | (index, (obj, tokens)) :: todo =>
      definition ← view_definition tokens;
      match definition with
      | None => view_pass todo srcs
      | Some (names, body) =>
          let views := {| sources := srcs;
                          view_schema := if eq_ignore_ascii_case (schema obj) (lit "temp") then None
                                         else Some (schema obj) |} in
          outs ← query_outputs (default [] (sql obj)) views body;
          let outs := named_outputs outs names in
          previous ← srcs !! index;
          '(srcs, changed) ← view_pass todo (<[index := {| object := object previous; outputs := outs |}]> srcs);
          Some (srcs, negb (bool_decide (outputs previous = outs)) || changed)
      end
  end.

Fixpoint view_passes (passes : nat) (todo : list (nat * (CatalogObject * list Token))) (srcs : list ViewSource)
    : option (list ViewSource) :=
  match passes with
  | O => Some srcs
  | S passes =>
      '(srcs, changed) ← view_pass todo srcs;
      if changed : bool then view_passes passes todo srcs else Some srcs
  end.

Definition view_sources (catalog : list CatalogObject) : option (list ViewSource) :=
  lexed ← mapM (λ obj, sqlite_significant (default [] (sql obj))) catalog;
  view_passes (length catalog) (enumerate 0 (zip catalog lexed))
    ((λ obj, {| object := obj; outputs := [] |}) <$> catalog).

(** ** Result columns *)

(** The loop of [positional_columns]; [width] columns stand for the wildcard. *)
Fixpoint positional_loop (outs : list Output) (names : list str) (width : nat) (columns : list (bool * bool))
    : option (list (bool * bool)) :=
  match outs with
  | [] => Some columns
  | o :: outs =>
      if wildcard o then positional_loop outs names width (columns ++ replicate width (false, true))
      else if bool_decide (names !! length columns = Some (name o))
      then positional_loop outs names width (columns ++ [(document o, unresolved o)])
      else None
  end.

Definition positional_columns (outs : list Output) (names : list str) : option (list (bool * bool)) :=
  let wildcards := length (List.filter wildcard outs) in
  if (length names <? length outs - wildcards)%nat then None
  else
    let width := length names - (length outs - wildcards) in
    if (1 <? wildcards)%nat || (wildcards =? 0)%nat && negb (width =? 0)%nat then None
    else positional_loop outs names width [].

(** The known outputs of each name, in order. *)
Definition queue_output (m : gmap str (list (bool * bool))) (o : Output) : gmap str (list (bool * bool)) :=
  <[name o := default [] (m !! name o) ++ [(document o, unresolved o)]]> m.

Definition occurrences (n : str) (names : list str) : nat := length (List.filter (str_eqb n) names).

Fixpoint pop_each (names : list str) (m : gmap str (list (bool * bool))) : list (bool * bool) :=
  match names with
  | [] => []
  | n :: names =>
      match m !! n with
      | Some (o :: rest) => o :: pop_each names (<[n := rest]> m)
      | _ => (false, true) :: pop_each names m
      end
  end.

Definition classify (sql_text : str) (names : list str) (catalog : list CatalogObject)
    : option (list (bool * bool)) :=
  tokens ← sqlite_significant sql_text;
  srcs ← view_sources catalog;
  parsed ← query_outputs sql_text {| sources := srcs; view_schema := None |} tokens;
  match positional_columns parsed names with
  | Some columns => Some columns
  | None =>
      let outs := foldl queue_output ∅ (List.filter (λ o, negb (wildcard o)) parsed) in
      let outs := filter (λ '(n, queue), occurrences n names = length queue) outs in
      Some (pop_each names outs)
  end.
End Outputs.
