(* ===== verification/SqliteDocuments.v ===== *)
(** * The documents of SQLite results: totality and alignment

    The theorems of [SqliteOutputs]: whatever the statement, the result columns and the
    views are, every result column is classified and nothing panics; and a
    classification by position pairs each select item with the column that is its. *)

From Stdlib Require Import Sorting.Sorted.
From S2P Require Import Prelude Dialect SqlLexer SqliteOutputs.
Local Open Scope tide_scope.

(** ** Parts of token lists *)

Lemma slice_Some {A} from to (l : list A) :
  from ≤ to → to ≤ length l →
  ∃ part, slice from to l = Some part ∧ length part = to - from ∧ part `sublist_of` l.
Proof.
  intros Hf Ht. unfold slice. rewrite (proj2 (Nat.leb_le _ _) Hf), (proj2 (Nat.leb_le _ _) Ht).
  eexists. split; [done|]. split; [rewrite length_take, length_drop; lia|].
  etrans; [apply sublist_take|apply sublist_drop].
Qed.

(** Tokens of a text, in order, some of them left out. *)
Definition placed (sql_text : str) (tokens : list Token) : Prop :=
  ∃ all, tiles 0 all sql_text ∧ tokens `sublist_of` all.

Lemma placed_sublist sql_text tokens part : placed sql_text tokens → part `sublist_of` tokens → placed sql_text part.
Proof. intros (all & Ht & Hs) Hp. exists all. split; [done|]. by etrans. Qed.

Lemma placed_drop sql_text tokens n : placed sql_text tokens → placed sql_text (drop n tokens).
Proof. intros Hp. eapply placed_sublist; [done|]. apply sublist_drop. Qed.

Lemma sublist_filter_bool {A} (f : A → bool) (l : list A) : List.filter f l `sublist_of` l.
Proof. induction l as [|x l IH]; [done|]. cbn. destruct (f x); by constructor. Qed.

(** The text from the start of a token to the end of a later one. *)
Lemma tiles_app off l1 l2 s : tiles off (l1 ++ l2) s → ∃ s1 s2, s = s1 ++ s2 ∧ tiles off l1 s1 ∧ tiles (off + slen s1) l2 s2.
Proof.
  revert off s. induction l1 as [|t l1 IH]; intros off s; cbn [app tiles].
  { intros Ht. exists [], s. rewrite Nat.add_0_r. done. }
  intros (s' & -> & Hne & Hst & Ht). apply IH in Ht as (s1 & s2 & -> & H1 & H2).
  exists (text t ++ s1), s2. rewrite app_assoc. split_and!; [done|by exists s1|].
  by rewrite slen_app, Nat.add_assoc.
Qed.

Lemma slice_text_middle a b c : slice_text (slen a) (slen a + slen b) (a ++ b ++ c) = Some b.
Proof.
  unfold slice_text, slice_from. rewrite split_at_app. cbn [fmap option_fmap option_map snd mbind option_bind].
  rewrite (proj2 (Nat.leb_le _ _)) by lia. replace (slen a + slen b - slen a) with (slen b) by lia.
  by rewrite split_at_app.
Qed.

Lemma placed_text sql_text first middle last_ :
  placed sql_text (first :: middle ++ [last_]) ∨ placed sql_text [first] ∧ first = last_ →
  is_Some (slice_text (start first) (start last_ + slen (text last_)) sql_text).
Proof.
  intros [(all & Ht & Hs)|[(all & Ht & Hs) ->]].
  - apply sublist_cons_l in Hs as (before & rest & -> & Hs). apply sublist_app_l in Hs as (mid & rest' & -> & _ & Hs).
    apply sublist_cons_l in Hs as (mid' & after & -> & _).
    apply tiles_app in Ht as (s1 & s2 & -> & _ & s3 & -> & _ & Hf & Ht). rewrite app_assoc in Ht.
    apply tiles_app in Ht as (s4 & s5 & -> & _ & s6 & -> & _ & Hl & _). cbn in Hf.
    rewrite Hf, Hl. exists (text first ++ s4 ++ text last_).
    replace (s1 ++ text first ++ s4 ++ text last_ ++ s6) with (s1 ++ (text first ++ s4 ++ text last_) ++ s6)
      by by rewrite <- !app_assoc.
    rewrite <- slice_text_middle with (a := s1) (c := s6). f_equal. rewrite !slen_app. lia.
  - apply sublist_cons_l in Hs as (before & rest & -> & _).
    apply tiles_app in Ht as (s1 & s2 & -> & _ & s3 & -> & _ & Hf & _). cbn in Hf.
    rewrite Hf. exists (text last_). rewrite <- slice_text_middle with (a := s1) (c := s3). f_equal.
Qed.

Section Total.
Context `{Unicode}.

Lemma is_symbol_lookup tokens at_ symbols : is_symbol tokens at_ symbols = true → at_ < length tokens.
Proof.
  unfold is_symbol. destruct (tokens !! at_) as [t|] eqn:E; [|done]. intros _. by eapply lookup_lt_Some.
Qed.

Lemma is_word_lookup tokens at_ words : is_word tokens at_ words = true → at_ < length tokens.
Proof.
  unfold is_word. destruct (tokens !! at_) as [t|] eqn:E; [|done]. intros _. by eapply lookup_lt_Some.
Qed.

Lemma closing_loop_range rest at_ depth close :
  closing_loop rest at_ depth = Some close → at_ ≤ close < at_ + length rest.
Proof.
  revert at_ depth. induction rest as [|t rest IH]; intros at_ depth; cbn [closing_loop length]; [done|].
  destruct (negb _); [intros Hc%IH; lia|]. destruct (str_eqb (text t) (lit "(")); [intros Hc%IH; lia|].
  destruct (str_eqb (text t) (lit ")")); [|intros Hc%IH; lia].
  destruct depth as [|[|depth]]; [done|intros [= <-]; lia|intros Hc%IH; lia].
Qed.

Lemma closing_range tokens open close :
  closing_parenthesis tokens open = Some close → open ≤ close < length tokens.
Proof.
  unfold closing_parenthesis. intros Hc. pose proof (closing_loop_range _ _ _ _ Hc) as Hr.
  rewrite length_drop in Hr. lia.
Qed.

Lemma closing_after tokens open close :
  is_symbol tokens open [lit "("] = true → closing_parenthesis tokens open = Some close →
  open < close < length tokens.
Proof.
  intros Hs Hc. split; [|destruct (closing_range _ _ _ Hc); lia]. unfold closing_parenthesis in Hc.
  unfold is_symbol in Hs. destruct (tokens !! open) as [t|] eqn:E; [|done].
  rewrite (drop_S _ _ _ E) in Hc. cbn [closing_loop] in Hc. unfold SqlLexer.is_symbol in Hs.
  apply andb_true_iff in Hs as [Hk Hs]. cbn [existsb] in Hs. rewrite orb_false_r in Hs.
  rewrite Hk, Hs in Hc. cbn [negb] in Hc. apply closing_loop_range in Hc. lia.
Qed.

(** *** Positions outside parentheses *)

Lemma top_level_fuel_spec fuel tokens at_ :
  StronglySorted lt (top_level_fuel fuel tokens at_)
  ∧ Forall (λ i, at_ ≤ i < length tokens) (top_level_fuel fuel tokens at_).
Proof.
  revert at_. induction fuel as [|fuel IH]; intros at_; cbn [top_level_fuel]; [split; constructor|].
  destruct (tokens !! at_) as [t|] eqn:E; [|split; constructor]. apply lookup_lt_Some in E.
  set (next := if is_symbol tokens at_ [lit "("] then _ else _).
  assert (at_ < next) as Hnext.
  { unfold next. destruct (is_symbol _ _ _) eqn:Es; [|lia].
    destruct (closing_parenthesis tokens at_) eqn:Ec; [|lia]. apply closing_after in Ec; [lia|done]. }
  destruct (IH next) as [Hs Hf]. split.
  - constructor; [done|]. eapply Forall_impl; [|exact Hf]. cbn. lia.
  - constructor; [lia|]. eapply Forall_impl; [|exact Hf]. cbn. lia.
Qed.

Lemma top_level_spec tokens :
  StronglySorted lt (top_level tokens) ∧ Forall (λ i, i < length tokens) (top_level tokens).
Proof.
  destruct (top_level_fuel_spec (length tokens) tokens 0) as [Hs Hf]. split; [done|].
  eapply Forall_impl; [|exact Hf]. cbn. lia.
Qed.

Lemma filter_sorted (f : nat → bool) l : StronglySorted lt l → StronglySorted lt (List.filter f l).
Proof.
  induction 1 as [|x l Hs IH Hx]; [constructor|]. cbn. destruct (f x); [|done]. constructor; [done|].
  apply List.Forall_forall. intros y Hy. apply List.filter_In in Hy as [Hy _]. by eapply List.Forall_forall in Hx.
Qed.

(** *** JSON expressions *)

Lemma json_operand_total (f : list Token → option (option nat)) tokens start_ :
  (∀ inner, length inner < length tokens → is_Some (f inner)) → is_Some (json_operand f tokens start_).
Proof.
  intros Hf. unfold json_operand. destruct (tokens !! start_) as [first|] eqn:E; [|by eexists].
  apply lookup_lt_Some in E. destruct (is_symbol tokens start_ [lit "("]) eqn:Ep.
  { destruct (closing_parenthesis tokens start_) as [close|] eqn:Ec; [|by eexists].
    destruct (closing_after _ _ _ Ep Ec). destruct (slice_Some (start_ + 1) close tokens) as (inner & -> & Hl & _); [lia|lia|].
    cbn [mbind option_bind]. destruct (Hf inner) as [end_ ->]; [lia|]. by eexists. }
  destruct (bool_decide (kind first = Word) && is_symbol tokens (start_ + 1) [lit "("]) eqn:Ew.
  { apply andb_true_iff in Ew as [_ Ew]. destruct (closing_parenthesis tokens (start_ + 1)) as [close|] eqn:Ec; [|by eexists].
    destruct (closing_after _ _ _ Ew Ec).
    destruct (slice_Some (start_ + 2) close tokens) as (inner & -> & _); [lia|lia|]. by eexists. }
  repeat case_match; by eexists.
Qed.

Lemma json_expression_total fuel tokens : length tokens < fuel → is_Some (json_expression_fuel fuel tokens).
Proof.
  revert tokens. induction fuel as [|fuel IH]; intros tokens Hl; [lia|]. cbn [json_expression_fuel].
  destruct (json_operand_total (json_expression_fuel fuel) tokens 0) as [operand ->].
  { intros inner Hi. apply IH. lia. }
  by eexists.
Qed.

Lemma json_end_total tokens : is_Some (json_expression_end tokens).
Proof. apply json_expression_total. lia. Qed.

(** *** Definitions *)

Lemma column_list_total tokens at_ :
  ∃ listed, column_list tokens at_ = Some listed ∧ ∀ names end_, listed = Some (names, end_) → at_ ≤ end_.
Proof.
  unfold column_list. destruct (is_symbol tokens at_ [lit "("]) eqn:Es; cbn [negb].
  - destruct (closing_parenthesis tokens at_) as [close|] eqn:Ec; [|by eexists].
    destruct (closing_after _ _ _ Es Ec). destruct (slice_Some (at_ + 1) close tokens) as (inner & -> & _); [lia|lia|].
    cbn [mbind option_bind]. eexists. split; [done|]. intros names end_ [= _ <-]. lia.
  - eexists. split; [done|]. by intros names end_ [= _ <-].
Qed.

Lemma skip_words_ge fuel tokens at_ words : at_ ≤ skip_words fuel tokens at_ words.
Proof.
  revert at_. induction fuel as [|fuel IH]; intros at_; cbn; [done|]. destruct (is_word _ _ _); [|done].
  etrans; [|apply IH]. lia.
Qed.

(** The body of a definition is a shorter part of the clause's tokens. *)
Definition inside (tokens : list Token) (d : Definition_) : Prop := length d.2 < length tokens ∧ d.2 `sublist_of` tokens.

Lemma with_loop_total fuel tokens at_ ctes definitions :
  length tokens < fuel + at_ → 0 < fuel → 0 < at_ → Forall (inside tokens) definitions →
  ∃ clause, with_loop fuel tokens at_ ctes definitions = Some clause
    ∧ ∀ ds end_ srcs, clause = Some (ds, end_, srcs) → Forall (inside tokens) ds.
Proof.
  revert at_ ctes definitions. induction fuel as [|fuel IH]; intros at_ ctes definitions Hf H0 Ha Hd; [lia|].
  cbn [with_loop]. destruct (tokens !! at_) as [t|] eqn:E; [|by eexists]. apply lookup_lt_Some in E.
  destruct (column_list_total tokens (S at_)) as (listed & -> & Hlisted). cbn [mbind option_bind].
  destruct listed as [[names at1]|]; [|by eexists]. specialize (Hlisted _ _ eq_refl).
  destruct (is_word tokens at1 [lit "as"]); cbn [negb]; [|by eexists].
  pose proof (skip_words_ge (length tokens) tokens (S at1) [lit "not"; lit "materialized"]) as Hskip.
  set (at2 := skip_words _ _ _ _) in *. clearbody at2.
  destruct (is_symbol tokens at2 [lit "("]) eqn:Es; cbn [negb]; [|by eexists].
  destruct (closing_parenthesis tokens at2) as [close|] eqn:Ec; [|by eexists].
  destruct (closing_after _ _ _ Es Ec). destruct (slice_Some (at2 + 1) close tokens) as (body & -> & Hl & Hsub); [lia|lia|].
  cbn [mbind option_bind].
  assert (Forall (inside tokens) (definitions ++ [(unquoted_name t, names, body)])) as Hd'.
  { apply Forall_app. split; [done|]. constructor; [|constructor]. split; cbn; [lia|done]. }
  destruct (is_symbol tokens (close + 1) [lit ","]) eqn:Ecomma; cbn [negb].
  - apply is_symbol_lookup in Ecomma. apply IH; [lia|lia|lia|done].
  - eexists. split; [done|]. by intros ds end_ srcs [= <- _ _].
Qed.

Lemma with_clause_total tokens ctes :
  ∃ clause, with_clause tokens ctes = Some clause
    ∧ ∀ ds end_ srcs, clause = Some (ds, end_, srcs) → Forall (inside tokens) ds.
Proof.
  unfold with_clause. destruct (is_word tokens 0 [lit "with"]) eqn:Ew; cbn [negb].
  - apply is_word_lookup in Ew. apply with_loop_total; [|lia..|constructor]. lia.
  - eexists. split; [done|]. by intros ds end_ srcs [= <- _ _].
Qed.

Lemma resolve_pass_total outs definitions srcs :
  (∀ d srcs, d ∈ definitions → is_Some (outs d srcs)) → is_Some (resolve_pass outs definitions srcs).
Proof.
  revert srcs. induction definitions as [|d definitions IH]; intros srcs Ho; cbn [resolve_pass]; [by eexists|].
  destruct (Ho d srcs) as [resolved ->]; [by left|]. cbn [mbind option_bind].
  destruct (set_source _ _ _) as [srcs' changed].
  destruct (IH srcs') as [[srcs'' changed'] ->]; [intros d' ? ?; apply Ho; by right|]. by eexists.
Qed.

Lemma resolve_total outs definitions srcs :
  (∀ d srcs, d ∈ definitions → is_Some (outs d srcs)) → is_Some (resolve_definitions outs definitions srcs).
Proof.
  intros Ho. unfold resolve_definitions. generalize (length definitions) as passes. intros passes.
  revert srcs. induction passes as [|passes IH]; intros srcs; cbn [resolve_passes]; [by eexists|].
  destruct (resolve_pass_total outs definitions srcs Ho) as [[srcs' changed] ->]. cbn [mbind option_bind].
  destruct changed; [apply IH|by eexists].
Qed.

(** *** Queries

    What is read inside a part of fewer than [bound] tokens of the statement is read. *)

Section Query.
Context (sql_text : str) (views : Views) (query : list Token → list Source → option (list Output)) (bound : nat).
Hypothesis query_total : ∀ inner ctes, length inner < bound → placed sql_text inner → is_Some (query inner ctes).

Lemma source_at_total tokens at_ ctes :
  length tokens ≤ bound → placed sql_text tokens → at_ < length tokens → is_Some (source_at views query tokens at_ ctes).
Proof.
  intros Hl Hp Ha. unfold source_at. destruct (is_symbol tokens at_ [lit "("]) eqn:Es.
  - destruct (closing_parenthesis tokens at_) as [close|] eqn:Ec; [|by eexists].
    destruct (closing_after _ _ _ Es Ec). destruct (slice_Some (at_ + 1) close tokens) as (inner & -> & Hi & Hsub); [lia|lia|].
    cbn [mbind option_bind]. destruct (query_total inner ctes) as [outs ->]; [lia|by eapply placed_sublist|]. by eexists.
  - destruct (lookup_lt_is_Some_2 tokens at_ Ha) as [t ->]. by eexists.
Qed.

Lemma query_sources_total tokens ctes :
  length tokens ≤ bound → placed sql_text tokens → is_Some (query_sources views query tokens ctes).
Proof.
  intros Hl Hp. unfold query_sources. destruct (top_level_spec tokens) as [_ Hpos].
  generalize ([] : list Source) as srcs, false as expect_source, 0 as skip_until.
  induction Hpos as [|at_ positions Ha _ IH]; intros srcs expect_source skip_until; cbn [query_sources_loop]; [by eexists|].
  destruct (at_ <? skip_until)%nat; [done|]. destruct (_ || _ || _); [done|]. destruct (ends_select_item _ _); [by eexists|].
  destruct (negb _); [done|]. destruct (source_at_total tokens at_ ctes Hl Hp Ha) as [[[[n outs] end_]|] ->];
    cbn [mbind option_bind]; [|by eexists]. destruct (alias_at _ _ _). apply IH.
Qed.

Lemma last_Some {A} (l : list A) : l ≠ [] → ∃ l' x, l = l' ++ [x] ∧ List.last (Some <$> l) None = Some x.
Proof.
  destruct l as [|x l _] using rev_ind; [done|]. intros _. exists l, x. split; [done|].
  rewrite fmap_app. apply List.last_last.
Qed.

Lemma reference_total expression alias srcs :
  is_reference expression = true → is_Some (reference_outputs expression alias srcs).
Proof.
  unfold is_reference. intros Hr. apply andb_true_iff in Hr as [_ Hodd]. unfold reference_outputs.
  destruct (last_Some expression) as (l & x & -> & ->); [by intros ->|]. cbn [mbind option_bind].
  set (e := l ++ [x]) in *. destruct (Nat.ltb_spec 1 (length e)) as [Hl|]; cbn [mbind option_bind].
  - destruct (lookup_lt_is_Some_2 e (length e - 3)) as [q ->]; [|cbn; by case_match; eexists].
    apply Nat.odd_spec in Hodd as [k Hk]. lia.
  - case_match; by eexists.
Qed.

Lemma split_alias_total tokens last_ expression_end :
  ∃ expression alias, split_alias tokens last_ expression_end = Some (expression, alias)
    ∧ expression `sublist_of` tokens.
Proof.
  unfold split_alias. match goal with |- context [if ?c then _ else _] => destruct c eqn:E end.
  { destruct (slice_Some 0 (length tokens - 2) tokens) as (e & -> & _ & Hs); [lia|lia|]. by eexists _, _. }
  match goal with |- context [if ?c then _ else _] => destruct c end.
  { destruct (slice_Some 0 (length tokens - 1) tokens) as (e & -> & _ & Hs); [lia|lia|]. by eexists _, _. }
  eexists _, _. split; [done|]. reflexivity.
Qed.

Lemma select_item_total tokens srcs ctes :
  length tokens ≤ bound → placed sql_text tokens → is_Some (select_item sql_text query tokens srcs ctes).
Proof.
  intros Hl Hp. unfold select_item. destruct tokens as [|first rest] eqn:Et; [by eexists|]. rewrite <- Et in *.
  destruct (last_Some tokens) as (l & last_ & E & ->); [by subst|]. destruct (json_end_total tokens) as [ee ->].
  cbn [mbind option_bind]. destruct (split_alias_total tokens last_ ee) as (expression & alias & -> & Hsub).
  cbn [mbind option_bind]. destruct (is_reference expression) eqn:Er; [by apply reference_total|].
  rewrite Et at 1. cbn [lookup list_lookup mbind option_bind].
  assert (is_Some (slice_text (start first) (start last_ + slen (text last_)) sql_text)) as [text_ Htext].
  { rewrite Et in E, Hp. destruct l as [|f l]; injection E as -> ->.
    - apply (placed_text sql_text _ []). by right.
    - apply (placed_text sql_text _ l). by left. }
  set (name_ := match alias with Some _ => _ | None => _ end).
  assert (is_Some name_) as [n ->] by (unfold name_; destruct alias; by eexists).
  cbn [mbind option_bind]. destruct (json_end_total expression) as [je ->]. cbn [mbind option_bind].
  destruct (bool_decide _); [by eexists|].
  destruct (is_symbol expression 0 [lit "("]) eqn:Es; cbn [andb]; [|by eexists].
  case_bool_decide as Hc; [|by eexists]. destruct (closing_after _ _ _ Es Hc).
  destruct (slice_Some 1 (length expression - 1) expression) as (inner & -> & Hi & Hs); [lia|lia|].
  cbn [mbind option_bind]. pose proof (sublist_length _ _ Hsub).
  destruct (query_total inner ctes) as [nested ->]; [lia| |by eexists].
  eapply placed_sublist; [done|]. by etrans.
Qed.

Lemma select_items_total ends tokens start_ srcs ctes :
  length tokens ≤ bound → placed sql_text tokens →
  StronglySorted lt ends → Forall (λ e, start_ ≤ e ≤ length tokens) ends →
  is_Some (select_items sql_text query ends tokens start_ srcs ctes).
Proof.
  intros Hl Hp Hs. revert start_. induction Hs as [|end_ ends Hs IH Hlt]; intros start_ Hf; cbn [select_items]; [by eexists|].
  apply list.Forall_cons in Hf as [He Hf]. destruct (slice_Some start_ end_ tokens) as (item & -> & Hi & Hsub); [lia|lia|].
  cbn [mbind option_bind]. destruct (select_item_total item srcs ctes) as [outs ->]; [lia|by eapply placed_sublist|].
  cbn [mbind option_bind]. destruct (IH (end_ + 1)) as [rest ->]; [|by eexists].
  rewrite !list.Forall_forall in *. intros e Hin. specialize (Hlt e Hin). specialize (Hf e Hin). lia.
Qed.

Lemma add_arms_total compounds tokens ctes outs :
  length tokens ≤ bound → placed sql_text tokens → StronglySorted lt compounds →
  Forall (λ c, is_word tokens c [lit "union"; lit "intersect"; lit "except"] = true) compounds →
  is_Some (add_arms query compounds tokens ctes outs).
Proof.
  intros Hl Hp Hs. revert outs. induction Hs as [|compound compounds Hs IH Hlt]; intros outs Hf; cbn [add_arms]; [by eexists|].
  apply list.Forall_cons in Hf as [Hc Hf]. destruct (negb _); [by apply IH|].
  set (next := compound + 1 + _). set (end_ := default _ _). apply is_word_lookup in Hc as Hcl.
  assert (next ≤ end_ ∧ end_ ≤ length tokens) as [Hne Hel].
  { unfold next, end_. destruct (is_word tokens (compound + 1) [lit "all"; lit "distinct"]) eqn:Eall; cbn [b2n];
      destruct compounds as [|c' compounds]; cbn [head default from_option].
    - apply is_word_lookup in Eall. lia.
    - apply list.Forall_cons in Hlt as [Hc' _]. apply list.Forall_cons in Hf as [Hw _].
      apply is_word_lookup in Hw as Hwl. assert (c' ≠ compound + 1) as Hneq; [|cbn; lia]. intros ->.
      unfold is_word in *. destruct (tokens !! (compound + 1)) as [t|]; [|done]. unfold SqlLexer.is_word in *.
      apply andb_true_iff in Eall as [_ Eall], Hw as [_ Hw]. revert Eall Hw.
      unfold eq_ignore_ascii_case. cbn [existsb]. rewrite !orb_true_iff, !str_eqb_true.
      intros [E1|[E1|?]] [E2|[E2|[E2|?]]]; try done; rewrite E1 in E2; discriminate E2.
    - lia.
    - apply list.Forall_cons in Hlt as [Hc' _]. apply list.Forall_cons in Hf as [Hw _].
      apply is_word_lookup in Hw. cbn. lia. }
  destruct (slice_Some next end_ tokens) as (arm & -> & Ha & Hsub); [done|done|]. cbn [mbind option_bind].
  destruct (query_total arm ctes) as [other ->]; [|by eapply placed_sublist|by apply IH].
  unfold next in Ha. lia.
Qed.

Lemma select_outputs_total tokens ctes :
  length tokens ≤ bound → placed sql_text tokens → is_Some (select_outputs sql_text views query tokens ctes).
Proof.
  intros Hl Hp. unfold select_outputs. set (d := b2n _). apply (placed_drop _ _ d) in Hp.
  assert (length (drop d tokens) ≤ bound) as Hl' by (rewrite length_drop; lia).
  clearbody d. generalize dependent (drop d tokens). clear tokens Hl. intros tokens Hp Hl.
  destruct (top_level_spec tokens) as [Hsorted Hpos]. set (end_ := default _ _).
  assert (end_ ≤ length tokens) as Hend.
  { unfold end_. destruct (List.find _ _) as [e|] eqn:E; cbn; [|done]. apply List.find_some in E as [Hin _].
    rewrite list.Forall_forall in Hpos. apply list_elem_of_In, Hpos in Hin. lia. }
  destruct (query_sources_total (drop end_ tokens) ctes) as [srcs ->]; [rewrite length_drop; lia|by apply placed_drop|].
  cbn [mbind option_bind]. destruct (slice_Some 0 end_ tokens) as (items & -> & Hi & _); [lia|done|]. cbn [mbind option_bind].
  destruct (top_level_spec items) as [Hsi Hpi].
  destruct (select_items_total (List.filter (λ at_, is_symbol tokens at_ [lit ","]) (top_level items) ++ [end_])
              tokens 0 srcs ctes) as [outs ->]; [done|done| | |].
  - apply (filter_sorted (λ at_, is_symbol tokens at_ [lit ","])) in Hsi.
    assert (Forall (λ i, i < end_) (List.filter (λ at_, is_symbol tokens at_ [lit ","]) (top_level items))) as Hlt.
    { apply list.Forall_forall. intros i Hin%list_elem_of_In%List.filter_In. destruct Hin as [Hin _].
      rewrite list.Forall_forall in Hpi. apply list_elem_of_In, Hpi in Hin. lia. }
    clear -Hsi Hlt. induction Hsi as [|x l Hs IH Hx]; cbn; [by repeat constructor|].
    apply list.Forall_cons in Hlt as [? Hlt]. constructor; [by apply IH|]. apply Forall_app. split; [done|by repeat constructor].
  - apply Forall_app. split; [|by repeat constructor; lia]. apply list.Forall_forall.
    intros i Hin%list_elem_of_In%List.filter_In. destruct Hin as [Hin _].
    rewrite list.Forall_forall in Hpi. apply list_elem_of_In, Hpi in Hin. lia.
  - cbn [mbind option_bind]. apply add_arms_total; [done|done|by apply filter_sorted|].
    apply list.Forall_forall. intros i Hin%list_elem_of_In%List.filter_In. by destruct Hin.
Qed.
End Query.

Lemma query_outputs_total fuel sql_text views tokens ctes :
  length tokens < fuel → placed sql_text tokens → is_Some (query_outputs_fuel fuel sql_text views tokens ctes).
Proof.
  revert tokens ctes. induction fuel as [|fuel IH]; intros tokens ctes Hl Hp; [lia|]. cbn [query_outputs_fuel].
  destruct (with_clause_total tokens ctes) as (clause & -> & Hclause). cbn [mbind option_bind].
  destruct clause as [[[definitions at_] ctes']|]; [|by eexists].
  destruct (resolve_total (λ '(_, names, body) ctes,
      outs ← query_outputs_fuel fuel sql_text views body ctes; Some (named_outputs outs names)) definitions ctes')
    as [srcs ->].
  { intros [[n names] body] srcs Hd. specialize (Hclause _ _ _ eq_refl). rewrite list.Forall_forall in Hclause.
    destruct (Hclause _ Hd) as [Hlen Hsub]. cbn in Hlen, Hsub.
    destruct (IH body srcs) as [outs ->]; [lia|by eapply placed_sublist|]. by eexists. }
  cbn [mbind option_bind]. destruct (is_word tokens at_ [lit "select"]) eqn:Ew; cbn [negb]; [|by eexists].
  apply is_word_lookup in Ew. apply (select_outputs_total _ _ _ fuel).
  - intros inner ctes'' Hi Hpi. by apply IH.
  - rewrite length_drop. lia.
  - by apply placed_drop.
Qed.

(** *** Views and results *)

Lemma significant_placed sql_text : ∃ tokens, sqlite_significant sql_text = Some tokens ∧ placed sql_text tokens.
Proof.
  unfold sqlite_significant, sqlite_tokens. destruct (scan_total sql_text true) as (all & -> & Ht & _).
  eexists. split; [done|]. exists all. split; [done|apply sublist_filter_bool].
Qed.

Lemma view_definition_total tokens :
  ∃ definition, view_definition tokens = Some definition
    ∧ ∀ names body, definition = Some (names, body) → body `sublist_of` tokens.
Proof.
  unfold view_definition. destruct (is_word tokens _ [lit "view"]); cbn [negb]; [|by eexists].
  match goal with |- context [column_list tokens ?a] => destruct (column_list_total tokens a) as (listed & -> & _) end.
  cbn [mbind option_bind]. destruct listed as [[names at_]|]; [|by eexists].
  destruct (is_word tokens at_ [lit "as"]); [|by eexists]. eexists. split; [done|].
  intros ? ? [= _ <-]. apply sublist_drop.
Qed.

Lemma view_pass_total todo srcs :
  Forall (λ '(i, (obj, tokens)), i < length srcs ∧ placed (default [] (sql obj)) tokens) todo →
  ∃ srcs' changed, view_pass todo srcs = Some (srcs', changed) ∧ length srcs' = length srcs.
Proof.
  revert srcs. induction todo as [|[i [obj tokens]] todo IH]; intros srcs Hf; cbn [view_pass]; [by eexists _, _|].
  apply list.Forall_cons in Hf as [[Hi Hp] Hf]. destruct (view_definition_total tokens) as (definition & -> & Hd).
  cbn [mbind option_bind]. destruct definition as [[names body]|]; [|by apply IH].
  specialize (Hd _ _ eq_refl). unfold query_outputs.
  match goal with |- context [query_outputs_fuel ?f ?s ?v ?b ?c] =>
    destruct (query_outputs_total f s v b c) as [outs ->]; [lia|by eapply placed_sublist|] end.
  cbn [mbind option_bind]. destruct (lookup_lt_is_Some_2 srcs i Hi) as [previous ->]. cbn [mbind option_bind].
  match goal with |- context [view_pass todo ?s] => destruct (IH s) as (srcs' & changed & -> & Hlen) end.
  { eapply Forall_impl; [|exact Hf]. intros [j [o ts]]. by rewrite length_insert. }
  cbn [mbind option_bind]. eexists _, _. split; [done|]. by rewrite Hlen, length_insert.
Qed.

Lemma view_sources_total catalog : is_Some (view_sources catalog).
Proof.
  unfold view_sources.
  assert (∃ lexed, mapM (λ obj, sqlite_significant (default [] (sql obj))) catalog = Some lexed
    ∧ Forall2 (λ obj tokens, placed (default [] (sql obj)) tokens) catalog lexed) as (lexed & -> & Hlexed).
  { induction catalog as [|obj catalog (lexed & Hl & Hf)]; [by exists []|].
    destruct (significant_placed (default [] (sql obj))) as (tokens & Ht & Hp).
    exists (tokens :: lexed). split; [|by constructor]. cbn [mapM]. by rewrite Ht, Hl. }
  cbn [mbind option_bind]. set (srcs := _ <$> catalog).
  assert (Forall (λ '(i, (obj, tokens)), i < length srcs ∧ placed (default [] (sql obj)) tokens)
            (enumerate 0 (zip catalog lexed))) as Hf.
  { unfold srcs. rewrite length_fmap. clear srcs. assert (∀ off n, n = off + length catalog →
      Forall (λ '(i, (obj, tokens)), i < n ∧ placed (default [] (sql obj)) tokens) (enumerate off (zip catalog lexed))) as Hgo.
    { induction Hlexed as [|obj tokens catalog lexed Hp _ IH]; intros off n ->; cbn; constructor.
      - split; [lia|done].
      - apply IH. lia. }
    by apply Hgo. }
  clearbody srcs. generalize (length catalog) as passes. intros passes. revert srcs Hf.
  induction passes as [|passes IH]; intros srcs Hf; cbn [view_passes]; [by eexists|].
  destruct (view_pass_total _ srcs Hf) as (srcs' & changed & -> & Hlen). cbn [mbind option_bind].
  destruct changed; [|by eexists]. apply IH. eapply Forall_impl; [|exact Hf]. intros [j [o ts]]. by rewrite Hlen.
Qed.

Lemma pop_each_length names m : length (pop_each names m) = length names.
Proof.
  revert m. induction names as [|n names IH]; intros m; cbn [pop_each length]; [done|].
  destruct (m !! n) as [[|o rest]|]; cbn; by rewrite IH.
Qed.

(** ** Alignment *)

Definition flags (o : Output) : bool * bool := (document o, unresolved o).

(** [outs] describe the columns [names] one by one, but for one wildcard, which stands
    for as many columns as are left over; each column is classified by its output. *)
Definition aligned (outs : list Output) (names : list str) (columns : list (bool * bool)) : Prop :=
  (Forall (λ o, wildcard o = false) outs ∧ names = name <$> outs ∧ columns = flags <$> outs)
  ∨ ∃ before w after expanded,
      outs = before ++ w :: after ∧ wildcard w = true
      ∧ Forall (λ o, wildcard o = false) before ∧ Forall (λ o, wildcard o = false) after
      ∧ names = (name <$> before) ++ expanded ++ (name <$> after)
      ∧ columns = (flags <$> before) ++ replicate (length expanded) (false, true) ++ (flags <$> after).

Lemma positional_known outs rest names width columns :
  Forall (λ o, wildcard o = false) outs →
  positional_loop (outs ++ rest) names width columns
  = if bool_decide (take (length outs) (drop (length columns) names) = name <$> outs)
    then positional_loop rest names width (columns ++ (flags <$> outs)) else None.
Proof.
  intros Hw. revert columns. induction Hw as [|o outs Ho _ IH]; intros columns.
  { cbn [app length take fmap list_fmap]. by rewrite bool_decide_true, app_nil_r. }
  cbn [app positional_loop length]. rewrite Ho. destruct (names !! length columns) as [n|] eqn:E.
  - rewrite (drop_S _ _ _ E). cbn [take]. case_bool_decide as Hn.
    + injection Hn as ->. rewrite IH, length_app, Nat.add_1_r, fmap_cons, <- app_assoc.
      cbn [app]. case_bool_decide as H1; case_bool_decide as H2; [done| | |done]; exfalso; congruence.
    + rewrite bool_decide_false; [done|]. rewrite fmap_cons. congruence.
  - rewrite bool_decide_false by done. rewrite bool_decide_false; [done|].
    apply lookup_ge_None in E. rewrite drop_ge by done. by rewrite take_nil.
Qed.

Lemma known_count outs : Forall (λ o, wildcard o = false) outs ↔ List.filter wildcard outs = [].
Proof.
  induction outs as [|o outs IH]; [done|]. cbn. rewrite list.Forall_cons, IH. destruct (wildcard o); naive_solver.
Qed.

(** One wildcard among the outputs. *)
Lemma one_wildcard outs :
  length (List.filter wildcard outs) = 1 →
  ∃ before w after, outs = before ++ w :: after ∧ wildcard w = true
    ∧ Forall (λ o, wildcard o = false) before ∧ Forall (λ o, wildcard o = false) after.
Proof.
  induction outs as [|o outs IH]; [done|]. cbn. destruct (wildcard o) eqn:Ew; cbn.
  - intros Hl. exists [], o, outs. split_and!; [done|done|constructor|]. apply known_count, nil_length_inv. lia.
  - intros Hl. destruct (IH Hl) as (before & w & after & -> & Hw & Hb & Ha).
    exists (o :: before), w, after. split_and!; [done|done|by constructor|done].
Qed.

Lemma filter_one before w after :
  wildcard w = true → Forall (λ o, wildcard o = false) before → Forall (λ o, wildcard o = false) after →
  length (List.filter wildcard (before ++ w :: after)) = 1.
Proof.
  intros Hw Hb%known_count Ha%known_count. rewrite List.filter_app, Hb. cbn. rewrite Hw. cbn. by rewrite Ha.
Qed.

Lemma positional_wildcard before w after names width :
  wildcard w = true → Forall (λ o, wildcard o = false) before → Forall (λ o, wildcard o = false) after →
  length names = length before + width + length after →
  positional_loop (before ++ w :: after) names width []
  = if bool_decide (names = (name <$> before) ++ take width (drop (length before) names) ++ (name <$> after))
    then Some ((flags <$> before) ++ replicate width (false, true) ++ (flags <$> after)) else None.
Proof.
  intros Hw Hb Ha Hl. rewrite positional_known by done. cbn [length app positional_loop]. rewrite drop_0, Hw.
  rewrite <- (app_nil_r after) at 1. rewrite positional_known, !length_app, length_replicate, length_fmap by done.
  cbn [positional_loop].
  assert (names = take (length before) names ++ take width (drop (length before) names)
                  ++ take (length after) (drop (length before + width) names)) as Hsplit.
  { rewrite <- (take_drop (length before) names) at 1. f_equal.
    rewrite <- (take_drop width (drop (length before) names)) at 1. f_equal. rewrite drop_drop. symmetry.
    apply take_ge. rewrite length_drop. lia. }
  case_bool_decide as H1; [case_bool_decide as H2|]; case_bool_decide as H3; try done.
  - by rewrite <- !app_assoc.
  - exfalso. apply H3. rewrite Hsplit at 1. by rewrite H1, H2.
  - exfalso. apply H2. rewrite H3 at 1.
    rewrite drop_app_ge, length_fmap by (rewrite length_fmap; lia).
    replace (length before + width - length before) with width by lia.
    rewrite drop_app_ge, length_take, length_drop by (rewrite length_take, length_drop; lia).
    replace (width - _) with 0 by lia. rewrite drop_0. apply take_ge. by rewrite length_fmap.
  - exfalso. apply H1. rewrite H3 at 1. rewrite take_app_le by (rewrite length_fmap; lia).
    apply take_ge. by rewrite length_fmap.
Qed.

(** The wildcard of a list that has one is in one place. *)
Lemma same_split before w after b w' a :
  before ++ w :: after = b ++ w' :: a → wildcard w = true → wildcard w' = true →
  Forall (λ o, wildcard o = false) before → Forall (λ o, wildcard o = false) b →
  before = b ∧ w = w' ∧ after = a.
Proof.
  intros E Hw Hw' Hb. revert b E. induction Hb as [|o before Ho _ IH]; intros [|o' b] E Hb'; injection E.
  - by intros -> ->.
  - intros _ ->. apply list.Forall_cons in Hb' as [? _]. congruence.
  - intros _ ->. congruence.
  - intros E' ->. apply list.Forall_cons in Hb' as [_ Hb']. by destruct (IH b E' Hb') as (-> & -> & ->).
Qed.

Lemma positional_aligned outs names columns :
  positional_columns outs names = Some columns ↔ aligned outs names columns.
Proof.
  unfold positional_columns, aligned. set (wildcards := length (List.filter wildcard outs)).
  assert (wildcards ≤ length outs) as Hle by apply List.filter_length_le.
  destruct (decide (wildcards = 0)) as [E0|E0]; [|destruct (decide (wildcards = 1)) as [E1|E1]].
  - assert (Forall (λ o, wildcard o = false) outs) as Hk by by apply known_count, nil_length_inv. rewrite E0, Nat.sub_0_r.
    change (1 <? 0)%nat with false. change (0 =? 0)%nat with true. cbn [orb andb]. pose proof (positional_known outs [] names 0 [] Hk) as Hp.
    rewrite app_nil_r in Hp. cbn [length app positional_loop] in Hp. rewrite drop_0 in Hp.
    destruct (Nat.ltb_spec (length names) (length outs)).
    { split; [done|]. intros [(_ & -> & _)|(b & w & a & e & -> & Hw & Hb & Ha & _)]; [rewrite length_fmap in *; lia|].
      unfold wildcards in E0. by rewrite filter_one in E0. }
    destruct (Nat.eqb_spec (length names - length outs) 0) as [Ez|Hne]; cbn [negb].
    + rewrite Ez, Hp, take_ge by lia. clear Hp. case_bool_decide as Hn; split.
      * intros [= <-]. by left.
      * intros [(_ & _ & ->)|(b & w & a & e & -> & Hw & Hb & Ha & _)]; [done|].
        unfold wildcards in E0. by rewrite filter_one in E0.
      * done.
      * intros [(_ & Hn' & _)|(b & w & a & e & -> & Hw & Hb & Ha & _)]; [done|].
        unfold wildcards in E0. by rewrite filter_one in E0.
    + split; [done|]. intros [(_ & -> & _)|(b & w & a & e & -> & Hw & Hb & Ha & _)]; [rewrite length_fmap in *; lia|].
      unfold wildcards in E0. by rewrite filter_one in E0.
  - destruct (one_wildcard outs E1) as (before & w & after & -> & Hw & Hb & Ha). rewrite E1.
    rewrite length_app. change (1 <? 1)%nat with false. change (1 =? 0)%nat with false. cbn [length orb andb].
    destruct (Nat.ltb_spec (length names) (length before + S (length after) - 1)).
    { split; [done|]. intros [(Hall & _)|(b & w' & a & e & E & Hw' & Hb' & Ha' & -> & _)].
      - apply Forall_app in Hall as [_ Hall]. apply list.Forall_cons in Hall as [? _]. congruence.
      - apply (f_equal length) in E. rewrite !length_app in *. rewrite !length_fmap in *. cbn in E. lia. }
    set (width := length names - _). rewrite positional_wildcard by (done || lia). case_bool_decide as Hn; split.
    + intros [= <-]. right. exists before, w, after, (take width (drop (length before) names)).
      split_and!; [done..|]. rewrite length_take, length_drop. do 3 f_equal. lia.
    + intros [(Hall & _)|(b & w' & a & e & E & Hw' & Hb' & Ha' & En & ->)].
      * apply Forall_app in Hall as [_ Hall]. apply list.Forall_cons in Hall as [? _]. congruence.
      * destruct (same_split before w after b w' a) as (<- & <- & <-); [done..|]. do 4 f_equal.
        apply (f_equal length) in En. rewrite !length_app, !length_fmap in En. lia.
    + done.
    + intros [(Hall & _)|(b & w' & a & e & E & Hw' & Hb' & Ha' & En & ->)].
      * apply Forall_app in Hall as [_ Hall]. apply list.Forall_cons in Hall as [? _]. congruence.
      * destruct (same_split before w after b w' a) as (<- & <- & <-); [done..|]. exfalso. apply Hn.
        rewrite En at 1. do 2 f_equal. rewrite En. rewrite drop_app_ge by (rewrite length_fmap; lia).
        rewrite length_fmap, Nat.sub_diag, drop_0. apply (f_equal length) in En. rewrite !length_app, !length_fmap in En.
        rewrite take_app_le, take_ge by lia. done.
  - rewrite (proj2 (Nat.ltb_lt 1 wildcards)) by lia. cbn [orb]. split; [by destruct (_ <? _)%nat|].
    intros [(Hall%known_count & _)|(b & w & a & e & -> & Hw & Hb & Ha & _)].
    + unfold wildcards in E0. by rewrite Hall in E0.
    + unfold wildcards in E1. by rewrite filter_one in E1.
Qed.

(** whatever the statement, the names of its result columns and the views are,
    reading them never panics and ends, with one answer for every result column; and
    columns are classified by position exactly when the select items are the columns
    one by one, or around one unknown wildcard, each by its own item. *)
Theorem documents_are_classified sql_text names catalog :
  (∃ columns, classify sql_text names catalog = Some columns ∧ length columns = length names)
  ∧ ∀ outs columns, positional_columns outs names = Some columns ↔ aligned outs names columns.
Proof.
  split; [|intros; apply positional_aligned]. unfold classify.
  destruct (significant_placed sql_text) as (tokens & -> & Hp). cbn [mbind option_bind].
  destruct (view_sources_total catalog) as [srcs ->]. cbn [mbind option_bind]. unfold query_outputs.
  destruct (query_outputs_total (S (length tokens)) sql_text {| sources := srcs; view_schema := None |} tokens [])
    as [parsed ->]; [lia|done|]. cbn [mbind option_bind].
  destruct (positional_columns parsed names) as [columns|] eqn:E.
  - exists columns. split; [done|]. apply positional_aligned in E as [(_ & -> & ->)|(b & w & a & e & -> & _ & _ & _ & -> & ->)].
    + by rewrite !length_fmap.
    + by rewrite !length_app, !length_fmap, length_replicate.
  - eexists. split; [done|apply pop_each_length].
Qed.
End Total.

Existing Instance ascii_only.

Example statements_are_read :
  classify (lit "SELECT t.*, data -> '$.a' AS p FROM t") [lit "a"; lit "b"; lit "p"] []
    = Some [(false, true); (false, true); (true, false)]
  ∧ classify (lit "WITH c(d) AS (SELECT json(x) FROM t) SELECT c.d, count(*) n FROM c") [lit "d"; lit "n"] []
    = Some [(true, false); (false, false)]
  ∧ classify (lit "SELECT json(a) AS d FROM t UNION ALL SELECT x FROM u") [lit "d"] [] = Some [(false, true)]
  ∧ classify (lit "SELECT d FROM v") [lit "d"]
      [{| schema := lit "main"; object_name := lit "v";
          sql := Some (lit "CREATE VIEW v AS SELECT json(x) AS d FROM t") |}] = Some [(true, false)].
Proof. by vm_compute. Qed.
