(* ===== verification/TableTags.v ===== *)
(** * The tables a query reads (src/src/query/sql/execution.rs)

    A cached read is tagged with the tables it reads, so that a write to any of them
    drops it. The model's table, the joined ones and the tables of composed operands are
    known; raw SQL is searched for the names after FROM and JOIN. Tagging too much only
    drops entries early, tagging too little serves stale rows. *)

From S2P Require Import Prelude Dialect SqlLexer Filters QueryStructure Clauses SqliteOutputs SqliteDocuments.
Local Open Scope tide_scope.

Section tags.
Context `{Unicode}.

(** The loop of [normalize_table_name]: the last part of a dotted name, if every part is
    a word or a quoted identifier. *)
Fixpoint last_part (fuel : nat) (name : Token) (parts : list Token) : option Token :=
  if bool_decide (kind name = Word) || bool_decide (kind name = Identifier) then
    match fuel, parts with
    | _, [] => Some name
    | S fuel', dot :: part :: parts' =>
        if str_eqb (text dot) (lit ".") then last_part fuel' part parts' else None
    | _, _ => None
    end
  else None.

(** The lexer never fails, so that [None] is the source's. Each round takes two tokens. *)
Definition normalize_table_name (token : str) : option str :=
  parts ← significant token;
  match parts with
  | [] => None
  | name :: parts =>
      name ← last_part (length parts) name parts;
      decoded ← unquoted name;
      if nilb decoded then None else Some decoded
  end.

Definition push_table_tag (tables : list str) (table : str) : list str :=
  match normalize_table_name table with
  | None => tables
  | Some table => if existsb (str_eqb table) tables then tables else tables ++ [table]
  end.

(** The dotted name from a first token on: where it ends, and the tokens after it. *)
Fixpoint dotted_end (end_ : nat) (toks : list Token) : nat * list Token :=
  match toks with
  | dot :: rest =>
      if str_eqb (text dot) (lit ".") then
        match rest with
        | part :: rest' => dotted_end (start part + slen (text part)) rest'
        | [] => (end_, [])
        end
      else (end_, toks)
  | [] => (end_, [])
  end.

(** The iterator of [sql_tokens], run to its end; each round takes a token. *)
Fixpoint group_tokens (fuel : nat) (sql : str) (toks : list Token) : option (list str) :=
  match fuel, toks with
  | _, [] => Some []
  | 0, _ => None
  | S fuel', first :: rest =>
      let end_ := start first + slen (text first) in
      let '(end_, rest) :=
        if bool_decide (kind first = Word) || bool_decide (kind first = Identifier)
        then dotted_end end_ rest else (end_, rest) in
      word ← slice_text (start first) end_ sql;
      words ← group_tokens fuel' sql rest;
      Some (word :: words)
  end.

Definition sql_tokens (sql : str) : option (list str) :=
  toks ← significant sql;
  let toks := List.filter (λ t, negb (bool_decide (kind t = Literal))) toks in
  group_tokens (length toks) sql toks.

Definition among (words : list str) (word : str) : bool := existsb (eq_ignore_ascii_case word) words.

Definition NOT_A_TABLE : list str := [lit "select"; lit "unnest"; lit "values"].
Definition BEFORE_A_TABLE : list str := [lit "only"; lit "lateral"].
Definition LIST_END : list str :=
  [lit "where"; lit "group"; lit "order"; lit "limit"; lit "offset"; lit "having"; lit "union";
   lit "intersect"; lit "except"; lit "window"; lit "for"; lit "returning"; lit "fetch"].

(** The loop of [collect_tables_from_sql]: the depth, the depths of the FROM lists being
    read (the innermost last), and whether a table is expected next. *)
Record Search := mkSearch {
  depth : nat;
  lists : list nat;
  expect_table : bool;
  tables : list str;
}.

Definition at_list (st : Search) : bool := bool_decide (list.last (lists st) = Some (depth st)).

Definition search_word (st : Search) (word : str) : Search :=
  if str_eqb word (lit "(") then
    let depth := S (depth st) in
    mkSearch depth (if expect_table st then lists st ++ [depth] else lists st) (expect_table st) (tables st)
  else if str_eqb word (lit ")") then
    let depth := depth st - 1 in
    mkSearch depth (List.filter (λ list_, (list_ <=? depth)%nat) (lists st)) (expect_table st) (tables st)
  else if str_eqb word (lit ",") then mkSearch (depth st) (lists st) (at_list st) (tables st)
  else if eq_ignore_ascii_case word (lit "from") then
    mkSearch (depth st) (lists st ++ [depth st]) true (tables st)
  else if eq_ignore_ascii_case word (lit "join") then mkSearch (depth st) (lists st) true (tables st)
  else
    let lists := if at_list st && among LIST_END word then removelast (lists st) else lists st in
    if expect_table st then
      if among BEFORE_A_TABLE word then mkSearch (depth st) lists true (tables st)
      else if negb (among NOT_A_TABLE word) then
        mkSearch (depth st) lists false (push_table_tag (tables st) word)
      else mkSearch (depth st) lists false (tables st)
    else mkSearch (depth st) lists false (tables st).

Definition collect_tables_from_sql (sql : str) (known : list str) : option (list str) :=
  words ← sql_tokens sql; Some (tables (foldl search_word (mkSearch 0 [] false known) words)).

(** Over several texts, in order. *)
Definition collect_each (sqls : list str) (known : list str) : option (list str) :=
  foldl (λ acc sql, known ← acc; collect_tables_from_sql sql known) (Some known) sqls.

(** [collect_condition_tables]: the SQL a condition carries. *)
Definition condition_sql {V} (condition : WhereCondition V) : list str :=
  match value condition with
  | VRawExpr sql | VRawExprWithValues sql _ | VRawTemplate sql _ => [sql]
  | _ => []
  end.

Context `{QueryTypes}.

(** The raw SQL of a query, in the order [cache_tables] reads it. *)
Definition raw_operands (c : Clauses) : list str :=
  (union_query_sql <$> unions c) ++ (cte_query_sql <$> ctes c)
  ++ (subquery_sql <$> subquery_select_expressions c)
  ++ raw_select_expressions c ++ having_conditions c
  ++ omap (λ o, raw_order_by_expression (fst o)) (order_by c)
  ++ concat (map condition_sql (all_conditions (conditions c) (or_groups c))).

Definition cache_tables (table_name : str) (c : Clauses) : option (list str) :=
  let tables := foldl (λ ts t, if existsb (str_eqb t) ts then ts else ts ++ [t]) [table_name] (dependencies c) in
  let tables := push_table_tag tables table_name in
  let tables := foldl push_table_tag tables (join_table <$> joins c) in
  collect_each (raw_operands c) tables.

End tags.

(** ** Every table named is tagged *)

Section tagged.
Context `{Unicode}.

Definition symbol (word : str) : Prop := word = lit "(" ∨ word = lit ")" ∨ word = lit ",".

(** A word that begins a table source. *)
Definition source_keyword (word : str) : Prop :=
  ¬ symbol word ∧ (eq_ignore_ascii_case word (lit "from") = true ∨ eq_ignore_ascii_case word (lit "join") = true).

(** What may stand between the keyword, or a comma, and the table. *)
Definition gap (words : list str) : Prop :=
  Forall (λ w, w = lit "(" ∨ ¬ symbol w ∧ ¬ source_keyword w ∧ among BEFORE_A_TABLE w = true) words.

(** A word read as the name of table [t]. *)
Definition names (word t : str) : Prop :=
  ¬ symbol word ∧ ¬ source_keyword word ∧ among BEFORE_A_TABLE word = false ∧ among NOT_A_TABLE word = false
  ∧ normalize_table_name word = Some t.

(** Words whose parentheses are balanced. *)
Inductive balanced : list str → Prop :=
  | balanced_nil : balanced []
  | balanced_word w ws : w ≠ lit "(" → w ≠ lit ")" → balanced ws → balanced (w :: ws)
  | balanced_group inner ws : balanced inner → balanced ws → balanced (lit "(" :: inner ++ lit ")" :: ws).

(** Words that stay inside the FROM list they follow: no word at their own level ends it. *)
Inductive within : list str → Prop :=
  | within_nil : within []
  | within_word w ws : w ≠ lit "(" → w ≠ lit ")" → among LIST_END w = false → within ws → within (w :: ws)
  | within_group inner ws : balanced inner → within ws → within (lit "(" :: inner ++ lit ")" :: ws).

(** The table [t] is named in [words]: right behind FROM or JOIN, or behind a comma of a
    FROM list. *)
Inductive reads (words : list str) (t : str) : Prop :=
  | reads_first before keyword between name after :
      words = before ++ keyword :: between ++ name :: after →
      source_keyword keyword → gap between → names name t → reads words t
  | reads_next before keyword items between name after :
      words = before ++ keyword :: items ++ lit "," :: between ++ name :: after →
      ¬ symbol keyword → eq_ignore_ascii_case keyword (lit "from") = true →
      within items → gap between → names name t → reads words t.

(** Lists are read at no greater depth than the search is at. *)
Definition sane (st : Search) : Prop := Forall (λ l, l ≤ depth st) (lists st).

Lemma Forall_removelast {A} (P : A → Prop) l : Forall P l → Forall P (removelast l).
Proof.
  intros Hl. destruct l as [|x l] using rev_ind; [done|]. rewrite removelast_last. by apply Forall_app in Hl as [? _].
Qed.

Lemma search_word_sane st w : sane st → sane (search_word st w).
Proof.
  unfold sane, search_word. intros Hs.
  assert (Forall (λ l, l ≤ S (depth st)) (lists st)) as HS by (eapply List.Forall_impl, Hs; cbn; lia).
  destruct (str_eqb w (lit "(")).
  { cbn. destruct (expect_table st); [|done]. apply Forall_app. by split; [|repeat constructor]. }
  destruct (str_eqb w (lit ")")).
  { cbn. apply List.Forall_forall. intros l Hl. apply filter_In in Hl as [_ Hl]. by apply Nat.leb_le in Hl. }
  destruct (str_eqb w (lit ",")); [done|].
  destruct (eq_ignore_ascii_case w (lit "from")).
  { cbn. apply Forall_app. by split; [|repeat constructor]. }
  destruct (eq_ignore_ascii_case w (lit "join")); [done|].
  pose proof (Forall_removelast _ _ Hs). by repeat case_match.
Qed.

Lemma search_sane words : ∀ st, sane st → sane (foldl search_word st words).
Proof. induction words as [|w ws IH]; intros st Hs; [done|]. cbn. by apply IH, search_word_sane. Qed.

Lemma push_table_tag_kept tables word t : t ∈ tables → t ∈ push_table_tag tables word.
Proof.
  intros Ht. unfold push_table_tag. destruct (normalize_table_name word); [|done].
  case_match; [done|]. apply elem_of_app. by left.
Qed.

Lemma push_table_tag_names tables word t : normalize_table_name word = Some t → t ∈ push_table_tag tables word.
Proof.
  intros Hn. unfold push_table_tag. rewrite Hn. destruct (existsb (str_eqb t) tables) eqn:E.
  - apply existsb_exists in E as (t' & Ht' & E). apply str_eqb_true in E as ->. by apply list_elem_of_In.
  - apply elem_of_app. right. by apply list_elem_of_singleton.
Qed.

Lemma search_word_tables st w t : t ∈ tables st → t ∈ tables (search_word st w).
Proof. intros Ht. unfold search_word. repeat case_match; cbn; try done; by apply push_table_tag_kept. Qed.

Lemma search_tables words : ∀ st t, t ∈ tables st → t ∈ tables (foldl search_word st words).
Proof. induction words as [|w ws IH]; intros st t Ht; [done|]. cbn. by apply IH, search_word_tables. Qed.

Lemma not_symbol w : ¬ symbol w →
  str_eqb w (lit "(") = false ∧ str_eqb w (lit ")") = false ∧ str_eqb w (lit ",") = false.
Proof. unfold symbol, str_eqb. intros Hs. rewrite !bool_decide_eq_false. tauto. Qed.

(** Once a table is expected, a name behind a gap is tagged. *)
Lemma gap_names between name t : gap between → names name t → ∀ st, expect_table st = true →
  t ∈ tables (foldl search_word st (between ++ [name])).
Proof.
  intros Hg (Hs & Hk & Hb & Hn & Ht). apply not_symbol in Hs as Hsym. destruct Hsym as (S1 & S2 & S3).
  assert (∀ w, ¬ symbol w → ¬ source_keyword w →
    eq_ignore_ascii_case w (lit "from") = false ∧ eq_ignore_ascii_case w (lit "join") = false) as Hkw.
  { intros w Hw Hsk. unfold source_keyword in Hsk.
    destruct (eq_ignore_ascii_case w (lit "from")), (eq_ignore_ascii_case w (lit "join")); tauto. }
  induction Hg as [|w ws [->|(Hw & Hwk & Hwb)] _ IH]; intros st He; cbn [app foldl].
  - unfold search_word. rewrite S1, S2, S3, He, Hb, Hn. destruct (Hkw _ Hs Hk) as [-> ->]. cbn [negb tables].
    by apply push_table_tag_names.
  - apply IH. unfold search_word. by rewrite He.
  - apply IH. destruct (not_symbol _ Hw) as (W1 & W2 & W3), (Hkw _ Hw Hwk) as [F J].
    unfold search_word. by rewrite W1, W2, W3, F, J, He, Hwb.
Qed.


Lemma filter_everything {A} (p : A → bool) l : Forall (λ x, p x = true) l → List.filter p l = l.
Proof. induction 1 as [|x l Hx _ IH]; cbn; [done|]. by rewrite Hx, IH. Qed.

Lemma filter_none {A} (p : A → bool) l : Forall (λ x, p x = false) l → List.filter p l = [].
Proof. induction 1 as [|x l Hx _ IH]; cbn; [done|]. by rewrite Hx. Qed.

(** Balanced words leave the lists outside them as they are. *)
Lemma balanced_keeps ws : balanced ws → ∀ st d L X,
  lists st = L ++ X → Forall (λ l, l ≤ d) L → Forall (λ l, d < l) X → d < depth st →
  depth (foldl search_word st ws) = depth st
  ∧ ∃ X', lists (foldl search_word st ws) = L ++ X' ∧ Forall (λ l, d < l) X'.
Proof.
  induction 1 as [|w ws Hlp Hrp _ IH|inner ws _ IHi _ IH]; intros st d L X Hl HL HX Hd; [by split; [|exists X]| |].
  - cbn [foldl]. assert (depth (search_word st w) = depth st ∧ ∃ X', lists (search_word st w) = L ++ X' ∧ Forall (λ l, d < l) X')
      as [Hdep (X' & Hl' & HX')].
    { unfold search_word, str_eqb. rewrite !bool_decide_eq_false_2 by done.
      destruct (bool_decide (w = lit ",")); [cbn; eauto|].
      destruct (eq_ignore_ascii_case w (lit "from")).
      { cbn. split; [done|]. exists (X ++ [depth st]). rewrite Hl, <- app_assoc. split; [done|].
        apply Forall_app. by split; [|repeat constructor]. }
      destruct (eq_ignore_ascii_case w (lit "join")); [cbn; eauto|].
      assert (∃ X', (if at_list st && among LIST_END w then removelast (lists st) else lists st) = L ++ X'
        ∧ Forall (λ l, d < l) X') as (X' & HX' & ?).
      { destruct (at_list st && among LIST_END w) eqn:E; [|by eauto]. apply andb_prop in E as [E _].
        unfold at_list in E. apply bool_decide_eq_true in E. rewrite Hl in E |- *.
        destruct X as [|x X] using rev_ind.
        - rewrite app_nil_r in E. destruct L as [|y L _] using rev_ind; [done|]. rewrite last_snoc in E. injection E as ->. apply Forall_app in HL as [_ HL].
          apply list.Forall_cons in HL as [HL _]. lia.
        - exists X. rewrite app_assoc, removelast_last. split; [done|]. by apply Forall_app in HX as [? _]. }
      rewrite HX'. repeat case_match; cbn; eauto. }
    rewrite <- Hdep. apply (IH _ d L X'); try done. by rewrite Hdep.
  - cbn [foldl]. rewrite foldl_app. cbn [foldl].
    set (st1 := search_word st (lit "(")).
    assert (depth st1 = S (depth st) ∧ ∃ X', lists st1 = L ++ X' ∧ Forall (λ l, d < l) X') as [Hd1 (X1 & Hl1 & HX1)].
    { unfold st1, search_word. cbn. split; [done|]. destruct (expect_table st); [|by eauto].
      exists (X ++ [S (depth st)]). rewrite Hl, <- app_assoc. split; [done|]. apply Forall_app. by split; [|repeat constructor; lia]. }
    destruct (IHi st1 d L X1 Hl1 HL HX1 ltac:(lia)) as [Hd2 (X2 & Hl2 & HX2)].
    set (st2 := foldl search_word st1 inner) in *. set (st3 := search_word st2 (lit ")")).
    assert (depth st3 = depth st ∧ ∃ X', lists st3 = L ++ X' ∧ Forall (λ l, d < l) X') as [Hd3 (X3 & Hl3 & HX3)].
    { unfold st3, search_word. cbn. rewrite Hd2, Hd1. replace (S (depth st) - 1) with (depth st) by lia. split; [done|].
      exists (List.filter (λ list_, (list_ <=? depth st)%nat) X2). rewrite Hl2, List.filter_app. split.
      - rewrite filter_everything; [done|]. eapply List.Forall_impl, HL. cbn. intros l Hle. apply Nat.leb_le. lia.
      - apply List.Forall_forall. intros l Hin. apply filter_In in Hin as [Hin _].
        rewrite List.Forall_forall in HX2. by apply HX2. }
    rewrite <- Hd3. apply (IH _ d L X3); try done. by rewrite Hd3.
Qed.

Lemma within_keeps ws : within ws → ∀ st, sane st → list.last (lists st) = Some (depth st) →
  list.last (lists (foldl search_word st ws)) = Some (depth (foldl search_word st ws)).
Proof.
  induction 1 as [|w ws Hlp Hrp Hend _ IH|inner ws Hin _ IH]; intros st Hs Hlast; [done| |].
  - cbn [foldl]. apply IH; [by apply search_word_sane|].
    unfold search_word, str_eqb. rewrite !bool_decide_eq_false_2 by done. rewrite Hend, andb_false_r.
    destruct (bool_decide (w = lit ",")); [done|]. destruct (eq_ignore_ascii_case w (lit "from")); [cbn; by rewrite last_snoc|].
    by repeat case_match.
  - cbn [foldl]. rewrite foldl_app. cbn [foldl]. apply IH; [by apply search_word_sane, search_sane, search_word_sane|].
    set (st1 := search_word st (lit "(")).
    assert (depth st1 = S (depth st) ∧ ∃ X', lists st1 = lists st ++ X' ∧ Forall (λ l, depth st < l) X') as [Hd1 (X1 & Hl1 & HX1)].
    { unfold st1, search_word. cbn. split; [done|]. destruct (expect_table st); [eexists; split; [done|by repeat constructor]|].
      exists []. by rewrite app_nil_r. }
    destruct (balanced_keeps _ Hin st1 (depth st) (lists st) X1 Hl1 Hs HX1 ltac:(lia)) as [Hd2 (X2 & Hl2 & HX2)].
    unfold search_word at 1 3. cbn. rewrite Hd2, Hd1. replace (S (depth st) - 1) with (depth st) by lia.
    rewrite Hl2, List.filter_app, filter_everything, filter_none, app_nil_r; [done| |].
    + eapply List.Forall_impl, HX2. cbn. intros l Hl. by apply Nat.leb_gt.
    + eapply List.Forall_impl, Hs. cbn. intros l Hl. by apply Nat.leb_le.
Qed.

Lemma reads_tagged words t known :
  reads words t → t ∈ tables (foldl search_word (mkSearch 0 [] false known) words).
Proof.
  assert (sane (mkSearch 0 [] false known)) as H0 by constructor. generalize (mkSearch 0 [] false known) as st0, H0.
  intros st0 Hs0. destruct 1 as [before keyword between name after -> Hk Hg Hn|before keyword items between name after -> Hsy Hf Hw Hg Hn].
  - rewrite foldl_app. cbn [foldl]. change (name :: after) with ([name] ++ after). rewrite app_assoc, foldl_app.
    apply search_tables. apply (gap_names _ _ _ Hg Hn). destruct Hk as [Hs Hk]. destruct (not_symbol _ Hs) as (S1 & S2 & S3).
    unfold search_word. rewrite S1, S2, S3. destruct (eq_ignore_ascii_case keyword (lit "from")); [done|].
    by destruct Hk as [? | ->].
  - rewrite foldl_app. cbn [foldl]. rewrite foldl_app. cbn [foldl]. change (name :: after) with ([name] ++ after).
    rewrite app_assoc, foldl_app. apply search_tables. apply (gap_names _ _ _ Hg Hn).
    pose proof (search_sane before st0 Hs0) as Hs1. set (st1 := foldl search_word st0 before) in *.
    destruct (not_symbol _ Hsy) as (S1 & S2 & S3).
    assert (list.last (lists (search_word st1 keyword)) = Some (depth (search_word st1 keyword))) as Hl.
    { unfold search_word. rewrite S1, S2, S3, Hf. cbn. by rewrite last_snoc. }
    pose proof (within_keeps _ Hw _ (search_word_sane _ keyword Hs1) Hl) as Hl2.
    unfold search_word at 1. cbn. unfold at_list. by apply bool_decide_eq_true.
Qed.


Lemma dotted_end_spec toks : ∀ e e' rest, dotted_end e toks = (e', rest) →
  rest `sublist_of` toks
  ∧ (e' = e ∨ ∃ mid part, mid ++ [part] `sublist_of` toks ∧ e' = start part + slen (text part)).
Proof.
  induction toks as [toks IH] using (induction_ltof1 _ (@length _)); unfold ltof in IH. intros e e' rest.
  destruct toks as [|dot [|part toks]]; cbn [dotted_end].
  - intros [= <- <-]. by split; [|left].
  - destruct (str_eqb _ _); intros [= <- <-]; (split; [|by left]); [apply sublist_nil_l|done].
  - destruct (str_eqb _ _); [|intros [= <- <-]; by split; [|left]].
    intros E. destruct (IH toks ltac:(cbn; lia) _ _ _ E) as [Hs Hc]. split; [by do 2 apply sublist_cons|]. right.
    destruct Hc as [->|(mid & p & Hm & ->)].
    + exists [dot], part. split; [|done]. apply sublist_skip, sublist_skip, sublist_nil_l.
    + exists mid, p. split; [|done]. by do 2 apply sublist_cons.
Qed.

Lemma group_tokens_total sql fuel : ∀ toks, length toks ≤ fuel → placed sql toks → is_Some (group_tokens fuel sql toks).
Proof.
  induction fuel as [|fuel IH]; intros [|first rest] Hl Hp; cbn in Hl; try lia; [by eexists..|].
  cbn [group_tokens].
  assert (∃ e' rest', (if bool_decide (kind first = Word) || bool_decide (kind first = Identifier)
      then dotted_end (start first + slen (text first)) rest else (start first + slen (text first), rest)) = (e', rest')
    ∧ rest' `sublist_of` rest ∧ is_Some (slice_text (start first) e' sql)) as (e' & rest' & -> & Hs & [word Hw]).
  { assert (is_Some (slice_text (start first) (start first + slen (text first)) sql)) as Hone.
    { apply (placed_text sql first []). right. split; [|done]. eapply placed_sublist; [done|].
      apply sublist_skip, sublist_nil_l. }
    destruct (_ || _); [|by eexists _, _].
    destruct (dotted_end _ rest) as [e' rest'] eqn:E. exists e', rest'. apply dotted_end_spec in E as [Hs Hc].
    split_and!; [done..|]. destruct Hc as [->|(mid & p & Hm & ->)]; [done|].
    apply (placed_text sql first mid). left. eapply placed_sublist; [done|]. by apply sublist_skip. }
  rewrite Hw. cbn [mbind option_bind]. destruct (IH rest') as [words ->]; [|by eapply placed_sublist, sublist_cons|by eexists].
  apply sublist_length in Hs. lia.
Qed.

Lemma sql_tokens_total sql : is_Some (sql_tokens sql).
Proof.
  unfold sql_tokens, significant. destruct (scan_total sql false) as (toks & E & Ht & _).
  change (tokens sql = Some toks) in E. rewrite E. cbn [fmap option_fmap option_map mbind option_bind].
  apply group_tokens_total; [done|]. exists toks. split; [done|]. etrans; apply sublist_filter_bool.
Qed.

Lemma collect_tags sql known : ∃ tags, collect_tables_from_sql sql known = Some tags
  ∧ (∀ t, t ∈ known → t ∈ tags) ∧ (∀ words t, sql_tokens sql = Some words → reads words t → t ∈ tags).
Proof.
  unfold collect_tables_from_sql. destruct (sql_tokens_total sql) as [words E]. rewrite E. cbn [mbind option_bind].
  eexists. split_and!; [done| |].
  - intros t Ht. by apply search_tables.
  - intros words' t [= <-] Hr. by apply reads_tagged.
Qed.

Lemma collect_each_tags sqls : ∀ known, ∃ tags, collect_each sqls known = Some tags
  ∧ (∀ t, t ∈ known → t ∈ tags)
  ∧ (∀ sql words t, sql ∈ sqls → sql_tokens sql = Some words → reads words t → t ∈ tags).
Proof.
  unfold collect_each. induction sqls as [|sql sqls IH]; intros known; cbn [foldl mbind option_bind].
  { exists known. split_and!; [done..|]. intros ? ? ? Hin. by apply elem_of_nil in Hin. }
  destruct (collect_tags sql known) as (tags & -> & Hk & Hr). destruct (IH tags) as (tags' & -> & Hk' & Hr').
  exists tags'. split_and!; [done|by auto|]. intros sql' words t [->|Hin]%elem_of_cons Ew Ht; [by eauto|by eapply Hr'].
Qed.

End tagged.


Example tables_are_read :
  collect_tables_from_sql (H := ascii_only) (lit "SELECT a FROM public.users u, ONLY (posts p JOIN `tags` ON 1 = 1) WHERE b IN (SELECT c FROM roles)") []
    = Some [lit "users"; lit "posts"; lit "tags"; lit "roles"].
Proof. by vm_compute. Qed.
