(* ===== verification/Relations.v ===== *)
(** * Eager loading of relations (src/src/relations/eager.rs)

    The related rows of every parent are read in a few queries and handed back per
    parent. The models, the queries they run and the loading the derive macros generate
    are the class [RelatedModel]; a row's key is compared with the requested ones as the
    column's collation has it, which only the database knows. *)

From S2P Require Import Prelude Dialect Filters.
Local Open Scope tide_scope.

(** ** Paths *)

(** A [RelationPath], the segments. *)
Definition RelationPath : Type := list str.

Definition parse (path : str) : RelationPath :=
  List.filter (λ segment, negb (nilb segment)) (split_by (N.eqb 46) path).

Definition root (path : RelationPath) : str := default [] (head path).

Definition nested (path : RelationPath) : option RelationPath :=
  match path with
  | _ :: (_ :: _) as rest => Some rest
  | _ => None
  end.

(** A [RelationTree]; the map of children is a list, each name once, in an order of its
    own. *)
Inductive RelationTree := Tree (children : list (str * RelationTree)).

Definition children (t : RelationTree) : list (str * RelationTree) := let 'Tree c := t in c.
Definition RelationTree_new : RelationTree := Tree [].

Fixpoint child {A} (name : str) (c : list (str * A)) : option A :=
  match c with
  | [] => None
  | (n, t) :: rest => if str_eqb n name then Some t else child name rest
  end.

Fixpoint set_child {A} (name : str) (t : A) (c : list (str * A)) : list (str * A) :=
  match c with
  | [] => [(name, t)]
  | (n, u) :: rest => if str_eqb n name then (n, t) :: rest else (n, u) :: set_child name t rest
  end.

(** [add_path]: the entry of the root, then what is nested under it. *)
Fixpoint add_path (path : RelationPath) (t : RelationTree) : RelationTree :=
  match path with
  | [] => t
  | name :: rest =>
      let under := default RelationTree_new (child name (children t)) in
      Tree (set_child name (add_path rest under) (children t))
  end.

Definition roots (t : RelationTree) : list str := fst <$> children t.
Definition get_nested (t : RelationTree) (name : str) : option RelationTree := child name (children t).
Definition tree_is_empty (t : RelationTree) : bool := nilb (children t).

(** [EagerQueryBuilder::with]: a path with an empty segment is kept whole, to be refused
    by its name. *)
Definition with_relation (t : RelationTree) (relation : str) : RelationTree :=
  let path :=
    if existsb nilb (split_by (N.eqb 46) relation) then [relation] else parse relation in
  add_path path t.

Definition with_many (t : RelationTree) (relations : list str) : RelationTree := foldl with_relation t relations.

(** ** Models with their relations *)

Record WithRelations (M : Type) := mkWith { model : M; relations : gmap str Json }.
Arguments mkWith {M}.
Arguments model {M}.
Arguments relations {M}.

Definition WithRelations_new {M} (m : M) : WithRelations M := mkWith m ∅.

(** [value] is what serde makes of the relation. *)
Definition set_relation {M} (w : WithRelations M) (name : str) (value : result Json str) : result (WithRelations M) str :=
  match value with
  | Ok value => Ok (mkWith (model w) (<[name := value]> (relations w)))
  | Err e => Err (lit "Failed to serialize relation: " ++ e)
  end.

Definition has_relation {M} (w : WithRelations M) (name : str) : bool := bool_decide (is_Some (relations w !! name)).

(** ** Rows by key *)

(** What the loading uses of a model: a field as JSON, the model as a JSON object, the
    text of its primary key; the query [where_in(foreign_key, keys)], with the condition
    on the type of a polymorphic relation; the query that pairs keys, of a lookup for
    each index and key; and what the macros generate to load nested relations. *)
Class RelatedModel (R : Type) := {
  table_name : str;
  column_named : str → str;
  field_json_value : R → str → result (option Json) str;
  to_value : R → result (list (str * Json)) str;
  primary_key_text : R → str;
  rows_in : str → list Json → option (str * str) → result (list R) str;
  pairing_rows : str → list (nat * Json) → option (str * str) → result (list (list (str * Json))) str;
  eager_load : list (WithRelations R) → RelationTree → result (list (WithRelations R)) str;
}.

(** [Value]'s [Display], of what is no string. *)
Class JsonDisplay := json_display : Json → str.

Section eager.
Context `{JsonDisplay}.

(** [json_text], as [__relation_key]. *)
Definition relation_key (key : Json) : str :=
  match key with JString text => text | other => json_display other end.

(** [HashSet::insert] in a filter: each item once, by its text. *)
Fixpoint once {A} (text : A → str) (seen : list str) (items : list A) : list A :=
  match items with
  | [] => []
  | x :: rest =>
      if existsb (str_eqb (text x)) seen then once text seen rest
      else x :: once text (text x :: seen) rest
  end.

(** [slice::chunks]; each round takes at least one. *)
Fixpoint chunks_fuel {A} (fuel n : nat) (l : list A) : list (list A) :=
  match fuel, l with
  | _, [] => []
  | 0, _ => []
  | S fuel', _ => take n l :: chunks_fuel fuel' n (drop n l)
  end.
Definition chunks {A} (n : nat) (l : list A) : list (list A) := chunks_fuel (length l) n l.

Definition PAIRED_KEYS_PER_QUERY : nat := N.to_nat 200.
Definition KEYS_PER_QUERY : nat := N.to_nat 5000.

Definition as_str (key : Json) : option str := match key with JString text => Some text | _ => None end.

(** [trim_end_matches(' ')], then [to_ascii_lowercase]. *)
Definition folded (text : str) : str :=
  to_ascii_lowercase (rev (drop_while (N.eqb 32) (rev text))).

Fixpoint any_folds (seen texts : list str) : bool :=
  match texts with
  | [] => false
  | text :: rest => existsb (str_eqb (folded text)) seen || any_folds (folded text :: seen) rest
  end.

Definition fold_together (keys : list Json) : bool :=
  let texts := omap as_str keys in
  if (length texts <? 2)%nat then false
  else if existsb (λ text, negb (forallb (λ c, (32 <=? c)%N && (c <=? 126)%N) text)) texts then true
  else any_folds [] texts.

Section model.
Context {R : Type} `{RelatedModel R}.

Definition key_value (row : R) (name : str) : result Json str :=
  value <-? field_json_value row name;;
  match value with
  | Some value => Ok value
  | None =>
      match to_value row with
      | Err e => Err (lit "Failed to serialize model: " ++ e)
      | Ok fields =>
          match child name fields with
          | Some value => Ok value
          | None => Err (lit "Field '" ++ name ++ lit "' not found on model")
          end
      end
  end.

(** [entry(key).or_default().push(row)]. *)
Definition push_to {A} (grouped : gmap str (list A)) (key : str) (x : A) : gmap str (list A) :=
  <[key := default [] (grouped !! key) ++ [x]]> grouped.

(** [row[column]] of a JSON object. *)
Definition field (row : list (str * Json)) (name : str) : Json := default JNull (child name row).

(** One row of a pairing query: [seen] holds the pairs made. *)
Definition pair_row (keys : list Json) (column : str) (st : gmap str (list str) * list (str * str))
    (row : list (str * Json)) : result (gmap str (list str) * list (str * str)) str :=
  let '(pairs, seen) := st in
  match (match field row (lit "tideorm_key_index") with
         | JNumber (PosInt index) => keys !! N.to_nat index
         | _ => None
         end) with
  | None => Err (lit "an eager load of " ++ table_name ++ lit " paired a key it did not look up")
  | Some index =>
      let stored := relation_key (field row column) in
      let key := relation_key index in
      if bool_decide ((stored, key) ∈ seen) then Ok (pairs, seen)
      else Ok (push_to pairs stored key, (stored, key) :: seen)
  end.

Fixpoint fold_result {A S E} (f : S → A → result S E) (items : list A) (s : S) : result S E :=
  match items with
  | [] => Ok s
  | x :: rest => s' <-? f s x;; fold_result f rest s'
  end.

(** [matching_keys]: the requested keys that the database matches with each stored one.
    The keys carry their indices through the batches. *)
Definition matching_keys (keys : list Json) (foreign_key : str) (morph_type : option (str * str))
    : result (gmap str (list str)) str :=
  let column := column_named foreign_key in
  st <-? fold_result (λ st lookups,
    rows <-? pairing_rows foreign_key lookups morph_type;;
    fold_result (pair_row keys column) rows st)
    (chunks PAIRED_KEYS_PER_QUERY (enumerate 0 keys)) (∅, []);;
  Ok (fst st).

(** One chunk of [__load_grouped_by_key]. *)
Definition load_chunk (foreign_key : str) (morph_type : option (str * str))
    (grouped : gmap str (list R)) (chunk : list Json) : result (gmap str (list R)) str :=
  rows <-? rows_in foreign_key chunk morph_type;;
  let requested := relation_key <$> chunk in
  keyed <-? fold_result (λ keyed row,
    key <-? key_value row foreign_key;;
    Ok (keyed ++ [(relation_key key, row)])) rows [];;
  if forallb (λ '(key, _), bool_decide (key ∈ requested)) keyed && negb (fold_together chunk) then
    Ok (foldl (λ grouped '(key, row), push_to grouped key row) grouped keyed)
  else
    pairs <-? matching_keys chunk foreign_key morph_type;;
    Ok (foldl (λ grouped '(key, row),
      match pairs !! key with
      | Some matched => foldl (λ grouped key, push_to grouped key row) grouped matched
      | None => if bool_decide (key ∈ requested) then push_to grouped key row else grouped
      end) grouped keyed).

Definition load_grouped_by_key (keys : list Json) (foreign_key : str) (morph_type : option (str * str))
    : result (gmap str (list R)) str :=
  let lookup_keys := once relation_key [] (List.filter (λ key, negb (is_null key)) keys) in
  fold_result (load_chunk foreign_key morph_type) (chunks KEYS_PER_QUERY lookup_keys) ∅.

Definition distinct_by_primary_key (models : list R) : list R := once primary_key_text [] models.

(** The last position of each key. *)
Definition last_positions (keys : list str) : gmap str nat :=
  positions (λ key, key) keys.

(** The map moves out at a key's last position, and is copied before. *)
Fixpoint per_parent_loop {V : Type} (last_ : gmap str nat) (keys : list (nat * str)) (by_key : gmap str V)
    : list (option V) :=
  match keys with
  | [] => []
  | (position, key) :: rest =>
      if bool_decide (last_ !! key = Some position)
      then by_key !! key :: per_parent_loop last_ rest (delete key by_key)
      else by_key !! key :: per_parent_loop last_ rest by_key
  end.

Definition per_parent_key {V : Type} (parent_keys : list Json) (by_key : gmap str V) : list (option V) :=
  let keys := relation_key <$> parent_keys in
  per_parent_loop (last_positions keys) (enumerate 0 keys) by_key.

Definition eager_keyed_many (parent_keys : list Json) (related_key : str) (morph_type : option (str * str))
    : result (list (list R)) str :=
  by_key <-? load_grouped_by_key parent_keys related_key morph_type;;
  Ok (default [] <$> per_parent_key parent_keys by_key).

Definition eager_keyed_one (parent_keys : list Json) (related_key : str) (morph_type : option (str * str))
    : result (list (option R)) str :=
  by_key <-? load_grouped_by_key parent_keys related_key morph_type;;
  Ok (per_parent_key parent_keys (omap head by_key)).

(** The groups of [loaded] again, by their sizes. *)
Fixpoint split_back {A} (sizes : list nat) (restored : list A) : list (list A) :=
  match sizes with
  | [] => []
  | size :: rest => take size restored :: split_back rest (drop size restored)
  end.

Definition eager_load_nested_many (grouped : list (list R)) (nested : option RelationTree)
    : result (list (list R)) str :=
  match nested with
  | Some tree =>
      if tree_is_empty tree then Ok grouped
      else
        restored <-? eager_load (WithRelations_new <$> concat grouped) tree;;
        Ok (split_back (length <$> grouped) (model <$> restored))
  | None => Ok grouped
  end.

Fixpoint fill_slots {A} (slots : list bool) (restored : list A) : list (option A) :=
  match slots with
  | [] => []
  | true :: rest => head restored :: fill_slots rest (tail restored)
  | false :: rest => None :: fill_slots rest restored
  end.

Definition eager_load_nested_one (related : list (option R)) (nested : option RelationTree)
    : result (list (option R)) str :=
  match nested with
  | Some tree =>
      if tree_is_empty tree then Ok related
      else
        restored <-? eager_load (WithRelations_new <$> omap id related) tree;;
        Ok (fill_slots ((λ slot, match slot with Some _ => true | None => false end) <$> related) (model <$> restored))
  | None => Ok related
  end.
End model.

(** Related rows [R] through the links [P]: the links of each parent, in order, and the
    rows of each link. The order of the links' map does not matter. *)
Definition eager_through {R P} `{RelatedModel R} `{RelatedModel P} (parent_keys : list Json)
    (foreign_key related_key related_local_key : str) : result (list (list R)) str :=
  links <-? load_grouped_by_key (R := P) parent_keys foreign_key None;;
  related_keys <-? fold_result (λ keys link, key <-? key_value link related_key;; Ok (keys ++ [key]))
                     (concat (snd <$> map_to_list links)) [];;
  related_by_key <-? load_grouped_by_key (R := R) related_keys related_local_key None;;
  fold_result (λ related key,
    rows <-? fold_result (λ rows link,
        link_key <-? key_value link related_key;;
        Ok (rows ++ default [] (related_by_key !! relation_key link_key)))
      (default [] (links !! relation_key key)) [];;
    Ok (related ++ [distinct_by_primary_key rows])) parent_keys [].

End eager.
