(* ===== verification/EagerRows.v ===== *)
(** * What eager loading gives each parent

    The theorems of [Relations]: the rows handed to each parent are those the database
    matches with its key, as one query per parent would have read them. *)

From S2P Require Import Prelude Dialect Filters Relations.
Local Open Scope tide_scope.

(** ** Lists, chunks and folds *)

Lemma fold_result_app {A S E} (f : S → A → result S E) l l' s :
  fold_result f (l ++ l') s = rbind (fold_result f l s) (fold_result f l').
Proof. revert s. induction l as [|x l IH]; intros s; [done|]. cbn. destruct (f s x); [apply IH|done]. Qed.

(** A fold that never fails and keeps an invariant of what it has read. *)
Lemma fold_result_inv {A S E} (f : S → A → result S E) (I : list A → S → Prop) items : ∀ before s,
  I before s →
  (∀ done_ x rest s, before ++ items = done_ ++ x :: rest → I done_ s → ∃ s', f s x = Ok s' ∧ I (done_ ++ [x]) s') →
  ∃ s', fold_result f items s = Ok s' ∧ I (before ++ items) s'.
Proof.
  induction items as [|x items IH]; intros before s Hs Hstep; [by exists s; rewrite app_nil_r|].
  destruct (Hstep before x items s eq_refl Hs) as (s1 & E1 & Hs1). cbn. rewrite E1. cbn [rbind].
  destruct (IH (before ++ [x]) s1 Hs1) as (s2 & E2 & Hs2).
  - intros d y rest s' Heq. rewrite <- app_assoc in Heq. by eapply Hstep.
  - exists s2. by rewrite <- app_assoc in Hs2.
Qed.

(** A fold that never fails and adds to its result. *)
Lemma fold_result_extend {A B E} (f : list B → A → result (list B) E) (h : A → list B) l : ∀ acc,
  (∀ acc x, x ∈ l → f acc x = Ok (acc ++ h x)) → fold_result f l acc = Ok (acc ++ (l ≫= h)).
Proof.
  induction l as [|x l IH]; intros acc Hf; [cbn; by rewrite app_nil_r|].
  cbn [fold_result]. rewrite Hf by by left. cbn [rbind]. rewrite IH by (intros; apply Hf; by right).
  by rewrite bind_cons, <- app_assoc.
Qed.

Lemma bind_single {A B} (f : A → B) (l : list A) : (l ≫= λ x, [f x]) = f <$> l.
Proof. induction l as [|x l IH]; [done|]. by rewrite bind_cons, fmap_cons, IH. Qed.

Lemma chunks_concat {A} n (l : list A) : 0 < n → concat (chunks n l) = l.
Proof.
  intros Hn. unfold chunks. assert (length l ≤ length l) as Hl by done. revert Hl. generalize (length l) at 2 3 as fuel.
  intros fuel. revert l. induction fuel as [|fuel IH]; intros [|x l] Hl; cbn in Hl; try lia; [done|done|].
  cbn [chunks_fuel]. rewrite concat_cons, IH; [by rewrite take_drop|]. rewrite length_drop. cbn. lia.
Qed.

Section once.
Context {A : Type} (text : A → str).

Lemma once_spec l : ∀ seen,
  NoDup (text <$> once text seen l)
  ∧ (∀ x, x ∈ once text seen l → x ∈ l ∧ text x ∉ seen)
  ∧ (∀ x, x ∈ l → text x ∉ seen → ∃ y, y ∈ once text seen l ∧ text y = text x).
Proof.
  induction l as [|x l IH]; intros seen; cbn [once].
  { split_and!; [constructor|intros y Hy; by apply elem_of_nil in Hy|intros y Hy; by apply elem_of_nil in Hy]. }
  destruct (existsb (str_eqb (text x)) seen) eqn:E.
  - assert (text x ∈ seen) as Hx.
    { apply existsb_exists in E as (t & Ht & ->%str_eqb_true). by apply list_elem_of_In. }
    destruct (IH seen) as (H1 & H2 & H3). split_and!; [done| |].
    + intros y Hy. destruct (H2 y Hy). by split; [right|].
    + intros y [->|Hy]%elem_of_cons Hn; [done|by apply H3].
  - assert (text x ∉ seen) as Hx.
    { intros Hin. apply list_elem_of_In in Hin. assert (existsb (str_eqb (text x)) seen = true) as E'; [|congruence].
      apply existsb_exists. exists (text x). split; [done|by apply str_eqb_true]. }
    destruct (IH (text x :: seen)) as (H1 & H2 & H3). split_and!.
    + rewrite fmap_cons. constructor; [|done]. intros (y & Ey & Hy)%list_elem_of_fmap.
      destruct (H2 y Hy) as [_ Hn]. apply Hn. rewrite Ey. by left.
    + intros y [->|Hy]%elem_of_cons; [by split; [left|]|]. destruct (H2 y Hy) as [? Hn].
      split; [by right|]. intros ?. apply Hn. by right.
    + intros y Hy Hn. destruct (decide (text y = text x)) as [Heq|Hne].
      * exists x. by split; [left|].
      * apply elem_of_cons in Hy as [->|Hy]; [done|]. destruct (H3 y Hy) as (z & Hz & ?).
        { by intros [?|?]%elem_of_cons. }
        exists z. by split; [right|].
Qed.
End once.

(** ** Parents and their groups *)

Section parents.
Context `{JsonDisplay}.

Lemma last_positions_lookup keys : ∀ off (m : gmap str nat) k,
  foldl (λ (m : gmap str nat) ix, <[ix.2 := ix.1]> m) m (enumerate off keys) !! k
  = match list.last (List.filter (λ '(_, key), str_eqb key k) (enumerate off keys)) with
    | Some (p, _) => Some p
    | None => m !! k
    end.
Proof.
  induction keys as [|key keys IH]; intros off m k; [done|]. cbn [enumerate foldl List.filter fst snd]. rewrite IH.
  destruct (str_eqb key k) eqn:E.
  - apply str_eqb_true in E as ->. destruct (List.filter _ (enumerate (S off) keys)) as [|x l] eqn:El.
    + cbn. by rewrite lookup_insert_eq.
    + rewrite last_cons_cons. destruct (list.last (x :: l)) eqn:El'; [done|]. by apply list.last_None in El'.
  - destruct (list.last _) as [[p ?]|]; [done|]. rewrite lookup_insert_ne; [done|]. intros ->.
    by rewrite (proj2 (str_eqb_true k k)) in E.
Qed.

Lemma last_occurrence k rest : ∀ off, k ∈ rest → ∃ p, p ≥ off
  ∧ list.last (List.filter (λ '(_, key), str_eqb key k) (enumerate off rest)) = Some (p, k).
Proof.
  induction rest as [|x rest IH]; intros off Hk; [by apply elem_of_nil in Hk|].
  cbn [enumerate List.filter]. destruct (decide (k ∈ rest)) as [Hin|Hnin].
  - destruct (IH (S off) Hin) as (p & Hp & E). exists p. split; [lia|].
    destruct (str_eqb x k); [|done]. destruct (List.filter _ _) as [|y l]; [done|]. by rewrite last_cons_cons.
  - apply elem_of_cons in Hk as [->|Hk]; [|done]. exists off. split; [lia|].
    rewrite (proj2 (str_eqb_true x x)) by done. destruct (List.filter _ _) as [|[p y] l] eqn:El; [done|].
    exfalso. apply Hnin.
    assert (In (p, y) (List.filter (λ '(_, key), str_eqb key x) (enumerate (S off) rest))) as Hin by (rewrite El; by left).
    apply filter_In in Hin as [Hin ->%str_eqb_true]. apply list_elem_of_In, list_elem_of_lookup in Hin as [i Hi].
    rewrite lookup_enumerate in Hi. destruct (rest !! i) as [z|] eqn:Ez; [|done]. injection Hi as _ ->.
    by eapply list_elem_of_lookup_2.
Qed.

(** Each parent gets the group of its key, whether it is copied or moved out. *)
Lemma per_parent_key_spec {V : Type} (parent_keys : list Json) (by_key : gmap str V) :
  per_parent_key parent_keys by_key = (λ k, by_key !! relation_key k) <$> parent_keys.
Proof.
  unfold per_parent_key. set (keys := relation_key <$> parent_keys).
  transitivity ((λ k, by_key !! k) <$> keys); [|unfold keys; by rewrite <- list_fmap_compose].
  unfold last_positions, positions.
  assert (∀ rest off (m : gmap str V) last_,
    (∀ k, k ∈ rest → m !! k = by_key !! k) →
    (∀ k p, p ≥ off → last_ !! k = Some p →
       list.last (List.filter (λ '(_, key), str_eqb key k) (enumerate off rest)) = Some (p, k)) →
    per_parent_loop last_ (enumerate off rest) m = (λ k, by_key !! k) <$> rest) as Hgen.
  { induction rest as [|k rest IH]; intros off m last_ Hm Hl; [done|].
    cbn [enumerate per_parent_loop]. rewrite fmap_cons.
    assert (∀ k' p, p ≥ S off → last_ !! k' = Some p →
       list.last (List.filter (λ '(_, key), str_eqb key k') (enumerate (S off) rest)) = Some (p, k')) as Hl'.
    { intros k' p Hp Hk'. specialize (Hl k' p ltac:(lia) Hk'). cbn [enumerate List.filter] in Hl.
      destruct (str_eqb k k'); [|done].
      destruct (List.filter _ (enumerate (S off) rest)) as [|x l]; [cbn in Hl; injection Hl; lia|].
      by rewrite last_cons_cons in Hl. }
    rewrite (Hm k) by by left. case_bool_decide as Hd; f_equal.
    - apply IH; [|done]. intros k' Hk'. rewrite lookup_delete_ne; [apply Hm; by right|]. intros <-.
      specialize (Hl k off ltac:(lia) Hd). cbn [enumerate List.filter] in Hl.
      rewrite (proj2 (str_eqb_true k k)) in Hl by done.
      destruct (last_occurrence k rest (S off) Hk') as (p & Hp & E).
      destruct (List.filter _ _) as [|y l]; [done|]. rewrite last_cons_cons, E in Hl. injection Hl. lia.
    - apply IH; [|done]. intros k' Hk'. apply Hm. by right. }
  apply Hgen; [done|]. intros k p _ Hk. rewrite last_positions_lookup, lookup_empty in Hk.
  destruct (list.last _) as [[q k']|] eqn:E; [|done]. injection Hk as ->.
  assert ((p, k') ∈ List.filter (λ '(_, key), str_eqb key k) (enumerate 0 keys)) as Hin.
  { destruct (List.filter _ _) as [|y l _] using rev_ind; [done|]. rewrite last_snoc in E. injection E as ->.
    apply elem_of_app. right. by apply list_elem_of_singleton. }
  apply list_elem_of_In, filter_In in Hin as [_ Heq%str_eqb_true]. by subst.
Qed.

End parents.

(** ** Groups *)

(** The rows of a group, none where there is no entry. *)
Definition group_of {A} (g : gmap str (list A)) (t : str) : list A := default [] (g !! t).

Lemma in_some_group {A} (g : gmap str (list A)) x : x ∈ concat (snd <$> map_to_list g) ↔ ∃ t, x ∈ group_of g t.
Proof.
  rewrite list_elem_of_In, in_concat. setoid_rewrite <- list_elem_of_In. split.
  - intros (l & ([t l'] & -> & Hin)%list_elem_of_fmap & Hl). apply elem_of_map_to_list in Hin.
    exists t. unfold group_of. by rewrite Hin.
  - intros [t Ht]. unfold group_of in Ht. destruct (g !! t) as [l|] eqn:E; [|by apply elem_of_nil in Ht].
    exists l. split; [|done]. apply list_elem_of_fmap. exists (t, l). split; [done|]. by apply elem_of_map_to_list.
Qed.

Lemma group_push {A} (g : gmap str (list A)) key x t :
  group_of (push_to g key x) t = group_of g t ++ (if bool_decide (t = key) then [x] else []).
Proof.
  unfold group_of, push_to. case_bool_decide as E; [subst; by rewrite lookup_insert_eq|].
  rewrite lookup_insert_ne by congruence. by rewrite app_nil_r.
Qed.

Lemma group_pushes {A} (x : A) ts t : ∀ g, NoDup ts →
  group_of (foldl (λ g key, push_to g key x) g ts) t = group_of g t ++ (if bool_decide (t ∈ ts) then [x] else []).
Proof.
  induction ts as [|key ts IH]; intros g Hnd; cbn [foldl].
  - rewrite bool_decide_eq_false_2 by (by intros ?%elem_of_nil). by rewrite app_nil_r.
  - apply list.NoDup_cons in Hnd as [Hk Hnd]. rewrite IH, group_push, <- app_assoc by done. f_equal.
    destruct (decide (t = key)) as [->|Hne].
    + rewrite (bool_decide_eq_true_2 (key = key)), (bool_decide_eq_false_2 (key ∈ ts)) by done.
      by rewrite bool_decide_eq_true_2 by by left.
    + rewrite (bool_decide_eq_false_2 (t = key)) by done. cbn. apply (f_equal (λ b : bool, if b then _ else _)).
      apply bool_decide_ext. rewrite elem_of_cons. tauto.
Qed.

(** A fold that pushes every row to the groups of its targets. *)
Lemma group_all {A} (F : gmap str (list A) → str * A → gmap str (list A)) (targets : str → list str) (keyed : list (str * A)) t :
  (∀ g key row, (key, row) ∈ keyed → F g (key, row) = foldl (λ g key, push_to g key row) g (targets key)) →
  (∀ key, NoDup (targets key)) →
  ∀ g, group_of (foldl F g keyed) t
    = group_of g t ++ (snd <$> List.filter (λ '(key, _), bool_decide (t ∈ targets key)) keyed).
Proof.
  intros HF Hnd. induction keyed as [|[key row] keyed IH]; intros g; cbn [foldl List.filter]; [by rewrite app_nil_r|].
  rewrite IH by (intros; apply HF; by right). rewrite HF by by left. rewrite group_pushes, <- app_assoc by done.
  f_equal. by case_bool_decide.
Qed.

Lemma filter_perm {A} (p : A → bool) (l l' : list A) : l ≡ₚ l' → List.filter p l ≡ₚ List.filter p l'.
Proof.
  induction 1 as [|x l l' _ IH|x y l|l1 l2 l3 _ IH1 _ IH2]; cbn [List.filter]; [done|..].
  - destruct (p x); [by constructor|done].
  - destruct (p x), (p y); try done. constructor.
  - by etransitivity.
Qed.

Lemma filter_filter {A} (p q : A → bool) (l : list A) :
  List.filter p (List.filter q l) = List.filter (λ x, q x && p x) l.
Proof.
  induction l as [|x l IH]; cbn [List.filter]; [done|]. destruct (q x); cbn [andb List.filter]; [|done].
  by destruct (p x); rewrite IH.
Qed.

Lemma filter_fmap {A B} (f : A → B) (p : B → bool) (l : list A) :
  List.filter p (f <$> l) = f <$> List.filter (λ x, p (f x)) l.
Proof. induction l as [|x l IH]; [done|]. rewrite fmap_cons. cbn [List.filter]. rewrite IH. by destruct (p (f x)). Qed.

Lemma NoDup_image {A B} (f : A → B) l x y : NoDup (f <$> l) → x ∈ l → y ∈ l → f x = f y → x = y.
Proof.
  intros Hnd [i Hi]%list_elem_of_lookup [j Hj]%list_elem_of_lookup E.
  assert (i = j) as ->; [|congruence].
  eapply NoDup_lookup; [exact Hnd|..]; rewrite list_lookup_fmap, ?Hi, ?Hj; cbn; [done|by f_equal].
Qed.

(** ** Keys that a collation could fold *)

Definition printable (text : str) : Prop := forallb (λ c, (32 <=? c)%N && (c <=? 126)%N) text = true.

Lemma any_folds_spec texts : ∀ seen, any_folds seen texts = false →
  NoDup (folded <$> texts) ∧ ∀ t, t ∈ texts → folded t ∉ seen.
Proof.
  induction texts as [|t texts IH]; intros seen; cbn [any_folds].
  { intros _. split; [constructor|by intros t ?%elem_of_nil]. }
  intros [E1 E2]%orb_false_iff. destruct (IH _ E2) as [H1 H2].
  assert (folded t ∉ seen) as Ht.
  { intros Hin. assert (existsb (str_eqb (folded t)) seen = true) as E'; [|congruence].
    apply existsb_exists. exists (folded t). rewrite <- list_elem_of_In. split; [done|by apply str_eqb_true]. }
  split.
  - rewrite fmap_cons. constructor; [|done]. intros (u & Eu & Hu)%list_elem_of_fmap.
    apply (H2 u Hu). rewrite Eu. by left.
  - intros u [->|Hu]%elem_of_cons; [done|]. intros Hin. apply (H2 u Hu). by right.
Qed.

(** Where no two of the requested keys could fold, two different texts are plain ASCII
    and fold apart. *)
Lemma no_fold_apart keys s t :
  fold_together keys = false → JString s ∈ keys → JString t ∈ keys → s ≠ t →
  printable s ∧ printable t ∧ folded s ≠ folded t.
Proof.
  unfold fold_together. intros Hf Hs Ht Hne.
  assert (∀ u, JString u ∈ keys → u ∈ omap as_str keys) as Hin.
  { intros u Hu. apply list_elem_of_omap. by exists (JString u). }
  apply Hin in Hs, Ht. destruct (_ <? 2)%nat eqn:E.
  { apply Nat.ltb_lt in E. destruct (omap as_str keys) as [|a [|b l]]; cbn in E; try lia.
    - by apply elem_of_nil in Hs.
    - apply list_elem_of_singleton in Hs, Ht. congruence. }
  destruct (existsb _ (omap as_str keys)) eqn:Ea; [done|].
  assert (∀ u, u ∈ omap as_str keys → printable u) as Hp.
  { intros u Hu. unfold printable. destruct (forallb _ u) eqn:Eu; [done|].
    assert (existsb (λ text, negb (forallb (λ c, (32 <=? c)%N && (c <=? 126)%N) text)) (omap as_str keys) = true);
      [|congruence].
    apply existsb_exists. exists u. rewrite <- list_elem_of_In. by rewrite Eu. }
  apply any_folds_spec in Hf as [Hnd _]. split_and!; [by apply Hp..|]. intros Hfold. apply Hne. by eapply NoDup_image.
Qed.

(** ** What the database answers *)

Section database.
Context `{JsonDisplay} {R : Type} `{RelatedModel R}.

(** The relation read, the rows its query may see, the key each stores, and how the
    column's collation compares the text of a stored key with a requested one. *)
Context (foreign_key : str) (morph_type : option (str * str)).
Context (table : list R) (stored : R → Json) (collates : str → str → bool).

(** [foreign_key = key]; NULL equals nothing. *)
Definition hit (row : R) (key : Json) : bool :=
  negb (is_null (stored row)) && negb (is_null key)
  && collates (relation_key (stored row)) (relation_key key).

(** What one query for the key reads. *)
Definition matched (key : Json) : list R := List.filter (λ row, hit row key) table.

(** What is relied on, for the keys requested:
    - a text collates with itself; two keys of which one is no text match one stored key
      only when spelled alike; two texts of printable ASCII that match one stored key
      differ at most in case and trailing spaces;
    - a row's field is the key the table stores, and [where_in] gives the rows that match
      some key, in any order;
    - the pairing query gives, for each lookup and each row that matches its key, a row
      with the lookup's index and the stored key, and nothing else. *)
Record KeyedTable (requested : list Json) : Prop := {
  collates_refl : ∀ t, collates t t = true;
  collates_other : ∀ row k k', row ∈ table → k ∈ requested → k' ∈ requested → hit row k = true → hit row k' = true →
    as_str k = None → relation_key k = relation_key k';
  collates_ascii : ∀ row s t, row ∈ table → JString s ∈ requested → JString t ∈ requested →
    hit row (JString s) = true → hit row (JString t) = true → printable s → printable t → folded s = folded t;
  reads_field : ∀ row, row ∈ table → key_value row foreign_key = Ok (stored row);
  reads_rows : ∀ keys, (∀ k, k ∈ keys → k ∈ requested ∧ is_null k = false) →
    ∃ rows, rows_in foreign_key keys morph_type = Ok rows
      ∧ rows ≡ₚ List.filter (λ row, existsb (hit row) keys) table;
  reads_pairs : ∀ lookups, (∀ i k, (i, k) ∈ lookups → k ∈ requested ∧ is_null k = false) →
    ∃ rows, pairing_rows (R := R) foreign_key lookups morph_type = Ok rows
      ∧ (∀ o, o ∈ rows → ∃ n k row, (N.to_nat n, k) ∈ lookups ∧ row ∈ table ∧ hit row k = true
           ∧ field o (lit "tideorm_key_index") = JNumber (PosInt n)
           ∧ relation_key (field o (column_named (R := R) foreign_key)) = relation_key (stored row))
      ∧ (∀ i k row, (i, k) ∈ lookups → row ∈ table → hit row k = true → ∃ o, o ∈ rows
           ∧ field o (lit "tideorm_key_index") = JNumber (PosInt (N.of_nat i))
           ∧ relation_key (field o (column_named (R := R) foreign_key)) = relation_key (stored row));
}.

(** The rows of the group spelled [t], for the keys looked up. *)
Definition mine (keys : list Json) (t : str) : list R :=
  concat (matched <$> List.filter (λ k, str_eqb (relation_key k) t) keys).

Lemma mine_app keys keys' t : mine (keys ++ keys') t = mine keys t ++ mine keys' t.
Proof. unfold mine. by rewrite List.filter_app, fmap_app, concat_app. Qed.

Lemma mine_absent keys t : t ∉ relation_key <$> keys → mine keys t = [].
Proof.
  intros Hn. unfold mine. assert (List.filter (λ k, str_eqb (relation_key k) t) keys = []) as ->; [|done].
  induction keys as [|k keys IH]; cbn [List.filter]; [done|].
  destruct (str_eqb (relation_key k) t) eqn:E.
  - apply str_eqb_true in E as <-. destruct Hn. rewrite fmap_cons. by left.
  - apply IH. intros Hin. apply Hn. rewrite fmap_cons. by right.
Qed.

Lemma existsb_spelled keys t row : t ∉ relation_key <$> keys →
  existsb (λ k, str_eqb (relation_key k) t && hit row k) keys = false.
Proof.
  intros Hn. apply not_true_iff_false. intros (k & Hk & [E%str_eqb_true _]%andb_true_iff)%existsb_exists.
  apply Hn. rewrite <- E. apply list_elem_of_fmap_2. by apply list_elem_of_In.
Qed.

(** One query's rows, of which each group takes those of its key. *)
Lemma mine_alt keys t : NoDup (relation_key <$> keys) →
  mine keys t = List.filter (λ row, existsb (λ k, str_eqb (relation_key k) t && hit row k) keys) table.
Proof.
  induction keys as [|k keys IH]; intros Hnd.
  { cbn. induction table as [|r rows IH]; [done|]. cbn. exact IH. }
  rewrite fmap_cons in Hnd. apply list.NoDup_cons in Hnd as [Hk Hnd].
  change (k :: keys) with ([k] ++ keys). rewrite mine_app. unfold mine at 1. cbn [List.filter].
  destruct (str_eqb (relation_key k) t) eqn:E.
  - apply str_eqb_true in E as <-. rewrite mine_absent, app_nil_r by done. cbn [fmap list_fmap concat]. rewrite app_nil_r.
    apply List.filter_ext. intros row. cbn [app existsb]. rewrite existsb_spelled by done.
    by rewrite (proj2 (str_eqb_true _ _) eq_refl), orb_false_r.
  - cbn [fmap list_fmap concat app]. rewrite IH by done. apply List.filter_ext. intros row. cbn [existsb]. by rewrite E.
Qed.

Lemma hit_text row k k' : is_null k = false → is_null k' = false → relation_key k = relation_key k' → hit row k = hit row k'.
Proof. intros Hk Hk' E. unfold hit. by rewrite Hk, Hk', E. Qed.

Context (requested : list Json) (T : KeyedTable requested).

Lemma hit_stored row k : is_null (stored row) = false → is_null k = false →
  relation_key (stored row) = relation_key k → hit row k = true.
Proof. intros Hr Hk E. unfold hit. by rewrite Hr, Hk, E, (collates_refl _ T). Qed.

(** Without keys that could fold, keys that match one stored key are spelled alike. *)
Lemma hits_spelled_alike keys row k k' :
  (∀ k, k ∈ keys → k ∈ requested) → fold_together keys = false → row ∈ table → k ∈ keys → k' ∈ keys →
  hit row k = true → hit row k' = true → relation_key k = relation_key k'.
Proof.
  intros Hin Hf Hr Hk Hk' E E'. destruct (as_str k) as [s|] eqn:Es; [|eapply (collates_other _ T); eauto].
  destruct (as_str k') as [t|] eqn:Et; [|symmetry; eapply (collates_other _ T); eauto].
  destruct k, k'; try done. injection Es as ->. injection Et as ->. cbn. destruct (decide (s = t)) as [|Hne]; [done|].
  destruct (no_fold_apart keys s t Hf Hk Hk' Hne) as (Hs & Ht & []). eapply (collates_ascii _ T); eauto.
Qed.

(** ** Keys paired by the database *)

Section pairing.
Context (keys : list Json) (column : str).

(** The pairs recorded are those of the groups, each once. *)
Definition paired (st : gmap str (list str) * list (str * str)) : Prop :=
  (∀ s t, t ∈ group_of (fst st) s ↔ (s, t) ∈ snd st) ∧ (∀ s, NoDup (group_of (fst st) s)).

(** What a row of a pairing query says. *)
Definition pairing (o : list (str * Json)) (s t : str) : Prop :=
  ∃ n k, field o (lit "tideorm_key_index") = JNumber (PosInt n) ∧ keys !! N.to_nat n = Some k
    ∧ relation_key (field o column) = s ∧ relation_key k = t.

Lemma pairing_unique o s t s' t' : pairing o s t → pairing o s' t' → s = s' ∧ t = t'.
Proof. intros (n & k & E1 & E2 & <- & <-) (n' & k' & E1' & E2' & <- & <-). assert (n' = n) as -> by congruence. assert (k' = k) as -> by congruence. by split. Qed.

Lemma pair_row_spec st o s t : pairing o s t → paired st →
  ∃ st', pair_row (R := R) keys column st o = Ok st' ∧ paired st'
    ∧ ∀ s' t', (s', t') ∈ snd st' ↔ (s', t') ∈ snd st ∨ (s', t') = (s, t).
Proof.
  destruct st as [pairs seen]. intros (n & k & En & Ek & <- & <-) [H1 H2]. unfold pair_row. rewrite En, Ek.
  case_bool_decide as Hin.
  - exists (pairs, seen). split; [done|]. split; [done|]. intros s' t'. cbn. split; [tauto|]. by intros [?|[= -> ->]].
  - eexists. split; [done|]. cbn [fst snd] in *. split; [split|]; cbn [fst snd].
    + intros s' t'. rewrite group_push, elem_of_app, H1, elem_of_cons. case_bool_decide as E.
      * subst. rewrite list_elem_of_singleton. split; [intros [?| ->]; tauto|]. intros [[= ->]|?]; tauto.
      * split; [by intros [?|?%elem_of_nil]; [right|]|]. intros [[= ? ->]|?]; [done|tauto].
    + intros s'. rewrite group_push. case_bool_decide as E; [|by rewrite app_nil_r]. subst.
      apply list.NoDup_app. split; [apply H2|]. split; [|apply NoDup_singleton].
      intros t' Ht' ->%list_elem_of_singleton. by apply Hin, H1.
    + intros s' t'. rewrite elem_of_cons. tauto.
Qed.

Lemma pair_rows_spec rows st : (∀ o, o ∈ rows → ∃ s t, pairing o s t) → paired st →
  ∃ st', fold_result (pair_row (R := R) keys column) rows st = Ok st' ∧ paired st'
    ∧ ∀ s t, (s, t) ∈ snd st' ↔ (s, t) ∈ snd st ∨ ∃ o, o ∈ rows ∧ pairing o s t.
Proof.
  revert st. induction rows as [|o rows IH]; intros st Hrows Hst.
  { exists st. split; [done|]. split; [done|]. intros s t. split; [tauto|]. by intros [?|(o & ?%elem_of_nil & _)]. }
  destruct (Hrows o) as (s0 & t0 & Ho); [by left|]. destruct (pair_row_spec st o s0 t0 Ho Hst) as (st1 & E1 & Hst1 & Hin1).
  destruct (IH st1) as (st2 & E2 & Hst2 & Hin2); [intros; apply Hrows; by right|done|].
  exists st2. cbn. rewrite E1. split; [done|]. split; [done|]. intros s t. rewrite Hin2, Hin1. split.
  - intros [[?|[= -> ->]]|(o' & ? & ?)]; [tauto| |].
    + right. exists o. by split; [left|].
    + right. exists o'. by split; [right|].
  - intros [?|(o' & [->|?]%elem_of_cons & Ho')]; [tauto| |].
    + destruct (pairing_unique _ _ _ _ _ Ho Ho') as [-> ->]. tauto.
    + right. by exists o'.
Qed.
End pairing.

(** Each requested key is paired with the stored keys it matches, in its batch. *)
Lemma matching_keys_spec keys : (∀ k, k ∈ keys → k ∈ requested ∧ is_null k = false) →
  ∃ pairs, matching_keys (R := R) keys foreign_key morph_type = Ok pairs ∧ (∀ s, NoDup (group_of pairs s))
    ∧ ∀ s t, t ∈ group_of pairs s ↔
        ∃ k row, k ∈ keys ∧ row ∈ table ∧ hit row k = true ∧ relation_key (stored row) = s ∧ relation_key k = t.
Proof.
  intros Hkeys. unfold matching_keys. set (batches := chunks _ _).
  assert (concat batches = enumerate 0 keys) as Hb by (apply chunks_concat; unfold PAIRED_KEYS_PER_QUERY; lia).
  assert (∀ i k, (i, k) ∈ concat batches ↔ keys !! i = Some k) as Hlook.
  { intros i k. rewrite Hb, list_elem_of_lookup. setoid_rewrite lookup_enumerate. split.
    - intros [j Hj]. cbn in Hj. destruct (keys !! j) eqn:E; [|done]. cbn in Hj. by simplify_eq.
    - intros Hi. exists i. cbn. by rewrite Hi. }
  destruct (fold_result_inv (λ st lookups,
    rows <-? pairing_rows foreign_key lookups morph_type;;
    fold_result (pair_row keys (column_named foreign_key)) rows st)
    (λ done_ st, paired st ∧ ∀ s t, (s, t) ∈ snd st ↔ ∃ i k row, (i, k) ∈ concat done_ ∧ row ∈ table
      ∧ hit row k = true ∧ relation_key (stored row) = s ∧ relation_key k = t) batches [] (∅, []))
    as ([pairs seen] & E & [[H1 H2] Hseen]).
  - split; [split|]; cbn [fst snd]; unfold group_of.
    + intros s t. rewrite lookup_empty. by split; intros ?%elem_of_nil.
    + intros s. rewrite lookup_empty. constructor.
    + intros s t. split; [by intros ?%elem_of_nil|]. by intros (i & k & row & ?%elem_of_nil & _).
  - intros done_ batch rest st Heq [Hst Hseen]. cbn [app] in Heq.
    assert (∀ i k, (i, k) ∈ batch → keys !! i = Some k) as Hbatch.
    { intros i k Hin. apply Hlook. rewrite Heq, concat_app, concat_cons, !elem_of_app. tauto. }
    destruct (reads_pairs _ T batch) as (rows & Er & Hsound & Hcomplete).
    { intros i k Hin. by eapply Hkeys, list_elem_of_lookup_2, Hbatch. }
    destruct (pair_rows_spec keys (column_named (R := R) foreign_key) rows st) as (st' & E & Hst' & Hin'); [|done|].
    + intros o Ho. destruct (Hsound o Ho) as (n & k & row & Hin & _ & _ & En & _).
      exists (relation_key (field o (column_named (R := R) foreign_key))), (relation_key k), n, k. auto.
    + exists st'. rewrite Er. split; [done|]. split; [done|]. intros s t. rewrite Hin', Hseen, concat_app. cbn [concat].
      rewrite app_nil_r. setoid_rewrite elem_of_app. split.
      * intros [(i & k & row & ? & ?)|(o & Ho & n & k & En & Ek & <- & <-)]; [exists i, k, row; tauto|].
        destruct (Hsound o Ho) as (n' & k' & row & Hin & Hr & Hh & En' & Es). assert (n' = n) as -> by congruence.
        rewrite (Hbatch _ _ Hin) in Ek. injection Ek as ->. exists (N.to_nat n), k, row. auto.
      * intros (i & k & row & [?|Hin] & Hr & Hh & <- & <-); [left; by exists i, k, row|right].
        destruct (Hcomplete i k row Hin Hr Hh) as (o & Ho & En & Es). exists o. split; [done|].
        exists (N.of_nat i), k. rewrite Nat2N.id. auto.
  - unfold rbind at 1. rewrite E. exists pairs. split; [done|]. split; [exact H2|]. intros s t. cbn in H1, Hseen.
    rewrite H1, Hseen. cbn [app]. split.
    + intros (i & k & row & Hin & ?). exists k, row. split; [|done]. by eapply list_elem_of_lookup_2, Hlook.
    + intros (k & row & [i Hi]%list_elem_of_lookup & ?). exists i, k, row. split; [by apply Hlook|done].
Qed.

(** ** One chunk of keys *)

Lemma keyed_rows rows : (∀ r, r ∈ rows → r ∈ table) →
  fold_result (λ keyed row,
    key <-? key_value row foreign_key;;
    Ok (keyed ++ [(relation_key key, row)])) rows []
  = Ok ((λ r, (relation_key (stored r), r)) <$> rows).
Proof.
  intros Hrows. rewrite (fold_result_extend _ (λ r, [(relation_key (stored r), r)])); [by rewrite bind_single|].
  intros keyed r Hr. by rewrite (reads_field _ T) by by apply Hrows.
Qed.

(** The rows read for a chunk of keys. *)
Section chunk.
Context (chunk : list Json) (rows : list R).
Context (Hchunk : ∀ k, k ∈ chunk → k ∈ requested ∧ is_null k = false).
Context (Hrows : rows ≡ₚ List.filter (λ row, existsb (hit row) chunk) table).

Lemma row_read r : r ∈ rows ↔ r ∈ table ∧ ∃ k, k ∈ chunk ∧ hit r k = true.
Proof.
  rewrite Hrows, list_elem_of_In, filter_In, <- list_elem_of_In, existsb_exists.
  by setoid_rewrite <- list_elem_of_In.
Qed.

(** Whatever the targets of the stored keys are, when they are the keys matched. *)
Lemma regrouped (targets : str → list str) grouped g : NoDup (relation_key <$> chunk) →
  (∀ r t, r ∈ rows → t ∈ targets (relation_key (stored r)) ↔ ∃ k, k ∈ chunk ∧ relation_key k = t ∧ hit r k = true) →
  (∀ t, group_of g t = group_of grouped t ++ (snd <$> List.filter (λ '(key, _), bool_decide (t ∈ targets key))
           ((λ r, (relation_key (stored r), r)) <$> rows))) →
  ∀ t, group_of g t ≡ₚ group_of grouped t ++ mine chunk t.
Proof.
  intros Hnd Htargets Hg t. rewrite Hg, mine_alt, filter_fmap, <- list_fmap_compose by done. f_equiv.
  rewrite list_fmap_id. rewrite (filter_perm _ _ _ Hrows), filter_filter.
  match goal with |- ?a ≡ₚ ?b => cut (a = b); [by intros ->|] end.
  apply List.filter_ext_in. intros r Hin%list_elem_of_In. apply eq_true_iff_eq.
  rewrite andb_true_iff, bool_decide_eq_true, !existsb_exists. split.
  - intros [(k & Hk%list_elem_of_In & Hh) Ht]. apply Htargets in Ht as (k' & Hk'%list_elem_of_In & <- & Hh').
    + exists k'. split; [done|]. by rewrite Hh', (proj2 (str_eqb_true _ _) eq_refl).
    + apply row_read. eauto.
  - intros (k & Hk%list_elem_of_In & [<-%str_eqb_true Hh]%andb_true_iff). split; [exists k; by rewrite <- list_elem_of_In|].
    apply Htargets; [apply row_read; eauto|]. eauto.
Qed.

(** Without folding, the text of a stored key is the one key it matches. *)
Lemma targets_by_text : forallb (λ '(key, _), bool_decide (key ∈ relation_key <$> chunk))
    ((λ r, (relation_key (stored r), r)) <$> rows) = true → fold_together chunk = false →
  ∀ r t, r ∈ rows → t ∈ [relation_key (stored r)] ↔ ∃ k, k ∈ chunk ∧ relation_key k = t ∧ hit r k = true.
Proof.
  intros Eall Ef r t Hin. rewrite list_elem_of_singleton. destruct (proj1 (row_read r) Hin) as [Htab (k & Hk & Hh)].
  rewrite forallb_forall in Eall.
  assert (relation_key (stored r) ∈ relation_key <$> chunk) as (k' & Ek' & Hk')%list_elem_of_fmap.
  { specialize (Eall (relation_key (stored r), r)). cbn in Eall. rewrite bool_decide_eq_true in Eall. apply Eall.
    apply list_elem_of_In, list_elem_of_fmap. by exists r. }
  assert (is_null (stored r) = false) as Hns by (unfold hit in Hh; by destruct (is_null (stored r))).
  assert (hit r k' = true) as Hh' by (apply hit_stored; [done|by apply Hchunk|done]).
  assert (∀ a, a ∈ chunk → a ∈ requested) as Hreq by (intros; by apply Hchunk).
  split; [intros ->; by exists k'|]. intros (k2 & Hk2 & <- & Hh2). rewrite Ek'.
  by eapply (hits_spelled_alike chunk r).
Qed.

(** The keys the database paired with the text of a stored key are those it matches. *)
Lemma targets_by_pairs pairs :
  (∀ s t, t ∈ group_of pairs s ↔
     ∃ k row, k ∈ chunk ∧ row ∈ table ∧ hit row k = true ∧ relation_key (stored row) = s ∧ relation_key k = t) →
  ∀ r t, r ∈ rows → t ∈ group_of pairs (relation_key (stored r))
    ↔ ∃ k, k ∈ chunk ∧ relation_key k = t ∧ hit r k = true.
Proof.
  intros Hpairs r t Hin. apply row_read in Hin as [Htab (k0 & _ & Hh0)]. rewrite Hpairs. split.
  - intros (k & row & Hk & _ & Hh & Es & <-). exists k. split_and!; [done..|].
    unfold hit in *. apply andb_true_iff in Hh0 as [[Hr _]%andb_true_iff _], Hh as [[_ Hk']%andb_true_iff Hc].
    by rewrite Hr, Hk', <- Es.
  - intros (k & Hk & <- & Hh). by exists k, r.
Qed.
End chunk.

Lemma load_chunk_spec grouped chunk :
  (∀ k, k ∈ chunk → k ∈ requested ∧ is_null k = false) → NoDup (relation_key <$> chunk) →
  ∃ grouped', load_chunk foreign_key morph_type grouped chunk = Ok grouped'
    ∧ ∀ t, group_of grouped' t ≡ₚ group_of grouped t ++ mine chunk t.
Proof.
  intros Hchunk Hnd. destruct (reads_rows _ T chunk Hchunk) as (rows & Er & Hrows).
  unfold load_chunk. rewrite Er. cbn [rbind].
  rewrite keyed_rows by (intros r Hr; by apply (row_read _ _ Hrows) in Hr as [? _]). cbn [rbind].
  destruct (forallb _ _ && negb (fold_together chunk)) eqn:Efast.
  - apply andb_true_iff in Efast as [Eall Ef%negb_true_iff]. eexists. split; [done|].
    apply (regrouped chunk rows Hrows (λ key, [key])); [done|by apply targets_by_text|].
    intros t. apply (group_all _ (λ key, [key])); [done|]. intros. apply NoDup_singleton.
  - destruct (matching_keys_spec chunk Hchunk) as (pairs & Ep & Hpn & Hpairs). rewrite Ep. cbn [rbind].
    pose proof (targets_by_pairs chunk rows Hrows pairs Hpairs) as Htargets.
    eexists. split; [done|]. apply (regrouped chunk rows Hrows (group_of pairs)); [done..|].
    intros t. apply (group_all _ (group_of pairs)); [|done]. intros g key row (r & [= -> ->] & Hin)%list_elem_of_fmap.
    destruct (proj1 (row_read _ _ Hrows r) Hin) as [_ (k & Hk & Hh)]. unfold group_of.
    destruct (pairs !! relation_key (stored r)) eqn:E; [done|].
    assert (relation_key k ∈ group_of pairs (relation_key (stored r))) as Hin' by (apply Htargets; eauto).
    unfold group_of in Hin'. rewrite E in Hin'. by apply elem_of_nil in Hin'.
Qed.

(** ** All the keys of the parents *)

(** The keys looked up: no null, each text once. *)
Definition lookup_keys (keys : list Json) : list Json :=
  once relation_key [] (List.filter (λ key, negb (is_null key)) keys).

Lemma lookup_keys_spec keys :
  NoDup (relation_key <$> lookup_keys keys)
  ∧ (∀ k, k ∈ lookup_keys keys → k ∈ keys ∧ is_null k = false)
  ∧ (∀ k, k ∈ keys → is_null k = false → ∃ k', k' ∈ lookup_keys keys ∧ relation_key k' = relation_key k).
Proof.
  destruct (once_spec relation_key (List.filter (λ key, negb (is_null key)) keys) []) as (H1 & H2 & H3).
  split_and!; [done| |].
  - intros k Hk. apply H2 in Hk as [Hk _]. apply list_elem_of_In, filter_In in Hk as [Hk Hn%negb_true_iff].
    by rewrite list_elem_of_In.
  - intros k Hk Hn. apply H3; [|by apply not_elem_of_nil]. apply list_elem_of_In, filter_In.
    by rewrite <- list_elem_of_In, Hn.
Qed.

Lemma load_grouped_spec :
  ∃ grouped, load_grouped_by_key requested foreign_key morph_type = Ok grouped
    ∧ ∀ t, group_of grouped t ≡ₚ mine (lookup_keys requested) t.
Proof.
  unfold load_grouped_by_key. fold (lookup_keys requested).
  destruct (lookup_keys_spec requested) as (Hnd & Hin & _).
  assert (concat (chunks KEYS_PER_QUERY (lookup_keys requested)) = lookup_keys requested) as Hc
    by (apply chunks_concat; unfold KEYS_PER_QUERY; lia).
  revert Hc. generalize (chunks KEYS_PER_QUERY (lookup_keys requested)) as batches. intros batches Hc.
  destruct (fold_result_inv (load_chunk foreign_key morph_type)
    (λ done_ g, ∀ t, group_of g t ≡ₚ mine (concat done_) t) batches [] ∅) as (g & E & Hg).
  - intros t. unfold group_of. by rewrite lookup_empty.
  - intros done_ chunk rest g Heq Hg. cbn [app] in Heq. rewrite Heq, concat_app, concat_cons in Hc.
    assert (∀ k, k ∈ chunk → k ∈ lookup_keys requested) as Hsub.
    { intros k Hk. rewrite <- Hc, !elem_of_app. tauto. }
    rewrite <- Hc, !fmap_app in Hnd. apply list.NoDup_app in Hnd as (_ & _ & [Hnd _]%list.NoDup_app).
    destruct (load_chunk_spec g chunk) as (g' & E & Hg'); [intros k Hk; by apply Hin, Hsub|done|].
    exists g'. split; [done|]. intros t. rewrite Hg', Hg, concat_app, mine_app. cbn [concat]. by rewrite app_nil_r.
  - exists g. split; [done|]. intros t. rewrite Hg. cbn [app]. by rewrite Hc.
Qed.

(** The group of a requested key is what one query for it reads. *)
Lemma mine_requested k : k ∈ requested → is_null k = false →
  mine (lookup_keys requested) (relation_key k) = matched k.
Proof.
  intros Hk Hn. destruct (lookup_keys_spec requested) as (Hnd & Hin & Hhas). rewrite mine_alt by done.
  apply List.filter_ext_in. intros r _. apply eq_true_iff_eq. rewrite existsb_exists. split.
  - intros (k' & Hk'%list_elem_of_In & [E%str_eqb_true Hh]%andb_true_iff). rewrite <- Hh.
    apply hit_text; [done|by apply Hin|done].
  - intros Hh. destruct (Hhas k Hk Hn) as (k' & Hk' & E). exists k'. rewrite <- list_elem_of_In. split; [done|].
    rewrite E, (proj2 (str_eqb_true _ _) eq_refl). cbn. rewrite <- Hh. apply hit_text; [by apply Hin|done|done].
Qed.

Lemma mine_in_table keys t row : row ∈ mine keys t → row ∈ table.
Proof.
  intros (l & Hin & Hl)%list_elem_of_In%in_concat. apply list_elem_of_In, list_elem_of_fmap in Hin as (k & -> & _).
  apply filter_In in Hl as [Hl _]. by apply list_elem_of_In.
Qed.

Lemma matched_null : matched JNull = [].
Proof.
  unfold matched. induction table as [|r rows IH]; [done|]. cbn [List.filter]. unfold hit at 1.
  by rewrite andb_false_r.
Qed.

(** A key whose parent takes no other key's group: one that is not null, or null where no
    other key requested is spelled as null is. *)
Definition spelled_apart (k : Json) : Prop :=
  is_null k = false ∨ ∀ k', k' ∈ requested → relation_key k' = relation_key k → is_null k' = true.

Lemma mine_spelled_apart k : k ∈ requested → spelled_apart k →
  mine (lookup_keys requested) (relation_key k) = matched k.
Proof.
  intros Hk Hapart. destruct (is_null k) eqn:En; [|by apply mine_requested].
  destruct Hapart as [?|Hapart]; [congruence|]. destruct k; try done. rewrite matched_null. apply mine_absent.
  intros (k' & E & Hk')%list_elem_of_fmap. apply (proj1 (proj2 (lookup_keys_spec requested))) in Hk' as [Hk' Hn].
  by rewrite (Hapart k' Hk' (eq_sym E)) in Hn.
Qed.

End database.


(** ** Through a pivot *)

Section through.
Context `{JsonDisplay} {R P : Type} `{RelatedModel R} `{RelatedModel P}.
Context (parent_keys : list Json) (foreign_key related_key related_local_key : str).

(** The pivot's rows, the owner's key each stores and the related key; the related rows
    and the key each is found by. *)
Context (links : list P) (owner : P → Json) (link_key : P → Json) (collates : str → str → bool).
Context (table : list R) (local_key : R → Json) (collates' : str → str → bool).
Context (TP : KeyedTable foreign_key None links owner collates parent_keys).
Context (TR : ∀ keys, (∀ k, k ∈ keys → ∃ link, link ∈ links ∧ link_key link = k) →
  KeyedTable related_local_key None table local_key collates' keys).
Context (Hkey : ∀ link, link ∈ links → key_value link related_key = Ok (link_key link)).
Context (Hnull : ∀ link, link ∈ links → is_null (link_key link) = false).

(** Each parent is given the related rows its links lead to, each primary key once. *)
Theorem eager_through_follows_the_links :
  ∃ related, eager_through (R := R) (P := P) parent_keys foreign_key related_key related_local_key = Ok related
    ∧ length related = length parent_keys
    ∧ ∀ i k, parent_keys !! i = Some k → spelled_apart parent_keys k →
        ∃ rows, related !! i = Some rows ∧ NoDup (primary_key_text <$> rows)
          ∧ (∀ r, r ∈ rows → ∃ link, link ∈ matched links owner collates k ∧ r ∈ matched table local_key collates' (link_key link))
          ∧ (∀ link r, link ∈ matched links owner collates k → r ∈ matched table local_key collates' (link_key link) →
               ∃ r', r' ∈ rows ∧ primary_key_text r' = primary_key_text r).
Proof.
  destruct (load_grouped_spec _ _ _ _ _ _ TP) as (linked & E1 & Hlinked).
  assert (∀ t link, link ∈ group_of linked t → link ∈ links) as Hlinks.
  { intros t link. rewrite Hlinked. apply mine_in_table. }
  assert (∀ link, link ∈ concat (snd <$> map_to_list linked) → link ∈ links) as Hall.
  { intros link [t Ht]%in_some_group. by eapply Hlinks. }
  set (keys := link_key <$> concat (snd <$> map_to_list linked)).
  assert (∀ k, k ∈ keys → ∃ link, link ∈ links ∧ link_key link = k) as Hkeys.
  { intros k (link & -> & Hin)%list_elem_of_fmap. eauto. }
  destruct (load_grouped_spec _ _ _ _ _ _ (TR keys Hkeys)) as (found & E2 & Hfound).
  assert (∀ t link, link ∈ group_of linked t →
    group_of found (relation_key (link_key link)) ≡ₚ matched table local_key collates' (link_key link)) as Hrows.
  { intros t link Hin. rewrite Hfound. rewrite mine_requested; [done|..].
    - apply list_elem_of_fmap_2, in_some_group. by exists t.
    - eapply Hnull, Hlinks, Hin. }
  set (rows_of := λ key, group_of linked (relation_key key) ≫= λ link, group_of found (relation_key (link_key link))).
  exists ((λ key, distinct_by_primary_key (rows_of key)) <$> parent_keys). split_and!; [|by apply length_fmap|].
  - unfold eager_through. rewrite E1. cbn [rbind].
    rewrite (fold_result_extend _ (λ link, [link_key link])), bind_single
      by (intros acc link Hin; by rewrite Hkey by by apply Hall).
    cbn [rbind app]. fold keys. rewrite E2. cbn [rbind].
    rewrite (fold_result_extend _ (λ key, [distinct_by_primary_key (rows_of key)])); [by rewrite bind_single|].
    intros acc key _. rewrite (fold_result_extend _ (λ link, group_of found (relation_key (link_key link)))); [done|].
    intros rows link Hin. by rewrite Hkey by (eapply Hlinks, Hin).
  - intros i k Hi Hapart. eexists. rewrite list_lookup_fmap, Hi. split; [done|].
    assert (∀ link, link ∈ group_of linked (relation_key k) ↔ link ∈ matched links owner collates k) as Hgroup.
    { intros link. rewrite Hlinked, mine_spelled_apart; [done|by eapply list_elem_of_lookup_2|done]. }
    destruct (once_spec primary_key_text (rows_of k) []) as (H1' & H2' & H3'). split_and!; [done| |].
    + intros r Hr. apply H2' in Hr as [Hr _]. apply list_elem_of_bind in Hr as (link & Hr & Hin).
      exists link. rewrite <- Hgroup. split; [done|]. by rewrite <- (Hrows _ _ Hin).
    + intros link r Hin Hr. rewrite <- Hgroup in Hin. apply H3'; [|by apply not_elem_of_nil].
      apply list_elem_of_bind. exists link. split; [|done]. by rewrite (Hrows _ _ Hin).
Qed.
End through.

(** ** Nested relations *)

Section nested.
Context `{JsonDisplay} {R : Type} `{RelatedModel R}.

Lemma split_back_spec {A B} (groups : list (list A)) : ∀ restored : list B, length restored = length (concat groups) →
  concat (split_back (length <$> groups) restored) = restored
  ∧ length <$> split_back (length <$> groups) restored = length <$> groups.
Proof.
  induction groups as [|group groups IH]; intros restored Hl; cbn in *.
  { by apply nil_length_inv in Hl as ->. }
  rewrite length_app in Hl. destruct (IH (drop (length group) restored)) as [E1 E2]; [rewrite length_drop; lia|].
  split; [by rewrite E1, take_drop|]. f_equal; [|done]. rewrite length_take. lia.
Qed.

(** The next level is loaded for all the rows at once, and each row comes back in the
    group it was in. *)
Theorem nested_rows_keep_their_groups (groups : list (list R)) tree restored :
  tree_is_empty tree = false →
  eager_load (WithRelations_new <$> concat groups) tree = Ok restored → length restored = length (concat groups) →
  ∃ groups', eager_load_nested_many groups (Some tree) = Ok groups'
    ∧ concat groups' = model <$> restored ∧ length <$> groups' = length <$> groups.
Proof.
  intros Ht E Hl. unfold eager_load_nested_many. rewrite Ht, E. cbn [rbind]. eexists. split; [done|].
  apply split_back_spec. by rewrite length_fmap.
Qed.

Lemma fill_slots_spec {A B} (slots : list (option A)) : ∀ restored : list B, length restored = length (omap id slots) →
  omap id (fill_slots ((λ slot, match slot with Some _ => true | None => false end) <$> slots) restored) = restored
  ∧ Forall2 (λ slot slot', is_Some slot ↔ is_Some slot') slots
      (fill_slots ((λ slot, match slot with Some _ => true | None => false end) <$> slots) restored).
Proof.
  induction slots as [|[x|] slots IH]; intros restored Hl; cbn in *.
  - by apply nil_length_inv in Hl as ->.
  - destruct restored as [|y restored]; [done|]. destruct (IH restored) as [E1 E2]; [by injection Hl|]. cbn. split; [by f_equal|].
    constructor; [by split|done].
  - destruct (IH restored Hl) as [E1 E2]. split; [done|]. constructor; [|done]. by split; intros [? ?].
Qed.

Theorem nested_row_keeps_its_slot (related : list (option R)) tree restored :
  tree_is_empty tree = false →
  eager_load (WithRelations_new <$> omap id related) tree = Ok restored → length restored = length (omap id related) →
  ∃ related', eager_load_nested_one related (Some tree) = Ok related'
    ∧ omap id related' = model <$> restored ∧ Forall2 (λ slot slot', is_Some slot ↔ is_Some slot') related related'.
Proof.
  intros Ht E Hl. unfold eager_load_nested_one. rewrite Ht, E. cbn [rbind]. eexists. split; [done|].
  apply fill_slots_spec. by rewrite length_fmap.
Qed.
End nested.

(** ** The tree of paths *)

(** The tree has the path, from its root down. *)
Fixpoint has_path (path : RelationPath) (t : RelationTree) : Prop :=
  match path with
  | [] => True
  | name :: rest => ∃ under, get_nested t name = Some under ∧ has_path rest under
  end.

Lemma child_set_child {A} name (u : A) c name' :
  child name' (set_child name u c) = if str_eqb name name' then Some u else child name' c.
Proof.
  induction c as [|[n t] c IH]; cbn [set_child child]; [done|].
  destruct (str_eqb n name) eqn:E; cbn [child].
  - apply str_eqb_true in E as ->. by destruct (str_eqb name name').
  - rewrite IH. destruct (str_eqb n name') eqn:E', (str_eqb name name') eqn:E''; try done.
    apply str_eqb_true in E' as ->, E'' as ->. by rewrite (proj2 (str_eqb_true _ _) eq_refl) in E.
Qed.

(** A path added brings its prefixes into the tree, and nothing else: paths share the
    loads of what they have in common. *)
Theorem add_path_spec path : ∀ t q, has_path q (add_path path t) ↔ has_path q t ∨ q `prefix_of` path.
Proof.
  induction path as [|name path IH]; intros t [|name' q]; cbn [add_path has_path].
  - split; [by right; exists []|done].
  - split; [by left|]. intros [?|[r Hr]]; [done|by destruct r].
  - split; [intros _; left; done|done].
  - unfold get_nested. cbn [children]. rewrite child_set_child. split.
    + intros (under & E & Hq). destruct (str_eqb name name') eqn:En.
      * apply str_eqb_true in En as <-. injection E as <-. apply IH in Hq as [Hq|Hq].
        -- destruct (child name (children t)) as [u|] eqn:Eu; [by left; exists u|].
           destruct q as [|n q]; [|by destruct Hq as (? & ? & _)]. right. apply prefix_cons, prefix_nil.
        -- right. by apply prefix_cons.
      * left. by exists under.
    + intros [(under & E & Hq)|Hp].
      * destruct (str_eqb name name') eqn:En; [|by exists under]. apply str_eqb_true in En as <-.
        eexists. split; [done|]. apply IH. left. by rewrite E.
      * apply prefix_cons_inv_1 in Hp as Heq. apply prefix_cons_inv_2 in Hp. subst.
        rewrite (proj2 (str_eqb_true _ _) eq_refl). eexists. split; [done|]. apply IH. by right.
Qed.

(** ** A table of posts

    Their authors, under a collation that ignores case. *)
Module Posts.

Definition Post : Type := N * str.

#[local] Instance display : JsonDisplay := λ j, match j with JNull => lit "null" | _ => [] end.

Definition ignoring_case (a b : str) : bool := str_eqb (to_ascii_lowercase a) (to_ascii_lowercase b).
Definition author (p : Post) : Json := JString p.2.

Definition posts : list Post :=
  [(1%N, lit "ann"); (2%N, lit "Bob"); (3%N, lit "ANN"); (4%N, lit "carl"); (5%N, lit "bob")].

#[local] Instance post_model : RelatedModel Post := {
  table_name := lit "posts";
  column_named := λ name, name;
  field_json_value := λ p _, Ok (Some (author p));
  to_value := λ p, Ok [];
  primary_key_text := λ p, [p.1];
  rows_in := λ _ keys _, Ok (rev (List.filter (λ p, existsb (hit author ignoring_case p) keys) posts));
  pairing_rows := λ column lookups _, Ok (lookups ≫= λ '(i, k),
    (λ p, [(lit "tideorm_key_index", JNumber (PosInt (N.of_nat i))); (column, author p)])
      <$> matched posts author ignoring_case k);
  eager_load := λ models _, Ok models;
}.

Definition authors : list Json := [JString (lit "Ann"); JString (lit "bob"); JNull; JString (lit "BOB"); JString (lit "dora")].

Lemma posts_by_author : KeyedTable (lit "author") None posts author ignoring_case authors.
Proof.
  split.
  - intros t. by apply str_eqb_true.
  - intros row k k' _ Hk _ Hh _. unfold authors in Hk. rewrite !elem_of_cons, elem_of_nil in Hk.
    destruct Hk as [->|[->|[->|[->|[->|[]]]]]]; done.
  - intros row s t _ Hs Ht Es Et _ _.
    assert (to_ascii_lowercase s = to_ascii_lowercase t) as E.
    { unfold hit in Es, Et. cbn in Es, Et. apply str_eqb_true in Es, Et. congruence. }
    unfold authors in Hs, Ht. rewrite !elem_of_cons, elem_of_nil in Hs, Ht.
    destruct Hs as [[= ->]|[[= ->]|[|[[= ->]|[[= ->]|[]]]]]]; try done;
      destruct Ht as [[= ->]|[[= ->]|[|[[= ->]|[[= ->]|[]]]]]]; try done; by vm_compute in E.
  - done.
  - intros keys _. eexists. split; [done|]. symmetry. apply Permutation_rev.
  - intros lookups _. eexists. split; [done|]. split.
    + intros o ([i k] & (p & -> & Hp)%list_elem_of_fmap & Hin)%list_elem_of_bind.
      apply list_elem_of_In, filter_In in Hp as [Hp Hh]. exists (N.of_nat i), k, p. rewrite Nat2N.id.
      split_and!; [done|by apply list_elem_of_In|done..].
    + intros i k p Hin Hp Hh.
      exists [(lit "tideorm_key_index", JNumber (PosInt (N.of_nat i))); (lit "author", author p)]. split; [|done].
      apply list_elem_of_bind. exists (i, k). split; [|done].
      apply (list_elem_of_fmap_2 (λ p, [(lit "tideorm_key_index", JNumber (PosInt (N.of_nat i))); (lit "author", author p)])).
      apply list_elem_of_In, filter_In. rewrite <- list_elem_of_In. by split.
Qed.

(** Two authors that the collation takes for one share their posts, through the pairing
    the database makes. *)
Example posts_of_authors :
  eager_keyed_many authors (lit "author") None
  = Ok [[(3%N, lit "ANN"); (1%N, lit "ann")]; [(5%N, lit "bob"); (2%N, lit "Bob")]; [];
        [(5%N, lit "bob"); (2%N, lit "Bob")]; []].
Proof. vm_compute. reflexivity. Qed.


(** A parent whose key is NULL is given the rows of a parent whose key is the text
    "null": the groups are found by a text that is the same for both. *)
Definition named_null : list Post := [(7%N, lit "null")].

#[local] Instance null_model : RelatedModel Post := {
  table_name := lit "posts";
  column_named := λ name, name;
  field_json_value := λ p _, Ok (Some (author p));
  to_value := λ p, Ok [];
  primary_key_text := λ p, [p.1];
  rows_in := λ _ keys _, Ok (List.filter (λ p, existsb (hit author ignoring_case p) keys) named_null);
  pairing_rows := λ _ _ _, Ok [];
  eager_load := λ models _, Ok models;
}.

Example null_takes_the_rows_of_null :
  matched named_null author ignoring_case JNull = []
  ∧ eager_keyed_many (H0 := null_model) [JString (lit "null"); JNull] (lit "author") None
    = Ok [[(7%N, lit "null")]; [(7%N, lit "null")]].
Proof. split; vm_compute; reflexivity. Qed.

End Posts.
