(* ===== verification/Base64.v ===== *)
(** * Base64url without padding

    [base64_url_encode] and [base64_url_decode] of src/src/tokenization.rs, which
    spell tokens and encrypted fields. Bytes are [N] below 256; the accumulator
    is a [u32], whose left shift drops the bits past the thirty-second. *)

From S2P Require Import Prelude.

Local Open Scope N_scope.

Definition ALPHABET : str :=
  lit "ABCDEFGHIJKLMNOPQRSTUVWXYZabcdefghijklmnopqrstuvwxyz0123456789-_".

(** [ALPHABET[index] as char]; an index out of range is a panic, written as the
    NUL character, which the alphabet does not hold. *)
Definition alphabet (index : N) : char := default 0 (ALPHABET !! N.to_nat index).

(** [bits << n] on [u32]. *)
Definition shl32 (bits n : N) : N := N.shiftl bits n mod 2 ^ 32.

(** [while bit_count >= 6 { .. }]: what it pushes, and the count left. *)
Fixpoint emit (fuel : nat) (bits bit_count : N) : str * N :=
  match fuel with
  | O => ([], bit_count)
  | S fuel =>
      if 6 <=? bit_count then
        let bit_count := bit_count - 6 in
        let '(out, rest) := emit fuel bits bit_count in
        (alphabet (N.land (N.shiftr bits bit_count) 0x3F) :: out, rest)
      else ([], bit_count)
  end.

(** The loop over the bytes and the last, zero-filled group. *)
Fixpoint encode_loop (data : list N) (bits bit_count : N) : str :=
  match data with
  | [] =>
      if 0 <? bit_count
      then [alphabet (N.land (shl32 bits (6 - bit_count)) 0x3F)]
      else []
  | byte :: data =>
      let bits := N.lor (shl32 bits 8) byte in
      let '(out, bit_count) := emit (N.to_nat (bit_count + 8)) bits (bit_count + 8) in
      out ++ encode_loop data bits bit_count
  end.

Definition base64_url_encode (data : list N) : str := encode_loop data 0 0.

Definition char_to_value (c : char) : option N :=
  if (65 <=? c) && (c <=? 90) then Some (c - 65)
  else if (97 <=? c) && (c <=? 122) then Some (c - 97 + 26)
  else if (48 <=? c) && (c <=? 57) then Some (c - 48 + 52)
  else if c =? 45 then Some 62
  else if c =? 95 then Some 63
  else None.

(** The loop over the characters and the check of the leftover bits. *)
Fixpoint decode_loop (encoded : str) (bits bit_count : N) : option (list N) :=
  match encoded with
  | [] =>
      if (0 <? bit_count) && negb (N.land bits (N.shiftl 1 bit_count - 1) =? 0)
      then None else Some []
  | c :: encoded =>
      value ← char_to_value c;
      let bits := N.lor (shl32 bits 6) value in
      let bit_count := bit_count + 6 in
      if 8 <=? bit_count then
        let bit_count := bit_count - 8 in
        rest ← decode_loop encoded bits bit_count;
        Some (N.shiftr bits bit_count mod 256 :: rest)
      else decode_loop encoded bits bit_count
  end.

Definition base64_url_decode (encoded : str) : option (list N) :=
  if (slen encoded mod 4 =? 1)%nat then None else decode_loop encoded 0 0.

(** ** The alphabet *)

Lemma alphabet_value v : v < 64 → char_to_value (alphabet v) = Some v.
Proof.
  intros Hv.
  assert (Forall (λ v, char_to_value (alphabet v) = Some v) (N.of_nat <$> seq 0 64)) as Ha.
  { vm_compute. repeat constructor. }
  rewrite list.Forall_forall in Ha. apply Ha. apply list_elem_of_fmap.
  exists (N.to_nat v). rewrite N2Nat.id. split; [done|]. apply elem_of_seq. lia.
Qed.

Lemma value_alphabet c v : char_to_value c = Some v → v < 64 ∧ alphabet v = c ∧ c < 128.
Proof.
  intros Hv. assert (c < 128) as Hc.
  { unfold char_to_value in Hv. repeat case_match; try lia; done. }
  assert (Forall (λ c, match char_to_value c with
                       | Some v => (v <? 64) && (alphabet v =? c) = true
                       | None => True
                       end) (N.of_nat <$> seq 0 128)) as Ha.
  { vm_compute. repeat constructor. }
  rewrite list.Forall_forall in Ha. specialize (Ha c). rewrite Hv in Ha.
  assert ((v <? 64) && (alphabet v =? c) = true) as Hb; [|lia].
  apply Ha, list_elem_of_fmap. exists (N.to_nat c). rewrite N2Nat.id.
  split; [done|]. apply elem_of_seq. lia.
Qed.

(** ** The shifts as arithmetic *)

Lemma lor_shl32 bits n v : v < 2 ^ n → n ≤ 32 → N.lor (shl32 bits n) v = (bits mod 2 ^ (32 - n)) * 2 ^ n + v.
Proof.
  intros Hv Hn. unfold shl32. rewrite N.shiftl_mul_pow2.
  assert ((bits * 2 ^ n) mod 2 ^ 32 = (bits mod 2 ^ (32 - n)) * 2 ^ n) as ->.
  { replace 32 with ((32 - n) + n) at 1 by lia. rewrite N.pow_add_r, N.Div0.mul_mod_distr_r. done. }
  rewrite <- N.shiftl_mul_pow2.
  assert (N.land (N.shiftl (bits mod 2 ^ (32 - n)) n) v = 0) as Hz.
  { apply N.bits_inj_0. intros i. rewrite N.land_spec. destruct (N.lt_ge_cases i n).
    - by rewrite N.shiftl_spec_low.
    - assert (N.testbit v i = false) as ->; [|by rewrite andb_false_r].
      destruct (N.eq_dec v 0) as [->|Hv0]; [apply N.bits_0|]. apply N.bits_above_log2.
      apply N.log2_lt_pow2; [lia|]. eapply N.lt_le_trans; [exact Hv|]. by apply N.pow_le_mono_r. }
  by rewrite N.add_nocarry_lxor, <- N.lxor_lor.
Qed.

Lemma land_63 x : N.land x 0x3F = x mod 64.
Proof. apply (N.land_ones x 6). Qed.

#[local] Ltac Zify.zify_post_hook ::= Z.to_euclidean_division_equations.

Lemma push_byte bits b : b < 256 → N.lor (shl32 bits 8) b = (bits mod 2 ^ 24) * 256 + b.
Proof. intros Hb. by apply (lor_shl32 bits 8 b). Qed.

Lemma push_sextet bits v : v < 64 → N.lor (shl32 bits 6) v = (bits mod 2 ^ 26) * 64 + v.
Proof. intros Hv. by apply (lor_shl32 bits 6 v). Qed.

(** One byte, from each number of bits left over: what is pushed depends on those
    bits alone. *)
Lemma encode_byte_0 b data bits :
  b < 256 →
  ∃ bits', bits' mod 4 = b mod 4
    ∧ encode_loop (b :: data) bits 0 = alphabet (b / 4) :: encode_loop data bits' 2.
Proof.
  intros Hb. cbn [encode_loop]. rewrite push_byte by done. eexists. split; [|].
  2: { change (N.to_nat (0 + 8)) with 8%nat. cbn [emit].
       change (6 <=? 0 + 8) with true. cbn iota. change (0 + 8 - 6) with 2.
       change (6 <=? 2) with false. cbn iota beta zeta. cbn [app].
       rewrite land_63, N.shiftr_div_pow2. change (2 ^ 2) with 4.
       replace ((bits mod 2 ^ 24 * 256 + b) / 4 mod 64) with (b / 4); [reflexivity|].
       change (2 ^ 24) with 16777216. lia. }
  change (2 ^ 24) with 16777216. lia.
Qed.

Lemma encode_byte_2 b data bits :
  b < 256 →
  ∃ bits', bits' mod 16 = b mod 16
    ∧ encode_loop (b :: data) bits 2
      = alphabet (bits mod 4 * 16 + b / 16) :: encode_loop data bits' 4.
Proof.
  intros Hb. cbn [encode_loop]. rewrite push_byte by done. eexists. split; [|].
  2: { change (N.to_nat (2 + 8)) with 10%nat. cbn [emit].
       change (6 <=? 2 + 8) with true. cbn iota. change (2 + 8 - 6) with 4.
       change (6 <=? 4) with false. cbn iota beta zeta. cbn [app].
       rewrite land_63, N.shiftr_div_pow2. change (2 ^ 4) with 16.
       replace ((bits mod 2 ^ 24 * 256 + b) / 16 mod 64) with (bits mod 4 * 16 + b / 16);
         [reflexivity|].
       change (2 ^ 24) with 16777216. lia. }
  change (2 ^ 24) with 16777216. lia.
Qed.

Lemma encode_byte_4 b data bits :
  b < 256 →
  ∃ bits',
    encode_loop (b :: data) bits 4
    = alphabet (bits mod 16 * 4 + b / 64) :: alphabet (b mod 64) :: encode_loop data bits' 0.
Proof.
  intros Hb. cbn [encode_loop]. rewrite push_byte by done. eexists.
  change (N.to_nat (4 + 8)) with 12%nat. cbn [emit].
  change (6 <=? 4 + 8) with true. cbn iota. change (4 + 8 - 6) with 6.
  change (6 <=? 6) with true. cbn iota. change (6 - 6) with 0.
  change (6 <=? 0) with false. cbn iota beta zeta. cbn [app].
  rewrite !land_63, N.shiftr_0_r, N.shiftr_div_pow2. change (2 ^ 6) with 64.
  replace ((bits mod 2 ^ 24 * 256 + b) / 64 mod 64) with (bits mod 16 * 4 + b / 64)
    by (change (2 ^ 24) with 16777216; lia).
  replace ((bits mod 2 ^ 24 * 256 + b) mod 64) with (b mod 64)
    by (change (2 ^ 24) with 16777216; lia).
  reflexivity.
Qed.

Lemma encode_end_2 bits : encode_loop [] bits 2 = [alphabet (bits mod 4 * 16)].
Proof.
  cbn [encode_loop]. change (0 <? 2) with true. cbn iota. rewrite land_63. unfold shl32.
  rewrite N.shiftl_mul_pow2. do 2 f_equal. change (2 ^ (6 - 2)) with 16.
  change (2 ^ 32) with 4294967296. lia.
Qed.

Lemma encode_end_4 bits : encode_loop [] bits 4 = [alphabet (bits mod 16 * 4)].
Proof.
  cbn [encode_loop]. change (0 <? 4) with true. cbn iota. rewrite land_63. unfold shl32.
  rewrite N.shiftl_mul_pow2. do 2 f_equal. change (2 ^ (6 - 4)) with 4.
  change (2 ^ 32) with 4294967296. lia.
Qed.

(** ** The reference codec: groups of three bytes and four characters *)

Fixpoint encode_groups (data : list N) : str :=
  match data with
  | a :: b :: c :: rest =>
      alphabet (a / 4) :: alphabet (a mod 4 * 16 + b / 16) :: alphabet (b mod 16 * 4 + c / 64)
      :: alphabet (c mod 64) :: encode_groups rest
  | [a; b] => [alphabet (a / 4); alphabet (a mod 4 * 16 + b / 16); alphabet (b mod 16 * 4)]
  | [a] => [alphabet (a / 4); alphabet (a mod 4 * 16)]
  | [] => []
  end.

Fixpoint decode_groups (encoded : str) : option (list N) :=
  match encoded with
  | c1 :: c2 :: c3 :: c4 :: rest =>
      v1 ← char_to_value c1; v2 ← char_to_value c2;
      v3 ← char_to_value c3; v4 ← char_to_value c4;
      bytes ← decode_groups rest;
      Some (v1 * 4 + v2 / 16 :: v2 mod 16 * 16 + v3 / 4 :: v3 mod 4 * 64 + v4 :: bytes)
  | [c1; c2; c3] =>
      v1 ← char_to_value c1; v2 ← char_to_value c2; v3 ← char_to_value c3;
      if v3 mod 4 =? 0 then Some [v1 * 4 + v2 / 16; v2 mod 16 * 16 + v3 / 4] else None
  | [c1; c2] =>
      v1 ← char_to_value c1; v2 ← char_to_value c2;
      if v2 mod 16 =? 0 then Some [v1 * 4 + v2 / 16] else None
  | [_] => None
  | [] => Some []
  end.

Definition bytes (data : list N) : Prop := Forall (λ b, b < 256) data.

Lemma encode_loop_groups data bits : bytes data → encode_loop data bits 0 = encode_groups data.
Proof.
  revert bits. induction data as [data IH] using (induction_ltof1 _ (@length _)).
  unfold ltof in IH. intros bits Hd.
  destruct data as [|a data]; [done|]. apply Forall_cons_iff in Hd as [Ha Hd].
  destruct (encode_byte_0 a data bits Ha) as (bits1 & H1 & ->).
  destruct data as [|b data]; [by rewrite encode_end_2, H1|].
  apply Forall_cons_iff in Hd as [Hb Hd].
  destruct (encode_byte_2 b data bits1 Hb) as (bits2 & H2 & ->). rewrite H1.
  destruct data as [|c data]; [by rewrite encode_end_4, H2|].
  apply Forall_cons_iff in Hd as [Hc Hd].
  destruct (encode_byte_4 c data bits2 Hc) as (bits3 & ->). rewrite H2.
  rewrite IH; [done|cbn; lia|done].
Qed.

(** One character, from each number of bits left over. *)
Lemma decode_char_0 c s bits v :
  char_to_value c = Some v →
  ∃ bits', bits' mod 64 = v ∧ decode_loop (c :: s) bits 0 = decode_loop s bits' 6.
Proof.
  intros Hc. destruct (value_alphabet c v Hc) as (Hv & _ & _). cbn [decode_loop]. rewrite Hc.
  cbn [mbind option_bind]. rewrite push_sextet by done. change (8 <=? 0 + 6) with false.
  eexists. split; [|reflexivity]. change (2 ^ 26) with 67108864. lia.
Qed.

Lemma decode_char_6 c s bits v :
  char_to_value c = Some v →
  ∃ bits', bits' mod 16 = v mod 16
    ∧ decode_loop (c :: s) bits 6
      = (rest ← decode_loop s bits' 4; Some (bits mod 64 * 4 + v / 16 :: rest)).
Proof.
  intros Hc. destruct (value_alphabet c v Hc) as (Hv & _ & _). cbn [decode_loop]. rewrite Hc.
  cbn [mbind option_bind]. rewrite push_sextet by done. change (8 <=? 6 + 6) with true.
  cbn iota. change (6 + 6 - 8) with 4. eexists. split; [|].
  2: { rewrite N.shiftr_div_pow2. change (2 ^ 4) with 16.
       replace ((bits mod 2 ^ 26 * 64 + v) / 16 mod 256) with (bits mod 64 * 4 + v / 16);
         [reflexivity|].
       change (2 ^ 26) with 67108864. lia. }
  change (2 ^ 26) with 67108864. lia.
Qed.

Lemma decode_char_4 c s bits v :
  char_to_value c = Some v →
  ∃ bits', bits' mod 4 = v mod 4
    ∧ decode_loop (c :: s) bits 4
      = (rest ← decode_loop s bits' 2; Some (bits mod 16 * 16 + v / 4 :: rest)).
Proof.
  intros Hc. destruct (value_alphabet c v Hc) as (Hv & _ & _). cbn [decode_loop]. rewrite Hc.
  cbn [mbind option_bind]. rewrite push_sextet by done. change (8 <=? 4 + 6) with true.
  cbn iota. change (4 + 6 - 8) with 2. eexists. split; [|].
  2: { rewrite N.shiftr_div_pow2. change (2 ^ 2) with 4.
       replace ((bits mod 2 ^ 26 * 64 + v) / 4 mod 256) with (bits mod 16 * 16 + v / 4);
         [reflexivity|].
       change (2 ^ 26) with 67108864. lia. }
  change (2 ^ 26) with 67108864. lia.
Qed.

Lemma decode_char_2 c s bits v :
  char_to_value c = Some v →
  ∃ bits',
    decode_loop (c :: s) bits 2
    = (rest ← decode_loop s bits' 0; Some (bits mod 4 * 64 + v :: rest)).
Proof.
  intros Hc. destruct (value_alphabet c v Hc) as (Hv & _ & _). cbn [decode_loop]. rewrite Hc.
  cbn [mbind option_bind]. rewrite push_sextet by done. change (8 <=? 2 + 6) with true.
  cbn iota. change (2 + 6 - 8) with 0. eexists. rewrite N.shiftr_0_r.
  replace ((bits mod 2 ^ 26 * 64 + v) mod 256) with (bits mod 4 * 64 + v); [reflexivity|].
  change (2 ^ 26) with 67108864. lia.
Qed.

Lemma decode_loop_bad c s bits k : char_to_value c = None → decode_loop (c :: s) bits k = None.
Proof. intros Hc. cbn [decode_loop]. by rewrite Hc. Qed.

Lemma decode_end bits k :
  0 < k → decode_loop [] bits k = if bits mod 2 ^ k =? 0 then Some [] else None.
Proof.
  intros Hk. cbn [decode_loop]. rewrite (proj2 (N.ltb_lt _ _) Hk), N.shiftl_1_l.
  rewrite <- (N.land_ones bits k), N.ones_equiv, <- N.sub_1_r. cbn [andb].
  by destruct (_ =? 0).
Qed.

(** Only base64url characters decode, and they are single bytes. *)
Definition coded (s : str) : Prop := Forall (λ c, is_Some (char_to_value c)) s.

Lemma coded_slen s : coded s → slen s = length s.
Proof.
  induction 1 as [|c s [v Hc] _ IH]; [done|]. cbn. rewrite IH.
  apply value_alphabet in Hc as (_ & _ & Hc). unfold len_utf8.
  by rewrite (proj2 (N.ltb_lt _ _) Hc).
Qed.

Lemma decode_loop_coded s bits k d : decode_loop s bits k = Some d → coded s.
Proof.
  revert bits k d. induction s as [|c s IH]; intros bits k d; [constructor|]. cbn [decode_loop].
  destruct (char_to_value c) as [v|] eqn:Hc; [|done]. cbn [mbind option_bind].
  destruct (8 <=? k + 6).
  - destruct (decode_loop s _ _) as [d'|] eqn:E; [|done]. intros _. constructor; [by eexists|]. by eapply IH.
  - intros E. constructor; [by eexists|]. by eapply IH.
Qed.

Lemma decode_groups_coded s d : decode_groups s = Some d → coded s ∧ (length s mod 4 ≠ 1)%nat.
Proof.
  revert d. induction s as [s IH] using (induction_ltof1 _ (@length _)). unfold ltof in IH.
  intros d. destruct s as [|c1 [|c2 [|c3 [|c4 s]]]]; cbn [decode_groups]; intros Hd.
  - split; [constructor|done].
  - done.
  - destruct (char_to_value c1) eqn:?, (char_to_value c2) eqn:?; try done.
    split; [repeat constructor; by eexists|done].
  - destruct (char_to_value c1) eqn:?, (char_to_value c2) eqn:?, (char_to_value c3) eqn:?; try done.
    split; [repeat constructor; by eexists|done].
  - destruct (char_to_value c1) eqn:?, (char_to_value c2) eqn:?, (char_to_value c3) eqn:?,
      (char_to_value c4) eqn:?; try done. cbn [mbind option_bind] in Hd.
    destruct (decode_groups s) as [d'|] eqn:E; [|done].
    destruct (IH s ltac:(cbn; lia) d' E) as [Hc Hl].
    split; [repeat (constructor; [by eexists|]); done|].
    replace (length (c1 :: c2 :: c3 :: c4 :: s)) with (length s + 1 * 4)%nat by (cbn; lia).
    by rewrite Nat.Div0.mod_add.
Qed.

Lemma decode_loop_groups s bits :
  (length s mod 4 ≠ 1)%nat → decode_loop s bits 0 = decode_groups s.
Proof.
  revert bits. induction s as [s IH] using (induction_ltof1 _ (@length _)). unfold ltof in IH.
  intros bits Hl. destruct s as [|c1 s]; [done|].
  destruct (char_to_value c1) as [v1|] eqn:H1.
  2: { rewrite decode_loop_bad by done. destruct s as [|c2 [|c3 [|c4 s]]]; cbn; rewrite ?H1; done. }
  destruct (decode_char_0 c1 s bits v1 H1) as (bits1 & B1 & ->).
  destruct s as [|c2 s]; [done|]. destruct (char_to_value c2) as [v2|] eqn:H2.
  2: { rewrite decode_loop_bad by done. destruct s as [|c3 [|c4 s]]; cbn; rewrite H1; cbn; rewrite ?H2; done. }
  destruct (decode_char_6 c2 s bits1 v2 H2) as (bits2 & B2 & ->). rewrite B1.
  destruct s as [|c3 s].
  { rewrite decode_end by done. change (2 ^ 4) with 16. rewrite B2. cbn [decode_groups].
    rewrite H1, H2. cbn [mbind option_bind]. by destruct (v2 mod 16 =? 0). }
  destruct (char_to_value c3) as [v3|] eqn:H3.
  2: { rewrite decode_loop_bad by done. destruct s as [|c4 s]; cbn; rewrite H1; cbn; rewrite H2; cbn; rewrite ?H3; done. }
  destruct (decode_char_4 c3 s bits2 v3 H3) as (bits3 & B3 & ->). rewrite B2.
  destruct s as [|c4 s].
  { rewrite decode_end by done. change (2 ^ 2) with 4. rewrite B3. cbn [decode_groups].
    rewrite H1, H2, H3. cbn [mbind option_bind]. by destruct (v3 mod 4 =? 0). }
  destruct (char_to_value c4) as [v4|] eqn:H4.
  2: { rewrite decode_loop_bad by done. cbn [decode_groups]. by rewrite H1, H2, H3, H4. }
  destruct (decode_char_2 c4 s bits3 v4 H4) as (bits4 & ->). rewrite B3.
  rewrite IH.
  - cbn [decode_groups]. rewrite H1, H2, H3, H4. cbn [mbind option_bind].
    by destruct (decode_groups s).
  - cbn. lia.
  - intros Hm. apply Hl. replace (length (c1 :: c2 :: c3 :: c4 :: s)) with (length s + 1 * 4)%nat
      by (cbn; lia). by rewrite Nat.Div0.mod_add.
Qed.

(** The decoder is the reference decoder. *)
Lemma base64_url_decode_groups s : base64_url_decode s = decode_groups s.
Proof.
  unfold base64_url_decode. destruct (slen s mod 4 =? 1)%nat eqn:E.
  - destruct (decode_groups s) as [d|] eqn:Ed; [|done].
    apply decode_groups_coded in Ed as [Hc Hl]. rewrite coded_slen in E by done. lia.
  - destruct (decide (length s mod 4 = 1)%nat) as [Hl|Hl]; [|by apply decode_loop_groups].
    destruct (decode_loop s 0 0) as [d|] eqn:Ed.
    + apply decode_loop_coded in Ed. rewrite coded_slen in E by done. lia.
    + destruct (decode_groups s) as [d|] eqn:Ed'; [|done].
      by apply decode_groups_coded in Ed' as [_ ?].
Qed.

Lemma decode_encode_groups data : bytes data → decode_groups (encode_groups data) = Some data.
Proof.
  induction data as [data IH] using (induction_ltof1 _ (@length _)). unfold ltof in IH.
  intros Hd. destruct data as [|a data]; [done|]. apply Forall_cons_iff in Hd as [Ha Hd].
  destruct data as [|b data].
  { cbn [encode_groups decode_groups]. rewrite !alphabet_value by lia. cbn [mbind option_bind].
    rewrite (proj2 (N.eqb_eq _ _)) by lia. do 2 f_equal. lia. }
  apply Forall_cons_iff in Hd as [Hb Hd]. destruct data as [|c data].
  { cbn [encode_groups decode_groups]. rewrite !alphabet_value by lia. cbn [mbind option_bind].
    rewrite (proj2 (N.eqb_eq _ _)) by lia. repeat f_equal; lia. }
  apply Forall_cons_iff in Hd as [Hc Hd].
  cbn [encode_groups decode_groups]. rewrite !alphabet_value by lia. cbn [mbind option_bind].
  rewrite IH by (done || (cbn; lia)). cbn [mbind option_bind]. do 2 f_equal; [lia|].
  f_equal; [lia|]. f_equal. lia.
Qed.

Lemma encode_decode_groups s d :
  decode_groups s = Some d → bytes d ∧ encode_groups d = s.
Proof.
  revert d. induction s as [s IH] using (induction_ltof1 _ (@length _)). unfold ltof in IH.
  intros d. destruct s as [|c1 s]; [intros [= <-]; split; [constructor|done]|].
  destruct s as [|c2 s]; [done|].
  destruct (char_to_value c1) as [v1|] eqn:H1.
  2: { destruct s as [|c3 [|c4 s]]; cbn; rewrite H1; done. }
  destruct (char_to_value c2) as [v2|] eqn:H2.
  2: { destruct s as [|c3 [|c4 s]]; cbn; rewrite H1; cbn; rewrite H2; done. }
  destruct (value_alphabet _ _ H1) as (L1 & A1 & _), (value_alphabet _ _ H2) as (L2 & A2 & _).
  destruct s as [|c3 s].
  { cbn [decode_groups]. rewrite H1, H2. cbn [mbind option_bind].
    destruct (v2 mod 16 =? 0) eqn:E; [|done]. intros [= <-].
    split; [repeat constructor; lia|]. cbn [encode_groups].
    rewrite <- A1, <- A2. repeat f_equal; lia. }
  destruct (char_to_value c3) as [v3|] eqn:H3.
  2: { destruct s as [|c4 s]; cbn; rewrite H1; cbn; rewrite H2; cbn; rewrite H3; done. }
  destruct (value_alphabet _ _ H3) as (L3 & A3 & _). destruct s as [|c4 s].
  { cbn [decode_groups]. rewrite H1, H2, H3. cbn [mbind option_bind].
    destruct (v3 mod 4 =? 0) eqn:E; [|done]. intros [= <-].
    split; [repeat constructor; lia|]. cbn [encode_groups].
    rewrite <- A1, <- A2, <- A3. repeat f_equal; lia. }
  destruct (char_to_value c4) as [v4|] eqn:H4.
  2: { cbn [decode_groups]. rewrite H1, H2, H3, H4. done. }
  destruct (value_alphabet _ _ H4) as (L4 & A4 & _).
  cbn [decode_groups]. rewrite H1, H2, H3, H4. cbn [mbind option_bind].
  destruct (decode_groups s) as [d'|] eqn:E; [|done]. intros [= <-].
  destruct (IH s ltac:(cbn; lia) d' E) as [Hb He].
  split; [repeat (constructor; [lia|]); done|]. cbn [encode_groups].
  rewrite <- A1, <- A2, <- A3, <- A4, He. repeat f_equal; lia.
Qed.

(** Both directions, for the token codec. *)
Lemma base64_url_decode_encode data :
  bytes data → base64_url_decode (base64_url_encode data) = Some data.
Proof.
  intros Hd. rewrite base64_url_decode_groups. unfold base64_url_encode.
  by rewrite encode_loop_groups, decode_encode_groups.
Qed.

(** What does not decode holds a character outside the alphabet, or is not
    canonical; a decoded text holds alphabet characters only. *)
Lemma base64_url_decode_coded s d : base64_url_decode s = Some d → coded s.
Proof. rewrite base64_url_decode_groups. by intros [? _]%decode_groups_coded. Qed.

(** the codec is a bijection between byte strings and the texts it decodes:
    every byte string is read back from its encoding, and a text that decodes is
    the encoding of what it decodes to, so no two texts decode to the same bytes.
    The 32-bit accumulator's overflow does not reach the output. *)
Theorem base64_is_canonical :
  (∀ data, bytes data → base64_url_decode (base64_url_encode data) = Some data)
  ∧ (∀ s data, base64_url_decode s = Some data → bytes data ∧ base64_url_encode data = s).
Proof.
  split; [exact base64_url_decode_encode|]. intros s data Hd.
  rewrite base64_url_decode_groups in Hd. apply encode_decode_groups in Hd as [Hb He].
  split; [done|]. unfold base64_url_encode. by rewrite encode_loop_groups.
Qed.

Lemma base64_is_canonical_witness :
  base64_url_encode [104; 105; 255; 0] = lit "aGn_AA"
  ∧ base64_url_decode (lit "aGn_AA") = Some [104; 105; 255; 0]
  ∧ base64_url_decode (lit "aGn_AB") = None.
Proof.
  split; [vm_compute; reflexivity|]. split; [|vm_compute; reflexivity].
  refine (proj1 base64_is_canonical [104; 105; 255; 0] _). repeat constructor.
Defined.
