(* ===== verification/Tokenization.v ===== *)
(** * Record tokens

    src/src/tokenization.rs: the process-wide configuration, the derived keys and
    their cache, and the tokens of the default codec: base64url of a sealed
    primary key, bound to the model's table or to its name.

    The AEAD cipher (the chacha20poly1305 crate) is class [Aead], the key
    derivation (argon2) is [argon2], the random nonce is an argument, and
    [serde_json] on primary keys is the pair [to_json], [from_json]. *)

From stdpp Require Import gmap.
From S2P Require Import Prelude Utf8 Base64.

Inductive Error :=
  | ETokenization (message : str)
  | EInvalidToken (message : str).

Definition TokenEncoder := str → str → result str Error.
Definition TokenDecoder := str → str → result (option str) Error.

(** [TokenTable]: the schema, when there is one, and the table. *)
Definition TokenTable := (option str * str)%type.

(** XChaCha20-Poly1305, as the crate documents it: the ciphertext is bytes, as
    long as the plaintext and a 16-byte tag, and opens under the key, nonce and
    associated data it was sealed with. *)
Class Aead := {
  encrypt : list N → list N → list N → list N → option (list N);
  decrypt : list N → list N → list N → list N → option (list N);
  encrypt_bytes k n m aad ct : encrypt k n m aad = Some ct → bytes ct;
  encrypt_length k n m aad ct : encrypt k n m aad = Some ct → 0 < length ct;
  decrypt_encrypt k n m aad ct : encrypt k n m aad = Some ct → decrypt k n ct aad = Some m;
}.

Record ConfiguredEncryptionKey := {
  raw : str;
  derived : list N;
  scoped_derived : gmap str (list N);
}.

Record TokenizationState := {
  encryption_key : option ConfiguredEncryptionKey;
  encoder : option TokenEncoder;
  decoder : option TokenDecoder;
}.

(** The static [TOKENIZATION_STATE]. *)
Definition TOKENIZATION_STATE : TokenizationState :=
  {| encryption_key := None; encoder := None; decoder := None |}.

Definition TOKENIZATION_KDF_SALT : str := lit "tideorm::xchacha20poly1305-key::v2".
Definition ENCRYPTED_FIELD_SCOPE_SALT_PREFIX : str :=
  lit "tideorm::xchacha20poly1305-field-key::v1::".

Section keys.
Context (argon2 : list N → list N → list N).

Definition derive_encryption_key (key : str) : list N :=
  argon2 (as_bytes key) TOKENIZATION_KDF_SALT.

Definition derive_scoped_encryption_key (master_key : list N) (table_name column_name : str)
    : list N :=
  argon2 master_key
    (ENCRYPTED_FIELD_SCOPE_SALT_PREFIX ++ as_bytes table_name ++ [0%N] ++ as_bytes column_name).

Definition ConfiguredEncryptionKey_new (r : str) : ConfiguredEncryptionKey :=
  {| raw := r; derived := derive_encryption_key r; scoped_derived := ∅ |}.

(** [format!("{}\0{}", table_name, column_name)] *)
Definition scope_cache_key (table_name column_name : str) : str :=
  table_name ++ [0%N] ++ column_name.

(** [entry(key).or_insert(derived)] keeps a key another thread put there first. *)
Definition derived_field_key (k : ConfiguredEncryptionKey) (table_name column_name : str)
    : ConfiguredEncryptionKey * list N :=
  let ck := scope_cache_key table_name column_name in
  match scoped_derived k !! ck with
  | Some d => (k, d)
  | None =>
      let d := derive_scoped_encryption_key (derived k) table_name column_name in
      ({| raw := raw k; derived := derived k;
          scoped_derived :=
            match scoped_derived k !! ck with
            | Some _ => scoped_derived k
            | None => <[ck := d]> (scoped_derived k)
            end |}, d)
  end.

Definition set_encryption_key (st : TokenizationState) (key : str) : TokenizationState :=
  {| encryption_key :=
       match trim key with [] => None | _ => Some (ConfiguredEncryptionKey_new key) end;
     encoder := encoder st; decoder := decoder st |}.
End keys.

(** [configured_key]: what [read] takes from the key, failing when none is set. *)
Definition configured_key {T} (st : TokenizationState) (read : ConfiguredEncryptionKey → T)
    : result T Error :=
  match encryption_key st with
  | Some k => Ok (read k)
  | None => Err (ETokenization (lit "No encryption key configured"))
  end.

Definition get_encryption_key (st : TokenizationState) : result str Error := configured_key st raw.
Definition get_derived_encryption_key (st : TokenizationState) : result (list N) Error :=
  configured_key st derived.
Definition has_encryption_key (st : TokenizationState) : bool :=
  match encryption_key st with Some _ => true | None => false end.

Definition set_encoder (st : TokenizationState) (e : TokenEncoder) : TokenizationState :=
  {| encryption_key := encryption_key st; encoder := Some e; decoder := decoder st |}.
Definition set_decoder (st : TokenizationState) (d : TokenDecoder) : TokenizationState :=
  {| encryption_key := encryption_key st; encoder := encoder st; decoder := Some d |}.
Definition reset (st : TokenizationState) : TokenizationState :=
  {| encryption_key := None; encoder := None; decoder := None |}.

Definition NONCE_LEN : nat := 24.

Definition TABLE_TOKEN_PREFIX : str := lit "v2.".

Definition table_binding (t : TokenTable) : list N :=
  as_bytes (lit "tideorm-token-v2" ++ [0%N] ++ default [] t.1 ++ [0%N] ++ t.2).

Section tokens.
Context `{Aead}.

(** [seal] with the nonce it generated. *)
Definition seal (nonce key plaintext aad : list N) : option (list N) :=
  ciphertext ← encrypt key nonce plaintext aad;
  Some (nonce ++ ciphertext).

Definition open (key sealed aad : list N) : option (list N) :=
  if length sealed <=? NONCE_LEN then None
  else decrypt key (take NONCE_LEN sealed) (drop NONCE_LEN sealed) aad.

Definition seal_token (st : TokenizationState) (nonce : list N) (record_id : str) (aad : list N)
    : result str Error :=
  match get_derived_encryption_key st with
  | Err e => Err e
  | Ok key =>
      match seal nonce key (as_bytes record_id) aad with
      | None => Err (ETokenization (lit "Failed to encrypt token payload"))
      | Some sealed => Ok (base64_url_encode sealed)
      end
  end.

Definition open_token (st : TokenizationState) (token : str) (aad : list N)
    : result (option str) Error :=
  match get_derived_encryption_key st with
  | Err e => Err e
  | Ok key =>
      Ok (sealed ← base64_url_decode token;
          plaintext ← open key sealed aad;
          from_utf8 plaintext)
  end.

Definition default_encode (st : TokenizationState) (nonce : list N) : TokenEncoder :=
  λ record_id model_name, seal_token st nonce record_id (as_bytes model_name).

Definition default_decode (st : TokenizationState) : TokenDecoder :=
  λ token model_name, open_token st token (as_bytes model_name).

Definition get_encoder (st : TokenizationState) (nonce : list N) : TokenEncoder :=
  default (default_encode st nonce) (encoder st).
Definition get_decoder (st : TokenizationState) : TokenDecoder :=
  default (default_decode st) (decoder st).

Definition encode_for_table (st : TokenizationState) (nonce : list N) (record_id : str)
    (table : TokenTable) : result str Error :=
  match seal_token st nonce record_id (table_binding table) with
  | Err e => Err e
  | Ok sealed => Ok (TABLE_TOKEN_PREFIX ++ sealed)
  end.

Definition decode_for_table (st : TokenizationState) (token : str) (table : TokenTable)
    (model_name : str) : result (option str) Error :=
  match strip_prefix TABLE_TOKEN_PREFIX token with
  | Some sealed => open_token st sealed (table_binding table)
  | None => default_decode st token model_name
  end.

(** What a model implements of [Tokenizable]. *)
Record Tokenizable := {
  token_model_name : str;
  token_table : option TokenTable;
  token_encoder : option TokenEncoder;
  token_decoder : option TokenDecoder;
}.

Definition or {A} (x y : option A) : option A := match x with Some _ => x | None => y end.

Definition token_codecs (st : TokenizationState) (m : Tokenizable)
    : option TokenEncoder * option TokenDecoder :=
  (or (token_encoder m) (encoder st), or (token_decoder m) (decoder st)).

Context {PK : Type} (to_json : PK → result str str) (from_json : str → option PK).

Definition tokenize_id (st : TokenizationState) (m : Tokenizable) (nonce : list N) (id : PK)
    : result str Error :=
  let '(enc, dec) := token_codecs st m in
  match to_json id with
  | Err e => Err (ETokenization (lit "Failed to serialize token primary key: " ++ e))
  | Ok payload =>
      match enc, dec, token_table m with
      | None, None, Some table => encode_for_table st nonce payload table
      | enc, _, _ => default (default_encode st nonce) enc payload (token_model_name m)
      end
  end.

Definition decode_token (st : TokenizationState) (m : Tokenizable) (token : str)
    : result PK Error :=
  let '(enc, dec) := token_codecs st m in
  let payload :=
    match enc, dec, token_table m with
    | None, None, Some table => decode_for_table st token table (token_model_name m)
    | _, dec, _ => default (default_decode st) dec token (token_model_name m)
    end in
  match payload with
  | Err e => Err e
  | Ok None => Err (EInvalidToken (lit "Failed to decode token"))
  | Ok (Some payload) =>
      match from_json payload with
      | Some id => Ok id
      | None =>
          Err (EInvalidToken
                 (lit "The decoded token does not hold a primary key of model "
                  ++ token_model_name m))
      end
  end.
End tokens.

(** ** Round trips *)

Section roundtrips.
Context `{Aead}.

(** A nonce is twenty-four bytes. *)
Definition is_nonce (nonce : list N) : Prop := length nonce = NONCE_LEN ∧ bytes nonce.

Lemma open_seal nonce key plaintext aad sealed :
  is_nonce nonce → seal nonce key plaintext aad = Some sealed →
  open key sealed aad = Some plaintext ∧ bytes sealed.
Proof.
  intros [Hl Hb] Hs. unfold seal in Hs.
  destruct (encrypt key nonce plaintext aad) as [ct|] eqn:E; [|done].
  injection Hs as <-. unfold open.
  pose proof (encrypt_length _ _ _ _ _ E) as Hc.
  rewrite length_app. assert (length nonce + length ct <=? NONCE_LEN = false) as -> by lia.
  rewrite take_app_length', drop_app_length' by done. split; [by apply decrypt_encrypt|].
  apply Forall_app. split; [done|]. by eapply encrypt_bytes.
Qed.

Lemma open_seal_token st nonce record_id aad token :
  is_nonce nonce → scalars record_id → seal_token st nonce record_id aad = Ok token →
  open_token st token aad = Ok (Some record_id).
Proof.
  intros Hn Hr. unfold seal_token, open_token.
  destruct (get_derived_encryption_key st) as [key|]; [|done].
  destruct (seal nonce key (as_bytes record_id) aad) as [sealed|] eqn:E; [|done].
  intros [= <-]. destruct (open_seal _ _ _ _ _ Hn E) as [Ho Hb].
  rewrite base64_url_decode_encode by done. cbn [mbind option_bind]. rewrite Ho.
  cbn [mbind option_bind]. by rewrite from_utf8_as_bytes.
Qed.

Lemma strip_prefix_app p s : strip_prefix p (p ++ s) = Some s.
Proof. induction p as [|c p IH]; [done|]. cbn. by rewrite N.eqb_refl. Qed.

Lemma decode_encode_for_table st nonce record_id table name token :
  is_nonce nonce → scalars record_id →
  encode_for_table st nonce record_id table = Ok token →
  decode_for_table st token table name = Ok (Some record_id).
Proof.
  intros Hn Hr. unfold encode_for_table.
  destruct (seal_token _ _ _ _) as [sealed|] eqn:E; [|done]. intros Heq.
  assert (token = TABLE_TOKEN_PREFIX ++ sealed) as -> by congruence.
  unfold decode_for_table. rewrite strip_prefix_app. by eapply open_seal_token.
Qed.

(** A token without a table never carries the prefix of one with a table. *)
Lemma strip_prefix_base64 data :
  bytes data → strip_prefix TABLE_TOKEN_PREFIX (base64_url_encode data) = None.
Proof.
  intros Hd. destruct (strip_prefix _ _) as [r|] eqn:E; [|done].
  apply strip_prefix_Some in E.
  pose proof (base64_url_decode_coded _ _ (base64_url_decode_encode data Hd)) as Hc.
  rewrite E in Hc. unfold coded in Hc. rewrite list.Forall_forall in Hc.
  destruct (Hc 46%N) as [v Hv]; [|vm_compute in Hv; discriminate].
  apply elem_of_app. left. unfold TABLE_TOKEN_PREFIX. apply list_elem_of_In. vm_compute. tauto.
Qed.

Lemma decode_default_encode st nonce record_id table name token :
  is_nonce nonce → scalars record_id →
  default_encode st nonce record_id name = Ok token →
  decode_for_table st token table name = Ok (Some record_id)
  ∧ default_decode st token name = Ok (Some record_id).
Proof.
  intros Hn Hr He. assert (default_decode st token name = Ok (Some record_id)) as Hd
    by by eapply open_seal_token.
  split; [|done]. unfold decode_for_table.
  assert (strip_prefix TABLE_TOKEN_PREFIX token = None) as ->; [|done].
  unfold default_encode, seal_token in He.
  destruct (get_derived_encryption_key st) as [key|]; [|done].
  destruct (seal _ _ _ _) as [sealed|] eqn:E; [|done]. injection He as <-.
  apply strip_prefix_base64. by eapply open_seal.
Qed.

Context {PK : Type} (to_json : PK → result str str) (from_json : str → option PK).

(** a model's own tokens decode to the key they were made from. Under the
    configuration a token was issued with, with no encoder or decoder override,
    and for a primary key that [serde_json] reads back, [decode_token] of a token
    of [tokenize_id] is the key, whether tokens are bound to the model's table or
    to its name; a token issued bound to the name still decodes for a model that
    since names its table. *)
Theorem token_roundtrip st m nonce id payload token :
  is_nonce nonce → encoder st = None → decoder st = None →
  token_encoder m = None → token_decoder m = None →
  to_json id = Ok payload → scalars payload → from_json payload = Some id →
  (tokenize_id to_json st m nonce id = Ok token → decode_token from_json st m token = Ok id)
  ∧ (default_encode st nonce payload (token_model_name m) = Ok token →
     decode_token from_json st m token = Ok id).
Proof.
  intros Hn He Hd Hme Hmd Hj Hs Hf. unfold tokenize_id, decode_token, token_codecs.
  rewrite Hme, Hmd, He, Hd. cbn [or]. rewrite Hj. split.
  - destruct (token_table m) as [table|].
    + intros Ht. erewrite decode_encode_for_table by done. by rewrite Hf.
    + cbn [default]. intros Ht.
      destruct (decode_default_encode _ _ _ (None, []) _ _ Hn Hs Ht) as [_ Hx].
      unfold default. rewrite Hx. by rewrite Hf.
  - intros Ht. destruct (token_table m) as [table|].
    + destruct (decode_default_encode _ _ _ table _ _ Hn Hs Ht) as [Hx _]. rewrite Hx. by rewrite Hf.
    + destruct (decode_default_encode _ _ _ (None, []) _ _ Hn Hs Ht) as [_ Hx].
      unfold default. rewrite Hx. by rewrite Hf.
Qed.
End roundtrips.

(** ** Separation of models *)

(** An identifier holds no NUL and is text. *)
Definition identifier (s : str) : Prop := scalars s ∧ 0%N ∉ s.

Lemma nul_split (a b c d : str) :
  0%N ∉ a → 0%N ∉ c → a ++ [0%N] ++ b = c ++ [0%N] ++ d → a = c ∧ b = d.
Proof.
  revert c. induction a as [|x a IH]; intros [|y c] Ha Hc E; cbn in E.
  - by injection E.
  - injection E as <- _. destruct Hc. by left.
  - injection E as -> _. destruct Ha. by left.
  - injection E as <- E. apply not_elem_of_cons in Ha as [_ Ha], Hc as [_ Hc].
    by destruct (IH c Ha Hc E) as [-> ->].
Qed.

Lemma scalars_app a b : scalars a → scalars b → scalars (a ++ b).
Proof. intros ??. by apply Forall_app. Qed.

(** Different tables have different associated data. *)
Lemma table_binding_inj t t' :
  identifier (default [] t.1) → identifier t.2 → identifier (default [] t'.1) → identifier t'.2 →
  table_binding t = table_binding t' → default [] t.1 = default [] t'.1 ∧ t.2 = t'.2.
Proof.
  intros [S1 N1] [S2 N2] [S1' N1'] [S2' N2'] E.
  assert (scalars (lit "tideorm-token-v2") ∧ scalars [0%N]) as [Hp Hz].
  { split; repeat constructor. }
  apply as_bytes_inj in E; [|by repeat apply scalars_app..].
  apply app_inv_head in E. injection E as E. by apply nul_split in E.
Qed.

Section separation.
Context `{Aead}.
(** Authentication: a ciphertext does not open under other associated data. *)
Hypothesis authenticates : ∀ k n m aad ct aad',
  encrypt k n m aad = Some ct → aad' ≠ aad → decrypt k n ct aad' = None.

(** C24: a token opens only for the table it was issued for. With a cipher that
    authenticates its associated data, a table-bound token is refused, as a value
    and not as an error, by a model of any other schema or table, whatever its
    name, and by the name-bound decoder whatever the model is called. *)
Theorem table_tokens_stay_with_their_table st nonce record_id t t' name token :
  is_nonce nonce →
  identifier (default [] t.1) → identifier t.2 → identifier (default [] t'.1) → identifier t'.2 →
  (default [] t'.1, t'.2) ≠ (default [] t.1, t.2) →
  encode_for_table st nonce record_id t = Ok token →
  decode_for_table st token t' name = Ok None ∧ default_decode st token name = Ok None.
Proof.
  intros [Hl Hb] I1 I2 I3 I4 Hne. unfold encode_for_table, seal_token.
  destruct (get_derived_encryption_key st) as [key|] eqn:Ek; [|done].
  destruct (seal nonce key _ _) as [sealed|] eqn:E; [|done]. intros Heq.
  assert (token = TABLE_TOKEN_PREFIX ++ base64_url_encode sealed) as -> by congruence.
  pose proof (open_seal _ _ _ _ _ (conj Hl Hb) E) as [_ Hbs]. split.
  - unfold decode_for_table. rewrite strip_prefix_app. unfold open_token. rewrite Ek.
    rewrite base64_url_decode_encode by done. cbn [mbind option_bind].
    unfold seal in E. destruct (encrypt key nonce _ _) as [ct|] eqn:Ee; [|done].
    injection E as <-. unfold open. rewrite length_app.
    pose proof (encrypt_length _ _ _ _ _ Ee) as Hc.
    assert (length nonce + length ct <=? NONCE_LEN = false) as -> by lia.
    rewrite take_app_length', drop_app_length' by done.
    erewrite authenticates by (done || (intros Hx%table_binding_inj; [destruct Hx as [Hx1 Hx2];
      apply Hne; by rewrite Hx1, Hx2|done..])). done.
  - unfold default_decode, open_token. rewrite Ek.
    destruct (base64_url_decode (TABLE_TOKEN_PREFIX ++ base64_url_encode sealed)) as [d|] eqn:Ed;
      [|done].
    exfalso. apply base64_url_decode_coded in Ed. unfold coded in Ed.
    rewrite list.Forall_forall in Ed. destruct (Ed 46%N) as [v Hv]; [|vm_compute in Hv; discriminate].
    apply elem_of_app. left. apply list_elem_of_In. vm_compute. tauto.
Qed.
End separation.

(** ** Keys *)

Section field_keys.
Context (argon2 : list N → list N → list N).

(** Every cached key is the one its scope derives. *)
Definition cache_exact (k : ConfiguredEncryptionKey) : Prop :=
  ∀ ck d, scoped_derived k !! ck = Some d →
    d = argon2 (derived k) (ENCRYPTED_FIELD_SCOPE_SALT_PREFIX ++ as_bytes ck).

Lemma scoped_key_of_cache_key master table column :
  derive_scoped_encryption_key argon2 master table column
  = argon2 master (ENCRYPTED_FIELD_SCOPE_SALT_PREFIX ++ as_bytes (scope_cache_key table column)).
Proof.
  unfold derive_scoped_encryption_key, scope_cache_key. by rewrite !as_bytes_app.
Qed.

Lemma derived_field_key_exact k table column :
  cache_exact k →
  (derived_field_key argon2 k table column).2
  = derive_scoped_encryption_key argon2 (derived k) table column
  ∧ cache_exact (derived_field_key argon2 k table column).1
  ∧ derived (derived_field_key argon2 k table column).1 = derived k.
Proof.
  intros Hc. unfold derived_field_key. cbn zeta.
  destruct (scoped_derived k !! scope_cache_key table column) as [d|] eqn:E; cbn [fst snd derived].
  - split_and!; [|done|done]. rewrite scoped_key_of_cache_key. by apply Hc.
  - split_and!; [done| |done]. intros ck d. cbn [scoped_derived derived].
    intros [[<- <-]|[_ Hk]]%lookup_insert_Some; [apply scoped_key_of_cache_key|by apply Hc].
Qed.

(** The lookups a process makes, in order. *)
Fixpoint field_keys (k : ConfiguredEncryptionKey) (scopes : list (str * str)) : list (list N) :=
  match scopes with
  | [] => []
  | (table, column) :: scopes =>
      let '(k, d) := derived_field_key argon2 k table column in d :: field_keys k scopes
  end.

(** caching derived field keys changes no key. Whatever columns are looked
    up, in whatever order and however often, each lookup answers the key that the
    configured secret derives for its own table and column, even for names whose
    texts run together in the cache's key. *)
Theorem field_key_cache_is_transparent secret scopes :
  field_keys (ConfiguredEncryptionKey_new argon2 secret) scopes
  = (λ s, derive_scoped_encryption_key argon2 (derive_encryption_key argon2 secret) s.1 s.2)
      <$> scopes.
Proof.
  assert (cache_exact (ConfiguredEncryptionKey_new argon2 secret)) as Hc.
  { intros ck d Hk. cbn in Hk. done. }
  change (derive_encryption_key argon2 secret)
    with (derived (ConfiguredEncryptionKey_new argon2 secret)).
  revert Hc. generalize (ConfiguredEncryptionKey_new argon2 secret) as k.
  induction scopes as [|[t c] scopes IH]; intros k Hc; [done|]. cbn [field_keys].
  destruct (derived_field_key_exact k t c Hc) as (H1 & H2 & H3).
  rewrite (surjective_pairing (derived_field_key argon2 k t c)), H1. rewrite IH by done.
  by rewrite H3.
Qed.

Lemma drop_while_nil p (s : str) : drop_while p s = [] ↔ Forall (λ c, p c = true) s.
Proof.
  induction s as [|c s IH]; cbn; [by split|]. destruct (p c) eqn:E.
  - rewrite IH, Forall_cons_iff. tauto.
  - split; [done|]. by intros [Hx _]%Forall_cons_iff; congruence.
Qed.

Lemma trim_nil s : trim s = [] ↔ Forall (λ c, is_whitespace c = true) s.
Proof.
  unfold trim. rewrite <- drop_while_nil. split; [|by intros ->].
  intros E. assert (drop_while is_whitespace (rev (drop_while is_whitespace s)) = []) as Hd.
  { rewrite <- (rev_involutive (drop_while _ (rev _))), E. done. }
  apply drop_while_nil in Hd. destruct (drop_while is_whitespace s) as [|c r] eqn:Es; [done|].
  assert (is_whitespace c = true) as Hc.
  { rewrite List.Forall_forall in Hd. apply Hd. apply -> in_rev. by left. }
  assert (is_whitespace c = false) as Hc'; [|congruence].
  clear Hd E Hc. revert c r Es. induction s as [|d s IH]; intros c r; cbn; [done|].
  destruct (is_whitespace d) eqn:Ed; [by apply IH|]. by intros [= <- _].
Qed.

(** A blank secret never becomes a key. After [set_encryption_key] the
    default codec has the key derived from the secret, unless the secret is empty
    or white space: then every token operation of the default codec fails with
    the configuration error, whatever key was set before. *)
Theorem blank_secret_is_no_key `{Aead} st secret nonce id name token :
  let st' := set_encryption_key argon2 st secret in
  if forallb is_whitespace secret
  then default_encode st' nonce id name = Err (ETokenization (lit "No encryption key configured"))
       ∧ default_decode st' token name = Err (ETokenization (lit "No encryption key configured"))
       ∧ has_encryption_key st' = false
  else get_encryption_key st' = Ok secret
       ∧ get_derived_encryption_key st' = Ok (derive_encryption_key argon2 secret)
       ∧ ∃ answer, default_decode st' token name = Ok answer.
Proof.
  intros st'. destruct (forallb is_whitespace secret) eqn:E.
  - assert (trim secret = []) as Ht.
    { apply trim_nil, Forall_forall. rewrite forallb_forall in E. exact E. }
    unfold st', set_encryption_key, default_encode, default_decode, seal_token, open_token,
      has_encryption_key. rewrite Ht. done.
  - destruct (trim secret) as [|c r] eqn:Ht.
    + apply trim_nil in Ht. apply not_true_iff_false in E. destruct E.
      apply forallb_forall. by apply Forall_forall.
    + unfold st', set_encryption_key, default_decode, open_token. rewrite Ht.
      split_and!; [done|done|]. eexists. reflexivity.
Qed.
End field_keys.

(** ** A concrete cipher *)

(** The associated data, marked, and the message behind it: enough to evaluate
    the codec, with the two properties the theorems use. *)
Fixpoint mark (aad m : list N) : list N :=
  match aad with [] => 0%N :: m | b :: aad => 1%N :: b :: mark aad m end.

Fixpoint unmark (aad ct : list N) : option (list N) :=
  match aad, ct with
  | [], 0%N :: m => Some m
  | b :: aad, 1%N :: c :: ct => if (b =? c)%N then unmark aad ct else None
  | _, _ => None
  end.

Definition is_bytes (l : list N) : bool := forallb (λ b, b <? 256)%N l.

Lemma is_bytes_true l : is_bytes l = true → bytes l.
Proof.
  unfold is_bytes, bytes. rewrite forallb_forall, List.Forall_forall.
  intros Hl x Hx. specialize (Hl x Hx). lia.
Qed.

Lemma unmark_mark aad m : unmark aad (mark aad m) = Some m.
Proof. induction aad as [|b aad IH]; [done|]. cbn. by rewrite N.eqb_refl. Qed.

Lemma unmark_other aad aad' m : aad' ≠ aad → unmark aad' (mark aad m) = None.
Proof.
  revert aad'. induction aad as [|b aad IH]; intros [|b' aad'] Hne; cbn; try done.
  destruct (b' =? b)%N eqn:E; [|done]. apply IH. apply N.eqb_eq in E as ->. congruence.
Qed.

Lemma mark_bytes aad m : bytes aad → bytes m → bytes (mark aad m).
Proof.
  intros Ha Hm. induction Ha as [|b aad Hb _ IH]; cbn; [by constructor|].
  repeat (constructor; [done|]). exact IH.
Qed.

Program Definition marking : Aead := {|
  encrypt k n m aad := if is_bytes aad && is_bytes m then Some (mark aad m) else None;
  decrypt k n ct aad := unmark aad ct;
|}.
Next Obligation.
  intros k n m aad ct. cbn. destruct (is_bytes aad && is_bytes m) eqn:E; [|done].
  apply andb_true_iff in E as [??]. intros [= <-]. by apply mark_bytes; apply is_bytes_true.
Qed.
Next Obligation.
  intros k n m aad ct. cbn. destruct (_ && _); [|done]. intros [= <-]. destruct aad; cbn; lia.
Qed.
Next Obligation.
  intros k n m aad ct. cbn. destruct (_ && _); [|done]. intros [= <-]. apply unmark_mark.
Qed.

Definition demo_state : TokenizationState :=
  set_encryption_key (λ secret salt, secret ++ salt) TOKENIZATION_STATE (lit "secret").

Definition demo_nonce : list N := replicate 24 7%N.

Definition demo_model : Tokenizable :=
  {| token_model_name := lit "User"; token_table := Some (None, lit "users");
     token_encoder := None; token_decoder := None |}.

Lemma demo_nonce_ok : is_nonce demo_nonce.
Proof. split; [reflexivity|repeat constructor]. Qed.

Lemma token_roundtrip_witness :
  ∃ token, @tokenize_id marking str Ok demo_state demo_model demo_nonce (lit "42") = Ok token
    ∧ @decode_token marking str Some demo_state demo_model token = Ok (lit "42").
Proof.
  eexists. split; [vm_compute; reflexivity|].
  refine (proj1 (@token_roundtrip marking str Ok Some demo_state demo_model demo_nonce (lit "42")
    (lit "42") _ demo_nonce_ok eq_refl eq_refl eq_refl eq_refl eq_refl _ eq_refl) _).
  - repeat constructor.
  - vm_compute. reflexivity.
Defined.

Lemma table_tokens_stay_with_their_table_witness :
  ∃ token, @encode_for_table marking demo_state demo_nonce (lit "42") (None, lit "users") = Ok token
    ∧ @decode_for_table marking demo_state token (None, lit "posts") (lit "User") = Ok None.
Proof.
  eexists. split; [vm_compute; reflexivity|].
  assert (∀ s, forallb is_scalar (lit s) && negb (existsb (N.eqb 0) (lit s)) = true →
               identifier (lit s)) as Hid.
  { intros s [Hs Hz]%andb_true_iff. split.
    - apply List.Forall_forall. rewrite forallb_forall in Hs. exact Hs.
    - apply negb_true_iff, not_true_iff_false in Hz. intros Hin. apply Hz.
      apply existsb_exists. exists 0%N. split; [by apply list_elem_of_In|done]. }
  refine (proj1 (@table_tokens_stay_with_their_table marking _ demo_state demo_nonce (lit "42")
    (None, lit "users") (None, lit "posts") (lit "User") _ demo_nonce_ok _ _ _ _ _ _)).
  - intros k n m aad ct aad'. cbn. destruct (_ && _); [|done]. intros [= <-]. apply unmark_other.
  - apply (Hid ""%string). reflexivity.
  - apply (Hid "users"%string). vm_compute. reflexivity.
  - apply (Hid ""%string). reflexivity.
  - apply (Hid "posts"%string). vm_compute. reflexivity.
  - vm_compute. discriminate.
  - vm_compute. reflexivity.
Defined.
