(* ===== verification/Migrator.v ===== *)
(** * The migration runner

    src/src/migration/migrator.rs, with the ledger of src/src/migration/ledger.rs,
    the foreign-key scope of src/src/migration/sqlite_foreign_keys.rs and the
    traits and results of src/src/migration/api.rs.

    The database is a state: its schema and contents, of any type [D], which
    migrations change, and the ledger table, its rows in the order of their
    increasing ids. A migration's [up] and [down] are functions of [D] that say
    what they leave behind and whether they failed. What the server answers is an
    oracle: each statement takes the next answer, and a failed one may have taken
    effect all the same (a commit whose reply was lost). *)

From Stdlib Require Import Sorted.
From S2P Require Import Prelude Dialect MinHeap SqlSafety.

Inductive MError :=
  | EQuery (message : str)
  | EConfiguration (message : str)
  | ENotFound (message : str)
  | EDatabase (code : N).

(** The server's answer to a statement. *)
Inductive Answer := Good | Failed (e : MError) (took_effect : bool).

Record MigrationInfo := { info_version : str; info_name : str }.

Record MigrationResult := {
  applied : list MigrationInfo;
  skipped : list MigrationInfo;
  rolled_back : list MigrationInfo;
}.

Definition MigrationResult_default : MigrationResult :=
  {| applied := []; skipped := []; rolled_back := [] |}.

Record MigrationStatus := {
  status_version : str; status_name : str; status_applied : bool;
}.

(** A row of [PRAGMA foreign_key_check], its rowid as JSON text. *)
Record Violation := { violating_table : str; violating_rowid : str; violated_parent : str }.

(** ** The ledger's statements *)

Record Ledger := {
  table : str;
  key_column : str;
  detail_columns : list str;
  recorded_at_column : str;
}.

Definition Ledger_migrations (t : str) : Ledger :=
  {| table := t; key_column := lit "version"; detail_columns := [lit "name"];
     recorded_at_column := lit "applied_at" |}.

Definition Ledger_seeds : Ledger :=
  {| table := lit "_seeds"; key_column := lit "name"; detail_columns := [];
     recorded_at_column := lit "executed_at" |}.

Definition create_table_sql (l : Ledger) (db : DatabaseType) : str :=
  let '(id_type, text_type, timestamp_type) :=
    match db with
    | Postgres => (lit "SERIAL PRIMARY KEY", lit "VARCHAR(255)", lit "TIMESTAMP")
    | MySQL | MariaDB => (lit "INT AUTO_INCREMENT PRIMARY KEY", lit "VARCHAR(255)", lit "TIMESTAMP")
    | SQLite => (lit "INTEGER PRIMARY KEY AUTOINCREMENT", lit "TEXT", lit "TEXT")
    end in
  let columns :=
    [quote_ident db (lit "id") ++ lit " " ++ id_type;
     quote_ident db (key_column l) ++ lit " " ++ text_type ++ lit " NOT NULL UNIQUE"]
    ++ ((λ c, quote_ident db c ++ lit " " ++ text_type ++ lit " NOT NULL") <$> detail_columns l)
    ++ [quote_ident db (recorded_at_column l) ++ lit " " ++ timestamp_type
        ++ lit " NOT NULL DEFAULT CURRENT_TIMESTAMP"] in
  lit "CREATE TABLE IF NOT EXISTS " ++ quote_ident db (table l) ++ lit " ("
  ++ join (lit ", ") columns ++ lit ")".

Definition keys_sql (l : Ledger) (db : DatabaseType) : str :=
  lit "SELECT " ++ quote_ident db (key_column l) ++ lit " FROM " ++ quote_ident db (table l)
  ++ lit " ORDER BY " ++ quote_ident db (lit "id") ++ lit " ASC".

(** [push_param] for each value, in order. *)
Fixpoint push_params (db : DatabaseType) (params : list str) (values : list str)
    : list str * list str :=
  match values with
  | [] => ([], params)
  | v :: values =>
      let '(params, marker) := push_param db params v in
      let '(markers, params) := push_params db params values in
      (marker :: markers, params)
  end.

Definition insert_sql (l : Ledger) (db : DatabaseType) (key : str) (details : list str)
    : str * list str :=
  let '(placeholders, params) := push_params db [] (key :: details) in
  (lit "INSERT INTO " ++ quote_ident db (table l) ++ lit " ("
   ++ column_list db (key_column l :: detail_columns l) [] ++ lit ") VALUES ("
   ++ join (lit ", ") placeholders ++ lit ")", params).

Definition delete_sql (l : Ledger) (db : DatabaseType) (key : str) : str * list str :=
  let '(params, placeholder) := push_param db [] key in
  (lit "DELETE FROM " ++ quote_ident db (table l) ++ lit " WHERE "
   ++ quote_ident db (key_column l) ++ lit " = " ++ placeholder, params).

Definition supports_transactional_ddl (db : DatabaseType) : bool :=
  match db with Postgres | SQLite => true | _ => false end.

Section migrator.
Context {D : Type}.

Record Migration := {
  version : str;
  name : str;
  foreign_keys_off : bool;
  up : D → D * option MError;
  down : D → D * option MError;
}.

(** The database, [rows] being the ledger's, if it exists, and the answers to come. *)
Record World := { schema : D; rows : option (list (str * str)); answers : list Answer }.

Definition M (A : Type) : Type := World → World * result A MError.

Definition ret {A} (a : A) : M A := λ w, (w, Ok a).
Definition fail {A} (e : MError) : M A := λ w, (w, Err e).
Definition bind {A B} (x : M A) (k : A → M B) : M B :=
  λ w, match x w with
       | (w, Ok a) => k a w
       | (w, Err e) => (w, Err e)
       end.

(** [?] *)
Local Notation "'let!' a := x 'in' k" := (bind x (λ a, k))
  (at level 200, a name, x at level 100, k at level 200).

Definition set_data (w : World) (d : D) (r : option (list (str * str))) : World :=
  {| schema := d; rows := r; answers := answers w |}.

(** A statement with the effect [f]. *)
Definition exec (f : World → World) : M unit := λ w,
  let w' := {| schema := schema w; rows := rows w; answers := tail (answers w) |} in
  match answers w with
  | Failed e took_effect :: _ => ((if took_effect then f w' else w'), Err e)
  | _ => (f w', Ok tt)
  end.

(** A statement that only reads. *)
Definition query : M unit := exec (λ w, w).

(** [Ledger::ensure]: [CREATE TABLE IF NOT EXISTS], after a probe on MySQL. *)
Definition ensure (db : DatabaseType) : M unit :=
  let create := exec (λ w, set_data w (schema w) (Some (default [] (rows w)))) in
  match db with
  | MySQL | MariaDB =>
      let! _ := query in
      λ w, match rows w with Some _ => (w, Ok tt) | None => create w end
  | _ => create
  end.

(** [Ledger::keys]: the keys in the order of the ids; error 1 is a missing table. *)
Definition keys : M (list str) :=
  let! _ := query in
  λ w, match rows w with
       | Some r => (w, Ok r.*1)
       | None => (w, Err (EDatabase 1))
       end.

(** [Ledger::record]: error 2 is the violation of the key's [UNIQUE]. *)
Definition record (key detail : str) : M unit := λ w,
  match rows w with
  | None => fail (EDatabase 1) w
  | Some r =>
      if bool_decide (key ∈ r.*1) then fail (EDatabase 2) w
      else exec (λ w, set_data w (schema w) (Some (r ++ [(key, detail)]))) w
  end.

(** [Ledger::remove]. *)
Definition remove_row (key : str) : M unit := λ w,
  match rows w with
  | None => fail (EDatabase 1) w
  | Some r => exec (λ w, set_data w (schema w) (Some (filter (λ kv, kv.1 ≠ key) r))) w
  end.

(** A migration's own work: it may leave changes behind and fail. *)
Definition work (f : D → D * option MError) : M unit := λ w,
  let '(d, e) := f (schema w) in
  (set_data w d (rows w), match e with Some e => Err e | None => Ok tt end).

(** [Database::transaction]: begin, the work, then a commit that may fail before
    or after it took effect, or a rollback. *)
Definition transaction (body : M unit) : M unit := λ w,
  match query w with
  | (w1, Err e) => (w1, Err e)
  | (w1, Ok _) =>
      match body w1 with
      | (w2, Ok _) =>
          exec (λ w, set_data w (schema w2) (rows w2))
            {| schema := schema w1; rows := rows w1; answers := answers w2 |}
      | (w2, Err e) => ({| schema := schema w1; rows := rows w1; answers := answers w2 |}, Err e)
      end
  end.

(** The rows [PRAGMA foreign_key_check] returns. *)
Context (fk_check : D → list Violation).

Definition foreign_key_violations : M (option str) :=
  let! _ := query in
  λ w, (w, Ok (match fk_check (schema w) with
               | [] => None
               | first :: _ as violations =>
                   Some (show_N (N.of_nat (length violations))
                     ++ lit " row(s) whose foreign key matches no row, the first in table "
                     ++ violating_table first ++ lit " (rowid " ++ violating_rowid first
                     ++ lit ") pointing at table " ++ violated_parent first)
               end)).

(** [run_with_foreign_keys_off]: the first statement stands for
    [sqlite_foreign_keys_off], whose refusals are its failures. *)
Definition run_with_foreign_keys_off (body : M unit) : M unit :=
  let! _ := query in
  transaction
    (let! before := foreign_key_violations in
     match before with
     | Some v =>
         fail (EQuery (lit "the database already has " ++ v
           ++ lit "; fix them before running a migration with foreign keys off"))
     | None =>
         let! _ := body in
         let! after := foreign_key_violations in
         match after with
         | Some v =>
             fail (EQuery (lit "the migration ran with foreign keys off and leaves " ++ v
               ++ lit "; it was rolled back"))
         | None => ret tt
         end
     end).

Definition in_ddl_scope (db : DatabaseType) (fk_off : bool) (body : M unit) : M unit :=
  if negb (supports_transactional_ddl db) then body
  else if fk_off && bool_decide (db = SQLite) then run_with_foreign_keys_off body
  else transaction body.

Definition run_migration (db : DatabaseType) (m : Migration) (apply : bool) : M unit :=
  in_ddl_scope db (foreign_keys_off m)
    (if apply then let! _ := work (up m) in record (version m) (name m)
     else let! _ := work (down m) in remove_row (version m)).

(** [with_ledger_lock]: the work's failure is reported before the release's. *)
Definition with_migration_lock {A} (body : M A) : M A :=
  let! _ := query in
  λ w, let '(w, outcome) := body w in
       let '(w, released) := query w in
       (w, match outcome with
           | Err e => Err e
           | Ok a => match released with Err e => Err e | Ok _ => Ok a end
           end).

Record Migrator := { migrations : list Migration; ledger_table : str }.

Definition Migrator_new : Migrator := {| migrations := []; ledger_table := lit "_migrations" |}.
Definition add (m : Migrator) (x : Migration) : Migrator :=
  {| migrations := migrations m ++ [x]; ledger_table := ledger_table m |}.
Definition migrations_table (m : Migrator) (t : str) : Migrator :=
  {| migrations := migrations m; ledger_table := t |}.

Definition info_of (m : Migration) : MigrationInfo :=
  {| info_version := version m; info_name := name m |}.

Definition checked_ledger (t : str) : result Ledger MError :=
  if is_safe_identifier_segment t then Ok (Ledger_migrations t)
  else Err (EConfiguration (lit "invalid migrations table name '" ++ t
         ++ lit "': expected ASCII letters, numbers, and underscores")).

Definition with_ledger {A} (m : Migrator) (k : M A) : M A :=
  match checked_ledger (ledger_table m) with Err e => fail e | Ok _ => k end.

Definition sorted (m : Migrator) : list Migration := sort_by_key version (migrations m).

Definition registered_versions (m : Migrator) : list str := version <$> migrations m.

Definition applied_versions (m : Migrator) : M (list str) :=
  let! ks := keys in ret (filter (λ v, v ∈ registered_versions m) ks).

(** The loop of [run_locked]. *)
Fixpoint run_each (db : DatabaseType) (done : list str) (ms : list Migration)
    (result : MigrationResult) : M MigrationResult :=
  match ms with
  | [] => ret result
  | m :: ms =>
      if bool_decide (version m ∈ done) then
        run_each db done ms
          {| applied := applied result; skipped := skipped result ++ [info_of m];
             rolled_back := rolled_back result |}
      else
        let! _ := run_migration db m true in
        run_each db done ms
          {| applied := applied result ++ [info_of m]; skipped := skipped result;
             rolled_back := rolled_back result |}
  end.

Definition run_locked (db : DatabaseType) (m : Migrator) : M MigrationResult :=
  with_ledger m
    (let! _ := ensure db in
     let! done := applied_versions m in
     run_each db done (sorted m) MigrationResult_default).

Definition run (db : DatabaseType) (m : Migrator) : M MigrationResult :=
  with_migration_lock (run_locked db m).

Definition rollback_locked (db : DatabaseType) (m : Migrator) : M MigrationResult :=
  with_ledger m
    (let! _ := ensure db in
     let! done := keys in
     match list.last done with
     | None => ret MigrationResult_default
     | Some v =>
         match list_find (λ x, version x = v) (migrations m) with
         | None =>
             fail (EQuery (lit "Cannot roll back migration " ++ v
               ++ lit ": it is recorded but not registered"))
         | Some (_, x) =>
             let! _ := run_migration db x false in
             ret {| applied := []; skipped := []; rolled_back := [info_of x] |}
         end
     end).

Definition rollback (db : DatabaseType) (m : Migrator) : M MigrationResult :=
  with_migration_lock (rollback_locked db m).

Fixpoint rollback_steps_locked (db : DatabaseType) (m : Migrator) (steps : nat)
    (result : MigrationResult) : M MigrationResult :=
  match steps with
  | 0 => ret result
  | S steps =>
      let! step := rollback_locked db m in
      match rolled_back step with
      | [] => ret result
      | infos =>
          rollback_steps_locked db m steps
            {| applied := applied result; skipped := skipped result;
               rolled_back := rolled_back result ++ infos |}
      end
  end.

Definition rollback_steps (db : DatabaseType) (m : Migrator) (steps : nat) : M MigrationResult :=
  if steps =? 0 then ret MigrationResult_default
  else with_migration_lock (rollback_steps_locked db m steps MigrationResult_default).

Definition reset_locked (db : DatabaseType) (m : Migrator) : M MigrationResult :=
  with_ledger m
    (let! _ := ensure db in
     let! recorded := keys in
     match filter (λ v, v ∉ registered_versions m) recorded with
     | [] => rollback_steps_locked db m (length recorded) MigrationResult_default
     | unknown =>
         fail (EQuery (lit "Cannot reset migrations: recorded versions are not registered: "
           ++ join (lit ", ") unknown))
     end).

Definition reset (db : DatabaseType) (m : Migrator) : M MigrationResult :=
  with_migration_lock (reset_locked db m).

Definition refresh (db : DatabaseType) (m : Migrator) : M MigrationResult :=
  with_migration_lock
    (let! r := reset_locked db m in
     let! a := run_locked db m in
     ret {| applied := applied a; skipped := skipped a; rolled_back := rolled_back r |}).

Definition status (db : DatabaseType) (m : Migrator) : M (list MigrationStatus) :=
  with_ledger m
    (let! _ := ensure db in
     let! done := applied_versions m in
     ret ((λ x, {| status_version := version x; status_name := name x;
                   status_applied := bool_decide (version x ∈ done) |}) <$> sorted m)).

(** The statements of [__run_sql_migration]. *)
Fixpoint exec_statements (statements : list (D → D * option MError)) : M unit :=
  match statements with
  | [] => ret tt
  | s :: statements => let! _ := work s in exec_statements statements
  end.

Definition run_sql_migration (db : DatabaseType) (t version name : str)
    (statements : list (D → D * option MError)) (apply : bool) : M bool :=
  match checked_ledger t with
  | Err e => fail e
  | Ok _ =>
      with_migration_lock
        (let! _ := ensure db in
         let! ks := keys in
         if bool_decide (bool_decide (version ∈ ks) = apply) then ret false
         else
           let! _ := in_ddl_scope db false
             (let! _ := exec_statements statements in
              if apply then record version name else remove_row version) in
           ret true)
  end.

Definition mark_migration (db : DatabaseType) (t version name : str) (is_applied : bool) : M unit :=
  match checked_ledger t with
  | Err e => fail e
  | Ok _ =>
      let! _ := ensure db in
      if is_applied then record version name else remove_row version
  end.

End migrator.
Arguments Migration : clear implicits.
Arguments World : clear implicits.
Arguments Migrator : clear implicits.

(** ** What the operations do *)

Section facts.
Context {D : Type} (fk_check : D → list Violation).
Implicit Types (m : Migrator D) (x : Migration D) (w : World D).

(** What a server keeps: the schema and the ledger's rows. *)
Definition kept (w : World D) : D * option (list (str * str)) := (schema w, rows w).

(** The ledger, empty when its table is missing. *)
Definition ledger_of (w : World D) : list (str * str) := default [] (rows w).

Lemma bind_Ok {A B} (a : M A) (k : A → M B) w w' b :
  bind a k w = (w', Ok b) → ∃ w1 v, a w = (w1, Ok v) ∧ k v w1 = (w', Ok b).
Proof. unfold bind. destruct (a w) as [w1 [v|e]]; [eauto|done]. Qed.

Lemma query_kept w w' r : query w = (w', r) → kept w' = kept w.
Proof.
  unfold query, exec. intros Hq. destruct (answers w) as [|[|e []] l]; injection Hq as <- <-; done.
Qed.

(** A statement has its effect when it succeeds, and may have it when it fails. *)
Lemma exec_kept f w w' r :
  (∀ w1, kept w1 = kept w → kept (f w1) = kept (f w)) →
  exec f w = (w', r) →
  match r with Ok _ => kept w' = kept (f w) | Err _ => kept w' = kept w ∨ kept w' = kept (f w) end.
Proof.
  intros Hf. unfold exec.
  destruct (answers w) as [|[|e []] l]; intros [= <- <-]; [by apply Hf|by apply Hf|right; by apply Hf|by left].
Qed.

(** A transaction commits all of its work or none. *)
Lemma transaction_kept body w w' r :
  transaction body w = (w', r) →
  (∃ w1 w2, kept w1 = kept w ∧ body w1 = (w2, Ok tt) ∧ kept w' = kept w2)
  ∨ (kept w' = kept w ∧ ∃ e, r = Err e).
Proof.
  unfold transaction. destruct (query w) as [w1 [[]|e]] eqn:Eq.
  2: { intros [= <- <-]. right. split; [by eapply query_kept|eauto]. }
  apply query_kept in Eq. destruct (body w1) as [w2 [[]|e]] eqn:Eb.
  - intros Ex. apply exec_kept in Ex; [|done]. cbn in Ex. destruct r as [[]|e].
    + left. exists w1, w2. split_and!; [done|done|exact Ex].
    + destruct Ex as [Ex|Ex]; [right; split; [|eauto]|left; exists w1, w2; split_and!; [done|done|exact Ex]].
      rewrite Ex. exact Eq.
  - intros [= <- <-]. right. split; [exact Eq|eauto].
Qed.

Lemma foreign_key_violations_kept w w' r :
  foreign_key_violations fk_check w = (w', r) → kept w' = kept w.
Proof.
  unfold foreign_key_violations, bind. destruct (query w) as [w1 [|]] eqn:Eq;
    intros [= <- <-]; by eapply query_kept.
Qed.

Lemma foreign_key_violations_None w w' :
  foreign_key_violations fk_check w = (w', Ok None) → fk_check (schema w') = [].
Proof.
  unfold foreign_key_violations. intros (w1 & [] & _ & Hv)%bind_Ok.
  injection Hv as <- Hv. by destruct (fk_check (schema w1)).
Qed.

Lemma foreign_keys_off_kept body w w' r :
  run_with_foreign_keys_off fk_check body w = (w', r) →
  (kept w' = kept w ∧ ∃ e, r = Err e)
  ∨ ∃ w1 w2, kept w1 = kept w ∧ body w1 = (w2, Ok tt) ∧ kept w' = kept w2
      ∧ fk_check (schema w) = [] ∧ fk_check (schema w') = [].
Proof.
  unfold run_with_foreign_keys_off. unfold bind at 1.
  destruct (query w) as [w0 [[]|e]] eqn:Eq; apply query_kept in Eq.
  2: { intros [= <- <-]. left. eauto. }
  intros Ht. apply transaction_kept in Ht as [(w1 & w2 & H1 & Hb & H2)|[H1 H2]].
  2: { left. split; [congruence|done]. }
  apply bind_Ok in Hb as (w3 & [v|] & Hv & Hb); [done|].
  apply foreign_key_violations_None in Hv as Hc. apply foreign_key_violations_kept in Hv.
  apply bind_Ok in Hb as (w4 & [] & Hbody & Hb).
  apply bind_Ok in Hb as (w5 & [v|] & Hv' & Hb); [done|].
  apply foreign_key_violations_None in Hv' as Hc'. apply foreign_key_violations_kept in Hv'.
  injection Hb as <-. right. exists w3, w4. unfold kept in *.
  split_and!; [congruence|done|congruence|congruence|congruence].
Qed.

(** Where DDL is transactional, so is a migration's scope. *)
Lemma in_ddl_scope_kept db fk_off body w w' r :
  supports_transactional_ddl db = true →
  in_ddl_scope fk_check db fk_off body w = (w', r) →
  (∃ w1 w2, kept w1 = kept w ∧ body w1 = (w2, Ok tt) ∧ kept w' = kept w2)
  ∨ (kept w' = kept w ∧ ∃ e, r = Err e).
Proof.
  intros Hdb. unfold in_ddl_scope. rewrite Hdb. cbn [negb].
  destruct (fk_off && bool_decide (db = SQLite)); [|by apply transaction_kept].
  intros [?|(w1 & w2 & H1 & H2 & H3 & _)]%foreign_keys_off_kept; [by right|left; eauto].
Qed.

(** [x] was applied and recorded. *)
Definition applied_one x (s s' : D * option (list (str * str))) : Prop :=
  ∃ r, s.2 = Some r ∧ version x ∉ r.*1 ∧ up x s.1 = (s'.1, None)
       ∧ s'.2 = Some (r ++ [(version x, name x)]).

(** [x] was reverted and its row removed. *)
Definition reverted_one x (s s' : D * option (list (str * str))) : Prop :=
  ∃ r, s.2 = Some r ∧ down x s.1 = (s'.1, None)
       ∧ s'.2 = Some (filter (λ kv, kv.1 ≠ version x) r).

Lemma work_Ok f w w' : work f w = (w', Ok tt) → f (schema w) = (schema w', None) ∧ rows w' = rows w.
Proof. unfold work. destruct (f (schema w)) as [d [e|]]; [done|]. by intros [= <-]. Qed.

Lemma record_Ok k n w w' :
  record k n w = (w', Ok tt) →
  schema w' = schema w ∧ ledger_of w' = ledger_of w ++ [(k, n)].
Proof.
  unfold record. destruct (rows w) as [r|] eqn:Er; [|done]. case_bool_decide; [done|].
  intros Hr. apply exec_kept in Hr; [|by intros w0 Hk; unfold kept in *; cbn; injection Hk as -> _].
  unfold ledger_of, kept in *. cbn in Hr. injection Hr as -> ->. by rewrite Er.
Qed.

Lemma remove_row_Ok k w w' :
  remove_row k w = (w', Ok tt) →
  schema w' = schema w ∧ ledger_of w' = filter (λ kv, kv.1 ≠ k) (ledger_of w).
Proof.
  unfold remove_row. destruct (rows w) as [r|] eqn:Er; [|done].
  intros Hr. apply exec_kept in Hr; [|by intros w0 Hk; unfold kept in *; cbn; injection Hk as -> _].
  unfold ledger_of, kept in *. cbn in Hr. injection Hr as -> ->. by rewrite Er.
Qed.

Lemma apply_body_kept x w w' :
  (bind (work (up x)) (λ _, record (version x) (name x))) w = (w', Ok tt) →
  applied_one x (kept w) (kept w').
Proof.
  intros Hb. apply bind_Ok in Hb as (w1 & [] & Hw & Hr). apply work_Ok in Hw as [Hu Hrows].
  unfold record in Hr. destruct (rows w1) as [r|] eqn:Er; [|done].
  case_bool_decide as Hin; [done|]. apply exec_kept in Hr; [|by intros w0 Hk; unfold kept in *; cbn; injection Hk as -> _].
  exists r. unfold kept in *. cbn in *. injection Hr as -> ->. split_and!; [congruence|done|done|done].
Qed.

Lemma revert_body_kept x w w' :
  (bind (work (down x)) (λ _, remove_row (version x))) w = (w', Ok tt) →
  reverted_one x (kept w) (kept w').
Proof.
  intros Hb. apply bind_Ok in Hb as (w1 & [] & Hw & Hr). apply work_Ok in Hw as [Hu Hrows].
  unfold remove_row in Hr. destruct (rows w1) as [r|] eqn:Er; [|done].
  apply exec_kept in Hr; [|by intros w0 Hk; unfold kept in *; cbn; injection Hk as -> _].
  exists r. unfold kept in *. cbn in *. injection Hr as -> ->. split_and!; [congruence|done|done].
Qed.

(** Applying or reverting a migration happens whole, ledger row included, or not
    at all. *)
Lemma run_migration_kept db x apply w w' r :
  supports_transactional_ddl db = true →
  run_migration fk_check db x apply w = (w', r) →
  (if apply then applied_one x (kept w) (kept w') else reverted_one x (kept w) (kept w'))
  ∨ (kept w' = kept w ∧ ∃ e, r = Err e).
Proof.
  intros Hdb Hr. apply in_ddl_scope_kept in Hr as [(w1 & w2 & H1 & Hb & H2)|?]; [left|by right|done].
  rewrite <- H1, H2. destruct apply; [by apply apply_body_kept|by apply revert_body_kept].
Qed.

Inductive applied_all : list (Migration D) →
    D * option (list (str * str)) → D * option (list (str * str)) → Prop :=
  | applied_nil s : applied_all [] s s
  | applied_cons x l s s1 s2 :
      applied_one x s s1 → applied_all l s1 s2 → applied_all (x :: l) s s2.

Lemma run_each_kept db done ms res w w' r :
  supports_transactional_ddl db = true →
  run_each fk_check db done ms res w = (w', r) →
  ∃ now later,
    filter (λ x, version x ∉ done) ms = now ++ later
    ∧ applied_all now (kept w) (kept w')
    ∧ match r with
      | Ok res' =>
          later = [] ∧ applied res' = applied res ++ (info_of <$> now)
          ∧ skipped res' = skipped res ++ (info_of <$> filter (λ x, version x ∈ done) ms)
          ∧ rolled_back res' = rolled_back res
      | Err _ => True
      end.
Proof.
  intros Hdb. revert res w. induction ms as [|x ms IH]; intros res w.
  { intros [= <- <-]. exists [], []. split_and!; try done; [constructor|by rewrite app_nil_r..]. }
  cbn [run_each]. rewrite !list.filter_cons. case_bool_decide as Hin.
  - rewrite (decide_True (P := version x ∈ done)) by done. rewrite decide_False by tauto.
    intros Hr. apply IH in Hr as (now & later & H1 & H2 & H3). exists now, later.
    split_and!; [done|done|]. destruct r as [res'|]; [|done]. cbn in H3.
    destruct H3 as (? & ? & Hs & ?). split_and!; try done. by rewrite Hs, <- app_assoc.
  - rewrite (decide_False (P := version x ∈ done)), (decide_True (P := version x ∉ done)) by done.
    unfold bind. destruct (run_migration _ db x true w) as [w1 o] eqn:Em.
    apply run_migration_kept in Em as [Ha|[Hk [e ->]]]; [|intros [= <- <-]|done].
    2: { exists [], (x :: filter (λ x, version x ∉ done) ms). rewrite Hk. split_and!; try done. constructor. }
    destruct o as [[]|e].
    + intros Hr. apply IH in Hr as (now & later & H1 & H2 & H3). exists (x :: now), later.
      rewrite H1. split_and!; [done|by econstructor|]. destruct r as [res'|]; [|done].
      destruct H3 as (? & Ha' & ? & ?). split_and!; try done. cbn in Ha'. by rewrite Ha', <- app_assoc.
    + intros [= <- <-]. exists [x], (filter (λ x, version x ∉ done) ms).
      split_and!; [done|econstructor; [done|constructor]|done].
Qed.

(** [ensure] creates the ledger table, empty, if it is missing, and no more. *)
Lemma ensure_kept db w w' r :
  ensure db w = (w', r) →
  schema w' = schema w ∧ ledger_of w' = ledger_of w
  ∧ (r = Ok tt → rows w' = Some (ledger_of w)) ∧ (is_Some (rows w) → rows w' = rows w).
Proof.
  assert (∀ w w' r, exec (λ w, set_data w (schema w) (Some (default [] (rows w)))) w = (w', r) →
    schema w' = schema w ∧ ledger_of w' = ledger_of w
    ∧ (r = Ok tt → rows w' = Some (ledger_of w)) ∧ (is_Some (rows w) → rows w' = rows w)) as Hc.
  { clear w w' r. intros w w' r He.
    apply exec_kept in He; [|by intros w0 Hk; unfold kept in *; cbn; injection Hk as -> ->].
    unfold kept, ledger_of in *. cbn in He.
    assert (is_Some (rows w) → Some (default [] (rows w)) = rows w) as Hs.
    { intros [l ->]. done. }
    destruct r as [[]|e]; [injection He as -> ->; by split_and!|].
    destruct He as [He|He]; injection He as -> ->; by split_and!. }
  assert (∀ (w w' : World D) r,
    bind query (λ _ w, match rows w with
                       | Some _ => (w, Ok tt)
                       | None => exec (λ w, set_data w (schema w) (Some (default [] (rows w)))) w
                       end) w = (w', r) →
    schema w' = schema w ∧ ledger_of w' = ledger_of w
    ∧ (r = Ok tt → rows w' = Some (ledger_of w)) ∧ (is_Some (rows w) → rows w' = rows w)) as Hp.
  { clear w w' r. intros w w' r. unfold bind.
    destruct (query w) as [w1 o] eqn:Eq. apply query_kept in Eq. unfold kept in Eq.
    injection Eq as Es Er. assert (ledger_of w = ledger_of w1) as Hl by (unfold ledger_of; congruence).
    rewrite <- Es, Hl, <- Er. destruct o as [[]|e]; [|by intros [= <- <-]].
    destruct (rows w1) as [l|] eqn:El; [|by rewrite <- El; apply Hc].
    intros [= <- <-]. unfold ledger_of. by rewrite El. }
  unfold ensure. destruct db; first [apply Hc|apply Hp].
Qed.

Lemma keys_kept w w' r :
  keys w = (w', r) →
  kept w' = kept w ∧ match r with Ok ks => rows w = Some (ledger_of w) ∧ ks = (ledger_of w).*1 | Err _ => True end.
Proof.
  unfold keys, bind. destruct (query w) as [w1 [[]|e]] eqn:Eq; apply query_kept in Eq.
  2: { intros [= <- <-]. done. }
  unfold kept in *. injection Eq as Es Er. rewrite Er. unfold ledger_of.
  destruct (rows w) as [l|]; intros [= <- <-]; by rewrite Es, Er.
Qed.

(** ** Version order *)

(** The migrations still to run, in version order. *)
Definition pending_of m (l : list (str * str)) : list (Migration D) :=
  filter (λ x, version x ∉ l.*1) (sorted m).

Lemma sorted_registered m x : x ∈ sorted m → version x ∈ registered_versions m.
Proof.
  unfold sorted, registered_versions. rewrite sort_by_key_perm. intros Hx.
  apply list_elem_of_fmap. by exists x.
Qed.

(** The rows a list of migrations is recorded as. *)
Definition rows_of (l : list (Migration D)) : list (str * str) := (λ x, (version x, name x)) <$> l.

(** The schema after a list of migrations, if none fails. *)
Fixpoint migrated (l : list (Migration D)) (d : D) : option D :=
  match l with
  | [] => Some d
  | x :: l => match up x d with (d', None) => migrated l d' | (_, Some _) => None end
  end.

Lemma applied_all_spec l s s' :
  applied_all l s s' → ∀ r, s.2 = Some r →
  migrated l s.1 = Some s'.1 ∧ s'.2 = Some (r ++ rows_of l)
  ∧ (NoDup r.*1 → NoDup (r ++ rows_of l).*1).
Proof.
  induction 1 as [s|x l s s1 s2 (r0 & Hr0 & Hn & Hu & Hs1) _ IH]; intros r Hr.
  { split_and!; [done|by rewrite app_nil_r|by rewrite app_nil_r]. }
  rewrite Hr0 in Hr. injection Hr as ->. destruct (IH _ Hs1) as (H1 & H2 & H3).
  cbn [migrated]. rewrite Hu. rewrite H2, <- app_assoc. cbn [app] in *. split_and!; [done|done|].
  intros Hnd. rewrite <- app_assoc in H3. apply H3. rewrite fmap_app. apply list.NoDup_app.
  split_and!; [done| |apply list.NoDup_singleton]. intros k Hk ->%list_elem_of_singleton. done.
Qed.

Lemma run_locked_spec db m w w' r :
  supports_transactional_ddl db = true →
  run_locked fk_check db m w = (w', r) →
  ∃ now later,
    pending_of m (ledger_of w) = now ++ later
    ∧ migrated now (schema w) = Some (schema w')
    ∧ ledger_of w' = ledger_of w ++ rows_of now
    ∧ (NoDup (ledger_of w).*1 → NoDup (ledger_of w').*1)
    ∧ match r with
      | Ok res =>
          later = [] ∧ applied res = info_of <$> now
          ∧ skipped res = info_of <$> filter (λ x, version x ∈ (ledger_of w).*1) (sorted m)
          ∧ rolled_back res = []
      | Err _ => True
      end.
Proof.
  intros Hdb. unfold run_locked, with_ledger.
  assert (∀ w' (e : MError), schema w' = schema w → ledger_of w' = ledger_of w →
    ∃ now later, pending_of m (ledger_of w) = now ++ later
      ∧ migrated now (schema w) = Some (schema w') ∧ ledger_of w' = ledger_of w ++ rows_of now
      ∧ (NoDup (ledger_of w).*1 → NoDup (ledger_of w').*1) ∧ True) as Hnone.
  { intros w0 _ Hs Hl. exists [], (pending_of m (ledger_of w)). rewrite Hs, Hl, app_nil_r. done. }
  destruct (checked_ledger _) as [l|e]; [|intros [= <- <-]; by apply Hnone].
  unfold bind. destruct (ensure db w) as [w1 [[]|e]] eqn:Ee; apply ensure_kept in Ee as (Hs1 & Hl1 & Hr1 & _);
    [|intros [= <- <-]; by apply Hnone].
  specialize (Hr1 eq_refl). unfold applied_versions, bind.
  destruct (keys w1) as [w2 [ks|e]] eqn:Ek; apply keys_kept in Ek as [Hk2 Hks].
  2: { intros [= <- <-]. unfold kept, ledger_of in *. injection Hk2 as E1 E2.
       apply Hnone; [done|congruence|]. unfold ledger_of. congruence. }
  destruct Hks as [_ ->]. unfold kept in Hk2. injection Hk2 as Hs2 Hr2. cbn [ret].
  intros Hrun. apply run_each_kept in Hrun as (now & later & Hp & Ha & Hres); [|done].
  destruct (applied_all_spec _ _ _ Ha (ledger_of w)) as (H1 & H2 & H3); [cbn; congruence|].
  cbn [fst snd kept] in H1, H2. rewrite Hs2, Hs1 in H1.
  assert (∀ x, x ∈ sorted m → version x ∈ filter (λ v, v ∈ registered_versions m) (ledger_of w1).*1
    ↔ version x ∈ (ledger_of w).*1) as Hfil.
  { intros x Hx%sorted_registered. rewrite list_elem_of_filter, Hl1. tauto. }
  exists now, later. split_and!.
  - rewrite <- Hp. apply filter_ext_elem. intros x Hx. by rewrite Hfil.
  - done.
  - unfold ledger_of at 1. by rewrite H2.
  - unfold ledger_of at 2. by rewrite H2.
  - destruct r as [res|]; [|done]. destruct Hres as (-> & Hr3 & Hr4 & Hr5). split_and!; try done.
    rewrite Hr4. cbn. f_equal. apply filter_ext_elem. intros x Hx. by rewrite Hfil.
Qed.

(** The lock adds failures, and nothing to the data. *)
Lemma lock_kept {A} (body : M A) w w' r :
  with_migration_lock body w = (w', r) →
  (kept w' = kept w ∧ ∃ e, r = Err e)
  ∨ ∃ w1 w2 o, kept w1 = kept w ∧ body w1 = (w2, o) ∧ kept w' = kept w2
      ∧ ∀ a, r = Ok a → o = Ok a.
Proof.
  unfold with_migration_lock, bind. destruct (query w) as [w1 [[]|e]] eqn:Eq; apply query_kept in Eq.
  2: { intros [= <- <-]. left. eauto. }
  destruct (body w1) as [w2 o] eqn:Eb. destruct (query w2) as [w3 o'] eqn:Eq'.
  apply query_kept in Eq'. intros [= <- <-]. right. exists w1, w2, o. split_and!; [done|done|done|].
  intros a. destruct o as [a'|e]; [|done]. destruct o'; [|done]. by intros [= ->].
Qed.

Lemma kept_parts w w1 : kept w1 = kept w → schema w1 = schema w ∧ ledger_of w1 = ledger_of w.
Proof. unfold kept, ledger_of. intros Hk. injection Hk as E1 E2. by rewrite E1, E2. Qed.

Lemma run_spec db m w w' r :
  supports_transactional_ddl db = true →
  run fk_check db m w = (w', r) →
  ∃ now later,
    pending_of m (ledger_of w) = now ++ later
    ∧ migrated now (schema w) = Some (schema w')
    ∧ ledger_of w' = ledger_of w ++ rows_of now
    ∧ (NoDup (ledger_of w).*1 → NoDup (ledger_of w').*1)
    ∧ match r with
      | Ok res =>
          later = [] ∧ applied res = info_of <$> now
          ∧ skipped res = info_of <$> filter (λ x, version x ∈ (ledger_of w).*1) (sorted m)
          ∧ rolled_back res = []
      | Err _ => True
      end.
Proof.
  intros Hdb Hr. apply lock_kept in Hr as [[Hk [e ->]]|(w1 & w2 & o & Hk & Hb & Hk' & Ho)].
  - apply kept_parts in Hk as [Hs Hl]. exists [], (pending_of m (ledger_of w)).
    rewrite Hs, Hl, app_nil_r. done.
  - apply run_locked_spec in Hb as (now & later & H1 & H2 & H3 & H4 & H5); [|done].
    apply kept_parts in Hk as [Hs Hl], Hk' as [Hs' Hl']. rewrite Hs, Hl in *. rewrite Hs', Hl'.
    exists now, later. split_and!; try done. destruct r as [res|]; [|done].
    by rewrite (Ho res eq_refl) in H5.
Qed.

(** C4: a run applies every migration whole, in version order, or not at all.
    On a backend with transactional DDL, whatever statements fail and however, the
    database a run leaves is the one before it after a prefix of the pending
    migrations, taken in version order, each with its ledger row and no row
    besides; a run that reports success applied them all, reports them, and
    reports the others as skipped. *)
Theorem run_applies_migrations_whole db m w w' r :
  supports_transactional_ddl db = true →
  run fk_check db m w = (w', r) →
  sorted m ≡ₚ migrations m ∧ StronglySorted (by_key version) (sorted m)
  ∧ ∃ now later,
      filter (λ x, version x ∉ (ledger_of w).*1) (sorted m) = now ++ later
      ∧ migrated now (schema w) = Some (schema w')
      ∧ ledger_of w' = ledger_of w ++ rows_of now
      ∧ match r with
        | Ok res =>
            later = [] ∧ applied res = info_of <$> now
            ∧ skipped res = info_of <$> filter (λ x, version x ∈ (ledger_of w).*1) (sorted m)
        | Err _ => True
        end.
Proof.
  intros Hdb Hr. split; [apply sort_by_key_perm|]. split; [apply sort_by_key_sorted|].
  apply run_spec in Hr as (now & later & H1 & H2 & H3 & _ & H5); [|done].
  exists now, later. split_and!; try done. destruct r; naive_solver.
Qed.

Lemma pending_after_all m l :
  pending_of m (l ++ rows_of (pending_of m l)) = [].
Proof.
  unfold pending_of at 1. destruct (filter _ (sorted m)) as [|x ys] eqn:E; [done|exfalso].
  assert (x ∈ filter (λ x, version x ∉ (l ++ rows_of (pending_of m l)).*1) (sorted m)) as Hx
    by (rewrite E; by left).
  apply list_elem_of_filter in Hx as [Hn Hx]. apply Hn. rewrite fmap_app, elem_of_app.
  destruct (decide (version x ∈ l.*1)) as [?|Hl]; [by left|right].
  unfold rows_of. rewrite <- list_fmap_compose. apply list_elem_of_fmap. exists x. split; [done|].
  by apply list_elem_of_filter.
Qed.

Lemma filter_every {A} (P : A → Prop) `{!∀ y, Decision (P y)} (l : list A) :
  (∀ y, y ∈ l → P y) → filter P l = l.
Proof.
  induction l as [|y l IH]; intros Hl; [done|]. rewrite list.filter_cons_True by (apply Hl; by left).
  rewrite IH; [done|]. intros z Hz. apply Hl. by right.
Qed.

(** Running again applies nothing. After a successful run on a backend with
    transactional DDL, another run of the same migrator leaves schema and ledger
    as they are, whatever its statements do, and if it succeeds reports every
    migration as skipped. *)
Theorem second_run_applies_nothing db m w w' res w'' r :
  supports_transactional_ddl db = true →
  run fk_check db m w = (w', Ok res) →
  run fk_check db m w' = (w'', r) →
  schema w'' = schema w' ∧ ledger_of w'' = ledger_of w'
  ∧ ∀ res', r = Ok res' → applied res' = [] ∧ skipped res' = info_of <$> sorted m.
Proof.
  intros Hdb Hr1 Hr2.
  apply run_spec in Hr1 as (now & later & P1 & _ & L1 & _ & -> & _); [|done].
  rewrite app_nil_r in P1. apply run_spec in Hr2 as (now' & later' & P2 & S2 & L2 & _ & R2); [|done].
  assert (pending_of m (ledger_of w') = []) as Hnil by (rewrite L1, <- P1; apply pending_after_all).
  rewrite Hnil in P2. symmetry in P2. apply app_nil in P2 as [-> ->].
  injection S2 as S2. rewrite app_nil_r in L2. split_and!; [done|done|].
  intros res' ->. destruct R2 as (_ & Ha & Hs & _). split; [done|]. rewrite Hs. f_equal.
  apply filter_every. intros x Hx.
  destruct (decide (version x ∈ (ledger_of w').*1)) as [?|Hn]; [done|exfalso].
  assert (x ∈ pending_of m (ledger_of w')) as Hin by by apply list_elem_of_filter.
  rewrite Hnil in Hin. by apply elem_of_nil in Hin.
Qed.

(** ** Reverting *)

Lemma rollback_locked_spec db m w w' r :
  supports_transactional_ddl db = true →
  rollback_locked fk_check db m w = (w', r) →
  (schema w' = schema w ∧ ledger_of w' = ledger_of w
   ∧ match r with Ok res => rolled_back res = [] ∧ ledger_of w = [] | Err _ => True end)
  ∨ ∃ rs v n x,
      ledger_of w = rs ++ [(v, n)]
      ∧ snd <$> list_find (λ x, version x = v) (migrations m) = Some x
      ∧ down x (schema w) = (schema w', None)
      ∧ ledger_of w' = filter (λ kv, kv.1 ≠ v) (ledger_of w)
      ∧ match r with Ok res => rolled_back res = [info_of x] | Err _ => True end.
Proof.
  intros Hdb. unfold rollback_locked, with_ledger.
  destruct (checked_ledger _) as [l|e]; [|by intros [= <- <-]; left].
  unfold bind at 1. destruct (ensure db w) as [w1 [[]|e]] eqn:Ee;
    apply ensure_kept in Ee as (Hs1 & Hl1 & Hr1 & _); [|by intros [= <- <-]; left].
  specialize (Hr1 eq_refl). unfold bind at 1.
  destruct (keys w1) as [w2 [ks|e]] eqn:Ek; apply keys_kept in Ek as [Hk2 Hks];
    apply kept_parts in Hk2 as Hp2; destruct Hp2 as [Hs2 Hl2];
    [|intros [= <- <-]; left; rewrite Hs2, Hl2; done].
  destruct Hks as [_ ->]. rewrite Hl1. rewrite fmap_last.
  destruct (list.last (ledger_of w)) as [[v n]|] eqn:El; cbn [fmap option_fmap option_map fst].
  2: { apply last_None in El. intros [= <- <-]. left. rewrite Hs2, Hl2, Hl1. done. }
  apply last_Some in El as [rs El].
  destruct (list_find _ (migrations m)) as [[i x]|] eqn:Ef.
  2: { intros [= <- <-]. left. rewrite Hs2, Hl2, Hl1. done. }
  pose proof (proj1 (list_find_Some _ _ _ _) Ef) as (_ & Hv & _). cbn in Hv.
  unfold bind. destruct (run_migration fk_check db x false w2) as [w3 o] eqn:Em.
  apply run_migration_kept in Em as [(r0 & Hr0 & Hd & Hr3)|[Hk3 [e ->]]]; [| |done].
  - intros Hx. right. exists rs, v, n, x. cbn [kept fst snd] in *.
    assert (r0 = ledger_of w) as -> by (unfold ledger_of in *; rewrite Hr0 in Hl2; cbn in Hl2; congruence).
    rewrite Hs2, Hs1 in Hd. rewrite Hv in Hr3.
    assert (w' = w3) as -> by (destruct o; by injection Hx).
    split_and!; [done|by rewrite Ef|done|unfold ledger_of at 1; by rewrite Hr3|].
    destruct o; injection Hx as <-; done.
  - intros [= <- <-]. left. apply kept_parts in Hk3 as [Hs3 Hl3]. rewrite Hs3, Hl3, Hs2, Hl2, Hl1. done.
Qed.

Lemma drop_last_row (rs : list (str * str)) v n :
  NoDup (rs ++ [(v, n)]).*1 → filter (λ kv, kv.1 ≠ v) (rs ++ [(v, n)]) = rs.
Proof.
  rewrite fmap_app. intros (_ & Hd & _)%list.NoDup_app. rewrite list.filter_app.
  rewrite list.filter_cons_False, list.filter_nil, app_nil_r by (cbn; tauto).
  apply filter_every. intros [k d] Hk Heq. cbn in Heq. subst k. apply (Hd v); [|by left].
  apply list_elem_of_fmap. by exists (v, d).
Qed.

(** a rollback reverts the migration recorded last and nothing else. On a
    backend with transactional DDL, whatever statements fail, it leaves the
    database as it was, or with the [down] of the migration of the ledger's last
    row applied and that row removed; a rollback that reports success did so
    unless the ledger is empty, and a last row no registered migration has makes
    it fail without touching anything. *)
Theorem rollback_reverts_the_last_row db m w w' r :
  supports_transactional_ddl db = true → NoDup (ledger_of w).*1 →
  rollback fk_check db m w = (w', r) →
  (schema w' = schema w ∧ ledger_of w' = ledger_of w
   ∧ match r with Ok res => rolled_back res = [] ∧ ledger_of w = [] | Err _ => True end)
  ∨ ∃ rs n x,
      ledger_of w = rs ++ [(version x, n)] ∧ x ∈ migrations m
      ∧ down x (schema w) = (schema w', None) ∧ ledger_of w' = rs
      ∧ match r with Ok res => rolled_back res = [info_of x] | Err _ => True end.
Proof.
  intros Hdb Hnd Hr. apply lock_kept in Hr as [[Hk [e ->]]|(w1 & w2 & o & Hk & Hb & Hk' & Ho)].
  { left. by apply kept_parts in Hk as [-> ->]. }
  apply kept_parts in Hk as [Hs Hl], Hk' as [Hs' Hl'].
  apply rollback_locked_spec in Hb as [(H1 & H2 & H3)|(rs & v & n & x & H1 & H2 & H3 & H4 & H5)]; [| |done].
  - left. rewrite Hs', Hl', H1, H2, Hs, Hl. split_and!; [done|done|].
    destruct r as [res|]; [|done]. rewrite (Ho res eq_refl), Hl in H3. done.
  - right. rewrite Hl in *. rewrite Hs in H3. rewrite Hs', Hl'.
    destruct (list_find _ _) as [[i x']|] eqn:Ef; [|done]. injection H2 as ->.
    apply list_find_Some in Ef as (Hx & <- & _). exists rs, n, x.
    split_and!; [done|by eapply list_elem_of_lookup_2|done| |].
    + rewrite H4, H1. by apply drop_last_row; rewrite <- H1.
    + destruct r as [res|]; [|done]. by rewrite (Ho res eq_refl) in H5.
Qed.

Lemma fmap_rev {A B} (f : A → B) (l : list A) : f <$> rev l = rev (f <$> l).
Proof. induction l as [|y l IH]; [done|]. cbn [rev]. by rewrite fmap_app, IH. Qed.

Lemma migrated_snoc l x d d' :
  migrated (l ++ [x]) d = Some d' → ∃ d1, migrated l d = Some d1 ∧ up x d1 = (d', None).
Proof.
  revert d. induction l as [|y l IH]; intros d; cbn.
  - destruct (up x d) as [d1 [e|]] eqn:E; [done|]. intros [= <-]. eauto.
  - destruct (up y d) as [d1 [e|]]; [done|]. apply IH.
Qed.

Lemma find_by_version m x x' :
  NoDup (version <$> migrations m) → x ∈ migrations m →
  snd <$> list_find (λ y, version y = version x) (migrations m) = Some x' → x' = x.
Proof.
  intros Hnd [i Hi]%list_elem_of_lookup. destruct (list_find _ _) as [[j y]|] eqn:E; [|done].
  intros [= <-]. apply list_find_Some in E as (Hj & Hv & _).
  assert (i = j) as <-; [|congruence].
  eapply (NoDup_lookup (version <$> migrations m)); [done|..]; rewrite list_lookup_fmap.
  - by rewrite Hi.
  - by rewrite Hj, <- Hv.
Qed.

(** Steps back over migrations whose [down] inverts their [up]. *)
Lemma rollback_steps_undo db m d0 ys steps res w w' res' :
  supports_transactional_ddl db = true →
  NoDup (version <$> migrations m) → NoDup (rows_of ys).*1 →
  (∀ x, x ∈ ys → x ∈ migrations m) →
  (∀ x d d', x ∈ migrations m → up x d = (d', None) → down x d' = (d, None)) →
  ledger_of w = rows_of ys → migrated ys d0 = Some (schema w) → length ys ≤ steps →
  rollback_steps_locked fk_check db m steps res w = (w', Ok res') →
  ledger_of w' = [] ∧ schema w' = d0
  ∧ rolled_back res' = rolled_back res ++ (info_of <$> rev ys).
Proof.
  intros Hdb Hreg Hnd Hsub Hinv. revert steps res w Hnd Hsub.
  induction ys as [|x ys IH] using rev_ind; intros steps res w Hnd Hsub Hl Hm Hlen.
  - injection Hm as Hd. destruct steps as [|steps]; cbn [rollback_steps_locked].
    { intros [= <- <-]. split_and!; [done|done|by rewrite app_nil_r]. }
    intros (w1 & step & Hr & Hk)%bind_Ok.
    apply rollback_locked_spec in Hr as [(H1 & H2 & H3 & _)|(rs & v & n & x & H1 & _)]; [| |done].
    + rewrite H3 in Hk. injection Hk as <- <-. rewrite H1, H2, Hl, app_nil_r. done.
    + rewrite Hl in H1. by destruct rs.
  - rewrite length_app in Hlen. cbn in Hlen. destruct steps as [|steps]; [lia|].
    cbn [rollback_steps_locked]. intros (w1 & step & Hr & Hk)%bind_Ok.
    apply migrated_snoc in Hm as (d1 & Hm & Hu).
    unfold rows_of in Hl, Hnd. rewrite fmap_app in Hl, Hnd. fold (rows_of ys) in Hl, Hnd. cbn in Hl, Hnd.
    apply rollback_locked_spec in Hr as [(_ & _ & _ & H3)|(rs & v & n & y & H1 & H2 & H3 & H4 & H5)]; [| |done].
    { rewrite Hl in H3. by destruct (rows_of ys). }
    rewrite Hl in H1. apply app_inj_tail in H1 as [<- [= <- <-]].
    assert (x ∈ migrations m) as Hx by (apply Hsub; apply elem_of_app; right; by left).
    apply find_by_version in H2 as ->; [|done|done].
    rewrite (Hinv x d1 (schema w) Hx Hu) in H3. injection H3 as H3.
    rewrite Hl, drop_last_row in H4 by done. rewrite H5 in Hk. cbn in Hk.
    rewrite rev_app_distr. apply IH in Hk as (Hl' & Hs' & Hb).
    + split_and!; [done|done|]. cbn [rolled_back] in Hb. rewrite Hb, <- app_assoc. done.
    + rewrite fmap_app in Hnd. by apply list.NoDup_app in Hnd as [? _].
    + intros z Hz. apply Hsub, elem_of_app. by left.
    + done.
    + by rewrite Hm, H3.
    + lia.
Qed.

(** [reset] undoes [run]. When every migration's [down] inverts its [up], on
    a backend with transactional DDL and an empty ledger, a successful run
    followed by a successful reset gives back the schema there was, with an empty
    ledger, reverting what was applied in the opposite order. *)
Theorem reset_undoes_run db m w w1 res w2 res' :
  supports_transactional_ddl db = true → ledger_of w = [] →
  (∀ x d d', x ∈ migrations m → up x d = (d', None) → down x d' = (d, None)) →
  run fk_check db m w = (w1, Ok res) →
  reset fk_check db m w1 = (w2, Ok res') →
  schema w2 = schema w ∧ ledger_of w2 = [] ∧ rolled_back res' = rev (applied res).
Proof.
  intros Hdb Hl Hinv Hrun Hreset.
  apply run_spec in Hrun as (now & later & P1 & S1 & L1 & N1 & -> & A1 & _); [|done].
  rewrite Hl in *. rewrite app_nil_r in P1. cbn [app] in L1.
  assert (now = sorted m) as ->.
  { rewrite <- P1. apply filter_every. intros x _ Hx. by apply elem_of_nil in Hx. }
  specialize (N1 (NoDup_nil_2)). rewrite L1 in N1.
  assert (NoDup (version <$> migrations m)) as Hreg.
  { rewrite <- (sort_by_key_perm version (migrations m)). unfold rows_of in N1.
    by rewrite <- list_fmap_compose in N1. }
  apply lock_kept in Hreset as [[_ [e [=]]]|(w3 & w4 & o & Hk & Hb & Hk' & Ho)].
  rewrite (Ho res' eq_refl) in Hb. apply kept_parts in Hk as [Hs3 Hl3], Hk' as [Hs4 Hl4].
  unfold reset_locked, with_ledger in Hb. destruct (checked_ledger _); [|done].
  apply bind_Ok in Hb as (w5 & [] & He & Hb). apply ensure_kept in He as (Hs5 & Hl5 & _).
  apply bind_Ok in Hb as (w6 & ks & Hks & Hb). apply keys_kept in Hks as [Hk6 [_ ->]].
  apply kept_parts in Hk6 as [Hs6 Hl6]. destruct (filter _ _); [|done].
  apply (rollback_steps_undo db m (schema w) (sorted m)) in Hb as (H1 & H2 & H3); try done.
  - rewrite Hs4, Hl4, H1, H2. split_and!; [done|done|]. rewrite H3, A1. cbn.
    by rewrite fmap_rev.
  - intros x Hx. unfold sorted in Hx. by rewrite sort_by_key_perm in Hx.
  - rewrite Hl6, Hl5, Hl3, L1. done.
  - rewrite Hs6, Hs5, Hs3. done.
  - rewrite Hl5, Hl3, L1. unfold rows_of. by rewrite !length_fmap.
Qed.

(** ** The command line's entry points *)

(** The statements as one change. *)
Fixpoint all_statements (statements : list (D → D * option MError)) (d : D) : option D :=
  match statements with
  | [] => Some d
  | s :: statements => match s d with (d, None) => all_statements statements d | _ => None end
  end.

Lemma exec_statements_Ok statements w w' :
  exec_statements statements w = (w', Ok tt) →
  all_statements statements (schema w) = Some (schema w') ∧ rows w' = rows w.
Proof.
  revert w. induction statements as [|s l IH]; intros w; cbn.
  { by intros [= <-]. }
  intros (w1 & [] & Hw & Hk)%bind_Ok. apply work_Ok in Hw as [-> Hrows].
  apply IH in Hk as [? ->]. done.
Qed.

Lemma sql_migration_locked db v n statements (apply : bool) w w' o :
  supports_transactional_ddl db = true →
  (bind (ensure db) (λ _, bind keys (λ ks,
     if bool_decide (bool_decide (v ∈ ks) = apply) then ret false
     else bind (in_ddl_scope fk_check db false
            (bind (exec_statements statements)
               (λ _, if apply then record v n else remove_row v))) (λ _, ret true)))) w = (w', o) →
  (schema w' = schema w ∧ ledger_of w' = ledger_of w
   ∧ match o with
     | Ok ran => ran = false ∧ bool_decide (v ∈ (ledger_of w).*1) = apply
     | Err _ => True
     end)
  ∨ (bool_decide (v ∈ (ledger_of w).*1) = negb apply
     ∧ all_statements statements (schema w) = Some (schema w')
     ∧ ledger_of w' = (if apply then ledger_of w ++ [(v, n)]
                       else filter (λ kv, kv.1 ≠ v) (ledger_of w))
     ∧ match o with Ok ran => ran = true | Err _ => True end).
Proof.
  intros Hdb. unfold bind at 1. destruct (ensure db w) as [w1 [[]|e]] eqn:Ee;
    apply ensure_kept in Ee as (Hs1 & Hl1 & Hr1 & _); [|by intros [= <- <-]; left].
  specialize (Hr1 eq_refl). unfold bind at 1.
  destruct (keys w1) as [w2 [ks|e]] eqn:Ek; apply keys_kept in Ek as [Hk2 Hks];
    apply kept_parts in Hk2 as Hp2; destruct Hp2 as [Hs2 Hl2]; rewrite <- Hs1, <- Hl1, <- Hs2, <- Hl2;
    [|by intros [= <- <-]; left].
  destruct Hks as [_ ->]. rewrite <- Hl2. case_bool_decide as Hdone.
  { intros [= <- <-]. by left. }
  unfold bind at 1. destruct (in_ddl_scope _ db false _ w2) as [w3 o3] eqn:Es.
  apply in_ddl_scope_kept in Es as [(w4 & w5 & H4 & Hb & H5)|[Hk3 [e ->]]]; [| |done].
  2: { intros [= <- <-]. left. by apply kept_parts in Hk3 as [-> ->]. }
  intros Ho. right. assert (w' = w3 ∧ match o with Ok ran => ran = true | _ => True end) as [-> Hran]
    by (destruct o3; injection Ho as <- <-; done).
  split; [by destruct apply, (bool_decide (v ∈ _))|].
  apply kept_parts in H5 as [-> ->]. apply kept_parts in H4 as [<- <-].
  apply bind_Ok in Hb as (w6 & [] & Hst & Hb). apply exec_statements_Ok in Hst as [Hst Hrows].
  assert (ledger_of w6 = ledger_of w4) as Hl6 by (unfold ledger_of; by rewrite Hrows).
  rewrite Hst, <- Hl6.
  destruct apply; [apply record_Ok in Hb as [-> ->]|apply remove_row_Ok in Hb as [-> ->]]; done.
Qed.

(** an SQL migration runs once, whole. On a backend with transactional DDL,
    whatever statements fail, [__run_sql_migration] leaves schema and ledger as
    they were, or runs every statement and writes (or, reverting, removes) the
    ledger row with them; it runs only what the ledger says was not run, and
    answers [false] exactly when there was nothing to do. *)
Theorem sql_migration_runs_once_whole db t v n statements apply w w' r :
  supports_transactional_ddl db = true →
  run_sql_migration fk_check db t v n statements apply w = (w', r) →
  (schema w' = schema w ∧ ledger_of w' = ledger_of w
   ∧ match r with
     | Ok ran => ran = false ∧ bool_decide (v ∈ (ledger_of w).*1) = apply
     | Err _ => True
     end)
  ∨ (bool_decide (v ∈ (ledger_of w).*1) = negb apply
     ∧ all_statements statements (schema w) = Some (schema w')
     ∧ ledger_of w' = (if apply then ledger_of w ++ [(v, n)]
                       else filter (λ kv, kv.1 ≠ v) (ledger_of w))
     ∧ match r with Ok ran => ran = true | Err _ => True end).
Proof.
  intros Hdb. unfold run_sql_migration.
  destruct (checked_ledger t) as [l|e]; [|by intros [= <- <-]; left].
  intros Hr. apply lock_kept in Hr as [[Hk [e ->]]|(w1 & w2 & o & Hk & Hb & Hk' & Ho)].
  { left. by apply kept_parts in Hk as [-> ->]. }
  apply kept_parts in Hk as [Hs Hl], Hk' as [Hs' Hl']. rewrite Hs', Hl', <- Hs, <- Hl.
  assert (∀ P : bool → Prop, match o with Ok a => P a | Err _ => True end →
    match r with Ok a => P a | Err _ => True end) as Hout.
  { intros P. destruct r as [a|]; [|done]. by rewrite (Ho a eq_refl). }
  clear Ho Hs Hl Hs' Hl'. apply sql_migration_locked in Hb as [(?&?&?)|(?&?&?&?)]; [left|right|done].
  all: split_and!; try done; by apply Hout.
Qed.

(** a table rebuild with foreign keys off leaves no key pointing nowhere. On
    SQLite, applying or reverting a migration that asks for it either changes
    nothing, or started from and ends in a database without violations, whatever
    statements fail; a migration that leaves one is reported as failed. *)
Theorem rebuild_leaves_no_dangling_key x apply w w' r :
  foreign_keys_off x = true →
  run_migration fk_check SQLite x apply w = (w', r) →
  (schema w' = schema w ∧ ledger_of w' = ledger_of w ∧ ∃ e, r = Err e)
  ∨ (fk_check (schema w) = [] ∧ fk_check (schema w') = []
     ∧ (if apply then up x else down x) (schema w) = (schema w', None)).
Proof.
  intros Hfk Hr. unfold run_migration, in_ddl_scope in Hr. rewrite Hfk in Hr. cbn in Hr.
  apply foreign_keys_off_kept in Hr as [[Hk He]|(w3 & w4 & H3 & Hb & H4 & Hc & Hc')].
  { left. by apply kept_parts in Hk as [-> ->]. }
  right. apply kept_parts in H3 as [Hs3 _], H4 as [Hs4 _]. rewrite Hs4, <- Hs3.
  rewrite Hs4 in Hc'. rewrite <- Hs3 in Hc. split_and!; [done|done|].
  destruct apply; apply bind_Ok in Hb as (w5 & [] & Hw & Hb); apply work_Ok in Hw as [-> _].
  - by apply record_Ok in Hb as [-> _].
  - by apply remove_row_Ok in Hb as [-> _].
Qed.

(** [reset] refuses before it reverts anything. On any backend, when a
    recorded version belongs to no registered migration, [reset] fails and leaves
    schema and ledger as they were, whatever its statements do. *)
Theorem reset_refuses_unknown_versions db m w w' r v :
  v ∈ (ledger_of w).*1 → v ∉ registered_versions m →
  reset fk_check db m w = (w', r) →
  schema w' = schema w ∧ ledger_of w' = ledger_of w ∧ ∃ e, r = Err e.
Proof.
  intros Hv Hreg Hr. apply lock_kept in Hr as [[Hk He]|(w1 & w2 & o & Hk & Hb & Hk' & Ho)].
  { by apply kept_parts in Hk as [-> ->]. }
  apply kept_parts in Hk as [Hs Hl], Hk' as [Hs' Hl'].
  assert (schema w2 = schema w1 ∧ ledger_of w2 = ledger_of w1 ∧ ∃ e, o = Err e) as (H1 & H2 & e & ->).
  { unfold reset_locked, with_ledger in Hb.
    destruct (checked_ledger _) as [l|e]; [|injection Hb as <- <-; eauto].
    unfold bind at 1 in Hb. destruct (ensure db w1) as [w3 [[]|e]] eqn:Ee;
      apply ensure_kept in Ee as (Hs3 & Hl3 & _); [|injection Hb as <- <-; eauto].
    unfold bind at 1 in Hb. destruct (keys w3) as [w4 [ks|e]] eqn:Ek;
      apply keys_kept in Ek as [Hk4 Hks]; apply kept_parts in Hk4 as [Hs4 Hl4];
      [|injection Hb as <- <-; split_and!; [congruence|congruence|eauto]].
    destruct (filter _ ks) as [|u us] eqn:Ef; [exfalso|injection Hb as <- <-; split_and!; [congruence|congruence|eauto]].
    assert (v ∈ filter (λ v, v ∉ registered_versions m) ks) as Hin.
    { apply list_elem_of_filter. split; [done|]. destruct Hks as [_ ->]. by rewrite Hl3, Hl. }
    rewrite Ef in Hin. by apply elem_of_nil in Hin. }
  split_and!; [congruence|congruence|]. destruct r as [a|e']; [by specialize (Ho a eq_refl)|eauto].
Qed.
End facts.

(** ** Concrete runs *)

Definition demo_migration (v : str) (k : nat) (fk_off : bool) : Migration (list nat) :=
  {| version := v; name := lit "m"; foreign_keys_off := fk_off;
     up := λ d, (k :: d, None);
     down := λ d, match d with
                  | j :: d' => if j =? k then (d', None) else (d, Some (EDatabase 9))
                  | [] => (d, Some (EDatabase 9))
                  end |}.

Definition demo_migrator : Migrator (list nat) :=
  add (add Migrator_new (demo_migration (lit "2") 2 true)) (demo_migration (lit "1") 1 false).

Definition demo_world (answers : list Answer) : World (list nat) :=
  {| schema := []; rows := None; answers := answers |}.

(** A database of a number each table, which misses a key when it holds 7. *)
Definition demo_check (d : list nat) : list Violation :=
  if decide (7%nat ∈ d)
  then [{| violating_table := lit "t"; violating_rowid := lit "1"; violated_parent := lit "p" |}]
  else [].

Definition demo_run (answers : list Answer) :=
  run demo_check SQLite demo_migrator (demo_world answers).

(** The second migration's commit fails: the first stays, with its row. *)
Definition second_commit_fails : list Answer :=
  repeat Good 9 ++ [Failed (EDatabase 5) false].

Lemma demo_partial :
  schema (demo_run second_commit_fails).1 = [1]%nat
  ∧ ledger_of (demo_run second_commit_fails).1 = [(lit "1", lit "m")].
Proof. vm_compute. done. Qed.

Lemma run_applies_migrations_whole_witness :
  ∃ now later,
    filter (λ x, version x ∉ (ledger_of (demo_world second_commit_fails)).*1) (sorted demo_migrator)
      = now ++ later
    ∧ migrated now [] = Some (schema (demo_run second_commit_fails).1)
    ∧ ledger_of (demo_run second_commit_fails).1 = [] ++ rows_of now.
Proof.
  pose proof (run_applies_migrations_whole demo_check SQLite demo_migrator
    (demo_world second_commit_fails) (demo_run second_commit_fails).1
    (demo_run second_commit_fails).2 eq_refl (surjective_pairing _))
    as (_ & _ & now & later & H1 & H2 & H3 & _).
  by exists now, later.
Defined.

Definition demo_result : MigrationResult :=
  {| applied := [{| info_version := lit "1"; info_name := lit "m" |};
                 {| info_version := lit "2"; info_name := lit "m" |}];
     skipped := []; rolled_back := [] |}.

Definition demo_after : World (list nat) :=
  {| schema := [2; 1]%nat; rows := Some [(lit "1", lit "m"); (lit "2", lit "m")]; answers := [] |}.

Lemma second_run_applies_nothing_witness :
  schema (run demo_check SQLite demo_migrator demo_after).1 = [2; 1]%nat.
Proof.
  apply (second_run_applies_nothing demo_check SQLite demo_migrator (demo_world []) demo_after
    demo_result _ (run demo_check SQLite demo_migrator demo_after).2); vm_compute; done.
Defined.

Lemma rollback_reverts_the_last_row_witness :
  ledger_of (rollback demo_check SQLite demo_migrator demo_after).1 = [(lit "1", lit "m")].
Proof.
  destruct (rollback_reverts_the_last_row demo_check SQLite demo_migrator demo_after
    (rollback demo_check SQLite demo_migrator demo_after).1
    (rollback demo_check SQLite demo_migrator demo_after).2) as [H|H].
  - done.
  - vm_compute. repeat constructor; set_solver.
  - apply surjective_pairing.
  - vm_compute in H. by destruct H as [? _].
  - destruct H as (rs & n & x & H1 & _ & _ & H2 & _). rewrite H2.
    by apply (app_inj_tail [(lit "1", lit "m")] rs (lit "2", lit "m")) in H1 as [<- _].
Defined.

Lemma reset_undoes_run_witness :
  schema (reset demo_check SQLite demo_migrator demo_after).1 = [].
Proof.
  apply (reset_undoes_run demo_check SQLite demo_migrator (demo_world []) demo_after demo_result
    _ {| applied := []; skipped := []; rolled_back := rev (applied demo_result) |}).
  - done.
  - done.
  - intros x d d' Hx.
    assert (x = demo_migration (lit "2") 2 true ∨ x = demo_migration (lit "1") 1 false) as [-> | ->].
    { apply elem_of_cons in Hx as [->|Hx]; [by left|]. apply list_elem_of_singleton in Hx as ->. by right. }
    all: by intros [= <-].
  - by vm_compute.
  - by vm_compute.
Defined.

Lemma sql_migration_runs_once_whole_witness :
  (run_sql_migration demo_check Postgres (lit "_migrations") (lit "1") (lit "m")
    [λ d, (5%nat :: d, None)] true demo_after).1 = demo_after
  ∧ schema (run_sql_migration demo_check Postgres (lit "_migrations") (lit "3") (lit "m")
     [λ d, (5%nat :: d, None)] true demo_after).1 = [5; 2; 1]%nat.
Proof.
  split; [by vm_compute|].
  destruct (sql_migration_runs_once_whole demo_check Postgres (lit "_migrations") (lit "3") (lit "m")
    [λ d, (5%nat :: d, None)] true demo_after
    (run_sql_migration demo_check Postgres (lit "_migrations") (lit "3") (lit "m")
      [λ d, (5%nat :: d, None)] true demo_after).1
    (run_sql_migration demo_check Postgres (lit "_migrations") (lit "3") (lit "m")
      [λ d, (5%nat :: d, None)] true demo_after).2) as [H|H].
  - done.
  - apply surjective_pairing.
  - vm_compute in H. by destruct H as [? _].
  - destruct H as (_ & H & _). apply (f_equal (default [])) in H. by symmetry.
Defined.

Lemma rebuild_leaves_no_dangling_key_witness :
  (run_migration demo_check SQLite (demo_migration (lit "7") 7 true) true demo_after).1 = demo_after
  ∧ demo_check (schema (run_migration demo_check SQLite (demo_migration (lit "3") 3 true) true
      demo_after).1) = [].
Proof.
  split; [by vm_compute|].
  destruct (rebuild_leaves_no_dangling_key demo_check (demo_migration (lit "3") 3 true) true demo_after
    (run_migration demo_check SQLite (demo_migration (lit "3") 3 true) true demo_after).1
    (run_migration demo_check SQLite (demo_migration (lit "3") 3 true) true demo_after).2) as [H|H].
  - done.
  - apply surjective_pairing.
  - vm_compute in H. by destruct H as [? _].
  - apply H.
Defined.

Lemma reset_refuses_unknown_versions_witness :
  schema (reset demo_check MySQL (add Migrator_new (demo_migration (lit "1") 1 false)) demo_after).1
    = [2; 1]%nat.
Proof.
  apply (reset_refuses_unknown_versions demo_check MySQL
    (add Migrator_new (demo_migration (lit "1") 1 false)) demo_after _
    (reset demo_check MySQL (add Migrator_new (demo_migration (lit "1") 1 false)) demo_after).2 (lit "2")).
  - vm_compute. set_solver.
  - intros Hv. by apply list_elem_of_singleton in Hv.
  - apply surjective_pairing.
Defined.
