(* ===== verification/Transactions.v ===== *)
(** * Transactions

    src/src/database/transaction.rs, the records of
    src/src/cache/query_cache/pending.rs and the executor of
    src/src/internal/executor.rs: transactions, the savepoints nested in them, the
    statements refused once the server ended a transaction on its own, and what a
    transaction does when it ends: the invalidations it repeats, the undo steps it
    runs, the aborts it hands to the transaction around it.

    The server and its driver are a connection: the rows, of any type [D], and a
    snapshot per open transaction or savepoint. The driver tells them apart by
    their number only, so ending one always ends the innermost; without any, a
    statement commits by itself. What the server answers is an oracle. The code
    inside a transaction is a tree that branches on what it is told.

    Statements of one connection run one at a time (the gate); what other futures
    of the transaction do shows only in whether they hold the connection when a
    scope is dropped. *)

From stdpp Require Import gmap.
From S2P Require Import Prelude Dialect QueryCache.

Inductive Abort := Deadlock | SqliteRollback | Savepoint | Cancelled | Leaked.

#[export] Instance Abort_eq_dec : EqDecision Abort.
Proof. solve_decision. Defined.

Definition reason (a : Abort) : str :=
  match a with
  | Deadlock =>
      lit "a statement inside it deadlocked, and the database rolled the whole transaction back"
  | SqliteRollback => lit "a failed statement made SQLite roll the whole transaction back"
  | Savepoint =>
      lit "a nested transaction failed or was cancelled while it started, or was cancelled while it ended, which ends the enclosing transaction"
  | Cancelled =>
      lit "a nested transaction was cancelled while another statement of its connection was running, so it could not be rolled back"
  | Leaked =>
      lit "a nested transaction's handle leaked outside its scope, so its savepoint stays open until that handle drops"
  end.

Definition commit_error (a : Abort) : str :=
  lit "the transaction cannot commit: " ++ reason a
  ++ lit "; further TideORM statements on this transaction are blocked".

Definition statement_error (a : Abort) : str :=
  lit "the statement was not run: " ++ reason a
  ++ lit "; further TideORM statements on this transaction are blocked, so retry the whole transaction".

Definition ends_the_connection_transaction (a : Abort) : bool :=
  match a with Cancelled => false | _ => true end.

(** ** The connection *)

(** The server's answer to a request: it fails alone, as a deadlock, by rolling
    the whole transaction back (SQLite), or with the connection lost, the request
    having taken effect or not. *)
Inductive Reply := Works | Refused | Deadlocks | RollsBack | Lost (took_effect : bool).

Section transactions.
Context {D U : Type}.

Record Conn := {
  data : D;
  saves : list D;      (* a snapshot per open transaction, innermost first *)
  pg_failed : bool;    (* PostgreSQL: the transaction is in its failed state *)
  lost : bool;
}.

(** What every other connection sees. *)
Definition committed (c : Conn) : D := default (data c) (list.last (saves c)).

Definition set_data (c : Conn) (d : D) : Conn :=
  {| data := d; saves := saves c; pg_failed := pg_failed c; lost := lost c |}.

Definition open_one (c : Conn) : Conn :=
  {| data := data c; saves := data c :: saves c; pg_failed := pg_failed c; lost := lost c |}.

Definition release_one (c : Conn) : Conn :=
  {| data := data c; saves := tail (saves c); pg_failed := pg_failed c; lost := lost c |}.

Definition rollback_one (c : Conn) : Conn :=
  match saves c with
  | [] => c
  | d :: saves => {| data := d; saves := saves; pg_failed := false; lost := lost c |}
  end.

Definition rollback_all (c : Conn) : Conn :=
  {| data := committed c; saves := []; pg_failed := false; lost := lost c |}.

Definition hang_up (c : Conn) : Conn :=
  {| data := committed c; saves := []; pg_failed := false; lost := true |}.

(** PostgreSQL fails the transaction a statement fails in. *)
Definition fail_one (db : DatabaseType) (c : Conn) : Conn :=
  match db with
  | Postgres => {| data := data c; saves := saves c; pg_failed := true; lost := lost c |}
  | _ => c
  end.

(** A request with the effect [f]; an error says whether it is a deadlock. *)
Definition request (db : DatabaseType) (f : Conn → Conn) (r : Reply) (c : Conn)
    : Conn * result unit bool :=
  if lost c || pg_failed c then (c, Err false)
  else match r with
  | Works => (f c, Ok tt)
  | Refused => (fail_one db c, Err false)
  | Deadlocks =>
      (match db with MySQL | MariaDB => rollback_all c | _ => fail_one db c end, Err true)
  | RollsBack => (match db with SQLite => rollback_all c | _ => fail_one db c end, Err false)
  | Lost _ => (hang_up c, Err false)
  end.

(** [COMMIT], or the release of a savepoint. PostgreSQL answers the [COMMIT] of a
    failed transaction with a rollback and no error. *)
Definition commit_request (r : Reply) (c : Conn) : Conn * bool :=
  if lost c then (c, false)
  else match r with
  | Works =>
      if pg_failed c then
        match saves c with [_] => (rollback_one c, true) | _ => (c, false) end
      else (release_one c, true)
  | Lost took_effect =>
      (hang_up (if took_effect && (length (saves c) =? 1) && negb (pg_failed c)
                then release_one c else c), false)
  | _ => (c, false)
  end.

Definition rollback_request (r : Reply) (c : Conn) : Conn :=
  match r with Lost _ => hang_up c | _ => rollback_one c end.

(** ** Records *)

Record PendingInvalidations := {
  tables : gset str;
  databases : gset str;
  all : bool;
  undo : list U;
  statement_failed : bool;
  aborted : option Abort;
  depth : nat;
  deferred : nat;      (* how many savepoints it holds *)
}.

(** [enclosing] are the records around it, innermost first. *)
Definition PendingInvalidations_new (enclosing : list PendingInvalidations) : PendingInvalidations :=
  {| tables := ∅; databases := ∅; all := false; undo := []; statement_failed := false;
     aborted := None;
     depth := match enclosing with e :: _ => depth e + 1 | [] => 1 end; deferred := 0 |}.

(** The first reason is kept. *)
Definition abort (a : Abort) (p : PendingInvalidations) : PendingInvalidations :=
  {| tables := tables p; databases := databases p; all := all p; undo := undo p;
     statement_failed := statement_failed p;
     aborted := match aborted p with Some b => Some b | None => Some a end;
     depth := depth p; deferred := deferred p |}.

Definition note_failed_statement (deadlocked : bool) (p : PendingInvalidations)
    : PendingInvalidations :=
  let p := {| tables := tables p; databases := databases p; all := all p; undo := undo p;
              statement_failed := true; aborted := aborted p; depth := depth p;
              deferred := deferred p |} in
  if deadlocked then abort Deadlock p else p.

Definition clear_sqlite_rollback (p : PendingInvalidations) : PendingInvalidations :=
  {| tables := tables p; databases := databases p; all := all p; undo := undo p;
     statement_failed := statement_failed p;
     aborted := if decide (aborted p = Some SqliteRollback) then None else aborted p;
     depth := depth p; deferred := deferred p |}.

Definition set_deferred (n : nat) (p : PendingInvalidations) : PendingInvalidations :=
  {| tables := tables p; databases := databases p; all := all p; undo := undo p;
     statement_failed := statement_failed p; aborted := aborted p; depth := depth p;
     deferred := n |}.

Definition push_undo (us : list U) (p : PendingInvalidations) : PendingInvalidations :=
  {| tables := tables p; databases := databases p; all := all p; undo := undo p ++ us;
     statement_failed := statement_failed p; aborted := aborted p; depth := depth p;
     deferred := deferred p |}.

(** [table], [all] and [database]. *)
Definition note (n : Note) (p : PendingInvalidations) : PendingInvalidations :=
  {| tables := match n with NoteTable t => {[t]} ∪ tables p | _ => tables p end;
     databases := match n with NoteDatabase d => {[d]} ∪ databases p | _ => databases p end;
     all := match n with NoteAll => true | _ => all p end;
     undo := undo p; statement_failed := statement_failed p; aborted := aborted p;
     depth := depth p; deferred := deferred p |}.

(** ** The state and what is seen of it *)

Inductive Event :=
  | Invalidated (n : Note)
  | Registered (u : U)
  | Undone (u : U)
  | CommitSent.

(** [records]: the open transactions', innermost first; [strays]: those of leaked
    handles, which end when the handle does. *)
Record State := {
  conn : Conn;
  records : list PendingInvalidations;
  replies : list Reply;
  trace : list Event;
  strays : list PendingInvalidations;
}.

Definition set_conn (s : State) (c : Conn) : State :=
  {| conn := c; records := records s; replies := replies s; trace := trace s; strays := strays s |}.

Definition set_records (s : State) (rs : list PendingInvalidations) : State :=
  {| conn := conn s; records := rs; replies := replies s; trace := trace s; strays := strays s |}.

Definition log (s : State) (es : list Event) : State :=
  {| conn := conn s; records := records s; replies := replies s; trace := trace s ++ es;
     strays := strays s |}.

Definition stray (s : State) (p : PendingInvalidations) : State :=
  {| conn := conn s; records := records s; replies := replies s; trace := trace s;
     strays := strays s ++ [p] |}.

(** Change the innermost record, if there is one. *)
Definition on_record (f : PendingInvalidations → PendingInvalidations) (s : State) : State :=
  match records s with [] => s | p :: rs => set_records s (f p :: rs) end.

Definition take_reply (s : State) : State * Reply :=
  match replies s with
  | [] => (s, Works)
  | r :: rs =>
      ({| conn := conn s; records := records s; replies := rs; trace := trace s;
          strays := strays s |}, r)
  end.

(** [invalidate_model], which lowercases the table, [invalidate_database] and
    [clear] of the global cache: at once, and noted in the innermost record. *)
Definition lowercased (n : Note) : Note :=
  match n with NoteTable t => NoteTable (to_ascii_lowercase t) | _ => n end.

Definition invalidate (s : State) (n : Note) : State :=
  on_record (note (lowercased n)) (log s [Invalidated (lowercased n)]).

Definition undo_on_rollback (s : State) (u : U) : State :=
  on_record (push_undo [u]) (log s [Registered u]).

(** ** The executor *)

Definition ensure_transaction_active (s : State) : result unit str :=
  match records s with
  | p :: _ =>
      match aborted p with
      | Some a => Err (lit "tideorm: transaction aborted: " ++ statement_error a)
      | None => Ok tt
      end
  | [] => Ok tt
  end.

(** The empty savepoints [check_sqlite_failure] puts back, until one fails. *)
Fixpoint recreate_savepoints (n : nat) (s : State) : State :=
  match n with
  | 0 => s
  | S n =>
      let '(s, r) := take_reply s in
      match request SQLite open_one r (conn s) with
      | (c, Ok _) => recreate_savepoints n (set_conn s c)
      | (c, Err _) => set_conn s c
      end
  end.

Definition reopen (n : nat) (r : Reply) (s : State) : State :=
  match request SQLite open_one r (conn s) with
  | (c, Ok _) => recreate_savepoints n (set_conn s c)
  | (c, Err _) => set_conn s c
  end.

(** [BEGIN] fails inside a transaction, and without one opens another. *)
Definition check_sqlite_failure (s : State) : State :=
  match records s with
  | [] => s
  | p :: _ =>
      let '(s, r) := take_reply (on_record (abort SqliteRollback) s) in
      match r, negb (lost (conn s)) && negb (length (saves (conn s)) =? 0) with
      | Works, true => on_record clear_sqlite_rollback s
      | _, _ => reopen (depth p - 1) r s
      end
  end.

(** [execute_raw] and its like, with the effect [f] on the rows. *)
Definition execute (db : DatabaseType) (f : D → D) (s : State) : State * bool :=
  match ensure_transaction_active s with
  | Err _ => (s, false)
  | Ok _ =>
      let '(s, r) := take_reply s in
      match request db (λ c, set_data c (f (data c))) r (conn s) with
      | (c, Ok _) => (set_conn s c, true)
      | (c, Err deadlocked) =>
          let s := on_record (note_failed_statement deadlocked) (set_conn s c) in
          (match db with SQLite => check_sqlite_failure s | _ => s end, false)
      end
  end.

(** ** A scope, from its begin to its end *)

(** What becomes of a scope, besides what its code does: it ends; it is cancelled
    while it starts or while it ends, the request in flight having taken effect or
    not, which a dropped transaction is rolled back for ([sent]: the commit was on
    its way; [extra]: the driver rolls back once more); its handle leaks. *)
Inductive Fate :=
  | Ends
  | StartCancelled (took_effect : bool)
  | EndCancelled (sent took_effect extra : bool)
  | Leaks.

(** How the code inside a scope is over: it returned, or was dropped, another
    future holding the connection or not. *)
Inductive Outcome := Returned (ok : bool) | Dropped (held : bool).

(** A savepoint that fails or is cancelled while it starts makes the driver roll
    back at the depth of the transaction around it. *)
Definition fail_savepoint (s : State) : State :=
  on_record (abort Savepoint) (set_conn s (rollback_one (conn s))).

Definition push_record (s : State) : State :=
  set_records s (PendingInvalidations_new (records s) :: records s).

(** [Executor::begin] and [TransactionScope::begin]. *)
Definition begin (db : DatabaseType) (fate : Fate) (s : State) : State * bool :=
  match records s with
  | [] =>
      match fate with
      | StartCancelled _ => (s, false)
      | _ =>
          let '(s, r) := take_reply s in
          match r with
          | Works => (push_record (set_conn s (open_one (conn s))), true)
          | _ => (s, false)
          end
      end
  | _ :: _ =>
      match ensure_transaction_active s with
      | Err _ => (s, false)
      | Ok _ =>
          match fate with
          | StartCancelled took_effect =>
              (fail_savepoint (if took_effect && negb (lost (conn s) || pg_failed (conn s))
                               then set_conn s (open_one (conn s)) else s), false)
          | _ =>
              let '(s, r) := take_reply s in
              match request db open_one r (conn s) with
              | (c, Ok _) => (push_record (set_conn s c), true)
              | (c, Err _) => (fail_savepoint (set_conn s c), false)
              end
          end
      end
  end.

(** [n] savepoints of the innermost record's transaction, dropped with the
    connection free or not. *)
Definition defer_or_drop (held : bool) (n : nat) (s : State) : State :=
  if held then on_record (λ p, set_deferred (deferred p + n) (abort Cancelled p)) s
  else set_conn s (Nat.iter n rollback_one (conn s)).

(** [PendingInvalidations::drop], of a record taken off the open ones. *)
Definition drop_record (held : bool) (p : PendingInvalidations) (s : State) : State :=
  let s := log s (Undone <$> rev (undo p)) in
  let s := match aborted p with
           | Some a => if ends_the_connection_transaction a then on_record (abort a) s else s
           | None => s
           end in
  if deferred p =? 0 then s
  else match records s with
       | [] => set_conn s (Nat.iter (deferred p) rollback_one (conn s))
       | _ => defer_or_drop held (deferred p) s
       end.

Definition replay_notes (p : PendingInvalidations) : list Note :=
  if all p then [NoteAll]
  else (NoteDatabase <$> elements (databases p)) ++ (NoteTable <$> elements (tables p)).

Definition replay_invalidations (p : PendingInvalidations) (s : State) : State :=
  foldl invalidate s (replay_notes p).

Definition replay (p : PendingInvalidations) (s : State) : State :=
  replay_invalidations p (on_record (push_undo (undo p)) s).

Definition can_rollback_leaked_transaction (db : DatabaseType) (nested : bool) : bool :=
  negb nested && match db with SQLite => false | _ => true end.

(** [end_leaked_transaction]: [ROLLBACK], then a [BEGIN] for the stray handle. *)
Definition end_leaked_transaction (db : DatabaseType) (nested : bool) (s : State) : State :=
  if negb (can_rollback_leaked_transaction db nested) then s
  else
    let '(s, r) := take_reply s in
    match r, lost (conn s) with
    | Works, false =>
        let '(s, r) := take_reply (set_conn s (rollback_all (conn s))) in
        match request db open_one r (conn s) with (c, _) => set_conn s c end
    | Lost _, _ => set_conn s (hang_up (conn s))
    | _, _ => s
    end.

(** [txn.rollback()]. *)
Definition rollback (s : State) : State :=
  let '(s, r) := take_reply s in set_conn s (rollback_request r (conn s)).

(** [ensure_transaction_can_commit]; an error drops the transaction. *)
Definition ensure_transaction_can_commit (db : DatabaseType) (p : PendingInvalidations) (s : State)
    : State * bool :=
  if statement_failed p && bool_decide (db = Postgres) then
    let '(s, r) := take_reply s in
    match request db (λ c, c) r (conn s) with
    | (c, Ok _) => (set_conn s c, true)
    | (c, Err _) => (set_conn s (rollback_one c), false)
    end
  else (s, true).

Definition log_commit (s : State) : State :=
  match records s with [] => log s [CommitSent] | _ => s end.

(** [TransactionScope::end] with a handle of its own, of the record [p] taken off
    the open ones. *)
Definition end_owned (db : DatabaseType) (p : PendingInvalidations) (ok : bool) (s : State)
    : State * bool :=
  if negb ok || bool_decide (is_Some (aborted p)) then (drop_record false p (rollback s), false)
  else
    let '(s, can_commit) := ensure_transaction_can_commit db p s in
    if negb can_commit then (drop_record false p s, false)
    else
      let '(s, r) := take_reply (log_commit s) in
      match commit_request r (conn s) with
      | (c, true) => (replay p (set_conn s c), true)
      | (c, false) =>
          (drop_record false p (replay_invalidations p (set_conn s (rollback_one c))), false)
      end.

(** [TransactionScope::end] cancelled. *)
Definition end_cancelled (p : PendingInvalidations) (ok sent took_effect extra : bool) (s : State)
    : State :=
  let commits := sent && ok && negb (bool_decide (is_Some (aborted p))) in
  let s := if commits then log_commit s else s in
  let c := conn s in
  let c := if took_effect && commits && negb (pg_failed c || lost c) then release_one c
           else rollback_one c in
  let s := set_conn s (if extra then rollback_one c else c) in
  let s := if commits then replay_invalidations p s else s in
  drop_record false p (on_record (abort Savepoint) s).

(** [TransactionScope::end], or the scope's drop. *)
Definition finish (db : DatabaseType) (fate : Fate) (outcome : Outcome) (s : State) : State * bool :=
  match records s with
  | [] => (s, false)
  | p :: rs =>
      let s := set_records s rs in
      let nested := negb (length rs =? 0) in
      match fate, outcome with
      | Leaks, Dropped held =>
          (stray (if held then on_record (abort Cancelled) s else s) p, false)
      | _, Dropped held =>
          (drop_record held p
             (if nested then defer_or_drop held 1 s else set_conn s (rollback_one (conn s))), false)
      | _, Returned ok =>
          let s := set_conn s (Nat.iter (deferred p) rollback_one (conn s)) in
          let p := set_deferred 0 p in
          match fate with
          | Leaks => (stray (on_record (abort Leaked) (end_leaked_transaction db nested s)) p, false)
          | EndCancelled sent took_effect extra =>
              (end_cancelled p ok sent took_effect extra s, false)
          | _ => end_owned db p ok s
          end
      end
  end.

(** ** Code inside a transaction *)

Inductive Prog :=
  | Return (ok : bool)
  | Drop (held : bool)
  | Execute (f : D → D) (k : bool → Prog)
  | Invalidate (n : Note) (k : Prog)
  | OnRollback (u : U) (k : Prog)
  | Transaction (fate : Fate) (body : Prog) (k : bool → Prog).

Fixpoint run (db : DatabaseType) (p : Prog) (s : State) : State * Outcome :=
  match p with
  | Return ok => (s, Returned ok)
  | Drop held => (s, Dropped held)
  | Execute f k => let '(s, ok) := execute db f s in run db (k ok) s
  | Invalidate n k => run db k (invalidate s n)
  | OnRollback u k => run db k (undo_on_rollback s u)
  | Transaction fate body k =>
      match begin db fate s with
      | (s, false) => run db (k false) s
      | (s, true) =>
          let '(s, outcome) := run db body s in
          let '(s, ok) := finish db fate outcome s in
          run db (k ok) s
      end
  end.

(** [Database::transaction]. *)
Definition transaction (db : DatabaseType) (fate : Fate) (body : Prog) (s : State) : State * bool :=
  match begin db fate s with
  | (s, false) => (s, false)
  | (s, true) => let '(s, outcome) := run db body s in finish db fate outcome s
  end.

End transactions.
Arguments Conn : clear implicits.
Arguments PendingInvalidations : clear implicits.
Arguments Event : clear implicits.
Arguments State : clear implicits.
Arguments Prog : clear implicits.
