(* ===== verification/Atomicity.v ===== *)
(** * What transactions guarantee

    The meaning of a transaction's code ([Effect]), the invariant that ties the
    connection of [Transactions] to its records while the code runs, and the
    properties: atomicity, the repeated invalidations, the undo steps, and the two
    ways a dropped scope gets around them.

    [orderly] says which scopes are not dropped: one whose handle leaked, and one
    in which something failed while another future holds the connection. *)

From stdpp Require Import gmap.
From S2P Require Import Prelude Dialect QueryCache Transactions.

(** ** What a transaction means

    [Effect p d d' ns us o]: run on rows [d], with every nested transaction taken
    whole or not at all, [p] leaves the rows [d'], having made the invalidations
    [ns] and registered the undo steps [us], and is over as [o] says. A statement
    told to have run took effect, one told to have failed did nothing. *)

Section meaning.
Context {D U : Type}.

Inductive Effect : Prog D U → D → D → list Note → list U → Outcome → Prop :=
  | EffReturn ok d : Effect (Return ok) d d [] [] (Returned ok)
  | EffDrop held d : Effect (Drop held) d d [] [] (Dropped held)
  | EffExecute f k (ok : bool) d d' ns us o :
      Effect (k ok) (if ok then f d else d) d' ns us o → Effect (Execute f k) d d' ns us o
  | EffInvalidate n k d d' ns us o :
      Effect k d d' ns us o → Effect (Invalidate n k) d d' (lowercased n :: ns) us o
  | EffOnRollback u k d d' ns us o :
      Effect k d d' ns us o → Effect (OnRollback u k) d d' ns (u :: us) o
  | EffCommits fate body k d d1 d' ns1 us1 ns us o :
      Effect body d d1 ns1 us1 (Returned true) → Effect (k true) d1 d' ns us o →
      Effect (Transaction fate body k) d d' (ns1 ++ ns) (us1 ++ us) o
  | EffFails fate body k d d' ns us o :
      Effect (k false) d d' ns us o → Effect (Transaction fate body k) d d' ns us o.

(** The code of a scope may be dropped before it returns. *)
Fixpoint drops (p : Prog D U) : bool :=
  match p with
  | Return _ => false
  | Drop _ => true
  | Execute _ k => drops (k true) || drops (k false)
  | Invalidate _ k | OnRollback _ k => drops k
  | Transaction _ _ k => drops (k true) || drops (k false)
  end.

Definition is_leaks (fate : Fate) : bool := match fate with Leaks => true | _ => false end.

(** No scope with a leaked handle is dropped, and none is dropped while another
    future holds the connection after something in it failed ([failed]). *)
Fixpoint orderly (failed : bool) (p : Prog D U) : bool :=
  match p with
  | Return _ => true
  | Drop held => negb (held && failed)
  | Execute _ k => orderly failed (k true) && orderly true (k false)
  | Invalidate _ k | OnRollback _ k => orderly failed k
  | Transaction fate body k =>
      negb (is_leaks fate && drops body) && orderly false body
      && orderly failed (k true) && orderly true (k false)
  end.

(** Some handle leaks. *)
Fixpoint leaky (p : Prog D U) : bool :=
  match p with
  | Return _ | Drop _ => false
  | Execute _ k => leaky (k true) || leaky (k false)
  | Invalidate _ k | OnRollback _ k => leaky k
  | Transaction fate body k => is_leaks fate || leaky body || leaky (k true) || leaky (k false)
  end.

(** A repeat of the note [n] is owed by the record. *)
Definition owes (r : PendingInvalidations U) (n : Note) : Prop :=
  all r = true
  ∨ match n with
    | NoteTable t => t ∈ tables r
    | NoteDatabase d => d ∈ databases r
    | NoteAll => False
    end.
End meaning.

(** ** The connection *)

Section connection.
Context {D U : Type}.
Implicit Types (c : Conn D) (s : State D U) (r : PendingInvalidations U).

(** With a transaction open, the rows do not matter. *)
Lemma default_last (d d' x : D) l : default d (list.last (x :: l)) = default d' (list.last (x :: l)).
Proof. destruct (list.last (x :: l)) eqn:E; [done|]. by apply last_None in E. Qed.

Lemma committed_rollback_one c : committed (rollback_one c) = committed c.
Proof. destruct c as [d [|d1 [|d2 l]] pg lo]; [done|done|]. apply (default_last d1 d d2 l). Qed.

Lemma committed_rollback_all c : committed (rollback_all c) = committed c.
Proof. done. Qed.

Lemma committed_hang_up c : committed (hang_up c) = committed c.
Proof. done. Qed.

Lemma committed_open_one c : committed (open_one c) = committed c.
Proof. destruct c as [d [|d1 l] pg lo]; [done|]. apply (default_last d d d1 l). Qed.

Lemma committed_release_one c d1 d2 l : saves c = d1 :: d2 :: l → committed (release_one c) = committed c.
Proof. destruct c as [d sv pg lo]. cbn. by intros ->. Qed.

Lemma committed_set_data c d : saves c ≠ [] → committed (set_data c d) = committed c.
Proof. destruct c as [d0 [|d1 l] pg lo]; [done|]. intros _. apply default_last. Qed.

Lemma committed_fail_one db c : committed (fail_one db c) = committed c.
Proof. by destruct db. Qed.

Lemma committed_iter n c : committed (Nat.iter n rollback_one c) = committed c.
Proof. induction n as [|n IH]; [done|]. cbn. by rewrite committed_rollback_one. Qed.
End connection.

Create Rewrite HintDb committed.
#[export] Hint Rewrite @committed_rollback_one @committed_rollback_all @committed_hang_up
  @committed_open_one @committed_fail_one @committed_iter : committed.

Section connection2.
Context {D U : Type}.
Implicit Types (c : Conn D) (s : State D U) (r : PendingInvalidations U).

(** A request that failed left the connection lost, rolled back, or as it was but
    for PostgreSQL's failed state. *)
Lemma request_Err db f rep c c' dl :
  request db f rep c = (c', Err dl) →
  committed c' = committed c ∧ length (saves c') ≤ length (saves c)
  ∧ (pg_failed c' = true → db = Postgres ∨ pg_failed c = true)
  ∧ (lost c' = true
     ∨ lost c' = false ∧ lost c = false ∧ saves c' = [] ∧ (dl = true ∨ db = SQLite) ∧ db ≠ Postgres
     ∨ data c' = data c ∧ saves c' = saves c ∧ lost c' = lost c).
Proof.
  unfold request. destruct (lost c) eqn:El.
  { intros [= <- <-]. split_and!; [done|done|by right|by left]. }
  destruct (pg_failed c) eqn:Ep.
  { intros [= <- <-]. split_and!; [done|done|by right|by right; right]. }
  destruct rep; [done| | | |].
  all: destruct db; cbn; intros [= <- <-]; autorewrite with committed; split_and!; cbn; try done; try lia; try (intros; by auto).
  all: cbn; rewrite ?El, ?Ep; first [by left | by right; left; auto 6 | by right; right; auto 6].
Qed.

Lemma request_Ok db f rep c c' u :
  request db f rep c = (c', Ok u) → c' = f c ∧ lost c = false ∧ pg_failed c = false.
Proof.
  unfold request. destruct (lost c) eqn:El, (pg_failed c) eqn:Ep; cbn; try done.
  destruct rep; cbn; [|destruct db; done..]. by intros [= <-].
Qed.

Lemma rollback_one_saves c : length (saves (rollback_one c)) = length (saves c) - 1.
Proof. destruct c as [d [|d1 l] pg lo]; cbn; lia. Qed.

Lemma iter_rollback_saves n c : length (saves (Nat.iter n rollback_one c)) = length (saves c) - n.
Proof. induction n as [|n IH]; [cbn; lia|]. rewrite Nat.iter_succ, rollback_one_saves, IH. lia. Qed.

Lemma iter_rollback_lost n c : lost (Nat.iter n rollback_one c) = lost c.
Proof.
  induction n as [|n IH]; [done|]. rewrite Nat.iter_succ, <- IH. by destruct (Nat.iter _ _ _) as [d [|]].
Qed.

Lemma rollback_one_lost c : lost (rollback_one c) = lost c.
Proof. by destruct c as [d [|]]. Qed.

(** Rolling back down to the snapshot [d]. *)
Lemma iter_rollback_to c E d S :
  saves c = E ++ d :: S →
  Nat.iter (Datatypes.S (length E)) rollback_one c
  = {| data := d; saves := S; pg_failed := false; lost := lost c |}.
Proof.
  revert c. induction E as [|e E IH]; intros [d0 sv pg lo]; cbn -[Nat.iter].
  { by intros ->. }
  intros ->. rewrite Nat.iter_succ_r. unfold rollback_one at 2. cbn -[Nat.iter]. by rewrite IH.
Qed.

Lemma iter_rollback_prefix c E S :
  saves c = E ++ S → saves (Nat.iter (length E) rollback_one c) = S.
Proof.
  revert c. induction E as [|e E IH]; intros [d0 sv pg lo]; cbn -[Nat.iter]; [by intros ->|].
  intros ->. rewrite Nat.iter_succ_r. unfold rollback_one at 2. cbn -[Nat.iter]. by rewrite IH.
Qed.

Lemma take_reply_eq s s' rep :
  take_reply s = (s', rep) →
  conn s' = conn s ∧ records s' = records s ∧ trace s' = trace s ∧ strays s' = strays s.
Proof. unfold take_reply. destruct (replies s); intros [= <- <-]; done. Qed.
End connection2.

(** ** The innermost record *)

Section records.
Context {D U : Type} (db : DatabaseType).
Implicit Types (c : Conn D) (s : State D U) (r : PendingInvalidations U).

(** The records [r'] and [r] owe the same and undo the same. *)
Definition same_books (r r' : PendingInvalidations U) : Prop :=
  tables r' = tables r ∧ databases r' = databases r ∧ all r' = all r ∧ undo r' = undo r
  ∧ depth r' = depth r.

(** [s'] is [s] but for the connection, the replies and the innermost record's
    marks. *)
Definition framed s s' : Prop :=
  trace s' = trace s ∧ strays s' = strays s
  ∧ match records s, records s' with
    | [], [] => True
    | r :: rs, r' :: rs' => rs' = rs ∧ same_books r r'
    | _, _ => False
    end.

#[global] Instance same_books_preorder : PreOrder same_books.
Proof.
  split; [by intros r|]. intros r1 r2 r3 (?&?&?&?&?) (?&?&?&?&?). split_and!; congruence.
Qed.

#[global] Instance framed_preorder : PreOrder framed.
Proof.
  split; [by intros s; split_and!; [done|done|destruct (records s)]|].
  intros s1 s2 s3 (E1 & E2 & H1) (E3 & E4 & H2). split_and!; [congruence|congruence|].
  destruct (records s1), (records s2), (records s3); try done.
  destruct H1 as [-> H1], H2 as [-> H2]. split; [done|]. by etransitivity.
Qed.

Lemma framed_head s s' r rs :
  framed s s' → records s = r :: rs → ∃ r', records s' = r' :: rs ∧ same_books r r'.
Proof.
  intros (_ & _ & H) E. rewrite E in H. destruct (records s') as [|r' rs']; [done|].
  destruct H as [-> H]. eauto.
Qed.

Lemma on_record_framed g s : (∀ r, same_books r (g r)) → framed s (on_record g s).
Proof.
  intros Hg. unfold on_record. destruct (records s) eqn:E; [done|].
  split_and!; [done|done|]. by rewrite E.
Qed.

Lemma set_conn_framed s c : framed s (set_conn s c).
Proof. split_and!; [done|done|]. cbn. by destruct (records s). Qed.

Lemma take_reply_framed s : framed s (take_reply s).1.
Proof. unfold take_reply. destruct (replies s); [done|]. split_and!; [done|done|]. cbn. by destruct (records s). Qed.

Lemma recreate_same n s :
  records (recreate_savepoints n s) = records s ∧ trace (recreate_savepoints n s) = trace s
  ∧ strays (recreate_savepoints n s) = strays s.
Proof.
  revert s. induction n as [|n IH]; intros s; cbn; [done|].
  destruct (take_reply s) as [s1 rep] eqn:Et. apply take_reply_eq in Et as (_ & <- & <- & <-).
  destruct (request _ _ _ _) as [c [|]]; [apply (IH (set_conn s1 c))|done].
Qed.

Lemma reopen_same n rep s :
  records (reopen n rep s) = records s ∧ trace (reopen n rep s) = trace s
  ∧ strays (reopen n rep s) = strays s.
Proof.
  unfold reopen. destruct (request _ _ _ _) as [c [|]]; [apply (recreate_same n (set_conn s c))|done].
Qed.

Lemma reopen_framed n rep s : framed s (reopen n rep s).
Proof.
  destruct (reopen_same n rep s) as (E1 & E2 & E3). split_and!; [done|done|]. rewrite E1.
  by destruct (records s).
Qed.

Lemma check_sqlite_framed s : framed s (check_sqlite_failure s).
Proof.
  unfold check_sqlite_failure. destruct (records s) as [|r rs] eqn:E; [done|].
  set (s0 := on_record (abort SqliteRollback) s).
  assert (framed s s0) as H0 by by apply on_record_framed.
  pose proof (take_reply_framed s0) as Ht. destruct (take_reply s0) as [s1 rep]. cbn in Ht.
  etransitivity; [exact H0|]. etransitivity; [exact Ht|].
  assert (framed s1 (reopen (depth r - 1) rep s1)) as Hr by apply reopen_framed.
  destruct rep; try exact Hr. destruct (_ && _); [by apply on_record_framed|exact Hr].
Qed.

Lemma execute_framed f s s' ok : execute db f s = (s', ok) → framed s s'.
Proof.
  unfold execute. destruct (ensure_transaction_active s); [|by intros [= <- <-]].
  pose proof (take_reply_framed s) as Ht. destruct (take_reply s) as [s1 rep]. cbn in Ht.
  intros He. etransitivity; [exact Ht|]. clear Ht s.
  destruct (request _ _ _ _) as [c [u|dl]].
  { injection He as <- <-. apply set_conn_framed. }
  injection He as <- <-.
  set (s2 := on_record (note_failed_statement dl) (set_conn s1 c)).
  assert (framed s1 s2) as H2.
  { etransitivity; [apply (set_conn_framed s1 c)|]. apply on_record_framed. intros r. by destruct dl. }
  destruct db; try done. etransitivity; [exact H2|apply check_sqlite_framed].
Qed.
End records.

(** ** Levels

    [S] are the snapshots of the open transactions, innermost first, and [n] their
    number; [lk] says whether handles may leak. *)

Section levels.
Context {D U : Type} (db : DatabaseType) (lk : bool).
Implicit Types (c : Conn D) (s : State D U) (r : PendingInvalidations U) (S : list D).

(** The innermost transaction goes on. *)
Record good S s r : Prop := {
  good_active : aborted r = None;
  good_lost : lost (conn s) = false;
  good_saves : saves (conn s) = S;
  good_failed : pg_failed (conn s) = true → db = Postgres ∧ statement_failed r = true;
  good_deferred : deferred r = 0;
}.

(** It holds cancelled savepoints. *)
Definition held S s r : Prop :=
  aborted r = Some Cancelled ∧ lost (conn s) = false
  ∧ ∃ E, saves (conn s) = E ++ S ∧ length E = deferred r.

(** It ended underneath. *)
Definition bad (n : nat) s r : Prop :=
  (lost (conn s) = true ∨ ∃ a, aborted r = Some a ∧ ends_the_connection_transaction a = true)
  ∧ (lk = false → length (saves (conn s)) ≤ n).

Lemma recreate_committed n s :
  committed (conn (recreate_savepoints n s)) = committed (conn s)
  ∧ length (saves (conn (recreate_savepoints n s))) ≤ length (saves (conn s)) + n.
Proof.
  revert s. induction n as [|n IH]; intros s; cbn; [split; [done|lia]|].
  destruct (take_reply s) as [s1 rep] eqn:Et. apply take_reply_eq in Et as (Ec & _).
  rewrite <- Ec. destruct (request _ _ _ _) as [c [|]] eqn:Er.
  - apply request_Ok in Er as [-> _]. destruct (IH (set_conn s1 (open_one (conn s1)))) as [-> Hl].
    cbn in *. rewrite committed_open_one. split; [done|lia].
  - apply request_Err in Er as (Hc & Hl & _). cbn. split; [done|lia].
Qed.

Lemma reopen_length n rep s :
  committed (conn (reopen n rep s)) = committed (conn s)
  ∧ length (saves (conn (reopen n rep s))) ≤ length (saves (conn s)) + 1 + n
  ∧ (lost (conn s) = true ∨ rep ≠ Works →
     length (saves (conn (reopen n rep s))) ≤ length (saves (conn s))).
Proof.
  unfold reopen. destruct (request _ _ _ _) as [c [u|dl]] eqn:Er.
  - pose proof Er as Er'. apply request_Ok in Er as (-> & Hl & Hp).
    destruct (recreate_committed n (set_conn s (open_one (conn s)))) as [-> Hlen]. cbn in *.
    rewrite committed_open_one. split_and!; [done|lia|]. intros [?|Hw]; [congruence|].
    unfold request in Er'. rewrite Hl, Hp in Er'. by destruct rep.
  - apply request_Err in Er as (Hc & Hlen & _). cbn. split_and!; [done|lia|done].
Qed.

(** The check after a failed SQLite statement finds the transaction open, or ended. *)
Lemma check_sqlite_good S s r rs :
  records s = r :: rs → depth r = length S → S ≠ [] →
  lost (conn s) = true ∨ saves (conn s) = [] ∨ saves (conn s) = S →
  length (saves (conn s)) ≤ length S →
  aborted r = None ∨ aborted r = Some Deadlock →
  deferred r = 0 → pg_failed (conn s) = false →
  committed (conn (check_sqlite_failure s)) = committed (conn s)
  ∧ ∃ r', records (check_sqlite_failure s) = r' :: rs
    ∧ ((good S (check_sqlite_failure s) r' ∧ data (conn (check_sqlite_failure s)) = data (conn s)
        ∧ saves (conn s) = S ∧ lost (conn s) = false)
       ∨ bad (length S) (check_sqlite_failure s) r').
Proof.
  intros Er Hd HS Hs Hlen Ha Hdf Hpg. unfold check_sqlite_failure. rewrite Er.
  set (s0 := on_record (abort SqliteRollback) s).
  assert (records s0 = abort SqliteRollback r :: rs) as E0 by (unfold s0, on_record; by rewrite Er).
  assert (conn s0 = conn s) as C0 by (unfold s0, on_record; by rewrite Er).
  destruct (take_reply s0) as [s1 rep] eqn:Et. apply take_reply_eq in Et as (Ec & E1 & _).
  rewrite C0 in Ec. rewrite E0 in E1. clear E0 C0 s0. rewrite Ec.
  assert (lost (conn s) = true ∨ saves (conn s) = [] ∨ rep ≠ Works →
    committed (conn (reopen (depth r - 1) rep s1)) = committed (conn s)
    ∧ ∃ r', records (reopen (depth r - 1) rep s1) = r' :: rs
      ∧ bad (length S) (reopen (depth r - 1) rep s1) r') as Hre.
  { intros Hcase. destruct (reopen_length (depth r - 1) rep s1) as (Hc & Hl1 & Hl2). rewrite Ec in *.
    split; [done|].
    destruct (reopen_same (depth r - 1) rep s1) as (-> & _). rewrite E1. eexists. split; [done|].
    split; [right; cbn; destruct Ha as [-> | ->]; eauto|]. intros _.
    assert (length S > 0) by (destruct S; [done|cbn; lia]).
    destruct Hcase as [Hcase|[Hcase|Hcase]]; [etransitivity; [apply Hl2; by left|done]| |].
    - rewrite Hcase in Hl1. cbn in Hl1. lia.
    - etransitivity; [apply Hl2; by right|done]. }
  destruct rep; try (destruct Hre as [? (r' & ? & ?)]; [by auto|by eauto 10]).
  destruct (lost (conn s)) eqn:El; cbn.
  { destruct Hre as [? (r' & ? & ?)]; [by auto|by eauto 10]. }
  destruct (saves (conn s)) as [|d sv] eqn:Esv; cbn.
  { destruct Hre as [? (r' & ? & ?)]; [by auto|by eauto 10]. }
  unfold on_record. rewrite E1. cbn. rewrite Ec. split; [done|]. eexists. split; [done|].
  destruct Hs as [|[|HsS]]; [done|done|]. destruct Ha as [Ha|Ha].
  - left. split; [|by split_and!]. split; cbn; rewrite ?Ec, ?Ha, ?Hpg, ?Esv; done.
  - right. split; [|cbn; by rewrite Ec, Esv]. right. exists Deadlock. cbn. by rewrite Ha.
Qed.

(** One statement of a transaction that goes on. *)
Lemma execute_good f S s r rs s' ok :
  records s = r :: rs → depth r = length S → S ≠ [] → good S s r →
  execute db f s = (s', ok) →
  committed (conn s') = committed (conn s)
  ∧ ∃ r', records s' = r' :: rs
    ∧ (good S s' r' ∧ data (conn s') = (if ok then f (data (conn s)) else data (conn s))
       ∨ ok = false ∧ bad (length S) s' r').
Proof.
  intros Er Hd HS [Ha Hl Hsv Hpg Hdf]. unfold execute, ensure_transaction_active. rewrite Er, Ha.
  destruct (take_reply s) as [s1 rep] eqn:Et. apply take_reply_eq in Et as (Ec & E1 & _).
  rewrite Er in E1. destruct (request _ _ _ _) as [c [u|dl]] eqn:Eq.
  { apply request_Ok in Eq as (-> & _ & Hp). intros [= <- <-]. cbn. rewrite Ec in *.
    split; [apply committed_set_data; by rewrite Hsv|]. exists r. split; [done|]. left. split; done. }
  intros [= <- <-]. apply request_Err in Eq as (Hc & Hlen & Hpc & Hcase). rewrite Ec in *.
  set (s2 := on_record (note_failed_statement dl) (set_conn s1 c)).
  assert (records s2 = note_failed_statement dl r :: rs) as E2 by (unfold s2, on_record; cbn; by rewrite E1).
  assert (conn s2 = c) as C2 by (unfold s2, on_record; cbn; by rewrite E1).
  assert (deferred (note_failed_statement dl r) = 0) as Hdf2 by by destruct dl.
  assert (statement_failed (note_failed_statement dl r) = true) as Hsf by by destruct dl.
  assert (depth (note_failed_statement dl r) = length S) as Hd2 by by destruct dl.
  rewrite Hsv in Hlen.
  assert (dl = true ∨ lost c = true → bad (length S) s2 (note_failed_statement dl r)) as Hbad.
  { intros Hb. split; [|by rewrite C2]. rewrite C2. destruct Hb as [->|?]; [right|by left].
    exists Deadlock. cbn. by rewrite Ha. }
  assert (good S s2 (note_failed_statement dl r) ∧ data (conn s2) = data (conn s)
    ∨ bad (length S) s2 (note_failed_statement dl r)
    ∨ db = SQLite ∧ saves c = [] ∧ lost c = false ∧ dl = false) as H2.
  { destruct dl; [right; left; apply Hbad; by left|].
    destruct Hcase as [?|[(Hlc & _ & Hn & [?| Hsq] & _)|(Hdc & Hsc & Hlc)]];
      [right; left; apply Hbad; by right|done|by right; right|].
    left. rewrite C2. split; [|done]. split; rewrite ?C2; try done; try congruence.
    intros [?|?]%Hpc; [done|]. by destruct Hpg. }
  destruct (decide (db = SQLite)) as [Hdb|Hdb].
  2: { assert (match db with SQLite => check_sqlite_failure s2 | _ => s2 end = s2) as -> by (destruct db; try done; by destruct Hdb).
    rewrite C2. split; [done|]. eexists. split; [done|]. rewrite C2 in H2. destruct H2 as [H2|[H2|[? _]]]; [by left|by right|done]. }
  rewrite Hdb. assert (pg_failed c = false) as Hpcf.
  { destruct (pg_failed c) eqn:Ep; [|done].
    destruct Hpc as [?|[? _]%Hpg]; [done|congruence|congruence]. }
  destruct (check_sqlite_good S s2 _ rs E2 Hd2 HS) as (Hcc & r' & Hr' & Hgb).
  - rewrite C2. destruct Hcase as [?|[(?&?&?&_)|(?&?&?)]]; [by left|by right; left|right; right; congruence].
  - by rewrite C2.
  - destruct dl; [right|left]; cbn; by rewrite Ha.
  - done.
  - by rewrite C2.
  - rewrite Hcc, C2. split; [done|]. exists r'. split; [done|].
    destruct Hgb as [(Hg & Hdat & Hs2 & Hl2)|Hb]; [left|by right].
    rewrite C2 in *. split; [done|]. rewrite Hdat.
    destruct Hcase as [?|[(_&_&Hnil&_)|(?&_)]]; [congruence|congruence|done].
Qed.

(** A transaction that ended underneath, or holds cancelled savepoints, runs no
    statement and opens no savepoint. *)
Lemma execute_stuck f S s r rs s' ok :
  records s = r :: rs → held S s r ∨ bad (length S) s r →
  execute db f s = (s', ok) →
  ok = false ∧ committed (conn s') = committed (conn s)
  ∧ ∃ r', records s' = r' :: rs ∧ (held S s' r' ∨ bad (length S) s' r').
Proof.
  intros Er Hst. unfold execute, ensure_transaction_active. rewrite Er.
  destruct (aborted r) as [a|] eqn:Ha; [intros [= <- <-]; eauto|].
  destruct Hst as [(Hab & _)|[[Hl|(a & Hab & _)] Hlen]]; [congruence| |congruence].
  destruct (take_reply s) as [s1 rep] eqn:Et. apply take_reply_eq in Et as (Ec & E1 & _).
  rewrite Er in E1. unfold request. rewrite Ec, Hl. cbn.
  set (s2 := on_record _ _). intros [= <- <-].
  assert (records s2 = note_failed_statement false r :: rs) as E2 by (unfold s2, on_record; cbn; by rewrite E1).
  assert (conn s2 = conn s) as C2 by (unfold s2, on_record; cbn; rewrite E1; done). 
  split; [done|].
  assert (∀ s3, conn s3 = conn s → records s3 ≠ [] → tail (records s3) = rs →
    committed (conn s3) = committed (conn s)
    ∧ ∃ r', records s3 = r' :: rs ∧ (held S s3 r' ∨ bad (length S) s3 r')) as Hk.
  { intros s3 C3 Hne Htl. rewrite C3. split; [done|]. destruct (records s3) as [|r3 rs3]; [done|].
    cbn in Htl. subst rs3. exists r3. split; [done|]. right. split; [left|]; by rewrite C3. }
  destruct db; try (apply Hk; [done|by rewrite E2|by rewrite E2]).
  unfold check_sqlite_failure. rewrite E2.
  destruct (take_reply _) as [s3 rep'] eqn:Et. apply take_reply_eq in Et as (C3 & E3 & _).
  unfold on_record in C3, E3. rewrite E2 in C3, E3. cbn in C3, E3. rewrite C2 in C3.
  rewrite C3, Hl. cbn.
  assert (reopen (depth r - 1) rep' s3 = set_conn s3 (conn s)) as Hre.
  { unfold reopen, request. by rewrite C3, Hl. }
  destruct rep'; rewrite Hre; apply Hk; cbn; by rewrite ?E3.
Qed.

Lemma begin_stuck fate S s r rs s' ok :
  records s = r :: rs → held S s r ∨ bad (length S) s r →
  begin db fate s = (s', ok) →
  ok = false ∧ committed (conn s') = committed (conn s)
  ∧ ∃ r', records s' = r' :: rs ∧ (held S s' r' ∨ bad (length S) s' r').
Proof.
  intros Er Hst. unfold begin, ensure_transaction_active. rewrite Er.
  destruct (aborted r) as [a|] eqn:Ha; [intros [= <- <-]; eauto|].
  destruct Hst as [(Hab & _)|[[Hl|(a & Hab & _)] Hlen]]; [congruence| |congruence].
  assert (∀ s1, conn s1 = conn s → records s1 = r :: rs → s' = fail_savepoint s1 →
    committed (conn s') = committed (conn s)
    ∧ ∃ r', records s' = r' :: rs ∧ (held S s' r' ∨ bad (length S) s' r')) as Hk.
  { intros s1 C1 E1 ->. unfold fail_savepoint, on_record. cbn. rewrite E1. cbn. rewrite C1.
    autorewrite with committed. split; [done|]. eexists. split; [done|]. right.
    split; cbn; rewrite ?C1; [left; by rewrite rollback_one_lost|].
    intros Hk. rewrite rollback_one_saves. specialize (Hlen Hk). lia. }
  assert (∀ g rep s1, conn s1 = conn s → request db g rep (conn s1) = (conn s, Err false)) as Hreq.
  { intros g rep s1 C1. unfold request. by rewrite C1, Hl. }
  destruct fate.
  2: { rewrite Hl, andb_false_r. intros [= <- <-]. split; [done|]. by apply (Hk s). }
  all: destruct (take_reply s) as [s1 rep] eqn:Et; apply take_reply_eq in Et as (Ec & E1 & _);
    rewrite (Hreq _ _ _ Ec); intros [= <- <-]; (split; [done|]);
    apply (Hk (set_conn s1 (conn s))); [done|cbn; by rewrite E1|done].
Qed.

(** A savepoint opened in a transaction that goes on. *)
Lemma begin_good fate S s r rs s' ok :
  records s = r :: rs → S ≠ [] → good S s r →
  begin db fate s = (s', ok) →
  if ok then
    conn s' = open_one (conn s) ∧ records s' = PendingInvalidations_new (r :: rs) :: r :: rs
    ∧ trace s' = trace s
    ∧ good (data (conn s) :: S) s' (PendingInvalidations_new (r :: rs))
  else
    committed (conn s') = committed (conn s) ∧ framed s s'
    ∧ ∃ r', records s' = r' :: rs ∧ bad (length S) s' r'.
Proof.
  intros Er HS [Ha Hl Hsv Hpg Hdf]. unfold begin, ensure_transaction_active. rewrite Er, Ha.
  assert (∀ s1, committed (conn s1) = committed (conn s) → length (saves (conn s1)) ≤ Datatypes.S (length S) →
    records s1 = r :: rs → trace s1 = trace s → strays s1 = strays s → (lk = false → length (saves (rollback_one (conn s1))) ≤ length S) →
    committed (conn (fail_savepoint s1)) = committed (conn s) ∧ framed s (fail_savepoint s1)
    ∧ ∃ r', records (fail_savepoint s1) = r' :: rs ∧ bad (length S) (fail_savepoint s1) r') as Hk.
  { intros s1 C1 L1 E1 T1 Y1 L2. unfold fail_savepoint, on_record. cbn. rewrite E1. cbn.
    autorewrite with committed. split; [done|]. split; [split_and!; [done|done|cbn; by rewrite Er]|].
    eexists. split; [done|]. split; cbn; [right|done]. exists Savepoint. by rewrite Ha. }
  destruct fate.
  2: { intros [= <- <-]. destruct (_ && _) eqn:Et.
    - apply Hk; cbn; rewrite ?committed_open_one; try done; by rewrite Hsv.
    - apply Hk; try done; [rewrite Hsv; lia|]. rewrite rollback_one_saves, Hsv. lia. }
  all: destruct (take_reply s) as [s1 rep] eqn:Et; apply take_reply_eq in Et as (Ec & E1 & T1 & Y1);
    destruct (request _ _ _ _) as [c [u|dl]] eqn:Eq; intros [= <- <-].
  1,3,5: apply request_Ok in Eq as (-> & Hl1 & Hp1); rewrite Ec in *; rewrite Er in E1;
    unfold push_record; cbn; rewrite E1; split_and!; [done|done|done|];
    split; cbn; rewrite ?Hsv; try done; by rewrite Hp1.
  all: apply request_Err in Eq as (Hc & Hlen & _); rewrite Ec, Hsv in Hlen; rewrite Ec in Hc;
    apply Hk; cbn; rewrite ?E1; try done; [lia|]; rewrite rollback_one_saves; lia.
Qed.

(** ** The invalidations repeated *)

(** [e'] is [e] owing more. *)
Definition owing_more (e e' : PendingInvalidations U) : Prop :=
  aborted e' = aborted e ∧ deferred e' = deferred e ∧ statement_failed e' = statement_failed e
  ∧ depth e' = depth e ∧ undo e' = undo e ∧ ∀ n, owes e n → owes e' n.

#[local] Instance owing_more_preorder : PreOrder owing_more.
Proof.
  split; [by intros e|]. intros e1 e2 e3 (?&?&?&?&?&?) (?&?&?&?&?&?). split_and!; try congruence. auto.
Qed.

Lemma note_owing_more n e : owing_more e (note n e) ∧ owes (note n e) n.
Proof.
  split.
  - split_and!; try done. intros m [Hm|Hm]; [left|destruct m, n; try (by right); cbn in *; [right|right]];
      cbn; [by destruct n|set_solver..].
  - destruct n; [right|left|right]; cbn; set_solver.
Qed.

Lemma invalidate_owing n s e rs :
  records s = e :: rs →
  conn (invalidate s n) = conn s
  ∧ ∃ e', records (invalidate s n) = e' :: rs ∧ owing_more e e' ∧ owes e' (lowercased n).
Proof.
  intros E. unfold invalidate, on_record. cbn. rewrite E. split; [done|]. eexists. split; [done|].
  apply note_owing_more.
Qed.

Lemma replay_owing p s e rs :
  records s = e :: rs →
  conn (replay_invalidations p s) = conn s
  ∧ ∃ e', records (replay_invalidations p s) = e' :: rs ∧ owing_more e e'
    ∧ ∀ n, lowercased n = n → owes p n → owes e' n.
Proof.
  intros E.
  assert (∀ ns s e, records s = e :: rs → conn (foldl invalidate s ns) = conn s
    ∧ ∃ e', records (foldl invalidate s ns) = e' :: rs ∧ owing_more e e'
      ∧ ∀ n, n ∈ ns → owes e' (lowercased n)) as Hf.
  { clear s e E. induction ns as [|n ns IH]; intros s e E; cbn [foldl].
    { split; [done|]. exists e. split_and!; [done|done|]. by intros n ?%elem_of_nil. }
    destruct (invalidate_owing n s e rs E) as (Hc & e1 & E1 & Hm1 & Ho1).
    destruct (IH _ _ E1) as (Hc' & e2 & E2 & Hm2 & Ho2). split; [congruence|]. exists e2.
    split_and!; [done|by etransitivity|]. intros m [->|Hm]%elem_of_cons; [|by apply Ho2].
    by apply Hm2. }
  destruct (Hf (replay_notes p) s e E) as (Hc & e' & E' & Hm & Ho). split; [done|]. exists e'.
  split_and!; [done|done|]. intros n Hn Hp. rewrite <- Hn. unfold replay_notes in Ho.
  destruct (all p) eqn:Ea.
  { assert (owes e' NoteAll) as [|[]] by (apply (Ho NoteAll); by left). by left. }
  apply Ho. destruct Hp as [?|Hp]; [congruence|]. apply elem_of_app.
  destruct n as [t| |d]; [right|done|left]; cbn in Hp.
  - apply list_elem_of_fmap. exists t. split; [done|]. by apply elem_of_elements.
  - apply list_elem_of_fmap. exists d. split; [done|]. by apply elem_of_elements.
Qed.

(** ** The end of a nested scope *)

(** The reason the record hands to the one around it. *)
Definition handed (r e : PendingInvalidations U) : PendingInvalidations U :=
  match aborted r with
  | Some a => if ends_the_connection_transaction a then abort a e else e
  | None => e
  end.

Lemma drop_record_free r s e rs :
  records s = e :: rs →
  records (drop_record false r s) = handed r e :: rs
  ∧ conn (drop_record false r s) = Nat.iter (deferred r) rollback_one (conn s).
Proof.
  intros E. unfold drop_record, handed, on_record.
  destruct (aborted r) as [a|]; [destruct (ends_the_connection_transaction a)|]; cbn; rewrite ?E; cbn.
  all: destruct (deferred r) as [|k] eqn:Ed; cbn -[Nat.iter]; rewrite ?E; done.
Qed.

Lemma handed_books r e : same_books e (handed r e).
Proof. unfold handed. destruct (aborted r) as [a|]; [|done]. by destruct (ends_the_connection_transaction a). Qed.

(** What a nested scope that did not commit leaves of the one around it: it goes
    on from the snapshot [d], or it is stuck. *)
Definition resumed S d (e : PendingInvalidations U) rs s' : Prop :=
  ∃ e', records s' = e' :: rs ∧ depth e' = depth e ∧ undo e' = undo e
  ∧ (∀ n, owes e n → owes e' n)
  ∧ (good S s' e' ∧ data (conn s') = d ∨ held S s' e' ∨ bad (length S) s' e').

Lemma owes_books (e e' : PendingInvalidations U) n : same_books e e' → owes e n → owes e' n.
Proof. intros (Ht & Hd & Ha & _). unfold owes. by rewrite Ht, Hd, Ha. Qed.

(** Rolled back to [d], the scope's record dropped. *)
Lemma resumed_rollback S d r (e : PendingInvalidations U) rs s :
  records s = e :: rs → aborted e = None → deferred e = 0 → deferred r = 0 →
  (aborted r = None ∨ aborted r = Some Cancelled) ∧ lost (conn s) = false
    ∧ saves (conn s) = S ∧ data (conn s) = d ∧ pg_failed (conn s) = false
  ∨ bad (length S) s r →
  resumed S d e rs (drop_record false r s) ∧ committed (conn (drop_record false r s)) = committed (conn s).
Proof.
  intros Er He Hde Hdr Hs. destruct (drop_record_free r s e rs Er) as [E' C'].
  rewrite Hdr in C'. cbn in C'. rewrite C'. split; [|done].
  exists (handed r e). pose proof (handed_books r e) as Hb.
  split; [done|]. split; [apply Hb|]. split; [apply Hb|]. split; [by intros n; apply owes_books|].
  destruct Hs as [(Hab & Hl & Hsv & Hdat & Hpg)|[Hbad Hlen]].
  - assert (handed r e = e) as -> by (unfold handed; by destruct Hab as [-> | ->]).
    left. rewrite C'. split; [|done]. split; rewrite ?C'; try done. by rewrite Hpg.
  - right; right. split; [|by rewrite C']. rewrite C'. destruct Hbad as [?|(a & Ha & Hends)]; [by left|].
    right. exists a. split; [|done]. unfold handed. rewrite Ha, Hends. cbn. by rewrite He.
Qed.

(** The state in which a nested scope's code is over, once its cancelled savepoints
    are rolled back. *)
Definition over S d s r : Prop :=
  (aborted r = None ∨ aborted r = Some Cancelled) ∧ lost (conn s) = false
    ∧ saves (conn s) = d :: S
  ∨ bad (Datatypes.S (length S)) s r.

Lemma bad_pop n s r s' :
  bad (Datatypes.S n) s r → lost (conn s') = true ∨ lost (conn s') = lost (conn s) →
  length (saves (conn s')) ≤ length (saves (conn s)) - 1 → bad n s' r.
Proof.
  intros [Hb Hlen] Hl Hs. split; [|intros Hk; specialize (Hlen Hk); lia].
  destruct Hl as [?|Hl]; [by left|]. rewrite Hl. destruct Hb; [by left|by right].
Qed.

(** [over] and a rollback of the scope. *)
Lemma over_rollback S d s r s' :
  over S d s r → conn s' = rollback_one (conn s) ∨ conn s' = hang_up (conn s) →
  (aborted r = None ∨ aborted r = Some Cancelled) ∧ lost (conn s') = false
    ∧ saves (conn s') = S ∧ data (conn s') = d ∧ pg_failed (conn s') = false
  ∨ bad (length S) s' r.
Proof.
  intros [(Ha & Hl & Hs)|Hb] [C|C].
  - left. rewrite C. unfold rollback_one. rewrite Hs. cbn. by rewrite Hl.
  - right. split; rewrite C; cbn; [by left|lia].
  - right. eapply bad_pop; [done|rewrite C; right; apply rollback_one_lost|]. by rewrite C, rollback_one_saves.
  - right. eapply bad_pop; [done|rewrite C; by left|]. rewrite C. cbn. lia.
Qed.

Lemma resumed_more S d (e e1 : PendingInvalidations U) rs s' :
  owing_more e e1 → resumed S d e1 rs s' → resumed S d e rs s'.
Proof.
  intros (_&_&_&Hd&Hu&Ho) (e' & E & Hd' & Hu' & Ho' & H). exists e'.
  split_and!; [done|congruence|congruence|auto|done].
Qed.

(** What a committed nested scope leaves of the one around it. *)
Definition resumed_after S (p e : PendingInvalidations U) rs s s' : Prop :=
  ∃ e', records s' = e' :: rs ∧ depth e' = depth e ∧ undo e' = undo e ++ undo p
  ∧ (∀ n, owes e n → owes e' n) ∧ (∀ n, lowercased n = n → owes p n → owes e' n)
  ∧ good S s' e' ∧ data (conn s') = data (conn s).

Lemma rollback_conn s :
  records (rollback s) = records s
  ∧ (conn (rollback s) = rollback_one (conn s) ∨ conn (rollback s) = hang_up (conn s)).
Proof.
  unfold rollback. destruct (take_reply s) as [s1 rep] eqn:Et.
  apply take_reply_eq in Et as (Ec & Er & _). cbn. rewrite Ec. split; [done|]. destruct rep; auto.
Qed.

Lemma committed_rollbacks c c' : c' = rollback_one c ∨ c' = hang_up c → committed c' = committed c.
Proof. intros [-> | ->]; by autorewrite with committed. Qed.

(** The probe of a PostgreSQL transaction a statement failed in. *)
Lemma can_commit_spec S d (p : PendingInvalidations U) s s1 b :
  aborted p = None → over S d s p →
  (lost (conn s) = false → pg_failed (conn s) = true → db = Postgres ∧ statement_failed p = true) →
  ensure_transaction_can_commit db p s = (s1, b) →
  records s1 = records s ∧ trace s1 = trace s
  ∧ if b then conn s1 = conn s ∧ (lost (conn s) = false → pg_failed (conn s) = false)
    else committed (conn s1) = committed (conn s)
      ∧ ((aborted p = None ∨ aborted p = Some Cancelled) ∧ lost (conn s1) = false
          ∧ saves (conn s1) = S ∧ data (conn s1) = d ∧ pg_failed (conn s1) = false
        ∨ bad (length S) s1 p).
Proof.
  intros Ha Hov Hpg. unfold ensure_transaction_can_commit.
  destruct (statement_failed p && bool_decide (db = Postgres)) eqn:Ep.
  2: { intros [= <- <-]. split_and!; [done|done|done|]. intros Hl.
    destruct (pg_failed (conn s)) eqn:Epg; [|done]. destruct (Hpg Hl eq_refl) as [Hdb Hsf].
    rewrite Hsf, bool_decide_eq_true_2 in Ep by done. done. }
  apply andb_true_iff in Ep as [_ Hdb%bool_decide_eq_true].
  destruct (take_reply s) as [s2 rep] eqn:Et. apply take_reply_eq in Et as (Ec & Er & Etr & _).
  destruct (request _ _ _ _) as [c [u|dl]] eqn:Eq; intros [= <- <-]; cbn; (split; [done|]); (split; [done|]).
  - apply request_Ok in Eq as (-> & _ & Hp). rewrite Ec in *. done.
  - apply request_Err in Eq as (Hc & Hlen & _ & Hcase). rewrite Ec in *.
    rewrite committed_rollback_one. split; [done|].
    destruct Hov as [(Hab & Hl & Hs)|[Hb Hlk]].
    + destruct Hcase as [Hlc|[(_&_&_&_&?)|(Hdc & Hsc & Hlc)]]; [|done|].
      * right. split; cbn; [left; by rewrite rollback_one_lost|]. intros _.
        rewrite rollback_one_saves. rewrite Hs in Hlen. cbn in Hlen. lia.
      * left. unfold rollback_one. rewrite Hsc, Hs. cbn. rewrite Hlc, Hl. by split_and!.
    + right. destruct Hb as [Hl|(a & Hab & _)]; [|congruence]. split; cbn.
      * left. rewrite rollback_one_lost. destruct Hcase as [?|[(_&?&_)|(_&_&?)]]; [done|congruence|congruence].
      * intros Hk. specialize (Hlk Hk). rewrite rollback_one_saves. lia.
Qed.

Lemma commit_request_spec S d s p rep c b :
  aborted p = None → over S d s p → S ≠ [] → (lost (conn s) = false → pg_failed (conn s) = false) →
  commit_request rep (conn s) = (c, b) →
  committed c = committed (conn s)
  ∧ if b then c = release_one (conn s) ∧ lost (conn s) = false ∧ pg_failed (conn s) = false
      ∧ saves (conn s) = d :: S
    else c = conn s ∨ c = hang_up (conn s).
Proof.
  intros Ha Hov HS Hpg. unfold commit_request.
  destruct (lost (conn s)) eqn:El; [intros [= <- <-]; by auto|]. rewrite (Hpg eq_refl).
  destruct Hov as [(_ & _ & Hs)|[[?|(a & ? & _)] _]]; [|congruence|congruence].
  assert (∃ d2 S2, S = d2 :: S2) as (d2 & S2 & ES) by (destruct S as [|d2 S2]; [done|eauto]).
  destruct rep; intros [= <- <-]; try (split; [done|]; by auto).
  - split; [eapply committed_release_one; rewrite Hs, ES; done|done].
  - rewrite Hs, ES. cbn. rewrite andb_false_r. split; [done|]. by right.
Qed.

Lemma end_owned_nested S d (p e : PendingInvalidations U) rs s s' ok0 ok :
  records s = e :: rs → aborted e = None → deferred e = 0 → deferred p = 0 → S ≠ [] →
  over S d s p →
  (aborted p = None → lost (conn s) = false → pg_failed (conn s) = true →
     db = Postgres ∧ statement_failed p = true) →
  end_owned db p ok0 s = (s', ok) →
  committed (conn s') = committed (conn s)
  ∧ if ok then ok0 = true ∧ aborted p = None ∧ lost (conn s) = false ∧ resumed_after S p e rs s s'
    else resumed S d e rs s'.
Proof.
  intros Er He Hde Hdp HS Hov Hpg. unfold end_owned.
  destruct (negb ok0 || bool_decide (is_Some (aborted p))) eqn:Eb.
  { intros [= <- <-]. destruct (rollback_conn s) as [E1 C1].
    destruct (resumed_rollback S d p e rs (rollback s)) as [Hr Hc]; try done; [by rewrite E1|..].
    - by apply over_rollback with s.
    - rewrite Hc. split; [by apply committed_rollbacks|done]. }
  apply orb_false_iff in Eb as [Hok Hab]. apply negb_false_iff in Hok as ->.
  apply bool_decide_eq_false in Hab. assert (aborted p = None) as Ha.
  { destruct (aborted p); [by destruct Hab|done]. }
  destruct (ensure_transaction_can_commit db p s) as [s1 can] eqn:Ecan.
  apply (can_commit_spec S d) in Ecan as (E1 & _ & Hcan); [|done|done|by apply Hpg].
  rewrite Er in E1. destruct can; cbn [negb].
  2: { intros [= <- <-]. destruct Hcan as [Hc Hs1].
    destruct (resumed_rollback S d p e rs s1) as [Hr Hc']; try done. split; [congruence|done]. }
  destruct Hcan as [C1 Hpg1].
  assert (log_commit s1 = s1) as -> by (unfold log_commit; by rewrite E1).
  destruct (take_reply s1) as [s2 rep] eqn:Et. apply take_reply_eq in Et as (C2 & E2 & _).
  rewrite C1 in C2. rewrite E1 in E2. rewrite C2.
  destruct (commit_request rep (conn s)) as [c []] eqn:Ecm;
    apply (commit_request_spec S d s p) in Ecm as (Hcc & Hcm); try done; intros [= <- <-].
  - destruct Hcm as (-> & Hl & Hp & Hs). unfold replay, on_record. cbn. rewrite E2.
    destruct (replay_owing p (set_records (set_conn s2 (release_one (conn s))) (push_undo (undo p) e :: rs))
      (push_undo (undo p) e) rs eq_refl) as (C3 & e' & E3 & Hm & Ho).
    cbn in C3. rewrite C3. split; [done|]. split_and!; [done|done|done|].
    destruct Hm as (Ha' & Hd' & Hs' & Hdep' & Hu' & Ho').
    exists e'. cbn in *. split_and!; try done; [|by rewrite C3].
    split; rewrite ?C3; cbn; rewrite ?Hs, ?Hp; try done; congruence.
  - set (s3 := set_conn s2 (rollback_one c)).
    destruct (replay_owing p s3 e rs) as (C3 & e1 & E3 & Hm & _); [done|].
    assert (conn s3 = rollback_one (conn s) ∨ conn s3 = hang_up (conn s)) as Hc3.
    { cbn. destruct Hcm as [-> | ->]; [by left|by right]. }
    pose proof Hm as (Ha1 & Hd1 & _).
    destruct (resumed_rollback S d p e1 rs (replay_invalidations p s3)) as [Hr Hc']; try congruence.
    + by apply (over_rollback S d s p); [|rewrite C3].
    + rewrite Hc', C3. split; [by apply committed_rollbacks|]. by eapply resumed_more.
Qed.

Lemma end_cancelled_nested S d (p e : PendingInvalidations U) rs s ok0 sent took extra :
  records s = e :: rs → aborted e = None → deferred p = 0 → S ≠ [] → over S d s p →
  committed (conn (end_cancelled p ok0 sent took extra s)) = committed (conn s)
  ∧ resumed S d e rs (end_cancelled p ok0 sent took extra s).
Proof.
  intros Er He Hdp HS Hov. unfold end_cancelled.
  set (commits := sent && ok0 && negb (bool_decide (is_Some (aborted p)))).
  assert ((if commits then log_commit s else s) = s) as ->.
  { unfold log_commit. rewrite Er. by destruct commits. }
  set (c1 := if took && commits && negb (pg_failed (conn s) || lost (conn s))
             then release_one (conn s) else rollback_one (conn s)).
  assert (committed c1 = committed (conn s)
    ∧ (lk = false → length (saves c1) ≤ length S)) as [Hc1 Hl1].
  { assert (lk = false → length (saves (conn s)) ≤ Datatypes.S (length S)) as Hlen.
    { destruct Hov as [(_ & _ & ->)|[_ ?]]; [cbn; lia|done]. }
    unfold c1. destruct (took && commits && _) eqn:Et.
    - apply andb_true_iff in Et as [[_ Hcm]%andb_true_iff Hnl]. apply negb_true_iff, orb_false_iff in Hnl as [_ Hl].
      unfold commits in Hcm. apply andb_true_iff in Hcm as [_ Hab]. apply negb_true_iff, bool_decide_eq_false in Hab.
      destruct Hov as [(_ & _ & Hs)|[[?|(a & Ha & _)] _]]; [|congruence|by destruct Hab; eexists].
      split; [|cbn; rewrite Hs; cbn; lia].
      destruct S as [|d2 S2]; [done|]. by eapply committed_release_one.
    - rewrite committed_rollback_one. split; [done|]. intros Hk. specialize (Hlen Hk).
      rewrite rollback_one_saves. lia. }
  set (c2 := if extra then rollback_one c1 else c1).
  assert (committed c2 = committed (conn s) ∧ (lk = false → length (saves c2) ≤ length S)) as [Hc2 Hl2].
  { unfold c2. destruct extra; [|done]. rewrite committed_rollback_one, rollback_one_saves.
    split; [done|]. intros Hk. specialize (Hl1 Hk). lia. }
  set (s2 := if commits then replay_invalidations p (set_conn s c2) else set_conn s c2).
  assert (conn s2 = c2 ∧ ∃ e1, records s2 = e1 :: rs ∧ owing_more e e1) as (C2 & e1 & E2 & Hm).
  { unfold s2. destruct commits.
    - destruct (replay_owing p (set_conn s c2) e rs Er) as (? & e1 & ? & ? & _). eauto.
    - split; [done|]. exists e. done. }
  set (s3 := on_record (abort Savepoint) s2).
  assert (records s3 = abort Savepoint e1 :: rs ∧ conn s3 = c2) as [E3 C3].
  { unfold s3, on_record. rewrite E2. done. }
  destruct (drop_record_free p s3 (abort Savepoint e1) rs E3) as [E4 C4]. rewrite Hdp in C4. cbn in C4.
  rewrite C4, C3. split; [done|]. apply resumed_more with e1; [done|].
  exists (handed p (abort Savepoint e1)). pose proof (handed_books p (abort Savepoint e1)) as Hb.
  split; [done|]. split; [apply Hb|]. split; [apply Hb|]. split.
  { intros n Ho. eapply owes_books; [done|]. exact Ho. }
  right; right. split; [right|by rewrite C4, C3]. exists Savepoint. split; [|done].
  destruct Hm as (Ha1 & _). unfold handed.
  destruct (aborted p) as [a|]; [destruct (ends_the_connection_transaction a)|]; cbn; by rewrite Ha1, He.
Qed.

(** The code of a nested scope returned. *)
Lemma finish_returned fate ok0 S d s (r e : PendingInvalidations U) rs s' ok :
  records s = r :: e :: rs → aborted e = None → deferred e = 0 → S ≠ [] →
  good (d :: S) s r ∨ held (d :: S) s r ∨ bad (length (d :: S)) s r →
  (is_leaks fate = true → lk = true) →
  finish db fate (Returned ok0) s = (s', ok) →
  committed (conn s') = committed (conn s)
  ∧ if ok then ok0 = true ∧ good (d :: S) s r ∧ resumed_after S r e rs s s'
    else resumed S d e rs s'.
Proof.
  intros Er He Hde HS Hst Hlk. unfold finish. rewrite Er. cbn [length Nat.eqb negb].
  set (s2 := set_conn _ _). set (p := set_deferred 0 r).
  assert (conn s2 = Nat.iter (deferred r) rollback_one (conn s)) as C2 by done.
  assert (records s2 = e :: rs) as E2 by done. clearbody s2.
  assert (over S d s2 p) as Hov.
  { unfold over, bad. rewrite C2, iter_rollback_lost, iter_rollback_saves.
    destruct Hst as [[Ha Hl Hs _ Hd0]|[(Ha & Hl & E & Hs & HE)|[Hb Hlen]]].
    - left. rewrite Hd0. by split_and!; [left| |].
    - left. split_and!; [by right|done|]. rewrite <- HE. by apply iter_rollback_prefix.
    - right. split; [done|]. intros Hk. specialize (Hlen Hk). cbn in Hlen. lia. }
  assert (committed (conn s2) = committed (conn s)) as Hc2 by (rewrite C2; by autorewrite with committed).
  assert (∀ s' ok, end_owned db p ok0 s2 = (s', ok) → committed (conn s') = committed (conn s)
    ∧ if ok then ok0 = true ∧ good (d :: S) s r ∧ resumed_after S r e rs s s'
      else resumed S d e rs s') as Hown.
  { clear s' ok. intros s' ok Ho. apply (end_owned_nested S d p e rs) in Ho as [Hc Ho]; try done.
    2: { rewrite C2, iter_rollback_lost. intros Ha Hl Hp.
      destruct Hst as [[_ _ _ Hpg Hd0]|[(Ha' & _)|[[Hl'|(a & Ha' & _)] _]]]; [|cbn in Ha; congruence..].
      rewrite Hd0 in Hp. by apply Hpg. }
    split; [congruence|]. destruct ok; [|done]. destruct Ho as (-> & Ha & Hl & Ho).
    rewrite C2, iter_rollback_lost in Hl. cbn in Ha.
    assert (good (d :: S) s r) as Hg.
    { destruct Hst as [?|[(? & _)|[[?|(a & ? & _)] _]]]; [done|congruence..]. }
    split_and!; [done|done|]. destruct Ho as (e' & H1 & H2 & H3 & H4 & H5 & H6 & H7).
    exists e'. split_and!; try done. by rewrite H7, C2, (good_deferred _ _ _ Hg). }
  destruct fate as [|took|sent took extra|]; try apply Hown.
  - intros [= <- <-]. rewrite <- Hc2. by apply (end_cancelled_nested S d p e rs s2 ok0 sent took extra).
  - intros [= <- <-]. cbn. unfold on_record. rewrite E2. cbn. split; [done|].
    exists (abort Leaked e). split_and!; try done. right; right.
    split; [right; exists Leaked; cbn; by rewrite He|]. rewrite (Hlk eq_refl). done.
Qed.

(** The code of a nested scope was dropped. *)
Lemma finish_dropped fate h S d s (r e : PendingInvalidations U) rs s' ok :
  records s = r :: e :: rs → aborted e = None → deferred e = 0 →
  good (d :: S) s r ∨ h = false ∧ (held (d :: S) s r ∨ bad (length (d :: S)) s r) →
  is_leaks fate = false →
  finish db fate (Dropped h) s = (s', ok) →
  committed (conn s') = committed (conn s) ∧ ok = false ∧ resumed S d e rs s'.
Proof.
  intros Er He Hde Hst Hnl. unfold finish. rewrite Er. cbn [length Nat.eqb negb].
  set (s1 := set_records s (e :: rs)). intros Hfin.
  assert (s' = drop_record h r (defer_or_drop h 1 s1) ∧ ok = false) as [-> ->].
  { destruct fate; try done; by injection Hfin as <- <-. }
  clear Hfin. destruct h.
  - destruct Hst as [[Ha Hl Hs Hpg Hd0]|[? _]]; [|done]. unfold drop_record, defer_or_drop, on_record.
    rewrite Ha, Hd0. cbn. split_and!; [done|done|]. eexists. split_and!; try done.
    right; left. unfold held. cbn. rewrite He, Hde. split_and!; [done|done|]. by exists [d].
  - set (s2 := set_conn s1 (rollback_one (conn s1))).
    assert (defer_or_drop false 1 s1 = s2) as -> by done.
    destruct (drop_record_free r s2 e rs eq_refl) as [E3 C3].
    assert (conn (drop_record false r s2) = Nat.iter (Datatypes.S (deferred r)) rollback_one (conn s)) as C4.
    { rewrite C3, Nat.iter_succ_r. done. }
    rewrite C4, committed_iter. split_and!; [done|done|].
    exists (handed r e). pose proof (handed_books r e) as Hb.
    split; [done|]. split; [apply Hb|]. split; [apply Hb|]. split; [by intros n; apply owes_books|].
    assert ((aborted r = None ∨ aborted r = Some Cancelled) ∧ lost (conn s) = false
      ∧ (∃ E, saves (conn s) = E ++ d :: S ∧ length E = deferred r)
      ∨ bad (Datatypes.S (length S)) s r) as [(Hab & Hl & E & Hs & HE)|[Hbad Hlen]].
    { destruct Hst as [[Ha Hl Hs _ Hd0]|[_ [(Ha & Hl & E & Hs & HE)|Hbad]]]; [left|left|by right].
      - split_and!; [by left|done|]. exists []. by rewrite Hd0.
      - split_and!; [by right|done|]. by exists E. }
    + left. assert (handed r e = e) as -> by (unfold handed; by destruct Hab as [-> | ->]).
      rewrite <- HE, (iter_rollback_to _ E d S Hs) in C4. rewrite C4. split; [|done].
      by split; rewrite ?C4.
    + right; right. split; rewrite C4, ?iter_rollback_lost.
      * destruct Hbad as [?|(a & Ha & Hends)]; [by left|]. right. exists a. split; [|done].
        unfold handed. rewrite Ha, Hends. cbn. by rewrite He.
      * intros Hk. specialize (Hlen Hk). rewrite iter_rollback_saves. lia.
Qed.

(** ** The code inside *)

Lemma run_drops (p : Prog D U) s s' h : run db p s = (s', Dropped h) → drops p = true.
Proof.
  revert s. induction p as [ok|h'|f k IH|n k IH|u k IH|fate body _ k IH]; intros s; cbn; try done.
  - destruct (execute db f s) as [s1 ok]. intros Hr. apply IH in Hr. destruct ok; rewrite Hr; [done|by rewrite orb_true_r].
  - apply IH.
  - apply IH.
  - destruct (begin db fate s) as [s1 []].
    + destruct (run db body s1) as [s2 o]. destruct (finish db fate o s2) as [s3 ok].
      intros Hr. apply IH in Hr. destruct ok; rewrite Hr; [done|by rewrite orb_true_r].
    + intros Hr. apply IH in Hr. by rewrite Hr, orb_true_r.
Qed.

Lemma stuck_marks S s r s' r' :
  conn s' = conn s → aborted r' = aborted r → deferred r' = deferred r →
  held S s r ∨ bad (length S) s r → held S s' r' ∨ bad (length S) s' r'.
Proof. unfold held, bad. by intros -> -> ->. Qed.

Lemma run_stuck (p : Prog D U) S s r rs s' o :
  orderly true p = true → records s = r :: rs → held S s r ∨ bad (length S) s r →
  run db p s = (s', o) →
  o ≠ Dropped true ∧ committed (conn s') = committed (conn s)
  ∧ ∃ r', records s' = r' :: rs ∧ (held S s' r' ∨ bad (length S) s' r').
Proof.
  revert s r. induction p as [ok|h|f k IH|n k IH|u k IH|fate body _ k IH]; intros s r Hor Er Hst; cbn in *.
  - intros [= <- <-]. eauto.
  - intros [= <- <-]. rewrite andb_true_r in Hor. apply negb_true_iff in Hor as ->. eauto.
  - apply andb_true_iff in Hor as [_ Hor]. destruct (execute db f s) as [s1 ok] eqn:Ex.
    apply (execute_stuck f S s r rs) in Ex as (-> & Hc & r1 & E1 & H1); [|done|done].
    intros Hr. apply (IH false s1 r1) in Hr as (? & ? & ?); [|done..]. rewrite <- Hc. done.
  - intros Hr. destruct (invalidate_owing n s r rs Er) as (Hc & r1 & E1 & (Ha & Hd & _) & _).
    rewrite <- Hc. apply (IH _ r1) in Hr; [done|done|done|]. by apply (stuck_marks S s r).
  - intros Hr. apply (IH _ (push_undo [u] r)) in Hr; [|done|by unfold undo_on_rollback, on_record; cbn; rewrite Er|].
    + replace (conn (undo_on_rollback s u)) with (conn s) in Hr; [done|].
      unfold undo_on_rollback, on_record. cbn. by rewrite Er.
    + apply (stuck_marks S s r); [|done..]. unfold undo_on_rollback, on_record. cbn. by rewrite Er.
  - apply andb_true_iff in Hor as [_ Hor]. destruct (begin db fate s) as [s1 ok] eqn:Ex.
    apply (begin_stuck fate S s r rs) in Ex as (-> & Hc & r1 & E1 & H1); [|done|done].
    intros Hr. apply (IH false s1 r1) in Hr as (? & ? & ?); [|done..]. rewrite <- Hc. done.
Qed.

(** What a run from [s] to [s'], in the transaction of record [r], amounts to: an
    effect of [p] with the transaction going on, or a transaction that is stuck. *)
Definition ran (p : Prog D U) S s r rs s' o : Prop :=
  committed (conn s') = committed (conn s)
  ∧ ∃ r', records s' = r' :: rs
    ∧ ((∃ ns us, good S s' r' ∧ Effect p (data (conn s)) (data (conn s')) ns us o
          ∧ undo r' = undo r ++ us ∧ (∀ n, owes r n → owes r' n) ∧ (∀ n, n ∈ ns → owes r' n))
       ∨ (held S s' r' ∨ bad (length S) s' r') ∧ o ≠ Dropped true).

Definition sound (p : Prog D U) : Prop :=
  ∀ failed S s r rs s' o,
  orderly failed p = true → (leaky p = true → lk = true) →
  records s = r :: rs → depth r = length S → S ≠ [] → good S s r →
  run db p s = (s', o) → ran p S s r rs s' o.

Lemma stuck_ran (p p' : Prog D U) S s r rs s1 r1 s' o :
  orderly true p' = true → committed (conn s1) = committed (conn s) →
  records s1 = r1 :: rs → held S s1 r1 ∨ bad (length S) s1 r1 →
  run db p' s1 = (s', o) → ran p S s r rs s' o.
Proof.
  intros Hor Hc E1 Hst Hr. apply (run_stuck p' S s1 r1 rs) in Hr as (Ho & Hc' & r2 & E2 & H2); try done.
  split; [congruence|]. exists r2. split; [done|]. by right.
Qed.

(** A prefix of the run, with the effect that takes [p'] to [p]. *)
Lemma ran_after (p p' : Prog D U) S s r rs s1 r1 s' o ns1 us1 :
  committed (conn s1) = committed (conn s) → undo r1 = undo r ++ us1 →
  (∀ n, owes r n → owes r1 n) → (∀ n, n ∈ ns1 → owes r1 n) →
  (∀ d' ns us, Effect p' (data (conn s1)) d' ns us o →
     Effect p (data (conn s)) d' (ns1 ++ ns) (us1 ++ us) o) →
  ran p' S s1 r1 rs s' o → ran p S s r rs s' o.
Proof.
  intros Hc Hu Ho Hn Heff (Hc' & r2 & E2 & H2). split; [congruence|]. exists r2. split; [done|].
  destruct H2 as [(ns & us & G2 & Eff & Hu2 & Ho2 & Hns)|?]; [left|by right].
  exists (ns1 ++ ns), (us1 ++ us). split_and!; [done|by apply Heff|by rewrite Hu2, Hu, app_assoc|auto|].
  intros n [?|?]%elem_of_app; auto.
Qed.

Lemma sound_execute f k : (∀ b, sound (k b)) → sound (Execute f k).
Proof.
  intros IH failed S s r rs s' o Hor Hlk Er Hd HS Hg. cbn in Hor, Hlk |- *.
  apply andb_true_iff in Hor as [Hor1 Hor2]. destruct (execute db f s) as [s1 ok] eqn:Ex.
  pose proof (execute_framed _ _ _ _ _ Ex) as Hfr.
  apply (execute_good f S s r rs) in Ex as (Hc & r1 & E1 & H1); [|done..].
  destruct (framed_head _ _ _ _ Hfr Er) as (r1' & E1' & Hb). rewrite E1 in E1'. injection E1' as <-.
  intros Hr. destruct H1 as [[Hg1 Hdat]|[-> Hbad]]; [|by eapply stuck_ran; eauto].
  apply (IH ok (if ok then failed else true) S s1 r1 rs) in Hr; try done.
  - pose proof Hb as (_&_&_&Hu&_). eapply (ran_after _ _ _ _ _ _ _ _ _ _ [] []); [done|by rewrite app_nil_r| | | |done].
    + intros n. by apply owes_books.
    + by intros n ?%elem_of_nil.
    + intros d' ns us. rewrite Hdat. by apply EffExecute.
  - by destruct ok.
  - intros Hl. apply Hlk. destruct ok; rewrite Hl, ?orb_true_r; done.
  - destruct Hb as (_&_&_&_&->). done.
Qed.

Lemma sound_invalidate n k : sound k → sound (Invalidate n k).
Proof.
  intros IH failed S s r rs s' o Hor Hlk Er Hd HS Hg Hr. cbn in Hor, Hlk, Hr.
  destruct (invalidate_owing n s r rs Er) as (Hc & r1 & E1 & (Ha & Hdf & Hsf & Hdp & Hu1 & Ho1) & Hn1).
  apply (IH failed S _ r1 rs) in Hr; try done; [|congruence|].
  - eapply (ran_after _ _ _ _ _ _ _ _ _ _ [lowercased n] []); [by rewrite Hc|by rewrite app_nil_r|done| | |done].
    + by intros m ->%list_elem_of_singleton.
    + intros d' ns us. rewrite Hc. by apply EffInvalidate.
  - destruct Hg. split; rewrite ?Hc; try done; try congruence. by rewrite Hsf.
Qed.

Lemma sound_on_rollback u k : sound k → sound (OnRollback u k).
Proof.
  intros IH failed S s r rs s' o Hor Hlk Er Hd HS Hg Hr. cbn in Hor, Hlk, Hr.
  assert (conn (undo_on_rollback s u) = conn s ∧ records (undo_on_rollback s u) = push_undo [u] r :: rs) as [Hc E1].
  { unfold undo_on_rollback, on_record. cbn. by rewrite Er. }
  apply (IH failed S _ (push_undo [u] r) rs) in Hr; try done.
  - eapply (ran_after _ _ _ _ _ _ _ (push_undo [u] r) _ _ [] [u]); [by rewrite Hc|done|done| | |done].
    + by intros n ?%elem_of_nil.
    + intros d' ns us. rewrite Hc. by apply EffOnRollback.
  - destruct Hg. split; by rewrite ?Hc.
Qed.

Lemma Effect_lowercased (p : Prog D U) d d' ns us o n : Effect p d d' ns us o → n ∈ ns → lowercased n = n.
Proof.
  induction 1 as [| | |m k d d' ns us o _ IH| |fate body k d d1 d' ns1 us1 ns us o _ IH1 _ IH2|]; try done.
  1,2: intros Hn; by apply elem_of_nil in Hn.
  - intros [->|?]%elem_of_cons; [|auto]. destruct m; try done. cbn. f_equal. apply to_ascii_lowercase_idemp.
  - intros [?|?]%elem_of_app; auto.
Qed.

(** After a nested scope that did not commit. *)
Lemma resumed_ran fate body k S s r rs s1 s' o :
  sound (k false) → orderly true (k false) = true → (leaky (k false) = true → lk = true) →
  depth r = length S → S ≠ [] → committed (conn s1) = committed (conn s) →
  resumed S (data (conn s)) r rs s1 → run db (k false) s1 = (s', o) →
  ran (Transaction fate body k) S s r rs s' o.
Proof.
  intros IH Hor Hlk Hd HS Hc (r1 & E1 & Hd1 & Hu1 & Ho1 & H1) Hr.
  destruct H1 as [[Hg1 Hdat]|Hst]; [|by eapply stuck_ran].
  apply (IH true S s1 r1 rs) in Hr; try done; [|congruence].
  eapply (ran_after _ _ _ _ _ _ _ _ _ _ [] []); [done|by rewrite app_nil_r|done| | |done].
  - by intros n ?%elem_of_nil.
  - intros d' ns us. rewrite Hdat. by apply EffFails.
Qed.

Lemma good_not_stuck S s r : good S s r → ¬ (held S s r ∨ bad (length S) s r).
Proof. intros [Ha Hl _ _ _] [(? & _)|[[?|(a & ? & _)] _]]; congruence. Qed.

Lemma sound_transaction fate body k : sound body → (∀ b, sound (k b)) → sound (Transaction fate body k).
Proof.
  intros IHb IH failed S s r rs s' o Hor Hlk Er Hd HS Hg. cbn in Hor, Hlk |- *.
  apply andb_true_iff in Hor as [[[Hnd Hob]%andb_true_iff Hok]%andb_true_iff Hof].
  destruct (begin db fate s) as [s1 b] eqn:Eb. apply (begin_good fate S s r rs) in Eb; [|done..].
  destruct b; [|destruct Eb as (Hc & _ & r1 & E1 & Hbad); intros Hr; by eapply stuck_ran; eauto].
  destruct Eb as (C1 & E1 & _ & G1).
  destruct (run db body s1) as [s2 o2] eqn:Hdrop.
  destruct (IHb false (data (conn s) :: S) s1 (PendingInvalidations_new (r :: rs)) (r :: rs) s2 o2) as (Hc2 & r2 & E2 & H2); try done.
  { intros Hl. apply Hlk. rewrite Hl, orb_true_r. done. }
  { cbn. rewrite Hd. lia. }
  rewrite C1, committed_open_one in Hc2. pose proof Hg as [Ha _ _ _ Hdf].
  assert (leaky (k false) = true → lk = true) as Hlkf.
  { intros Hl. apply Hlk. rewrite Hl, ?orb_true_r. done. }
  destruct (finish db fate o2 s2) as [s3 ok] eqn:Ef. destruct o2 as [ok0|h].
  - apply (finish_returned fate ok0 S (data (conn s)) s2 r2 r rs) in Ef as [Hc3 H3]; try done.
    2: { destruct H2 as [(? & ? & ? & _)|[? _]]; auto. }
    2: { intros Hl. apply Hlk. by rewrite Hl. }
    destruct ok; intros Hr; [|apply (resumed_ran fate body k S s r rs s3); [done..|congruence|done|done]].
    destruct H3 as (-> & Hg2 & r3 & E3 & Hd3 & Hu3 & Ho3 & Hob3 & Hg3 & Hdat3).
    destruct H2 as [(ns & us & _ & Eff & Hu2 & _ & Hns)|[Hst _]]; [|by destruct (good_not_stuck _ _ _ Hg2)].
    rewrite C1 in Eff. cbn in Eff, Hu2.
    apply (IH true failed S s3 r3 rs) in Hr; try done; [|intros Hl; apply Hlk; by rewrite Hl, ?orb_true_r|congruence].
    apply (ran_after _ (k true) S s r rs s3 r3 s' o ns us); [congruence|congruence|done| | |done].
    + intros n Hn. apply Hob3; [by eapply Effect_lowercased|auto].
    + intros d' ns' us'. rewrite Hdat3. by apply EffCommits.
  - assert (is_leaks fate = false) as Hnl.
    { apply run_drops in Hdrop. rewrite Hdrop, andb_true_r in Hnd. by apply negb_true_iff. }
    apply (finish_dropped fate h S (data (conn s)) s2 r2 r rs) in Ef as (Hc3 & -> & H3); try done.
    2: { destruct H2 as [(? & ? & ? & _)|[? Hh]]; [by left|right]. split; [by destruct h|done]. }
    intros Hr. apply (resumed_ran fate body k S s r rs s3); [done..|congruence|done|done].
Qed.

Lemma run_sound (p : Prog D U) : sound p.
Proof.
  induction p as [ok|h|f k IH|n k IH|u k IH|fate body IHb k IH].
  1,2: intros failed S s r rs s' o _ _ Er _ _ Hg [= <- <-]; (split; [done|]); exists r; (split; [done|]);
    left; exists [], []; rewrite app_nil_r; split_and!; try done;
    [constructor|by intros n ?%elem_of_nil].
  - by apply sound_execute.
  - by apply sound_invalidate.
  - by apply sound_on_rollback.
  - by apply sound_transaction.
Qed.

(** ** The end of a transaction *)

Lemma drop_record_top h r s :
  records s = [] →
  conn (drop_record h r s) = Nat.iter (deferred r) rollback_one (conn s)
  ∧ records (drop_record h r s) = [] ∧ trace (drop_record h r s) = trace s ++ (Undone <$> rev (undo r)).
Proof.
  intros E. unfold drop_record, on_record. cbn. rewrite E.
  assert (∀ s1, conn s1 = conn s → records s1 = [] → trace s1 = trace s ++ (Undone <$> rev (undo r)) →
    let s2 := if deferred r =? 0 then s1
      else match records s1 with
           | [] => set_conn s1 (Nat.iter (deferred r) rollback_one (conn s1))
           | _ => defer_or_drop h (deferred r) s1 end in
    conn s2 = Nat.iter (deferred r) rollback_one (conn s) ∧ records s2 = []
    ∧ trace s2 = trace s ++ (Undone <$> rev (undo r))) as Hk.
  { intros s1 C1 E1 T1. cbn. rewrite E1. destruct (deferred r) as [|n]; cbn -[Nat.iter]; by rewrite ?C1. }
  destruct (aborted r) as [a|]; [destruct (ends_the_connection_transaction a)|]; apply Hk; done.
Qed.

Lemma replay_top (p : PendingInvalidations U) s :
  records s = [] →
  conn (replay_invalidations p s) = conn s ∧ records (replay_invalidations p s) = []
  ∧ trace (replay_invalidations p s) = trace s ++ ((Invalidated ∘ lowercased) <$> replay_notes p).
Proof.
  unfold replay_invalidations. generalize (replay_notes p). intros ns. revert s.
  induction ns as [|n ns IH]; intros s E; cbn [foldl].
  { cbn. by rewrite app_nil_r. }
  assert (conn (invalidate s n) = conn s ∧ records (invalidate s n) = []
    ∧ trace (invalidate s n) = trace s ++ [Invalidated (lowercased n)]) as (C1 & E1 & T1).
  { unfold invalidate, on_record. cbn. by rewrite E. }
  destruct (IH _ E1) as (-> & -> & ->). rewrite T1, <- app_assoc. done.
Qed.

(** The events repeat the note [n]. *)
Definition repeats (t : list (Event U)) (n : Note) : Prop :=
  Invalidated n ∈ t ∨ Invalidated NoteAll ∈ t.

Lemma replay_repeats (p : PendingInvalidations U) n :
  lowercased n = n → owes p n → repeats ((Invalidated ∘ lowercased) <$> replay_notes p) n.
Proof.
  intros Hn Hp. unfold replay_notes. destruct (all p) eqn:Ea; [right; by left|].
  left. destruct Hp as [?|Hp]; [congruence|]. apply list_elem_of_fmap. exists n. split; [cbn; by rewrite Hn|].
  apply elem_of_app. destruct n as [t| |d]; [right|done|left]; cbn in Hp.
  - apply list_elem_of_fmap. exists t. split; [done|]. by apply elem_of_elements.
  - apply list_elem_of_fmap. exists d. split; [done|]. by apply elem_of_elements.
Qed.

(** How a transaction with rows [d] at its end ends: nothing is committed, or [d]
    is, and the invalidations it owes follow the commit. *)
Definition ended d c0 (p : PendingInvalidations U) (t0 : list (Event U)) s' (ok : bool) : Prop :=
  (lk = false → saves (conn s') = [])
  ∧ (ok = false ∧ committed (conn s') = committed c0
     ∨ committed (conn s') = d ∧ (ok = true → saves (conn s') = [])
       ∧ ∃ t, trace s' = t0 ++ CommitSent :: t
         ∧ (∀ n, lowercased n = n → owes p n → repeats t n)).

Lemma over_empty d s r :
  (aborted r = None ∨ aborted r = Some Cancelled) ∧ lost (conn s) = false
    ∧ saves (conn s) = [] ∧ data (conn s) = d ∧ pg_failed (conn s) = false
  ∨ bad 0 s r → lk = false → saves (conn s) = [].
Proof.
  intros [(_&_&?&_)|[_ Hlen]] Hk; [done|]. specialize (Hlen Hk). by destruct (saves (conn s)); [|cbn in Hlen; lia].
Qed.

Lemma commit_request_top d0 (p : PendingInvalidations U) s rep c b :
  aborted p = None → over [] d0 s p → (lost (conn s) = false → pg_failed (conn s) = false) →
  commit_request rep (conn s) = (c, b) →
  if b then c = release_one (conn s) ∧ lost (conn s) = false ∧ saves (conn s) = [d0]
  else c = conn s ∨ c = hang_up (conn s)
    ∨ c = hang_up (release_one (conn s)) ∧ lost (conn s) = false ∧ saves (conn s) = [d0].
Proof.
  intros Ha Hov Hpg. unfold commit_request.
  destruct (lost (conn s)) eqn:El; [intros [= <- <-]; by auto|]. rewrite (Hpg eq_refl).
  destruct Hov as [(_ & _ & Hs)|[[?|(a & ? & _)] _]]; [|congruence|congruence].
  destruct rep as [| | | |[]]; intros [= <- <-]; try (by auto). rewrite Hs. cbn. auto.
Qed.

Lemma end_owned_top d0 (p : PendingInvalidations U) s s' ok0 ok :
  records s = [] → deferred p = 0 → over [] d0 s p →
  (aborted p = None → lost (conn s) = false → pg_failed (conn s) = true →
     db = Postgres ∧ statement_failed p = true) →
  end_owned db p ok0 s = (s', ok) →
  ended (data (conn s)) (conn s) p (trace s) s' ok
  ∧ (committed (conn s') = committed (conn s) ∧ ok = false
     ∨ ok0 = true ∧ aborted p = None ∧ lost (conn s) = false).
Proof.
  intros Er Hdp Hov Hpg. unfold end_owned.
  destruct (negb ok0 || bool_decide (is_Some (aborted p))) eqn:Eb.
  { intros [= <- <-]. destruct (rollback_conn s) as [E1 C1]. rewrite Er in E1.
    destruct (drop_record_top false p (rollback s) E1) as (C2 & _ & _). rewrite Hdp in C2. cbn in C2.
    assert (committed (conn (drop_record false p (rollback s))) = committed (conn s)) as Hc.
    { rewrite C2. by apply committed_rollbacks. }
    split; [|by left]. split; [|left; done]. rewrite C2. eapply (over_empty d0 _ p).
    by apply (over_rollback [] d0 s). }
  apply orb_false_iff in Eb as [Hok Hab]. apply negb_false_iff in Hok as ->.
  apply bool_decide_eq_false in Hab. assert (aborted p = None) as Ha.
  { destruct (aborted p); [by destruct Hab|done]. }
  destruct (ensure_transaction_can_commit db p s) as [s1 can] eqn:Ecan.
  apply (can_commit_spec [] d0) in Ecan as (E1 & T1 & Hcan); [|done|done|by apply Hpg].
  rewrite Er in E1. destruct can; cbn [negb].
  2: { intros [= <- <-]. destruct Hcan as [Hc Hs1].
    destruct (drop_record_top false p s1 E1) as (C2 & _ & _). rewrite Hdp in C2. cbn in C2.
    rewrite <- C2 in Hc. split; [|by left]. split; [|by left]. rewrite C2. by apply (over_empty d0 s1 p). }
  destruct Hcan as [C1 Hpg1]. unfold log_commit. rewrite E1.
  destruct (take_reply _) as [s2 rep] eqn:Et. apply take_reply_eq in Et as (C2 & E2 & T2 & _).
  cbn in C2, E2, T2. rewrite C1 in C2. rewrite E1 in E2. rewrite T1 in T2. rewrite C2.
  destruct (commit_request rep (conn s)) as [c []] eqn:Ecm;
    apply (commit_request_top d0 p s) in Ecm; try done; intros [= <- <-].
  - destruct Ecm as (-> & Hl & Hs). unfold replay, on_record. cbn. rewrite E2.
    destruct (replay_top p (set_conn s2 (release_one (conn s))) E2) as (C3 & _ & T3). cbn in C3, T3.
    assert (saves (conn s2) = [d0]) as Hs2 by congruence.
    split; [|by right]. unfold ended. rewrite C3, T3, T2. cbn. rewrite Hs. cbn. split; [done|]. right.
    split_and!; [done|done|]. eexists. split; [by rewrite <- app_assoc|]. by apply replay_repeats.
  - set (s3 := set_conn s2 (rollback_one c)).
    destruct (replay_top p s3 E2) as (C4 & E4 & T4).
    destruct (drop_record_top false p _ E4) as (C5 & _ & T5). rewrite Hdp in C5. cbn in C5.
    rewrite C4 in C5. rewrite T4 in T5. cbn in C5, T5. rewrite T2 in T5.
    destruct Ecm as [Hc|[Hc|(Hc & Hl & Hs)]].
    3: { split; [|by right]. unfold ended. rewrite C5, T5, Hc. cbn. rewrite Hs. cbn. split; [done|]. right.
      split_and!; [done|done|]. eexists. split; [by rewrite <- !app_assoc|].
      intros n Hn Ho. destruct (replay_repeats p n Hn Ho); [left|right]; apply elem_of_app; by left. }
    all: assert (rollback_one c = rollback_one (conn s) ∨ rollback_one c = hang_up (conn s)) as Hc'
      by (rewrite Hc; auto).
    all: split; [|left; rewrite C5; split; [by apply committed_rollbacks|done]].
    all: split; [rewrite C5|left; rewrite C5; split; [done|by apply committed_rollbacks]].
    all: apply (over_empty d0 s3 p), (over_rollback [] d0 s p s3); done.
Qed.

Lemma end_cancelled_top d0 (p : PendingInvalidations U) s ok0 sent took extra :
  records s = [] → deferred p = 0 → over [] d0 s p →
  let s' := end_cancelled p ok0 sent took extra s in
  ended (data (conn s)) (conn s) p (trace s) s' false
  ∧ (committed (conn s') = committed (conn s)
     ∨ ok0 = true ∧ aborted p = None ∧ lost (conn s) = false).
Proof.
  intros Er Hdp Hov. cbv zeta. unfold end_cancelled.
  set (commits := sent && ok0 && negb (bool_decide (is_Some (aborted p)))).
  set (s1 := if commits then log_commit s else s).
  assert (conn s1 = conn s ∧ records s1 = []
    ∧ trace s1 = trace s ++ (if commits then [CommitSent] else [])) as (C1 & E1 & T1).
  { unfold s1, log_commit. rewrite Er. destruct commits; cbn; by rewrite ?app_nil_r. }
  clearbody s1. rewrite C1. set (releases := took && commits && negb (pg_failed (conn s) || lost (conn s))).
  set (c1 := if releases then release_one (conn s) else rollback_one (conn s)).
  set (c2 := if extra then rollback_one c1 else c1).
  assert (if releases
    then commits = true ∧ ok0 = true ∧ aborted p = None ∧ lost (conn s) = false
      ∧ saves c2 = [] ∧ committed c2 = data (conn s)
    else committed c2 = committed (conn s) ∧ (lk = false → saves c2 = [])) as Hc2.
  { unfold c2, c1. destruct releases eqn:Erel.
    - apply andb_true_iff in Erel as [[_ Hcm]%andb_true_iff Hnl].
      apply negb_true_iff, orb_false_iff in Hnl as [_ Hl]. pose proof Hcm as Hcm'. unfold commits in Hcm.
      apply andb_true_iff in Hcm as [[_ ->]%andb_true_iff Hab].
      apply negb_true_iff, bool_decide_eq_false in Hab.
      destruct Hov as [(_ & _ & Hs)|[[?|(a & Ha & _)] _]]; [|congruence|by destruct Hab; eexists].
      assert (aborted p = None) as Ha by (destruct (aborted p); [by destruct Hab|done]).
      assert ((if extra then rollback_one (release_one (conn s)) else release_one (conn s))
        = release_one (conn s)) as ->.
      { destruct extra; [|done]. unfold rollback_one. cbn. by rewrite Hs. }
      split_and!; try done; [cbn; by rewrite Hs|]. unfold committed. cbn. by rewrite Hs.
    - assert (lk = false → saves (rollback_one (conn s)) = []) as Hlen.
      { apply (over_empty d0 (set_conn s (rollback_one (conn s))) p). apply (over_rollback [] d0 s p); auto. }
      destruct extra; autorewrite with committed; (split; [done|]); [|done].
      intros Hk. unfold rollback_one at 1. by rewrite (Hlen Hk), Hlen. }
  set (s2 := if commits then replay_invalidations p (set_conn s1 c2) else set_conn s1 c2).
  assert (conn s2 = c2 ∧ records s2 = []
    ∧ trace s2 = trace s1 ++ (if commits then (Invalidated ∘ lowercased) <$> replay_notes p else []))
    as (C2 & E2 & T2).
  { unfold s2. destruct commits.
    - destruct (replay_top p (set_conn s1 c2) E1) as (-> & -> & ->). done.
    - cbn. by rewrite app_nil_r. }
  assert (on_record (abort Savepoint) s2 = s2) as -> by (unfold on_record; by rewrite E2).
  destruct (drop_record_top false p s2 E2) as (C3 & _ & T3). rewrite Hdp in C3. cbn in C3.
  unfold ended. rewrite C3, C2, T3, T2, T1. destruct releases.
  - destruct Hc2 as (Hcm & Hok & Ha & Hl & Hs & Hc). rewrite Hcm.
    split; [|by right]. split; [done|]. right. split_and!; [done|done|].
    eexists. split; [by rewrite <- !app_assoc|].
    intros n Hn Ho. destruct (replay_repeats p n Hn Ho); [left|right]; apply elem_of_app; by left.
  - destruct Hc2 as [Hc Hs]. split; [|by left]. split; [done|]. by left.
Qed.

Lemma end_leaked_committed nested s :
  committed (conn (end_leaked_transaction db nested s)) = committed (conn s).
Proof.
  unfold end_leaked_transaction. destruct (negb _); [done|].
  destruct (take_reply s) as [s1 rep] eqn:Et. apply take_reply_eq in Et as (C1 & _).
  rewrite <- C1. destruct rep, (lost (conn s1)); try done; cbn.
  destruct (take_reply _) as [s2 rep2] eqn:Et2. apply take_reply_eq in Et2 as (C2 & _). cbn in C2.
  destruct (request _ _ _ _) as [c [u|dl]] eqn:Eq; cbn.
  - apply request_Ok in Eq as (-> & _). rewrite C2, committed_open_one. done.
  - apply request_Err in Eq as (-> & _). rewrite C2. done.
Qed.

Lemma finish_top_returned fate ok0 d0 s r s' ok :
  records s = [r] → good [d0] s r ∨ held [d0] s r ∨ bad 1 s r →
  (is_leaks fate = true → lk = true) →
  finish db fate (Returned ok0) s = (s', ok) →
  ended (data (conn s)) (conn s) r (trace s) s' ok
  ∧ (committed (conn s') = committed (conn s) ∧ ok = false ∨ ok0 = true ∧ good [d0] s r).
Proof.
  intros Er Hst Hlk. unfold finish. rewrite Er. cbn [length Nat.eqb negb].
  set (s2 := set_conn _ _). set (p := set_deferred 0 r).
  assert (conn s2 = Nat.iter (deferred r) rollback_one (conn s)) as C2 by done.
  assert (records s2 = [] ∧ trace s2 = trace s) as [E2 T2] by done. clearbody s2.
  assert (committed (conn s2) = committed (conn s)) as Hc2 by (rewrite C2; by autorewrite with committed).
  assert (over [] d0 s2 p) as Hov.
  { unfold over, bad. rewrite C2, iter_rollback_lost, iter_rollback_saves.
    destruct Hst as [[Ha Hl Hs _ Hd0]|[(Ha & Hl & E & Hs & HE)|[Hb Hlen]]].
    - left. rewrite Hd0. by split_and!; [left| |].
    - left. split_and!; [by right|done|]. rewrite <- HE. by apply iter_rollback_prefix.
    - right. split; [done|]. intros Hk. specialize (Hlen Hk). lia. }
  assert (aborted p = None → lost (conn s2) = false → good [d0] s r) as Hgood.
  { rewrite C2, iter_rollback_lost. intros Ha Hl. cbn in Ha.
    destruct Hst as [?|[(? & _)|[[?|(a & ? & _)] _]]]; [done|congruence..]. }
  assert (∀ s' ok, ended (data (conn s2)) (conn s2) p (trace s2) s' ok →
    committed (conn s') = committed (conn s2) ∧ ok = false
      ∨ ok0 = true ∧ aborted p = None ∧ lost (conn s2) = false →
    ended (data (conn s)) (conn s) r (trace s) s' ok
    ∧ (committed (conn s') = committed (conn s) ∧ ok = false ∨ ok0 = true ∧ good [d0] s r)) as Hk.
  { clear s' ok. intros s' ok Hend [[Hc ->]|(-> & Ha & Hl)].
    - destruct Hend as [Hs _]. rewrite Hc2 in Hc. split; [split; [done|by left]|by left].
    - pose proof (Hgood Ha Hl) as Hg. split; [|by right]. rewrite (good_deferred _ _ _ Hg) in C2. cbn in C2.
      rewrite C2, T2 in Hend. exact Hend. }
  assert (∀ s' ok, end_owned db p ok0 s2 = (s', ok) →
    ended (data (conn s)) (conn s) r (trace s) s' ok
    ∧ (committed (conn s') = committed (conn s) ∧ ok = false ∨ ok0 = true ∧ good [d0] s r)) as Hown.
  { clear s' ok. intros s' ok Ho. apply (end_owned_top d0 p) in Ho as [? ?]; try done; [by apply Hk|].
    intros Ha Hl Hp. pose proof (Hgood Ha Hl) as Hg.
    rewrite C2, (good_deferred _ _ _ Hg) in Hp. by apply (good_failed _ _ _ Hg). }
  destruct fate as [|took|sent took extra|]; try apply Hown.
  - intros [= <- <-]. destruct (end_cancelled_top d0 p s2 ok0 sent took extra) as [H1 H2]; try done.
    apply Hk; [done|]. destruct H2; [by left|by right].
  - intros [= <- <-]. unfold on_record. cbn.
    assert (∀ s3 : State D U, conn s3 = conn (end_leaked_transaction db false s2) →
      ended (data (conn s)) (conn s) r (trace s) (stray s3 p) false
      ∧ (committed (conn (stray s3 p)) = committed (conn s) ∧ false = false ∨ ok0 = true ∧ good [d0] s r)) as Hl.
    { intros s3 C3. unfold ended. cbn. rewrite C3, end_leaked_committed, Hc2, (Hlk eq_refl).
      split; [split; [done|by left]|by left]. }
    by destruct (records (end_leaked_transaction db false s2)); apply Hl.
Qed.

Lemma finish_top_dropped fate h d0 s r s' ok :
  records s = [r] → good [d0] s r ∨ held [d0] s r ∨ bad 1 s r →
  (is_leaks fate = true → lk = true) →
  finish db fate (Dropped h) s = (s', ok) →
  ended (data (conn s)) (conn s) r (trace s) s' ok ∧ committed (conn s') = committed (conn s) ∧ ok = false.
Proof.
  intros Er Hst Hlk. unfold finish. rewrite Er. cbn [length Nat.eqb negb].
  assert (fate = Leaks ∨ fate ≠ Leaks) as [->|Hnl] by (destruct fate; auto).
  { intros [= <- <-].
    assert (∀ s1 : State D U, conn s1 = conn s → ended (data (conn s)) (conn s) r (trace s) (stray s1 r) false
      ∧ committed (conn (stray s1 r)) = committed (conn s) ∧ false = false) as Hk.
    { intros s1 C1. unfold ended. cbn. rewrite C1, (Hlk eq_refl). split; [split; [done|by left]|done]. }
    by destruct h; apply Hk. }
  set (s1 := set_records s []). intros Hfin.
  assert (s' = drop_record h r (set_conn s1 (rollback_one (conn s1))) ∧ ok = false) as [-> ->].
  { destruct fate; try done; by injection Hfin as <- <-. }
  destruct (drop_record_top h r (set_conn s1 (rollback_one (conn s1))) eq_refl) as (C2 & _ & _).
  assert (committed (conn (drop_record h r (set_conn s1 (rollback_one (conn s1))))) = committed (conn s)) as Hc.
  { rewrite C2. cbn -[Nat.iter]. by autorewrite with committed. }
  split; [|done]. split; [|by left]. intros Hk. apply length_zero_iff_nil.
  rewrite C2, iter_rollback_saves. cbn. rewrite rollback_one_saves.
  destruct Hst as [[_ _ -> _ _]|[(_ & _ & E & -> & HE)|[_ Hlen]]].
  - cbn. lia.
  - lengths.
  - specialize (Hlen Hk). lia.
Qed.
End levels.


(** ** Undo steps *)

Section undo.
Context {D U : Type} (db : DatabaseType).
Implicit Types (s : State D U) (r : PendingInvalidations U).

Definition registered (t : list (Event U)) : list U :=
  omap (λ e, match e with Registered u => Some u | _ => None end) t.

Definition undone (t : list (Event U)) : list U :=
  omap (λ e, match e with Undone u => Some u | _ => None end) t.

(** From [s] to [s'] the steps [us] are undone and none is registered; the records
    keep theirs. *)
Definition undoes (us : list U) s s' : Prop :=
  undo <$> records s' = undo <$> records s
  ∧ ∃ t, trace s' = trace s ++ t ∧ registered t = [] ∧ undone t = us.

Lemma undoes_refl s : undoes [] s s.
Proof. split; [done|]. exists []. by rewrite app_nil_r. Qed.

Lemma undoes_trans us1 us2 s1 s2 s3 :
  undoes us1 s1 s2 → undoes us2 s2 s3 → undoes (us1 ++ us2) s1 s3.
Proof.
  intros [E1 (t1 & T1 & R1 & U1)] [E2 (t2 & T2 & R2 & U2)]. split; [congruence|]. exists (t1 ++ t2).
  unfold registered, undone in *. rewrite T2, T1, !omap_app, R1, R2, U1, U2, app_assoc. done.
Qed.

Lemma undoes_same s s' : records s' = records s → trace s' = trace s → undoes [] s s'.
Proof. intros E T. split; [by rewrite E|]. exists []. by rewrite T, app_nil_r. Qed.

Lemma undoes_on_record g s : (∀ r, undo (g r) = undo r) → undoes [] s (on_record g s).
Proof.
  intros Hg. unfold on_record. destruct (records s) as [|r rs] eqn:E; [by apply undoes_same|].
  split; [rewrite E; cbn; by rewrite Hg|]. exists []. by rewrite app_nil_r.
Qed.

Lemma framed_undoes s s' : framed s s' → undoes [] s s'.
Proof.
  intros (T & _ & H). split; [|exists []; by rewrite T, app_nil_r].
  destruct (records s), (records s'); try done. destruct H as [-> (_&_&_&Hu&_)]. cbn. by rewrite Hu.
Qed.

Lemma take_reply_undoes s s' rep : take_reply s = (s', rep) → undoes [] s s'.
Proof. intros (_ & E & T & _)%take_reply_eq. by apply undoes_same. Qed.

Lemma replay_undoes p s : undoes [] s (replay_invalidations p s).
Proof.
  unfold replay_invalidations. generalize (replay_notes p). intros ns. revert s.
  induction ns as [|n ns IH]; intros s; [apply undoes_refl|]. cbn [foldl].
  apply (undoes_trans [] [] _ (invalidate s n)); [|apply IH].
  apply (undoes_trans [] [] _ (log s [Invalidated (lowercased n)])); [|by apply undoes_on_record].
  split; [done|]. eexists. done.
Qed.

#[local] Hint Resolve undoes_refl undoes_same undoes_on_record replay_undoes : tide.

Lemma drop_record_undoes h r s : undoes (rev (undo r)) s (drop_record h r s).
Proof.
  unfold drop_record. set (s1 := log s _).
  assert (undoes (rev (undo r)) s s1) as H1.
  { split; [done|]. eexists. split; [done|]. unfold registered, undone.
    induction (rev (undo r)) as [|u us [IH1 IH2]]; [done|]. cbn in *. split; [done|]. by rewrite IH2. }
  set (s2 := match aborted r with Some a => _ | None => _ end).
  assert (undoes [] s1 s2) as H2.
  { unfold s2. destruct (aborted r) as [a|]; [|auto with tide].
    destruct (ends_the_connection_transaction a); [by auto with tide|auto with tide]. }
  rewrite <- (app_nil_r (rev (undo r))). eapply undoes_trans; [|].
  - rewrite <- (app_nil_r (rev (undo r))). eapply undoes_trans; [exact H1|exact H2].
  - destruct (deferred r =? 0); [auto with tide|]. destruct (records s2) eqn:E2; [by auto with tide|].
    unfold defer_or_drop. destruct h; [by auto with tide|by auto with tide].
Qed.

Lemma undoes_then us s1 s2 s3 : undoes [] s1 s2 → undoes us s2 s3 → undoes us s1 s3.
Proof. intros H1 H2. by apply (undoes_trans [] us s1 s2 s3). Qed.

(** Undo steps of a scope that ends: handed on, or run. *)
Definition settles r rs s s' (ok : bool) : Prop :=
  if ok then
    match rs with [] => records s' = [] | e :: rs' => undo <$> records s' = (undo e ++ undo r) :: (undo <$> rs') end
    ∧ ∃ t, trace s' = trace s ++ t ∧ registered t = [] ∧ undone t = []
  else undo <$> records s' = undo <$> rs
    ∧ ∃ t, trace s' = trace s ++ t ∧ registered t = [] ∧ undone t = rev (undo r).

Lemma settles_drop r rs s s1 s2 h :
  undoes [] (set_records s rs) s1 → s2 = drop_record h r s1 → settles r rs s s2 false.
Proof. intros H1 ->. exact (undoes_then _ _ _ _ H1 (drop_record_undoes h r s1)). Qed.

Lemma end_owned_settles p rs s s' ok0 ok :
  end_owned db p ok0 (set_records s rs) = (s', ok) → settles p rs s s' ok.
Proof.
  set (s0 := set_records s rs). unfold end_owned.
  destruct (negb ok0 || _).
  { intros [= <- <-]. eapply settles_drop; [|done]. unfold rollback.
    destruct (take_reply s0) as [s1 rep] eqn:Et. apply take_reply_undoes in Et.
    eapply undoes_then; [exact Et|by auto with tide]. }
  destruct (ensure_transaction_can_commit db p s0) as [s1 can] eqn:Ecan.
  assert (undoes [] s0 s1) as H1.
  { unfold ensure_transaction_can_commit in Ecan. destruct (_ && _); [|injection Ecan as <- _; auto with tide].
    destruct (take_reply s0) as [s2 rep] eqn:Et. apply take_reply_undoes in Et.
    eapply undoes_then; [exact Et|]. destruct (request _ _ _ _) as [c [|]]; injection Ecan as <- _; by auto with tide. }
  destruct can; cbn; [|intros [= <- <-]; by eapply settles_drop].
  assert (undoes [] s0 (log_commit s1)) as H2.
  { eapply undoes_then; [exact H1|]. unfold log_commit. destruct (records s1) eqn:E; [|auto with tide].
    split; [done|]. eexists. done. }
  destruct (take_reply (log_commit s1)) as [s3 rep] eqn:Et. apply take_reply_undoes in Et.
  destruct (commit_request rep (conn s3)) as [c []]; intros [= <- <-].
  - set (s4 := on_record (push_undo (undo p)) (set_conn s3 c)).
    assert (undoes [] s0 (set_conn s3 c)) as [E3 (t & T3 & R3 & U3)].
    { eapply undoes_then; [exact H2|]. eapply undoes_then; [exact Et|by auto with tide]. }
    destruct (replay_undoes p s4) as [E5 (t' & T5 & R5 & U5)]. unfold replay. fold s4. split.
    + cbn in E3. assert (undo <$> records s4
        = match rs with [] => [] | e :: rs' => (undo e ++ undo p) :: (undo <$> rs') end) as E4.
      { unfold s4, on_record. cbn. destruct rs as [|e rs'], (records s3) as [|e3 rs3] eqn:Er3; try done.
        - cbn. by rewrite Er3.
        - cbn in E3 |- *. by injection E3 as -> ->. }
      rewrite E4 in E5. destruct rs; [by apply fmap_nil_inv in E5|done].
    + exists (t ++ t'). unfold registered, undone in *.
      assert (trace s4 = trace (set_conn s3 c)) as Ht4 by (unfold s4, on_record; by destruct (records _)).
      rewrite T5, Ht4, T3, !omap_app, R3, R5, U3, U5, app_assoc. done.
  - eapply settles_drop; [|done]. eapply undoes_then; [exact H2|]. eapply undoes_then; [exact Et|].
    eapply undoes_then; [|apply replay_undoes]. by auto with tide.
Qed.

Lemma finish_settles fate o r rs s s' ok :
  is_leaks fate = false → records s = r :: rs → finish db fate o s = (s', ok) → settles r rs s s' ok.
Proof.
  intros Hnl Er. unfold finish. rewrite Er. destruct o as [ok0|h].
  - set (c := Nat.iter _ _ _).
    assert (∀ s' ok, end_owned db (set_deferred 0 r) ok0 (set_conn (set_records s rs) c) = (s', ok) →
      settles r rs s s' ok) as Hown.
    { intros s1 ok1 Ho. exact (end_owned_settles (set_deferred 0 r) rs (set_conn s c) s1 ok0 ok1 Ho). }
    destruct fate as [|took|sent took extra|]; try done; try apply Hown.
    intros [= <- <-]. unfold end_cancelled. set (commits := _ && _ && _).
    set (s1 := if commits then log_commit _ else _).
    assert (undoes [] (set_records s rs) s1) as H1.
    { unfold s1. destruct commits; [|by auto with tide]. unfold log_commit. cbn.
      destruct rs; [|by auto with tide]. split; [done|]. exists [CommitSent]. done. }
    refine (settles_drop (set_deferred 0 r) rs s _ _ false _ eq_refl).
    eapply undoes_then; [exact H1|]. eapply undoes_then; [|by apply undoes_on_record].
    destruct commits; [|by auto with tide].
    eapply undoes_then; [|apply replay_undoes]. by auto with tide.
  - intros Hf. assert (∃ s1, undoes [] (set_records s rs) s1 ∧ s' = drop_record h r s1 ∧ ok = false) as (s1 & H1 & -> & ->).
    { exists (if negb (length rs =? 0) then defer_or_drop h 1 (set_records s rs)
        else set_conn (set_records s rs) (rollback_one (conn s))).
      split; [|destruct fate; try done; by injection Hf as <- <-].
      destruct (negb _); [|by auto with tide]. unfold defer_or_drop.
      destruct h; [by auto with tide|by auto with tide]. }
    by eapply settles_drop.
Qed.

Lemma begin_undoes fate s s' ok :
  begin db fate s = (s', ok) →
  if ok then undo <$> records s' = [] :: (undo <$> records s) ∧ trace s' = trace s
  else undoes [] s s'.
Proof.
  assert (∀ s1 c, undoes [] s s1 → undoes [] s (fail_savepoint (set_conn s1 c))) as Hfs.
  { intros s1 c H1. eapply undoes_then; [exact H1|]. unfold fail_savepoint.
    eapply undoes_then; [|by apply undoes_on_record]. by auto with tide. }
  unfold begin. destruct (records s) as [|r rs] eqn:Er.
  - destruct fate; try (intros [= <- <-]; auto with tide).
    all: destruct (take_reply s) as [s1 rep] eqn:Et; pose proof Et as Hu; apply take_reply_undoes in Hu;
      apply take_reply_eq in Et as (_ & E1 & T1 & _).
    all: destruct rep; intros [= <- <-]; try exact Hu; cbn; by rewrite E1, Er.
  - destruct (ensure_transaction_active s); [|intros [= <- <-]; auto with tide].
    destruct fate.
    2: { intros [= <- <-]. destruct (_ && _).
      - apply Hfs, undoes_refl.
      - apply (Hfs s (conn s)), undoes_refl. }
    all: destruct (take_reply s) as [s1 rep] eqn:Et; pose proof Et as Hu; apply take_reply_undoes in Hu;
      apply take_reply_eq in Et as (_ & E1 & T1 & _).
    all: destruct (request _ _ _ _) as [c [|]]; intros [= <- <-]; [cbn; by rewrite E1, Er|by apply Hfs].
Qed.

(** Every registered step is waiting in a record or was run. *)
Lemma run_accounts (p : Prog D U) : ∀ s s' o u0 L,
  leaky p = false → undo <$> records s = u0 :: L → run db p s = (s', o) →
  ∃ us t, undo <$> records s' = us :: L ∧ trace s' = trace s ++ t
    ∧ registered t ++ u0 ≡ₚ undone t ++ us.
Proof.
  assert (∀ s s1 s' u0 L, undoes [] s s1 → undo <$> records s = u0 :: L →
    (undo <$> records s1 = u0 :: L → ∃ us t, undo <$> records s' = us :: L ∧ trace s' = trace s1 ++ t
      ∧ registered t ++ u0 ≡ₚ undone t ++ us) →
    ∃ us t, undo <$> records s' = us :: L ∧ trace s' = trace s ++ t
      ∧ registered t ++ u0 ≡ₚ undone t ++ us) as Hstep.
  { intros s s1 s' u0 L [E1 (t1 & T1 & R1 & U1)] Eu Hk. destruct Hk as (us & t & E2 & T2 & P); [congruence|].
    exists us, (t1 ++ t). unfold registered, undone in *.
    rewrite T2, T1, !omap_app, R1, U1, app_assoc. done. }
  induction p as [ok|h|f k IH|n k IH|u k IH|fate body IHb k IH]; intros s s' o u0 L Hl Eu; cbn in Hl |- *.
  1,2: intros [= <- <-]; exists u0, []; by rewrite app_nil_r.
  - apply orb_false_iff in Hl as [Hl1 Hl2]. destruct (execute db f s) as [s1 ok] eqn:Ex. intros Hr.
    apply (Hstep s s1); [by eapply framed_undoes, execute_framed|done|]. intros E1.
    apply (IH ok s1 s' o); [by destruct ok|done|done].
  - intros Hr. apply (Hstep s (invalidate s n)); [|done|intros E1; by apply (IH _ _ _ _ _ Hl E1 Hr)].
    eapply undoes_then; [|by apply undoes_on_record]. split; [done|]. eexists. done.
  - intros Hr. destruct (records s) as [|r rs] eqn:Er; [done|]. injection Eu as <- <-.
    apply (IH _ _ _ (undo r ++ [u]) (undo <$> rs)) in Hr as (us & t & E2 & T2 & P); [|done|].
    2: { unfold undo_on_rollback, on_record. cbn. by rewrite Er. }
    exists us, (Registered u :: t). split; [done|]. split.
    + rewrite T2. unfold undo_on_rollback, on_record. cbn. rewrite Er. cbn. by rewrite <- app_assoc.
    + cbn. fold (registered t) (undone t). rewrite <- P. rewrite (Permutation_app_comm (undo r) [u]).
      by rewrite Permutation_middle.
  - apply orb_false_iff in Hl as [[[Hnl Hlb]%orb_false_iff Hl1]%orb_false_iff Hl2].
    destruct (begin db fate s) as [s1 []] eqn:Eb; apply begin_undoes in Eb.
    2: { intros Hr. apply (Hstep s s1); [done|done|]. intros E1. by apply (IH _ _ _ _ _ _ Hl2 E1 Hr). }
    destruct Eb as [E1 T1]. destruct (run db body s1) as [s2 o2] eqn:Erun. rewrite Eu in E1.
    apply (IHb _ _ _ _ _ Hlb E1) in Erun as (us2 & t2 & E2 & T2 & P2).
    destruct (records s2) as [|r2 rs2] eqn:Er2; [done|]. injection E2 as <- E2.
    destruct (finish db fate o2 s2) as [s3 ok] eqn:Ef.
    apply (finish_settles fate o2 r2 rs2) in Ef; [|done|done]. intros Hr.
    assert (∃ u3 t3, undo <$> records s3 = u3 :: L ∧ trace s3 = trace s2 ++ t3
      ∧ registered t3 = [] ∧ undo r2 ++ u0 ≡ₚ undone t3 ++ u3) as (u3 & t3 & E3 & T3 & R3 & P3).
    { destruct ok, Ef as [E3 (t3 & T3 & R3 & U3)].
      - destruct rs2 as [|e rs2']; [done|]. injection E2 as <- <-. exists (undo e ++ undo r2), t3.
        split_and!; [done|done|done|]. rewrite U3. cbn [app]. apply Permutation_app_comm.
      - exists u0, t3. split_and!; [rewrite E3; exact E2|done|done|]. rewrite U3. by rewrite <- Permutation_rev. }
    destruct (IH ok s3 s' o u3 L) as (us & t & E4 & T4 & P4); [by destruct ok|done|done|].
    exists us, (t2 ++ t3 ++ t). split; [done|]. split; [by rewrite T4, T3, T2, T1, <- !app_assoc|].
    unfold registered, undone in *. rewrite !omap_app, R3. cbn [app]. rewrite app_nil_r in P2.
    rewrite P2, <- !app_assoc, <- P4. apply Permutation_app_head.
    rewrite (Permutation_app_comm (omap _ t) u0), app_assoc, P3, <- app_assoc.
    by rewrite (Permutation_app_comm u3).
Qed.

(** The steps of a transaction of its own. *)
Lemma transaction_accounts fate (body : Prog D U) s s1 s2 r2 o s' ok :
  leaky (Transaction fate body Return) = false → records s = [] →
  begin db fate s = (s1, true) → run db body s1 = (s2, o) → records s2 = [r2] →
  finish db fate o s2 = (s', ok) →
  ∃ t, trace s' = trace s ++ t ∧ registered t ≡ₚ undone t ++ (if ok then undo r2 else []).
Proof.
  cbn. intros Hl Er Eb Erun E2 Ef.
  apply orb_false_iff in Hl as [[[Hnl Hlb]%orb_false_iff _]%orb_false_iff _].
  apply begin_undoes in Eb as [E1 T1]. rewrite Er in E1.
  destruct (run_accounts body s1 s2 o [] [] Hlb E1 Erun) as (us & t1 & Eu & T2 & P1).
  rewrite E2 in Eu. injection Eu as <-. rewrite app_nil_r in P1.
  apply (finish_settles fate o r2 []) in Ef; [|done|done].
  assert (∃ t2, trace s' = trace s2 ++ t2 ∧ registered t2 = []
    ∧ undone t2 = if ok then [] else rev (undo r2)) as (t2 & T3 & R2 & U2).
  { destruct ok, Ef as [_ Ht]; done. }
  exists (t1 ++ t2). split; [by rewrite T3, T2, T1, app_assoc|]. unfold registered, undone in *.
  rewrite !omap_app, R2, U2, app_nil_r, P1. destruct ok; [by rewrite app_nil_r|].
  rewrite app_nil_r. by rewrite <- Permutation_rev.
Qed.
End undo.
(** ** The properties *)

Section properties.
Context {D U : Type} (db : DatabaseType).
Implicit Types (s : State D U).

(** A connection of the pool, with no transaction open. *)
Definition idle s : Prop :=
  records s = [] ∧ saves (conn s) = [] ∧ pg_failed (conn s) = false ∧ lost (conn s) = false.

Lemma transaction_spec fate (body : Prog D U) s s' ok :
  orderly false (Transaction fate body Return) = true → idle s →
  transaction db fate body s = (s', ok) →
  (leaky (Transaction fate body Return) = false → saves (conn s') = [])
  ∧ (ok = false ∧ committed (conn s') = data (conn s)
     ∨ ∃ d ns us t0 t,
         Effect body (data (conn s)) d ns us (Returned true)
         ∧ committed (conn s') = d ∧ (ok = true → saves (conn s') = [])
         ∧ trace s' = t0 ++ CommitSent :: t ∧ (∀ n, n ∈ ns → repeats t n)
         ∧ (leaky (Transaction fate body Return) = false → ok = true →
            ∃ te, trace s' = trace s ++ te ∧ registered te ≡ₚ undone te ++ us)).
Proof.
  intros Hor (Er & Hs & Hp & Hl). cbn in Hor. rewrite !andb_true_r in Hor.
  apply andb_true_iff in Hor as [_ Hor].
  set (lk := leaky (Transaction fate body Return)).
  unfold transaction.
  assert (committed (conn s) = data (conn s)) as Hc0 by (unfold committed; by rewrite Hs).
  destruct (begin db fate s) as [s1 []] eqn:Eb; pose proof Eb as Hbegin;
    unfold begin in Eb; rewrite Er in Eb.
  2: { intros [= <- <-]. assert (conn s1 = conn s) as C1.
    { destruct fate; try (by injection Eb as <-).
      all: destruct (take_reply s) as [s2 rep] eqn:Et; apply take_reply_eq in Et as (<- & _).
      all: destruct rep; try done; by injection Eb as <-. }
    rewrite C1, Hc0. split; [done|]. by left. }
  assert (conn s1 = open_one (conn s) ∧ records s1 = [PendingInvalidations_new []]) as [C1 E1].
  { destruct fate; try done.
    all: destruct (take_reply s) as [s2 rep] eqn:Et; apply take_reply_eq in Et as (<- & E2 & _).
    all: destruct rep; try done; injection Eb as <-; unfold push_record; cbn; by rewrite E2, Er. }
  clear Eb. destruct (run db body s1) as [s2 o] eqn:Erun.
  assert (good db [data (conn s)] s1 (PendingInvalidations_new [])) as Hg.
  { split; rewrite ?C1; cbn; rewrite ?Hs; try done. by rewrite Hp. }
  destruct (run_sound db lk body false [data (conn s)] s1 (PendingInvalidations_new []) [] s2 o)
    as (Hc2 & r2 & E2 & H2); try done.
  { intros Hlb. unfold lk. cbn. by rewrite Hlb, orb_true_r. }
  rewrite C1, committed_open_one, Hc0 in Hc2. rewrite C1 in H2. cbn in H2.
  assert (is_leaks fate = true → lk = true) as Hlk.
  { intros Hlf. unfold lk. cbn. by rewrite Hlf. }
  assert (good db [data (conn s)] s2 r2 ∨ held [data (conn s)] s2 r2 ∨ bad lk 1 s2 r2) as Hst.
  { destruct H2 as [(ns & us & ? & _)|[? _]]; auto. }
  intros Hfin. destruct o as [ok0|h].
  - pose proof Hfin as Hfin'. apply (finish_top_returned db lk fate ok0 (data (conn s)) s2 r2) in Hfin as [[Hsv Hend] Hcase]; try done.
    split; [done|]. destruct Hcase as [[Hc ->]|[-> Hg2]]; [left; by rewrite Hc|].
    destruct H2 as [(ns & us & _ & Eff & Hus & _ & Hns)|[Hst2 _]];
      [|by destruct (good_not_stuck db lk _ _ _ Hg2)].
    destruct Hend as [[-> Hc]|(Hc & Hsv' & t & Ht & Hrep)]; [left; by rewrite Hc|]. right.
    exists (data (conn s2)), ns, us, (trace s2), t. split_and!; try done.
    { intros n Hn. apply Hrep; [by eapply Effect_lowercased|auto]. }
    intros Hlf ->. cbn in Hus. rewrite <- Hus.
    by apply (transaction_accounts db fate body s s1 s2 r2 (Returned true) s' true).
  - apply (finish_top_dropped db lk fate h (data (conn s)) s2 r2) in Hfin as ([Hsv _] & Hc & ->); try done.
    split; [done|]. left. by rewrite Hc.
Qed.



End properties.

(** ** Concrete runs *)

Definition demo_idle (d : nat) (replies : list Reply) : State nat nat :=
  {| conn := {| data := d; saves := []; pg_failed := false; lost := false |};
     records := []; replies := replies; trace := []; strays := [] |}.

(** A write, its invalidation and its undo step; then a nested transaction whose
    second statement fails, and one that commits. *)
Definition demo_body : Prog nat nat :=
  Execute (λ d, d + 1)%nat (λ _,
    Invalidate (NoteTable (lit "Users"))
      (OnRollback 1
        (Transaction Ends
          (OnRollback 2 (Execute (λ d, d + 10)%nat (λ _, Execute (λ d, d + 20)%nat Return)))
          (λ _, Transaction Ends
            (Execute (λ d, d + 100)%nat (λ _, Invalidate (NoteTable (lit "posts")) (Return true)))
            (λ _, Return true))))).

(** BEGIN, a statement, SAVEPOINT, a statement and a refused one. *)
Definition demo_replies : list Reply := [Works; Works; Works; Works; Refused].

Definition demo_transaction : State nat nat * bool :=
  transaction Postgres Ends demo_body (demo_idle 0 demo_replies).

Lemma demo_transaction_value :
  committed (conn demo_transaction.1) = 101%nat ∧ demo_transaction.2 = true
  ∧ undone (trace demo_transaction.1) = [2].
Proof. vm_compute. done. Qed.



(** The commit is refused: both steps that are left are run. *)
Definition demo_refused : State nat nat * bool :=
  transaction MySQL Ends demo_body
    (demo_idle 0 (repeat Works 9 ++ [Refused])).


(** ** Scopes that are not orderly *)

(** a leaked handle of a cancelled nested transaction goes unnoticed. When a
    nested scope whose handle leaked is dropped before it returns, the transaction
    around it is not told: its commit releases the savepoint still open instead,
    so it reports success with nothing committed. *)
Theorem dropped_leak_loses_the_commit :
  let body : Prog nat nat :=
    Execute (λ d, d + 1)%nat (λ _,
      Transaction Leaks (Execute (λ d, d + 10)%nat (λ _, Drop false)) (λ _, Return true)) in
  let '(s, ok) := transaction Postgres Ends body (demo_idle 0 []) in
  ok = true ∧ committed (conn s) = 0%nat ∧ saves (conn s) = [0%nat].
Proof. vm_compute. done. Qed.

(** a cancelled savepoint hides a deadlock. A savepoint dropped while another
    future holds the connection marks the transaction around it as [Cancelled]
    before its own record hands over the deadlock, the first reason is kept, and
    [Cancelled] goes no further: the outer transaction, which MySQL rolled back,
    is not told, so its next statement commits by itself, and neither what it did
    before is kept nor what it does after undone, whether it then succeeds or fails. *)
Theorem cancelled_savepoint_hides_a_deadlock (ok : bool) :
  let body : Prog nat nat :=
    Execute (λ d, d + 1)%nat (λ _,
      Transaction Ends
        (Transaction Ends (Execute (λ d, d + 10)%nat (λ _, Drop true)) (λ _, Return true))
        (λ _, Execute (λ d, d + 100)%nat (λ _, Return ok))) in
  let '(s, reported) := transaction MySQL Ends body
    (demo_idle 0 [Works; Works; Works; Works; Deadlocks]) in
  reported = ok ∧ committed (conn s) = 100%nat.
Proof. destruct ok; vm_compute; done. Qed.
