(* ===== verification/BatchInsert.v ===== *)
(** * Batch inserts

    src/src/internal/batch_insert.rs: the strategy a backend can run for a batch,
    the chunks it is sent in, and putting the rows that come back in the order of
    the models they came from.

    The models, their rows and what the derive macros generate for them are the
    parameters of class [BatchModel]. The database is a parameter too: what it
    answers to a statement, after the statements sent before. *)

From stdpp Require Import gmap sorting.
From S2P Require Import Prelude Dialect MinHeap.

(** The kinds of [Value] the code tells apart, [None] being an SQL [NULL]. *)
Inductive Value :=
  | VInteger (width : nat) (signed : bool) (v : option Z)
  | VUuid (v : option N)
  | VString (v : option str)
  | VBytes (v : option (list N))
  | VJson (v : option str)
  | VOther (v : option N).

#[export] Instance Value_eq_dec : EqDecision Value.
Proof. solve_decision. Defined.

Record ClientKey := { text : str; values : list Value }.

Inductive Order := AsReturned | ByIncreasingKey | ByClientKey (keys : list ClientKey).

Inductive Strategy :=
  | Returning (order : Order)
  | InsertThenSelect (keys : list ClientKey)
  | PerRow.

Definition SQLITE_MAX_BIND_PARAMETERS : nat := N.to_nat 32766.
Definition MYSQL_MAX_STATEMENT_BYTES : N := 2 ^ 20.

(** A column of an active model. *)
Inductive ActiveValue := Set_ (v : Value) | Unchanged (v : Value) | NotSet.

Definition into_value (a : ActiveValue) : option Value :=
  match a with Set_ v | Unchanged v => Some v | NotSet => None end.

Definition is_set (a : ActiveValue) : bool :=
  match a with Set_ _ => true | _ => false end.

(** A model type: its active models [A], rows [R] and models [T]. *)
Class BatchModel (A R T : Type) := {
  primary_key_auto_increment : bool;
  primary_key_names : nat;                       (* how many *)
  column_names : nat;
  key_columns : A → list ActiveValue;            (* the primary key columns of an active model *)
  active_columns : A → list ActiveValue;         (* all its columns *)
  row_key : R → list Value;                      (* the primary key columns of a row *)
  ensure_fields_storable : result unit str;
  try_into_active_model : T → result A str;
  ensure_active_values_storable : A → result unit str;
  try_from_entity_model : R → result T str;
  primary_key_i64 : T → option Z;                (* [as_i64] of the key as JSON *)
  debug : list Value → str;                      (* [format!("{values:?}")] *)
}.

Section batch.
Context {A R T : Type} `{BatchModel A R T}.

Definition returns_exactly (value : Value) (backend : Backend) : bool :=
  match value with
  | VInteger _ _ (Some _) | VUuid (Some _) => true
  | VString (Some _) => bool_decide (backend = BSqlite)
  | _ => false
  end.

(** [HashSet::insert] of each text in turn: none is there already. *)
Fixpoint all_new (seen : gset str) (keys : list ClientKey) : bool :=
  match keys with
  | [] => true
  | key :: keys => bool_decide (text key ∉ seen) && all_new ({[text key]} ∪ seen) keys
  end.

Definition client_key (backend : Backend) (a : A) : option ClientKey :=
  values ← mapM into_value (key_columns a);
  if forallb (λ v, returns_exactly v backend) values
  then Some {| text := debug values; values := values |} else None.

Definition client_keys (models : list A) (backend : Backend) : option (list ClientKey) :=
  keys ← mapM (client_key backend) models;
  if all_new ∅ keys then Some keys else None.

Definition holds_auto_increment_key (a : A) : bool :=
  primary_key_auto_increment && existsb is_set (key_columns a).

Definition held_keys (models : list A) : nat := length (filter (λ a, holds_auto_increment_key a = true) models).

Definition strategy (backend : Backend) (models : list A) (held : nat) : Strategy :=
  if negb (held =? 0) && negb (held =? length models) then PerRow
  else
    let numbered := primary_key_auto_increment && (held =? 0) in
    if bool_decide (backend = BPostgres) then Returning AsReturned
    else if bool_decide (backend = BSqlite) && numbered && (primary_key_names =? 1)
    then Returning ByIncreasingKey
    else if numbered then PerRow
    else match backend, client_keys models backend with
         | BSqlite, Some keys => Returning (ByClientKey keys)
         | BMySql, Some keys => InsertThenSelect keys
         | _, _ => PerRow
         end.

Definition parameter_limit (backend : Backend) : nat :=
  match backend with
  | BSqlite => SQLITE_MAX_BIND_PARAMETERS
  | BPostgres | BMySql => N.to_nat 65535
  end.

Definition rows_per_statement (backend : Backend) : nat :=
  Nat.max (parameter_limit backend / Nat.max column_names 1) 1.

(** The loop of [order_by_keys]: each row takes the position of its key. *)
Fixpoint place_rows (positions : gmap str nat) (ordered : list (option R)) (rows : list R)
    : result (list (option R)) str :=
  match rows with
  | [] => Ok ordered
  | row :: rows =>
      let key := debug (row_key row) in
      match positions !! key with
      | None => Err (lit "insert_all read back a row under a key it did not insert: " ++ key)
      | Some position =>
          place_rows (base.delete key positions) (<[position := Some row]> ordered) rows
      end
  end.

Definition key_positions (keys : list ClientKey) : gmap str nat :=
  positions text keys.

Definition order_by_keys (rows : list R) (keys : list ClientKey) : result (list R) str :=
  match place_rows (key_positions keys) (replicate (length keys) None) rows with
  | Err e => Err e
  | Ok ordered =>
      match mapM id ordered with
      | Some rows => Ok rows
      | None => Err (lit "insert_all could not read back every row it inserted")
      end
  end.

Definition value_bytes (v : Value) : N :=
  match v with
  | VString (Some s) => N.of_nat (slen s)
  | VBytes (Some b) => N.of_nat (length b)
  | VJson (Some j) => N.of_nat (slen j)
  | _ => 8
  end.

Definition row_bytes (a : A) : N := foldr N.add 0%N (value_bytes <$> omap into_value (active_columns a)).

(** [mysql_chunk], with the chunk so far and its bytes: the chunk and the rest. *)
Fixpoint mysql_chunk (chunk : list A) (bytes : N) (remaining : list A) (max_rows : nat)
    : list A * list A :=
  match remaining with
  | [] => (chunk, [])
  | next :: rest =>
      if length chunk <? max_rows then
        let size := row_bytes next in
        if negb (length chunk =? 0) && (MYSQL_MAX_STATEMENT_BYTES <? bytes + size)%N
        then (chunk, remaining)
        else mysql_chunk (chunk ++ [next]) (bytes + size) rest max_rows
      else (chunk, remaining)
  end.

(** [.map(f).collect::<Result<Vec<_>>>()]. *)
Fixpoint collect {B C} (f : B → result C str) (l : list B) : result (list C) str :=
  match l with
  | [] => Ok []
  | x :: l =>
      match f x with
      | Err e => Err e
      | Ok y => match collect f l with Err e => Err e | Ok ys => Ok (y :: ys) end
      end
  end.

(** ** Statements *)

Inductive Statement :=
  | InsertReturning (chunk : list A)
  | Insert (chunk : list A)
  | Select (keys : list ClientKey)
  | InsertOne (a : A)
  | Advance (largest : Z)
  | Begin
  | Commit
  | Rollback.

(** What the database answers to a statement, after those sent before it. *)
Context (server : list Statement → Statement → result (list R) str).

Definition send (stmt : Statement) (sent : list Statement) : list Statement * result (list R) str :=
  (sent ++ [stmt], server sent stmt).

Definition insert_returning (chunk : list A) (order : Order) (offset : nat) (sent : list Statement)
    : list Statement * result (list T) str :=
  match send (InsertReturning chunk) sent with
  | (sent, Err e) => (sent, Err e)
  | (sent, Ok rows) =>
      (sent,
       if negb (length rows =? length chunk) then
         Err (lit "insert_all sent " ++ show_N (N.of_nat (length chunk))
              ++ lit " rows and the database returned " ++ show_N (N.of_nat (length rows)))
       else match order with
       | AsReturned => collect try_from_entity_model rows
       | ByClientKey keys =>
           match order_by_keys rows (take (length chunk) (drop offset keys)) with
           | Err e => Err e
           | Ok rows => collect try_from_entity_model rows
           end
       | ByIncreasingKey =>
           match collect try_from_entity_model rows with
           | Err e => Err e
           | Ok models => Ok (sort_by_key primary_key_i64 models)
           end
       end)
  end.

Definition insert_then_select (chunk : list A) (keys : list ClientKey) (sent : list Statement)
    : list Statement * result (list T) str :=
  match send (Insert chunk) sent with
  | (sent, Err e) => (sent, Err e)
  | (sent, Ok _) =>
      match send (Select keys) sent with
      | (sent, Err e) => (sent, Err e)
      | (sent, Ok rows) =>
          (sent, match order_by_keys rows keys with Err e => Err e | Ok rows => collect try_from_entity_model rows end)
      end
  end.

Fixpoint insert_individually (models : list A) (results : list T) (sent : list Statement)
    : list Statement * result (list T) str :=
  match models with
  | [] => (sent, Ok results)
  | a :: models =>
      match send (InsertOne a) sent with
      | (sent, Ok (row :: _)) =>
          match try_from_entity_model row with
          | Err e => (sent, Err e)
          | Ok m => insert_individually models (results ++ [m]) sent
          end
      | (sent, Ok []) => (sent, Err (lit "None of the records are inserted"))
      | (sent, Err e) => (sent, Err e)
      end
  end.

(** The loops of [insert_by_strategy], of a way to take the next chunk and one to
    insert it, given how many rows are in; a round takes a chunk that is not empty,
    so there are at most as many as rows, and one more. *)
Fixpoint insert_chunks (fuel : nat) (next : list A → list A * list A)
    (insert : list A → nat → list Statement → list Statement * result (list T) str)
    (remaining : list A) (results : list T) (sent : list Statement)
    : list Statement * result (list T) str :=
  match fuel with
  | 0 => (sent, Err (lit "out of fuel"))
  | S fuel =>
      match next remaining with
      | ([], _) => (sent, Ok results)
      | (chunk, rest) =>
          match insert chunk (length results) sent with
          | (sent, Err e) => (sent, Err e)
          | (sent, Ok models) => insert_chunks fuel next insert rest (results ++ models) sent
          end
      end
  end.

Definition insert_by_strategy (strategy : Strategy) (models : list A) (max_rows : nat)
    (sent : list Statement) : list Statement * result (list T) str :=
  match strategy with
  | Returning order =>
      insert_chunks (S (length models)) (λ l, (take max_rows l, drop max_rows l))
        (λ chunk offset, insert_returning chunk order offset) models [] sent
  | InsertThenSelect keys =>
      insert_chunks (S (length models)) (λ l, mysql_chunk [] 0 l max_rows)
        (λ chunk offset, insert_then_select chunk (take (length chunk) (drop offset keys)))
        models [] sent
  | PerRow => insert_individually models [] sent
  end.

(** The largest of the keys that are integers. *)
Definition largest_key (ms : list T) : option Z :=
  match omap primary_key_i64 ms with
  | [] => None
  | z :: zs => Some (foldl Z.max z zs)
  end.

Definition advance_key_sequence (backend : Backend) (ms : list T) (sent : list Statement)
    : list Statement * result unit str :=
  if negb (primary_key_names =? 1) then (sent, Ok tt)
  else if negb primary_key_auto_increment || negb (bool_decide (backend = BPostgres))
  then (sent, Ok tt)
  else match largest_key ms with
  | None => (sent, Ok tt)
  | Some largest =>
      match send (Advance largest) sent with
      | (sent, Err e) => (sent, Err e)
      | (sent, Ok _) => (sent, Ok tt)
      end
  end.

(** [Ok(results) if explicit_keys => advance_key_sequence(..).map(|()| results)]. *)
Definition then_advance (backend : Backend) (explicit_keys : bool)
    (inserted : list Statement * result (list T) str) : list Statement * result (list T) str :=
  match inserted with
  | (sent, Ok results) =>
      if explicit_keys then
        match advance_key_sequence backend results sent with
        | (sent, Err e) => (sent, Err e)
        | (sent, Ok _) => (sent, Ok results)
        end
      else (sent, Ok results)
  | inserted => inserted
  end.

(** [TransactionScope::begin] and [end] around [body]: the end a success asks for
    is a commit, that of an error a rollback, whose own outcome is not reported. *)
Definition in_scope (body : list Statement → list Statement * result (list T) str)
    (sent : list Statement) : list Statement * result (list T) str :=
  match send Begin sent with
  | (sent, Err e) => (sent, Err e)
  | (sent, Ok _) =>
      match body sent with
      | (sent, Ok results) =>
          match send Commit sent with
          | (sent, Err e) => (sent, Err e)
          | (sent, Ok _) => (sent, Ok results)
          end
      | (sent, Err e) => ((send Rollback sent).1, Err e)
      end
  end.

(** The active models of a batch, each one checked. *)
Definition storable_models (models : list T) : result (list A) str :=
  match ensure_fields_storable with
  | Err e => Err e
  | Ok _ =>
      match collect try_into_active_model models with
      | Err e => Err e
      | Ok actives =>
          match collect ensure_active_values_storable actives with
          | Err e => Err e
          | Ok _ => Ok actives
          end
      end
  end.

Definition insert_many (backend : Backend) (models : list T) (sent : list Statement)
    : list Statement * result (list T) str :=
  match models with
  | [] => (sent, Ok [])
  | _ =>
      match storable_models models with
      | Err e => (sent, Err e)
      | Ok actives =>
          let held := held_keys actives in
          let explicit_keys := 0 <? held in
          if length models =? 1 then
            then_advance backend explicit_keys (insert_individually actives [] sent)
          else
            in_scope (λ sent,
              then_advance backend explicit_keys
                (insert_by_strategy (strategy backend actives held) actives
                   (rows_per_statement backend) sent)) sent
      end
  end.
End batch.
Arguments Statement : clear implicits.

(** ** Rows back in order *)

Section order.
Context {A R T : Type} `{BatchModel A R T}.

(** The text of a row's key. *)
Definition key_of (row : R) : str := debug (row_key row).

(** The positions of keys whose row is not placed yet, and the rows placed. *)
Record placing (keys : list ClientKey) (positions : gmap str nat) (ordered : list (option R)) : Prop := {
  placing_length : length ordered = length keys;
  placing_free k i :
    positions !! k = Some i → ordered !! i = Some None ∧ ∃ key, keys !! i = Some key ∧ text key = k;
  placing_placed i row key :
    ordered !! i = Some (Some row) → keys !! i = Some key → key_of row = text key;
  placing_all i key :
    keys !! i = Some key → (∃ row, ordered !! i = Some (Some row)) ∨ positions !! text key = Some i;
}.

Lemma placing_start keys :
  NoDup (text <$> keys) → placing keys (key_positions keys) (replicate (length keys) None).
Proof.
  intros Hnd. split.
  - by rewrite length_replicate.
  - intros k i Hk. apply positions_lookup in Hk as (key & Hi & Ht); [|done].
    split; [|eauto]. apply lookup_replicate. split; [done|]. by eapply lookup_lt_Some.
  - intros i row key Hi. apply lookup_replicate in Hi as [? _]. done.
  - intros i key Hi. right. apply positions_lookup; eauto.
Qed.

Lemma placing_step keys positions ordered row i :
  NoDup (text <$> keys) → placing keys positions ordered → positions !! key_of row = Some i →
  placing keys (base.delete (key_of row) positions) (<[i := Some row]> ordered).
Proof.
  intros Hnd [Hlen Hfree Hplaced Hall] Hi.
  destruct (Hfree _ _ Hi) as (_ & key & Hkey & Ht).
  assert (i < length ordered) as Hlt by (rewrite Hlen; by eapply lookup_lt_Some).
  split.
  - by rewrite length_insert.
  - intros k j [Hk Hj]%lookup_delete_Some. destruct (Hfree _ _ Hj) as (Hn & key' & Hk' & Ht').
    split; [|eauto]. rewrite list_lookup_insert_ne; [done|]. intros <-. rewrite Hkey in Hk'. injection Hk' as <-. by rewrite Ht in Ht'.
  - intros j row' key' [(-> & [= <-] & _)|[Hne Hj]]%list_lookup_insert_Some Hk; [congruence|eauto].
  - intros j key' Hk. destruct (decide (i = j)) as [->|Hne].
    { left. exists row. by apply list_lookup_insert_eq. }
    destruct (Hall j key' Hk) as [[row' Hr]|Hp]; [left; exists row'; by rewrite list_lookup_insert_ne|].
    right. apply lookup_delete_Some. split; [|done]. intros Heq. apply Hne.
    rewrite <- Heq in Hp. congruence.
Qed.

Lemma mapM_id_Some {B} (l : list (option B)) k : mapM id l = Some k ↔ l = Some <$> k.
Proof.
  revert k. induction l as [|[x|] l IH]; intros k; cbn.
  - split; [by intros [= <-]|]. intros Hk. by destruct k.
  - destruct (mapM id l) as [k'|] eqn:E; cbn.
    + split; [intros [= <-]; cbn; f_equal; by apply IH|].
      destruct k as [|y k]; [done|]. intros [= <- Hk]. apply IH in Hk. by injection Hk as ->.
    + split; [done|]. destruct k as [|y k]; [done|]. intros [= <- Hk]. by apply IH in Hk.
  - split; [done|]. by destruct k.
Qed.

Lemma omap_insert_Some {B} (l : list (option B)) i (x : B) :
  l !! i = Some None → omap id (<[i := Some x]> l) ≡ₚ x :: omap id l.
Proof.
  revert i. induction l as [|y l IH]; intros [|i]; cbn; try done.
  - by intros [= ->].
  - intros Hi. destruct y as [y|]; cbn; rewrite (IH i Hi); [constructor|done].
Qed.

Lemma place_rows_placing keys positions ordered rows ordered' :
  NoDup (text <$> keys) → placing keys positions ordered →
  place_rows positions ordered rows = Ok ordered' →
  ∃ positions', placing keys positions' ordered' ∧ omap id ordered' ≡ₚ rows ++ omap id ordered
    ∧ ∀ k i, positions' !! k = Some i → positions !! k = Some i ∧ k ∉ key_of <$> rows.
Proof.
  intros Hnd. revert positions ordered. induction rows as [|row rows IH]; intros positions ordered Hp; cbn.
  { intros [= <-]. exists positions. split_and!; [done|done|]. intros k i Hk. split; [done|]. apply not_elem_of_nil. }
  fold (key_of row). destruct (positions !! key_of row) as [i|] eqn:Ei; [|done]. intros Hr.
  destruct (placing_free _ _ _ Hp _ _ Ei) as [Hn _].
  pose proof (placing_step keys positions ordered row i Hnd Hp Ei) as Hs.
  destruct (IH _ _ Hs Hr) as (positions' & Hp' & Hperm & Hk). exists positions'. split_and!; [done| |].
  - rewrite Hperm, omap_insert_Some by done. by rewrite <- Permutation_middle.
  - intros k j Hkj. destruct (Hk k j Hkj) as [[Hne Hj]%lookup_delete_Some Hni].
    split; [done|]. apply not_elem_of_cons. by split.
Qed.

(** The rows come out in the order of the keys, each under its own, and they are
    the rows that came in. *)
Lemma order_by_keys_spec rows keys rows' :
  NoDup (text <$> keys) → order_by_keys rows keys = Ok rows' →
  key_of <$> rows' = text <$> keys ∧ rows' ≡ₚ rows.
Proof.
  intros Hnd. unfold order_by_keys.
  destruct (place_rows _ _ rows) as [ordered|] eqn:Ep; [|done].
  destruct (mapM id ordered) as [rows1|] eqn:Em; [|done]. intros [= <-].
  apply mapM_id_Some in Em as ->.
  destruct (place_rows_placing _ _ _ _ _ Hnd (placing_start keys Hnd) Ep) as (positions & Hp & Hperm & _).
  split.
  - apply list_eq_same_length with (length keys); rewrite ?length_fmap; [done| |].
    { rewrite <- (placing_length _ _ _ Hp). by rewrite length_fmap. }
    intros i x y Hi. rewrite !list_lookup_fmap.
    destruct (rows1 !! i) as [row|] eqn:Er; [|done]. destruct (keys !! i) as [key|] eqn:Ek; [|done].
    cbn. intros [= <-] [= <-]. apply (placing_placed _ _ _ Hp i); [|done]. by rewrite list_lookup_fmap, Er.
  - assert (omap id (Some <$> rows1) = rows1) as E by (clear; induction rows1; cbn; congruence).
    rewrite E in Hperm. rewrite Hperm.
    assert (omap id (replicate (length keys) (@None R)) = []) as -> by (clear; induction (length keys); done).
    by rewrite app_nil_r.
Qed.

Lemma place_rows_total positions (ordered : list (option R)) rows :
  NoDup (key_of <$> rows) → (∀ row, row ∈ rows → is_Some (positions !! key_of row)) →
  ∃ ordered', place_rows positions ordered rows = Ok ordered'.
Proof.
  revert positions ordered. induction rows as [|row rows IH]; intros positions ordered; cbn; [eauto|].
  fold (key_of row). intros [Hk Hnd]%list.NoDup_cons Hin.
  destruct (Hin row) as [i ->]; [by left|]. apply IH; [done|]. intros row' Hrow.
  rewrite lookup_delete_ne; [apply Hin; by right|]. intros Heq. apply Hk. rewrite Heq.
  apply list_elem_of_fmap. eauto.
Qed.

(** Two arrangements of the same rows that show the same distinct keys are the
    same arrangement. *)
Lemma keyed_permutation_eq {B K} (key : B → K) (l k : list B) :
  key <$> l = key <$> k → NoDup (key <$> k) → l ≡ₚ k → l = k.
Proof.
  intros Hkey Hnd Hperm. apply list_eq_same_length with (length k); [done|by rewrite Hperm|].
  intros i x y Hi Hx Hy. assert (x ∈ k) as [j Hj]%list_elem_of_lookup by (rewrite <- Hperm; by eapply list_elem_of_lookup_2).
  assert (j = i) as ->; [|congruence].
  apply (NoDup_lookup (key <$> k) j i (key x)); [done|by rewrite list_lookup_fmap, Hj|].
  rewrite <- Hkey, list_lookup_fmap, Hx. done.
Qed.

Lemma order_by_keys_total rows rows0 keys :
  NoDup (text <$> keys) → key_of <$> rows0 = text <$> keys → rows ≡ₚ rows0 →
  order_by_keys rows keys = Ok rows0.
Proof.
  intros Hnd Hk Hperm.
  assert (NoDup (key_of <$> rows)) as Hndr by (rewrite Hperm, Hk; done).
  destruct (place_rows_total (key_positions keys) (replicate (length keys) None) rows) as [ordered Ep]; [done|..].
  { intros row Hrow. assert (key_of row ∈ text <$> keys) as Hin.
    { rewrite <- Hk, <- Hperm. apply list_elem_of_fmap. eauto. }
    apply list_elem_of_fmap in Hin as (key & Ht & [i Hi]%list_elem_of_lookup).
    exists i. apply positions_lookup; eauto. }
  destruct (place_rows_placing _ _ _ _ _ Hnd (placing_start keys Hnd) Ep) as (positions & Hp & Hpp & Hpos).
  assert (∃ rows', mapM id ordered = Some rows') as [rows' Hm].
  { assert (Forall is_Some ordered) as Hall.
    { apply list.Forall_forall. intros o [i Hi]%list_elem_of_lookup.
      destruct (lookup_lt_is_Some_2 keys i) as [key Hkey].
      { rewrite <- (placing_length _ _ _ Hp). by eapply lookup_lt_Some. }
      destruct (placing_all _ _ _ Hp i key Hkey) as [[row Hrow]|Hfree].
      { rewrite Hi in Hrow. injection Hrow as ->. eauto. }
      destruct (Hpos _ _ Hfree) as [_ []]. rewrite Hperm, Hk. apply list_elem_of_fmap_2.
      by eapply list_elem_of_lookup_2. }
    apply (mapM_is_Some_2 id). done. }
  assert (order_by_keys rows keys = Ok rows') as Ho by (unfold order_by_keys; by rewrite Ep, Hm).
  rewrite Ho. f_equal. apply order_by_keys_spec in Ho as [Hk' Hp']; [|done].
  apply (keyed_permutation_eq key_of); [by rewrite Hk'|by rewrite Hk|by rewrite Hp'].
Qed.
End order.

(** ** Chunks *)

Section chunks.
Context {A R T : Type} `{BatchModel A R T}.
Implicit Types (st : @Statement A).

Lemma all_new_NoDup seen (keys : list ClientKey) :
  all_new seen keys = true → NoDup (text <$> keys) ∧ ∀ key, key ∈ keys → text key ∉ seen.
Proof.
  revert seen. induction keys as [|key keys IH]; intros seen; cbn.
  { intros _. split; [constructor|]. intros key Hk. by apply elem_of_nil in Hk. }
  rewrite andb_true_iff, bool_decide_eq_true. intros [Hk [Hnd Hs]%IH]. split.
  - constructor; [|done]. intros (key' & Ht & Hin)%list_elem_of_fmap. apply (Hs key' Hin).
    rewrite Ht. set_solver.
  - intros key' [->|Hin]%elem_of_cons; [done|]. specialize (Hs key' Hin). set_solver.
Qed.

Lemma client_keys_spec (models : list A) backend keys :
  client_keys models backend = Some keys →
  NoDup (text <$> keys) ∧ Forall2 (λ a key, client_key backend a = Some key) models keys.
Proof.
  unfold client_keys. destruct (mapM _ models) as [keys'|] eqn:Em; cbn; [|done].
  destruct (all_new ∅ keys') eqn:En; [|done]. intros [= <-].
  split; [by apply (all_new_NoDup ∅)|]. by apply mapM_Some.
Qed.

(** The models a statement inserts. *)
Definition inserted_by st : list A :=
  match st with
  | InsertReturning chunk | Insert chunk => chunk
  | InsertOne a => [a]
  | _ => []
  end.

(** A statement the server has room for. *)
Definition fits (backend : Backend) st : Prop :=
  (length (inserted_by st) ≤ 1 ∨ length (inserted_by st) * column_names ≤ parameter_limit backend)
  ∧ match st with
    | Insert chunk =>
        length chunk ≤ 1 ∨ (foldr N.add 0 (row_bytes <$> chunk) ≤ MYSQL_MAX_STATEMENT_BYTES)%N
    | _ => True
    end.

(** A statement of the work in a transaction, not one of those around it. *)
Definition is_work st : Prop :=
  match st with Begin | Commit | Rollback => False | _ => True end.

Lemma rows_per_statement_pos backend : 0 < rows_per_statement backend.
Proof. unfold rows_per_statement. lia. Qed.

Lemma rows_per_statement_fits backend n :
  n ≤ rows_per_statement backend → n ≤ 1 ∨ n * column_names ≤ parameter_limit backend.
Proof.
  unfold rows_per_statement. intros Hn.
  destruct (decide (n ≤ 1)) as [?|Hd]; [by left|]. right.
  pose proof (Nat.Div0.mul_div_le (parameter_limit backend) (Nat.max column_names 1)) as Hle.
  assert (n ≤ parameter_limit backend / Nat.max column_names 1) as Hn' by lia.
  transitivity (n * Nat.max column_names 1); [nia|].
  etransitivity; [|exact Hle]. rewrite Nat.mul_comm. by apply Nat.mul_le_mono_l.
Qed.

(** What a way to take chunks promises. *)
Definition takes_chunks (next : list A → list A * list A) (good : list A → Prop) : Prop :=
  ∀ l, l = (next l).1 ++ (next l).2 ∧ (l ≠ [] → (next l).1 ≠ []) ∧ good (next l).1.

Lemma take_chunks max : 0 < max → takes_chunks (λ l, (take max l, drop max l)) (λ c, length c ≤ max).
Proof.
  intros Hm l. cbn. split_and!; [by rewrite take_drop| |rewrite length_take; lia].
  destruct l, max; try done; lia.
Qed.

Lemma foldr_N_add_snoc (l : list N) x : foldr N.add 0%N (l ++ [x]) = (foldr N.add 0 l + x)%N.
Proof. induction l as [|y l IH]; cbn; [lia|]. rewrite IH. lia. Qed.

Lemma mysql_chunk_spec chunk bytes l max c rest :
  bytes = foldr N.add 0%N (row_bytes <$> chunk) → length chunk ≤ max →
  (length chunk ≤ 1 ∨ (bytes ≤ MYSQL_MAX_STATEMENT_BYTES)%N) →
  mysql_chunk chunk bytes l max = (c, rest) →
  (∃ more, c = chunk ++ more ∧ l = more ++ rest) ∧ length c ≤ max
  ∧ (length c ≤ 1 ∨ (foldr N.add 0 (row_bytes <$> c) ≤ MYSQL_MAX_STATEMENT_BYTES)%N)
  ∧ (0 < max → l ≠ [] → c ≠ []).
Proof.
  revert chunk bytes. induction l as [|a l IH]; intros chunk bytes Hb Hlen Hfit; cbn [mysql_chunk].
  { intros [= -> ->]. subst. split_and!; [|done..]. exists []. by rewrite app_nil_r. }
  destruct (Nat.ltb_spec (length chunk) max) as [Hlt|Hge].
  2: { intros [= <- <-]. subst. split_and!; [exists []; by rewrite app_nil_r|done|done|].
       intros ? _ ->. cbn in *. lia. }
  destruct (negb _ && _) eqn:Hg.
  { intros [= <- <-]. subst. split_and!; [exists []; by rewrite app_nil_r|done|done|]. by intros _ _ ->. }
  intros Hc. apply IH in Hc as ((more & -> & ->) & Hmax & Hbytes & _).
  - split_and!; [|done|done|]; [|by destruct chunk].
    exists (a :: more). by rewrite <- app_assoc.
  - rewrite fmap_app. cbn [fmap list_fmap]. rewrite foldr_N_add_snoc. by rewrite <- Hb.
  - rewrite length_app. cbn. lia.
  - rewrite length_app. cbn. apply andb_false_iff in Hg as [Hg|Hg].
    + apply negb_false_iff, Nat.eqb_eq in Hg. lia.
    + apply N.ltb_ge in Hg. lia.
Qed.

Lemma mysql_chunks max :
  0 < max →
  takes_chunks (λ l, mysql_chunk [] 0 l max)
    (λ c, length c ≤ max
          ∧ (length c ≤ 1 ∨ (foldr N.add 0 (row_bytes <$> c) ≤ MYSQL_MAX_STATEMENT_BYTES)%N)).
Proof.
  intros Hm l. destruct (mysql_chunk [] 0 l max) as [c rest] eqn:E.
  apply mysql_chunk_spec in E as ((more & -> & ->) & Hl & Hb & Hne); [|done|cbn; lia|left; cbn; lia].
  cbn. split_and!; [done|by apply Hne|done|done].
Qed.

Lemma collect_Forall2 {B C} (f : B → result C str) l k :
  collect f l = Ok k ↔ Forall2 (λ x y, f x = Ok y) l k.
Proof.
  revert k. induction l as [|x l IH]; intros k; cbn.
  - split; [by intros [= <-]|]. by intros ->%Forall2_nil_inv_l.
  - destruct (f x) as [y|e] eqn:Ef.
    + destruct (collect f l) as [ys|e].
      * split; [intros [= <-]; constructor; [done|by apply IH]|].
        intros (z & k' & Hz & Hk & ->)%Forall2_cons_inv_l. apply IH in Hk. congruence.
      * split; [done|]. intros (z & k' & Hz & Hk & ->)%Forall2_cons_inv_l. by apply IH in Hk.
    + split; [done|]. intros (z & k' & Hz & Hk & ->)%Forall2_cons_inv_l. congruence.
Qed.
End chunks.

(** ** Batches *)

Section batches.
Context {A R T : Type} `{BatchModel A R T}.
Context (server : list (@Statement A) → @Statement A → result (list R) str).
Implicit Types (sent tr : list (@Statement A)) (models chunk : list A) (out : list T).

(** [out] was read from rows under the keys of [models], position by position. *)
Definition read_back (backend : Backend) (a : A) (m : T) : Prop :=
  ∃ key row, client_key backend a = Some key ∧ key_of row = text key
    ∧ try_from_entity_model row = Ok m.

(** The statements a piece of work sends for [models]. *)
Record sends (backend : Backend) models tr : Prop := {
  sends_inserted : tr ≫= inserted_by = models;
  sends_fit : Forall (fits backend) tr;
  sends_work : Forall is_work tr;
}.

Lemma sends_nil backend : sends backend [] [].
Proof. split; [done|constructor..]. Qed.

Lemma sends_app backend models1 models2 tr1 tr2 :
  sends backend models1 tr1 → sends backend models2 tr2 → sends backend (models1 ++ models2) (tr1 ++ tr2).
Proof. intros [H1 ??] [H2 ??]. split; [by rewrite bind_app, H1, H2|by apply Forall_app..]. Qed.

Lemma sends_one backend st models :
  inserted_by st = models → fits backend st → is_work st → sends backend models [st].
Proof. intros Hi Hf Hw. split; [cbn; by rewrite app_nil_r|by apply Forall_singleton..]. Qed.

(** A piece of work that succeeded: it sent statements for its models and has a
    result for each, related to it by [Q]. *)
Definition succeeds (backend : Backend) (Q : A → T → Prop) models sent sent' out : Prop :=
  ∃ tr, sent' = sent ++ tr ∧ sends backend models tr ∧ Forall2 Q models out.

(** The loop, of what one round does; the models before [remaining] are in. *)
Lemma insert_chunks_Ok backend Q next good insert fuel all remaining results sent sent' out :
  takes_chunks next good →
  (∀ chunk offset sent sent' ms, good chunk → chunk = take (length chunk) (drop offset all) →
     insert chunk offset sent = (sent', Ok ms) → succeeds backend Q chunk sent sent' ms) →
  remaining = drop (length results) all →
  insert_chunks fuel next insert remaining results sent = (sent', Ok out) →
  ∃ more, out = results ++ more ∧ succeeds backend Q remaining sent sent' more.
Proof.
  intros Hnext Hins. revert remaining results sent. induction fuel as [|fuel IH]; intros remaining results sent Hrem; [done|].
  cbn [insert_chunks]. destruct (next remaining) as [chunk rest] eqn:En.
  destruct (Hnext remaining) as (Happ & Hne & Hgood). rewrite En in *. cbn in Happ, Hne, Hgood.
  destruct chunk as [|a chunk].
  { intros [= <- <-]. exists []. rewrite app_nil_r. split; [done|]. exists []. rewrite app_nil_r.
    assert (remaining = []) as -> by (destruct remaining; [done|by destruct Hne]).
    split_and!; [done|apply sends_nil|constructor]. }
  set (c := a :: chunk) in *. destruct (insert c _ sent) as [sent1 [ms|e]] eqn:Ei; [|done].
  assert (c = take (length c) (drop (length results) all)) as Hc by (rewrite <- Hrem, Happ; by rewrite take_app_length).
  destruct (Hins _ _ _ _ _ Hgood Hc Ei) as (tr1 & -> & Hs1 & HQ1). intros Hloop.
  apply IH in Hloop as (more & -> & tr2 & -> & Hs2 & HQ2).
  - exists (ms ++ more). split; [by rewrite app_assoc|]. exists (tr1 ++ tr2).
    rewrite app_assoc, Happ. split_and!; [done|by apply sends_app|by apply Forall2_app].
  - rewrite length_app, <- (list.Forall2_length _ _ _ HQ1), <- drop_drop, <- Hrem, Happ. by rewrite drop_app_length.
Qed.

(** The loop reaches its end when every round succeeds, with the fuel it has. *)
Lemma insert_chunks_total (final : A → T) next good insert fuel all remaining results sent :
  takes_chunks next good →
  (∀ chunk offset sent, good chunk → chunk = take (length chunk) (drop offset all) →
     ∃ sent', insert chunk offset sent = (sent', Ok (final <$> chunk))) →
  remaining = drop (length results) all → length remaining < fuel →
  ∃ sent', insert_chunks fuel next insert remaining results sent = (sent', Ok (results ++ (final <$> remaining))).
Proof.
  intros Hnext Hins. revert remaining results sent. induction fuel as [|fuel IH]; intros remaining results sent Hrem Hf; [lia|].
  cbn [insert_chunks]. destruct (next remaining) as [chunk rest] eqn:En.
  destruct (Hnext remaining) as (Happ & Hne & Hgood). rewrite En in *. cbn in Happ, Hne, Hgood.
  destruct chunk as [|a chunk].
  { assert (remaining = []) as -> by (destruct remaining; [done|by destruct Hne]).
    exists sent. by rewrite app_nil_r. }
  set (c := a :: chunk) in *.
  assert (c = take (length c) (drop (length results) all)) as Hc by (rewrite <- Hrem, Happ; by rewrite take_app_length).
  destruct (Hins c (length results) sent Hgood Hc) as [sent1 ->].
  destruct (IH rest (results ++ (final <$> c)) sent1) as [sent2 ->].
  - rewrite length_app, length_fmap, <- drop_drop, <- Hrem, Happ. by rewrite drop_app_length.
  - rewrite Happ, length_app in Hf. subst c. cbn in *. lia.
  - exists sent2. by rewrite <- app_assoc, <- fmap_app, <- Happ.
Qed.

(** What a strategy that matches by key knows of a model's result. *)
Definition matched (backend : Backend) (strategy : Strategy) (a : A) (m : T) : Prop :=
  match strategy with
  | Returning (ByClientKey _) | InsertThenSelect _ => read_back backend a m
  | _ => ∃ row, try_from_entity_model row = Ok m
  end.

(** The keys a strategy carries are those of the batch. *)
Definition keyed_by (backend : Backend) models (strategy : Strategy) : Prop :=
  match strategy with
  | Returning (ByClientKey keys) | InsertThenSelect keys => client_keys models backend = Some keys
  | _ => True
  end.

Lemma strategy_keyed backend models held : keyed_by backend models (strategy backend models held).
Proof.
  unfold strategy. repeat (case_match; try done).
Qed.

Lemma chunk_keys backend all keys chunk offset :
  client_keys all backend = Some keys → chunk = take (length chunk) (drop offset all) →
  NoDup (text <$> take (length chunk) (drop offset keys))
  ∧ Forall2 (λ a key, client_key backend a = Some key) chunk (take (length chunk) (drop offset keys)).
Proof.
  intros [Hnd Hk]%client_keys_spec Hc. split.
  - rewrite fmap_take, fmap_drop. eapply sublist_NoDup; [exact Hnd|].
    etransitivity; [apply sublist_take|apply sublist_drop].
  - rewrite Hc at 1. apply Forall2_take, Forall2_drop. done.
Qed.

(** Rows put in the order of the keys of [chunk] are read back as its models. *)
Lemma ordered_rows_match backend chunk keys rows rows' out :
  NoDup (text <$> keys) → Forall2 (λ a key, client_key backend a = Some key) chunk keys →
  order_by_keys rows keys = Ok rows' → collect try_from_entity_model rows' = Ok out →
  Forall2 (read_back backend) chunk out.
Proof.
  intros Hnd Hk [Ho _]%order_by_keys_spec Hr; [|done]. clear Hnd rows. apply collect_Forall2 in Hr.
  revert rows' out Ho Hr. induction Hk as [|a key chunk keys Ha Hk IH]; intros [|row rows'] out; try done.
  - by intros _ ->%Forall2_nil_inv_l.
  - cbn. intros [= Hkey Ho] (m & out' & Hm & Hr & ->)%Forall2_cons_inv_l.
    constructor; [|by eapply IH]. exists key, row. done.
Qed.

Lemma decoded_rows_match rows chunk out :
  length rows = length chunk → collect try_from_entity_model rows = Ok out →
  Forall2 (λ (_ : A) m, ∃ row, try_from_entity_model row = Ok m) chunk out.
Proof.
  intros Hl Hr%collect_Forall2. revert chunk Hl. induction Hr as [|row m rows out Hm Hr IH]; intros [|a chunk] Hl; try done.
  constructor; [by exists row|]. apply IH. by injection Hl.
Qed.

Lemma insert_returning_Ok backend order all chunk offset sent sent' out :
  keyed_by backend all (Returning order) → length chunk ≤ rows_per_statement backend →
  chunk = take (length chunk) (drop offset all) →
  insert_returning server chunk order offset sent = (sent', Ok out) →
  succeeds backend (matched backend (Returning order)) chunk sent sent' out.
Proof.
  intros Hkey Hlen Hc. unfold insert_returning. cbn [send]. destruct (server sent _) as [rows|e]; [|done].
  destruct (Nat.eqb_spec (length rows) (length chunk)) as [Hrows|]; [|done]. cbn [negb].
  intros [= <- Hout]. exists [InsertReturning chunk]. split_and!; [done| |].
  { apply sends_one; [done| |done]. split; [by apply rows_per_statement_fits|done]. }
  destruct order as [| |keys]; cbn.
  - by eapply decoded_rows_match.
  - destruct (collect _ rows) as [ms|] eqn:Er; [|done]. injection Hout as <-.
    apply collect_Forall2 in Er as Hf. pose proof (list.Forall2_length _ _ _ Hf) as Hl.
    assert (Forall (λ m, ∃ row, try_from_entity_model row = Ok m) ms) as Hms.
    { eapply Forall2_Forall_r; [exact Hf|]. apply list.Forall_forall. intros row _ m Hm. by exists row. }
    rewrite <- (sort_by_key_perm primary_key_i64) in Hms.
    apply Forall2_same_length_lookup. split.
    { rewrite sort_by_key_perm. congruence. }
    intros i a m _ Hm. eapply list.Forall_forall; [exact Hms|]. by eapply list_elem_of_lookup_2.
  - destruct (order_by_keys _ _) as [rows'|] eqn:Eo; [|done].
    destruct (chunk_keys backend all keys chunk offset Hkey Hc) as [Hnd Hk].
    by eapply ordered_rows_match.
Qed.

Lemma insert_then_select_Ok backend keys all chunk offset sent sent' out :
  client_keys all backend = Some keys → length chunk ≤ rows_per_statement backend →
  (length chunk ≤ 1 ∨ (foldr N.add 0 (row_bytes <$> chunk) ≤ MYSQL_MAX_STATEMENT_BYTES)%N) →
  chunk = take (length chunk) (drop offset all) →
  insert_then_select server chunk (take (length chunk) (drop offset keys)) sent = (sent', Ok out) →
  succeeds backend (read_back backend) chunk sent sent' out.
Proof.
  intros Hkey Hlen Hbytes Hc. unfold insert_then_select. cbn [send]. destruct (server sent _) as [?|e]; [|done].
  destruct (server (sent ++ _) _) as [rows|e]; [|done].
  destruct (order_by_keys _ _) as [rows'|] eqn:Eo; [|done]. intros [= <- Hout].
  exists [Insert chunk; Select (take (length chunk) (drop offset keys))].
  split_and!; [by rewrite <- app_assoc| |].
  { rewrite <- (app_nil_r chunk) at 1. apply (sends_app backend chunk [] [Insert chunk] [Select _]); apply sends_one; try done.
    - split; [by apply rows_per_statement_fits|done].
    - split; [left; cbn; lia|done]. }
  destruct (chunk_keys backend all keys chunk offset Hkey Hc) as [Hnd Hk].
  by eapply ordered_rows_match.
Qed.

Lemma insert_individually_Ok backend models results sent sent' out :
  insert_individually server models results sent = (sent', Ok out) →
  ∃ more, out = results ++ more
    ∧ succeeds backend (λ _ m, ∃ row, try_from_entity_model row = Ok m) models sent sent' more.
Proof.
  revert results sent. induction models as [|a models IH]; intros results sent; cbn.
  { intros [= <- <-]. exists []. rewrite app_nil_r. split; [done|]. exists []. rewrite app_nil_r.
    split_and!; [done|apply sends_nil|constructor]. }
  destruct (server sent (InsertOne a)) as [[|row ?]|e]; [done| |done].
  destruct (try_from_entity_model row) as [m|e] eqn:Em; [|done].
  intros (more & -> & tr & -> & Hs & HQ)%IH. exists (m :: more). split; [by rewrite <- app_assoc|].
  exists (InsertOne a :: tr). rewrite <- app_assoc. split_and!; [done| |constructor; [by exists row|done]].
  apply (sends_app backend [a] models [InsertOne a] tr); [|done].
  apply sends_one; [done| |done]. split; [left; cbn; lia|done].
Qed.

Lemma insert_by_strategy_Ok backend strategy models sent sent' out :
  keyed_by backend models strategy →
  insert_by_strategy server strategy models (rows_per_statement backend) sent = (sent', Ok out) →
  succeeds backend (matched backend strategy) models sent sent' out.
Proof.
  intros Hkey. pose proof (rows_per_statement_pos backend) as Hpos.
  destruct strategy as [order|keys|]; cbn [insert_by_strategy]; intros Hr.
  - eapply (insert_chunks_Ok backend (matched backend (Returning order)) _ _ _ _ models) in Hr
      as (more & -> & Hs); [done|by apply take_chunks|..|done].
    intros chunk offset sent1 sent2 ms Hgood Hc Hi. by eapply insert_returning_Ok.
  - eapply (insert_chunks_Ok backend (matched backend (InsertThenSelect keys)) _ _ _ _ models) in Hr
      as (more & -> & Hs); [done|by apply mysql_chunks|..|done].
    intros chunk offset sent1 sent2 ms [Hgood Hb] Hc Hi. by eapply insert_then_select_Ok.
  - eapply insert_individually_Ok in Hr as (more & -> & Hs). done.
Qed.

Lemma foldl_max_le (zs : list Z) z x : x ∈ z :: zs → (x ≤ foldl Z.max z zs)%Z.
Proof.
  assert (∀ zs z, z ≤ foldl Z.max z zs)%Z as Hz.
  { clear. induction zs as [|y zs IH]; intros z; cbn; [done|]. etransitivity; [|apply IH]. lia. }
  revert z. induction zs as [|y zs IH]; intros z; cbn.
  - intros ->%list_elem_of_singleton. done.
  - intros [->|[->|Hx]%elem_of_cons]%elem_of_cons.
    + etransitivity; [|apply Hz]. lia.
    + etransitivity; [|apply Hz]. lia.
    + apply IH. by right.
Qed.

(** What [then_advance] sends: nothing, or the key sequence moved past the keys. *)
Lemma then_advance_sends backend explicit sent inserted sent' r :
  then_advance server backend explicit (sent, inserted) = (sent', r) →
  ∃ tr, sent' = sent ++ tr ∧ sends backend [] tr
    ∧ ∀ out, r = Ok out → inserted = Ok out
      ∧ (explicit = true → primary_key_auto_increment = true → primary_key_names = 1 →
         backend = BPostgres →
         ∀ m z, m ∈ out → primary_key_i64 m = Some z → ∃ largest, Advance largest ∈ tr ∧ (z ≤ largest)%Z).
Proof.
  destruct inserted as [results|e]; cbn [then_advance].
  2: { intros [= <- <-]. exists []. rewrite app_nil_r. split_and!; [done|apply sends_nil|done]. }
  destruct explicit.
  2: { intros [= <- <-]. exists []. rewrite app_nil_r. split_and!; [done|apply sends_nil|].
       by intros out [= <-]. }
  unfold advance_key_sequence.
  destruct (Nat.eqb_spec primary_key_names 1) as [Hn|Hn]; cbn [negb].
  2: { intros [= <- <-]. exists []. rewrite app_nil_r. split_and!; [done|apply sends_nil|].
       by intros out [= <-]. }
  destruct (negb primary_key_auto_increment || _) eqn:Hauto.
  { intros [= <- <-]. exists []. rewrite app_nil_r. split_and!; [done|apply sends_nil|].
    intros out [= <-]. split; [done|]. intros _ Ha _ ->. by rewrite Ha in Hauto. }
  destruct (largest_key results) as [largest|] eqn:El.
  - cbn [send]. assert (sends backend [] [@Advance A largest]) as Hs.
    { apply sends_one; [done| |done]. split; [left; cbn; lia|done]. }
    destruct (server sent _) as [rows|e]; intros [= <- <-]; exists [Advance largest]; split_and!; try done.
    intros out [= <-]. split; [done|]. intros _ _ _ _ m z Hm Hz. exists largest. split; [by left|].
    unfold largest_key in El.
    assert (z ∈ omap primary_key_i64 results) as Hin by (apply list_elem_of_omap; eauto).
    destruct (omap primary_key_i64 results) as [|z0 zs]; [done|]. injection El as <-. by apply foldl_max_le.
  - intros [= <- <-]. exists []. rewrite app_nil_r. split_and!; [done|apply sends_nil|].
    intros out [= <-]. split; [done|]. intros _ _ _ _ m z Hm Hz. unfold largest_key in El.
    assert (z ∈ omap primary_key_i64 results) as Hin by (apply list_elem_of_omap; eauto).
    destruct (omap primary_key_i64 results); [by apply elem_of_nil in Hin|done].
Qed.

Lemma collect_length {B C} (f : B → result C str) l k : collect f l = Ok k → length k = length l.
Proof. intros Hc%collect_Forall2. symmetry. by eapply list.Forall2_length. Qed.

Lemma held_keys_auto models : 0 < held_keys models → primary_key_auto_increment = true.
Proof.
  unfold held_keys, holds_auto_increment_key. destruct primary_key_auto_increment; [done|].
  induction models as [|a models IH]; [cbn; lia|]. rewrite list.filter_cons, decide_False; [done|]. done.
Qed.

(** For any server, a batch of several models that succeeds ran in one
    transaction that was committed: between the begin and the commit its statements
    insert exactly the active models, in order, none of them over the backend's
    limit of bind parameters or of bytes unless it holds a single row; there is a
    result per model, and where rows are matched by client-set keys the result at a
    model's position was decoded from a row with that model's key. When models held
    keys of a PostgreSQL auto-increment column, the sequence was moved past each of
    them. *)
Theorem batch_results_match_models backend (models : list T) sent sent' out :
  2 ≤ length models → insert_many server backend models sent = (sent', Ok out) →
  ∃ actives work, storable_models models = Ok actives
    ∧ sent' = sent ++ [Begin] ++ work ++ [Commit] ∧ sends backend actives work
    ∧ length out = length models
    ∧ Forall2 (matched backend (strategy backend actives (held_keys actives))) actives out
    ∧ (0 < held_keys actives → primary_key_names = 1 → backend = BPostgres →
       ∀ m z, m ∈ out → primary_key_i64 m = Some z → ∃ largest, Advance largest ∈ work ∧ (z ≤ largest)%Z).
Proof.
  intros Hlen. unfold insert_many. destruct models as [|m0 ms]; [cbn in Hlen; lia|]. set (models := m0 :: ms) in *.
  destruct (storable_models models) as [actives|e] eqn:Es; [|done].
  destruct (Nat.eqb_spec (length models) 1) as [|_]; [lia|]. unfold in_scope. cbn [send].
  destruct (server sent Begin) as [?|]; [|done].
  destruct (insert_by_strategy _ _ _ _ _) as [sent1 inserted] eqn:Ei.
  destruct (then_advance _ _ _ _) as [sent2 [out2|]] eqn:Ea; [|done].
  destruct (server sent2 Commit) as [?|]; [|done]. intros [= <- <-].
  destruct (then_advance_sends _ _ _ _ _ _ Ea) as (tr2 & -> & Hs2 & Hout).
  destruct (Hout out2 eq_refl) as [-> Hadv].
  destruct (insert_by_strategy_Ok _ _ _ _ _ _ (strategy_keyed _ _ _) Ei) as (tr1 & -> & Hs1 & HQ).
  exists actives, (tr1 ++ tr2). split_and!; [done|by rewrite <- !app_assoc| | |done|].
  - rewrite <- (app_nil_r actives). by apply sends_app.
  - rewrite <- (list.Forall2_length _ _ _ HQ). unfold storable_models in Es.
    repeat case_match; try done. simplify_eq. by eapply collect_length.
  - intros Hheld Hn Hpg m z Hm Hz.
    pose proof (held_keys_auto actives Hheld) as Hauto.
    destruct (Hadv (proj2 (Nat.ltb_lt _ _) Hheld) Hauto Hn Hpg m z Hm Hz) as (largest & Hin & Hle).
    exists largest. split; [|done]. apply elem_of_app. by right.
Qed.

(** Only statements of the work are sent, whatever comes of them. *)
Definition works_on sent sent' : Prop := ∃ tr, sent' = sent ++ tr ∧ Forall is_work tr.

Lemma works_on_refl sent : works_on sent sent.
Proof. exists []. by rewrite app_nil_r. Qed.

Lemma works_on_snoc sent sent' st : is_work st → works_on (sent ++ [st]) sent' → works_on sent sent'.
Proof. intros Hw (tr & -> & Ht). exists (st :: tr). rewrite <- app_assoc. split; [done|by constructor]. Qed.

Lemma works_on_trans sent sent1 sent2 : works_on sent sent1 → works_on sent1 sent2 → works_on sent sent2.
Proof.
  intros (tr1 & -> & H1) (tr2 & -> & H2). exists (tr1 ++ tr2). rewrite app_assoc. split; [done|by apply Forall_app].
Qed.

Local Hint Resolve works_on_refl : core.
Local Hint Extern 1 (is_work _) => exact I : core.

Lemma insert_returning_works chunk order offset sent :
  works_on sent (insert_returning server chunk order offset sent).1.
Proof.
  unfold insert_returning. cbn [send]. destruct (server sent _); cbn; by apply (works_on_snoc _ _ (InsertReturning chunk)).
Qed.

Lemma insert_then_select_works chunk keys sent :
  works_on sent (insert_then_select server chunk keys sent).1.
Proof.
  unfold insert_then_select. cbn [send]. apply (works_on_snoc _ _ (Insert chunk)); [done|].
  destruct (server sent _); cbn; [|done]. destruct (server (sent ++ _) _); cbn; by apply (works_on_snoc _ _ (Select keys)).
Qed.

Lemma insert_individually_works models results sent :
  works_on sent (insert_individually server models results sent).1.
Proof.
  revert results sent. induction models as [|a models IH]; intros results sent; cbn; [done|].
  apply (works_on_snoc _ _ (InsertOne a)); [done|].
  destruct (server sent _) as [[|row ?]|]; cbn; [done| |done].
  destruct (try_from_entity_model row); cbn; [apply IH|done].
Qed.

Lemma insert_chunks_works fuel next insert remaining results sent :
  (∀ chunk offset sent, works_on sent (insert chunk offset sent).1) →
  works_on sent (insert_chunks fuel next insert remaining results sent : _ * result (list T) str).1.
Proof.
  intros Hins. revert remaining results sent. induction fuel as [|fuel IH]; intros remaining results sent; cbn; [done|].
  destruct (next remaining) as [[|a chunk] rest]; cbn; [done|].
  pose proof (Hins (a :: chunk) (length results) sent) as Hw.
  destruct (insert (a :: chunk) _ sent) as [sent1 [ms|e]]; cbn in *; [|done].
  eapply works_on_trans; [exact Hw|apply IH].
Qed.

Lemma insert_by_strategy_works strategy models max sent :
  works_on sent (insert_by_strategy server strategy models max sent).1.
Proof.
  destruct strategy; cbn [insert_by_strategy].
  - apply insert_chunks_works. intros. apply insert_returning_works.
  - apply insert_chunks_works. intros. apply insert_then_select_works.
  - apply insert_individually_works.
Qed.

(** For any server, a batch of several models that fails leaves nothing behind:
    either no statement was sent at all, or the begin was refused, or the last
    statement is the transaction's rollback, with no commit before it, or it is
    the commit, which the server refused with the error returned. *)
Theorem failed_batch_rolls_back backend (models : list T) sent sent' e :
  2 ≤ length models → insert_many server backend models sent = (sent', Err e) →
  (sent' = sent ∧ storable_models models = Err e)
  ∨ (sent' = sent ++ [Begin] ∧ server sent Begin = Err e)
  ∨ ∃ work, Forall is_work work
      ∧ (sent' = sent ++ [Begin] ++ work ++ [Rollback]
         ∨ sent' = sent ++ [Begin] ++ work ++ [Commit]
           ∧ server (sent ++ [Begin] ++ work) Commit = Err e).
Proof.
  intros Hlen. unfold insert_many. destruct models as [|m0 ms]; [cbn in Hlen; lia|]. set (models := m0 :: ms) in *.
  destruct (storable_models models) as [actives|e'] eqn:Es; [|intros [= <- <-]; by left].
  destruct (Nat.eqb_spec (length models) 1) as [|_]; [lia|]. unfold in_scope. cbn [send].
  destruct (server sent Begin) as [?|eb] eqn:Eb; [|intros [= <- <-]; right; by left].
  pose proof (insert_by_strategy_works (strategy backend actives (held_keys actives)) actives
    (rows_per_statement backend) (sent ++ [Begin])) as Hw.
  destruct (insert_by_strategy _ _ _ _ _) as [sent1 inserted]. destruct Hw as (tr1 & Htr1 & Hw1). cbn in Htr1. subst sent1.
  destruct (then_advance _ _ _ _) as [sent2 r] eqn:Ea.
  destruct (then_advance_sends _ _ _ _ _ _ Ea) as (tr2 & -> & Hs2 & _). intros Hr. right. right.
  exists (tr1 ++ tr2). split; [apply Forall_app; split; [done|apply (sends_work _ _ _ Hs2)]|].
  rewrite <- !app_assoc in Hr. cbn [app] in Hr. destruct r as [out|er].
  - destruct (server _ Commit) as [?|ec] eqn:Ec; [done|]. injection Hr as <- <-. right.
    split; [by rewrite <- !app_assoc|done].
  - cbn in Hr. injection Hr as <- <-. left. cbn. by simplify_list_eq.
Qed.
End batches.

(** ** A database that stores what it is sent *)

Section honest.
Context {A R T : Type} `{BatchModel A R T}.
Context (server : list (@Statement A) → @Statement A → result (list R) str).

(** The database answers every statement; the row stored for a model is [stored a]
    and is read as [final a]. It returns the rows of a multi-row insert or a select
    in any order, PostgreSQL those of an insert in order; a key that
    [returns_exactly] comes back as it was sent; and SQLite numbers the rows of a
    batch upwards as it inserts them. *)
Record honest (backend : Backend) (stored : A → R) (final : A → T) : Prop := {
  honest_insert sent chunk : ∃ rows, server sent (InsertReturning chunk) = Ok rows
    ∧ rows ≡ₚ stored <$> chunk ∧ (backend = BPostgres → rows = stored <$> chunk);
  honest_silent sent chunk : is_ok (server sent (Insert chunk));
  honest_select sent keys chunk :
    Forall2 (λ a key, client_key backend a = Some key) chunk keys →
    ∃ rows, server sent (Select keys) = Ok rows ∧ rows ≡ₚ stored <$> chunk;
  honest_one sent a : server sent (InsertOne a) = Ok [stored a];
  honest_advance sent z : is_ok (server sent (Advance z));
  honest_begin sent : is_ok (server sent Begin);
  honest_commit sent : is_ok (server sent Commit);
  honest_key a key : client_key backend a = Some key → key_of (stored a) = text key;
  honest_final a : try_from_entity_model (stored a) = Ok (final a);
}.

Definition numbered_upwards (final : A → T) (models : list A) : Prop :=
  NoDup (primary_key_i64 ∘ final <$> models)
  ∧ StronglySorted (by_key primary_key_i64) (final <$> models).

Context {backend : Backend} {stored : A → R} {final : A → T}.
Hypothesis Hhonest : honest backend stored final.

Lemma collect_stored (chunk : list A) :
  collect try_from_entity_model (stored <$> chunk) = Ok (final <$> chunk).
Proof.
  apply collect_Forall2, Forall2_fmap, Forall_Forall2_diag, list.Forall_forall. intros a _.
  by apply (honest_final _ _ _ Hhonest).
Qed.

Lemma order_by_keys_stored chunk keys rows :
  NoDup (text <$> keys) → Forall2 (λ a key, client_key backend a = Some key) chunk keys →
  rows ≡ₚ stored <$> chunk → order_by_keys rows keys = Ok (stored <$> chunk).
Proof.
  intros Hnd Hk Hp. apply order_by_keys_total; [done| |done].
  clear Hp Hnd. induction Hk as [|a key chunk keys Ha Hk IH]; [done|]. cbn. f_equal; [|done].
  by apply (honest_key _ _ _ Hhonest).
Qed.

Lemma numbered_upwards_chunk all chunk offset :
  numbered_upwards final all → chunk = take (length chunk) (drop offset all) →
  numbered_upwards final chunk.
Proof.
  intros [Hnd Hs] Hc. assert (∃ pre post, all = pre ++ chunk ++ post) as (pre & post & ->).
  { exists (take offset all), (drop (length chunk) (drop offset all)). rewrite Hc at 1. by rewrite !take_drop. }
  rewrite !fmap_app in Hnd. rewrite !(fmap_app final) in Hs. split.
  - apply list.NoDup_app in Hnd as (_ & _ & Hnd). by apply list.NoDup_app in Hnd as (Hnd & _).
  - by eapply StronglySorted_app_1_l, StronglySorted_app_1_r.
Qed.

Lemma insert_returning_total order all chunk offset sent :
  keyed_by backend all (Returning order) →
  (order = AsReturned → backend = BPostgres) →
  (order = ByIncreasingKey → numbered_upwards final all) →
  chunk = take (length chunk) (drop offset all) →
  ∃ sent', insert_returning server chunk order offset sent = (sent', Ok (final <$> chunk)).
Proof.
  intros Hkey Hret Hinc Hc. unfold insert_returning. cbn [send].
  destruct (honest_insert _ _ _ Hhonest sent chunk) as (rows & -> & Hp & Hpg).
  assert (length rows = length chunk) as Hl by (by rewrite Hp, length_fmap).
  rewrite Hl, Nat.eqb_refl. cbn [negb]. eexists. f_equal.
  destruct order as [| |keys].
  - rewrite (Hpg (Hret eq_refl)). apply collect_stored.
  - destruct (numbered_upwards_chunk all chunk offset (Hinc eq_refl) Hc) as [Hnd Hs].
    pose proof (collect_stored chunk) as Hr%collect_Forall2.
    destruct (Permutation_Forall2 (symmetry Hp) Hr) as (ms & Hpm & Hms).
    apply collect_Forall2 in Hms as ->. f_equal. apply sort_by_key_unique; [done| |done].
    by rewrite <- list_fmap_compose.
  - destruct (chunk_keys backend all keys chunk offset Hkey Hc) as [Hnd Hk].
    rewrite (order_by_keys_stored chunk) by done. apply collect_stored.
Qed.

Lemma insert_then_select_total keys all chunk offset sent :
  client_keys all backend = Some keys → chunk = take (length chunk) (drop offset all) →
  ∃ sent', insert_then_select server chunk (take (length chunk) (drop offset keys)) sent
           = (sent', Ok (final <$> chunk)).
Proof.
  intros Hkey Hc. unfold insert_then_select. cbn [send].
  pose proof (honest_silent _ _ _ Hhonest sent chunk) as Hi. destruct (server sent _); [|done].
  destruct (chunk_keys backend all keys chunk offset Hkey Hc) as [Hnd Hk].
  destruct (honest_select _ _ _ Hhonest (sent ++ [Insert chunk]) _ _ Hk) as (rows & -> & Hp).
  eexists. f_equal. rewrite (order_by_keys_stored chunk) by done. apply collect_stored.
Qed.

Lemma insert_individually_total models results sent :
  ∃ sent', insert_individually server models results sent = (sent', Ok (results ++ (final <$> models))).
Proof.
  revert results sent. induction models as [|a models IH]; intros results sent; cbn.
  { exists sent. by rewrite app_nil_r. }
  rewrite (honest_one _ _ _ Hhonest), (honest_final _ _ _ Hhonest).
  destruct (IH (results ++ [final a]) (sent ++ [InsertOne a])) as [sent' ->].
  exists sent'. by rewrite <- app_assoc.
Qed.

Lemma insert_by_strategy_total strategy models sent :
  keyed_by backend models strategy →
  (strategy = Returning AsReturned → backend = BPostgres) →
  (strategy = Returning ByIncreasingKey → numbered_upwards final models) →
  ∃ sent', insert_by_strategy server strategy models (rows_per_statement backend) sent
           = (sent', Ok (final <$> models)).
Proof.
  intros Hkey Hret Hinc. pose proof (rows_per_statement_pos backend) as Hpos.
  destruct strategy as [order|keys|]; cbn [insert_by_strategy].
  - eapply (insert_chunks_total server final _ _ _ (S (length models)) models _ []); [by apply take_chunks| |done|lia].
    intros chunk offset sent1 _ Hc. eapply insert_returning_total; [done|by intros ->; apply Hret| |done].
    intros ->. by apply Hinc.
  - eapply (insert_chunks_total server final _ _ _ (S (length models)) models _ []); [by apply mysql_chunks| |done|lia].
    intros chunk offset sent1 _ Hc. by eapply insert_then_select_total.
  - apply (insert_individually_total _ []).
Qed.

Lemma then_advance_total explicit out sent :
  ∃ sent', then_advance server backend explicit (sent, Ok out) = (sent', Ok out).
Proof.
  cbn. destruct explicit; [|eauto]. unfold advance_key_sequence.
  do 2 (destruct (negb _); [eauto|]; cbn [orb]). destruct (bool_decide _); [|eauto]. cbn [negb].
  destruct (largest_key out) as [z|]; [|eauto]. cbn [send].
  pose proof (honest_advance _ _ _ Hhonest sent z) as Hz. destruct (server sent _); [eauto|done].
Qed.

Lemma strategy_as_returned models held :
  strategy backend models held = Returning AsReturned → backend = BPostgres.
Proof. unfold strategy. repeat case_match; by rewrite ?bool_decide_eq_true in *. Qed.

Lemma in_scope_total (body : list (@Statement A) → list (@Statement A) * result (list T) str) out sent :
  (∀ sent, ∃ sent', body sent = (sent', Ok out)) → ∃ sent', in_scope server body sent = (sent', Ok out).
Proof.
  intros Hb. unfold in_scope. cbn [send].
  pose proof (honest_begin _ _ _ Hhonest sent) as Hbegin. destruct (server sent Begin); [|done].
  destruct (Hb (sent ++ [Begin])) as [sent1 ->].
  pose proof (honest_commit _ _ _ Hhonest sent1) as Hcommit. destruct (server sent1 Commit); [eauto|done].
Qed.

End honest.

(** ** At a concrete table *)

Section demo.
(** Models that are their own 64-bit key, under two columns. *)
#[local] Instance demo_batch : BatchModel N N N := {
  primary_key_auto_increment := false;
  primary_key_names := 1;
  column_names := 2;
  key_columns a := [Set_ (VInteger 64 true (Some (Z.of_N a)))];
  active_columns a := [Set_ (VInteger 64 true (Some (Z.of_N a))); NotSet];
  row_key r := [VInteger 64 true (Some (Z.of_N r))];
  ensure_fields_storable := Ok tt;
  try_into_active_model := Ok;
  ensure_active_values_storable _ := Ok tt;
  try_from_entity_model := Ok;
  primary_key_i64 m := Some (Z.of_N m);
  debug values :=
    match values with [VInteger _ _ (Some z)] => lit "Int(" ++ show_N (Z.to_N z) ++ lit ")" | _ => [] end;
}.

Definition selected (key : ClientKey) : option N :=
  match values key with [VInteger _ _ (Some z)] => Some (Z.to_N z) | _ => None end.

(** Stores everything and returns rows backwards. *)
Definition backward_server (_ : list (@Statement N)) (st : @Statement N) : result (list N) str :=
  match st with
  | InsertReturning chunk => Ok (reverse chunk)
  | Select keys => Ok (reverse (omap selected keys))
  | InsertOne a => Ok [a]
  | _ => Ok []
  end.

(** Skips the first row, as a trigger might. *)
Definition short_server (_ : list (@Statement N)) (st : @Statement N) : result (list N) str :=
  match st with InsertReturning chunk => Ok (tail chunk) | _ => Ok [] end.

Lemma backward_server_honest : honest backward_server BSqlite (λ a, a) (λ a, a).
Proof.
  split; try done.
  - intros sent chunk. exists (reverse chunk). split_and!; [done| |done]. rewrite list_fmap_id. apply reverse_Permutation.
  - intros sent keys chunk Hk. exists (reverse (omap selected keys)). split; [done|].
    rewrite reverse_Permutation, list_fmap_id.
    assert (omap selected keys = chunk) as ->; [|done].
    induction Hk as [|a key chunk keys Ha Hk IH]; [done|]. cbn in Ha. injection Ha as <-. cbn.
    by rewrite IH, N2Z.id.
  - intros a key Hk. cbn in Hk. by injection Hk as <-.
Qed.

Lemma batch_results_match_models_witness :
  ∃ sent', insert_many backward_server BSqlite [3; 1; 2]%N [] = (sent', Ok [3; 1; 2]%N)
    ∧ ∃ actives work, storable_models [3; 1; 2]%N = Ok actives
    ∧ sent' = [] ++ [Begin] ++ work ++ [Commit] ∧ sends BSqlite actives work
    ∧ length [3; 1; 2]%N = 3
    ∧ Forall2 (matched BSqlite (strategy BSqlite actives (held_keys actives))) actives [3; 1; 2]%N
    ∧ (0 < held_keys actives → primary_key_names = 1 → BSqlite = BPostgres →
       ∀ m z, m ∈ [3; 1; 2]%N → primary_key_i64 m = Some z → ∃ largest, Advance largest ∈ work ∧ (z ≤ largest)%Z).
Proof.
  eexists. split; [vm_compute; reflexivity|].
  apply (batch_results_match_models backward_server BSqlite [3; 1; 2]%N []); [cbn; lia|vm_compute; reflexivity].
Defined.

Lemma failed_batch_rolls_back_witness :
  ∃ e, insert_many short_server BSqlite [3; 1; 2]%N []
       = ([Begin; InsertReturning [3; 1; 2]%N; Rollback], Err e)
    ∧ (([Begin; InsertReturning [3; 1; 2]%N; Rollback] = [] ∧ storable_models [3; 1; 2]%N = Err e)
       ∨ ([Begin; InsertReturning [3; 1; 2]%N; Rollback] = [] ++ [Begin] ∧ short_server [] Begin = Err e)
       ∨ ∃ work, Forall is_work work
         ∧ ([Begin; InsertReturning [3; 1; 2]%N; Rollback] = [] ++ [Begin] ++ work ++ [Rollback]
            ∨ [Begin; InsertReturning [3; 1; 2]%N; Rollback] = [] ++ [Begin] ++ work ++ [Commit]
              ∧ short_server ([] ++ [Begin] ++ work) Commit = Err e)).
Proof.
  eexists. split; [vm_compute; reflexivity|].
  apply (failed_batch_rolls_back short_server BSqlite [3; 1; 2]%N []); [cbn; lia|vm_compute; reflexivity].
Defined.

End demo.
