(* ===== verification/DirtyTracking.v ===== *)
(** * Dirty tracking

    src/src/model/dirty_tracking.rs: the bounded store of baselines that models are
    compared with, what a transaction that rolls back does to it, and the fields of
    a model that changed.

    Parameters: [J], the JSON values a field compares by; [shuffle], the order in
    which a hash map is walked; and, per model type, what its derive macro
    generates (class [DirtyModel]). A row's key is its model type with the key's
    JSON text. Operations of the store run under its lock, so a run of the
    program is a sequence of them; the undo steps a transaction holds run or are
    dropped at any later point. *)

From stdpp Require Import gmap.
From S2P Require Import Prelude Dialect.

Definition RowKey : Type := N * str.
Definition Origin : Type := option N.

Definition DEFAULT_SNAPSHOT_CAPACITY : nat := N.to_nat 10000.

Notation SnapshotValues := (gmap str).

Section store.
Context {J : Type} `{EqDecision J}.

Record SnapshotEntry := { sequence : N; values : option (SnapshotValues J) }.

Record SnapshotStore := {
  entries : gmap RowKey (gmap Origin SnapshotEntry);
  order : gmap N (RowKey * Origin);
  next_sequence : N;
  capacity : nat;
}.

Definition SnapshotStore_new (capacity : nat) : SnapshotStore :=
  {| entries := ∅; order := ∅; next_sequence := 0; capacity := Nat.max capacity 1 |}.

(** The snapshot of [row] in one pool. *)
Definition baseline (s : SnapshotStore) (row : RowKey) (o : Origin) : option SnapshotEntry :=
  baselines ← entries s !! row; baselines !! o.

Definition get (s : SnapshotStore) (row : RowKey) : option (SnapshotValues J) :=
  baselines ← entries s !! row;
  match (values ∘ snd) <$> map_to_list baselines with
  | Some first :: others => if forallb (λ v, bool_decide (v = Some first)) others then Some first else None
  | _ => None
  end.

(** The least key of an ordered map. *)
Definition first_key {X} (m : gmap N X) : option N :=
  foldr (λ k least, Some (match least with None => k | Some l => N.min k l end)) None (map_to_list m).*1.

Definition set_entries (s : SnapshotStore) e o : SnapshotStore :=
  {| entries := e; order := o; next_sequence := next_sequence s; capacity := capacity s |}.

(** The eviction loop of [put]; each round takes a snapshot out of [order]. *)
Fixpoint evict_rows (fuel : nat) (s : SnapshotStore) : SnapshotStore :=
  match fuel with
  | 0 => s
  | S fuel =>
      if capacity s <? size (order s) then
        match first_key (order s) with
        | None => s
        | Some k =>
            match order s !! k with
            | None => s
            | Some (row, _) =>
                let gone := match entries s !! row with Some m => (map_to_list m).*2 | None => [] end in
                evict_rows fuel
                  (set_entries s (base.delete row (entries s))
                     (foldr (λ e ord, base.delete (sequence e) ord) (base.delete k (order s)) gone))
            end
        end
      else s
  end.

Definition put (row : RowKey) (o : Origin) (e : SnapshotEntry) (s : SnapshotStore) : SnapshotStore :=
  let baselines := default ∅ (entries s !! row) in
  let ord := <[sequence e := (row, o)]> (order s) in
  let ord := match baselines !! o with Some previous => base.delete (sequence previous) ord | None => ord end in
  evict_rows (size ord) (set_entries s (<[row := <[o := e]> baselines]> (entries s)) ord).

(** [self.next_sequence = self.next_sequence.wrapping_add(1)]. *)
Definition bump (s : SnapshotStore) : SnapshotStore :=
  {| entries := entries s; order := order s; next_sequence := (next_sequence s + 1) mod 2 ^ 64;
     capacity := capacity s |}.

Definition insert (row : RowKey) (o : Origin) (v : option (SnapshotValues J)) (s : SnapshotStore)
    : SnapshotStore * N :=
  (put row o {| sequence := next_sequence s; values := v |} (bump s), next_sequence s).

Definition take (row : RowKey) (o : Origin) (s : SnapshotStore) : SnapshotStore * option SnapshotEntry :=
  match entries s !! row with
  | None => (s, None)
  | Some baselines =>
      match baselines !! o with
      | None => (s, None)
      | Some e =>
          let baselines := base.delete o baselines in
          (set_entries s
             (if bool_decide (baselines = ∅) then base.delete row (entries s)
              else <[row := baselines]> (entries s))
             (base.delete (sequence e) (order s)), Some e)
      end
  end.

(** Whether another pool of [row] holds a baseline that is not [previous]'s. *)
Definition differs_elsewhere (s : SnapshotStore) (row : RowKey) (previous : SnapshotEntry) : bool :=
  match entries s !! row with
  | None => false
  | Some others =>
      existsb (λ oe, bool_decide (values previous = None) || bool_decide (values oe.2 ≠ values previous))
        (map_to_list others)
  end.

Definition replace (row : RowKey) (o : Origin) (v : option (SnapshotValues J)) (s : SnapshotStore)
    : SnapshotStore * (option SnapshotEntry * option N) :=
  let '(s, previous) := take row o s in
  let forget :=
    match v, previous with
    | Some _, _ => false
    | None, Some p => negb (differs_elsewhere s row p)
    | None, None => true
    end in
  if forget then (s, (previous, None))
  else let '(s, seq) := insert row o v s in (s, (previous, Some seq)).

Definition restore (row : RowKey) (o : Origin) (standing : option N) (previous : option SnapshotEntry)
    (s : SnapshotStore) : SnapshotStore :=
  if bool_decide (sequence <$> baseline s row o = standing) then
    let s := (take row o s).1 in
    match previous with Some e => put row o e s | None => s end
  else s.

Definition clear (s : SnapshotStore) : SnapshotStore := set_entries s ∅ ∅.

(** ** What transactions hold *)

Inductive Undo :=
  | UndoSet (row : RowKey) (o : Origin) (standing : option N) (previous : option SnapshotEntry)
  | UndoInvalidated (undo : list (RowKey * Origin * N * option SnapshotEntry)).

(** The store, and the undo steps that transactions hold. *)
Record State := { store : SnapshotStore; pending : list Undo }.

Definition set_baseline (row : RowKey) (o : Origin) (v : option (SnapshotValues J)) (s : State) : State :=
  let '(st, (previous, standing)) := replace row o v (store s) in
  {| store := st; pending := pending s ++ [UndoSet row o standing previous] |}.

Context (shuffle : list (RowKey * Origin) → list (RowKey * Origin)).

(** The snapshots of a model type. *)
Definition snapshots_of (ty : N) (s : SnapshotStore) : list (RowKey * Origin) :=
  filter (λ ro, ro.1.1 = ty) (map_to_list (entries s) ≫= λ rm, (λ oe, (rm.1, oe.1)) <$> map_to_list rm.2).

Fixpoint invalidate_each (keys : list (RowKey * Origin)) (s : SnapshotStore)
    : SnapshotStore * list (RowKey * Origin * N * option SnapshotEntry) :=
  match keys with
  | [] => (s, [])
  | (row, o) :: keys =>
      let '(s, previous) := take row o s in
      let '(s, standing) := insert row o None s in
      let '(s, undo) := invalidate_each keys s in
      (s, (row, o, standing, previous) :: undo)
  end.

Definition invalidate_model (ty : N) (s : State) : State :=
  let '(st, undo) := invalidate_each (shuffle (snapshots_of ty (store s))) (store s) in
  {| store := st; pending := pending s ++ [UndoInvalidated undo] |}.

Definition run_undo (u : Undo) (s : SnapshotStore) : SnapshotStore :=
  match u with
  | UndoSet row o standing previous => restore row o standing previous s
  | UndoInvalidated undo =>
      foldl (λ s '(row, o, standing, previous), restore row o (Some standing) previous s) s undo
  end.

(** Dropping an undo step unrun: tombstones of an invalidation go, those that
    still stand. *)
Definition drop_undo (u : Undo) (s : SnapshotStore) : SnapshotStore :=
  match u with
  | UndoSet _ _ _ _ => s
  | UndoInvalidated undo =>
      foldl (λ s '(row, o, standing, _),
        if bool_decide (sequence <$> baseline s row o = Some standing) then (take row o s).1 else s) s undo
  end.

Inductive Op :=
  | SetBaseline (row : RowKey) (o : Origin) (v : option (SnapshotValues J))
  | InvalidateModel (ty : N)
  | RunUndo (n : nat)      (* a transaction rolls back the nth undo step *)
  | DropUndo (n : nat)     (* it commits, or there is none *)
  | ClearAll.

Definition settle (f : Undo → SnapshotStore → SnapshotStore) (n : nat) (s : State) : State :=
  match pending s !! n with
  | None => s
  | Some u => {| store := f u (store s); pending := base.delete n (pending s) |}
  end.

Definition step (op : Op) (s : State) : State :=
  match op with
  | SetBaseline row o v => set_baseline row o v s
  | InvalidateModel ty => invalidate_model ty s
  | RunUndo n => settle run_undo n s
  | DropUndo n => settle drop_undo n s
  | ClearAll => {| store := clear (store s); pending := pending s |}
  end.

Definition run_ops (ops : list Op) (s : State) : State := foldl (λ s op, step op s) s ops.

Definition start (cap : nat) : State := {| store := SnapshotStore_new cap; pending := [] |}.
End store.
Arguments SnapshotEntry : clear implicits.
Arguments SnapshotStore : clear implicits.
Arguments Undo : clear implicits.
Arguments State : clear implicits.
Arguments Op : clear implicits.

(** ** Models *)

(** What the derive macros generate for a model type. *)
Class DirtyModel (M J : Type) := {
  type_id : N;
  table_name : str;
  field_names : list str;
  primary_key_is_new : M → bool;
  primary_key_json : M → result str str;
  field_compare_value : M → str → result (option J) str;
  canonical_field_name : str → option str;
}.

Section models.
Context {M J : Type} `{EqDecision J} `{DirtyModel M J}.

(** The pool of a load in progress, or the scope's. *)
Definition origin (loading : option Origin) (scope : Origin) : Origin := default scope loading.

Definition row_key_for_model (m : M) : result (option RowKey) str :=
  if primary_key_is_new m then Ok None
  else match primary_key_json m with Ok key => Ok (Some (type_id, key)) | Err e => Err e end.

Fixpoint capture_fields (m : M) (fields : list str) (snapshot : SnapshotValues J)
    : result (SnapshotValues J) str :=
  match fields with
  | [] => Ok snapshot
  | field :: fields =>
      match field_compare_value m field with
      | Err e => Err e
      | Ok (Some value) => capture_fields m fields (<[field := value]> snapshot)
      | Ok None => capture_fields m fields snapshot
      end
  end.

Definition capture_snapshot (m : M) : result (SnapshotValues J) str := capture_fields m field_names ∅.

Definition remember_model (o : Origin) (m : M) (st : State J) : State J * result unit str :=
  match row_key_for_model m with
  | Err e => (st, Err e)
  | Ok None => (st, Ok tt)
  | Ok (Some row) =>
      match capture_snapshot m with
      | Err e => (st, Err e)
      | Ok snapshot => (set_baseline row o (Some snapshot) st, Ok tt)
      end
  end.

Fixpoint remember_collection (o : Origin) (ms : list M) (st : State J) : State J * result unit str :=
  match ms with
  | [] => (st, Ok tt)
  | m :: ms =>
      match remember_model o m st with
      | (st, Err e) => (st, Err e)
      | (st, Ok _) => remember_collection o ms st
      end
  end.

Definition forget_model (o : Origin) (m : M) (st : State J) : State J * result unit str :=
  match row_key_for_model m with
  | Err e => (st, Err e)
  | Ok None => (st, Ok tt)
  | Ok (Some row) => (set_baseline row o None st, Ok tt)
  end.

Definition read_snapshot {X} (m : M) (read : SnapshotValues J → X) (s : SnapshotStore J)
    : result (option X) str :=
  match row_key_for_model m with
  | Err e => Err e
  | Ok None => Ok None
  | Ok (Some row) => Ok (read <$> get s row)
  end.

Fixpoint changed_among (m : M) (snapshot : SnapshotValues J) (fields : list str) : result (list str) str :=
  match fields with
  | [] => Ok []
  | field :: fields =>
      match field_compare_value m field with
      | Err e => Err e
      | Ok value =>
          match changed_among m snapshot fields with
          | Err e => Err e
          | Ok changed => Ok (if bool_decide (value = snapshot !! field) then changed else field :: changed)
          end
      end
  end.

Definition changed_fields (m : M) (s : SnapshotStore J) : result (option (list str)) str :=
  match read_snapshot m id s with
  | Err e => Err e
  | Ok None => Ok None
  | Ok (Some snapshot) =>
      match changed_among m snapshot field_names with Ok l => Ok (Some l) | Err e => Err e end
  end.

Definition original_value (m : M) (field : str) (s : SnapshotStore J) : result (option (option J)) str :=
  match canonical_field_name field with
  | None => Err (lit "unknown field or column '" ++ field ++ lit "' for model '" ++ table_name ++ lit "'")
  | Some name => read_snapshot m (λ snapshot, snapshot !! name) s
  end.
End models.

(** ** The store is in sync *)

Section invariant.
Context {J : Type} `{EqDecision J}.
Implicit Types (s : SnapshotStore J) (e : SnapshotEntry J).

(** [order] has exactly the snapshots of [entries], by their sequence. *)
Record wf s : Prop := {
  wf_order k row o :
    order s !! k = Some (row, o) ↔ ∃ e, baseline s row o = Some e ∧ sequence e = k;
  wf_nonempty row baselines : entries s !! row = Some baselines → baselines ≠ ∅;
  wf_capacity : 1 ≤ capacity s;
}.

Definition bounded s : Prop := size (order s) ≤ capacity s.

Lemma wf_inj s row o e row' o' e' :
  wf s → baseline s row o = Some e → baseline s row' o' = Some e' → sequence e = sequence e' →
  row = row' ∧ o = o'.
Proof.
  intros Hwf He He' Heq.
  assert (order s !! sequence e = Some (row, o)) as H1 by (apply wf_order; eauto).
  assert (order s !! sequence e = Some (row', o')) as H2 by (apply wf_order; eauto).
  rewrite H1 in H2. by injection H2 as -> ->.
Qed.

Lemma wf_absent s k : wf s → order s !! k = None ↔ ∀ row o e, baseline s row o = Some e → sequence e ≠ k.
Proof.
  intros Hwf. split.
  - intros Hk row o e He <-. assert (order s !! sequence e = Some (row, o)) by (apply wf_order; eauto). congruence.
  - intros Hn. destruct (order s !! k) as [[row o]|] eqn:E; [|done].
    apply wf_order in E as (e & He & Hs); [|done]. by apply Hn in He.
Qed.

(** Two stores in sync that hold the same snapshots are the same but for the next
    sequence. *)
Lemma wf_ext s s' :
  wf s → wf s' → (∀ row o, baseline s row o = baseline s' row o) →
  entries s = entries s' ∧ order s = order s'.
Proof.
  intros Hwf Hwf' Hb. split.
  - apply map_eq. intros row. specialize (Hb row). unfold baseline in Hb.
    destruct (entries s !! row) as [m|] eqn:E, (entries s' !! row) as [m'|] eqn:E'; cbn in Hb.
    + f_equal. by apply map_eq.
    + destruct (wf_nonempty s Hwf row m E). by apply map_eq.
    + destruct (wf_nonempty s' Hwf' row m' E'). by apply map_eq.
    + done.
  - apply map_eq. intros k. apply option_eq. intros [row o].
    rewrite (wf_order s Hwf), (wf_order s' Hwf'). by rewrite Hb.
Qed.

Lemma wf_new cap : wf (SnapshotStore_new cap).
Proof.
  split; cbn; [|done|lia]. intros k row o. rewrite lookup_empty. split; [done|].
  intros (e & He & _). unfold baseline in He. cbn in He. by rewrite lookup_empty in He.
Qed.

Lemma lookup_delete_all (es : list (SnapshotEntry J)) (ord : gmap N (RowKey * Origin)) k :
  foldr (λ e ord, base.delete (sequence e) ord) ord es !! k
  = if bool_decide (k ∈ sequence <$> es) then None else ord !! k.
Proof.
  induction es as [|e es IH]; cbn; [done|].
  destruct (decide (sequence e = k)) as [->|Hne].
  - rewrite lookup_delete_eq, bool_decide_true; [done|by left].
  - rewrite lookup_delete_ne, IH by done. apply bool_decide_ext || f_equal.
    erewrite bool_decide_ext; [done|]. rewrite elem_of_cons. naive_solver.
Qed.

Lemma first_key_Some {X} (m : gmap N X) k :
  first_key m = Some k → is_Some (m !! k) ∧ ∀ k' x, m !! k' = Some x → (k ≤ k')%N.
Proof.
  unfold first_key. intros Hf.
  assert (k ∈ (map_to_list m).*1 ∧ ∀ k', k' ∈ (map_to_list m).*1 → (k ≤ k')%N) as [Hin Hle].
  { revert k Hf. induction (map_to_list m).*1 as [|a l IH]; cbn; [done|]. intros k [= <-].
    destruct (foldr _ None l) as [b|] eqn:E.
    - destruct (IH b eq_refl) as [Hb Hl]. split.
      + destruct (N.min_spec a b) as [[_ ->]|[_ ->]]; [by left|by right].
      + intros k' [->|Hk]%elem_of_cons; [lia|]. specialize (Hl _ Hk). lia.
    - assert (l = []) as -> by (destruct l; [done|cbn in E; by destruct (foldr _ _ _)]).
      split; [by left|]. intros k' ->%list_elem_of_singleton. done. }
  split.
  - apply list_elem_of_fmap in Hin as ([k' x] & -> & Hx%elem_of_map_to_list). by exists x.
  - intros k' x Hx. apply Hle, list_elem_of_fmap. exists (k', x). split; [done|by apply elem_of_map_to_list].
Qed.

Lemma first_key_None {X} (m : gmap N X) : first_key m = None → m = ∅.
Proof.
  unfold first_key. intros Hf. apply map_to_list_empty_iff. destruct (map_to_list m) as [|[k x] l]; [done|].
  cbn in Hf. by destruct (foldr _ _ _).
Qed.

(** Without its row of the oldest snapshot the store is in sync still. *)
Lemma wf_without_row s k row o :
  wf s → order s !! k = Some (row, o) →
  let gone := match entries s !! row with Some m => (map_to_list m).*2 | None => [] end in
  let s' := set_entries s (base.delete row (entries s))
              (foldr (λ e ord, base.delete (sequence e) ord) (base.delete k (order s)) gone) in
  wf s' ∧ size (order s') < size (order s)
  ∧ ∀ r p, baseline s' r p = if decide (r = row) then None else baseline s r p.
Proof.
  intros Hwf Hk gone s'.
  assert (∀ r p, baseline s' r p = if decide (r = row) then None else baseline s r p) as Hb.
  { intros r p. unfold baseline, s'. cbn. case_decide as Hd; [subst; by rewrite lookup_delete_eq|].
    by rewrite lookup_delete_ne. }
  assert (∀ e, e ∈ gone ↔ ∃ p, baseline s row p = Some e) as Hgone.
  { intros e. unfold gone, baseline. destruct (entries s !! row) as [m|]; cbn.
    - rewrite list_elem_of_fmap. split.
      + intros ([p e'] & -> & He%elem_of_map_to_list). by exists p.
      + intros [p He]. exists (p, e). split; [done|by apply elem_of_map_to_list].
    - split; [by intros ?%elem_of_nil|by intros []]. }
  assert (∀ k', order s' !! k' = if bool_decide (k' ∈ sequence <$> gone) then None else order s !! k') as Ho.
  { intros k'. unfold s'. cbn. rewrite lookup_delete_all. case_bool_decide as Hd; [done|].
    rewrite lookup_delete_ne; [done|]. intros <-. apply Hd. apply list_elem_of_fmap.
    apply wf_order in Hk as (e & He & <-); [|done]. exists e. split; [done|]. apply Hgone. eauto. }
  split_and!; [|..|done].
  - split; cbn; [|intros r m [_ Hm]%lookup_delete_Some; by eapply wf_nonempty|apply (wf_capacity s Hwf)].
    intros k' r p. change (order s' !! k' = Some (r, p) ↔ ∃ e, baseline s' r p = Some e ∧ sequence e = k').
    rewrite Ho, Hb. case_bool_decide as Hd.
    + apply list_elem_of_fmap in Hd as (e & -> & [p' He]%Hgone). split; [done|].
      case_decide as Hr; [by intros (? & ? & _)|]. intros (e' & He' & Heq).
      by destruct (wf_inj _ _ _ _ _ _ _ Hwf He' He Heq).
    + case_decide as Hr.
      * subst. split; [|by intros (? & ? & _)]. intros (e & He & <-)%wf_order; [|done]. destruct Hd.
        apply list_elem_of_fmap. exists e. split; [done|]. apply Hgone. eauto.
      * apply (wf_order s Hwf).
  - apply map_subset_size. split.
    + apply map_subseteq_spec. intros k' x. rewrite Ho. by case_bool_decide.
    + intros Hsub. eapply map_subseteq_spec in Hsub; [|exact Hk]. rewrite Ho in Hsub.
      case_bool_decide as Hd; [done|]. apply Hd. apply list_elem_of_fmap.
      apply wf_order in Hk as (e & He & <-); [|done]. exists e. split; [done|]. apply Hgone. eauto.
Qed.

(** What putting a snapshot does: rows leave whole, oldest first, until the store
    is within its capacity; nothing else changes but the snapshot put. *)
Record evicts (gone : gset RowKey) s s' : Prop := {
  evicts_baseline r p : baseline s' r p = if decide (r ∈ gone) then None else baseline s r p;
  evicts_oldest r : r ∈ gone →
    ∃ p e, baseline s r p = Some e
      ∧ ∀ r' p' e', baseline s' r' p' = Some e' → (sequence e < sequence e')%N;
}.

Lemma evict_rows_spec fuel s :
  wf s → size (order s) ≤ fuel →
  let s' := evict_rows fuel s in
  wf s' ∧ bounded s' ∧ capacity s' = capacity s ∧ next_sequence s' = next_sequence s
  ∧ ∃ gone, evicts gone s s' ∧ (bounded s → gone = ∅).
Proof.
  revert s. induction fuel as [|fuel IH]; intros s Hwf Hsize; cbn -[Nat.ltb].
  { split_and!; [done|unfold bounded; lia|done|done|]. exists ∅. split; [|done]. split; [|done].
    intros r p. by rewrite decide_False. }
  destruct (Nat.ltb_spec (capacity s) (size (order s))) as [Hlt|Hge].
  2: { split_and!; [done|done|done|done|]. exists ∅. split; [|done]. split; [|done].
       intros r p. by rewrite decide_False. }
  destruct (first_key (order s)) as [k|] eqn:Ek.
  2: { apply first_key_None in Ek. rewrite Ek, map_size_empty in Hlt. lia. }
  apply first_key_Some in Ek as [[[row o] Hk] Hmin]. rewrite Hk.
  pose proof (wf_without_row s k row o Hwf Hk) as (Hwf1 & Hsize1 & Hb1).
  set (s1 := set_entries _ _ _) in *. destruct (IH s1 Hwf1) as (Hwf' & Hbound & Hcap & Hnext & gone & [Hbase Hold] & _); [lia|].
  split_and!; [done|done|by rewrite Hcap|by rewrite Hnext|]. exists ({[row]} ∪ gone).
  split; [|unfold bounded; lia]. split.
  - intros r p. rewrite Hbase, Hb1. repeat case_decide; try done; set_solver.
  - intros r [->%elem_of_singleton|Hr]%elem_of_union.
    + apply wf_order in Hk as (e & He & Hs); [|done]. exists o, e. split; [done|].
      intros r' p' e' He'. rewrite Hbase, Hb1 in He'. repeat case_decide; try done.
      assert (order s !! sequence e' = Some (r', p')) as Ho by (apply wf_order; eauto).
      specialize (Hmin _ _ Ho). assert (sequence e ≠ sequence e'); [|lia].
      intros Heq. by destruct (wf_inj _ _ _ _ _ _ _ Hwf He He' Heq).
    + destruct (Hold r Hr) as (p & e & He & Hlt'). rewrite Hb1 in He. case_decide; [done|]. eauto.
Qed.

(** A store with the snapshot of one place set, or taken out. *)
Definition baseline_with s row o (new : option (SnapshotEntry J)) r p : option (SnapshotEntry J) :=
  if decide (r = row ∧ p = o) then new else baseline s r p.

Lemma take_spec row o s :
  wf s →
  let '(s', previous) := take row o s in
  wf s' ∧ previous = baseline s row o ∧ capacity s' = capacity s ∧ next_sequence s' = next_sequence s
  ∧ size (order s') = size (order s) - (if previous then 1 else 0)
  ∧ ∀ r p, baseline s' r p = baseline_with s row o None r p.
Proof.
  intros Hwf. unfold take. 
  assert (baseline s row o = None → ∀ r p, baseline s r p = baseline_with s row o None r p) as Hsame.
  { intros Hn r p. unfold baseline_with. case_decide as Hd; [|done]. by destruct Hd as [-> ->]. }
  destruct (entries s !! row) as [m|] eqn:Em.
  2: { assert (baseline s row o = None) as Hn by (unfold baseline; by rewrite Em).
       split_and!; [done|done|done|done|lia|by apply Hsame]. }
  destruct (m !! o) as [e|] eqn:Eo.
  2: { assert (baseline s row o = None) as Hn by (unfold baseline; by rewrite Em).
       split_and!; [done|done|done|done|lia|by apply Hsame]. }
  assert (baseline s row o = Some e) as He by (unfold baseline; by rewrite Em).
  set (s' := set_entries _ _ _).
  assert (∀ r p, baseline s' r p = baseline_with s row o None r p) as Hb.
  { intros r p. unfold baseline_with, baseline, s'. cbn.
    destruct (decide (r = row)) as [->|Hr].
    - rewrite Em. cbn. case_bool_decide as Hd.
      + rewrite lookup_delete_eq. cbn. case_decide as Hp; [done|].
        assert (base.delete o m !! p = m !! p) as <- by (apply lookup_delete_ne; naive_solver). by rewrite Hd.
      + rewrite lookup_insert_eq. cbn. case_decide as Hp; [destruct Hp as [_ ->]; by rewrite lookup_delete_eq|].
        rewrite lookup_delete_ne; naive_solver.
    - rewrite decide_False by naive_solver. case_bool_decide; [by rewrite lookup_delete_ne|by rewrite lookup_insert_ne]. }
  assert (order s !! sequence e = Some (row, o)) as Hord by (apply wf_order; eauto).
  split_and!; [|done|done|done|cbn; rewrite map_size_delete, Hord; lia|done].
  split; [|..|apply (wf_capacity s Hwf)].
  - intros k r p. rewrite Hb. unfold baseline_with, s'. cbn. rewrite lookup_delete_Some, (wf_order s Hwf).
    case_decide as Hd.
    + destruct Hd as [-> ->]. split; [|by intros (? & ? & _)]. intros [Hne (e' & He' & <-)]. congruence.
    + split; [by intros [_ ?]|]. intros (e' & He' & <-). split; [|eauto]. intros Heq.
      destruct (wf_inj _ _ _ _ _ _ _ Hwf He He' Heq) as [-> ->]. by destruct Hd.
  - intros r m'. unfold s'. cbn. case_bool_decide as Hd.
    + intros [_ Hm]%lookup_delete_Some. by eapply wf_nonempty.
    + intros [[-> <-]|[_ Hm]]%lookup_insert_Some; [done|by eapply wf_nonempty].
Qed.

Lemma put_spec row o e s :
  wf s → order s !! sequence e = None →
  let s' := put row o e s in
  wf s' ∧ bounded s' ∧ capacity s' = capacity s ∧ next_sequence s' = next_sequence s
  ∧ ∃ s1 gone, evicts gone s1 s' ∧ (∀ r p, baseline s1 r p = baseline_with s row o (Some e) r p)
    ∧ ((if baseline s row o then size (order s) else S (size (order s))) ≤ capacity s → gone = ∅).
Proof.
  intros Hwf Hfresh. unfold put. set (m := default ∅ (entries s !! row)).
  assert (m !! o = baseline s row o) as Hm.
  { unfold m, baseline. destruct (entries s !! row); cbn; [done|]. apply lookup_empty. }
  set (ord := match m !! o with Some _ => _ | None => _ end).
  set (s1 := set_entries _ _ _).
  assert (∀ r p, baseline s1 r p = baseline_with s row o (Some e) r p) as Hb.
  { intros r p. unfold baseline_with, baseline, s1. cbn. destruct (decide (r = row)) as [->|Hr].
    - rewrite lookup_insert_eq. cbn. case_decide as Hd; [destruct Hd as [_ ->]; by rewrite lookup_insert_eq|].
      rewrite lookup_insert_ne by naive_solver. unfold m. destruct (entries s !! row); cbn; [done|]. apply lookup_empty.
    - rewrite lookup_insert_ne, decide_False by naive_solver. done. }
  assert (∀ k, ord !! k = if decide (k = sequence e) then Some (row, o) else
    if decide (Some k = sequence <$> baseline s row o) then None else order s !! k) as Ho.
  { intros k. unfold ord. rewrite Hm. destruct (baseline s row o) as [p|] eqn:Ep; cbn.
    - assert (sequence p ≠ sequence e) as Hne.
      { intros Heq. rewrite <- Heq in Hfresh. rewrite wf_absent in Hfresh by done. by apply Hfresh in Ep. }
      destruct (decide (k = sequence e)) as [->|]; [by rewrite lookup_delete_ne, lookup_insert_eq|].
      destruct (decide (k = sequence p)) as [->|]; [by rewrite lookup_delete_eq, decide_True|].
      rewrite lookup_delete_ne, lookup_insert_ne, decide_False; naive_solver.
    - destruct (decide (k = sequence e)) as [->|]; [by rewrite lookup_insert_eq|]. by rewrite lookup_insert_ne. }
  assert (wf s1) as Hwf1.
  { split; [|..|apply (wf_capacity s Hwf)].
    - intros k r p. rewrite Hb. unfold baseline_with, s1. cbn. rewrite Ho.
      rewrite wf_absent in Hfresh by done. destruct (decide (k = sequence e)) as [Hk|Hk], (decide (r = row ∧ p = o)) as [Hd|Hd].
      + destruct Hd as [-> ->]. naive_solver.
      + split; [intros [= <- <-]; by destruct Hd|]. intros (e' & He' & Hs). subst. by destruct (Hfresh _ _ _ He').
      + destruct Hd as [-> ->]. split; [|naive_solver]. case_decide as Hp; [done|].
        intros (e' & He' & <-)%(wf_order s Hwf). rewrite He' in Hp. by destruct Hp.
      + case_decide as Hp; [|apply (wf_order s Hwf)]. split; [done|]. intros (e' & He' & <-).
        destruct (baseline s row o) as [q|] eqn:Eq; [|done]. injection Hp as Hp.
        destruct (wf_inj _ _ _ _ _ _ _ Hwf He' Eq Hp) as [-> ->]. by destruct Hd.
    - intros r m'. unfold s1. cbn. intros [[-> <-]|[_ Hm']]%lookup_insert_Some; [apply insert_non_empty|by eapply wf_nonempty]. }
  assert (size ord = if baseline s row o then size (order s) else S (size (order s))) as Hsize.
  { unfold ord. rewrite Hm. destruct (baseline s row o) as [p|] eqn:Ep.
    - assert (order s !! sequence p = Some (row, o)) as Hp by (apply wf_order; eauto).
      rewrite map_size_delete, lookup_insert_ne, Hp, map_size_insert_None; [lia|done|]. congruence.
    - by apply map_size_insert_None. }
  destruct (evict_rows_spec (size ord) s1 Hwf1) as (Hwf' & Hbound & Hcap & Hnext & gone & He & Hgone); [done|].
  split_and!; [done|done|done|done|]. exists s1, gone. split_and!; [done|done|].
  intros Hle. apply Hgone. unfold bounded, s1. cbn. by rewrite Hsize.
Qed.
End invariant.

(** ** Snapshots are owned once

    A snapshot taken out of the store is in the hands of an undo step until that
    runs or is dropped; no sequence is ever in two places. *)

Section owned.
Context {J : Type} `{EqDecision J}.
Implicit Types (s : SnapshotStore J) (e : SnapshotEntry J) (held : list N).

Record owned held s : Prop := {
  owned_wf : wf s;
  owned_bounded : bounded s;
  owned_once : NoDup held;
  owned_held k : k ∈ held → order s !! k = None ∧ (k < next_sequence s)%N;
  owned_next k ro : order s !! k = Some ro → (k < next_sequence s)%N;
}.

Definition seq_of (e : option (SnapshotEntry J)) : list N := option_list (sequence <$> e).

#[export] Instance owned_perm : Proper ((≡ₚ) ==> (=) ==> iff) owned.
Proof.
  intros h h' Hp s ? <-. split; intros [? ? ? Hh ?]; split; try done; try (by rewrite <- Hp || by rewrite Hp).
  - intros k Hk. apply Hh. by rewrite Hp.
  - intros k Hk. apply Hh. by rewrite <- Hp.
Qed.

Lemma owned_new cap : owned [] (SnapshotStore_new cap).
Proof.
  split; [apply wf_new|unfold bounded; cbn; rewrite map_size_empty; lia|constructor|..].
  - intros k Hk. by apply elem_of_nil in Hk.
  - intros k ro Hk. cbn in Hk. by rewrite lookup_empty in Hk.
Qed.

Lemma owned_drop dropped held s : owned (dropped ++ held) s → owned held s.
Proof.
  intros [? ? Hnd Hh ?]. split; try done.
  - by apply list.NoDup_app in Hnd as (_ & _ & ?).
  - intros k Hk. apply Hh, elem_of_app. by right.
Qed.

Lemma evicted_order gone s1 s' k ro :
  wf s1 → wf s' → evicts gone s1 s' → order s' !! k = Some ro → order s1 !! k = Some ro.
Proof.
  intros Hwf Hwf' He Hk. destruct ro as [r p]. apply (wf_order s' Hwf') in Hk as (e & Hb & <-).
  apply (wf_order s1 Hwf). exists e. split; [|done]. rewrite (evicts_baseline _ _ _ He) in Hb. by case_decide.
Qed.

(** Where a snapshot of the store after a [put] was before. *)
Lemma put_baseline row o e s r p e' :
  wf s → order s !! sequence e = None → baseline (put row o e s) r p = Some e' →
  baseline_with s row o (Some e) r p = Some e'.
Proof.
  intros Hwf Hf Hb. destruct (put_spec row o e s Hwf Hf) as (_ & _ & _ & _ & s1 & gone & He & Hs1 & _).
  rewrite (evicts_baseline _ _ _ He), Hs1 in Hb. by case_decide.
Qed.

Lemma owned_take row o held s s' previous :
  owned held s → take row o s = (s', previous) → owned (seq_of previous ++ held) s'.
Proof.
  intros [Hwf Hbd Hnd Hh Hn] Ht. pose proof (take_spec row o s Hwf) as Hs. rewrite Ht in Hs.
  destruct Hs as (Hwf' & -> & Hcap & Hnext & Hsize & Hb).
  assert (∀ k ro, order s' !! k = Some ro → order s !! k = Some ro ∧ k ∉ seq_of (baseline s row o)) as Hsub.
  { intros k [r p] Hk. apply (wf_order s' Hwf') in Hk as (e & He & <-). rewrite Hb in He.
    unfold baseline_with in He. case_decide as Hd; [done|]. split; [apply wf_order; eauto|].
    unfold seq_of. destruct (baseline s row o) as [e'|] eqn:Eb; cbn; [|apply not_elem_of_nil].
    intros Heq%list_elem_of_singleton. destruct (wf_inj _ _ _ _ _ _ _ Hwf He Eb Heq) as [-> ->]. by destruct Hd. }
  assert (∀ k, k ∈ seq_of (baseline s row o) → is_Some (order s !! k)) as Hseq.
  { intros k. unfold seq_of. destruct (baseline s row o) as [e|] eqn:Eb; cbn; [|by intros ?%elem_of_nil].
    intros ->%list_elem_of_singleton. exists (row, o). apply wf_order; eauto. }
  split; [done|unfold bounded in *; rewrite Hcap; destruct (baseline s row o); lia|..].
  - apply list.NoDup_app. split_and!; [|..|done].
    + unfold seq_of. destruct (baseline s row o); cbn; [apply NoDup_singleton|constructor].
    + intros k [x Hx]%Hseq Hk. destruct (Hh k Hk). congruence.
  - intros k [Hk|Hk]%elem_of_app; rewrite Hnext.
    + split; [|destruct (Hseq k Hk) as [? Hx]; by eapply Hn].
      destruct (order s' !! k) eqn:E; [|done]. by apply Hsub in E as [_ []].
    + destruct (Hh k Hk) as [Ho Hlt]. split; [|done]. destruct (order s' !! k) eqn:E; [|done].
      apply Hsub in E as [E _]. congruence.
  - intros k ro [Hk _]%Hsub. rewrite Hnext. by eapply Hn.
Qed.

Lemma owned_put row o e held s :
  owned (sequence e :: held) s → owned held (put row o e s).
Proof.
  intros [Hwf Hbd [Hni Hnd]%list.NoDup_cons Hh Hn]. destruct (Hh (sequence e)) as [Hf Hlt]; [by left|].
  destruct (put_spec row o e s Hwf Hf) as (Hwf' & Hbd' & Hcap & Hnext & _).
  assert (∀ k ro, order (put row o e s) !! k = Some ro → k = sequence e ∨ ∃ ro, order s !! k = Some ro) as Hsub.
  { intros k [r p] Hk. apply (wf_order _ Hwf') in Hk as (e' & He' & <-).
    apply put_baseline in He'; [|done..]. unfold baseline_with in He'.
    case_decide as Hd; [left; congruence|]. right. exists (r, p). apply wf_order; eauto. }
  split; try done.
  - intros k Hk. destruct (Hh k) as [Ho Hk']; [by right|]. rewrite Hnext. split; [|done].
    destruct (order (put row o e s) !! k) eqn:E; [|done]. apply Hsub in E as [->|[? E]]; congruence.
  - intros k ro Hk. rewrite Hnext. apply Hsub in Hk as [->|[? E]]; [done|by eapply Hn].
Qed.

Lemma owned_bump held s :
  owned held s → (next_sequence s + 1 < 2 ^ 64)%N →
  owned (next_sequence s :: held) (bump s) ∧ next_sequence (bump s) = (next_sequence s + 1)%N.
Proof.
  intros [Hwf Hbd Hnd Hh Hn] Hlt. unfold bump. cbn. rewrite N.mod_small by done. split; [|done].
  split; [by destruct Hwf|done|..]; cbn.
  - constructor; [|done]. intros Hin. destruct (Hh _ Hin). lia.
  - intros k [->|Hk]%elem_of_cons.
    + split; [|lia]. destruct (order s !! next_sequence s) eqn:E; [|done]. apply Hn in E. lia.
    + destruct (Hh k Hk). split; [done|lia].
  - intros k ro Hk. apply Hn in Hk. lia.
Qed.

Lemma owned_insert row o v held s :
  owned held s → (next_sequence s + 1 < 2 ^ 64)%N →
  owned held (insert row o v s).1 ∧ next_sequence (insert row o v s).1 = (next_sequence s + 1)%N
  ∧ capacity (insert row o v s).1 = capacity s.
Proof.
  intros Ho Hlt. destruct (owned_bump _ _ Ho Hlt) as [Ho1 Hn1]. unfold insert. cbn [fst].
  split; [by apply owned_put|]. destruct Ho1 as [Hwf1 _ _ Hh1 _].
  destruct (put_spec row o {| sequence := next_sequence s; values := v |} (bump s) Hwf1)
    as (_ & _ & Hcap & Hnext & _); [apply Hh1; by left|].
  by rewrite Hnext, Hcap, Hn1.
Qed.

Lemma take_frame row o s : next_sequence (take row o s).1 = next_sequence s ∧ capacity (take row o s).1 = capacity s.
Proof. unfold take. by repeat case_match. Qed.

Lemma owned_restore row o standing previous held s :
  owned (seq_of previous ++ held) s → owned held (restore row o standing previous s).
Proof.
  intros Ho. unfold restore. case_bool_decide; [|by eapply owned_drop].
  destruct (take row o s) as [s' taken] eqn:Et. apply (owned_take _ _ _ _ _ _ Ho), owned_drop in Et. cbn.
  destruct previous as [e|]; [by apply owned_put|done].
Qed.

Lemma owned_clear held s : owned held s → owned held (clear s).
Proof.
  intros [Hwf Hbd Hnd Hh Hn]. split; cbn; [|unfold bounded; cbn; rewrite map_size_empty; lia|done|..].
  - split; cbn; [|done|apply (wf_capacity s Hwf)]. intros k r p. rewrite lookup_empty. split; [done|].
    intros (e & He & _). unfold baseline in He. cbn in He. by rewrite lookup_empty in He.
  - intros k Hk. split; [apply lookup_empty|]. by apply Hh.
  - intros k ro Hk. by rewrite lookup_empty in Hk.
Qed.

(** *** Runs *)

(** The sequences of the snapshots an undo step holds. *)
Definition held_by (u : Undo J) : list N :=
  match u with
  | UndoSet _ _ _ previous => seq_of previous
  | UndoInvalidated undo => undo ≫= λ x, seq_of x.2
  end.

Definition owned_state (s : State J) : Prop := owned (pending s ≫= held_by) (store s).

(** An operation uses up at most [n] sequences. *)
Definition uses (n : nat) s s' : Prop :=
  (next_sequence s' ≤ next_sequence s + N.of_nat n)%N ∧ capacity s' = capacity s.

Lemma uses_refl n s : uses n s s.
Proof. split; [lia|done]. Qed.

Lemma uses_trans n n' s s' s'' : uses n s s' → uses n' s' s'' → uses (n + n') s s''.
Proof. intros [H1 H2] [H3 H4]. split; [lia|congruence]. Qed.

Lemma put_frame row o e s held : owned (sequence e :: held) s → uses 0 s (put row o e s).
Proof.
  intros [Hwf _ _ Hh _]. destruct (put_spec row o e s Hwf) as (_ & _ & Hcap & Hnext & _); [apply Hh; by left|].
  split; [lia|done].
Qed.

Lemma restore_frame row o standing previous held s :
  owned (seq_of previous ++ held) s → uses 0 s (restore row o standing previous s).
Proof.
  intros Ho. unfold restore. case_bool_decide; [|apply uses_refl].
  destruct (take row o s) as [s' taken] eqn:Et. pose proof (take_frame row o s) as [Hn Hc]. rewrite Et in Hn, Hc.
  apply (owned_take _ _ _ _ _ _ Ho), owned_drop in Et. cbn in *.
  assert (uses 0 s s') as Hu by (split; [lia|done]).
  destruct previous as [e|]; [|done]. eapply (uses_trans 0 0); [exact Hu|by apply (put_frame row o e s' held)].
Qed.

Lemma owned_replace row o v held s s' previous standing :
  owned held s → (next_sequence s + 1 < 2 ^ 64)%N → replace row o v s = (s', (previous, standing)) →
  owned (seq_of previous ++ held) s' ∧ uses 1 s s'.
Proof.
  intros Ho Hlt. unfold replace. destruct (take row o s) as [s1 p] eqn:Et.
  pose proof (take_frame row o s) as [Hn Hc]. rewrite Et in Hn, Hc. cbn in Hn, Hc.
  pose proof (owned_take _ _ _ _ _ _ Ho Et) as Ho1.
  assert (owned (seq_of p ++ held) (insert row o v s1).1 ∧ uses 1 s (insert row o v s1).1) as Hins.
  { destruct (owned_insert row o v _ s1 Ho1) as (Ho2 & Hn2 & Hc2); [lia|]. split; [done|].
    split; [lia|congruence]. }
  case_match; intros [= <- <- _]; [|done]. split; [done|split; [lia|done]].
Qed.

Lemma owned_invalidate_each keys held s s' undo :
  owned held s → (next_sequence s + N.of_nat (length keys) < 2 ^ 64)%N →
  invalidate_each keys s = (s', undo) →
  owned ((undo ≫= λ x, seq_of x.2) ++ held) s' ∧ uses (length keys) s s'.
Proof.
  revert held s undo. induction keys as [|[row o] keys IH]; intros held s undo Ho Hlt; cbn [invalidate_each].
  { intros [= <- <-]. split; [done|apply uses_refl]. }
  destruct (take row o s) as [s1 p] eqn:Et.
  pose proof (take_frame row o s) as [Hn Hc]. rewrite Et in Hn, Hc. cbn in Hn, Hc. cbn [length] in Hlt.
  pose proof (owned_take _ _ _ _ _ _ Ho Et) as Ho1.
  destruct (owned_insert row o None _ s1 Ho1) as (Ho2 & Hn2 & Hc2); [lia|].
  destruct (insert row o None s1) as [s2 standing]. cbn [fst] in *.
  destruct (invalidate_each keys s2) as [s3 undo'] eqn:Ei. intros [= <- <-].
  apply (IH _ _ _ Ho2) in Ei as [Ho3 Hu]; [|lia]. split.
  - cbn. eapply owned_perm; [|done|exact Ho3]. rewrite <- app_assoc. apply Permutation_app_swap_app.
  - eapply (uses_trans 1 (length keys)); [|exact Hu]. split; [lia|congruence].
Qed.

Lemma owned_restores undo held s :
  owned ((undo ≫= λ x, seq_of x.2) ++ held) s →
  let s' := foldl (λ s '(row, o, standing, previous), restore row o (Some standing) previous s) s undo in
  owned held s' ∧ uses 0 s s'.
Proof.
  revert s. induction undo as [|[[[row o] standing] previous] undo IH]; intros s Ho; cbn.
  { split; [done|apply uses_refl]. }
  cbn in Ho. rewrite <- app_assoc in Ho.
  pose proof (restore_frame row o (Some standing) previous _ s Ho) as Hu.
  apply (owned_restore row o (Some standing)) in Ho. destruct (IH _ Ho) as [Ho' Hu'].
  split; [done|]. by eapply (uses_trans 0 0).
Qed.

Lemma owned_drops (undo : list (RowKey * Origin * N * option (SnapshotEntry J))) held s :
  owned held s →
  let s' := foldl (λ s '(row, o, standing, _),
    if bool_decide (sequence <$> baseline s row o = Some standing) then (take row o s).1 else s) s undo in
  owned held s' ∧ uses 0 s s'.
Proof.
  revert s. induction undo as [|[[[row o] standing] previous] undo IH]; intros s Ho; cbn.
  { split; [done|apply uses_refl]. }
  case_bool_decide; [|by apply IH]. destruct (take row o s) as [s1 p] eqn:Et.
  pose proof (take_frame row o s) as [Hn Hc]. rewrite Et in Hn, Hc. cbn in *.
  pose proof (owned_drop _ _ _ (owned_take _ _ _ _ _ _ Ho Et)) as Ho1.
  destruct (IH s1 Ho1) as [Ho2 Hu2]. split; [done|]. eapply (uses_trans 0 0); [|exact Hu2]. split; [lia|done].
Qed.

(** The store has no more snapshots of a type than snapshots. *)
Lemma elem_of_snapshots_of ty s (row : RowKey) (o : Origin) :
  (row, o) ∈ snapshots_of ty s ↔ row.1 = ty ∧ is_Some (baseline s row o).
Proof.
  unfold snapshots_of, baseline. rewrite list_elem_of_filter, list_elem_of_bind. apply and_iff_compat_l. split.
  - intros ([r m] & ([o' e] & [= <- <-] & He%elem_of_map_to_list)%list_elem_of_fmap & Hm%elem_of_map_to_list).
    cbn in *. rewrite Hm. by exists e.
  - destruct (entries s !! row) as [m|] eqn:Em; cbn; [|by intros []]. intros [e He].
    exists (row, m). split; [|by apply elem_of_map_to_list]. apply list_elem_of_fmap. exists (o, e).
    split; [done|by apply elem_of_map_to_list].
Qed.

Lemma NoDup_snapshots_of ty s : NoDup (snapshots_of ty s).
Proof.
  apply list.NoDup_filter, NoDup_bind; [| |apply NoDup_map_to_list].
  - intros [r m] [r' m'] [row o] Hm%elem_of_map_to_list Hm'%elem_of_map_to_list.
    intros ([? ?] & [= -> ->] & _)%list_elem_of_fmap ([? ?] & [= -> _] & _)%list_elem_of_fmap. congruence.
  - intros [r m] _. cbn. assert (NoDup (map_to_list m).*1) as Hnd by apply NoDup_fst_map_to_list.
    change (NoDup ((λ o, (r, o)) ∘ fst <$> map_to_list m)). rewrite list_fmap_compose.
    apply NoDup_fmap_2; [by intros ?? [= ->]|done].
Qed.

Lemma length_snapshots_of ty s : wf s → length (snapshots_of ty s) ≤ size (order s).
Proof.
  intros Hwf. set (f := λ ro : RowKey * Origin, default 0%N (sequence <$> baseline s ro.1 ro.2)).
  rewrite <- (length_fmap f), <- size_dom.
  rewrite <- (size_list_to_set (C := gset N) (f <$> snapshots_of ty s)).
  - apply subseteq_size. intros k ([row o] & -> & [_ [e He]]%elem_of_snapshots_of)%elem_of_list_to_set%list_elem_of_fmap.
    apply elem_of_dom. exists (row, o). apply wf_order; [done|]. exists e. unfold f. cbn. by rewrite He.
  - apply NoDup_fmap_2_strong; [|apply NoDup_snapshots_of].
    intros [row o] [row' o'] [_ [e He]]%elem_of_snapshots_of [_ [e' He']]%elem_of_snapshots_of.
    unfold f. cbn. rewrite He, He'. cbn. intros Heq.
    by destruct (wf_inj _ _ _ _ _ _ _ Hwf He He' Heq) as [-> ->].
Qed.
End owned.

(** ** What is known of a row *)

Section known.
Context {J : Type} `{EqDecision J}.
Implicit Types (s : SnapshotStore J) (e : SnapshotEntry J).

(** A baseline is known when some pool has one and every pool's is the same. *)
Lemma get_spec s row v :
  get s row = Some v ↔
  (∃ o e, baseline s row o = Some e) ∧ ∀ o e, baseline s row o = Some e → values e = Some v.
Proof.
  unfold get, baseline. destruct (entries s !! row) as [m|]; cbn; [|naive_solver].
  assert (∀ e, e ∈ (map_to_list m).*2 ↔ ∃ o, m !! o = Some e) as Hm.
  { intros e. rewrite list_elem_of_fmap. split.
    - intros ([o e'] & -> & He%elem_of_map_to_list). eauto.
    - intros [o He]. exists (o, e). split; [done|by apply elem_of_map_to_list]. }
  rewrite list_fmap_compose. destruct (map_to_list m).*2 as [|e0 es]; cbn.
  { split; [done|]. intros [(o & e & He) _]. by assert (e ∈ []) as []%elem_of_nil by (apply Hm; eauto). }
  assert ((∀ o e, m !! o = Some e → values e = Some v) ↔ values e0 = Some v ∧ ∀ e, e ∈ es → values e = Some v) as ->.
  { split.
    - intros Hv. split; [|intros e He]; [destruct (proj1 (Hm e0)) as [o Ho]; [by left|by eapply Hv]|].
      destruct (proj1 (Hm e)) as [o Ho]; [by right|by eapply Hv].
    - intros [H0 Hes] o e He. assert (e ∈ e0 :: es) as [->|Hin]%elem_of_cons by (apply Hm; eauto); auto. }
  assert (∃ o e, m !! o = Some e) as Hex by (destruct (proj1 (Hm e0)) as [o Ho]; [by left|eauto]).
  destruct (values e0) as [v0|]; [|naive_solver].
  destruct (forallb _ (values <$> es)) eqn:Ef.
  - rewrite forallb_forall in Ef.
    assert (∀ e, e ∈ es → values e = Some v0) as Hes.
    { intros e He. apply (bool_decide_eq_true_1 (values e = Some v0)), Ef, list_elem_of_In, list_elem_of_fmap. eauto. }
    naive_solver.
  - split; [done|]. intros [_ [[= ->] Hes]]. apply not_true_iff_false in Ef. destruct Ef.
    apply forallb_forall. intros x Hx%list_elem_of_In. apply list_elem_of_fmap in Hx as (e & -> & He).
    apply bool_decide_eq_true. auto.
Qed.

(** The snapshots of [row] are all as they were, or all gone. *)
Definition row_kept (row : RowKey) s s' : Prop :=
  (∀ o, baseline s' row o = None) ∨ (∀ o, baseline s' row o = baseline s row o).

Lemma row_kept_refl row s : row_kept row s s.
Proof. by right. Qed.

Lemma row_kept_trans row s s1 s2 : row_kept row s s1 → row_kept row s1 s2 → row_kept row s s2.
Proof.
  intros [H1|H1] [H2|H2]; [by left|left; intros o; by rewrite H2|by left|right; intros o; by rewrite H2].
Qed.

Lemma row_kept_get row s s' v : row_kept row s s' → get s' row = Some v → get s row = Some v.
Proof.
  rewrite !get_spec. intros [Hk|Hk]; setoid_rewrite Hk; [|done]. by intros [(? & ? & ?) _].
Qed.

Lemma evicts_row_kept gone s1 s' row : evicts gone s1 s' → row_kept row s1 s'.
Proof.
  intros He. destruct (decide (row ∈ gone)); [left|right]; intros o; rewrite (evicts_baseline _ _ _ He).
  - by rewrite decide_True.
  - by rewrite decide_False.
Qed.

Lemma take_row_kept row row' o s : wf s → row ≠ row' → row_kept row' s (take row o s).1.
Proof.
  intros Hwf Hne. right. intros o'. pose proof (take_spec row o s Hwf) as Ht. destruct (take row o s) as [s' p].
  destruct Ht as (_ & _ & _ & _ & _ & Hb). cbn. rewrite Hb. unfold baseline_with. by rewrite decide_False by naive_solver.
Qed.

(** Every snapshot of the row after a [put] is the one put or one there before, and
    either all of them are there or none. *)
Lemma put_row row o e s held :
  owned (sequence e :: held) s →
  (∀ p, baseline (put row o e s) row p = None)
  ∨ (∀ p, baseline (put row o e s) row p = baseline_with s row o (Some e) row p).
Proof.
  intros [Hwf _ _ Hh _]. destruct (Hh (sequence e)) as [Hf _]; [by left|].
  destruct (put_spec row o e s Hwf Hf) as (_ & _ & _ & _ & s1 & gone & He & Hs1 & _).
  destruct (evicts_row_kept _ _ _ row He) as [Hk|Hk]; [by left|right]. intros p. by rewrite Hk, Hs1.
Qed.

Lemma put_row_kept row row' o e s held :
  owned (sequence e :: held) s → row ≠ row' → row_kept row' s (put row o e s).
Proof.
  intros [Hwf _ _ Hh _] Hne. destruct (Hh (sequence e)) as [Hf _]; [by left|].
  destruct (put_spec row o e s Hwf Hf) as (_ & _ & _ & _ & s1 & gone & He & Hs1 & _).
  destruct (evicts_row_kept _ _ _ row' He) as [Hk|Hk]; [by left|right]. intros p. rewrite Hk, Hs1.
  unfold baseline_with. by rewrite decide_False by naive_solver.
Qed.

Lemma insert_row_kept row row' o v s held :
  owned held s → (next_sequence s + 1 < 2 ^ 64)%N → row ≠ row' → row_kept row' s (insert row o v s).1.
Proof.
  intros Ho Hlt Hne. destruct (owned_bump _ _ Ho Hlt) as [Ho1 _].
  exact (put_row_kept row row' o {| sequence := next_sequence s; values := v |} _ _ Ho1 Hne).
Qed.

Lemma insert_row row o v s held :
  owned held s → (next_sequence s + 1 < 2 ^ 64)%N →
  let e := {| sequence := next_sequence s; values := v |} in
  (∀ p, baseline (insert row o v s).1 row p = None)
  ∨ (∀ p, baseline (insert row o v s).1 row p = baseline_with s row o (Some e) row p).
Proof.
  intros Ho Hlt e. destruct (owned_bump _ _ Ho Hlt) as [Ho1 _].
  exact (put_row row o e _ _ Ho1).
Qed.

Lemma differs_elsewhere_false s row e :
  differs_elsewhere s row e = false →
  ∀ o e', baseline s row o = Some e' → values e' = values e ∧ values e ≠ None.
Proof.
  unfold differs_elsewhere, baseline. destruct (entries s !! row) as [m|]; cbn; [|done].
  intros Hf o e' He'. assert ((o, e') ∈ map_to_list m) as Hin by (by apply elem_of_map_to_list).
  destruct (decide (values e' = values e ∧ values e ≠ None)) as [?|Hn]; [done|].
  apply not_true_iff_false in Hf. destruct Hf. apply existsb_exists. exists (o, e').
  split; [by apply list_elem_of_In|]. cbn. apply orb_true_iff. rewrite !bool_decide_eq_true.
  destruct (decide (values e = None)); [by left|right]. intros Heq. by destruct Hn.
Qed.

(** What [replace] makes known. *)
Lemma replace_known row o v s s' previous standing held :
  owned held s → (next_sequence s + 1 < 2 ^ 64)%N → replace row o v s = (s', (previous, standing)) →
  (∀ row', row ≠ row' → row_kept row' s s')
  ∧ ∀ w, get s' row = Some w →
    match v with
    | Some v => w = v ∧ ∀ p e, p ≠ o → baseline s row p = Some e → values e = Some v
    | None => get s row = Some w
    end.
Proof.
  intros Ho Hlt. unfold replace.
  pose proof (take_spec row o s (owned_wf _ _ Ho)) as Ht. pose proof (take_row_kept row) as Hkeep.
  specialize (λ row' H, Hkeep row' o s (owned_wf _ _ Ho) H). destruct (take row o s) as [s1 p] eqn:Et.
  destruct Ht as (Hwf1 & -> & Hc1 & Hn1 & _ & Hb1). pose proof (owned_take _ _ _ _ _ _ Ho Et) as Ho1. cbn [fst] in Hkeep.
  destruct (match v with Some _ => false | None => _ end) eqn:Ef.
  - intros [= <- <- <-]. split; [done|]. intros w Hw. destruct v as [v|]; [done|].
    apply get_spec in Hw as [(q & e & He) Hall]. apply get_spec. split.
    { rewrite Hb1 in He. unfold baseline_with in He. case_decide; [done|eauto]. }
    intros q' e' He'. destruct (decide (q' = o)) as [->|Hq].
    + rewrite He' in Ef. apply negb_true_iff in Ef.
      destruct (differs_elsewhere_false _ _ _ Ef q e He) as [<- _]. by eapply Hall.
    + apply (Hall q'). rewrite Hb1. unfold baseline_with. by rewrite decide_False by naive_solver.
  - destruct (insert row o v s1) as [s2 seq] eqn:Ei. intros [= <- <- <-].
    assert (next_sequence s1 + 1 < 2 ^ 64)%N as Hlt1 by lia. split.
    + intros row' Hne. eapply row_kept_trans; [by apply Hkeep|].
      pose proof (insert_row_kept row row' o v s1 _ Ho1 Hlt1 Hne) as Hk. by rewrite Ei in Hk.
    + intros w [(q & e & He) Hall]%get_spec.
      pose proof (insert_row row o v s1 _ Ho1 Hlt1) as Hr. rewrite Ei in Hr. cbn in Hr.
      destruct Hr as [Hr|Hr]; [by rewrite Hr in He|]. unfold baseline_with in Hr.
      specialize (Hall o {| sequence := next_sequence s1; values := v |}) as Hov.
      rewrite Hr, decide_True in Hov by done. specialize (Hov eq_refl). cbn in Hov. subst v.
      split; [done|]. intros q' e' Hq He'. apply (Hall q'). rewrite Hr, decide_False by naive_solver.
      rewrite Hb1. unfold baseline_with. by rewrite decide_False by naive_solver.
Qed.

(** What [invalidate_each] makes known: nothing. *)
Lemma invalidate_each_known keys s s' undo held :
  owned held s → (next_sequence s + N.of_nat (length keys) < 2 ^ 64)%N →
  invalidate_each keys s = (s', undo) →
  (∀ row, row ∉ keys.*1 → row_kept row s s')
  ∧ ∀ row o e, baseline s' row o = Some e →
      values e = None ∨ ((row, o) ∉ keys ∧ baseline s row o = Some e).
Proof.
  revert held s undo. induction keys as [|[row o] keys IH]; intros held s undo Ho Hlt; cbn [invalidate_each].
  { intros [= <- <-]. split; [intros; apply row_kept_refl|]. intros row o e He. right. split; [apply not_elem_of_nil|done]. }
  pose proof (take_spec row o s (owned_wf _ _ Ho)) as Ht.
  pose proof (λ row' H, take_row_kept row row' o s (owned_wf _ _ Ho) H) as Hkeep.
  destruct (take row o s) as [s1 p] eqn:Et. destruct Ht as (Hwf1 & _ & _ & Hn1 & _ & Hb1).
  pose proof (owned_take _ _ _ _ _ _ Ho Et) as Ho1. cbn [length fst] in *.
  assert (next_sequence s1 + 1 < 2 ^ 64)%N as Hlt1 by lia.
  destruct (owned_insert row o None _ s1 Ho1 Hlt1) as (Ho2 & Hn2 & _).
  pose proof (λ row' H, insert_row_kept row row' o None s1 _ Ho1 Hlt1 H) as Hkeep2.
  pose proof (insert_row row o None s1 _ Ho1 Hlt1) as Hrow2.
  destruct (insert row o None s1) as [s2 standing]. cbn [fst] in *.
  destruct (invalidate_each keys s2) as [s3 undo'] eqn:Ei. intros [= <- <-].
  assert (next_sequence s2 + N.of_nat (length keys) < 2 ^ 64)%N as Hlt2 by lia.
  destruct (IH _ _ _ Ho2 Hlt2 Ei) as [Hkept Hnone]. split.
  - intros row' [Hne Hni]%not_elem_of_cons. cbn in Hne.
    eapply row_kept_trans; [by apply Hkeep|]. eapply row_kept_trans; [by apply Hkeep2|by apply Hkept].
  - intros r q e [?|[Hni He]]%Hnone; [by left|].
    destruct (decide (r = row)) as [->|Hr].
    + destruct Hrow2 as [Hrow2|Hrow2]; rewrite Hrow2 in He; [done|]. unfold baseline_with in He.
      case_decide as Hd; [injection He as <-; by left|]. rewrite Hb1 in He. unfold baseline_with in He.
      case_decide; [done|]. right. split; [|done]. apply not_elem_of_cons. split; [|done]. intros [= ->]. by destruct Hd.
    + right. split; [apply not_elem_of_cons; split; [naive_solver|done]|].
      destruct (Hkeep2 r) as [Hk|Hk]; [done|by rewrite Hk in He|]. rewrite Hk in He.
      destruct (Hkeep r) as [Hk'|Hk']; [done|by rewrite Hk' in He|]. by rewrite Hk' in He.
Qed.
End known.

(** ** Undoing

    Undo steps look at the snapshots only, not at how many sequences were handed
    out since. *)

Section undo.
Context {J : Type} `{EqDecision J}.
Implicit Types (s t : SnapshotStore J) (e : SnapshotEntry J).

Definition same_snapshots s t : Prop :=
  entries s = entries t ∧ order s = order t ∧ capacity s = capacity t.

Lemma same_baseline s t row o : same_snapshots s t → baseline s row o = baseline t row o.
Proof. intros (He & _ & _). unfold baseline. by rewrite He. Qed.

Lemma same_set_entries s t en ord :
  same_snapshots s t → same_snapshots (set_entries s en ord) (set_entries t en ord).
Proof. by intros (_ & _ & ?). Qed.

Lemma same_evict fuel s t : same_snapshots s t → same_snapshots (evict_rows fuel s) (evict_rows fuel t).
Proof.
  revert s t. induction fuel as [|fuel IH]; intros s t Hs; [done|]. cbn [evict_rows].
  pose proof Hs as (He & Ho & Hc). rewrite He, Ho, Hc. repeat case_match; try done; apply IH; by apply same_set_entries.
Qed.

Lemma same_put row o e s t : same_snapshots s t → same_snapshots (put row o e s) (put row o e t).
Proof.
  intros Hs. pose proof Hs as (He & Ho & Hc). unfold put. rewrite He, Ho. apply same_evict. by apply same_set_entries.
Qed.

Lemma same_take row o s t : same_snapshots s t → same_snapshots (take row o s).1 (take row o t).1.
Proof.
  intros Hs. pose proof Hs as (He & Ho & Hc). unfold take. rewrite He, Ho.
  repeat case_match; cbn; try done; by apply same_set_entries.
Qed.

Lemma same_restore row o standing previous s t :
  same_snapshots s t →
  same_snapshots (restore row o standing previous s) (restore row o standing previous t).
Proof.
  intros Hs. unfold restore. rewrite (same_baseline s t) by done. case_bool_decide; [|done].
  destruct previous; [apply same_put|]; by apply same_take.
Qed.

Lemma same_run_undo u s t : same_snapshots s t → same_snapshots (run_undo u s) (run_undo u t).
Proof.
  destruct u as [row o standing previous|undo]; cbn; [by apply same_restore|].
  revert s t. induction undo as [|[[[row o] standing] previous] undo IH]; intros s t Hs; cbn; [done|].
  apply IH. by apply same_restore.
Qed.

(** A [put] that stays within the capacity sets one place. *)
Lemma put_exact row o e s held :
  owned (sequence e :: held) s → is_Some (baseline s row o) ∨ size (order s) < capacity s →
  ∀ r p, baseline (put row o e s) r p = baseline_with s row o (Some e) r p.
Proof.
  intros [Hwf Hbd _ Hh _] Hroom r p. destruct (Hh (sequence e)) as [Hf _]; [by left|].
  destruct (put_spec row o e s Hwf Hf) as (_ & _ & _ & _ & s1 & gone & He & Hs1 & Hgone).
  rewrite (evicts_baseline _ _ _ He), Hgone, decide_False; [apply Hs1|set_solver|].
  unfold bounded in Hbd. destruct Hroom as [[? ->]|]; [done|]. destruct (baseline s row o); lia.
Qed.

Lemma insert_exact row o v s held :
  owned held s → (next_sequence s + 1 < 2 ^ 64)%N →
  is_Some (baseline s row o) ∨ size (order s) < capacity s →
  ∀ r p, baseline (insert row o v s).1 r p
         = baseline_with s row o (Some {| sequence := next_sequence s; values := v |}) r p.
Proof.
  intros Ho Hlt Hroom. destruct (owned_bump _ _ Ho Hlt) as [Ho1 _].
  exact (put_exact row o {| sequence := next_sequence s; values := v |} _ _ Ho1 Hroom).
Qed.

Lemma size_pos s row o e : wf s → baseline s row o = Some e → 0 < size (order s).
Proof.
  intros Hwf He. assert (order s !! sequence e = Some (row, o)) as Hk by (apply wf_order; eauto).
  destruct (size (order s)) eqn:E; [|lia]. apply map_size_empty_inv in E. by rewrite E, lookup_empty in Hk.
Qed.

(** A step that finds its snapshot standing puts the previous one back. *)
Lemma restore_exact row o standing previous held s :
  owned (seq_of previous ++ held) s → sequence <$> baseline s row o = standing →
  is_Some standing ∨ size (order s) < capacity s →
  ∀ r p, baseline (restore row o standing previous s) r p = baseline_with s row o previous r p.
Proof.
  intros Ho Hst Hroom r p. unfold restore. rewrite bool_decide_true by done.
  pose proof (take_spec row o s (owned_wf _ _ Ho)) as Ht. destruct (take row o s) as [s1 q] eqn:Et.
  destruct Ht as (Hwf1 & -> & Hc1 & _ & Hsize & Hb1). pose proof (owned_drop _ _ _ (owned_take _ _ _ _ _ _ Ho Et)) as Ho1.
  cbn [fst]. destruct previous as [e|]; [|done]. rewrite (put_exact row o e s1 held Ho1).
  - unfold baseline_with. case_decide as Hd; [done|]. rewrite Hb1. unfold baseline_with. by rewrite decide_False.
  - right. pose proof (owned_bounded _ _ Ho) as Hbd. unfold bounded in Hbd. rewrite Hsize, Hc1.
    destruct (baseline s row o) as [e0|] eqn:Eb; [|destruct Hroom as [[? ->]|]; [done|lia]].
    pose proof (size_pos _ _ _ _ (owned_wf _ _ Ho) Eb). lia.
Qed.

(** One snapshot more at most. *)
Lemma put_size row o e s held :
  owned (sequence e :: held) s → size (order (put row o e s)) ≤ S (size (order s)).
Proof.
  intros Ho. pose proof (owned_wf _ _ (owned_put row o e held s Ho)) as Hwf'.
  destruct Ho as [Hwf _ _ Hh _]. destruct (Hh (sequence e)) as [Hf _]; [by left|].
  rewrite <- (map_size_insert_None (sequence e) (row, o) (order s) Hf). apply map_subseteq_size, map_subseteq_spec.
  intros k [r p] Hk. apply (wf_order _ Hwf') in Hk as (e' & He' & <-).
  apply put_baseline in He'; [|done..]. unfold baseline_with in He'. case_decide as Hd.
  - destruct Hd as [-> ->]. injection He' as ->. by rewrite lookup_insert_eq.
  - assert (order s !! sequence e' = Some (r, p)) as Hk by (apply wf_order; eauto).
    rewrite lookup_insert_ne; [done|]. congruence.
Qed.

Lemma insert_size row o v s held :
  owned held s → (next_sequence s + 1 < 2 ^ 64)%N → size (order (insert row o v s).1) ≤ S (size (order s)).
Proof.
  intros Ho Hlt. destruct (owned_bump _ _ Ho Hlt) as [Ho1 _].
  exact (put_size row o {| sequence := next_sequence s; values := v |} _ _ Ho1).
Qed.

Lemma replace_size row o v s s' previous standing held :
  owned held s → (next_sequence s + 1 < 2 ^ 64)%N → replace row o v s = (s', (previous, standing)) →
  size (order s') ≤ S (size (order s)).
Proof.
  intros Ho Hlt. unfold replace. pose proof (take_spec row o s (owned_wf _ _ Ho)) as Ht.
  destruct (take row o s) as [s1 q] eqn:Et. destruct Ht as (_ & _ & _ & Hn1 & Hsize & _).
  pose proof (owned_take _ _ _ _ _ _ Ho Et) as Ho1.
  pose proof (insert_size row o v s1 _ Ho1) as Hi. destruct (insert row o v s1) as [s2 seq]. cbn [fst] in Hi.
  destruct (match v with Some _ => false | None => _ end); intros [= <- <- <-]; lia.
Qed.

(** Undoing a [replace] at once. *)
Lemma restore_replace row o v s s' previous standing held :
  owned held s → (next_sequence s + 1 < 2 ^ 64)%N → size (order s) < capacity s →
  replace row o v s = (s', (previous, standing)) →
  same_snapshots (restore row o standing previous s') s.
Proof.
  intros Ho Hlt Hroom Hr. destruct (owned_replace _ _ _ _ _ _ _ _ Ho Hlt Hr) as [Ho' [_ Hc']].
  pose proof (owned_restore row o standing _ _ _ Ho') as Ho2.
  destruct (restore_frame row o standing _ _ _ Ho') as [_ Hc2].
  unfold replace in Hr. pose proof (take_spec row o s (owned_wf _ _ Ho)) as Ht.
  destruct (take row o s) as [s1 q] eqn:Et. destruct Ht as (Hwf1 & Hq & Hc1 & Hn1 & Hsize & Hb1).
  pose proof (owned_take _ _ _ _ _ _ Ho Et) as Ho1.
  assert (size (order s1) < capacity s1) as Hroom1 by (destruct q; lia).
  assert (baseline s1 row o = None) as Hnone by (rewrite Hb1; unfold baseline_with; by rewrite decide_True).
  assert (previous = q ∧ sequence <$> baseline s' row o = standing
    ∧ (is_Some standing ∨ size (order s') < capacity s')
    ∧ ∀ r p, baseline_with s' row o previous r p = baseline s r p) as (-> & Hst & Hroom' & Hb').
  { destruct (match v with Some _ => false | None => _ end).
    - injection Hr as <- <- <-. split_and!; [done|by rewrite Hnone|by right|].
      intros r p. unfold baseline_with. case_decide as Hd; [by destruct Hd as [-> ->]|].
      rewrite Hb1. unfold baseline_with. by rewrite decide_False.
    - destruct (insert row o v s1) as [s2 seq] eqn:Ei. injection Hr as <- <- <-.
      pose proof (insert_exact row o v s1 _ Ho1) as Hi. rewrite Ei in Hi. cbn [fst] in Hi.
      assert (seq = next_sequence s1) as -> by (unfold insert in Ei; congruence).
      split_and!; [done| |by left; eexists|].
      + rewrite Hi; [|lia|by right]. unfold baseline_with. by rewrite decide_True.
      + intros r p. unfold baseline_with. case_decide as Hd; [by destruct Hd as [-> ->]|].
        rewrite Hi; [|lia|by right]. unfold baseline_with. rewrite decide_False by done.
        rewrite Hb1. unfold baseline_with. by rewrite decide_False. }
  destruct (wf_ext (restore row o standing q s') s) as [He Hord]; [apply (owned_wf _ _ Ho2)|apply (owned_wf _ _ Ho)|..].
  - intros r p. rewrite (restore_exact row o standing q held s' Ho' Hst Hroom'). apply Hb'.
  - split_and!; [done|done|congruence].
Qed.

(** The place an undone invalidation is about. *)
Definition place_of (x : RowKey * Origin * N * option (SnapshotEntry J)) : RowKey * Origin := x.1.1.

Lemma baseline_with_ne s row o new r p : (r, p) ≠ (row, o) → baseline_with s row o new r p = baseline s r p.
Proof. intros Hne. unfold baseline_with. rewrite decide_False; [done|]. by intros [-> ->]. Qed.

Lemma baseline_with_eq s row o new : baseline_with s row o new row o = new.
Proof. unfold baseline_with. by rewrite decide_True. Qed.

Lemma invalidate_each_exact keys held s s' undo :
  owned held s → (next_sequence s + N.of_nat (length keys) < 2 ^ 64)%N → NoDup keys →
  (∀ row o, (row, o) ∈ keys → is_Some (baseline s row o)) →
  invalidate_each keys s = (s', undo) →
  place_of <$> undo = keys
  ∧ (∀ row o standing previous, (row, o, standing, previous) ∈ undo →
       sequence <$> baseline s' row o = Some standing ∧ previous = baseline s row o)
  ∧ (∀ r p, (r, p) ∉ keys → baseline s' r p = baseline s r p)
  ∧ size (order s') ≤ size (order s).
Proof.
  revert held s undo. induction keys as [|[row o] keys IH]; intros held s undo Ho Hlt Hnd Hsome; cbn [invalidate_each].
  { intros [= <- <-]. split_and!; [done| |done|done]. intros row o standing previous Hin. by apply elem_of_nil in Hin. }
  apply list.NoDup_cons in Hnd as [Hni Hnd]. cbn [length] in Hlt.
  pose proof (take_spec row o s (owned_wf _ _ Ho)) as Ht. destruct (take row o s) as [s1 q] eqn:Et.
  destruct Ht as (Hwf1 & Hq & Hc1 & Hn1 & Hsize & Hb1). pose proof (owned_take _ _ _ _ _ _ Ho Et) as Ho1.
  destruct (Hsome row o) as [e0 He0]; [by left|]. rewrite He0 in Hq. subst q.
  assert (size (order s1) < capacity s1) as Hroom.
  { pose proof (owned_bounded _ _ Ho) as Hbd. unfold bounded in Hbd. rewrite Hsize, Hc1.
    pose proof (wf_capacity _ (owned_wf _ _ Ho)). lia. }
  destruct (owned_insert row o None _ s1 Ho1) as (Ho2 & Hn2 & _); [lia|].
  pose proof (insert_exact row o None s1 _ Ho1) as Hb2.
  assert (size (order (insert row o None s1).1) ≤ size (order s)) as Hsize2.
  { pose proof (size_pos _ _ _ _ (owned_wf _ _ Ho) He0). etransitivity; [by eapply insert_size; [|lia]|lia]. }
  destruct (insert row o None s1) as [s2 standing] eqn:Ein. cbn [fst] in *.
  assert (standing = next_sequence s1) as -> by (unfold insert in Ein; congruence).
  assert (∀ r p, (r, p) ≠ (row, o) → baseline s2 r p = baseline s r p) as Hb.
  { intros r p Hne. rewrite Hb2, baseline_with_ne, Hb1, baseline_with_ne by (done || lia || by right). done. }
  destruct (invalidate_each keys s2) as [s3 undo'] eqn:Ei. intros [= <- <-].
  destruct (IH _ s2 undo' Ho2) as (Hpl & Hst & Hrest & Hsize3); [lia|done| |done|].
  { intros r p Hin. rewrite Hb; [apply Hsome; by right|]. intros [= -> ->]. done. }
  split_and!; [cbn; by rewrite Hpl| | |lia].
  - intros r p standing previous [[= -> -> -> ->]|Hin]%elem_of_cons.
    + rewrite Hrest, Hb2, baseline_with_eq by (done || lia || by right). done.
    + destruct (Hst _ _ _ _ Hin) as [Hs1 ->]. split; [done|]. apply Hb. intros [= -> ->].
      apply Hni. rewrite <- Hpl. apply list_elem_of_fmap. eexists. split; [|exact Hin]. done.
  - intros r p [Hne Hnin]%not_elem_of_cons. rewrite Hrest by done. by apply Hb.
Qed.

Lemma restores_exact undo held t :
  owned ((undo ≫= λ x, seq_of x.2) ++ held) t → NoDup (place_of <$> undo) →
  (∀ row o standing previous, (row, o, standing, previous) ∈ undo →
     sequence <$> baseline t row o = Some standing) →
  let t' := foldl (λ s '(row, o, standing, previous), restore row o (Some standing) previous s) t undo in
  (∀ row o standing previous, (row, o, standing, previous) ∈ undo → baseline t' row o = previous)
  ∧ ∀ r p, (r, p) ∉ place_of <$> undo → baseline t' r p = baseline t r p.
Proof.
  revert t. induction undo as [|[[[row o] standing] previous] undo IH]; intros t Ho Hnd Hst; cbn.
  { split; [|done]. intros row o standing previous Hin. by apply elem_of_nil in Hin. }
  cbn in Ho. rewrite <- app_assoc in Ho. cbn in Hnd. apply list.NoDup_cons in Hnd as [Hni Hnd].
  pose proof (restore_exact row o (Some standing) previous _ t Ho) as Hb.
  assert (∀ r p, baseline (restore row o (Some standing) previous t) r p = baseline_with t row o previous r p) as Hb'.
  { apply Hb; [apply (Hst row o standing previous); by left|left; eauto]. }
  clear Hb. rename Hb' into Hb.
  apply (owned_restore row o (Some standing)) in Ho. set (t1 := restore _ _ _ _ _) in *.
  assert (∀ r p n q, (r, p, n, q) ∈ undo → (r, p) ≠ (row, o)) as Hne.
  { intros r p n q Hin [= -> ->]. apply Hni, list_elem_of_fmap. eexists. split; [|exact Hin]. done. }
  destruct (IH t1 Ho Hnd) as [Hin' Hout].
  { intros r p n q Hin. rewrite Hb, baseline_with_ne by eauto. apply (Hst r p n q). by right. }
  split.
  - intros r p n q [[= -> -> -> ->]|Hin]%elem_of_cons; [|by eapply Hin'].
    rewrite Hout by done. by rewrite Hb, baseline_with_eq.
  - intros r p [Hr Hnin]%not_elem_of_cons. rewrite Hout, Hb by done. by apply baseline_with_ne.
Qed.
End undo.

Section runs.
Context {J : Type} `{EqDecision J}.
Context (shuffle : list (RowKey * Origin) → list (RowKey * Origin)).
Hypothesis Hshuffle : ∀ l, shuffle l ≡ₚ l.
Implicit Types (s : SnapshotStore J) (st : State J).

Lemma owned_step op st :
  owned_state st → (next_sequence (store st) + N.of_nat (capacity (store st)) < 2 ^ 64)%N →
  owned_state (step shuffle op st) ∧ uses (capacity (store st)) (store st) (store (step shuffle op st)).
Proof.
  intros Ho Hlt. unfold owned_state in *. pose proof (wf_capacity _ (owned_wf _ _ Ho)) as Hcap.
  assert (∀ n s s', n ≤ capacity (store st) → uses n s s' → uses (capacity (store st)) s s') as Hle
    by (intros n s s' Hn [? ?]; split; [lia|done]).
  destruct op as [row o v|ty|n|n|]; cbn [step].
  - unfold set_baseline. destruct (replace row o v (store st)) as [s' [previous standing]] eqn:Er.
    apply (owned_replace _ _ _ _ _ _ _ _ Ho) in Er as [Ho' Hu]; [|lia]. cbn. split; [|by eapply Hle].
    rewrite bind_app. cbn. rewrite app_nil_r. eapply owned_perm; [apply Permutation_app_comm|done|done].
  - unfold invalidate_model.
    pose proof (length_snapshots_of ty (store st) (owned_wf _ _ Ho)) as Hlen.
    pose proof (owned_bounded _ _ Ho) as Hbd. unfold bounded in Hbd.
    assert (length (shuffle (snapshots_of ty (store st))) ≤ capacity (store st)) as Hl by (rewrite Hshuffle; lia).
    destruct (invalidate_each _ _) as [s' undo] eqn:Ei.
    apply (owned_invalidate_each _ _ _ _ _ Ho) in Ei as [Ho' Hu]; [|lia]. cbn. split; [|by eapply Hle].
    rewrite bind_app. cbn. rewrite app_nil_r. eapply owned_perm; [apply Permutation_app_comm|done|done].
  - unfold settle. destruct (pending st !! n) as [u|] eqn:Eu; [|split; [done|apply uses_refl]]. cbn.
    assert (owned (held_by u ++ (base.delete n (pending st) ≫= held_by)) (store st)) as Ho'.
    { eapply owned_perm; [|done|exact Ho]. by rewrite (delete_Permutation _ _ _ Eu) at 2. }
    destruct u as [row o standing previous|undo]; cbn in *.
    + split; [by apply owned_restore|]. eapply Hle; [|by eapply restore_frame]. lia.
    + apply owned_restores in Ho' as [? Hu]. split; [done|]. eapply Hle; [|done]. lia.
  - unfold settle. destruct (pending st !! n) as [u|] eqn:Eu; [|split; [done|apply uses_refl]]. cbn.
    assert (owned (base.delete n (pending st) ≫= held_by) (store st)) as Ho'.
    { apply (owned_drop (held_by u)). eapply owned_perm; [|done|exact Ho]. by rewrite (delete_Permutation _ _ _ Eu) at 2. }
    destruct u as [row o standing previous|undo]; cbn in *; [split; [done|apply uses_refl]|].
    destruct (owned_drops undo _ _ Ho') as [? Hu]. split; [done|]. eapply Hle; [|done]. lia.
  - split; [by apply owned_clear|]. split; cbn; [lia|done].
Qed.

Lemma owned_run ops st :
  owned_state st →
  (next_sequence (store st) + N.of_nat (length ops) * N.of_nat (capacity (store st)) < 2 ^ 64)%N →
  owned_state (run_ops shuffle ops st) ∧ capacity (store (run_ops shuffle ops st)) = capacity (store st).
Proof.
  revert st. induction ops as [|op ops IH]; intros st Ho Hlt; [done|].
  change (run_ops shuffle (op :: ops) st) with (run_ops shuffle ops (step shuffle op st)). cbn [length] in Hlt.
  destruct (owned_step op st Ho) as [Ho' [Hn Hc]]; [lia|].
  destruct (IH _ Ho') as [Ho'' Hc']; [rewrite Hc; lia|]. split; [done|congruence].
Qed.

(** Fewer operations than there are sequences to number their snapshots with. *)
Definition enough_sequences (ops : list (Op J)) (cap : nat) : Prop :=
  (N.of_nat (length ops) * N.of_nat (Nat.max cap 1) < 2 ^ 64)%N.

Lemma owned_start ops cap :
  enough_sequences ops cap → owned_state (run_ops shuffle ops (start cap)).
Proof. intros Hn. apply owned_run; [apply owned_new|exact Hn]. Qed.

(** C20: After any operations, remembering, forgetting and invalidating, undo steps run
    or dropped in any order, and clears, the store keeps at most its capacity of
    snapshots, [order] lists exactly the snapshots there are, each under its own
    sequence, and no row is left without one. *)
Theorem baselines_stay_in_sync ops cap :
  enough_sequences ops cap →
  let s := store (run_ops shuffle ops (start cap)) in
  size (order s) ≤ Nat.max cap 1
  ∧ (∀ k row o, order s !! k = Some (row, o) ↔ ∃ e, baseline s row o = Some e ∧ sequence e = k)
  ∧ (∀ row, entries s !! row ≠ Some ∅).
Proof.
  intros Hn. destruct (owned_run ops (start cap)) as [[Hwf Hbd _ _ _] Hc]; [apply owned_new|exact Hn|].
  cbv zeta. unfold bounded in Hbd. rewrite Hc in Hbd. split_and!; [done|apply (wf_order _ Hwf)|].
  intros row Hrow. by apply (wf_nonempty _ Hwf) in Hrow.
Qed.

Lemma next_of_run ops st :
  owned_state st →
  (next_sequence (store st) + N.of_nat (length ops) * N.of_nat (capacity (store st)) < 2 ^ 64)%N →
  (next_sequence (store (run_ops shuffle ops st))
   ≤ next_sequence (store st) + N.of_nat (length ops) * N.of_nat (capacity (store st)))%N.
Proof.
  revert st. induction ops as [|op ops IH]; intros st Ho Hlt; [cbn; lia|].
  change (run_ops shuffle (op :: ops) st) with (run_ops shuffle ops (step shuffle op st)). cbn [length] in *.
  destruct (owned_step op st Ho) as [Ho' [Hn Hc]]; [lia|].
  etransitivity; [apply IH; [done|rewrite Hc; lia]|]. rewrite Hc. lia.
Qed.

Lemma owned_before ops op cap :
  enough_sequences (ops ++ [op]) cap →
  let st := run_ops shuffle ops (start cap) in
  owned_state st ∧ (next_sequence (store st) + N.of_nat (capacity (store st)) < 2 ^ 64)%N
  ∧ capacity (store st) = Nat.max cap 1.
Proof.
  unfold enough_sequences. rewrite length_app. cbn [length]. intros Hn.
  destruct (owned_run ops (start cap)) as [Ho Hc]; [apply owned_new|cbn in *; lia|].
  pose proof (next_of_run ops (start cap) (owned_new cap)) as Hnext. cbn [start store SnapshotStore_new next_sequence capacity] in *.
  split_and!; [done|rewrite Hc; lia|done].
Qed.

(** Forgetting never makes a baseline known that was not: when one is known for a
    row after a pool forgot its baseline, after a model type was invalidated or
    after everything was cleared, it was known, and the same, before; after a pool
    remembered one, it is the remembered one and every other pool of the row agrees
    with it, or the row was another and its baseline known before. *)
Theorem forgetting_reveals_nothing ops cap op row v :
  enough_sequences (ops ++ [op]) cap →
  let st := run_ops shuffle ops (start cap) in
  get (store (step shuffle op st)) row = Some v →
  match op with
  | SetBaseline r o (Some v') =>
      if decide (r = row)
      then v = v' ∧ ∀ p e, p ≠ o → baseline (store st) row p = Some e → values e = Some v'
      else get (store st) row = Some v
  | SetBaseline _ _ None | InvalidateModel _ | ClearAll => get (store st) row = Some v
  | RunUndo _ | DropUndo _ => True
  end.
Proof.
  intros Hn st. destruct (owned_before ops op cap Hn) as (Ho & Hlt & _). fold st in Ho, Hlt.
  pose proof (wf_capacity _ (owned_wf _ _ Ho)) as Hcap.
  destruct op as [r o v'|ty|n|n|]; cbn [step]; try done.
  - unfold set_baseline. destruct (replace r o v' (store st)) as [s' [previous standing]] eqn:Er. cbn [store].
    apply (replace_known _ _ _ _ _ _ _ _ Ho) in Er as [Hkept Hknown]; [|lia]. intros Hg.
    destruct (decide (r = row)) as [->|Hne]; [by apply Hknown|].
    destruct v'; by eapply row_kept_get, Hg; apply Hkept.
  - unfold invalidate_model. destruct (invalidate_each _ _) as [s' undo] eqn:Ei. cbn [store].
    pose proof (length_snapshots_of ty (store st) (owned_wf _ _ Ho)) as Hlen.
    pose proof (owned_bounded _ _ Ho) as Hbd. unfold bounded in Hbd.
    apply (invalidate_each_known _ _ _ _ _ Ho) in Ei as [Hkept Hnone]; [|rewrite Hshuffle; lia].
    intros Hg. destruct (decide (row.1 = ty)) as [Hty|Hty].
    + apply get_spec in Hg as [(o & e & He) Hall]. specialize (Hall o e He).
      apply Hnone in He as [He|[Hni He]]; [congruence|]. destruct Hni. rewrite Hshuffle.
      apply elem_of_snapshots_of. eauto.
    + eapply row_kept_get, Hg. apply Hkept. rewrite Hshuffle.
      intros ([r o] & -> & Hin)%list_elem_of_fmap. by apply elem_of_snapshots_of in Hin as [? _].
Qed.

(** The operations of code in a transaction. *)
Definition is_write (op : Op J) : Prop :=
  match op with SetBaseline _ _ _ | InvalidateModel _ => True | _ => False end.

(** Undoing one of them at once. *)
Lemma undo_write op st :
  owned_state st → (next_sequence (store st) + N.of_nat (capacity (store st)) < 2 ^ 64)%N →
  is_write op → size (order (store st)) < capacity (store st) →
  ∃ u, pending (step shuffle op st) = pending st ++ [u]
    ∧ same_snapshots (run_undo u (store (step shuffle op st))) (store st)
    ∧ size (order (store (step shuffle op st))) ≤ S (size (order (store st))).
Proof.
  intros Ho Hlt Hw Hroom. pose proof (wf_capacity _ (owned_wf _ _ Ho)) as Hcap.
  destruct op as [row o v|ty| | |]; try done; cbn [step].
  - unfold set_baseline. destruct (replace row o v (store st)) as [s' [previous standing]] eqn:Er.
    eexists. split_and!; [done|..]; cbn.
    + eapply restore_replace; [exact Ho|lia|done|done].
    + eapply replace_size; [exact Ho|lia|done].
  - unfold invalidate_model. destruct (invalidate_each _ _) as [s' undo] eqn:Ei. eexists. split; [done|]. cbn [store run_undo].
    pose proof (length_snapshots_of ty (store st) (owned_wf _ _ Ho)) as Hlen.
    assert (NoDup (shuffle (snapshots_of ty (store st)))) as Hnd by (rewrite Hshuffle; apply NoDup_snapshots_of).
    assert (length (shuffle (snapshots_of ty (store st))) < capacity (store st)) as Hl by (rewrite Hshuffle; lia).
    assert (next_sequence (store st) + N.of_nat (length (shuffle (snapshots_of ty (store st)))) < 2 ^ 64)%N as Hlt' by lia.
    destruct (owned_invalidate_each _ _ _ _ _ Ho Hlt' Ei) as [Ho' [_ Hc']].
    assert (∀ row o, (row, o) ∈ shuffle (snapshots_of ty (store st)) → is_Some (baseline (store st) row o)) as Hsome.
    { intros row o. rewrite Hshuffle, elem_of_snapshots_of. by intros [_ ?]. }
    destruct (invalidate_each_exact _ _ _ _ _ Ho Hlt' Hnd Hsome Ei) as (Hpl & Hst & Hout & Hsize).
    rewrite <- Hpl in Hnd, Hout.
    destruct (restores_exact undo _ s' Ho' Hnd) as [Hin' Hout'].
    { intros row o standing previous Hin. by apply (Hst _ _ _ _ Hin). }
    destruct (owned_restores undo _ s' Ho') as [Ho2 [_ Hc2]].
    destruct (wf_ext (foldl (λ s '(row, o, standing, previous), restore row o (Some standing) previous s) s' undo)
      (store st)) as [He Hord]; [apply (owned_wf _ _ Ho2)|apply (owned_wf _ _ Ho)| |split; [split_and!; [done|done|congruence]|lia]].
    intros r p. destruct (decide ((r, p) ∈ place_of <$> undo)) as [Hin|Hnin]; [|by rewrite Hout', Hout].
    apply list_elem_of_fmap in Hin as ([[[r' p'] standing] previous] & [= -> ->] & Hin).
    rewrite (Hin' _ _ _ _ Hin). by destruct (Hst _ _ _ _ Hin).
Qed.

(** A rollback: the last [k] undo steps run, the last one first. *)
Definition roll_back (n k : nat) : list (Op J) := (λ i, RunUndo (n + i)) <$> reverse (seq 0 k).

Lemma roll_back_S n k : roll_back n (S k) = roll_back (S n) k ++ [RunUndo n].
Proof.
  unfold roll_back. cbn [seq]. rewrite reverse_cons, fmap_app. f_equal.
  - rewrite <- fmap_S_seq, <- fmap_reverse, <- list_fmap_compose. apply list_fmap_ext. intros ? i _. cbn. f_equal. lia.
  - cbn. by rewrite Nat.add_0_r.
Qed.

Lemma run_ops_app ops1 ops2 st : run_ops shuffle (ops1 ++ ops2) st = run_ops shuffle ops2 (run_ops shuffle ops1 st).
Proof. apply foldl_app. Qed.

Lemma roll_back_writes writes st :
  owned_state st →
  (next_sequence (store st) + N.of_nat (length writes) * N.of_nat (capacity (store st)) < 2 ^ 64)%N →
  Forall is_write writes → size (order (store st)) + length writes ≤ capacity (store st) →
  let st' := run_ops shuffle (writes ++ roll_back (length (pending st)) (length writes)) st in
  pending st' = pending st ∧ same_snapshots (store st') (store st).
Proof.
  cbv zeta. revert st. induction writes as [|op writes IH]; intros st Ho Hlt Hw Hroom; [done|].
  apply list.Forall_cons in Hw as [Hop Hw]. cbn [length] in *.
  destruct (undo_write op st Ho) as (u & Hp & Hsame & Hsize); [lia|done|lia|].
  destruct (owned_step op st Ho) as [Ho1 [Hn1 Hc1]]; [lia|].
  destruct (IH (step shuffle op st) Ho1) as [Hp' Hsame']; [rewrite Hc1; lia|done|rewrite Hc1; lia|].
  rewrite roll_back_S, app_assoc, run_ops_app.
  change (run_ops shuffle ((op :: writes) ++ roll_back (S (length (pending st))) (length writes)) st)
    with (run_ops shuffle (writes ++ roll_back (S (length (pending st))) (length writes)) (step shuffle op st)).
  rewrite Hp, length_app, Nat.add_1_r in Hp', Hsame'.
  set (st1 := run_ops shuffle _ _) in *. cbn. unfold settle. rewrite Hp'.
  rewrite list_lookup_middle by done. cbn. split.
  - rewrite delete_middle. by rewrite app_nil_r.
  - destruct (same_run_undo u _ _ Hsame') as (E1 & E2 & E3). destruct Hsame as (F1 & F2 & F3).
    split_and!; congruence.
Qed.

(** C19: A transaction that rolls back leaves no trace in the store: whatever was done
    before, remembering, forgetting and invalidating in a transaction and then
    running its undo steps, the last first, gives back every snapshot and the order
    they would be evicted in, as long as the store had room for them. *)
Theorem rollback_restores_baselines ops writes cap :
  enough_sequences (ops ++ writes) cap → Forall is_write writes →
  let st := run_ops shuffle ops (start cap) in
  size (order (store st)) + length writes ≤ Nat.max cap 1 →
  let st' := run_ops shuffle (writes ++ roll_back (length (pending st)) (length writes)) st in
  pending st' = pending st ∧ entries (store st') = entries (store st) ∧ order (store st') = order (store st)
  ∧ ∀ row, get (store st') row = get (store st) row.
Proof.
  intros Hn Hw st Hroom. unfold enough_sequences in Hn. rewrite length_app in Hn.
  destruct (owned_run ops (start cap)) as [Ho Hc]; [apply owned_new|cbn; lia|].
  pose proof (next_of_run ops (start cap) (owned_new cap)) as Hnext. cbn in Hnext. fold st in Ho, Hc, Hnext. cbn in Hc.
  destruct (roll_back_writes writes st Ho) as (Hp & He & Hord & _); [rewrite Hc; lia|done|by rewrite Hc|].
  split_and!; [done|done|done|]. intros row. unfold get. by rewrite He.
Qed.
End runs.

(** ** Comparing with a remembered model *)

Section compare.
Context {M J : Type} `{EqDecision J} `{DirtyModel M J}.
Implicit Types (s : SnapshotStore J) (row : RowKey) (o : Origin).

(** The value a field compares by, if it has one. *)
Definition field_value (m : M) (field : str) : option J :=
  match field_compare_value m field with Ok v => v | Err _ => None end.

Lemma capture_fields_spec (m : M) (fields : list str) (snapshot snapshot' : SnapshotValues J) (field : str) :
  capture_fields m fields snapshot = Ok snapshot' →
  snapshot' !! field
  = if bool_decide (field ∈ fields) then (match field_value m field with Some v => Some v | None => snapshot !! field end)
    else snapshot !! field.
Proof.
  revert snapshot. induction fields as [|f fields IH]; intros snapshot; cbn; [by intros [= ->]|].
  destruct (field_compare_value m f) as [[v|]|e] eqn:Ef; [| |done]; intros Hc; rewrite (IH _ Hc).
  - destruct (decide (f = field)) as [->|Hne].
    + rewrite lookup_insert_eq, (bool_decide_true (field ∈ field :: _)) by by left.
      unfold field_value. rewrite Ef. by case_bool_decide.
    + rewrite lookup_insert_ne by done.
      erewrite (bool_decide_ext (field ∈ f :: fields) (field ∈ fields)); [done|]. rewrite elem_of_cons. naive_solver.
  - destruct (decide (f = field)) as [->|Hne].
    + rewrite (bool_decide_true (field ∈ field :: _)) by by left. unfold field_value. rewrite Ef. by case_bool_decide.
    + erewrite (bool_decide_ext (field ∈ f :: fields) (field ∈ fields)); [done|]. rewrite elem_of_cons. naive_solver.
Qed.

Lemma capture_snapshot_spec (m : M) (snapshot : SnapshotValues J) (field : str) :
  capture_snapshot m = Ok snapshot → field ∈ field_names → snapshot !! field = field_value m field.
Proof.
  intros Hc Hf. rewrite (capture_fields_spec _ _ _ _ _ Hc), bool_decide_true, lookup_empty by done.
  by destruct (field_value m field).
Qed.

Lemma changed_among_spec (m : M) (snapshot : SnapshotValues J) (fields : list str) :
  (∀ field, field ∈ fields → is_ok (field_compare_value m field)) →
  changed_among m snapshot fields = Ok (filter (λ f, field_value m f ≠ snapshot !! f) fields).
Proof.
  induction fields as [|f fields IH]; intros Hok; cbn [changed_among]; [done|].
  rewrite list.filter_cons. assert (is_ok (field_compare_value m f)) as Hf by (apply Hok; by left).
  assert (∀ v, field_compare_value m f = Ok v → field_value m f = v) as Hv by (unfold field_value; by intros v ->).
  destruct (field_compare_value m f) as [v|e] eqn:Ef; [|done]. rewrite (Hv v eq_refl).
  rewrite IH by (intros; apply Hok; by right). f_equal.
  case_bool_decide; [by rewrite decide_False by naive_solver|by rewrite decide_True].
Qed.

(** Remembering with room to spare. *)
Lemma replace_remembers row o (v : SnapshotValues J) s s' previous standing held :
  owned held s → (next_sequence s + 1 < 2 ^ 64)%N →
  is_Some (baseline s row o) ∨ size (order s) < capacity s →
  replace row o (Some v) s = (s', (previous, standing)) →
  (∃ e, baseline s' row o = Some e ∧ values e = Some v)
  ∧ ∀ p, p ≠ o → baseline s' row p = baseline s row p.
Proof.
  intros Ho Hlt Hroom. unfold replace. pose proof (take_spec row o s (owned_wf _ _ Ho)) as Ht.
  destruct (take row o s) as [s1 q] eqn:Et. destruct Ht as (_ & -> & Hc1 & Hn1 & Hsize & Hb1).
  pose proof (owned_take _ _ _ _ _ _ Ho Et) as Ho1. pose proof (owned_bounded _ _ Ho) as Hbd. unfold bounded in Hbd.
  assert (size (order s1) < capacity s1) as Hroom1.
  { destruct (baseline s row o) as [e|] eqn:Eb; [pose proof (size_pos _ _ _ _ (owned_wf _ _ Ho) Eb); lia|].
    destruct Hroom as [[? [=]]|]; lia. }
  pose proof (insert_exact row o (Some v) s1 _ Ho1) as Hi. destruct (insert row o (Some v) s1) as [s2 seq].
  cbn [fst] in Hi. intros [= <- _ _]. split.
  - eexists. split; [rewrite Hi by (lia || by right); by rewrite baseline_with_eq|done].
  - intros p Hp. rewrite Hi by (lia || by right). rewrite baseline_with_ne by congruence.
    rewrite Hb1. by rewrite baseline_with_ne by congruence.
Qed.

Context (shuffle : list (RowKey * Origin) → list (RowKey * Origin)).
Hypothesis Hshuffle : ∀ l, shuffle l ≡ₚ l.

(** Comparing with a remembered model is exact: after a model was remembered, with
    room in the store and no other pool holding anything else for its row, the
    changed fields of any model of that row are exactly the fields whose value
    differs from the remembered model's, in the order of the fields, and the
    original value of a field is the remembered model's. *)
Theorem changes_are_exact ops cap o (m m' : M) row snapshot st' :
  let st := run_ops shuffle ops (start cap) in
  enough_sequences (ops ++ [SetBaseline row o (Some snapshot)]) cap →
  remember_model o m st = (st', Ok tt) → capture_snapshot m = Ok snapshot →
  row_key_for_model m = Ok (Some row) → row_key_for_model m' = Ok (Some row) →
  (∀ p e, p ≠ o → baseline (store st) row p = Some e → values e = Some snapshot) →
  is_Some (baseline (store st) row o) ∨ size (order (store st)) < Nat.max cap 1 →
  (∀ field, field ∈ field_names → is_ok (field_compare_value m' field)) →
  changed_fields m' (store st')
  = Ok (Some (filter (λ f, field_value m' f ≠ field_value m f) field_names))
  ∧ ∀ field name, canonical_field_name field = Some name → name ∈ field_names →
      original_value m' field (store st') = Ok (Some (field_value m name)).
Proof.
  intros st Hn Hrem Hsnap Hrow Hrow' Hothers Hroom Hok.
  destruct (owned_before shuffle Hshuffle _ _ _ Hn) as (Ho & Hlt & Hc). fold st in Ho, Hlt, Hc.
  pose proof (wf_capacity _ (owned_wf _ _ Ho)) as Hcap.
  unfold remember_model in Hrem. rewrite Hrow, Hsnap in Hrem. injection Hrem as <-.
  unfold set_baseline. destruct (replace row o (Some snapshot) (store st)) as [s' [previous standing]] eqn:Er.
  cbn [store]. assert (get s' row = Some snapshot) as Hget.
  { rewrite <- Hc in Hroom. assert (next_sequence (store st) + 1 < 2 ^ 64)%N as Hlt1 by lia.
    destruct (replace_remembers _ _ _ _ _ _ _ _ Ho Hlt1 Hroom Er) as [(e & He & Hv) Hb].
    apply get_spec. split; [eauto|]. intros p e' He'. destruct (decide (p = o)) as [->|Hp]; [congruence|].
    rewrite Hb in He' by done. by eapply Hothers. }
  split.
  - unfold changed_fields, read_snapshot. rewrite Hrow', Hget. cbn. rewrite changed_among_spec by done.
    do 2 f_equal. apply filter_ext_elem. intros f Hf. by rewrite (capture_snapshot_spec m snapshot).
  - intros field name Hname Hf. unfold original_value, read_snapshot. rewrite Hname, Hrow', Hget. cbn.
    by rewrite (capture_snapshot_spec m snapshot).
Qed.
End compare.

(** ** At concrete models *)

Section demo.
(** A model is its key and one value, a field ["name"]. *)
#[local] Instance demo_dirty : DirtyModel (N * N) N := {
  type_id := 1;
  table_name := lit "users";
  field_names := [lit "name"];
  primary_key_is_new m := (m.1 =? 0)%N;
  primary_key_json m := Ok (show_N m.1);
  field_compare_value m f := Ok (if bool_decide (f = lit "name") then Some m.2 else None);
  canonical_field_name f := if bool_decide (f = lit "name") then Some f else None;
}.

Definition in_order (l : list (RowKey * Origin)) : list (RowKey * Origin) := l.

Definition snapshot_of (m : N * N) : SnapshotValues N := {[lit "name" := m.2]}.
Definition row_of (m : N * N) : RowKey := (1%N, show_N m.1).

(** Two pools remember row 7, one of them forgets it and the type is invalidated. *)
Definition demo_ops : list (Op N) :=
  [SetBaseline (row_of (7, 1)%N) None (Some (snapshot_of (7, 1)%N));
   SetBaseline (row_of (7, 1)%N) (Some 2%N) (Some (snapshot_of (7, 3)%N))].
Definition demo_writes : list (Op N) :=
  [SetBaseline (row_of (7, 1)%N) None None; InvalidateModel 1;
   SetBaseline (row_of (8, 1)%N) None (Some (snapshot_of (8, 1)%N))].

Lemma baselines_stay_in_sync_witness :
  enough_sequences (demo_ops ++ demo_writes) 3
  ∧ let s := store (run_ops in_order (demo_ops ++ demo_writes) (start 3)) in
    size (order s) ≤ 3
    ∧ (∀ k row o, order s !! k = Some (row, o) ↔ ∃ e, baseline s row o = Some e ∧ sequence e = k)
    ∧ (∀ row, entries s !! row ≠ Some ∅).
Proof.
  split; [vm_compute; reflexivity|].
  apply (baselines_stay_in_sync in_order (λ l, Permutation_refl l) (demo_ops ++ demo_writes) 3).
  vm_compute. reflexivity.
Defined.

Lemma forgetting_reveals_nothing_witness :
  get (store (run_ops in_order [SetBaseline (row_of (7, 1)%N) None (Some (snapshot_of (7, 1)%N))] (start 3)))
    (row_of (7, 1)%N) = Some (snapshot_of (7, 1)%N)
  ∧ snapshot_of (7, 1)%N = snapshot_of (7, 1)%N
  ∧ ∀ p e, p ≠ None → baseline (store (run_ops in_order [] (start 3))) (row_of (7, 1)%N) p = Some e →
      values e = Some (snapshot_of (7, 1)%N).
Proof.
  split; [vm_compute; reflexivity|].
  apply (forgetting_reveals_nothing in_order (λ l, Permutation_refl l) []
    3 (SetBaseline (row_of (7, 1)%N) None (Some (snapshot_of (7, 1)%N))) (row_of (7, 1)%N));
    vm_compute; reflexivity.
Defined.

Lemma rollback_restores_baselines_witness :
  let st := run_ops in_order demo_ops (start 8) in
  let st' := run_ops in_order (demo_writes ++ roll_back (length (pending st)) (length demo_writes)) st in
  pending st' = pending st ∧ entries (store st') = entries (store st) ∧ order (store st') = order (store st)
  ∧ ∀ row, get (store st') row = get (store st) row.
Proof.
  apply (rollback_restores_baselines in_order (λ l, Permutation_refl l) demo_ops demo_writes 8).
  - vm_compute. reflexivity.
  - repeat constructor.
  - vm_compute. lia.
Defined.

Lemma changes_are_exact_witness :
  changed_fields (7, 5)%N (store (remember_model None (7, 1)%N (start 3)).1)
  = Ok (Some (filter (λ f, field_value (7, 5)%N f ≠ field_value (7, 1)%N f) field_names))
  ∧ ∀ field name, canonical_field_name field = Some name → name ∈ field_names →
      original_value (7, 5)%N field (store (remember_model None (7, 1)%N (start 3)).1)
      = Ok (Some (field_value (7, 1)%N name)).
Proof.
  eapply (changes_are_exact in_order (λ l, Permutation_refl l) [] 3 None (7, 1)%N (7, 5)%N
    (row_of (7, 1)%N) (snapshot_of (7, 1)%N)).
  - vm_compute. reflexivity.
  - reflexivity.
  - vm_compute. reflexivity.
  - vm_compute. reflexivity.
  - vm_compute. reflexivity.
  - intros p e _ He. vm_compute in He. discriminate He.
  - right. vm_compute. lia.
  - intros field _. exact I.
Defined.

(** An undo step that left nothing behind cannot see a change that left nothing
    behind either: a row forgotten in a transaction comes back when it rolls back
    although everything was cleared since. *)
Theorem cleared_baseline_comes_back :
  let forgets := [SetBaseline (row_of (7, 1)%N) None (Some (snapshot_of (7, 1)%N));
                  DropUndo 0; SetBaseline (row_of (7, 1)%N) None None; ClearAll] in
  get (store (run_ops in_order forgets (start 3))) (row_of (7, 1)%N) = None
  ∧ get (store (run_ops in_order (forgets ++ [RunUndo 0]) (start 3))) (row_of (7, 1)%N)
    = Some (snapshot_of (7, 1)%N).
Proof. split; vm_compute; reflexivity. Qed.
End demo.
