(* ===== verification/Seeding.v ===== *)
(** * Seeds

    src/src/seeding.rs: the seeds of an application, run in the order of their
    dependencies and priorities, each whole with its row in the ledger, and
    reverted again. The database, its ledger and its transactions are those of
    Migrator.v, the order is Topology.v's.

    A seed's own work is a function on the data, as a migration's is. The lock is
    acquired and released by statements that may fail; inside a caller's
    transaction it is kept, once acquired, until that transaction ends. *)

From stdpp Require Import gmap.
From S2P Require Import Prelude Dialect MinHeap Topology Migrator.

Record SeedInfo := { seed_info_name : str }.

Record SeedResult := {
  executed : list SeedInfo;
  seeds_skipped : list SeedInfo;
  seeds_rolled_back : list SeedInfo;
}.

Definition SeedResult_default : SeedResult :=
  {| executed := []; seeds_skipped := []; seeds_rolled_back := [] |}.

Record SeedStatus := {
  seed_status_name : str; seed_status_executed : bool; seed_status_priority : N;
}.

Section seeding.
Context {D : Type}.

Record Seed := {
  seed_name : str;
  priority : N;
  depends_on : list str;
  seed_run : D → D * option MError;
  seed_rollback : D → D * option MError;
}.

Record Seeder := { seeds : list Seed }.

Definition Seeder_new : Seeder := {| seeds := [] |}.
Definition add_seed (s : Seeder) (x : Seed) : Seeder := {| seeds := seeds s ++ [x] |}.
Definition names (s : Seeder) : list str := seed_name <$> seeds s.

Local Notation "'let!' a := x 'in' k" := (bind x (λ a, k))
  (at level 200, a name, x at level 100, k at level 200).

(** [with_seed_lock]: [enclosing] is the caller's transaction, if there is one, and
    says whether it holds the lock already. *)
Definition with_seed_lock {A} (db : DatabaseType) (enclosing : option bool) (body : M A) : M (D := D) A :=
  match enclosing with
  | Some held =>
      let! _ := if held then ret tt else query in
      let! _ := match db with SQLite => let! _ := ensure db in query | _ => ret tt end in
      body
  | None => with_migration_lock body
  end.

(** The seeds by name, a later one taking the place of an earlier namesake. *)
Definition index_by_name (l : list Seed) : gmap str nat :=
  positions seed_name l.

Definition seed_edges (l : list Seed) : list (nat * nat) :=
  enumerate 0 l ≫= λ ix, (λ dependency, (dependency, ix.1)) <$> omap (λ d, index_by_name l !! d) (depends_on ix.2).

Definition seed_key (l : list Seed) (i : nat) : N * nat :=
  (default 0%N (priority <$> l !! i), i).

(** [None] is a panic. *)
Definition sort_seeds_by_priority_and_deps (s : Seeder) : option (result (list Seed) MError) :=
  let l := seeds s in
  '(sorted, cycle) ← topological_order (length l) (seed_edges l) (seed_key l);
  match cycle with
  | [] => Ok <$> mapM (λ i, l !! i) sorted
  | _ =>
      stuck ← mapM (λ i, l !! i) cycle;
      Some (Err (EConfiguration (lit "Circular seed dependency detected involving: "
        ++ join (lit ", ") (seed_name <$> sort_by_key priority stuck))))
  end.

(** A panic unwinds; the data stays as it is. *)
Definition sorted_seeds (s : Seeder) : M (D := D) (list Seed) :=
  match sort_seeds_by_priority_and_deps s with
  | Some (Ok l) => ret l
  | Some (Err e) => fail e
  | None => fail (EQuery (lit "panic"))
  end.

Definition open_ledger (db : DatabaseType) : M (D := D) unit := ensure db.

Definition apply (x : Seed) (recorded : bool) : M (D := D) unit :=
  transaction
    (let! _ := work (seed_run x) in
     if recorded then record (seed_name x) [] else ret tt).

Definition revert (x : Seed) : M (D := D) SeedInfo :=
  let! _ := transaction (let! _ := work (seed_rollback x) in remove_row (seed_name x)) in
  ret {| seed_info_name := seed_name x |}.

Definition find_seed (s : Seeder) (name : str) : result Seed MError :=
  match list_find (λ x, seed_name x = name) (seeds s) with
  | Some (_, x) => Ok x
  | None => Err (ENotFound (lit "Seed '" ++ name ++ lit "' not found"))
  end.

(** A dependency of [x] that neither the ledger nor this run has. *)
Definition missing_dependency (done : list str) (result : SeedResult) (x : Seed) : option str :=
  snd <$> list_find (λ d, d ∉ done ∧ d ∉ (seed_info_name <$> executed result)) (depends_on x).

(** The loop of [run_locked]. *)
Fixpoint run_seeds (done : list str) (l : list Seed) (result : SeedResult) : M (D := D) SeedResult :=
  match l with
  | [] => ret result
  | x :: l =>
      if bool_decide (seed_name x ∈ done) then
        run_seeds done l
          {| executed := executed result;
             seeds_skipped := seeds_skipped result ++ [{| seed_info_name := seed_name x |}];
             seeds_rolled_back := seeds_rolled_back result |}
      else match missing_dependency done result x with
      | Some d =>
          fail (EConfiguration (lit "Seed '" ++ seed_name x ++ lit "' depends on '" ++ d
            ++ lit "' which has not been executed"))
      | None =>
          let! _ := apply x true in
          run_seeds done l
            {| executed := executed result ++ [{| seed_info_name := seed_name x |}];
               seeds_skipped := seeds_skipped result;
               seeds_rolled_back := seeds_rolled_back result |}
      end
  end.

Definition run_seeds_locked (db : DatabaseType) (s : Seeder) : M SeedResult :=
  let! _ := open_ledger db in
  let! done := keys in
  let! l := sorted_seeds s in
  run_seeds done l SeedResult_default.

Definition seeder_run (db : DatabaseType) (enclosing : option bool) (s : Seeder) : M SeedResult :=
  with_seed_lock db enclosing (run_seeds_locked db s).

Definition run_seed (db : DatabaseType) (enclosing : option bool) (s : Seeder) (name : str) : M SeedResult :=
  match find_seed s name with
  | Err e => fail e
  | Ok x =>
      with_seed_lock db enclosing
        (let! _ := open_ledger db in
         let! ks := keys in
         let! _ := apply x (negb (bool_decide (name ∈ ks))) in
         ret {| executed := [{| seed_info_name := name |}]; seeds_skipped := []; seeds_rolled_back := [] |})
  end.

Definition rollback_seeds_locked (db : DatabaseType) (s : Seeder) : M SeedResult :=
  let! _ := open_ledger db in
  let! ks := keys in
  match list.last ks with
  | None => ret SeedResult_default
  | Some last_name =>
      match find_seed s last_name with
      | Err _ =>
          fail (ENotFound (lit "Seed '" ++ last_name
            ++ lit "' is the last one the _seeds table records, but this seeder does not register it; register it again to roll it back, or delete its _seeds row"))
      | Ok x =>
          let! info := revert x in
          ret {| executed := []; seeds_skipped := []; seeds_rolled_back := [info] |}
      end
  end.

Definition rollback_last_seed (db : DatabaseType) (enclosing : option bool) (s : Seeder) : M SeedResult :=
  with_seed_lock db enclosing (rollback_seeds_locked db s).

Definition rollback_seed (db : DatabaseType) (enclosing : option bool) (s : Seeder) (name : str)
    : M SeedResult :=
  match find_seed s name with
  | Err e => fail e
  | Ok x =>
      with_seed_lock db enclosing
        (let! _ := open_ledger db in
         let! info := revert x in
         ret {| executed := []; seeds_skipped := []; seeds_rolled_back := [info] |})
  end.

Fixpoint rollback_seed_steps_locked (db : DatabaseType) (s : Seeder) (steps : nat) (result : SeedResult)
    : M SeedResult :=
  match steps with
  | 0 => ret result
  | S steps =>
      let! step := rollback_seeds_locked db s in
      match seeds_rolled_back step with
      | [] => ret result
      | infos =>
          rollback_seed_steps_locked db s steps
            {| executed := executed result; seeds_skipped := seeds_skipped result;
               seeds_rolled_back := seeds_rolled_back result ++ infos |}
      end
  end.

Definition rollback_seed_steps (db : DatabaseType) (enclosing : option bool) (s : Seeder) (steps : nat)
    : M SeedResult :=
  if steps =? 0 then ret SeedResult_default
  else with_seed_lock db enclosing (rollback_seed_steps_locked db s steps SeedResult_default).

Definition reset_seeds_locked (db : DatabaseType) (s : Seeder) : M SeedResult :=
  let! _ := open_ledger db in
  let! ks := keys in
  rollback_seed_steps_locked db s (length ks) SeedResult_default.

Definition reset_seeds (db : DatabaseType) (enclosing : option bool) (s : Seeder) : M SeedResult :=
  with_seed_lock db enclosing (reset_seeds_locked db s).

Definition refresh_seeds (db : DatabaseType) (enclosing : option bool) (s : Seeder) : M SeedResult :=
  with_seed_lock db enclosing
    (let! r := reset_seeds_locked db s in
     let! a := run_seeds_locked db s in
     ret {| executed := executed a; seeds_skipped := seeds_skipped a;
            seeds_rolled_back := seeds_rolled_back r |}).

Definition seeds_status (db : DatabaseType) (s : Seeder) : M (list SeedStatus) :=
  let! _ := open_ledger db in
  let! ks := keys in
  let! l := sorted_seeds s in
  ret ((λ x, {| seed_status_name := seed_name x;
                seed_status_executed := bool_decide (seed_name x ∈ ks);
                seed_status_priority := priority x |}) <$> l).
End seeding.
Arguments Seed : clear implicits.
Arguments Seeder : clear implicits.

(** ** The order *)

Section order.
Context {D : Type}.
Implicit Types (l : list (Seed D)) (x y : Seed D) (s : Seeder D).

Lemma positions_lt {A} (name : A → str) (l : list A) k i : positions name l !! k = Some i → i < length l.
Proof.
  unfold positions.
  assert (∀ (l : list A) (m : gmap str nat) off, (∀ k i, m !! k = Some i → i < off) →
    ∀ k i, foldl (λ m ix, <[name ix.2 := ix.1]> m) m (enumerate off l) !! k = Some i → i < off + length l) as Hgen.
  { clear. induction l as [|x l IH]; intros m off Hm k i; cbn; [intros ?%Hm; lia|].
    intros Hk. apply IH in Hk; [lia|]. clear -Hm. intros k i [[_ <-]|[_ Hi]]%lookup_insert_Some; [cbn; lia|].
    specialize (Hm k i Hi). lia. }
  intros Hk. apply Hgen in Hk; [lia|]. intros k' i' Hi. by rewrite lookup_empty in Hi.
Qed.

(** An edge is a dependency that is registered. *)
Lemma elem_of_seed_edges l b a :
  (b, a) ∈ seed_edges l ↔ ∃ x d, l !! a = Some x ∧ d ∈ depends_on x ∧ index_by_name l !! d = Some b.
Proof.
  unfold seed_edges. rewrite list_elem_of_bind. split.
  - intros ([j x] & (b' & [= <- ->] & (d & Hd & Hb)%list_elem_of_omap)%list_elem_of_fmap & [i Hi]%list_elem_of_lookup).
    rewrite lookup_enumerate in Hi. destruct (l !! i) as [x'|] eqn:Ex; [|done]. injection Hi as <- <-.
    exists x', d. done.
  - intros (x & d & Ha & Hd & Hb). exists (a, x). split.
    + apply list_elem_of_fmap. exists b. split; [done|]. apply list_elem_of_omap. eauto.
    + apply list_elem_of_lookup. exists a. by rewrite lookup_enumerate, Ha.
Qed.

Lemma seed_edges_in_range l : in_range (length l) (seed_edges l).
Proof.
  apply list.Forall_forall. intros [b a] (x & d & Ha & _ & Hb)%elem_of_seed_edges. cbn.
  split; [by eapply positions_lt|by eapply lookup_lt_Some].
Qed.

(** What an order of the seeds has to be. *)
Record seed_order s l : Prop := {
  order_perm : l ≡ₚ seeds s;
  order_deps x y : x ∈ l → y ∈ l → seed_name y ∈ depends_on x → precedes y x l;
  order_greedy l1 x l2 y : l = l1 ++ x :: l2 → y ∈ x :: l2 →
    (∀ d, d ∈ depends_on y → d ∈ names s → d ∈ seed_name <$> l1) → (priority x ≤ priority y)%N;
}.

Lemma index_by_name_spec l d i :
  NoDup (seed_name <$> l) → index_by_name l !! d = Some i ↔ ∃ x, l !! i = Some x ∧ seed_name x = d.
Proof. apply positions_lookup. Qed.

Lemma sort_seeds_spec s :
  NoDup (names s) →
  (∃ l, sort_seeds_by_priority_and_deps s = Some (Ok l) ∧ seed_order s l)
  ∨ ∃ stuck,
      sort_seeds_by_priority_and_deps s
      = Some (Err (EConfiguration (lit "Circular seed dependency detected involving: "
          ++ join (lit ", ") (seed_name <$> sort_by_key priority stuck))))
      ∧ stuck ≠ [] ∧ (∀ x, x ∈ stuck → x ∈ seeds s)
      ∧ ∀ x, x ∈ stuck → ∃ y, y ∈ stuck ∧ seed_name y ∈ depends_on x.
Proof.
  intros Hnd. unfold sort_seeds_by_priority_and_deps, names in *. set (l := seeds s) in *.
  destruct (topological_order_correct (seed_key l) (length l) (seed_edges l) (seed_edges_in_range l))
    as (ordered & left_over & -> & Hperm & Hedges & Hgreedy & Hleft & Hstuck).
  assert (∀ i, i ∈ ordered ++ left_over → i < length l) as Hlt.
  { intros i Hi. rewrite Hperm in Hi. apply elem_of_seq in Hi. lia. }
  cbn [mbind option_bind]. destruct left_over as [|i0 js0] eqn:El.
  - left. destruct (at_indices_total l ordered) as (l' & -> & Hat).
    { apply list.Forall_forall. intros i Hi. apply Hlt. rewrite app_nil_r. done. }
    exists l'. split; [done|]. rewrite app_nil_r in Hperm. split.
    + by eapply at_indices_perm.
    + intros x y Hx Hy Hdep.
      apply (at_indices_elem _ _ _ _ Hat) in Hx as (a & Ha & Hx), Hy as (b & Hb & Hy).
      assert ((b, a) ∈ seed_edges l) as Hedge.
      { apply elem_of_seed_edges. exists x, (seed_name y). split_and!; [done|done|]. apply index_by_name_spec; eauto. }
      destruct (Hedges b a Hedge Ha) as (o1 & o2 & -> & Hb1).
      apply Forall2_app_inv_l in Hat as (l1 & l2 & Hat1 & Hat2 & ->).
      apply Forall2_cons_inv_l in Hat2 as (x' & l2' & Hx' & Hat2 & ->).
      exists l1, l2'. split; [congruence|]. apply (at_indices_elem _ _ _ _ Hat1). eauto.
    + intros l1 x l2 y -> Hy Hready.
      apply Forall2_app_inv_r in Hat as (o1 & o2 & Hat1 & Hat2 & ->).
      assert (NoDup (o1 ++ o2)) as Hndo by (rewrite Hperm; apply NoDup_seq).
      pose proof Hat2 as Hat2'. apply Forall2_cons_inv_r in Hat2' as (a & o2' & Hx & Hat2' & ->).
      apply (at_indices_elem _ _ _ _ Hat2) in Hy as (c & Hc & Hy).
      assert (leb (item (seed_key l) a) (item (seed_key l) c) = true) as Hle.
      { apply (Hgreedy o1 a o2' c eq_refl); [apply Hlt; rewrite app_nil_r; by apply elem_of_app; right| |].
        - intros Hc1. apply list.NoDup_app in Hndo as (_ & Hdisj & _). by apply (Hdisj c Hc1).
        - intros b (x' & d & Hx' & Hd & Hb)%elem_of_seed_edges. assert (x' = y) as -> by congruence.
          apply index_by_name_spec in Hb as (z & Hz & <-); [|done].
          assert (seed_name z ∈ seed_name <$> l1) as Hin.
          { apply Hready; [done|]. apply list_elem_of_fmap. exists z. split; [done|]. by eapply list_elem_of_lookup_2. }
          apply list_elem_of_fmap in Hin as (z' & Hzz & Hz').
          apply (at_indices_elem _ _ _ _ Hat1) in Hz' as (b' & Hb' & Hz').
          assert (b' = b) as ->; [|done].
          apply (NoDup_lookup (seed_name <$> l) b' b (seed_name z)); [done|..]; rewrite list_lookup_fmap; [by rewrite Hz', Hzz|by rewrite Hz]. }
      cbn in Hle. unfold seed_key in Hle. rewrite Hx, Hy in Hle. cbn in Hle.
      apply andb_true_iff in Hle as [Hle _]. apply andb_true_iff in Hle as [Hle _]. by apply N.leb_le.
  - right. rewrite <- El in *. assert (left_over ≠ []) as Hne by (by rewrite El).
    destruct (at_indices_total l left_over) as (stuck & Hm & Hat).
    { apply list.Forall_forall. intros i Hi. apply Hlt. apply elem_of_app. by right. }
    exists stuck. rewrite El in Hm |- *. rewrite Hm. cbn. split_and!; [done| | |].
    + intros ->. apply Forall2_nil_inv_r in Hat. done.
    + intros x (i & _ & Hx)%(at_indices_elem _ _ _ _ Hat). by eapply list_elem_of_lookup_2.
    + intros x (a & Ha & Hx)%(at_indices_elem _ _ _ _ Hat). destruct (Hstuck a Ha) as (b & Hedge & Hb).
      apply elem_of_seed_edges in Hedge as (x' & d & Hx' & Hd & Hi). assert (x' = x) as -> by congruence.
      apply index_by_name_spec in Hi as (y & Hy & <-); [|done]. exists y. split; [|done].
      apply (at_indices_elem _ _ _ _ Hat). eauto.
Qed.
End order.

(** ** Running *)

Section running.
Context {D : Type}.
Implicit Types (l : list (Seed D)) (x : Seed D) (s : Seeder D) (w : World D).

(** A seed runs as a migration does where DDL is transactional, its ledger row
    without details. *)
Definition as_migration x : Migration D :=
  {| version := seed_name x; name := []; foreign_keys_off := false;
     up := seed_run x; down := seed_rollback x |}.

Let no_check (_ : D) : list Violation := [].

Lemma apply_kept x w w' r :
  apply x true w = (w', r) →
  applied_one (as_migration x) (kept w) (kept w') ∨ (kept w' = kept w ∧ ∃ e, r = Err e).
Proof. apply (run_migration_kept no_check Postgres (as_migration x) true). done. Qed.

Lemma revert_kept x w w' r :
  revert x w = (w', r) →
  (reverted_one (as_migration x) (kept w) (kept w') ∨ (kept w' = kept w ∧ ∃ e, r = Err e))
  ∧ ∀ info, r = Ok info → info = {| seed_info_name := seed_name x |}.
Proof.
  unfold revert, bind. destruct (transaction _ w) as [w1 o] eqn:Et.
  apply (run_migration_kept no_check Postgres (as_migration x) false) in Et; [|done].
  destruct o as [[]|e]; intros [= <- <-]; split; try done.
  - destruct Et as [?|[? [e ?]]]; [by left|done].
  - by intros info [= <-].
  - destruct Et as [?|[? [e' ?]]]; [by left|right; eauto].
Qed.

(** The lock adds failures, and the empty ledger at most. *)
Lemma seed_lock_kept {A} db enclosing (body : M A) w w' r :
  with_seed_lock db enclosing body w = (w', r) →
  (schema w' = schema w ∧ ledger_of w' = ledger_of w ∧ ∃ e, r = Err e)
  ∨ ∃ w1 w2 o, schema w1 = schema w ∧ ledger_of w1 = ledger_of w ∧ body w1 = (w2, o)
      ∧ schema w' = schema w2 ∧ ledger_of w' = ledger_of w2 ∧ ∀ a, r = Ok a → o = Ok a.
Proof.
  destruct enclosing as [held|]; cbn [with_seed_lock].
  2: { intros [[[Hs Hl]%kept_parts [e ->]]|(w1 & w2 & o & [Hs Hl]%kept_parts & Hb & [Hs' Hl']%kept_parts & Ho)]%lock_kept;
       [left; eauto|right; exists w1, w2, o; by split_and!]. }
  assert (∀ (step : M unit) (k : M A) w w' r,
    (∀ w w' r, step w = (w', r) → schema w' = schema w ∧ ledger_of w' = ledger_of w) →
    bind step (λ _, k) w = (w', r) →
    (schema w' = schema w ∧ ledger_of w' = ledger_of w ∧ ∃ e, r = Err e)
    ∨ ∃ w1, schema w1 = schema w ∧ ledger_of w1 = ledger_of w ∧ k w1 = (w', r)) as Hbind.
  { clear. intros step k w w' r Hstep. unfold bind. destruct (step w) as [w1 [[]|e]] eqn:Es; apply Hstep in Es as [Hs Hl].
    - intros Hk. right. exists w1. done.
    - intros [= <- <-]. left. eauto. }
  assert (∀ w w' r, query (D := D) w = (w', r) → schema w' = schema w ∧ ledger_of w' = ledger_of w) as Hquery.
  { clear. intros w w' r Hq%query_kept. by apply kept_parts. }
  intros Hr. apply Hbind in Hr as [?|(w1 & Hs1 & Hl1 & Hr)]; [by left| |].
  2: { destruct held; [by intros ? ? ? [= <- <-]|done]. }
  apply Hbind in Hr as [(Hs & Hl & He)|(w2 & Hs2 & Hl2 & Hr)].
  - left. rewrite Hs, Hl. done.
  - right. exists w2, w', r. split_and!; try congruence.
  - clear -Hquery. intros w w' r. destruct db; try by intros [= <- <-].
    unfold bind. destruct (ensure SQLite w) as [w1 [[]|e]] eqn:Ee; apply ensure_kept in Ee as (Hs & Hl & _).
    + intros [Hs' Hl']%Hquery. split; congruence.
    + intros [= <- <-]. done.
Qed.

(** Every seed of [l] found its dependencies done, or run before it. *)
Definition after_dependencies (done : list str) l : Prop :=
  ∀ l1 x l2, l = l1 ++ x :: l2 → ∀ d, d ∈ depends_on x → d ∈ done ∨ d ∈ seed_name <$> l1.

Lemma missing_dependency_None done res x :
  missing_dependency done res x = None →
  ∀ d, d ∈ depends_on x → d ∈ done ∨ d ∈ (seed_info_name <$> executed res).
Proof.
  unfold missing_dependency. intros Hm%fmap_None d Hd. apply list_find_None in Hm.
  rewrite list.Forall_forall in Hm. specialize (Hm d Hd).
  destruct (decide (d ∈ done)); [by left|]. destruct (decide (d ∈ (seed_info_name <$> executed res))); [by right|].
  by destruct Hm.
Qed.

Definition infos_of l : list SeedInfo := (λ x, {| seed_info_name := seed_name x |}) <$> l.

Lemma names_of_infos l : seed_info_name <$> infos_of l = seed_name <$> l.
Proof. unfold infos_of. by rewrite <- list_fmap_compose. Qed.

Lemma run_seeds_kept done l res w w' r :
  run_seeds done l res w = (w', r) →
  ∃ now later,
    filter (λ x, seed_name x ∉ done) l = now ++ later
    ∧ applied_all (as_migration <$> now) (kept w) (kept w')
    ∧ after_dependencies (done ++ (seed_info_name <$> executed res)) now
    ∧ match r with
      | Ok res' =>
          later = [] ∧ executed res' = executed res ++ infos_of now
          ∧ seeds_skipped res' = seeds_skipped res ++ infos_of (filter (λ x, seed_name x ∈ done) l)
          ∧ seeds_rolled_back res' = seeds_rolled_back res
      | Err _ => True
      end.
Proof.
  assert (∀ done', after_dependencies done' []) as Hnil by (intros done' [|? ?] x l2; done).
  revert res w. induction l as [|x l IH]; intros res w.
  { intros [= <- <-]. exists [], []. split_and!; try done; [constructor|by rewrite app_nil_r..]. }
  cbn [run_seeds]. rewrite !list.filter_cons. case_bool_decide as Hin.
  - rewrite (decide_True (P := seed_name x ∈ done)) by done. rewrite decide_False by tauto.
    intros Hr. apply IH in Hr as (now & later & H1 & H2 & H3 & H4). exists now, later.
    split_and!; [done|done|done|]. destruct r as [res'|]; [|done]. cbn in H4.
    destruct H4 as (? & ? & Hs & ?). split_and!; try done. by rewrite Hs, <- app_assoc.
  - rewrite (decide_False (P := seed_name x ∈ done)), (decide_True (P := seed_name x ∉ done)) by done.
    destruct (missing_dependency done res x) as [d|] eqn:Em.
    { intros [= <- <-]. exists [], (x :: filter (λ x, seed_name x ∉ done) l). split_and!; try done. constructor. }
    assert (after_dependencies (done ++ (seed_info_name <$> executed res)) [x]) as Hdeps1.
    { intros [|? [|? ?]] ? ? [= <- ?] d Hd; try done. left. apply elem_of_app. by eapply missing_dependency_None. }
    unfold bind. destruct (apply x true w) as [w1 o] eqn:Ea.
    apply apply_kept in Ea as [Ha|[Hk [e ->]]]; [|intros [= <- <-]].
    2: { exists [], (x :: filter (λ x, seed_name x ∉ done) l). rewrite Hk. split_and!; try done. constructor. }
    destruct o as [[]|e].
    + intros Hr. apply IH in Hr as (now & later & H1 & H2 & H3 & H4). exists (x :: now), later.
      rewrite H1. split_and!; [done|by econstructor| |].
      * intros [|y l1] z l2 [= <- Hnow] d Hd; [by apply (Hdeps1 [] x [])|].
        destruct (H3 _ _ _ Hnow d Hd) as [Hd'|Hd']; cbn in *.
        -- rewrite fmap_app, app_assoc, elem_of_app in Hd'. destruct Hd' as [?|Hd']; [by left|].
           apply list_elem_of_singleton in Hd'. right. rewrite Hd'. by left.
        -- right. by right.
      * destruct r as [res'|]; [|done]. destruct H4 as (? & He & ? & ?). split_and!; try done.
        cbn in He. by rewrite He, <- app_assoc.
    + intros [= <- <-]. exists [x], (filter (λ x, seed_name x ∉ done) l).
      split_and!; [done|econstructor; [done|constructor]|done|done].
Qed.

(** The data after a list of seeds, if none fails, and their ledger rows. *)
Definition seeded l (d : D) : option D := migrated (as_migration <$> l) d.
Definition seed_rows l : list (str * str) := rows_of (as_migration <$> l).

(** [l] is next: the first pending seeds of an order, if any. *)
Definition next_pending s w l : Prop :=
  l = [] ∨ ∃ order later, seed_order s order
    ∧ filter (λ x, seed_name x ∉ (ledger_of w).*1) order = l ++ later.

Lemma run_seeds_locked_spec db s w w' r :
  NoDup (names s) → run_seeds_locked db s w = (w', r) →
  ∃ now,
    seeded now (schema w) = Some (schema w')
    ∧ ledger_of w' = ledger_of w ++ seed_rows now
    ∧ after_dependencies (ledger_of w).*1 now ∧ next_pending s w now
    ∧ match r with
      | Ok res =>
          ∃ l, seed_order s l ∧ now = filter (λ x, seed_name x ∉ (ledger_of w).*1) l
            ∧ executed res = infos_of now
            ∧ seeds_skipped res = infos_of (filter (λ x, seed_name x ∈ (ledger_of w).*1) l)
      | Err _ => True
      end.
Proof.
  intros Hnd. unfold run_seeds_locked, open_ledger.
  assert (∀ w', schema w' = schema w → ledger_of w' = ledger_of w →
    ∃ now, seeded now (schema w) = Some (schema w') ∧ ledger_of w' = ledger_of w ++ seed_rows now
      ∧ after_dependencies (ledger_of w).*1 now ∧ next_pending s w now ∧ True) as Hnone.
  { intros w0 Hs Hl. exists []. rewrite Hs, Hl, app_nil_r. split_and!; try done; [by intros [|? ?]|by left]. }
  unfold bind. destruct (ensure db w) as [w1 [[]|e]] eqn:Ee; apply ensure_kept in Ee as (Hs1 & Hl1 & Hr1 & _);
    [|intros [= <- <-]; by apply Hnone].
  specialize (Hr1 eq_refl). destruct (keys w1) as [w2 [ks|e]] eqn:Ek; apply keys_kept in Ek as [Hk2 Hks].
  2: { intros [= <- <-]. apply kept_parts in Hk2 as [Hs2 Hl2]. apply Hnone; congruence. }
  destruct Hks as [_ ->]. pose proof Hk2 as [Hs2 Hl2]%kept_parts.
  unfold kept in Hk2. injection Hk2 as _ Hr2.
  unfold sorted_seeds. destruct (sort_seeds_spec s Hnd) as [(l & -> & Hord)|(stuck & -> & _)].
  2: { intros [= <- <-]. apply Hnone; congruence. }
  intros Hrun. cbn [ret] in Hrun. apply run_seeds_kept in Hrun as (now & later & Hp & Ha & Hd & Hres).
  destruct (applied_all_spec _ _ _ Ha (ledger_of w)) as (H1 & H2 & _); [cbn; congruence|].
  cbn [fst snd kept] in H1, H2. rewrite Hs2, Hs1 in H1. rewrite Hl1 in *. exists now. split_and!.
  - done.
  - unfold ledger_of at 1. by rewrite H2.
  - cbn in Hd. by rewrite app_nil_r in Hd.
  - right. exists l, later. done.
  - destruct r as [res|]; [|done]. destruct Hres as (-> & He & Hsk & _). rewrite app_nil_r in Hp.
    exists l. by split_and!.
Qed.


Lemma find_seed_Ok s n x : find_seed s n = Ok x → x ∈ seeds s ∧ seed_name x = n.
Proof.
  unfold find_seed. destruct (list_find _ _) as [[i y]|] eqn:E; [|done]. intros [= <-].
  apply list_find_Some in E as (Hi & Hy & _). split; [by eapply list_elem_of_lookup_2|done].
Qed.

(** A rollback reverts the seed recorded last, with its row, or changes nothing; a
    last row of no registered seed makes it fail. *)
Lemma rollback_seeds_locked_spec db s w w' r :
  rollback_seeds_locked db s w = (w', r) →
  (schema w' = schema w ∧ ledger_of w' = ledger_of w
   ∧ ∀ res, r = Ok res → ledger_of w = [] ∧ seeds_rolled_back res = [])
  ∨ ∃ x row rows, x ∈ seeds s ∧ ledger_of w = rows ++ [row] ∧ row.1 = seed_name x
      ∧ seed_rollback x (schema w) = (schema w', None)
      ∧ ledger_of w' = filter (λ kv, kv.1 ≠ seed_name x) (ledger_of w)
      ∧ ∀ res, r = Ok res → seeds_rolled_back res = [{| seed_info_name := seed_name x |}].
Proof.
  unfold rollback_seeds_locked, open_ledger, bind.
  destruct (ensure db w) as [w1 [[]|e]] eqn:Ee; apply ensure_kept in Ee as (Hs1 & Hl1 & Hr1 & _);
    [|intros [= <- <-]; by left].
  specialize (Hr1 eq_refl). destruct (keys w1) as [w2 [ks|e]] eqn:Ek; apply keys_kept in Ek as [Hk2 Hks];
    pose proof Hk2 as [Hs2 Hl2]%kept_parts.
  2: { intros [= <- <-]. left. split_and!; [congruence|congruence|done]. }
  destruct Hks as [_ ->]. rewrite Hl1.
  destruct (list.last (ledger_of w).*1) as [n|] eqn:Elast.
  2: { intros [= <- <-]. left. split_and!; [congruence|congruence|]. intros res [= <-]. split; [|done].
       apply last_None in Elast. by destruct (ledger_of w). }
  destruct (find_seed s n) as [x|e] eqn:Ef.
  2: { intros [= <- <-]. left. split_and!; [congruence|congruence|done]. }
  apply find_seed_Ok in Ef as [Hx Hn].
  destruct (revert x w2) as [w3 o] eqn:Er. apply revert_kept in Er as [Hr Hinfo].
  assert (∃ row rows, ledger_of w = rows ++ [row] ∧ row.1 = n) as (row & rows & Hl & Hrow).
  { rewrite fmap_last in Elast. destruct (list.last (ledger_of w)) as [row|] eqn:E; [|done]. injection Elast as Hrow.
    apply last_Some in E as [rows Hl]. eauto. }
  destruct Hr as [(r0 & Hr0 & Hd & Hr1')|[Hk3 [e ->]]].
  - intros Heq. right. exists x, row, rows. cbn in Hr0, Hd, Hr1'.
    assert (ledger_of w = r0) as Hlr by (unfold ledger_of at 1 in Hl2; rewrite Hr0 in Hl2; cbn in Hl2; congruence).
    assert (w3 = w') as -> by (destruct o; injection Heq; congruence).
    split_and!; [done|done|congruence|rewrite Hs2, Hs1 in Hd; done| |].
    + unfold ledger_of at 1. rewrite Hr1'. cbn. by rewrite Hlr.
    + intros res ->. destruct o as [info|]; [|done]. injection Heq as <-. cbn. by rewrite (Hinfo info eq_refl).
  - intros [= <- <-]. apply kept_parts in Hk3 as [Hs3 Hl3]. left. split_and!; [congruence|congruence|done].
Qed.
End running.

(** ** At concrete seeds *)

Section demo.
(** The data is the list of the names of what was seeded. *)
Definition demo_seed (n : string) (p : N) (deps : list str) : Seed (list str) :=
  {| seed_name := lit n; priority := p; depends_on := deps;
     seed_run d := (d ++ [lit n], None); seed_rollback d := (removelast d, None) |}.

Definition demo_seeder : Seeder (list str) :=
  {| seeds := [demo_seed "orders" 1 [lit "users"]; demo_seed "users" 100 []; demo_seed "tags" 5 []] |}.

(** The commit of the second seed is lost. *)
Definition demo_world : World (list str) :=
  {| schema := []; rows := None;
     answers := [Good; Good; Good; Good; Good; Good; Good; Good; Failed (EDatabase 9) false] |}.


(** The first seed is in, the commit of the second failed. *)
Example demo_seeds_run :
  schema (seeder_run SQLite None demo_seeder demo_world).1 = [lit "tags"].
Proof. vm_compute. reflexivity. Qed.
End demo.
